(* ===== verification/_CoqProject ===== *)
-Q . S2P
Prelude.v
Prime.v
Vector.v
Sort.v
Hashtable.v
HashtableGrowth.v
Hashset.v
PriorityQueue.v
Ringbuf.v
RingbufConc.v
Protocol.v
Framing.v
Zcpool.v
Net.v
NetLifecycle.v
Batcher.v
Random.v
Broker.v
Barrier.v
LoadBalance.v
Clock.v
Service.v
Threadpool.v
Index.v
Lmdb.v
Logstore.v
LogstoreRecovery.v
LogstoreIntegrity.v
LogstoreWorker.v
LoggerFormat.v
Logger.v
Cstring.v
Perf.v
PerfShared.v
Ini.v
Configs.v
ConfigSave.v
Argv.v
DirectorConfig.v
Orchestration.v
Waitgroup.v
WorkerLoop.v
Users.v
UserLoop.v
TuiTable.v
TuiEntities.v
TuiConfig.v
TuiViews.v
Tui.v
SortPar.v
Signals.v
Sockets.v
Server.v
CrashDump.v
Files.v
Errors.v
Sysinfo.v
Renderer.v
