(* ===== verification/Prelude.v ===== *)
(** * Post Office: verification library

    The post office is a simulation of customers, tickets and counters that
    runs as several processes around a stack of C libraries.  This library
    models the parts that carry its logic as executable Rocq definitions,
    translated from the sources under [src/app], and proves what makes them
    correct.

    ** The program

    - [libs/ring0]: primes, the growable vector, the lock-free ring buffer,
      pseudo-random numbers; the vendored INI parser [inih].
    - [libs/ring1]: hash table, hash set, priority queue, thread pool, wait
      group, system information.
    - [libs/ring2]: sorting, the batcher (ring0 ring buffer plus an event
      counter), performance counters and metrics, the logger.
    - [libs/ring3]: the zero-copy buffer pool over the ring buffer; the log
      store (an append-only file with a memory index, an LMDB binding and a
      writing thread).
      Crash reports.
    - [libs/ring4]: wire header, framing and message calls over the pool;
      sockets and polling; the terminal renderer.
    - [src/utils]: configuration files, command lines, signals, file helpers
      and error texts.
    - [src/core/main]: the main program, which starts the director, and the
      text user interface.
    - [src/core/simulation]: the director (configuration, shared memory, child
      processes, clock, day barrier, load balancing), the work broker (tickets
      and one priority queue per service), the worker process and its threads,
      the users manager and its users.

    The main program starts the director, which resolves the configuration,
    creates the shared memory and starts the other processes with command
    lines of their own.  A customer asks the broker for a ticket and waits
    until it is served; a worker asks the broker for the next ticket of its
    service and serves it; the director drives the time and starts each day
    with a barrier that all processes join.

    ** Files

    - [Prelude]: machine integers, bounded loops, the allocator monad, the
      comparator contract [TotalOrderOn], arrays, counting, reachability.
    - [Prime] ([prime.c]), [Vector] ([vector.c]), [Sort] ([sort.c] and
      [po_vector_sort]), [SortPar] (the parallel branch of [sort.c] and its
      pool).
    - [Hashtable] ([hashtable.c]), [Hashset] ([hashset.c]); [HashtableGrowth]:
      when a table of at most [MAX_ENTRIES] keys can grow without failing.
      [KeyContract] is what the table asks of its callbacks and
      [HashtableLaws] what it promises its clients, [PriorityQueue] first.
    - [PriorityQueue] ([priority_queue.c]): heap in a vector, positions in a
      hash table.
    - [Ringbuf] ([ringbuf.c], undisturbed calls) and [RingbufConc] (the same
      code as atomic steps of any number of threads).
    - [Protocol] ([protocol.c], [protocol.h]), [Framing] ([framing.c]),
      [Zcpool] ([zerocopy.c]), [Net] ([net.c], one call at a time) and
      [NetLifecycle] (initialisation, use and shutdown of the pools as atomic
      steps).
    - [Batcher] ([batcher.c]: whole calls, and the steps inside them of any
      number of threads), [Random] ([random.c]), [Threadpool]
      ([threadpool.c]), [Waitgroup] ([waitgroup.c] with the client of
      [worker_core.c]).
    - [Broker] ([broker_core.c], [broker_handler.c]), [Barrier]
      ([director_time.c], [sim_client.c]), [LoadBalance] ([load_balance.c]),
      [Clock] ([director_time.c]), [Service] ([user_loop.c], [worker_loop.c],
      [worker_job.c]).
    - [Index] ([index.c]), [Lmdb] ([db_lmdb.c], over a parameter for LMDB),
      [Logstore] ([logstore.c]: records, flushing, look-up),
      [LogstoreRecovery] (opening and [logstore_rebuild.c]),
      [LogstoreIntegrity] ([logstore_integrity.c]), [LogstoreWorker]
      ([logstore_worker.c]: appenders, writing threads and closing as
      interleaved steps).
    - [LoggerFormat] ([logger.c]: lines, levels, sinks) and [Logger] (records,
      queues and consumer threads as interleaved steps).
    - [Cstring] ([strcmp] and friends), [Perf] ([perf.c], [metrics.c] in one
      process), [PerfShared] (the counters of many processes and threads).
    - [Ini] ([ini.c] with the options [src/app/Makefile] builds it with),
      [Configs] ([configs.c]: loading, reading, updating, saving), [ConfigSave]
      (saving and loading again, numbers).
    - [Argv] ([argv.c], with [getopt_long]), [DirectorConfig]
      ([director_config.c], [simulation_ipc.c], [director_setup.c]),
      [Orchestration] ([director_orch.c], [simulation_lifecycle.c] and the
      command lines of the worker, users manager and broker processes).
    - [WorkerLoop] ([worker_loop.c]: the threads of the worker process),
      [Users] ([users_spawn.c], [users_manager.c]), [UserLoop]
      ([user_loop.c]: the requests of one user).
    - [TuiTable] ([data_table.c]: keys and clicks of a table against the
      interface [DataTableAdapter], and the sort of its adapters),
      [TuiEntities] ([adapter_entities.c], [screen_entities.c]), [TuiConfig]
      ([screen_config.c]: the editor of configuration files), [TuiViews]
      ([tui_registry.c], [screen_logs.c], [log_tail_view.c], [screen_help.c],
      [screen_ipc.c]), [Tui] ([app_tui.c]: all screens together).
    - [Signals] ([signals.c] and the set-up of the processes), [Sockets]
      ([socket.c], [poller.c]), [Server] ([bridge_mainloop.c] and the loop of
      [broker_core.c]), [CrashDump] ([backtrace.c]).
    - [Files] ([files.c]), [Errors] ([errors.c]), [Sysinfo] ([sysinfo.c],
      [sampler.c], [hugeinfo.c], [fsinfo.c]), [Renderer]
      ([clay_ncurses_renderer.c]: clipping and drawing as calls of the
      terminal library).

    ** How code is modelled

    A C struct is a record, a pointer-sized array a list, an operation a
    function from the old state to its result and the new state; names follow
    the source.  Integers are [Z] with the wrap-around of their type written
    out ([u64], [u32], [i64], [i32]); strings are lists of bytes without the
    terminator.  Allocation is a monad over a schedule of outcomes: [always c
    Q] speaks of every schedule, [succeeds c Q] of those in which no
    allocation fails.  System calls are schedules of outcomes as well (partial
    transfers, interruptions, errors); files are byte lists.  [None] stands
    for an access out of bounds, undefined behaviour, or a call that would
    never return; theorems that a call returns exclude it.  Concurrent code is
    a step function per thread, interleaved by an inductive step relation and
    closed under reflexive transitive closure; invariants are shown by rule
    induction.  Log messages and the freeing of memory have no state in the
    model unless a theorem is about them.

    ** What is shown

    - Containers: each operation of vector, hash table, hash set and priority
      queue implements the corresponding operation on lists, finite maps, sets
      and ordered multisets, and keeps the representation invariant, for every
      allocator outcome where the code tolerates failure.
    - Sorting: termination, memory safety, and a sorted permutation; a
      permutation even when the merge buffers cannot be allocated; in parallel
      the same for every interleaving, with disjoint ranges.
    - Ring buffer: bounded FIFO through index wrap-around; under any
      interleaving every item that took a ticket is in the ring, with the
      thread that reads it or was returned, none twice, tickets are in order
      and no two threads touch one slot's item.
    - Network: frames and messages survive every split of the transfer; the
      buffer pool never hands a buffer out twice; receiving never leaks one;
      no interleaving uses a pool after its shutdown through a counted
      acquisition.
    - Thread pool, batcher, wait group: tasks run exactly once in order,
      graceful shutdown finishes them, waiting ends after the last task and
      not before, no task, item or waiter is stranded by a lost wake-up, in
      the batcher as long as no event write fails.
    - Storage: what was flushed is found again, both write paths leave the
      same file, database and index, a crash leaves a readable prefix,
      reopening restores the store, the integrity check prunes and counts
      exactly the damaged entries, closing writes everything accepted before
      it began, also where it then hangs.
    - Logging and metrics: lines fit their buffers, records are owned by one
      thread at a time, what was logged is written once, shutdown ends; shared
      counters are exact under any interleaving of processes.
    - Configuration: parsing inverts printing for INI files and command lines;
      a loaded file is the map of its first values, read up to the first line
      that is refused, unless a line without [=] makes the loader copy a null
      pointer; saving a file back is a round trip; the resolved configuration
      is complete and reaches every process through the command lines; set-up
      leaks nothing.
    - Simulation: the broker serves VIPs first and then by arrival, and every
      acknowledged customer is queued; the clock runs through the configured
      days minute by minute; no day starts before every process joined it;
      load balancing moves one idle worker from a shortest to a longest queue;
      jobs end and report their ticket; the worker threads work the same days;
      users never share a slot and make the configured number of requests; the
      director signals only children it still has.
    - User interface: no sequence of keys, clicks and frames leaves an array
      or follows a null pointer, with two exceptions that the theorem states
      (sorting an empty table, opening a file with a line without [=]);
      editing a value and saving changes exactly that value in the file; a
      click on a column sorts the rows stably; the command line and the log
      view show what they should.
    - System: every opened descriptor is returned or closed again whatever the
      system answers, the control bridge never leaks a connection and shares
      none as long as no [close] is interrupted, the flags of the signal
      set-up mean what they say with one exception, crash reports show no
      value of a variable with a sensitive name and dump memory in whole rows;
      directories are created with their parents exactly when nothing is in
      the way, the sizes of the memory are those the kernel wrote, a frame is
      drawn on the screen or at most one row and two columns beside it.
    - Where the code falls short the theorem says so with the input: equal
      arrival times and ticket 0 in the broker, customers overtaken by VIPs, a
      missed release of the day barrier, partial writes in the batcher,
      refused frames, double release, unequal huge pages, a wrapping reserve,
      a ring of capacity one, an uncounted pool access, two writers that hang
      on closing, a sentinel that does not fit into the ring, an append lost
      on closing, events that cannot be written, long metric names, comments
      doubled on saving, a wait group freed too early, shutdown signals that
      hang the worker process, a population control that overshoots, a
      stand-alone user that never waits, the sort of an empty table, a line
      without a value, a page down without entries, a failed load of a tab, a
      log view two lines short, connections the broker forgets, a close that
      hits another descriptor, a pool destroyed under the loop that uses it,
      wide characters at the edge of a clip, crash handlers that are removed
      again, frames without a name, processor times that wrap around, mounts
      with long options, clips nested too deep.

    ** Bounds and fuel

    - [loop d] runs a body at most [2 ^ d] times, with [d = 64] for 64-bit
      counters; [loop_exits] turns a decreasing measure into termination.
    - Recursion that the source bounds by an array or a heap takes the length
      as fuel ([sift_up], [sift_down], [flux_sort_rec], [insertion_sort]); each
      has a theorem that the fuel is not exhausted.  Readers of text take its
      length as fuel ([parse_lines], [save_lines], [getopt_scan]): each round
      consumes some of it.  An INI line starts in a buffer of [INI_INITIAL_ALLOC] = 200 bytes
      that is doubled at most [GROWTHS] = 3 times up to [INI_MAX_LINE] = 1024.
    - [MAX_ENTRIES] is [2 ^ 20]: up to it the binary32 load factor of a table is
      computed exactly enough and primes stay far below the wrap of [i * i].
    - A parallel sort of [n] elements takes at most [4 * n + 1] steps.
    - [JOB_ROUNDS] is 51: 500 ms in steps of 10 ms and the last test.
    - [IOV_MAX] is 1024, the limit of [writev] on Linux; ring capacities are
      powers of two from 2 to [2 ^ 59].
    - The numbers of tasks and user slots are below [2 ^ 31], the range of the
      counters that hold them.

    ** Not modelled

    The unwinding of the stack, the declarations of the screens' layout, the
    printing of the system information, and the start-up code of the
    processes, which are calls of libraries and of the system around the code
    modelled here.  Floating point numbers are fractions or fixed-point numbers
    in [Sysinfo] and [Renderer], without rounding; in [Renderer] the property
    is about the range in which the arithmetic of the source is exact.  File
    names [.] and [..] and symbolic links have no meaning of their own in
    [Files].  Writing to the database inside a read transaction, which the
    integrity check does and LMDB forbids, is taken as a write. *)

From Stdlib Require Import ZArith Lia.
From stdpp Require Import base list numbers sorting.

Local Open Scope Z_scope.

(** ** Machine integers

    A [w]-bit C integer is a [Z] together with the wrap-around of its type,
    written out at the places where the source computes. *)

Definition u64 (z : Z) : Z := z mod 2 ^ 64.
Definition u32 (z : Z) : Z := z mod 2 ^ 32.
Definition u16 (z : Z) : Z := z mod 2 ^ 16.
Definition u8 (z : Z) : Z := z mod 2 ^ 8.

(** Two's complement reading of a [w]-bit pattern. *)
Definition signed (w z : Z) : Z :=
  let r := z mod 2 ^ w in if r <? 2 ^ (w - 1) then r else r - 2 ^ w.
Definition i64 (z : Z) : Z := signed 64 z.
Definition i32 (z : Z) : Z := signed 32 z.

(** [sizeof(void * )] on the LP64 targets the build supports. *)
Definition SIZEOF_PTR : Z := 8.

(** The [errno] values the modelled code sets. *)
Inductive errno : Type :=
| EINVAL | EAGAIN | EEXIST | ENOMEM | EMSGSIZE | EPROTO | EPROTONOSUPPORT
| EIO | EINTR | ZCP_EMMAP | EOTHER.

(** ** Loops

    [loop d step s] runs a loop body at most [2 ^ d] times; [inl] continues
    with a new loop state, [inr] leaves the loop.  The exponent keeps the
    bound of a 64-bit counter executable. *)

Fixpoint loop {S R : Type} (d : nat) (step : S → S + R) (s : S) : S + R :=
  match d with
  | O => step s
  | Datatypes.S d' =>
      match loop d' step s with
      | inl s' => loop d' step s'
      | inr r => inr r
      end
  end.

(** ** Allocation

    The outcome of each [malloc], [calloc] or [realloc] call is read from a
    schedule; an exhausted schedule means success.  Every finite run of the
    allocator is one such schedule. *)

Definition alloc (A : Type) : Type := list bool → A * list bool.

Definition malloc : alloc bool :=
  λ m, match m with [] => (true, []) | b :: m' => (b, m') end.

(** glibc refuses requests above [PTRDIFF_MAX] bytes. *)
Definition PTRDIFF_MAX : Z := 2 ^ 63 - 1.

Global Instance alloc_ret : MRet alloc := λ A a m, (a, m).
Global Instance alloc_bind : MBind alloc :=
  λ A B f c m, let '(a, m') := c m in f a m'.

Definition malloc_bytes (bytes : Z) : alloc bool :=
  if bytes <=? PTRDIFF_MAX then malloc else mret false.

(** No allocation of the schedule fails. *)
Definition no_fail (m : list bool) : Prop := Forall (λ b, b = true) m.

(** [always c Q]: [c] ends in [Q] whatever the allocator answers;
    [succeeds c Q]: it does so when no allocation fails. *)
Definition always {A} (c : alloc A) (Q : A → Prop) : Prop := ∀ m, Q (c m).1.
Definition succeeds {A} (c : alloc A) (Q : A → Prop) : Prop :=
  ∀ m, no_fail m → Q (c m).1 ∧ no_fail (c m).2.

(** ** Comparators

    C comparison callbacks return an [int]; the contract the containers and
    the sort rely on, relative to the keys [D] in use. *)

Class TotalOrderOn {A} (D : A → Prop) (cmp : A → A → Z) : Prop := {
  cmp_refl : ∀ a, D a → cmp a a = 0;
  cmp_sgn : ∀ a b, D a → D b → (cmp a b < 0 ↔ 0 < cmp b a);
  cmp_trans : ∀ a b c, D a → D b → D c → cmp a b <= 0 → cmp b c <= 0 → cmp a c <= 0
}.

(** ** Arrays

    An array of pointer-sized cells is a list; indices and sizes are [size_t]
    values, read as [Z]. *)

Notation "d .[ i ]" := (d !! Z.to_nat i) (at level 1, left associativity, format "d .[ i ]") : stdpp_scope.

(** [memmove(&d[dst], &d[src], n * sizeof( *d))] *)
Definition memmove {A} (d : list A) (dst src n : Z) : list A :=
  take (Z.to_nat dst) d ++ take (Z.to_nat n) (drop (Z.to_nat src) d)
    ++ drop (Z.to_nat dst + Z.to_nat n) d.

(** Cells of a block of [bytes] bytes; [realloc] keeps the common prefix and
    leaves [junk] in the new cells. *)
Definition cells (bytes : Z) : nat := Z.to_nat (bytes / SIZEOF_PTR).
Definition resize_block {A} (junk : A) (n : nat) (d : list A) : list A :=
  take n d ++ replicate (n - length d) junk.

(** [swap l i j] exchanges two cells; [None] is an access out of bounds. *)
Definition swap {A} (l : list A) (i j : nat) : option (list A) :=
  x ← l !! i; y ← l !! j; Some (<[i := y]> (<[j := x]> l)).

(** ** Reachability *)

Inductive star {S} (R : S → S → Prop) : S → S → Prop :=
| star_refl a : star R a a
| star_step a b c : R a b → star R b c → star R a c.

(** * Lemmas *)

Create HintDb po discriminated.

(** [lia] after naming quotients and remainders. *)
Ltac zlia := Z.to_euclidean_division_equations; lia.

Lemma u64_small z : 0 <= z < 2 ^ 64 → u64 z = z.
Proof. apply Z.mod_small. Qed.

Lemma u32_small z : 0 <= z < 2 ^ 32 → u32 z = z.
Proof. apply Z.mod_small. Qed.

Lemma u64_range z : 0 <= u64 z < 2 ^ 64.
Proof. apply Z.mod_pos_bound. lia. Qed.

Lemma u32_range z : 0 <= u32 z < 2 ^ 32.
Proof. apply Z.mod_pos_bound. lia. Qed.

Lemma u8_range z : 0 <= u8 z < 2 ^ 8.
Proof. apply Z.mod_pos_bound. lia. Qed.

Lemma u64_u64 z : u64 (u64 z) = u64 z.
Proof. unfold u64. by rewrite Z.mod_mod. Qed.

Lemma u64_add_l a b : u64 (u64 a + b) = u64 (a + b).
Proof. unfold u64. by rewrite Z.add_mod_idemp_l. Qed.

Lemma signed_small w z :
  0 < w → - 2 ^ (w - 1) <= z < 2 ^ (w - 1) → signed w z = z.
Proof.
  intros Hw [H1 H2]. unfold signed.
  assert (2 ^ w = 2 * 2 ^ (w - 1)) as E.
  { rewrite <- Z.pow_succ_r by lia. f_equal. lia. }
  assert (0 < 2 ^ (w - 1)) by (apply Z.pow_pos_nonneg; lia).
  destruct (Z.le_gt_cases 0 z).
  - rewrite Z.mod_small by lia. case (Z.ltb_spec z (2 ^ (w - 1))); lia.
  - assert (z mod 2 ^ w = z + 2 ^ w) as ->.
    { symmetry. apply (Z.mod_unique _ _ (-1)); lia. }
    case (Z.ltb_spec (z + 2 ^ w) (2 ^ (w - 1))); lia.
Qed.

Lemma signed_range w z : 0 < w → - 2 ^ (w - 1) <= signed w z < 2 ^ (w - 1).
Proof.
  intros Hw. unfold signed.
  assert (2 ^ w = 2 * 2 ^ (w - 1)) as E.
  { rewrite <- Z.pow_succ_r by lia. f_equal. lia. }
  assert (0 < 2 ^ (w - 1)) by (apply Z.pow_pos_nonneg; lia).
  pose proof (Z.mod_pos_bound z (2 ^ w) ltac:(lia)).
  case (Z.ltb_spec (z mod 2 ^ w) (2 ^ (w - 1))); lia.
Qed.

(** *** Loops *)

(** A loop whose body keeps [I] and decreases a measure below [2 ^ d] leaves
    the loop, and what it leaves with satisfies what the exits establish. *)
Lemma loop_total {S R} (I : S → Prop) (Q : R → Prop) (μ : S → Z)
    (step : S → S + R) :
  (∀ s, I s → match step s with
              | inl s' => I s' ∧ 0 <= μ s' < μ s
              | inr r => Q r end) →
  ∀ d s, I s →
    match loop d step s with
    | inl s' => I s' ∧ 0 <= μ s' ∧ μ s' + 2 ^ (Z.of_nat d) <= μ s
    | inr r => Q r end.
Proof.
  intros Hstep d. induction d as [|d IH]; intros s Hs.
  - specialize (Hstep s Hs). simpl. destruct (step s); [|done].
    change (2 ^ Z.of_nat 0) with 1. destruct Hstep as [? ?]. split; [done|lia].
  - simpl loop. pose proof (IH s Hs) as H1. destruct (loop d step s) as [s1|r]; [|done].
    destruct H1 as (HI1 & H0 & H1). pose proof (IH s1 HI1) as H2.
    destruct (loop d step s1) as [s2|r]; [|done].
    destruct H2 as (HI2 & H3 & H2). split; [done|]. split; [done|].
    rewrite Nat2Z.inj_succ, Z.pow_succ_r by lia. lia.
Qed.

Corollary loop_exits {S R} (I : S → Prop) (Q : R → Prop) (μ : S → Z)
    (step : S → S + R) d s :
  (∀ s, I s → match step s with
              | inl s' => I s' ∧ 0 <= μ s' < μ s
              | inr r => Q r end) →
  I s → μ s < 2 ^ (Z.of_nat d) →
  ∃ r, loop d step s = inr r ∧ Q r.
Proof.
  intros Hstep Hs Hμ. pose proof (loop_total I Q μ step Hstep d s Hs) as H.
  destruct (loop d step s); [lia|eauto].
Qed.

(** *** Allocation *)

Lemma no_fail_nil : no_fail [].
Proof. constructor. Qed.

Lemma always_ret {A} (a : A) (Q : A → Prop) : Q a → always (mret a) Q.
Proof. intros H m. exact H. Qed.

Lemma always_bind {A B} (c : alloc A) (f : A → alloc B) Q :
  always c (λ a, always (f a) Q) → always (c ≫= f) Q.
Proof.
  intros H m. specialize (H m). unfold mbind, alloc_bind.
  destruct (c m) as [a m']. apply H.
Qed.

Lemma always_malloc (Q : bool → Prop) : (∀ b, Q b) → always malloc Q.
Proof. intros H m. apply H. Qed.

Lemma always_mono {A} (c : alloc A) (P Q : A → Prop) :
  always c P → (∀ a, P a → Q a) → always c Q.
Proof. intros H HPQ m. apply HPQ, H. Qed.

Lemma succeeds_ret {A} (a : A) (Q : A → Prop) : Q a → succeeds (mret a) Q.
Proof. intros H m Hm. by split. Qed.

Lemma succeeds_bind {A B} (c : alloc A) (f : A → alloc B) Q :
  succeeds c (λ a, succeeds (f a) Q) → succeeds (c ≫= f) Q.
Proof.
  intros H m Hm. specialize (H m Hm). unfold mbind, alloc_bind.
  destruct (c m) as [a m']. destruct H as [H1 H2]. by apply H1.
Qed.

Lemma succeeds_malloc (Q : bool → Prop) : Q true → succeeds malloc Q.
Proof.
  intros H m Hm. destruct Hm as [|b m Hb Hm]; simpl; [by split; [|constructor]|].
  by subst.
Qed.

Lemma succeeds_mono {A} (c : alloc A) (P Q : A → Prop) :
  succeeds c P → (∀ a, P a → Q a) → succeeds c Q.
Proof. intros H HPQ m Hm. destruct (H m Hm). auto. Qed.

Lemma always_succeeds {A} (c : alloc A) (P Q : A → Prop) :
  always c P → succeeds c Q → succeeds c (λ a, P a ∧ Q a).
Proof. intros H1 H2 m Hm. destruct (H2 m Hm). specialize (H1 m). auto. Qed.

Lemma always_conj {A} (c : alloc A) (P Q : A → Prop) :
  always c P → always c Q → always c (λ a, P a ∧ Q a).
Proof. intros H1 H2 m. split; auto. Qed.

Lemma always_malloc_bytes n (Q : bool → Prop) :
  Q false → (n <= PTRDIFF_MAX → Q true) → always (malloc_bytes n) Q.
Proof.
  intros Hf Ht. unfold malloc_bytes. case (Z.leb_spec n PTRDIFF_MAX); intros Hn.
  - apply always_malloc. intros []; auto.
  - by apply always_ret.
Qed.

Lemma succeeds_malloc_bytes n (Q : bool → Prop) :
  n <= PTRDIFF_MAX → Q true → succeeds (malloc_bytes n) Q.
Proof.
  intros Hn HQ. unfold malloc_bytes. case (Z.leb_spec n PTRDIFF_MAX); [|lia].
  intros _. by apply succeeds_malloc.
Qed.

Lemma succeeds_malloc_bytes_any n (Q : bool → Prop) : (∀ b, Q b) → succeeds (malloc_bytes n) Q.
Proof.
  intros HQ. unfold malloc_bytes. destruct (n <=? PTRDIFF_MAX); [by apply succeeds_malloc|by apply succeeds_ret].
Qed.

(** ** Counting the elements with a property *)

(** Replacing one element of a list, seen through [concat]. *)
Lemma concat_insert {A B} (f : A → list B) (l : list A) i w w' :
  l !! i = Some w → ∃ a b, concat (f <$> l) = a ++ f w ++ b ∧ concat (f <$> <[i := w']> l) = a ++ f w' ++ b.
Proof.
  intros H. destruct (list_elem_of_split_length l i w H) as (l1 & l2 & -> & ->).
  exists (concat (f <$> l1)), (concat (f <$> l2)).
  rewrite insert_app_r_alt, Nat.sub_diag by done. cbn. rewrite !fmap_app, !concat_app. done.
Qed.

Fixpoint count_if {A} (f : A → bool) (l : list A) : Z :=
  match l with [] => 0 | x :: l => (if f x then 1 else 0) + count_if f l end.

Section count.
  Context {A : Type} (f : A → bool).
  Implicit Types (l : list A).

Lemma count_bounds l : 0 <= count_if f l <= Z.of_nat (length l).
Proof. induction l as [|x l IH]; simpl; [done|]. destruct (f x); lia. Qed.

Lemma count_insert l i x y :
  l !! i = Some x → count_if f (<[i := y]> l) = count_if f l - (if f x then 1 else 0) + (if f y then 1 else 0).
Proof.
  revert i. induction l as [|a l IH]; intros [|i] H; simpl in *; simplify_eq; [|rewrite (IH i H)]; repeat case_match; lia.
Qed.

Lemma count_elem l i x : l !! i = Some x → f x = true → 1 <= count_if f l.
Proof.
  revert i. induction l as [|a l IH]; intros [|i] H Hf; simpl in *; simplify_eq.
  - rewrite Hf. pose proof (count_bounds l). lia.
  - specialize (IH i H Hf). destruct (f a); lia.
Qed.

Lemma count_room l i x : l !! i = Some x → f x = false → count_if f l < Z.of_nat (length l).
Proof.
  revert i. induction l as [|a l IH]; intros [|i] H Hf; simpl in *; simplify_eq.
  - rewrite Hf. pose proof (count_bounds l). lia.
  - specialize (IH i H Hf). destruct (f a); lia.
Qed.

Lemma count_pos l : 0 < count_if f l → ∃ i x, l !! i = Some x ∧ f x = true.
Proof.
  induction l as [|a l IH]; simpl; [lia|]. destruct (f a) eqn:E; [by exists 0%nat, a|]. intros H.
  destruct IH as (i & x & ? & ?); [lia|]. by exists (S i), x.
Qed.

Lemma count_lack l : count_if f l < Z.of_nat (length l) → ∃ i x, l !! i = Some x ∧ f x = false.
Proof.
  induction l as [|a l IH]; simpl; [lia|]. destruct (f a) eqn:E; [|by exists 0%nat, a]. intros H.
  destruct IH as (i & x & ? & ?); [lia|]. by exists (S i), x.
Qed.

Lemma count_none l : (∀ i x, l !! i = Some x → f x = false) → count_if f l = 0.
Proof.
  intros H. pose proof (count_bounds l). destruct (decide (count_if f l = 0)) as [|Hne]; [done|].
  destruct (count_pos l) as (i & x & Hi & Hx); [lia|]. by rewrite (H i x Hi) in Hx.
Qed.

Lemma count_app l k : count_if f (l ++ k) = count_if f l + count_if f k.
Proof. induction l as [|a l IH]; simpl; [done|]. rewrite IH. lia. Qed.

(** All but one, and exactly one. *)
Lemma count_others l i x :
  l !! i = Some x → f x = false → count_if f l + 1 = Z.of_nat (length l) → ∀ j y, l !! j = Some y → j ≠ i → f y = true.
Proof.
  intros Hi Hf Hc j y Hj Hne. destruct (f y) eqn:Hy; [done|exfalso].
  revert i j Hi Hj Hne Hc. induction l as [|a l IH]; intros i j Hi Hj Hne Hc; [done|]. simpl in Hc. pose proof (count_bounds l).
  destruct i as [|i], j as [|j]; simpl in Hi, Hj; simplify_eq.
  - rewrite Hf in Hc. pose proof (count_room l j y Hj Hy). lia.
  - rewrite Hy in Hc. pose proof (count_room l i x Hi Hf). lia.
  - pose proof (count_room l i x Hi Hf). destruct (f a); [|lia]. apply (IH i j Hi Hj); lia.
Qed.

Lemma count_single l i x :
  l !! i = Some x → f x = true → (∀ j y, l !! j = Some y → j ≠ i → f y = false) → count_if f l = 1.
Proof.
  revert i. induction l as [|a l IH]; intros [|i] Hi Hf Ho; simpl in *; simplify_eq.
  - rewrite Hf, count_none; [done|]. intros j y Hj. by apply (Ho (S j) y).
  - rewrite (Ho 0%nat a) by done. rewrite (IH i); [done|done|done|]. intros j y Hj Hne. apply (Ho (S j) y Hj). lia.
Qed.

End count.

#[export] Hint Resolve no_fail_nil always_ret succeeds_ret succeeds_malloc : po.

(** *** Comparators *)

Section comparators.
Context {A : Type} (D : A → Prop) (cmp : A → A → Z) `{!TotalOrderOn D cmp}.

Lemma cmp_zero_sym a b : D a → D b → cmp a b = 0 → cmp b a = 0.
Proof using Type*.
  intros Ha Hb E. pose proof (cmp_sgn a b Ha Hb). pose proof (cmp_sgn b a Hb Ha). lia.
Qed.

Lemma cmp_le_total a b : D a → D b → cmp a b <= 0 ∨ cmp b a <= 0.
Proof using Type*. intros Ha Hb. pose proof (cmp_sgn a b Ha Hb). lia. Qed.

Lemma cmp_nlt a b : D a → D b → ¬ cmp a b < 0 → cmp b a <= 0.
Proof using Type*. intros Ha Hb ?. pose proof (cmp_sgn a b Ha Hb). lia. Qed.

Lemma cmp_lt_le a b : D a → D b → cmp a b < 0 → cmp a b <= 0.
Proof using Type*. lia. Qed.

Lemma cmp_zero_trans a b c :
  D a → D b → D c → cmp a b = 0 → cmp b c = 0 → cmp a c = 0.
Proof using Type*.
  intros Ha Hb Hc E1 E2.
  pose proof (cmp_zero_sym _ _ Ha Hb E1). pose proof (cmp_zero_sym _ _ Hb Hc E2).
  assert (cmp a c <= 0) by (apply (cmp_trans a b c); auto; lia).
  assert (cmp c a <= 0) by (apply (cmp_trans c b a); auto; lia).
  pose proof (cmp_sgn a c Ha Hc). pose proof (cmp_sgn c a Hc Ha). lia.
Qed.
End comparators.

(** *** Lists *)

Lemma swap_spec {A} (l : list A) i j x y :
  l !! i = Some x → l !! j = Some y →
  swap l i j = Some (<[i := y]> (<[j := x]> l)).
Proof. intros Hx Hy. unfold swap. by rewrite Hx; simpl; rewrite Hy. Qed.

Lemma swap_length {A} (l l' : list A) i j :
  swap l i j = Some l' → length l' = length l.
Proof.
  unfold swap. intros H. destruct (l !! i); simpl in H; [|done].
  destruct (l !! j); simpl in H; [|done]. injection H as <-. by rewrite !length_insert.
Qed.

Lemma insert_Permutation_cons {A} (l : list A) i x z :
  l !! i = Some x → z :: l ≡ₚ x :: <[i := z]> l.
Proof.
  revert i. induction l as [|a l IH]; intros [|i] Hi; simpl in *; simplify_eq.
  - apply Permutation_swap.
  - trans (a :: z :: l); [apply Permutation_swap|].
    rewrite (IH i Hi). apply Permutation_swap.
Qed.

Lemma insert_swap_Permutation {A} (l : list A) i j x y :
  l !! i = Some x → l !! j = Some y → <[i := y]> (<[j := x]> l) ≡ₚ l.
Proof.
  intros Hx Hy. destruct (decide (i = j)) as [->|Hne].
  - simplify_eq. by rewrite !list_insert_id by (rewrite ?list_insert_id; done).
  - apply (Permutation_cons_inv (a := x)). symmetry.
    rewrite (insert_Permutation_cons l j y x Hy).
    apply insert_Permutation_cons. by rewrite list_lookup_insert_ne.
Qed.

Lemma swap_Permutation {A} (l l' : list A) i j : swap l i j = Some l' → l' ≡ₚ l.
Proof.
  unfold swap. intros H. destruct (l !! i) eqn:Ei; simpl in H; [|done].
  destruct (l !! j) eqn:Ej; simpl in H; [|done]. injection H as <-.
  by apply insert_swap_Permutation.
Qed.

(** *** Reachability *)

Lemma star_trans {S} (R : S → S → Prop) a b c : star R a b → star R b c → star R a c.
Proof. induction 1; eauto using star. Qed.

Lemma star_invariant {S} (R : S → S → Prop) (I : S → Prop) :
  (∀ a b, R a b → I a → I b) → ∀ a b, star R a b → I a → I b.
Proof. intros HR a b H. induction H; eauto. Qed.
