(* ===== verification/Prime.v ===== *)
(** * Primes ([app/libs/ring0/postoffice/prime/prime.c])

    Trial division by numbers of the form 6k-1 and 6k+1, and the search for
    the next prime, which sizes the buckets of the hash containers.  The
    64-bit wrap-around of [i * i] and of [prime++] is part of the model; the
    loops run under the [2 ^ 64] bound of [Prelude.loop], which
    [is_prime_terminates] shows is never exhausted. *)

From Stdlib Require Import ZArith Znumtheory Lia.
From stdpp Require Import base numbers.
From S2P Require Import Prelude.

Local Open Scope Z_scope.

(** Body of [for (size_t i = 5; i * i <= n; i += 6)]. *)
Definition is_prime_step (n i : Z) : Z + bool :=
  if u64 (i * i) <=? n then
    if (n mod i =? 0) || (n mod u64 (i + 2) =? 0) then inr false
    else inl (u64 (i + 6))
  else inr true.

Definition is_prime (n : Z) : bool :=
  if n <=? 1 then false
  else if n <=? 3 then true
  else if (n mod 2 =? 0) || (n mod 3 =? 0) then false
  else match loop 64 (is_prime_step n) 5 with
       | inr b => b
       | inl _ => false
       end.

(** Body of [while (!found)]. *)
Definition next_prime_step (p : Z) : Z + Z :=
  let p := u64 (p + 1) in if is_prime p then inr p else inl p.

Definition next_prime (n : Z) : Z :=
  if n <=? 1 then 2
  else match loop 64 next_prime_step n with
       | inr p => p
       | inl p => p
       end.

(** The largest trial divisor whose square does not wrap around. *)
Definition LAST_DIVISOR : Z := 4294967291.

(** ** Lemmas *)

Lemma coprime6_cases n : n mod 2 ≠ 0 → n mod 3 ≠ 0 → n mod 6 = 1 ∨ n mod 6 = 5.
Proof. zlia. Qed.

Lemma is_prime_terminates_aux n :
  3 < n < 2 ^ 64 → n mod 2 ≠ 0 → n mod 3 ≠ 0 →
  ∃ b, loop 64 (is_prime_step n) 5 = inr b.
Proof.
  intros Hn H2 H3.
  assert (∃ B, n mod 6 = 1 ∧ B = n - 2 ∨ n mod 6 = 5 ∧ B = n) as [B HB].
  { destruct (coprime6_cases n H2 H3); eauto. }
  destruct (loop_exits (λ i, 5 <= i <= B ∧ i mod 6 = 5)
              (λ _, True) (λ i, n - i) (is_prime_step n) 64 5) as (b & Hb & _);
    [|split; [zlia|done]|lia|by eauto].
  intros i ([Hi HiB] & Hm). unfold is_prime_step.
  case (Z.leb_spec (u64 (i * i)) n); [|done]. intros _.
  case (Z.eqb_spec (n mod i) 0); [done|]. intros Hni.
  case (Z.eqb_spec (n mod u64 (i + 2)) 0); [done|]. intros Hni2. simpl.
  assert (i ≠ n) by (intros ->; apply Hni, Z.mod_same; lia).
  assert (i + 2 <= n) by (destruct HB as [[? ?]|[? ?]]; zlia).
  rewrite u64_small in Hni2 by lia.
  assert (i + 2 ≠ n) by (intros E; apply Hni2; rewrite E; apply Z.mod_same; lia).
  assert (i + 6 <= B) by (destruct HB as [[? ?]|[? ?]]; zlia).
  rewrite u64_small by lia. split_and!; try lia; zlia.
Qed.

(** A composite number has a divisor not above its square root. *)
Lemma not_prime_small_divisor n :
  1 < n → ¬ prime n → ∃ d, 1 < d ∧ d * d <= n ∧ (d | n).
Proof.
  intros Hn Hp. rewrite <- prime_alt in Hp.
  destruct (prime_dec n) as [Hp'|Hnp]; [by rewrite <- prime_alt in Hp'|].
  destruct (not_prime_divide n Hn Hnp) as (d & Hd & [k Hk]).
  destruct (Z.le_gt_cases (d * d) n).
  - exists d. split_and!; [lia|lia|]. by exists k.
  - exists k. split_and!; [nia|nia|]. exists d. lia.
Qed.

Lemma not_divide_mod n d : 0 < d → n mod d ≠ 0 → ¬ (d | n).
Proof. intros Hd Hm Hdiv. apply Hm, Z.mod_divide; [lia|done]. Qed.

Lemma divide_mod_2_3 n d : (d | n) → n mod 2 ≠ 0 → n mod 3 ≠ 0 → d mod 2 ≠ 0 ∧ d mod 3 ≠ 0.
Proof.
  intros [k ->] H2 H3. split; intros E.
  - apply H2. rewrite Z.mul_mod, E by lia. by rewrite Z.mul_0_r.
  - apply H3. rewrite Z.mul_mod, E by lia. by rewrite Z.mul_0_r.
Qed.

Lemma is_prime_loop n :
  3 < n < LAST_DIVISOR * LAST_DIVISOR → n mod 2 ≠ 0 → n mod 3 ≠ 0 →
  ∃ b, loop 64 (is_prime_step n) 5 = inr b ∧ (b = true ↔ prime n).
Proof.
  unfold LAST_DIVISOR. intros Hn H2 H3.
  apply (loop_exits
    (λ i, 5 <= i <= 4294967291 ∧ i mod 6 = 5 ∧ ∀ d, 1 < d < i → ¬ (d | n))
    (λ b, b = true ↔ prime n) (λ i, 4294967291 - i)); [| |lia].
  - intros i (Hi & Hm & Hd). unfold is_prime_step. rewrite !u64_small by nia.
    case (Z.leb_spec (i * i) n); intros Hle.
    + destruct ((n mod i =? 0) || (n mod (i + 2) =? 0)) eqn:E.
      * split; [done|]. intros Hp. exfalso. rewrite <- prime_alt in Hp. destruct Hp as [_ Hp].
        apply orb_true_iff in E. destruct E as [E|E]; apply Z.eqb_eq in E;
          apply Z.mod_divide in E; try lia; [apply (Hp i)|apply (Hp (i + 2))]; done || nia.
      * apply orb_false_iff in E. destruct E as [E1 E2].
        apply Z.eqb_neq in E1, E2.
        assert (i ≠ 4294967291) by nia.
        split; [|zlia]. split_and!; [lia|zlia|zlia|].
        intros d Hd' Hdiv.
        destruct (Z.lt_ge_cases d i) as [Hlt|Hge]; [apply (Hd d); [lia|done]|].
        destruct (divide_mod_2_3 n d Hdiv H2 H3) as [Hd2 Hd3].
        assert (d = i ∨ d = i + 2) as [-> | ->] by zlia;
          revert Hdiv; apply not_divide_mod; done || lia.
    + split; [intros _|done].
      destruct (prime_dec n) as [|Hnp]; [done|exfalso].
      destruct (not_prime_small_divisor n) as (d & ? & ? & ?); [lia|done|].
      apply (Hd d); [nia|done].
  - split; [lia|]. split; [done|].
    intros d Hd Hdiv. destruct (divide_mod_2_3 n d Hdiv H2 H3). zlia.
Qed.

Lemma prime_small n : 1 < n <= 3 → prime n.
Proof.
  intros Hn. rewrite <- prime_alt. split; [lia|]. intros d Hd [k Hk].
  assert (d = 2 ∧ n = 3) as [-> ->] by lia. lia.
Qed.

Lemma prime_gt_1 n : prime n → 1 < n.
Proof. by intros []. Qed.

Lemma is_prime_correct_aux n :
  0 <= n < LAST_DIVISOR * LAST_DIVISOR → is_prime n = true ↔ prime n.
Proof.
  intros Hn. unfold is_prime.
  case (Z.leb_spec n 1); intros H1.
  { split; [done|]. intros Hp. apply prime_gt_1 in Hp. lia. }
  case (Z.leb_spec n 3); intros H3.
  { split; [|done]. intros _. apply prime_small. lia. }
  destruct ((n mod 2 =? 0) || (n mod 3 =? 0)) eqn:E.
  - split; [done|]. intros Hp. exfalso. rewrite <- prime_alt in Hp. destruct Hp as [_ Hp].
    apply orb_true_iff in E. destruct E as [E|E]; apply Z.eqb_eq in E;
      apply Z.mod_divide in E; try lia; [apply (Hp 2)|apply (Hp 3)]; done || lia.
  - apply orb_false_iff in E. destruct E as [E1 E2]. apply Z.eqb_neq in E1, E2.
    destruct (is_prime_loop n) as (b & -> & Hb); done || lia.
Qed.

Lemma prime_LAST_DIVISOR : prime LAST_DIVISOR.
Proof. apply is_prime_correct_aux; [unfold LAST_DIVISOR; lia|]. by vm_compute. Qed.

(** What the hash containers need of [next_prime]. *)
Lemma next_prime_least n :
  0 <= n < LAST_DIVISOR →
  prime (next_prime n) ∧ n < next_prime n <= LAST_DIVISOR ∧
  ∀ q, n < q < next_prime n → ¬ prime q.
Proof.
  unfold next_prime. intros Hn. case (Z.leb_spec n 1); intros H1.
  { split_and!; [apply prime_small; lia|lia|unfold LAST_DIVISOR; lia|].
    intros q Hq Hp. apply prime_gt_1 in Hp. lia. }
  destruct (loop_exits (λ p, n <= p < LAST_DIVISOR ∧ ∀ q, n < q <= p → ¬ prime q)
    (λ p, prime p ∧ n < p <= LAST_DIVISOR ∧ ∀ q, n < q < p → ¬ prime q)
    (λ p, LAST_DIVISOR - p) next_prime_step 64 n) as (p & -> & Hp); [| | |exact Hp].
  - intros p (Hp & Hq). unfold next_prime_step.
    rewrite u64_small by (unfold LAST_DIVISOR in *; lia).
    destruct (is_prime (p + 1)) eqn:E.
    + apply is_prime_correct_aux in E; [|unfold LAST_DIVISOR in *; lia].
      split_and!; [done|lia|lia|]. intros q Hq'. apply Hq. lia.
    + assert (¬ prime (p + 1)) as Hnp.
      { intros Hp'. apply is_prime_correct_aux in Hp'; [congruence|].
        unfold LAST_DIVISOR in *; lia. }
      assert (p + 1 ≠ LAST_DIVISOR) by (intros Heq; rewrite Heq in Hnp; by apply Hnp, prime_LAST_DIVISOR).
      split; [|lia]. split; [lia|]. intros q Hq'.
      destruct (decide (q = p + 1)) as [->|]; [done|]. apply Hq. lia.
  - split; [lia|]. intros q Hq. lia.
  - unfold LAST_DIVISOR in *. lia.
Qed.

Corollary next_prime_pos n : 0 <= n < LAST_DIVISOR → n < next_prime n.
Proof. intros Hn. destruct (next_prime_least n Hn) as (_ & ? & _). lia. Qed.

(** On every 64-bit input the search ends, at worst by wrapping round to 2. *)
Lemma next_prime_ge_2 n : 0 <= n < 2 ^ 64 → 2 <= next_prime n < 2 ^ 64.
Proof.
  intros Hn. unfold next_prime. case (Z.leb_spec n 1); intros H1; [lia|].
  destruct (loop_exits (λ p, 0 <= p < 2 ^ 64) (λ p, 2 <= p < 2 ^ 64)
    (λ p, if p <? 2 then 1 - p else 2 ^ 64 + 1 - p) next_prime_step 64 n)
    as (p & -> & Hp); [|done| |done].
  - intros p Hp. unfold next_prime_step.
    assert (u64 (p + 1) = if p =? 2 ^ 64 - 1 then 0 else p + 1) as ->.
    { case (Z.eqb_spec p (2 ^ 64 - 1)); intros Hpe; [by subst|]. apply u64_small. lia. }
    case (Z.eqb_spec p (2 ^ 64 - 1)); intros Hpe; [subst; simpl; lia|].
    destruct (is_prime (p + 1)) eqn:E.
    + unfold is_prime in E. case (Z.leb_spec (p + 1) 1) in E; [done|]. lia.
    + assert (p ≠ 1) by (intros ->; done).
      case (Z.ltb_spec p 2); intros; case (Z.ltb_spec (p + 1) 2); intros; lia.
  - case (Z.ltb_spec n 2); lia.
Qed.

#[export] Hint Resolve next_prime_pos : po.

(** ** Properties *)

(** The trial-division loop ends within its [2 ^ 64] bound on every 64-bit
    number it is entered for, although [i * i] wraps around for large [i]. *)
Theorem is_prime_terminates n :
  0 <= n < 2 ^ 64 → 3 < n → n mod 2 ≠ 0 → n mod 3 ≠ 0 →
  ∃ b, loop 64 (is_prime_step n) 5 = inr b.
Proof. intros. apply is_prime_terminates_aux; lia. Qed.

Lemma is_prime_terminates_witness : ∃ b, loop 64 (is_prime_step (2 ^ 64 - 59)) 5 = inr b.
Proof. apply (is_prime_terminates (2 ^ 64 - 59)); done. Defined.

(** [is_prime] decides primality for every number below the square of
    4294967291, the largest trial divisor whose square fits in 64 bits. *)
Theorem is_prime_correct n :
  0 <= n < LAST_DIVISOR * LAST_DIVISOR → (is_prime n = true ↔ prime n).
Proof. apply is_prime_correct_aux. Qed.

Lemma is_prime_correct_witness : prime 1000003 ∧ ¬ prime 1000001.
Proof.
  split.
  - apply (is_prime_correct 1000003); [unfold LAST_DIVISOR; lia|vm_compute; reflexivity].
  - intros H. apply (is_prime_correct 1000001) in H; [vm_compute in H; discriminate H|unfold LAST_DIVISOR; lia].
Defined.

(** [next_prime] returns the least prime above its argument. *)
Theorem next_prime_correct n :
  0 <= n < LAST_DIVISOR →
  prime (next_prime n) ∧ n < next_prime n ∧ ∀ q, n < q < next_prime n → ¬ prime q.
Proof. intros Hn. destruct (next_prime_least n Hn) as (? & ? & ?). split_and!; [done|lia|done]. Qed.

Lemma next_prime_correct_witness : next_prime 34 = 37 ∧ prime 37 ∧ ¬ prime 35.
Proof.
  split; [reflexivity|]. destruct (next_prime_correct 34) as (Hp & _ & Hq); [done|].
  split; [exact Hp|]. apply Hq. by vm_compute.
Defined.
