(* ===== verification/Vector.v ===== *)
(** * Dynamic array ([app/libs/ring0/postoffice/vector/vector.c])

    A vector is its block of cells, its [size] and its [capacity]; cells at
    and above [size] hold whatever the allocator left there ([junk]).  The
    abstract value of a vector is the list of its first [size] cells. *)

From Stdlib Require Import ZArith Lia.
From stdpp Require Import base list numbers.
From S2P Require Import Prelude.

Local Open Scope Z_scope.

Definition VECTOR_DEFAULT_CAPACITY : Z := 16.
Definition VECTOR_MIN_CAPACITY : Z := 4.

Record po_vector (P : Type) : Type := mk_vector {
  vec_data : list P;
  vec_size : Z;
  vec_capacity : Z
}.
Arguments mk_vector {P}.
Arguments vec_data {P}.
Arguments vec_size {P}.
Arguments vec_capacity {P}.

(** The iterator refers to the vector and keeps an index. *)
Record po_vector_iter (P : Type) : Type := mk_vector_iter {
  iter_vec : po_vector P;
  iter_index : Z
}.
Arguments mk_vector_iter {P}.
Arguments iter_vec {P}.
Arguments iter_index {P}.

Section vector.
Context {P : Type} (NULL junk : P).

Definition vector_new_capacity (capacity min_capacity : Z) : Z :=
  let new_capacity := u64 (capacity + Z.shiftr capacity 1) in
  let new_capacity := if new_capacity <? min_capacity then min_capacity else new_capacity in
  if new_capacity <? VECTOR_MIN_CAPACITY then VECTOR_MIN_CAPACITY else new_capacity.

(** [realloc] of a wrapped size 0 frees the block and returns [NULL]. *)
Definition vector_ensure_capacity (vec : po_vector P) (min_capacity : Z) :
    alloc (Z * po_vector P) :=
  if min_capacity <=? vec_capacity vec then mret (1, vec)
  else
    let new_capacity := vector_new_capacity (vec_capacity vec) min_capacity in
    let bytes := u64 (new_capacity * SIZEOF_PTR) in
    if bytes =? 0 then
      mret (-1, mk_vector [] (vec_size vec) (vec_capacity vec))
    else
      ok ← malloc_bytes bytes;
      if (ok : bool) then
        mret (0, mk_vector (resize_block junk (cells bytes) (vec_data vec))
                   (vec_size vec) new_capacity)
      else mret (-1, vec).

Definition po_vector_create_sized (initial_capacity : Z) : alloc (option (po_vector P)) :=
  let initial_capacity :=
    if initial_capacity =? 0 then VECTOR_DEFAULT_CAPACITY else initial_capacity in
  ok ← malloc;
  if negb ok then mret None
  else
    let bytes := u64 (initial_capacity * SIZEOF_PTR) in
    ok ← malloc_bytes bytes;
    if negb ok then mret None
    else mret (Some (mk_vector (replicate (cells bytes) junk) 0 initial_capacity)).

Definition po_vector_create : alloc (option (po_vector P)) :=
  po_vector_create_sized VECTOR_DEFAULT_CAPACITY.

Definition vector_store (vec : po_vector P) (element : P) : po_vector P :=
  mk_vector (<[Z.to_nat (vec_size vec) := element]> (vec_data vec))
    (u64 (vec_size vec + 1)) (vec_capacity vec).

Definition po_vector_push (vec : po_vector P) (element : P) : alloc (Z * po_vector P) :=
  if vec_capacity vec <=? vec_size vec then
    r ← vector_ensure_capacity vec (u64 (vec_capacity vec + 1));
    if r.1 <? 0 then mret (-1, r.2) else mret (0, vector_store r.2 element)
  else mret (0, vector_store vec element).

Definition po_vector_pop (vec : po_vector P) : P * option errno * po_vector P :=
  if vec_size vec =? 0 then (NULL, Some EINVAL, vec)
  else
    let size := vec_size vec - 1 in
    (default junk (vec_data vec).[size], None,
     mk_vector (vec_data vec) size (vec_capacity vec)).

Definition po_vector_at (vec : po_vector P) (index : Z) : P * option errno :=
  if vec_size vec <=? index then (NULL, Some EINVAL)
  else (default junk (vec_data vec).[index], None).

Definition po_vector_insert (vec : po_vector P) (index : Z) (element : P) :
    alloc (Z * option errno * po_vector P) :=
  if vec_size vec <? index then mret (-1, Some EINVAL, vec)
  else
    r ← (if vec_capacity vec <=? vec_size vec
         then vector_ensure_capacity vec (u64 (vec_capacity vec + 1))
         else mret (0, vec));
    if negb (r.1 =? 0) then mret (-1, None, r.2)
    else
      let vec := r.2 in
      let data :=
        if index <? vec_size vec
        then memmove (vec_data vec) (index + 1) index (vec_size vec - index)
        else vec_data vec in
      mret (0, None,
        mk_vector (<[Z.to_nat index := element]> data)
          (u64 (vec_size vec + 1)) (vec_capacity vec)).

Definition po_vector_remove (vec : po_vector P) (index : Z) :
    P * option errno * po_vector P :=
  if vec_size vec <=? index then (NULL, Some EINVAL, vec)
  else
    (default junk (vec_data vec).[index], None,
     mk_vector (memmove (vec_data vec) index (index + 1) (vec_size vec - index - 1))
       (vec_size vec - 1) (vec_capacity vec)).

Definition po_vector_clear (vec : po_vector P) : po_vector P :=
  mk_vector (vec_data vec) 0 (vec_capacity vec).

Definition po_vector_size (vec : po_vector P) : Z := vec_size vec.
Definition po_vector_get_capacity (vec : po_vector P) : Z := vec_capacity vec.

Definition po_vector_reserve (vec : po_vector P) (min_capacity : Z) :
    alloc (Z * po_vector P) := vector_ensure_capacity vec min_capacity.

Definition po_vector_shrink_to_fit (vec : po_vector P) : alloc (Z * po_vector P) :=
  if vec_size vec =? 0 then mret (1, mk_vector [] (vec_size vec) 0)
  else if vec_size vec <? vec_capacity vec then
    let bytes := u64 (vec_size vec * SIZEOF_PTR) in
    ok ← malloc_bytes bytes;
    if (ok : bool) then
      mret (0, mk_vector (resize_block junk (cells bytes) (vec_data vec))
                 (vec_size vec) (vec_size vec))
    else mret (-1, vec)
  else mret (0, vec).

Definition po_vector_copy (src : po_vector P) : alloc (option (po_vector P)) :=
  dest ← po_vector_create_sized (vec_capacity src);
  mret (match dest with
        | None => None
        | Some d =>
            let n := Z.to_nat (vec_size src) in
            Some (mk_vector (take n (vec_data src) ++ drop n (vec_data d))
                    (vec_size src) (vec_capacity d))
        end).

Definition po_vector_iter_create (vec : po_vector P) : alloc (option (po_vector_iter P)) :=
  ok ← malloc;
  mret (if (ok : bool) then Some (mk_vector_iter vec 0) else None).

Definition po_vector_next (iter : po_vector_iter P) : P * po_vector_iter P :=
  if vec_size (iter_vec iter) <=? iter_index iter then (NULL, iter)
  else (default junk (vec_data (iter_vec iter)).[iter_index iter],
        mk_vector_iter (iter_vec iter) (u64 (iter_index iter + 1))).

Definition po_vector_iter_has_next (iter : po_vector_iter P) : bool :=
  iter_index iter <? vec_size (iter_vec iter).

Definition po_vector_is_empty (vec : po_vector P) : bool := vec_size vec =? 0.

Definition po_vector_set (vec : po_vector P) (index : Z) (element : P) :
    Z * option errno * po_vector P :=
  if vec_size vec <=? index then (-1, Some EINVAL, vec)
  else (0, None, mk_vector (<[Z.to_nat index := element]> (vec_data vec))
                   (vec_size vec) (vec_capacity vec)).

(** Client loop [while (po_vector_iter_has_next(it)) x = po_vector_next(it)]. *)
Fixpoint vector_drain (fuel : nat) (it : po_vector_iter P) : list P :=
  match fuel with
  | O => []
  | S fuel =>
      if po_vector_iter_has_next it
      then let '(x, it) := po_vector_next it in x :: vector_drain fuel it
      else []
  end.

(** ** Specification *)

Definition vec_contents (vec : po_vector P) : list P :=
  take (Z.to_nat (vec_size vec)) (vec_data vec).

(** The block has one cell per unit of capacity, the used cells fit, and the
    block is one the allocator can hand out. *)
Record vec_wf (vec : po_vector P) : Prop := mk_vec_wf {
  wf_size : 0 <= vec_size vec <= vec_capacity vec;
  wf_block : Z.of_nat (length (vec_data vec)) = vec_capacity vec;
  wf_bound : vec_capacity vec * SIZEOF_PTR <= PTRDIFF_MAX
}.
End vector.

(** ** Lemmas *)

Lemma length_resize_block {A} (junk : A) n d : length (resize_block junk n d) = n.
Proof. unfold resize_block. rewrite length_app, length_take, length_replicate. lia. Qed.

Lemma take_resize_block {A} (junk : A) n k d :
  (k <= length d)%nat → (k <= n)%nat → take k (resize_block junk n d) = take k d.
Proof.
  intros Hk Hn. unfold resize_block. rewrite take_app_le by (rewrite length_take; lia).
  by rewrite take_take, Nat.min_l by lia.
Qed.

Lemma length_memmove {A} (d : list A) dst src n :
  0 <= dst → 0 <= src → 0 <= n →
  dst + n <= Z.of_nat (length d) → src + n <= Z.of_nat (length d) →
  length (memmove d dst src n) = length d.
Proof.
  intros. unfold memmove. rewrite !length_app, !length_take, !length_drop. lia.
Qed.

Section vector_lemmas.
Context {P : Type} (NULL junk : P).
Implicit Types vec : po_vector P.

Lemma length_contents vec : vec_wf vec → length (vec_contents vec) = Z.to_nat (vec_size vec).
Proof. intros []. unfold vec_contents. rewrite length_take. lia. Qed.

Lemma contents_lookup vec i :
  vec_wf vec → 0 <= i < vec_size vec → (vec_contents vec).[i] = (vec_data vec).[i].
Proof. intros [] Hi. unfold vec_contents. apply lookup_take_lt. lia. Qed.

Lemma contents_lookup_lt vec i x :
  vec_wf vec → 0 <= i → (vec_contents vec).[i] = Some x → i < vec_size vec.
Proof.
  intros Hwf Hi Hx. apply lookup_lt_Some in Hx. rewrite length_contents in Hx by done. lia.
Qed.

Lemma po_vector_at_lookup vec i x :
  vec_wf vec → 0 <= i → (vec_contents vec).[i] = Some x →
  po_vector_at NULL junk vec i = (x, None).
Proof.
  intros Hwf Hi Hx. pose proof (contents_lookup_lt _ _ _ Hwf Hi Hx).
  unfold po_vector_at. case (Z.leb_spec (vec_size vec) i); [lia|]. intros _.
  by rewrite <- contents_lookup, Hx by (done || lia).
Qed.

Lemma vector_new_capacity_bounds cap min :
  0 <= cap < 2 ^ 60 → cap < min < 2 ^ 61 →
  min <= vector_new_capacity cap min < 2 ^ 61 ∧ 4 <= vector_new_capacity cap min.
Proof.
  intros Hc Hm. unfold vector_new_capacity, VECTOR_MIN_CAPACITY.
  rewrite Z.shiftr_div_pow2, Z.pow_1_r by lia.
  rewrite u64_small by zlia.
  repeat case Z.ltb_spec; intros; zlia.
Qed.

(** [vector_ensure_capacity] below the wrap-around of the byte count. *)
Lemma ensure_capacity_always vec min :
  vec_wf vec → 0 <= min < 2 ^ 61 →
  always (vector_ensure_capacity junk vec min) (λ r,
    vec_wf r.2 ∧ vec_contents r.2 = vec_contents vec ∧ vec_size r.2 = vec_size vec ∧
    (r.1 = 1 ∧ r.2 = vec ∧ min <= vec_capacity vec ∨
     r.1 = 0 ∧ min <= vec_capacity r.2 ∧ vec_capacity vec < min ∨
     r.1 = -1 ∧ r.2 = vec ∧ vec_capacity vec < min)).
Proof.
  intros Hwf Hmin. unfold vector_ensure_capacity.
  case (Z.leb_spec min (vec_capacity vec)); intros Hcap.
  { apply always_ret. split_and!; [done..|]. by left. }
  pose proof Hwf as [Hs Hb Hbd]. unfold SIZEOF_PTR, PTRDIFF_MAX in Hbd.
  pose proof (vector_new_capacity_bounds (vec_capacity vec) min ltac:(lia) ltac:(lia)) as [Hn Hn4].
  set (nc := vector_new_capacity _ _) in *.
  unfold SIZEOF_PTR. rewrite u64_small by lia.
  case (Z.eqb_spec (nc * 8) 0); intros; [lia|].
  apply always_bind, always_malloc_bytes.
  - apply always_ret. split_and!; [done..|]. simpl. auto.
  - intros Hmax. apply always_ret. simpl.
    assert (cells (nc * 8) = Z.to_nat nc) as Hcells.
    { unfold cells, SIZEOF_PTR. by rewrite Z.div_mul by lia. }
    split_and!; [|unfold vec_contents; simpl; apply take_resize_block; lia|done|].
    + constructor; simpl; [lia| |unfold SIZEOF_PTR; lia].
      rewrite length_resize_block. lia.
    + right; left. split_and!; lia.
Qed.

Lemma vector_store_contents vec x :
  vec_wf vec → vec_size vec < vec_capacity vec →
  vec_wf (vector_store vec x) ∧
  vec_contents (vector_store vec x) = vec_contents vec ++ [x].
Proof.
  intros [Hs Hb Hbd] Hlt. unfold SIZEOF_PTR, PTRDIFF_MAX in Hbd.
  unfold vector_store. rewrite u64_small by lia. split.
  - constructor; simpl; [lia|rewrite length_insert; lia|unfold SIZEOF_PTR, PTRDIFF_MAX; lia].
  - unfold vec_contents. simpl.
    rewrite Z2Nat.inj_add, (Nat.add_comm _ 1) by lia. simpl.
    rewrite (take_S_r _ _ x).
    + by rewrite take_insert_ge.
    + apply list_lookup_insert_eq. lia.
Qed.

Lemma push_always vec x :
  vec_wf vec →
  always (po_vector_push junk vec x) (λ r,
    vec_wf r.2 ∧
    (r.1 = 0 ∧ vec_contents r.2 = vec_contents vec ++ [x] ∨
     r.1 = -1 ∧ r.2 = vec ∧ vec_size vec = vec_capacity vec)).
Proof.
  intros Hwf. unfold po_vector_push. pose proof Hwf as [Hs Hb Hbd].
  unfold SIZEOF_PTR, PTRDIFF_MAX in Hbd.
  case (Z.leb_spec (vec_capacity vec) (vec_size vec)); intros Hle.
  - rewrite u64_small by lia. apply always_bind.
    eapply always_mono; [apply ensure_capacity_always; [done|lia]|].
    intros [r vec'] (Hwf' & Hc & Hsz & Hcase). simpl in *.
    destruct Hcase as [?|[(-> & ? & ?)|(-> & -> & ?)]]; [lia| |].
    + apply always_ret. simpl.
      destruct (vector_store_contents vec' x) as [? Hc']; [done|lia|].
      split; [done|]. left. by rewrite Hc', Hc.
    + apply always_ret. simpl. split; [done|]. right. split_and!; [done|done|lia].
  - apply always_ret. simpl. destruct (vector_store_contents vec x); [done|lia|]. eauto.
Qed.

(** Growth by 1.5 keeps the capacity in proportion to the size. *)
Lemma push_capacity vec x :
  vec_wf vec → vec_size vec <= 2 ^ 56 → vec_capacity vec <= 2 ^ 58 →
  always (po_vector_push junk vec x) (λ r, vec_capacity r.2 <= 2 ^ 58).
Proof.
  intros [Hs Hb Hbd] Hsz Hcap. unfold po_vector_push.
  case (Z.leb_spec (vec_capacity vec) (vec_size vec)); intros Hle; [|by apply always_ret].
  rewrite u64_small by lia. apply always_bind.
  apply (always_mono _ (λ r, vec_capacity r.2 <= 2 ^ 58)).
  - unfold vector_ensure_capacity. case (_ <=? _); [by apply always_ret|].
    destruct (_ =? 0); [by apply always_ret|].
    apply always_bind, always_malloc_bytes; intros; apply always_ret; [done|]. simpl.
    unfold vector_new_capacity, VECTOR_MIN_CAPACITY.
    rewrite Z.shiftr_div_pow2, Z.pow_1_r, u64_small by (lia || zlia).
    repeat case Z.ltb_spec; intros; zlia.
  - intros [r v] Hv. simpl in *. destruct (r <? 0); by apply always_ret.
Qed.

(** Growth by 1.5 stays allocatable while the block is small. *)
Lemma ensure_capacity_succeeds vec min :
  vec_wf vec → 0 <= min <= 2 ^ 59 → vec_capacity vec <= 2 ^ 59 →
  succeeds (vector_ensure_capacity junk vec min) (λ r, 0 <= r.1).
Proof.
  intros Hwf Hmin Hcap. unfold vector_ensure_capacity.
  case (Z.leb_spec min (vec_capacity vec)); intros Hle; [by apply succeeds_ret|].
  destruct Hwf as [Hs Hb Hbd].
  pose proof (vector_new_capacity_bounds (vec_capacity vec) min ltac:(lia) ltac:(lia)) as [Hn Hn4].
  assert (vector_new_capacity (vec_capacity vec) min < 2 ^ 60).
  { unfold vector_new_capacity, VECTOR_MIN_CAPACITY.
    rewrite Z.shiftr_div_pow2, Z.pow_1_r, u64_small by (lia || zlia).
    repeat case Z.ltb_spec; intros; zlia. }
  set (nc := vector_new_capacity _ _) in *. unfold SIZEOF_PTR. rewrite u64_small by lia.
  case (Z.eqb_spec (nc * 8) 0); intros; [lia|].
  apply succeeds_bind, succeeds_malloc_bytes; [unfold PTRDIFF_MAX; lia|].
  by apply succeeds_ret.
Qed.

Lemma push_succeeds vec x :
  vec_wf vec → vec_capacity vec < 2 ^ 59 →
  succeeds (po_vector_push junk vec x) (λ r, r.1 = 0).
Proof.
  intros Hwf Hcap. unfold po_vector_push. pose proof Hwf as [Hs Hb Hbd].
  case (Z.leb_spec (vec_capacity vec) (vec_size vec)); intros Hle; [|by apply succeeds_ret].
  rewrite u64_small by lia. apply succeeds_bind.
  eapply succeeds_mono; [apply ensure_capacity_succeeds; [done|lia|lia]|].
  intros [r vec'] Hr. simpl in *. case (Z.ltb_spec r 0); [lia|].
  intros _. by apply succeeds_ret.
Qed.

Lemma create_always :
  always (po_vector_create (P := P) junk) (λ r,
    match r with Some v => vec_wf v ∧ vec_contents v = [] ∧ vec_capacity v = 16 | None => True end).
Proof.
  unfold po_vector_create, po_vector_create_sized. simpl.
  apply always_bind, always_malloc. intros []; simpl; [|by apply always_ret].
  apply always_bind, always_malloc_bytes; simpl; [by apply always_ret|].
  intros _. apply always_ret. split_and!; [|done|done].
  constructor; simpl; unfold PTRDIFF_MAX; lia || done.
Qed.

Lemma create_succeeds :
  succeeds (po_vector_create (P := P) junk) (λ r,
    ∃ v, r = Some v ∧ vec_wf v ∧ vec_contents v = [] ∧ vec_capacity v = 16).
Proof.
  eapply (succeeds_mono _ _ _ (always_succeeds _ _ is_Some create_always _)).
  intros r [Hr [v ->]]. eauto.
  Unshelve. unfold po_vector_create, po_vector_create_sized. simpl.
  apply succeeds_bind, succeeds_malloc, succeeds_bind, succeeds_malloc_bytes;
    [unfold PTRDIFF_MAX; done|]. simpl. apply succeeds_ret. eauto.
Qed.

Lemma pop_spec vec l x :
  vec_wf vec → vec_contents vec = l ++ [x] →
  ∃ vec', po_vector_pop NULL junk vec = (x, None, vec') ∧
    vec_wf vec' ∧ vec_contents vec' = l ∧ vec_capacity vec' = vec_capacity vec.
Proof.
  intros Hwf Hc. pose proof Hwf as [Hs Hb Hbd].
  pose proof (length_contents _ Hwf) as Hlen. rewrite Hc, length_app in Hlen. simpl in Hlen.
  unfold po_vector_pop. case (Z.eqb_spec (vec_size vec) 0); [lia|]. intros Hne.
  exists (mk_vector (vec_data vec) (vec_size vec - 1) (vec_capacity vec)).
  split_and!; [|constructor; simpl; lia || done| |done].
  - f_equal. f_equal. rewrite <- contents_lookup, Hc by (done || lia).
    by rewrite (list_lookup_middle l [] x) by lia.
  - unfold vec_contents in *. simpl.
    replace (Z.to_nat (vec_size vec - 1)) with (length l) by lia.
    rewrite <- (take_app_length l [x]) at 2. rewrite <- Hc, take_take. f_equal. lia.
Qed.

Lemma set_spec vec i x :
  vec_wf vec → 0 <= i < vec_size vec →
  ∃ vec', po_vector_set vec i x = (0, None, vec') ∧ vec_wf vec' ∧
    vec_contents vec' = <[Z.to_nat i := x]> (vec_contents vec) ∧
    vec_size vec' = vec_size vec ∧ vec_capacity vec' = vec_capacity vec.
Proof.
  intros [Hs Hb Hbd] Hi. unfold po_vector_set.
  case (Z.leb_spec (vec_size vec) i); [lia|]. intros _.
  exists (mk_vector (<[Z.to_nat i := x]> (vec_data vec)) (vec_size vec) (vec_capacity vec)).
  split_and!; [done|..]; [|unfold vec_contents; simpl|done..].
  - constructor; simpl; [lia|rewrite length_insert; lia|done].
  - rewrite take_insert_lt by lia. done.
Qed.

(** Shifting the tail up by one cell and storing is list insertion. *)
Lemma insert_cells (d : list P) i n x :
  0 <= i <= n → n < Z.of_nat (length d) →
  take (Z.to_nat (n + 1))
    (<[Z.to_nat i := x]> (if i <? n then memmove d (i + 1) i (n - i) else d)) =
  take (Z.to_nat i) (take (Z.to_nat n) d) ++ x :: drop (Z.to_nat i) (take (Z.to_nat n) d).
Proof.
  intros Hi Hn. apply list_eq. intros j.
  destruct (decide (j < Z.to_nat (n + 1))%nat) as [Hj|Hj].
  2: { rewrite !(proj2 (lookup_ge_None _ _)); [done| |].
       - rewrite length_app. simpl. rewrite !length_take, length_drop, length_take. lia.
       - rewrite length_take. lia. }
  rewrite lookup_take_lt by done. rewrite take_take, Nat.min_l by lia.
  destruct (decide (j = Z.to_nat i)) as [->|Hne].
  - rewrite list_lookup_insert_eq.
    + rewrite list_lookup_middle; [done|]. rewrite length_take. lia.
    + case (Z.ltb_spec i n); intros; [rewrite length_memmove by lia|]; lia.
  - rewrite list_lookup_insert_ne by done. case (Z.ltb_spec i n); intros Hin.
    + unfold memmove. destruct (decide (j < Z.to_nat i)%nat) as [Hlt|Hge].
      * rewrite !lookup_app_l, !lookup_take_lt by (rewrite ?length_take; lia). done.
      * rewrite lookup_app_r by (rewrite length_take; lia).
        rewrite length_take. rewrite lookup_app_l by (rewrite length_take, length_drop; lia).
        rewrite lookup_take_lt, lookup_drop by lia.
        rewrite lookup_app_r, length_take, lookup_cons by (rewrite ?length_take; lia).
        destruct (j - Z.to_nat i `min` length d)%nat as [|k] eqn:Ek; [lia|].
        rewrite lookup_drop, lookup_take_lt by lia. f_equal. lia.
    + rewrite lookup_app_l, lookup_take_lt by (rewrite ?length_take; lia). done.
Qed.

Lemma insert_always vec i x :
  vec_wf vec → 0 <= i →
  always (po_vector_insert junk vec i x) (λ r,
    vec_wf r.2 ∧
    ((r.1 = (0, None) ∧ i <= vec_size vec ∧
      vec_contents r.2 =
        take (Z.to_nat i) (vec_contents vec) ++ x :: drop (Z.to_nat i) (vec_contents vec)) ∨
     (r.1 = (-1, Some EINVAL) ∧ r.2 = vec ∧ vec_size vec < i) ∨
     (r.1 = (-1, None) ∧ r.2 = vec ∧ vec_size vec = vec_capacity vec))).
Proof.
  intros Hwf Hi. unfold po_vector_insert. pose proof Hwf as [Hs Hb Hbd].
  unfold SIZEOF_PTR, PTRDIFF_MAX in Hbd.
  case (Z.ltb_spec (vec_size vec) i); intros Hsi.
  { apply always_ret. split; [done|]. right. left. done. }
  assert (∀ vec', vec_wf vec' → vec_contents vec' = vec_contents vec →
      vec_size vec' = vec_size vec → vec_size vec < vec_capacity vec' →
      let v := mk_vector (<[Z.to_nat i:=x]> (if i <? vec_size vec'
        then memmove (vec_data vec') (i + 1) i (vec_size vec' - i) else vec_data vec'))
        (u64 (vec_size vec' + 1)) (vec_capacity vec') in
      vec_wf v ∧ vec_contents v =
        take (Z.to_nat i) (vec_contents vec) ++ x :: drop (Z.to_nat i) (vec_contents vec))
    as Hins.
  { intros vec' [Hs' Hb' Hbd'] Hc Hsz Hlt. unfold SIZEOF_PTR, PTRDIFF_MAX in Hbd'.
    rewrite u64_small by lia. split.
    - constructor; simpl; [lia| |unfold SIZEOF_PTR, PTRDIFF_MAX; lia].
      rewrite length_insert. case (Z.ltb_spec i (vec_size vec')); intros; [|lia].
      rewrite length_memmove; lia.
    - rewrite <- Hc. unfold vec_contents. simpl. apply insert_cells; lia. }
  apply always_bind. case (Z.leb_spec (vec_capacity vec) (vec_size vec)); intros Hle.
  - rewrite u64_small by lia.
    eapply always_mono; [apply ensure_capacity_always; [done|lia]|].
    intros [r vec'] (Hwf' & Hc & Hsz & Hcase). simpl in *.
    destruct Hcase as [?|[(-> & ? & ?)|(-> & -> & ?)]]; [lia| |]; simpl.
    + apply always_ret. simpl. destruct (Hins vec') as [? ?]; [done|done|done|lia|].
      split; [done|]. left. split_and!; [done|lia|done].
    + apply always_ret. simpl. split; [done|]. right; right. split_and!; [done|done|lia].
  - apply always_ret. simpl. apply always_ret. simpl.
    destruct (Hins vec) as [? ?]; [done|done|done|lia|].
    split; [done|]. left. split_and!; [done|lia|done].
Qed.

Lemma remove_spec vec i l1 x l2 :
  vec_wf vec → vec_contents vec = l1 ++ x :: l2 → i = Z.of_nat (length l1) →
  ∃ vec', po_vector_remove NULL junk vec i = (x, None, vec') ∧
    vec_wf vec' ∧ vec_contents vec' = l1 ++ l2.
Proof.
  intros Hwf Hc ->. pose proof Hwf as [Hs Hb Hbd].
  pose proof (length_contents _ Hwf) as Hlen. rewrite Hc, length_app in Hlen. simpl in Hlen.
  unfold po_vector_remove.
  case (Z.leb_spec (vec_size vec) (Z.of_nat (length l1))); [lia|]. intros _.
  set (i := Z.of_nat (length l1)) in *.
  exists (mk_vector (memmove (vec_data vec) i (i + 1) (vec_size vec - i - 1))
       (vec_size vec - 1) (vec_capacity vec)).
  split_and!.
  - f_equal. f_equal. rewrite <- contents_lookup, Hc by (done || lia).
    by rewrite list_lookup_middle by lia.
  - constructor; simpl; [lia|rewrite length_memmove; lia|done].
  - unfold vec_contents in *. simpl. unfold memmove.
    rewrite app_assoc, take_app_le by (rewrite length_app, !length_take, length_drop; lia).
    rewrite take_ge by (rewrite length_app, !length_take, length_drop; lia).
    f_equal.
    + replace (Z.to_nat i) with (length l1) by lia.
      rewrite <- (take_app_length l1 (x :: l2)) at 2. rewrite <- Hc, take_take. f_equal. lia.
    + replace (Z.to_nat (i + 1)) with (length (l1 ++ [x])) by (rewrite length_app; simpl; lia).
      replace l2 with (drop (length (l1 ++ [x])) (take (Z.to_nat (vec_size vec)) (vec_data vec))).
      * rewrite skipn_firstn_comm. f_equal. rewrite length_app. simpl. lia.
      * rewrite Hc. change (x :: l2) with ([x] ++ l2). rewrite app_assoc. apply drop_app_length.
Qed.

Lemma drain_from vec fuel i :
  vec_wf vec → 0 <= i → (Z.to_nat (vec_size vec) - Z.to_nat i <= fuel)%nat →
  vector_drain NULL junk fuel (mk_vector_iter vec i) = drop (Z.to_nat i) (vec_contents vec).
Proof.
  intros Hwf. pose proof Hwf as [Hs Hb Hbd]. unfold SIZEOF_PTR, PTRDIFF_MAX in Hbd. revert i.
  induction fuel as [|fuel IH]; intros i Hi Hf; simpl.
  { rewrite drop_ge; [done|]. rewrite length_contents by done. lia. }
  unfold po_vector_iter_has_next, po_vector_next. simpl.
  case (Z.ltb_spec i (vec_size vec)); intros Hlt.
  - case (Z.leb_spec (vec_size vec) i); [lia|]. intros _.
    rewrite u64_small, IH by lia.
    destruct ((vec_contents vec).[i]) as [y|] eqn:Hy.
    + rewrite (drop_S _ _ _ Hy), <- contents_lookup, Hy by (done || lia). simpl.
      f_equal. f_equal. lia.
    + apply lookup_ge_None in Hy. rewrite length_contents in Hy by done. lia.
  - rewrite drop_ge; [done|]. rewrite length_contents by done. lia.
Qed.

Lemma copy_always vec :
  vec_wf vec → 0 < vec_capacity vec →
  always (po_vector_copy junk vec) (λ r,
    match r with
    | Some d => vec_wf d ∧ vec_contents d = vec_contents vec ∧ vec_capacity d = vec_capacity vec
    | None => True end).
Proof.
  intros [Hs Hb Hbd] Hpos. unfold po_vector_copy, po_vector_create_sized.
  unfold SIZEOF_PTR, PTRDIFF_MAX in *.
  case (Z.eqb_spec (vec_capacity vec) 0); [lia|]. intros _.
  apply always_bind, always_bind, always_malloc. intros []; simpl; [|by apply always_ret, always_ret].
  apply always_bind, always_malloc_bytes; simpl; [by apply always_ret, always_ret|].
  intros _. apply always_ret, always_ret. rewrite u64_small by lia.
  unfold cells, SIZEOF_PTR. rewrite Z.div_mul by lia. split_and!; [|unfold vec_contents; simpl|done].
  - constructor; simpl; [lia| |unfold SIZEOF_PTR, PTRDIFF_MAX; lia].
    rewrite length_app, length_take, length_drop, length_replicate. lia.
  - rewrite take_app_le by (rewrite length_take; lia).
    rewrite take_take. f_equal. lia.
Qed.

Lemma shrink_always vec :
  vec_wf vec →
  always (po_vector_shrink_to_fit junk vec) (λ r,
    vec_wf r.2 ∧ vec_contents r.2 = vec_contents vec ∧
    (0 <= r.1 → vec_capacity r.2 = vec_size vec)).
Proof.
  intros Hwf. pose proof Hwf as [Hs Hb Hbd]. unfold po_vector_shrink_to_fit.
  unfold SIZEOF_PTR, PTRDIFF_MAX in Hbd.
  case (Z.eqb_spec (vec_size vec) 0); intros Hz.
  { apply always_ret. simpl. split_and!; [|unfold vec_contents; simpl; by rewrite Hz|lia].
    constructor; simpl; [lia|done|done]. }
  case (Z.ltb_spec (vec_size vec) (vec_capacity vec)); intros Hlt.
  2: { apply always_ret. simpl. split_and!; [done|done|lia]. }
  unfold SIZEOF_PTR. rewrite u64_small by lia.
  apply always_bind, always_malloc_bytes.
  - apply always_ret. split_and!; [done|done|simpl; lia].
  - intros _. apply always_ret. simpl.
    assert (cells (vec_size vec * 8) = Z.to_nat (vec_size vec)) as Hcells.
    { unfold cells, SIZEOF_PTR. by rewrite Z.div_mul by lia. }
    split_and!; [|unfold vec_contents; simpl; apply take_resize_block; lia|lia].
    constructor; simpl; [lia|rewrite length_resize_block; lia|unfold SIZEOF_PTR, PTRDIFF_MAX; lia].
Qed.
End vector_lemmas.

(** ** Properties *)

(** [po_vector_push] refines appending to the abstract list, for every
    outcome of [realloc]: on success the contents are extended by the element,
    on failure (only possible when the block is full) the vector is untouched;
    the representation invariant is kept either way. *)
Theorem vector_push_refines_append {P} (junk : P) (vec : po_vector P) (x : P) :
  vec_wf vec →
  always (po_vector_push junk vec x) (λ r,
    vec_wf r.2 ∧
    (r.1 = 0 ∧ vec_contents r.2 = vec_contents vec ++ [x] ∨
     r.1 = -1 ∧ r.2 = vec ∧ vec_size vec = vec_capacity vec)).
Proof. apply push_always. Qed.

Definition sample_vec : po_vector Z := mk_vector [7; 8; 9; 0; 0] 3 5.

Lemma sample_vec_wf : vec_wf sample_vec.
Proof. constructor; vm_compute; done || split; done. Qed.

Lemma vector_push_refines_append_witness :
  (po_vector_push 0 sample_vec 5 []).1 = (0, mk_vector [7; 8; 9; 5; 0] 4 5) ∧
  vec_wf (po_vector_push 0 sample_vec 5 []).1.2.
Proof.
  split; [reflexivity|]. apply (vector_push_refines_append 0 sample_vec 5 sample_vec_wf []).
Defined.

(** Insertion and removal are inverse: when [po_vector_insert] succeeds at
    [index], [po_vector_remove] at the same index returns the inserted element
    and gives back the original contents. *)
Theorem vector_insert_remove_roundtrip {P} (NULL junk : P) (vec : po_vector P) (i : Z) (x : P) :
  vec_wf vec → 0 <= i →
  always (po_vector_insert junk vec i x) (λ r,
    r.1 = (0, None) →
    ∃ vec', po_vector_remove NULL junk r.2 i = (x, None, vec') ∧
      vec_wf vec' ∧ vec_contents vec' = vec_contents vec).
Proof.
  intros Hwf Hi. eapply always_mono; [by apply insert_always|].
  intros [r vec1] (Hwf1 & [(-> & Hle & Hc)|[(-> & _)|(-> & _)]]) Heq; simpl in *; try done.
  destruct (remove_spec NULL junk vec1 i _ _ _ Hwf1 Hc) as (vec' & ? & ? & Hc').
  - rewrite length_take, length_contents by done. lia.
  - exists vec'. split_and!; [done|done|]. by rewrite Hc', take_drop.
Qed.

Lemma vector_insert_remove_roundtrip_witness :
  vec_contents (po_vector_insert 0 sample_vec 1 4 []).1.2 = [7; 4; 8; 9] ∧
  ∃ vec', po_vector_remove 0 0 (po_vector_insert 0 sample_vec 1 4 []).1.2 1 = (4, None, vec') ∧
    vec_wf vec' ∧ vec_contents vec' = vec_contents sample_vec.
Proof.
  split; [reflexivity|].
  apply (vector_insert_remove_roundtrip 0 0 sample_vec 1 4 sample_vec_wf ltac:(lia) []).
  reflexivity.
Defined.

(** The byte count of [po_vector_reserve] wraps around: asked for
    [2^61 + k] cells, the call reports success and records that capacity,
    while the block holds only [k] cells, so that the invariant relating
    capacity and block is lost. *)
Theorem vector_reserve_wraps {P} (junk : P) (vec : po_vector P) (k : Z) :
  vec_wf vec → 0 < k < 2 ^ 57 →
  ∃ vec', (po_vector_reserve junk vec (2 ^ 61 + k) []).1 = (0, vec') ∧
    vec_capacity vec' = 2 ^ 61 + k ∧ Z.of_nat (length (vec_data vec')) = k ∧ ¬ vec_wf vec'.
Proof.
  intros [Hs Hb Hbd] Hk. unfold SIZEOF_PTR, PTRDIFF_MAX in Hbd.
  unfold po_vector_reserve, vector_ensure_capacity.
  case (Z.leb_spec (2 ^ 61 + k) (vec_capacity vec)); [lia|]. intros _.
  assert (vector_new_capacity (vec_capacity vec) (2 ^ 61 + k) = 2 ^ 61 + k) as ->.
  { unfold vector_new_capacity, VECTOR_MIN_CAPACITY.
    rewrite Z.shiftr_div_pow2, Z.pow_1_r, u64_small by (lia || zlia).
    repeat case Z.ltb_spec; intros; zlia. }
  assert (u64 ((2 ^ 61 + k) * SIZEOF_PTR) = k * 8) as ->.
  { unfold u64, SIZEOF_PTR. rewrite Z.mul_add_distr_r, Z.add_comm.
    change (2 ^ 61 * 8) with (1 * 2 ^ 64). rewrite Z.mod_add by lia. apply Z.mod_small. lia. }
  case (Z.eqb_spec (k * 8) 0); [lia|]. intros _.
  unfold malloc_bytes. case (Z.leb_spec (k * 8) PTRDIFF_MAX); [|unfold PTRDIFF_MAX; lia].
  intros _. simpl. eexists. split; [reflexivity|].
  assert (cells (k * 8) = Z.to_nat k) as Hcells.
  { unfold cells, SIZEOF_PTR. by rewrite Z.div_mul by lia. }
  simpl. rewrite length_resize_block, Hcells.
  split_and!; [done|lia|]. intros [_ Hb' _]. simpl in Hb'.
  rewrite length_resize_block in Hb'. lia.
Qed.

Lemma vector_reserve_wraps_witness :
  ∃ vec', (po_vector_reserve 0 sample_vec (2 ^ 61 + 1) []).1 = (0, vec') ∧
    vec_capacity vec' = 2 ^ 61 + 1 ∧ Z.of_nat (length (vec_data vec')) = 1 ∧ ¬ vec_wf vec'.
Proof. apply (vector_reserve_wraps 0 sample_vec 1 sample_vec_wf). lia. Defined.

(** A full run of the iterator yields exactly the contents, in order. *)
Theorem vector_iterates_contents {P} (NULL junk : P) (vec : po_vector P) :
  vec_wf vec →
  always (po_vector_iter_create vec) (λ it,
    match it with
    | Some it => vector_drain NULL junk (S (Z.to_nat (vec_size vec))) it = vec_contents vec
    | None => True end).
Proof.
  intros Hwf. unfold po_vector_iter_create. apply always_bind, always_malloc.
  intros []; apply always_ret; [|done]. rewrite drain_from; [done|done|done|lia].
Qed.

Lemma vector_iterates_contents_witness :
  vector_drain 0 0 4 (mk_vector_iter sample_vec 0) = [7; 8; 9].
Proof.
  change [7; 8; 9] with (vec_contents sample_vec).
  apply (vector_iterates_contents 0 0 sample_vec sample_vec_wf []).
Defined.
