(* ===== verification/Sort.v ===== *)
(** * Sorting ([app/libs/ring2/postoffice/sort/sort.c])

    The array is a list of elements, a range of it is given by [start] and
    [len].  Every access names its index, and [None] stands for an access
    outside the array or for a loop that outlives its bound, so that a theorem
    that a run is [Some] says that the run is memory safe and ends.  Indices
    are natural numbers: they are below the length of an array that exists.

    The six instantiations of [SORT_IMPL] differ in how an element is copied
    and in how the comparator is called, not in what they compute, and share
    these definitions.  Modelled is the run on the calling thread ([wg] is
    [NULL]: no pool was initialised, or at most [PAR_THRESHOLD] elements). *)

From Stdlib Require Import ZArith Lia Sorted.
From stdpp Require Import base list numbers sorting.
From S2P Require Import Prelude Vector.

Local Open Scope nat_scope.

(** Allocation and failure together. *)
Definition run (A : Type) : Type := list bool → option (A * list bool).

Global Instance run_ret : MRet run := λ A a m, Some (a, m).
Global Instance run_bind : MBind run :=
  λ A B f c m, match c m with Some (a, m') => f a m' | None => None end.

(** An access of the array, an allocation. *)
Definition access {A} (o : option A) : run A := λ m, (λ a, (a, m)) <$> o.
Definition alloc_ok : run bool := λ m, Some (malloc m).

Definition FLUX_SMALL_SORT_THRESHOLD : nat := 32.

Section sort.
Context {A : Type} (cmp : A → A → Z).
Implicit Types (l : list A) (start len lo hi i j : nat).

Abbreviation lt x y := (cmp x y <? 0)%Z.

(** [while (lo < hi) { swap(lo, hi); lo++; hi--; }] *)
Fixpoint reverse_loop (fuel : nat) l lo hi : option (list A) :=
  if lo <? hi then
    match fuel with
    | O => None
    | S fuel => l ← swap l lo hi; reverse_loop fuel l (lo + 1) (hi - 1)
    end
  else Some l.

Definition reverse_range l start len : option (list A) :=
  reverse_loop len l start (start + len - 1).

(** The bytes [[start, start + len)], and writing them back. *)
Definition slice l start len : option (list A) :=
  if start + len <=? length l then Some (take len (drop start l)) else None.
Definition write l start (out : list A) : list A :=
  take start l ++ out ++ drop (start + length out) l.

(** The two-pointer loop of [merge] with both tails. *)
Fixpoint merge_out (s1 s2 : list A) : list A :=
  let fix go s2 :=
    match s1, s2 with
    | [], _ => s2
    | _, [] => s1
    | x :: s1', y :: s2' => if (cmp x y <=? 0)%Z then x :: merge_out s1' s2 else y :: go s2'
    end in
  go s2.

(** On allocation failure the ranges are left as they are. *)
Definition merge l start len1 len2 : run (list A) :=
  ok ← alloc_ok;
  if negb ok then mret l
  else
    s1 ← access (slice l start len1);
    s2 ← access (slice l (start + len1) len2);
    mret (write l start (merge_out s1 s2)).

(** Fail-fast probe: directions at five equidistant points. *)
Definition mixed_probe l start len : option bool :=
  let step := len / 5 in
  p0 ← l !! start;
  p1 ← l !! (start + step);
  p2 ← l !! (start + 2 * step);
  p3 ← l !! (start + 3 * step);
  p4 ← l !! (start + 4 * step);
  let cs := [cmp p1 p0; cmp p2 p1; cmp p3 p2; cmp p4 p3] in
  Some (existsb (λ c, (0 <? c)%Z) cs && existsb (λ c, (c <? 0)%Z) cs).

(** The scan for runs; [k] is the number of rounds left, [len - 1 - i].  The
    result is the array with the run starts and the last direction, or the
    array alone when a fifth run begins. *)
Fixpoint scan_runs (k : nat) l start len i (runs : list nat) (desc : bool) :
    option (list A * option (list nat * bool)) :=
  match k with
  | O => Some (l, Some (runs, desc))
  | S k =>
      curr ← l !! (start + i);
      next ← l !! (start + i + 1);
      let c := cmp next curr in
      if (desc && (0 <? c)%Z) || (negb desc && (c <? 0)%Z) then
        let r := List.last runs 0 in
        l ← (if desc then reverse_range l (start + r) (i - r + 1) else Some l);
        if 4 <=? length runs then Some (l, None)
        else
          desc ← (if i + 2 <? len then
                    next ← l !! (start + i + 1);
                    after ← l !! (start + i + 2);
                    Some (lt after next)
                  else Some desc);
          scan_runs k l start len (i + 1) (runs ++ [i + 1]) desc
      else scan_runs k l start len (i + 1) runs desc
  end.

(** Merge (0,1), (2,3), then both results. *)
Definition merge_runs l start len (runs : list nat) : run (list A) :=
  let run_cnt := length runs in
  let r i := default 0 (runs !! i) in
  let end1 := if 2 <? run_cnt then r 2 else len in
  l ← (if 2 <=? run_cnt then merge l (start + r 0) (r 1 - r 0) (end1 - r 1) else mret l);
  l ← (if 4 <=? run_cnt then merge l (start + r 2) (r 3 - r 2) (len - r 3) else mret l);
  if 3 <=? run_cnt then merge l (start + r 0) end1 (len - end1) else mret l.

(** [true] when the range was handled. *)
Definition analyze_and_merge l start len : run (list A * bool) :=
  if len <? 128 then mret (l, false)
  else
    mixed ← access (if 512 <? len then mixed_probe l start len else Some false);
    if mixed : bool then mret (l, false)
    else
      curr ← access (l !! start);
      next ← access (l !! (start + 1));
      s ← access (scan_runs (len - 1) l start len 0 [0] (lt next curr));
      match (s : list A * option (list nat * bool)) with
      | (l, None) => mret (l, false)
      | (l, Some (runs, desc)) =>
          let r := List.last runs 0 in
          l ← access (if desc : bool then reverse_range l (start + r) (len - r) else Some l);
          if length runs <=? 1 then mret (l, true)
          else l ← merge_runs l start len runs; mret (l, true)
      end.

(** [while (j > start)]: shift larger elements up, return the free cell. *)
Fixpoint shift_up l start j (tmp : A) : option (list A * nat) :=
  match j with
  | O => Some (l, O)
  | S j' =>
      if start <? j then
        pj ← l !! j';
        if (0 <=? cmp tmp pj)%Z then Some (l, j)
        else shift_up (<[j := pj]> l) start j' tmp
      else Some (l, j)
  end.

Definition insert_elem l start i : option (list A) :=
  tmp ← l !! i;
  r ← shift_up l start i tmp;
  Some (<[r.2 := tmp]> r.1).

(** [for (i = start + 1; i < start + len; i++)], [k] rounds left. *)
Fixpoint insertion_loop (k : nat) l start i : option (list A) :=
  match k with
  | O => Some l
  | S k => l ← insert_elem l start i; insertion_loop k l start (i + 1)
  end.

Definition insertion_sort l start len : option (list A) :=
  insertion_loop (len - 1) l start (start + 1).

(** [if (cmp(b, a) < 0) swap(a, b)] *)
Definition cswap l (a b : nat) : option (list A) :=
  x ← l !! a; y ← l !! b; if lt y x then swap l a b else Some l.

Definition sort3 l (a b c : nat) : option (list A) :=
  l ← cswap l a b; l ← cswap l b c; cswap l a b.

Definition ninther l start len : option (list A) :=
  let step := len / 8 + len / 64 + 1 in
  let mid_idx := start + len / 2 in
  l ← sort3 l start (start + step) (start + 2 * step);
  l ← sort3 l (mid_idx - step) mid_idx (mid_idx + step);
  l ← sort3 l (start + len - 1 - 2 * step) (start + len - 1 - step) (start + len - 1);
  sort3 l (start + step) mid_idx (start + len - 1 - step).

(** [while (i <= j && cmp(pi, pivot) < 0) i++] *)
Fixpoint scan_right (fuel : nat) l i j (pivot : A) : option nat :=
  if i <=? j then
    match fuel with
    | O => None
    | S fuel => x ← l !! i; if lt x pivot then scan_right fuel l (i + 1) j pivot else Some i
    end
  else Some i.

Fixpoint scan_left (fuel : nat) l i j (pivot : A) : option nat :=
  if i <=? j then
    match fuel with
    | O => None
    | S fuel => x ← l !! j; if (0 <? cmp x pivot)%Z then scan_left fuel l i (j - 1) pivot else Some j
    end
  else Some j.

(** [while (true)]; the pivot stays in cell [start]. *)
Fixpoint partition_loop (fuel : nat) l start i j : option (list A * nat) :=
  match fuel with
  | O => None
  | S fuel =>
      pivot ← l !! start;
      i ← scan_right (j + 1 - i) l i j pivot;
      j ← scan_left (j + 1 - i) l i j pivot;
      if j <=? i then Some (l, j)
      else l ← swap l i j; partition_loop fuel l start (i + 1) (j - 1)
  end.

Definition pdq_partition l start len : option (list A * nat) :=
  let mid := start + len / 2 in
  let last := start + len - 1 in
  l ← (if 128 <? len then ninther l start len else Some l);
  l ← sort3 l start mid last;
  l ← swap l start mid;
  r ← partition_loop len l start (start + 1) last;
  l ← swap r.1 start r.2;
  Some (l, r.2).

(** Each recursive call is on a shorter range: [len] rounds of fuel do. *)
Fixpoint flux_sort_rec (fuel : nat) l start len : run (list A) :=
  if len <? FLUX_SMALL_SORT_THRESHOLD then access (insertion_sort l start len)
  else
    match fuel with
    | O => λ _, None
    | S fuel =>
        r ← analyze_and_merge l start len;
        if r.2 : bool then mret r.1
        else
          p ← access (pdq_partition r.1 start len);
          let pivot_idx := p.2 in
          let left_len := if start <? pivot_idx then pivot_idx - start else 0 in
          let right_start := pivot_idx + 1 in
          let right_len := if right_start <? start + len then start + len - right_start else 0 in
          l ← (if 0 <? left_len then flux_sort_rec fuel p.1 start left_len else mret p.1);
          if 0 <? right_len then flux_sort_rec fuel l right_start right_len else mret l
    end.

Definition po_sort l (nmemb : nat) : run (list A) :=
  if nmemb <? 2 then mret l else flux_sort_rec nmemb l 0 nmemb.
End sort.

(** ** Reasoning about runs

    [wp F c Q]: [c] ends in [Q]; when [F] holds no allocation fails, otherwise
    any may.  One proof gives safety for every allocator and sortedness for
    allocators that do not fail. *)

Definition wp (F : Prop) {A} (c : run A) (Q : A → Prop) : Prop :=
  ∀ m, (F → no_fail m) → ∃ a m', c m = Some (a, m') ∧ (F → no_fail m') ∧ Q a.

Lemma wp_ret F {A} (a : A) (Q : A → Prop) : Q a → wp F (mret a) Q.
Proof. intros H m Hm. by exists a, m. Qed.

Lemma wp_bind F {A B} (c : run A) (f : A → run B) Q :
  wp F c (λ a, wp F (f a) Q) → wp F (c ≫= f) Q.
Proof.
  intros H m Hm. destruct (H m Hm) as (a & m' & E & Hm' & Ha). unfold mbind, run_bind. rewrite E.
  by apply Ha.
Qed.

Lemma wp_mono F {A} (c : run A) (P Q : A → Prop) : wp F c P → (∀ a, P a → Q a) → wp F c Q.
Proof. intros H HPQ m Hm. destruct (H m Hm) as (a & m' & ? & ? & ?). eauto 10. Qed.

Lemma wp_access F {A} (o : option A) a (Q : A → Prop) : o = Some a → Q a → wp F (access o) Q.
Proof. intros -> H m Hm. by exists a, m. Qed.

Lemma wp_alloc F (Q : bool → Prop) : Q true → (¬ F → Q false) → wp F alloc_ok Q.
Proof.
  intros Ht Hf m Hm. unfold alloc_ok. exists (malloc m).1, (malloc m).2.
  split; [by destruct (malloc m)|]. destruct m as [|[] m]; simpl; [done| |].
  - split; [|done]. intros HF. specialize (Hm HF). by inversion Hm.
  - assert (¬ F) as HF by (intros HF; specialize (Hm HF); by inversion Hm). split; [done|auto].
Qed.

(** ** Lists *)

(** Concatenations in right-associated form. *)
Ltac list_norm := do 2 (rewrite <- ?app_assoc; cbn [app]).
Tactic Notation "list_norm" "in" hyp(H) := rewrite <- ?app_assoc in H; cbn [app] in H.

Lemma swap_split {A} (pre mid post : list A) x y i j :
  i = length pre → j = i + 1 + length mid →
  swap (pre ++ x :: mid ++ y :: post) i j = Some (pre ++ y :: mid ++ x :: post).
Proof.
  intros -> ->. rewrite (swap_spec _ _ _ x y).
  - f_equal. replace (length pre + 1 + length mid) with (length pre + (1 + length mid)) by lia.
    rewrite insert_app_r. simpl.
    rewrite <- (Nat.add_0_r (length mid)) at 1. rewrite insert_app_r. simpl.
    rewrite <- (Nat.add_0_r (length pre)) at 1. by rewrite insert_app_r.
  - by apply list_lookup_middle.
  - replace (length pre + 1 + length mid) with (length pre + (1 + length mid)) by lia.
    rewrite lookup_app_r by lia. replace (length pre + (1 + length mid) - length pre) with (S (length mid)) by lia.
    simpl. by apply list_lookup_middle.
Qed.

Lemma lookup_mid {A} (pre mid post : list A) i :
  i < length mid → (pre ++ mid ++ post) !! (length pre + i) = mid !! i.
Proof.
  intros Hi. rewrite lookup_app_r by lia. rewrite Nat.add_comm, Nat.add_sub. by apply lookup_app_l.
Qed.

Lemma swap_mid {A} (pre mid post : list A) i j :
  i < length mid → j < length mid →
  ∃ mid', swap mid i j = Some mid' ∧ mid' ≡ₚ mid ∧
    swap (pre ++ mid ++ post) (length pre + i) (length pre + j) = Some (pre ++ mid' ++ post).
Proof.
  intros Hi Hj. destruct (lookup_lt_is_Some_2 mid i Hi) as [x Hx].
  destruct (lookup_lt_is_Some_2 mid j Hj) as [y Hy].
  exists (<[i := y]> (<[j := x]> mid)). split_and!; [by apply swap_spec|by apply insert_swap_Permutation|].
  rewrite (swap_spec _ _ _ x y) by (by rewrite lookup_mid).
  by rewrite !insert_app_r, !insert_app_l by (by rewrite ?length_insert).
Qed.

Lemma write_mid {A} (pre mid post out : list A) :
  length out = length mid → write (pre ++ mid ++ post) (length pre) out = pre ++ out ++ post.
Proof.
  intros E. unfold write. rewrite take_app_length, E. f_equal. f_equal.
  by rewrite <- drop_drop, !drop_app_length.
Qed.

Lemma slice_mid {A} (pre mid post : list A) :
  slice (pre ++ mid ++ post) (length pre) (length mid) = Some mid.
Proof.
  unfold slice. rewrite !length_app. destruct (Nat.leb_spec (length pre + length mid)
    (length pre + (length mid + length post))); [|lia]. by rewrite drop_app_length, take_app_length.
Qed.

Section sort_lemmas.
Context {A : Type} (D : A → Prop) (cmp : A → A → Z) `{!TotalOrderOn D cmp}.
Implicit Types (l pre mid post : list A).

Definition cmp_le (x y : A) : Prop := (cmp x y <= 0)%Z.
Abbreviation sorted := (StronglySorted cmp_le).

Lemma le_trans x y z : D x → D y → D z → cmp_le x y → cmp_le y z → cmp_le x z.
Proof using Type*. apply cmp_trans. Qed.

Lemma nlt_le x y : D x → D y → (cmp x y <? 0)%Z = false → cmp_le y x.
Proof using Type*. intros Hx Hy E. apply Z.ltb_ge in E. apply (cmp_nlt D cmp); [done..|lia]. Qed.

Lemma ge_le x y : D x → D y → (0 <= cmp x y)%Z → cmp_le y x.
Proof using Type*. intros Hx Hy E. apply (cmp_nlt D cmp); [done..|lia]. Qed.

Lemma SS_app {R : A → A → Prop} l1 l2 :
  StronglySorted R (l1 ++ l2) ↔
  StronglySorted R l1 ∧ StronglySorted R l2 ∧ ∀ x y, x ∈ l1 → y ∈ l2 → R x y.
Proof.
  induction l1 as [|a l1 IH]; simpl.
  - split; [intros H; split_and!; [constructor|done|]|by intros (_ & H & _)].
    intros x y Hx. by apply not_elem_of_nil in Hx.
  - split.
    + intros H. inversion H as [|? ? Hs Hf]; subst. apply IH in Hs as (H1 & H2 & H3).
      rewrite Forall_forall in Hf. split_and!; [constructor; [done|]|done|].
      * apply Forall_forall. intros x Hx. apply Hf, elem_of_app. by left.
      * intros x y [->|Hx]%elem_of_cons Hy; [apply Hf, elem_of_app; by right|by apply H3].
    + intros (H1 & H2 & H3). inversion H1 as [|? ? Hs Hf]; subst. constructor.
      * apply IH. split_and!; [done|done|]. intros x y Hx Hy. apply H3; [by right|done].
      * apply Forall_app. split; [done|]. apply Forall_forall. intros y Hy. apply H3; [by left|done].
Qed.

Lemma SS_singleton {R : A → A → Prop} x : StronglySorted R [x].
Proof. repeat constructor. Qed.

Lemma SS_rev {R : A → A → Prop} l : StronglySorted (flip R) l → StronglySorted R (rev l).
Proof.
  induction l as [|a l IH]; intros H; simpl; [constructor|]. inversion H as [|? ? Hs Hf]; subst.
  apply SS_app. split_and!; [by apply IH|apply SS_singleton|]. rewrite Forall_forall in Hf.
  intros x y Hx [->|Hy]%elem_of_cons; [|by apply not_elem_of_nil in Hy].
  apply Hf. by rewrite <- (Permutation_rev l) in Hx.
Qed.

Lemma Forall_elem l x : Forall D l → x ∈ l → D x.
Proof. rewrite Forall_forall. auto. Qed.

(** *** Reversal *)

Lemma reverse_loop_spec fuel pre mid post lo hi :
  lo = length pre → hi = length pre + length mid - 1 → length mid <= fuel →
  reverse_loop fuel (pre ++ mid ++ post) lo hi = Some (pre ++ rev mid ++ post).
Proof.
  revert pre mid post lo hi. induction fuel as [|fuel IH]; intros pre mid post lo hi -> -> Hf; simpl.
  - destruct mid; [|simpl in Hf; lia]. by rewrite (proj2 (Nat.ltb_ge _ _)) by (simpl; lia).
  - destruct (Nat.ltb_spec (length pre) (length pre + length mid - 1)) as [Hlt|Hge].
    + destruct mid as [|a mid]; [simpl in Hlt; lia|].
      destruct mid as [|b mid _] using rev_ind; [simpl in Hlt; lia|].
      simpl. rewrite <- app_assoc. simpl. rewrite (swap_split pre mid post a b).
      2: done. 2: { simpl. rewrite length_app. simpl. lia. }
      simpl. pose proof (IH (pre ++ [b]) mid (a :: post)) as H.
      rewrite <- !app_assoc in H. simpl in H. rewrite H.
      * by rewrite rev_app_distr, <- !app_assoc.
      * rewrite length_app. simpl. lia.
      * rewrite ?length_app. simpl. rewrite ?length_app. simpl. lia.
      * simpl in Hf. rewrite length_app in Hf. simpl in Hf. lia.
    + destruct mid as [|a [|b mid]]; [done|done|simpl in Hge; lia].
Qed.

Lemma reverse_range_spec pre mid post start len :
  start = length pre → len = length mid →
  reverse_range (pre ++ mid ++ post) start len = Some (pre ++ rev mid ++ post).
Proof. intros -> ->. unfold reverse_range. by apply reverse_loop_spec. Qed.

(** *** Merge *)

Lemma merge_out_nil_l s2 : merge_out cmp [] s2 = s2.
Proof. by destruct s2. Qed.

Lemma merge_out_nil_r s1 : merge_out cmp s1 [] = s1.
Proof. by destruct s1. Qed.

Lemma merge_out_cons x s1 y s2 :
  merge_out cmp (x :: s1) (y :: s2) =
  if (cmp x y <=? 0)%Z then x :: merge_out cmp s1 (y :: s2) else y :: merge_out cmp (x :: s1) s2.
Proof. done. Qed.

Lemma merge_out_Permutation s1 s2 : merge_out cmp s1 s2 ≡ₚ s1 ++ s2.
Proof.
  revert s2. induction s1 as [|x s1 IH1]; intros s2; [by rewrite merge_out_nil_l|].
  induction s2 as [|y s2 IH2]; [by rewrite merge_out_nil_r, app_nil_r|].
  rewrite merge_out_cons. destruct (cmp x y <=? 0)%Z; [by rewrite IH1|].
  rewrite IH2. simpl. rewrite <- Permutation_middle. apply Permutation_swap.
Qed.

Lemma merge_out_sorted s1 s2 :
  Forall D s1 → Forall D s2 → sorted s1 → sorted s2 → sorted (merge_out cmp s1 s2).
Proof using Type*.
  revert s2. induction s1 as [|x s1 IH1]; intros s2; [by rewrite merge_out_nil_l|].
  induction s2 as [|y s2 IH2]; [by rewrite merge_out_nil_r|].
  intros HD1 HD2 H1 H2. pose proof HD1 as HD1'. pose proof HD2 as HD2'.
  apply Forall_cons_1 in HD1' as [Dx Ds1]. apply Forall_cons_1 in HD2' as [Dy Ds2].
  rewrite merge_out_cons. inversion H1 as [|? ? Hs1 Hf1]; subst. inversion H2 as [|? ? Hs2 Hf2]; subst.
  rewrite Forall_forall in Hf1, Hf2.
  destruct (Z.leb_spec (cmp x y) 0) as [Hle|Hgt]; constructor; [by apply IH1| |by apply IH2|].
  - rewrite merge_out_Permutation. apply Forall_app. split; [by apply Forall_forall|].
    constructor; [done|]. apply Forall_forall. intros z Hz.
    apply (le_trans x y z); [done|done|apply (Forall_elem _ _ Ds2 Hz)|done|by apply Hf2].
  - rewrite merge_out_Permutation. apply Forall_app. assert (cmp_le y x) as Hyx by (apply ge_le; [done..|lia]).
    split; [constructor; [done|]|by apply Forall_forall]. apply Forall_forall. intros z Hz.
    apply (le_trans y x z); [done|done|apply (Forall_elem _ _ Ds1 Hz)|done|by apply Hf1].
Qed.

Lemma merge_spec F pre s1 s2 post start :
  start = length pre → Forall D s1 → Forall D s2 →
  wp F (merge cmp (pre ++ s1 ++ s2 ++ post) start (length s1) (length s2)) (λ l',
    ∃ mid, l' = pre ++ mid ++ post ∧ mid ≡ₚ s1 ++ s2 ∧ (F → sorted s1 → sorted s2 → sorted mid)).
Proof using Type*.
  intros -> HD1 HD2. unfold merge. apply wp_bind, wp_alloc; simpl.
  - apply wp_bind. eapply wp_access; [apply slice_mid|]. apply wp_bind.
    eapply wp_access.
    { rewrite app_assoc, <- (length_app pre s1). apply slice_mid. }
    apply wp_ret. exists (merge_out cmp s1 s2). split_and!; [|apply merge_out_Permutation|].
    + rewrite (app_assoc s1). apply write_mid, Permutation_length, merge_out_Permutation.
    + intros _ ? ?. by apply merge_out_sorted.
  - intros HF. apply wp_ret. exists (s1 ++ s2). rewrite <- !app_assoc. done.
Qed.

(** *** Runs *)

(** Offsets of consecutive segments. *)
Fixpoint starts (o : nat) (segs : list (list A)) : list nat :=
  match segs with
  | [] => []
  | s :: segs => o :: starts (o + length s) segs
  end.

Lemma starts_snoc o segs s : starts o (segs ++ [s]) = starts o segs ++ [o + length (concat segs)].
Proof.
  revert o. induction segs as [|t segs IH]; intros o; simpl; [by rewrite Nat.add_0_r|].
  rewrite IH, length_app. do 3 f_equal. lia.
Qed.

Lemma length_starts o segs : length (starts o segs) = length segs.
Proof. revert o. induction segs as [|s segs IH]; intros o; simpl; [done|]. by rewrite IH. Qed.

Lemma last_starts segs s : List.last (starts 0 (segs ++ [s])) 0 = length (concat segs).
Proof. by rewrite starts_snoc, last_last. Qed.

(** A run in the direction the scan has noted for it. *)
Definition mono (desc : bool) l : Prop :=
  if desc then StronglySorted (flip cmp_le) l else StronglySorted cmp_le l.

Lemma mono_singleton desc x : mono desc [x].
Proof. destruct desc; apply SS_singleton. Qed.

Lemma mono_snoc (desc : bool) c x y :
  Forall D (c ++ [x; y]) → mono desc (c ++ [x]) →
  ((desc && (0 <? cmp y x)%Z) || (negb desc && (cmp y x <? 0)%Z)) = false →
  mono desc ((c ++ [x]) ++ [y]).
Proof using Type*.
  intros HD Hm Hc. apply Forall_app in HD as [HDc HDxy].
  apply Forall_cons_1 in HDxy as [Dx HDy]. apply Forall_cons_1 in HDy as [Dy _].
  destruct desc; simpl in *; apply SS_app; (split_and!; [done|apply SS_singleton|]);
    (intros z w Hz [-> |Hw]%elem_of_cons; [|by apply not_elem_of_nil in Hw]); apply SS_app in Hm as (_ & _ & Hm).
  - rewrite orb_false_r in Hc. apply Z.ltb_ge in Hc.
    assert (cmp_le y x) as Hyx by done. apply elem_of_app in Hz as [Hz|Hz].
    + apply (le_trans y x z); [done|done|apply (Forall_elem _ _ HDc Hz)|done|].
      apply Hm; [done|by left].
    + apply elem_of_cons in Hz as [->|Hz]; [done|by apply not_elem_of_nil in Hz].
  - assert (cmp_le x y) as Hxy by by apply nlt_le. apply elem_of_app in Hz as [Hz|Hz].
    + apply (le_trans z x y); [apply (Forall_elem _ _ HDc Hz)|done|done| |done].
      apply Hm; [done|by left].
    + apply elem_of_cons in Hz as [->|Hz]; [done|by apply not_elem_of_nil in Hz].
Qed.

(** Normalising a run: descending ones are reversed. *)
Definition ascend (desc : bool) l : list A := if desc then rev l else l.

Lemma ascend_sorted desc l : mono desc l → sorted (ascend desc l).
Proof. destruct desc; simpl; [apply SS_rev|done]. Qed.

Lemma ascend_Permutation desc l : ascend desc l ≡ₚ l.
Proof. destruct desc; simpl; [by rewrite <- Permutation_rev|done]. Qed.

Lemma ascend_spec (desc : bool) pre mid post start len :
  start = length pre → len = length mid →
  (if desc then reverse_range (pre ++ mid ++ post) start len else Some (pre ++ mid ++ post)) =
  Some (pre ++ ascend desc mid ++ post).
Proof. intros -> ->. destruct desc; simpl; [by apply reverse_range_spec|done]. Qed.

Lemma lookup_after (pre : list A) x l i : i = length pre → (pre ++ x :: l) !! i = Some x.
Proof. intros ->. by apply list_lookup_middle. Qed.

(** The probe of the next run's direction reads inside the range: it never falls outside. *)
Lemma next_direction_total (pre s rest post : list A) (desc : bool) k k' n len :
  k = length pre + length s → k' = k + 1 → (n < len → 2 <= length rest) →
  ∃ d, (if n <? len then
    next ← (pre ++ s ++ rest ++ post) !! k;
    after ← (pre ++ s ++ rest ++ post) !! k';
    Some (cmp after next <? 0)%Z else Some desc) = Some d.
Proof using Type*.
  intros -> -> Hr. destruct (Nat.ltb_spec n len) as [Hlt|]; [|eauto].
  destruct rest as [|y [|w rest]]; [specialize (Hr Hlt); simpl in Hr; lia..|]. cbn [app].
  set (L := pre ++ _).
  assert (L !! (length pre + length s) = Some y) as ->.
  { unfold L. rewrite app_assoc. apply lookup_after. by rewrite length_app. }
  assert (L !! (length pre + length s + 1) = Some w) as ->; [|simpl; eauto].
  assert (L = (pre ++ s ++ [y]) ++ w :: rest ++ post) as -> by (unfold L; by list_norm).
  apply lookup_after. rewrite !length_app. simpl. lia.
Qed.

Lemma scan_runs_spec pre post len rest segs c x desc :
  len = length (concat segs ++ (c ++ [x]) ++ rest) → length segs <= 3 →
  Forall (λ s, sorted s) segs → mono desc (c ++ [x]) →
  Forall D (concat segs ++ (c ++ [x]) ++ rest) →
  ∃ l' o, scan_runs cmp (length rest) (pre ++ concat segs ++ (c ++ [x]) ++ rest ++ post) (length pre) len
      (length (concat segs) + length c) (starts 0 (segs ++ [c ++ [x]])) desc = Some (l', o) ∧
    match o with
    | None => ∃ mid, l' = pre ++ mid ++ post ∧ mid ≡ₚ concat segs ++ (c ++ [x]) ++ rest
    | Some (runs, desc') => ∃ segs' cur,
        l' = pre ++ (concat segs' ++ cur) ++ post ∧ runs = starts 0 (segs' ++ [cur]) ∧
        length segs' <= 3 ∧ Forall (λ s, sorted s) segs' ∧ mono desc' cur ∧
        concat segs' ++ cur ≡ₚ concat segs ++ (c ++ [x]) ++ rest
    end.
Proof using Type*.
  revert segs c x desc. induction rest as [|y rest IH]; intros segs c x desc Hlen Hsegs Hs Hm HD.
  { simpl. eexists _, _. split; [done|]. exists segs, (c ++ [x]).
    rewrite app_nil_r, <- !app_assoc in *. simpl in *. by rewrite ?app_nil_r in *. }
  cbn [length scan_runs]. set (L := pre ++ concat segs ++ (c ++ [x]) ++ (y :: rest) ++ post).
  assert (L !! (length pre + (length (concat segs) + length c)) = Some x) as ->.
  { unfold L. list_norm. rewrite !(app_assoc _ _ (x :: _)). apply lookup_after. rewrite !length_app. lia. }
  assert (L !! (length pre + (length (concat segs) + length c) + 1) = Some y) as Hy.
  { unfold L. list_norm. change (x :: y :: rest ++ post) with ([x] ++ y :: rest ++ post).
    rewrite !(app_assoc _ _ (y :: _)). apply lookup_after. rewrite !length_app. simpl. lia. }
  rewrite Hy. cbn [mbind option_bind].
  assert (Forall D (c ++ [x; y])) as HDc.
  { list_norm in HD. apply Forall_app in HD as [_ HD].
    change (c ++ x :: y :: rest) with (c ++ [x; y] ++ rest) in HD. rewrite app_assoc in HD.
    by apply Forall_app in HD as []. }
  destruct (_ || _) eqn:Hbrk.
  - (* a run ends in front of [y] *)
    rewrite last_starts.
    assert (L = (pre ++ concat segs) ++ (c ++ [x]) ++ (y :: rest) ++ post) as EL by (unfold L; by list_norm).
    rewrite EL, (ascend_spec desc (pre ++ concat segs) (c ++ [x]))
      by (rewrite !length_app; simpl; lia).
    cbn [mbind option_bind]. rewrite length_starts, length_app. cbn [length].
    set (s := ascend desc (c ++ [x])). assert (s ≡ₚ c ++ [x]) as Ps by apply ascend_Permutation.
    assert (length s = length c + 1) as Ls by (rewrite Ps, length_app; done).
    destruct (Nat.leb_spec 4 (length segs + 1)) as [H4|H4].
    { eexists _, _. split; [done|]. exists (concat segs ++ s ++ y :: rest).
      split; [by list_norm|]. by rewrite Ps. }
    set (L2 := (pre ++ concat segs) ++ s ++ (y :: rest) ++ post).
    destruct (next_direction_total (pre ++ concat segs) s (y :: rest) post desc
      (length pre + (length (concat segs) + length c) + 1)
      (length pre + (length (concat segs) + length c) + 2)
      (length (concat segs) + length c + 2) len) as [d Hd].
    { rewrite !length_app, Ls. lia. } { lia. } { rewrite Hlen, !length_app. simpl. lia. }
    fold L2 in Hd. rewrite Hd. cbn [mbind option_bind].
    destruct (IH (segs ++ [s]) [] y d) as (l' & o & E & Ho).
    + rewrite Hlen. rewrite concat_app. simpl. rewrite ?length_app. simpl. rewrite ?length_app. simpl. lia.
    + rewrite length_app. simpl. lia.
    + apply Forall_app. split; [done|]. constructor; [by apply ascend_sorted|constructor].
    + apply mono_singleton.
    + rewrite concat_app. simpl. rewrite app_nil_r. revert HD. list_norm. rewrite Ps. by list_norm.
    + exists l', o. rewrite <- E, (starts_snoc 0 (segs ++ [s])), !starts_snoc, !concat_app.
      simpl. rewrite app_nil_r, !length_app, Ls. split; [|].
      * unfold L2. list_norm. f_equal; [lia|]. do 3 f_equal; lia.
      * rewrite concat_app in Ho. simpl in Ho. rewrite app_nil_r in Ho. list_norm in Ho.
        destruct o as [[runs' d']|].
        -- destruct Ho as (segs' & cur & ? & ? & ? & ? & ? & Hp). exists segs', cur.
           split_and!; try done. rewrite Hp, Ps. by list_norm.
        -- destruct Ho as (mid & ? & Hp). exists mid. split; [done|]. rewrite Hp, Ps. by list_norm.
  - (* the run goes on *)
    destruct (IH segs (c ++ [x]) y desc) as (l' & o & E & Ho).
    + rewrite Hlen. by list_norm.
    + done.
    + done.
    + by apply mono_snoc.
    + by list_norm; list_norm in HD.
    + exists l', o. rewrite !starts_snoc in *. split.
      * rewrite <- E, (length_app c [x]), Nat.add_assoc. unfold L. by list_norm.
      * list_norm in Ho. by list_norm.
Qed.

Lemma merge_spec' F l pre s1 s2 post start n1 n2 :
  l = pre ++ s1 ++ s2 ++ post → start = length pre → n1 = length s1 → n2 = length s2 →
  Forall D s1 → Forall D s2 →
  wp F (merge cmp l start n1 n2) (λ l',
    ∃ mid, l' = pre ++ mid ++ post ∧ mid ≡ₚ s1 ++ s2 ∧ (F → sorted s1 → sorted s2 → sorted mid)).
Proof using Type*. intros -> -> -> -> ? ?. by apply merge_spec. Qed.

Lemma merge_runs_spec F pre post segs :
  2 <= length segs <= 4 → Forall (λ s, sorted s) segs → Forall D (concat segs) →
  wp F (merge_runs cmp (pre ++ concat segs ++ post) (length pre) (length (concat segs)) (starts 0 segs))
    (λ l', ∃ mid, l' = pre ++ mid ++ post ∧ mid ≡ₚ concat segs ∧ (F → sorted mid)).
Proof using Type*.
  intros Hl Hs HD. unfold merge_runs. rewrite length_starts.
  destruct segs as [|s0 [|s1 [|s2 [|s3 [|? ?]]]]]; simpl in Hl; try lia; simpl concat in *;
    rewrite ?app_nil_r in *; cbn [length starts lookup list_lookup default option_fmap Nat.ltb Nat.leb];
    unfold id; simpl Nat.add; rewrite ?Nat.add_0_r, ?Nat.sub_0_r, ?length_app;
    repeat (apply Forall_app in HD as [? HD]);
    repeat match goal with H : Forall _ (_ :: _) |- _ => apply Forall_cons_1 in H as [? H] end;
    apply wp_bind.
  - eapply wp_mono; [apply (merge_spec' F _ pre s0 s1 post); list_norm; try done; lia|].
    intros l' (mid & -> & Hp & Hsort). apply wp_bind, wp_ret, wp_ret. exists mid. auto.
  - eapply wp_mono; [apply (merge_spec' F _ pre s0 s1 (s2 ++ post)); list_norm; try done; lia|].
    intros l' (mid & -> & Hp & Hsort). apply wp_bind, wp_ret.
    eapply wp_mono; [apply (merge_spec' F _ pre mid s2 post); rewrite ?Hp, ?length_app; try done; try lia|].
    { by apply Forall_app. }
    intros l2 (mid2 & -> & Hp2 & Hsort2). exists mid2. split_and!; [done|rewrite Hp2, Hp; by list_norm|auto].
  - eapply wp_mono; [apply (merge_spec' F _ pre s0 s1 (s2 ++ s3 ++ post)); list_norm; try done; lia|].
    intros l' (mid & -> & Hp & Hsort). apply wp_bind.
    assert (length mid = length s0 + length s1) as Lm by (rewrite Hp, length_app; done).
    eapply wp_mono; [apply (merge_spec' F _ (pre ++ mid) s2 s3 post); list_norm; rewrite ?length_app; try done; lia|].
    intros l2 (mid2 & -> & Hp2 & Hsort2).
    assert (length mid2 = length s2 + length s3) as Lm2 by (rewrite Hp2, length_app; done).
    eapply wp_mono; [apply (merge_spec' F _ pre mid mid2 post); list_norm; try done; try lia|].
    { rewrite Hp. by apply Forall_app. } { rewrite Hp2. by apply Forall_app. }
    intros l3 (mid3 & -> & Hp3 & Hsort3). exists mid3. split_and!; [done| |auto].
    rewrite Hp3, Hp, Hp2. by list_norm.
Qed.

Lemma mixed_probe_safe pre mid post :
  512 < length mid →
  ∃ b, mixed_probe cmp (pre ++ mid ++ post) (length pre) (length mid) = Some b.
Proof.
  intros Hl. unfold mixed_probe.
  assert (∀ k, k <= 4 → ∃ y, (pre ++ mid ++ post) !! (length pre + k * (length mid / 5)) = Some y) as Hk.
  { intros k Hk. rewrite lookup_mid; [apply lookup_lt_is_Some_2|];
      pose proof (Nat.div_mod_eq (length mid) 5); nia. }
  destruct (Hk 0) as [y0 H0]; [lia|]. rewrite Nat.mul_0_l, Nat.add_0_r in H0.
  destruct (Hk 1) as [y1 H1]; [lia|]. rewrite Nat.mul_1_l in H1.
  destruct (Hk 2) as [y2 H2]; [lia|]. destruct (Hk 3) as [y3 H3]; [lia|].
  destruct (Hk 4) as [y4 H4]; [lia|].
  rewrite H0, H1, H2, H3, H4. cbn [mbind option_bind]. eauto.
Qed.

Lemma analyze_and_merge_spec F pre mid post :
  Forall D mid →
  wp F (analyze_and_merge cmp (pre ++ mid ++ post) (length pre) (length mid)) (λ r,
    ∃ mid', r.1 = pre ++ mid' ++ post ∧ mid' ≡ₚ mid ∧ (F → r.2 = true → sorted mid')).
Proof using Type*.
  intros HD. unfold analyze_and_merge.
  destruct (Nat.ltb_spec (length mid) 128) as [Hlt|Hge]; [apply wp_ret; by exists mid|].
  apply wp_bind.
  assert (∃ b, (if 512 <? length mid then mixed_probe cmp (pre ++ mid ++ post) (length pre) (length mid)
                else Some false) = Some b) as [b Hb].
  { destruct (Nat.ltb_spec 512 (length mid)); [by apply mixed_probe_safe|eauto]. }
  eapply wp_access; [exact Hb|]. destruct b; [apply wp_ret; by exists mid|].
  destruct mid as [|x [|y rest]]; [simpl in Hge; lia|simpl in Hge; lia|].
  apply wp_bind. eapply wp_access; [by apply lookup_after|].
  apply wp_bind. eapply wp_access.
  { change ((x :: y :: rest) ++ post) with ([x] ++ y :: rest ++ post). rewrite app_assoc.
    apply lookup_after. rewrite length_app. done. }
  apply wp_bind. set (desc := (cmp y x <? 0)%Z).
  destruct (scan_runs_spec pre post (length (x :: y :: rest)) (y :: rest) [] [] x desc)
    as (l' & o & E & Ho); try done; [simpl; lia|apply mono_singleton|].
  eapply wp_access; [exact E|].
  destruct o as [[runs desc']|].
  - destruct Ho as (segs & cur & -> & -> & Hl & Hs & Hm & Hp). rewrite last_starts.
    pose proof (Permutation_length Hp) as Hlen. simpl app in Hlen. rewrite length_app in Hlen.
    apply wp_bind. eapply wp_access.
    { list_norm. rewrite app_assoc. apply ascend_spec; [by rewrite length_app|].
      simpl in Hlen |- *. lia. }
    rewrite length_starts, length_app. cbn [length]. set (s := ascend desc' cur).
    assert (s ≡ₚ cur) as Ps by apply ascend_Permutation.
    assert (sorted s) as Ss by by apply ascend_sorted.
    assert (concat (segs ++ [s]) ≡ₚ x :: y :: rest) as Pc.
    { rewrite concat_app. simpl. rewrite app_nil_r, Ps, Hp. done. }
    destruct (Nat.leb_spec (length segs + 1) 1) as [H1|H1].
    + destruct segs; [|simpl in H1; lia]. apply wp_ret. exists s. simpl in *. rewrite app_nil_r in *. done.
    + apply wp_bind.
      assert ((pre ++ concat segs) ++ s ++ post = pre ++ concat (segs ++ [s]) ++ post) as ->.
      { rewrite concat_app. simpl. list_norm. done. }
      assert (starts 0 (segs ++ [cur]) = starts 0 (segs ++ [s])) as -> by by rewrite !starts_snoc.
      change (S (S (length rest))) with (length (x :: y :: rest)).
      rewrite <- (Permutation_length Pc). eapply wp_mono; [apply (merge_runs_spec F pre post (segs ++ [s]))|].
      * rewrite length_app. simpl. lia.
      * apply Forall_app. split; [done|]. by constructor.
      * by rewrite Pc.
      * intros l2 (mid' & -> & Hp' & Hsort). apply wp_ret. exists mid'.
        split_and!; [done|by rewrite Hp'|auto].
  - destruct Ho as (mid & -> & Hp). apply wp_ret. exists mid. done.
Qed.

(** *** Insertion sort *)

Lemma shift_up_spec pre s y post tmp j :
  j = length pre + length s →
  ∃ l' j' s1 s2, shift_up cmp (pre ++ s ++ y :: post) (length pre) j tmp = Some (l', j') ∧
    <[j' := tmp]> l' = pre ++ s1 ++ tmp :: s2 ++ post ∧ s = s1 ++ s2 ∧
    Forall (λ z, (cmp tmp z < 0)%Z) s2 ∧ (∀ s0 z, s1 = s0 ++ [z] → (0 <= cmp tmp z)%Z).
Proof.
  revert y post j. induction s as [|z s IH] using rev_ind; intros y post j ->.
  - simpl. rewrite Nat.add_0_r. exists (pre ++ y :: post), (length pre), [], [].
    split_and!; [| |done|constructor|by intros []].
    + destruct (length pre) eqn:E; [done|]. simpl. rewrite <- E. by rewrite (proj2 (Nat.ltb_ge _ _)).
    + simpl. rewrite <- (Nat.add_0_r (length pre)). by rewrite insert_app_r.
  - rewrite length_app. cbn [length]. replace (length pre + (length s + 1)) with (S (length pre + length s)) by lia.
    cbn [shift_up]. rewrite (proj2 (Nat.ltb_lt _ _)) by lia.
    assert ((pre ++ (s ++ [z]) ++ y :: post) !! (length pre + length s) = Some z) as ->.
    { list_norm. rewrite app_assoc. apply lookup_after. by rewrite length_app. }
    cbn [mbind option_bind].
    assert (∀ w, <[S (length pre + length s) := w]> (pre ++ (s ++ [z]) ++ y :: post) =
              pre ++ s ++ z :: w :: post) as Hins.
    { intros w. replace (S (length pre + length s)) with (length pre + (length (s ++ [z]) + 0))
        by (rewrite length_app; simpl; lia).
      rewrite !insert_app_r. simpl. by list_norm. }
    destruct (Z.leb_spec 0 (cmp tmp z)) as [Hle|Hlt].
    + eexists _, _, (s ++ [z]), []. split_and!; [done| |by rewrite app_nil_r|constructor|].
      * rewrite Hins. by list_norm.
      * by intros s0 w [_ [= ->]]%app_inj_tail.
    + rewrite Hins. destruct (IH z (z :: post) (length pre + length s) eq_refl)
        as (l' & j' & s1 & s2 & E & Hl & -> & Hf & Hlast).
      exists l', j', s1, (s2 ++ [z]). split_and!; [done| |by list_norm| |done].
      * rewrite Hl. by list_norm.
      * apply Forall_app. split; [done|]. by constructor.
Qed.

Lemma insert_elem_spec pre s x post i :
  i = length pre + length s → sorted s → Forall D (s ++ [x]) →
  ∃ s', insert_elem cmp (pre ++ s ++ x :: post) (length pre) i = Some (pre ++ s' ++ post) ∧
    sorted s' ∧ s' ≡ₚ s ++ [x].
Proof using Type*.
  intros -> Hs HD. unfold insert_elem. rewrite app_assoc, lookup_after by by rewrite length_app.
  cbn [mbind option_bind]. rewrite <- app_assoc.
  destruct (shift_up_spec pre s x post x _ eq_refl) as (l' & j' & s1 & s2 & -> & Hl & -> & Hf & Hlast).
  cbn [mbind option_bind fst snd]. rewrite Hl. exists (s1 ++ x :: s2).
  split; [by list_norm|]. apply Forall_app in HD as [HDs HDx]. apply Forall_cons_1 in HDx as [Dx _].
  apply Forall_app in HDs as [HD1 HD2]. apply SS_app in Hs as (H1 & H2 & H12).
  split; [|by rewrite <- Permutation_middle, <- Permutation_cons_append].
  rewrite Forall_forall in Hf. assert (∀ z, z ∈ s2 → cmp_le x z) as Hx2.
  { intros z Hz. specialize (Hf z Hz). unfold cmp_le. lia. }
  apply SS_app. split_and!; [done|constructor; [done|by apply Forall_forall]|].
  intros a b Ha [->|Hb]%elem_of_cons; [|by apply H12].
  destruct s1 as [|z s1 _] using rev_ind; [by apply not_elem_of_nil in Ha|].
  apply SS_app in H1 as (_ & _ & H1). apply Forall_app in HD1 as [HD1 HDz].
  apply Forall_cons_1 in HDz as [Dz _].
  assert (cmp_le z x) as Hzx by (apply ge_le; [done..|by eapply Hlast]).
  apply elem_of_app in Ha as [Ha|Ha].
  - apply (le_trans a z x); [apply (Forall_elem _ _ HD1 Ha)|done|done| |done]. apply H1; [done|by left].
  - apply elem_of_cons in Ha as [->|Ha]; [done|by apply not_elem_of_nil in Ha].
Qed.

Lemma insertion_loop_spec pre s rest post i :
  i = length pre + length s → sorted s → Forall D (s ++ rest) →
  ∃ s', insertion_loop cmp (length rest) (pre ++ s ++ rest ++ post) (length pre) i = Some (pre ++ s' ++ post) ∧
    sorted s' ∧ s' ≡ₚ s ++ rest.
Proof using Type*.
  revert s i. induction rest as [|x rest IH]; intros s i -> Hs HD.
  { exists s. simpl. by rewrite app_nil_r. }
  cbn [length insertion_loop].
  assert (Forall D (s ++ [x]) ∧ Forall D rest) as [HDx HDr].
  { rewrite cons_middle, app_assoc in HD. by apply Forall_app in HD. }
  destruct (insert_elem_spec pre s x (rest ++ post) _ eq_refl Hs HDx) as (s' & E & Hs' & Hp).
  rewrite <- app_comm_cons. rewrite E. cbn [mbind option_bind].
  destruct (IH s' (length pre + length s + 1)) as (s2 & -> & Hs2 & Hp2).
  - rewrite Hp, length_app. simpl. lia.
  - done.
  - rewrite Hp. by apply Forall_app.
  - exists s2. split_and!; [done|done|]. rewrite Hp2, Hp. by list_norm.
Qed.

Lemma insertion_sort_spec pre mid post :
  Forall D mid →
  ∃ mid', insertion_sort cmp (pre ++ mid ++ post) (length pre) (length mid) = Some (pre ++ mid' ++ post) ∧
    sorted mid' ∧ mid' ≡ₚ mid.
Proof using Type*.
  intros HD. unfold insertion_sort. destruct mid as [|x mid].
  { exists []. split_and!; [done|constructor|done]. }
  replace (length (x :: mid) - 1) with (length mid) by (simpl; lia).
  destruct (insertion_loop_spec pre [x] mid post (length pre + 1) eq_refl (SS_singleton x) HD)
    as (s' & E & Hs & Hp). exists s'. split_and!; [exact E|done|done].
Qed.

(** *** Partition *)

Lemma cswap_mid pre mid post i j :
  i < length mid → j < length mid →
  ∃ mid', cswap cmp (pre ++ mid ++ post) (length pre + i) (length pre + j) = Some (pre ++ mid' ++ post) ∧
    mid' ≡ₚ mid.
Proof.
  intros Hi Hj. unfold cswap. rewrite !lookup_mid by done.
  destruct (lookup_lt_is_Some_2 mid i Hi) as [x Hx]. destruct (lookup_lt_is_Some_2 mid j Hj) as [y Hy].
  rewrite Hx. cbn [mbind option_bind]. rewrite Hy. cbn [mbind option_bind].
  destruct (_ <? 0)%Z; [|by exists mid].
  destruct (swap_mid pre mid post i j Hi Hj) as (mid' & _ & Hp & ->). by exists mid'.
Qed.

Lemma sort3_mid pre mid post i j k a b c :
  a = length pre + i → b = length pre + j → c = length pre + k →
  i < length mid → j < length mid → k < length mid →
  ∃ mid', sort3 cmp (pre ++ mid ++ post) a b c = Some (pre ++ mid' ++ post) ∧ mid' ≡ₚ mid.
Proof.
  intros -> -> -> Hi Hj Hk. unfold sort3.
  destruct (cswap_mid pre mid post i j Hi Hj) as (m1 & -> & P1). cbn [mbind option_bind].
  destruct (cswap_mid pre m1 post j k) as (m2 & -> & P2); [by rewrite P1..|]. cbn [mbind option_bind].
  destruct (cswap_mid pre m2 post i j) as (m3 & -> & P3); [by rewrite P2, P1..|].
  exists m3. split; [done|]. by rewrite P3, P2, P1.
Qed.

Lemma ninther_mid pre mid post :
  128 < length mid →
  ∃ mid', ninther cmp (pre ++ mid ++ post) (length pre) (length mid) = Some (pre ++ mid' ++ post) ∧
    mid' ≡ₚ mid.
Proof.
  intros Hl. unfold ninther. set (n := length mid) in *. set (step := n / 8 + n / 64 + 1).
  assert (2 * step < n ∧ step <= n / 2 ∧ n / 2 + step < n) as (H2 & Hs & Hm).
  { unfold step. pose proof (Nat.div_mod_eq n 8). pose proof (Nat.div_mod_eq n 64).
    pose proof (Nat.div_mod_eq n 2). pose proof (Nat.mod_upper_bound n 8).
    pose proof (Nat.mod_upper_bound n 64). pose proof (Nat.mod_upper_bound n 2). lia. }
  destruct (sort3_mid pre mid post 0 step (2 * step) (length pre) (length pre + step) (length pre + 2 * step))
    as (m1 & -> & P1); try lia. cbn [mbind option_bind].
  assert (length m1 = n) as L1 by by rewrite P1.
  destruct (sort3_mid pre m1 post (n / 2 - step) (n / 2) (n / 2 + step) (length pre + n / 2 - step)
    (length pre + n / 2) (length pre + n / 2 + step)) as (m2 & -> & P2); try lia. cbn [mbind option_bind].
  assert (length m2 = n) as L2 by by rewrite P2.
  destruct (sort3_mid pre m2 post (n - 1 - 2 * step) (n - 1 - step) (n - 1) (length pre + n - 1 - 2 * step)
    (length pre + n - 1 - step) (length pre + n - 1)) as (m3 & -> & P3); try lia. cbn [mbind option_bind].
  assert (length m3 = n) as L3 by by rewrite P3.
  destruct (sort3_mid pre m3 post step (n / 2) (n - 1 - step) (length pre + step)
    (length pre + n / 2) (length pre + n - 1 - step)) as (m4 & -> & P4); try lia.
  exists m4. split; [done|]. by rewrite P4, P3, P2, P1.
Qed.

(** Scanning over the elements below, respectively above, the pivot. *)
Lemma scan_right_spec fuel pre M post p i j :
  i = length pre → j + 1 = i + length M → length M <= fuel →
  ∃ M1 M2, M = M1 ++ M2 ∧ scan_right cmp fuel (pre ++ M ++ post) i j p = Some (i + length M1) ∧
    Forall (λ x, (cmp x p < 0)%Z) M1 ∧ (∀ x M', M2 = x :: M' → (0 <= cmp x p)%Z).
Proof.
  revert pre M i. induction fuel as [|fuel IH]; intros pre M i -> Hj Hf; cbn [scan_right].
  - destruct M; [|simpl in Hf; lia]. simpl in Hj. rewrite (proj2 (Nat.leb_gt _ _)) by lia.
    exists [], []. split_and!; [done|simpl; f_equal; lia|constructor|done].
  - destruct M as [|x M]; simpl in Hj.
    { rewrite (proj2 (Nat.leb_gt _ _)) by lia. exists [], []. split_and!; [done|simpl; f_equal; lia|constructor|done]. }
    rewrite (proj2 (Nat.leb_le _ _)) by lia. rewrite <- app_comm_cons, lookup_after by done.
    cbn [mbind option_bind]. destruct (Z.ltb_spec (cmp x p) 0) as [Hlt|Hge].
    + destruct (IH (pre ++ [x]) M (length pre + 1)) as (M1 & M2 & -> & E & HM1 & HM2).
      * by rewrite length_app.
      * lia.
      * simpl in Hf. lia.
      * rewrite <- app_assoc in E. cbn [app] in E. rewrite E.
        exists (x :: M1), M2. split_and!; [done|simpl; f_equal; lia|by constructor|done].
    + exists [], (x :: M). split_and!; [done|simpl; f_equal; lia|constructor|]. by intros ? ? [= <- <-].
Qed.

Lemma scan_left_spec fuel pre M post p i j :
  i = length pre → j + 1 = i + length M → 0 < i → length M <= fuel →
  ∃ M1 M2, M = M1 ++ M2 ∧ scan_left cmp fuel (pre ++ M ++ post) i j p = Some (i + length M1 - 1) ∧
    Forall (λ x, (0 < cmp x p)%Z) M2 ∧ (∀ x M', M1 = M' ++ [x] → (cmp x p <= 0)%Z).
Proof.
  intros ->. revert M post j. induction fuel as [|fuel IH]; intros M post j Hj Hi Hf; cbn [scan_left].
  - destruct M; [|simpl in Hf; lia]. simpl in Hj. rewrite (proj2 (Nat.leb_gt _ _)) by lia.
    exists [], []. split_and!; [done|simpl; f_equal; lia|constructor|by intros ? []].
  - destruct M as [|x M _] using rev_ind; [simpl in Hj|rewrite length_app in Hj; simpl in Hj].
    { rewrite (proj2 (Nat.leb_gt _ _)) by lia. exists [], [].
      split_and!; [done|simpl; f_equal; lia|constructor|by intros ? []]. }
    rewrite (proj2 (Nat.leb_le _ _)) by lia.
    assert ((pre ++ (M ++ [x]) ++ post) !! j = Some x) as ->.
    { list_norm. rewrite app_assoc. apply lookup_after. rewrite length_app. lia. }
    cbn [mbind option_bind]. destruct (Z.ltb_spec 0 (cmp x p)) as [Hgt|Hle].
    + rewrite length_app in Hf. simpl in Hf.
      destruct (IH M ([x] ++ post) (j - 1)) as (M1 & M2 & -> & E & HM2 & HM1); [lia|lia|lia|].
      list_norm in E. exists M1, (M2 ++ [x]). list_norm. rewrite E.
      split_and!; [done|done|apply Forall_app; by split; [|constructor]|done].
    + exists (M ++ [x]), []. split_and!; [by rewrite app_nil_r| |constructor|].
      * f_equal. rewrite length_app. simpl. lia.
      * by intros y M' [_ [= ->]]%app_inj_tail.
Qed.

(** The exchange of the two elements the scans stopped at: the left part gains [y], the right [x]. *)
Lemma partition_swap pre p (A0 M1 : list A) x M3 y M4 B post i :
  i = length pre + 1 + length A0 + length M1 →
  swap ((pre ++ p :: A0 ++ M1) ++ ((x :: M3 ++ [y]) ++ M4) ++ B ++ post) i
    (i + length (x :: M3 ++ [y]) - 1) =
  Some (pre ++ p :: (A0 ++ M1 ++ [y]) ++ M3 ++ (x :: M4 ++ B) ++ post).
Proof using Type*.
  intros ->.
  assert (((x :: M3 ++ [y]) ++ M4) ++ B ++ post = x :: M3 ++ y :: M4 ++ B ++ post) as ->
    by by list_norm.
  rewrite (swap_split _ M3 (M4 ++ B ++ post) x y).
  - by list_norm.
  - rewrite length_app. simpl. rewrite length_app. lia.
  - simpl. rewrite length_app. simpl. lia.
Qed.

Lemma partition_swap_perm (A0 M1 : list A) x M3 y M4 B :
  (A0 ++ M1 ++ [y]) ++ M3 ++ x :: M4 ++ B ≡ₚ A0 ++ (M1 ++ (x :: M3 ++ [y]) ++ M4) ++ B.
Proof using Type*.
  list_norm. f_equiv. f_equiv. change (y :: M3 ++ x :: M4 ++ B) with ([y] ++ M3 ++ [x] ++ M4 ++ B).
  change (x :: M3 ++ y :: M4 ++ B) with ([x] ++ M3 ++ [y] ++ M4 ++ B).
  rewrite !(app_assoc M3), (Permutation_app_comm M3 [x]), (Permutation_app_comm M3 [y]). simpl.
  apply Permutation_swap.
Qed.

Lemma partition_loop_spec fuel pre p A0 M B post i j :
  i = length pre + 1 + length A0 → j + 1 = i + length M → length M < fuel →
  D p → Forall D (A0 ++ M ++ B) →
  Forall (λ x, cmp_le x p) A0 → Forall (λ x, cmp_le p x) B →
  ∃ A1 B1, partition_loop cmp fuel (pre ++ p :: A0 ++ M ++ B ++ post) (length pre) i j =
      Some (pre ++ p :: A1 ++ B1 ++ post, length pre + length A1) ∧
    A1 ++ B1 ≡ₚ A0 ++ M ++ B ∧ Forall (λ x, cmp_le x p) A1 ∧ Forall (λ x, cmp_le p x) B1.
Proof using Type*.
  revert A0 M B i j. induction fuel as [|fuel IH]; intros A0 M B i j -> Hj Hf Dp HD HA HB; [lia|].
  cbn [partition_loop]. rewrite lookup_after by done. cbn [mbind option_bind].
  set (L := pre ++ p :: A0 ++ M ++ B ++ post).
  assert (L = (pre ++ p :: A0) ++ M ++ (B ++ post)) as EL by (unfold L; by list_norm).
  destruct (scan_right_spec (j + 1 - (length pre + 1 + length A0)) (pre ++ p :: A0) M (B ++ post) p
    (length pre + 1 + length A0) j) as (M1 & M2 & -> & E1 & HM1 & Hhd).
  { rewrite length_app. simpl. lia. } { lia. } { lia. }
  rewrite EL, E1. cbn [mbind option_bind]. rewrite length_app in Hj, Hf.
  set (i2 := length pre + 1 + length A0 + length M1).
  destruct (scan_left_spec (j + 1 - i2) (pre ++ p :: A0 ++ M1) M2 (B ++ post) p i2 j)
    as (M3 & M4 & -> & E2 & HM4 & Hlast).
  { rewrite length_app. simpl. rewrite length_app. lia. } { lia. } { lia. } { lia. }
  assert ((pre ++ p :: A0) ++ (M1 ++ M3 ++ M4) ++ B ++ post =
          (pre ++ p :: A0 ++ M1) ++ (M3 ++ M4) ++ B ++ post) as EL2 by by list_norm.
  rewrite EL2, E2. cbn [mbind option_bind]. rewrite length_app in Hj, Hf.
  rewrite !Forall_app in HD. destruct HD as (HDA & (HD1 & HD3 & HD4) & HDB).
  assert (Forall (λ x, cmp_le x p) M1) as HM1'.
  { eapply Forall_impl; [exact HM1|]. intros x Hx. unfold cmp_le. simpl in Hx. lia. }
  assert (Forall (λ x, cmp_le p x) M4) as HM4'.
  { apply Forall_forall. intros x Hx. rewrite Forall_forall in HM4. apply ge_le;
      [apply (Forall_elem _ _ HD4 Hx)|done|]. specialize (HM4 x Hx). lia. }
  destruct (Nat.leb_spec (i2 + length M3 - 1) i2) as [Hstop|Hgo].
  - (* the indices met *)
    exists (A0 ++ M1 ++ M3), (M4 ++ B). split_and!.
    + f_equal. f_equal; [by list_norm|]. rewrite !length_app. lia.
    + by list_norm.
    + apply Forall_app. split; [done|]. apply Forall_app. split; [done|].
      destruct M3 as [|x [|y M3]]; [constructor| |simpl in Hstop; lia].
      constructor; [by apply (Hlast x [])|constructor].
    + by apply Forall_app.
  - destruct M3 as [|x M3]; [simpl in Hgo; lia|].
    destruct M3 as [|y M3 _] using rev_ind; [simpl in Hgo; lia|].
    rewrite (partition_swap pre p A0 M1 x M3 y M4 B post) by done.
    cbn [mbind option_bind].
    assert (cmp_le p x) as Hpx.
    { apply Forall_cons_1 in HD3 as [Dx _]. apply ge_le; [done..|]. by apply (Hhd x ((M3 ++ [y]) ++ M4)). }
    assert (cmp_le y p) as Hyp by (by apply (Hlast y (x :: M3))).
    rewrite app_comm_cons in Hj, Hf. simpl in Hj, Hf. rewrite length_app in Hj, Hf. simpl in Hj, Hf.
    destruct (IH (A0 ++ M1 ++ [y]) M3 (x :: M4 ++ B) (i2 + 1) (i2 + length (x :: M3 ++ [y]) - 1 - 1))
      as (A1 & B1 & E & Hp & HA1 & HB1).
    + rewrite !length_app. simpl. lia.
    + simpl. rewrite length_app. simpl. lia.
    + lia.
    + done.
    + apply Forall_cons_1 in HD3 as [Dx HD3]. apply Forall_app in HD3 as [HD3 Dy].
      repeat (apply Forall_app; split); try done. constructor; [done|]. by apply Forall_app.
    + repeat (apply Forall_app; split); try done. by constructor.
    + constructor; [done|]. by apply Forall_app.
    + exists A1, B1. split_and!; [exact E| |done|done]. rewrite Hp.
      apply partition_swap_perm.
Qed.

Lemma pdq_partition_spec pre mid post :
  2 <= length mid → Forall D mid →
  ∃ L p R, pdq_partition cmp (pre ++ mid ++ post) (length pre) (length mid) =
      Some (pre ++ (L ++ p :: R) ++ post, length pre + length L) ∧
    L ++ p :: R ≡ₚ mid ∧ Forall (λ x, cmp_le x p) L ∧ Forall (λ x, cmp_le p x) R.
Proof using Type*.
  intros Hl HD. unfold pdq_partition. set (n := length mid) in *.
  assert (n / 2 < n ∧ 0 < n / 2) as [Hn Hn0].
  { pose proof (Nat.div_mod_eq n 2). pose proof (Nat.mod_upper_bound n 2). lia. }
  assert (∃ m1, (if 128 <? n then ninther cmp (pre ++ mid ++ post) (length pre) n
    else Some (pre ++ mid ++ post)) = Some (pre ++ m1 ++ post) ∧ m1 ≡ₚ mid) as (m1 & -> & P1).
  { destruct (Nat.ltb_spec 128 n); [by apply ninther_mid|by exists mid]. }
  cbn [mbind option_bind]. assert (length m1 = n) as L1 by by rewrite P1.
  destruct (sort3_mid pre m1 post 0 (n / 2) (n - 1) (length pre) (length pre + n / 2) (length pre + n - 1))
    as (m2 & -> & P2); try lia. cbn [mbind option_bind].
  assert (length m2 = n) as L2 by by rewrite P2.
  destruct (swap_mid pre m2 post 0 (n / 2)) as (m3 & _ & P3 & E3); [lia..|].
  rewrite Nat.add_0_r in E3. rewrite E3. cbn [mbind option_bind].
  assert (m3 ≡ₚ mid) as P by by rewrite P3, P2, P1.
  assert (length m3 = n) as Hlen by by rewrite P. destruct m3 as [|p M]; [simpl in Hlen; lia|].
  assert (D p ∧ Forall D M) as [Dp DM] by (rewrite <- P in HD; by apply Forall_cons_1 in HD).
  simpl in Hlen.
  destruct (partition_loop_spec n pre p [] M [] post (length pre + 1) (length pre + n - 1))
    as (A1 & B1 & E & Hp & HA & HB); try done; simpl; try lia; [by rewrite app_nil_r|].
  simpl in E. change ((p :: M) ++ post) with (p :: M ++ post). rewrite E.
  cbn [mbind option_bind fst snd]. simpl in Hp. rewrite app_nil_r in Hp.
  destruct A1 as [|y A1 _] using rev_ind.
  - simpl. rewrite Nat.add_0_r.
    rewrite (swap_spec _ _ _ p p), list_insert_id by (by rewrite ?list_insert_id; apply lookup_after).
    rewrite list_insert_id by by apply lookup_after.
    exists [], p, B1. cbn [mbind option_bind length]. rewrite Nat.add_0_r.
    split_and!; [done| |done|done]. simpl in *. by rewrite Hp.
  - list_norm. rewrite (swap_split pre A1 (B1 ++ post) p y) by (done || rewrite length_app; simpl; lia).
    exists (y :: A1), p, B1. cbn [mbind option_bind]. split_and!.
    + f_equal. f_equal; [by list_norm|]. rewrite length_app. simpl. lia.
    + rewrite <- P, <- Hp. list_norm. rewrite <- !Permutation_middle. apply Permutation_swap.
    + rewrite Permutation_cons_append. done.
    + done.
Qed.

Lemma sorted_glue (L R : list A) p :
  Forall D L → Forall D R → D p → sorted L → sorted R →
  Forall (λ x, cmp_le x p) L → Forall (λ x, cmp_le p x) R → sorted (L ++ p :: R).
Proof using Type*.
  intros HDL HDR Dp HL HR HLp HpR. apply SS_app. split_and!; [done|by constructor|].
  rewrite Forall_forall in HLp, HpR.
  intros a b Ha [->|Hb]%elem_of_cons; [by apply HLp|].
  apply (le_trans a p b); [apply (Forall_elem _ _ HDL Ha)|done|apply (Forall_elem _ _ HDR Hb)| |]; auto.
Qed.

Lemma flux_sort_rec_spec F fuel pre mid post :
  length mid <= fuel → Forall D mid →
  wp F (flux_sort_rec cmp fuel (pre ++ mid ++ post) (length pre) (length mid)) (λ l',
    ∃ mid', l' = pre ++ mid' ++ post ∧ mid' ≡ₚ mid ∧ (F → sorted mid')).
Proof using Type*.
  revert pre mid post. induction fuel as [|fuel IH]; intros pre mid post Hf HD;
    cbn [flux_sort_rec]; unfold FLUX_SMALL_SORT_THRESHOLD;
    (destruct (Nat.ltb_spec (length mid) 32) as [Hlt|Hge];
      [destruct (insertion_sort_spec pre mid post HD) as (mid' & E & Hs & Hp);
       by apply (wp_access _ _ _ _ E); exists mid'|]); [lia|].
  apply wp_bind. eapply wp_mono; [by apply analyze_and_merge_spec|].
  intros [l1 handled] (m1 & E1 & P1 & Hs1). cbn [fst snd] in *. subst l1. destruct handled.
  { apply wp_ret. exists m1. auto. }
  assert (Forall D m1) as HD1 by by rewrite P1. assert (length m1 = length mid) as L1 by by rewrite P1.
  rewrite <- L1 in *. destruct (pdq_partition_spec pre m1 post ltac:(lia) HD1) as (L & p & R & E & Pp & HL & HR).
  apply wp_bind, (wp_access _ _ _ _ E). cbn [fst snd].
  pose proof (Permutation_length Pp) as Lp. rewrite length_app in Lp. simpl in Lp.
  assert (Forall D L ∧ D p ∧ Forall D R) as (DL & Dp & DR).
  { rewrite <- Pp in HD1. apply Forall_app in HD1 as [? HD1]. by apply Forall_cons_1 in HD1 as []. }
  assert ((if length pre <? length pre + length L then length pre + length L - length pre else 0) = length L)
    as -> by (destruct (Nat.ltb_spec (length pre) (length pre + length L)); lia).
  assert ((if length pre + length L + 1 <? length pre + length m1
    then length pre + length m1 - (length pre + length L + 1) else 0) = length R)
    as -> by (destruct (Nat.ltb_spec (length pre + length L + 1) (length pre + length m1)); lia).
  assert (∀ pre0 X post0 s, s = length pre0 → Forall D X → length X < length m1 →
    wp F (if 0 <? length X then flux_sort_rec cmp fuel (pre0 ++ X ++ post0) s (length X)
          else mret (pre0 ++ X ++ post0)) (λ l', ∃ X', l' = pre0 ++ X' ++ post0 ∧ X' ≡ₚ X ∧ (F → sorted X')))
    as Hrec.
  { intros pre0 X post0 s -> DX HX. destruct (Nat.ltb_spec 0 (length X)); [apply IH; [lia|done]|].
    apply wp_ret. exists X. destruct X; [|simpl in *; lia]. split_and!; [done|done|constructor]. }
  apply wp_bind. list_norm. eapply wp_mono; [apply (Hrec pre L (p :: R ++ post)); [done|done|lia]|].
  intros l2 (L' & -> & PL & SL).
  assert (pre ++ L' ++ p :: R ++ post = (pre ++ L' ++ [p]) ++ R ++ post) as -> by by list_norm.
  eapply wp_mono; [apply (Hrec (pre ++ L' ++ [p]) R post); [|done|lia]|].
  { rewrite !length_app, PL. simpl. lia. }
  intros l3 (R' & -> & PR & SR). exists (L' ++ p :: R'). split_and!; [by list_norm| |].
  - by rewrite PL, PR, Pp.
  - intros HF. apply sorted_glue; rewrite ?PL, ?PR; auto.
Qed.
End sort_lemmas.

(** Every allocator: see [wp]. *)
Lemma po_sort_spec {A} (D : A → Prop) (cmp : A → A → Z) `{!TotalOrderOn D cmp} F mid post :
  Forall D mid →
  wp F (po_sort cmp (mid ++ post) (length mid)) (λ l',
    ∃ mid', l' = mid' ++ post ∧ mid' ≡ₚ mid ∧ (F → StronglySorted (cmp_le cmp) mid')).
Proof.
  intros HD. unfold po_sort. destruct (Nat.ltb_spec (length mid) 2) as [Hlt|Hge].
  - apply wp_ret. exists mid. split_and!; [done|done|]. intros _.
    destruct mid as [|x [|y mid]]; [constructor|apply SS_singleton|simpl in Hlt; lia].
  - by apply (flux_sort_rec_spec D cmp F (length mid) [] mid post).
Qed.

Definition po_vector_sort {P} (compare : P → P → Z) (vec : po_vector P) : run (po_vector P) :=
  if (1 <? vec_size vec)%Z then
    d ← po_sort compare (vec_data vec) (Z.to_nat (vec_size vec));
    mret (mk_vector d (vec_size vec) (vec_capacity vec))
  else mret vec.

(** ** Properties *)

(** C2. Sorting correctness: while [malloc] succeeds, [po_sort] ends, never
    touches a cell outside the array, and leaves a sorted permutation of it -
    through the insertion sort, the run detection with its reversals and
    merges, and the quicksort partition alike. *)
Theorem po_sort_sorts {A} (D : A → Prop) (cmp : A → A → Z) (l : list A) (m : list bool) :
  TotalOrderOn D cmp → Forall D l → no_fail m →
  ∃ l' m', po_sort cmp l (length l) m = Some (l', m') ∧
    l' ≡ₚ l ∧ StronglySorted (λ a b, (cmp a b <= 0)%Z) l'.
Proof.
  intros HO HD Hm. destruct (po_sort_spec D cmp True l [] HD m) as (l' & m' & E & _ & mid' & -> & Hp & Hs).
  { done. }
  rewrite !app_nil_r in *. exists mid', m'. split_and!; [done|done|]. by apply Hs.
Qed.

#[export] Instance Z_sub_order : TotalOrderOn (λ _ : Z, True) (λ a b, (a - b)%Z).
Proof. constructor; intros; lia. Qed.

(** A pseudo-random sample, long enough for the partition. *)
Definition sample (n : nat) : list Z := map (λ k, ((Z.of_nat k * 7919 + 13) mod 211)%Z) (seq 0 n).

Lemma po_sort_sorts_witness :
  ∃ l' m', po_sort (λ a b, (a - b)%Z) (sample 140) 140 [] = Some (l', m') ∧
    l' ≡ₚ sample 140 ∧ StronglySorted (λ a b, (a - b <= 0)%Z) l'.
Proof.
  apply (po_sort_sorts (λ _, True) (λ a b, (a - b)%Z) (sample 140) [] Z_sub_order).
  - apply Forall_true. intros; exact I.
  - constructor.
Defined.

(** Memory safety and integrity for every outcome of [malloc]: [po_sort]
    ends, stays within the array and always leaves a permutation of it. *)
Theorem po_sort_safe {A} (D : A → Prop) (cmp : A → A → Z) (l : list A) (m : list bool) :
  TotalOrderOn D cmp → Forall D l →
  ∃ l' m', po_sort cmp l (length l) m = Some (l', m') ∧ l' ≡ₚ l.
Proof.
  intros HO HD. destruct (po_sort_spec D cmp False l [] HD m) as (l' & m' & E & _ & mid' & -> & Hp & _).
  { done. }
  rewrite !app_nil_r in *. eauto.
Qed.

(** Two ascending runs of 64 and 66 elements, the second starting lower. *)
Definition two_runs : list Z := map Z.of_nat (seq 66 64 ++ seq 0 66).

Lemma po_sort_safe_witness :
  ∃ l' m', po_sort (λ a b, (a - b)%Z) two_runs 130 [false] = Some (l', m') ∧ l' ≡ₚ two_runs.
Proof.
  apply (po_sort_safe (λ _, True) (λ a b, (a - b)%Z) two_runs [false] Z_sub_order).
  apply Forall_true. intros; exact I.
Defined.

(** A failed allocation in [merge] is silently taken for a finished sort:
    two sorted runs come back exactly as they were, unsorted, while the same
    call sorts them when the allocation succeeds. *)
Theorem po_sort_unsorted_on_malloc_failure :
  po_sort (λ a b, (a - b)%Z) two_runs 130 [false] = Some (two_runs, []) ∧
  po_sort (λ a b, (a - b)%Z) two_runs 130 [] = Some (map Z.of_nat (seq 0 130), []) ∧
  two_runs ≠ map Z.of_nat (seq 0 130).
Proof. split_and!; [vm_compute; reflexivity..|vm_compute; discriminate]. Qed.

(** Keys 99, 98, 98, 97, 97, ... with their positions. *)
Definition falling_pairs : list (Z * Z) :=
  map (λ k, ((99 - (Z.of_nat k + 1) / 2)%Z, Z.of_nat k)) (seq 0 130).

(** The sort is not stable, although its header promises it: a descending
    run is reversed as a whole, and with it the order of equal elements. *)
Theorem po_sort_not_stable :
  ∃ l', po_sort (λ a b : Z * Z, (a.1 - b.1)%Z) falling_pairs 130 [] = Some (l', []) ∧
    falling_pairs !! 1 = Some (98, 1)%Z ∧ falling_pairs !! 2 = Some (98, 2)%Z ∧
    l' !! 127 = Some (98, 2)%Z ∧ l' !! 128 = Some (98, 1)%Z.
Proof. eexists. split; [vm_compute; reflexivity|]. vm_compute. done. Qed.

(** [po_vector_sort] sorts the contents of a vector in place and keeps its
    representation invariant. *)
Theorem vector_sort_sorts {P} (D : P → Prop) (compare : P → P → Z) (vec : po_vector P)
    (m : list bool) :
  TotalOrderOn D compare → vec_wf vec → Forall D (vec_contents vec) → no_fail m →
  ∃ vec' m', po_vector_sort compare vec m = Some (vec', m') ∧ vec_wf vec' ∧
    vec_contents vec' ≡ₚ vec_contents vec ∧
    StronglySorted (λ a b, (compare a b <= 0)%Z) (vec_contents vec').
Proof.
  intros HO Hwf HD Hm. pose proof Hwf as [Hs Hb Hbd]. pose proof (length_contents vec Hwf) as Hlen.
  unfold po_vector_sort. destruct (Z.ltb_spec 1 (vec_size vec)) as [Hlt|Hge].
  - rewrite <- (take_drop (Z.to_nat (vec_size vec)) (vec_data vec)).
    fold (vec_contents vec). rewrite <- Hlen.
    destruct (po_sort_spec D compare True (vec_contents vec)
      (drop (length (vec_contents vec)) (vec_data vec)) HD m) as (d & m' & E & _ & mid' & -> & Hp & Hsort).
    { done. }
    unfold mbind, run_bind, mret, run_ret. rewrite E. eexists _, _. split; [done|].
    pose proof (Permutation_length Hp) as Hl.
    assert (vec_contents (mk_vector (mid' ++ drop (length (vec_contents vec)) (vec_data vec))
      (vec_size vec) (vec_capacity vec)) = mid') as Hc.
    { unfold vec_contents at 1. simpl. rewrite take_app_le by lia. apply take_ge. lia. }
    rewrite Hc. split_and!; [|done|by apply Hsort].
    constructor; simpl; [done| |done]. rewrite length_app, length_drop. lia.
  - exists vec, m. split_and!; [done|done|done|].
    destruct (vec_contents vec) as [|x [|y c]]; [constructor|apply SS_singleton|simpl in Hlen; lia].
Qed.

Lemma vector_sort_sorts_witness :
  ∃ vec' m', po_vector_sort (λ a b, (b - a)%Z) sample_vec [] = Some (vec', m') ∧
    vec_contents vec' = [9; 8; 7]%Z ∧ vec_contents vec' ≡ₚ vec_contents sample_vec.
Proof.
  assert (TotalOrderOn (λ _ : Z, True) (λ a b, (b - a)%Z)) as HO by (constructor; intros; lia).
  destruct (vector_sort_sorts (λ _, True) (λ a b, (b - a)%Z) sample_vec [] HO sample_vec_wf)
    as (vec' & m' & E & _ & Hp & _).
  - apply Forall_true. intros; exact I.
  - constructor.
  - exists vec', m'. split; [exact E|]. split; [|exact Hp].
    vm_compute in E. injection E as <- <-. reflexivity.
Defined.
