(* ===== verification/Hashtable.v ===== *)
(** * Chained hash table ([app/libs/ring1/postoffice/hashtable/hashtable.c])

    Buckets are the chains in the order the [next] pointers give them.  The
    load factor is the binary32 quotient the code computes ([SpecFloat]); the
    abstract value of a table is the partial function [ht_find] from keys, up
    to the client's [compare], to values. *)

From Stdlib Require Import ZArith Lia SpecFloat.
From stdpp Require Import base list numbers sets.
From S2P Require Import Prelude Prime.

Local Open Scope Z_scope.

Definition INITIAL_CAPACITY : Z := 17.

(** ** binary32 arithmetic of the load factor *)

Definition f32_of_Z (z : Z) : spec_float := binary_normalize 24 128 z 0 false.
Definition f32_div (a b : spec_float) : spec_float := SFdiv 24 128 a b.
Definition f32_lt (a b : spec_float) : bool := SFltb a b.

(** [0.7f], [1.0f] and [0.2f], rounded to nearest. *)
Definition LOAD_FACTOR_UP_THRESHOLD : spec_float := S754_finite false 11744051 (-24).
Definition LOAD_FACTOR_UP_TOLERANCE : spec_float := S754_finite false 8388608 (-23).
Definition LOAD_FACTOR_DOWN_THRESHOLD : spec_float := S754_finite false 13421773 (-26).

(** ** Data *)

Record hashtable_node (K V : Type) : Type := mk_node { node_key : K; node_value : V }.
Arguments mk_node {K V}.
Arguments node_key {K V}.
Arguments node_value {K V}.

Record po_hashtable (K V : Type) : Type := mk_hashtable {
  ht_buckets : list (list (hashtable_node K V));
  ht_capacity : Z;
  ht_size : Z
}.
Arguments mk_hashtable {K V}.
Arguments ht_buckets {K V}.
Arguments ht_capacity {K V}.
Arguments ht_size {K V}.

(** [it_current] is the chain from the current node on, [[]] for [NULL]. *)
Record po_hashtable_iter (K V : Type) : Type := mk_hashtable_iter {
  it_table : po_hashtable K V;
  it_index : Z;
  it_current : list (hashtable_node K V)
}.
Arguments mk_hashtable_iter {K V}.
Arguments it_table {K V}.
Arguments it_index {K V}.
Arguments it_current {K V}.

Section hashtable.
Context {K V : Type} (compare : K → K → Z) (hash_func : K → Z).
Abbreviation node := (hashtable_node K V).
Abbreviation table := (po_hashtable K V).

Definition bucket_index (cap : Z) (key : K) : nat := Z.to_nat (hash_func key mod cap).

(** [buckets[index]]; the tables in use have that bucket. *)
Definition bucket (t : table) (key : K) : list node :=
  default [] (ht_buckets t !! bucket_index (ht_capacity t) key).

Definition set_bucket (bs : list (list node)) (i : nat) (chain : list node) := <[i := chain]> bs.

Definition po_hashtable_load_factor (t : table) : spec_float :=
  f32_div (f32_of_Z (ht_size t)) (f32_of_Z (ht_capacity t)).

Definition hashtable_node_create (key : K) (value : V) : alloc (option node) :=
  ok ← malloc; mret (if (ok : bool) then Some (mk_node key value) else None).

(** Body of the rehash loop: push the node on the chain of its new bucket. *)
Definition rehash_node (new_capacity : Z) (new_buckets : list (list node)) (n : node) :
    list (list node) :=
  let i := bucket_index new_capacity (node_key n) in
  <[i := n :: default [] (new_buckets !! i)]> new_buckets.

Definition rehash_chain (new_capacity : Z) (new_buckets : list (list node)) (chain : list node) :
    list (list node) := foldl (rehash_node new_capacity) new_buckets chain.

Definition po_hashtable_resize (t : table) (new_capacity : Z) : alloc (Z * table) :=
  let new_capacity := next_prime new_capacity in
  ok ← malloc_bytes (new_capacity * SIZEOF_PTR);
  if negb ok then mret (-1, t)
  else
    let new_buckets :=
      foldl (rehash_chain new_capacity) (replicate (Z.to_nat new_capacity) []) (ht_buckets t) in
    mret (0, mk_hashtable new_buckets new_capacity (ht_size t)).

Definition po_hashtable_create_sized (base_capacity : Z) : alloc (option table) :=
  ok ← malloc;
  if negb ok then mret None
  else
    ok ← malloc_bytes (base_capacity * SIZEOF_PTR);
    if negb ok then mret None
    else mret (Some (mk_hashtable (replicate (Z.to_nat base_capacity) []) base_capacity 0)).

Definition po_hashtable_create : alloc (option table) := po_hashtable_create_sized INITIAL_CAPACITY.

(** [while (node) if (compare(node->key, key) == 0) ...] *)
Fixpoint chain_find (chain : list node) (key : K) : option V :=
  match chain with
  | [] => None
  | n :: rest => if compare (node_key n) key =? 0 then Some (node_value n) else chain_find rest key
  end.

Fixpoint chain_replace (chain : list node) (key : K) (value : V) : list node :=
  match chain with
  | [] => []
  | n :: rest =>
      if compare (node_key n) key =? 0 then mk_node (node_key n) value :: rest
      else n :: chain_replace rest key value
  end.

Fixpoint chain_unlink (chain : list node) (key : K) : list node :=
  match chain with
  | [] => []
  | n :: rest => if compare (node_key n) key =? 0 then rest else n :: chain_unlink rest key
  end.

Definition with_bucket (t : table) (key : K) (chain : list node) (size : Z) : table :=
  mk_hashtable (set_bucket (ht_buckets t) (bucket_index (ht_capacity t) key) chain)
    (ht_capacity t) size.

(** [po_hashtable_put] after its load-factor test. *)
Definition put_node (t : table) (key : K) (value : V) : alloc (Z * table) :=
  match chain_find (bucket t key) key with
  | Some _ => mret (0, with_bucket t key (chain_replace (bucket t key) key value) (ht_size t))
  | None =>
      n ← hashtable_node_create key value;
      match n with
      | None => mret (-1, t)
      | Some n => mret (1, with_bucket t key (n :: bucket t key) (u64 (ht_size t + 1)))
      end
  end.

Definition po_hashtable_put (t : table) (key : K) (value : V) : alloc (Z * table) :=
  let load_factor := po_hashtable_load_factor t in
  r ← (if f32_lt LOAD_FACTOR_UP_THRESHOLD load_factor
       then po_hashtable_resize t (u64 (ht_capacity t * 2)) else mret (0, t));
  if (r.1 =? -1) && f32_lt LOAD_FACTOR_UP_TOLERANCE load_factor then mret (-1, r.2)
  else put_node r.2 key value.

Definition remove_node (t : table) (key : K) : Z * table :=
  match chain_find (bucket t key) key with
  | Some _ => (1, with_bucket t key (chain_unlink (bucket t key) key) (u64 (ht_size t - 1)))
  | None => (0, t)
  end.

Definition po_hashtable_remove (t : table) (key : K) : alloc (Z * table) :=
  r ← (if f32_lt (po_hashtable_load_factor t) LOAD_FACTOR_DOWN_THRESHOLD &&
          (INITIAL_CAPACITY <=? ht_capacity t / 2)
       then po_hashtable_resize t (ht_capacity t / 2) else mret (0, t));
  if r.1 =? -1 then mret (-1, r.2) else mret (remove_node r.2 key).

Definition po_hashtable_get (NULL : V) (t : table) (key : K) : V :=
  match chain_find (bucket t key) key with Some v => v | None => NULL end.

Definition po_hashtable_contains_key (t : table) (key : K) : bool :=
  match chain_find (bucket t key) key with Some _ => true | None => false end.

Definition po_hashtable_replace (t : table) (key : K) (new_value : V) : Z * table :=
  match chain_find (bucket t key) key with
  | Some _ => (1, with_bucket t key (chain_replace (bucket t key) key new_value) (ht_size t))
  | None => (0, t)
  end.

Definition po_hashtable_clear (t : table) : Z * table :=
  if ht_size t =? 0 then (0, t)
  else (1, mk_hashtable (replicate (length (ht_buckets t)) []) (ht_capacity t) 0).

(** [for (i = 0; i < capacity && index < size; i++)] appending each chain. *)
Fixpoint collect_keys (size : Z) (bs : list (list node)) (acc : list K) : list K :=
  match bs with
  | [] => acc
  | chain :: bs =>
      if Z.of_nat (length acc) <? size
      then collect_keys size bs (acc ++ map node_key chain) else acc
  end.

Definition po_hashtable_keyset (t : table) : alloc (option (list K)) :=
  if ht_size t =? 0 then mret None
  else ok ← malloc_bytes (ht_size t * SIZEOF_PTR);
       mret (if (ok : bool) then Some (collect_keys (ht_size t) (ht_buckets t) []) else None).

Definition po_hashtable_values (t : table) : alloc (option (list V)) :=
  ok ← malloc_bytes (ht_size t * SIZEOF_PTR);
  mret (if (ok : bool) then Some (map node_value (concat (ht_buckets t))) else None).

(** The calls [func(key, value)] in the order they are made. *)
Definition po_hashtable_map (t : table) : list (K * V) :=
  map (λ n, (node_key n, node_value n)) (concat (ht_buckets t)).

Definition po_hashtable_iterator (t : table) : alloc (option (po_hashtable_iter K V)) :=
  ok ← malloc; mret (if (ok : bool) then Some (mk_hashtable_iter t 0 []) else None).

(** Search for the next non-empty bucket from index [i]. *)
Fixpoint next_bucket (bs : list (list node)) (i : Z) : option (Z * list node) :=
  match bs with
  | [] => None
  | [] :: bs => next_bucket bs (i + 1)
  | chain :: _ => Some (i + 1, chain)
  end.

Definition po_hashtable_iter_next (it : po_hashtable_iter K V) : bool * po_hashtable_iter K V :=
  match it_current it with
  | _ :: (_ :: _) as rest => (true, mk_hashtable_iter (it_table it) (it_index it) (tail (it_current it)))
  | _ =>
      match next_bucket (drop (Z.to_nat (it_index it)) (ht_buckets (it_table it))) (it_index it) with
      | Some (i, chain) => (true, mk_hashtable_iter (it_table it) i chain)
      | None => (false, it)
      end
  end.

Definition po_hashtable_iter_key (it : po_hashtable_iter K V) : option K :=
  node_key <$> head (it_current it).
Definition po_hashtable_iter_value (it : po_hashtable_iter K V) : option V :=
  node_value <$> head (it_current it).

Fixpoint equal_chains (compare_values : V → V → Z) (c1 c2 : list node) : bool :=
  match c1, c2 with
  | n1 :: c1, n2 :: c2 =>
      if negb (compare (node_key n1) (node_key n2) =? 0) then false
      else if negb (compare_values (node_value n1) (node_value n2) =? 0) then false
      else equal_chains compare_values c1 c2
  | _, _ => true
  end.

(** The bucket loop over [table1]'s capacity; [None] is the read past the end
    of [table2]'s bucket array. *)
Fixpoint equal_buckets (compare_values : V → V → Z) (b1 b2 : list (list node)) : option bool :=
  match b1, b2 with
  | [], _ => Some true
  | _ :: _, [] => None
  | c1 :: b1, c2 :: b2 =>
      if equal_chains compare_values c1 c2 then equal_buckets compare_values b1 b2 else Some false
  end.

Definition po_hashtable_equals (t1 t2 : table) (compare_values : V → V → Z) : option bool :=
  if negb (ht_size t1 =? ht_size t2) then Some false
  else equal_buckets compare_values (ht_buckets t1) (ht_buckets t2).

(** Copies the nodes bucket by bucket, ignoring the result of each put. *)
Fixpoint merge_nodes (dest : table) (ns : list node) : alloc table :=
  match ns with
  | [] => mret dest
  | n :: ns => r ← po_hashtable_put dest (node_key n) (node_value n); merge_nodes r.2 ns
  end.

Definition po_hashtable_merge (dest source : table) : alloc table :=
  merge_nodes dest (concat (ht_buckets source)).

Definition po_hashtable_copy (t : table) : alloc (option table) :=
  n ← po_hashtable_create;
  match n with
  | None => mret None
  | Some n => r ← po_hashtable_merge n t; mret (Some r)
  end.

(** Client loop [while (po_hashtable_iter_next(it)) visit(key, value)]. *)
Fixpoint iterate (fuel : nat) (it : po_hashtable_iter K V) : list node :=
  match fuel with
  | O => []
  | S fuel =>
      let '(more, it) := po_hashtable_iter_next it in
      if more : bool then
        match it_current it with n :: _ => n :: iterate fuel it | [] => [] end
      else []
  end.

(** ** Specification *)

Definition ht_find (t : table) (key : K) : option V := chain_find (bucket t key) key.

(** The nodes in the order the bucket loops visit them, and their keys. *)
Definition nodes (t : table) : list node := concat (ht_buckets t).
Definition keys (t : table) : list K := map node_key (nodes t).

(** Every node sits in the bucket its key hashes to, its key belongs to the
    client's key set [D], keys are pairwise different, [size] counts nodes. *)
Record ht_wf (D : K → Prop) (t : table) : Prop := mk_ht_wf {
  wf_cap : 0 < ht_capacity t < 2 ^ 64;
  wf_len : length (ht_buckets t) = Z.to_nat (ht_capacity t);
  wf_home : ∀ i chain n, ht_buckets t !! i = Some chain → n ∈ chain →
    bucket_index (ht_capacity t) (node_key n) = i;
  wf_dom : Forall D (keys t);
  wf_distinct : ForallOrdPairs (λ a b, compare a b ≠ 0) (keys t);
  wf_count : ht_size t = Z.of_nat (length (nodes t))
}.
End hashtable.

(** Contract between [compare] and [hash_func] on the keys in use: comparing
    equal is an equivalence, and keys that compare equal hash alike. *)
Class KeyContract {K} (D : K → Prop) (compare : K → K → Z) (hash_func : K → Z) : Prop := {
  key_refl : ∀ a, D a → compare a a = 0;
  key_sym : ∀ a b, D a → D b → compare a b = 0 → compare b a = 0;
  key_trans : ∀ a b c, D a → D b → D c → compare a b = 0 → compare b c = 0 → compare a c = 0;
  key_hash : ∀ a b, D a → D b → compare a b = 0 → hash_func a = hash_func b
}.

(** What the table promises its clients, in terms of [ht_find] only. *)
Class HashtableLaws {K V} (D : K → Prop) (compare : K → K → Z) (hash_func : K → Z) : Prop := {
  law_find_eq : ∀ (t : po_hashtable K V) k1 k2, ht_wf compare hash_func D t → D k1 → D k2 →
    compare k1 k2 = 0 → ht_find compare hash_func t k1 = ht_find compare hash_func t k2;
  law_put : ∀ (t : po_hashtable K V) k v, ht_wf compare hash_func D t → D k →
    ht_size t < 2 ^ 64 - 1 →
    always (po_hashtable_put compare hash_func t k v) (λ r,
      ht_wf compare hash_func D r.2 ∧
      (0 <= r.1 ∧ (∀ k', D k' → ht_find compare hash_func r.2 k' =
          if compare k k' =? 0 then Some v else ht_find compare hash_func t k') ∧
        ht_size r.2 = ht_size t + r.1 ∧
        r.1 = (if ht_find compare hash_func t k is Some _ then 0 else 1) ∨
       r.1 = -1 ∧ (∀ k', D k' → ht_find compare hash_func r.2 k' = ht_find compare hash_func t k') ∧
        ht_size r.2 = ht_size t));
  law_remove : ∀ (t : po_hashtable K V) k, ht_wf compare hash_func D t → D k →
    ht_size t < 2 ^ 64 - 1 →
    always (po_hashtable_remove compare hash_func t k) (λ r,
      ht_wf compare hash_func D r.2 ∧
      (r.1 = (if ht_find compare hash_func t k is Some _ then 1 else 0) ∧
        (∀ k', D k' → ht_find compare hash_func r.2 k' =
          if compare k k' =? 0 then None else ht_find compare hash_func t k') ∧
        ht_size r.2 = ht_size t - r.1 ∨
       r.1 = -1 ∧ (∀ k', D k' → ht_find compare hash_func r.2 k' = ht_find compare hash_func t k') ∧
        ht_size r.2 = ht_size t))
}.

(** ** Lemmas *)

Lemma ForallOrdPairs_Permutation {A} (R : A → A → Prop) (D : A → Prop) l1 l2 :
  (∀ a b, D a → D b → R a b → R b a) → Forall D l1 →
  l1 ≡ₚ l2 → ForallOrdPairs R l1 → ForallOrdPairs R l2.
Proof.
  intros Hsym HD Hp. induction Hp as [|x l1 l2 Hp IH|x y l|l1 l2 l3 Hp1 IH1 Hp2 IH2]; intros H.
  - done.
  - apply Forall_cons_1 in HD as [? HD]. inversion H; subst. constructor; [|by apply IH].
    by rewrite <- Hp.
  - inversion H as [|? ? Hy H']; subst. inversion H' as [|? ? Hx H'']; subst.
    apply Forall_cons_1 in Hy as [Hyx Hy]. rewrite !list.Forall_cons in HD. destruct HD as (? & ? & ?).
    constructor; [constructor; auto|by constructor].
  - apply IH2, IH1; [|done..]. by rewrite <- Hp1.
Qed.

Lemma concat_insert_Permutation {A} (bs : list (list A)) i c c' :
  bs !! i = Some c → concat (<[i := c']> bs) ++ c ≡ₚ concat bs ++ c'.
Proof.
  revert i. induction bs as [|b bs IH]; intros [|i] Hi; simpl in *; simplify_eq.
  - rewrite <- !app_assoc, (Permutation_app_comm c'), <- app_assoc.
    rewrite (Permutation_app_comm (concat bs) (c ++ c')), <- app_assoc.
    apply Permutation_app_head, Permutation_app_comm.
  - rewrite <- !app_assoc. by rewrite IH.
Qed.

Section hashtable_lemmas.
Context {K V : Type} (D : K → Prop) (compare : K → K → Z) (hash_func : K → Z).
Context `{!KeyContract D compare hash_func}.
Abbreviation node := (hashtable_node K V).
Abbreviation table := (po_hashtable K V).
Abbreviation wf := (ht_wf compare hash_func D).
Abbreviation find := (ht_find compare hash_func).
Implicit Types (t : table) (n : node) (chain : list node) (bs : list (list node)).

Lemma key_neq_sym a b : D a → D b → compare a b ≠ 0 → compare b a ≠ 0.
Proof using Type*. intros Ha Hb H E. by apply H, key_sym. Qed.

Lemma chain_find_None chain k :
  chain_find compare chain k = None ↔ ∀ n, n ∈ chain → compare (node_key n) k ≠ 0.
Proof.
  induction chain as [|m chain IH]; simpl; [split; [set_solver|done]|].
  case (Z.eqb_spec (compare (node_key m) k) 0); intros E.
  - split; [done|]. intros H. by destruct (H m); [left|].
  - rewrite IH. split; [|by intros H n Hn; apply H; right].
    intros H n Hn. apply elem_of_cons in Hn as [->|Hn]; auto.
Qed.

Lemma chain_find_Some chain k v :
  chain_find compare chain k = Some v →
  ∃ c1 n c2, chain = c1 ++ n :: c2 ∧ compare (node_key n) k = 0 ∧ node_value n = v ∧
    chain_unlink compare chain k = c1 ++ c2 ∧
    ∀ v', chain_replace compare chain k v' = c1 ++ mk_node (node_key n) v' :: c2.
Proof.
  induction chain as [|m chain IH]; simpl; [done|].
  case (Z.eqb_spec (compare (node_key m) k) 0); intros E H.
  - simplify_eq. exists [], m, chain. done.
  - destruct (IH H) as (c1 & n & c2 & -> & ? & ? & Hu & Hr).
    exists (m :: c1), n, c2. rewrite Hu. split_and!; [done..|]. intros v'. by rewrite Hr.
Qed.

(** A node of a chain with distinct keys is the one the search finds. *)
Lemma chain_find_elem chain n k :
  ForallOrdPairs (λ a b, compare a b ≠ 0) (map node_key chain) →
  Forall D (map node_key chain) → D k →
  n ∈ chain → compare (node_key n) k = 0 →
  chain_find compare chain k = Some (node_value n).
Proof using Type*.
  induction chain as [|m chain IH]; simpl; intros Hd HD Hk Hn E; [by apply not_elem_of_nil in Hn|].
  inversion Hd as [|? ? Hm Hd']; subst. apply Forall_cons_1 in HD as [Dm HD].
  apply elem_of_cons in Hn as [->|Hn].
  - by rewrite E.
  - case (Z.eqb_spec (compare (node_key m) k) 0); intros Em; [|by apply IH].
    exfalso. assert (node_key n ∈ map node_key chain) as Hin
      by (apply list_elem_of_fmap; eauto).
    rewrite Forall_forall in Hm, HD. apply (Hm _ Hin).
    apply (key_trans _ k); auto. apply key_sym; auto.
Qed.

Lemma bucket_lookup t k :
  wf t → ht_buckets t !! bucket_index hash_func (ht_capacity t) k = Some (bucket hash_func t k).
Proof.
  intros Hwf. unfold bucket. destruct (ht_buckets t !! _) eqn:E; [done|].
  apply lookup_ge_None in E. rewrite (wf_len _ _ _ _ Hwf) in E.
  pose proof (wf_cap _ _ _ _ Hwf). unfold bucket_index in E.
  pose proof (Z.mod_pos_bound (hash_func k) (ht_capacity t)). lia.
Qed.

Lemma bucket_submseteq t k n : wf t → n ∈ bucket hash_func t k → n ∈ nodes t.
Proof.
  intros Hwf Hn. unfold nodes. apply list_elem_of_In, in_concat.
  exists (bucket hash_func t k). rewrite <- !list_elem_of_In. split; [|done].
  eapply list_elem_of_lookup_2, bucket_lookup, Hwf.
Qed.

Lemma nodes_bucket t n k :
  wf t → n ∈ nodes t → D k → compare (node_key n) k = 0 → n ∈ bucket hash_func t k.
Proof using Type*.
  intros Hwf Hn Hk E. assert (D (node_key n)) as Dn.
  { pose proof (wf_dom _ _ _ _ Hwf) as H. rewrite Forall_forall in H. apply H.
    apply list_elem_of_fmap. eauto. }
  unfold nodes in Hn. apply list_elem_of_In, in_concat in Hn as (c & Hc & Hn).
  apply list_elem_of_In in Hc, Hn. apply list_elem_of_lookup in Hc as [i Hc].
  pose proof (wf_home _ _ _ _ Hwf i c n Hc Hn) as Hi.
  pose proof (bucket_lookup t k Hwf) as Hb.
  assert (bucket_index hash_func (ht_capacity t) k = i) as Heq.
  { rewrite <- Hi. unfold bucket_index. by rewrite (key_hash (node_key n) k). }
  rewrite Heq, Hc in Hb. by simplify_eq.
Qed.

Lemma sub_FOP {A} (R : A → A → Prop) l1 l2 l3 :
  ForallOrdPairs R (l1 ++ l2 ++ l3) → ForallOrdPairs R l2.
Proof.
  induction l1 as [|x l1 IH]; simpl; intros H.
  - induction l2 as [|y l2 IH2]; [constructor|]. inversion H as [|? ? Hy H']; subst.
    apply Forall_app in Hy as [? ?]. constructor; auto.
  - inversion H; auto.
Qed.

Lemma bucket_distinct t k :
  wf t → ForallOrdPairs (λ a b, compare a b ≠ 0) (map node_key (bucket hash_func t k)) ∧
         Forall D (map node_key (bucket hash_func t k)).
Proof.
  intros Hwf. pose proof (bucket_lookup t k Hwf) as Hb.
  apply list_elem_of_split_length in Hb as (l1 & l2 & Hl & _).
  pose proof (wf_distinct _ _ _ _ Hwf) as H. pose proof (wf_dom _ _ _ _ Hwf) as H'.
  unfold keys, nodes in *. rewrite Hl, concat_app in *. simpl in *. rewrite !map_app in *.
  split; [by eapply sub_FOP|]. rewrite !Forall_app in H'. by destruct H' as (_ & ? & _).
Qed.

(** [ht_find] read off the nodes of the table. *)
Lemma find_Some t k v :
  wf t → D k → find t k = Some v ↔
  ∃ n, n ∈ nodes t ∧ compare (node_key n) k = 0 ∧ node_value n = v.
Proof using Type*.
  intros Hwf Hk. unfold ht_find. split.
  - intros H. apply chain_find_Some in H as (c1 & n & c2 & Hc & E & Hv & _).
    exists n. split_and!; [|done..]. apply (bucket_submseteq t k); [done|].
    rewrite Hc. set_solver.
  - intros (n & Hn & E & <-). destruct (bucket_distinct t k Hwf).
    apply chain_find_elem; [done..| |done]. by apply nodes_bucket.
Qed.

Lemma find_None t k :
  wf t → D k → find t k = None ↔ ∀ n, n ∈ nodes t → compare (node_key n) k ≠ 0.
Proof using Type*.
  intros Hwf Hk. split.
  - intros H n Hn E. assert (find t k = Some (node_value n)) as H'
      by (apply find_Some; eauto). congruence.
  - intros H. destruct (find t k) eqn:E; [|done].
    apply find_Some in E as (n & Hn & E & _); [|done..]. by apply H in Hn.
Qed.

(** Two tables with the same nodes denote the same map. *)
Lemma find_Permutation t1 t2 k :
  wf t1 → wf t2 → nodes t1 ≡ₚ nodes t2 → D k → find t1 k = find t2 k.
Proof using Type*.
  intros H1 H2 Hp Hk. destruct (find t2 k) as [v|] eqn:E.
  - apply find_Some in E as (n & Hn & ? & ?); [|done..].
    apply find_Some; [done..|]. exists n. by rewrite Hp.
  - apply find_None; [done..|]. intros n Hn.
    apply find_None with (n := n) in E; [done|done|done|by rewrite <- Hp].
Qed.

Lemma find_eq t k1 k2 :
  wf t → D k1 → D k2 → compare k1 k2 = 0 → find t k1 = find t k2.
Proof using Type*.
  intros Hwf H1 H2 E. destruct (find t k1) as [v|] eqn:E1; symmetry.
  - apply find_Some in E1 as (n & Hn & En & <-); [|done..].
    apply find_Some; [done..|]. exists n. split_and!; [done| |done].
    pose proof (wf_dom _ _ _ _ Hwf) as HD. rewrite Forall_forall in HD.
    apply (key_trans _ k1); [|done..]. apply HD, list_elem_of_fmap. eauto.
  - apply find_None; [done..|]. intros n Hn En.
    apply find_None with (n := n) in E1; [|done..]. apply E1.
    pose proof (wf_dom _ _ _ _ Hwf) as HD. rewrite Forall_forall in HD.
    assert (D (node_key n)) by (apply HD, list_elem_of_fmap; eauto).
    apply (key_trans _ k2); [done..|]. by apply key_sym.
Qed.

(** Invariant of the rehash loops. *)
Definition homed (cap : Z) (bs : list (list node)) : Prop :=
  length bs = Z.to_nat cap ∧
  ∀ i chain n, bs !! i = Some chain → n ∈ chain → bucket_index hash_func cap (node_key n) = i.

Lemma bucket_index_lt cap k : 0 < cap → (bucket_index hash_func cap k < Z.to_nat cap)%nat.
Proof. intros H. unfold bucket_index. pose proof (Z.mod_pos_bound (hash_func k) cap H). lia. Qed.

Lemma homed_insert cap bs k chain :
  homed cap bs →
  (∀ n, n ∈ chain → bucket_index hash_func cap (node_key n) = bucket_index hash_func cap k) →
  homed cap (<[bucket_index hash_func cap k := chain]> bs).
Proof.
  intros [Hl Hh] Hc. split; [by rewrite length_insert|].
  intros i chain' n Hi Hn. apply list_lookup_insert_Some in Hi as [(<- & <- & _)|[_ Hi]]; eauto.
Qed.

Lemma rehash_node_spec cap bs n :
  0 < cap → homed cap bs →
  homed cap (rehash_node hash_func cap bs n) ∧
  concat (rehash_node hash_func cap bs n) ≡ₚ n :: concat bs.
Proof.
  intros Hcap Hh. pose proof (bucket_index_lt cap (node_key n) Hcap) as Hlt.
  unfold rehash_node. destruct Hh as [Hl Hh]. rewrite <- Hl in Hlt.
  apply lookup_lt_is_Some in Hlt as [c Hc]. rewrite Hc. simpl. split.
  - apply homed_insert; [by split|]. intros m Hm.
    apply elem_of_cons in Hm as [->|Hm]; [done|]. eauto.
  - apply (Permutation_app_inv_r c). rewrite concat_insert_Permutation by done.
    rewrite <- Permutation_middle. simpl. done.
Qed.

Lemma rehash_chain_spec cap chain bs :
  0 < cap → homed cap bs →
  homed cap (rehash_chain hash_func cap bs chain) ∧
  concat (rehash_chain hash_func cap bs chain) ≡ₚ chain ++ concat bs.
Proof.
  intros Hcap. revert bs. induction chain as [|n chain IH]; intros bs Hh; [done|]. simpl.
  destruct (rehash_node_spec cap bs n Hcap Hh) as [Hh' Hp'].
  destruct (IH _ Hh') as [Hh'' Hp'']. split; [done|].
  etrans; [exact Hp''|]. rewrite Hp'. by rewrite <- Permutation_middle.
Qed.

Lemma rehash_spec cap old bs :
  0 < cap → homed cap bs →
  homed cap (foldl (rehash_chain hash_func cap) bs old) ∧
  concat (foldl (rehash_chain hash_func cap) bs old) ≡ₚ concat old ++ concat bs.
Proof.
  intros Hcap. revert bs. induction old as [|c old IH]; intros bs Hh; [done|]. simpl.
  destruct (rehash_chain_spec cap c bs Hcap Hh) as [Hh' Hp'].
  destruct (IH _ Hh') as [Hh'' Hp'']. split; [done|].
  etrans; [exact Hp''|]. rewrite Hp', !(assoc_L (++)).
  apply Permutation_app_tail, Permutation_app_comm.
Qed.

Lemma homed_empty cap : 0 < cap → homed cap (replicate (Z.to_nat cap) []).
Proof.
  intros Hcap. split; [apply length_replicate|]. intros i chain n Hi Hn.
  apply lookup_replicate in Hi as [-> _]. by apply not_elem_of_nil in Hn.
Qed.

Lemma concat_replicate_nil {A : Type} (k : nat) : concat (replicate k ([] : list A)) = [].
Proof. by induction k. Qed.

(** A table whose nodes are a permutation of a well-formed one's. *)
Lemma wf_of_homed t cap bs :
  wf t → 0 < cap < 2 ^ 64 → homed cap bs → concat bs ≡ₚ nodes t →
  wf (mk_hashtable bs cap (ht_size t)).
Proof using Type*.
  intros Hwf Hcap [Hl Hh] Hp. pose proof (Permutation_map node_key Hp) as Hk.
  constructor; simpl; [done|done|done|..]; unfold keys, nodes; simpl.
  - rewrite Hk. apply Hwf.
  - eapply (ForallOrdPairs_Permutation _ D); [| |symmetry; exact Hk|apply Hwf].
    + intros a b Ha Hb. by apply key_neq_sym.
    + apply Hwf.
  - rewrite (wf_count _ _ _ _ Hwf). by rewrite Hp.
Qed.

Lemma resize_always t new_capacity :
  wf t → 0 <= new_capacity < 2 ^ 64 →
  always (po_hashtable_resize hash_func t new_capacity) (λ r,
    wf r.2 ∧ nodes r.2 ≡ₚ nodes t ∧ ht_size r.2 = ht_size t ∧ (r.1 = 0 ∨ r.1 = -1)).
Proof using Type*.
  intros Hwf Hn. unfold po_hashtable_resize.
  pose proof (next_prime_ge_2 new_capacity Hn) as Hp. set (cap := next_prime new_capacity) in *.
  apply always_bind, always_malloc_bytes; simpl.
  - apply always_ret. split_and!; auto.
  - intros _. apply always_ret. simpl.
    destruct (rehash_spec cap (ht_buckets t) (replicate (Z.to_nat cap) [])) as [Hh Hp'];
      [lia|apply homed_empty; lia|]. rewrite concat_replicate_nil, app_nil_r in Hp'.
    split_and!; [|done|done|auto]. apply wf_of_homed; [done|lia|done|done].
Qed.

(** Replacing the chain of [k]'s bucket. *)
Lemma with_bucket_spec t k chain size :
  wf t →
  (∀ n, n ∈ chain → bucket_index hash_func (ht_capacity t) (node_key n) =
                    bucket_index hash_func (ht_capacity t) k) →
  homed (ht_capacity t) (ht_buckets (with_bucket hash_func t k chain size)) ∧
  nodes (with_bucket hash_func t k chain size) ++ bucket hash_func t k ≡ₚ nodes t ++ chain.
Proof.
  intros Hwf Hc. split.
  - apply homed_insert; [|done]. split; [apply Hwf|]. apply (wf_home _ _ _ _ Hwf).
  - unfold nodes, with_bucket, set_bucket. simpl.
    apply concat_insert_Permutation, bucket_lookup, Hwf.
Qed.

Lemma bucket_home t k n :
  wf t → n ∈ bucket hash_func t k →
  bucket_index hash_func (ht_capacity t) (node_key n) = bucket_index hash_func (ht_capacity t) k.
Proof. intros Hwf Hn. apply (wf_home _ _ _ _ Hwf _ _ _ (bucket_lookup t k Hwf) Hn). Qed.

(** Insertion of a fresh key. *)
Lemma put_fresh t k v :
  wf t → D k → find t k = None → ht_size t < 2 ^ 64 - 1 →
  let t' := with_bucket hash_func t k (mk_node k v :: bucket hash_func t k) (u64 (ht_size t + 1)) in
  wf t' ∧ nodes t' ≡ₚ mk_node k v :: nodes t ∧ ht_size t' = ht_size t + 1.
Proof using Type*.
  intros Hwf Hk Hf Hs t'.
  destruct (with_bucket_spec t k (mk_node k v :: bucket hash_func t k) (u64 (ht_size t + 1)) Hwf)
    as [Hh Hp].
  { intros n Hn. apply elem_of_cons in Hn as [->|Hn]; [done|]. by apply bucket_home. }
  assert (nodes t' ≡ₚ mk_node k v :: nodes t) as Hn.
  { apply (Permutation_app_inv_r (bucket hash_func t k)). etrans; [exact Hp|].
    by rewrite <- Permutation_middle. }
  pose proof (wf_count _ _ _ _ Hwf) as Hcnt.
  assert (ht_size t' = ht_size t + 1) as Hs' by (simpl; apply u64_small; lia).
  split_and!; [|done|done]. destruct Hh as [Hl Hh].
  pose proof (Permutation_map node_key Hn) as Hkeys. simpl in Hkeys.
  constructor; [apply Hwf|done|done|..].
  - unfold keys. rewrite Hkeys. constructor; [done|apply Hwf].
  - eapply (ForallOrdPairs_Permutation _ D); [| |symmetry; exact Hkeys|].
    + intros a b Ha Hb. by apply key_neq_sym.
    + constructor; [done|apply Hwf].
    + constructor; [|apply Hwf]. apply Forall_forall. intros a Ha E.
      apply list_elem_of_fmap in Ha as (n & -> & Hnn).
      apply find_None with (n := n) in Hf; [|done..]. apply Hf, key_sym; [done| |done].
      pose proof (wf_dom _ _ _ _ Hwf) as HD. rewrite Forall_forall in HD.
      apply HD, list_elem_of_fmap. eauto.
  - rewrite Hs', Hn, Hcnt. simpl. lia.
Qed.

(** Overwriting the value of a present key. *)
Lemma put_present t k v v0 :
  wf t → D k → find t k = Some v0 →
  let t' := with_bucket hash_func t k (chain_replace compare (bucket hash_func t k) k v) (ht_size t) in
  wf t' ∧ ∃ n rest, nodes t ≡ₚ n :: rest ∧ compare (node_key n) k = 0 ∧
    nodes t' ≡ₚ mk_node (node_key n) v :: rest.
Proof using Type*.
  intros Hwf Hk Hf t'. unfold ht_find in Hf.
  apply chain_find_Some in Hf as (c1 & n & c2 & Hc & E & _ & _ & Hr).
  destruct (with_bucket_spec t k (chain_replace compare (bucket hash_func t k) k v) (ht_size t) Hwf)
    as [Hh Hp].
  { rewrite Hr. intros m Hm. apply elem_of_app in Hm as [Hm|Hm].
    - apply bucket_home; [done|]. rewrite Hc. set_solver.
    - apply elem_of_cons in Hm as [->|Hm]; [simpl|];
        apply bucket_home; try done; rewrite Hc; set_solver. }
  assert (n ∈ nodes t) as Hin by (apply (bucket_submseteq t k); [done|rewrite Hc; set_solver]).
  apply elem_of_Permutation in Hin as [rest Hrest].
  assert (nodes t' ≡ₚ mk_node (node_key n) v :: rest) as Hn.
  { apply (Permutation_app_inv_r (bucket hash_func t k)). etrans; [exact Hp|].
    rewrite Hr, Hrest, Hc. simpl.
    rewrite <- !Permutation_middle. apply Permutation_swap. }
  split; [|eauto 6]. destruct Hh as [Hl Hh].
  assert (keys t' ≡ₚ keys t) as Hkeys.
  { unfold keys. rewrite (Permutation_map _ Hn), (Permutation_map _ Hrest). done. }
  constructor; [apply Hwf|done|done|..].
  - rewrite Hkeys. apply Hwf.
  - eapply (ForallOrdPairs_Permutation _ D); [|apply Hwf|symmetry; exact Hkeys|apply Hwf].
    intros a b Ha Hb. by apply key_neq_sym.
  - simpl. rewrite (wf_count _ _ _ _ Hwf), Hn, Hrest. done.
Qed.

Lemma remove_present t k v0 :
  wf t → D k → find t k = Some v0 → ht_size t < 2 ^ 64 →
  let t' := with_bucket hash_func t k (chain_unlink compare (bucket hash_func t k) k) (u64 (ht_size t - 1)) in
  wf t' ∧ ht_size t' = ht_size t - 1 ∧
  ∃ n, nodes t ≡ₚ n :: nodes t' ∧ compare (node_key n) k = 0.
Proof using Type*.
  intros Hwf Hk Hf Hs t'. unfold ht_find in Hf.
  apply chain_find_Some in Hf as (c1 & n & c2 & Hc & E & _ & Hu & _).
  destruct (with_bucket_spec t k (chain_unlink compare (bucket hash_func t k) k) (u64 (ht_size t - 1)) Hwf)
    as [Hh Hp].
  { rewrite Hu. intros m Hm. apply bucket_home; [done|]. rewrite Hc.
    rewrite elem_of_app, elem_of_cons. apply elem_of_app in Hm as []; auto. }
  assert (nodes t ≡ₚ n :: nodes t') as Hn.
  { apply (Permutation_app_inv_r (c1 ++ c2)). fold t' in Hp. rewrite Hu in Hp.
    rewrite <- Hp, Hc, !(assoc_L (++)). by rewrite <- Permutation_middle. }
  pose proof (wf_count _ _ _ _ Hwf) as Hcnt. rewrite Hn in Hcnt. simpl in Hcnt.
  assert (ht_size t' = ht_size t - 1) as Hs' by (simpl; apply u64_small; lia).
  split_and!; [|done|eauto]. destruct Hh as [Hl Hh].
  pose proof (Permutation_map node_key Hn) as Hkeys. simpl in Hkeys.
  pose proof (wf_dom _ _ _ _ Hwf) as HD. unfold keys in HD.
  assert (ForallOrdPairs (λ a b, compare a b ≠ 0) (node_key n :: map node_key (nodes t'))) as Hd.
  { eapply (ForallOrdPairs_Permutation _ D); [|exact HD|exact Hkeys|apply Hwf].
    intros a b Ha Hb. by apply key_neq_sym. }
  rewrite Hkeys in HD. apply Forall_cons_1 in HD as [_ HD].
  constructor; [apply Hwf|done|done|done|by inversion Hd|]. rewrite Hs'. lia.
Qed.

Lemma node_dom t n : wf t → n ∈ nodes t → D (node_key n).
Proof.
  intros Hwf Hn. pose proof (wf_dom _ _ _ _ Hwf) as HD. rewrite Forall_forall in HD.
  apply HD, list_elem_of_fmap. eauto.
Qed.

(** [t'] has one node more than [t0], for a key equal to [k]. *)
Lemma find_cons t t' k v n rest :
  wf t → wf t' → D k → compare (node_key n) k = 0 → node_value n = v →
  nodes t' ≡ₚ n :: rest →
  (∀ m, m ∈ rest → m ∈ nodes t) →
  (∀ m, m ∈ nodes t → compare (node_key m) k ≠ 0 → m ∈ rest) →
  ∀ k', D k' → find t' k' = if compare k k' =? 0 then Some v else find t k'.
Proof using Type*.
  intros Hwf Hwf' Hk En Ev Hp Hr1 Hr2 k' Hk'.
  assert (D (node_key n)) as Dn by (apply (node_dom t'); [done|rewrite Hp; by left]).
  case (Z.eqb_spec (compare k k') 0); intros E.
  - apply find_Some; [done..|]. exists n. split_and!; [rewrite Hp; by left| |done].
    by apply (key_trans _ k).
  - destruct (find t k') as [v'|] eqn:Ef.
    + apply find_Some in Ef as (m & Hm & Em & Hv); [|done..].
      apply find_Some; [done..|]. exists m. split_and!; [|done..].
      rewrite Hp. right. apply Hr2; [done|]. intros E'. apply E.
      pose proof (node_dom t m Hwf Hm).
      apply (key_trans _ (node_key m)); [done..| |done]. by apply key_sym.
    + apply find_None; [done..|]. intros m Hm Em.
      rewrite Hp in Hm. apply elem_of_cons in Hm as [->|Hm].
      * apply E. apply (key_trans _ (node_key n)); [done..| |done]. by apply key_sym.
      * apply find_None with (n := m) in Ef; [done|done|done|auto].
Qed.

Lemma put_node_always t k v :
  wf t → D k → ht_size t < 2 ^ 64 - 1 →
  always (put_node compare hash_func t k v) (λ r,
    wf r.2 ∧
    (0 <= r.1 ∧ (∀ k', D k' → find r.2 k' = if compare k k' =? 0 then Some v else find t k') ∧
      ht_size r.2 = ht_size t + r.1 ∧ r.1 = (if find t k is Some _ then 0 else 1) ∨
     r.1 = -1 ∧ r.2 = t ∧ find t k = None)).
Proof using Type*.
  intros Hwf Hk Hs. unfold put_node. fold (find t k). destruct (find t k) as [v0|] eqn:Ef.
  - apply always_ret. cbn [fst snd].
    destruct (put_present t k v v0 Hwf Hk Ef) as (Hwf' & n & rest & Hn & En & Hn').
    split; [done|]. left. split_and!; [lia| |simpl; lia|done].
    apply (find_cons t _ k v (mk_node (node_key n) v) rest); try done.
    + intros m Hm. rewrite Hn. by right.
    + intros m Hm E. rewrite Hn in Hm. by apply elem_of_cons in Hm as [->|].
  - apply always_bind. unfold hashtable_node_create.
    apply always_bind, always_malloc. intros []; apply always_ret, always_ret; cbn [fst snd].
    + destruct (put_fresh t k v Hwf Hk Ef Hs) as (Hwf' & Hn & Hs').
      split; [done|]. left. split_and!; [lia| |done|done].
      apply (find_cons t _ k v (mk_node k v) (nodes t)); try done. by apply key_refl.
    + split; [done|]. by right.
Qed.

Lemma put_always t k v :
  wf t → D k → ht_size t < 2 ^ 64 - 1 →
  always (po_hashtable_put compare hash_func t k v) (λ r,
    wf r.2 ∧
    (0 <= r.1 ∧ (∀ k', D k' → find r.2 k' = if compare k k' =? 0 then Some v else find t k') ∧
      ht_size r.2 = ht_size t + r.1 ∧ r.1 = (if find t k is Some _ then 0 else 1) ∨
     r.1 = -1 ∧ (∀ k', D k' → find r.2 k' = find t k') ∧ ht_size r.2 = ht_size t)).
Proof using Type*.
  intros Hwf Hk Hs. unfold po_hashtable_put. apply always_bind.
  apply (always_mono _ (λ r, wf r.2 ∧ nodes r.2 ≡ₚ nodes t ∧ ht_size r.2 = ht_size t)).
  { destruct (f32_lt _ _); [|by apply always_ret].
    eapply always_mono; [apply resize_always; [done|apply u64_range]|].
    by intros r (? & ? & ? & _). }
  intros [r t1] (Hwf1 & Hn1 & Hs1). simpl in *.
  assert (∀ k', D k' → find t1 k' = find t k') as Hf
    by (intros k' Hk'; by apply find_Permutation).
  destruct (_ && _).
  { apply always_ret. simpl. auto. }
  eapply always_mono; [apply put_node_always; [done|done|lia]|].
  intros [r' t2] (Hwf2 & Hcase). simpl in *. split; [done|].
  rewrite Hs1, (Hf k Hk) in Hcase.
  destruct Hcase as [(H0 & Hf' & Hs' & Hr)|(-> & -> & _)]; [left|right]; [|auto].
  split_and!; [done| |done|done]. intros k' Hk'. by rewrite Hf', Hf.
Qed.

Lemma remove_node_spec t k :
  wf t → D k → ht_size t < 2 ^ 64 - 1 →
  let r := remove_node compare hash_func t k in
  wf r.2 ∧ r.1 = (if find t k is Some _ then 1 else 0) ∧
  (∀ k', D k' → find r.2 k' = if compare k k' =? 0 then None else find t k') ∧
  ht_size r.2 = ht_size t - r.1.
Proof using Type*.
  intros Hwf Hk Hs. unfold remove_node. fold (find t k). destruct (find t k) as [v0|] eqn:Ef.
  - destruct (remove_present t k v0 Hwf Hk Ef ltac:(lia)) as (Hwf' & Hs' & n & Hn & En).
    cbn [fst snd]. split_and!; [done|done| |done].
    set (t' := with_bucket _ _ _ _ _) in *. intros k' Hk'.
    assert (D (node_key n)) as Dn by (apply (node_dom t); [done|rewrite Hn; by left]).
    pose proof (wf_distinct _ _ _ _ Hwf) as Hd.
    eapply (ForallOrdPairs_Permutation _ D) in Hd;
      [|intros a b Ha Hb; by apply key_neq_sym|apply Hwf|apply (Permutation_map node_key Hn)].
    simpl in Hd. inversion Hd as [|? ? Hd1 Hd2]; subst. rewrite Forall_forall in Hd1.
    case (Z.eqb_spec (compare k k') 0); intros E.
    + apply find_None; [done..|]. intros m Hm Em.
      assert (D (node_key m)) as Dm by (apply (node_dom t'); done).
      apply (Hd1 (node_key m)); [apply list_elem_of_fmap; eauto|].
      apply (key_trans _ k'); [done..| |by apply key_sym].
      by apply (key_trans _ k).
    + destruct (find t k') as [v'|] eqn:Ef'.
      * apply find_Some in Ef' as (m & Hm & Em & Hv); [|done..].
        apply find_Some; [done..|]. exists m. split_and!; [|done..].
        rewrite Hn in Hm. apply elem_of_cons in Hm as [->|Hm]; [|done].
        exfalso. apply E. apply (key_trans _ (node_key n)); [done..| |done]. by apply key_sym.
      * apply find_None; [done..|]. intros m Hm.
        apply find_None with (n := m) in Ef'; [done|done|done|rewrite Hn; by right].
  - cbn [fst snd]. split_and!; [done|done| |lia]. intros k' Hk'.
    case (Z.eqb_spec (compare k k') 0); intros E; [|done].
    rewrite <- Ef. symmetry. by apply find_eq.
Qed.

Lemma remove_always t k :
  wf t → D k → ht_size t < 2 ^ 64 - 1 →
  always (po_hashtable_remove compare hash_func t k) (λ r,
    wf r.2 ∧
    (r.1 = (if find t k is Some _ then 1 else 0) ∧
      (∀ k', D k' → find r.2 k' = if compare k k' =? 0 then None else find t k') ∧
      ht_size r.2 = ht_size t - r.1 ∨
     r.1 = -1 ∧ (∀ k', D k' → find r.2 k' = find t k') ∧ ht_size r.2 = ht_size t)).
Proof using Type*.
  intros Hwf Hk Hs. unfold po_hashtable_remove. apply always_bind.
  apply (always_mono _ (λ r, wf r.2 ∧ nodes r.2 ≡ₚ nodes t ∧ ht_size r.2 = ht_size t ∧
           (r.1 = 0 ∨ r.1 = -1))).
  { destruct (_ && _); [|apply always_ret; by auto].
    eapply always_mono; [apply resize_always; [done|]|done].
    pose proof (wf_cap _ _ _ _ Hwf). zlia. }
  intros [r t1] (Hwf1 & Hn1 & Hs1 & Hr1). simpl in *.
  assert (∀ k', D k' → find t1 k' = find t k') as Hf
    by (intros k' Hk'; by apply find_Permutation).
  destruct Hr1 as [-> | ->]; simpl; apply always_ret; simpl; [|auto].
  destruct (remove_node_spec t1 k Hwf1 Hk ltac:(lia)) as (Hwf2 & Hr & Hf2 & Hs2).
  rewrite Hf in Hr by done. split; [done|]. left. split_and!; [done| |lia].
  intros k' Hk'. by rewrite Hf2, Hf.
Qed.

#[export] Instance hashtable_laws : HashtableLaws (V := V) D compare hash_func.
Proof using Type*.
  constructor; [|apply put_always|apply remove_always]. intros. by apply find_eq.
Qed.

(** Without allocation failure [put] reports success. *)
Lemma resize_succeeds t cap :
  next_prime cap * SIZEOF_PTR <= PTRDIFF_MAX →
  succeeds (po_hashtable_resize hash_func t cap) (λ r, r.1 = 0).
Proof.
  intros H. unfold po_hashtable_resize. apply succeeds_bind, succeeds_malloc_bytes; [done|].
  simpl. by apply succeeds_ret.
Qed.

Lemma put_node_succeeds t k v :
  succeeds (put_node compare hash_func t k v) (λ r, 0 <= r.1).
Proof.
  unfold put_node. destruct (chain_find _ _ _); [by apply succeeds_ret|].
  unfold hashtable_node_create. apply succeeds_bind, succeeds_bind, succeeds_malloc.
  by apply succeeds_ret, succeeds_ret.
Qed.

(** A failed resize of an already crowded table still lets [put] go on, so
    only the node allocation matters below a load of one. *)
Lemma put_succeeds t k v :
  wf t → ht_capacity t < 2 ^ 30 →
  succeeds (po_hashtable_put compare hash_func t k v) (λ r, 0 <= r.1).
Proof using Type*.
  intros Hwf Hcap. unfold po_hashtable_put. apply succeeds_bind.
  apply (succeeds_mono _ (λ r, r.1 = 0)).
  - destruct (f32_lt _ _); [|by apply succeeds_ret]. apply resize_succeeds.
    pose proof (wf_cap _ _ _ _ Hwf). rewrite u64_small by lia.
    destruct (next_prime_least (ht_capacity t * 2)) as (_ & ? & _); [unfold LAST_DIVISOR; lia|].
    unfold LAST_DIVISOR, SIZEOF_PTR, PTRDIFF_MAX in *. lia.
  - intros [r t'] Hr. simpl in Hr. subst. simpl. apply put_node_succeeds.
Qed.

Lemma create_sized_always cap :
  0 < cap < 2 ^ 64 →
  always (po_hashtable_create_sized (K := K) (V := V) cap) (λ r,
    match r with
    | Some t => wf t ∧ ht_size t = 0 ∧ ht_capacity t = cap ∧ ∀ k, find t k = None
    | None => True end).
Proof.
  intros Hcap. unfold po_hashtable_create_sized.
  apply always_bind, always_malloc. intros []; simpl; [|by apply always_ret].
  apply always_bind, always_malloc_bytes; simpl; [by apply always_ret|]. intros _.
  apply always_ret. split_and!; [|done|done|].
  - constructor; unfold keys, nodes; simpl; rewrite ?concat_replicate_nil; [done|..]; try constructor.
    + apply length_replicate.
    + intros i chain n Hi Hn. apply lookup_replicate in Hi as [-> _]. by apply not_elem_of_nil in Hn.
  - intros k. unfold ht_find, bucket. simpl.
    destruct (replicate _ _ !! _) as [c|] eqn:E; [|done].
    by apply lookup_replicate in E as [-> _].
Qed.

Lemma clear_spec t :
  wf t → wf (po_hashtable_clear t).2 ∧ ht_size (po_hashtable_clear t).2 = 0 ∧
    ∀ k, D k → find (po_hashtable_clear t).2 k = None.
Proof using Type*.
  intros Hwf. unfold po_hashtable_clear. case (Z.eqb_spec (ht_size t) 0); intros Hs; simpl.
  - split_and!; [done|done|]. intros k Hk. apply find_None; [done..|].
    rewrite (wf_count _ _ _ _ Hwf) in Hs. intros n Hn.
    destruct (nodes t); [by apply not_elem_of_nil in Hn|done].
  - assert (wf (mk_hashtable (replicate (length (ht_buckets t)) []) (ht_capacity t) 0 : table)) as Hwf'.
    { constructor; unfold keys, nodes; simpl; rewrite ?concat_replicate_nil; try constructor;
        try apply Hwf.
      - rewrite length_replicate. apply Hwf.
      - intros i chain n Hi Hn. apply lookup_replicate in Hi as [-> _]. by apply not_elem_of_nil in Hn. }
    split_and!; [done|done|]. intros k Hk. apply find_None; [done..|].
    unfold nodes. simpl. rewrite concat_replicate_nil. intros n Hn. by apply not_elem_of_nil in Hn.
Qed.

(** *** Traversals *)

Lemma next_bucket_spec bs i :
  match next_bucket bs i with
  | Some (j, chain) =>
      chain ≠ [] ∧ i < j ∧ concat bs = chain ++ concat (drop (Z.to_nat (j - i)) bs)
  | None => concat bs = []
  end.
Proof.
  revert i. induction bs as [|[|n c] bs IH]; intros i; simpl; [done| |].
  - specialize (IH (i + 1)). destruct (next_bucket bs (i + 1)) as [[j chain]|]; [|done].
    destruct IH as (? & ? & ->). split_and!; [done|lia|].
    replace (Z.to_nat (j - i)) with (S (Z.to_nat (j - (i + 1)))) by lia. done.
  - split_and!; [done|lia|]. replace (Z.to_nat (i + 1 - i)) with 1%nat by lia. done.
Qed.

Lemma iterate_from t fuel i c :
  0 <= i → (length (tail c ++ concat (drop (Z.to_nat i) (ht_buckets t))) <= fuel)%nat →
  iterate fuel (mk_hashtable_iter t i c) = tail c ++ concat (drop (Z.to_nat i) (ht_buckets t)).
Proof.
  revert i c. induction fuel as [|fuel IH]; intros i c Hi Hf; simpl.
  { destruct (_ ++ _); [done|simpl in Hf; lia]. }
  pose proof (next_bucket_spec (drop (Z.to_nat i) (ht_buckets t)) i) as Hb.
  assert (tail c = [] →
    (let '(more, it) :=
       match next_bucket (drop (Z.to_nat i) (ht_buckets t)) i with
       | Some (i, chain) => (true, mk_hashtable_iter t i chain)
       | None => (false, mk_hashtable_iter t i c)
       end in
     if more : bool then match it_current it with n :: _ => n :: iterate fuel it | [] => [] end
     else []) = tail c ++ concat (drop (Z.to_nat i) (ht_buckets t))) as Hscan.
  { intros Hc. rewrite Hc in *. simpl in *.
    destruct (next_bucket _ i) as [[j [|n chain]]|]; [by destruct Hb| |by rewrite Hb].
    destruct Hb as (_ & Hj & Hb). simpl. rewrite Hb in Hf |- *. simpl in *.
    rewrite drop_drop in Hf |- *.
    replace (Z.to_nat i + Z.to_nat (j - i))%nat with (Z.to_nat j) in * by lia.
    rewrite IH; [done|lia|simpl; lia]. }
  unfold po_hashtable_iter_next. simpl. destruct c as [|n1 [|n2 c]]; [by apply Hscan|by apply Hscan|].
  simpl in *. rewrite IH; simpl; [done|lia|lia].
Qed.

Lemma collect_keys_all size bs acc :
  Z.of_nat (length acc) + Z.of_nat (length (concat bs)) = size →
  collect_keys size bs acc = acc ++ map node_key (concat bs).
Proof.
  revert acc. induction bs as [|c bs IH]; intros acc Hs; simpl in *; [by rewrite app_nil_r|].
  rewrite length_app in Hs. case (Z.ltb_spec (Z.of_nat (length acc)) size); intros Hlt.
  - rewrite IH, map_app, app_assoc; [done|]. rewrite length_app, length_map. lia.
  - destruct (c ++ concat bs) as [|n l] eqn:E; [by rewrite app_nil_r|].
    apply (f_equal length) in E. rewrite length_app in E. simpl in E. lia.
Qed.

(** *** Merge and copy *)

Lemma chain_find_nodes t k : wf t → D k → chain_find compare (nodes t) k = find t k.
Proof using Type*.
  intros Hwf Hk. destruct (find t k) as [v|] eqn:E.
  - apply find_Some in E as (n & Hn & En & <-); [|done..].
    apply chain_find_elem; [apply Hwf|apply Hwf|done..].
  - apply chain_find_None. intros n Hn. by apply find_None with (n := n) in E.
Qed.

Lemma merge_nodes_always (ns : list node) (dest : table) :
  wf dest → Forall D (map node_key ns) →
  ForallOrdPairs (λ a b, compare a b ≠ 0) (map node_key ns) →
  ht_size dest + Z.of_nat (length ns) < 2 ^ 64 - 1 →
  always (merge_nodes compare hash_func dest ns) (λ r : table,
    wf r ∧ ht_size r <= ht_size dest + Z.of_nat (length ns) ∧
    (ht_size r = ht_size dest + Z.of_nat (length ns) → ∀ k, D k →
       find r k = match chain_find compare ns k with Some v => Some v | None => find dest k end)).
Proof using Type*.
  revert dest. induction ns as [|n ns IH]; intros dest Hwf HD Hd Hs; simpl in *.
  { apply always_ret. split_and!; [done|lia|done]. }
  apply Forall_cons_1 in HD as [Dn HD]. inversion Hd as [|? ? Hd1 Hd2]; subst.
  apply always_bind. eapply always_mono; [apply put_always; [done|done|lia]|].
  intros [r t1] (Hwf1 & Hcase). simpl in *.
  assert (ht_size t1 <= ht_size dest + 1) as Hs1.
  { destruct Hcase as [(? & _ & -> & ->)|(_ & _ & ->)]; [destruct (find dest _)|]; lia. }
  eapply always_mono; [apply IH; [done|done|done|lia]|].
  intros r2 (Hwf2 & Hle & Hfull). split_and!; [done|lia|]. intros Heq k Hk.
  rewrite Hfull by (done || lia). clear Hfull IH.
  destruct Hcase as [(_ & Hf & Hs' & _)|(_ & _ & Hs')]; [|lia].
  rewrite Hf by done. case (Z.eqb_spec (compare (node_key n) k) 0); intros E; [|done].
  destruct (chain_find compare ns k) eqn:Ec; [|done]. exfalso.
  apply chain_find_Some in Ec as (c1 & m & c2 & -> & Em & _).
  rewrite map_app in Hd1, HD. simpl in Hd1, HD.
  apply Forall_app in Hd1 as [_ Hd1]. apply Forall_cons_1 in Hd1 as [Hd1 _].
  apply Forall_app in HD as [_ HD]. apply Forall_cons_1 in HD as [HD _].
  apply Hd1. apply (key_trans _ k); [done..|]. by apply key_sym.
Qed.
End hashtable_lemmas.

(** ** Properties *)

(** C37. [po_hashtable_put] refines the update of a finite map, whatever the
    allocator answers: on success the key (up to [compare]) maps to the new
    value and every other key is untouched, the result is 1 exactly for a new
    key; on failure no key changes.  Rehashing on the way is invisible, and
    the representation invariant is kept. *)
Theorem hashtable_put_refines_update {K V} (D : K → Prop) (compare : K → K → Z)
    (hash_func : K → Z) (t : po_hashtable K V) (k : K) (v : V) :
  KeyContract D compare hash_func →
  ht_wf compare hash_func D t → D k → ht_size t < 2 ^ 64 - 1 →
  always (po_hashtable_put compare hash_func t k v) (λ r,
    ht_wf compare hash_func D r.2 ∧
    (0 <= r.1 ∧ (∀ k', D k' → ht_find compare hash_func r.2 k' =
        if compare k k' =? 0 then Some v else ht_find compare hash_func t k') ∧
      ht_size r.2 = ht_size t + r.1 ∧
      r.1 = (if ht_find compare hash_func t k is Some _ then 0 else 1) ∨
     r.1 = -1 ∧ (∀ k', D k' → ht_find compare hash_func r.2 k' = ht_find compare hash_func t k') ∧
      ht_size r.2 = ht_size t)).
Proof. intros. by apply put_always. Qed.

(** Integer keys compared by subtraction, for concrete runs. *)
Definition int_compare (a b : Z) : Z := a - b.
Definition int_hash (a : Z) : Z := u64 a.

#[export] Instance int_contract : KeyContract (λ _, True) int_compare int_hash.
Proof.
  constructor; unfold int_compare; intros; try lia.
  by replace b with a by lia.
Qed.

Definition int_table (kvs : list (Z * Z)) : po_hashtable Z Z :=
  foldl (λ t kv, (po_hashtable_put int_compare int_hash t kv.1 kv.2 []).1.2)
    (mk_hashtable (replicate 17 []) 17 0) kvs.

Lemma int_table_snoc kvs k v :
  int_table (kvs ++ [(k, v)]) =
  (po_hashtable_put int_compare int_hash (int_table kvs) k v []).1.2.
Proof. unfold int_table. by rewrite foldl_app. Qed.

Lemma int_table_wf kvs :
  Z.of_nat (length kvs) < 2 ^ 60 →
  ht_wf int_compare int_hash (λ _, True) (int_table kvs) ∧
  0 <= ht_size (int_table kvs) <= Z.of_nat (length kvs).
Proof.
  induction kvs as [|[k v] kvs IH] using rev_ind; intros Hl.
  - destruct (create_sized_always (V := Z) (λ _ : Z, True) int_compare int_hash 17 ltac:(lia) [])
      as (H & _). split; [exact H|simpl; lia].
  - rewrite int_table_snoc, length_app in *. simpl length in *. destruct IH as [IH Hs]; [lia|].
    destruct (put_always (V := Z) (λ _, True) int_compare int_hash (int_table kvs) k v IH I
      ltac:(lia) []) as [H Hc].
    split; [exact H|].
    destruct Hc as [(_ & _ & -> & ->)|(_ & _ & ->)]; [destruct (ht_find _ _ _ _)|]; lia.
Qed.

Lemma hashtable_put_refines_update_witness :
  ht_find int_compare int_hash
    (po_hashtable_put int_compare int_hash (int_table [(1, 10); (18, 20)]) 1 30 []).1.2 18 = Some 20 ∧
  ht_wf int_compare int_hash (λ _, True)
    (po_hashtable_put int_compare int_hash (int_table [(1, 10); (18, 20)]) 1 30 []).1.2.
Proof.
  split; [reflexivity|].
  apply (hashtable_put_refines_update (λ _, True) int_compare int_hash
    (int_table [(1, 10); (18, 20)]) 1 30 int_contract); [apply int_table_wf| |]; done.
Defined.

(** [po_hashtable_remove] refines deletion from a finite map: exactly the
    keys comparing equal to the argument disappear, the result tells whether
    one was present, and a failed shrink leaves the map as it was. *)
Theorem hashtable_remove_refines_delete {K V} (D : K → Prop) (compare : K → K → Z)
    (hash_func : K → Z) (t : po_hashtable K V) (k : K) :
  KeyContract D compare hash_func →
  ht_wf compare hash_func D t → D k → ht_size t < 2 ^ 64 - 1 →
  always (po_hashtable_remove compare hash_func t k) (λ r,
    ht_wf compare hash_func D r.2 ∧
    (r.1 = (if ht_find compare hash_func t k is Some _ then 1 else 0) ∧
      (∀ k', D k' → ht_find compare hash_func r.2 k' =
        if compare k k' =? 0 then None else ht_find compare hash_func t k') ∧
      ht_size r.2 = ht_size t - r.1 ∨
     r.1 = -1 ∧ (∀ k', D k' → ht_find compare hash_func r.2 k' = ht_find compare hash_func t k') ∧
      ht_size r.2 = ht_size t)).
Proof. intros. by apply remove_always. Qed.

Lemma hashtable_remove_refines_delete_witness :
  (po_hashtable_remove int_compare int_hash (int_table [(1, 10); (18, 20)]) 1 []).1.1 = 1 ∧
  ht_wf int_compare int_hash (λ _, True)
    (po_hashtable_remove int_compare int_hash (int_table [(1, 10); (18, 20)]) 1 []).1.2.
Proof.
  split; [reflexivity|].
  apply (hashtable_remove_refines_delete (λ _, True) int_compare int_hash
    (int_table [(1, 10); (18, 20)]) 1 int_contract); [apply int_table_wf| |]; done.
Defined.

(** Rehashing: [po_hashtable_resize] moves every node to the bucket its
    hash selects in the new array, losing and inventing none, so that every
    lookup answers as before; when [calloc] fails the table is unchanged. *)
Theorem hashtable_resize_preserves_map {K V} (D : K → Prop) (compare : K → K → Z)
    (hash_func : K → Z) (t : po_hashtable K V) (new_capacity : Z) :
  KeyContract D compare hash_func →
  ht_wf compare hash_func D t → 0 <= new_capacity < 2 ^ 64 →
  always (po_hashtable_resize hash_func t new_capacity) (λ r,
    ht_wf compare hash_func D r.2 ∧ nodes r.2 ≡ₚ nodes t ∧
    ∀ k, D k → ht_find compare hash_func r.2 k = ht_find compare hash_func t k).
Proof.
  intros HK Hwf Hc. eapply always_mono; [by apply (resize_always D compare hash_func)|].
  intros [r t'] (Hwf' & Hn & _). split_and!; [done|done|].
  intros k Hk. by apply (find_Permutation D).
Qed.

Lemma hashtable_resize_preserves_map_witness :
  ht_capacity (po_hashtable_resize int_hash (int_table [(1, 10); (18, 20)]) 34 []).1.2 = 37 ∧
  nodes (po_hashtable_resize int_hash (int_table [(1, 10); (18, 20)]) 34 []).1.2 ≡ₚ
    nodes (int_table [(1, 10); (18, 20)]).
Proof.
  split; [reflexivity|].
  apply (hashtable_resize_preserves_map (λ _, True) int_compare int_hash
    (int_table [(1, 10); (18, 20)]) 34 int_contract); [apply int_table_wf|]; done.
Defined.

(** A run of the iterator visits every node of the table exactly once, in
    bucket order, and then stops; the key set lists the same keys. *)
Theorem hashtable_iterator_visits_all {K V} (compare : K → K → Z) (hash_func : K → Z)
    (D : K → Prop) (t : po_hashtable K V) :
  ht_wf compare hash_func D t →
  iterate (S (length (nodes t))) (mk_hashtable_iter t 0 []) = nodes t ∧
  always (po_hashtable_keyset t) (λ r,
    match r with Some ks => ks = map node_key (nodes t) | None => True end).
Proof.
  intros Hwf. split.
  - rewrite iterate_from; change (Z.to_nat 0) with 0%nat; rewrite ?drop_0;
      [done|lia|unfold nodes; simpl; lia].
  - unfold po_hashtable_keyset. case (_ =? _); [by apply always_ret|].
    apply always_bind, always_malloc_bytes; [by apply always_ret|]. intros _.
    apply always_ret. rewrite collect_keys_all; [done|]. simpl. by rewrite (wf_count _ _ _ _ Hwf).
Qed.

Lemma hashtable_iterator_visits_all_witness :
  iterate 4 (mk_hashtable_iter (int_table [(1, 10); (18, 20); (2, 5)]) 0 []) =
    [mk_node 18 20; mk_node 1 10; mk_node 2 5].
Proof.
  pose proof (hashtable_iterator_visits_all int_compare int_hash (λ _, True)
    (int_table [(1, 10); (18, 20); (2, 5)])
    (proj1 (int_table_wf [(1, 10); (18, 20); (2, 5)] eq_refl))) as [H _].
  vm_compute in H. vm_compute. exact H.
Defined.

(** [po_hashtable_copy] builds a well-formed table; unless a put on the
    way failed (which the size of the copy reveals) it answers every lookup
    like the original. *)
Theorem hashtable_copy_same_map {K V} (D : K → Prop) (compare : K → K → Z)
    (hash_func : K → Z) (t : po_hashtable K V) :
  KeyContract D compare hash_func →
  ht_wf compare hash_func D t → ht_size t < 2 ^ 64 - 1 →
  always (po_hashtable_copy compare hash_func t) (λ r,
    match r with
    | Some c =>
        ht_wf compare hash_func D c ∧
        (ht_size c = ht_size t →
         ∀ k, D k → ht_find compare hash_func c k = ht_find compare hash_func t k)
    | None => True end).
Proof.
  intros HK Hwf Hs. unfold po_hashtable_copy, po_hashtable_create, po_hashtable_merge.
  apply always_bind. eapply always_mono; [apply (create_sized_always D compare hash_func)|].
  { unfold INITIAL_CAPACITY. lia. }
  intros [c|]; [|intros _; by apply always_ret]. intros (Hwf0 & Hs0 & _ & Hf0).
  apply always_bind. fold (nodes t). eapply always_mono.
  { apply (merge_nodes_always D compare hash_func (nodes t) c); [done|apply Hwf|apply Hwf|].
    rewrite (wf_count _ _ _ _ Hwf) in Hs. lia. }
  intros r (Hwfr & _ & Hf). apply always_ret. split; [done|]. intros Heq k Hk.
  rewrite Hf, Hf0 by (done || rewrite Heq, (wf_count _ _ _ _ Hwf); lia).
  rewrite (chain_find_nodes D compare hash_func) by done. by destruct (ht_find _ _ _ _).
Qed.

Lemma hashtable_copy_same_map_witness :
  match (po_hashtable_copy int_compare int_hash (int_table [(1, 10); (18, 20)]) []).1 with
  | Some c => ht_size c = 2 ∧ ht_wf int_compare int_hash (λ _, True) c
  | None => False end.
Proof.
  pose proof (hashtable_copy_same_map (λ _, True) int_compare int_hash
    (int_table [(1, 10); (18, 20)]) int_contract
    (proj1 (int_table_wf [(1, 10); (18, 20)] eq_refl)) eq_refl []) as H.
  split; [reflexivity|]. exact (proj1 H).
Defined.

(** [po_hashtable_equals] is not an equality test: it stops each pair of
    chains at the shorter one, so two tables of the same size whose nodes sit
    in different buckets are reported equal although they share no key, and it
    reads past the bucket array of a smaller second table. *)
Theorem hashtable_equals_unsound :
  (let t1 := int_table [(1, 10)] in let t2 := int_table [(2, 99)] in
   po_hashtable_equals int_compare t1 t2 int_compare = Some true ∧
   ht_find int_compare int_hash t1 1 = Some 10 ∧ ht_find int_compare int_hash t2 1 = None) ∧
  (let t1 := (po_hashtable_resize int_hash (int_table [(1, 10)]) 34 []).1.2 in
   po_hashtable_equals int_compare t1 (int_table [(1, 10)]) int_compare = None).
Proof. vm_compute. done. Qed.
