(* ===== verification/HashtableGrowth.v ===== *)
(** * Growth of the hash table ([app/libs/ring1/postoffice/hashtable/hashtable.c])

    What the binary32 load factor and [next_prime] decide together: a table
    that is at most half full never grows, so its capacity stays within a
    constant factor of its size, and a put on a table of moderate size can
    only fail when the allocator does.  The priority queue, which ignores the
    result of its puts, is built on this. *)

From Stdlib Require Import ZArith Znumtheory Lia SpecFloat.
From stdpp Require Import base list numbers.
From S2P Require Import Prelude Prime Hashtable.

Local Open Scope Z_scope.

(** ** Rounding to 24 bits *)

Lemma digits2_pos_bounds p :
  2 ^ (Zpos (digits2_pos p) - 1) <= Zpos p < 2 ^ Zpos (digits2_pos p).
Proof.
  induction p as [p IH|p IH|]; cbn [digits2_pos]; [| |by vm_compute].
  all: rewrite Pos2Z.inj_succ; rewrite Z.pow_succ_r by lia.
  all: replace (Z.succ (Zpos (digits2_pos p)) - 1) with (Z.succ (Zpos (digits2_pos p) - 1)) by lia.
  all: rewrite Z.pow_succ_r by lia; lia.
Qed.

Lemma digits2_pos_unique p d :
  0 < d → 2 ^ (d - 1) <= Zpos p < 2 ^ d → Zpos (digits2_pos p) = d.
Proof.
  intros Hd Hp. pose proof (digits2_pos_bounds p) as Hb.
  assert (Zpos (digits2_pos p) - 1 < d) by (apply (Z.pow_lt_mono_r_iff 2); lia).
  assert (d - 1 < Zpos (digits2_pos p)) by (apply (Z.pow_lt_mono_r_iff 2); lia). lia.
Qed.

Lemma shr_fexp_0 q e l :
  2 ^ 23 <= q < 2 ^ 24 → -149 <= e → shr_fexp 24 128 q e l = (shr_record_of_loc q l, e).
Proof.
  intros Hq He. unfold shr_fexp, fexp, emin. destruct q as [|q|]; [lia| |lia]. simpl Zdigits2.
  rewrite (digits2_pos_unique q 24) by lia.
  replace (Z.max (24 + e - 24) (3 - 128 - 24) - e) with 0 by lia. done.
Qed.

Lemma shr_fexp_1 q e l :
  2 ^ 24 <= q < 2 ^ 25 → -149 <= e →
  shr_fexp 24 128 q e l = (shr_1 (shr_record_of_loc q l), e + 1).
Proof.
  intros Hq He. unfold shr_fexp, fexp, emin. destruct q as [|q|]; [lia| |lia]. simpl Zdigits2.
  rewrite (digits2_pos_unique q 25) by lia.
  replace (Z.max (25 + e - 24) (3 - 128 - 24) - e) with 1 by lia. done.
Qed.

Lemma shr_1_half q l :
  0 < q → shr_m (shr_1 (shr_record_of_loc q l)) = q / 2 ∧
  (l = loc_Exact → Z.even q = true → loc_of_shr_record (shr_1 (shr_record_of_loc q l)) = loc_Exact).
Proof.
  intros Hq. assert (∀ r s, shr_m (shr_1 (Build_shr_record q r s)) = q / 2) as H.
  { intros r s. destruct q as [|[p|p|]|]; try lia; simpl; [|..|done];
      [rewrite (Pos2Z.inj_xI p)|rewrite (Pos2Z.inj_xO p)]; zlia. }
  split; [destruct l as [|[]]; apply H|]. intros -> He. simpl.
  destruct q as [|[p|p|]|]; simpl in *; done.
Qed.

Lemma shr_m_of_loc q l : shr_m (shr_record_of_loc q l) = q.
Proof. by destruct l as [|[]]. Qed.

Lemma round_half_up q l : round_nearest_even q l = q ∨ round_nearest_even q l = q + 1.
Proof. destruct l as [|[]]; simpl; auto. destruct (Z.even q); auto. Qed.

(** Second normalisation: a mantissa of 24 bits, or the carry to [2 ^ 24]. *)
Lemma renormalize r e :
  2 ^ 23 <= r <= 2 ^ 24 → -149 <= e <= 100 →
  ∃ m e2,
    (let '(mrs, e'') := shr_fexp 24 128 r e loc_Exact in
     match shr_m mrs with
     | Z0 => S754_zero false
     | Zpos m => if Z.leb e'' (128 - 24) then S754_finite false m e'' else S754_infinity false
     | _ => S754_nan
     end) = S754_finite false m e2 ∧
    (e2 = e ∧ Zpos m = r ∨ e2 = e + 1 ∧ Zpos m = 2 ^ 23 ∧ r = 2 ^ 24).
Proof.
  intros Hr He. destruct (decide (r = 2 ^ 24)) as [->|].
  - rewrite shr_fexp_1 by lia. simpl.
    case (Z.leb_spec (e + 1) (128 - 24)); [|lia]. intros _. eexists _, _. split; [done|]. right. by split_and!.
  - rewrite shr_fexp_0 by lia. simpl. destruct r as [|r|]; [lia| |lia].
    case (Z.leb_spec e (128 - 24)); [|lia]. intros _. eexists _, _. split; [done|]. by left.
Qed.

Lemma round_aux_24 q e l :
  2 ^ 23 <= q < 2 ^ 24 → -149 <= e <= 100 →
  ∃ m e2, binary_round_aux 24 128 false q e l = S754_finite false m e2 ∧
    (e2 = e ∧ (l = loc_Exact → Zpos m = q) ∨ e2 = e + 1 ∧ Zpos m = 2 ^ 23 ∧ l ≠ loc_Exact).
Proof.
  intros Hq He. unfold binary_round_aux. rewrite shr_fexp_0 by lia. rewrite shr_m_of_loc.
  set (r := round_nearest_even _ _).
  assert (r = q ∨ r = q + 1) as Hr by apply round_half_up.
  assert (l = loc_Exact → r = q) as Hl by (by intros ->).
  destruct (renormalize r e) as (m & e2 & -> & Hm); [lia|lia|].
  exists m, e2. split; [done|]. destruct Hm as [[-> Hm]|(-> & Hm & ?)]; [left|right].
  - split; [done|]. intros H. by rewrite Hm, Hl.
  - split_and!; [done|done|]. intros Hex. apply Hl in Hex. lia.
Qed.

Lemma round_aux_25 q e l :
  2 ^ 24 <= q < 2 ^ 25 → -149 <= e <= 99 →
  ∃ m e2, binary_round_aux 24 128 false q e l = S754_finite false m e2 ∧
    (e2 = e + 1 ∧ (q = 2 ^ 24 → l = loc_Exact → Zpos m = 2 ^ 23) ∨ e2 = e + 2 ∧ Zpos m = 2 ^ 23 ∧
      ¬ (q = 2 ^ 24 ∧ l = loc_Exact)).
Proof.
  intros Hq He. unfold binary_round_aux. rewrite shr_fexp_1 by lia.
  destruct (shr_1_half q l) as [-> Hx]; [lia|].
  set (r := round_nearest_even _ _).
  assert (r = q / 2 ∨ r = q / 2 + 1) as Hr by apply round_half_up.
  assert (q = 2 ^ 24 → l = loc_Exact → r = 2 ^ 23) as Hl.
  { intros -> ->. done. }
  destruct (renormalize r (e + 1)) as (m & e2 & -> & Hm); [zlia|lia|].
  exists m, e2. split; [done|]. destruct Hm as [[-> Hm]|(-> & Hm & ?)]; [left|right].
  - split; [done|]. intros H1 H2. by rewrite Hm, Hl.
  - split_and!; [lia|done|]. intros [H1 H2]. specialize (Hl H1 H2). lia.
Qed.

Lemma shl_align_pow m d :
  Zpos (Pos.iter xO m d) = Zpos m * 2 ^ Zpos d.
Proof.
  induction d as [|d IH] using Pos.peano_ind; [simpl; lia|].
  rewrite Pos.iter_succ, Pos2Z.inj_xO, IH, Pos2Z.inj_succ, Z.pow_succ_r by lia. lia.
Qed.

(** Integers below [2 ^ 24] convert exactly. *)
Lemma f32_of_Z_exact z :
  0 < z < 2 ^ 24 →
  ∃ m d, f32_of_Z z = S754_finite false m (d - 24) ∧ Zpos m * 2 ^ d = z * 2 ^ 24 ∧
    2 ^ 23 <= Zpos m < 2 ^ 24 ∧ 1 <= d <= 24.
Proof.
  intros Hz. destruct z as [|p|]; [lia| |lia]. unfold f32_of_Z, binary_normalize, binary_round.
  pose proof (digits2_pos_bounds p) as Hp. set (d := Zpos (digits2_pos p)) in *.
  assert (1 <= d <= 24) as Hd.
  { split; [lia|]. assert (d - 1 < 24); [|lia]. apply (Z.pow_lt_mono_r_iff 2); lia. }
  unfold shl_align, fexp, emin. replace (Z.max (d + 0 - 24) (3 - 128 - 24) - 0) with (d - 24) by lia.
  replace (Z.max (d + 0 - 24) (3 - 128 - 24)) with (d - 24) by lia.
  assert (2 ^ 24 = 2 ^ d * 2 ^ (24 - d)) as E24 by (rewrite <- Z.pow_add_r by lia; f_equal; lia).
  assert (2 ^ 23 = 2 ^ (d - 1) * 2 ^ (24 - d)) as E23 by (rewrite <- Z.pow_add_r by lia; f_equal; lia).
  assert (∃ mz ez, match d - 24 with Zneg k => (Pos.iter xO p k, d - 24) | _ => (p, 0) end = (mz, ez)
    ∧ ez = d - 24 ∧ Zpos mz = Zpos p * 2 ^ (24 - d)) as (mz & ez & -> & -> & Hmz).
  { destruct (d - 24) as [|k|k] eqn:Ek; [|lia|].
    - eexists _, _. split_and!; [done|done|]. replace (24 - d) with 0 by lia. lia.
    - eexists _, _. split_and!; [done|done|]. rewrite shl_align_pow. do 2 f_equal. lia. }
  assert (0 < 2 ^ (24 - d)) by (apply Z.pow_pos_nonneg; lia).
  destruct (round_aux_24 (Zpos mz) (d - 24) loc_Exact) as (m & e2 & Em & Hm);
    [rewrite Hmz, E24, E23; nia|lia|].
  destruct Hm as [[-> Hm]|(_ & _ & Hm)]; [|done]. specialize (Hm eq_refl). injection Hm as ->.
  exists mz, d. rewrite Em. split_and!; [done| |rewrite Hmz, E23; nia|rewrite Hmz, E24; nia|lia|lia].
  rewrite Hmz, E24. lia.
Qed.

(** ** A table at most half full does not grow *)

Lemma half_quotient mx my q :
  2 ^ 23 <= mx < 2 ^ 24 → 2 ^ 23 <= my < 2 ^ 24 → q = mx * 2 ^ 24 / my →
  (mx < my → 2 ^ 23 <= q < 2 ^ 24) ∧ (my <= mx → 2 ^ 24 <= q < 2 ^ 25) ∧
  (mx = my → q = 2 ^ 24 ∧ mx * 2 ^ 24 mod my = 0).
Proof.
  intros Hx Hy ->. split_and!.
  - intros Hlt. split; [apply Z.div_le_lower_bound|apply Z.div_lt_upper_bound]; nia.
  - intros Hle. split; [apply Z.div_le_lower_bound|apply Z.div_lt_upper_bound]; nia.
  - intros ->. rewrite Z.mul_comm. split; [by apply Z.div_mul; lia|apply Z.mod_mul; lia].
Qed.

Lemma f32_lt_threshold m e :
  e < -24 ∨ e = -24 ∧ Zpos m = 2 ^ 23 →
  f32_lt LOAD_FACTOR_UP_THRESHOLD (S754_finite false m e) = false.
Proof.
  unfold f32_lt, SFltb, SFcompare, LOAD_FACTOR_UP_THRESHOLD.
  case (Z.compare_spec (-24) e); intros He [?|[? Hm]]; try lia; try done.
  by injection Hm as ->.
Qed.

Lemma half_full_f32 s c :
  0 <= s → 2 * s <= c → 0 < c < 2 ^ 24 →
  f32_lt LOAD_FACTOR_UP_THRESHOLD (f32_div (f32_of_Z s) (f32_of_Z c)) = false.
Proof.
  intros Hs Hsc Hc. destruct (f32_of_Z_exact c Hc) as (my & dy & -> & Ey & Hmy & Hdy).
  destruct (decide (s = 0)) as [->|]; [done|].
  destruct (f32_of_Z_exact s ltac:(lia)) as (mx & dx & -> & Ex & Hmx & Hdx).
  unfold f32_div, SFdiv, SFdiv_core_binary. simpl Zdigits2.
  rewrite (digits2_pos_unique mx 24), (digits2_pos_unique my 24) by lia. unfold fexp, emin.
  set (k := dx - dy).
  assert (k < 0) as Hk.
  { destruct (Z.le_gt_cases 0 k) as [Hk|]; [|done]. exfalso. subst k.
    assert (2 ^ dy <= 2 ^ dx) by (apply Z.pow_le_mono_r; lia).
    assert (0 < 2 ^ dy) by (apply Z.pow_pos_nonneg; lia). nia. }
  assert (k = -1 → Zpos mx <= Zpos my) as Hk1.
  { intros Hk1. assert (2 ^ dy = 2 * 2 ^ dx) as E.
    { rewrite <- Z.pow_succ_r by lia. f_equal. lia. }
    rewrite E in Ey. assert (0 < 2 ^ dx) by (apply Z.pow_pos_nonneg; lia). nia. }
  replace (Z.min (Z.max (24 + (dx - 24) - (24 + (dy - 24)) - 24) (3 - 128 - 24)) (dx - 24 - (dy - 24)))
    with (k - 24) by lia.
  replace (dx - 24 - (dy - 24) - (k - 24)) with 24 by lia. cbv iota beta.
  rewrite Z.shiftl_mul_pow2 by lia.
  pose proof (Z_div_mod (Zpos mx * 2 ^ 24) (Zpos my) ltac:(lia)) as Hdm.
  destruct (Z.div_eucl (Zpos mx * 2 ^ 24) (Zpos my)) as [q r] eqn:Eq. destruct Hdm as [Eqr Hr].
  assert (q = Zpos mx * 2 ^ 24 / Zpos my) as Hq by (apply (Z.div_unique _ _ q r); lia).
  destruct (half_quotient _ _ q Hmx Hmy Hq) as (Hlt & Hge & Heq). simpl xorb.
  destruct (Z.lt_ge_cases (Zpos mx) (Zpos my)) as [Hcmp|Hcmp].
  - destruct (round_aux_24 q (k - 24) (new_location (Zpos my) r)) as (m & e2 & -> & Hm);
      [auto|lia|]. apply f32_lt_threshold. lia.
  - destruct (round_aux_25 q (k - 24) (new_location (Zpos my) r)) as (m & e2 & -> & Hm);
      [apply Hge; lia|lia|]. apply f32_lt_threshold.
    destruct (decide (k = -1)) as [Hkm|]; [|lia].
    destruct Heq as [Hq1 Hr0]; [lia|].
    assert (r = 0) as -> by (rewrite Eqr, (Z.mul_comm (Zpos my)), Z.add_comm, Z.mod_add, Z.mod_small in Hr0; lia).
    assert (new_location (Zpos my) 0 = loc_Exact) as E
      by (unfold new_location; by destruct (Z.even _)).
    rewrite E in Hm. destruct Hm as [[-> Hm]|(_ & _ & [])]; [|done]. right. split; [lia|by apply Hm].
Qed.

(** ** [next_prime] at most doubles

    A ladder of primes, each at most twice the one before, covers the range. *)

Definition prime_ladder : list Z :=
  [3; 5; 7; 13; 23; 43; 83; 163; 317; 631; 1259; 2503; 5003; 9973; 19937; 39869; 79699;
   159389; 318751; 637499; 1274989; 2549951; 5099893; 10199767; 20399531; 40799041].

Fixpoint ladder_ok (prev : Z) (l : list Z) : bool :=
  match l with
  | [] => true
  | p :: l => is_prime p && (p <=? 2 * prev) && (0 <=? p) && (p <? 2 ^ 32) && ladder_ok p l
  end.

Lemma ladder_next prev l n :
  ladder_ok prev l = true → prev <= n < List.last l prev →
  ∃ p, prime p ∧ n < p <= 2 * n ∧ 0 <= p < 2 ^ 32.
Proof.
  revert prev. induction l as [|p l IH]; intros prev Hok Hn; simpl in Hok.
  { simpl in Hn. lia. }
  rewrite !andb_true_iff in Hok. destruct Hok as ((((Hp & H2) & H0) & H32) & Hok).
  destruct (Z.lt_ge_cases n p) as [Hlt|Hge].
  - exists p. split_and!; try lia. apply is_prime_correct_aux; [unfold LAST_DIVISOR; lia|done].
  - apply (IH p Hok). split; [lia|]. destruct l; [simpl in *; lia|].
    destruct Hn as [_ Hn]. revert Hn. clear. generalize prev.
    induction l as [|b l IH] in z |- *; intros prev' Hn; simpl in *; [done|by eapply IH].
Qed.

Lemma next_prime_doubles n : 2 <= n <= 2 ^ 25 → next_prime n <= 2 * n.
Proof.
  intros Hn. destruct (ladder_next 2 prime_ladder n) as (p & Hp & Hnp & ?);
    [by vm_compute|simpl; lia|].
  destruct (next_prime_least n) as (_ & ? & Hleast); [unfold LAST_DIVISOR; lia|].
  destruct (Z.le_gt_cases (next_prime n) p); [lia|]. exfalso. by apply (Hleast p); [lia|].
Qed.

(** ** Capacity stays proportionate *)

(** Sizes and capacities for which everything below is established. *)
Definition MAX_ENTRIES : Z := 2 ^ 20.
Definition MAX_CAPACITY : Z := 2 ^ 23.

Section growth.
Context {K V : Type} (D : K → Prop) (compare : K → K → Z) (hash_func : K → Z).
Context `{!KeyContract D compare hash_func}.
Implicit Types (t : po_hashtable K V).

Definition roomy t : Prop := ht_wf compare hash_func D t ∧ ht_capacity t <= MAX_CAPACITY.

Lemma grow_capacity t :
  roomy t → ht_size t <= MAX_ENTRIES →
  f32_lt LOAD_FACTOR_UP_THRESHOLD (po_hashtable_load_factor t) = true →
  next_prime (u64 (ht_capacity t * 2)) <= MAX_CAPACITY.
Proof.
  unfold MAX_ENTRIES, MAX_CAPACITY. intros [Hwf Hcap] Hs Hl.
  pose proof (wf_cap _ _ _ _ Hwf). pose proof (wf_count _ _ _ _ Hwf).
  destruct (Z.le_gt_cases (2 * ht_size t) (ht_capacity t)) as [Hh|Hh].
  { unfold po_hashtable_load_factor in Hl. rewrite half_full_f32 in Hl; [done|lia|lia|].
    unfold MAX_CAPACITY in Hcap. lia. }
  rewrite u64_small by lia. etrans; [apply next_prime_doubles; lia|]. lia.
Qed.

Lemma put_capacity t k v :
  roomy t → ht_size t <= MAX_ENTRIES →
  always (po_hashtable_put compare hash_func t k v) (λ r, ht_capacity r.2 <= MAX_CAPACITY).
Proof.
  intros Hr Hs. unfold po_hashtable_put. apply always_bind.
  apply (always_mono _ (λ r, ht_capacity r.2 <= MAX_CAPACITY)).
  - destruct (f32_lt _ _) eqn:E; [|apply always_ret; apply Hr].
    unfold po_hashtable_resize. apply always_bind, always_malloc_bytes; simpl; [apply always_ret, Hr|].
    intros _. apply always_ret. simpl. by apply grow_capacity.
  - intros [r t1] Hc. simpl in *. destruct (_ && _); [by apply always_ret|].
    unfold put_node. destruct (chain_find _ _ _); [by apply always_ret|].
    unfold hashtable_node_create. apply always_bind, always_bind, always_malloc.
    intros []; by apply always_ret, always_ret.
Qed.

Lemma shrink_capacity t :
  roomy t → INITIAL_CAPACITY <= ht_capacity t / 2 → next_prime (ht_capacity t / 2) <= ht_capacity t.
Proof.
  unfold INITIAL_CAPACITY. intros [Hwf Hcap] Hc. unfold MAX_CAPACITY in *.
  etrans; [apply next_prime_doubles; zlia|]. zlia.
Qed.

Lemma remove_capacity t k :
  roomy t →
  always (po_hashtable_remove compare hash_func t k) (λ r, ht_capacity r.2 <= MAX_CAPACITY).
Proof.
  intros Hr. unfold po_hashtable_remove. apply always_bind.
  apply (always_mono _ (λ r, ht_capacity r.2 <= MAX_CAPACITY)).
  - destruct (f32_lt _ _ && _) eqn:E; [|apply always_ret; apply Hr].
    apply andb_true_iff in E as [_ E]. apply Z.leb_le in E.
    unfold po_hashtable_resize. apply always_bind, always_malloc_bytes; simpl; [apply always_ret, Hr|].
    intros _. apply always_ret. simpl. pose proof (shrink_capacity t Hr E). destruct Hr. lia.
  - intros [r t1] Hc. simpl in *. destruct (r =? -1); [by apply always_ret|].
    apply always_ret. unfold remove_node. by destruct (chain_find _ _ _).
Qed.

Lemma remove_succeeds t k :
  roomy t → succeeds (po_hashtable_remove compare hash_func t k) (λ r, 0 <= r.1).
Proof.
  intros Hr. unfold po_hashtable_remove. apply succeeds_bind. apply (succeeds_mono _ (λ r, r.1 = 0)).
  - destruct (f32_lt _ _ && _) eqn:E; [|by apply succeeds_ret].
    apply andb_true_iff in E as [_ E]. apply Z.leb_le in E. apply resize_succeeds.
    pose proof (shrink_capacity t Hr E). destruct Hr.
    unfold MAX_CAPACITY, SIZEOF_PTR, PTRDIFF_MAX in *. lia.
  - intros [r t1] Hr1. simpl in *. subst. simpl. apply succeeds_ret.
    unfold remove_node. by destruct (chain_find _ _ _).
Qed.

(** A put, respectively a remove, as its clients see it while nothing fails. *)
Lemma put_roomy t k v :
  roomy t → D k → ht_size t <= MAX_ENTRIES →
  succeeds (po_hashtable_put compare hash_func t k v) (λ r,
    roomy r.2 ∧
    (∀ k', D k' → ht_find compare hash_func r.2 k' =
       if compare k k' =? 0 then Some v else ht_find compare hash_func t k') ∧
    ht_size r.2 = ht_size t + if ht_find compare hash_func t k is Some _ then 0 else 1).
Proof using Type*.
  intros Hr Hk Hs. pose proof Hr as [Hwf Hcap].
  assert (ht_size t < 2 ^ 64 - 1) as Hs' by (unfold MAX_ENTRIES in Hs; lia).
  eapply succeeds_mono.
  - apply always_succeeds; [apply always_conj; [apply (put_capacity t k v Hr Hs)|]|].
    + apply (law_put (D := D) t k v Hwf Hk Hs').
    + assert (ht_capacity t < 2 ^ 30) by (unfold MAX_CAPACITY in Hcap; lia). by apply (put_succeeds D).
  - intros r ((Hc & Hwf' & Hcase) & Hok). simpl in *.
    destruct Hcase as [(_ & Hf & Hsz & Hr1)|(? & _)]; [|lia].
    split_and!; [by split|done|by rewrite Hsz, Hr1].
Qed.

Lemma remove_roomy t k :
  roomy t → D k → ht_size t <= MAX_ENTRIES →
  succeeds (po_hashtable_remove compare hash_func t k) (λ r,
    roomy r.2 ∧
    (∀ k', D k' → ht_find compare hash_func r.2 k' =
       if compare k k' =? 0 then None else ht_find compare hash_func t k') ∧
    ht_size r.2 = ht_size t - if ht_find compare hash_func t k is Some _ then 1 else 0).
Proof using Type*.
  intros Hr Hk Hs. pose proof Hr as [Hwf Hcap].
  assert (ht_size t < 2 ^ 64 - 1) as Hs' by (unfold MAX_ENTRIES in Hs; lia).
  eapply succeeds_mono.
  - apply always_succeeds; [apply always_conj; [apply (remove_capacity t k Hr)|]|].
    + apply (law_remove (D := D) t k Hwf Hk Hs').
    + by apply remove_succeeds.
  - intros r ((Hc & Hwf' & Hcase) & Hok). simpl in *.
    destruct Hcase as [(Hr1 & Hf & Hsz)|(? & _)]; [|lia].
    split_and!; [by split|done|by rewrite Hsz, Hr1].
Qed.
End growth.

(** ** Properties *)

(** The binary32 load-factor test never asks a table that is at most half
    full to grow, and the capacity it grows to otherwise is the next prime
    after the double: at most four times the old capacity and so less than
    eight times the number of entries. *)
Theorem hashtable_growth_proportionate {K V} (D : K → Prop) (compare : K → K → Z)
    (hash_func : K → Z) (t : po_hashtable K V) :
  ht_wf compare hash_func D t → ht_capacity t <= MAX_CAPACITY →
  f32_lt LOAD_FACTOR_UP_THRESHOLD (po_hashtable_load_factor t) = true →
  ht_capacity t < 2 * ht_size t ∧
  ht_capacity t < next_prime (u64 (ht_capacity t * 2)) <= 4 * ht_capacity t.
Proof.
  unfold MAX_CAPACITY. intros Hwf Hcap Hl.
  pose proof (wf_cap _ _ _ _ Hwf). pose proof (wf_count _ _ _ _ Hwf).
  destruct (Z.le_gt_cases (2 * ht_size t) (ht_capacity t)) as [Hh|Hh].
  { unfold po_hashtable_load_factor in Hl. rewrite half_full_f32 in Hl; [done|lia|lia|lia]. }
  split; [lia|]. rewrite u64_small by lia. split.
  - pose proof (next_prime_pos (ht_capacity t * 2) ltac:(unfold LAST_DIVISOR; lia)). lia.
  - etrans; [apply next_prime_doubles; lia|]. lia.
Qed.

Lemma hashtable_growth_proportionate_witness :
  let t := int_table (map (λ k, (Z.of_nat k, 0)) (seq 0 12)) in
  f32_lt LOAD_FACTOR_UP_THRESHOLD (po_hashtable_load_factor t) = true ∧
  17 < 2 * ht_size t ∧ 17 < next_prime (u64 (17 * 2)) <= 4 * 17.
Proof.
  split; [vm_compute; reflexivity|].
  apply (hashtable_growth_proportionate (λ _, True) int_compare int_hash
    (int_table (map (λ k, (Z.of_nat k, 0)) (seq 0 12)))).
  - apply int_table_wf. vm_compute. reflexivity.
  - vm_compute. discriminate.
  - vm_compute. reflexivity.
Defined.
