(* ===== verification/Hashset.v ===== *)
(** * Chained hash set ([app/libs/ring1/postoffice/hashset/hashset.c])

    The set has its own nodes and its own loops in the source, and its own
    definitions here.  Its lemmas come from a simulation: reading every key as
    a node with a unit value turns a set into a [po_hashtable], and each
    operation of the set into the corresponding one of the table. *)

From Stdlib Require Import ZArith Lia SpecFloat.
From stdpp Require Import base list numbers sets.
From S2P Require Import Prelude Prime Hashtable HashtableGrowth.

Local Open Scope Z_scope.

Record po_hashset (K : Type) : Type := mk_hashset {
  hs_buckets : list (list K);
  hs_capacity : Z;
  hs_size : Z
}.
Arguments mk_hashset {K}.
Arguments hs_buckets {K}.
Arguments hs_capacity {K}.
Arguments hs_size {K}.

Section hashset.
Context {K : Type} (compare : K → K → Z) (hash_func : K → Z).
Implicit Types (set : po_hashset K) (key : K) (chain : list K).

Definition hs_index (cap : Z) (key : K) : nat := Z.to_nat (hash_func key mod cap).

Definition hs_bucket (set : po_hashset K) (key : K) : list K :=
  default [] (hs_buckets set !! hs_index (hs_capacity set) key).

Definition po_hashset_load_factor (set : po_hashset K) : spec_float :=
  if hs_capacity set =? 0 then S754_zero false
  else f32_div (f32_of_Z (hs_size set)) (f32_of_Z (hs_capacity set)).

Definition hashset_node_create (key : K) : alloc (option K) :=
  ok ← malloc; mret (if (ok : bool) then Some key else None).

Definition hs_rehash_node (new_capacity : Z) (new_buckets : list (list K)) (key : K) :
    list (list K) :=
  let i := hs_index new_capacity key in
  <[i := key :: default [] (new_buckets !! i)]> new_buckets.

Definition hs_rehash_chain (new_capacity : Z) (new_buckets : list (list K)) (chain : list K) :
    list (list K) := foldl (hs_rehash_node new_capacity) new_buckets chain.

Definition hashset_resize (set : po_hashset K) (new_capacity : Z) : alloc (Z * po_hashset K) :=
  let new_capacity := next_prime new_capacity in
  ok ← malloc_bytes (new_capacity * SIZEOF_PTR);
  if negb ok then mret (-1, set)
  else
    let new_buckets :=
      foldl (hs_rehash_chain new_capacity) (replicate (Z.to_nat new_capacity) [])
        (hs_buckets set) in
    mret (0, mk_hashset new_buckets new_capacity (hs_size set)).

Definition po_hashset_create_sized (initial_capacity : Z) : alloc (option (po_hashset K)) :=
  ok ← malloc;
  if negb ok then mret None
  else
    let capacity := next_prime initial_capacity in
    ok ← malloc_bytes (capacity * SIZEOF_PTR);
    if negb ok then mret None
    else mret (Some (mk_hashset (replicate (Z.to_nat capacity) []) capacity 0)).

Definition po_hashset_create : alloc (option (po_hashset K)) :=
  po_hashset_create_sized INITIAL_CAPACITY.

Fixpoint hs_chain_mem (chain : list K) (key : K) : bool :=
  match chain with
  | [] => false
  | k :: rest => if compare k key =? 0 then true else hs_chain_mem rest key
  end.

Fixpoint hs_chain_unlink (chain : list K) (key : K) : list K :=
  match chain with
  | [] => []
  | k :: rest => if compare k key =? 0 then rest else k :: hs_chain_unlink rest key
  end.

Definition hs_with_bucket (set : po_hashset K) (key : K) (chain : list K) (size : Z) :
    po_hashset K :=
  mk_hashset (<[hs_index (hs_capacity set) key := chain]> (hs_buckets set))
    (hs_capacity set) size.

Definition hs_add_node (set : po_hashset K) (key : K) : alloc (Z * po_hashset K) :=
  if hs_chain_mem (hs_bucket set key) key then mret (0, set)
  else
    n ← hashset_node_create key;
    match n with
    | None => mret (-1, set)
    | Some n => mret (1, hs_with_bucket set key (n :: hs_bucket set key) (u64 (hs_size set + 1)))
    end.

Definition po_hashset_add (set : po_hashset K) (key : K) : alloc (Z * po_hashset K) :=
  let load_factor := po_hashset_load_factor set in
  r ← (if f32_lt LOAD_FACTOR_UP_THRESHOLD load_factor
       then hashset_resize set (u64 (hs_capacity set * 2)) else mret (0, set));
  if (r.1 =? -1) && f32_lt LOAD_FACTOR_UP_TOLERANCE load_factor then mret (-1, r.2)
  else hs_add_node r.2 key.

Definition po_hashset_remove (set : po_hashset K) (key : K) : alloc (Z * po_hashset K) :=
  if hs_size set =? 0 then mret (0, set)
  else if hs_chain_mem (hs_bucket set key) key then
    let set := hs_with_bucket set key (hs_chain_unlink (hs_bucket set key) key)
                 (u64 (hs_size set - 1)) in
    r ← (if f32_lt (po_hashset_load_factor set) LOAD_FACTOR_DOWN_THRESHOLD &&
            (INITIAL_CAPACITY <=? hs_capacity set / 2)
         then hashset_resize set (hs_capacity set / 2) else mret (0, set));
    if r.1 =? -1 then mret (-1, r.2) else mret (1, r.2)
  else mret (0, set).

Definition po_hashset_contains (set : po_hashset K) (key : K) : bool :=
  hs_chain_mem (hs_bucket set key) key.

Definition po_hashset_clear (set : po_hashset K) : po_hashset K :=
  if hs_size set =? 0 then set
  else mk_hashset (replicate (length (hs_buckets set)) []) (hs_capacity set) 0.

Fixpoint hs_collect_keys (size : Z) (bs : list (list K)) (acc : list K) : list K :=
  match bs with
  | [] => acc
  | chain :: bs =>
      if Z.of_nat (length acc) <? size then hs_collect_keys size bs (acc ++ chain) else acc
  end.

Definition po_hashset_keys (set : po_hashset K) : alloc (option (list K)) :=
  if hs_size set =? 0 then mret None
  else ok ← malloc_bytes (u64 (hs_size set * SIZEOF_PTR));
       mret (if (ok : bool) then Some (hs_collect_keys (hs_size set) (hs_buckets set) []) else None).

(** ** Specification *)

Definition unit_node (key : K) : hashtable_node K unit := mk_node key tt.

(** The set read as a table with unit values. *)
Definition as_table (set : po_hashset K) : po_hashtable K unit :=
  mk_hashtable (map (map unit_node) (hs_buckets set)) (hs_capacity set) (hs_size set).

Definition hs_wf (D : K → Prop) (set : po_hashset K) : Prop :=
  ht_wf compare hash_func D (as_table set).
End hashset.

(** ** Lemmas *)

Section hashset_lemmas.
Context {K : Type} (D : K → Prop) (compare : K → K → Z) (hash_func : K → Z).
Context `{!KeyContract D compare hash_func}.
Implicit Types (set : po_hashset K).
Abbreviation wf := (hs_wf compare hash_func D).

(** [c] on sets simulates [c'] on tables. *)
Definition simulates (c : alloc (Z * po_hashset K)) (c' : alloc (Z * po_hashtable K unit)) : Prop :=
  ∀ m, (c' m) = (((c m).1.1, as_table (c m).1.2), (c m).2).

Lemma simulates_ret r set t : as_table set = t → simulates (mret (r, set)) (mret (r, t)).
Proof. by intros <- m. Qed.

Lemma simulates_bind c c' f f' :
  simulates c c' → (∀ r set, simulates (f (r, set)) (f' (r, as_table set))) →
  simulates (c ≫= f) (c' ≫= f').
Proof.
  intros Hc Hf m. unfold mbind, alloc_bind. rewrite (Hc m).
  destruct (c m) as [[r set] m']. apply Hf.
Qed.

Lemma simulates_malloc {A} (c : alloc A) f f' :
  (∀ a, simulates (f a) (f' a)) → simulates (c ≫= f) (c ≫= f').
Proof. intros Hf m. unfold mbind, alloc_bind. destruct (c m). apply Hf. Qed.

Lemma chain_mem_find (chain : list K) key :
  chain_find compare (map unit_node chain) key =
  if hs_chain_mem compare chain key then Some tt else None.
Proof. induction chain as [|k chain IH]; simpl; [done|]. by destruct (_ =? _). Qed.

Lemma chain_unlink_map (chain : list K) key :
  chain_unlink compare (map unit_node chain) key = map unit_node (hs_chain_unlink compare chain key).
Proof. induction chain as [|k chain IH]; simpl; [done|]. destruct (_ =? _); [done|]. by rewrite IH. Qed.

Lemma chain_replace_unit (chain : list (hashtable_node K unit)) key :
  chain_replace compare chain key tt = chain.
Proof.
  induction chain as [|[k []] chain IH]; simpl; [done|]. destruct (_ =? _); [done|]. by rewrite IH.
Qed.

Lemma bucket_as_table set key :
  bucket hash_func (as_table set) key = map unit_node (hs_bucket hash_func set key).
Proof.
  unfold bucket, hs_bucket, hs_index, bucket_index. simpl.
  change (map (map unit_node)) with (fmap (M := list) (A := list K) (map unit_node)).
  rewrite list_lookup_fmap. by destruct (_ !! _).
Qed.

Lemma with_bucket_as_table set key chain size :
  as_table (hs_with_bucket hash_func set key chain size) =
  with_bucket hash_func (as_table set) key (map unit_node chain) size.
Proof.
  unfold with_bucket, hs_with_bucket, as_table, set_bucket. simpl. f_equal.
  change (map (map unit_node)) with (fmap (M := list) (A := list K) (map unit_node)).
  apply list_fmap_insert.
Qed.

Lemma rehash_node_as_table cap bs key :
  rehash_node hash_func cap (map (map unit_node) bs) (unit_node key) =
  map (map unit_node) (hs_rehash_node hash_func cap bs key).
Proof.
  unfold rehash_node, hs_rehash_node, hs_index, bucket_index. simpl.
  change (map (map unit_node)) with (fmap (M := list) (A := list K) (map unit_node)).
  rewrite list_fmap_insert. simpl. f_equal. rewrite list_lookup_fmap. by destruct (_ !! _).
Qed.

Lemma rehash_as_table cap old bs :
  foldl (rehash_chain hash_func cap) (map (map unit_node) bs) (map (map unit_node) old) =
  map (map unit_node) (foldl (hs_rehash_chain hash_func cap) bs old).
Proof.
  revert bs. induction old as [|chain old IH]; intros bs; simpl; [done|].
  rewrite <- IH. f_equal. clear IH. unfold rehash_chain, hs_rehash_chain. revert bs.
  induction chain as [|k chain IH]; intros bs; simpl; [done|].
  by rewrite rehash_node_as_table, IH.
Qed.

Lemma resize_simulates set cap :
  simulates (hashset_resize hash_func set cap) (po_hashtable_resize hash_func (as_table set) cap).
Proof.
  unfold hashset_resize, po_hashtable_resize. apply simulates_malloc. intros []; simpl.
  - apply simulates_ret. unfold as_table. simpl. rewrite <- rehash_as_table. do 2 f_equal.
    change (map (map unit_node)) with (fmap (M := list) (A := list K) (map unit_node)).
    by rewrite fmap_replicate.
  - by apply simulates_ret.
Qed.

Lemma load_factor_as_table set :
  hs_capacity set ≠ 0 →
  po_hashset_load_factor set = po_hashtable_load_factor (as_table set).
Proof. intros H. unfold po_hashset_load_factor. by rewrite (proj2 (Z.eqb_neq _ _) H). Qed.

Lemma add_simulates set key :
  hs_capacity set ≠ 0 →
  simulates (po_hashset_add compare hash_func set key)
    (po_hashtable_put compare hash_func (as_table set) key tt).
Proof.
  intros Hc. unfold po_hashset_add, po_hashtable_put. rewrite load_factor_as_table by done.
  apply simulates_bind.
  - destruct (f32_lt _ _); [apply resize_simulates|by apply simulates_ret].
  - intros r s. simpl. destruct (_ && _); [by apply simulates_ret|].
    unfold hs_add_node, put_node. rewrite bucket_as_table, chain_mem_find.
    destruct (hs_chain_mem _ _ _).
    + apply simulates_ret. rewrite chain_replace_unit, <- bucket_as_table.
      unfold with_bucket, set_bucket, as_table. simpl. f_equal.
      unfold bucket. simpl.
      destruct (map (map unit_node) (hs_buckets s) !! _) as [c|] eqn:E; simpl.
      * by rewrite list_insert_id.
      * rewrite list_insert_ge; [done|]. by apply lookup_ge_None.
    + unfold hashset_node_create, hashtable_node_create. intros m.
      unfold mbind, alloc_bind, mret, alloc_ret. destruct (malloc m) as [[] m']; simpl; [|done].
      by rewrite with_bucket_as_table.
Qed.

Lemma contains_find set key :
  po_hashset_contains compare hash_func set key =
  if ht_find compare hash_func (as_table set) key is Some _ then true else false.
Proof.
  unfold po_hashset_contains, ht_find. rewrite bucket_as_table, chain_mem_find.
  by destruct (hs_chain_mem _ _ _).
Qed.

Lemma contains_eq set k1 k2 :
  wf set → D k1 → D k2 → compare k1 k2 = 0 →
  po_hashset_contains compare hash_func set k1 = po_hashset_contains compare hash_func set k2.
Proof using Type*. intros. rewrite !contains_find. by rewrite (law_find_eq (D := D) _ k1 k2). Qed.

Lemma contains_empty set :
  wf set → hs_size set = 0 → ∀ k, po_hashset_contains compare hash_func set k = false.
Proof.
  intros Hwf Hz k. rewrite contains_find. unfold ht_find.
  destruct (chain_find _ _ _) as [v|] eqn:E; [|done].
  apply chain_find_Some in E as (c1 & n & c2 & Hc & _).
  assert (n ∈ nodes (as_table set)) as Hn.
  { apply (bucket_submseteq D compare hash_func _ k); [done|]. rewrite Hc. set_solver. }
  pose proof (wf_count _ _ _ _ Hwf) as Hcount. simpl in Hcount. rewrite Hz in Hcount.
  destruct (nodes (as_table set)); [by apply not_elem_of_nil in Hn|simpl in Hcount; lia].
Qed.

Lemma unlink_spec set key :
  wf set → D key → hs_size set < 2 ^ 64 - 1 →
  po_hashset_contains compare hash_func set key = true →
  let s' := hs_with_bucket hash_func set key
    (hs_chain_unlink compare (hs_bucket hash_func set key) key) (u64 (hs_size set - 1)) in
  wf s' ∧ ∀ k, D k → po_hashset_contains compare hash_func s' k =
    negb (compare key k =? 0) && po_hashset_contains compare hash_func set k.
Proof using Type*.
  intros Hwf Hk Hs Hc s'.
  destruct (remove_node_spec D compare hash_func (as_table set) key Hwf Hk Hs) as (Hwf' & _ & Hf & _).
  assert ((remove_node compare hash_func (as_table set) key).2 = as_table s') as E.
  { unfold remove_node, s'. rewrite with_bucket_as_table, <- chain_unlink_map, bucket_as_table, chain_mem_find.
    unfold po_hashset_contains in Hc. by rewrite Hc. }
  rewrite E in *. split; [done|]. intros k Dk. rewrite !contains_find, Hf by done.
  by destruct (_ =? _).
Qed.

Lemma hashset_resize_always set cap :
  wf set → 0 <= cap < 2 ^ 64 →
  always (hashset_resize hash_func set cap) (λ r,
    wf r.2 ∧ (r.1 = 0 ∨ r.1 = -1) ∧
    ∀ k, D k → po_hashset_contains compare hash_func r.2 k = po_hashset_contains compare hash_func set k).
Proof using Type*.
  intros Hwf Hc m. pose proof (resize_always D compare hash_func (as_table set) cap Hwf Hc m) as H.
  rewrite (resize_simulates set cap m) in H. cbn [fst snd] in H.
  destruct H as (Hwf' & Hn & _ & Hr). split_and!; [done|done|]. intros k Dk.
  rewrite !contains_find. by rewrite (find_Permutation D compare hash_func _ (as_table set)).
Qed.
(** [po_hashset_add] with what it does to the size. *)
Lemma add_always set key :
  wf set → D key → hs_size set < 2 ^ 64 - 1 →
  always (po_hashset_add compare hash_func set key) (λ r,
    wf r.2 ∧
    (r.1 = (if po_hashset_contains compare hash_func set key then 0 else 1) ∧ hs_size r.2 = hs_size set + r.1 ∧
      (∀ k, D k → po_hashset_contains compare hash_func r.2 k =
         (compare key k =? 0) || po_hashset_contains compare hash_func set k) ∨
     r.1 = -1 ∧ hs_size r.2 = hs_size set ∧ ∀ k, D k → po_hashset_contains compare hash_func r.2 k =
         po_hashset_contains compare hash_func set k)).
Proof using Type*.
  intros Hwf Hk Hs m.
  assert (hs_capacity set ≠ 0) as Hc by (pose proof (wf_cap _ _ _ _ Hwf) as H; simpl in H; lia).
  pose proof (law_put (V := unit) (D := D) (as_table set) key tt Hwf Hk Hs m) as H.
  rewrite (add_simulates set key Hc m) in H.
  cbn [fst snd] in H. destruct H as [Hwf' Hcase]. split; [exact Hwf'|].
  destruct Hcase as [(_ & Hf & Hsz & Hr)|(Hr & Hf & Hsz)]; [left|right].
  - split_and!; [rewrite Hr, contains_find; by destruct (ht_find _ _ _ _)|exact Hsz|].
    intros k Dk. rewrite !contains_find, Hf by done. by destruct (_ =? _).
  - split_and!; [done|exact Hsz|]. intros k Dk. by rewrite !contains_find, Hf.
Qed.

(** Without allocation failure a small set takes the key. *)
Lemma add_roomy set key :
  wf set → hs_capacity set <= MAX_CAPACITY → D key → hs_size set <= MAX_ENTRIES →
  succeeds (po_hashset_add compare hash_func set key) (λ r, 0 <= r.1 ∧ hs_capacity r.2 <= MAX_CAPACITY).
Proof using Type*.
  intros Hwf Hcap Hk Hs m Hm.
  assert (hs_capacity set ≠ 0) as Hc by (pose proof (wf_cap _ _ _ _ Hwf) as H; simpl in H; lia).
  destruct (put_roomy D compare hash_func (as_table set) key tt (conj Hwf Hcap) Hk Hs m Hm) as [(Hr & Hf & Hsz) Hm'].
  destruct (put_succeeds D compare hash_func (as_table set) key tt Hwf
    ltac:(unfold MAX_CAPACITY in Hcap; simpl; lia) m Hm) as [Hp _].
  rewrite (add_simulates set key Hc m) in *. cbn [fst snd] in *. split; [|done]. split; [done|apply Hr].
Qed.

End hashset_lemmas.

(** ** Properties *)

(** [po_hashset_add] refines insertion into a set, for every allocator
    outcome: on success exactly the keys equal to the argument become members
    and the result is 1 iff the key was new; on failure membership is as
    before. *)
Theorem hashset_add_refines_insert {K} (D : K → Prop) (compare : K → K → Z) (hash_func : K → Z)
    (set : po_hashset K) (key : K) :
  KeyContract D compare hash_func →
  hs_wf compare hash_func D set → D key → hs_size set < 2 ^ 64 - 1 →
  always (po_hashset_add compare hash_func set key) (λ r,
    hs_wf compare hash_func D r.2 ∧
    (r.1 = (if po_hashset_contains compare hash_func set key then 0 else 1) ∧
      (∀ k, D k → po_hashset_contains compare hash_func r.2 k =
         (compare key k =? 0) || po_hashset_contains compare hash_func set k) ∨
     r.1 = -1 ∧ ∀ k, D k → po_hashset_contains compare hash_func r.2 k =
         po_hashset_contains compare hash_func set k)).
Proof.
  intros HK Hwf Hk Hs. eapply always_mono; [by apply (add_always D)|].
  intros r (Hwf' & [(Hr & _ & Hf)|(Hr & _ & Hf)]); auto.
Qed.

Definition int_set (ks : list Z) : po_hashset Z :=
  foldl (λ s k, (po_hashset_add int_compare int_hash s k []).1.2)
    (mk_hashset (replicate 19 []) 19 0) ks.

Lemma int_set_empty_wf : hs_wf int_compare int_hash (λ _, True) (int_set []).
Proof.
  apply (create_sized_always (V := unit) (λ _ : Z, True) int_compare int_hash 19 ltac:(lia) []).
Qed.

Lemma int_set_5_wf : hs_wf int_compare int_hash (λ _, True) (int_set [5]).
Proof.
  pose proof (law_put (V := unit) (D := λ _ : Z, True) (as_table (int_set [])) 5 tt
    int_set_empty_wf I eq_refl []) as [H _].
  rewrite (add_simulates int_compare int_hash (int_set []) 5 ltac:(done) []) in H. exact H.
Qed.

Lemma hashset_add_refines_insert_witness :
  (po_hashset_add int_compare int_hash (int_set []) 5 []).1.1 = 1 ∧
  po_hashset_contains int_compare int_hash (po_hashset_add int_compare int_hash (int_set []) 5 []).1.2 5
    = true ∧
  hs_wf int_compare int_hash (λ _, True) (po_hashset_add int_compare int_hash (int_set []) 5 []).1.2.
Proof.
  split; [reflexivity|]. split; [reflexivity|].
  apply (hashset_add_refines_insert (λ _, True) int_compare int_hash (int_set []) 5
    int_contract int_set_empty_wf); done.
Defined.

(** [po_hashset_remove] refines deletion from a set whatever it returns:
    membership of every other key is untouched, the key is gone, and the
    result is 0 exactly when the key was absent.  This includes the result -1,
    which means that the key was removed and the array could then not be
    shrunk (the header documents only 1 and 0). *)
Theorem hashset_remove_refines_delete {K} (D : K → Prop) (compare : K → K → Z) (hash_func : K → Z)
    (set : po_hashset K) (key : K) :
  KeyContract D compare hash_func →
  hs_wf compare hash_func D set → D key → hs_size set < 2 ^ 64 - 1 →
  always (po_hashset_remove compare hash_func set key) (λ r,
    hs_wf compare hash_func D r.2 ∧
    (r.1 = 0 ↔ po_hashset_contains compare hash_func set key = false) ∧
    ∀ k, D k → po_hashset_contains compare hash_func r.2 k =
      negb (compare key k =? 0) && po_hashset_contains compare hash_func set k).
Proof.
  intros HK Hwf Hk Hs. unfold po_hashset_remove.
  case (Z.eqb_spec (hs_size set) 0); intros Hz.
  { apply always_ret. simpl. pose proof (contains_empty D compare hash_func set Hwf Hz) as He.
    split_and!; [done|by rewrite He|]. intros k Dk. by rewrite He, andb_false_r. }
  fold (po_hashset_contains compare hash_func set key).
  destruct (po_hashset_contains compare hash_func set key) eqn:Ec.
  - destruct (unlink_spec D compare hash_func set key Hwf Hk Hs Ec) as [Hwf1 Hm1].
    set (s1 := hs_with_bucket _ _ _ _ _) in *. apply always_bind.
    apply (always_mono _ (λ r, hs_wf compare hash_func D r.2 ∧ (r.1 = 0 ∨ r.1 = -1) ∧
      ∀ k, D k → po_hashset_contains compare hash_func r.2 k =
                 po_hashset_contains compare hash_func s1 k)).
    + destruct (_ && _); [|apply always_ret; by auto].
      apply (hashset_resize_always D compare hash_func s1); [done|].
      pose proof (wf_cap _ _ _ _ Hwf1) as Hcap.
      change (0 < hs_capacity s1 < 2 ^ 64) in Hcap. clearbody s1.
      change (0 <= hs_capacity s1 / 2 < 2 ^ 64). zlia.
    + intros [r s2] (Hwf2 & Hr & Hm2). simpl in *.
      destruct (r =? -1); apply always_ret; simpl; (split_and!; [done|done|]);
        intros k Dk; by rewrite Hm2, Hm1.
  - apply always_ret. simpl. split_and!; [done|done|]. intros k Dk.
    case (Z.eqb_spec (compare key k) 0); intros E; [|done]. simpl.
    by rewrite <- (contains_eq D compare hash_func set key k).
Qed.

Lemma hashset_remove_refines_delete_witness :
  (po_hashset_remove int_compare int_hash (int_set [5]) 5 []).1.1 = 1 ∧
  po_hashset_contains int_compare int_hash (int_set [5]) 5 = true ∧
  po_hashset_contains int_compare int_hash
    (po_hashset_remove int_compare int_hash (int_set [5]) 5 []).1.2 5 = false.
Proof.
  split; [reflexivity|]. split; [reflexivity|].
  apply (hashset_remove_refines_delete (λ _, True) int_compare int_hash (int_set [5]) 5
    int_contract int_set_5_wf I eq_refl []). exact I.
Defined.
