(* ===== verification/PriorityQueue.v ===== *)
(** * Indexed priority queue ([app/libs/ring1/postoffice/priority_queue/priority_queue.c])

    A binary min-heap in a [po_vector] and a [po_hashtable] from elements to
    their positions.  The queue ignores the results of its table operations,
    and the model with it; the theorems on complete runs ask that no
    allocation fails and the queue holds at most [MAX_ENTRIES] elements, below
    which [HashtableGrowth] shows the table operations succeed.

    The heap argument is about lists: [hole] states the heap order everywhere
    but around one position, and each sifting step moves the hole. *)

From Stdlib Require Import ZArith Lia Sorted.
From stdpp Require Import base list numbers sets sorting.
From S2P Require Import Prelude Prime Vector Hashtable HashtableGrowth.

Local Open Scope Z_scope.

Record po_priority_queue (P : Type) : Type := mk_pq {
  heap : po_vector P;
  index_map : po_hashtable P Z
}.
Arguments mk_pq {P}.
Arguments heap {P}.
Arguments index_map {P}.

Section priority_queue.
Context {P : Type} `{EqDecision P} (NULL junk : P) (compare : P → P → Z) (hash_func : P → Z).
Abbreviation queue := (po_priority_queue P).
Abbreviation at_ h i := (po_vector_at NULL junk h i).1.

Definition po_priority_queue_create : alloc (option queue) :=
  ok ← malloc;
  if negb ok then mret None
  else
    heap ← po_vector_create junk;
    match heap with
    | None => mret None
    | Some heap =>
        index_map ← po_hashtable_create;
        match index_map with
        | None => mret None
        | Some index_map => mret (Some (mk_pq heap index_map))
        end
    end.

Definition set_index (pq : queue) (element : P) (index : Z) : alloc queue :=
  r ← po_hashtable_put compare hash_func (index_map pq) element index;
  mret (mk_pq (heap pq) r.2).

Definition swap_nodes (pq : queue) (i j : Z) : alloc queue :=
  let elem_i := at_ (heap pq) i in
  let elem_j := at_ (heap pq) j in
  let h := (po_vector_set (heap pq) i elem_j).2 in
  let h := (po_vector_set h j elem_i).2 in
  pq ← set_index (mk_pq h (index_map pq)) elem_j i;
  set_index pq elem_i j.

(** [while (index > 0)]; the index at least halves, so [index] rounds do. *)
Fixpoint sift_up (fuel : nat) (pq : queue) (index : Z) : alloc queue :=
  match fuel with
  | O => mret pq
  | S fuel =>
      if 0 <? index then
        let parent := (index - 1) / 2 in
        let elem := at_ (heap pq) index in
        let p_elem := at_ (heap pq) parent in
        if compare elem p_elem <? 0 then
          pq ← swap_nodes pq index parent; sift_up fuel pq parent
        else mret pq
      else mret pq
  end.

(** [if (child < size && compare(child, smallest) < 0) smallest = child;] *)
Definition pick (h : po_vector P) (size child : Z) (smallest : Z * P) : Z * P :=
  if child <? size then
    let c_elem := at_ h child in
    if compare c_elem smallest.2 <? 0 then (child, c_elem) else smallest
  else smallest.

(** The position [sift_down] swaps with: [index] itself when it is in order. *)
Definition smallest_child (h : po_vector P) (size index : Z) : Z :=
  let left := u64 (2 * index + 1) in
  let right := u64 (2 * index + 2) in
  (pick h size right (pick h size left (index, at_ h index))).1.

(** [while (1)]; the index grows with every round that does not leave. *)
Fixpoint sift_down_loop (fuel : nat) (size : Z) (pq : queue) (index : Z) : alloc queue :=
  match fuel with
  | O => mret pq
  | S fuel =>
      let smallest := smallest_child (heap pq) size index in
      if negb (smallest =? index) then
        pq ← swap_nodes pq index smallest; sift_down_loop fuel size pq smallest
      else mret pq
  end.

Definition sift_down (pq : queue) (index : Z) : alloc queue :=
  let size := po_vector_size (heap pq) in
  sift_down_loop (Z.to_nat size) size pq index.

Definition po_priority_queue_push (pq : queue) (element : P) : alloc (Z * option errno * queue) :=
  if decide (element = NULL) then mret (-1, None, pq)
  else if po_hashtable_contains_key compare hash_func (index_map pq) element
  then mret (-1, Some EEXIST, pq)
  else
    r ← po_vector_push junk (heap pq) element;
    if negb (r.1 =? 0) then mret (-1, None, mk_pq r.2 (index_map pq))
    else
      let index := po_vector_size r.2 - 1 in
      pq ← set_index (mk_pq r.2 (index_map pq)) element index;
      pq ← sift_up (Z.to_nat index) pq index;
      mret (0, None, pq).

Definition po_priority_queue_pop (pq : queue) : alloc (P * queue) :=
  if po_vector_size (heap pq) =? 0 then mret (NULL, pq)
  else
    let last_idx := po_vector_size (heap pq) - 1 in
    let root := at_ (heap pq) 0 in
    if last_idx =? 0 then
      let h := (po_vector_pop NULL junk (heap pq)).2 in
      r ← po_hashtable_remove compare hash_func (index_map pq) root;
      mret (root, mk_pq h r.2)
    else
      pq ← swap_nodes pq 0 last_idx;
      let h := (po_vector_pop NULL junk (heap pq)).2 in
      r ← po_hashtable_remove compare hash_func (index_map pq) root;
      pq ← sift_down (mk_pq h r.2) 0;
      mret (root, pq).

Definition po_priority_queue_peek (pq : queue) : P :=
  if po_vector_size (heap pq) =? 0 then NULL else at_ (heap pq) 0.

Definition po_priority_queue_remove (pq : queue) (element : P) : alloc (Z * queue) :=
  if decide (element = NULL) then mret (-1, pq)
  else if negb (po_hashtable_contains_key compare hash_func (index_map pq) element)
  then mret (-1, pq)
  else
    let index := po_hashtable_get compare hash_func 0 (index_map pq) element in
    let last_idx := po_vector_size (heap pq) - 1 in
    if index =? last_idx then
      let h := (po_vector_pop NULL junk (heap pq)).2 in
      r ← po_hashtable_remove compare hash_func (index_map pq) element;
      mret (0, mk_pq h r.2)
    else
      let last_elem := at_ (heap pq) last_idx in
      pq ← swap_nodes pq index last_idx;
      let h := (po_vector_pop NULL junk (heap pq)).2 in
      r ← po_hashtable_remove compare hash_func (index_map pq) element;
      let pq := mk_pq h r.2 in
      if (0 <? index) && (compare last_elem (at_ (heap pq) ((index - 1) / 2)) <? 0) then
        pq ← sift_up (Z.to_nat index) pq index; mret (0, pq)
      else pq ← sift_down pq index; mret (0, pq).

Definition po_priority_queue_size (pq : queue) : Z := po_vector_size (heap pq).
Definition po_priority_queue_is_empty (pq : queue) : bool := po_vector_is_empty (heap pq).

(** ** Specification *)

Definition pq_elements (pq : queue) : list P := vec_contents (heap pq).

Definition parent (c : nat) : nat := (c - 1) / 2.

(** The elements at two positions, where there are such, are in order. *)
Definition ord (l : list P) (p c : nat) : Prop :=
  ∀ x y, l !! p = Some x → l !! c = Some y → compare x y <= 0.

Definition heap_ordered (l : list P) : Prop := ∀ c, (0 < c)%nat → ord l (parent c) c.

(** Position of a key in the heap, which the index map must report. *)
Definition at_index (l : list P) (k : P) (i : Z) : Prop :=
  0 <= i ∧ ∃ x, l.[i] = Some x ∧ compare x k = 0.

(** [pq] represents the heap [l], order apart: the vector holds [l], whose
    elements are valid keys and pairwise different, and the index map sends
    each key to its position and nothing else. *)
Record pq_repr (D : P → Prop) (pq : queue) (l : list P) : Prop := mk_pq_repr {
  repr_vec : vec_wf (heap pq);
  repr_contents : vec_contents (heap pq) = l;
  repr_map : roomy D compare hash_func (index_map pq);
  repr_dom : Forall D l;
  repr_distinct : ∀ i j x y, l !! i = Some x → l !! j = Some y → compare x y = 0 → i = j;
  repr_index : ∀ k, D k → ∀ i,
    ht_find compare hash_func (index_map pq) k = Some i ↔ at_index l k i;
  repr_count : ht_size (index_map pq) = Z.of_nat (length l);
  repr_vec_room : vec_capacity (heap pq) <= 2 ^ 58
}.

Definition pq_wf (D : P → Prop) (pq : queue) : Prop :=
  pq_repr D pq (pq_elements pq) ∧ heap_ordered (pq_elements pq).
End priority_queue.

(** ** Heap order on lists *)

Section heap_lists.
Context {P : Type} (D : P → Prop) (compare : P → P → Z) `{!TotalOrderOn D compare}.
Abbreviation ord := (ord compare).
Abbreviation heap_ordered := (heap_ordered compare).
Implicit Types l : list P.

(** Heap order away from position [i], and across it. *)
Definition hole l (i : nat) : Prop :=
  (∀ c, (0 < c)%nat → c ≠ i → parent c ≠ i → ord l (parent c) c) ∧
  (∀ c, (0 < c)%nat → (0 < i)%nat → parent c = i → ord l (parent i) c).

Definition up_inv l i : Prop := hole l i ∧ ∀ c, (0 < c)%nat → parent c = i → ord l i c.
Definition down_inv l i : Prop := hole l i ∧ ((0 < i)%nat → ord l (parent i) i).

(** Exchange of two cells, by lookups. *)
Definition exchange l (i j : nat) (x y : P) : list P := <[i := y]> (<[j := x]> l).

Lemma parent_lt c : (0 < c → parent c < c)%nat.
Proof. unfold parent. intros. apply Nat.Div0.div_lt_upper_bound. lia. Qed.

Lemma parent_child i c : (0 < c)%nat → parent c = i ↔ c = (2 * i + 1)%nat ∨ c = (2 * i + 2)%nat.
Proof.
  intros Hc. unfold parent. pose proof (Nat.div_mod_eq (c - 1) 2).
  pose proof (Nat.mod_upper_bound (c - 1) 2). lia.
Qed.

Lemma lookup_exchange l i j x y k :
  l !! i = Some x → l !! j = Some y →
  exchange l i j x y !! k = if decide (k = i) then Some y else if decide (k = j) then Some x else l !! k.
Proof.
  intros Hi Hj. apply lookup_lt_Some in Hi, Hj. unfold exchange.
  destruct (decide (k = i)) as [->|].
  - rewrite list_lookup_insert_eq; [done|]. by rewrite length_insert.
  - rewrite list_lookup_insert_ne by done. destruct (decide (k = j)) as [->|].
    + by rewrite list_lookup_insert_eq.
    + by rewrite list_lookup_insert_ne.
Qed.

Lemma hole_insert l i z : heap_ordered l → Forall D l → hole (<[i := z]> l) i.
Proof using Type*.
  intros Ho HD. split.
  - intros c Hc Hci Hpi x y. rewrite !list_lookup_insert_ne by done. by apply Ho.
  - intros c Hc Hi <- x y.
    pose proof (parent_lt c Hc). pose proof (parent_lt (parent c) Hi).
    rewrite !list_lookup_insert_ne by lia. intros Hx Hy.
    destruct (lookup_lt_is_Some_2 l (parent c)) as [w Hw]; [apply lookup_lt_Some in Hy; lia|].
    apply (cmp_trans x w y); try by eapply Forall_lookup_1.
    + by apply (Ho (parent c)).
    + by apply (Ho c).
Qed.

Lemma up_done l i :
  up_inv l i → (0 < i)%nat ∧ ord l (parent i) i ∨ i = 0%nat → heap_ordered l.
Proof.
  intros [[H1 H2] H3] Hi c Hc. destruct (decide (c = i)) as [->|].
  - destruct Hi as [[_ Hi]| ->]; [done|lia].
  - destruct (decide (parent c = i)) as [E|]; [rewrite E; auto|auto].
Qed.

Lemma down_done l i :
  down_inv l i → (∀ c, (0 < c)%nat → parent c = i → ord l i c) → heap_ordered l.
Proof.
  intros [[H1 H2] H3] Hi c Hc. destruct (decide (c = i)) as [->|]; [auto|].
  destruct (decide (parent c = i)) as [E|]; [rewrite E; auto|auto].
Qed.

Lemma up_step l i x y :
  up_inv l i → Forall D l → (0 < i)%nat → l !! i = Some x → l !! parent i = Some y →
  compare x y < 0 → up_inv (exchange l i (parent i) x y) (parent i).
Proof using Type*.
  intros [[H1 H2] H3] HD Hi Hx Hy Hlt. pose proof (parent_lt i Hi) as Hpi. set (p := parent i) in *.
  assert (∀ k, exchange l i p x y !! k =
    if decide (k = i) then Some y else if decide (k = p) then Some x else l !! k) as Hl
    by (intros; by apply lookup_exchange).
  assert (D x ∧ D y) as [Dx Dy] by (split; by eapply Forall_lookup_1).
  split; [split|].
  - intros c Hc Hcp Hpc a b. rewrite !Hl, (decide_False (P := c = p)) by done.
    rewrite (decide_False (P := c = i)) by (intros ->; done).
    destruct (decide (parent c = i)) as [E|E].
    + intros [= <-] Hb. by apply (H2 c).
    + rewrite decide_False by done. apply H1; [done|by intros ->|done].
  - intros c Hc Hp Hpc a b. pose proof (parent_lt p Hp) as Hpp. rewrite !Hl.
    rewrite (decide_False (P := parent p = i)), (decide_False (P := parent p = p)) by lia.
    assert (ord l (parent p) p) as Hpord by (apply H1; lia).
    intros Ha. destruct (decide (c = i)) as [->|Hci].
    + intros [= <-]. by apply Hpord.
    + rewrite decide_False by (pose proof (parent_lt c Hc); lia). intros Hb.
      apply (cmp_trans a y b); try (by eapply Forall_lookup_1); [by apply Hpord|].
      assert (ord l p c) as H by (rewrite <- Hpc; apply H1; [done|done|lia]). by apply H.
  - intros c Hc Hpc a b. rewrite !Hl. rewrite (decide_False (P := p = i)), decide_True by lia.
    intros [= <-]. destruct (decide (c = i)) as [->|Hci]; [intros [= <-]; lia|].
    rewrite decide_False by (pose proof (parent_lt c Hc); lia). intros Hb.
    apply (cmp_trans x y b); try (by eapply Forall_lookup_1); [lia|].
    assert (ord l p c) as H by (rewrite <- Hpc; apply H1; [done|done|lia]). by apply H.
Qed.

Lemma down_step l i s x y :
  down_inv l i → (0 < s)%nat → parent s = i → l !! i = Some x → l !! s = Some y →
  compare y x <= 0 → (∀ c, (0 < c)%nat → parent c = i → ord l s c) →
  down_inv (exchange l i s x y) s.
Proof.
  intros [[H1 H2] H3] Hs Hps Hx Hy Hle Hmin. pose proof (parent_lt s Hs) as His. rewrite Hps in His.
  assert (∀ k, exchange l i s x y !! k =
    if decide (k = i) then Some y else if decide (k = s) then Some x else l !! k) as Hl
    by (intros; by apply lookup_exchange).
  split; [split|].
  - intros c Hc Hcs Hpc a b. rewrite !Hl. rewrite (decide_False (P := c = s)) by done.
    rewrite (decide_False (P := parent c = s)) by done.
    pose proof (parent_lt c Hc). destruct (decide (c = i)) as [->|Hci].
    + rewrite decide_False by lia. intros Ha [= <-]. by apply (H2 s).
    + destruct (decide (parent c = i)) as [E|E].
      * intros [= <-] Hb. by apply (Hmin c).
      * by apply H1.
  - intros c Hc _ Hpc a b. pose proof (parent_lt c Hc). rewrite Hps, !Hl, decide_True by done.
    rewrite !decide_False by lia. intros [= <-] Hb. subst s. by apply (H1 c); [|lia|lia|..].
  - intros _ a b. rewrite Hps, !Hl, decide_True by done. rewrite decide_False, decide_True by lia.
    by intros [= <-] [= <-].
Qed.
(** A heap's first element is a least one. *)
Lemma heap_ordered_head l x : heap_ordered l → Forall D l → l !! 0%nat = Some x →
  ∀ i y, l !! i = Some y → compare x y <= 0.
Proof using Type*.
  intros Ho HD Hx i. induction i as [i IH] using lt_wf_ind. intros y Hy.
  destruct i as [|i]; [simplify_eq; rewrite cmp_refl; [lia|by eapply Forall_lookup_1]|].
  pose proof (parent_lt (S i) ltac:(lia)) as Hlt.
  destruct (lookup_lt_is_Some_2 l (parent (S i))) as [w Hw]; [apply lookup_lt_Some in Hy; lia|].
  apply (cmp_trans x w y); try (by eapply Forall_lookup_1); [by eapply IH|].
  by apply (Ho (S i)); [lia|..].
Qed.

Lemma ordered_snoc l x : heap_ordered l → up_inv (l ++ [x]) (length l).
Proof.
  intros Ho. assert (∀ c, (0 < c)%nat → parent c = length l → (l ++ [x]) !! c = None) as Hn.
  { intros c Hc Hp. apply lookup_ge_None. rewrite length_app. simpl. pose proof (parent_lt c Hc). lia. }
  split; [split|].
  - intros c Hc Hcl Hp a b Ha Hb. pose proof (parent_lt c Hc).
    assert (c < length l)%nat by (apply lookup_lt_Some in Hb; rewrite length_app in Hb; simpl in Hb; lia).
    rewrite lookup_app_l in Ha, Hb by lia. by apply (Ho c).
  - intros c Hc Hl Hp a b _ Hb. by rewrite Hn in Hb.
  - intros c Hc Hp a b _ Hb. by rewrite Hn in Hb.
Qed.

Lemma hole_down l i : hole l i → (0 < i → ord l (parent i) i)%nat → down_inv l i.
Proof. by split. Qed.

(** Dropping the last element keeps the heap order, and a hole. *)
Lemma ordered_prefix l k : heap_ordered (l ++ k) → heap_ordered l.
Proof.
  intros Ho c Hc a b Ha Hb. apply (Ho c Hc).
  - apply lookup_app_l_Some, Ha.
  - apply lookup_app_l_Some, Hb.
Qed.
End heap_lists.

(** ** Lemmas *)

Section pq_lemmas.
Context {P : Type} `{EqDecision P} (NULL junk : P) (D : P → Prop).
Context (compare : P → P → Z) (hash_func : P → Z).
Context `{!TotalOrderOn D compare} `{!KeyContract D compare hash_func}.
Abbreviation queue := (po_priority_queue P).
Abbreviation repr := (pq_repr compare hash_func D).
Abbreviation find := (ht_find compare hash_func).
Implicit Types (pq : queue) (l : list P).

Definition distinct l : Prop :=
  ∀ i j x y, l !! i = Some x → l !! j = Some y → compare x y = 0 → i = j.

Lemma at_index_unique l k i j :
  distinct l → Forall D l → D k → at_index compare l k i → at_index compare l k j → i = j.
Proof using Type*.
  intros Hd HD Hk (Hi & x & Hx & Ex) (Hj & y & Hy & Ey).
  assert (D x ∧ D y) as [Dx Dy] by (split; by eapply Forall_lookup_1).
  assert (Z.to_nat i = Z.to_nat j); [|lia]. apply (Hd _ _ x y Hx Hy).
  apply (key_trans _ k); [done..|]. by apply key_sym.
Qed.

Lemma distinct_exchange l i j x y :
  distinct l → l !! i = Some x → l !! j = Some y → distinct (exchange l i j x y).
Proof.
  intros Hd Hi Hj a b u v. rewrite !(lookup_exchange l i j x y) by done.
  set (σ k := if decide (k = i) then j else if decide (k = j) then i else k).
  assert (∀ k, (if decide (k = i) then Some y else if decide (k = j) then Some x else l !! k) = l !! σ k)
    as Hσ by (intros k; unfold σ; repeat case_decide; congruence).
  rewrite !Hσ. intros Hu Hv E. pose proof (Hd _ _ _ _ Hu Hv E) as H. unfold σ in H.
  repeat case_decide; congruence.
Qed.

Lemma at_index_exchange l i j x y k a :
  0 <= i → 0 <= j → l.[i] = Some x → l.[j] = Some y → distinct l → Forall D l → D k →
  at_index compare (exchange l (Z.to_nat i) (Z.to_nat j) x y) k a ↔
  (if compare x k =? 0 then a = j else if compare y k =? 0 then a = i else at_index compare l k a).
Proof using Type*.
  intros Hi Hj Hx Hy Hd HD Hk. set (l' := exchange _ _ _ _ _).
  assert (∀ b, l' !! b = if decide (b = Z.to_nat i) then Some y
    else if decide (b = Z.to_nat j) then Some x else l !! b) as Hl by (intros; by apply lookup_exchange).
  assert (distinct l') as Hd' by by apply distinct_exchange.
  assert (Forall D l') as HD'.
  { unfold l', exchange. by rewrite (insert_swap_Permutation _ _ _ _ _ Hx Hy). }
  assert (compare x k = 0 → at_index compare l' k j) as H1.
  { intros E. destruct (decide (Z.to_nat j = Z.to_nat i)) as [Ej|Ej].
    - split; [done|]. exists y. rewrite Hl, decide_True by done. split; [done|]. rewrite Ej in Hy. congruence.
    - split; [done|]. exists x. by rewrite Hl, decide_False, decide_True. }
  assert (compare y k = 0 → at_index compare l' k i) as H2.
  { intros E. split; [done|]. exists y. by rewrite Hl, decide_True. }
  case (Z.eqb_spec (compare x k) 0); intros Ex.
  { split; [intros Ha; by apply (at_index_unique l' k a j); auto|intros ->; auto]. }
  case (Z.eqb_spec (compare y k) 0); intros Ey.
  { split; [intros Ha; by apply (at_index_unique l' k a i); auto|intros ->; auto]. }
  unfold at_index. split; intros (Ha & z & Hz & Ez); split; try done; exists z; split; try done.
  - rewrite Hl in Hz. repeat case_decide; congruence.
  - rewrite Hl. repeat case_decide; congruence.
Qed.

Section accessors.
Context pq l (Hpq : repr pq l).

Lemma repr_at i x : 0 <= i → l.[i] = Some x → (po_vector_at NULL junk (heap pq) i).1 = x.
Proof using Hpq.
  intros Hi Hx. rewrite (po_vector_at_lookup NULL junk (heap pq) i x); [done|apply Hpq|done|].
  by rewrite (repr_contents _ _ _ _ _ Hpq).
Qed.

Lemma repr_size : po_vector_size (heap pq) = Z.of_nat (length l).
Proof using Hpq.
  rewrite <- (repr_contents _ _ _ _ _ Hpq), length_contents by apply Hpq.
  pose proof (wf_size _ (repr_vec _ _ _ _ _ Hpq)). unfold po_vector_size. lia.
Qed.

Lemma repr_contains k : D k →
  po_hashtable_contains_key compare hash_func (index_map pq) k = true ↔ ∃ i, at_index compare l k i.
Proof using Hpq.
  intros Hk. unfold po_hashtable_contains_key. fold (find (index_map pq) k).
  setoid_rewrite <- (repr_index _ _ _ _ _ Hpq k Hk). destruct (find (index_map pq) k) as [i|]; naive_solver.
Qed.
End accessors.

Lemma set_index_spec pq x i :
  roomy D compare hash_func (index_map pq) → D x → ht_size (index_map pq) <= MAX_ENTRIES →
  succeeds (set_index compare hash_func pq x i) (λ pq',
    heap pq' = heap pq ∧ roomy D compare hash_func (index_map pq') ∧
    (∀ k, D k → find (index_map pq') k = if compare x k =? 0 then Some i else find (index_map pq) k) ∧
    ht_size (index_map pq') = ht_size (index_map pq) + if find (index_map pq) x is Some _ then 0 else 1).
Proof using Type*.
  intros Hr Hx Hs. unfold set_index. apply succeeds_bind.
  eapply succeeds_mono; [apply (put_roomy D); done|].
  intros [r m] (? & ? & ?). by apply succeeds_ret.
Qed.

Lemma swap_nodes_spec pq l i j x y :
  repr pq l → Z.of_nat (length l) <= MAX_ENTRIES → 0 <= i → 0 <= j → i ≠ j →
  l.[i] = Some x → l.[j] = Some y →
  succeeds (swap_nodes NULL junk compare hash_func pq i j) (λ pq',
    repr pq' (exchange l (Z.to_nat i) (Z.to_nat j) x y)).
Proof using Type*.
  intros Hpq Hlen Hi Hj Hij Hx Hy. pose proof Hpq as [Hv Hc Hm HD Hd Hidx Hcnt Hroom].
  assert (D x ∧ D y) as [Dx Dy] by (split; by eapply Forall_lookup_1).
  unfold swap_nodes. rewrite (repr_at pq l Hpq i x), (repr_at pq l Hpq j y) by done.
  pose proof (lookup_lt_Some _ _ _ Hx). pose proof (lookup_lt_Some _ _ _ Hy).
  pose proof (repr_size pq l Hpq) as Hsz. unfold po_vector_size in Hsz.
  destruct (set_spec (heap pq) i y Hv ltac:(lia)) as (h1 & -> & Hv1 & Hc1 & Hs1 & Hcap1).
  destruct (set_spec h1 j x Hv1 ltac:(lia)) as (h2 & E2 & Hv2 & Hc2 & Hs2 & Hcap2).
  cbn [snd]. rewrite E2. cbn [snd].
  assert (find (index_map pq) y = Some j) as Fy.
  { apply Hidx; [done|]. split; [done|]. exists y. split; [done|by apply key_refl]. }
  assert (find (index_map pq) x = Some i) as Fx.
  { apply Hidx; [done|]. split; [done|]. exists x. split; [done|by apply key_refl]. }
  apply succeeds_bind. eapply succeeds_mono; [apply (set_index_spec _ y i); simpl; [done|done|lia]|].
  intros [h3 m3]. simpl. intros (-> & Hr3 & Hf3 & Hs3). rewrite Fy in Hs3.
  eapply succeeds_mono; [apply (set_index_spec _ x j); simpl; [done|done|lia]|].
  intros [h4 m4]. simpl. intros (-> & Hr4 & Hf4 & Hs4).
  assert (∃ v, find m3 x = Some v) as [v Fx3].
  { rewrite Hf3 by done. case (_ =? _); eauto. }
  rewrite Fx3 in Hs4. constructor; simpl; try done.
  - rewrite Hc2, Hc1, Hc. unfold exchange. apply list_insert_insert_ne. lia.
  - unfold exchange. by rewrite (insert_swap_Permutation _ _ _ _ _ Hx Hy).
  - by apply distinct_exchange.
  - intros k Hk a. rewrite at_index_exchange, Hf4, Hf3 by done.
    case (_ =? _); [naive_solver|]. case (_ =? _); [naive_solver|]. by apply Hidx.
  - unfold exchange. rewrite !length_insert. lia.
  - lia.
Qed.

Lemma exchange_Permutation l i j x y :
  l !! i = Some x → l !! j = Some y → exchange l i j x y ≡ₚ l.
Proof. apply insert_swap_Permutation. Qed.

Lemma exchange_length l i j x y : length (exchange l i j x y) = length l.
Proof. unfold exchange. by rewrite !length_insert. Qed.

Lemma to_nat_parent i : 0 < i → Z.to_nat ((i - 1) / 2) = parent (Z.to_nat i).
Proof. intros. unfold parent. rewrite Z2Nat.inj_div by lia. f_equal. lia. Qed.

Lemma sift_up_spec fuel pq l i :
  repr pq l → Z.of_nat (length l) <= MAX_ENTRIES →
  0 <= i < Z.of_nat (length l) → (Z.to_nat i <= fuel)%nat → up_inv compare l (Z.to_nat i) →
  succeeds (sift_up NULL junk compare hash_func fuel pq i) (λ pq',
    ∃ l', repr pq' l' ∧ l' ≡ₚ l ∧ heap_ordered compare l').
Proof using Type*.
  revert pq l i. induction fuel as [|fuel IH]; intros pq l i Hpq Hlen Hi Hf Hup; simpl.
  { apply succeeds_ret. exists l. split_and!; [done|done|]. apply (up_done _ _ _ Hup). right. lia. }
  case (Z.ltb_spec 0 i); intros Hi0.
  2: { apply succeeds_ret. exists l. split_and!; [done|done|]. apply (up_done _ _ _ Hup). right. lia. }
  destruct (lookup_lt_is_Some_2 l (Z.to_nat i)) as [x Hx]; [lia|].
  destruct (lookup_lt_is_Some_2 l (Z.to_nat ((i - 1) / 2))) as [y Hy]; [zlia|].
  rewrite (repr_at pq l Hpq i x), (repr_at pq l Hpq _ y) by (done || zlia).
  pose proof (repr_dom _ _ _ _ _ Hpq) as HD.
  assert (D x ∧ D y) as [Dx Dy] by (split; by eapply Forall_lookup_1).
  case (Z.ltb_spec (compare x y) 0); intros Hlt.
  - apply succeeds_bind.
    eapply succeeds_mono; [apply (swap_nodes_spec pq l _ _ x y Hpq Hlen); done || zlia|].
    intros pq' Hpq'. simpl. rewrite to_nat_parent in Hpq', Hy by lia.
    eapply succeeds_mono; [eapply (IH _ _ _ Hpq')|].
    + by rewrite exchange_length.
    + rewrite exchange_length. zlia.
    + rewrite to_nat_parent by lia. pose proof (parent_lt (Z.to_nat i)). lia.
    + rewrite to_nat_parent by lia. apply (up_step D); [done|done|apply Hpq|lia|done|done|done].
    + intros pq2 (l' & Hr & Hp & Ho). exists l'. split_and!; [done| |done].
      by rewrite Hp, exchange_Permutation.
  - apply succeeds_ret. exists l. split_and!; [done|done|]. apply (up_done _ _ _ Hup). left.
    split; [lia|]. rewrite <- to_nat_parent by lia. intros a b Ha Hb. simplify_eq.
    by apply (cmp_nlt D compare); [..|lia].
Qed.

Lemma pick_spec pq l c s y :
  repr pq l → 0 <= c → l.[s] = Some y →
  ∃ s' y', pick NULL junk compare (heap pq) (Z.of_nat (length l)) c (s, y) = (s', y') ∧
    l.[s'] = Some y' ∧ compare y' y <= 0 ∧ (∀ z, l.[c] = Some z → compare y' z <= 0) ∧
    (s' = s ∧ y' = y ∨ s' = c ∧ compare y' y < 0 ∧ c < Z.of_nat (length l)).
Proof using Type*.
  intros Hpq Hc Hy. unfold pick.
  assert (∀ z k, l !! k = Some z → D z) as HD
    by (intros z k Hk; pose proof (repr_dom _ _ _ _ _ Hpq); by eapply Forall_lookup_1).
  assert (compare y y = 0) as Hyy by (by eapply cmp_refl, HD).
  case (Z.ltb_spec c (Z.of_nat (length l))); intros Hlt.
  - destruct (lookup_lt_is_Some_2 l (Z.to_nat c)) as [z Hz]; [lia|].
    rewrite (repr_at pq l Hpq c z) by done. simpl.
    assert (compare z z = 0) as Hzz by (by eapply cmp_refl, HD).
    case (Z.ltb_spec (compare z y) 0); intros Hzy.
    + exists c, z. split_and!; [done|done|lia| |auto]. intros ? [= <-]%(eq_trans (eq_sym Hz)). lia.
    + exists s, y. split_and!; [done|done|lia| |auto]. intros ? [= <-]%(eq_trans (eq_sym Hz)).
      apply (cmp_nlt D compare); [by eapply HD|by eapply HD|lia].
  - exists s, y. split_and!; [done|done|lia| |auto]. intros z Hz.
    apply lookup_lt_Some in Hz. lia.
Qed.

Lemma smallest_child_spec pq l i x :
  repr pq l → Z.of_nat (length l) <= MAX_ENTRIES → 0 <= i → l.[i] = Some x →
  let s := smallest_child NULL junk compare (heap pq) (Z.of_nat (length l)) i in
  ∃ y, l.[s] = Some y ∧
    (∀ c, (0 < c)%nat → parent c = Z.to_nat i → ord compare l (Z.to_nat s) c) ∧
    (s = i ∨ i < s < Z.of_nat (length l) ∧ parent (Z.to_nat s) = Z.to_nat i ∧ compare y x < 0).
Proof using Type*.
  intros Hpq Hlen Hi Hx. pose proof (lookup_lt_Some _ _ _ Hx) as Hilt. unfold MAX_ENTRIES in Hlen.
  unfold smallest_child. rewrite !u64_small by lia. rewrite (repr_at pq l Hpq i x) by done.
  destruct (pick_spec pq l (2 * i + 1) i x Hpq ltac:(lia) Hx) as (s1 & y1 & -> & Hs1 & Hle1 & Hc1 & Hw1).
  destruct (pick_spec pq l (2 * i + 2) s1 y1 Hpq ltac:(lia) Hs1) as (s2 & y2 & -> & Hs2 & Hle2 & Hc2 & Hw2).
  assert (∀ z k, l !! k = Some z → D z) as HD
    by (intros z k Hk; pose proof (repr_dom _ _ _ _ _ Hpq); by eapply Forall_lookup_1).
  assert (∀ a b, compare a b < 0 → D a → D b → compare b a <= 0 → False) as Hasym.
  { intros a b H Ha Hb. apply (cmp_sgn a b) in H; [lia|done..]. }
  cbn [fst]. exists y2. split; [done|]. split.
  - intros c Hc Hp u v Hu Hv. simplify_eq. apply parent_child in Hp as [-> | ->]; [| |done].
    + apply (cmp_trans y2 y1 v); try (by eapply HD); [done|]. apply Hc1. rewrite <- Hv. f_equal. lia.
    + apply Hc2. rewrite <- Hv. f_equal. lia.
  - assert (∀ k, k = 2 * i + 1 ∨ k = 2 * i + 2 → parent (Z.to_nat k) = Z.to_nat i) as Hpar
      by (intros k [-> | ->]; apply parent_child; lia).
    assert (compare y1 x < 0 → compare y2 x < 0) as Htr.
    { intros H1. destruct (Z.lt_ge_cases (compare y2 x) 0) as [|H2]; [done|]. exfalso.
      apply (Hasym y1 x H1); [by eapply HD..|]. apply (cmp_trans x y2 y1); try (by eapply HD); [|done].
      apply (cmp_nlt D compare); [by eapply HD..|lia]. }
    destruct Hw2 as [[-> ->]|(-> & H2 & ?)]; destruct Hw1 as [[-> ->]|(-> & H1 & ?)]; auto; right.
    + split; [lia|]. auto.
    + split; [lia|]. auto.
    + split; [lia|]. auto.
Qed.

Lemma sift_down_spec fuel pq l i :
  repr pq l → Z.of_nat (length l) <= MAX_ENTRIES → 0 <= i < Z.of_nat (length l) →
  (length l - Z.to_nat i <= fuel)%nat → down_inv compare l (Z.to_nat i) →
  succeeds (sift_down_loop NULL junk compare hash_func fuel (Z.of_nat (length l)) pq i) (λ pq',
    ∃ l', repr pq' l' ∧ l' ≡ₚ l ∧ heap_ordered compare l').
Proof using Type*.
  revert pq l i. induction fuel as [|fuel IH]; intros pq l i Hpq Hlen Hi Hf Hdown; simpl; [lia|].
  destruct (lookup_lt_is_Some_2 l (Z.to_nat i)) as [x Hx]; [lia|].
  destruct (smallest_child_spec pq l i x Hpq Hlen ltac:(lia) Hx) as (y & Hy & Hch & Hs).
  set (s := smallest_child _ _ _ _ _ _) in *.
  case (Z.eqb_spec s i); intros Hsi; simpl.
  - rewrite Hsi in *. apply succeeds_ret. exists l. split_and!; [done|done|].
    by apply (down_done _ _ _ Hdown).
  - destruct Hs as [?|(Hslt & Hpar & Hlt)]; [done|]. apply succeeds_bind.
    eapply succeeds_mono; [apply (swap_nodes_spec pq l i s x y Hpq Hlen); done || lia|].
    intros pq' Hpq'. simpl. set (l2 := exchange _ _ _ _ _) in *.
    assert (length l2 = length l) as Hl2 by apply exchange_length.
    rewrite <- Hl2 in Hlen, Hslt, Hi, Hf |- *.
    eapply succeeds_mono; [apply (IH _ l2 s Hpq' Hlen)|].
    + lia.
    + lia.
    + apply down_step; [done|lia|done|done|done|lia|done].
    + intros pq2 (l' & Hr & Hp & Ho). exists l'. split_and!; [done| |done].
      unfold l2 in Hp. by rewrite Hp, exchange_Permutation.
Qed.

Lemma at_index_snoc l x k i :
  at_index compare (l ++ [x]) k i ↔
  at_index compare l k i ∨ i = Z.of_nat (length l) ∧ compare x k = 0.
Proof.
  unfold at_index. split.
  - intros (Hi & y & Hy & E). apply lookup_app_Some in Hy as [Hy|[Hge Hy]]; [left; eauto|right].
    pose proof (lookup_lt_Some _ _ _ Hy) as Hlt. simpl in Hlt.
    replace (Z.to_nat i - length l)%nat with 0%nat in Hy by lia. simplify_eq/=. split; [lia|done].
  - intros [(Hi & y & Hy & E)|[-> E]]; (split; [lia|]).
    + exists y. split; [by apply lookup_app_l_Some|done].
    + exists x. split; [|done]. by apply list_lookup_middle; lia.
Qed.

Lemma distinct_snoc l x :
  distinct l → Forall D l → D x → (¬ ∃ i, at_index compare l x i) → distinct (l ++ [x]).
Proof using Type*.
  intros Hd HD Hx Hn i j u v Hu Hv E.
  assert (∀ k w, l !! k = Some w → compare w x ≠ 0) as Hne.
  { intros k w Hk Ew. apply Hn. exists (Z.of_nat k). split; [lia|]. exists w. by rewrite Nat2Z.id. }
  assert (∀ k w, (l ++ [x]) !! k = Some w → l !! k = Some w ∨ k = length l ∧ w = x) as Hsp.
  { intros k w [Hk|[Hge Hk]]%lookup_app_Some; [auto|]. pose proof (lookup_lt_Some _ _ _ Hk) as Hlt.
    simpl in Hlt. replace (k - length l)%nat with 0%nat in Hk by lia. simplify_eq/=. right. split; [lia|done]. }
  destruct (Hsp _ _ Hu) as [Hu'|[-> ->]], (Hsp _ _ Hv) as [Hv'|[-> ->]]; [by eapply Hd| | |done].
  - by destruct (Hne _ _ Hu').
  - destruct (Hne _ _ Hv'). apply key_sym; [done|by eapply Forall_lookup_1|done].
Qed.

Lemma push_repr pq l h x :
  repr pq l → Z.of_nat (length l) < MAX_ENTRIES →
  vec_wf h → vec_contents h = l ++ [x] → vec_capacity h <= 2 ^ 58 →
  D x → (¬ ∃ i, at_index compare l x i) →
  succeeds (set_index compare hash_func (mk_pq h (index_map pq)) x (Z.of_nat (length l)))
    (λ pq', repr pq' (l ++ [x])).
Proof using Type*.
  intros Hpq Hlen Hh Hc Hcap Hx Hn. pose proof Hpq as [Hv Hl Hm HD Hd Hidx Hcnt Hroom].
  eapply succeeds_mono; [apply set_index_spec; simpl; [done|done|lia]|].
  intros [h' m] (Eh & Hr & Hf & Hs). simpl in *. subst h'.
  assert (find (index_map pq) x = None) as Fx.
  { destruct (find (index_map pq) x) as [i|] eqn:E; [|done]. apply Hidx in E; [|done]. destruct Hn. eauto. }
  rewrite Fx in Hs. constructor; simpl; try done.
  - apply Forall_app. auto.
  - by apply distinct_snoc.
  - intros k Hk i. rewrite Hf, at_index_snoc by done.
    case (Z.eqb_spec (compare x k) 0); intros E.
    + split; [intros [= <-]; auto|]. intros [Hi|[-> _]]; [|done].
      destruct Hn. exists i. destruct Hi as (? & y & Hy & Ey). split; [done|]. exists y. split; [done|].
      assert (D y) by by eapply Forall_lookup_1.
      apply (key_trans _ k); [done..|]. by apply key_sym.
    + rewrite Hidx by done. naive_solver.
  - rewrite length_app. simpl. lia.
Qed.

Lemma distinct_prefix l x : distinct (l ++ [x]) → distinct l.
Proof. intros Hd i j u v Hu Hv. apply Hd; by apply lookup_app_l_Some. Qed.

Lemma pop_last_spec pq l x k :
  repr pq (l ++ [x]) → Z.of_nat (length (l ++ [x])) <= MAX_ENTRIES → D k → compare x k = 0 →
  succeeds (po_hashtable_remove compare hash_func (index_map pq) k) (λ r,
    repr (mk_pq (po_vector_pop NULL junk (heap pq)).2 r.2) l).
Proof using Type*.
  intros Hpq Hlen Hk Ek. pose proof Hpq as [Hv Hl Hm HD Hd Hidx Hcnt Hroom].
  pose proof HD as HD'. apply Forall_app in HD' as [HDl HDx]. apply Forall_cons_1 in HDx as [Hx _].
  destruct (pop_spec NULL junk (heap pq) l x Hv Hl) as (h & -> & Hwf & Hc & Hcap). simpl.
  eapply succeeds_mono; [apply (remove_roomy D compare hash_func); [done|done|lia]|].
  intros [r m] (Hr & Hf & Hs). simpl in *.
  assert (find (index_map pq) k = Some (Z.of_nat (length l))) as Fk.
  { apply Hidx; [done|]. apply at_index_snoc. auto. }
  rewrite Fk in Hs. constructor; simpl; try done.
  - by eapply distinct_prefix.
  - intros k' Hk' i. rewrite Hf by done. case (Z.eqb_spec (compare k k') 0); intros E.
    + split; [done|]. intros Hi.
      assert (i = Z.of_nat (length l)) as ->.
      { apply (at_index_unique (l ++ [x]) k'); [done..| |]; apply at_index_snoc; [by left|right].
        split; [done|]. by apply (key_trans _ k). }
      destruct Hi as (_ & y & Hy & _). apply lookup_lt_Some in Hy. lia.
    + rewrite Hidx, at_index_snoc by done. split; [|auto]. intros [?|[-> E']]; [done|].
      destruct E. apply (key_trans _ x); [done..| |done]. by apply key_sym.
  - rewrite length_app in Hcnt. simpl in Hcnt. lia.
  - lia.
Qed.

Lemma repr_elements pq l : repr pq l → pq_elements pq = l.
Proof. intros Hpq. apply Hpq. Qed.

Lemma sifted pq' l' :
  repr pq' l' → heap_ordered compare l' → pq_wf compare hash_func D pq' ∧ pq_elements pq' = l'.
Proof. intros Hr Ho. pose proof (repr_elements _ _ Hr) as E. unfold pq_wf. by rewrite E. Qed.

Lemma push_lemma pq x :
  pq_wf compare hash_func D pq → Z.of_nat (length (pq_elements pq)) < MAX_ENTRIES → D x → x ≠ NULL →
  succeeds (po_priority_queue_push NULL junk compare hash_func pq x) (λ r,
    pq_wf compare hash_func D r.2 ∧
    (r.1 = (0, None) ∧ pq_elements r.2 ≡ₚ x :: pq_elements pq ∧
       (¬ ∃ i, at_index compare (pq_elements pq) x i) ∨
     r.1 = (-1, Some EEXIST) ∧ r.2 = pq ∧ ∃ i, at_index compare (pq_elements pq) x i)).
Proof using Type*.
  intros [Hpq Ho] Hlen Hx Hnull. set (l := pq_elements pq) in *. unfold po_priority_queue_push.
  rewrite decide_False by done. pose proof (repr_contains pq l Hpq x Hx) as Hcont.
  destruct (po_hashtable_contains_key _ _ _ _).
  { apply succeeds_ret. split; [done|]. right. split_and!; [done|done|]. by apply Hcont. }
  assert (¬ ∃ i, at_index compare l x i) as Hn by (intros H; by apply Hcont in H).
  pose proof Hpq as [Hv Hl Hm HD Hd Hidx Hcnt Hroom]. apply succeeds_bind.
  pose proof (repr_size pq l Hpq) as Hsz. unfold po_vector_size in Hsz. unfold MAX_ENTRIES in Hlen.
  eapply succeeds_mono.
  { apply always_succeeds; [apply always_conj|].
    - apply (push_always junk (heap pq) x Hv).
    - apply push_capacity; [done|lia|done].
    - apply push_succeeds; [done|lia]. }
  intros [r h] [[(Hh & Hcase) Hcap] Hr]. simpl in *. subst r. simpl.
  destruct Hcase as [[_ Hc]|[? _]]; [|done]. rewrite Hl in Hc.
  assert (po_vector_size h - 1 = Z.of_nat (length l)) as ->.
  { pose proof (length_contents h Hh) as E. rewrite Hc, length_app in E. simpl in E.
    pose proof (wf_size _ Hh). unfold po_vector_size. lia. }
  apply succeeds_bind.
  eapply succeeds_mono; [apply (push_repr pq l h x); done|]. intros pq1 Hpq1. simpl.
  apply succeeds_bind. eapply succeeds_mono; [apply (sift_up_spec _ pq1 (l ++ [x]) _ Hpq1)|].
  - rewrite length_app. simpl. unfold MAX_ENTRIES. lia.
  - rewrite length_app. simpl. lia.
  - done.
  - rewrite Nat2Z.id. by apply ordered_snoc.
  - intros pq2 (l' & Hr & Hp & Ho'). apply succeeds_ret. cbn [fst snd].
    destruct (sifted pq2 l' Hr Ho') as [Hwf' ->].
    split; [done|]. left. split_and!; [done| |done]. rewrite Hp. by rewrite <- Permutation_cons_append.
Qed.

Lemma exchange_last l z x i :
  (i < length l)%nat → exchange (l ++ [z]) i (length l) x z = <[i := z]> l ++ [x].
Proof.
  intros Hi. unfold exchange. rewrite <- (Nat.add_0_r (length l)), insert_app_r. simpl.
  by rewrite insert_app_l.
Qed.

(** Exchanging position [i] with the last cell, dropping it and its key. *)
Lemma extract_spec {A} pq l z i x k (f : queue → alloc A) Q :
  repr pq (l ++ [z]) → Z.of_nat (length (l ++ [z])) <= MAX_ENTRIES → 0 <= i → l.[i] = Some x →
  D k → compare x k = 0 →
  (∀ pq', repr pq' (<[Z.to_nat i := z]> l) → succeeds (f pq') Q) →
  succeeds (pq1 ← swap_nodes NULL junk compare hash_func pq i (Z.of_nat (length l));
            r ← po_hashtable_remove compare hash_func (index_map pq1) k;
            f (mk_pq (po_vector_pop NULL junk (heap pq1)).2 r.2)) Q.
Proof using Type*.
  intros Hpq Hlen Hi Hx Hk Ek Hf. pose proof (lookup_lt_Some _ _ _ Hx) as Hlt.
  apply succeeds_bind. eapply succeeds_mono.
  { apply (swap_nodes_spec pq (l ++ [z]) i (Z.of_nat (length l)) x z); try done; try lia.
    - by apply lookup_app_l_Some.
    - by apply list_lookup_middle; lia. }
  intros pq1 Hpq1. simpl. rewrite Nat2Z.id, exchange_last in Hpq1 by done.
  apply succeeds_bind. eapply succeeds_mono; [apply (pop_last_spec pq1 _ x k Hpq1); try done|].
  - rewrite length_app, length_insert. by rewrite length_app in Hlen.
  - intros r Hr. by apply Hf.
Qed.

Lemma snoc_of_size pq l n :
  repr pq l → po_vector_size (heap pq) - 1 = n → 0 <= n →
  ∃ l' z, l = l' ++ [z] ∧ n = Z.of_nat (length l').
Proof.
  intros Hpq Hs Hn. rewrite (repr_size pq l Hpq) in Hs. destruct l as [|z l' _] using rev_ind; [simpl in *; lia|].
  exists l', z. split; [done|]. rewrite length_app in Hs. simpl in Hs. lia.
Qed.

Lemma pop_lemma pq :
  pq_wf compare hash_func D pq → Z.of_nat (length (pq_elements pq)) <= MAX_ENTRIES →
  succeeds (po_priority_queue_pop NULL junk compare hash_func pq) (λ r,
    pq_wf compare hash_func D r.2 ∧
    (pq_elements pq = [] ∧ r = (NULL, pq) ∨
     pq_elements pq ≡ₚ r.1 :: pq_elements r.2 ∧ ∀ y, y ∈ pq_elements pq → compare r.1 y <= 0)).
Proof using Type*.
  intros [Hpq Ho] Hlen. set (l := pq_elements pq) in *. unfold po_priority_queue_pop.
  pose proof (repr_size pq l Hpq) as Hsz.
  case (Z.eqb_spec (po_vector_size (heap pq)) 0); intros Hz.
  { apply succeeds_ret. split; [done|]. left. split; [|done]. apply nil_length_inv. lia. }
  destruct (snoc_of_size pq l _ Hpq eq_refl ltac:(lia)) as (l0 & z & El & Elast).
  destruct (lookup_lt_is_Some_2 l 0) as [x Hx]; [lia|].
  rewrite (repr_at pq l Hpq 0 x) by done. rewrite Elast.
  pose proof (repr_dom _ _ _ _ _ Hpq) as HD.
  assert (∀ y, y ∈ l → compare x y <= 0) as Hmin.
  { intros y [i Hy]%list_elem_of_lookup. by eapply (heap_ordered_head D compare l). }
  assert (D x) as Dx by by eapply Forall_lookup_1. clearbody l. subst l.
  case (Z.eqb_spec (Z.of_nat (length l0)) 0); intros Hl0.
  - destruct l0; [|done]. simpl in Hx. injection Hx as ->. apply succeeds_bind.
    eapply succeeds_mono; [apply (pop_last_spec pq [] x x Hpq Hlen Dx); by apply key_refl|].
    intros r Hr. apply succeeds_ret. simpl.
    destruct (sifted _ _ Hr) as [Hwf' ->]; [by intros c Hc a b|]. auto.
  - destruct l0 as [|x0 l1]; [done|]. simpl in Hx. injection Hx as ->.
    apply (extract_spec pq (x :: l1) z 0 x x (λ pq,
      pq ← sift_down NULL junk compare hash_func pq 0; mret (x, pq))); try done; [by apply key_refl|].
    intros pq' Hpq'. apply succeeds_bind. unfold sift_down. rewrite (repr_size _ _ Hpq').
    eapply succeeds_mono; [apply (sift_down_spec _ pq' _ 0 Hpq'); rewrite ?length_insert|].
    + rewrite length_app in Hlen. lia.
    + simpl. lia.
    + lia.
    + split; [|lia]. apply (hole_insert D compare); [by eapply ordered_prefix|].
      by apply Forall_app in HD as [].
    + intros r (l' & Hr & Hp & Ho'). apply succeeds_ret. cbn [fst snd].
      destruct (sifted _ _ Hr Ho') as [Hwf' ->]. split; [done|]. right. split; [|done].
      rewrite Hp. simpl. constructor. by rewrite <- Permutation_cons_append.
Qed.

(** The two ways [po_priority_queue_remove] repairs the hole it leaves. *)
Lemma repair_spec pq l i z x :
  repr pq (<[Z.to_nat i := z]> l) → Z.of_nat (length l) <= MAX_ENTRIES →
  heap_ordered compare l → Forall D l → D z → 0 <= i → l.[i] = Some x →
  succeeds (if (0 <? i) && (compare z (po_vector_at NULL junk (heap pq) ((i - 1) / 2)).1 <? 0)
            then pq ← sift_up NULL junk compare hash_func (Z.to_nat i) pq i; mret (0, pq)
            else pq ← sift_down NULL junk compare hash_func pq i; mret (0, pq)) (λ r,
    r.1 = 0 ∧ ∃ l', repr r.2 l' ∧ l' ≡ₚ <[Z.to_nat i := z]> l ∧ heap_ordered compare l').
Proof using Type*.
  intros Hpq Hlen Ho HD Dz Hi Hx. pose proof (lookup_lt_Some _ _ _ Hx) as Hlt.
  pose proof (hole_insert D compare l (Z.to_nat i) z Ho HD) as Hh. set (l' := <[Z.to_nat i := z]> l) in *.
  assert (length l' = length l) as Hl' by apply length_insert.
  assert (l' !! Z.to_nat i = Some z) as Hz by by apply list_lookup_insert_eq.
  destruct (_ && _) eqn:E; apply succeeds_bind.
  - apply andb_true_iff in E as [Hi0 E]. apply Z.ltb_lt in Hi0, E.
    destruct (lookup_lt_is_Some_2 l' (Z.to_nat ((i - 1) / 2))) as [p Hp]; [rewrite Hl'; zlia|].
    rewrite (repr_at pq l' Hpq _ p) in E by (done || zlia).
    eapply succeeds_mono; [apply (sift_up_spec _ pq l' i Hpq); [lia|lia|done|split; [done|]]|].
    + rewrite to_nat_parent in Hp by lia.
      pose proof (parent_lt (Z.to_nat i) ltac:(lia)) as Hpi. unfold l' in Hp.
      rewrite list_lookup_insert_ne in Hp by lia.
      intros c Hc Hpc a b Ha Hb. pose proof (parent_lt c Hc). rewrite Hz in Ha. injection Ha as <-.
      unfold l' in Hb. rewrite list_lookup_insert_ne in Hb by lia.
      assert (compare p x <= 0) by (apply (Ho (Z.to_nat i)); [lia|done|done]).
      assert (compare x b <= 0) by (apply (Ho c Hc); [by rewrite Hpc|done]).
      assert (D p ∧ D x ∧ D b) as (Dp & Dx & Db) by (split_and!; by eapply Forall_lookup_1).
      apply (cmp_trans z x b); [done..| |done]. apply (cmp_trans z p x); [done..|lia|done].
    + intros r (l2 & ? & ? & ?). apply succeeds_ret. eauto 10.
  - unfold sift_down. rewrite (repr_size _ _ Hpq).
    eapply succeeds_mono; [apply (sift_down_spec _ pq l' i Hpq); [lia|lia|lia|split; [done|]]|].
    + intros Hi0 a b Ha Hb. rewrite Hz in Hb. injection Hb as <-.
      rewrite <- to_nat_parent in Ha by lia. rewrite (repr_at pq l' Hpq _ a) in E by (done || zlia).
      rewrite (proj2 (Z.ltb_lt 0 i)) in E by lia. simpl in E. apply Z.ltb_ge in E.
      apply (cmp_nlt D compare); [done| |lia]. eapply Forall_lookup_1; [|exact Ha].
      apply (repr_dom _ _ _ _ _ Hpq).
    + intros r (l2 & ? & ? & ?). apply succeeds_ret. eauto 10.
Qed.

Lemma remove_lemma pq x :
  pq_wf compare hash_func D pq → Z.of_nat (length (pq_elements pq)) <= MAX_ENTRIES → D x → x ≠ NULL →
  succeeds (po_priority_queue_remove NULL junk compare hash_func pq x) (λ r,
    pq_wf compare hash_func D r.2 ∧
    (r.1 = 0 ∧ (∃ y, compare y x = 0 ∧ pq_elements pq ≡ₚ y :: pq_elements r.2) ∨
     r = (-1, pq) ∧ ¬ ∃ i, at_index compare (pq_elements pq) x i)).
Proof using Type*.
  intros [Hpq Ho] Hlen Hx Hnull. set (l := pq_elements pq) in *. unfold po_priority_queue_remove.
  rewrite decide_False by done. pose proof (repr_contains pq l Hpq x Hx) as Hcont.
  destruct (po_hashtable_contains_key _ _ _ _) eqn:Ec; simpl.
  2: { apply succeeds_ret. split; [done|]. right. split; [done|]. intros H. by apply Hcont in H. }
  destruct (proj1 Hcont eq_refl) as [i Hi].
  assert (po_hashtable_get compare hash_func 0 (index_map pq) x = i) as ->.
  { apply (repr_index _ _ _ _ _ Hpq) in Hi; [|done]. unfold po_hashtable_get.
    unfold ht_find in Hi. by rewrite Hi. }
  destruct Hi as (Hi & y & Hy & Ey). pose proof (lookup_lt_Some _ _ _ Hy) as Hlt.
  destruct (snoc_of_size pq l _ Hpq eq_refl) as (l0 & z & El & Elast).
  { rewrite (repr_size pq l Hpq). lia. }
  pose proof (repr_dom _ _ _ _ _ Hpq) as HD. rewrite Elast. clearbody l. subst l.
  pose proof HD as HD'. apply Forall_app in HD' as [HD0 HDz]. apply Forall_cons_1 in HDz as [Dz _].
  case (Z.eqb_spec i (Z.of_nat (length l0))); intros Hil.
  - subst i. rewrite list_lookup_middle in Hy by lia. injection Hy as ->. apply succeeds_bind.
    eapply succeeds_mono; [apply (pop_last_spec pq l0 y x Hpq Hlen Hx Ey)|].
    intros r Hr. apply succeeds_ret. cbn [fst snd].
    destruct (sifted _ _ Hr) as [Hwf' ->]; [by eapply ordered_prefix|].
    split; [done|]. left. split; [done|]. exists y. split; [done|]. by rewrite <- Permutation_cons_append.
  - rewrite length_app in Hlt, Hlen. simpl in Hlt, Hlen.
    rewrite lookup_app_l in Hy by lia.
    rewrite (repr_at pq (l0 ++ [z]) Hpq _ z) by (lia || (apply list_lookup_middle; lia)).
    apply (extract_spec pq l0 z i y x (λ pq,
      if (0 <? i) && (compare z (po_vector_at NULL junk (heap pq) ((i - 1) / 2)).1 <? 0)
      then pq ← sift_up NULL junk compare hash_func (Z.to_nat i) pq i; mret (0, pq)
      else pq ← sift_down NULL junk compare hash_func pq i; mret (0, pq)));
      try done; [rewrite length_app; simpl; lia|].
    intros pq' Hpq'. eapply succeeds_mono; [apply (repair_spec pq' l0 i z y); try done|].
    + lia.
    + by eapply ordered_prefix.
    + intros r (Hr & l' & Hrep & Hp & Ho'). destruct (sifted _ _ Hrep Ho') as [Hwf' ->].
      split; [done|]. left. split; [done|]. exists y. split; [done|]. rewrite Hp.
      rewrite <- Permutation_cons_append. by apply insert_Permutation_cons.
Qed.

Lemma pq_create_lemma :
  succeeds (po_priority_queue_create (P := P) junk) (λ r,
    ∃ pq, r = Some pq ∧ pq_wf compare hash_func D pq ∧ pq_elements pq = []).
Proof using Type*.
  unfold po_priority_queue_create. apply succeeds_bind, succeeds_malloc. simpl.
  apply succeeds_bind. eapply succeeds_mono; [apply create_succeeds|].
  intros r (v & -> & Hv & Hc & Hcap). apply succeeds_bind. eapply succeeds_mono.
  { apply always_succeeds; [apply (create_sized_always D compare hash_func INITIAL_CAPACITY)|].
    - unfold INITIAL_CAPACITY. lia.
    - unfold po_hashtable_create_sized. apply succeeds_bind, succeeds_malloc. simpl.
      apply (succeeds_bind _ _ is_Some), succeeds_malloc_bytes; [done|].
      simpl. apply succeeds_ret. eauto. }
  intros r (Hr & [m ->]). destruct Hr as (Hwf & Hs & Hcm & Hf). apply succeeds_ret.
  exists (mk_pq v m). split; [done|]. unfold pq_elements. simpl. rewrite Hc. split; [|done].
  split; unfold pq_elements; simpl; rewrite Hc.
  - constructor; simpl; try done; [split; [done|rewrite Hcm; done]| |lia].
    intros k Hk i. rewrite Hf. split; [done|]. by intros (_ & y & Hy & _).
  - by intros c Hc' a b.
Qed.
End pq_lemmas.

(** Client loop [while (!is_empty(pq)) out = pop(pq)]. *)
Section drain.
Context {P : Type} `{EqDecision P} (NULL junk : P) (compare : P → P → Z) (hash_func : P → Z).

Fixpoint pq_drain (fuel : nat) (pq : po_priority_queue P) : alloc (list P) :=
  match fuel with
  | O => mret []
  | S fuel =>
      if po_priority_queue_is_empty pq then mret []
      else
        r ← po_priority_queue_pop NULL junk compare hash_func pq;
        out ← pq_drain fuel r.2;
        mret (r.1 :: out)
  end.

Lemma drain_lemma (D : P → Prop) `{!TotalOrderOn D compare} `{!KeyContract D compare hash_func}
    fuel pq :
  pq_wf compare hash_func D pq → Z.of_nat (length (pq_elements pq)) <= MAX_ENTRIES →
  (length (pq_elements pq) <= fuel)%nat →
  succeeds (pq_drain fuel pq) (λ out,
    out ≡ₚ pq_elements pq ∧ StronglySorted (λ a b, compare a b <= 0) out).
Proof.
  revert pq. induction fuel as [|fuel IH]; intros pq Hwf Hlen Hf; simpl.
  { apply succeeds_ret. assert (pq_elements pq = []) as -> by (apply nil_length_inv; lia).
    split; [done|constructor]. }
  unfold po_priority_queue_is_empty, po_vector_is_empty.
  pose proof (repr_size D compare hash_func pq _ (proj1 Hwf)) as Hs. unfold po_vector_size in Hs.
  case (Z.eqb_spec (vec_size (heap pq)) 0); intros Hz.
  { apply succeeds_ret. assert (pq_elements pq = []) as -> by (apply nil_length_inv; lia).
    split; [done|constructor]. }
  apply succeeds_bind. eapply succeeds_mono; [by apply (pop_lemma NULL junk D compare hash_func)|].
  intros [x pq'] (Hwf' & [[E _]|(Hp & Hmin)]); simpl in *.
  { rewrite E in Hs. simpl in Hs. lia. }
  pose proof (Permutation_length Hp) as Hl. simpl in Hl.
  apply succeeds_bind. eapply succeeds_mono; [apply (IH pq'); [done|lia|lia]|].
  intros out (Hout & Hsort). apply succeeds_ret. split; [by rewrite Hp, Hout|].
  constructor; [done|]. apply Forall_forall. intros y Hy. apply Hmin. rewrite Hp, <- Hout. by right.
Qed.
End drain.

(** ** Properties *)

(** C5. [po_priority_queue_push], while allocations succeed, adds exactly the
    element to the queue and keeps the queue well formed: heap order, pairwise
    different elements, and an index map that locates every element.  An
    element comparing equal to a queued one is refused with [EEXIST]. *)
Theorem pq_push_inserts {P} `{EqDecision P} (NULL junk : P) (D : P → Prop)
    (compare : P → P → Z) (hash_func : P → Z) (pq : po_priority_queue P) (x : P) :
  TotalOrderOn D compare → KeyContract D compare hash_func →
  pq_wf compare hash_func D pq → Z.of_nat (length (pq_elements pq)) < MAX_ENTRIES →
  D x → x ≠ NULL →
  succeeds (po_priority_queue_push NULL junk compare hash_func pq x) (λ r,
    pq_wf compare hash_func D r.2 ∧
    (r.1 = (0, None) ∧ pq_elements r.2 ≡ₚ x :: pq_elements pq ∧
       (¬ ∃ i, at_index compare (pq_elements pq) x i) ∨
     r.1 = (-1, Some EEXIST) ∧ r.2 = pq ∧ ∃ i, at_index compare (pq_elements pq) x i)).
Proof. intros. by apply push_lemma. Qed.

#[export] Instance int_order : TotalOrderOn (λ _ : Z, True) int_compare.
Proof. constructor; unfold int_compare; intros; lia. Qed.

Definition int_push (pq : po_priority_queue Z) (x : Z) : po_priority_queue Z :=
  (po_priority_queue_push 0 0 int_compare int_hash pq x []).1.2.
Definition int_queue_0 : po_priority_queue Z :=
  mk_pq (mk_vector (replicate 16 0) 0 16) (mk_hashtable (replicate 17 []) 17 0).
Definition int_queue : po_priority_queue Z := int_push (int_push int_queue_0 5) 3.

Lemma int_queue_0_wf : pq_wf int_compare int_hash (λ _, True) int_queue_0.
Proof.
  destruct (pq_create_lemma (P := Z) 0 0 (λ _, True) int_compare int_hash [] no_fail_nil)
    as [(pq & E & Hwf & _) _]. vm_compute in E. injection E as <-. exact Hwf.
Qed.

Lemma int_queue_wf : pq_wf int_compare int_hash (λ _, True) int_queue.
Proof.
  unfold int_queue, int_push.
  apply (push_lemma 0 0 (λ _, True) int_compare int_hash); try done; [|constructor].
  apply (push_lemma 0 0 (λ _, True) int_compare int_hash); try done;
    [apply int_queue_0_wf|constructor].
Qed.

Lemma pq_push_inserts_witness :
  pq_elements (int_push int_queue_0 5) ≡ₚ [5] ∧
  pq_wf int_compare int_hash (λ _, True) (int_push int_queue_0 5).
Proof.
  split; [vm_compute; reflexivity|].
  apply (pq_push_inserts 0 0 (λ _, True) int_compare int_hash int_queue_0 5
    int_order int_contract int_queue_0_wf); try done. constructor.
Defined.

(** C4. [po_priority_queue_pop] removes and returns a least element; on an
    empty queue it returns [NULL].  The queue stays well formed. *)
Theorem pq_pop_minimum {P} `{EqDecision P} (NULL junk : P) (D : P → Prop)
    (compare : P → P → Z) (hash_func : P → Z) (pq : po_priority_queue P) :
  TotalOrderOn D compare → KeyContract D compare hash_func →
  pq_wf compare hash_func D pq → Z.of_nat (length (pq_elements pq)) <= MAX_ENTRIES →
  succeeds (po_priority_queue_pop NULL junk compare hash_func pq) (λ r,
    pq_wf compare hash_func D r.2 ∧
    (pq_elements pq = [] ∧ r = (NULL, pq) ∨
     pq_elements pq ≡ₚ r.1 :: pq_elements r.2 ∧ ∀ y, y ∈ pq_elements pq → compare r.1 y <= 0)).
Proof. intros. by apply pop_lemma. Qed.

Lemma pq_pop_minimum_witness :
  (po_priority_queue_pop 0 0 int_compare int_hash int_queue []).1.1 = 3 ∧
  pq_wf int_compare int_hash (λ _, True)
    (po_priority_queue_pop 0 0 int_compare int_hash int_queue []).1.2.
Proof.
  split; [vm_compute; reflexivity|].
  apply (pq_pop_minimum 0 0 (λ _, True) int_compare int_hash int_queue
    int_order int_contract int_queue_wf); [by vm_compute|constructor].
Defined.

(** [po_priority_queue_remove] takes exactly the element comparing equal
    to its argument out of the queue, from any position of the heap, and
    restores the heap order; an absent element is reported with -1. *)
Theorem pq_remove_deletes {P} `{EqDecision P} (NULL junk : P) (D : P → Prop)
    (compare : P → P → Z) (hash_func : P → Z) (pq : po_priority_queue P) (x : P) :
  TotalOrderOn D compare → KeyContract D compare hash_func →
  pq_wf compare hash_func D pq → Z.of_nat (length (pq_elements pq)) <= MAX_ENTRIES →
  D x → x ≠ NULL →
  succeeds (po_priority_queue_remove NULL junk compare hash_func pq x) (λ r,
    pq_wf compare hash_func D r.2 ∧
    (r.1 = 0 ∧ (∃ y, compare y x = 0 ∧ pq_elements pq ≡ₚ y :: pq_elements r.2) ∨
     r = (-1, pq) ∧ ¬ ∃ i, at_index compare (pq_elements pq) x i)).
Proof. intros. by apply remove_lemma. Qed.

Lemma pq_remove_deletes_witness :
  (po_priority_queue_remove 0 0 int_compare int_hash int_queue 3 []).1.1 = 0 ∧
  pq_elements (po_priority_queue_remove 0 0 int_compare int_hash int_queue 3 []).1.2 = [5] ∧
  pq_wf int_compare int_hash (λ _, True)
    (po_priority_queue_remove 0 0 int_compare int_hash int_queue 3 []).1.2.
Proof.
  split; [vm_compute; reflexivity|]. split; [vm_compute; reflexivity|].
  apply (pq_remove_deletes 0 0 (λ _, True) int_compare int_hash int_queue 3
    int_order int_contract int_queue_wf); [by vm_compute|done|done|constructor].
Defined.

(** Popping until the queue is empty yields every element exactly once, in
    non-decreasing order. *)
Theorem pq_drain_sorts {P} `{EqDecision P} (NULL junk : P) (D : P → Prop)
    (compare : P → P → Z) (hash_func : P → Z) (pq : po_priority_queue P) :
  TotalOrderOn D compare → KeyContract D compare hash_func →
  pq_wf compare hash_func D pq → Z.of_nat (length (pq_elements pq)) <= MAX_ENTRIES →
  succeeds (pq_drain NULL junk compare hash_func (length (pq_elements pq)) pq) (λ out,
    out ≡ₚ pq_elements pq ∧ StronglySorted (λ a b, compare a b <= 0) out).
Proof. intros. by apply (drain_lemma NULL junk compare hash_func D). Qed.

Lemma pq_drain_sorts_witness :
  (pq_drain 0 0 int_compare int_hash 2 int_queue []).1 = [3; 5] ∧
  StronglySorted (λ a b, int_compare a b <= 0) (pq_drain 0 0 int_compare int_hash 2 int_queue []).1.
Proof.
  split; [vm_compute; reflexivity|].
  apply (pq_drain_sorts 0 0 (λ _, True) int_compare int_hash int_queue
    int_order int_contract int_queue_wf); [by vm_compute|constructor].
Defined.

(** The queue does not notice a failing index map: when the allocation of
    the table node fails, [po_priority_queue_push] still reports success, but
    the element can be pushed a second time and cannot be removed. *)
Theorem pq_push_loses_index :
  let r1 := (po_priority_queue_push 0 0 int_compare int_hash int_queue_0 7 [false]).1 in
  let r2 := (po_priority_queue_push 0 0 int_compare int_hash r1.2 7 [false]).1 in
  r1.1 = (0, None) ∧ r2.1 = (0, None) ∧ pq_elements r2.2 = [7; 7] ∧
  (po_priority_queue_remove 0 0 int_compare int_hash r1.2 7 []).1.1 = -1.
Proof. vm_compute. done. Qed.
