(* ===== verification/Ringbuf.v ===== *)
(** * Sequenced ring buffer ([app/libs/ring0/postoffice/perf/ringbuf.c])

    Every slot carries a sequence number: [i] when it is free for the
    [i]-th enqueue, [i + 1] when it holds the [i]-th item.  This file models
    the operations as calls that run without interference, as their locking
    clients make them, on 64-bit indices that wrap around; [RingbufConc]
    models the interleaving of any number of threads.

    A call that would spin for ever without interference is [None].  Metrics
    counters are not part of the state. *)

From Stdlib Require Import ZArith Lia.
From stdpp Require Import base list numbers.
From S2P Require Import Prelude.

Local Open Scope Z_scope.

Record slot_t (P : Type) : Type := mk_slot { slot_seq : Z; slot_item : P }.
Arguments mk_slot {P}.
Arguments slot_seq {P}.
Arguments slot_item {P}.

Record perf_ringbuf (P : Type) : Type := mk_ringbuf {
  rb_head : Z;
  rb_tail : Z;
  rb_cap : Z;
  rb_mask : Z;
  rb_slots : list (slot_t P)
}.
Arguments mk_ringbuf {P}.
Arguments rb_head {P}.
Arguments rb_tail {P}.
Arguments rb_cap {P}.
Arguments rb_mask {P}.
Arguments rb_slots {P}.

Definition SIZEOF_SLOT : Z := 16.

Section ringbuf.
Context {P : Type} (NULL : P).
Abbreviation ringbuf := (perf_ringbuf P).
Implicit Types (rb : ringbuf) (item : P).

(** [EINVAL] unless the capacity is a power of two; [calloc] zeroes items. *)
Definition perf_ringbuf_create (capacity : Z) : alloc (option errno * option ringbuf) :=
  if (capacity =? 0) || negb (Z.land capacity (capacity - 1) =? 0) then mret (Some EINVAL, None)
  else
    ok ← malloc;
    if negb ok then mret (None, None)
    else
      ok ← malloc_bytes (capacity * SIZEOF_SLOT);
      if negb ok then mret (None, None)
      else
        mret (None, Some (mk_ringbuf 0 0 capacity (capacity - 1)
          (map (λ i, mk_slot (Z.of_nat i) NULL) (seq 0 (Z.to_nat capacity))))).

(** [&rb->slots[i & rb->mask]] *)
Definition slot_index rb (i : Z) : nat := Z.to_nat (Z.land i (rb_mask rb)).
Definition slot_at rb (i : Z) : option (slot_t P) := rb_slots rb !! slot_index rb i.

(** [(intptr_t)seq - (intptr_t)pos] *)
Definition seq_diff (seq pos : Z) : Z := i64 (seq - pos).

Definition put_slot rb (i : Z) (s : slot_t P) : list (slot_t P) := <[slot_index rb i := s]> (rb_slots rb).

Definition perf_ringbuf_enqueue rb item : option (Z * option errno * ringbuf) :=
  let tail := rb_tail rb in
  slot ← slot_at rb tail;
  let diff := seq_diff (slot_seq slot) tail in
  if diff =? 0 then
    Some (0, None, mk_ringbuf (rb_head rb) (u64 (tail + 1)) (rb_cap rb) (rb_mask rb)
                     (put_slot rb tail (mk_slot (u64 (tail + 1)) item)))
  else if diff <? 0 then Some (-1, Some EAGAIN, rb)
  else None.

Definition perf_ringbuf_dequeue rb : option (Z * option P * ringbuf) :=
  let head := rb_head rb in
  slot ← slot_at rb head;
  let diff := seq_diff (slot_seq slot) (u64 (head + 1)) in
  if diff =? 0 then
    Some (0, Some (slot_item slot),
      mk_ringbuf (u64 (head + 1)) (rb_tail rb) (rb_cap rb) (rb_mask rb)
        (put_slot rb head (mk_slot (u64 (head + rb_mask rb + 1)) (slot_item slot))))
  else if diff <? 0 then Some (-1, None, rb)
  else None.

Definition perf_ringbuf_count rb : Z :=
  if rb_head rb <? rb_tail rb then rb_tail rb - rb_head rb else 0.

Definition perf_ringbuf_peek_at rb (idx : Z) : option (Z * option P) :=
  let target := u64 (rb_head rb + idx) in
  slot ← slot_at rb target;
  if seq_diff (slot_seq slot) (u64 (target + 1)) =? 0 then Some (0, Some (slot_item slot))
  else Some (-1, None).

Definition perf_ringbuf_peek rb : option (Z * option P) :=
  slot ← slot_at rb (rb_head rb);
  if seq_diff (slot_seq slot) (u64 (rb_head rb + 1)) =? 0 then Some (0, Some (slot_item slot))
  else Some (-1, None).

(** [for (i = 0; i < n; i++)] *)
Fixpoint perf_ringbuf_advance rb (n : nat) : option (Z * ringbuf) :=
  match n with
  | O => Some (0, rb)
  | S n =>
      r ← perf_ringbuf_dequeue rb;
      if negb (r.1.1 =? 0) then Some (-1, r.2) else perf_ringbuf_advance r.2 n
  end.

(** ** Specification

    [rb] holds the queue [q], the oldest item being the [h]-th ever enqueued;
    [h] is a true count, the fields hold its value modulo [2 ^ 64]. *)

Record rb_repr rb (h : Z) (q : list P) : Prop := mk_rb_repr {
  repr_cap : ∃ k, 1 <= k <= 59 ∧ rb_cap rb = 2 ^ k;
  repr_mask : rb_mask rb = rb_cap rb - 1;
  repr_slots : Z.of_nat (length (rb_slots rb)) = rb_cap rb;
  repr_start : 0 <= h;
  repr_fits : Z.of_nat (length q) <= rb_cap rb;
  repr_head : rb_head rb = u64 h;
  repr_tail : rb_tail rb = u64 (h + Z.of_nat (length q));
  repr_full : ∀ i x, q !! i = Some x →
    rb_slots rb !! Z.to_nat ((h + Z.of_nat i) mod rb_cap rb) =
      Some (mk_slot (u64 (h + Z.of_nat i + 1)) x);
  repr_free : ∀ i, h + Z.of_nat (length q) <= i < h + rb_cap rb →
    ∃ x, rb_slots rb !! Z.to_nat (i mod rb_cap rb) = Some (mk_slot (u64 i) x)
}.
End ringbuf.

(** ** Lemmas *)

Lemma power_of_two_land z :
  0 < z → Z.land z (z - 1) = 0 → z = 2 ^ Z.log2 z.
Proof.
  intros Hz Hl. pose proof (Z.log2_spec z Hz) as [H1 H2]. set (k := Z.log2 z) in *.
  assert (0 <= k) by apply Z.log2_nonneg.
  destruct (Z.eq_dec z (2 ^ k)) as [|Hne]; [done|exfalso].
  assert (Z.testbit z k = true) as B1.
  { apply Z.bit_log2. lia. }
  assert (Z.testbit (z - 1) k = true) as B2.
  { assert (0 < 2 ^ k) by (apply Z.pow_pos_nonneg; lia).
    assert (Z.log2 (z - 1) = k) as <- by (apply Z.log2_unique; lia). apply Z.bit_log2. lia. }
  pose proof (Z.land_spec z (z - 1) k) as B. rewrite Hl, B1, B2, Z.bits_0 in B. done.
Qed.

Lemma land_power_of_two k : 0 <= k → Z.land (2 ^ k) (2 ^ k - 1) = 0.
Proof. intros Hk. rewrite Z.sub_1_r, <- Z.ones_equiv, Z.land_ones by lia. by apply Z.mod_same, Z.pow_nonzero. Qed.

Lemma seq_diff_u64 a b : - 2 ^ 63 <= a - b < 2 ^ 63 → seq_diff (u64 a) (u64 b) = a - b.
Proof.
  intros H. unfold seq_diff, i64, u64. rewrite <- (signed_small 64 (a - b)) by (simpl; lia).
  unfold signed. by rewrite <- Zminus_mod.
Qed.

Lemma mod_window c h i j :
  0 < c → h <= i < h + c → h <= j < h + c → i mod c = j mod c → i = j.
Proof.
  intros Hc Hi Hj E. rewrite !Z.mod_eq in E by lia. generalize dependent (i / c).
  generalize (j / c). intros b a E. assert (a = b ∨ a < b ∨ b < a) as [->|[?|?]] by lia; nia.
Qed.

Lemma mod_lap c h : 0 < c → (h + c) mod c = h mod c.
Proof. intros Hc. replace (h + c) with (h + 1 * c) by lia. apply Z.mod_add. lia. Qed.

Section ringbuf_lemmas.
Context {P : Type} (NULL : P).
Implicit Types (rb : perf_ringbuf P) (q : list P).

Lemma repr_cap_bounds rb h q : rb_repr rb h q → 2 <= rb_cap rb <= 2 ^ 59.
Proof.
  intros [(k & Hk & ->) _ _ _ _ _ _ _ _]. split.
  - change 2 with (2 ^ 1) at 1. apply Z.pow_le_mono_r; lia.
  - apply Z.pow_le_mono_r; lia.
Qed.

Lemma repr_index rb h q i : rb_repr rb h q → slot_index rb (u64 i) = Z.to_nat (i mod rb_cap rb).
Proof.
  intros [(k & Hk & Hc) Hm _ _ _ _ _ _ _]. unfold slot_index. rewrite Hm, Hc.
  rewrite Z.sub_1_r, <- Z.ones_equiv, Z.land_ones by lia. f_equal. unfold u64.
  replace (2 ^ 64) with (2 ^ k * 2 ^ (64 - k)) by (rewrite <- Z.pow_add_r by lia; f_equal; lia).
  rewrite Z.rem_mul_r by (apply Z.pow_nonzero || apply Z.pow_pos_nonneg; lia).
  rewrite Z.mul_comm, Z.mod_add by (apply Z.pow_nonzero; lia). apply Z.mod_mod. apply Z.pow_nonzero; lia.
Qed.

Lemma repr_slot_lt rb h q i :
  rb_repr rb h q → (Z.to_nat (i mod rb_cap rb) < length (rb_slots rb))%nat.
Proof.
  intros Hr. pose proof (repr_cap_bounds _ _ _ Hr). pose proof (repr_slots _ _ _ Hr).
  pose proof (Z.mod_pos_bound i (rb_cap rb)). lia.
Qed.

Lemma slot_neq rb h q i j :
  rb_repr rb h q → h <= i < h + rb_cap rb → h <= j < h + rb_cap rb → i ≠ j →
  Z.to_nat (i mod rb_cap rb) ≠ Z.to_nat (j mod rb_cap rb).
Proof.
  intros Hr Hi Hj Hne E. pose proof (repr_cap_bounds _ _ _ Hr). apply Hne.
  apply (mod_window (rb_cap rb) h); [lia|done|done|].
  pose proof (Z.mod_pos_bound i (rb_cap rb)). pose proof (Z.mod_pos_bound j (rb_cap rb)). lia.
Qed.

Lemma enqueue_room rb h q x :
  rb_repr rb h q → Z.of_nat (length q) < rb_cap rb →
  ∃ rb', perf_ringbuf_enqueue rb x = Some (0, None, rb') ∧ rb_repr rb' h (q ++ [x]) ∧
    rb_cap rb' = rb_cap rb.
Proof.
  intros Hr Hlt. pose proof (repr_cap_bounds _ _ _ Hr) as Hcap. pose proof Hr as [Hc Hm Hs Hh Hf Ehd Etl Hfull Hfree].
  set (t := h + Z.of_nat (length q)) in *. destruct (Hfree t ltac:(lia)) as [y Hy].
  unfold perf_ringbuf_enqueue, slot_at. rewrite Etl, (repr_index _ _ _ _ Hr), Hy. cbn [mbind option_bind slot_seq].
  rewrite seq_diff_u64, Z.sub_diag by lia. cbn [Z.eqb]. eexists. split; [done|].
  unfold put_slot. rewrite (repr_index _ _ _ _ Hr). split; [|done].
  pose proof (repr_slot_lt _ _ _ t Hr) as Hti.
  assert (u64 (u64 t + 1) = u64 (t + 1)) as Ht1 by apply u64_add_l.
  constructor; simpl; try done; rewrite ?length_app, ?length_insert; simpl; try lia.
  - rewrite Ht1. f_equal. unfold t. lia.
  - intros i z Hz. apply lookup_app_Some in Hz as [Hz|[Hge Hz]].
    + pose proof (lookup_lt_Some _ _ _ Hz).
      rewrite list_lookup_insert_ne; [by apply Hfull|].
      apply (slot_neq _ _ _ _ _ Hr); unfold t; lia.
    + pose proof (lookup_lt_Some _ _ _ Hz) as Hi. simpl in Hi.
      replace (i - length q)%nat with 0%nat in Hz by lia. simplify_eq/=.
      replace (h + Z.of_nat i) with t by (unfold t; lia). rewrite list_lookup_insert_eq by done.
      by rewrite Ht1.
  - intros i Hi. rewrite list_lookup_insert_ne.
    + apply Hfree. unfold t. lia.
    + apply (slot_neq _ _ _ _ _ Hr); unfold t; lia.
Qed.

Lemma enqueue_full rb h q x :
  rb_repr rb h q → Z.of_nat (length q) = rb_cap rb →
  perf_ringbuf_enqueue rb x = Some (-1, Some EAGAIN, rb).
Proof.
  intros Hr Heq. pose proof (repr_cap_bounds _ _ _ Hr) as Hcap. pose proof Hr as [Hc Hm Hs Hh Hf Ehd Etl Hfull Hfree].
  destruct (lookup_lt_is_Some_2 q 0) as [y Hy]; [lia|]. pose proof (Hfull 0%nat y Hy) as Hslot.
  unfold perf_ringbuf_enqueue, slot_at. rewrite Etl, (repr_index _ _ _ _ Hr), Heq.
  rewrite Z.add_0_r in Hslot.
  rewrite mod_lap, Hslot by lia. cbn [mbind option_bind slot_seq]. rewrite seq_diff_u64 by lia.
  case (Z.eqb_spec (h + 1 - (h + rb_cap rb)) 0); [lia|]. intros _.
  by rewrite (proj2 (Z.ltb_lt _ _)) by lia.
Qed.

Lemma dequeue_empty rb h : rb_repr rb h [] → perf_ringbuf_dequeue rb = Some (-1, None, rb).
Proof.
  intros Hr. pose proof (repr_cap_bounds _ _ _ Hr) as Hcap. pose proof Hr as [Hc Hm Hs Hh Hf Ehd Etl Hfull Hfree].
  simpl in *. destruct (Hfree h ltac:(lia)) as [y Hy].
  unfold perf_ringbuf_dequeue, slot_at. rewrite Ehd, (repr_index _ _ _ _ Hr), Hy.
  cbn [mbind option_bind slot_seq]. rewrite u64_add_l, seq_diff_u64 by lia.
  case (Z.eqb_spec (h - (h + 1)) 0); [lia|]. intros _. by rewrite (proj2 (Z.ltb_lt _ _)) by lia.
Qed.

Lemma dequeue_some rb h x q :
  rb_repr rb h (x :: q) →
  ∃ rb', perf_ringbuf_dequeue rb = Some (0, Some x, rb') ∧ rb_repr rb' (h + 1) q ∧
    rb_cap rb' = rb_cap rb.
Proof.
  intros Hr. pose proof (repr_cap_bounds _ _ _ Hr) as Hcap. pose proof Hr as [Hc Hm Hs Hh Hf Ehd Etl Hfull Hfree].
  pose proof (Hfull 0%nat x eq_refl) as Hx. rewrite Z.add_0_r in Hx.
  unfold perf_ringbuf_dequeue, slot_at. rewrite Ehd, (repr_index _ _ _ _ Hr), Hx.
  cbn [mbind option_bind slot_seq slot_item]. rewrite u64_add_l, seq_diff_u64, Z.sub_diag by lia. cbn [Z.eqb].
  eexists. split; [done|]. split; [|done]. unfold put_slot. rewrite (repr_index _ _ _ _ Hr).
  pose proof (repr_slot_lt _ _ _ h Hr) as Hhi. simpl length in *.
  constructor; simpl; try done; rewrite ?length_insert; try lia.
  - rewrite Etl. f_equal. lia.
  - intros i z Hz. pose proof (lookup_lt_Some _ _ _ Hz).
    rewrite list_lookup_insert_ne by (apply (slot_neq _ _ _ _ _ Hr); lia).
    replace (h + 1 + Z.of_nat i) with (h + Z.of_nat (S i)) by lia. by apply Hfull.
  - intros i Hi. destruct (Z.eq_dec i (h + rb_cap rb)) as [->|Hne].
    + exists x. rewrite mod_lap, list_lookup_insert_eq by (done || lia). do 2 f_equal. rewrite Hm, <- Z.add_assoc, u64_add_l.
      f_equal. lia.
    + rewrite list_lookup_insert_ne by (apply (slot_neq _ _ _ _ _ Hr); lia). apply Hfree. lia.
Qed.

Lemma count_spec rb h q :
  rb_repr rb h q → h + Z.of_nat (length q) < 2 ^ 64 → perf_ringbuf_count rb = Z.of_nat (length q).
Proof.
  intros Hr Hb. pose proof Hr as [Hc Hm Hs Hh Hf Ehd Etl Hfull Hfree].
  unfold perf_ringbuf_count. rewrite Ehd, Etl, !u64_small by lia.
  case (Z.ltb_spec h (h + Z.of_nat (length q))); lia.
Qed.

Lemma peek_at_spec rb h q idx :
  rb_repr rb h q → 0 <= idx < rb_cap rb →
  perf_ringbuf_peek_at rb idx =
  Some (match q !! Z.to_nat idx with Some x => (0, Some x) | None => (-1, None) end).
Proof.
  intros Hr Hi. pose proof (repr_cap_bounds _ _ _ Hr) as Hcap. pose proof Hr as [Hc Hm Hs Hh Hf Ehd Etl Hfull Hfree].
  unfold perf_ringbuf_peek_at, slot_at. rewrite Ehd, (u64_add_l h idx), (repr_index _ _ _ _ Hr), u64_add_l.
  destruct (q !! Z.to_nat idx) as [x|] eqn:Ex.
  - pose proof (Hfull _ _ Ex) as Hx. rewrite Z2Nat.id in Hx by lia. rewrite Hx.
    cbn [mbind option_bind slot_seq slot_item]. by rewrite seq_diff_u64, Z.sub_diag by lia.
  - apply lookup_ge_None in Ex. destruct (Hfree (h + idx) ltac:(lia)) as [y Hy]. rewrite Hy.
    cbn [mbind option_bind slot_seq slot_item]. rewrite seq_diff_u64 by lia.
    case (Z.eqb_spec (h + idx - (h + idx + 1)) 0); [lia|done].
Qed.

Lemma ringbuf_create_lemma k :
  1 <= k <= 59 →
  always (perf_ringbuf_create NULL (2 ^ k)) (λ r,
    match r with (e, Some rb) => e = None ∧ rb_repr rb 0 [] ∧ rb_cap rb = 2 ^ k | (e, None) => e = None end).
Proof.
  intros Hk. unfold perf_ringbuf_create.
  assert (2 <= 2 ^ k) by (change 2 with (2 ^ 1) at 1; apply Z.pow_le_mono_r; lia).
  rewrite (proj2 (Z.eqb_neq _ _)), land_power_of_two by lia. simpl.
  apply always_bind, always_malloc. intros []; simpl; [|by apply always_ret].
  apply always_bind, always_malloc_bytes; simpl; [by apply always_ret|]. intros _.
  apply always_ret. split_and!; [done| |done]. constructor; simpl; try done; try lia.
  - eauto.
  - rewrite length_map, length_seq. lia.
  - assert (2 ^ k <= 2 ^ 59) by (apply Z.pow_le_mono_r; lia).
    intros i Hi. exists NULL. rewrite Z.mod_small, u64_small by lia.
    change (map ?f ?l) with (f <$> l). rewrite list_lookup_fmap, lookup_seq_lt by lia. simpl.
    by rewrite Z2Nat.id by lia.
Qed.
End ringbuf_lemmas.

(** ** Properties *)

(** The ring buffer refines a bounded FIFO queue: an enqueue appends
    unless all [cap] slots are in use (then [EAGAIN] and no change), a dequeue
    takes the oldest item or reports emptiness, [peek_at] reads the queue
    without changing it and the count is the length.  The refinement holds
    through the wrap-around of the 64-bit indices, for every capacity of at
    least two. *)
Theorem ringbuf_refines_fifo {P} (rb : perf_ringbuf P) (h : Z) (q : list P) :
  rb_repr rb h q →
  (∀ x, if Z.of_nat (length q) <? rb_cap rb
        then ∃ rb', perf_ringbuf_enqueue rb x = Some (0, None, rb') ∧ rb_repr rb' h (q ++ [x])
        else perf_ringbuf_enqueue rb x = Some (-1, Some EAGAIN, rb)) ∧
  match q with
  | [] => perf_ringbuf_dequeue rb = Some (-1, None, rb)
  | x :: q' => ∃ rb', perf_ringbuf_dequeue rb = Some (0, Some x, rb') ∧ rb_repr rb' (h + 1) q'
  end ∧
  (∀ i, 0 <= i < rb_cap rb → perf_ringbuf_peek_at rb i =
     Some (match q !! Z.to_nat i with Some x => (0, Some x) | None => (-1, None) end)) ∧
  (h + Z.of_nat (length q) < 2 ^ 64 → perf_ringbuf_count rb = Z.of_nat (length q)).
Proof.
  intros Hr. split_and!.
  - intros x. case (Z.ltb_spec (Z.of_nat (length q)) (rb_cap rb)); intros Hlt.
    + destruct (enqueue_room rb h q x Hr Hlt) as (rb' & ? & ? & _). eauto.
    + apply (enqueue_full rb h q x Hr). pose proof (repr_fits _ _ _ Hr). lia.
  - destruct q as [|x q']; [by eapply dequeue_empty|].
    destruct (dequeue_some rb h x q' Hr) as (rb' & ? & ? & _). eauto.
  - intros i Hi. by apply (peek_at_spec rb h q i).
  - by apply count_spec.
Qed.

(** A buffer of two slots whose indices are about to wrap around. *)
Definition wrapping_rb : perf_ringbuf Z :=
  mk_ringbuf (2 ^ 64 - 1) 0 2 1 [mk_slot 0 0; mk_slot 0 41].

Lemma wrapping_rb_repr : rb_repr wrapping_rb (2 ^ 64 - 1) [41].
Proof.
  constructor; simpl; try done; try lia.
  - by exists 1.
  - intros [|i] x; simpl; [|by destruct i]. intros [= <-]. vm_compute. done.
  - intros i Hi. exists 0. replace i with (2 ^ 64) by lia. vm_compute. done.
Qed.

Lemma ringbuf_refines_fifo_witness :
  ∃ rb', perf_ringbuf_enqueue wrapping_rb 42 = Some (0, None, rb') ∧
    rb_repr rb' (2 ^ 64 - 1) [41; 42].
Proof.
  destruct (ringbuf_refines_fifo wrapping_rb (2 ^ 64 - 1) [41] wrapping_rb_repr) as [H _].
  exact (H 42).
Defined.

(** A buffer of capacity one, which the constructor accepts, is not a
    queue: a sequence number cannot tell its full slot from a free one, so a
    second enqueue succeeds and overwrites the item, the count exceeds the
    capacity, and a dequeue then spins for ever. *)
Theorem ringbuf_capacity_one_overwrites :
  ∃ rb0 rb1 rb2, (perf_ringbuf_create 0 1 []).1 = (None, Some rb0) ∧
    perf_ringbuf_enqueue rb0 7 = Some (0, None, rb1) ∧
    perf_ringbuf_enqueue rb1 8 = Some (0, None, rb2) ∧
    perf_ringbuf_count rb2 = 2 ∧ rb_cap rb2 = 1 ∧ perf_ringbuf_dequeue rb2 = None.
Proof.
  exists (mk_ringbuf 0 0 1 0 [mk_slot 0 0]), (mk_ringbuf 0 1 1 0 [mk_slot 1 7]),
    (mk_ringbuf 0 2 1 0 [mk_slot 2 8]).
  split_and!; vm_compute; reflexivity.
Qed.
