(* ===== verification/RingbufConc.v ===== *)
(** * The ring buffer under concurrency ([app/libs/ring0/postoffice/perf/ringbuf.c])

    Any number of threads call [perf_ringbuf_enqueue] and
    [perf_ringbuf_dequeue]; each atomic access of the source, and each plain
    access of a slot's item, is one step.  The steps of the threads interleave
    arbitrarily, with sequentially consistent memory: the acquire and release
    orders of the source concern weaker memories and are not modelled.

    Two histories record what happened: [w_hist], the items in the order in
    which enqueues won their ticket (the compare-and-swap of [tail]), and
    [w_out], the pairs of ticket and item that dequeues have read. *)

From Stdlib Require Import ZArith Lia.
From stdpp Require Import base list numbers.
From S2P Require Import Prelude Ringbuf.

Local Open Scope Z_scope.

(** Where a thread is inside a call, with its local variables. *)
Inductive thread (P : Type) : Type :=
| Idle
| EnqLoad (item : P)
| EnqSeq (item : P) (tail : Z)
| EnqCas (item : P) (tail seq : Z)
| EnqStore (item : P) (tail : Z)
| EnqPublish (item : P) (tail : Z)
| DeqLoad
| DeqSeq (head : Z)
| DeqCas (head seq : Z)
| DeqRead (head : Z)
| DeqRelease (head : Z) (out : P).
Arguments Idle {P}.
Arguments EnqLoad {P}.
Arguments EnqSeq {P}.
Arguments EnqCas {P}.
Arguments EnqStore {P}.
Arguments EnqPublish {P}.
Arguments DeqLoad {P}.
Arguments DeqSeq {P}.
Arguments DeqCas {P}.
Arguments DeqRead {P}.
Arguments DeqRelease {P}.

Record world (P : Type) : Type := mk_world {
  w_rb : perf_ringbuf P;
  w_hist : list P;
  w_out : list (Z * P)
}.
Arguments mk_world {P}.
Arguments w_rb {P}.
Arguments w_hist {P}.
Arguments w_out {P}.

Record config (P : Type) : Type := mk_config {
  c_world : world P;
  c_threads : list (thread P)
}.
Arguments mk_config {P}.
Arguments c_world {P}.
Arguments c_threads {P}.

Section steps.
Context {P : Type}.
Implicit Types (rb : perf_ringbuf P) (w : world P) (x : P).

Definition with_rb w rb : world P := mk_world rb (w_hist w) (w_out w).
Definition set_tail rb (t : Z) : perf_ringbuf P :=
  mk_ringbuf (rb_head rb) t (rb_cap rb) (rb_mask rb) (rb_slots rb).
Definition set_head rb (h : Z) : perf_ringbuf P :=
  mk_ringbuf h (rb_tail rb) (rb_cap rb) (rb_mask rb) (rb_slots rb).
Definition set_slot rb (i : Z) (s : slot_t P) : perf_ringbuf P :=
  mk_ringbuf (rb_head rb) (rb_tail rb) (rb_cap rb) (rb_mask rb) (put_slot rb i s).

(** One access of one thread.  The weak compare-and-swap may fail spuriously;
    on failure it reloads the index. *)
Inductive thread_step : world P → thread P → world P → thread P → Prop :=
| enq_call w x : thread_step w Idle w (EnqLoad x)
| enq_load w x : thread_step w (EnqLoad x) w (EnqSeq x (rb_tail (w_rb w)))
| enq_seq w x t s : slot_at (w_rb w) t = Some s →
    thread_step w (EnqSeq x t) w (EnqCas x t (slot_seq s))
| enq_cas w x t seq : seq_diff seq t = 0 → rb_tail (w_rb w) = t →
    thread_step w (EnqCas x t seq)
      (mk_world (set_tail (w_rb w) (u64 (t + 1))) (w_hist w ++ [x]) (w_out w)) (EnqStore x t)
| enq_cas_fail w x t seq : seq_diff seq t = 0 →
    thread_step w (EnqCas x t seq) w (EnqSeq x (rb_tail (w_rb w)))
| enq_full w x t seq : seq_diff seq t < 0 → thread_step w (EnqCas x t seq) w Idle
| enq_behind w x t seq : 0 < seq_diff seq t → thread_step w (EnqCas x t seq) w (EnqLoad x)
| enq_store w x t s : slot_at (w_rb w) t = Some s →
    thread_step w (EnqStore x t)
      (with_rb w (set_slot (w_rb w) t (mk_slot (slot_seq s) x))) (EnqPublish x t)
| enq_publish w x t s : slot_at (w_rb w) t = Some s →
    thread_step w (EnqPublish x t)
      (with_rb w (set_slot (w_rb w) t (mk_slot (u64 (t + 1)) (slot_item s)))) Idle
| deq_call w : thread_step w Idle w DeqLoad
| deq_load w : thread_step w DeqLoad w (DeqSeq (rb_head (w_rb w)))
| deq_seq w h s : slot_at (w_rb w) h = Some s →
    thread_step w (DeqSeq h) w (DeqCas h (slot_seq s))
| deq_cas w h seq : seq_diff seq (u64 (h + 1)) = 0 → rb_head (w_rb w) = h →
    thread_step w (DeqCas h seq) (with_rb w (set_head (w_rb w) (u64 (h + 1)))) (DeqRead h)
| deq_cas_fail w h seq : seq_diff seq (u64 (h + 1)) = 0 →
    thread_step w (DeqCas h seq) w (DeqSeq (rb_head (w_rb w)))
| deq_empty w h seq : seq_diff seq (u64 (h + 1)) < 0 → thread_step w (DeqCas h seq) w Idle
| deq_behind w h seq : 0 < seq_diff seq (u64 (h + 1)) → thread_step w (DeqCas h seq) w DeqLoad
| deq_read w h s : slot_at (w_rb w) h = Some s →
    thread_step w (DeqRead h)
      (mk_world (w_rb w) (w_hist w) (w_out w ++ [(h, slot_item s)])) (DeqRelease h (slot_item s))
| deq_release w h v s : slot_at (w_rb w) h = Some s →
    thread_step w (DeqRelease h v)
      (with_rb w (set_slot (w_rb w) h (mk_slot (u64 (h + rb_mask (w_rb w) + 1)) (slot_item s)))) Idle.

(** A step of the system: some thread moves.  The bound excludes runs of more
    than [2 ^ 62] enqueues, after which a ticket could come round while a
    thread still holds an old one. *)
Definition step (c c' : config P) : Prop :=
  ∃ tid st w' st', c_threads c !! tid = Some st ∧ thread_step (c_world c) st w' st' ∧
    c' = mk_config w' (<[tid := st']> (c_threads c)) ∧
    Z.of_nat (length (w_hist w')) <= 2 ^ 62.

Definition initial (rb : perf_ringbuf P) (n : nat) : config P :=
  mk_config (mk_world rb [] []) (replicate n Idle).

(** ** Invariant *)

(** The phase of the slot that ticket [i] is current for. *)
Inductive phase := Free | Full.

Definition slot_phase w (i : Z) (ph : phase) : Prop :=
  0 <= i ∧ i - rb_cap (w_rb w) < rb_head (w_rb w) ∧
  rb_tail (w_rb w) <= i + rb_cap (w_rb w) ∧
  ∃ v, rb_slots (w_rb w) !! Z.to_nat (i mod rb_cap (w_rb w)) =
         Some (mk_slot (match ph with Free => i | Full => i + 1 end) v) ∧
  match ph with
  | Free => rb_head (w_rb w) <= i
  | Full => i < rb_tail (w_rb w) ∧ (w_hist w).[i] = Some v
  end.

(** A sequence number read earlier is not above the present one. *)
Definition observed w (pos seq : Z) : Prop :=
  0 <= seq < 2 ^ 63 ∧
  ∃ s, rb_slots (w_rb w) !! Z.to_nat (pos mod rb_cap (w_rb w)) = Some s ∧ seq <= slot_seq s.

(** What holds of a thread at each point of its call. *)
Definition thread_ok w (st : thread P) : Prop :=
  match st with
  | Idle | EnqLoad _ | DeqLoad => True
  | EnqSeq _ t => 0 <= t <= rb_tail (w_rb w)
  | EnqCas _ t seq => 0 <= t <= rb_tail (w_rb w) ∧ observed w t seq
  | EnqStore x t => 0 <= t < rb_tail (w_rb w) ∧ (w_hist w).[t] = Some x ∧ slot_phase w t Free
  | EnqPublish x t => 0 <= t < rb_tail (w_rb w) ∧ (w_hist w).[t] = Some x ∧ slot_phase w t Free ∧
      slot_item <$> rb_slots (w_rb w) !! Z.to_nat (t mod rb_cap (w_rb w)) = Some x
  | DeqSeq h => 0 <= h <= rb_head (w_rb w)
  | DeqCas h seq => 0 <= h <= rb_head (w_rb w) ∧ observed w h seq
  | DeqRead h => 0 <= h < rb_head (w_rb w) ∧ slot_phase w h Full ∧ h ∉ (w_out w).*1
  | DeqRelease h v => 0 <= h < rb_head (w_rb w) ∧ slot_phase w h Full
  end.

(** The ticket a thread holds: of an enqueue, respectively of a dequeue. *)
Definition enq_ticket (st : thread P) : option Z :=
  match st with EnqStore _ t | EnqPublish _ t => Some t | _ => None end.
Definition deq_ticket (st : thread P) : option Z :=
  match st with DeqRead h | DeqRelease h _ => Some h | _ => None end.

Definition distinct_tickets (ticket : thread P → option Z) (ts : list (thread P)) : Prop :=
  ∀ i j a b k, ts !! i = Some a → ts !! j = Some b → ticket a = Some k → ticket b = Some k → i = j.

Record inv (c : config P) : Prop := mk_inv {
  inv_cap : ∃ k, 1 <= k <= 59 ∧ rb_cap (w_rb (c_world c)) = 2 ^ k;
  inv_mask : rb_mask (w_rb (c_world c)) = rb_cap (w_rb (c_world c)) - 1;
  inv_slots : Z.of_nat (length (rb_slots (w_rb (c_world c)))) = rb_cap (w_rb (c_world c));
  inv_bound : Z.of_nat (length (w_hist (c_world c))) <= 2 ^ 62;
  inv_tail : rb_tail (w_rb (c_world c)) = Z.of_nat (length (w_hist (c_world c)));
  inv_head : 0 <= rb_head (w_rb (c_world c)) <= rb_tail (w_rb (c_world c));
  inv_phase : ∀ s, 0 <= s < rb_cap (w_rb (c_world c)) →
    ∃ i ph, i mod rb_cap (w_rb (c_world c)) = s ∧ slot_phase (c_world c) i ph;
  inv_threads : Forall (thread_ok (c_world c)) (c_threads c);
  inv_enq : distinct_tickets enq_ticket (c_threads c);
  inv_deq : distinct_tickets deq_ticket (c_threads c);
  inv_out : ∀ i x, (i, x) ∈ w_out (c_world c) →
    0 <= i < rb_head (w_rb (c_world c)) ∧ (w_hist (c_world c)).[i] = Some x;
  inv_once : NoDup (w_out (c_world c)).*1
}.
End steps.

(** ** Lemmas *)

Lemma seq_diff_exact a b : 0 <= a < 2 ^ 63 → 0 <= b < 2 ^ 63 → seq_diff a b = a - b.
Proof. intros Ha Hb. unfold seq_diff, i64. apply signed_small; simpl; lia. Qed.

Section conc_lemmas.
Context {P : Type}.
Implicit Types (c : config P) (w : world P) (st : thread P) (ts : list (thread P)).

Abbreviation cap w := (rb_cap (w_rb w)).

(** What the lemmas on slots need of the shared state. *)
Record shape w : Prop := mk_shape {
  sh_cap : 2 <= cap w <= 2 ^ 59;
  sh_slots : Z.of_nat (length (rb_slots (w_rb w))) = cap w;
  sh_index : ∀ i, 0 <= i → slot_index (w_rb w) i = Z.to_nat (i mod cap w);
  sh_tail : 0 <= rb_tail (w_rb w) <= 2 ^ 62;
  sh_head : 0 <= rb_head (w_rb w) <= rb_tail (w_rb w)
}.

Lemma inv_shape c : inv c → shape (c_world c).
Proof.
  intros [(k & Hk & Hc) Hm Hs Hb Ht Hh _ _ _ _ _ _]. constructor; try done; try lia.
  - rewrite Hc. split; [change 2 with (2 ^ 1) at 1|]; apply Z.pow_le_mono_r; lia.
  - intros i Hi. unfold slot_index. rewrite Hm, Hc, Z.sub_1_r, <- Z.ones_equiv, Z.land_ones by lia. done.
Qed.

Lemma same_slot w i j :
  shape w → 0 <= i → 0 <= j →
  Z.to_nat (i mod cap w) = Z.to_nat (j mod cap w) ↔ i mod cap w = j mod cap w.
Proof.
  intros [Hc _ _ _ _] Hi Hj. pose proof (Z.mod_pos_bound i (cap w)). pose proof (Z.mod_pos_bound j (cap w)).
  split; [lia|congruence].
Qed.

Lemma mod_near (n i j : Z) : 0 < n → i mod n = j mod n → - n < i - j < n → i = j.
Proof.
  intros Hc E Hij. rewrite !Z.mod_eq in E by lia. generalize dependent (i / n). generalize (j / n).
  intros b a E. assert (a = b ∨ a < b ∨ b < a) as [->|[?|?]] by lia; nia.
Qed.

Lemma mod_succ (n i j : Z) : 2 <= n → i mod n = j mod n → i ≠ j + 1.
Proof.
  intros Hc E ->. rewrite <- (Z.add_0_r j) in E at 2. rewrite (Z.add_mod j 1), (Z.add_mod j 0) in E by lia.
  rewrite (Z.mod_small 1), (Z.mod_small 0), Z.add_0_r, Z.mod_mod in E by lia.
  pose proof (Z.mod_pos_bound j n ltac:(lia)). set (r := j mod n) in *.
  destruct (Z.eq_dec (r + 1) n) as [Ec|].
  - rewrite Ec, Z.mod_same in E by lia. lia.
  - rewrite Z.mod_small in E; lia.
Qed.

(** A slot is in one phase, for one ticket. *)
Lemma phase_unique w i ph j ph' :
  shape w → slot_phase w i ph → slot_phase w j ph' → i mod cap w = j mod cap w → i = j ∧ ph = ph'.
Proof.
  intros Hsh (Hi & _ & _ & v & Ev & _) (Hj & _ & _ & v' & Ev' & _) E.
  rewrite E, Ev' in Ev. injection Ev as Eseq _. pose proof (sh_cap _ Hsh).
  destruct ph, ph'; [by split|exfalso..|split; [lia|done]].
  - by apply (mod_succ (cap w) i j); [lia|done|lia].
  - by apply (mod_succ (cap w) j i); [lia|done|lia].
Qed.

Lemma slot_at_mod w i : shape w → 0 <= i → slot_at (w_rb w) i = rb_slots (w_rb w) !! Z.to_nat (i mod cap w).
Proof. intros Hsh Hi. unfold slot_at. by rewrite (sh_index _ Hsh i Hi). Qed.

Lemma phase_seq w i ph v :
  slot_phase w i ph → rb_slots (w_rb w) !! Z.to_nat (i mod cap w) = Some v →
  slot_seq v = match ph with Free => i | Full => i + 1 end.
Proof. intros (_ & _ & _ & u & Eu & _) Hv. rewrite Eu in Hv. by injection Hv as <-. Qed.

(** The current phase of the slot of [t]. *)
Lemma phase_of c t : inv c → 0 <= t →
  ∃ i ph, i mod cap (c_world c) = t mod cap (c_world c) ∧ slot_phase (c_world c) i ph.
Proof.
  intros Hinv Ht. pose proof (sh_cap _ (inv_shape c Hinv)).
  apply (inv_phase _ Hinv). apply Z.mod_pos_bound. lia.
Qed.

Lemma observe c t s :
  inv c → 0 <= t → slot_at (w_rb (c_world c)) t = Some s → observed (c_world c) t (slot_seq s).
Proof.
  intros Hinv Ht Hs. pose proof (inv_shape c Hinv) as Hsh. rewrite slot_at_mod in Hs by done.
  destruct (phase_of c t Hinv Ht) as (i & ph & E & Hph).
  assert (slot_seq s = match ph with Free => i | Full => i + 1 end) as Hq.
  { eapply phase_seq; [exact Hph|]. by rewrite E. }
  destruct Hph as (Hi & Hlt & _). destruct Hsh as [Hc _ _ ? ?].
  split; [|exists s; split; [done|lia]]. rewrite Hq. destruct ph; lia.
Qed.

(** A ticket can be won only while its slot is in the phase that was seen. *)
Lemma cas_free c t seq :
  inv c → rb_tail (w_rb (c_world c)) = t → observed (c_world c) t seq → seq_diff seq t = 0 →
  slot_phase (c_world c) t Free.
Proof.
  intros Hinv Et (Hseq & s & Hs & Hle) Hd. pose proof (inv_shape c Hinv) as Hsh.
  destruct Hsh as [Hc Hsl Hix Htl Hhd]. rewrite seq_diff_exact in Hd by lia.
  destruct (phase_of c t Hinv ltac:(lia)) as (i & ph & E & Hph).
  assert (slot_seq s = match ph with Free => i | Full => i + 1 end) as Hq.
  { eapply phase_seq; [exact Hph|]. by rewrite E. }
  pose proof Hph as (Hi & Hlo & Hhi & v & Hv & Hcase). destruct ph.
  - assert (i = t) as -> by (apply (mod_near (cap (c_world c))); [lia|done|lia]). done.
  - exfalso. destruct Hcase as [Hit _].
    assert (i = t) by (apply (mod_near (cap (c_world c))); [lia|done|]; lia). lia.
Qed.

Lemma cas_full c h seq :
  inv c → rb_head (w_rb (c_world c)) = h → observed (c_world c) h seq → seq_diff seq (u64 (h + 1)) = 0 →
  slot_phase (c_world c) h Full.
Proof.
  intros Hinv Eh (Hseq & s & Hs & Hle) Hd. pose proof (inv_shape c Hinv) as Hsh.
  destruct Hsh as [Hc Hsl Hix Htl Hhd]. rewrite u64_small, seq_diff_exact in Hd by lia.
  destruct (phase_of c h Hinv ltac:(lia)) as (i & ph & E & Hph).
  assert (slot_seq s = match ph with Free => i | Full => i + 1 end) as Hq.
  { eapply phase_seq; [exact Hph|]. by rewrite E. }
  pose proof Hph as (Hi & Hlo & Hhi & v & Hv & Hcase). destruct ph.
  - exfalso. assert (i = h) by (apply (mod_near (cap (c_world c))); [lia|done|]; lia). lia.
  - assert (i = h) as -> by (apply (mod_near (cap (c_world c))); [lia|done|]; lia). done.
Qed.

(** *** Threads *)

Lemma tickets_insert (ticket : thread P → option Z) ts tid st' :
  distinct_tickets ticket ts →
  (∀ j b k, j ≠ tid → ts !! j = Some b → ticket st' = Some k → ticket b ≠ Some k) →
  distinct_tickets ticket (<[tid := st']> ts).
Proof.
  intros Hd Hnew i j a b k Ha Hb Ka Kb.
  apply list_lookup_insert_Some in Ha as [(-> & -> & _)|[Hi Ha]];
    apply list_lookup_insert_Some in Hb as [(-> & -> & _)|[Hj Hb]]; [done| | |by eapply Hd].
  - by destruct (Hnew j b k).
  - by destruct (Hnew i a k).
Qed.

(** A ticket kept by the same thread. *)
Lemma tickets_keep (ticket : thread P → option Z) ts tid st st' :
  distinct_tickets ticket ts → ts !! tid = Some st → ticket st' = ticket st ∨ ticket st' = None →
  distinct_tickets ticket (<[tid := st']> ts).
Proof.
  intros Hd Hst Hk. apply tickets_insert; [done|]. intros j b k Hj Hb Ek Eb.
  destruct Hk as [Hk|Hk]; rewrite Hk in Ek; [|done]. by destruct (Hd tid j st b k).
Qed.

Lemma threads_insert w' ts tid st' :
  thread_ok w' st' → (∀ j b, j ≠ tid → ts !! j = Some b → thread_ok w' b) →
  Forall (thread_ok w') (<[tid := st']> ts).
Proof.
  intros Hnew Hold. apply Forall_lookup. intros j b Hb.
  apply list_lookup_insert_Some in Hb as [(-> & -> & _)|[Hj Hb]]; [done|by eapply Hold].
Qed.

Lemma thread_lookup c j b : inv c → c_threads c !! j = Some b → thread_ok (c_world c) b.
Proof. intros Hinv Hb. eapply Forall_lookup_1; [apply (inv_threads _ Hinv)|exact Hb]. Qed.

(** Steps that touch only the thread's own variables. *)
Lemma inv_local c tid st st' :
  inv c → c_threads c !! tid = Some st → thread_ok (c_world c) st' →
  enq_ticket st' = None → deq_ticket st' = None →
  inv (mk_config (c_world c) (<[tid := st']> (c_threads c))).
Proof.
  intros Hinv Hst Hok He Hd. pose proof Hinv as [? ? ? ? ? ? ? ? ? ? ? ?].
  constructor; simpl; try done.
  - apply threads_insert; [done|]. intros j b _ Hb. by eapply thread_lookup.
  - eapply tickets_keep; eauto.
  - eapply tickets_keep; eauto.
Qed.

(** *** Winning a ticket *)

Lemma inv_enq_cas c tid x t seq :
  inv c → c_threads c !! tid = Some (EnqCas x t seq) →
  seq_diff seq t = 0 → rb_tail (w_rb (c_world c)) = t →
  Z.of_nat (length (w_hist (c_world c) ++ [x])) <= 2 ^ 62 →
  inv (mk_config (mk_world (set_tail (w_rb (c_world c)) (u64 (t + 1))) (w_hist (c_world c) ++ [x])
        (w_out (c_world c))) (<[tid := EnqStore x t]> (c_threads c))).
Proof.
  intros Hinv Hst Hd Et Hb. pose proof (thread_lookup _ _ _ Hinv Hst) as [Ht Hobs].
  pose proof (cas_free c t seq Hinv Et Hobs Hd) as Hfree. pose proof (inv_shape c Hinv) as Hsh.
  pose proof Hinv as [Hcap Hmask Hslots Hbound Htail Hhead Hphase Hthreads Henq Hdeq Hout Honce].
  rewrite u64_small by lia. set (w' := mk_world _ _ _).
  assert (∀ k y, (w_hist (c_world c)).[k] = Some y → (w_hist w').[k] = Some y) as Hhist.
  { intros k y Hk. unfold w'. simpl. by apply lookup_app_l_Some. }
  assert (∀ i ph, slot_phase (c_world c) i ph → slot_phase w' i ph) as Hph.
  { intros i ph Hi. assert (rb_tail (w_rb (c_world c)) ≠ i + cap (c_world c)) as Hne.
    { intros E. destruct (phase_unique _ _ _ _ _ Hsh Hi Hfree) as [-> _]; [|pose proof (sh_cap _ Hsh); lia].
      rewrite <- Et, E. symmetry. apply mod_lap. pose proof (sh_cap _ Hsh). lia. }
    destruct Hi as (? & ? & ? & v & Hv & Hcase). unfold w'. split_and!; simpl; try lia.
    exists v. split; [done|]. destruct ph; [done|]. destruct Hcase. split; [lia|by apply Hhist]. }
  constructor; simpl; try done; rewrite ?length_app; simpl; try lia.
  - intros s Hs. destruct (Hphase s Hs) as (i & ph & E & Hi). exists i, ph. split; [done|]. by apply Hph.
  - apply threads_insert.
    + simpl. split_and!; [lia|lia| |by apply Hph]. apply list_lookup_middle. lia.
    + intros j b _ Hj. pose proof (thread_lookup _ _ _ Hinv Hj) as Hok.
      destruct b; simpl in Hok |- *; try done; intuition (auto; lia).
  - apply tickets_insert; [done|]. intros j b k Hj Hb' [= <-] Hk.
    pose proof (thread_lookup _ _ _ Hinv Hb') as Hok. destruct b; simplify_eq/=; lia.
  - by eapply tickets_keep; eauto.
  - intros i y Hi. destruct (Hout i y Hi). split; [lia|]. by apply Hhist.
Qed.

Lemma inv_deq_cas c tid h seq :
  inv c → c_threads c !! tid = Some (DeqCas h seq) →
  seq_diff seq (u64 (h + 1)) = 0 → rb_head (w_rb (c_world c)) = h →
  inv (mk_config (with_rb (c_world c) (set_head (w_rb (c_world c)) (u64 (h + 1))))
        (<[tid := DeqRead h]> (c_threads c))).
Proof.
  intros Hinv Hst Hd Eh. pose proof (thread_lookup _ _ _ Hinv Hst) as [Hh Hobs].
  pose proof (cas_full c h seq Hinv Eh Hobs Hd) as Hfull. pose proof (inv_shape c Hinv) as Hsh.
  pose proof Hinv as [Hcap Hmask Hslots Hbound Htail Hhead Hphase Hthreads Henq Hdeq Hout Honce].
  assert (h < rb_tail (w_rb (c_world c))) as Hlt by (destruct Hfull as (_ & _ & _ & v & _ & ? & _); lia).
  rewrite u64_small by lia. set (w' := with_rb _ _).
  assert (∀ i ph, slot_phase (c_world c) i ph → slot_phase w' i ph) as Hph.
  { intros i ph Hi. pose proof Hi as (? & ? & ? & v & Hv & Hcase). unfold w'.
    split_and!; simpl; try lia. exists v. split; [done|]. destruct ph; [|done].
    destruct (Z.eq_dec i h) as [->|]; [|lia]. by destruct (phase_unique _ _ _ _ _ Hsh Hi Hfull). }
  constructor; simpl; try done; try lia.
  - intros s Hs. destruct (Hphase s Hs) as (i & ph & E & Hi). exists i, ph. split; [done|]. by apply Hph.
  - apply threads_insert.
    + simpl. split_and!; [lia|lia|by apply Hph|]. intros Hin.
      apply list_elem_of_fmap in Hin as ([i y] & -> & Hin). destruct (Hout i y Hin). simpl in *. lia.
    + intros j b _ Hj. pose proof (thread_lookup _ _ _ Hinv Hj) as Hok.
      destruct b; simpl in Hok |- *; try done; intuition (auto; lia).
  - by eapply tickets_keep; eauto.
  - apply tickets_insert; [done|]. intros j b k Hj Hb' [= <-] Hk.
    pose proof (thread_lookup _ _ _ Hinv Hb') as Hok. destruct b; simplify_eq/=; lia.
  - intros i y Hi. destruct (Hout i y Hi). split; [lia|done].
Qed.

(** *** Writing a slot *)

Section update.
Context c (t : Z) (s' : slot_t P).
Hypothesis (Hinv : inv c) (Ht : 0 <= t).
Abbreviation w := (c_world c).
Abbreviation w' := (with_rb w (set_slot (w_rb w) t s')).

Lemma upd_lookup i : 0 <= i →
  rb_slots (w_rb w') !! Z.to_nat (i mod cap w) =
  if decide (i mod cap w = t mod cap w) then Some s' else rb_slots (w_rb w) !! Z.to_nat (i mod cap w).
Proof using Hinv Ht.
  intros Hi. pose proof (inv_shape c Hinv) as Hsh. unfold with_rb, set_slot, put_slot. simpl.
  rewrite (sh_index _ Hsh) by done. pose proof (same_slot w i t Hsh Hi Ht).
  pose proof (sh_cap _ Hsh). pose proof (sh_slots _ Hsh). pose proof (Z.mod_pos_bound t (cap w)).
  case_decide as E.
  - rewrite E. apply list_lookup_insert_eq. lia.
  - apply list_lookup_insert_ne. intros E'. apply E. symmetry. apply same_slot; [done..|]. done.
Qed.

Lemma upd_phase_other i ph :
  slot_phase w i ph → i mod cap w ≠ t mod cap w → slot_phase w' i ph.
Proof using Hinv Ht.
  intros (Hi & ? & ? & v & Hv & Hcase) Hne. split_and!; [done|done|done|]. exists v. split; [|done].
  change (cap w') with (cap w). by rewrite upd_lookup, decide_False.
Qed.

Lemma upd_observed s p q :
  slot_at (w_rb w) t = Some s → slot_seq s <= slot_seq s' → 0 <= p → observed w p q → observed w' p q.
Proof using Hinv Ht.
  intros Hs Hle Hp (Hq & u & Hu & Hqu). split; [done|]. change (cap w') with (cap w).
  rewrite upd_lookup by done. rewrite slot_at_mod in Hs by (done || by apply inv_shape).
  case_decide as E; [|by eauto]. rewrite E, Hs in Hu. injection Hu as <-. exists s'. split; [done|lia].
Qed.

Lemma upd_thread s st :
  slot_at (w_rb w) t = Some s → slot_seq s <= slot_seq s' → thread_ok w st →
  (∀ k, enq_ticket st = Some k ∨ deq_ticket st = Some k → k mod cap w ≠ t mod cap w) →
  thread_ok w' st.
Proof using Hinv Ht.
  intros Hs Hle Hok Hk. destruct st as [| | |x p q|x k|x k| | |p q|k|k v]; simpl in Hok |- *; try done.
  - destruct Hok. split; [done|]. eapply upd_observed; [done|done|lia|done].
  - destruct Hok as (? & ? & ?). split_and!; [lia..|done|]. apply upd_phase_other; [done|]. apply Hk. by left.
  - destruct Hok as (? & ? & ? & Hi). split_and!; [lia..|done| |].
    + apply upd_phase_other; [done|]. apply Hk. by left.
    + pose proof (upd_lookup k ltac:(lia)) as E. simpl in E. rewrite E, decide_False; [done|]. apply Hk. by left.
  - destruct Hok. split; [done|]. eapply upd_observed; [done|done|lia|done].
  - destruct Hok as (? & ? & ?). split_and!; [lia..| |done]. apply upd_phase_other; [done|]. apply Hk. by right.
  - destruct Hok as (? & ?). split_and!; [lia..|]. apply upd_phase_other; [done|]. apply Hk. by right.
Qed.

Lemma inv_slot tid st st' s i ph :
  c_threads c !! tid = Some st → slot_at (w_rb w) t = Some s → slot_seq s <= slot_seq s' →
  i mod cap w = t mod cap w → slot_phase w' i ph → thread_ok w' st' →
  (enq_ticket st' = enq_ticket st ∨ enq_ticket st' = None) →
  (deq_ticket st' = deq_ticket st ∨ deq_ticket st' = None) →
  (∀ j b k, j ≠ tid → c_threads c !! j = Some b → enq_ticket b = Some k ∨ deq_ticket b = Some k →
     k mod cap w ≠ t mod cap w) →
  inv (mk_config w' (<[tid := st']> (c_threads c))).
Proof using Hinv Ht.
  intros Hst Hs Hle Hi Hph Hok He Hd Hothers.
  pose proof Hinv as [Hcap Hmask Hslots Hbound Htail Hhead Hphase Hthreads Henq Hdeq Hout Honce].
  constructor; simpl; try done.
  - unfold put_slot. by rewrite length_insert.
  - intros k Hk. destruct (Z.eq_dec k (t mod cap w)) as [->|Hne]; [by exists i, ph|].
    destruct (Hphase k Hk) as (j & ph' & <- & Hj). exists j, ph'. split; [done|]. by apply upd_phase_other.
  - apply threads_insert; [done|]. intros j b Hj Hb. eapply upd_thread; [done|done|by eapply thread_lookup|].
    intros k. by apply (Hothers j b k).
  - by eapply tickets_keep.
  - by eapply tickets_keep.
Qed.
End update.

(** Tickets held by other threads are tickets of other slots. *)
Lemma foreign_slot c tid st t ph :
  inv c → c_threads c !! tid = Some st → slot_phase (c_world c) t ph →
  match ph with Free => enq_ticket st = Some t | Full => deq_ticket st = Some t end →
  ∀ j b k, j ≠ tid → c_threads c !! j = Some b → enq_ticket b = Some k ∨ deq_ticket b = Some k →
    k mod cap (c_world c) ≠ t mod cap (c_world c).
Proof.
  intros Hinv Hst Hph Hticket j b k Hj Hb Hk E. pose proof (inv_shape c Hinv) as Hsh.
  pose proof (thread_lookup _ _ _ Hinv Hb) as Hok. apply Hj. destruct Hk as [Hk|Hk].
  - assert (slot_phase (c_world c) k Free) as Hkf
      by (destruct b; simplify_eq/=; destruct Hok as (_ & _ & Hok); by try destruct Hok).
    destruct (phase_unique _ _ _ _ _ Hsh Hkf Hph E) as [-> <-].
    symmetry. by eapply (inv_enq _ Hinv).
  - assert (slot_phase (c_world c) k Full) as Hkf
      by (destruct b; simplify_eq/=; destruct Hok as (_ & Hok); by try destruct Hok).
    destruct (phase_unique _ _ _ _ _ Hsh Hkf Hph E) as [-> <-].
    symmetry. by eapply (inv_deq _ Hinv).
Qed.

Lemma inv_enq_store c tid x t s :
  inv c → c_threads c !! tid = Some (EnqStore x t) → slot_at (w_rb (c_world c)) t = Some s →
  inv (mk_config (with_rb (c_world c) (set_slot (w_rb (c_world c)) t (mk_slot (slot_seq s) x)))
        (<[tid := EnqPublish x t]> (c_threads c))).
Proof.
  intros Hinv Hst Hs. pose proof (thread_lookup _ _ _ Hinv Hst) as (Ht & Hx & Hfree).
  pose proof (inv_shape c Hinv) as Hsh. pose proof Hs as Hs'. rewrite slot_at_mod in Hs' by (done || lia).
  assert (slot_phase (with_rb (c_world c) (set_slot (w_rb (c_world c)) t (mk_slot (slot_seq s) x))) t Free)
    as Hph.
  { pose proof (phase_seq _ _ _ _ Hfree Hs') as Hq. destruct Hfree as (? & ? & ? & v & _ & ?).
    split_and!; [done|done|done|]. exists x. split; [|done]. change (cap (with_rb _ _)) with (cap (c_world c)).
    rewrite upd_lookup, decide_True by (done || lia). by rewrite Hq. }
  eapply (inv_slot c t _ Hinv ltac:(lia)); [exact Hst|exact Hs|simpl; lia|done|exact Hph| |by left|by left|].
  - split; [exact Ht|]. split; [exact Hx|]. split; [exact Hph|].
    pose proof (upd_lookup c t (mk_slot (slot_seq s) x) Hinv ltac:(lia) t ltac:(lia)) as E.
    simpl in E |- *. by rewrite E, decide_True.
  - by eapply (foreign_slot c tid (EnqStore x t) t Free).
Qed.

Lemma inv_enq_publish c tid x t s :
  inv c → c_threads c !! tid = Some (EnqPublish x t) → slot_at (w_rb (c_world c)) t = Some s →
  inv (mk_config (with_rb (c_world c) (set_slot (w_rb (c_world c)) t (mk_slot (u64 (t + 1)) (slot_item s))))
        (<[tid := Idle]> (c_threads c))).
Proof.
  intros Hinv Hst Hs. pose proof (thread_lookup _ _ _ Hinv Hst) as (Ht & Hx & Hfree & Hitem).
  pose proof (inv_shape c Hinv) as Hsh. pose proof (sh_tail _ Hsh).
  pose proof Hs as Hs'. rewrite slot_at_mod in Hs' by (done || lia).
  rewrite Hs' in Hitem. simpl in Hitem. injection Hitem as Hitem.
  pose proof (phase_seq _ _ _ _ Hfree Hs') as Hq. simpl in Hq. rewrite u64_small by lia.
  eapply (inv_slot c t _ Hinv ltac:(lia) tid _ Idle s t Full);
    [exact Hst|exact Hs|simpl; lia|done| |done|by right|by right|].
  - destruct Hfree as (? & ? & ? & v & _ & ?). split_and!; [done|done|done|]. exists x.
    change (cap (with_rb _ _)) with (cap (c_world c)).
    rewrite upd_lookup, decide_True by (done || lia). rewrite Hitem. split; [done|]. simpl. split; [lia|done].
  - by eapply (foreign_slot c tid (EnqPublish x t) t Free).
Qed.

Lemma inv_deq_read c tid h s :
  inv c → c_threads c !! tid = Some (DeqRead h) → slot_at (w_rb (c_world c)) h = Some s →
  inv (mk_config (mk_world (w_rb (c_world c)) (w_hist (c_world c)) (w_out (c_world c) ++ [(h, slot_item s)]))
        (<[tid := DeqRelease h (slot_item s)]> (c_threads c))).
Proof.
  intros Hinv Hst Hs. pose proof (thread_lookup _ _ _ Hinv Hst) as (Hh & Hfull & Hnew).
  pose proof (inv_shape c Hinv) as Hsh. rewrite slot_at_mod in Hs by (done || lia).
  pose proof Hinv as [Hcap Hmask Hslots Hbound Htail Hhead Hphase Hthreads Henq Hdeq Hout Honce].
  assert ((w_hist (c_world c)).[h] = Some (slot_item s)) as Hx.
  { destruct Hfull as (_ & _ & _ & v & Hv & _ & Hv'). rewrite Hv in Hs. by injection Hs as <-. }
  constructor; simpl; try done.
  - apply threads_insert; [by split|]. intros j b Hj Hb. pose proof (thread_lookup _ _ _ Hinv Hb) as Hok.
    destruct b as [| | | | | | | | |k|]; simpl in Hok |- *; try done.
    destruct Hok as (Hk & Hkf & Hkn). split; [done|]. split; [exact Hkf|].
    rewrite fmap_app, elem_of_app. intros [?|Hin]; [done|]. simpl in Hin.
    apply elem_of_cons in Hin as [->|Hin]; [|by apply not_elem_of_nil in Hin].
    destruct Hj. by eapply (Hdeq j tid).
  - by eapply tickets_keep; [|exact Hst|by left].
  - by eapply tickets_keep; [|exact Hst|by left].
  - intros i y [Hi|Hi]%elem_of_app; [by apply Hout|].
    apply elem_of_cons in Hi as [[= -> ->]|Hi]; [done|by apply not_elem_of_nil in Hi].
  - rewrite fmap_app. apply list.NoDup_app. split_and!; [done| |apply NoDup_singleton].
    intros k Hk Hin. simpl in Hin. apply elem_of_cons in Hin as [->|Hin]; [done|by apply not_elem_of_nil in Hin].
Qed.

Lemma inv_deq_release c tid h v s :
  inv c → c_threads c !! tid = Some (DeqRelease h v) → slot_at (w_rb (c_world c)) h = Some s →
  inv (mk_config (with_rb (c_world c)
         (set_slot (w_rb (c_world c)) h (mk_slot (u64 (h + rb_mask (w_rb (c_world c)) + 1)) (slot_item s))))
        (<[tid := Idle]> (c_threads c))).
Proof.
  intros Hinv Hst Hs. pose proof (thread_lookup _ _ _ Hinv Hst) as (Hh & Hfull).
  pose proof (inv_shape c Hinv) as Hsh. pose proof (sh_tail _ Hsh). pose proof (sh_cap _ Hsh).
  pose proof (sh_head _ Hsh). pose proof (inv_mask _ Hinv) as Hmask.
  pose proof Hs as Hs'. rewrite slot_at_mod in Hs' by (done || lia).
  pose proof (phase_seq _ _ _ _ Hfull Hs') as Hq. simpl in Hq.
  rewrite u64_small by lia. replace (h + rb_mask (w_rb (c_world c)) + 1) with (h + cap (c_world c)) by lia.
  eapply (inv_slot c h _ Hinv ltac:(lia) tid _ Idle s (h + cap (c_world c)) Free);
    [exact Hst|exact Hs|simpl; lia|apply mod_lap; lia| |done|by right|by right|].
  - destruct Hfull as (? & ? & ? & u & _ & ? & _).
    split_and!; [lia|simpl; lia|simpl; lia|]. exists (slot_item s).
    change (cap (with_rb _ _)) with (cap (c_world c)).
    rewrite upd_lookup, decide_True by (done || lia || (apply mod_lap; lia)). split; [done|]. simpl. lia.
  - by eapply (foreign_slot c tid (DeqRelease h v) h Full).
Qed.

Lemma inv_step c c' : step c c' → inv c → inv c'.
Proof.
  intros (tid & st & w2 & st2 & Hst & Hstep & -> & Hb) Hinv.
  pose proof (thread_lookup _ _ _ Hinv Hst) as Hok. pose proof (inv_head _ Hinv) as Hhd.
  inversion Hstep; subst; simpl in Hok;
    try (eapply inv_local; [done|done|simpl|done|done]).
  - done.
  - simpl. lia.
  - split; [done|]. by apply observe; [|lia|].
  - by eapply inv_enq_cas.
  - simpl. lia.
  - done.
  - done.
  - by apply inv_enq_store.
  - by apply (inv_enq_publish c tid x t).
  - done.
  - simpl. lia.
  - split; [done|]. by apply observe; [|lia|].
  - by eapply inv_deq_cas.
  - simpl. lia.
  - done.
  - done.
  - by apply inv_deq_read.
  - by eapply inv_deq_release.
Qed.

Lemma inv_initial (rb : perf_ringbuf P) n : rb_repr rb 0 [] → inv (initial rb n).
Proof.
  intros [Hc Hm Hs Hh Hf Ehd Etl Hfull Hfree]. simpl in *.
  assert (rb_tail rb = 0) as Etl' by (rewrite Etl; done). assert (rb_head rb = 0) as Ehd' by (rewrite Ehd; done).
  clear Etl Ehd.
  assert (0 < rb_cap rb <= 2 ^ 59) as Hcap.
  { destruct Hc as (k & Hk & ->). split; [apply Z.pow_pos_nonneg; lia|apply Z.pow_le_mono_r; lia]. }
  constructor; simpl; try done; try lia.
  - intros s Hs'. exists s, Free. split; [apply Z.mod_small; lia|]. split_and!; simpl; try lia.
    destruct (Hfree s ltac:(lia)) as [x Hx]. exists x. rewrite Hx, u64_small by lia. split; [done|lia].
  - by apply Forall_replicate.
  - intros i j a b k Ha. apply lookup_replicate in Ha as [-> _]. done.
  - intros i j a b k Ha. apply lookup_replicate in Ha as [-> _]. done.
  - intros i x Hi. by apply not_elem_of_nil in Hi.
  - constructor.
Qed.

Lemma inv_reachable (rb : perf_ringbuf P) n c : rb_repr rb 0 [] → star step (initial rb n) c → inv c.
Proof. intros Hr Hs. eapply (star_invariant step inv inv_step); [exact Hs|by apply inv_initial]. Qed.
End conc_lemmas.

(** *** No item is lost *)

Section no_loss.
Context {P : Type}.
Implicit Types (c : config P).

(** A ticket that was dequeued has been read, or the consumer that won it is about
    to read it; the slot of an enqueue ticket that is not dequeued still has the
    number of the ticket only while the producer that won it is in its call. *)
Definition taken_held c : Prop :=
  ∀ i, 0 <= i < rb_head (w_rb (c_world c)) →
    i ∈ (w_out (c_world c)).*1 ∨ ∃ tid, c_threads c !! tid = Some (DeqRead i).
Definition given_held c : Prop :=
  ∀ i s, rb_head (w_rb (c_world c)) <= i < rb_tail (w_rb (c_world c)) →
    rb_slots (w_rb (c_world c)) !! Z.to_nat (i mod rb_cap (w_rb (c_world c))) = Some s → slot_seq s = i →
    ∃ tid st, c_threads c !! tid = Some st ∧ enq_ticket st = Some i.

(** A thread that did not move, or that holds the same after its step. *)
Lemma held_after (Q : thread P → Prop) (ts : list (thread P)) tid st st' :
  ts !! tid = Some st → (Q st → Q st') → (∃ j a, ts !! j = Some a ∧ Q a) → ∃ j a, <[tid := st']> ts !! j = Some a ∧ Q a.
Proof.
  intros Ht HQ (j & a & Hj & Ha). destruct (decide (j = tid)) as [->|Hne].
  - exists tid, st'. simplify_eq. split; [|auto]. apply list_lookup_insert_eq. by eapply lookup_lt_Some.
  - exists j, a. by rewrite list_lookup_insert_ne.
Qed.

Lemma held_now (Q : thread P → Prop) (ts : list (thread P)) tid st st' :
  ts !! tid = Some st → Q st' → ∃ j a, <[tid := st']> ts !! j = Some a ∧ Q a.
Proof. intros Ht HQ. exists tid, st'. split; [|done]. apply list_lookup_insert_eq. by eapply lookup_lt_Some. Qed.

Lemma taken_step c c' : step c c' → inv c → taken_held c → taken_held c'.
Proof.
  intros (tid & st & w2 & st2 & Hst & Hstep & -> & _) Hinv Hh i Hi. cbn [c_world c_threads] in *.
  assert (∀ i, 0 <= i < rb_head (w_rb (c_world c)) →
    i ∈ (w_out (c_world c)).*1 ∨ ∃ j a, c_threads c !! j = Some a ∧ a = DeqRead i) as Hold.
  { intros k Hk. destruct (Hh k Hk) as [|[j Hj]]; [by left|right; eauto]. }
  assert ((∃ j a, <[tid := st2]> (c_threads c) !! j = Some a ∧ a = DeqRead i) →
    ∃ tid0, <[tid := st2]> (c_threads c) !! tid0 = Some (DeqRead i)) as Hnew by (intros (j & a & Hj & ->); eauto).
  pose proof (thread_lookup _ _ _ Hinv Hst) as Hok. pose proof (inv_head _ Hinv). pose proof (inv_bound _ Hinv). pose proof (inv_tail _ Hinv).
  inversion Hstep; subst; cbn [w_rb w_out with_rb set_tail set_head set_slot rb_head] in *;
    try (destruct (Hold i Hi) as [|Hj]; [by left|right; apply Hnew; eapply held_after; [exact Hst| |exact Hj]; by intros ?]).
  - (* the ticket is won *)
    rewrite u64_small in Hi by lia. destruct (decide (i = rb_head (w_rb (c_world c)))) as [->|Hne].
    + right. apply Hnew. by eapply held_now.
    + destruct (Hold i ltac:(lia)) as [|Hj]; [by left|right; apply Hnew; eapply held_after; [exact Hst| |exact Hj]; by intros ?].
  - (* the item is read *)
    rewrite fmap_app. setoid_rewrite elem_of_app. destruct (decide (i = h)) as [->|Hne]; [left; right; by left|].
    destruct (Hold i Hi) as [|Hj]; [by left; left|right; apply Hnew; eapply held_after; [exact Hst| |exact Hj]; intros ?; simplify_eq].
Qed.

(** A step that writes the slot of a ticket it holds. *)
Lemma given_slot c tid st st' t s' :
  inv c → given_held c → c_threads c !! tid = Some st → 0 <= t →
  (∀ i, enq_ticket st = Some i → i = t) →
  (∀ i, rb_head (w_rb (c_world c)) <= i < rb_tail (w_rb (c_world c)) → i mod rb_cap (w_rb (c_world c)) = t mod rb_cap (w_rb (c_world c)) →
     slot_seq s' = i → enq_ticket st' = Some i) →
  given_held (mk_config (with_rb (c_world c) (set_slot (w_rb (c_world c)) t s')) (<[tid := st']> (c_threads c))).
Proof.
  intros Hinv Hg Hst Ht He Hs i s Hi Hl Hseq. cbn [c_world c_threads w_rb with_rb set_slot rb_head rb_tail rb_cap] in *.
  pose proof (inv_head _ Hinv). pose proof (upd_lookup c t s' Hinv Ht i ltac:(lia)) as Hu.
  cbn [w_rb with_rb set_slot rb_slots] in Hu, Hl. rewrite Hu in Hl. case_decide as E.
  - simplify_eq. exists tid, st'. split; [apply list_lookup_insert_eq; by eapply lookup_lt_Some|]. by apply Hs.
  - apply (held_after (λ a, enq_ticket a = Some i) _ tid st); [done| |by apply (Hg i s)].
    intros Hi'. destruct E. by rewrite (He i Hi').
Qed.

Lemma given_step c c' : step c c' → inv c → given_held c → given_held c'.
Proof.
  intros (tid & st & w2 & st2 & Hst & Hstep & -> & Hb) Hinv Hg.
  pose proof (thread_lookup _ _ _ Hinv Hst) as Hok. pose proof (inv_head _ Hinv). pose proof (inv_bound _ Hinv). pose proof (inv_tail _ Hinv) as Htl.
  pose proof (inv_shape c Hinv) as Hsh.
  inversion Hstep; subst; simpl in Hok;
    try (intros i s0 Hi Hl Hseq; eapply (held_after (λ a, enq_ticket a = Some i)); [exact Hst|done|by apply (Hg i s0)]).
  - intros i s0 Hi Hl Hseq. cbn in Hi, Hl. rewrite u64_small in Hi by lia. cbn [c_threads].
    destruct (decide (i = rb_tail (w_rb (c_world c)))) as [->|Hne].
    + by apply (held_now (λ a, enq_ticket a = Some _) _ tid (EnqCas x (rb_tail (w_rb (c_world c))) seq)).
    + apply (held_after (λ a, enq_ticket a = Some i) _ tid (EnqCas x (rb_tail (w_rb (c_world c))) seq)); [done|done|]. apply (Hg i s0); [lia|done|done].
  - apply (given_slot c tid (EnqStore x t)); [done|done|done|lia|by intros i [= ->]|].
    intros i Hi E Hseq. simpl in *. destruct Hok as (Hr & _ & Hph).
    match goal with Hs : slot_at _ t = Some s |- _ => rewrite slot_at_mod in Hs by (done || lia);
      rewrite (phase_seq _ _ _ _ Hph Hs) in Hseq end. by subst.
  - apply (given_slot c tid (EnqPublish x t)); [done|done|done|lia|by intros i [= ->]|].
    intros i Hi E Hseq. simpl in Hseq. pose proof (sh_tail _ Hsh). rewrite u64_small in Hseq by lia.
    exfalso. apply (mod_succ (rb_cap (w_rb (c_world c))) i t); [apply Hsh|done|lia].
  - intros i s0 Hi Hl Hseq. cbn in Hi, Hl. rewrite u64_small in Hi by lia. cbn [c_threads].
    apply (held_after (λ a, enq_ticket a = Some i) _ tid (DeqCas (rb_head (w_rb (c_world c))) seq)); [done|done|]. apply (Hg i s0); [lia|done|done].
  - apply (given_slot c tid (DeqRelease h v)); [done|done|done|lia|done|].
    intros i Hi E Hseq. simpl in Hseq. destruct Hok as (Hr & _ & _ & Ht & _). pose proof (inv_mask _ Hinv). pose proof (sh_cap _ Hsh).
    pose proof (sh_tail _ Hsh). rewrite u64_small in Hseq by lia. lia.
Qed.

Lemma held_reachable (rb : perf_ringbuf P) n c :
  rb_repr rb 0 [] → star step (initial rb n) c → inv c ∧ taken_held c ∧ given_held c.
Proof.
  intros Hr Hs. eapply (star_invariant step (λ c, inv c ∧ taken_held c ∧ given_held c)); [|exact Hs|].
  - intros c1 c2 H12 (Hi & Ht & Hg). split_and!; [by eapply inv_step|by eapply taken_step|by eapply given_step].
  - pose proof (inv_initial rb n Hr) as Hi. split_and!; [done| |].
    + intros i Hin. pose proof (inv_head _ Hi). pose proof (inv_tail _ Hi) as Ht. simpl in *. lia.
    + intros i s Hin. pose proof (inv_head _ Hi). pose proof (inv_tail _ Hi) as Ht. simpl in *. lia.
Qed.

(** Where the item of an enqueue ticket is. *)
Inductive item_place c (i : Z) : Prop :=
| ItemRead x : (i, x) ∈ w_out (c_world c) → item_place c i
| ItemHeld tid : c_threads c !! tid = Some (DeqRead i) → item_place c i
| ItemInSlot x : rb_head (w_rb (c_world c)) <= i → slot_at (w_rb (c_world c)) i = Some (mk_slot (i + 1) x) →
    (w_hist (c_world c)).[i] = Some x → item_place c i
| ItemComing tid st : rb_head (w_rb (c_world c)) <= i → c_threads c !! tid = Some st → enq_ticket st = Some i → item_place c i.

Lemma item_somewhere c i : inv c → taken_held c → given_held c →
  0 <= i < rb_tail (w_rb (c_world c)) → item_place c i.
Proof.
  intros Hinv Ht Hg Hi. destruct (decide (i < rb_head (w_rb (c_world c)))) as [Hlt|Hge].
  - destruct (Ht i ltac:(lia)) as [Hin|[tid Htid]]; [|by eapply ItemHeld].
    apply list_elem_of_fmap in Hin as ([k x] & -> & Hin). by eapply ItemRead.
  - pose proof (inv_shape c Hinv) as Hsh. pose proof (sh_cap _ Hsh). destruct (phase_of c i Hinv ltac:(lia)) as (j & ph & E & Hph).
    pose proof Hph as (Hj & Hh & Htl & v & Hv & Hp).
    assert (j = i) as ->. { eapply (mod_near (rb_cap (w_rb (c_world c)))); [lia|done|]. lia. }
    destruct ph.
    + destruct (Hg i _ ltac:(lia) Hv eq_refl) as (tid & st & Htid & Hst). eapply ItemComing; [lia|done|done].
    + eapply ItemInSlot; [lia| |apply Hp]. by rewrite slot_at_mod by (done || lia).
Qed.
End no_loss.

(** *** Calls without interference *)

Section alone.
Context {P : Type}.

(** Steps of one thread while the others stand still. *)
Definition solo (a b : world P * thread P) : Prop := thread_step a.1 a.2 b.1 b.2.

Lemma solo_enqueue w x rb' :
  perf_ringbuf_enqueue (w_rb w) x = Some (0, None, rb') →
  star solo (w, EnqLoad x) (mk_world rb' (w_hist w ++ [x]) (w_out w), Idle).
Proof.
  unfold perf_ringbuf_enqueue. destruct (slot_at (w_rb w) (rb_tail (w_rb w))) as [s|] eqn:Es; [|done].
  cbn [mbind option_bind]. case (Z.eqb_spec (seq_diff (slot_seq s) (rb_tail (w_rb w))) 0); intros Hd;
    [|by destruct (_ <? 0)]. intros [= <-]. set (t := rb_tail (w_rb w)) in *.
  set (rb1 := set_tail (w_rb w) (u64 (t + 1))).
  assert (slot_at rb1 t = Some s) as Es1 by exact Es.
  assert (slot_at (set_slot rb1 t (mk_slot (slot_seq s) x)) t = Some (mk_slot (slot_seq s) x)) as Es2.
  { unfold slot_at, slot_index, set_slot, put_slot. simpl. apply list_lookup_insert_eq.
    by apply lookup_lt_Some in Es. }
  set (w1 := mk_world rb1 (w_hist w ++ [x]) (w_out w)).
  apply (star_step solo _ (w, EnqSeq x t)); [apply enq_load|].
  apply (star_step solo _ (w, EnqCas x t (slot_seq s))); [by apply enq_seq|].
  apply (star_step solo _ (w1, EnqStore x t)); [by apply enq_cas|].
  eapply (star_step solo _ (_, EnqPublish x t)); [by apply (enq_store w1 x t s)|].
  eapply (star_step solo _ (_, Idle)); [by apply (enq_publish _ x t (mk_slot (slot_seq s) x))|].
  match goal with |- star _ (?a, _) (?b, _) => assert (a = b) as -> end; [|apply star_refl].
  unfold with_rb, set_slot, put_slot, rb1, set_tail, slot_index. simpl.
  by rewrite list_insert_insert_eq.
Qed.
End alone.

(** ** Properties *)

(** C1. Concurrent FIFO: in every interleaving of any number of producers and
    consumers, what the [i]-th winner of a dequeue ticket reads is the item of
    the [i]-th winner of an enqueue ticket, no ticket is read twice, and no item is
    lost: the item of every enqueue ticket has been read, or is about to be read by
    the consumer in whose call its ticket is, or is published in its slot, or is
    being stored by the producer that won the ticket. *)
Theorem ringbuf_concurrent_fifo {P} (rb : perf_ringbuf P) (n : nat) (c : config P) :
  rb_repr rb 0 [] → star step (initial rb n) c →
  (∀ i x, (i, x) ∈ w_out (c_world c) → (w_hist (c_world c)).[i] = Some x) ∧
  NoDup (w_out (c_world c)).*1 ∧
  (∀ i, 0 <= i < Z.of_nat (length (w_hist (c_world c))) → item_place c i) ∧
  0 <= rb_head (w_rb (c_world c)) <= rb_tail (w_rb (c_world c)).
Proof.
  intros Hr Hs. destruct (held_reachable rb n c Hr Hs) as (Hinv & Ht & Hg). split_and!.
  - intros i x Hi. by apply (inv_out _ Hinv).
  - apply (inv_once _ Hinv).
  - intros i Hi. apply item_somewhere; [done..|]. by rewrite (inv_tail _ Hinv).
  - apply (inv_head _ Hinv).
  - apply (inv_head _ Hinv).
Qed.

(** When no call is in progress, what was taken has been read and the rest is in
    the slots. *)
Corollary ringbuf_quiescent {P} (rb : perf_ringbuf P) (n : nat) (c : config P) (i : Z) :
  rb_repr rb 0 [] → star step (initial rb n) c → Forall (λ st, st = Idle) (c_threads c) →
  0 <= i < rb_tail (w_rb (c_world c)) →
  (∃ x, (i, x) ∈ w_out (c_world c)) ∨
  ∃ x, slot_at (w_rb (c_world c)) i = Some (mk_slot (i + 1) x) ∧ (w_hist (c_world c)).[i] = Some x.
Proof.
  intros Hr Hs Hidle Hi. destruct (held_reachable rb n c Hr Hs) as (Hinv & Ht & Hg).
  destruct (item_somewhere c i Hinv Ht Hg Hi) as [x Hx|tid Htid|x _ H1 H2|tid st _ Htid Hst]; [eauto| |eauto|].
  - by pose proof (Forall_lookup_1 _ _ _ _ Hidle Htid).
  - pose proof (Forall_lookup_1 _ _ _ _ Hidle Htid) as E. simpl in E. by rewrite E in Hst.
Qed.

Definition two_slots : perf_ringbuf Z := mk_ringbuf 0 0 2 1 [mk_slot 0 0; mk_slot 1 0].

Lemma two_slots_repr : rb_repr two_slots 0 [].
Proof.
  constructor; simpl; try done; try lia.
  - by exists 1.
  - intros i Hi. exists 0. assert (i = 0 ∨ i = 1) as [-> | ->] by lia; by vm_compute.
Qed.

(** Two producers race for the first ticket, the second one wins. *)
Definition race : config Z :=
  mk_config (mk_world (set_tail two_slots 1) [8] []) [EnqCas 7 0 0; EnqStore 8 0].

Lemma race_reachable : star step (initial two_slots 2) race.
Proof.
  assert (∀ (w : world Z) ts tid st st' w', ts !! tid = Some st → thread_step w st w' st' →
    (length (w_hist w') <= 1)%nat → step (mk_config w ts) (mk_config w' (<[tid := st']> ts))) as Hstep.
  { intros w ts tid st st' w' Hst Hs Hl. exists tid, st, w', st'. split_and!; [done|done|done|lia]. }
  eapply star_step; [apply (Hstep _ _ 0%nat Idle (EnqLoad 7)); [done|constructor|simpl; lia]|].
  eapply star_step; [apply (Hstep _ _ 1%nat Idle (EnqLoad 8)); [done|constructor|simpl; lia]|].
  eapply star_step; [eapply (Hstep _ _ 0%nat); [done|constructor|simpl; lia]|].
  eapply star_step; [eapply (Hstep _ _ 1%nat); [done|constructor|simpl; lia]|].
  eapply star_step; [eapply (Hstep _ _ 0%nat); [done|by apply (enq_seq _ 7 0 (mk_slot 0 0))|simpl; lia]|].
  eapply star_step; [eapply (Hstep _ _ 1%nat); [done|by apply (enq_seq _ 8 0 (mk_slot 0 0))|simpl; lia]|].
  eapply star_step; [eapply (Hstep _ _ 1%nat); [done|by apply enq_cas|simpl; lia]|].
  apply star_refl.
Qed.

Lemma ringbuf_concurrent_fifo_witness :
  star step (initial two_slots 2) race ∧ NoDup (w_out (c_world race)).*1 ∧ item_place race 0.
Proof.
  destruct (ringbuf_concurrent_fifo two_slots 2 race two_slots_repr race_reachable) as (_ & H1 & H2 & _).
  split_and!; [exact race_reachable|exact H1|]. apply H2. simpl. lia.
Defined.

(** No data race on the items: at no time are two threads about to access
    the item of the same slot, be it two writers, two readers, or a writer and
    a reader. *)
Theorem ringbuf_item_access_exclusive {P} (rb : perf_ringbuf P) (n : nat) (c : config P)
    (i j : nat) (a b : thread P) (s t : Z) :
  rb_repr rb 0 [] → star step (initial rb n) c → i ≠ j →
  c_threads c !! i = Some a → c_threads c !! j = Some b →
  (enq_ticket a = Some s ∨ deq_ticket a = Some s) →
  (enq_ticket b = Some t ∨ deq_ticket b = Some t) →
  slot_index (w_rb (c_world c)) s ≠ slot_index (w_rb (c_world c)) t.
Proof.
  intros Hr Hs Hij Ha Hb Hsa Htb E. pose proof (inv_reachable rb n c Hr Hs) as Hinv.
  pose proof (inv_shape c Hinv) as Hsh. pose proof (thread_lookup _ _ _ Hinv Ha) as Hoka.
  pose proof (thread_lookup _ _ _ Hinv Hb) as Hokb.
  assert (0 <= s) as Hs0 by (destruct a, Hsa; simplify_eq/=; lia).
  assert (0 <= t) as Ht0 by (destruct b, Htb; simplify_eq/=; lia).
  rewrite !(sh_index _ Hsh), same_slot in E by done. revert E.
  destruct Htb as [Htb|Htb].
  - eapply (foreign_slot c j b t Free); [done|done| |done|done|done|done].
    destruct b; simplify_eq/=; intuition.
  - eapply (foreign_slot c j b t Full); [done|done| |done|done|done|done].
    destruct b; simplify_eq/=; intuition.
Qed.

(** One producer has published, a consumer reads while another writes. *)
Lemma ringbuf_item_access_exclusive_witness :
  ∃ c, star step (initial two_slots 2) c ∧
    slot_index (w_rb (c_world c)) 0 ≠ slot_index (w_rb (c_world c)) 1.
Proof.
  assert (∀ (w : world Z) ts tid st st' w', ts !! tid = Some st → thread_step w st w' st' →
    (length (w_hist w') <= 2)%nat → step (mk_config w ts) (mk_config w' (<[tid := st']> ts))) as Hstep.
  { intros w ts tid st st' w' Hst Hs Hl. exists tid, st, w', st'. split_and!; [done|done|done|lia]. }
  set (c := mk_config (mk_world (mk_ringbuf 0 2 2 1 [mk_slot 0 0; mk_slot 1 0]) [8; 7] [])
    [EnqStore 7 1; EnqStore 8 0]).
  assert (star step (initial two_slots 2) c) as Hc.
  { eapply star_trans; [exact race_reachable|].
    eapply star_step; [eapply (Hstep _ _ 0%nat); [done|by apply enq_cas_fail|simpl; lia]|].
    eapply star_step; [eapply (Hstep _ _ 0%nat); [done|by apply (enq_seq _ 7 1 (mk_slot 1 0))|simpl; lia]|].
    eapply star_step; [eapply (Hstep _ _ 0%nat); [done|by apply enq_cas|simpl; lia]|].
    apply star_refl. }
  exists c. split; [exact Hc|]. intros E. symmetry in E. revert E.
  apply (ringbuf_item_access_exclusive two_slots 2 c 0 1 (EnqStore 7 1) (EnqStore 8 0) 1 0
    two_slots_repr Hc); [done|done|done|by left|by left].
Defined.

(** The two models agree: a successful call of [perf_ringbuf_enqueue] is
    what the thread's steps do when no other thread interferes. *)
Theorem enqueue_is_solo_run {P} (w : world P) (x : P) (rb' : perf_ringbuf P) :
  perf_ringbuf_enqueue (w_rb w) x = Some (0, None, rb') →
  star solo (w, EnqLoad x) (mk_world rb' (w_hist w ++ [x]) (w_out w), Idle).
Proof. apply solo_enqueue. Qed.

Lemma enqueue_is_solo_run_witness :
  star solo (mk_world two_slots [] [], EnqLoad 5)
    (mk_world (mk_ringbuf 0 1 2 1 [mk_slot 1 5; mk_slot 1 0]) [5] [], Idle).
Proof. apply (enqueue_is_solo_run (mk_world two_slots [] []) 5). vm_compute. reflexivity. Defined.
