(* ===== verification/Protocol.v ===== *)
(** * Message headers ([app/libs/ring4/postoffice/net/protocol.c], [protocol.h],
    [app/include/postoffice/net/net.h])

    A header is the packed struct of the source; [header_mem] is its memory on
    a little-endian host, so that the byte swaps of [htons] and [htonl] are
    visible in what goes over the wire. *)

From Stdlib Require Import ZArith Lia.
From stdpp Require Import base list numbers.
From S2P Require Import Prelude.

Local Open Scope Z_scope.

(** ** Bytes *)

(** The [n] low bytes of a word, least significant first. *)
Fixpoint le_bytes (n : nat) (z : Z) : list Z :=
  match n with
  | O => []
  | S n => u8 z :: le_bytes n (z / 2 ^ 8)
  end.

Fixpoint of_le (bs : list Z) : Z :=
  match bs with
  | [] => 0
  | b :: bs => b + 2 ^ 8 * of_le bs
  end.

Definition is_byte (b : Z) : Prop := 0 <= b < 2 ^ 8.

(** Byte swaps of a little-endian host; [ntohs] and [ntohl] are the same. *)
Definition htons (x : Z) : Z := of_le (rev (le_bytes 2 x)).
Definition htonl (x : Z) : Z := of_le (rev (le_bytes 4 x)).
Definition ntohs (x : Z) : Z := htons x.
Definition ntohl (x : Z) : Z := htonl x.

(** ** Headers *)

Definition PROTOCOL_VERSION : Z := 1.

Record po_header_t : Type := mk_header {
  version : Z;
  msg_type : Z;
  flags : Z;
  payload_len : Z
}.

Definition SIZEOF_HEADER : Z := 8.

Definition header_mem (h : po_header_t) : list Z :=
  le_bytes 2 (version h) ++ [msg_type h; flags h] ++ le_bytes 4 (payload_len h).

(** Reading the struct back from its bytes. *)
Definition header_of_mem (bs : list Z) : po_header_t :=
  mk_header (of_le (take 2 bs)) (default 0 (bs !! 2%nat)) (default 0 (bs !! 3%nat))
    (of_le (take 4 (drop 4 bs))).

Definition protocol_init_header (ty fl len : Z) : po_header_t :=
  mk_header (htons (u16 PROTOCOL_VERSION)) ty fl (htonl len).

Definition protocol_header_to_network (h : po_header_t) : po_header_t :=
  mk_header (htons (u16 PROTOCOL_VERSION)) (msg_type h) (flags h) (htonl (payload_len h)).

Definition protocol_header_to_host (h : po_header_t) : po_header_t :=
  mk_header (ntohs (version h)) (msg_type h) (flags h) (ntohl (payload_len h)).

Definition protocol_message_size (h : po_header_t) : Z := u32 (SIZEOF_HEADER + payload_len h).

(** [payload] is [false] for a null pointer. *)
Definition protocol_encode (ty fl : Z) (payload : bool) (len : Z) : Z * option po_header_t :=
  if negb (len =? 0) && negb payload then (-1, None)
  else (0, Some (protocol_init_header ty fl len)).

Definition protocol_decode (net_hdr : po_header_t) (payload_buf : bool) (payload_buf_size : Z) :
    Z * option Z :=
  let need := payload_len (protocol_header_to_host net_hdr) in
  if (0 <? need) && (negb payload_buf || (payload_buf_size <? need)) then (-1, None)
  else (0, Some need).

(** ** Lemmas *)

Lemma length_le_bytes n z : length (le_bytes n z) = n.
Proof. revert z. induction n as [|n IH]; intros z; simpl; [done|]. by rewrite IH. Qed.

Lemma le_bytes_bytes n z : Forall is_byte (le_bytes n z).
Proof.
  revert z. induction n as [|n IH]; intros z; simpl; constructor; [apply u8_range|apply IH].
Qed.

Lemma of_le_bytes n z : 0 <= z < 2 ^ (8 * Z.of_nat n) → of_le (le_bytes n z) = z.
Proof.
  revert z. induction n as [|n IH]; intros z Hz; cbn [le_bytes of_le].
  - change (2 ^ (8 * Z.of_nat 0)) with 1 in Hz. lia.
  - rewrite IH.
    + unfold u8. pose proof (Z.div_mod z (2 ^ 8)). lia.
    + replace (8 * Z.of_nat (S n)) with (8 + 8 * Z.of_nat n) in Hz by lia.
      rewrite Z.pow_add_r in Hz by lia. split; [apply Z.div_pos; lia|].
      apply Z.div_lt_upper_bound; lia.
Qed.

Lemma le_bytes_of_le bs : Forall is_byte bs → le_bytes (length bs) (of_le bs) = bs.
Proof.
  induction bs as [|b bs IH]; intros H; cbn [le_bytes of_le length]; [done|].
  apply Forall_cons_1 in H as [Hb H]. unfold is_byte in Hb. f_equal.
  - unfold u8. rewrite Z.mul_comm, Z.mod_add by lia. apply Z.mod_small. lia.
  - rewrite Z.mul_comm, Z.div_add, (Z.div_small b) by lia. by apply IH.
Qed.

Lemma of_le_range bs : Forall is_byte bs → 0 <= of_le bs < 2 ^ (8 * Z.of_nat (length bs)).
Proof.
  induction bs as [|b bs IH]; intros H; cbn [of_le length].
  - change (2 ^ (8 * Z.of_nat 0)) with 1. lia.
  - apply Forall_cons_1 in H as [Hb H]. unfold is_byte in Hb. specialize (IH H).
    replace (8 * Z.of_nat (S (length bs))) with (8 + 8 * Z.of_nat (length bs)) by lia.
    rewrite Z.pow_add_r by lia. lia.
Qed.

Lemma swap_bytes n x :
  0 <= x < 2 ^ (8 * Z.of_nat n) →
  le_bytes n (of_le (rev (le_bytes n x))) = rev (le_bytes n x).
Proof.
  intros Hx. rewrite <- (length_le_bytes n x) at 1. rewrite <- length_rev.
  apply le_bytes_of_le. rewrite <- Permutation_rev. apply le_bytes_bytes.
Qed.

Lemma swap_involutive n x :
  0 <= x < 2 ^ (8 * Z.of_nat n) →
  of_le (rev (le_bytes n (of_le (rev (le_bytes n x))))) = x.
Proof. intros Hx. rewrite swap_bytes, rev_involutive by done. by apply of_le_bytes. Qed.

Lemma swap_range n x : 0 <= of_le (rev (le_bytes n x)) < 2 ^ (8 * Z.of_nat n).
Proof.
  rewrite <- (length_le_bytes n x) at 3. rewrite <- (length_rev (le_bytes n x)).
  apply of_le_range. rewrite <- Permutation_rev. apply le_bytes_bytes.
Qed.

Lemma ntohl_htonl x : 0 <= x < 2 ^ 32 → ntohl (htonl x) = x.
Proof. apply (swap_involutive 4). Qed.

Lemma ntohs_htons x : 0 <= x < 2 ^ 16 → ntohs (htons x) = x.
Proof. apply (swap_involutive 2). Qed.

Definition header_ok (h : po_header_t) : Prop :=
  0 <= version h < 2 ^ 16 ∧ is_byte (msg_type h) ∧ is_byte (flags h) ∧ 0 <= payload_len h < 2 ^ 32.

Lemma length_header_mem h : length (header_mem h) = 8%nat.
Proof. done. Qed.

Lemma header_of_header_mem h : header_ok h → header_of_mem (header_mem h) = h.
Proof.
  intros (Hv & Ht & Hf & Hl). unfold header_of_mem, header_mem.
  pose proof (of_le_bytes 2 (version h) Hv) as E1. pose proof (of_le_bytes 4 (payload_len h) Hl) as E2.
  destruct h as [v ty fl len]. cbn in *. congruence.
Qed.

Lemma init_header_ok ty fl len : is_byte ty → is_byte fl → header_ok (protocol_init_header ty fl len).
Proof.
  intros Ht Hf. unfold header_ok, protocol_init_header. simpl.
  split_and!; try apply Ht; try apply Hf; try done; apply (swap_range 4).
Qed.

Lemma init_header_to_host ty fl len :
  0 <= len < 2 ^ 32 →
  protocol_header_to_host (protocol_init_header ty fl len) = mk_header PROTOCOL_VERSION ty fl len.
Proof. intros Hl. unfold protocol_header_to_host, protocol_init_header. simpl. by rewrite ntohl_htonl. Qed.

(** ** Properties *)

(** Header round trip: the bytes of an encoded header are the version, the
    type, the flags and the length in big-endian order, and decoding those
    bytes on the receiving side gives the fields back. *)
Theorem protocol_header_roundtrip (ty fl len : Z) :
  is_byte ty → is_byte fl → 0 <= len < 2 ^ 32 →
  header_mem (protocol_init_header ty fl len) = [0; 1; ty; fl] ++ rev (le_bytes 4 len) ∧
  protocol_header_to_host (header_of_mem (header_mem (protocol_init_header ty fl len))) =
    mk_header PROTOCOL_VERSION ty fl len ∧
  protocol_decode (protocol_init_header ty fl len) true len = (0, Some len).
Proof.
  intros Ht Hf Hl. split_and!.
  - unfold header_mem, protocol_init_header. cbn [version msg_type flags payload_len].
    unfold htonl. rewrite (swap_bytes 4) by done. done.
  - rewrite header_of_header_mem by by apply init_header_ok. by apply init_header_to_host.
  - unfold protocol_decode. rewrite init_header_to_host by done. simpl.
    rewrite (proj2 (Z.ltb_ge len len)) by lia. by rewrite andb_false_r.
Qed.

Lemma protocol_header_roundtrip_witness :
  header_mem (protocol_init_header 7 1 258) = [0; 1; 7; 1; 0; 0; 1; 2] ∧
  protocol_header_to_host (header_of_mem (header_mem (protocol_init_header 7 1 258))) =
    mk_header 1 7 1 258.
Proof.
  split; [reflexivity|]. apply (protocol_header_roundtrip 7 1 258); unfold is_byte; lia.
Defined.
