(* ===== verification/Framing.v ===== *)
(** * Length-prefixed framing ([app/libs/ring4/postoffice/net/framing.c])

    The kernel is a schedule of outcomes, one per system call: how many bytes
    it takes or gives, an interruption, an error, or the end of the stream; an
    exhausted schedule transfers everything.  The writing side returns the
    bytes that went out, the reading side consumes a stream [inp] of bytes in
    arrival order, at whose end the peer has closed. *)

From Stdlib Require Import ZArith Lia.
From stdpp Require Import base list numbers.
From S2P Require Import Prelude Protocol.

Local Open Scope Z_scope.

Definition FRAMING_DEFAULT_MAX_PAYLOAD : Z := 2 * 1024 * 1024.

(** Result of [read], [write] or [writev] on a socket. *)
Inductive io_outcome : Type :=
| Xfer (n : nat)
| Closed
| Intr
| IoFail.

(** [g_max_payload] is the module's state. *)
Definition framing_init (g_max_payload max_payload_bytes : Z) : Z * option errno * Z :=
  if max_payload_bytes =? 0 then (0, None, FRAMING_DEFAULT_MAX_PAYLOAD)
  else if 64 * 1024 * 1024 <? max_payload_bytes then (-1, Some EINVAL, g_max_payload)
  else (0, None, max_payload_bytes).

Definition framing_get_max_payload (g_max_payload : Z) : Z := g_max_payload.

(** [write] moves at least one byte when it returns a positive count. *)
Definition moved (n len : nat) : nat := Nat.min (Nat.max 1 n) len.

(** Result code, bytes sent, rest of the schedule. *)
Fixpoint write_full (buf : list Z) (sched : list io_outcome) : Z * list Z * list io_outcome :=
  match buf with
  | [] => (0, [], sched)
  | _ =>
      match sched with
      | [] => (0, buf, [])
      | Xfer n :: sched =>
          let k := moved n (length buf) in
          let '(rc, sent, sched) := write_full (drop k buf) sched in
          (rc, take k buf ++ sent, sched)
      | Closed :: sched => (-2, [], sched)
      | Intr :: sched => write_full buf sched
      | IoFail :: sched => (-1, [], sched)
      end
  end.

Record write_result : Type := mk_write {
  wr_rc : Z;
  wr_errno : option errno;
  wr_sent : list Z;
  wr_sched : list io_outcome
}.

(** After a [writev] that took [n] bytes of prefix, header and payload. *)
Definition finish_frame (tmp_hdr payload : list Z) (n : nat) (sched : list io_outcome) : write_result :=
  let frame := tmp_hdr ++ payload in
  let sent := take n frame in
  if Nat.eqb n (length frame) then mk_write 0 None sent sched
  else
    let '(rc, more, sched) :=
      if Nat.ltb n (length tmp_hdr) then write_full (drop n tmp_hdr) sched else (0, [], sched) in
    if negb (rc =? 0) then mk_write rc None (sent ++ more) sched
    else
      let sent_n := if Nat.ltb n (length tmp_hdr) then length tmp_hdr else n in
      let payload_sent := (sent_n - length tmp_hdr)%nat in
      if Nat.ltb payload_sent (length payload) then
        let '(rc, rest, sched) := write_full (drop payload_sent payload) sched in
        mk_write rc None (sent ++ more ++ rest) sched
      else mk_write 0 None (sent ++ more) sched.

(** One [writev] of the three parts; an interrupted one starts over. *)
Fixpoint send_frame (tmp_hdr payload : list Z) (sched : list io_outcome) : write_result :=
  match sched with
  | [] => finish_frame tmp_hdr payload (length (tmp_hdr ++ payload)) []
  | Xfer n :: sched => finish_frame tmp_hdr payload (Nat.min n (length (tmp_hdr ++ payload))) sched
  | Closed :: sched => finish_frame tmp_hdr payload 0 sched
  | Intr :: sched => send_frame tmp_hdr payload sched
  | IoFail :: sched => mk_write (-1) None [] sched
  end.

(** The length prefix and the header. *)
Definition frame_head (header_net : po_header_t) (len : Z) : list Z :=
  le_bytes 4 (htonl (u32 (SIZEOF_HEADER + len))) ++ header_mem header_net.

Definition framing_write_msg (g_max_payload : Z) (header_net : po_header_t) (payload : list Z)
    (sched : list io_outcome) : write_result :=
  let len := Z.of_nat (length payload) in
  if g_max_payload <? len then mk_write (-1) (Some EMSGSIZE) [] sched
  else send_frame (frame_head header_net len) payload sched.

(** The header's length is authoritative for the buffer. *)
Definition framing_write_zcp (g_max_payload : Z) (header_net : po_header_t) (payload_buf : list Z)
    (sched : list io_outcome) : write_result :=
  let len := ntohl (payload_len header_net) in
  if g_max_payload <? len then mk_write (-1) (Some EMSGSIZE) [] sched
  else send_frame (frame_head header_net len) (take (Z.to_nat len) payload_buf) sched.

(** Result code, bytes read, rest of the stream and of the schedule. *)
Fixpoint read_full (len : nat) (inp : list Z) (sched : list io_outcome) :
    Z * list Z * list Z * list io_outcome :=
  match len with
  | O => (0, [], inp, sched)
  | _ =>
      match sched with
      | [] => if Nat.leb len (length inp) then (0, take len inp, drop len inp, [])
              else (-2, inp, [], [])
      | Xfer n :: sched =>
          match inp with
          | [] => (-2, [], [], sched)
          | _ =>
              let k := moved n (Nat.min len (length inp)) in
              let '(rc, got, inp', sched) := read_full (len - k) (drop k inp) sched in
              (rc, take k inp ++ got, inp', sched)
          end
      | Closed :: sched => (-2, [], inp, sched)
      | Intr :: sched => read_full len inp sched
      | IoFail :: sched => (-1, [], inp, sched)
      end
  end.

Record read_result : Type := mk_read {
  rd_rc : Z;
  rd_errno : option errno;
  rd_header : option po_header_t;
  rd_payload : list Z;
  rd_len : option Z;
  rd_inp : list Z;
  rd_sched : list io_outcome
}.

(** Prefix, header and payload; both readers end with these steps.  The header
    is written to the caller's struct before it is validated. *)
Definition read_frame (g_max_payload payload_buf_size : Z) (inp : list Z) (sched : list io_outcome) :
    read_result :=
  let '(rc, pre, inp, sched) := read_full 4 inp sched in
  if negb (rc =? 0) then mk_read rc None None [] None inp sched
  else
    let total := ntohl (of_le pre) in
    if total <? SIZEOF_HEADER then mk_read (-1) (Some EPROTO) None [] None inp sched
    else
      let '(rc, hdr, inp, sched) := read_full 8 inp sched in
      if negb (rc =? 0) then mk_read rc None None [] None inp sched
      else
        let header := protocol_header_to_host (header_of_mem hdr) in
        if negb (version header =? PROTOCOL_VERSION)
        then mk_read (-1) (Some EPROTONOSUPPORT) (Some header) [] None inp sched
        else
          let len := total - SIZEOF_HEADER in
          if g_max_payload <? len then mk_read (-1) (Some EMSGSIZE) (Some header) [] None inp sched
          else if len =? 0 then mk_read 0 None (Some header) [] (Some 0) inp sched
          else if payload_buf_size <? len
          then mk_read (-1) (Some EMSGSIZE) (Some header) [] None inp sched
          else
            let '(rc, payload, inp, sched) := read_full (Z.to_nat len) inp sched in
            if negb (rc =? 0) then mk_read rc None (Some header) payload None inp sched
            else mk_read 0 None (Some header) payload (Some len) inp sched.

Definition framing_read_msg_blocking := read_frame.

(** What the non-consuming look at the socket gives: [peek] the outcome of
    [recv(MSG_PEEK | MSG_DONTWAIT)] ([Xfer n]: [n] bytes have arrived; [None]:
    [EAGAIN]), [avail] the answer of [FIONREAD], 0 when it fails. *)
Definition framing_read_msg_into (g_max_payload payload_buf_size : Z) (peek : option io_outcome)
    (avail : Z) (inp : list Z) (sched : list io_outcome) : read_result :=
  match peek with
  | None | Some IoFail | Some Intr =>
      mk_read (-1) (match peek with None => Some EAGAIN | Some Intr => Some EINTR | _ => Some EOTHER end)
        None [] None inp sched
  | Some Closed | Some (Xfer 0) => mk_read (-2) None None [] None inp sched
  | Some (Xfer n) =>
      if Nat.ltb (Nat.min n (length inp)) 4 then mk_read (-1) (Some EAGAIN) None [] None inp sched
      else
        let peeked_total := ntohl (of_le (take 4 inp)) in
        if peeked_total <? SIZEOF_HEADER then mk_read (-1) (Some EPROTO) None [] None inp sched
        else if g_max_payload <? peeked_total - SIZEOF_HEADER
        then mk_read (-1) (Some EMSGSIZE) None [] None inp sched
        else if (0 <? avail) && (avail <? 4 + peeked_total)
        then mk_read (-1) (Some EAGAIN) None [] None inp sched
        else read_frame g_max_payload payload_buf_size inp sched
  end.

(** ** Specification *)

(** The frame of a message, and schedules under which nothing goes wrong. *)
Definition frame (header_net : po_header_t) (payload : list Z) : list Z :=
  frame_head header_net (Z.of_nat (length payload)) ++ payload.

Definition benign (o : io_outcome) : Prop :=
  match o with Xfer _ | Intr => True | Closed | IoFail => False end.

(** ** Lemmas *)

Lemma moved_bounds n len : (0 < len → 0 < moved n len <= len)%nat.
Proof. unfold moved. lia. Qed.

Lemma write_full_nil sched : write_full [] sched = (0, [], sched).
Proof. by destruct sched. Qed.

Lemma write_full_spec sched : ∀ buf rc sent s,
  write_full buf sched = (rc, sent, s) →
  sent `prefix_of` buf ∧ (rc = 0 → sent = buf) ∧
  (Forall benign sched → rc = 0 ∧ Forall benign s).
Proof.
  induction sched as [|o sched IH]; intros buf rc sent s E;
    (destruct buf as [|b buf]; [rewrite write_full_nil in E; simplify_eq; by eauto using prefix_nil|]);
    cbn [write_full] in E.
  { simplify_eq. split_and!; [done..|by split]. }
  destruct o as [n| | |].
  - set (k := moved n (length (b :: buf))) in *.
    destruct (write_full (drop k (b :: buf)) sched) as [[rc' sent'] s'] eqn:E'. simplify_eq.
    destruct (IH _ _ _ _ E') as (Hp & Hrc & Hb). split_and!.
    + rewrite <- (take_drop k (b :: buf)) at 2. by apply prefix_app.
    + intros H. rewrite (Hrc H). apply take_drop.
    + intros H. apply Forall_cons_1 in H as [_ H]. auto.
  - simplify_eq. split_and!; [apply prefix_nil|done|]. intros H. by apply Forall_cons_1 in H as [[] _].
  - destruct (IH _ _ _ _ E) as (Hp & Hrc & Hb). split_and!; [done|done|].
    intros H. apply Forall_cons_1 in H as [_ H]. auto.
  - simplify_eq. split_and!; [apply prefix_nil|done|]. intros H. by apply Forall_cons_1 in H as [[] _].
Qed.

Definition sends (sched : list io_outcome) (r : write_result) (fr : list Z) : Prop :=
  wr_sent r `prefix_of` fr ∧ (wr_rc r = 0 → wr_sent r = fr) ∧
  (Forall benign sched → wr_rc r = 0).

Lemma finish_frame_spec tmp_hdr payload n sched :
  (n <= length (tmp_hdr ++ payload))%nat →
  sends sched (finish_frame tmp_hdr payload n sched) (tmp_hdr ++ payload).
Proof.
  intros Hn. unfold finish_frame, sends.
  destruct (Nat.eqb_spec n (length (tmp_hdr ++ payload))) as [->|Hne].
  { simpl. rewrite take_ge by lia. done. }
  rewrite length_app in Hn, Hne. destruct (Nat.ltb_spec n (length tmp_hdr)) as [Hlt|Hge].
  - rewrite take_app_le by lia.
    destruct (write_full (drop n tmp_hdr) sched) as [[rc more] s] eqn:E.
    destruct (write_full_spec _ _ _ _ _ E) as (Hp & Hrc & Hb).
    case (Z.eqb_spec rc 0); intros Hz; simpl.
    + rewrite (Hrc Hz), Nat.sub_diag, drop_0.
      destruct (Nat.ltb_spec 0 (length payload)) as [Hpl|Hpl].
      * destruct (write_full payload s) as [[rc' rest] s'] eqn:E'.
        destruct (write_full_spec _ _ _ _ _ E') as (Hp' & Hrc' & Hb'). simpl.
        rewrite (assoc_L (++)), take_drop. split_and!.
        -- by apply prefix_app.
        -- intros H0. by rewrite (Hrc' H0).
        -- intros H0. destruct (Hb H0) as [_ Hs]. by apply Hb'.
      * simpl. destruct payload; [|simpl in Hpl; lia]. rewrite app_nil_r, take_drop. done.
    + split_and!; [|done|intros H0; by destruct (Hb H0)].
      apply prefix_app_r. rewrite <- (take_drop n tmp_hdr) at 2. by apply prefix_app.
  - simpl. rewrite take_app_ge by lia.
    destruct (Nat.ltb_spec (n - length tmp_hdr) (length payload)) as [Hpl|Hpl]; [|lia].
    destruct (write_full (drop (n - length tmp_hdr) payload) sched) as [[rc' rest] s'] eqn:E'.
    destruct (write_full_spec _ _ _ _ _ E') as (Hp' & Hrc' & Hb'). simpl. rewrite <- app_assoc. split_and!.
    + apply prefix_app. rewrite <- (take_drop (n - length tmp_hdr) payload) at 2. by apply prefix_app.
    + intros H0. by rewrite (Hrc' H0), take_drop.
    + intros H0. by apply Hb'.
Qed.

Lemma send_frame_spec tmp_hdr payload sched :
  sends sched (send_frame tmp_hdr payload sched) (tmp_hdr ++ payload).
Proof.
  induction sched as [|o sched IH]; cbn [send_frame].
  { by apply finish_frame_spec. }
  assert (∀ r fr, sends sched r fr → sends (o :: sched) r fr) as Hmono.
  { intros r fr (? & ? & Hb). split_and!; [done|done|]. intros Hx. apply Forall_cons_1 in Hx as [_ Hx]. auto. }
  destruct o as [n| | |].
  - apply Hmono, finish_frame_spec. lia.
  - apply Hmono, finish_frame_spec. lia.
  - by apply Hmono.
  - split_and!; simpl; [apply prefix_nil|done|]. intros H. by apply Forall_cons_1 in H as [[] _].
Qed.

(** Reading is exact whatever the sizes of the individual reads. *)
Lemma read_full_spec sched : ∀ len inp rc got inp' s,
  read_full len inp sched = (rc, got, inp', s) →
  got ++ inp' = inp ∧ (rc = 0 → length got = len) ∧
  (Forall benign sched → (len <= length inp)%nat → rc = 0 ∧ Forall benign s).
Proof.
  induction sched as [|o sched IH]; intros len inp rc got inp' s E;
    (destruct len as [|len]; [simpl in E; simplify_eq; by auto|]); cbn [read_full] in E.
  - destruct (Nat.leb_spec (S len) (length inp)); simplify_eq.
    + split_and!; [apply take_drop|intros _; rewrite length_take; lia|done].
    + split_and!; [apply app_nil_r|done|lia].
  - destruct o as [n| | |].
    + destruct inp as [|b inp]; [simplify_eq; split_and!; [done|done|simpl; lia]|].
      set (k := moved n (S len `min` length (b :: inp))) in *.
      assert (0 < k <= S len `min` length (b :: inp))%nat as Hk by (apply moved_bounds; simpl; lia).
      destruct (read_full (S len - k) (drop k (b :: inp)) sched) as [[[rc' got'] inp2] s'] eqn:E'.
      simplify_eq. destruct (IH _ _ _ _ _ _ E') as (Happ & Hlen & Hb). split_and!.
      * rewrite <- app_assoc, Happ. apply take_drop.
      * intros Hx. rewrite length_app, length_take, (Hlen Hx). simpl in *. lia.
      * intros Hx Hl. apply Forall_cons_1 in Hx as [_ Hx]. apply Hb; [done|].
        rewrite length_drop. simpl in *. lia.
    + simplify_eq. split_and!; [done|done|]. intros Hx. by apply Forall_cons_1 in Hx as [[] _].
    + destruct (IH _ _ _ _ _ _ E) as (? & ? & Hb). split_and!; [done|done|].
      intros Hx. apply Forall_cons_1 in Hx as [_ Hx]. auto.
    + simplify_eq. split_and!; [done|done|]. intros Hx. by apply Forall_cons_1 in Hx as [[] _].
Qed.

(** Reading a block that is at the front of the stream. *)
Lemma read_full_block (block rest : list Z) sched :
  Forall benign sched →
  ∃ s, read_full (length block) (block ++ rest) sched = (0, block, rest, s) ∧ Forall benign s.
Proof.
  intros Hb. destruct (read_full (length block) (block ++ rest) sched) as [[[rc got] inp'] s] eqn:E.
  destruct (read_full_spec _ _ _ _ _ _ _ E) as (Happ & Hlen & Hok).
  destruct (Hok Hb) as [-> Hs]; [rewrite length_app; lia|]. specialize (Hlen eq_refl).
  apply app_inj_1 in Happ as [-> ->]; [|done]. eauto.
Qed.

(** Prefix and header of a frame at the front of the stream are read and pass
    the checks that do not depend on the length. *)
Lemma read_head_spec max bufsz ty fl payload rest sched :
  Forall benign sched → is_byte ty → is_byte fl → Z.of_nat (length payload) < 2 ^ 32 - 8 →
  let len := Z.of_nat (length payload) in
  let header := Some (mk_header PROTOCOL_VERSION ty fl len) in
  ∃ s, Forall benign s ∧
    read_frame max bufsz (frame (protocol_init_header ty fl len) payload ++ rest) sched =
    if max <? len then mk_read (-1) (Some EMSGSIZE) header [] None (payload ++ rest) s
    else if len =? 0 then mk_read 0 None header [] (Some 0) (payload ++ rest) s
    else if bufsz <? len then mk_read (-1) (Some EMSGSIZE) header [] None (payload ++ rest) s
    else let '(rc, body, inp, s') := read_full (Z.to_nat len) (payload ++ rest) s in
         if negb (rc =? 0) then mk_read rc None header body None inp s'
         else mk_read 0 None header body (Some len) inp s'.
Proof.
  intros Hb Ht Hf Hlen len header. unfold read_frame, frame, frame_head.
  rewrite <- !app_assoc.
  set (pre := le_bytes 4 (htonl (u32 (SIZEOF_HEADER + Z.of_nat (length payload))))).
  destruct (read_full_block pre (header_mem (protocol_init_header ty fl len) ++ payload ++ rest) sched Hb)
    as (s1 & E1 & Hb1).
  change (length pre) with 4%nat in E1. rewrite E1. clear E1. cbn [Z.eqb negb].
  assert (ntohl (of_le pre) = SIZEOF_HEADER + len) as ->.
  { unfold pre. rewrite of_le_bytes by apply (swap_range 4). unfold SIZEOF_HEADER.
    rewrite u32_small, ntohl_htonl by lia. done. }
  unfold SIZEOF_HEADER at 1 2. case (Z.ltb_spec (8 + len) 8); [lia|]. intros _.
  destruct (read_full_block (header_mem (protocol_init_header ty fl len)) (payload ++ rest) s1 Hb1)
    as (s2 & E2 & Hb2).
  change (length (header_mem (protocol_init_header ty fl len))) with 8%nat in E2. rewrite E2. clear E2.
  cbn [Z.eqb negb]. rewrite header_of_header_mem by by apply init_header_ok.
  rewrite init_header_to_host by lia. cbn [version].
  change (PROTOCOL_VERSION =? PROTOCOL_VERSION) with true. cbn [negb].
  replace (SIZEOF_HEADER + len - SIZEOF_HEADER) with len by lia.
  by exists s2.
Qed.

Lemma read_frame_spec max bufsz ty fl payload rest sched :
  Forall benign sched → is_byte ty → is_byte fl →
  Z.of_nat (length payload) <= max → Z.of_nat (length payload) <= bufsz →
  Z.of_nat (length payload) < 2 ^ 32 - 8 →
  let len := Z.of_nat (length payload) in
  ∃ s, read_frame max bufsz (frame (protocol_init_header ty fl len) payload ++ rest) sched =
    mk_read 0 None (Some (mk_header PROTOCOL_VERSION ty fl len)) payload (Some len) rest s.
Proof.
  intros Hb Ht Hf Hmax Hbuf Hlen len.
  destruct (read_head_spec max bufsz ty fl payload rest sched Hb Ht Hf Hlen) as (s & Hs & E).
  fold len in E. rewrite E, (proj2 (Z.ltb_ge _ _)) by lia. case (Z.eqb_spec len 0); intros Hz.
  - destruct payload; [|subst len; simpl in Hz; lia]. by exists s.
  - rewrite (proj2 (Z.ltb_ge _ _)) by lia. destruct (read_full_block payload rest s Hs) as (s3 & E3 & _).
    replace (Z.to_nat len) with (length payload) by lia. rewrite E3. by exists s3.
Qed.

(** A payload larger than the buffer is refused before it is read. *)
Lemma read_frame_refused max bufsz ty fl payload rest sched :
  Forall benign sched → is_byte ty → is_byte fl →
  Z.of_nat (length payload) <= max → bufsz < Z.of_nat (length payload) →
  0 < Z.of_nat (length payload) → Z.of_nat (length payload) < 2 ^ 32 - 8 →
  let len := Z.of_nat (length payload) in
  ∃ s, read_frame max bufsz (frame (protocol_init_header ty fl len) payload ++ rest) sched =
    mk_read (-1) (Some EMSGSIZE) (Some (mk_header PROTOCOL_VERSION ty fl len)) [] None (payload ++ rest) s.
Proof.
  intros Hb Ht Hf Hmax Hbuf Hpos Hlen len.
  destruct (read_head_spec max bufsz ty fl payload rest sched Hb Ht Hf Hlen) as (s & _ & E).
  exists s. unfold len. rewrite E.
  rewrite (proj2 (Z.ltb_ge _ _)), (proj2 (Z.eqb_neq _ _)), (proj2 (Z.ltb_lt _ _)) by lia. done.
Qed.

(** ** Properties *)

(** Whatever sizes the kernel accepts and however often it is interrupted,
    [framing_write_msg] puts a prefix of the frame on the wire, the whole frame
    exactly when it reports success, and it does report success unless a call
    fails or the peer is gone. *)
Theorem framing_write_sends_frame (max : Z) (hdr : po_header_t) (payload : list Z)
    (sched : list io_outcome) :
  Z.of_nat (length payload) <= max →
  let r := framing_write_msg max hdr payload sched in
  wr_sent r `prefix_of` frame hdr payload ∧
  (wr_rc r = 0 → wr_sent r = frame hdr payload) ∧
  (Forall benign sched → wr_rc r = 0).
Proof.
  intros Hmax. unfold framing_write_msg. case (Z.ltb_spec max (Z.of_nat (length payload))); [lia|].
  intros _. apply send_frame_spec.
Qed.

Lemma framing_write_sends_frame_witness :
  let r := framing_write_msg 100 (protocol_init_header 1 0 3) [5; 6; 7]
             [Intr; Xfer 2; Xfer 5; Intr; Xfer 1] in
  wr_rc r = 0 ∧ wr_sent r = [0; 0; 0; 11; 0; 1; 1; 0; 0; 0; 0; 3; 5; 6; 7].
Proof.
  split; [vm_compute; reflexivity|].
  pose proof (framing_write_sends_frame 100 (protocol_init_header 1 0 3) [5; 6; 7]
    [Intr; Xfer 2; Xfer 5; Intr; Xfer 1] ltac:(simpl; lia)) as (_ & H & _).
  change [0; 0; 0; 11; 0; 1; 1; 0; 0; 0; 0; 3; 5; 6; 7] with
    (frame (protocol_init_header 1 0 3) [5; 6; 7]).
  apply H. vm_compute. reflexivity.
Defined.

(** End-to-end framing round trip: a message written through any benign
    sequence of partial and interrupted writes is read back, through any
    benign sequence of partial and interrupted reads, with its type, flags,
    length and payload, and the bytes that follow it stay in the stream. *)
Theorem framing_roundtrip (max bufsz ty fl : Z) (payload rest : list Z)
    (ws rs : list io_outcome) :
  is_byte ty → is_byte fl → 0 <= max <= 64 * 1024 * 1024 →
  Z.of_nat (length payload) <= max → Z.of_nat (length payload) <= bufsz →
  Forall benign ws → Forall benign rs →
  let len := Z.of_nat (length payload) in
  let w := framing_write_msg max (protocol_init_header ty fl len) payload ws in
  let r := framing_read_msg_blocking max bufsz (wr_sent w ++ rest) rs in
  wr_rc w = 0 ∧ rd_rc r = 0 ∧ rd_header r = Some (mk_header PROTOCOL_VERSION ty fl len) ∧
  rd_payload r = payload ∧ rd_len r = Some len ∧ rd_inp r = rest.
Proof.
  intros Ht Hf Hm Hmax Hbuf Hws Hrs. cbv zeta. unfold framing_write_msg.
  case (Z.ltb_spec max (Z.of_nat (length payload))); [lia|]. intros _.
  destruct (send_frame_spec (frame_head (protocol_init_header ty fl (Z.of_nat (length payload)))
    (Z.of_nat (length payload))) payload ws) as (_ & Hsent & Hrc).
  specialize (Hrc Hws). rewrite (Hsent Hrc), Hrc.
  destruct (read_frame_spec max bufsz ty fl payload rest rs Hrs Ht Hf Hmax Hbuf) as [s E]; [lia|].
  unfold framing_read_msg_blocking. unfold frame in E. rewrite E. done.
Qed.

Lemma framing_roundtrip_witness :
  rd_payload (framing_read_msg_blocking 100 10
    (wr_sent (framing_write_msg 100 (protocol_init_header 3 0 2) [8; 9] [Xfer 5; Intr]) ++ [1])
    [Xfer 1; Xfer 2; Intr]) = [8; 9].
Proof.
  apply (framing_roundtrip 100 10 3 0 [8; 9] [1] [Xfer 5; Intr] [Xfer 1; Xfer 2; Intr]);
    unfold is_byte; simpl; try lia; repeat constructor.
Defined.

(** The two lengths of a frame are not compared: the reader takes the
    payload size from the prefix and hands the header's own length through, so
    a peer can announce more bytes in the header than the buffer received. *)
Theorem framing_header_length_unchecked (claimed : Z) :
  0 <= claimed < 2 ^ 32 →
  let r := framing_read_msg_blocking 100 100 (frame (protocol_init_header 1 0 claimed) [42]) [] in
  rd_rc r = 0 ∧ rd_payload r = [42] ∧ rd_len r = Some 1 ∧
  payload_len <$> rd_header r = Some claimed.
Proof.
  intros Hc r. subst r. unfold framing_read_msg_blocking, frame.
  pose proof (init_header_to_host 1 0 claimed Hc) as Eh.
  pose proof (header_of_header_mem _ (init_header_ok 1 0 claimed ltac:(unfold is_byte; lia) ltac:(unfold is_byte; lia))) as Em.
  set (h := protocol_init_header 1 0 claimed) in *. unfold read_frame.
  assert (read_full 4 (frame_head h (Z.of_nat (length [42])) ++ [42]) [] =
    (0, [0; 0; 0; 9], header_mem h ++ [42], [])) as -> by done.
  change (ntohl (of_le [0; 0; 0; 9])) with 9. cbn [Z.eqb negb].
  change (9 <? SIZEOF_HEADER) with false. cbn [negb].
  assert (read_full 8 (header_mem h ++ [42]) [] = (0, header_mem h, [42], [])) as -> by done.
  cbn [Z.eqb negb]. rewrite Em, Eh. done.
Qed.

Lemma framing_header_length_unchecked_witness :
  let r := framing_read_msg_blocking 100 100 (frame (protocol_init_header 1 0 4000000000) [42]) [] in
  rd_payload r = [42] ∧ payload_len <$> rd_header r = Some 4000000000.
Proof. by destruct (framing_header_length_unchecked 4000000000) as (_ & ? & _ & ?). Defined.

(** A refused frame desynchronises the stream: when the version check or
    the buffer check fails after the header was read, the payload stays in the
    stream and the next read takes its bytes for a length prefix. *)
Theorem framing_refusal_desynchronises :
  let stream := frame (protocol_init_header 1 0 4) [0; 0; 0; 8] ++ frame (protocol_init_header 9 0 0) [] in
  let r1 := framing_read_msg_blocking 100 2 stream [] in
  let r2 := framing_read_msg_blocking 100 2 (rd_inp r1) [] in
  rd_rc r1 = -1 ∧ rd_errno r1 = Some EMSGSIZE ∧
  rd_inp r1 = [0; 0; 0; 8] ++ frame (protocol_init_header 9 0 0) [] ∧
  rd_rc r2 = -1 ∧ rd_errno r2 = Some EPROTONOSUPPORT.
Proof. vm_compute. done. Qed.
