(* ===== verification/Zcpool.v ===== *)
(** * Zero-copy buffer pool ([app/libs/ring3/postoffice/perf/zerocopy.c])

    A mapped region cut into equal buffers whose free pointers sit in a ring
    buffer.  Acquire and release hold the pool's mutex, so they are calls
    without interference on the ring of [Ringbuf].  The kernel's answers
    (detected huge page size, [mmap], mutex initialisation) are parameters;
    mappings made and undone are recorded as events.  Pointers are addresses,
    0 is [NULL]; metrics and log lines are not part of the state. *)

From Stdlib Require Import ZArith Lia.
From stdpp Require Import base list numbers.
From S2P Require Import Prelude Ringbuf.

Local Open Scope Z_scope.

Record perf_zcpool : Type := mk_zcpool {
  base : Z;
  buf_size : Z;
  buf_count : Z;
  freeq : perf_ringbuf Z;
  zc_flags : Z
}.

(** What [perf_zcpool_create] asks of the system: [po_sysinfo_collect] and its
    [hugepage_info.size_kB] when it succeeds, [mmap] with [MAP_HUGETLB] and a
    page shift or without, and [pthread_mutex_init]. *)
Record os_env : Type := mk_env {
  sysinfo_hugepage_kB : option Z;
  mmap : option Z → Z → option Z;
  mutex_init_ok : bool
}.

Inductive mem_event : Type :=
| Mapped (addr len : Z)
| Unmapped (addr len : Z).

Definition page_2mb : Z := Z.shiftl 2 20.

(** [__builtin_ctzl] *)
Definition ctzl (z : Z) : Z := Z.log2 (Z.land z (- z)).

Definition get_log2_shift (bytes : Z) : Z := if bytes =? 0 then 0 else ctzl bytes.

Definition perf_zcpool_bufsize (pool : perf_zcpool) : Z := buf_size pool.

(** [(region_size + page - 1) & ~(page - 1)] on [size_t] *)
Definition align_up (region_size page : Z) : Z :=
  Z.land (u64 (region_size + page - 1)) (u64 (Z.lnot (page - 1))).

(** Huge page size in bytes and its shift, 2 MiB unless one is detected. *)
Definition detect_pages (env : os_env) : Z * Z :=
  match sysinfo_hugepage_kB env with
  | Some size_kB =>
      if 0 <? size_kB then
        let huge_page_bytes := u64 (size_kB * 1024) in
        (huge_page_bytes, get_log2_shift huge_page_bytes)
      else (page_2mb, 21)
  | None => (page_2mb, 21)
  end.

(** [for (i = 0; i < buf_count; i++)]: the ring and the number of refused
    pointers. *)
Fixpoint populate (q : perf_ringbuf Z) (base buf_size : Z) (i : Z) (n : nat) (fails : Z) :
    option (perf_ringbuf Z * Z) :=
  match n with
  | O => Some (q, fails)
  | S n =>
      r ← perf_ringbuf_enqueue q (u64 (base + u64 (i * buf_size)));
      let '(rc, _, q) := r in
      populate q base buf_size (i + 1) n (if rc =? 0 then fails else fails + 1)
  end.

(** [errno] if the function sets it, the pool, and the mapping events; the
    outer [None] is an enqueue that never returns. *)
Definition perf_zcpool_create (env : os_env) (count size flags : Z) :
    alloc (option (option errno * option perf_zcpool * list mem_event)) :=
  if (count <? 1) || (size =? 0) || (page_2mb <? size) then mret (Some (Some EINVAL, None, []))
  else
    let '(huge_page_bytes, huge_shift) := detect_pages env in
    let region_size := u64 (count * size) in
    let aligned := align_up region_size huge_page_bytes in
    let mapping :=
      match mmap env (Some huge_shift) aligned with
      | Some b => Some b
      | None => mmap env None aligned
      end in
    match mapping with
    | None => mret (Some (Some ZCP_EMMAP, None, []))
    | Some b =>
        ok ← malloc;
        if negb ok then mret (Some (None, None, [Mapped b aligned; Unmapped b aligned]))
        else
          r ← perf_ringbuf_create 0 (u64 (count * 2));
          match r with
          | (e, None) => mret (Some (e, None, [Mapped b aligned; Unmapped b aligned]))
          | (_, Some q) =>
              if negb (mutex_init_ok env)
              then mret (Some (None, None, [Mapped b aligned; Unmapped b aligned]))
              else
                mret (r ← populate q b size 0 (Z.to_nat count) 0;
                      Some (None, Some (mk_zcpool b size count r.1 flags), [Mapped b aligned]))
          end
    end.

Definition perf_zcpool_destroy (p : option perf_zcpool) : option perf_zcpool * list mem_event :=
  match p with
  | None => (None, [])
  | Some pool =>
      if negb (base pool =? 0) then
        let region_size := u64 (buf_count pool * buf_size pool) in
        (None, [Unmapped (base pool) (align_up region_size page_2mb)])
      else (None, [])
  end.

Definition with_freeq (p : perf_zcpool) (q : perf_ringbuf Z) : perf_zcpool :=
  mk_zcpool (base p) (buf_size p) (buf_count p) q (zc_flags p).

(** Buffer or [NULL] with [EAGAIN]. *)
Definition perf_zcpool_acquire (p : perf_zcpool) : option (option errno * Z * perf_zcpool) :=
  r ← perf_ringbuf_dequeue (freeq p);
  let '(rc, buf, q) := r in
  if rc <? 0 then Some (Some EAGAIN, 0, with_freeq p q)
  else Some (None, default 0 buf, with_freeq p q).

(** Only a pointer to the start of one of the buffers goes back. *)
Definition perf_zcpool_release (p : perf_zcpool) (buffer : Z) : option perf_zcpool :=
  let start := base p in
  let end_ := u64 (start + u64 (buf_count p * buf_size p)) in
  if (buffer <? start) || (end_ <=? buffer) || negb ((buffer - start) mod buf_size p =? 0) then Some p
  else
    r ← perf_ringbuf_enqueue (freeq p) buffer;
    Some (with_freeq p r.2).

Definition perf_zcpool_freecount (p : option perf_zcpool) : option errno * Z :=
  match p with
  | None => (Some EINVAL, 0)
  | Some p => (None, perf_ringbuf_count (freeq p))
  end.

(** ** Specification *)

(** The addresses of all buffers. *)
Definition buffers (b size count : Z) : list Z := (λ i, b + i * size) <$> seqZ 0 count.
Definition pool_buffers (p : perf_zcpool) : list Z := buffers (base p) (buf_size p) (buf_count p).

(** Free and held buffers together are all buffers, each once. *)
Record pool_inv (p : perf_zcpool) (held : list Z) : Prop := mk_pool_inv {
  inv_base : 0 < base p;
  inv_size : 0 < buf_size p;
  inv_count : 0 < buf_count p;
  inv_end : base p + buf_count p * buf_size p < 2 ^ 64;
  inv_freeq : ∃ h q, rb_repr (freeq p) h q ∧ rb_cap (freeq p) = buf_count p * 2 ∧
                     q ++ held ≡ₚ pool_buffers p
}.

(** The calls clients make: acquire, release of a buffer they hold, release of
    a pointer that is no buffer. *)
Inductive client_step : perf_zcpool * list Z → perf_zcpool * list Z → Prop :=
| step_acquire p held b p' :
    perf_zcpool_acquire p = Some (None, b, p') → client_step (p, held) (p', b :: held)
| step_exhausted p held e b p' :
    perf_zcpool_acquire p = Some (Some e, b, p') → client_step (p, held) (p', held)
| step_release p held b held' p' :
    held ≡ₚ b :: held' → perf_zcpool_release p b = Some p' → client_step (p, held) (p', held')
| step_foreign p held b p' :
    b ∉ pool_buffers p → perf_zcpool_release p b = Some p' → client_step (p, held) (p', held).

(** ** Lemmas *)

Lemma align_up_spec r k :
  0 <= k → 0 <= r → r + 2 ^ k <= 2 ^ 64 → 2 ^ k < 2 ^ 64 →
  r <= align_up r (2 ^ k) < r + 2 ^ k.
Proof.
  intros Hk Hr Hb Hk2. assert (0 < 2 ^ k) by (apply Z.pow_pos_nonneg; lia).
  unfold align_up. rewrite (u64_small (r + 2 ^ k - 1)) by lia.
  assert (u64 (Z.lnot (2 ^ k - 1)) = 2 ^ 64 - 2 ^ k) as ->.
  { unfold u64, Z.lnot. symmetry. apply (Z.mod_unique _ _ (-1)); lia. }
  assert (2 ^ 64 - 2 ^ k = Z.ldiff (Z.ones 64) (Z.ones k)) as ->.
  { assert (k < 64) by (apply (Z.pow_lt_mono_r_iff 2); lia).
    rewrite Z.ldiff_ones_r, Z.shiftl_mul_pow2, Z.shiftr_div_pow2 by lia.
    rewrite Z.ones_equiv. replace (Z.pred (2 ^ 64)) with (2 ^ 64 - 1) by lia.
    replace 64 with (64 - k + k) at 2 by lia. rewrite Z.pow_add_r by lia.
    assert (0 < 2 ^ (64 - k)) by (apply Z.pow_pos_nonneg; lia).
    assert ((2 ^ (64 - k) * 2 ^ k - 1) / 2 ^ k = 2 ^ (64 - k) - 1) as ->.
    { symmetry. apply (Z.div_unique _ _ _ (2 ^ k - 1)); lia. }
    replace (2 ^ 64) with (2 ^ (64 - k) * 2 ^ k) by (rewrite <- Z.pow_add_r by lia; f_equal; lia). lia. }
  rewrite Z.ldiff_land, Z.land_assoc, <- Z.ldiff_land, Z.land_ones by lia.
  rewrite Z.mod_small by lia.
  rewrite Z.ldiff_ones_r, Z.shiftl_mul_pow2, Z.shiftr_div_pow2 by lia.
  pose proof (Z.div_mod (r + 2 ^ k - 1) (2 ^ k) ltac:(lia)).
  pose proof (Z.mod_pos_bound (r + 2 ^ k - 1) (2 ^ k) ltac:(lia)). lia.
Qed.

Lemma elem_of_buffers b size count x :
  x ∈ buffers b size count ↔ ∃ i, 0 <= i < count ∧ x = b + i * size.
Proof.
  unfold buffers. rewrite list_elem_of_fmap. setoid_rewrite elem_of_seqZ.
  split; intros (i & ? & ?); exists i; split; lia.
Qed.

Lemma NoDup_buffers b size count : 0 < size → NoDup (buffers b size count).
Proof. intros Hs. apply NoDup_fmap_2; [intros i j ?; nia|apply NoDup_seqZ]. Qed.

Lemma length_buffers b size count : length (buffers b size count) = Z.to_nat count.
Proof. unfold buffers. by rewrite length_fmap, length_seqZ. Qed.

Lemma populate_spec b size n : ∀ rb q i fails,
  rb_repr rb 0 q → 0 <= i → 0 <= b → 0 < size →
  Z.of_nat (length q) + Z.of_nat n <= rb_cap rb → b + (i + Z.of_nat n) * size < 2 ^ 64 →
  ∃ rb', populate rb b size i n fails = Some (rb', fails) ∧ rb_cap rb' = rb_cap rb ∧
    rb_repr rb' 0 (q ++ ((λ j, b + j * size) <$> seqZ i (Z.of_nat n))).
Proof.
  induction n as [|n IH]; intros rb q i fails Hr Hi Hb Hs Hcap Hend.
  { exists rb. simpl. rewrite app_nil_r. done. }
  cbn [populate]. rewrite (u64_small (i * size)), u64_small by nia.
  destruct (enqueue_room rb 0 q (b + i * size) Hr) as (rb1 & E & Hr1 & Hc1); [lia|].
  rewrite E. cbn [mbind option_bind]. change (0 =? 0) with true. cbv iota.
  destruct (IH rb1 _ (i + 1) fails Hr1) as (rb' & E' & Hc' & Hr'); try lia.
  { rewrite length_app. simpl. lia. }
  exists rb'. rewrite E', Hc', Hc1. split_and!; [done..|].
  rewrite <- app_assoc in Hr'. rewrite seqZ_cons by lia.
  replace (Z.pred (Z.of_nat (S n))) with (Z.of_nat n) by lia.
  rewrite <- Z.add_1_r. exact Hr'.
Qed.

Section client.
Context (p : perf_zcpool) (held : list Z) (Hinv : pool_inv p held).

Lemma held_elem x : x ∈ held → x ∈ pool_buffers p.
Proof using Hinv.
  destruct Hinv as [_ _ _ _ (h & q & _ & _ & Hp)]. intros Hx.
  rewrite <- Hp. apply elem_of_app. by right.
Qed.

Lemma held_NoDup : NoDup held.
Proof using Hinv.
  destruct Hinv as [_ Hs _ _ (h & q & _ & _ & Hp)].
  assert (NoDup (q ++ held)) as Hn by (rewrite Hp; by apply NoDup_buffers).
  by apply list.NoDup_app in Hn as (_ & _ & ?).
Qed.

Lemma buffer_test x :
  let start := base p in
  let end_ := u64 (start + u64 (buf_count p * buf_size p)) in
  (x <? start) || (end_ <=? x) || negb ((x - start) mod buf_size p =? 0) = false ↔
  x ∈ pool_buffers p.
Proof using Hinv.
  destruct Hinv as [Hb Hs Hc He _]. cbv zeta. rewrite (u64_small (_ * _)), u64_small by nia.
  unfold pool_buffers. rewrite elem_of_buffers, !orb_false_iff, Z.ltb_ge, Z.leb_gt, negb_false_iff, Z.eqb_eq.
  split.
  - intros [[H1 H2] H3]. apply Z.mod_divide in H3 as [i Hi]; [|lia]. exists i. split; [nia|lia].
  - intros (i & Hi & ->). split_and!; [nia|nia|].
    replace (base p + i * buf_size p - base p) with (i * buf_size p) by lia. apply Z.mod_mul. lia.
Qed.

(** Acquire hands out a buffer nobody holds, as long as there is one. *)
Lemma acquire_spec :
  if Z.of_nat (length held) <? buf_count p
  then ∃ b p', perf_zcpool_acquire p = Some (None, b, p') ∧ b ≠ 0 ∧ b ∉ held ∧
         pool_inv p' (b :: held) ∧ pool_buffers p' = pool_buffers p
  else ∃ p', perf_zcpool_acquire p = Some (Some EAGAIN, 0, p') ∧ pool_inv p' held ∧
         pool_buffers p' = pool_buffers p.
Proof using Hinv.
  pose proof Hinv as [Hb Hs Hc He (h & q & Hr & Hcap & Hp)]. unfold perf_zcpool_acquire.
  pose proof (Permutation_length Hp) as Hl. unfold pool_buffers in Hl.
  rewrite length_app, length_buffers in Hl.
  case (Z.ltb_spec (Z.of_nat (length held)) (buf_count p)); intros Hlt; destruct q as [|b q]; simpl in Hl; try lia.
  - destruct (dequeue_some _ _ _ _ Hr) as (rb' & E & Hr' & Hc'). rewrite E. cbn [mbind option_bind].
    change (0 <? 0) with false. cbv iota. exists b, (with_freeq p rb').
    assert (NoDup (b :: q ++ held)) as Hn by (change (NoDup ((b :: q) ++ held)); rewrite Hp; by apply NoDup_buffers).
    apply list.NoDup_cons in Hn as [Hnb _]. assert (b ∈ pool_buffers p) as Hbin by (rewrite <- Hp; left).
    split_and!; [done| |rewrite elem_of_app in Hnb; tauto| |done].
    + unfold pool_buffers in Hbin. apply elem_of_buffers in Hbin as (i & ? & ->). nia.
    + constructor; simpl; try done. exists (h + 1), q. split_and!; [done|congruence|].
      rewrite <- Hp. simpl. by rewrite Permutation_middle.
  - rewrite (dequeue_empty _ _ Hr). cbn [mbind option_bind]. change (-1 <? 0) with true. cbv iota.
    exists (with_freeq p (freeq p)). split_and!; [done| |done]. constructor; simpl; try done. eauto.
Qed.

(** A held buffer goes back into the pool. *)
Lemma release_held b held' :
  held ≡ₚ b :: held' →
  ∃ p', perf_zcpool_release p b = Some p' ∧ pool_inv p' held' ∧ pool_buffers p' = pool_buffers p.
Proof using Hinv.
  intros Hh. pose proof Hinv as [Hb Hs Hc He (h & q & Hr & Hcap & Hp)].
  pose proof (Permutation_length Hp) as Hl. unfold pool_buffers in Hl.
  rewrite length_app, length_buffers, Hh in Hl. simpl in Hl.
  unfold perf_zcpool_release. rewrite (proj2 (buffer_test b)) by (apply held_elem; rewrite Hh; left).
  destruct (enqueue_room _ _ _ b Hr) as (rb' & E & Hr' & Hc'); [lia|]. rewrite E. simpl.
  eexists. split_and!; [done| |done]. constructor; simpl; try done.
  exists h, (q ++ [b]). split_and!; [done|congruence|]. rewrite <- app_assoc. simpl. by rewrite <- Hh.
Qed.

(** Anything that is not a buffer is ignored. *)
Lemma release_foreign b : b ∉ pool_buffers p → perf_zcpool_release p b = Some p.
Proof using Hinv.
  intros Hb. unfold perf_zcpool_release. pose proof (buffer_test b) as Ht. cbv zeta in Ht |- *.
  by destruct (_ || negb _) eqn:E; [|tauto].
Qed.
End client.

Lemma client_step_inv s s' :
  client_step s s' → pool_inv s.1 s.2 → pool_inv s'.1 s'.2 ∧ pool_buffers s'.1 = pool_buffers s.1.
Proof.
  intros Hst. destruct Hst as [p held b p' E|p held e b p' E|p held b held' p' Hh E|p held b p' Hb E];
    simpl; intros Hi.
  - pose proof (acquire_spec p held Hi) as Ha.
    destruct (_ <? _); [destruct Ha as (? & ? & E' & _ & _ & ?)|destruct Ha as (? & E' & _)]; by simplify_eq.
  - pose proof (acquire_spec p held Hi) as Ha.
    destruct (_ <? _); [destruct Ha as (? & ? & E' & _)|destruct Ha as (? & E' & ?)]; by simplify_eq.
  - destruct (release_held p held Hi b held' Hh) as (? & E' & ?). by simplify_eq.
  - rewrite (release_foreign p held Hi b Hb) in E. by simplify_eq.
Qed.

Lemma client_run_inv s s' :
  star client_step s s' → pool_inv s.1 s.2 → pool_inv s'.1 s'.2 ∧ pool_buffers s'.1 = pool_buffers s.1.
Proof.
  induction 1 as [s|s1 s2 s3 H _ IH]; intros Hi; [done|].
  destruct (client_step_inv _ _ H Hi) as [Hi' E]. destruct (IH Hi') as [? E']. split; congruence.
Qed.

(** What [mmap] promises: a non-null address with room for the mapping. *)
Definition mmap_ok (env : os_env) : Prop :=
  ∀ shift len b, mmap env shift len = Some b → 0 < b ∧ b + len < 2 ^ 64.

Definition undone (ev : list mem_event) : Prop :=
  ev = [] ∨ ∃ b len, ev = [Mapped b len; Unmapped b len].

Lemma create_spec env k j size flags :
  0 <= k <= 58 → 0 < size <= page_2mb → mmap_ok env →
  0 <= j < 64 → (detect_pages env).1 = 2 ^ j → 2 ^ k * size + 2 ^ j <= 2 ^ 64 →
  always (perf_zcpool_create env (2 ^ k) size flags) (λ r,
    match r with
    | None => False
    | Some (_, None, ev) => undone ev
    | Some (_, Some p, ev) =>
        pool_inv p [] ∧ pool_buffers p = buffers (base p) size (2 ^ k) ∧
        buf_size p = size ∧ buf_count p = 2 ^ k ∧
        ∃ len, ev = [Mapped (base p) len] ∧ 2 ^ k * size <= len < 2 ^ k * size + 2 ^ j
    end).
Proof.
  intros Hk Hs Hm Hj Hp Hfit. unfold perf_zcpool_create.
  assert (1 <= 2 ^ k <= 2 ^ 58) as Hc.
  { split; [change 1 with (2 ^ 0) at 1|]; apply Z.pow_le_mono_r; lia. }
  assert (2 ^ j < 2 ^ 64) by (apply Z.pow_lt_mono_r; lia).
  assert (0 < 2 ^ j) by (apply Z.pow_pos_nonneg; lia).
  rewrite (proj2 (Z.ltb_ge _ _)), (proj2 (Z.eqb_neq _ _)), (proj2 (Z.ltb_ge _ _)) by lia. cbn [orb].
  destruct (detect_pages env) as [page shift]. simpl in Hp. subst page.
  rewrite (u64_small (2 ^ k * size)) by nia.
  pose proof (align_up_spec (2 ^ k * size) j ltac:(lia) ltac:(nia) Hfit ltac:(lia)) as Ha.
  set (len := align_up _ _) in *.
  destruct (match mmap env (Some shift) len with Some b => _ | None => _ end) as [b|] eqn:Eb;
    [|apply always_ret; by left].
  assert (0 < b ∧ b + len < 2 ^ 64) as Hb.
  { destruct (mmap env (Some shift) len) as [b'|] eqn:E1; simplify_eq; by eapply Hm. }
  apply always_bind, always_malloc. intros [] ; simpl; [|apply always_ret; right; eauto].
  rewrite u64_small by lia. replace (2 ^ k * 2) with (2 ^ (k + 1)) by (rewrite Z.pow_add_r by lia; lia).
  apply always_bind. eapply always_mono; [apply (ringbuf_create_lemma 0 (k + 1)); lia|].
  intros [e [q|]]; intros Hq; [|apply always_ret; right; eauto].
  destruct Hq as (-> & Hr & Hcap).
  destruct (mutex_init_ok env); simpl; [|apply always_ret; right; eauto]. apply always_ret.
  assert (rb_cap q = 2 ^ k * 2) as Hcap' by (rewrite Hcap, Z.pow_add_r by lia; lia).
  destruct (populate_spec b size (Z.to_nat (2 ^ k)) q [] 0 0 Hr) as (rb' & E & Hc' & Hr');
    [lia|lia|lia|simpl; lia|rewrite Z2Nat.id by lia; lia|].
  rewrite E. cbn. rewrite Z2Nat.id in Hr' by lia. split_and!; [|done|done|done|by exists len].
  constructor; simpl; [lia..|]. exists 0. eexists. split_and!; [exact Hr'|congruence|].
  by rewrite app_nil_r.
Qed.

(** ** Properties *)

(** C38. No buffer of a pool is ever handed out twice: after any sequence of
    acquisitions, releases of held buffers and releases of foreign pointers
    the held buffers are distinct, inside the mapping, at least [size] bytes
    apart, and a further acquire succeeds exactly when fewer than all buffers
    are held, with a buffer nobody holds. *)
Theorem zcpool_exclusive_buffers (env : os_env) (k j size flags : Z) (m m' : list bool)
    (e : option errno) (p : perf_zcpool) (ev : list mem_event) (p' : perf_zcpool) (held : list Z) :
  0 <= k <= 58 → 0 < size <= page_2mb → mmap_ok env →
  0 <= j < 64 → (detect_pages env).1 = 2 ^ j → 2 ^ k * size + 2 ^ j <= 2 ^ 64 →
  perf_zcpool_create env (2 ^ k) size flags m = (Some (e, Some p, ev), m') →
  star client_step (p, []) (p', held) →
  NoDup held ∧
  (∃ len, ev = [Mapped (base p) len] ∧
     ∀ b, b ∈ held → base p <= b ∧ b + size <= base p + len) ∧
  (∀ b b', b ∈ held → b' ∈ held → b ≠ b' → b + size <= b' ∨ b' + size <= b) ∧
  (if Z.of_nat (length held) <? 2 ^ k
   then ∃ b q, perf_zcpool_acquire p' = Some (None, b, q) ∧ b ≠ 0 ∧ b ∉ held
   else ∃ q, perf_zcpool_acquire p' = Some (Some EAGAIN, 0, q)).
Proof.
  intros Hk Hs Hm Hj Hp Hfit E Hrun.
  pose proof (create_spec env k j size flags Hk Hs Hm Hj Hp Hfit m) as Hcr. rewrite E in Hcr. simpl in Hcr.
  destruct Hcr as (Hi & Hbufs & Hsz & Hct & len & Hev & Hlen).
  destruct (client_run_inv _ _ Hrun Hi) as [Hi' Hbufs']. simpl in Hi', Hbufs'.
  assert (∀ b, b ∈ held → ∃ i, 0 <= i < 2 ^ k ∧ b = base p + i * size) as Hel.
  { intros b Hb. apply (held_elem _ _ Hi') in Hb. rewrite Hbufs', Hbufs in Hb. by apply elem_of_buffers. }
  split_and!.
  - by apply (held_NoDup _ _ Hi').
  - exists len. split; [done|]. intros b Hb. destruct (Hel b Hb) as (i & Hr & ->). nia.
  - intros b b' Hb Hb' Hne. destruct (Hel b Hb) as (i & Hr & ->). destruct (Hel b' Hb') as (i' & Hr' & ->).
    assert (i < i' ∨ i' < i) as [?|?] by (destruct (Z.lt_trichotomy i i') as [?|[->|?]]; lia); nia.
  - pose proof (acquire_spec _ _ Hi') as Ha.
    assert (buf_count p' = 2 ^ k) as Hct'.
    { assert (length (pool_buffers p') = length (pool_buffers p)) as El by congruence.
      unfold pool_buffers in El. rewrite !length_buffers, Hct in El. pose proof (inv_count _ _ Hi'). lia. }
    rewrite Hct' in Ha. destruct (_ <? _); naive_solver.
Qed.

(** A system without huge pages that maps at a fixed address. *)
Definition plain_env : os_env :=
  mk_env None (λ shift len, if shift then None else if len <? 2 ^ 30 then Some 65536 else None) true.

Lemma plain_env_ok : mmap_ok plain_env.
Proof.
  intros shift len b H. unfold plain_env, mmap in H. destruct shift; [done|].
  destruct (Z.ltb_spec len (2 ^ 30)); [|done]. injection H as <-. lia.
Qed.

Definition pool2 : perf_zcpool :=
  match (perf_zcpool_create plain_env 2 4096 0 []).1 with
  | Some (_, Some p, _) => p
  | _ => mk_zcpool 0 0 0 (mk_ringbuf 0 0 0 0 []) 0
  end.
Definition pool2_acquire (p : perf_zcpool) : Z * perf_zcpool :=
  match perf_zcpool_acquire p with Some (_, b, q) => (b, q) | None => (0, p) end.

Lemma zcpool_exclusive_buffers_witness : NoDup [69632; 65536].
Proof.
  apply (zcpool_exclusive_buffers plain_env 1 21 4096 0 [] [] None pool2
    [Mapped 65536 2097152] (pool2_acquire (pool2_acquire pool2).2).2); [lia| | |lia| |lia| |].
  - change page_2mb with 2097152. lia.
  - apply plain_env_ok.
  - reflexivity.
  - vm_compute. reflexivity.
  - eapply star_step; [apply step_acquire; vm_compute; reflexivity|].
    eapply star_step; [apply step_acquire; vm_compute; reflexivity|]. apply star_refl.
Defined.

(** Releasing a buffer twice is not noticed: two later acquisitions return
    the same buffer, so two holders share its bytes. *)
Theorem zcpool_double_release_shares :
  let b := (pool2_acquire pool2).1 in
  let p := (pool2_acquire (pool2_acquire pool2).2).2 in
  ∃ p1 p2, perf_zcpool_release p b = Some p1 ∧ perf_zcpool_release p1 b = Some p2 ∧
    (pool2_acquire p2).1 = b ∧ (pool2_acquire (pool2_acquire p2).2).1 = b.
Proof.
  cbv zeta. eexists _, _. split; [vm_compute; reflexivity|]. split; [vm_compute; reflexivity|].
  vm_compute. done.
Qed.

(** Creation leaks no mapping when it fails, whatever the system answers;
    a count that is not a power of two is refused although its documented
    domain is every positive count. *)
Theorem zcpool_create_failure (env : os_env) (count size flags : Z) :
  always (perf_zcpool_create env count size flags) (λ r,
    match r with
    | Some (_, None, ev) => undone ev
    | Some (_, Some p, _) => Z.land (u64 (count * 2)) (u64 (count * 2) - 1) = 0
    | None => True
    end).
Proof.
  unfold perf_zcpool_create.
  destruct ((count <? 1) || (size =? 0) || (page_2mb <? size)); [apply always_ret; by left|].
  destruct (detect_pages env) as [page shift]. set (len := align_up _ _).
  destruct (match mmap env (Some shift) len with Some b => _ | None => _ end) as [b|];
    [|apply always_ret; by left].
  apply always_bind, always_malloc. intros []; simpl; [|apply always_ret; right; eauto].
  apply always_bind.
  assert (always (perf_ringbuf_create 0 (u64 (count * 2))) (λ r,
    r.2 ≠ None → Z.land (u64 (count * 2)) (u64 (count * 2) - 1) = 0)) as Hrb.
  { unfold perf_ringbuf_create. destruct (Z.eqb_spec (Z.land (u64 (count * 2)) (u64 (count * 2) - 1)) 0) as [Ez|].
    - intros m _. exact Ez.
    - rewrite orb_true_r. by apply always_ret. }
  eapply always_mono; [exact Hrb|]. intros [e [q|]] Hq; [|apply always_ret; right; eauto].
  destruct (mutex_init_ok env); simpl; [|apply always_ret; right; eauto]. apply always_ret.
  destruct (populate q b size 0 (Z.to_nat count) 0) as [[? ?]|]; [|done]. by apply Hq.
Qed.

(** [perf_zcpool_destroy] undoes the mapping of [perf_zcpool_create] when
    the detected huge pages have 2 MiB; with 1 GiB pages it leaves all but the
    first 2 MiB of the region mapped. *)
Theorem zcpool_destroy_unmaps (env : os_env) (count size flags : Z) :
  always (perf_zcpool_create env count size flags) (λ r,
    match r with
    | Some (_, Some p, ev) => (detect_pages env).1 = page_2mb → base p ≠ 0 →
        ∃ b len, ev = [Mapped b len] ∧ (perf_zcpool_destroy (Some p)).2 = [Unmapped b len]
    | _ => True
    end) ∧
  ∃ p, (perf_zcpool_create (mk_env (Some 1048576) (λ _ _, Some 65536) true) 2 4096 0 []).1 =
         Some (None, Some p, [Mapped 65536 (2 ^ 30)]) ∧
       (perf_zcpool_destroy (Some p)).2 = [Unmapped 65536 (2 ^ 21)].
Proof.
  split; [|eexists; split; [vm_compute; reflexivity|]; vm_compute; reflexivity]. unfold perf_zcpool_create.
  destruct ((count <? 1) || (size =? 0) || (page_2mb <? size)); [by apply always_ret|].
  destruct (detect_pages env) as [page shift]. simpl. set (len := align_up _ _).
  destruct (match mmap env (Some shift) len with Some b => _ | None => _ end) as [b|]; [|by apply always_ret].
  apply always_bind, always_malloc. intros []; simpl; [|by apply always_ret].
  apply always_bind. intros m0. destruct (perf_ringbuf_create 0 (u64 (count * 2)) m0) as [[e [q|]] m1];
    cbn [fst]; [|by apply always_ret].
  destruct (mutex_init_ok env); simpl; [|by apply always_ret]. apply always_ret.
  destruct (populate q b size 0 (Z.to_nat count) 0) as [[? ?]|]; [|done]. intros -> Hb. simpl in *.
  exists b, len. split; [done|]. by rewrite (proj2 (Z.eqb_neq _ _) Hb).
Qed.
