(* ===== verification/Net.v ===== *)
(** * Message sending and receiving ([app/libs/ring4/postoffice/net/net.c])

    The process-wide transmit and receive pools with their user counters, and
    the message calls composed from framing, protocol and pools.  This file
    runs one call at a time; [NetLifecycle] interleaves the acquisition,
    release and shutdown of a pool.  A call that would wait for ever is [None].
    Metrics and log lines are not part of the state. *)

From Stdlib Require Import ZArith Lia.
From stdpp Require Import base list numbers.
From S2P Require Import Prelude Ringbuf Zcpool Protocol Framing.

Local Open Scope Z_scope.

(** [g_tx_pool], [g_tx_users], [g_tx_shutting], and likewise for [rx]. *)
Record net_side : Type := mk_side {
  g_pool : option perf_zcpool;
  g_users : Z;
  g_shutting : bool
}.

Record net_state : Type := mk_net {
  g_tx : net_side;
  g_rx : net_side;
  g_zcpool_refcount : Z
}.

Definition PERF_ZCPOOL_METRICS : Z := 1.

Definition with_pool (s : net_side) (p : option perf_zcpool) : net_side :=
  mk_side p (g_users s) (g_shutting s).
Definition add_users (s : net_side) (n : Z) : net_side :=
  mk_side (g_pool s) (u32 (g_users s + n)) (g_shutting s).
Definition with_tx (st : net_state) (s : net_side) : net_state := mk_net s (g_rx st) (g_zcpool_refcount st).
Definition with_rx (st : net_state) (s : net_side) : net_state := mk_net (g_tx st) s (g_zcpool_refcount st).

(** [if (!g_pool) { g_pool = perf_zcpool_create(...); if (!g_pool) return -1; }] *)
Definition ensure_pool (env : os_env) (buffers buf_size : Z) (s : net_side) :
    alloc (option (bool * net_side)) :=
  match g_pool s with
  | Some _ => mret (Some (true, s))
  | None =>
      r ← perf_zcpool_create env buffers buf_size PERF_ZCPOOL_METRICS;
      mret (r ← r; let '(_, p, _) := r in
            Some (bool_decide (p ≠ None), with_pool s p))
  end.

(** Creates the missing pools or counts one more user of existing ones. *)
Definition net_init_zerocopy (tx_env rx_env : os_env) (tx_buffers rx_buffers buf_size : Z)
    (st : net_state) : alloc (option (Z * net_state)) :=
  if 0 <? g_zcpool_refcount st
  then mret (Some (0, mk_net (g_tx st) (g_rx st) (g_zcpool_refcount st + 1)))
  else
    r ← ensure_pool tx_env tx_buffers buf_size (g_tx st);
    match r with
    | None => mret None
    | Some (false, tx) => mret (Some (-1, with_tx st tx))
    | Some (true, tx) =>
        let st := with_tx st tx in
        r ← ensure_pool rx_env rx_buffers buf_size (g_rx st);
        match r with
        | None => mret None
        | Some (false, rx) => mret (Some (-1, with_rx st rx))
        | Some (true, rx) => mret (Some (0, mk_net (g_tx st) rx (g_zcpool_refcount st + 1)))
        end
    end.

(** With no other thread to drain the counters the wait ends at once or never. *)
Definition net_shutdown_zerocopy (st : net_state) : option (net_state * list mem_event) :=
  let refcount := if 0 <? g_zcpool_refcount st then g_zcpool_refcount st - 1 else g_zcpool_refcount st in
  if (0 <? g_zcpool_refcount st) && (0 <? refcount)
  then Some (mk_net (g_tx st) (g_rx st) refcount, [])
  else if negb (g_users (g_tx st) =? 0) || negb (g_users (g_rx st) =? 0) then None
  else
    let '(tx, ev) := perf_zcpool_destroy (g_pool (g_tx st)) in
    let '(rx, ev') := perf_zcpool_destroy (g_pool (g_rx st)) in
    Some (mk_net (mk_side tx (g_users (g_tx st)) false) (mk_side rx (g_users (g_rx st)) false) refcount,
          ev ++ ev').

(** The common body of [net_zcp_acquire_tx] and [net_zcp_acquire_rx]. *)
Definition acquire_side (s : net_side) : option (Z * net_side) :=
  if g_shutting s then Some (0, s)
  else
    let s := add_users s 1 in
    if g_shutting s then Some (0, add_users s (-1))
    else
      match g_pool s with
      | None => Some (0, add_users s (-1))
      | Some pool =>
          r ← perf_zcpool_acquire pool;
          let '(_, p, pool) := r in
          let s := with_pool s (Some pool) in
          if p =? 0 then Some (0, add_users s (-1)) else Some (p, s)
      end.

Definition release_side (s : net_side) (buf : Z) : option net_side :=
  if buf =? 0 then Some s
  else
    match g_pool s with
    | None => Some (add_users s (-1))
    | Some pool => pool ← perf_zcpool_release pool buf; Some (add_users (with_pool s (Some pool)) (-1))
    end.

Definition net_zcp_acquire_tx (st : net_state) : option (Z * net_state) :=
  r ← acquire_side (g_tx st); Some (r.1, with_tx st r.2).
Definition net_zcp_release_tx (st : net_state) (buf : Z) : option net_state :=
  s ← release_side (g_tx st) buf; Some (with_tx st s).
Definition net_zcp_acquire_rx (st : net_state) : option (Z * net_state) :=
  r ← acquire_side (g_rx st); Some (r.1, with_rx st r.2).
Definition net_zcp_release_rx (st : net_state) (buf : Z) : option net_state :=
  s ← release_side (g_rx st) buf; Some (with_rx st s).

Definition net_send_message (g_max_payload msg_type flags : Z) (payload : list Z)
    (sched : list io_outcome) : write_result :=
  framing_write_msg g_max_payload
    (protocol_init_header msg_type flags (Z.of_nat (length payload))) payload sched.

Definition net_send_message_zcp (g_max_payload msg_type flags : Z) (payload_buf : list Z)
    (payload_len : Z) (sched : list io_outcome) : write_result :=
  framing_write_zcp g_max_payload (protocol_init_header msg_type flags payload_len) payload_buf sched.

(** [*payload_out] is [None] when the call does not set it. *)
Record recv_result : Type := mk_recv {
  nr_rc : Z;
  nr_errno : option errno;
  nr_header : option po_header_t;
  nr_buf : option Z;
  nr_payload : list Z;
  nr_len : option Z;
  nr_inp : list Z;
  nr_sched : list io_outcome;
  nr_state : net_state
}.

(** Acquire a buffer, read a frame into it with [reader], give the buffer back
    unless the read succeeded: the body of the three receive calls. *)
Definition receive (reader : Z → list Z → list io_outcome → read_result)
    (inp : list Z) (sched : list io_outcome) (st : net_state) : option recv_result :=
  r ← net_zcp_acquire_rx st;
  let '(buf, st) := r in
  if buf =? 0 then Some (mk_recv (-1) (Some ENOMEM) None None [] None inp sched st)
  else
    pool ← g_pool (g_rx st);
    let buf_cap := u32 (perf_zcpool_bufsize pool) in
    let f := reader buf_cap inp sched in
    if rd_rc f =? 0
    then Some (mk_recv 0 None (rd_header f) (Some buf) (rd_payload f) (rd_len f) (rd_inp f) (rd_sched f) st)
    else
      st ← net_zcp_release_rx st buf;
      Some (mk_recv (rd_rc f) (rd_errno f) (rd_header f) None (rd_payload f) (rd_len f)
              (rd_inp f) (rd_sched f) st).

(** [payload_len] is a local of [net_recv_message] and of the blocking call,
    an output of [net_recv_message_zcp]. *)
Definition forget_len (r : recv_result) : recv_result :=
  mk_recv (nr_rc r) (nr_errno r) (nr_header r) (nr_buf r) (nr_payload r) None (nr_inp r) (nr_sched r) (nr_state r).

Definition net_recv_message (max : Z) (peek : option io_outcome) (avail : Z)
    (inp : list Z) (sched : list io_outcome) (st : net_state) : option recv_result :=
  forget_len <$> receive (λ cap, framing_read_msg_into max cap peek avail) inp sched st.

Definition net_recv_message_zcp (max : Z) (peek : option io_outcome) (avail : Z)
    (inp : list Z) (sched : list io_outcome) (st : net_state) : option recv_result :=
  receive (λ cap, framing_read_msg_into max cap peek avail) inp sched st.

Definition net_recv_message_blocking (max : Z) (inp : list Z) (sched : list io_outcome)
    (st : net_state) : option recv_result :=
  forget_len <$> receive (λ cap, framing_read_msg_blocking max cap) inp sched st.

(** ** Specification *)

(** The side is open: its pool is consistent with the buffers [held] by
    callers, each of which is counted as a user. *)
Record side_inv (s : net_side) (held : list Z) : Prop := mk_side_inv {
  side_open : g_shutting s = false;
  side_users : g_users s = Z.of_nat (length held);
  side_pool : match g_pool s with
              | None => held = []
              | Some p => pool_inv p held ∧ buf_count p < 2 ^ 32 - 1
              end
}.

(** ** Lemmas *)

Lemma held_bound p held : pool_inv p held → Z.of_nat (length held) <= buf_count p.
Proof.
  intros [_ _ Hc _ (h & q & _ & _ & Hp)]. apply Permutation_length in Hp. unfold pool_buffers in Hp.
  rewrite length_app, length_buffers in Hp. lia.
Qed.

Lemma same_geometry p p' held :
  pool_inv p held → perf_zcpool_acquire p = Some p' → 
  base p'.2 = base p ∧ buf_size p'.2 = buf_size p ∧ buf_count p'.2 = buf_count p.
Proof.
  intros _. unfold perf_zcpool_acquire. destruct (perf_ringbuf_dequeue (freeq p)) as [[[rc b] q]|]; [|done].
  simpl. case (rc <? 0); intros; simplify_eq; done.
Qed.

Lemma release_geometry p p' b :
  perf_zcpool_release p b = Some p' →
  base p' = base p ∧ buf_size p' = buf_size p ∧ buf_count p' = buf_count p.
Proof.
  unfold perf_zcpool_release. destruct (_ || negb _); [intros; by simplify_eq|].
  destruct (perf_ringbuf_enqueue (freeq p) b) as [[[rc e] q]|]; simpl; [|done]. intros; by simplify_eq.
Qed.

Lemma users_up s (held : list Z) b :
  g_users s = Z.of_nat (length held) → Z.of_nat (length held) < 2 ^ 32 - 1 →
  u32 (g_users s + 1) = Z.of_nat (length (b :: held)).
Proof. intros -> Hb. rewrite u32_small by lia. simpl. lia. Qed.

Lemma users_undo s (held : list Z) :
  g_users s = Z.of_nat (length held) → Z.of_nat (length held) < 2 ^ 32 - 1 →
  u32 (u32 (g_users s + 1) + -1) = Z.of_nat (length held).
Proof. intros -> Hb. rewrite (u32_small (_ + 1)), u32_small by lia. lia. Qed.

(** An acquisition counts a user exactly when it hands out a buffer. *)
Lemma acquire_side_spec s held :
  side_inv s held →
  ∃ b s', acquire_side s = Some (b, s') ∧
    if b =? 0
    then side_inv s' held ∧
         (∀ p, g_pool s = Some p → buf_count p <= Z.of_nat (length held))
    else b ∉ held ∧ side_inv s' (b :: held) ∧
         ∃ p p', g_pool s = Some p ∧ g_pool s' = Some p' ∧ buf_size p' = buf_size p.
Proof.
  intros [Ho Hu Hp]. unfold acquire_side, add_users. rewrite Ho. simpl.
  destruct (g_pool s) as [p|] eqn:Ep; simpl.
  - destruct Hp as [Hp Hc]. pose proof (held_bound _ _ Hp) as Hl. pose proof (acquire_spec p held Hp) as Ha.
    case (Z.ltb_spec (Z.of_nat (length held)) (buf_count p)) as [Hlt|Hge]; simpl in Ha.
    + destruct Ha as (b & p' & E & Hb & Hfresh & Hp' & _). rewrite E. cbn [mbind option_bind].
      destruct (same_geometry _ _ _ Hp E) as (_ & Hsz & Hct). simpl in *.
      rewrite (proj2 (Z.eqb_neq _ _) Hb). eexists _, _. split; [done|]. rewrite (proj2 (Z.eqb_neq _ _) Hb).
      split_and!; [done| |eauto]. constructor; simpl; [done|apply (users_up _ _ b Hu); lia|]. by rewrite Hct.
    + destruct Ha as (p' & E & Hp' & _). rewrite E. cbn [mbind option_bind].
      destruct (same_geometry _ _ _ Hp E) as (_ & _ & Hct). simpl in *.
      eexists _, _. split; [done|]. simpl. split; [|intros ? [= <-]; lia].
      constructor; simpl; [done|apply (users_undo _ _ Hu); lia|]. by rewrite Hct.
  - subst held. eexists _, _. split; [done|]. simpl. split; [|done].
    constructor; simpl; [done|by rewrite Hu|done].
Qed.

Lemma release_side_spec s held b :
  side_inv s (b :: held) → ∃ s', release_side s b = Some s' ∧ side_inv s' held.
Proof.
  intros [Ho Hu Hp]. unfold release_side, add_users. destruct (g_pool s) as [p|] eqn:Ep; [|done].
  destruct Hp as [Hp Hc]. pose proof (held_bound _ _ Hp) as Hl.
  assert (b ∈ pool_buffers p) as Hin by (apply (held_elem _ _ Hp); left).
  case (Z.eqb_spec b 0); intros Hb.
  { subst b. unfold pool_buffers in Hin. apply elem_of_buffers in Hin as (i & ? & ?).
    pose proof (inv_base _ _ Hp). pose proof (inv_size _ _ Hp). nia. }
  destruct (release_held p _ Hp b held) as (p' & E & Hp' & _); [done|]. rewrite E. cbn [mbind option_bind].
  destruct (release_geometry _ _ _ E) as (_ & _ & Hct).
  eexists. split; [done|]. simpl in Hu, Hl. constructor; simpl; [done| |by rewrite Hct].
  rewrite Hu, u32_small by lia. lia.
Qed.

Lemma acquire_rx_spec st held :
  side_inv (g_rx st) held →
  ∃ b s', net_zcp_acquire_rx st = Some (b, with_rx st s') ∧
    if b =? 0
    then side_inv s' held ∧ (∀ p, g_pool (g_rx st) = Some p → buf_count p <= Z.of_nat (length held))
    else b ∉ held ∧ side_inv s' (b :: held) ∧
         ∃ p p', g_pool (g_rx st) = Some p ∧ g_pool s' = Some p' ∧ buf_size p' = buf_size p.
Proof.
  intros Hi. destruct (acquire_side_spec _ _ Hi) as (b & s' & E & H).
  exists b, s'. unfold net_zcp_acquire_rx. by rewrite E.
Qed.

(** A receive call keeps the books balanced whatever its reader does. *)
Definition balanced (st : net_state) (held : list Z) (r : recv_result) : Prop :=
  g_tx (nr_state r) = g_tx st ∧
  if nr_rc r =? 0
  then ∃ b, nr_buf r = Some b ∧ b ∉ held ∧ side_inv (g_rx (nr_state r)) (b :: held)
  else nr_buf r = None ∧ side_inv (g_rx (nr_state r)) held.

Lemma receive_balanced reader inp sched st held :
  side_inv (g_rx st) held →
  ∃ r, receive reader inp sched st = Some r ∧ balanced st held r.
Proof.
  intros Hi. destruct (acquire_rx_spec st held Hi) as (b & s' & E & H). unfold receive. rewrite E.
  cbn [mbind option_bind]. destruct (b =? 0) eqn:Eb.
  { destruct H as [H _]. eexists. split; [done|]. done. }
  destruct H as (Hf & Hs & p & p' & Ep & Ep' & Hsz). simpl. rewrite Ep'. cbn [mbind option_bind].
  destruct (rd_rc (reader (u32 (perf_zcpool_bufsize p')) inp sched) =? 0) eqn:Er.
  - eexists. split; [done|]. split; [done|]. simpl. eauto.
  - destruct (release_side_spec _ _ _ Hs) as (s2 & E2 & Hs2). unfold net_zcp_release_rx. simpl. rewrite E2.
    eexists. split; [done|]. split; [done|]. simpl. rewrite Er. done.
Qed.

(** ** Properties *)

(** Receiving never leaks a buffer: for any stream, any schedule of
    partial reads and failures and any state of the receive pool, each of the
    three receive calls returns; on success the caller holds one buffer more,
    one that nobody held, and is counted as its user; on failure pool and user
    counter are as before.  The transmit side is not touched. *)
Theorem net_receive_balanced (max avail : Z) (peek : option io_outcome) (inp : list Z)
    (sched : list io_outcome) (st : net_state) (held : list Z) :
  side_inv (g_rx st) held →
  (∃ r, net_recv_message max peek avail inp sched st = Some r ∧ balanced st held r) ∧
  (∃ r, net_recv_message_zcp max peek avail inp sched st = Some r ∧ balanced st held r) ∧
  (∃ r, net_recv_message_blocking max inp sched st = Some r ∧ balanced st held r).
Proof.
  intros Hi. unfold net_recv_message, net_recv_message_zcp, net_recv_message_blocking. split_and!.
  - destruct (receive_balanced (λ cap, framing_read_msg_into max cap peek avail) inp sched st held Hi)
      as (r & -> & ?). eexists. split; [done|]. done.
  - by apply receive_balanced.
  - destruct (receive_balanced (λ cap, framing_read_msg_blocking max cap) inp sched st held Hi)
      as (r & -> & ?). eexists. split; [done|]. done.
Qed.

Definition net_ex : net_state :=
  mk_net (mk_side None 0 false) (mk_side (Some pool2) 0 false) 1.

Lemma net_ex_inv : side_inv (g_rx net_ex) [].
Proof.
  constructor; [done|done|]. change (g_pool (g_rx net_ex)) with (Some pool2). split; [|vm_compute; done].
  pose proof (create_spec plain_env 1 21 4096 0 ltac:(lia) ltac:(change page_2mb with 2097152; lia)
    plain_env_ok ltac:(lia) eq_refl ltac:(lia) []) as H.
  assert ((perf_zcpool_create plain_env 2 4096 0 []).1 = Some (None, Some pool2, [Mapped 65536 2097152])) as E
    by (vm_compute; reflexivity).
  change (2 ^ 1) with 2 in H. rewrite E in H. apply H.
Qed.

Lemma net_receive_balanced_witness :
  ∃ r, net_recv_message_blocking 100 [0; 0; 0; 1] [Intr; Xfer 3] net_ex = Some r ∧
       balanced net_ex [] r ∧ nr_errno r = Some EPROTO.
Proof.
  destruct (net_receive_balanced 100 0 None [0; 0; 0; 1] [Intr; Xfer 3] net_ex [] net_ex_inv)
    as (_ & _ & r & E & Hb).
  exists r. split; [exact E|]. split; [exact Hb|].
  assert (nr_errno <$> net_recv_message_blocking 100 [0; 0; 0; 1] [Intr; Xfer 3] net_ex =
    Some (Some EPROTO)) as E2 by (vm_compute; reflexivity).
  rewrite E in E2. simpl in E2. congruence.
Defined.

(** C29. What one process sends the other receives: a message sent with
    [net_send_message] arrives through [net_recv_message_blocking] with its type,
    flags and payload, and what follows it in the stream is left there, however
    the kernel splits or interrupts the transfer, provided a buffer of the
    receive pool is free and large enough; a payload larger than the buffers is
    refused with [EMSGSIZE] and its bytes stay in the stream. *)
Theorem net_send_receive (max ty fl : Z) (payload rest : list Z) (ws rs : list io_outcome)
    (st : net_state) (held : list Z) (p : perf_zcpool) :
  is_byte ty → is_byte fl → 0 <= max <= 64 * 1024 * 1024 →
  Z.of_nat (length payload) <= max → Forall benign ws → Forall benign rs →
  side_inv (g_rx st) held → g_pool (g_rx st) = Some p → Z.of_nat (length held) < buf_count p →
  buf_size p <= page_2mb →
  let w := net_send_message max ty fl payload ws in
  wr_rc w = 0 ∧
  ∃ r, net_recv_message_blocking max (wr_sent w ++ rest) rs st = Some r ∧
    if Z.of_nat (length payload) <=? buf_size p
    then nr_rc r = 0 ∧ nr_payload r = payload ∧ nr_inp r = rest ∧
         nr_header r = Some (mk_header PROTOCOL_VERSION ty fl (Z.of_nat (length payload)))
    else nr_rc r = -1 ∧ nr_errno r = Some EMSGSIZE ∧ nr_inp r = payload ++ rest.
Proof.
  intros Ht Hf Hm Hl Hws Hrs Hi Ep Hfree Hsz. cbv zeta.
  assert (0 < buf_size p) as Hpos.
  { pose proof (side_pool _ _ Hi) as Hp. rewrite Ep in Hp. apply Hp. }
  change page_2mb with 2097152 in Hsz. unfold net_send_message, framing_write_msg.
  rewrite (proj2 (Z.ltb_ge _ _)) by lia. set (len := Z.of_nat (length payload)) in *.
  destruct (send_frame_spec (frame_head (protocol_init_header ty fl len) len) payload ws) as (_ & Hs & Hrc).
  specialize (Hrc Hws). rewrite (Hs Hrc). split; [done|]. fold len.
  destruct (acquire_rx_spec st held Hi) as (b & s' & E & H).
  unfold net_recv_message_blocking, receive. rewrite E. cbn [mbind option_bind].
  destruct (b =? 0). { destruct H as [_ H]. specialize (H _ Ep). lia. }
  destruct H as (_ & Hs' & p1 & p' & Ep1 & Ep' & Hsz'). simplify_eq. cbn [g_rx with_rx]. rewrite Ep'.
  cbn [mbind option_bind]. unfold perf_zcpool_bufsize. rewrite Hsz', u32_small by lia.
  case (Z.leb_spec len (buf_size p)); intros Hfit.
  - destruct (read_frame_spec max (buf_size p) ty fl payload rest rs Hrs Ht Hf Hl Hfit) as [s Er]; [lia|].
    unfold frame in Er. fold len in Er. unfold framing_read_msg_blocking. rewrite Er. simpl. eauto 10.
  - destruct (read_frame_refused max (buf_size p) ty fl payload rest rs Hrs Ht Hf Hl Hfit) as [s Er]; [lia|lia|].
    unfold frame in Er. fold len in Er. unfold framing_read_msg_blocking. rewrite Er. simpl.
    destruct (release_side_spec _ _ _ Hs') as (s2 & E2 & Hs2). unfold net_zcp_release_rx. simpl. rewrite E2.
    simpl. eauto 10.
Qed.

Lemma net_send_receive_witness :
  ∃ r, net_recv_message_blocking 100 (wr_sent (net_send_message 100 1 0 [7; 8] [Xfer 3; Intr]) ++ [9])
         [Xfer 5; Intr] net_ex = Some r ∧ nr_payload r = [7; 8].
Proof.
  destruct (net_send_receive 100 1 0 [7; 8] [9] [Xfer 3; Intr] [Xfer 5; Intr] net_ex [] pool2)
    as (_ & r & E & H);
    try (unfold is_byte; simpl; lia); try (repeat constructor; fail); try apply net_ex_inv; try (vm_compute; done).
  exists r. split; [exact E|]. apply H.
Defined.
