(* ===== verification/NetLifecycle.v ===== *)
(** * Lifecycle of the shared pools under interleaving
    ([app/libs/ring4/postoffice/net/net.c])

    Any number of threads initialise, use and shut down the process-wide
    pools.  Every atomic access, every access of the pool pointers and every
    lock operation is a step of its own and steps of different threads
    interleave freely (the atomics are sequentially consistent).  A pool is an
    identity: [Net] and [Zcpool] say what its operations do; here the question
    is whether a thread can still use a pool after it was destroyed.  A thread
    that holds several buffers is several threads that hold one. *)

From Stdlib Require Import ZArith Lia.
From stdpp Require Import base list numbers functions.
From S2P Require Import Prelude.

Local Open Scope Z_scope.

Inductive side : Type := TX | RX.

Global Instance side_eq_dec : EqDecision side.
Proof. solve_decision. Defined.

Record net_globals : Type := mk_globals {
  pool_ptr : side → option nat;   (* g_tx_pool, g_rx_pool *)
  users : side → Z;               (* g_tx_users, g_rx_users *)
  shutting : side → bool;         (* g_tx_shutting, g_rx_shutting *)
  create_lock : option nat;       (* owner of g_zcpool_create_lock *)
  refcount : Z;                   (* g_zcpool_refcount *)
  destroyed : list nat;           (* pools already freed *)
  next_pool : nat                 (* identity of the next pool created *)
}.

(** Where a thread is: in [net_zcp_acquire_*], holding a buffer, in
    [net_zcp_release_*], in the free count that [net_recv_message_blocking]
    logs after a failed acquisition, in [net_init_zerocopy] or in
    [net_shutdown_zerocopy]. *)
Inductive pc : Type :=
| Idle
| AcqLoad (s : side) | AcqInc (s : side) | AcqRecheck (s : side) | AcqCheck (s : side)
| AcqCall (s : side) | AcqUse (s : side) (pool : nat) | AcqDec (s : side)
| Hold (s : side) (pool : nat)
| RelCheck (s : side) (pool : nat) | RelCall (s : side) (pool : nat)
| RelUse (s : side) (pool : nat) | RelDec (s : side)
| FreeRead | FreeUse (pool : nat)
| IniLock | IniRef | IniCreate (s : side) | IniInc | IniUnlock
| ShLock | ShRef | ShSet (s : side) | ShWait (s : side)
| ShFree (s : side) | ShNull (s : side) (pool : nat) | ShClr (s : side) | ShUnlock
| Fault.

Definition set_users (g : net_globals) (s : side) (z : Z) : net_globals :=
  mk_globals (pool_ptr g) (<[s := u32 z]> (users g)) (shutting g) (create_lock g) (refcount g)
    (destroyed g) (next_pool g).
Definition set_shutting (g : net_globals) (s : side) (b : bool) : net_globals :=
  mk_globals (pool_ptr g) (users g) (<[s := b]> (shutting g)) (create_lock g) (refcount g)
    (destroyed g) (next_pool g).
Definition set_lock (g : net_globals) (o : option nat) : net_globals :=
  mk_globals (pool_ptr g) (users g) (shutting g) o (refcount g) (destroyed g) (next_pool g).
Definition set_refcount (g : net_globals) (z : Z) : net_globals :=
  mk_globals (pool_ptr g) (users g) (shutting g) (create_lock g) z (destroyed g) (next_pool g).
Definition create_pool (g : net_globals) (s : side) : net_globals :=
  mk_globals (<[s := Some (next_pool g)]> (pool_ptr g)) (users g) (shutting g) (create_lock g)
    (refcount g) (destroyed g) (S (next_pool g)).
Definition free_pool (g : net_globals) (p : nat) : net_globals :=
  mk_globals (pool_ptr g) (users g) (shutting g) (create_lock g) (refcount g)
    (p :: destroyed g) (next_pool g).
Definition null_pool (g : net_globals) (s : side) : net_globals :=
  mk_globals (<[s := None]> (pool_ptr g)) (users g) (shutting g) (create_lock g) (refcount g)
    (destroyed g) (next_pool g).

(** After a failed acquisition; [b]: the caller is the blocking receive. *)
Definition after_fail (s : side) (b : bool) : pc :=
  match s with TX => Idle | RX => if b then FreeRead else Idle end.

(** The next step of thread [t]; [b] resolves what the globals do not
    determine (is a buffer free, does a creation succeed, who is calling).
    [None]: the thread waits for the lock, or is at rest. *)
Definition net_step (g : net_globals) (t : nat) (p : pc) (b : bool) : option (net_globals * pc) :=
  match p with
  | Idle | Fault => None
  | AcqLoad s => Some (g, if shutting g s then after_fail s b else AcqInc s)
  | AcqInc s => Some (set_users g s (users g s + 1), AcqRecheck s)
  | AcqRecheck s => Some (g, if shutting g s then AcqDec s else AcqCheck s)
  | AcqCheck s => Some (g, match pool_ptr g s with None => AcqDec s | Some _ => AcqCall s end)
  | AcqCall s => Some (g, match pool_ptr g s with None => Fault | Some q => AcqUse s q end)
  | AcqUse s q => Some (g, if b then Hold s q else AcqDec s)
  | AcqDec s => Some (set_users g s (users g s - 1), after_fail s b)
  | Hold s q => Some (g, RelCheck s q)
  | RelCheck s q => Some (g, match pool_ptr g s with None => RelDec s | Some _ => RelCall s q end)
  | RelCall s _ => Some (g, match pool_ptr g s with None => Fault | Some q => RelUse s q end)
  | RelUse s _ => Some (g, RelDec s)
  | RelDec s => Some (set_users g s (users g s - 1), Idle)
  | FreeRead => Some (g, match pool_ptr g RX with None => Idle | Some q => FreeUse q end)
  | FreeUse _ => Some (g, Idle)
  | IniLock => if create_lock g is Some _ then None else Some (set_lock g (Some t), IniRef)
  | IniRef =>
      if 0 <? refcount g then Some (set_refcount g (refcount g + 1), IniUnlock)
      else Some (g, IniCreate TX)
  | IniCreate s =>
      let next := match s with TX => IniCreate RX | RX => IniInc end in
      match pool_ptr g s with
      | Some _ => Some (g, next)
      | None => if b then Some (create_pool g s, next) else Some (g, IniUnlock)
      end
  | IniInc => Some (set_refcount g (refcount g + 1), IniUnlock)
  | IniUnlock => Some (set_lock g None, Idle)
  | ShLock => if create_lock g is Some _ then None else Some (set_lock g (Some t), ShRef)
  | ShRef =>
      if 0 <? refcount g then
        let g := set_refcount g (refcount g - 1) in
        Some (g, if 0 <? refcount g then ShUnlock else ShSet TX)
      else Some (g, ShSet TX)
  | ShSet s => Some (set_shutting g s true, match s with TX => ShSet RX | RX => ShWait TX end)
  | ShWait s =>
      Some (g, if negb (users g s =? 0) then ShWait TX
               else match s with TX => ShWait RX | RX => ShFree TX end)
  | ShFree s =>
      match pool_ptr g s with
      | Some q => Some (free_pool g q, ShNull s q)
      | None => Some (g, match s with TX => ShFree RX | RX => ShClr TX end)
      end
  | ShNull s _ => Some (null_pool g s, match s with TX => ShFree RX | RX => ShClr TX end)
  | ShClr s => Some (set_shutting g s false, match s with TX => ShClr RX | RX => ShUnlock end)
  | ShUnlock => Some (set_lock g None, Idle)
  end.

(** The calls a thread at rest can make. *)
Definition entry (p : pc) : Prop :=
  match p with AcqLoad _ | IniLock | ShLock => True | _ => False end.

Inductive world_step : net_globals * list pc → net_globals * list pc → Prop :=
| world_call g ths t p :
    ths !! t = Some Idle → entry p → world_step (g, ths) (g, <[t := p]> ths)
| world_run g ths t p b g' p' :
    ths !! t = Some p → net_step g t p b = Some (g', p') →
    world_step (g, ths) (g', <[t := p']> ths).

Definition initial_globals : net_globals :=
  mk_globals (λ _, None) (λ _, 0) (λ _, false) None 0 [] 0.
Definition initial_world (n : nat) : net_globals * list pc := (initial_globals, replicate n Idle).

(** ** Specification *)

(** A thread that is using pool [q] through a counted acquisition, or holds
    one of its buffers. *)
Definition uses (p : pc) (q : nat) : Prop :=
  match p with AcqUse _ q' | Hold _ q' | RelCheck _ q' | RelCall _ q' | RelUse _ q' => q = q' | _ => False end.

(** ** Invariant *)

Definition counted (s : side) (p : pc) : bool :=
  match p with
  | AcqRecheck s' | AcqCheck s' | AcqCall s' | AcqUse s' _ | AcqDec s' | Hold s' _
  | RelCheck s' _ | RelCall s' _ | RelUse s' _ | RelDec s' => bool_decide (s = s')
  | _ => false
  end.

Definition committed (s : side) (p : pc) : bool :=
  match p with
  | AcqCheck s' | AcqCall s' | AcqUse s' _ | Hold s' _
  | RelCheck s' _ | RelCall s' _ | RelUse s' _ => bool_decide (s = s')
  | _ => false
  end.

Definition in_lock (p : pc) : bool :=
  match p with
  | IniRef | IniCreate _ | IniInc | IniUnlock
  | ShRef | ShSet _ | ShWait _ | ShFree _ | ShNull _ _ | ShClr _ | ShUnlock => true
  | _ => false
  end.

(** The shutdown saw the user count of side [s] at zero. *)
Definition drained (s : side) (p : pc) : bool :=
  match p with
  | ShWait RX => bool_decide (s = TX)
  | ShFree _ | ShNull _ _ => true
  | _ => false
  end.

Definition pc_ok (g : net_globals) (p : pc) : Prop :=
  match p with
  | AcqCall s => pool_ptr g s ≠ None
  | AcqUse s q | Hold s q | RelCheck s q | RelCall s q | RelUse s q => pool_ptr g s = Some q
  | ShSet RX => shutting g TX = true
  | ShWait _ | ShFree _ => ∀ s, shutting g s = true
  | ShNull s q => (∀ s, shutting g s = true) ∧ pool_ptr g s = Some q
  | Fault => False
  | _ => True
  end.

Record world_inv (g : net_globals) (ths : list pc) : Prop := mk_world_inv {
  wi_size : Z.of_nat (length ths) < 2 ^ 32;
  wi_users : ∀ s, users g s = count_if (counted s) ths;
  wi_lock : ∀ t p, ths !! t = Some p → in_lock p = true → create_lock g = Some t;
  wi_pc : ∀ t p, ths !! t = Some p → pc_ok g p;
  wi_drained : ∀ t t' p p' s, ths !! t = Some p → ths !! t' = Some p' →
    drained s p = true → committed s p' = true → False;
  wi_live : ∀ s q, pool_ptr g s = Some q → (q < next_pool g)%nat ∧
    (q ∈ destroyed g → ∃ t, ths !! t = Some (ShNull s q));
  wi_fresh : ∀ q, q ∈ destroyed g → (q < next_pool g)%nat;
  wi_distinct : ∀ s s' q, pool_ptr g s = Some q → pool_ptr g s' = Some q → s = s'
}.

(** ** Lemmas *)

Lemma committed_counted s p : committed s p = true → counted s p = true.
Proof. destruct p; done. Qed.

Lemma drained_in_lock s p : drained s p = true → in_lock p = true.
Proof. by destruct p. Qed.

Lemma drained_shutting g s p : pc_ok g p → drained s p = true → shutting g s = true.
Proof. destruct p; simpl; try done; try (by intros []); try (by intros [] ?); auto. Qed.

Lemma lookup_insert_cases {A} (l : list A) t a t' b :
  <[t := a]> l !! t' = Some b → (t' = t ∧ b = a) ∨ (t' ≠ t ∧ l !! t' = Some b).
Proof.
  intros H. destruct (decide (t' = t)) as [->|Hne].
  - left. pose proof (lookup_lt_Some _ _ _ H) as Hl. rewrite length_insert in Hl.
    rewrite list_lookup_insert_eq in H by done. by simplify_eq.
  - right. by rewrite list_lookup_insert_ne in H.
Qed.

Lemma fn_insert_cases {A} (f : side → A) s0 s v w :
  <[s0 := v]> f s = w → (s0 = s ∧ v = w) ∨ (s0 ≠ s ∧ f s = w).
Proof.
  destruct (decide (s0 = s)) as [<-|Hne]; [rewrite fn_lookup_insert|rewrite fn_lookup_insert_ne by done]; auto.
Qed.

(** Case analysis on the step of a thread. *)
Ltac step_cases E :=
  repeat match type of E with
    | context [match ?x with _ => _ end] =>
        lazymatch type of x with
        | side => destruct x
        | _ => let H := fresh "C" in destruct x eqn:H
        end
    end; simplify_eq/=.

Section step.
Context (g : net_globals) (ths : list pc) (Hinv : world_inv g ths).
Context (t : nat) (p : pc) (b : bool) (g' : net_globals) (p' : pc).
Context (Hp : ths !! t = Some p) (E : net_step g t p b = Some (g', p')).

Lemma outside_frame : in_lock p = false →
  shutting g' = shutting g ∧ pool_ptr g' = pool_ptr g ∧ destroyed g' = destroyed g ∧ next_pool g' = next_pool g.
Proof using E. clear Hp Hinv. destruct p; simpl in *; try done; intros _; step_cases E; done. Qed.

Lemma pool_change s : pool_ptr g' s = pool_ptr g s ∨ pool_ptr g s = None ∨ drained s p = true.
Proof using E.
  clear Hp Hinv. destruct p; simpl in E; step_cases E; auto;
    match goal with |- context [<[?s0 := _]> _ ?s1] =>
      destruct (decide (s0 = s1)) as [<-|];
        [rewrite fn_lookup_insert|rewrite fn_lookup_insert_ne by done]; auto end.
Qed.

Lemma other_not_in_lock t' p2 : t' ≠ t → ths !! t' = Some p2 → in_lock p2 = true → in_lock p = false.
Proof using Hinv Hp.
  intros Hne H2 Hl. destruct (in_lock p) eqn:Hl'; [|done].
  pose proof (wi_lock _ _ Hinv t p Hp Hl'). pose proof (wi_lock _ _ Hinv t' p2 H2 Hl). congruence.
Qed.

Lemma other_pc_ok t' p2 : t' ≠ t → ths !! t' = Some p2 → pc_ok g' p2.
Proof using Hinv Hp E.
  intros Hne H2. pose proof (wi_pc _ _ Hinv t' p2 H2) as Hok.
  destruct (in_lock p2) eqn:Hl.
  { destruct (outside_frame (other_not_in_lock t' p2 Hne H2 Hl)) as (Es & Ep & _).
    destruct p2; simpl in *; rewrite ?Es, ?Ep; try done. }
  assert (∀ s, committed s p2 = true → pool_ptr g s ≠ None → pool_ptr g' s = pool_ptr g s) as Hpool.
  { intros s Hc Hn. destruct (pool_change s) as [?|[?|Hd]]; [done|done|].
    destruct (wi_drained _ _ Hinv t t' p p2 s Hp H2 Hd Hc). }
  destruct p2 as [| | | | |s|s q| |s q|s q|s q|s q| | | | | | | | | | | | | | | | |]; simpl in *; try done;
    rewrite (Hpool s) by (rewrite ?bool_decide_eq_true; congruence || done); done.
Qed.

Lemma self_pc_ok : pc_ok g' p'.
Proof using Hinv Hp E.
  pose proof (wi_pc _ _ Hinv t p Hp) as Hok.
  destruct p; simpl in *; step_cases E; try done; try congruence.
  all: try (unfold after_fail; simpl; repeat case_match; done).
  - intros []; [rewrite fn_lookup_insert_ne by done; done|apply fn_lookup_insert].
  - by destruct Hok.
Qed.

Lemma step_users s : users g' s = count_if (counted s) (<[t := p']> ths).
Proof using Hinv Hp E.
  pose proof (wi_users _ _ Hinv) as Hu. pose proof (wi_size _ _ Hinv) as Hs.
  rewrite (count_insert _ _ _ _ p' Hp). pose proof (wi_pc _ _ Hinv t p Hp) as Hok.
  pose proof (count_room (counted s) ths t p Hp) as Hroom.
  pose proof (count_elem (counted s) ths t p Hp) as Hel.
  pose proof (count_bounds (counted s) ths) as Hb.
  destruct p; simpl in *; step_cases E; try congruence; rewrite ?Hu; try lia;
    repeat match goal with |- context [after_fail ?a ?b] => destruct a, b; simpl end;
    repeat match goal with |- context [<[?s0 := _]> _ ?s1] =>
      destruct (decide (s0 = s1)) as [<-|];
        [rewrite fn_lookup_insert|rewrite fn_lookup_insert_ne by done] end; rewrite ?Hu;
    repeat (case_bool_decide; try done); try lia; try (rewrite u32_small; lia).
Qed.

Lemma step_lock t' p2 :
  <[t := p']> ths !! t' = Some p2 → in_lock p2 = true → create_lock g' = Some t'.
Proof using Hinv Hp E.
  intros H Hl. apply lookup_insert_cases in H as [[-> ->]|[Hne H]].
  - pose proof (wi_lock _ _ Hinv t p Hp) as Hlk.
    destruct p; simpl in *; step_cases E; auto;
      match goal with H : in_lock (after_fail ?s ?b) = true |- _ => by destruct s, b end.
  - pose proof (wi_lock _ _ Hinv t' p2 H Hl) as Hlk.
    pose proof (other_not_in_lock t' p2 Hne H Hl) as Hout.
    destruct p; simpl in *; step_cases E; done.
Qed.

(** Entering the drained phase needs a zero count; committing needs the
    shutting flag down. *)
Lemma step_enters_drained s : drained s p' = true → drained s p = true ∨ users g s = 0.
Proof using E.
  clear Hp Hinv. destruct p; simpl in E; step_cases E; auto; intros Hd;
    try (by destruct s; simpl in *; auto);
    try (by unfold after_fail in Hd; repeat case_match; simplify_eq/=).
  all: match goal with H : negb (_ =? 0) = false |- _ => apply negb_false_iff, Z.eqb_eq in H end.
  all: destruct s; simpl in *; auto.
Qed.

Lemma step_commits s : committed s p' = true → committed s p = true ∨ shutting g s = false.
Proof using E.
  clear Hp Hinv. destruct p; simpl in E; step_cases E; auto; intros Hd;
    try (by unfold after_fail in Hd; repeat case_match; simplify_eq/=).
  apply bool_decide_eq_true in Hd as ->. auto.
Qed.

Lemma step_drained t1 t2 p1 p2 s :
  <[t := p']> ths !! t1 = Some p1 → <[t := p']> ths !! t2 = Some p2 →
  drained s p1 = true → committed s p2 = true → False.
Proof using Hinv Hp E.
  intros H1 H2 Hd Hc.
  apply lookup_insert_cases in H1 as [[-> ->]|[Hne1 H1]];
    apply lookup_insert_cases in H2 as [[-> ->]|[Hne2 H2]].
  - by destruct p'.
  - destruct (step_enters_drained s Hd) as [Hd'|H0]; [by eapply (wi_drained _ _ Hinv t t2)|].
    pose proof (count_elem _ _ _ _ H2 (committed_counted _ _ Hc)). rewrite (wi_users _ _ Hinv) in H0. lia.
  - destruct (step_commits s Hc) as [Hc'|Hs]; [by eapply (wi_drained _ _ Hinv t1 t)|].
    pose proof (drained_shutting _ _ _ (wi_pc _ _ Hinv _ _ H1) Hd). congruence.
  - by eapply (wi_drained _ _ Hinv t1 t2).
Qed.

(** Under the lock, only a pool about to be nulled is destroyed but linked. *)
Lemma null_holder s q :
  in_lock p = true → pool_ptr g s = Some q → q ∈ destroyed g → p = ShNull s q.
Proof using Hinv Hp.
  intros Hl Hs Hq. destruct (wi_live _ _ Hinv s q Hs) as [_ H]. destruct (H Hq) as [t0 H0].
  pose proof (wi_lock _ _ Hinv t p Hp Hl). pose proof (wi_lock _ _ Hinv t0 _ H0 eq_refl). congruence.
Qed.

Lemma step_live s q :
  pool_ptr g' s = Some q → (q < next_pool g')%nat ∧
    (q ∈ destroyed g' → ∃ t0, <[t := p']> ths !! t0 = Some (ShNull s q)).
Proof using Hinv Hp E.
  intros Hs. pose proof (lookup_lt_Some _ _ _ Hp) as Hlt. destruct (in_lock p) eqn:Hl.
  - pose proof (wi_live _ _ Hinv s q) as Hlive. pose proof (null_holder s q Hl) as Hnull.
    pose proof (wi_fresh _ _ Hinv q) as Hfresh. pose proof (wi_distinct _ _ Hinv s) as Hd.
    destruct p; simpl in *; try done; step_cases E;
      try (split; [by apply Hlive|intros Hq; by specialize (Hnull Hs Hq)]).
    3: { split; [by apply Hlive|]. intros [->|Hq]%elem_of_cons; [|by specialize (Hnull Hs Hq)].
         exists t. rewrite list_lookup_insert_eq by done. by rewrite (Hd _ _ Hs C). }
    all: apply fn_insert_cases in Hs as [[<- ?]|[? Hs]]; simplify_eq.
    all: first [split; [lia|intros Hq; specialize (Hfresh Hq); lia]
               |split; [destruct (Hlive Hs); lia|intros Hq; specialize (Hnull Hs Hq); congruence]].
  - destruct (outside_frame Hl) as (_ & Ep & Ed & En). rewrite Ep in Hs. rewrite Ed, En.
    destruct (wi_live _ _ Hinv s q Hs) as [H1 H2]. split; [done|]. intros Hq.
    destruct (H2 Hq) as [t0 H0]. exists t0. rewrite list_lookup_insert_ne; [done|]. intros ->. by simplify_eq.
Qed.

Lemma step_fresh q : q ∈ destroyed g' → (q < next_pool g')%nat.
Proof using Hinv Hp E.
  pose proof (wi_fresh _ _ Hinv q) as Hf. pose proof (wi_live _ _ Hinv) as Hl.
  destruct p; simpl in *; step_cases E; auto; try (intros Hq; specialize (Hf Hq); lia).
  intros [->|Hq]%elem_of_cons; [by apply (Hl _ _ C)|auto].
Qed.

Lemma step_distinct s s' q : pool_ptr g' s = Some q → pool_ptr g' s' = Some q → s = s'.
Proof using Hinv Hp E.
  pose proof (wi_distinct _ _ Hinv s s' q) as Hd. pose proof (wi_live _ _ Hinv) as Hl.
  destruct p; simpl in *; step_cases E; auto; intros H1 H2;
    apply fn_insert_cases in H1 as [[? H1]|[? H1]]; apply fn_insert_cases in H2 as [[? H2]|[? H2]];
    simplify_eq; auto;
    match goal with H : pool_ptr g ?x = Some (next_pool g) |- _ => destruct (Hl x _ H); lia end.
Qed.

Lemma step_inv : world_inv g' (<[t := p']> ths).
Proof using Hinv Hp E.
  constructor.
  - rewrite length_insert. apply Hinv.
  - apply step_users.
  - apply step_lock.
  - intros t' p2 H. apply lookup_insert_cases in H as [[-> ->]|[Hne H]];
      [apply self_pc_ok|by apply (other_pc_ok t')].
  - apply step_drained.
  - apply step_live.
  - apply step_fresh.
  - apply step_distinct.
Qed.
End step.

(** Starting a call changes no global and nothing the invariant looks at. *)
Lemma call_inv g ths t p :
  world_inv g ths → ths !! t = Some Idle → entry p → world_inv g (<[t := p]> ths).
Proof.
  intros Hi Ht He.
  assert (∀ t' p2, <[t := p]> ths !! t' = Some p2 →
    ths !! t' = Some p2 ∨ in_lock p2 = false ∧ pc_ok g p2 ∧ ∀ s, committed s p2 = false ∧ drained s p2 = false) as Hc.
  { intros t' p2 H. apply lookup_insert_cases in H as [[-> ->]|[Hne H]]; [right|by left]. by destruct p. }
  constructor.
  - rewrite length_insert. apply Hi.
  - intros s. rewrite (count_insert _ _ _ _ _ Ht), (wi_users _ _ Hi). destruct p; simpl in *; lia || done.
  - intros t' p2 H Hl. destruct (Hc _ _ H) as [?|[? _]]; [by eapply (wi_lock _ _ Hi)|congruence].
  - intros t' p2 H. destruct (Hc _ _ H) as [?|(_ & ? & _)]; [by eapply (wi_pc _ _ Hi)|done].
  - intros t1 t2 p1 p2 s H1 H2 Hd Hm. destruct (Hc _ _ H1) as [?|(_ & _ & Hn)]; [|by destruct (Hn s); congruence].
    destruct (Hc _ _ H2) as [?|(_ & _ & Hn)]; [by eapply (wi_drained _ _ Hi t1 t2)|by destruct (Hn s); congruence].
  - intros s q Hs. destruct (wi_live _ _ Hi s q Hs) as [H1 H2]. split; [done|]. intros Hq.
    destruct (H2 Hq) as [t0 H0]. exists t0. rewrite list_lookup_insert_ne; [done|]. intros ->. by simplify_eq.
  - apply Hi.
  - apply Hi.
Qed.

Lemma initial_inv n : Z.of_nat n < 2 ^ 32 → world_inv initial_globals (replicate n Idle).
Proof.
  intros Hn. constructor; simpl; try done.
  - by rewrite length_replicate.
  - intros s. induction n as [|n IH]; [done|]. simpl. rewrite <- IH by lia. done.
  - intros t p [-> _]%lookup_replicate. done.
  - intros t p [-> _]%lookup_replicate. done.
  - intros t t' p p' s [-> _]%lookup_replicate. done.
  - intros q Hq. by apply elem_of_nil in Hq.
Qed.

Lemma reachable_inv n w :
  Z.of_nat n < 2 ^ 32 → star world_step (initial_world n) w → world_inv w.1 w.2.
Proof.
  intros Hn Hr. eapply (star_invariant world_step (λ w, world_inv w.1 w.2)); [|exact Hr|by apply initial_inv].
  intros w1 w2 [g ths t p Ht He|g ths t p b g' p' Ht E] Hi; simpl in *;
    [by apply call_inv|by eapply step_inv].
Qed.

(** ** Properties *)

(** C10. No use after shutdown: in every interleaving of initialisations,
    acquisitions, releases and shutdowns by fewer than [2 ^ 32] threads, a pool
    that a thread works on through a counted acquisition, or of which it holds
    a buffer, is the current pool of its side and has not been destroyed; and
    no thread passes on a pool pointer that has become [NULL]. *)
Theorem net_no_use_after_destroy (n : nat) (g : net_globals) (ths : list pc) :
  Z.of_nat n < 2 ^ 32 → star world_step (initial_world n) (g, ths) →
  (∀ t p q, ths !! t = Some p → uses p q →
     q ∉ destroyed g ∧ ∃ s, pool_ptr g s = Some q ∧ 0 < users g s) ∧
  (∀ t, ths !! t ≠ Some Fault).
Proof.
  intros Hn Hr. pose proof (reachable_inv _ _ Hn Hr) as Hi. simpl in Hi. split.
  - intros t p q Ht Hu. assert (∃ s, pool_ptr g s = Some q ∧ committed s p = true) as (s & Hs & Hc).
    { pose proof (wi_pc _ _ Hi t p Ht) as Hok. destruct p as [| | | | | |s ?| |s ?|s ?|s ?|s ?| | | | | | | | | | | | | | | | |];
        try done; simpl in *; subst q; exists s; by rewrite bool_decide_eq_true. }
    split; [|exists s; split; [done|]].
    + intros Hq. destruct (wi_live _ _ Hi s q Hs) as [_ H]. destruct (H Hq) as [t0 H0].
      by eapply (wi_drained _ _ Hi t0 t).
    + rewrite (wi_users _ _ Hi). pose proof (count_elem _ _ _ _ Ht (committed_counted _ _ Hc)). lia.
  - intros t Ht. by destruct (wi_pc _ _ Hi t Fault Ht).
Qed.

(** Runs of a given schedule: thread [t] starts a call or makes a step. *)
Inductive act : Type := Call (p : pc) | Run (b : bool).

Definition entryb (p : pc) : bool :=
  match p with AcqLoad _ | IniLock | ShLock => true | _ => false end.

Definition run_act (w : net_globals * list pc) (ta : nat * act) : option (net_globals * list pc) :=
  let '(g, ths) := w in
  let '(t, a) := ta in
  p ← ths !! t;
  match a with
  | Call e => if entryb e then match p with Idle => Some (g, <[t := e]> ths) | _ => None end else None
  | Run b => r ← net_step g t p b; Some (r.1, <[t := r.2]> ths)
  end.

Fixpoint run_schedule (w : net_globals * list pc) (l : list (nat * act)) : option (net_globals * list pc) :=
  match l with [] => Some w | a :: l => w ← run_act w a; run_schedule w l end.

Lemma run_schedule_star l : ∀ w w', run_schedule w l = Some w' → star world_step w w'.
Proof.
  induction l as [|[t a] l IH]; intros [g ths] w' H; simpl in H; [simplify_eq; apply star_refl|].
  destruct (ths !! t) as [p|] eqn:Ht; [|done]. simpl in H. destruct a as [e|b].
  - destruct (entryb e) eqn:He; [|done]. destruct p; try done. simpl in H.
    eapply star_step; [|by apply IH]. apply world_call; [done|by destruct e].
  - destruct (net_step g t p b) as [[g' p']|] eqn:E; [|done]. simpl in H.
    eapply star_step; [|by apply IH]. by eapply world_run.
Qed.

Definition steps (t : nat) (p : pc) (bs : list bool) : list (nat * act) :=
  (t, Call p) :: ((λ b, (t, Run b)) <$> bs).

(** Thread 0 initialises; thread 1 acquires a receive buffer; thread 0 starts
    the shutdown and waits. *)
Definition waiting_run : list (nat * act) :=
  steps 0 IniLock [true; true; true; true; true; true] ++
  steps 1 (AcqLoad RX) [true; true; true; true; true; true] ++
  steps 0 ShLock [true; true; true; true; true; true].

Lemma net_no_use_after_destroy_witness :
  ∃ g ths, run_schedule (initial_world 2) waiting_run = Some (g, ths) ∧
    ths = [ShWait TX; Hold RX 1] ∧ (1%nat ∉ destroyed g).
Proof.
  eexists _, _. split; [vm_compute; reflexivity|]. split; [reflexivity|].
  refine (proj1 (proj1 (net_no_use_after_destroy 2 _ _ _ _) 1%nat (Hold RX 1) 1%nat _ _));
    [lia|apply (run_schedule_star waiting_run); vm_compute; reflexivity|reflexivity|reflexivity].
Defined.

(** The free count logged after a failed acquisition is not counted:
    [net_recv_message_blocking] reads the pool pointer without being a user,
    so a shutdown can destroy the pool between the read and the call of
    [perf_zcpool_freecount]. *)
Theorem net_freecount_use_after_destroy :
  ∃ g ths, star world_step (initial_world 2) (g, ths) ∧
    ths !! 1%nat = Some (FreeUse 1) ∧ 1%nat ∈ destroyed g.
Proof.
  eexists _, _. split_and!.
  - apply (run_schedule_star (steps 0 IniLock [true; true; true; true; true; true] ++
      steps 1 (AcqLoad RX) [true; true; true; true; true; false; true; true] ++
      steps 0 ShLock (replicate 10 true))). vm_compute. reflexivity.
  - reflexivity.
  - vm_compute. left.
Qed.
