(* ===== verification/Batcher.v ===== *)
(** * Batcher ([app/libs/ring2/postoffice/perf/batcher.c])

    A ring buffer with an event counter that wakes the consumer, and the flush
    that gathers queued frames into one [writev].  Frames are addresses in a
    byte memory; the first four bytes of a frame are its length.  The event
    counter is the semaphore of an [eventfd], whose read blocks at zero and may
    fail, and whose write may fail too.  [perf_batcher_enqueue] and
    [perf_batcher_next] are whole calls; [bt_step] is the system of threads
    inside these calls ([calls_are_runs]).  Metrics are not part of the state. *)

From Stdlib Require Import ZArith Lia.
From stdpp Require Import base list numbers functions.
From S2P Require Import Prelude Ringbuf Protocol.

Local Open Scope Z_scope.

Definition memory : Type := Z → Z.

Record perf_batcher : Type := mk_batcher {
  bt_rb : perf_ringbuf Z;
  efd : Z;            (* counter of the event descriptor *)
  batch_size : Z
}.

Definition IOV_MAX : nat := 1024.

(** [eventfd_ok]: the descriptor could be created; its counter starts at 0. *)
Definition perf_batcher_create (rb : perf_ringbuf Z) (batch_size : Z) (eventfd_ok : bool) :
    alloc (option errno * option perf_batcher) :=
  if batch_size =? 0 then mret (Some EINVAL, None)
  else
    ok ← malloc;
    if negb ok then mret (None, None)
    else if negb eventfd_ok then mret (None, None)
    else mret (None, Some (mk_batcher rb 0 batch_size)).

(** [signal_ok]: the write to the event descriptor succeeds, after any number
    of interruptions. *)
Definition perf_batcher_enqueue (b : perf_batcher) (item : Z) (signal_ok : bool) :
    option (Z * option errno * perf_batcher) :=
  r ← perf_ringbuf_enqueue (bt_rb b) item;
  let '(rc, _, rb) := r in
  if rc <? 0 then Some (-1, Some EAGAIN, mk_batcher rb (efd b) (batch_size b))
  else if signal_ok then Some (0, None, mk_batcher rb (efd b + 1) (batch_size b))
  else Some (0, Some EIO, mk_batcher rb (efd b) (batch_size b)).

(** [uint32_t] and byte ranges in memory *)
Definition bytes_at (mem : memory) (addr : Z) (n : nat) : list Z :=
  (λ i, mem (addr + Z.of_nat i)) <$> seq 0 n.
Definition read_u32 (mem : memory) (addr : Z) : Z := of_le (bytes_at mem addr 4).

Fixpoint store_bytes (mem : memory) (addr : Z) (bs : list Z) : memory :=
  match bs with [] => mem | x :: bs => store_bytes (<[addr := x]> mem) (addr + 1) bs end.

(** [for (; i < count; i++)]: frames in front of the queue, from index [i]. *)
Fixpoint gather (rb : perf_ringbuf Z) (i : Z) (n : nat) : option (list Z) :=
  match n with
  | O => Some []
  | S n =>
      r ← perf_ringbuf_peek_at rb i;
      match r with
      | (_, Some frame) => fs ← gather rb (i + 1) n; Some (frame :: fs)
      | (_, None) => Some []
      end
  end.

Definition frame_bytes (mem : memory) (addr : Z) : list Z :=
  bytes_at mem addr (Z.to_nat (read_u32 mem addr)).

(** [for (j = 0; j < i; j++)] over the gathered frames after [consumed] bytes
    went out. *)
Fixpoint drop_written (mem : memory) (rb : perf_ringbuf Z) (consumed : Z) (iov : list Z) :
    option (memory * perf_ringbuf Z) :=
  match iov with
  | [] => Some (mem, rb)
  | base :: iov =>
      let len := read_u32 mem base in
      if len <=? consumed then
        r ← perf_ringbuf_dequeue rb;
        drop_written mem r.2 (consumed - len) iov
      else
        let remaining := u32 (len - consumed) in
        Some (store_bytes mem (base + consumed) (le_bytes 4 remaining), rb)
  end.

(** [written]: what [writev] takes, [None] for an error.  Result code, new
    memory and batcher, bytes put on the descriptor. *)
Definition perf_batcher_flush (mem : memory) (b : perf_batcher) (fd : Z) (written : option nat) :
    option (Z * option errno * memory * perf_batcher * list Z) :=
  if fd <? 0 then Some (-1, Some EINVAL, mem, b, [])
  else
    let count := Z.to_nat (perf_ringbuf_count (bt_rb b)) in
    if Nat.eqb count 0 then Some (0, None, mem, b, [])
    else
      iov ← gather (bt_rb b) 0 (Nat.min count IOV_MAX);
      match written with
      | None => Some (-1, None, mem, b, [])
      | Some n =>
          let sent := take n (concat (frame_bytes mem <$> iov)) in
          r ← drop_written mem (bt_rb b) (Z.of_nat (length sent)) iov;
          Some (0, None, r.1, mk_batcher r.2 (efd b) (batch_size b), sent)
      end.

(** [for (; n < b->batch_size; n++)] *)
Fixpoint drain (rb : perf_ringbuf Z) (n : nat) : option (list Z * perf_ringbuf Z) :=
  match n with
  | O => Some ([], rb)
  | S n =>
      r ← perf_ringbuf_dequeue rb;
      match r with
      | (rc, item, rb) =>
          if rc <? 0 then Some ([], rb)
          else r ← drain rb n; Some (default 0 item :: r.1, r.2)
      end
  end.

(** What [perf_batcher_next] comes to: a failed or interrupted read is -1, a read
    of a zero counter blocks, and otherwise there are items, possibly none. *)
Inductive next_outcome : Type := NextBlocks | NextFails | NextItems (items : list Z) (b : perf_batcher).

(** [read_ok]: the read of the event descriptor does not fail.  [None] would be
    a dequeue that never returns. *)
Definition perf_batcher_next (b : perf_batcher) (read_ok : bool) : option next_outcome :=
  if negb read_ok then Some NextFails
  else if efd b =? 0 then Some NextBlocks
  else r ← drain (bt_rb b) (Z.to_nat (batch_size b));
       Some (NextItems r.1 (mk_batcher r.2 (efd b - 1) (batch_size b))).

Definition perf_batcher_is_empty (b : perf_batcher) : bool := perf_ringbuf_count (bt_rb b) =? 0.

(** ** Specification *)

(** The batcher holds [q]; every queued item has a token in the counter. *)
Record bt_repr (b : perf_batcher) (h : Z) (q : list Z) : Prop := mk_bt_repr {
  bt_queue : rb_repr (bt_rb b) h q;
  bt_tokens : Z.of_nat (length q) <= efd b;
  bt_batch : 0 < batch_size b
}.

(** ** Producers and consumers

    The calls of any number of threads, one access to the ring or to the event
    descriptor at a time ([RingbufConc] shows that the accesses to the ring may
    be taken as one each). *)

(** A thread: in neither call, between the ring and the event, draining. *)
Inductive bt_thread : Type := Outside | ToSignal | Draining (got : list Z).

(** The lists and the counter below the threads only record what happened: items
    put into the ring and taken out, in order, batches returned, events whose
    write failed. *)
Record bt_sys : Type := mk_bt_sys {
  y_b : perf_batcher;
  y_threads : list bt_thread;
  y_accepted : list Z;
  y_taken : list Z;
  y_given : list (list Z);
  y_failed : Z
}.

Definition with_rb (b : perf_batcher) (rb : perf_ringbuf Z) : perf_batcher := mk_batcher rb (efd b) (batch_size b).
Definition with_efd (b : perf_batcher) (e : Z) : perf_batcher := mk_batcher (bt_rb b) e (batch_size b).

Inductive bt_step : bt_sys → bt_sys → Prop :=
| bt_push b ts acc tk gv fl i x rc e rb :
    ts !! i = Some Outside → perf_ringbuf_enqueue (bt_rb b) x = Some (rc, e, rb) → 0 <= rc →
    bt_step (mk_bt_sys b ts acc tk gv fl) (mk_bt_sys (with_rb b rb) (<[i := ToSignal]> ts) (acc ++ [x]) tk gv fl)
| bt_full b ts acc tk gv fl i x rc e rb :   (* -1, EAGAIN *)
    ts !! i = Some Outside → perf_ringbuf_enqueue (bt_rb b) x = Some (rc, e, rb) → rc < 0 →
    bt_step (mk_bt_sys b ts acc tk gv fl) (mk_bt_sys (with_rb b rb) ts acc tk gv fl)
| bt_signal b ts acc tk gv fl i :
    ts !! i = Some ToSignal →
    bt_step (mk_bt_sys b ts acc tk gv fl) (mk_bt_sys (with_efd b (efd b + 1)) (<[i := Outside]> ts) acc tk gv fl)
| bt_signal_fails b ts acc tk gv fl i :   (* 0, EIO *)
    ts !! i = Some ToSignal →
    bt_step (mk_bt_sys b ts acc tk gv fl) (mk_bt_sys b (<[i := Outside]> ts) acc tk gv (fl + 1))
| bt_read b ts acc tk gv fl i :
    ts !! i = Some Outside → efd b ≠ 0 →
    bt_step (mk_bt_sys b ts acc tk gv fl) (mk_bt_sys (with_efd b (efd b - 1)) (<[i := Draining []]> ts) acc tk gv fl)
| bt_read_fails b ts acc tk gv fl i :   (* -1 *)
    ts !! i = Some Outside →
    bt_step (mk_bt_sys b ts acc tk gv fl) (mk_bt_sys b ts acc tk gv fl)
| bt_take b ts acc tk gv fl i got rc item rb :
    ts !! i = Some (Draining got) → Z.of_nat (length got) < batch_size b →
    perf_ringbuf_dequeue (bt_rb b) = Some (rc, item, rb) → 0 <= rc →
    bt_step (mk_bt_sys b ts acc tk gv fl)
      (mk_bt_sys (with_rb b rb) (<[i := Draining (got ++ [default 0 item])]> ts) acc (tk ++ [default 0 item]) gv fl)
| bt_return b ts acc tk gv fl i got :
    ts !! i = Some (Draining got) →
    Z.of_nat (length got) = batch_size b ∨ (∃ rc item rb, perf_ringbuf_dequeue (bt_rb b) = Some (rc, item, rb) ∧ rc < 0) →
    bt_step (mk_bt_sys b ts acc tk gv fl) (mk_bt_sys b (<[i := Outside]> ts) acc tk (gv ++ [got]) fl).

(** [n] threads at a batcher whose ring holds [q], all with an event. *)
Definition bt_start (b : perf_batcher) (q : list Z) (n : nat) : bt_sys := mk_bt_sys b (replicate n Outside) q [] [] 0.

(** A thread that will write an event, or has read one and not taken an item yet. *)
Definition owes (t : bt_thread) : bool := match t with ToSignal | Draining [] => true | _ => false end.
Definition in_hand (t : bt_thread) : list Z := match t with Draining got => got | _ => [] end.

Record bt_inv (y : bt_sys) (h : Z) (q : list Z) : Prop := mk_bt_inv {
  bi_queue : rb_repr (bt_rb (y_b y)) h q;
  bi_batch : 0 < batch_size (y_b y);
  bi_efd : 0 <= efd (y_b y);
  bi_failed : 0 <= y_failed y;
  bi_order : y_accepted y = y_taken y ++ q;
  bi_tokens : Z.of_nat (length q) <= efd (y_b y) + count_if owes (y_threads y) + y_failed y;
  bi_hands : y_taken y ≡ₚ concat (y_given y) ++ concat (in_hand <$> y_threads y);
  bi_small : Forall (λ l, Z.of_nat (length l) <= batch_size (y_b y)) (y_given y ++ (in_hand <$> y_threads y))
}.

(** ** Lemmas *)

Lemma drain_spec n : ∀ rb h q,
  rb_repr rb h q →
  ∃ rb', drain rb n = Some (take n q, rb') ∧ rb_repr rb' (h + Z.of_nat (length (take n q))) (drop n q).
Proof.
  induction n as [|n IH]; intros rb h q Hr; [exists rb; by rewrite take_0, drop_0, Z.add_0_r|].
  cbn [drain]. destruct q as [|x q].
  - rewrite (dequeue_empty _ _ Hr). cbn. exists rb. by rewrite Z.add_0_r.
  - destruct (dequeue_some _ _ _ _ Hr) as (rb1 & E & Hr1 & _). rewrite E. cbn [mbind option_bind].
    change (0 <? 0) with false. cbv iota. destruct (IH _ _ _ Hr1) as (rb' & E' & Hr'). rewrite E'.
    exists rb'. split; [done|]. cbn [take drop length].
    by replace (h + Z.of_nat (S (length (take n q)))) with (h + 1 + Z.of_nat (length (take n q))) by lia.
Qed.

Lemma gather_spec rb h q n : ∀ i,
  rb_repr rb h q → 0 <= i → (Z.to_nat i + n <= length q)%nat → i + Z.of_nat n <= rb_cap rb →
  gather rb i n = Some (take n (drop (Z.to_nat i) q)).
Proof.
  induction n as [|n IH]; intros i Hr Hi Hl Hc; [by rewrite take_0|].
  cbn [gather]. rewrite (peek_at_spec _ _ _ _ Hr) by lia.
  destruct (q !! Z.to_nat i) as [x|] eqn:Ex; [|apply lookup_ge_None in Ex; lia].
  cbn [mbind option_bind]. rewrite (IH (i + 1)) by (done || lia). cbn [mbind option_bind].
  rewrite (drop_S _ _ _ Ex). simpl. by replace (Z.to_nat (i + 1)) with (S (Z.to_nat i)) by lia.
Qed.

Lemma store_bytes_other mem bs : ∀ addr a,
  a < addr ∨ addr + Z.of_nat (length bs) <= a → store_bytes mem addr bs a = mem a.
Proof.
  revert mem. induction bs as [|x bs IH]; intros mem addr a H; [done|]. simpl in *.
  rewrite IH by lia. apply fn_lookup_insert_ne. lia.
Qed.

(** Storing what is there already changes nothing. *)
Lemma store_bytes_same n : ∀ mem addr a,
  store_bytes mem addr (bytes_at mem addr n) a = mem a.
Proof.
  assert (∀ bs mem addr, (∀ i x, bs !! i = Some x → mem (addr + Z.of_nat i) = x) →
    ∀ a, store_bytes mem addr bs a = mem a) as Hgen.
  { intros bs. induction bs as [|x bs IH]; intros mem addr Hbs a; [done|]. simpl.
    assert (∀ a', <[addr := x]> mem a' = mem a') as Hsame.
    { intros a'. destruct (decide (addr = a')) as [<-|Hne]; [|by apply fn_lookup_insert_ne].
      rewrite fn_lookup_insert. specialize (Hbs 0%nat x eq_refl). by rewrite Z.add_0_r in Hbs. }
    rewrite IH; [apply Hsame|]. intros i y Hy. rewrite Hsame. specialize (Hbs (S i) y Hy).
    by replace (addr + 1 + Z.of_nat i) with (addr + Z.of_nat (S i)) by lia. }
  intros mem addr a. apply Hgen. intros i x Hx. unfold bytes_at in Hx.
  rewrite list_lookup_fmap in Hx. destruct (seq 0 n !! i) eqn:E; [|done]. simpl in Hx.
  apply lookup_seq in E as [-> _]. by simplify_eq.
Qed.

Lemma read_u32_range mem addr : (∀ a, is_byte (mem a)) → 0 <= read_u32 mem addr < 2 ^ 32.
Proof.
  intros Hm. apply (of_le_range (bytes_at mem addr 4)). unfold bytes_at.
  apply Forall_fmap, Forall_true. intros i. apply Hm.
Qed.

Lemma store_len_same mem addr :
  (∀ a, is_byte (mem a)) → ∀ a, store_bytes mem addr (le_bytes 4 (read_u32 mem addr)) a = mem a.
Proof.
  intros Hm a. unfold read_u32. change 4%nat with (length (bytes_at mem addr 4)) at 1.
  rewrite le_bytes_of_le; [apply store_bytes_same|]. unfold bytes_at.
  apply Forall_fmap, Forall_true. intros i. apply Hm.
Qed.

Definition total_len (mem : memory) (fs : list Z) : Z :=
  Z.of_nat (length (concat (frame_bytes mem <$> fs))).

Lemma length_frame_bytes mem addr :
  (∀ a, is_byte (mem a)) → Z.of_nat (length (frame_bytes mem addr)) = read_u32 mem addr.
Proof.
  intros Hm. pose proof (read_u32_range mem addr Hm). unfold frame_bytes, bytes_at.
  rewrite length_fmap, length_seq. lia.
Qed.

(** The frames that went out whole leave the queue; a following frame of which
    nothing went out keeps its bytes. *)
Lemma drop_written_spec mem fs : ∀ rb h q rest,
  (∀ a, is_byte (mem a)) → rb_repr rb h (fs ++ q) →
  (∀ f rest', rest = f :: rest' → 0 < read_u32 mem f) →
  ∃ mem' rb', drop_written mem rb (total_len mem fs) (fs ++ rest) = Some (mem', rb') ∧
    rb_repr rb' (h + Z.of_nat (length fs)) q ∧ ∀ a, mem' a = mem a.
Proof.
  induction fs as [|f fs IH]; intros rb h q rest Hm Hr Hne.
  - change (total_len mem []) with 0. simpl. rewrite Z.add_0_r. destruct rest as [|g rest]; [eauto|].
    cbn [drop_written]. specialize (Hne g rest eq_refl). pose proof (read_u32_range mem g Hm).
    rewrite (proj2 (Z.leb_gt _ _)), Z.sub_0_r, Z.add_0_r, u32_small by lia.
    eexists _, _. split_and!; [done|done|]. intros a. by apply store_len_same.
  - cbn [drop_written app].
    assert (total_len mem (f :: fs) = read_u32 mem f + total_len mem fs) as Et.
    { unfold total_len. cbn [fmap list_fmap concat]. rewrite length_app, Nat2Z.inj_add, length_frame_bytes by done. done. }
    rewrite Et. rewrite (proj2 (Z.leb_le _ _)) by (unfold total_len; lia).
    destruct (dequeue_some _ _ _ _ Hr) as (rb1 & E & Hr1 & _). rewrite E. cbn [mbind option_bind].
    replace (read_u32 mem f + total_len mem fs - read_u32 mem f) with (total_len mem fs) by lia.
    destruct (IH rb1 (h + 1) q rest Hm Hr1 Hne) as (mem' & rb' & E' & Hr' & Hmem).
    exists mem', rb'. split_and!; [done| |done]. simpl length.
    by replace (h + Z.of_nat (S (length fs))) with (h + 1 + Z.of_nat (length fs)) by lia.
Qed.

(** The ring as a bounded queue, from what its operations return. *)
Lemma ring_push rb h (q : list Z) x rc e rb' :
  rb_repr rb h q → perf_ringbuf_enqueue rb x = Some (rc, e, rb') → 0 <= rc → rb_repr rb' h (q ++ [x]) ∧ rc = 0.
Proof.
  intros Hr E Hrc. pose proof (repr_fits _ _ _ Hr).
  destruct (decide (Z.of_nat (length q) = rb_cap rb)) as [Hf|Hf].
  - rewrite (enqueue_full _ _ _ x Hr Hf) in E. simplify_eq. lia.
  - destruct (enqueue_room _ _ _ x Hr ltac:(lia)) as (rb1 & E1 & H1 & _). by simplify_eq.
Qed.

Lemma ring_refuses rb h (q : list Z) x rc e rb' :
  rb_repr rb h q → perf_ringbuf_enqueue rb x = Some (rc, e, rb') → rc < 0 → rb_repr rb' h q.
Proof.
  intros Hr E Hrc. pose proof (repr_fits _ _ _ Hr).
  destruct (decide (Z.of_nat (length q) = rb_cap rb)) as [Hf|Hf].
  - rewrite (enqueue_full _ _ _ x Hr Hf) in E. by simplify_eq.
  - destruct (enqueue_room _ _ _ x Hr ltac:(lia)) as (rb1 & E1 & H1 & _). by simplify_eq.
Qed.

Lemma ring_pop rb h (q : list Z) rc item rb' :
  rb_repr rb h q → perf_ringbuf_dequeue rb = Some (rc, item, rb') → 0 <= rc →
  ∃ x q', item = Some x ∧ q = x :: q' ∧ rb_repr rb' (h + 1) q'.
Proof.
  intros Hr E Hrc. destruct q as [|x q']; [rewrite (dequeue_empty _ _ Hr) in E; simplify_eq; lia|].
  destruct (dequeue_some _ _ _ _ Hr) as (rb1 & E1 & H1 & _). simplify_eq. eauto.
Qed.

Lemma ring_empty rb h (q : list Z) rc item rb' :
  rb_repr rb h q → perf_ringbuf_dequeue rb = Some (rc, item, rb') → rc < 0 → q = [].
Proof.
  intros Hr E Hrc. destruct q as [|x q']; [done|]. destruct (dequeue_some _ _ _ _ Hr) as (rb1 & E1 & H1 & _). simplify_eq. lia.
Qed.

Lemma enqueue_repr b h q x b' rc e :
  bt_repr b h q → perf_batcher_enqueue b x true = Some (rc, e, b') →
  if Z.of_nat (length q) <? rb_cap (bt_rb b)
  then rc = 0 ∧ bt_repr b' h (q ++ [x]) else rc = -1 ∧ e = Some EAGAIN ∧ bt_repr b' h q.
Proof.
  intros [Hr Ht Hb] E. unfold perf_batcher_enqueue in E.
  case (Z.ltb_spec (Z.of_nat (length q)) (rb_cap (bt_rb b))); intros Hc.
  - destruct (enqueue_room _ _ _ x Hr Hc) as (rb' & Ee & Hr' & _). rewrite Ee in E. simpl in E. simplify_eq.
    split; [done|]. constructor; simpl; [done| |done]. rewrite length_app. simpl. lia.
  - pose proof (repr_fits _ _ _ Hr). rewrite (enqueue_full _ _ _ x Hr) in E by lia. simpl in E. simplify_eq.
    done.
Qed.

Lemma next_repr b h q :
  bt_repr b h q → efd b ≠ 0 →
  let n := Z.to_nat (batch_size b) in
  ∃ b', perf_batcher_next b true = Some (NextItems (take n q) b') ∧
        bt_repr b' (h + Z.of_nat (length (take n q))) (drop n q).
Proof.
  intros [Hr Ht Hb] He n. unfold perf_batcher_next. cbn [negb]. rewrite (proj2 (Z.eqb_neq _ _) He).
  destruct (drain_spec n _ _ _ Hr) as (rb' & E & Hr'). fold n. rewrite E. cbn.
  eexists. split; [done|]. constructor; simpl; [done| |done]. rewrite length_drop. lia.
Qed.

Lemma small_insert (b : Z) gv ts i t :
  Forall (λ l, Z.of_nat (length l) <= b) (gv ++ (in_hand <$> ts)) → Z.of_nat (length (in_hand t)) <= b →
  Forall (λ l, Z.of_nat (length l) <= b) (gv ++ (in_hand <$> <[i := t]> ts)).
Proof.
  intros [H1 H2]%Forall_app Ht. apply Forall_app. split; [done|]. rewrite list_fmap_insert.
  by apply Forall_insert.
Qed.

Lemma hands_insert tk gv ts i t t' extra :
  ts !! i = Some t → tk ≡ₚ concat gv ++ concat (in_hand <$> ts) → in_hand t' = in_hand t ++ extra →
  tk ++ extra ≡ₚ concat gv ++ concat (in_hand <$> <[i := t']> ts).
Proof.
  intros Hi Hh Ht. destruct (concat_insert in_hand ts i t t' Hi) as (a & b & E1 & E2).
  rewrite Hh, E1, E2, Ht. solve_Permutation.
Qed.

Lemma bt_step_inv y y' h q : bt_inv y h q → bt_step y y' → ∃ h' q', bt_inv y' h' q'.
Proof.
  intros [H1 H2 H3 H4 H5 H6 H7 H8] Hst.
  destruct Hst as [b ts acc tk gv fl i x rc e rb Hi E Hrc|b ts acc tk gv fl i x rc e rb Hi E Hrc|b ts acc tk gv fl i Hi|
    b ts acc tk gv fl i Hi|b ts acc tk gv fl i Hi He|b ts acc tk gv fl i Hi|b ts acc tk gv fl i got rc item rb Hi Hl E Hrc|
    b ts acc tk gv fl i got Hi Hend]; cbn in *.
  - destruct (ring_push _ _ _ _ _ _ _ H1 E Hrc) as [Hr _]. exists h, (q ++ [x]).
    pose proof (count_insert owes ts i _ ToSignal Hi) as Hc. cbn in Hc.
    split; cbn; try done; [by rewrite H5, app_assoc|rewrite length_app; cbn; lia| |apply small_insert; [done|cbn; lia]].
    rewrite <- (app_nil_r tk). by eapply hands_insert.
  - exists h, q. split; cbn; try done. by eapply ring_refuses.
  - pose proof (count_insert owes ts i _ Outside Hi) as Hc. cbn in Hc. exists h, q.
    split; cbn; try done; [lia|lia| |apply small_insert; [done|cbn; lia]].
    rewrite <- (app_nil_r tk). by eapply hands_insert.
  - pose proof (count_insert owes ts i _ Outside Hi) as Hc. cbn in Hc. exists h, q.
    split; cbn; try done; [lia|lia| |apply small_insert; [done|cbn; lia]].
    rewrite <- (app_nil_r tk). by eapply hands_insert.
  - pose proof (count_insert owes ts i _ (Draining []) Hi) as Hc. cbn in Hc. exists h, q.
    split; cbn; try done; [lia|lia| |apply small_insert; [done|cbn; lia]].
    rewrite <- (app_nil_r tk). by eapply hands_insert.
  - exists h, q. by split.
  - destruct (ring_pop _ _ _ _ _ _ H1 E Hrc) as (x & q' & -> & -> & Hr). exists (h + 1), q'. cbn [default].
    pose proof (count_insert owes ts i _ (Draining (got ++ [x])) Hi) as Hc.
    assert (owes (Draining (got ++ [x])) = false) as Ho by (by destruct got). rewrite Ho in Hc. cbn in Hc.
    split; cbn; try done.
    + by rewrite H5, <- app_assoc.
    + cbn [length] in H6. revert Hc. generalize (count_if owes (<[i := Draining (got ++ [x])]> ts)). intros c.
      destruct got; lia.
    + by eapply hands_insert.
    + apply small_insert; [done|]. cbn. rewrite length_app. cbn. lia.
  - pose proof (count_insert owes ts i _ Outside Hi) as Hc. cbn in Hc. exists h, q. split; cbn; try done.
    + destruct Hend as [Hfull|(rc & item & rb & E & Hrc)]; [destruct got; cbn in *; lia|].
      rewrite (ring_empty _ _ _ _ _ _ H1 E Hrc). pose proof (count_bounds owes (<[i := Outside]> ts)). cbn. lia.
    + destruct (concat_insert in_hand ts i _ Outside Hi) as (a & c & E1 & E2). rewrite H7, E1, E2, concat_app. cbn.
      solve_Permutation.
    + apply Forall_app in H8 as [G1 G2]. rewrite <- app_assoc. apply Forall_app_2; [done|].
      rewrite list_fmap_insert. apply Forall_app_2; [|apply Forall_insert; [done|cbn; lia]].
      apply list.Forall_singleton. rewrite list.Forall_lookup in G2. apply (G2 i). by rewrite list_lookup_fmap, Hi.
Qed.

Lemma start_inv b h q n : bt_repr b h q → bt_inv (bt_start b q n) h q.
Proof.
  intros [Hr Ht Hb]. split; cbn; try done; try lia.
  - pose proof (count_bounds owes (replicate n Outside)). lia.
  - induction n; [done|]. done.
  - induction n; cbn; [constructor|]. constructor; [cbn; lia|done].
Qed.

(** *** The calls as runs *)

Lemma dequeue_refused (rb : perf_ringbuf Z) rc item rb' : perf_ringbuf_dequeue rb = Some (rc, item, rb') → rc < 0 → rb' = rb.
Proof.
  unfold perf_ringbuf_dequeue. intros E Hrc. destruct (slot_at _ _); [|done]. cbn in E.
  repeat (case_match; simplify_eq/=); done || lia.
Qed.

Lemma drain_run n : ∀ rb e bs ts acc tk gv fl i got items rb',
  drain rb n = Some (items, rb') → ts !! i = Some (Draining got) → Z.of_nat (length got + n) = bs →
  star bt_step (mk_bt_sys (mk_batcher rb e bs) ts acc tk gv fl)
    (mk_bt_sys (mk_batcher rb' e bs) (<[i := Outside]> ts) acc (tk ++ items) (gv ++ [got ++ items]) fl).
Proof.
  induction n as [|n IH]; intros rb e bs ts acc tk gv fl i got items rb' E Hi Hn; cbn [drain] in E.
  { simplify_eq. rewrite !app_nil_r. eapply star_step; [|apply star_refl]. apply bt_return; [done|cbn; left; lia]. }
  destruct (perf_ringbuf_dequeue rb) as [[[rc item] rb1]|] eqn:Ed; [|done]. cbn in E.
  destruct (Z.ltb_spec rc 0) as [Hrc|Hrc].
  - simplify_eq. rewrite !app_nil_r, (dequeue_refused _ _ _ _ Ed Hrc). eapply star_step; [|apply star_refl].
    apply bt_return; [done|]. right. eauto.
  - destruct (drain rb1 n) as [[its rb2]|] eqn:Er; [|done]. cbn in E. simplify_eq.
    eapply star_step; [eapply bt_take; [done|cbn; lia|done|done]|]. cbn.
    assert (i < length ts)%nat as Hl by (by eapply lookup_lt_Some).
    eapply (IH _ e (Z.of_nat (length got + S n)) (<[i := Draining (got ++ [default 0 item])]> ts) acc
      (tk ++ [default 0 item]) gv fl i) in Er; [|by apply list_lookup_insert_eq|rewrite length_app; cbn; lia].
    rewrite list_insert_insert_eq, <- !app_assoc in Er. exact Er.
Qed.

(** A call that nobody interrupts is a run of its thread's steps. *)
Lemma calls_are_runs b ts acc tk gv fl i :
  ts !! i = Some Outside →
  (∀ x ok rc e b', perf_batcher_enqueue b x ok = Some (rc, e, b') →
     ∃ acc' fl', star bt_step (mk_bt_sys b ts acc tk gv fl) (mk_bt_sys b' ts acc' tk gv fl')) ∧
  (∀ items b', 0 < batch_size b → perf_batcher_next b true = Some (NextItems items b') →
     star bt_step (mk_bt_sys b ts acc tk gv fl) (mk_bt_sys b' ts acc (tk ++ items) (gv ++ [items]) fl)).
Proof.
  intros Hi. assert (i < length ts)%nat as Hl by (by eapply lookup_lt_Some).
  assert (∀ t, <[i := Outside]> (<[i := t]> ts) = ts) as Hback.
  { intros t. rewrite list_insert_insert_eq. by apply list_insert_id. }
  split.
  - intros x ok rc e b' E. unfold perf_batcher_enqueue in E.
    destruct (perf_ringbuf_enqueue (bt_rb b) x) as [[[rc1 e1] rb]|] eqn:Ee; [|done]. cbn in E.
    destruct (Z.ltb_spec rc1 0) as [Hrc|Hrc].
    + simplify_eq. exists acc, fl. eapply star_step; [by eapply bt_full|apply star_refl].
    + assert (star bt_step (mk_bt_sys b ts acc tk gv fl)
        (mk_bt_sys (with_rb b rb) (<[i := ToSignal]> ts) (acc ++ [x]) tk gv fl)) as Hpush.
      { eapply star_step; [by eapply bt_push|apply star_refl]. }
      exists (acc ++ [x]), (if ok then fl else fl + 1). eapply star_trans; [exact Hpush|].
      destruct ok; simplify_eq; (eapply star_step; [|apply star_refl]); rewrite <- (Hback ToSignal) at 2;
        [apply bt_signal|apply bt_signal_fails]; by apply list_lookup_insert_eq.
  - intros items b' Hb E. unfold perf_batcher_next in E. cbn [negb] in E. destruct (Z.eqb_spec (efd b) 0) as [|He]; [done|].
    destruct (drain _ _) as [[its rb']|] eqn:Ed; [|done]. cbn in E. simplify_eq.
    eapply star_step; [by eapply bt_read|]. unfold with_efd.
    eapply (drain_run _ _ (efd b - 1) (batch_size b) _ acc tk gv fl i []) in Ed; [|by apply list_lookup_insert_eq|cbn; lia].
    by rewrite Hback in Ed.
Qed.

(** ** Properties *)


Definition ring4 : perf_ringbuf Z :=
  mk_ringbuf 0 0 4 3 [mk_slot 0 0; mk_slot 1 0; mk_slot 2 0; mk_slot 3 0].

Lemma ring4_repr : rb_repr ring4 0 [].
Proof.
  pose proof (ringbuf_create_lemma 0 2 ltac:(lia) []) as H.
  change (2 ^ 2) with 4 in H.
  assert ((perf_ringbuf_create 0 4 []).1 = (None, Some ring4)) as E by (vm_compute; reflexivity).
  rewrite E in H. apply H.
Qed.

Definition batcher4 : perf_batcher := mk_batcher ring4 0 2.
Definition batcher4_enqueue (b : perf_batcher) (x : Z) : perf_batcher :=
  match perf_batcher_enqueue b x true with Some (_, _, b') => b' | None => b end.

(** One of two threads has put an item into the ring and written its event. *)
Definition one_enqueued : bt_sys := mk_bt_sys (batcher4_enqueue batcher4 7) [Outside; Outside] [7] [] [] 0.

Lemma one_enqueued_reachable : star bt_step (bt_start batcher4 [] 2) one_enqueued.
Proof.
  eapply star_step; [eapply (bt_push _ _ _ _ _ _ 0 7); [done|vm_compute; reflexivity|lia]|].
  eapply star_step; [by eapply (bt_signal _ _ _ _ _ _ 0)|]. apply star_refl.
Qed.


(** A signal that fails leaves an item behind: the enqueue reports success
    and the consumer blocks although an item is queued. *)
Theorem batcher_failed_signal_blocks :
  ∃ b, perf_batcher_enqueue batcher4 7 false = Some (0, Some EIO, b) ∧
    perf_batcher_is_empty b = false ∧ perf_batcher_next b true = Some NextBlocks.
Proof. eexists. split; [vm_compute; reflexivity|]. vm_compute. done. Qed.

(** A flush of whole frames is exact: when [writev] takes exactly the bytes
    of the first frames, these bytes go out in order, those frames leave the
    queue, the others stay and no frame changes. *)
Theorem batcher_flush_whole_frames (mem : memory) (b : perf_batcher) (fd h : Z) (fs q : list Z) :
  (∀ a, is_byte (mem a)) → 0 <= fd → rb_repr (bt_rb b) h (fs ++ q) →
  h + Z.of_nat (length (fs ++ q)) < 2 ^ 64 → (length (fs ++ q) <= IOV_MAX)%nat →
  (∀ f, f ∈ q → 0 < read_u32 mem f) → fs ++ q ≠ [] →
  ∃ mem' b', perf_batcher_flush mem b fd (Some (Z.to_nat (total_len mem fs))) =
      Some (0, None, mem', b', concat (frame_bytes mem <$> fs)) ∧
    rb_repr (bt_rb b') (h + Z.of_nat (length fs)) q ∧ (∀ a, mem' a = mem a).
Proof.
  intros Hm Hfd Hr Hb Hl Hq Hne. unfold perf_batcher_flush. rewrite (proj2 (Z.ltb_ge _ _)) by lia.
  rewrite (count_spec _ _ _ Hr Hb), Nat2Z.id.
  destruct (Nat.eqb_spec (length (fs ++ q)) 0) as [E0|_]; [by apply nil_length_inv in E0|].
  rewrite Nat.min_l by done. pose proof (repr_fits _ _ _ Hr).
  rewrite (gather_spec _ _ _ _ 0 Hr) by (simpl; lia). rewrite drop_0, firstn_all. cbn [mbind option_bind].
  rewrite fmap_app, concat_app. unfold total_len. rewrite Nat2Z.id, take_app_length.
  destruct (drop_written_spec mem fs (bt_rb b) h q q Hm Hr) as (mem' & rb' & E & Hr' & Hmem).
  { intros f rest ->. apply Hq. left. }
  unfold total_len in E. rewrite E. cbn. eauto.
Qed.

(** Two frames of five and six bytes, the length first. *)
Definition frames_mem : memory := λ a,
  default 0 ([5; 0; 0; 0; 42; 6; 0; 0; 0; 43; 44] !! Z.to_nat a).

Lemma frames_mem_bytes a : is_byte (frames_mem a).
Proof.
  unfold frames_mem. generalize (Z.to_nat a). intros n.
  do 12 (destruct n as [|n]; [unfold is_byte; simpl; lia|]). unfold is_byte. simpl. lia.
Qed.

Definition batcher4_two : perf_batcher := batcher4_enqueue (batcher4_enqueue batcher4 0) 5.

Lemma batcher4_two_repr : rb_repr (bt_rb batcher4_two) 0 [0; 5].
Proof.
  assert (bt_repr batcher4 0 []) as H0 by (constructor; [exact ring4_repr|done|done]).
  pose proof (enqueue_repr batcher4 0 [] 0 (batcher4_enqueue batcher4 0) 0 None H0 ltac:(vm_compute; reflexivity)) as H1.
  destruct H1 as [_ H1].
  pose proof (enqueue_repr _ 0 _ 5 batcher4_two 0 None H1 ltac:(vm_compute; reflexivity)) as H2.
  destruct H2 as [_ H2]. apply H2.
Qed.

Lemma batcher_flush_whole_frames_witness :
  ∃ mem' b', perf_batcher_flush frames_mem batcher4_two 3 (Some 5%nat) =
      Some (0, None, mem', b', [5; 0; 0; 0; 42]) ∧ rb_repr (bt_rb b') 1 [5].
Proof.
  destruct (batcher_flush_whole_frames frames_mem batcher4_two 3 0 [0] [5]) as (mem' & b' & E & Hr & _).
  - exact frames_mem_bytes.
  - lia.
  - exact batcher4_two_repr.
  - simpl. lia.
  - simpl. unfold IOV_MAX. lia.
  - intros f ->%list_elem_of_singleton. vm_compute. reflexivity.
  - discriminate.
  - exists mem', b'. split; [exact E|exact Hr].
Defined.

(** A partial write corrupts the frame: the remaining length is stored in
    the middle of the frame while the queue still points at its start, so the
    next flush takes the frame for one of a different length. *)
Theorem batcher_partial_flush_corrupts :
  ∃ mem' b', perf_batcher_flush frames_mem batcher4_two 3 (Some 3%nat) =
      Some (0, None, mem', b', [5; 0; 0]) ∧
    gather (bt_rb b') 0 1 = Some [0] ∧ read_u32 frames_mem 0 = 5 ∧ read_u32 mem' 0 = 5 + 2 * 2 ^ 24.
Proof. eexists _, _. split; [vm_compute; reflexivity|]. vm_compute. done. Qed.
