(* ===== verification/Random.v ===== *)
(** * Pseudo-random numbers ([app/libs/ring0/postoffice/random/random.c])

    The xoshiro256** generator on its thread-local state of four 64-bit words,
    its seeding, bounded integers and the shuffle.  What the automatic seeding
    asks the system for is a parameter.  Signed overflow and division by zero
    are undefined in C: [None]. *)

From Stdlib Require Import ZArith Lia.
From stdpp Require Import base list numbers.
From S2P Require Import Prelude.

Local Open Scope Z_scope.

Record rand_state : Type := mk_rand { s0 : Z; s1 : Z; s2 : Z; s3 : Z }.

(** [/dev/urandom] when it gives 32 bytes; otherwise clock, process and thread. *)
Record seed_env : Type := mk_seed_env {
  urandom : option (list Z);
  tv_sec : Z;
  tv_nsec : Z;
  getpid : Z;
  pthread_self : Z
}.

Definition shl64 (x k : Z) : Z := u64 (Z.shiftl x k).
Definition rotl (x k : Z) : Z := Z.lor (shl64 x k) (Z.shiftr x (64 - k)).

Definition xoshiro256ss (st : rand_state) : Z * rand_state :=
  let result := u64 (rotl (u64 (s1 st * 5)) 7 * 9) in
  let t := shl64 (s1 st) 17 in
  let x2 := Z.lxor (s2 st) (s0 st) in
  let x3 := Z.lxor (s3 st) (s1 st) in
  let x1 := Z.lxor (s1 st) x2 in
  let x0 := Z.lxor (s0 st) x3 in
  (result, mk_rand x0 x1 (Z.lxor x2 t) (rotl x3 45)).

Definition seeded (st : rand_state) : bool :=
  negb (Z.lor (Z.lor (Z.lor (s0 st) (s1 st)) (s2 st)) (s3 st) =? 0).

Definition GOLDEN : Z := 0x9E3779B97F4A7C15.

(** [acc ^= acc >> 33; acc *= ...; ...] *)
Definition mix (acc : Z) : Z :=
  let acc := Z.lxor acc (Z.shiftr acc 33) in
  let acc := u64 (acc * 0xff51afd7ed558ccd) in
  let acc := Z.lxor acc (Z.shiftr acc 33) in
  let acc := u64 (acc * 0xc4ceb9fe1a85ec53) in
  Z.lxor acc (Z.shiftr acc 33).

Definition absorb (buf : list Z) : Z :=
  foldl (λ acc b, u64 (acc * GOLDEN + b)) GOLDEN buf.

Definition seed_from_bytes (buf : list Z) : rand_state :=
  let a0 := mix (absorb buf) in
  let a1 := mix a0 in
  let a2 := mix a1 in
  let a3 := mix a2 in
  mk_rand (u64 (a0 + 0 * GOLDEN)) (u64 (a1 + 1 * GOLDEN)) (u64 (a2 + 2 * GOLDEN)) (u64 (a3 + 3 * GOLDEN)).

Fixpoint warm_up (n : nat) (st : rand_state) : rand_state :=
  match n with O => st | S n => warm_up n (xoshiro256ss st).2 end.

Definition seed_bytes (seed : Z) : list Z :=
  (λ i, Z.land (Z.shiftr seed (Z.of_nat i * 8)) 0xFF) <$> seq 0 8.

Definition po_rand_seed (seed : Z) : rand_state := warm_up 8 (seed_from_bytes (seed_bytes seed)).

Definition po_rand_seed_auto (env : seed_env) : rand_state :=
  match urandom env with
  | Some buf => warm_up 8 (seed_from_bytes buf)
  | None =>
      po_rand_seed (Z.lxor (Z.lxor (Z.lxor (shl64 (tv_sec env) 32) (u64 (tv_nsec env)))
        (u64 (getpid env))) (u64 (pthread_self env)))
  end.

Definition po_rand_u64 (env : seed_env) (st : rand_state) : Z * rand_state :=
  xoshiro256ss (if seeded st then st else po_rand_seed_auto env).

Definition po_rand_u32 (env : seed_env) (st : rand_state) : Z * rand_state :=
  let '(x, st) := po_rand_u64 env st in (Z.shiftr x 32, st).

Definition in_i64 (z : Z) : bool := (- 2 ^ 63 <=? z) && (z <? 2 ^ 63).

Definition po_rand_range_i64 (env : seed_env) (min max : Z) (st : rand_state) :
    option (Z * rand_state) :=
  let '(min, max) := if max <? min then (max, min) else (min, max) in
  if negb (in_i64 (max - min)) || negb (in_i64 (max - min + 1)) then None
  else
    let span := u64 (max - min + 1) in
    let '(x, st) := po_rand_u64 env st in
    if span =? 0 then None else Some (min + x mod span, st).

(** In units of [2 ^ -53]: the conversion of 53 bits and the scaling by a power
    of two are exact in binary64. *)
Definition po_rand_unit (env : seed_env) (st : rand_state) : Z * rand_state :=
  let '(x, st) := po_rand_u64 env st in (Z.shiftr x 11, st).

(** [for (b = 0; b < elem_size; ++b)]: exchange two elements byte by byte;
    [None] is an access out of bounds. *)
Fixpoint swap_elems (a : list Z) (pi pj : nat) (n : nat) : option (list Z) :=
  match n with
  | O => Some a
  | S n => a ← swap a pi pj; swap_elems a (S pi) (S pj) n
  end.

(** [for (i = n - 1; i > 0; --i)] *)
Fixpoint shuffle_loop (env : seed_env) (elem_size : nat) (i : nat) (a : list Z) (st : rand_state) :
    option (list Z * rand_state) :=
  match i with
  | O => Some (a, st)
  | S i' =>
      r ← po_rand_range_i64 env 0 (Z.of_nat i) st;
      let j := Z.to_nat r.1 in
      if Nat.eqb j i then shuffle_loop env elem_size i' a r.2
      else a ← swap_elems a (i * elem_size) (j * elem_size) elem_size;
           shuffle_loop env elem_size i' a r.2
  end.

Definition po_rand_shuffle (env : seed_env) (a : list Z) (n elem_size : nat) (st : rand_state) :
    option (list Z * rand_state) :=
  if Nat.eqb elem_size 0 || Nat.ltb n 2 then Some (a, st)
  else shuffle_loop env elem_size (n - 1) a st.

(** ** Specification *)

Definition word (x : Z) : Prop := 0 <= x < 2 ^ 64.
Definition rand_wf (st : rand_state) : Prop :=
  word (s0 st) ∧ word (s1 st) ∧ word (s2 st) ∧ word (s3 st).

(** ** Lemmas *)

Lemma word_bits x : word x → ∀ i, 64 <= i → Z.testbit x i = false.
Proof.
  intros [H1 H2] i Hi. destruct (Z.eq_dec x 0) as [->|Hne]; [apply Z.bits_0|].
  apply Z.bits_above_log2; [done|]. apply Z.lt_le_trans with 64; [|done]. apply Z.log2_lt_pow2; lia.
Qed.

Lemma bits_word x : 0 <= x → (∀ i, 64 <= i → Z.testbit x i = false) → word x.
Proof.
  intros H0 Hb. split; [done|]. destruct (Z.lt_ge_cases x (2 ^ 64)) as [|Hge]; [done|].
  assert (0 < x) by lia. pose proof (Z.bit_log2 x ltac:(lia)) as Ht.
  rewrite Hb in Ht; [done|]. apply Z.log2_le_pow2; lia.
Qed.

Lemma word_lxor x y : word x → word y → word (Z.lxor x y).
Proof.
  intros Hx Hy. apply bits_word; [apply Z.lxor_nonneg; unfold word in *; lia|].
  intros i Hi. by rewrite Z.lxor_spec, !word_bits.
Qed.

Lemma word_u64 x : word (u64 x).
Proof. apply u64_range. Qed.

Lemma word_shiftr x k : word x → 0 <= k → word (Z.shiftr x k).
Proof.
  intros Hx Hk. apply bits_word; [apply Z.shiftr_nonneg; unfold word in *; lia|].
  intros i Hi. rewrite Z.shiftr_spec by lia. apply word_bits; [done|lia].
Qed.

Lemma testbit_shl64 x k i :
  0 <= k → 0 <= i → Z.testbit (shl64 x k) i = (i <? 64) && Z.testbit x (i - k).
Proof.
  intros Hk Hi. unfold shl64, u64. case (Z.ltb_spec i 64); intros H.
  - rewrite Z.mod_pow2_bits_low by lia. by rewrite Z.shiftl_spec.
  - by rewrite Z.mod_pow2_bits_high by lia.
Qed.

Lemma word_rotl x k : word x → 0 <= k <= 64 → word (rotl x k).
Proof.
  intros Hx Hk. pose proof (word_u64 (Z.shiftl x k)) as H1. pose proof (word_shiftr x (64 - k) Hx ltac:(lia)) as H2.
  apply bits_word; [apply Z.lor_nonneg; unfold word in *; split; apply H1 || apply H2|].
  intros i Hi. unfold rotl. rewrite Z.lor_spec. unfold shl64. by rewrite !word_bits.
Qed.

Lemma xoshiro_wf st : rand_wf st → word (xoshiro256ss st).1 ∧ rand_wf (xoshiro256ss st).2.
Proof.
  intros (H0 & H1 & H2 & H3). split; [apply word_u64|].
  split_and!; simpl; auto using word_lxor, word_u64; try (apply word_lxor; [|apply word_u64]);
    try apply word_rotl; auto using word_lxor; lia.
Qed.

(** Rotation by [0 < k < 64] loses nothing. *)
Lemma rotl_inj x y k : word x → word y → 0 < k < 64 → rotl x k = rotl y k → x = y.
Proof.
  intros Hx Hy Hk E. apply Z.bits_inj'. intros i Hi.
  destruct (Z.lt_ge_cases i 64) as [Hlt|Hge]; [|by rewrite !word_bits].
  assert (∀ z, word z → Z.testbit z i = Z.testbit (rotl z k) ((i + k) mod 64)) as Hbit.
  { intros z Hz. unfold rotl. rewrite Z.lor_spec.
    pose proof (Z.mod_pos_bound (i + k) 64 ltac:(lia)) as Hm.
    rewrite testbit_shl64, Z.shiftr_spec by lia. rewrite (proj2 (Z.ltb_lt _ _)) by lia. simpl.
    destruct (Z.lt_ge_cases (i + k) 64) as [Hs|Hs].
    - rewrite Z.mod_small by lia. replace (i + k - k) with i by lia.
      rewrite (word_bits z Hz (i + k + (64 - k))) by lia. by rewrite orb_false_r.
    - assert ((i + k) mod 64 = i + k - 64) as -> by (symmetry; apply (Z.mod_unique _ _ 1); lia).
      replace (i + k - 64 + (64 - k)) with i by lia. by rewrite (Z.testbit_neg_r _ (i + k - 64 - k)) by lia. }
  by rewrite (Hbit x Hx), (Hbit y Hy), E.
Qed.

(** [x ^ (x << k)] determines [x], bit by bit from below. *)
Lemma xor_shl_inj x y k :
  word x → word y → 0 < k →
  Z.lxor x (shl64 x k) = Z.lxor y (shl64 y k) → x = y.
Proof.
  intros Hx Hy Hk E. apply Z.bits_inj'. intros i Hi.
  destruct (Z.lt_ge_cases i 64) as [Hlt|Hge]; [|by rewrite !word_bits].
  revert Hlt. pattern i. apply Zlt_0_ind; [|done]. clear i Hi. intros i IH Hi Hlt.
  pose proof (f_equal (λ z, Z.testbit z i) E) as Eb. cbv beta in Eb.
  rewrite !Z.lxor_spec, !testbit_shl64 in Eb by lia. rewrite (proj2 (Z.ltb_lt _ _)) in Eb by lia. simpl in Eb.
  assert (Z.testbit x (i - k) = Z.testbit y (i - k)) as Ek.
  { destruct (Z.lt_ge_cases (i - k) 0); [by rewrite !Z.testbit_neg_r by lia|]. apply IH; lia. }
  rewrite Ek in Eb. destruct (Z.testbit x i), (Z.testbit y i), (Z.testbit y (i - k)); simpl in Eb; congruence.
Qed.

Lemma lxor_cancel a b c : Z.lxor a c = Z.lxor b c → a = b.
Proof.
  intros E. assert (Z.lxor (Z.lxor a c) c = Z.lxor (Z.lxor b c) c) as E' by congruence.
  by rewrite !Z.lxor_assoc, Z.lxor_nilpotent, !Z.lxor_0_r in E'.
Qed.

Lemma xoshiro_inj st st' :
  rand_wf st → rand_wf st' → (xoshiro256ss st).2 = (xoshiro256ss st').2 → st = st'.
Proof.
  intros (H0 & H1 & H2 & H3) (H0' & H1' & H2' & H3') E.
  destruct st as [a0 a1 a2 a3], st' as [b0 b1 b2 b3]. simpl in *. injection E as E0 E1 E2 E3.
  apply rotl_inj in E3; [|auto using word_lxor..|lia].
  assert (a0 = b0) as -> by (rewrite E3 in E0; by apply lxor_cancel in E0).
  assert (a1 = b1) as ->.
  { apply (xor_shl_inj a1 b1 17); [done|done|lia|].
    pose proof (f_equal2 Z.lxor E1 E2) as E. revert E.
    generalize (shl64 a1 17) (shl64 b1 17). intros u v E.
    assert (∀ x y z w, Z.lxor (Z.lxor x (Z.lxor y z)) (Z.lxor (Z.lxor y z) w) = Z.lxor x w) as Hc.
    { intros x y z w. rewrite <- (Z.lxor_assoc _ (Z.lxor y z) w), (Z.lxor_assoc x).
      by rewrite Z.lxor_nilpotent, Z.lxor_0_r. }
    by rewrite !Hc in E. }
  apply lxor_cancel in E3 as ->. apply lxor_cancel, lxor_cancel in E2 as ->. done.
Qed.

Lemma seeded_spec st : seeded st = false ↔ st = mk_rand 0 0 0 0.
Proof.
  destruct st as [a b c d]. unfold seeded. simpl. rewrite negb_false_iff, Z.eqb_eq, !Z.lor_eq_0_iff.
  split; [intros [[[-> ->] ->] ->]; done|]. intros H. by simplify_eq.
Qed.

Lemma xoshiro_seeded st : rand_wf st → seeded st = true → seeded (xoshiro256ss st).2 = true.
Proof.
  intros Hwf Hs. destruct (seeded (xoshiro256ss st).2) eqn:E; [done|]. apply seeded_spec in E.
  assert (st = mk_rand 0 0 0 0) as ->; [|done].
  apply xoshiro_inj; [done|unfold rand_wf, word; simpl; lia|]. by rewrite E.
Qed.

Lemma warm_up_seeded n st :
  rand_wf st → seeded st = true → rand_wf (warm_up n st) ∧ seeded (warm_up n st) = true.
Proof.
  revert st. induction n as [|n IH]; intros st Hw Hs; [done|]. cbn [warm_up].
  apply IH; [by apply xoshiro_wf|by apply xoshiro_seeded].
Qed.

Lemma word_mix acc : word acc → word (mix acc).
Proof. intros H. unfold mix. apply word_lxor; [|apply word_shiftr; [|lia]]; apply word_u64. Qed.

Lemma word_absorb buf : word (absorb buf).
Proof.
  unfold absorb. assert (∀ z, word z → word (foldl (λ acc b, u64 (acc * GOLDEN + b)) z buf)) as H.
  { induction buf as [|b buf IH]; intros z Hz; simpl; [done|]. apply IH, word_u64. }
  apply H. unfold word, GOLDEN. lia.
Qed.

(** Seeding never produces the all-zero state, which would count as unseeded:
    if the first word is zero then so is the accumulator, and the second word
    is the golden-ratio constant. *)
Lemma seed_from_bytes_ok buf : rand_wf (seed_from_bytes buf) ∧ seeded (seed_from_bytes buf) = true.
Proof.
  split; [split_and!; apply word_u64|].
  destruct (seeded (seed_from_bytes buf)) eqn:E; [done|]. apply seeded_spec in E.
  unfold seed_from_bytes in E. injection E as E0 E1 _ _.
  pose proof (word_absorb buf) as Hw.
  rewrite Z.mul_0_l, Z.add_0_r, u64_small in E0 by (apply word_mix, Hw).
  rewrite E0 in E1. vm_compute in E1. discriminate.
Qed.

Lemma po_rand_seed_ok seed : rand_wf (po_rand_seed seed) ∧ seeded (po_rand_seed seed) = true.
Proof. apply warm_up_seeded; apply seed_from_bytes_ok. Qed.

Lemma seed_auto_ok env : rand_wf (po_rand_seed_auto env) ∧ seeded (po_rand_seed_auto env) = true.
Proof.
  unfold po_rand_seed_auto. destruct (urandom env); [|apply po_rand_seed_ok].
  apply warm_up_seeded; apply seed_from_bytes_ok.
Qed.

Lemma rand_u64_ok env st :
  rand_wf st → word (po_rand_u64 env st).1 ∧ rand_wf (po_rand_u64 env st).2 ∧ seeded (po_rand_u64 env st).2 = true.
Proof.
  intros Hw. unfold po_rand_u64. destruct (seeded st) eqn:E.
  - destruct (xoshiro_wf _ Hw). split_and!; [done|done|by apply xoshiro_seeded].
  - destruct (seed_auto_ok env) as [H1 H2]. destruct (xoshiro_wf _ H1).
    split_and!; [done|done|by apply xoshiro_seeded].
Qed.

Lemma range_spec env lo hi st :
  rand_wf st → lo <= hi → hi - lo < 2 ^ 63 - 1 → 
  ∃ x st', po_rand_range_i64 env lo hi st = Some (x, st') ∧ lo <= x <= hi ∧ rand_wf st'.
Proof.
  intros Hw Hle Hov. unfold po_rand_range_i64. rewrite (proj2 (Z.ltb_ge _ _) Hle).
  assert (in_i64 (hi - lo) = true ∧ in_i64 (hi - lo + 1) = true) as [-> ->].
  { unfold in_i64. rewrite !andb_true_iff, !Z.leb_le, !Z.ltb_lt. lia. }
  cbn [negb orb]. destruct (rand_u64_ok env st Hw) as (Hx & Hs & _).
  destruct (po_rand_u64 env st) as [x st']. simpl in *. rewrite u64_small by lia.
  rewrite (proj2 (Z.eqb_neq _ _)) by lia. eexists _, _. split; [done|].
  pose proof (Z.mod_pos_bound x (hi - lo + 1) ltac:(lia)). split; [lia|done].
Qed.

(** One exchange of two cells, and of two equally long blocks. *)
Lemma swap_middle {A} (l m r : list A) x y :
  swap (l ++ x :: m ++ y :: r) (length l + S (length m)) (length l) = Some (l ++ y :: m ++ x :: r).
Proof.
  rewrite (swap_spec _ _ _ y x).
  - rewrite insert_app_r_alt by lia. replace (length l - length l)%nat with 0%nat by lia. cbn [insert list_insert].
    rewrite insert_app_r. simpl. f_equal. f_equal. f_equal.
    rewrite insert_app_r_alt by lia. by rewrite Nat.sub_diag.
  - rewrite lookup_app_r by lia. replace (length l + S (length m) - length l)%nat with (S (length m)) by lia.
    simpl. apply list_lookup_middle. done.
  - apply list_lookup_middle. done.
Qed.

Lemma swap_elems_blocks (x : list Z) : ∀ l m r y, length y = length x →
  swap_elems (l ++ x ++ m ++ y ++ r) (length l + length x + length m) (length l) (length x) =
  Some (l ++ y ++ m ++ x ++ r).
Proof.
  induction x as [|a x IH]; intros l m r [|b y] Hlen; simpl in Hlen; try done.
  cbn [swap_elems length].
  replace (length l + S (length x) + length m)%nat with (length l + S (length (x ++ m)))%nat
    by (rewrite length_app; lia).
  pose proof (swap_middle l (x ++ m) (y ++ r) a b) as E. rewrite <- app_assoc in E. cbn [app].
  rewrite E. cbn [mbind option_bind].
  specialize (IH (l ++ [b]) (m ++ [a]) r y ltac:(lia)).
  rewrite !length_app in IH. rewrite !length_app. simpl in IH.
  replace (S (length l + S (length x + length m))) with (length l + 1 + length x + (length m + 1))%nat by lia.
  replace (S (length l)) with (length l + 1)%nat by lia.
  rewrite <- !app_assoc in IH |- *. simpl in IH |- *. rewrite <- ?app_assoc in IH. simpl in IH. exact IH.
Qed.

Lemma length_concat_uniform {A} (e : nat) (bl : list (list A)) :
  Forall (λ b, length b = e) bl → length (concat bl) = (length bl * e)%nat.
Proof.
  induction 1 as [|b bl Hb _ IH]; simpl; [done|]. rewrite length_app, IH, Hb. lia.
Qed.

(** Exchanging elements [j < i] of an array of equal blocks. *)
Lemma swap_elems_spec e (bl : list (list Z)) i j :
  Forall (λ b, length b = e) bl → (j < i < length bl)%nat →
  ∃ bl', swap_elems (concat bl) (i * e) (j * e) e = Some (concat bl') ∧ bl' ≡ₚ bl.
Proof.
  intros Hu [Hj Hi].
  destruct (lookup_lt_is_Some_2 bl j ltac:(lia)) as [x Hx].
  destruct (lookup_lt_is_Some_2 bl i ltac:(lia)) as [y Hy].
  set (l := take j bl). set (m := take (i - j - 1) (drop (S j) bl)). set (r := drop (S i) bl).
  assert (bl = l ++ x :: m ++ y :: r) as E.
  { rewrite <- (take_drop_middle bl j x Hx) at 1. unfold l. do 2 f_equal.
    rewrite <- (take_drop_middle (drop (S j) bl) (i - j - 1) y).
    - unfold m, r. do 2 f_equal. rewrite drop_drop. do 2 f_equal. lia.
    - rewrite lookup_drop. by replace (S j + (i - j - 1))%nat with i by lia. }
  assert (length l = j) as Hl by (unfold l; rewrite length_take; lia).
  assert (length m = i - j - 1)%nat as Hm by (unfold m; rewrite length_take, length_drop; lia).
  clearbody l m r. rewrite E in Hu.
  apply Forall_app in Hu as [Hul Hu]. apply Forall_cons_1 in Hu as [Hux Hu].
  apply Forall_app in Hu as [Hum Hu]. apply Forall_cons_1 in Hu as [Huy Hur].
  pose proof (length_concat_uniform _ _ Hul) as El. pose proof (length_concat_uniform _ _ Hum) as Em.
  exists (l ++ y :: m ++ x :: r). split.
  - rewrite E, !concat_app. simpl. rewrite !concat_app. simpl.
    pose proof (swap_elems_blocks x (concat l) (concat m) (concat r) y ltac:(lia)) as Hs.
    rewrite El, Em, Hux, Hl, Hm in Hs.
    replace (i * e)%nat with (j * e + e + (i - j - 1) * e)%nat; [exact Hs|].
    replace i with (j + 1 + (i - j - 1))%nat at 2 by lia. lia.
  - rewrite E. apply Permutation_app_head. rewrite <- !Permutation_middle. apply perm_swap.
Qed.

Lemma shuffle_loop_spec env e i : ∀ bl st,
  rand_wf st → Forall (λ b, length b = e) bl → (i < length bl)%nat → Z.of_nat i < 2 ^ 63 - 1 →
  ∃ bl' st', shuffle_loop env e i (concat bl) st = Some (concat bl', st') ∧ bl' ≡ₚ bl ∧ rand_wf st'.
Proof.
  induction i as [|i IH]; intros bl st Hw Hu Hi Hb; [by eauto|]. cbn [shuffle_loop].
  destruct (range_spec env 0 (Z.of_nat (S i)) st Hw) as (x & st1 & E & Hx & Hw1); [lia|lia|].
  rewrite E. cbn [mbind option_bind fst snd].
  destruct (Nat.eqb_spec (Z.to_nat x) (S i)) as [_|Hne]; [apply IH; auto; lia|].
  destruct (swap_elems_spec e bl (S i) (Z.to_nat x) Hu) as (bl1 & E1 & Hp1); [lia|].
  rewrite E1. cbn [mbind option_bind].
  destruct (IH bl1 st1 Hw1) as (bl' & st' & E' & Hp' & Hw'); [by rewrite Hp1|by rewrite Hp1; lia|lia|].
  exists bl', st'. split_and!; [done|by rewrite Hp', Hp1|done].
Qed.

(** ** Properties *)

(** The shuffle permutes whole elements: on an array of [n] elements of
    [elem_size] bytes each, for every generator state and seed source, the
    call stays in bounds, ends, and leaves the same elements in some order. *)
Theorem shuffle_permutes (env : seed_env) (e : nat) (bl : list (list Z)) (st : rand_state) :
  rand_wf st → Forall (λ b, length b = e) bl → Z.of_nat (length bl) < 2 ^ 63 →
  ∃ bl' st', po_rand_shuffle env (concat bl) (length bl) e st = Some (concat bl', st') ∧ bl' ≡ₚ bl.
Proof.
  intros Hw Hu Hb. unfold po_rand_shuffle.
  destruct (Nat.eqb_spec e 0) as [|He]; simpl; [by eauto|].
  destruct (Nat.ltb_spec (length bl) 2); [by eauto|].
  destruct (shuffle_loop_spec env e (length bl - 1) bl st Hw Hu) as (bl' & st' & E & Hp & _); [lia|lia|eauto].
Qed.

Definition env0 : seed_env := mk_seed_env None 0 0 0 0.

Lemma shuffle_permutes_witness :
  ∃ bl' st', po_rand_shuffle env0 [1; 2; 3; 4; 5; 6] 3 2 (po_rand_seed 42) = Some (concat bl', st') ∧
    bl' ≡ₚ [[1; 2]; [3; 4]; [5; 6]].
Proof.
  apply (shuffle_permutes env0 2 [[1; 2]; [3; 4]; [5; 6]] (po_rand_seed 42));
    [apply po_rand_seed_ok|by repeat constructor|simpl; lia].
Defined.

(** Once seeded, always seeded: the generator step is injective on
    256-bit states, no seed produces the all-zero state that means unseeded,
    and therefore a stream started with [po_rand_seed] never falls back to the
    automatic seeding: its numbers depend on the seed alone. *)
Theorem rand_stream_deterministic (env env' : seed_env) (seed : Z) (n : nat) :
  let next e := (λ st, (po_rand_u64 e st).2) in
  Nat.iter n (next env) (po_rand_seed seed) = Nat.iter n (next env') (po_rand_seed seed) ∧
  (po_rand_u64 env (Nat.iter n (next env) (po_rand_seed seed))).1 =
    (po_rand_u64 env' (Nat.iter n (next env') (po_rand_seed seed))).1.
Proof.
  cbv zeta.
  assert (∀ e, Nat.iter n (λ st, (po_rand_u64 e st).2) (po_rand_seed seed) =
               Nat.iter n (λ st, (xoshiro256ss st).2) (po_rand_seed seed) ∧
               rand_wf (Nat.iter n (λ st, (xoshiro256ss st).2) (po_rand_seed seed)) ∧
               seeded (Nat.iter n (λ st, (xoshiro256ss st).2) (po_rand_seed seed)) = true) as H.
  { intros e. induction n as [|n (IH & Hw & Hs)]; [split; [done|apply po_rand_seed_ok]|].
    repeat change (Nat.iter (S n) ?f ?x) with (f (Nat.iter n f x)). cbv beta. rewrite IH. unfold po_rand_u64. rewrite Hs. split_and!; [done|by apply xoshiro_wf|by apply xoshiro_seeded]. }
  destruct (H env) as (-> & Hw & Hs), (H env') as (-> & _). split; [done|].
  unfold po_rand_u64. by rewrite Hs.
Qed.

(** [po_rand_range_i64] answers within its bounds, in either order of the
    arguments, whenever the width of the interval is below [2 ^ 63 - 1]; for
    wider intervals the width overflows, which is undefined. *)
Theorem rand_range_bounds (env : seed_env) (min max : Z) (st : rand_state) :
  rand_wf st → - 2 ^ 63 <= min < 2 ^ 63 → - 2 ^ 63 <= max < 2 ^ 63 →
  if Z.abs (max - min) <? 2 ^ 63 - 1
  then ∃ x st', po_rand_range_i64 env min max st = Some (x, st') ∧
         Z.min min max <= x <= Z.max min max
  else po_rand_range_i64 env min max st = None.
Proof.
  intros Hw Hmin Hmax.
  assert (po_rand_range_i64 env min max st = po_rand_range_i64 env (Z.min min max) (Z.max min max) st) as ->.
  { unfold po_rand_range_i64. rewrite (proj2 (Z.ltb_ge (Z.max min max) _)) by lia.
    case (Z.ltb_spec max min); intros H.
    - by rewrite Z.min_r, Z.max_l by lia.
    - by rewrite Z.min_l, Z.max_r by lia. }
  case (Z.ltb_spec (Z.abs (max - min)) (2 ^ 63 - 1)); intros Hd.
  - destruct (range_spec env (Z.min min max) (Z.max min max) st Hw) as (x & st' & E & Hx & _); [lia|lia|eauto].
  - unfold po_rand_range_i64. rewrite (proj2 (Z.ltb_ge (Z.max min max) _)) by lia.
    assert (in_i64 (Z.max min max - Z.min min max + 1) = false) as ->; [|by rewrite orb_true_r].
    unfold in_i64. apply andb_false_iff. right. apply Z.ltb_ge. lia.
Qed.

Lemma rand_range_bounds_witness :
  ∃ x st', po_rand_range_i64 env0 6 1 (po_rand_seed 7) = Some (x, st') ∧ 1 <= x <= 6.
Proof. apply (rand_range_bounds env0 6 1 (po_rand_seed 7)); [apply po_rand_seed_ok|lia|lia]. Defined.
