(* ===== verification/Broker.v ===== *)
(** * Work broker ([app/src/core/simulation/work_broker])

    Request handling over the priority queues, one per service: joining a
    queue issues a ticket and queues an item, asking for work pops one.  An
    item is the address of its allocation with the contents it keeps until it
    is popped.  A request is what the receive call delivered: the type byte of
    the header and the bytes of the receive buffer, from which the handler
    copies the request whatever the announced length.  The handler's calls to
    the network layer are recorded as events. *)

From Stdlib Require Import ZArith Lia.
From stdpp Require Import base list numbers sets.
From S2P Require Import Prelude Vector Hashtable HashtableGrowth PriorityQueue Protocol.

Local Open Scope Z_scope.

Definition SIM_MAX_SERVICE_TYPES : Z := 4.
Definition MSG_TYPE_JOIN_QUEUE : Z := 0x30.
Definition MSG_TYPE_JOIN_ACK : Z := 0x31.
Definition MSG_TYPE_GET_WORK : Z := 0x40.
Definition MSG_TYPE_WORK_ITEM : Z := 0x41.

(** [struct timespec] *)
Record timespec : Type := mk_timespec { ts_sec : Z; ts_nsec : Z }.

Record broker_item_t : Type := mk_item {
  item_addr : Z;
  ticket_number : Z;
  is_vip : Z;
  requester_pid : Z;
  arrival_time : timespec
}.

Global Instance timespec_eq_dec : EqDecision timespec.
Proof. solve_decision. Defined.
Global Instance broker_item_eq_dec : EqDecision broker_item_t.
Proof. solve_decision. Defined.

Definition null_item : broker_item_t := mk_item 0 0 0 0 (mk_timespec 0 0).

Definition item_hash (it : broker_item_t) : Z := item_addr it.

(** The differences are converted to [int]. *)
Definition item_compare (ia ib : broker_item_t) : Z :=
  if negb (is_vip ia =? is_vip ib) then i32 (is_vip ib - is_vip ia)
  else if negb (ts_sec (arrival_time ia) =? ts_sec (arrival_time ib))
  then i32 (ts_sec (arrival_time ia) - ts_sec (arrival_time ib))
  else i32 (ts_nsec (arrival_time ia) - ts_nsec (arrival_time ib)).

(** Queues and the ticket sequence of the shared memory. *)
Record broker_ctx_t : Type := mk_ctx {
  queues : list (po_priority_queue broker_item_t);
  ticket_seq : Z
}.

Record msg_join_queue_t : Type := mk_join { jq_pid : Z; jq_service : Z; jq_vip : Z }.
Record msg_get_work_t : Type := mk_get_work { gw_pid : Z; gw_service : Z }.

(** [memcpy(&req, payload, sizeof(req))]: [int] fields, unsigned enumeration. *)
Definition field (buf : list Z) (off : nat) : Z := of_le (take 4 (drop off buf)).
Definition read_join (buf : list Z) : msg_join_queue_t :=
  mk_join (i32 (field buf 0)) (field buf 4) (i32 (field buf 8)).
Definition read_get_work (buf : list Z) : msg_get_work_t :=
  mk_get_work (i32 (field buf 0)) (field buf 4).

(** [msg_join_ack_t] and [msg_work_item_t] as sent *)
Definition join_ack_bytes (ticket wait_ms : Z) : list Z := le_bytes 4 ticket ++ le_bytes 4 wait_ms.
Definition work_item_bytes (ticket vip : Z) : list Z := le_bytes 4 ticket ++ le_bytes 4 (u32 vip).

(** Calls of the handler to the layers below. *)
Inductive event : Type :=
| ReleaseRx
| Send (msg_type : Z) (payload : list Z)
| CloseClient.

Global Instance event_eq_dec : EqDecision event.
Proof. solve_decision. Defined.

Abbreviation queue := (po_priority_queue broker_item_t).
Definition pq_push := po_priority_queue_push null_item null_item item_compare item_hash.
Definition pq_pop := po_priority_queue_pop null_item null_item item_compare item_hash.

Definition set_queue (ctx : broker_ctx_t) (i : Z) (q : queue) : broker_ctx_t :=
  mk_ctx (<[Z.to_nat i := q]> (queues ctx)) (ticket_seq ctx).

(** [addr]: what [malloc] returns for the item when it succeeds; [now]: the
    reading of the monotonic clock. *)
Definition handle_join (ctx : broker_ctx_t) (req : msg_join_queue_t) (addr : Z) (now : timespec) :
    alloc (option (broker_ctx_t * list event)) :=
  if SIM_MAX_SERVICE_TYPES <=? jq_service req then mret (Some (ctx, [ReleaseRx; CloseClient]))
  else
    let ticket := ticket_seq ctx in
    let ctx := mk_ctx (queues ctx) (u32 (ticket_seq ctx + 1)) in
    let done := [ReleaseRx; Send MSG_TYPE_JOIN_ACK (join_ack_bytes ticket 0); CloseClient] in
    ok ← malloc;
    if ok : bool then
      let item := mk_item addr ticket (jq_vip req) (jq_pid req) now in
      match queues ctx !! Z.to_nat (jq_service req) with
      | None => mret None
      | Some q => r ← pq_push q item; mret (Some (set_queue ctx (jq_service req) r.2, done))
      end
    else mret (Some (ctx, done)).

Definition handle_get_work (ctx : broker_ctx_t) (req : msg_get_work_t) :
    alloc (option (broker_ctx_t * list event)) :=
  if SIM_MAX_SERVICE_TYPES <=? gw_service req then mret (Some (ctx, [ReleaseRx; CloseClient]))
  else
    match queues ctx !! Z.to_nat (gw_service req) with
    | None => mret None
    | Some q =>
        r ← pq_pop q;
        let '(item, q) := r in
        let resp := if decide (item = null_item) then work_item_bytes 0 0
                    else work_item_bytes (ticket_number item) (is_vip item) in
        mret (Some (set_queue ctx (gw_service req) q, [ReleaseRx; Send MSG_TYPE_WORK_ITEM resp; CloseClient]))
    end.

(** [received]: type byte of the header and buffer of a successful receive. *)
Definition broker_handler_process_request (ctx : broker_ctx_t) (received : option (Z * list Z))
    (addr : Z) (now : timespec) : alloc (option (broker_ctx_t * list event)) :=
  match received with
  | None => mret (Some (ctx, [CloseClient]))
  | Some (msg_type, buf) =>
      if msg_type =? MSG_TYPE_JOIN_QUEUE then handle_join ctx (read_join buf) addr now
      else if msg_type =? MSG_TYPE_GET_WORK then handle_get_work ctx (read_get_work buf)
      else mret (Some (ctx, [ReleaseRx; CloseClient]))
  end.

(** [for (i = 0; i < SIM_MAX_SERVICE_TYPES; i++) queues[i] = create(...)] of
    [broker_init]; a queue that cannot be created is left null. *)
Fixpoint create_queues (n : nat) : alloc (list (option queue)) :=
  match n with
  | O => mret []
  | S n => q ← po_priority_queue_create null_item; qs ← create_queues n; mret (q :: qs)
  end.

(** ** Specification *)

(** Service order: VIPs before the others, then by arrival. *)
Definition arrived_before (a b : timespec) : Prop :=
  ts_sec a < ts_sec b ∨ ts_sec a = ts_sec b ∧ ts_nsec a <= ts_nsec b.
Definition served_before (a b : broker_item_t) : Prop :=
  is_vip b < is_vip a ∨ is_vip a = is_vip b ∧ arrived_before (arrival_time a) (arrival_time b).

(** Items a run of less than [2 ^ 31] seconds creates: a VIP flag, and a clock
    reading no earlier than [start]. *)
Record item_ok (start : Z) (it : broker_item_t) : Prop := mk_item_ok {
  ok_addr : item_addr it ≠ 0;
  ok_vip : is_vip it = 0 ∨ is_vip it = 1;
  ok_sec : start <= ts_sec (arrival_time it) < start + 2 ^ 31;
  ok_nsec : 0 <= ts_nsec (arrival_time it) < 1000000000
}.

(** The items in use: well formed, and no two of them arrive in the same class
    at the same instant. *)
Class Items (start : Z) (D : broker_item_t → Prop) : Prop := {
  items_ok : ∀ it, D it → item_ok start it;
  items_distinct : ∀ a b, D a → D b → is_vip a = is_vip b → arrival_time a = arrival_time b → a = b
}.

Definition ctx_wf (D : broker_item_t → Prop) (ctx : broker_ctx_t) : Prop :=
  Z.of_nat (length (queues ctx)) = SIM_MAX_SERVICE_TYPES ∧
  Forall (λ q, pq_wf item_compare item_hash D q ∧
               Z.of_nat (length (pq_elements q)) <= MAX_ENTRIES) (queues ctx).

(** ** Lemmas *)

Lemma item_compare_exact start a b :
  item_ok start a → item_ok start b →
  item_compare a b =
    if negb (is_vip a =? is_vip b) then is_vip b - is_vip a
    else if negb (ts_sec (arrival_time a) =? ts_sec (arrival_time b))
    then ts_sec (arrival_time a) - ts_sec (arrival_time b)
    else ts_nsec (arrival_time a) - ts_nsec (arrival_time b).
Proof.
  intros [_ Va Sa Na] [_ Vb Sb Nb]. unfold item_compare, i32.
  rewrite !signed_small; [done|lia|change (2 ^ (32 - 1)) with (2 ^ 31); lia..].
Qed.

(** Reduce comparisons of items to linear arithmetic on their keys. *)
Ltac item_cases :=
  repeat match goal with
    | H1 : item_ok ?s ?a, H2 : item_ok ?s ?b |- context [item_compare ?a ?b] =>
        rewrite (item_compare_exact s a b H1 H2)
    | H1 : item_ok ?s ?a, H2 : item_ok ?s ?b, H : context [item_compare ?a ?b] |- _ =>
        rewrite (item_compare_exact s a b H1 H2) in H
    end;
  repeat match goal with
    | H : context [?x =? ?y] |- _ => destruct (Z.eqb_spec x y); simpl negb in H; cbv iota in H
    | |- context [?x =? ?y] => destruct (Z.eqb_spec x y); simpl negb; cbv iota
    end.

Lemma item_compare_le start a b :
  item_ok start a → item_ok start b → item_compare a b <= 0 ↔ served_before a b.
Proof.
  intros Ha Hb. unfold served_before, arrived_before. item_cases; lia.
Qed.

Lemma item_compare_zero start a b :
  item_ok start a → item_ok start b → item_compare a b = 0 →
  is_vip a = is_vip b ∧ arrival_time a = arrival_time b.
Proof.
  intros Ha Hb H. destruct (arrival_time a) as [sa na] eqn:Ea, (arrival_time b) as [sb nb] eqn:Eb.
  item_cases; rewrite ?Ea, ?Eb in *; simpl in *; try lia. split; [done|]. f_equal; lia.
Qed.

Section broker.
Context (start : Z) (D : broker_item_t → Prop) `{HI : !Items start D}.

Lemma D_ok it : D it → item_ok start it.
Proof using HI. apply items_ok. Qed.

#[local] Instance item_order : TotalOrderOn D item_compare.
Proof using HI.
  constructor.
  - intros a Ha. apply D_ok in Ha. rewrite (item_compare_exact start a a Ha Ha). item_cases; lia.
  - intros a b Ha Hb. apply D_ok in Ha, Hb. item_cases; lia.
  - intros a b c Ha Hb Hc. apply D_ok in Ha, Hb, Hc. intros H1 H2.
    rewrite (item_compare_le start) in H1, H2 |- * by done. unfold served_before, arrived_before in *. lia.
Qed.

#[local] Instance item_contract : KeyContract D item_compare item_hash.
Proof using HI.
  assert (∀ a b, D a → D b → item_compare a b = 0 → a = b) as Heq.
  { intros a b Ha Hb H. destruct (item_compare_zero start a b) as [? ?]; auto using D_ok.
    by apply items_distinct. }
  constructor.
  - intros a Ha. by apply (cmp_refl (D := D)).
  - intros a b Ha Hb H. pose proof (Heq a b Ha Hb H). by subst.
  - intros a b c Ha Hb Hc H1 H2. pose proof (Heq a b Ha Hb H1). by subst.
  - intros a b Ha Hb H. by rewrite (Heq a b Ha Hb H).
Qed.

Lemma item_not_null it : D it → it ≠ null_item.
Proof using HI. intros Hd ->. by destruct (D_ok _ Hd) as [? _ _ _]. Qed.

Lemma set_queue_wf ctx i q :
  ctx_wf D ctx → pq_wf item_compare item_hash D q → Z.of_nat (length (pq_elements q)) <= MAX_ENTRIES →
  ctx_wf D (set_queue ctx i q).
Proof using Type.
  intros [Hl Hf] Hq Hb. split; [simpl; by rewrite length_insert|]. simpl. by apply Forall_insert.
Qed.

(** A join that is granted: the acknowledged ticket is queued. *)
Lemma handle_join_spec ctx req addr now q :
  ctx_wf D ctx → 0 <= jq_service req < SIM_MAX_SERVICE_TYPES →
  queues ctx !! Z.to_nat (jq_service req) = Some q →
  Z.of_nat (length (pq_elements q)) < MAX_ENTRIES →
  let item := mk_item addr (ticket_seq ctx) (jq_vip req) (jq_pid req) now in
  D item → (∀ x, x ∈ pq_elements q → x ≠ item) →
  succeeds (handle_join ctx req addr now) (λ r,
    ∃ q', r = Some (set_queue (mk_ctx (queues ctx) (u32 (ticket_seq ctx + 1))) (jq_service req) q',
      [ReleaseRx; Send MSG_TYPE_JOIN_ACK (join_ack_bytes (ticket_seq ctx) 0); CloseClient]) ∧
    pq_wf item_compare item_hash D q' ∧ pq_elements q' ≡ₚ item :: pq_elements q).
Proof using HI.
  intros Hwf Hs Eq Hlen item Hd Hnew. unfold handle_join. rewrite (proj2 (Z.leb_gt _ _)) by lia.
  apply succeeds_bind, succeeds_malloc. cbn [queues]. rewrite Eq.
  destruct Hwf as [_ Hf]. destruct (Forall_lookup_1 _ _ _ _ Hf Eq) as [Hq _].
  apply succeeds_bind. eapply succeeds_mono.
  { apply (push_lemma null_item null_item D item_compare item_hash q item Hq Hlen Hd).
    by apply item_not_null. }
  intros [rc q'] (Hq' & Hcase). apply succeeds_ret. simpl in *. exists q'. split; [done|].
  destruct Hcase as [(_ & Hp & _)|(_ & _ & i & Hi & x & Hx & Hz)]; [done|exfalso].
  assert (x ∈ pq_elements q) as Hxin by (by eapply list_elem_of_lookup_2).
  apply (Hnew x Hxin). destruct Hq as [Hr _].
  assert (D x) as Hdx by (eapply Forall_forall; [exact (repr_dom _ _ _ _ _ Hr)|done]).
  destruct (item_compare_zero start x item) as [? ?]; auto using D_ok. by apply items_distinct.
Qed.

Lemma handle_get_work_spec ctx req q :
  ctx_wf D ctx → 0 <= gw_service req < SIM_MAX_SERVICE_TYPES →
  queues ctx !! Z.to_nat (gw_service req) = Some q →
  succeeds (handle_get_work ctx req) (λ r,
    ∃ q' resp, r = Some (set_queue ctx (gw_service req) q',
                         [ReleaseRx; Send MSG_TYPE_WORK_ITEM resp; CloseClient]) ∧
      pq_wf item_compare item_hash D q' ∧
      (pq_elements q = [] ∧ q' = q ∧ resp = work_item_bytes 0 0 ∨
       ∃ x, pq_elements q ≡ₚ x :: pq_elements q' ∧ resp = work_item_bytes (ticket_number x) (is_vip x) ∧
            ∀ y, y ∈ pq_elements q → served_before x y)).
Proof using HI.
  intros Hwf Hs Eq. unfold handle_get_work. rewrite (proj2 (Z.leb_gt _ _)) by lia. rewrite Eq.
  destruct Hwf as [_ Hf]. destruct (Forall_lookup_1 _ _ _ _ Hf Eq) as [Hq Hlen].
  apply succeeds_bind. eapply succeeds_mono.
  { apply (pop_lemma null_item null_item D item_compare item_hash q Hq Hlen). }
  intros [x q'] (Hq' & Hcase). apply succeeds_ret. simpl in *. eexists _, _. split; [done|].
  split; [done|]. destruct Hcase as [(E & Ex)|(Hp & Hmin)].
  - simplify_eq. left. by rewrite decide_True by done.
  - right. exists x. destruct Hq as [Hr _].
    assert (∀ y, y ∈ pq_elements q → D y) as HD.
    { intros y. eapply Forall_forall. exact (repr_dom _ _ _ _ _ Hr). }
    assert (D x) as Hdx by (apply HD; rewrite Hp; left).
    rewrite decide_False by (by apply item_not_null). split_and!; [done|done|].
    intros y Hy. apply (item_compare_le start); auto using D_ok.
Qed.
End broker.

(** ** Properties *)

(** C22. A worker gets the customer whose turn it is: for a request of a valid
    service the broker answers with a queued customer before whom nobody else
    of that service comes (VIPs first, then by arrival) and takes exactly that
    one out of the queue; an empty queue is answered with ticket 0.  Tickets
    and the other queues stay, and the queues stay well formed. *)
Theorem broker_get_work_in_order (start : Z) (D : broker_item_t → Prop) (ctx : broker_ctx_t)
    (buf : list Z) (addr : Z) (now : timespec) (q : queue) :
  Items start D → ctx_wf D ctx →
  let s := gw_service (read_get_work buf) in
  0 <= s < SIM_MAX_SERVICE_TYPES → queues ctx !! Z.to_nat s = Some q →
  succeeds (broker_handler_process_request ctx (Some (MSG_TYPE_GET_WORK, buf)) addr now) (λ r,
    ∃ q' resp, r = Some (set_queue ctx s q', [ReleaseRx; Send MSG_TYPE_WORK_ITEM resp; CloseClient]) ∧
      ctx_wf D (set_queue ctx s q') ∧
      (pq_elements q = [] ∧ q' = q ∧ resp = work_item_bytes 0 0 ∨
       ∃ x, pq_elements q ≡ₚ x :: pq_elements q' ∧ resp = work_item_bytes (ticket_number x) (is_vip x) ∧
            ∀ y, y ∈ pq_elements q → served_before x y)).
Proof.
  intros HI Hwf s Hs Eq. eapply succeeds_mono; [by apply (handle_get_work_spec start D ctx _ q)|].
  intros r (q' & resp & -> & Hq' & Hc). exists q', resp. split; [done|]. split; [|done].
  apply set_queue_wf; [done|done|]. destruct Hwf as [_ Hf].
  destruct (Forall_lookup_1 _ _ _ _ Hf Eq) as [_ Hl].
  destruct Hc as [(_ & -> & _)|(x & Hp & _)]; [done|]. apply Permutation_length in Hp. simpl in Hp. lia.
Qed.

(** C23. An acknowledged customer is queued: joining a valid service issues the
    next ticket, sends it back, and adds exactly one item with that ticket to
    that service's queue, while allocations succeed, the queue holds fewer
    than [MAX_ENTRIES] items and no queued item has the same class and time. *)
Theorem broker_join_queues_ticket (start : Z) (D : broker_item_t → Prop) (ctx : broker_ctx_t)
    (buf : list Z) (addr : Z) (now : timespec) (q : queue) :
  Items start D → ctx_wf D ctx →
  let req := read_join buf in
  let item := mk_item addr (ticket_seq ctx) (jq_vip req) (jq_pid req) now in
  0 <= jq_service req < SIM_MAX_SERVICE_TYPES → queues ctx !! Z.to_nat (jq_service req) = Some q →
  Z.of_nat (length (pq_elements q)) < MAX_ENTRIES → D item → item ∉ pq_elements q →
  succeeds (broker_handler_process_request ctx (Some (MSG_TYPE_JOIN_QUEUE, buf)) addr now) (λ r,
    ∃ ctx' q', r = Some (ctx',
        [ReleaseRx; Send MSG_TYPE_JOIN_ACK (join_ack_bytes (ticket_seq ctx) 0); CloseClient]) ∧
      ctx_wf D ctx' ∧ ticket_seq ctx' = u32 (ticket_seq ctx + 1) ∧
      queues ctx' = <[Z.to_nat (jq_service req) := q']> (queues ctx) ∧
      pq_elements q' ≡ₚ item :: pq_elements q).
Proof.
  intros HI Hwf req item Hs Eq Hlen Hd Hnew.
  eapply succeeds_mono; [apply (handle_join_spec start D ctx req addr now q Hwf Hs Eq Hlen Hd)|].
  { intros x Hx ->. done. }
  intros r (q' & -> & Hq' & Hp). eexists _, q'. split_and!; [done| |done|done|done].
  apply set_queue_wf; [done|done|]. apply Permutation_length in Hp. simpl in Hp. lia.
Qed.

(** A small broker: two customers with tickets 7 and 8 waiting for service 0,
    the later one a VIP. *)
Definition empty_pq : queue := mk_pq (mk_vector (replicate 16 null_item) 0 16) (mk_hashtable (replicate 17 []) 17 0).
Definition ctx0 (seq : Z) : broker_ctx_t := mk_ctx (replicate 4 empty_pq) seq.
Definition join_buf (service vip : Z) : list Z := le_bytes 4 1000 ++ le_bytes 4 service ++ le_bytes 4 vip.
Definition work_buf (service : Z) : list Z := le_bytes 4 2000 ++ le_bytes 4 service.
Definition run_request (ctx : broker_ctx_t) (ty : Z) (buf : list Z) (addr sec : Z) : broker_ctx_t * list event :=
  default (ctx, []) (broker_handler_process_request ctx (Some (ty, buf)) addr (mk_timespec sec 0) []).1.
Definition item7 : broker_item_t := mk_item 4096 7 0 1000 (mk_timespec 10 0).
Definition item8 : broker_item_t := mk_item 8192 8 1 1000 (mk_timespec 11 0).
Definition two_items (it : broker_item_t) : Prop := it = item7 ∨ it = item8.
Definition ctx7 : broker_ctx_t := (run_request (ctx0 7) MSG_TYPE_JOIN_QUEUE (join_buf 0 0) 4096 10).1.
Definition ctx8 : broker_ctx_t := (run_request ctx7 MSG_TYPE_JOIN_QUEUE (join_buf 0 1) 8192 11).1.

#[export] Instance two_items_ok : Items 0 two_items.
Proof.
  split.
  - intros it [-> | ->]; constructor; simpl; try lia; auto.
  - intros a b [-> | ->] [-> | ->] H1 H2; simpl in *; done.
Qed.

Lemma ctx0_wf seq : ctx_wf two_items (ctx0 seq).
Proof.
  split; [done|]. apply Forall_replicate.
  pose proof (item_order 0 two_items). pose proof (item_contract 0 two_items).
  destruct (pq_create_lemma (P := broker_item_t) null_item null_item two_items item_compare item_hash [] no_fail_nil)
    as [(pq & E & Hwf & He) _].
  vm_compute in E. injection E as <-. split; [exact Hwf|]. vm_compute. done.
Qed.

Lemma broker_join_queues_ticket_witness :
  ∃ q', queues ctx7 !! 0%nat = Some q' ∧ pq_elements q' ≡ₚ [item7] ∧ ctx_wf two_items ctx7.
Proof.
  destruct (broker_join_queues_ticket 0 two_items (ctx0 7) (join_buf 0 0) 4096 (mk_timespec 10 0) empty_pq
    two_items_ok (ctx0_wf 7)) with (m := @nil bool) as [(ctx' & q' & E & Hwf & _ & Eq & Hp) _].
  - vm_compute. split; congruence.
  - reflexivity.
  - vm_compute. reflexivity.
  - left. reflexivity.
  - intros H. vm_compute in H. by apply elem_of_nil in H.
  - constructor.
  - assert (ctx' = ctx7) as ->.
    { unfold ctx7, run_request. rewrite E. reflexivity. }
    exists q'. split; [|split; [exact Hp|exact Hwf]].
    rewrite Eq. reflexivity.
Defined.

Lemma ctx7_wf : ctx_wf two_items ctx7.
Proof.
  destruct (handle_join_spec 0 two_items (ctx0 7) (read_join (join_buf 0 0)) 4096 (mk_timespec 10 0) empty_pq
    (ctx0_wf 7) ltac:(vm_compute; split; congruence) eq_refl eq_refl) with (m := @nil bool)
    as [(q' & E & Hq & Hp) _].
  - by left.
  - intros x Hx. vm_compute in Hx. by apply elem_of_nil in Hx.
  - constructor.
  - assert (ctx7 = set_queue (mk_ctx (queues (ctx0 7)) 8) 0 q') as ->.
    { unfold ctx7, run_request. unfold broker_handler_process_request. simpl (MSG_TYPE_JOIN_QUEUE =? _).
      cbv iota. rewrite E. reflexivity. }
    apply set_queue_wf; [apply (ctx0_wf 8)|done|]. apply Permutation_length in Hp. rewrite Hp. vm_compute. done.
Qed.

Definition q7 : queue := default empty_pq (queues ctx7 !! 0%nat).

Lemma broker_get_work_in_order_witness :
  ∃ x, x ∈ pq_elements q7 ∧
    (run_request ctx7 MSG_TYPE_GET_WORK (work_buf 0) 0 20).2 =
      [ReleaseRx; Send MSG_TYPE_WORK_ITEM (work_item_bytes (ticket_number x) (is_vip x)); CloseClient].
Proof.
  destruct (broker_get_work_in_order 0 two_items ctx7 (work_buf 0) 0 (mk_timespec 20 0) q7
    two_items_ok ctx7_wf) with (m := @nil bool) as [(q' & resp & E & _ & Hc) _].
  - vm_compute. split; congruence.
  - vm_compute. reflexivity.
  - constructor.
  - destruct Hc as [(He & _)|(x & Hp & -> & _)].
    + vm_compute in He. discriminate He.
    + exists x. split; [rewrite Hp; left|]. unfold run_request. rewrite E. reflexivity.
Defined.

(** VIP first on the small broker. *)
Example broker_vip_overtakes :
  (run_request ctx8 MSG_TYPE_GET_WORK (work_buf 0) 0 20).2 =
    [ReleaseRx; Send MSG_TYPE_WORK_ITEM (work_item_bytes 8 1); CloseClient].
Proof. vm_compute. reflexivity. Qed.

(** C31. Every path of the handler gives the receive buffer back and closes the
    connection, each exactly once, and ends, whatever was received and
    whatever the allocator answers. *)
Theorem broker_handler_releases (ctx : broker_ctx_t) (received : option (Z * list Z)) (addr : Z)
    (now : timespec) :
  Z.of_nat (length (queues ctx)) = SIM_MAX_SERVICE_TYPES →
  (∀ ty buf, received = Some (ty, buf) → Forall is_byte buf) →
  always (broker_handler_process_request ctx received addr now) (λ r,
    ∃ ctx' ev, r = Some (ctx', ev) ∧ Z.of_nat (length (queues ctx')) = SIM_MAX_SERVICE_TYPES ∧
      length (filter (λ e, e = ReleaseRx) ev) = (if received then 1 else 0)%nat ∧
      last ev = Some CloseClient ∧ length (filter (λ e, e = CloseClient) ev) = 1%nat).
Proof.
  intros Hl Hb.
  assert (∀ buf off, Forall is_byte buf → 0 <= field buf off) as Hf.
  { intros buf off H. unfold field. apply of_le_range. by apply Forall_take, Forall_drop. }
  destruct received as [[ty buf]|]; [|apply always_ret; eauto 10]. specialize (Hb ty buf eq_refl).
  unfold broker_handler_process_request.
  destruct (ty =? MSG_TYPE_JOIN_QUEUE); [|destruct (ty =? MSG_TYPE_GET_WORK); [|apply always_ret; eauto 10]].
  - unfold handle_join. case (Z.leb_spec SIM_MAX_SERVICE_TYPES (jq_service (read_join buf))); intros Hs;
      [apply always_ret; eauto 10|].
    apply always_bind, always_malloc. intros []; [|apply always_ret; eauto 10]. cbn [queues].
    destruct (lookup_lt_is_Some_2 (queues ctx) (Z.to_nat (jq_service (read_join buf)))) as [q ->].
    { specialize (Hf buf 4%nat Hb). simpl in *. lia. }
    apply always_bind. intros m. apply always_ret. eexists _, _. split; [done|]. simpl. by rewrite length_insert.
  - unfold handle_get_work. case (Z.leb_spec SIM_MAX_SERVICE_TYPES (gw_service (read_get_work buf))); intros Hs;
      [apply always_ret; eauto 10|].
    destruct (lookup_lt_is_Some_2 (queues ctx) (Z.to_nat (gw_service (read_get_work buf)))) as [q ->].
    { specialize (Hf buf 4%nat Hb). simpl in *. lia. }
    apply always_bind. intros m. destruct (pq_pop q m) as [[x q'] m']. cbn [fst]. apply always_ret.
    eexists _, _. split; [done|]. simpl. by rewrite length_insert.
Qed.

Lemma broker_handler_releases_witness :
  ∃ ctx' ev, (broker_handler_process_request (ctx0 7) (Some (MSG_TYPE_JOIN_QUEUE, join_buf 9 0)) 4096
                (mk_timespec 1 0) [false]).1 = Some (ctx', ev) ∧ last ev = Some CloseClient.
Proof.
  destruct (broker_handler_releases (ctx0 7) (Some (MSG_TYPE_JOIN_QUEUE, join_buf 9 0)) 4096 (mk_timespec 1 0))
    with (m := [false]) as (ctx' & ev & E & _ & _ & Hlast & _).
  - reflexivity.
  - intros ty buf H. injection H as <- <-. unfold join_buf.
    repeat (apply Forall_app; split); apply le_bytes_bytes.
  - exists ctx', ev. split; [exact E|exact Hlast].
Defined.

(** Ticket 0 means "no work": when the ticket sequence starts at 0, as the
    zeroed shared memory has it, the broker's answer that hands out the first
    customer is byte for byte the answer of an empty queue, and the customer
    has left the queue. *)
Theorem broker_ticket_zero_lost :
  let ctx := (run_request (ctx0 0) MSG_TYPE_JOIN_QUEUE (join_buf 0 0) 4096 10).1 in
  let r := run_request ctx MSG_TYPE_GET_WORK (work_buf 0) 0 20 in
  r.2 = (run_request (ctx0 0) MSG_TYPE_GET_WORK (work_buf 0) 0 20).2 ∧
  (pq_elements <$> queues ctx !! 0%nat) = Some [mk_item 4096 0 0 1000 (mk_timespec 10 0)] ∧
  (pq_elements <$> queues r.1 !! 0%nat) = Some [].
Proof. vm_compute. done. Qed.

(** Two customers of one class at one instant can cost a ticket: the items
    compare equal although they are different, so when their addresses fall
    into one hash bucket the second is refused by the queue; its ticket is
    acknowledged all the same and is never served. *)
Theorem broker_same_instant_loses_ticket :
  let c1 := (run_request (ctx0 7) MSG_TYPE_JOIN_QUEUE (join_buf 0 0) 4096 10).1 in
  let r := run_request c1 MSG_TYPE_JOIN_QUEUE (join_buf 0 0) (4096 + 17 * 32) 10 in
  r.2 = [ReleaseRx; Send MSG_TYPE_JOIN_ACK (join_ack_bytes 8 0); CloseClient] ∧
  (pq_elements <$> queues r.1 !! 0%nat) = Some [item7].
Proof. vm_compute. done. Qed.
