(* ===== verification/Barrier.v ===== *)
(** * Day barrier ([app/src/core/simulation/director/director_time.c] and
    [app/src/core/simulation/ipc/sim_client.c])

    At the start of every simulated day the director opens a barrier in shared
    memory, the client processes join it, and the director releases it when
    enough have joined.  Every access of the shared memory and every lock
    operation is a step; the steps of director and clients interleave freely.
    A timed wait on a condition variable gives the mutex up and may return at
    any time (signal, timeout or spurious wake-up), so signals and broadcasts
    need no state of their own. *)

From Stdlib Require Import ZArith Lia.
From stdpp Require Import base list numbers.
From S2P Require Import Prelude.

Local Open Scope Z_scope.

(** [sync_control_t], the director's running flag, and who holds the mutex:
    the director ([inl]) or a client. *)
Record sync_control : Type := mk_sync {
  barrier_active : bool;
  ready_count : Z;
  required_count : Z;
  day_seq : Z;
  sync_mutex : option (unit + nat);
  running : bool
}.

Definition set_active (g : sync_control) (b : bool) : sync_control :=
  mk_sync b (ready_count g) (required_count g) (day_seq g) (sync_mutex g) (running g).
Definition set_ready (g : sync_control) (z : Z) : sync_control :=
  mk_sync (barrier_active g) (u32 z) (required_count g) (day_seq g) (sync_mutex g) (running g).
Definition set_day (g : sync_control) (z : Z) : sync_control :=
  mk_sync (barrier_active g) (ready_count g) (required_count g) (u32 z) (sync_mutex g) (running g).
Definition set_mutex (g : sync_control) (o : option (unit + nat)) : sync_control :=
  mk_sync (barrier_active g) (ready_count g) (required_count g) (day_seq g) o (running g).
Definition stop_running (g : sync_control) : sync_control :=
  mk_sync (barrier_active g) (ready_count g) (required_count g) (day_seq g) (sync_mutex g) false.

(** The director between barriers ([DIdle], with the last day synchronised)
    and inside [synchronize_simulation_barrier] for a day. *)
Inductive dpc : Type :=
| DIdle (day : Z) | DLock (day : Z) | DReset (day : Z) | DDay (day : Z) | DActivate (day : Z)
| DWait (day : Z) | DSleep (day : Z) | DRelease (day : Z) | DUnlock (day : Z).

Definition director_step (g : sync_control) (p : dpc) : option (sync_control * dpc) :=
  match p with
  | DIdle d => if running g then Some (g, DLock (d + 1)) else None
  | DLock d => if sync_mutex g is Some _ then None else Some (set_mutex g (Some (inl ())), DReset d)
  | DReset d => Some (set_ready g 0, DDay d)
  | DDay d => Some (set_day g d, DActivate d)
  | DActivate d => Some (set_active g true, DWait d)
  | DWait d =>
      if negb (running g) then Some (g, DRelease d)
      else if required_count g <=? ready_count g then Some (g, DRelease d)
      else Some (set_mutex g None, DSleep d)
  | DSleep d => if sync_mutex g is Some _ then None else Some (set_mutex g (Some (inl ())), DWait d)
  | DRelease d => Some (set_active g false, DUnlock d)
  | DUnlock d => Some (set_mutex g None, DIdle d)
  end.

(** A client process outside [sim_client_wait_barrier] ([COut]) or in it, with
    its [last_synced_day] and, after the day was read, [barrier_day]. *)
Inductive cpc : Type :=
| COut | CPoll | CSpin (day : Z) | CLock (day : Z) | CJoin (day : Z) | CAdd (day : Z)
| CHold | CSleep | CUnlock | CDone.

Record client : Type := mk_client { c_pc : cpc; c_last : Z }.

(** [shut]: the client observes its shutdown flag in this step. *)
Definition sim_client_step (g : sync_control) (i : nat) (c : client) (shut : bool) :
    option (sync_control * client) :=
  let last := c_last c in
  match c_pc c with
  | COut => Some (g, mk_client CPoll last)
  | CPoll =>
      if shut then Some (g, mk_client CDone last)
      else let barrier_day := day_seq g in
           Some (g, mk_client (if last <? i32 barrier_day then CSpin barrier_day else CPoll) last)
  | CSpin d =>
      if shut then Some (g, mk_client CDone last)
      else Some (g, mk_client (if barrier_active g then CLock d else CSpin d) last)
  | CLock d =>
      if sync_mutex g is Some _ then None
      else Some (set_mutex g (Some (inr i)), mk_client (CJoin d) last)
  | CJoin d => Some (g, mk_client (if barrier_active g then CAdd d else CUnlock) last)
  | CAdd d => Some (set_ready g (ready_count g + 1), mk_client CHold (i32 d))
  | CHold =>
      if negb shut && barrier_active g then Some (set_mutex g None, mk_client CSleep last)
      else Some (g, mk_client CUnlock last)
  | CSleep =>
      if sync_mutex g is Some _ then None
      else Some (set_mutex g (Some (inr i)), mk_client CHold last)
  | CUnlock => Some (set_mutex g None, mk_client COut last)
  | CDone => None
  end.

Definition system : Type := sync_control * dpc * list client.

Inductive sync_step : system → system → Prop :=
| sync_director g p g' p' cs :
    director_step g p = Some (g', p') → sync_step (g, p, cs) (g', p', cs)
| sync_client g p cs i c g' c' :
    cs !! i = Some c → sim_client_step g i c false = Some (g', c') →
    sync_step (g, p, cs) (g', p, <[i := c']> cs).

(** Outside events: the director is told to stop, a client sees its shutdown
    flag. *)
Inductive stop_step : system → system → Prop :=
| stop_director g p cs : stop_step (g, p, cs) (stop_running g, p, cs)
| stop_client g p cs i c g' c' :
    cs !! i = Some c → sim_client_step g i c true = Some (g', c') →
    stop_step (g, p, cs) (g', p, <[i := c']> cs).

Definition any_step (w w' : system) : Prop := sync_step w w' ∨ stop_step w w'.

(** Zeroed shared memory with [required_count] set to the number of clients. *)
Definition initial_system (n : nat) : system :=
  (mk_sync false 0 (Z.of_nat n) 0 None true, DIdle 0, replicate n (mk_client COut 0)).

(** ** Invariant *)

(** A client that has not begun to join. *)
Definition at_rest (p : cpc) : Prop :=
  match p with COut | CPoll | CHold | CSleep | CUnlock | CDone => True | _ => False end.

(** A client on its way into the barrier of day [d]. *)
Definition joining (d : Z) (p : cpc) : Prop :=
  match p with CSpin d' | CLock d' | CJoin d' | CAdd d' => d' = d | _ => False end.

(** Between two barriers: day [c] is complete and all clients know it. *)
Definition closed (c : Z) (g : sync_control) (cs : list client) : Prop :=
  barrier_active g = false ∧ day_seq g = c ∧
  Forall (λ cl, c_last cl = c ∧ at_rest (c_pc cl)) cs.

(** Day [d] is announced but its barrier is not yet open. *)
Definition announced (d : Z) (g : sync_control) (cs : list client) : Prop :=
  barrier_active g = false ∧ day_seq g = d ∧ ready_count g = 0 ∧
  Forall (λ cl, c_last cl = d - 1 ∧ (at_rest (c_pc cl) ∨ c_pc cl = CSpin d)) cs.

Definition joined (d : Z) (cs : list client) : Z :=
  Z.of_nat (length (filter (λ cl, c_last cl = d) cs)).

(** The barrier of day [d] is open: the ready count is the number of clients
    that joined it. *)
Definition opened (d : Z) (g : sync_control) (cs : list client) : Prop :=
  barrier_active g = true ∧ day_seq g = d ∧ ready_count g = joined d cs ∧
  Forall (λ cl, (c_last cl = d ∧ at_rest (c_pc cl)) ∨
                (c_last cl = d - 1 ∧ (at_rest (c_pc cl) ∨ joining d (c_pc cl)))) cs.

Definition all_joined (d : Z) (cs : list client) : Prop := Forall (λ cl, c_last cl = d) cs.

Definition phase_ok (g : sync_control) (p : dpc) (cs : list client) : Prop :=
  match p with
  | DIdle d => closed d g cs
  | DLock d | DReset d => closed (d - 1) g cs
  | DDay d => closed (d - 1) g cs ∧ ready_count g = 0
  | DActivate d => announced d g cs
  | DWait d | DSleep d => opened d g cs
  | DRelease d => opened d g cs ∧ all_joined d cs
  | DUnlock d => closed d g cs
  end.

Definition director_day (p : dpc) : Z :=
  match p with
  | DIdle d | DLock d | DReset d | DDay d | DActivate d | DWait d | DSleep d | DRelease d | DUnlock d => d
  end.

Definition first_day (p : dpc) : Z := match p with DIdle _ => 0 | _ => 1 end.

(** Up to the last representable day. *)
Definition MAX_DAY : Z := 2 ^ 31 - 1.

Definition sync_inv (n : nat) (w : system) : Prop :=
  let '(g, p, cs) := w in
  length cs = n ∧ required_count g = Z.of_nat n ∧ first_day p <= director_day p ∧
  (running g = true → director_day p <= MAX_DAY → phase_ok g p cs).

(** ** Lemmas *)

Lemma i32_day d : 0 <= d <= MAX_DAY → i32 d = d.
Proof. unfold MAX_DAY. intros H. apply signed_small; [lia|]. change (2 ^ (32 - 1)) with (2 ^ 31). lia. Qed.

Lemma joined_insert d cs i c c' :
  cs !! i = Some c →
  joined d (<[i := c']> cs) =
    joined d cs - (if decide (c_last c = d) then 1 else 0) + (if decide (c_last c' = d) then 1 else 0).
Proof.
  unfold joined. revert i. induction cs as [|a cs IH]; intros [|i] H; simpl in *; simplify_eq.
  - rewrite !filter_cons. repeat case_decide; simpl length; lia.
  - rewrite !filter_cons. specialize (IH i H). destruct (decide (c_last a = d)); simpl length; lia.
Qed.

Lemma joined_bound d cs : 0 <= joined d cs <= Z.of_nat (length cs).
Proof. unfold joined. pose proof (length_filter (λ cl, c_last cl = d) cs). lia. Qed.

Lemma joined_none d cs : Forall (λ cl, c_last cl ≠ d) cs → joined d cs = 0.
Proof.
  unfold joined. induction 1 as [|c cs Hc _ IH]; [done|]. rewrite filter_cons, decide_False by done. done.
Qed.

Lemma joined_all d cs : joined d cs = Z.of_nat (length cs) → all_joined d cs.
Proof.
  unfold joined, all_joined. induction cs as [|c cs IH]; [constructor|]. rewrite filter_cons.
  pose proof (length_filter (λ cl, c_last cl = d) cs).
  case_decide; simpl length; intros E; [|lia]. constructor; [done|]. apply IH. lia.
Qed.

Lemma all_joined_count d cs : all_joined d cs → joined d cs = Z.of_nat (length cs).
Proof.
  unfold joined. induction 1 as [|c cs Hc _ IH]; [done|]. rewrite filter_cons, decide_True by done.
  simpl length. lia.
Qed.

(** What a client's step can change. *)
Lemma client_effect g i c shut g' c' :
  sim_client_step g i c shut = Some (g', c') →
  barrier_active g' = barrier_active g ∧ day_seq g' = day_seq g ∧
  required_count g' = required_count g ∧ running g' = running g ∧
  ((∃ d, c_pc c = CAdd d ∧ ready_count g' = u32 (ready_count g + 1) ∧ c' = mk_client CHold (i32 d)) ∨
   (ready_count g' = ready_count g ∧ c_last c' = c_last c ∧ ∀ d, c_pc c ≠ CAdd d)).
Proof.
  destruct c as [p last]. unfold sim_client_step. cbn [c_pc c_last].
  destruct p; intros E; repeat case_match; simplify_eq/=; (split_and!; [done..|]); try (right; split_and!; done).
  left. eauto.
Qed.

Lemma rest_step g i c shut g' c' :
  sim_client_step g i c shut = Some (g', c') → at_rest (c_pc c) →
  at_rest (c_pc c') ∨ (c_pc c' = CSpin (day_seq g) ∧ c_last c < i32 (day_seq g)).
Proof.
  destruct c as [p last]. unfold sim_client_step. cbn [c_pc c_last].
  destruct p; intros E H; try done; repeat case_match; simplify_eq/=; auto;
    match goal with H : (_ <? _) = true |- _ => apply Z.ltb_lt in H; auto end.
Qed.

Lemma join_step g i c shut g' c' d :
  sim_client_step g i c shut = Some (g', c') → joining d (c_pc c) →
  (barrier_active g = false → c_pc c = CSpin d → c_pc c' = CSpin d ∨ c_pc c' = CDone) ∧
  (joining d (c_pc c') ∨ at_rest (c_pc c')).
Proof.
  destruct c as [p last]. unfold sim_client_step. cbn [c_pc c_last].
  destruct p; intros E H; try done; simpl in H; subst; repeat case_match; simplify_eq/=; auto; try done;
    split; auto; congruence.
Qed.

Lemma director_inv n g p g' p' cs :
  director_step g p = Some (g', p') → sync_inv n (g, p, cs) → sync_inv n (g', p', cs).
Proof.
  intros E (Hlen & Hreq & Hday & Hph). unfold sync_inv.
  destruct p as [d|d|d|d|d|d|d|d|d]; simpl in *; repeat case_match; simplify_eq/=;
    (split_and!; [done|done|lia|]); intros Hrun Hmax; try congruence; specialize (Hph ltac:(first [exact Hrun|reflexivity]) ltac:(unfold MAX_DAY in *; lia)).
  - by replace (d + 1 - 1) with d by lia.
  - done.
  - done.
  - destruct Hph as [(Ha & Hd & Hf) Hr]. unfold announced. simpl.
    rewrite (u32_small d) by (unfold MAX_DAY in *; lia). split_and!; [done|done|done|].
    eapply list.Forall_impl; [exact Hf|]. intros cl [? ?]. auto.
  - destruct Hph as (Ha & Hd & Hr & Hf). unfold opened. simpl. rewrite Hr.
    split_and!; [done|done| |].
    + symmetry. apply joined_none. eapply list.Forall_impl; [exact Hf|]. intros cl [? ?]. simpl. lia.
    + eapply list.Forall_impl; [exact Hf|]. intros cl [? [?| ->]]; right; simpl; auto.
  - match goal with H : negb _ = true |- _ => by rewrite Hrun in H end.
  - match goal with H : (_ <=? _) = true |- _ => apply Z.leb_le in H; rename H into Hle end.
    pose proof Hph as (_ & _ & Hr & _). pose proof (joined_bound d cs).
    split; [done|]. apply joined_all. lia.
  - done.
  - done.
  - destruct Hph as [(_ & Hd & _ & Hf) Hall]. unfold closed. simpl. split_and!; [done|done|].
    eapply list.Forall_impl; [exact (Forall_and Hf Hall)|]. intros cl [[[? ?]|[? _]] ?]; [done|]. lia.
  - done.
Qed.

(** Joining is the one step that counts. *)
Lemma client_adds g cs i c d r :
  1 <= d <= MAX_DAY → Z.of_nat (length cs) < 2 ^ 32 → opened d g cs → cs !! i = Some c →
  c_last c = d - 1 → r = u32 (ready_count g + 1) → r = joined d (<[i := mk_client CHold d]> cs).
Proof.
  intros Hd0 Hn (_ & _ & Hr & _) Hi Hl ->.
  pose proof (joined_bound d (<[i := mk_client CHold d]> cs)) as Hb. rewrite length_insert in Hb.
  rewrite (joined_insert _ _ _ _ _ Hi) in Hb |- *. cbn [c_last] in *.
  rewrite decide_False, decide_True in Hb |- * by lia. rewrite Hr, u32_small by lia. lia.
Qed.

(** Replacing one client, with the global fields a client's step leaves alone. *)
Section client_step.
Context (g : sync_control) (cs : list client) (i : nat) (c : client) (shut : bool).
Context (g' : sync_control) (c' : client).
Context (Hi : cs !! i = Some c) (E : sim_client_step g i c shut = Some (g', c')).

Lemma client_closed d : 0 <= d <= MAX_DAY → closed d g cs →
  closed d g' (<[i := c']> cs) ∧ ready_count g' = ready_count g.
Proof using Hi E.
  intros Hd0 (Ha & Hd & Hf). destruct (client_effect _ _ _ _ _ _ E) as (Ea & Ed & _ & _ & Hcase).
  destruct (Forall_lookup_1 _ _ _ _ Hf Hi) as [Hl Hr].
  destruct Hcase as [(d0 & Hc & _)|(Er & Hl' & _)]; [by rewrite Hc in Hr|]. split; [|done].
  unfold closed. rewrite Ea, Ed. split_and!; [done|done|]. apply Forall_insert; [done|].
  destruct (rest_step _ _ _ _ _ _ E Hr) as [Hr'|[_ Hlt]]; [split; [congruence|done]|].
  rewrite Hd, i32_day in Hlt by lia. lia.
Qed.

Lemma client_announced d : 1 <= d <= MAX_DAY → announced d g cs → announced d g' (<[i := c']> cs).
Proof using Hi E.
  intros Hd0 (Ha & Hd & Hr & Hf). destruct (client_effect _ _ _ _ _ _ E) as (Ea & Ed & _ & _ & Hcase).
  destruct (Forall_lookup_1 _ _ _ _ Hf Hi) as [Hl Hp].
  destruct Hcase as [(d0 & Hc & _)|(Er & Hl' & _)]; [rewrite Hc in Hp; by destruct Hp|].
  unfold announced. rewrite Ea, Ed, Er. split_and!; [done|done|done|]. apply Forall_insert; [done|].
  split; [congruence|]. destruct Hp as [Hp|Hp].
  - destruct (rest_step _ _ _ _ _ _ E Hp) as [?|[-> _]]; [by left|right]. by rewrite Hd.
  - destruct (join_step _ _ _ _ _ _ d E) as [H _]; [by rewrite Hp|].
    destruct (H Ha Hp) as [?| ->]; [by right|by left].
Qed.

Lemma client_opened d : 1 <= d <= MAX_DAY → Z.of_nat (length cs) < 2 ^ 32 → opened d g cs →
  opened d g' (<[i := c']> cs) ∧ (c_last c = d → c_last c' = d).
Proof using Hi E.
  intros Hd0 Hn Hop. pose proof Hop as (Ha & Hd & Hr & Hf).
  destruct (client_effect _ _ _ _ _ _ E) as (Ea & Ed & _ & _ & Hcase).
  assert (i32 d = d) as Hid by (apply i32_day; lia).
  unfold opened. rewrite Ea, Ed. destruct Hcase as [(d0 & Hc & Er & ->)|(Er & Hl' & _)].
  - destruct (Forall_lookup_1 _ _ _ _ Hf Hi) as [[_ Hp]|[Hl Hp]]; rewrite Hc in Hp; [done|].
    destruct Hp as [[]|Hp]. simpl in Hp. subst d0. rewrite Hid. cbn [c_last].
    split; [|done]. split_and!; [done|done|by eapply client_adds|].
    apply Forall_insert; [done|]. by left.
  - rewrite Hl'. split; [|done]. rewrite Er, Hr, (joined_insert _ _ _ _ _ Hi), Hl'.
    split_and!; [done|done|case_decide; lia|]. apply Forall_insert; [done|]. rewrite Hl'.
    destruct (Forall_lookup_1 _ _ _ _ Hf Hi) as [[Hl Hp]|[Hl Hp]]; [left|right]; (split; [done|]).
    + destruct (rest_step _ _ _ _ _ _ E Hp) as [?|[_ Hlt]]; [done|]. rewrite Hd, Hid in Hlt. lia.
    + destruct Hp as [Hp|Hp].
      * destruct (rest_step _ _ _ _ _ _ E Hp) as [?|[-> _]]; [by left|right]. by rewrite Hd.
      * destruct (join_step _ _ _ _ _ _ _ E Hp) as [_ [?|?]]; auto.
Qed.
End client_step.

Lemma client_inv n g p cs i c shut g' c' :
  cs !! i = Some c → sim_client_step g i c shut = Some (g', c') → Z.of_nat n < 2 ^ 32 →
  sync_inv n (g, p, cs) → sync_inv n (g', p, <[i := c']> cs).
Proof.
  intros Hi E Hn (Hlen & Hreq & Hday & Hph).
  destruct (client_effect _ _ _ _ _ _ E) as (_ & _ & Eq & Er & _).
  unfold sync_inv. rewrite length_insert, Eq, Er. split_and!; [done|done|done|].
  intros Hrun Hmax. specialize (Hph Hrun Hmax). subst n.
  pose proof (λ d, client_closed _ _ _ _ _ _ _ Hi E d) as Hcl.
  pose proof (λ d H, client_opened _ _ _ _ _ _ _ Hi E d H Hn) as Hop.
  destruct p as [d|d|d|d|d|d|d|d|d]; simpl in *;
    try (apply Hcl; [lia|done]); try (apply Hop; [lia|done]).
  - destruct Hph as [Hc Hr]. destruct (Hcl (d - 1)) as [? ?]; [lia|done|]. split; [done|congruence].
  - eapply client_announced; [done|done|lia|done].
  - destruct Hph as [Ho Ha]. destruct (Hop d) as [? Hl]; [lia|done|]. split; [done|].
    apply Forall_insert; [done|]. apply Hl. by apply (Forall_lookup_1 _ _ _ _ Ha Hi).
Qed.

Lemma any_step_inv n w w' : Z.of_nat n < 2 ^ 32 → any_step w w' → sync_inv n w → sync_inv n w'.
Proof.
  intros Hn [H|H] Hinv; [destruct H as [g p g' p' cs E|g p cs i c g' c' Hi E]
                        |destruct H as [g p cs|g p cs i c g' c' Hi E]].
  - by eapply director_inv.
  - by eapply client_inv.
  - destruct Hinv as (? & ? & ? & _). by split_and!.
  - by eapply client_inv.
Qed.

Lemma initial_sync_inv n : sync_inv n (initial_system n).
Proof.
  unfold sync_inv, initial_system. simpl. rewrite length_replicate. split_and!; [done|done|lia|].
  intros _ _. split_and!; [done|done|]. apply Forall_replicate. done.
Qed.

Lemma sync_reachable n w :
  Z.of_nat n < 2 ^ 32 → star any_step (initial_system n) w → sync_inv n w.
Proof.
  intros Hn Hr. eapply (star_invariant any_step (sync_inv n)); [|exact Hr|apply initial_sync_inv].
  intros a b. by apply any_step_inv.
Qed.

(** ** Properties *)

(** C24. The day barrier does not open early: in every interleaving of the
    director with its [required_count] clients, shutdowns of clients included,
    while the director runs each client is at most one day behind; when the
    director releases a day, and while that day runs, every client has joined
    it, and each join was counted exactly once. *)
Theorem barrier_no_early_release (n : nat) (g : sync_control) (p : dpc) (cs : list client) :
  Z.of_nat n < 2 ^ 32 → star any_step (initial_system n) (g, p, cs) →
  running g = true → director_day p <= MAX_DAY →
  Forall (λ c, director_day p - 1 <= c_last c <= director_day p) cs ∧
  match p with
  | DRelease d => all_joined d cs ∧ ready_count g = Z.of_nat n
  | DUnlock d | DIdle d => all_joined d cs ∧ day_seq g = d
  | _ => True
  end.
Proof.
  intros Hn Hr Hrun Hmax. destruct (sync_reachable _ _ Hn Hr) as (Hlen & Hreq & Hday & Hph).
  specialize (Hph Hrun Hmax).
  assert (∀ d, closed d g cs → all_joined d cs ∧ day_seq g = d) as Hclosed.
  { intros d (_ & Hd & Hf). split; [|done]. eapply list.Forall_impl; [exact Hf|]. by intros c [? _]. }
  split.
  - assert (∀ d, closed d g cs → director_day p - 1 <= d <= director_day p →
      Forall (λ c, director_day p - 1 <= c_last c <= director_day p) cs) as Hcl.
    { intros d Hc Hd. destruct (Hclosed d Hc) as [Ha _]. eapply list.Forall_impl; [exact Ha|].
      intros c ->. done. }
    assert (∀ d, opened d g cs → d = director_day p →
      Forall (λ c, director_day p - 1 <= c_last c <= director_day p) cs) as Hop.
    { intros d (_ & _ & _ & Hf) ->. eapply list.Forall_impl; [exact Hf|]. intros c Hc. simpl in Hc. lia. }
    destruct p as [d|d|d|d|d|d|d|d|d]; simpl in *;
      try (apply (Hcl d); [apply Hph|lia]); try (apply (Hcl (d - 1)); [apply Hph|lia]);
      try (apply (Hop d); [apply Hph|done]).
    destruct Hph as (_ & _ & _ & Hf). eapply list.Forall_impl; [exact Hf|]. intros c Hc. simpl in Hc. lia.
  - destruct p as [d|d|d|d|d|d|d|d|d]; simpl in *; try done; auto.
    destruct Hph as [(_ & _ & Hc & _) Ha]. split; [done|]. rewrite Hc, all_joined_count; [lia|done].
Qed.

(** Runs of a given schedule: [None] steps the director, [Some i] client [i]. *)
Definition run_one (w : system) (o : option nat) : option system :=
  let '(g, p, cs) := w in
  match o with
  | None => r ← director_step g p; Some (r.1, r.2, cs)
  | Some i => c ← cs !! i; r ← sim_client_step g i c false; Some (r.1, p, <[i := r.2]> cs)
  end.

Fixpoint run_all (w : system) (l : list (option nat)) : option system :=
  match l with [] => Some w | o :: l => w ← run_one w o; run_all w l end.

Lemma run_all_star l : ∀ w w', run_all w l = Some w' → star sync_step w w'.
Proof.
  induction l as [|o l IH]; intros [[g p] cs] w' H; cbn [run_all] in H; [simplify_eq; apply star_refl|].
  destruct o as [i|]; cbn [run_one] in H.
  - destruct (cs !! i) as [c|] eqn:Hi; [|done]. cbn [mbind option_bind] in H.
    destruct (sim_client_step g i c false) as [[g' c']|] eqn:E; [|done].
    eapply star_step; [by eapply sync_client|]. by apply IH.
  - destruct (director_step g p) as [[g' p']|] eqn:E; [|done].
    eapply star_step; [by eapply sync_director|]. by apply IH.
Qed.

Lemma star_any w w' : star sync_step w w' → star any_step w w'.
Proof. induction 1; [apply star_refl|]. eapply star_step; [by left|done]. Qed.

(** Day 1: the director opens the barrier and waits; the three clients join
    and wait; the director releases the barrier. *)
Definition join_and_wait (i : nat) : list (option nat) := replicate 7 (Some i).
Definition first_day_run : list (option nat) :=
  replicate 6 None ++ join_and_wait 0 ++ join_and_wait 1 ++ join_and_wait 2 ++ replicate 4 None.

Lemma barrier_no_early_release_witness :
  ∃ g p cs, run_all (initial_system 3) first_day_run = Some (g, p, cs) ∧ p = DIdle 1 ∧ all_joined 1 cs.
Proof.
  eexists _, _, _. split; [vm_compute; reflexivity|]. split; [reflexivity|].
  refine (proj1 (proj2 (barrier_no_early_release 3 _ (DIdle 1) _ _ _ _ _)));
    [lia|apply star_any, (run_all_star first_day_run); vm_compute; reflexivity|reflexivity|unfold MAX_DAY; simpl; lia].
Defined.

(** The director waits for day 2 and client 0 still sleeps in the barrier of
    day 1. *)
Definition missed (w : system) : Prop :=
  let '(g, p, cs) := w in
  sync_inv 3 w ∧ running g = true ∧ (p = DWait 2 ∨ p = DSleep 2) ∧
  ∃ c, cs !! 0%nat = Some c ∧ c_last c = 1 ∧ (c_pc c = CHold ∨ c_pc c = CSleep).

Lemma missed_step w w' : sync_step w w' → missed w → missed w'.
Proof.
  intros Hs Hm. assert (sync_inv 3 w') as Hinv'.
  { destruct w as [[? ?] ?]. eapply (any_step_inv 3 _ w'); [lia|by left|apply Hm]. }
  assert (∀ g cs c, opened 2 g cs → cs !! 0%nat = Some c → c_last c = 1 → ready_count g < Z.of_nat (length cs)) as Hlt.
  { intros g cs c (_ & _ & Hr & _) Hc Hl. pose proof (joined_bound 2 (<[0%nat := mk_client CHold 2]> cs)) as Hb.
    rewrite length_insert, (joined_insert _ _ _ _ _ Hc) in Hb. cbn [c_last] in Hb.
    rewrite decide_False, decide_True in Hb by lia. lia. }
  destruct Hs as [g p g' p' cs E|g p cs i c g' c' Hi E]; destruct Hm as (Hinv & Hrun & Hp & c0 & Hc & Hl & Hpc).
  - destruct Hinv as (Hlen & Hreq & _ & Hph).
    assert (opened 2 g cs) as Hop by (destruct Hp as [-> | ->]; apply Hph; done).
    pose proof (Hlt _ _ _ Hop Hc Hl) as Hr. destruct Hp as [-> | ->]; simpl in E.
    + rewrite Hrun in E. simpl in E. rewrite (proj2 (Z.leb_gt _ _)) in E by lia. simplify_eq. split_and!; eauto.
    + destruct (sync_mutex g); simplify_eq. split_and!; eauto.
  - destruct (client_effect _ _ _ _ _ _ E) as (_ & _ & _ & Er & _).
    split_and!; [done|by rewrite Er|done|]. destruct i as [|i]; [|rewrite list_lookup_insert_ne by done; eauto].
    simplify_eq. rewrite list_lookup_insert_eq by (by eapply lookup_lt_Some).
    exists c'. split; [done|].
    assert (barrier_active g = true) as Ha.
    { destruct Hinv as (_ & _ & _ & Hph). destruct Hp as [-> | ->]; by apply Hph. }
    destruct c as [pc last]. unfold sim_client_step in E. simpl in *.
    destruct Hpc as [-> | ->]; [rewrite Ha in E; simpl in E|destruct (sync_mutex g)]; simplify_eq; auto.
Qed.

(** The barrier can be lost: a client that has joined day 1 and has not
    yet run since its release waits for the flag to go down; if the director
    opens day 2 first, the flag is up again.  From then on, with director and
    clients running and nobody shut down, day 2 is never released: the client
    never joins it and the director never stops waiting. *)
Theorem barrier_missed_release_deadlocks :
  ∃ w, star sync_step (initial_system 3) w ∧
    ∀ g p cs, star sync_step w (g, p, cs) →
      (p = DWait 2 ∨ p = DSleep 2) ∧ c_last <$> cs !! 0%nat = Some 1.
Proof.
  destruct (run_all (initial_system 3) (first_day_run ++ replicate 6 None)) as [w|] eqn:E; [|by vm_compute in E].
  exists w. pose proof (run_all_star _ _ _ E) as Hrun. split; [done|].
  assert (missed w) as Hm.
  { pose proof (sync_reachable 3 w ltac:(lia) (star_any _ _ Hrun)) as Hinv.
    vm_compute in E. injection E as <-. unfold missed. split_and!; eauto. }
  intros g p cs Hr. pose proof (star_invariant sync_step missed missed_step _ _ Hr Hm) as (_ & _ & Hp & c & Hc & Hl & _).
  split; [done|]. by rewrite Hc; simpl; rewrite Hl.
Qed.
