(* ===== verification/LoadBalance.v ===== *)
(** * Load balancing ([app/src/core/simulation/director/load_balance.c])

    The director compares the waiting counts of the service queues and moves
    one idle worker from the shortest to the longest queue when they differ
    enough.  Counts are 32-bit; the broadcast that wakes the workers has no
    state here, logging is left out. *)

From Stdlib Require Import ZArith Lia.
From stdpp Require Import base list numbers.
From S2P Require Import Prelude.

Local Open Scope Z_scope.

Record load_balance_config_t : Type := mk_lb_config {
  lb_enabled : bool;
  check_interval : Z;
  imbalance_threshold : Z;
  min_queue_depth : Z
}.

Record load_balance_stats_t : Type := mk_lb_stats {
  checks_performed : Z;
  rebalances_triggered : Z;
  workers_reassigned : Z
}.

Inductive worker_state_t : Type :=
| WORKER_STATUS_OFFLINE | WORKER_STATUS_FREE | WORKER_STATUS_BUSY | WORKER_STATUS_PAUSED.

Global Instance worker_state_eq_dec : EqDecision worker_state_t.
Proof. solve_decision. Defined.

Record worker_status_t : Type := mk_worker {
  ws_state : worker_state_t;
  ws_current_ticket : Z;
  ws_service_type : Z;
  ws_reassignment_pending : bool
}.

(** [load_balance_init]: the new module configuration. *)
Definition load_balance_init (g_config : load_balance_config_t) (cfg : option load_balance_config_t) :
    load_balance_config_t := default g_config cfg.

(** [for (i = 0; i < SIM_MAX_SERVICE_TYPES; i++)] over the waiting counts: index
    and count of the first largest one above zero, or -1 and 0. *)
Fixpoint find_overloaded (counts : list Z) (i max_idx max_count : Z) : Z * Z :=
  match counts with
  | [] => (max_idx, max_count)
  | count :: counts =>
      if max_count <? count then find_overloaded counts (i + 1) i count
      else find_overloaded counts (i + 1) max_idx max_count
  end.
Definition find_overloaded_queue (counts : list Z) : Z * Z := find_overloaded counts 0 (-1) 0.

Definition UINT32_MAX : Z := 2 ^ 32 - 1.

Fixpoint find_underloaded (counts : list Z) (i min_idx min_count : Z) : Z * Z :=
  match counts with
  | [] => (min_idx, min_count)
  | count :: counts =>
      if count <? min_count then find_underloaded counts (i + 1) i count
      else find_underloaded counts (i + 1) min_idx min_count
  end.
Definition find_underloaded_queue (counts : list Z) : Z * Z := find_underloaded counts 0 (-1) UINT32_MAX.

Fixpoint find_idle (workers : list worker_status_t) (service i : Z) : Z :=
  match workers with
  | [] => -1
  | w :: workers =>
      if bool_decide (ws_state w = WORKER_STATUS_FREE) && (ws_service_type w =? service) then i
      else find_idle workers service (i + 1)
  end.
Definition find_idle_worker_for_service (workers : list worker_status_t) (service : Z) : Z :=
  find_idle workers service 0.

Record lb_analysis_t : Type := mk_analysis {
  overloaded_queue_idx : Z;
  overloaded_count : Z;
  underloaded_queue_idx : Z;
  underloaded_count : Z;
  ratio : Z;
  should_rebalance : bool
}.

Definition load_balance_analyze (cfg : load_balance_config_t) (counts : list Z) : lb_analysis_t :=
  if negb (lb_enabled cfg) then mk_analysis (-1) 0 (-1) 0 0 false
  else
    let '(over, over_count) := find_overloaded_queue counts in
    let '(under, under_count) := find_underloaded_queue counts in
    if (over <? 0) || (under <? 0) || (over =? under)
    then mk_analysis over over_count under under_count 0 false
    else if over_count <? min_queue_depth cfg
    then mk_analysis over over_count under under_count 0 false
    else
      let ratio := if under_count =? 0 then (if min_queue_depth cfg <=? over_count then 1000 else 0)
                   else u32 (over_count * 100) / under_count in
      mk_analysis over over_count under under_count ratio (imbalance_threshold cfg <=? ratio).

Definition reassign (w : worker_status_t) (service : Z) : worker_status_t :=
  mk_worker (ws_state w) (ws_current_ticket w) service true.

(** Result code, workers and statistics; [None] is an index out of range. *)
Definition load_balance_apply (workers : list worker_status_t) (a : lb_analysis_t)
    (stats : load_balance_stats_t) : option (Z * list worker_status_t * load_balance_stats_t) :=
  let worker_idx := find_idle_worker_for_service workers (underloaded_queue_idx a) in
  if worker_idx <? 0 then Some (0, workers, stats)
  else
    w ← workers !! Z.to_nat worker_idx;
    Some (1, <[Z.to_nat worker_idx := reassign w (overloaded_queue_idx a)]> workers,
          mk_lb_stats (checks_performed stats) (u32 (rebalances_triggered stats + 1))
            (u32 (workers_reassigned stats + 1))).

Definition load_balance_check (cfg : load_balance_config_t) (counts : list Z)
    (workers : list worker_status_t) (stats : load_balance_stats_t) :
    option (Z * list worker_status_t * load_balance_stats_t) :=
  let stats := mk_lb_stats (u32 (checks_performed stats + 1)) (rebalances_triggered stats)
                 (workers_reassigned stats) in
  let a := load_balance_analyze cfg counts in
  if should_rebalance a then load_balance_apply workers a stats else Some (0, workers, stats).

(** ** Specification *)

(** Queues [o] and [u] are a longest and a shortest one and differ by the
    configured percentage; an empty shortest queue counts as a ratio of 1000. *)
Definition imbalanced (cfg : load_balance_config_t) (counts : list Z) (o u : nat) : Prop :=
  ∃ co cu, counts !! o = Some co ∧ counts !! u = Some cu ∧ o ≠ u ∧
    Forall (λ c, cu <= c <= co) counts ∧ min_queue_depth cfg <= co ∧
    if decide (cu = 0) then imbalance_threshold cfg <= 1000
    else imbalance_threshold cfg * cu <= co * 100.

(** ** Lemmas *)

Lemma find_overloaded_spec counts : ∀ i mi mc,
  0 <= i → find_overloaded counts i mi mc = (mi, mc) ∧ Forall (λ c, c <= mc) counts ∨
  ∃ k c, find_overloaded counts i mi mc = (i + Z.of_nat k, c) ∧ counts !! k = Some c ∧ mc < c ∧
         Forall (λ c', c' <= c) counts.
Proof.
  induction counts as [|c counts IH]; intros i mi mc Hi; cbn [find_overloaded].
  { left. split; [done|constructor]. }
  case (Z.ltb_spec mc c); intros Hc.
  - right. destruct (IH (i + 1) i c ltac:(lia)) as [[E Hf]|(k & c' & E & Hk & Hlt & Hf)].
    + exists 0%nat, c. rewrite E, Z.add_0_r. split_and!; [done|done|done|]. by constructor.
    + exists (S k), c'. rewrite E. split_and!; [f_equal; lia|done|lia|]. constructor; [lia|done].
  - destruct (IH (i + 1) mi mc ltac:(lia)) as [[E Hf]|(k & c' & E & Hk & Hlt & Hf)].
    + left. split; [done|]. by constructor.
    + right. exists (S k), c'. rewrite E. split_and!; [f_equal; lia|done|lia|]. constructor; [lia|done].
Qed.

Lemma find_underloaded_spec counts : ∀ i mi mc,
  0 <= i → find_underloaded counts i mi mc = (mi, mc) ∧ Forall (λ c, mc <= c) counts ∨
  ∃ k c, find_underloaded counts i mi mc = (i + Z.of_nat k, c) ∧ counts !! k = Some c ∧ c < mc ∧
         Forall (λ c', c <= c') counts.
Proof.
  induction counts as [|c counts IH]; intros i mi mc Hi; cbn [find_underloaded].
  { left. split; [done|constructor]. }
  case (Z.ltb_spec c mc); intros Hc.
  - right. destruct (IH (i + 1) i c ltac:(lia)) as [[E Hf]|(k & c' & E & Hk & Hlt & Hf)].
    + exists 0%nat, c. rewrite E, Z.add_0_r. split_and!; [done|done|done|]. by constructor.
    + exists (S k), c'. rewrite E. split_and!; [f_equal; lia|done|lia|]. constructor; [lia|done].
  - destruct (IH (i + 1) mi mc ltac:(lia)) as [[E Hf]|(k & c' & E & Hk & Hlt & Hf)].
    + left. split; [done|]. by constructor.
    + right. exists (S k), c'. rewrite E. split_and!; [f_equal; lia|done|lia|]. constructor; [lia|done].
Qed.

Lemma find_idle_spec workers service : ∀ i, 0 <= i →
  find_idle workers service i = -1 ∧
    Forall (λ w, ¬ (ws_state w = WORKER_STATUS_FREE ∧ ws_service_type w = service)) workers ∨
  ∃ k w, find_idle workers service i = i + Z.of_nat k ∧ workers !! k = Some w ∧
         ws_state w = WORKER_STATUS_FREE ∧ ws_service_type w = service.
Proof.
  induction workers as [|w workers IH]; intros i Hi; cbn [find_idle]; [left; by split|].
  case_bool_decide as Hs; simpl; [case (Z.eqb_spec (ws_service_type w) service); intros Hv|].
  - right. exists 0%nat, w. split_and!; [lia|done..].
  - destruct (IH (i + 1) ltac:(lia)) as [[E Hf]|(k & w' & E & Hk)].
    + left. split; [done|]. constructor; [tauto|done].
    + right. exists (S k), w'. split; [lia|done].
  - destruct (IH (i + 1) ltac:(lia)) as [[E Hf]|(k & w' & E & Hk)].
    + left. split; [done|]. constructor; [tauto|done].
    + right. exists (S k), w'. split; [lia|done].
Qed.

(** Counts whose percentage fits 32 bits. *)
Definition MAX_COUNT : Z := UINT32_MAX / 100.

Lemma analyze_sound cfg counts :
  Forall (λ c, 0 <= c <= MAX_COUNT) counts → should_rebalance (load_balance_analyze cfg counts) = true →
  lb_enabled cfg = true ∧ ∃ o u, imbalanced cfg counts o u ∧
    overloaded_queue_idx (load_balance_analyze cfg counts) = Z.of_nat o ∧
    underloaded_queue_idx (load_balance_analyze cfg counts) = Z.of_nat u.
Proof.
  intros Hr. unfold load_balance_analyze. destruct (lb_enabled cfg); [|done]. simpl negb. cbv iota.
  unfold find_overloaded_queue, find_underloaded_queue.
  destruct (find_overloaded_spec counts 0 (-1) 0 ltac:(lia)) as [[-> _]|(o & co & -> & Ho & Hco & Hmax)];
    [by destruct (find_underloaded counts 0 (-1) UINT32_MAX)|].
  destruct (find_underloaded_spec counts 0 (-1) UINT32_MAX ltac:(lia)) as [[-> _]|(u & cu & -> & Hu & Hcu & Hmin)];
    [by rewrite orb_true_r|].
  case (Z.ltb_spec (0 + Z.of_nat o) 0); [lia|]. intros _. case (Z.ltb_spec (0 + Z.of_nat u) 0); [lia|]. intros _.
  case (Z.eqb_spec (0 + Z.of_nat o) (0 + Z.of_nat u)); [done|]. intros Hne. simpl orb.
  case (Z.ltb_spec co (min_queue_depth cfg)); [done|]. intros Hd. cbn [should_rebalance overloaded_queue_idx underloaded_queue_idx].
  intros Ht. apply Z.leb_le in Ht. split; [done|]. exists o, u. split; [|lia].
  destruct (Forall_lookup_1 _ _ _ _ Hr Hu) as [Hu0 _]. destruct (Forall_lookup_1 _ _ _ _ Hr Ho) as [_ Hoc].
  change MAX_COUNT with 42949672 in Hoc.
  exists co, cu. split_and!; [done|done|intros ->; lia|exact (Forall_and Hmin Hmax)|done|].
  destruct (decide (cu = 0)) as [->|Hz].
  - rewrite (proj2 (Z.leb_le _ _) Hd) in Ht. exact Ht.
  - rewrite (proj2 (Z.eqb_neq _ _) Hz), u32_small in Ht by lia.
    pose proof (Z.mul_div_le (co * 100) cu ltac:(lia)). nia.
Qed.

Lemma analyze_complete cfg counts o u co cu :
  Forall (λ c, 0 <= c <= MAX_COUNT) counts → lb_enabled cfg = true →
  imbalanced cfg counts o u → counts !! o = Some co → counts !! u = Some cu → cu < co →
  should_rebalance (load_balance_analyze cfg counts) = true ∧
  0 <= underloaded_queue_idx (load_balance_analyze cfg counts) < Z.of_nat (length counts).
Proof.
  intros Hr He (x & y & Ho & Hu & _ & Hf & Hd & Ht) Ho' Hu' Hlt. simplify_eq.
  unfold load_balance_analyze. rewrite He. simpl negb. cbv iota.
  unfold find_overloaded_queue, find_underloaded_queue.
  destruct (Forall_lookup_1 _ _ _ _ Hr Ho) as [_ Hoc]. destruct (Forall_lookup_1 _ _ _ _ Hr Hu) as [Hu0 _].
  change MAX_COUNT with 42949672 in Hoc.
  destruct (find_overloaded_spec counts 0 (-1) 0 ltac:(lia)) as [[_ Hz]|(o' & c1 & -> & Ho1 & Hco & Hmax)].
  { pose proof (Forall_lookup_1 _ _ _ _ Hz Ho) as H. simpl in H. lia. }
  destruct (find_underloaded_spec counts 0 (-1) UINT32_MAX ltac:(lia)) as [[_ Hz]|(u' & c2 & -> & Hu1 & Hcu & Hmin)].
  { pose proof (Forall_lookup_1 _ _ _ _ Hz Hu) as H. simpl in H. unfold UINT32_MAX in H. lia. }
  assert (c1 = x) as ->.
  { pose proof (Forall_lookup_1 _ _ _ _ Hmax Ho). pose proof (Forall_lookup_1 _ _ _ _ Hf Ho1). simpl in *. lia. }
  assert (c2 = y) as ->.
  { pose proof (Forall_lookup_1 _ _ _ _ Hmin Hu). pose proof (Forall_lookup_1 _ _ _ _ Hf Hu1). simpl in *. lia. }
  case (Z.ltb_spec (0 + Z.of_nat o') 0); [lia|]. intros _. case (Z.ltb_spec (0 + Z.of_nat u') 0); [lia|]. intros _.
  case (Z.eqb_spec (0 + Z.of_nat o') (0 + Z.of_nat u')); intros Hne.
  { assert (o' = u') as -> by lia. simplify_eq. lia. }
  simpl orb. rewrite (proj2 (Z.ltb_ge _ _)) by lia. cbn [should_rebalance underloaded_queue_idx].
  apply lookup_lt_Some in Hu1. split; [|lia]. apply Z.leb_le.
  destruct (decide (y = 0)) as [->|Hz].
  - rewrite (proj2 (Z.leb_le _ _) Hd). exact Ht.
  - rewrite (proj2 (Z.eqb_neq _ _) Hz), u32_small by lia. apply Z.div_le_lower_bound; lia.
Qed.

Lemma apply_spec workers a stats :
  0 <= underloaded_queue_idx a →
  ∃ rc ws st, load_balance_apply workers a stats = Some (rc, ws, st) ∧
    (rc = 0 ∧ ws = workers ∧
       Forall (λ w, ¬ (ws_state w = WORKER_STATUS_FREE ∧ ws_service_type w = underloaded_queue_idx a)) workers ∨
     rc = 1 ∧ ∃ k w, workers !! k = Some w ∧ ws_state w = WORKER_STATUS_FREE ∧
       ws_service_type w = underloaded_queue_idx a ∧ ws = <[k := reassign w (overloaded_queue_idx a)]> workers).
Proof.
  intros Hu. unfold load_balance_apply, find_idle_worker_for_service.
  destruct (find_idle_spec workers (underloaded_queue_idx a) 0 ltac:(lia)) as [[-> Hf]|(k & w & -> & Hk & Hs & Hv)].
  - simpl. eexists _, _, _. split; [done|]. left. done.
  - rewrite (proj2 (Z.ltb_ge _ _)), Z.add_0_l, Nat2Z.id by lia. rewrite Hk. simpl.
    eexists _, _, _. split; [done|]. right. eauto 10.
Qed.

(** ** Properties *)

(** Load balancing moves an idle worker towards the load and nothing else:
    a check either changes no worker, or reassigns one free worker of a
    shortest queue to a longest queue when the two differ by the configured
    threshold; and it does so whenever they differ and every queue has a free
    worker.  Waiting counts stay below [MAX_COUNT], where the percentage is
    computed without wrap-around. *)
Theorem load_balance_moves_idle_worker (cfg : load_balance_config_t) (counts : list Z)
    (workers : list worker_status_t) (stats : load_balance_stats_t) :
  Forall (λ c, 0 <= c <= MAX_COUNT) counts →
  ∃ rc ws st, load_balance_check cfg counts workers stats = Some (rc, ws, st) ∧
    (rc = 0 ∧ ws = workers ∨
     rc = 1 ∧ lb_enabled cfg = true ∧ ∃ o u k w, imbalanced cfg counts o u ∧
       workers !! k = Some w ∧ ws_state w = WORKER_STATUS_FREE ∧ ws_service_type w = Z.of_nat u ∧
       ws = <[k := reassign w (Z.of_nat o)]> workers) ∧
    (lb_enabled cfg = true → ∀ o u co cu, imbalanced cfg counts o u →
       counts !! o = Some co → counts !! u = Some cu → cu < co →
       (∀ s, (s < length counts)%nat → ∃ w, w ∈ workers ∧ ws_state w = WORKER_STATUS_FREE ∧
                                            ws_service_type w = Z.of_nat s) → rc = 1).
Proof.
  intros Hr. unfold load_balance_check. set (a := load_balance_analyze cfg counts).
  destruct (should_rebalance a) eqn:Ea.
  - destruct (analyze_sound cfg counts Hr Ea) as (He & o & u & Him & Eo & Eu). fold a in Eo, Eu.
    destruct (apply_spec workers a (mk_lb_stats (u32 (checks_performed stats + 1))
      (rebalances_triggered stats) (workers_reassigned stats))) as (rc & ws & st & E & Hcase); [lia|].
    exists rc, ws, st. split; [done|]. split.
    + destruct Hcase as [(? & ? & _)|(? & k & w & Hk & Hs & Hv & Hw)]; [by left|right]. split_and!; [done|done|].
      exists o, u, k, w. rewrite Eu in Hv. rewrite Eo in Hw. done.
    + intros _ o' u' co cu Him' Ho' Hu' Hlt Hidle.
      destruct (analyze_complete cfg counts o' u' co cu Hr He Him' Ho' Hu' Hlt) as [_ Hub]. fold a in Hub.
      destruct Hcase as [(_ & _ & Hf)|(? & _)]; [|done]. destruct (Hidle u ltac:(lia)) as (w & Hw & Hs & Hv).
      rewrite list.Forall_forall in Hf. destruct (Hf w Hw). split; [done|congruence].
  - eexists _, _, _. split; [done|]. split; [by left|]. intros He o u co cu Him Ho Hu Hlt _.
    destruct (analyze_complete cfg counts o u co cu Hr He Him Ho Hu Hlt) as [E _]. fold a in E. congruence.
Qed.

Lemma load_balance_moves_idle_worker_witness :
  ∃ rc ws st, load_balance_check (mk_lb_config true 5 200 3) [9; 1; 4; 4]
      [mk_worker WORKER_STATUS_BUSY 12 1 false; mk_worker WORKER_STATUS_FREE 0 1 false] (mk_lb_stats 0 0 0) =
      Some (rc, ws, st) ∧
    ws = [mk_worker WORKER_STATUS_BUSY 12 1 false; mk_worker WORKER_STATUS_FREE 0 0 true].
Proof.
  destruct (load_balance_moves_idle_worker (mk_lb_config true 5 200 3) [9; 1; 4; 4]
    [mk_worker WORKER_STATUS_BUSY 12 1 false; mk_worker WORKER_STATUS_FREE 0 1 false] (mk_lb_stats 0 0 0))
    as (rc & ws & st & E & _).
  - change MAX_COUNT with 42949672. repeat constructor; lia.
  - exists rc, ws, st. split; [exact E|]. vm_compute in E. injection E as _ <- _. reflexivity.
Defined.

(** The percentage wraps: with 42949673 customers waiting against one, a
    ratio far above the threshold, nothing is rebalanced. *)
Theorem load_balance_ratio_wraps :
  ratio (load_balance_analyze (mk_lb_config true 5 200 3) [42949673; 1; 1; 1]) = 4 ∧
  should_rebalance (load_balance_analyze (mk_lb_config true 5 200 3) [42949673; 1; 1; 1]) = false.
Proof. vm_compute. done. Qed.
