(* ===== verification/Clock.v ===== *)
(** * Simulation clock ([app/src/core/simulation/director/director_time.c])

    The director's loop publishes the packed time, advances it by a minute per
    tick, opens the day barrier at midnight, balances the load during office
    hours and stops after the configured number of days.  What the loop reads
    from outside in one tick (flags, waiting counts, worker states) is an
    input; what it does to the outside is a list of events.  Sleeping is left
    out, the barrier itself is modelled in [Barrier]. *)

From Stdlib Require Import ZArith Lia.
From stdpp Require Import base list numbers.
From S2P Require Import Prelude LoadBalance.

Local Open Scope Z_scope.

(** [((uint64_t)day << 16) | ((uint64_t)hour << 8) | (uint64_t)minute] *)
Definition pack_time (day hour minute : Z) : Z :=
  Z.lor (Z.lor (Z.shiftl day 16) (Z.shiftl hour 8)) minute.

(** [sim_client_read_time] *)
Definition sim_client_read_time (packed : Z) : Z * Z * Z :=
  (Z.land (Z.shiftr packed 16) 0xFFFF, Z.land (Z.shiftr packed 8) 0xFF, Z.land packed 0xFF).

Record sim_params : Type := mk_params {
  sim_duration_days : Z;
  explode_threshold : Z
}.

(** One tick's readings: the running flag, the child flag and the crash check,
    and the waiting counts and workers at the places that load them. *)
Record tick_env : Type := mk_tick {
  te_running : bool;
  te_sigchld : bool;
  te_crashed : bool;
  te_flush : list Z;
  te_balance : list Z;
  te_workers : list worker_status_t;
  te_explode : list Z
}.

Inductive clock_event : Type :=
| SetActive (b : bool)
| Publish (packed : Z)
| FlushQueue (i : nat)
| Balanced (rc : Z) (workers : list worker_status_t)
| BarrierDay (day : Z).

Inductive clock_exit : Type := Stopped | Crashed | DurationReached | Meltdown.

Record clock : Type := mk_clock {
  c_day : Z;
  c_hour : Z;
  c_minute : Z;
  c_stats : load_balance_stats_t
}.

(** At closing time: wake the users of every non-empty queue. *)
Definition closing_events (hour minute : Z) (counts : list Z) : list clock_event :=
  if (hour =? 17) && (minute =? 0)
  then FlushQueue <$> filter (λ i, 0 < default 0 (counts !! i)) (seq 0 (length counts))
  else [].

(** During office hours, at the configured interval. *)
Definition balance_events (cfg : load_balance_config_t) (c : clock) (env : tick_env) :
    list clock_event * load_balance_stats_t :=
  if lb_enabled cfg && (8 <=? c_hour c) && (c_hour c <? 17)
     && ((check_interval cfg =? 0) || (Z.rem (c_minute c) (i32 (check_interval cfg)) =? 0))
  then match load_balance_check cfg (te_balance env) (te_workers env) (c_stats c) with
       | Some (rc, ws, st) => ([Balanced rc ws], st)
       | None => ([], c_stats c)
       end
  else ([], c_stats c).

(** [minute++] with its carries; the flag says that a new day began. *)
Definition advance (day hour minute : Z) : Z * Z * Z * bool :=
  if 60 <=? minute + 1 then
    if 24 <=? hour + 1 then (day + 1, 0, 0, true) else (day, hour + 1, 0, false)
  else (day, hour, minute + 1, false).

Definition sum32 (l : list Z) : Z := foldl (λ t c, u32 (t + c)) 0 l.

(** One round of [while ( *running_flag )]. *)
Definition clock_tick (params : sim_params) (cfg : load_balance_config_t) (c : clock) (env : tick_env) :
    (clock + clock_exit) * list clock_event :=
  if negb (te_running env) then (inr Stopped, [])
  else
    let published := Publish (pack_time (c_day c) (c_hour c) (c_minute c)) in
    if te_sigchld env && te_crashed env then (inr Crashed, [published])
    else
      let closing := closing_events (c_hour c) (c_minute c) (te_flush env) in
      let '(balance, stats) := balance_events cfg c env in
      let '(day, hour, minute, new_day) := advance (c_day c) (c_hour c) (c_minute c) in
      let evs := published :: closing ++ balance in
      if new_day && (0 <? sim_duration_days params) && (sim_duration_days params <? u32 day)
      then (inr DurationReached, evs)
      else
        let evs := evs ++ (if new_day : bool then [BarrierDay day] else []) in
        if (0 <? explode_threshold params) && (explode_threshold params <? sum32 (te_explode env))
        then (inr Meltdown, evs)
        else (inl (mk_clock day hour minute stats), evs).

Fixpoint clock_loop (params : sim_params) (cfg : load_balance_config_t) (c : clock) (envs : list tick_env) :
    (clock + clock_exit) * list clock_event :=
  match envs with
  | [] => (inl c, [])
  | env :: envs =>
      match clock_tick params cfg c env with
      | (inl c, evs) => let '(r, evs') := clock_loop params cfg c envs in (r, evs ++ evs')
      | (inr x, evs) => (inr x, evs)
      end
  end.

Definition default_lb_config : load_balance_config_t := mk_lb_config false 5 200 3.

(** After the expected users have connected; the inputs of the ticks may run
    out before the loop ends. *)
Definition execute_simulation_clock_loop (params : sim_params) (cfg : option load_balance_config_t)
    (g_config : load_balance_config_t) (envs : list tick_env) :
    (clock + clock_exit) * list clock_event :=
  let lb_cfg := load_balance_init g_config (Some (default default_lb_config cfg)) in
  let '(r, evs) := clock_loop params lb_cfg (mk_clock 1 0 0 (mk_lb_stats 0 0 0)) envs in
  (r, SetActive true :: BarrierDay 1 :: evs ++ (if r is inr _ then [SetActive false] else [])).

(** ** Specification *)

(** Day, hour and minute of tick [k], counting from day 1, 00:00. *)
Definition time_of (k : Z) : Z * Z * Z := (1 + k / 1440, k / 60 mod 24, k mod 60).

Definition published (evs : list clock_event) : list (Z * Z * Z) :=
  omap (λ e, match e with Publish p => Some (sim_client_read_time p) | _ => None end) evs.
Definition barriers (evs : list clock_event) : list Z :=
  omap (λ e, match e with BarrierDay d => Some d | _ => None end) evs.

(** Nothing stops the clock in this tick. *)
Definition quiet (params : sim_params) (env : tick_env) : Prop :=
  te_running env = true ∧ te_crashed env = false ∧
  (explode_threshold params = 0 ∨ sum32 (te_explode env) <= explode_threshold params).

(** ** Lemmas *)

Lemma pack_time_sum day hour minute :
  0 <= day → 0 <= hour < 2 ^ 8 → 0 <= minute < 2 ^ 8 →
  pack_time day hour minute = day * 2 ^ 16 + hour * 2 ^ 8 + minute.
Proof.
  intros Hd Hh Hm. unfold pack_time.
  assert (∀ a b k, 0 <= k → 0 <= b < 2 ^ k → Z.lor (Z.shiftl a k) b = a * 2 ^ k + b) as Hlor.
  { intros a b k Hk Hb. assert (Z.land (Z.shiftl a k) b = 0) as E.
    { apply Z.bits_inj'. intros i Hi. rewrite Z.land_spec, Z.bits_0, Z.shiftl_spec by lia.
      destruct (Z.lt_ge_cases i k); [by rewrite Z.testbit_neg_r by lia|].
      rewrite <- (Z.mod_small b (2 ^ k)) by lia. rewrite Z.mod_pow2_bits_high by lia. apply andb_false_r. }
    rewrite <- Z.lxor_lor, <- Z.add_nocarry_lxor by done. by rewrite Z.shiftl_mul_pow2. }
  replace (Z.shiftl day 16) with (Z.shiftl (Z.shiftl day 8) 8) by (rewrite Z.shiftl_shiftl by lia; done).
  rewrite <- Z.shiftl_lor, (Hlor day hour 8), Hlor by lia. lia.
Qed.

Lemma read_pack day hour minute :
  0 <= day → 0 <= hour < 2 ^ 8 → 0 <= minute < 2 ^ 8 →
  sim_client_read_time (pack_time day hour minute) = (day mod 2 ^ 16, hour, minute).
Proof.
  intros Hd Hh Hm. rewrite pack_time_sum by done. unfold sim_client_read_time.
  change 0xFFFF with (Z.ones 16). change 0xFF with (Z.ones 8).
  rewrite !Z.land_ones, !Z.shiftr_div_pow2 by lia. repeat f_equal.
  - symmetry. apply (Z.div_unique _ _ _ (hour * 2 ^ 8 + minute)); lia.
  - rewrite <- (Z.div_unique (day * 2 ^ 16 + hour * 2 ^ 8 + minute) (2 ^ 8) (day * 2 ^ 8 + hour) minute) by lia.
    rewrite Z.add_comm, Z.mod_add by lia. apply Z.mod_small. lia.
  - replace (day * 2 ^ 16 + hour * 2 ^ 8 + minute) with (minute + (day * 2 ^ 8 + hour) * 2 ^ 8) by lia.
    rewrite Z.mod_add by lia. apply Z.mod_small. lia.
Qed.

Lemma time_of_ranges k : 0 <= k →
  0 <= k / 1440 ∧ 0 <= k / 60 mod 24 < 24 ∧ 0 <= k mod 60 < 60.
Proof. intros Hk. split_and!; zlia. Qed.

(** One minute later. *)
Lemma advance_time_of k : 0 <= k →
  advance (1 + k / 1440) (k / 60 mod 24) (k mod 60) =
    (1 + (k + 1) / 1440, (k + 1) / 60 mod 24, (k + 1) mod 60, bool_decide ((k + 1) mod 1440 = 0)).
Proof.
  intros Hk. unfold advance. change 1440 with (60 * 24).
  rewrite <- !Z.div_div, Z.rem_mul_r by lia.
  assert (k mod 60 = 59 ∧ (k + 1) / 60 = k / 60 + 1 ∧ (k + 1) mod 60 = 0 ∨
          k mod 60 < 59 ∧ (k + 1) / 60 = k / 60 ∧ (k + 1) mod 60 = k mod 60 + 1) as Hstep by zlia.
  pose proof (Z.mod_pos_bound k 60 ltac:(lia)). assert (0 <= k / 60) by zlia.
  destruct Hstep as [(Er & -> & ->)|(Er & -> & ->)]; revert Er; generalize dependent (k / 60);
    generalize dependent (k mod 60); intros r Hr q Hq Er.
  - rewrite Er. change (60 <=? 59 + 1) with true. cbv iota.
    case (Z.leb_spec 24 (q mod 24 + 1)); intros Hh.
    + rewrite bool_decide_eq_true_2 by zlia.
      assert ((q + 1) / 24 = q / 24 + 1) as -> by zlia. assert ((q + 1) mod 24 = 0) as -> by zlia.
      by rewrite Z.add_assoc.
    + rewrite bool_decide_eq_false_2 by zlia.
      assert ((q + 1) / 24 = q / 24) as -> by zlia. by assert ((q + 1) mod 24 = q mod 24 + 1) as -> by zlia.
  - rewrite (proj2 (Z.leb_gt _ _)) by lia. rewrite bool_decide_eq_false_2 by zlia. done.
Qed.

Lemma published_app a b : published (a ++ b) = published a ++ published b.
Proof. apply omap_app. Qed.
Lemma barriers_app a b : barriers (a ++ b) = barriers a ++ barriers b.
Proof. apply omap_app. Qed.

(** Closing and balancing publish no time and open no barrier. *)
Lemma office_events_silent cfg c env h m counts :
  published (closing_events h m counts ++ (balance_events cfg c env).1) = [] ∧
  barriers (closing_events h m counts ++ (balance_events cfg c env).1) = [].
Proof.
  assert (∀ l, published (FlushQueue <$> l) = [] ∧ barriers (FlushQueue <$> l) = []) as Hf.
  { induction l as [|x l [H1 H2]]; [done|]. split; [apply H1|apply H2]. }
  assert (published (closing_events h m counts) = [] ∧ barriers (closing_events h m counts) = []) as [E1 E2].
  { unfold closing_events. destruct (_ && _); [apply Hf|done]. }
  rewrite published_app, barriers_app, E1, E2. unfold balance_events.
  destruct (_ && _); [|done]. by destruct (load_balance_check _ _ _ _) as [[[? ?] ?]|].
Qed.

(** A quiet tick at minute [k] publishes it and moves on, or ends the run. *)
Lemma tick_spec params cfg st env k :
  0 <= k → 1 + k / 1440 < 2 ^ 16 → quiet params env →
  let '(d, h, m) := time_of k in
  let last := bool_decide ((k + 1) mod 1440 = 0) && (0 <? sim_duration_days params)
                && (sim_duration_days params <? 1 + (k + 1) / 1440) in
  ∃ evs, published evs = [time_of k] ∧
    barriers evs = (if bool_decide ((k + 1) mod 1440 = 0) && negb last then [1 + (k + 1) / 1440] else []) ∧
    ∃ st', clock_tick params cfg (mk_clock d h m st) env =
      (if last then inr DurationReached
       else let '(d, h, m) := time_of (k + 1) in inl (mk_clock d h m st'), evs).
Proof.
  intros Hk Hday (Hrun & Hcr & Hex). unfold time_of, clock_tick. rewrite Hrun, Hcr, andb_false_r.
  destruct (time_of_ranges k Hk) as (H1 & H2 & H3). cbn [negb c_day c_hour c_minute].
  set (c := mk_clock _ _ _ st).
  destruct (office_events_silent cfg c env (k / 60 mod 24) (k mod 60) (te_flush env)) as [Ep Eb].
  destruct (balance_events cfg c env) as [bal st'] eqn:Ebal. cbn [fst] in Ep, Eb.
  rewrite advance_time_of by done. rewrite (u32_small (1 + (k + 1) / 1440)) by zlia.
  assert ((0 <? explode_threshold params) && (explode_threshold params <? sum32 (te_explode env)) = false) as ->.
  { destruct Hex as [-> |Hex]; [done|]. rewrite (proj2 (Z.ltb_ge _ _) Hex). apply andb_false_r. }
  assert (∀ l, published (Publish (pack_time (1 + k / 1440) (k / 60 mod 24) (k mod 60)) :: l) =
    (1 + k / 1440, k / 60 mod 24, k mod 60) :: published l) as Epub.
  { intros l. unfold published. simpl. rewrite read_pack by lia. rewrite Z.mod_small by lia. done. }
  assert (∀ q l, barriers (Publish q :: l) = barriers l) as Ebar by done.
  destruct (_ && _ && _) eqn:Elast; (eexists; split_and!; [..|exists st'; reflexivity]).
  - by rewrite Epub, Ep.
  - by rewrite Ebar, Eb, andb_false_r.
  - cbn [app]. rewrite Epub, published_app, Ep. by destruct (bool_decide _).
  - cbn [app]. rewrite Ebar, barriers_app, Eb, andb_true_r. by destruct (bool_decide _).
Qed.

(** The midnights among minutes [k + 1 .. k + r]. *)
Definition midnights (k r : Z) : list Z :=
  (λ i, 1 + i / 1440) <$> filter (λ i, i mod 1440 = 0) (seqZ (k + 1) r).

Lemma midnights_cons k r : 0 < r →
  midnights k r = (if bool_decide ((k + 1) mod 1440 = 0) then [1 + (k + 1) / 1440] else []) ++ midnights (k + 1) (r - 1).
Proof.
  intros Hr. unfold midnights. rewrite seqZ_cons by lia. rewrite filter_cons.
  replace (Z.succ (k + 1)) with (k + 1 + 1) by lia. replace (Z.pred r) with (r - 1) by lia.
  case_decide as H; [rewrite bool_decide_eq_true_2 by done|rewrite bool_decide_eq_false_2 by done]; done.
Qed.

Lemma midnights_app k a b : 0 <= a → 0 <= b → midnights k (a + b) = midnights k a ++ midnights (k + a) b.
Proof.
  intros Ha Hb. unfold midnights. rewrite seqZ_app by lia. rewrite list.filter_app, fmap_app.
  by replace (k + 1 + a) with (k + a + 1) by lia.
Qed.

Lemma midnights_none k r : (∀ i, k < i <= k + r → i mod 1440 ≠ 0) → midnights k r = [].
Proof.
  intros H. unfold midnights.
  assert (∀ l, (∀ i, i ∈ l → k < i <= k + r) → filter (λ i, i mod 1440 = 0) l = []) as Hnil.
  { intros l. induction l as [|i l IH]; intros Hl; [done|].
    rewrite filter_cons, decide_False by (apply H, Hl; left). apply IH. intros j Hj. apply Hl. by right. }
  rewrite Hnil; [done|]. intros i Hi%elem_of_seqZ. lia.
Qed.

(** Day after day, one midnight each. *)
Lemma midnights_days d : 0 < d → midnights 0 (1440 * d - 1) = seqZ 2 (d - 1).
Proof.
  intros Hd. replace d with (Z.of_nat (S (Z.to_nat (d - 1)))) by lia. generalize (Z.to_nat (d - 1)). clear d Hd.
  intros n. induction n as [|n IH].
  - rewrite midnights_none; [done|]. intros i Hi. rewrite Z.mod_small by lia. lia.
  - replace (1440 * Z.of_nat (S (S n)) - 1) with ((1440 * Z.of_nat (S n) - 1) + 1440) by lia.
    rewrite midnights_app by lia. rewrite IH.
    replace (Z.of_nat (S (S n)) - 1) with ((Z.of_nat (S n) - 1) + 1) by lia. rewrite seqZ_app by lia. f_equal.
    set (k := 0 + (1440 * Z.of_nat (S n) - 1)). rewrite midnights_cons by lia.
    replace (k + 1) with (Z.of_nat (S n) * 1440) by lia. rewrite Z.mod_mul, Z.div_mul by lia.
    rewrite bool_decide_eq_true_2 by done. rewrite midnights_none.
    + rewrite app_nil_r, seqZ_cons by lia. change (Z.pred 1) with 0. cbn [seqZ Z.to_nat seq fmap list_fmap]. f_equal. lia.
    + intros i Hi Hm. apply Z.mod_divide in Hm as [j Hj]; [|lia]. nia.
Qed.

Lemma loop_spec params cfg r : ∀ k st envs,
  0 <= k → 0 < sim_duration_days params < 2 ^ 16 → k + Z.of_nat r = 1440 * sim_duration_days params → (0 < r)%nat →
  (r <= length envs)%nat → Forall (quiet params) envs →
  let '(d, h, m) := time_of k in
  ∃ evs, clock_loop params cfg (mk_clock d h m st) envs = (inr DurationReached, evs) ∧
    published evs = time_of <$> seqZ k (Z.of_nat r) ∧ barriers evs = midnights k (Z.of_nat r - 1).
Proof.
  induction r as [|r IH]; intros k st envs Hk HD Hend Hpos Hlen Hq; [lia|].
  destruct envs as [|env envs]; [simpl in Hlen; lia|]. apply Forall_cons_1 in Hq as [Hq1 Hq].
  pose proof (tick_spec params cfg st env k Hk ltac:(zlia) Hq1) as Ht.
  destruct (time_of k) as [[d h] m] eqn:Etk. destruct Ht as (evs & Ep & Eb & st' & E).
  cbn [clock_loop]. rewrite E. rewrite (proj2 (Z.ltb_lt 0 _)) in E, Eb |- * by lia. rewrite andb_true_r in E, Eb |- *.
  rewrite seqZ_cons by lia. replace (Z.pred (Z.of_nat (S r))) with (Z.of_nat r) by lia.
  replace (Z.of_nat (S r) - 1) with (Z.of_nat r) by lia. cbn [fmap list_fmap]. rewrite Etk.
  destruct r as [|r].
  - assert (bool_decide ((k + 1) mod 1440 = 0) && (sim_duration_days params <? 1 + (k + 1) / 1440) = true) as Hlast.
    { replace (k + 1) with (sim_duration_days params * 1440) by lia. rewrite Z.mod_mul, Z.div_mul by lia.
      rewrite (proj2 (Z.ltb_lt _ _)) by lia. done. }
    rewrite Hlast in Eb |- *. simpl in Eb. rewrite andb_false_r in Eb. exists evs. done.
  - assert (bool_decide ((k + 1) mod 1440 = 0) && (sim_duration_days params <? 1 + (k + 1) / 1440) = false) as Hlast.
    { rewrite (proj2 (Z.ltb_ge _ _)); [apply andb_false_r|].
      assert ((k + 1) / 1440 < sim_duration_days params) by (apply Z.div_lt_upper_bound; lia). lia. }
    rewrite Hlast in Eb |- *. simpl in Eb. rewrite andb_true_r in Eb.
    pose proof (IH (k + 1) st' envs ltac:(lia) HD ltac:(lia) ltac:(lia) ltac:(simpl in Hlen; lia) Hq) as Hrec.
    destruct (time_of (k + 1)) as [[d' h'] m'] eqn:Etk'. destruct Hrec as (evs' & E' & Ep' & Eb').
    rewrite E'. exists (evs ++ evs'). split; [done|].
    rewrite published_app, barriers_app, Ep, Eb, Ep', Eb'. split; [done|].
    rewrite (midnights_cons k) by lia. done.
Qed.

(** ** Properties *)

(** C25. The clock runs through the configured days minute by minute: without
    a stop, a crash or a meltdown, a run of [D] days publishes exactly the
    minutes of days 1 to [D] in order, as the clients decode them, opens one
    day barrier for each day in order, and ends after [1440 * D] ticks. *)
Theorem clock_runs_duration (params : sim_params) (cfg : option load_balance_config_t)
    (g_config : load_balance_config_t) (envs : list tick_env) :
  let D := sim_duration_days params in
  0 < D < 2 ^ 16 → 1440 * D <= Z.of_nat (length envs) → Forall (quiet params) envs →
  ∃ evs, execute_simulation_clock_loop params cfg g_config envs = (inr DurationReached, evs) ∧
    published evs = time_of <$> seqZ 0 (1440 * D) ∧ barriers evs = seqZ 1 D.
Proof.
  intros D HD Hlen Hq. unfold execute_simulation_clock_loop.
  set (lb := load_balance_init g_config _).
  destruct (loop_spec params lb (Z.to_nat (1440 * D)) 0 (mk_lb_stats 0 0 0) envs) as (evs & E & Ep & Eb);
    [lia|done|lia|lia|lia|done|].
  rewrite Z2Nat.id in Ep, Eb by lia. change (1 + 0 / 1440) with 1 in E. change (0 / 60 mod 24) with 0 in E.
  change (0 mod 60) with 0 in E. rewrite E. eexists. split; [done|].
  assert (∀ l, published (SetActive true :: BarrierDay 1 :: l) = published l ∧
               barriers (SetActive true :: BarrierDay 1 :: l) = 1 :: barriers l) as Hh by done.
  rewrite (proj1 (Hh _)), (proj2 (Hh _)), published_app, barriers_app, Ep, Eb, midnights_days by lia.
  simpl. rewrite !app_nil_r. split; [done|]. rewrite (seqZ_cons 1) by lia. do 2 f_equal; lia.
Qed.

Definition quiet_tick : tick_env := mk_tick true false false [0; 0; 0; 0] [0; 0; 0; 0] [] [0; 0; 0; 0].

Lemma clock_runs_duration_witness :
  ∃ evs, execute_simulation_clock_loop (mk_params 2 10) None default_lb_config (replicate 2880 quiet_tick) =
      (inr DurationReached, evs) ∧ barriers evs = [1; 2].
Proof.
  destruct (clock_runs_duration (mk_params 2 10) None default_lb_config (replicate 2880 quiet_tick))
    as (evs & E & _ & Hb).
  - simpl. lia.
  - rewrite length_replicate. simpl. lia.
  - apply Forall_replicate. split; [reflexivity|]. split; [reflexivity|]. right. vm_compute. discriminate.
  - exists evs. split; [exact E|]. rewrite Hb. reflexivity.
Defined.

(** A published time reads back: for hours and minutes below 256 the
    clients decode exactly what the director packed, and the day modulo
    [2 ^ 16], its field's width. *)
Theorem packed_time_roundtrip (day hour minute : Z) :
  0 <= day → 0 <= hour < 2 ^ 8 → 0 <= minute < 2 ^ 8 →
  sim_client_read_time (pack_time day hour minute) = (day mod 2 ^ 16, hour, minute).
Proof. apply read_pack. Qed.

Lemma packed_time_roundtrip_witness : sim_client_read_time (pack_time 65537 23 59) = (1, 23, 59).
Proof. apply (packed_time_roundtrip 65537 23 59); lia. Defined.
