(* ===== verification/Service.v ===== *)
(** * Customers and workers ([app/src/core/simulation/user/runtime/user_loop.c],
    [app/src/core/simulation/worker/runtime])

    The clients of the broker: how a customer joins a queue and waits to be
    served, how a worker asks for a ticket and serves it.  Connecting, sending
    and receiving are inputs (their outcomes are what [Net] computes); a
    waiting loop reads one observation of the shared memory per round. *)

From Stdlib Require Import ZArith Lia.
From stdpp Require Import base list numbers.
From S2P Require Import Prelude Vector Hashtable PriorityQueue Protocol Random LoadBalance Broker.

Local Open Scope Z_scope.

(** [msg_join_queue_t] and [msg_get_work_t] as sent *)
Definition join_request (pid service vip : Z) : list Z :=
  le_bytes 4 (u32 pid) ++ le_bytes 4 (u32 service) ++ le_bytes 4 (u32 vip).
Definition get_work_request (pid service : Z) : list Z := le_bytes 4 (u32 pid) ++ le_bytes 4 (u32 service).

(** The outcome of a request: the descriptor of the connection, the result of
    the send, and type byte and buffer of the answer if one was received. *)
Record broker_exchange : Type := mk_exchange {
  ex_fd : Z;
  ex_send_rc : Z;
  ex_reply : option (Z * list Z)
}.

(** The ticket, or [None] for [false]. *)
Definition join_queue_broker (ex : broker_exchange) : option Z :=
  if ex_fd ex <? 0 then None
  else if negb (ex_send_rc ex =? 0) then None
  else match ex_reply ex with
       | Some (msg_type, buf) => if msg_type =? MSG_TYPE_JOIN_ACK then Some (field buf 0) else None
       | None => None
       end.

(** 0 stands for no ticket. *)
Definition retrieve_next_ticket_broker (sim_active : bool) (ex : broker_exchange) : Z :=
  if negb sim_active then 0
  else if ex_fd ex <? 0 then 0
  else if negb (ex_send_rc ex =? 0) then 0
  else match ex_reply ex with
       | Some (msg_type, buf) =>
           if msg_type =? MSG_TYPE_WORK_ITEM then (if 0 <? field buf 0 then field buf 0 else 0) else 0
       | None => 0
       end.

(** The part of the shared memory a job changes. *)
Record job_shm : Type := mk_job_shm {
  js_workers : list worker_status_t;
  total_services_completed : Z;
  last_finished_ticket : list Z      (* one per queue *)
}.

Definition set_job (w : worker_status_t) (ticket : Z) (s : worker_state_t) : worker_status_t :=
  mk_worker s ticket (ws_service_type w) (ws_reassignment_pending w).

(** [while (slept_ms < duration_ms)] in steps of 10 ms; [hour] is the hour read
    at a given time.  Rounds bound the recursion. *)
Fixpoint work_sleep (rounds : nat) (slept duration : Z) (hour : Z → Z) : option Z :=
  match rounds with
  | O => None
  | S rounds =>
      if slept <? duration then
        let slept := slept + 10 in
        if (slept mod 50 =? 0) && (17 <=? hour slept) then Some slept
        else work_sleep rounds slept duration hour
      else Some slept
  end.

(** 100 to 500 ms need at most 51 evaluations of the loop condition. *)
Definition JOB_ROUNDS : nat := 51.

(** [None]: an index out of range, or a loop that does not end. *)
Definition worker_job_simulate (env : seed_env) (st : rand_state) (tick_nanos : Z) (hour : Z → Z)
    (worker_id service ticket : Z) (shm : job_shm) : option (job_shm * rand_state) :=
  w ← js_workers shm !! Z.to_nat worker_id;
  let workers := <[Z.to_nat worker_id := set_job w ticket WORKER_STATUS_BUSY]> (js_workers shm) in
  r ← po_rand_range_i64 env 100 500 st;
  slept ← (if 0 <? tick_nanos then work_sleep JOB_ROUNDS 0 (u32 r.1) hour else Some 0);
  w ← workers !! Z.to_nat worker_id;
  let workers := <[Z.to_nat worker_id := set_job w 0 WORKER_STATUS_FREE]> workers in
  _ ← last_finished_ticket shm !! Z.to_nat service;
  Some (mk_job_shm workers (u32 (total_services_completed shm + 1))
          (<[Z.to_nat service := ticket]> (last_finished_ticket shm)), r.2).

(** What one round of [wait_service] reads: the flags, the hour, the slot
    [tickets[q_idx]], and the last finished ticket of the queue. *)
Record observation : Type := mk_obs {
  ob_continue : bool;
  ob_active : bool;
  ob_hour : Z;
  ob_slot : Z;
  ob_last_finished : Z
}.

(** The verdict and the change of [waiting_count]; [None]: still waiting when
    the observations end. *)
Fixpoint wait_service (ticket : Z) (obs : list observation) : option (bool * Z) :=
  match obs with
  | [] => None
  | o :: obs =>
      if negb (ob_continue o) then Some (false, 0)
      else if negb (ob_active o) then Some (false, 0)
      else if (17 <=? ob_hour o) && (ob_slot o =? u32 (ticket + 1)) then Some (false, -1)
      else if ticket <=? ob_last_finished o then Some (true, 0)
      else wait_service ticket obs
  end.

(** ** Lemmas *)

Lemma field_at (bs rest : list Z) z off :
  length bs = off → 0 <= z < 2 ^ 32 → field (bs ++ le_bytes 4 z ++ rest) off = z.
Proof.
  intros <- Hz. unfold field. rewrite drop_app_length.
  rewrite take_app_le by (rewrite length_le_bytes; lia).
  rewrite take_ge by (rewrite length_le_bytes; lia). by apply of_le_bytes.
Qed.

Lemma i32_u32 z : - 2 ^ 31 <= z < 2 ^ 31 → i32 (u32 z) = z.
Proof.
  intros Hz. unfold i32, u32. rewrite <- (signed_small 32 z) at 2 by (simpl; lia).
  unfold signed. by rewrite Z.mod_mod by lia.
Qed.

Lemma work_sleep_ends n : ∀ slept duration hour,
  0 <= slept → duration - slept <= 10 * Z.of_nat n →
  ∃ t, work_sleep (S n) slept duration hour = Some t ∧ slept <= t.
Proof.
  induction n as [|n IH]; intros slept duration hour Hs Hd; cbn [work_sleep].
  - rewrite (proj2 (Z.ltb_ge _ _)) by lia. eauto with lia.
  - case (Z.ltb_spec slept duration); intros Hlt; [|eauto with lia].
    destruct (_ && _); [eauto with lia|].
    destruct (IH (slept + 10) duration hour) as (t & E & Ht); [lia|lia|]. exists t. split; [exact E|lia].
Qed.

(** ** Properties *)

(** A job ends and reports its ticket: for every random duration and every
    course of the clock the simulated job terminates, leaves the worker free
    and without ticket, counts one completed service, and records the ticket
    as the last finished one of its queue; nothing else changes. *)
Theorem worker_job_completes (env : seed_env) (st : rand_state) (tick_nanos : Z) (hour : Z → Z)
    (worker_id service ticket : Z) (shm : job_shm) (w : worker_status_t) :
  rand_wf st → 0 <= service < Z.of_nat (length (last_finished_ticket shm)) →
  js_workers shm !! Z.to_nat worker_id = Some w →
  ∃ shm' st', worker_job_simulate env st tick_nanos hour worker_id service ticket shm = Some (shm', st') ∧
    js_workers shm' = <[Z.to_nat worker_id := set_job w 0 WORKER_STATUS_FREE]> (js_workers shm) ∧
    total_services_completed shm' = u32 (total_services_completed shm + 1) ∧
    last_finished_ticket shm' = <[Z.to_nat service := ticket]> (last_finished_ticket shm).
Proof.
  intros Hst Hs Hw. unfold worker_job_simulate. rewrite Hw. cbn [mbind option_bind].
  destruct (range_spec env 100 500 st Hst) as (x & st' & E & Hx & _); [lia|lia|]. rewrite E.
  cbn [mbind option_bind fst snd].
  assert (∃ t, (if 0 <? tick_nanos then work_sleep JOB_ROUNDS 0 (u32 x) hour else Some 0) = Some t) as (t & ->).
  { destruct (0 <? tick_nanos); [|eauto]. rewrite u32_small by lia.
    destruct (work_sleep_ends 50 0 x hour) as (t & Et & _); [lia|lia|eauto]. }
  cbn [mbind option_bind]. pose proof (lookup_lt_Some _ _ _ Hw) as Hlt.
  rewrite list_lookup_insert_eq by done. cbn [mbind option_bind].
  destruct (lookup_lt_is_Some_2 (last_finished_ticket shm) (Z.to_nat service)) as [? ->]; [lia|].
  cbn [mbind option_bind]. eexists _, _. split; [done|]. simpl. split_and!; [|done|done].
  rewrite list_insert_insert_eq. done.
Qed.

Definition shm1 : job_shm := mk_job_shm [mk_worker WORKER_STATUS_FREE 0 0 false] 0 [0; 0; 0; 0].

Lemma worker_job_completes_witness :
  ∃ shm' st', worker_job_simulate env0 (po_rand_seed 1) 1 (λ t, if t <? 50 then 16 else 17) 0 0 8 shm1 =
      Some (shm', st') ∧ last_finished_ticket shm' = [8; 0; 0; 0].
Proof.
  destruct (worker_job_completes env0 (po_rand_seed 1) 1 (λ t, if t <? 50 then 16 else 17) 0 0 8 shm1
    (mk_worker WORKER_STATUS_FREE 0 0 false)) as (shm' & st' & E & _ & _ & Hl).
  - apply po_rand_seed_ok.
  - simpl. lia.
  - reflexivity.
  - exists shm', st'. split; [exact E|exact Hl].
Defined.

(** Requests and answers survive the wire: the broker decodes the process,
    service and class a customer sent and the service a worker sent; the
    customer reads the ticket the broker acknowledged, and the worker reads
    the ticket of a work item, 0 meaning none. *)
Theorem broker_messages_roundtrip (pid service vip ticket wait : Z) (rest : list Z) (ex : broker_exchange) :
  - 2 ^ 31 <= pid < 2 ^ 31 → 0 <= service < 2 ^ 32 → - 2 ^ 31 <= vip < 2 ^ 31 → 0 <= ticket < 2 ^ 32 →
  0 <= ex_fd ex → ex_send_rc ex = 0 →
  read_join (join_request pid service vip ++ rest) = mk_join pid service vip ∧
  read_get_work (get_work_request pid service ++ rest) = mk_get_work pid service ∧
  (ex_reply ex = Some (MSG_TYPE_JOIN_ACK, join_ack_bytes ticket wait ++ rest) →
     join_queue_broker ex = Some ticket) ∧
  (ex_reply ex = Some (MSG_TYPE_WORK_ITEM, work_item_bytes ticket vip ++ rest) →
     retrieve_next_ticket_broker true ex = ticket).
Proof.
  intros Hp Hs Hv Ht Hfd Hrc.
  assert (∀ z l, 0 <= z < 2 ^ 32 → field (le_bytes 4 z ++ l) 0 = z) as F0.
  { intros z l Hz. by apply (field_at [] l z 0). }
  split_and!.
  - unfold read_join, join_request. rewrite <- !app_assoc. rewrite F0 by apply u32_range.
    rewrite (field_at (le_bytes 4 (u32 pid))), (u32_small service) by (done || apply u32_range || lia).
    rewrite (app_assoc (le_bytes 4 (u32 pid))).
    rewrite (field_at (le_bytes 4 (u32 pid) ++ le_bytes 4 service)) by (done || apply u32_range).
    by rewrite !i32_u32.
  - unfold read_get_work, get_work_request. rewrite <- !app_assoc. rewrite F0 by apply u32_range.
    rewrite (field_at (le_bytes 4 (u32 pid))), (u32_small service) by (done || apply u32_range || lia).
    by rewrite i32_u32.
  - intros E. unfold join_queue_broker. rewrite E, Hrc, (proj2 (Z.ltb_ge _ _)) by lia. cbn [negb Z.eqb].
    rewrite Z.eqb_refl. unfold join_ack_bytes. rewrite <- app_assoc, F0 by lia. done.
  - intros E. unfold retrieve_next_ticket_broker. rewrite E, Hrc, (proj2 (Z.ltb_ge _ _)) by lia. cbn [negb Z.eqb].
    rewrite Z.eqb_refl. unfold work_item_bytes. rewrite <- app_assoc, F0 by lia. case (Z.ltb_spec 0 ticket); lia.
Qed.

Lemma broker_messages_roundtrip_witness :
  read_join (join_request 4242 3 1 ++ [9]) = mk_join 4242 3 1.
Proof. apply (broker_messages_roundtrip 4242 3 1 7 0 [9] (mk_exchange 5 0 None)); simpl; lia. Defined.

(** A customer overtaken by a VIP leaves unserved: with ticket 7 (regular)
    and ticket 8 (VIP) waiting, the broker hands out 8 first; when that job is
    done, the customer with ticket 7 takes the finished ticket 8 for its own
    turn and leaves satisfied, while its item is still in the broker's queue. *)
Theorem overtaken_customer_leaves :
  let r := run_request ctx8 MSG_TYPE_GET_WORK (work_buf 0) 0 20 in
  let shm := default shm1 (fst <$> worker_job_simulate env0 (po_rand_seed 1) 0 (λ _, 9) 0 0 8 shm1) in
  r.2 = [ReleaseRx; Send MSG_TYPE_WORK_ITEM (work_item_bytes 8 1); CloseClient] ∧
  wait_service 7 [mk_obs true true 9 0 0; mk_obs true true 9 0 (default 0 (last_finished_ticket shm !! 0%nat))] =
    Some (true, 0) ∧
  (pq_elements <$> queues r.1 !! 0%nat) = Some [item7].
Proof. vm_compute. done. Qed.
