(* ===== verification/Threadpool.v ===== *)
(** * Thread pool ([app/libs/ring1/postoffice/concurrency/threadpool.c])

    A bounded queue of tasks, workers that wait on a condition variable, and a
    shutdown that is graceful or not.  All shared fields are accessed under
    the pool's mutex, so each critical section is one step; waiting on the
    condition variable ends a section and waking up begins a new one.  The
    sleepers that a signal or a spurious wake-up has released are marked.  A
    task is a number; the linked list of the source is a list with its
    separate counter. *)

From Stdlib Require Import ZArith Lia.
From stdpp Require Import base list numbers.
From S2P Require Import Prelude.

Local Open Scope Z_scope.

Definition task : Type := Z.
Definition SIZE_MAX : Z := 2 ^ 64 - 1.

Record threadpool_s : Type := mk_tp {
  tp_queue : list task;      (* from queue_head to queue_tail *)
  queue_count : Z;
  queue_size : Z;
  tp_shutdown : bool;
  tp_graceful : bool
}.

(** The pool [tp_create] sets up before it starts threads. *)
Definition tp_create_pool (queue_size : Z) : threadpool_s :=
  mk_tp [] 0 (if queue_size =? 0 then SIZE_MAX else queue_size) false false.

(** Result code and pool; a result of 0 is followed by a signal. *)
Definition tp_submit (pool : threadpool_s) (t : task) : alloc (Z * threadpool_s) :=
  if tp_shutdown pool then mret (-1, pool)
  else if queue_size pool <=? queue_count pool then mret (-1, pool)
  else
    ok ← malloc;
    if negb ok then mret (-1, pool)
    else mret (0, mk_tp (tp_queue pool ++ [t]) (u64 (queue_count pool + 1)) (queue_size pool)
                    (tp_shutdown pool) (tp_graceful pool)).

Inductive wpc : Type :=
| WLock                    (* about to take the mutex *)
| WSleep (woken : bool)    (* in pthread_cond_wait *)
| WRun (t : task)
| WExit.

(** One critical section of [tp_worker]. *)
Definition tp_worker_section (pool : threadpool_s) : threadpool_s * wpc :=
  if (queue_count pool =? 0) && negb (tp_shutdown pool) then (pool, WSleep false)
  else if tp_shutdown pool && (negb (tp_graceful pool) || (queue_count pool =? 0)) then (pool, WExit)
  else
    match tp_queue pool with
    | t :: q => (mk_tp q (u64 (queue_count pool - 1)) (queue_size pool) (tp_shutdown pool) (tp_graceful pool), WRun t)
    | [] => (pool, WLock)
    end.

(** First section of [tp_destroy]. *)
Definition tp_destroy_begin (pool : threadpool_s) (graceful : bool) : threadpool_s :=
  mk_tp (tp_queue pool) (queue_count pool) (queue_size pool) true graceful.

Definition wake_all (ws : list wpc) : list wpc :=
  (λ p, match p with WSleep _ => WSleep true | p => p end) <$> ws.

Definition task_of (p : wpc) : list task := if p is WRun t then [t] else [].

(** The pool and its workers, with the tasks accepted, started (in order) and
    finished so far. *)
Record tp_world : Type := mk_world {
  w_pool : threadpool_s;
  w_workers : list wpc;
  w_accepted : list task;
  w_started : list task;
  w_finished : list task
}.

Inductive tp_step : tp_world → tp_world → Prop :=
| tp_submit_signal pool pool' ws i t m m' acc st fin :
    tp_submit pool t m = ((0, pool'), m') → ws !! i = Some (WSleep false) →
    tp_step (mk_world pool ws acc st fin)
            (mk_world pool' (<[i := WSleep true]> ws) (acc ++ [t]) st fin)
| tp_submit_silent pool pool' ws t m m' acc st fin :
    tp_submit pool t m = ((0, pool'), m') → (WSleep false ∉ ws) →
    tp_step (mk_world pool ws acc st fin) (mk_world pool' ws (acc ++ [t]) st fin)
| tp_worker_enter pool pool' ws i p p' acc st fin :
    ws !! i = Some p → p = WLock ∨ p = WSleep true → tp_worker_section pool = (pool', p') →
    tp_step (mk_world pool ws acc st fin)
            (mk_world pool' (<[i := p']> ws) acc (st ++ task_of p') fin)
| tp_worker_done pool ws i t acc st fin :
    ws !! i = Some (WRun t) →
    tp_step (mk_world pool ws acc st fin) (mk_world pool (<[i := WLock]> ws) acc st (fin ++ [t]))
| tp_spurious pool ws i acc st fin :
    ws !! i = Some (WSleep false) →
    tp_step (mk_world pool ws acc st fin) (mk_world pool (<[i := WSleep true]> ws) acc st fin)
| tp_destroy pool ws graceful acc st fin :
    tp_shutdown pool = false →
    tp_step (mk_world pool ws acc st fin)
            (mk_world (tp_destroy_begin pool graceful) (wake_all ws) acc st fin).

Definition tp_initial (threads : nat) (queue_size : Z) : tp_world :=
  mk_world (tp_create_pool queue_size) (replicate threads WLock) [] [] [].

(** ** Invariant *)

Definition running_tasks (ws : list wpc) : list task :=
  omap (λ p, match p with WRun t => Some t | _ => None end) ws.

Definition awake (p : wpc) : Prop := match p with WLock | WSleep true | WRun _ => True | _ => False end.

Record tp_inv (w : tp_world) : Prop := mk_tp_inv {
  ti_count : queue_count (w_pool w) = Z.of_nat (length (tp_queue (w_pool w)));
  ti_bound : queue_count (w_pool w) <= queue_size (w_pool w) <= SIZE_MAX;
  ti_order : w_accepted w = w_started w ++ tp_queue (w_pool w);
  ti_started : w_started w ≡ₚ w_finished w ++ running_tasks (w_workers w);
  ti_exit : WExit ∈ w_workers w → tp_shutdown (w_pool w) = true ∧
              (tp_graceful (w_pool w) = true → tp_queue (w_pool w) = []);
  ti_awake : tp_shutdown (w_pool w) = false → tp_queue (w_pool w) ≠ [] → w_workers w ≠ [] →
              Exists awake (w_workers w)
}.

(** ** Lemmas *)

Lemma running_cons p ws : running_tasks (p :: ws) = task_of p ++ running_tasks ws.
Proof. by destruct p. Qed.

Lemma running_insert ws i p p' :
  ws !! i = Some p → running_tasks (<[i := p']> ws) ++ task_of p ≡ₚ running_tasks ws ++ task_of p'.
Proof.
  revert i. induction ws as [|a ws IH]; intros [|i] H; simpl in H; simplify_eq; cbn [insert list_insert];
    rewrite !running_cons, <- !app_assoc.
  - rewrite (Permutation_app_comm (running_tasks ws) (task_of p)),
      (Permutation_app_comm (running_tasks ws) (task_of p')), !app_assoc.
    by rewrite (Permutation_app_comm (task_of p') (task_of p)).
  - by rewrite (IH i H).
Qed.

Lemma running_wake_all ws : running_tasks (wake_all ws) = running_tasks ws.
Proof.
  induction ws as [|p ws IH]; [done|]. unfold wake_all in *. cbn [fmap list_fmap].
  rewrite !running_cons, IH. by destruct p.
Qed.

Lemma submit_spec pool t m pool' m' :
  tp_submit pool t m = ((0, pool'), m') → queue_size pool <= SIZE_MAX → 0 <= queue_count pool →
  tp_shutdown pool = false ∧ queue_count pool < queue_size pool ∧
  pool' = mk_tp (tp_queue pool ++ [t]) (queue_count pool + 1) (queue_size pool) false (tp_graceful pool).
Proof.
  unfold tp_submit. destruct (tp_shutdown pool) eqn:Es; [done|].
  case (Z.leb_spec (queue_size pool) (queue_count pool)); intros Hc; [done|]. unfold SIZE_MAX.
  intros E Hs H0. unfold mbind, alloc_bind in E. destruct (malloc m) as [[] m1]; [|done].
  injection E as <- <-. rewrite u64_small by lia. done.
Qed.

Lemma insert_awake ws i p : (i < length ws)%nat → awake p → Exists awake (<[i := p]> ws).
Proof.
  intros Hi Hp. apply list.Exists_exists. exists p. split; [|done].
  apply (list_elem_of_lookup_2 _ i). by apply list_lookup_insert_eq.
Qed.

(** A critical section only moves the front task from the queue to the worker. *)
Lemma section_spec pool pool' p :
  tp_worker_section pool = (pool', p) → queue_count pool = Z.of_nat (length (tp_queue pool)) →
  queue_count pool <= SIZE_MAX →
  queue_count pool' = Z.of_nat (length (tp_queue pool')) ∧ queue_size pool' = queue_size pool ∧
  tp_shutdown pool' = tp_shutdown pool ∧ tp_graceful pool' = tp_graceful pool ∧
  tp_queue pool = task_of p ++ tp_queue pool' ∧ p ≠ WLock ∧ p ≠ WSleep true ∧
  (p = WExit → tp_shutdown pool = true ∧ (tp_graceful pool = true → tp_queue pool = [])) ∧
  (p = WSleep false → tp_queue pool = []).
Proof.
  unfold tp_worker_section, SIZE_MAX. intros E Hc Hb.
  case (Z.eqb_spec (queue_count pool) 0) as [Hz|Hz].
  - assert (tp_queue pool = []) as Eq by (apply nil_length_inv; lia). rewrite orb_true_r, andb_true_r, Eq in E.
    destruct (tp_shutdown pool) eqn:Es; simpl in E; simplify_eq; split_and!; try done; congruence.
  - rewrite orb_false_r in E. simpl in E. destruct (tp_queue pool) as [|t q] eqn:Eq; [simpl in Hc; lia|].
    simpl in Hc. destruct (tp_shutdown pool) eqn:Es, (tp_graceful pool) eqn:Eg; simpl in E; simplify_eq/=;
      split_and!; try done; try congruence; rewrite ?u64_small, ?Eq by lia; simpl; lia.
Qed.

Lemma exit_insert (ws : list wpc) (i : nat) p : WExit ∈ <[i := p]> ws → p = WExit ∨ WExit ∈ ws.
Proof.
  intros [j Hj]%list_elem_of_lookup. destruct (decide (i = j)) as [->|Hne].
  - left. pose proof (lookup_lt_Some _ _ _ Hj) as Hl. rewrite length_insert in Hl.
    rewrite list_lookup_insert_eq in Hj by done. by simplify_eq.
  - right. rewrite list_lookup_insert_ne in Hj by done. by eapply list_elem_of_lookup_2.
Qed.

Lemma exit_wake_all (ws : list wpc) : WExit ∈ wake_all ws → WExit ∈ ws.
Proof. unfold wake_all. intros (p & Hp & Hin)%list_elem_of_fmap. by destruct p. Qed.

(** Without shutdown nobody has left, so a worker that is not asleep is awake. *)
Lemma awake_exists w :
  tp_inv w → tp_shutdown (w_pool w) = false → (WSleep false ∉ w_workers w) → w_workers w ≠ [] →
  Exists awake (w_workers w).
Proof.
  intros Hi Hs Hns Hne. destruct (w_workers w) as [|p ws] eqn:E; [done|]. left.
  destruct p as [|[]| |]; simpl; try done; [destruct Hns; left|].
  destruct (ti_exit w Hi) as [? _]; [rewrite E; left|congruence].
Qed.

Lemma submit_inv pool pool' ws ws' t m m' acc st fin :
  tp_inv (mk_world pool ws acc st fin) → tp_submit pool t m = ((0, pool'), m') →
  running_tasks ws' ≡ₚ running_tasks ws → (WExit ∈ ws' → WExit ∈ ws) →
  (tp_shutdown pool = false → ws' ≠ [] → Exists awake ws') →
  tp_inv (mk_world pool' ws' (acc ++ [t]) st fin).
Proof.
  intros [Hc Hb Ho Hst Hx Ha] E Hrun Hex Haw. simpl in *.
  destruct (submit_spec _ _ _ _ _ E) as (Hs & Hlt & ->); [lia|lia|].
  constructor; simpl; try rewrite length_app; simpl.
  - lia.
  - lia.
  - by rewrite Ho, app_assoc.
  - by rewrite Hrun.
  - intros Hw. destruct (Hx (Hex Hw)). congruence.
  - auto.
Qed.

Lemma enter_inv pool pool' ws i p p' acc st fin :
  tp_inv (mk_world pool ws acc st fin) → ws !! i = Some p → p = WLock ∨ p = WSleep true →
  tp_worker_section pool = (pool', p') →
  tp_inv (mk_world pool' (<[i := p']> ws) acc (st ++ task_of p') fin).
Proof.
  intros [Hc Hb Ho Hst Hx Ha] Hp Hpc E. simpl in *.
  destruct (section_spec _ _ _ E Hc) as (Hc' & Hz & Hs & Hg & Hq & Hn1 & Hn2 & Hexit & Hsl); [unfold SIZE_MAX in *; lia|].
  assert (task_of p = []) as Ep by (by destruct Hpc as [-> | ->]).
  pose proof (running_insert ws i p p' Hp) as Hr. rewrite Ep, app_nil_r in Hr.
  constructor; simpl; rewrite ?Hz, ?Hs, ?Hg.
  - done.
  - rewrite Hc', Hq in *. rewrite length_app in *. lia.
  - by rewrite Ho, Hq, app_assoc.
  - by rewrite Hr, Hst, app_assoc.
  - intros [->|Hw]%exit_insert.
    + destruct (Hexit eq_refl) as [? Hgr]. split; [done|]. intros Hgt. specialize (Hgr Hgt). rewrite Hq in Hgr.
      by destruct (app_eq_nil _ _ Hgr).
    + destruct (Hx Hw) as [? Hgr]. split; [done|]. intros Hgt. specialize (Hgr Hgt). rewrite Hq in Hgr.
      by destruct (app_eq_nil _ _ Hgr).
  - intros Hsf Hqne _. apply insert_awake; [by eapply lookup_lt_Some|]. destruct p' as [|[]| |]; try done.
    + rewrite (Hsl eq_refl) in Hq. simpl in Hq. by rewrite <- Hq in Hqne.
    + destruct (Hexit eq_refl). congruence.
Qed.

Lemma tp_step_inv w w' : tp_step w w' → tp_inv w → tp_inv w'.
Proof.
  intros Hstep Hi. destruct Hstep as [pool pool' ws i t m m' acc st fin E Hi0|pool pool' ws t m m' acc st fin E Hns
    |pool pool' ws i p p' acc st fin Hp Hpc E|pool ws i t acc st fin Hp|pool ws i acc st fin Hp|pool ws gr acc st fin Hs].
  - pose proof (running_insert ws i _ (WSleep true) Hi0) as Hr. simpl in Hr. rewrite !app_nil_r in Hr.
    eapply submit_inv; [exact Hi|exact E|..].
    + exact Hr.
    + by intros [?|?]%exit_insert.
    + intros _ _. apply insert_awake; [by eapply lookup_lt_Some|done].
  - eapply submit_inv; [exact Hi|exact E|done|done|]. intros Hs Hne. by apply (awake_exists _ Hi).
  - by eapply enter_inv.
  - destruct Hi as [Hc Hb Ho Hst Hx Ha]. simpl in *.
    pose proof (running_insert ws i _ WLock Hp) as Hr. simpl in Hr. rewrite app_nil_r in Hr.
    constructor; simpl; try done.
    + rewrite Hst, <- Hr, <- app_assoc. apply Permutation_app_head. by rewrite Permutation_app_comm.
    + intros [?|Hw]%exit_insert; [done|auto].
    + intros _ _ _. apply insert_awake; [by eapply lookup_lt_Some|done].
  - destruct Hi as [Hc Hb Ho Hst Hx Ha]. simpl in *.
    pose proof (running_insert ws i _ (WSleep true) Hp) as Hr. simpl in Hr. rewrite !app_nil_r in Hr.
    constructor; simpl; try done.
    + by rewrite Hst, Hr.
    + intros [?|Hw]%exit_insert; [done|auto].
    + intros _ _ _. apply insert_awake; [by eapply lookup_lt_Some|done].
  - destruct Hi as [Hc Hb Ho Hst Hx Ha]. simpl in *. constructor; simpl; try done.
    + by rewrite running_wake_all.
    + intros Hw%exit_wake_all. destruct (Hx Hw). congruence.
Qed.

Lemma running_none ws : Forall (λ p, task_of p = []) ws → running_tasks ws = [].
Proof. induction 1 as [|p ws Hp _ IH]; [done|]. by rewrite running_cons, Hp. Qed.

Lemma tp_reachable n size w :
  0 <= size <= SIZE_MAX → star tp_step (tp_initial n size) w → tp_inv w.
Proof.
  intros Hs Hr. eapply (star_invariant tp_step tp_inv); [apply tp_step_inv|exact Hr|].
  constructor; simpl; try done.
  - case (Z.eqb_spec size 0); unfold SIZE_MAX in *; lia.
  - by rewrite running_none by by apply Forall_replicate.
  - intros Hx. apply elem_of_replicate in Hx as [? _]. done.
Qed.

Lemma workers_count n size w : star tp_step (tp_initial n size) w → length (w_workers w) = n.
Proof.
  intros Hr. eapply (star_invariant tp_step (λ w, length (w_workers w) = n)); [|exact Hr|apply length_replicate].
  intros a b Hstep Ha. destruct Hstep; simpl in *; rewrite ?length_insert; try done.
  unfold wake_all. by rewrite length_fmap.
Qed.

(** ** Properties *)

(** C26. The pool runs every accepted task exactly once, in the order of
    submission: at any time the accepted tasks are those started so far, in
    order, followed by the queue; the started ones are finished or running in
    one worker; and when all workers have left after a graceful shutdown, all
    accepted tasks are finished. *)
Theorem threadpool_runs_tasks_once (n : nat) (size : Z) (w : tp_world) :
  0 <= size <= SIZE_MAX → star tp_step (tp_initial n size) w →
  w_accepted w = w_started w ++ tp_queue (w_pool w) ∧
  w_started w ≡ₚ w_finished w ++ running_tasks (w_workers w) ∧
  ((0 < n)%nat → tp_graceful (w_pool w) = true → Forall (λ p, p = WExit) (w_workers w) →
     w_finished w ≡ₚ w_accepted w).
Proof.
  intros Hs Hr. pose proof (tp_reachable _ _ _ Hs Hr) as [Hc Hb Ho Hst Hx Ha].
  pose proof (workers_count _ _ _ Hr) as Hl. split_and!; [done|done|].
  intros Hn Hg Hall. rewrite Ho. destruct Hx as [_ Hq].
  { destruct (w_workers w) as [|p ws] eqn:E; [simpl in Hl; lia|]. apply Forall_cons_1 in Hall as [-> _]. left. }
  rewrite (Hq Hg), app_nil_r, Hst. assert (running_tasks (w_workers w) = []) as ->; [|by rewrite app_nil_r].
  apply running_none. eapply list.Forall_impl; [exact Hall|]. by intros p ->.
Qed.

(** No task is stranded: while the pool is not shut down, a non-empty queue
    always has a worker that is running, about to look, or already woken; a
    queue with every worker asleep cannot occur. *)
Theorem threadpool_no_stranded_task (n : nat) (size : Z) (w : tp_world) :
  (0 < n)%nat → 0 <= size <= SIZE_MAX → star tp_step (tp_initial n size) w →
  tp_shutdown (w_pool w) = false → tp_queue (w_pool w) ≠ [] →
  ∃ i p, w_workers w !! i = Some p ∧ awake p.
Proof.
  intros Hn Hs Hr Hsh Hq. pose proof (workers_count _ _ _ Hr) as Hl.
  pose proof (ti_awake _ (tp_reachable _ _ _ Hs Hr) Hsh Hq) as Ha.
  destruct (proj1 (list.Exists_exists _ _) (Ha ltac:(destruct (w_workers w); [simpl in Hl; lia|done])))
    as (p & [i Hi]%list_elem_of_lookup & Hp). eauto.
Qed.

(** One worker that sleeps, is woken by a submission, runs the task and leaves. *)
Lemma one_task_run :
  star tp_step (tp_initial 1 4)
    (mk_world (mk_tp [] 0 4 true true) [WExit] [7] [7] [7]).
Proof.
  eapply star_step; [eapply (tp_worker_enter _ _ _ 0 WLock); [done|by left|reflexivity]|].
  eapply star_step; [eapply (tp_submit_signal _ _ _ 0 7 [] []); [reflexivity|done]|].
  eapply star_step; [eapply (tp_worker_enter _ _ _ 0 (WSleep true)); [done|by right|reflexivity]|].
  eapply star_step; [eapply (tp_destroy _ _ true); reflexivity|].
  eapply star_step; [eapply (tp_worker_done _ _ 0 7); reflexivity|].
  eapply star_step; [eapply (tp_worker_enter _ _ _ 0 WLock); [done|by left|reflexivity]|].
  apply star_refl.
Qed.

Lemma threadpool_runs_tasks_once_witness :
  let w := mk_world (mk_tp [] 0 4 true true) [WExit] [7] [7] [7] in
  star tp_step (tp_initial 1 4) w ∧ w_finished w ≡ₚ w_accepted w.
Proof.
  intros w. split; [apply one_task_run|].
  apply (threadpool_runs_tasks_once 1 4 (mk_world (mk_tp [] 0 4 true true) [WExit] [7] [7] [7]));
    [unfold SIZE_MAX; lia|apply one_task_run|lia|reflexivity|by repeat constructor].
Defined.

Lemma threadpool_no_stranded_task_witness :
  ∃ i p, [WSleep true] !! i = Some p ∧ awake p.
Proof.
  apply (threadpool_no_stranded_task 1 4 (mk_world (mk_tp [7] 1 4 false false) [WSleep true] [7] [] []));
    [lia|unfold SIZE_MAX; lia| |reflexivity|discriminate].
  eapply star_step; [eapply (tp_worker_enter _ _ _ 0 WLock); [done|by left|reflexivity]|].
  eapply star_step; [eapply (tp_submit_signal _ _ _ 0 7 [] []); [reflexivity|done]|].
  apply star_refl.
Defined.
