(* ===== verification/Index.v ===== *)
(** * In-memory index ([app/libs/ring3/postoffice/storage/index.c])

    Binary keys to the place of their latest record in the log file.  The
    entries live in a heap; the hash table maps key bytes to the entry's
    address, so an update writes through the pointer and a freed entry is gone
    from the heap.  A table key is the bytes the entry's [key] points to, which
    nothing changes after the copy.  [None] is the use of a freed entry.  Keys
    are non-null; a missing handle is refused like an empty key. *)

From Stdlib Require Import ZArith Lia.
From stdpp Require Import base list numbers gmap.
From S2P Require Import Prelude Prime Hashtable HashtableGrowth.

Local Open Scope Z_scope.

Definition loc : Type := nat.

Record idx_entry : Type := mk_entry {
  ie_key : list Z;
  ie_offset : Z;
  ie_len : Z
}.

Record po_index : Type := mk_index {
  idx_ht : po_hashtable (list Z) (option loc);
  idx_heap : gmap loc idx_entry;
  idx_next : loc    (* addresses from here on were never handed out *)
}.

Fixpoint memcmp (a b : list Z) : Z :=
  match a, b with
  | x :: a, y :: b => if x =? y then memcmp a b else x - y
  | _, _ => 0
  end.

Definition cmp_bin (a b : list Z) : Z :=
  if negb (Nat.eqb (length a) (length b)) then 1 else memcmp a b.

(** FNV-1a *)
Definition hash_bin (key : list Z) : Z :=
  foldl (λ h b, u64 (Z.lxor h b * 1099511628211)) 1469598103934665603 key.

Definition po_index_create (expected_entries : Z) : alloc (option po_index) :=
  ok ← malloc;
  if negb ok then mret None
  else
    ht ← po_hashtable_create_sized (if expected_entries =? 0 then 128 else expected_entries);
    mret (match ht with Some t => Some (mk_index t ∅ 0%nat) | None => None end).

(** [while (it && po_hashtable_iter_next(it)) { free(e->key); free(e); }]; the
    result is what is left on the heap. *)
Definition po_index_destroy (idx : po_index) : alloc (gmap loc idx_entry) :=
  it ← po_hashtable_iterator (idx_ht idx);
  mret (match it with
        | None => idx_heap idx
        | Some it =>
            foldl (λ h n, match node_value n with Some l => delete l h | None => h end)
              (idx_heap idx) (iterate (length (concat (ht_buckets (idx_ht idx))) + 1) it)
        end).

(** Result code and new index. *)
Definition po_index_put (idx : po_index) (key : list Z) (offset len : Z) :
    alloc (option (Z * po_index)) :=
  if Nat.eqb (length key) 0 then mret (Some (-1, idx))
  else
    match po_hashtable_get cmp_bin hash_bin None (idx_ht idx) key with
    | Some existing =>
        mret (e ← idx_heap idx !! existing;
              Some (0, mk_index (idx_ht idx) (<[existing := mk_entry (ie_key e) offset len]> (idx_heap idx))
                         (idx_next idx)))
    | None =>
        ok ← malloc;
        if negb ok then mret (Some (-1, idx))
        else
          ok ← malloc_bytes (Z.of_nat (length key));
          if negb ok then mret (Some (-1, idx))
          else
            let e := idx_next idx in
            ins ← po_hashtable_put cmp_bin hash_bin (idx_ht idx) key (Some e);
            if ins.1 <? 0 then mret (Some (-1, mk_index ins.2 (idx_heap idx) (S e)))
            else mret (Some (0, mk_index ins.2 (<[e := mk_entry key offset len]> (idx_heap idx)) (S e)))
    end.

(** [Some None] is the result -1, [Some (Some (offset, len))] success. *)
Definition po_index_get (idx : po_index) (key : list Z) : option (option (Z * Z)) :=
  if Nat.eqb (length key) 0 then Some None
  else
    match po_hashtable_get cmp_bin hash_bin None (idx_ht idx) key with
    | None => Some None
    | Some l => e ← idx_heap idx !! l; Some (Some (ie_offset e, ie_len e))
    end.

Definition po_index_remove (idx : po_index) (key : list Z) : alloc (option (Z * po_index)) :=
  if Nat.eqb (length key) 0 then mret (Some (-1, idx))
  else
    match po_hashtable_get cmp_bin hash_bin None (idx_ht idx) key with
    | None => mret (Some (-1, idx))
    | Some l =>
        match idx_heap idx !! l with
        | None => mret None
        | Some e =>
            r ← po_hashtable_remove cmp_bin hash_bin (idx_ht idx) (ie_key e);
            mret (Some (0, mk_index r.2 (delete l (idx_heap idx)) (idx_next idx)))
        end
    end.

(** ** Specification *)

Definition is_key (k : list Z) : Prop := True.

(** What the index says about a key. *)
Definition idx_find (idx : po_index) (key : list Z) : option (Z * Z) :=
  l ← ht_find cmp_bin hash_bin (idx_ht idx) key;
  l ← l; e ← idx_heap idx !! l; Some (ie_offset e, ie_len e).

(** Table and heap describe each other: every table value points to the live
    entry of its key, and every live entry is in the table. *)
Record idx_wf (idx : po_index) : Prop := mk_idx_wf {
  iw_ht : ht_wf cmp_bin hash_bin is_key (idx_ht idx);
  iw_live : ∀ k v, ht_find cmp_bin hash_bin (idx_ht idx) k = Some v →
    ∃ l e, v = Some l ∧ idx_heap idx !! l = Some e ∧ ie_key e = k;
  iw_owned : ∀ l e, idx_heap idx !! l = Some e →
    ht_find cmp_bin hash_bin (idx_ht idx) (ie_key e) = Some (Some l);
  iw_keys : ht_find cmp_bin hash_bin (idx_ht idx) [] = None;
  iw_fresh : ∀ l, is_Some (idx_heap idx !! l) → (l < idx_next idx)%nat
}.

(** ** Lemmas *)

Lemma memcmp_refl a : memcmp a a = 0.
Proof. induction a as [|x a IH]; simpl; [done|]. by rewrite Z.eqb_refl. Qed.

Lemma memcmp_zero a b : length a = length b → memcmp a b = 0 → a = b.
Proof.
  revert b. induction a as [|x a IH]; intros [|y b] Hl H; simpl in *; try done.
  case (Z.eqb_spec x y) in H; [subst; f_equal; auto|lia].
Qed.

Lemma cmp_bin_spec a b : (cmp_bin a b =? 0) = bool_decide (a = b).
Proof.
  unfold cmp_bin. destruct (Nat.eqb_spec (length a) (length b)) as [Hl|Hl]; simpl.
  - case_bool_decide as E; [subst; by rewrite memcmp_refl|].
    apply Z.eqb_neq. intros H. by apply E, memcmp_zero.
  - rewrite bool_decide_false; [done|]. by intros ->.
Qed.

Lemma cmp_bin_zero a b : cmp_bin a b = 0 ↔ a = b.
Proof. rewrite <- Z.eqb_eq, cmp_bin_spec. by rewrite bool_decide_eq_true. Qed.

#[export] Instance bin_contract : KeyContract is_key cmp_bin hash_bin.
Proof.
  constructor; intros *; rewrite ?cmp_bin_zero; intros; subst; done.
Qed.

Section index_lemmas.
Implicit Types (idx : po_index) (k key : list Z).
Notation find := (ht_find cmp_bin hash_bin).

Lemma get_find idx key :
  po_hashtable_get cmp_bin hash_bin None (idx_ht idx) key = mjoin (find (idx_ht idx) key).
Proof. unfold po_hashtable_get, ht_find. by destruct (chain_find _ _ _). Qed.

Lemma get_cases idx key :
  idx_wf idx →
  (po_hashtable_get cmp_bin hash_bin None (idx_ht idx) key = None ∧ find (idx_ht idx) key = None ∧
     idx_find idx key = None) ∨
  ∃ l e, po_hashtable_get cmp_bin hash_bin None (idx_ht idx) key = Some l ∧
    find (idx_ht idx) key = Some (Some l) ∧ idx_heap idx !! l = Some e ∧ ie_key e = key ∧
    idx_find idx key = Some (ie_offset e, ie_len e).
Proof.
  intros Hwf. rewrite get_find. unfold idx_find.
  destruct (find (idx_ht idx) key) as [v|] eqn:E; [|by left]. right.
  destruct (iw_live _ Hwf _ _ E) as (l & e & -> & He & Hk). exists l, e. simpl. by rewrite He.
Qed.

Lemma idx_find_nil idx : idx_wf idx → idx_find idx [] = None.
Proof. intros Hwf. unfold idx_find. by rewrite (iw_keys _ Hwf). Qed.

Lemma index_get_spec idx key : idx_wf idx → po_index_get idx key = Some (idx_find idx key).
Proof.
  intros Hwf. unfold po_index_get. destruct (Nat.eqb_spec (length key) 0) as [Hl|_].
  { apply nil_length_inv in Hl as ->. by rewrite idx_find_nil. }
  destruct (get_cases idx key Hwf) as [(-> & _ & ->)|(l & e & -> & _ & He & _ & ->)]; [done|].
  by rewrite He.
Qed.

(** Overwriting an entry through its pointer. *)
Lemma update_spec idx key l e offset len :
  idx_wf idx → find (idx_ht idx) key = Some (Some l) → idx_heap idx !! l = Some e → ie_key e = key →
  let idx' := mk_index (idx_ht idx) (<[l := mk_entry (ie_key e) offset len]> (idx_heap idx)) (idx_next idx) in
  idx_wf idx' ∧ ∀ k, idx_find idx' k = if bool_decide (key = k) then Some (offset, len) else idx_find idx k.
Proof.
  intros Hwf Hf He Hk idx'. split.
  - split; simpl; try apply Hwf.
    + intros k v Hv. destruct (iw_live _ Hwf _ _ Hv) as (l' & e' & -> & He' & Hk').
      destruct (decide (l = l')) as [<-|Hne].
      * exists l, (mk_entry (ie_key e) offset len). rewrite lookup_insert_eq. simplify_eq. done.
      * exists l', e'. by rewrite lookup_insert_ne.
    + intros l' e' Hl'. destruct (decide (l = l')) as [<-|Hne].
      * rewrite lookup_insert_eq in Hl'. simplify_eq. simpl. by apply Hwf.
      * rewrite lookup_insert_ne in Hl' by done. by apply Hwf.
    + intros l' Hl'. apply (iw_fresh _ Hwf). destruct (decide (l = l')) as [<-|Hne]; [by eexists|].
      by rewrite lookup_insert_ne in Hl'.
  - intros k. unfold idx_find. simpl. case_bool_decide as E.
    + subst k. rewrite Hf. simpl. by rewrite lookup_insert_eq.
    + destruct (find (idx_ht idx) k) as [v|] eqn:Ek; [|done]. simpl.
      destruct (iw_live _ Hwf _ _ Ek) as (l' & e' & -> & He' & Hk'). simpl.
      rewrite lookup_insert_ne; [done|]. intros <-. simplify_eq.
Qed.

(** A table with a new node and the heap with its entry. *)
Lemma insert_spec idx key t' offset len :
  idx_wf idx → key ≠ [] → find (idx_ht idx) key = None →
  ht_wf cmp_bin hash_bin is_key t' →
  (∀ k, find t' k = if cmp_bin key k =? 0 then Some (Some (idx_next idx)) else find (idx_ht idx) k) →
  let idx' := mk_index t' (<[idx_next idx := mk_entry key offset len]> (idx_heap idx)) (S (idx_next idx)) in
  idx_wf idx' ∧ ∀ k, idx_find idx' k = if bool_decide (key = k) then Some (offset, len) else idx_find idx k.
Proof.
  intros Hwf Hne Hn Hwf' Hf idx'.
  assert (idx_heap idx !! idx_next idx = None) as Hfr.
  { destruct (idx_heap idx !! idx_next idx) eqn:E; [|done].
    assert (idx_next idx < idx_next idx)%nat by (apply (iw_fresh _ Hwf); by eexists). lia. }
  assert (∀ k v, find (idx_ht idx) k = Some v → ∃ l e, v = Some l ∧ l ≠ idx_next idx ∧
    idx_heap idx !! l = Some e ∧ ie_key e = k) as Hold.
  { intros k v Hv. destruct (iw_live _ Hwf _ _ Hv) as (l & e & -> & He & Hk).
    exists l, e. split_and!; try done. intros ->. congruence. }
  setoid_rewrite cmp_bin_spec in Hf. split.
  - split; simpl; try done.
    + intros k v Hv. rewrite Hf in Hv. case_bool_decide as E.
      * simplify_eq. exists (idx_next idx), (mk_entry k offset len). by rewrite lookup_insert_eq.
      * destruct (Hold k v Hv) as (l & e & -> & Hl & He & Hk). exists l, e.
        by rewrite lookup_insert_ne.
    + intros l e Hl. rewrite Hf. destruct (decide (l = idx_next idx)) as [->|Hl'].
      * rewrite lookup_insert_eq in Hl. simplify_eq. simpl. by rewrite bool_decide_true.
      * rewrite lookup_insert_ne in Hl by done. rewrite bool_decide_false; [by apply Hwf|].
        intros ->. pose proof (iw_owned _ Hwf _ _ Hl). congruence.
    + rewrite Hf, bool_decide_false by done. apply Hwf.
    + intros l Hl. destruct (decide (l = idx_next idx)) as [->|Hl']; [lia|].
      rewrite lookup_insert_ne in Hl by done. pose proof (iw_fresh _ Hwf l Hl). lia.
  - intros k. unfold idx_find. simpl. rewrite Hf. case_bool_decide as E; simpl.
    + by rewrite lookup_insert_eq.
    + destruct (find (idx_ht idx) k) as [v|] eqn:Ek; [|done].
      destruct (Hold k v Ek) as (l & e & -> & Hl & He & Hk). simpl. by rewrite lookup_insert_ne.
Qed.

(** The table replaced by one with the same contents. *)
Lemma same_table_spec idx t' next :
  idx_wf idx → ht_wf cmp_bin hash_bin is_key t' → (∀ k, find t' k = find (idx_ht idx) k) →
  (idx_next idx <= next)%nat →
  let idx' := mk_index t' (idx_heap idx) next in
  idx_wf idx' ∧ ∀ k, idx_find idx' k = idx_find idx k.
Proof.
  intros Hwf Hwf' Hf Hn idx'. split.
  - split; simpl; try done; try setoid_rewrite Hf; try apply Hwf.
    intros l Hl. pose proof (iw_fresh _ Hwf l Hl). lia.
  - intros k. unfold idx_find. simpl. by rewrite Hf.
Qed.

Lemma delete_spec idx key t' l :
  idx_wf idx → find (idx_ht idx) key = Some (Some l) → ht_wf cmp_bin hash_bin is_key t' →
  (∀ k, find t' k = if cmp_bin key k =? 0 then None else find (idx_ht idx) k) →
  let idx' := mk_index t' (delete l (idx_heap idx)) (idx_next idx) in
  idx_wf idx' ∧ ∀ k, idx_find idx' k = if bool_decide (key = k) then None else idx_find idx k.
Proof.
  intros Hwf Hl Hwf' Hf idx'. setoid_rewrite cmp_bin_spec in Hf.
  assert (∀ k v, key ≠ k → find (idx_ht idx) k = Some v → ∃ l' e, v = Some l' ∧ l ≠ l' ∧
    idx_heap idx !! l' = Some e ∧ ie_key e = k) as Hold.
  { intros k v Hne Hv. destruct (iw_live _ Hwf _ _ Hv) as (l' & e & -> & He & Hk).
    exists l', e. split_and!; try done. intros ->.
    destruct (iw_live _ Hwf _ _ Hl) as (l'' & e' & ? & He' & ?). simplify_eq. }
  split.
  - split; simpl; try done.
    + intros k v Hv. rewrite Hf in Hv. case_bool_decide as E; [done|].
      destruct (Hold k v E Hv) as (l' & e & -> & Hne & He & Hk). exists l', e.
      by rewrite lookup_delete_ne.
    + intros l' e Hl'. apply lookup_delete_Some in Hl' as [Hne He]. rewrite Hf.
      rewrite bool_decide_false; [by apply Hwf|]. intros ->.
      pose proof (iw_owned _ Hwf _ _ He). congruence.
    + rewrite Hf. case_bool_decide; [done|]. apply Hwf.
    + intros l' [e He]. apply lookup_delete_Some in He as [_ He]. apply (iw_fresh _ Hwf). by eexists.
  - intros k. unfold idx_find. simpl. rewrite Hf. case_bool_decide as E; [done|].
    destruct (find (idx_ht idx) k) as [v|] eqn:Ek; [|done].
    destruct (Hold k v E Ek) as (l' & e & -> & Hne & He & Hk). simpl. by rewrite lookup_delete_ne.
Qed.

Definition idx_size idx : Z := ht_size (idx_ht idx).

(** [po_index_put] for every allocator outcome.  It cannot fail on a key the
    index already has. *)
Lemma index_put_always idx key offset len :
  idx_wf idx → idx_size idx < 2 ^ 64 - 1 →
  always (po_index_put idx key offset len) (λ r, ∃ rc idx', r = Some (rc, idx') ∧ idx_wf idx' ∧
    idx_size idx <= idx_size idx' <= idx_size idx + 1 ∧
    ((rc = 0 ∧ key ≠ [] ∧
        ∀ k, idx_find idx' k = if bool_decide (key = k) then Some (offset, len) else idx_find idx k) ∨
     (rc = -1 ∧ idx_find idx key = None ∧ ∀ k, idx_find idx' k = idx_find idx k))).
Proof.
  intros Hwf Hsz. unfold po_index_put. destruct (Nat.eqb_spec (length key) 0) as [Hl|Hl].
  { apply always_ret. exists (-1), idx. apply nil_length_inv in Hl as ->.
    split_and!; try done; [lia..|]. right. by rewrite idx_find_nil. }
  assert (key ≠ []) as Hne by (by intros ->).
  destruct (get_cases idx key Hwf) as [(-> & Hf & Hn)|(l & e & -> & Hf & He & Hk & _)].
  2: { apply always_ret. rewrite He. simpl. destruct (update_spec idx key l e offset len) as [H1 H2]; try done.
       eexists _, _. split; [done|]. split_and!; [done|unfold idx_size; simpl; lia..|].
       left. split_and!; [done|done|]. apply H2. }
  apply always_bind, always_malloc. intros []; simpl.
  2: { apply always_ret. exists (-1), idx. split_and!; try done; [lia..|]. by right. }
  apply always_bind, always_malloc_bytes; simpl.
  { apply always_ret. exists (-1), idx. split_and!; try done; [lia..|]. by right. }
  intros _. apply always_bind. eapply always_mono.
  { apply (law_put (D := is_key)); [apply Hwf|done|exact Hsz]. }
  intros [ins t'] (Hwf' & Hc). simpl in *. unfold idx_size.
  destruct Hc as [(Hins & Hf' & Hs & Hi)|(-> & Hf' & Hs)].
  - case (Z.ltb_spec ins 0); [lia|]. intros _. apply always_ret. rewrite Hf in Hi.
    destruct (insert_spec idx key t' offset len) as [H1 H2]; try done; [by intros; apply Hf'|].
    eexists _, _. split; [done|]. split_and!; [done|simpl; lia..|]. left. by split_and!.
  - simpl. apply always_ret.
    destruct (same_table_spec idx t' (S (idx_next idx))) as [H1 H2]; try done; [by intros; apply Hf'|lia|].
    eexists _, _. split; [done|]. split_and!; [done|simpl; lia..|]. by right.
Qed.

(** The table of an index is small enough for its growth to be exact. *)
Definition idx_room idx (n : nat) : Prop :=
  ht_capacity (idx_ht idx) <= MAX_CAPACITY ∧ idx_size idx + Z.of_nat n <= MAX_ENTRIES + 1.

(** [po_index_put] while no allocation fails. *)
Lemma index_put_succeeds idx key offset len n :
  idx_wf idx → idx_room idx (S n) → key ≠ [] → Z.of_nat (length key) <= PTRDIFF_MAX →
  succeeds (po_index_put idx key offset len) (λ r, ∃ idx', r = Some (0, idx') ∧ idx_wf idx' ∧
    idx_room idx' n ∧
    ∀ k, idx_find idx' k = if bool_decide (key = k) then Some (offset, len) else idx_find idx k).
Proof.
  intros Hwf [Hcap Hsz] Hne Hl. unfold idx_room, idx_size in *. unfold po_index_put.
  destruct (Nat.eqb_spec (length key) 0) as [H0|_]; [by apply nil_length_inv in H0|].
  destruct (get_cases idx key Hwf) as [(-> & Hf & Hn)|(l & e & -> & Hf & He & Hk & _)].
  2: { apply succeeds_ret. rewrite He. simpl. destruct (update_spec idx key l e offset len) as [H1 H2]; try done.
       eexists. split_and!; [done|done|simpl; lia..|]. apply H2. }
  apply succeeds_bind, succeeds_malloc. simpl. apply succeeds_bind, succeeds_malloc_bytes; [done|]. simpl.
  apply succeeds_bind. eapply succeeds_mono.
  { apply always_succeeds; [|apply (put_roomy is_key _ _ (idx_ht idx)); [split; [apply Hwf|done]|done|lia]].
    apply (law_put (D := is_key) (idx_ht idx)); [apply Hwf|done|unfold MAX_ENTRIES in *; lia]. }
  intros [ins t'] ((Hwf' & Hc) & [_ Hcap'] & Hf' & Hs). simpl in *. rewrite Hf in Hs.
  destruct Hc as [(Hins & _)|(-> & _ & Hs')]; [|lia].
  case (Z.ltb_spec ins 0); [lia|]. intros _. apply succeeds_ret.
  destruct (insert_spec idx key t' offset len) as [H1 H2]; try done; [by intros; apply Hf'|].
  eexists. split_and!; [done|done|simpl; lia..|done].
Qed.

(** [po_index_remove] while no allocation fails. *)
Lemma index_remove_succeeds idx key :
  idx_wf idx → ht_capacity (idx_ht idx) <= MAX_CAPACITY → idx_size idx <= MAX_ENTRIES →
  succeeds (po_index_remove idx key) (λ r, ∃ rc idx', r = Some (rc, idx') ∧ idx_wf idx' ∧
    ht_capacity (idx_ht idx') <= MAX_CAPACITY ∧ idx_size idx' <= idx_size idx ∧
    rc = (if idx_find idx key is Some _ then 0 else -1) ∧
    ∀ k, idx_find idx' k = if bool_decide (key = k) then None else idx_find idx k).
Proof.
  intros Hwf Hcap Hsz. unfold po_index_remove. destruct (Nat.eqb_spec (length key) 0) as [Hl|Hl].
  { apply succeeds_ret. exists (-1), idx. apply nil_length_inv in Hl as ->.
    rewrite idx_find_nil by done. split_and!; try done. intros k.
    case_bool_decide; [subst; by rewrite idx_find_nil|done]. }
  destruct (get_cases idx key Hwf) as [(-> & Hf & Hn)|(l & e & -> & Hf & He & Hk & Hn)].
  { apply succeeds_ret. exists (-1), idx. rewrite Hn. split_and!; try done. intros k.
    case_bool_decide; [by subst|done]. }
  rewrite He, Hk. apply succeeds_bind. eapply succeeds_mono.
  { apply (remove_roomy is_key _ _ (idx_ht idx)); [split; [apply Hwf|done]|done|exact Hsz]. }
  intros [rc t'] ([Hwf' Hcap'] & Hf' & Hs). simpl in *. apply succeeds_ret. rewrite Hf in Hs.
  destruct (delete_spec idx key t' l) as [H1 H2]; try done; [by intros; apply Hf'|].
  eexists _, _. split; [done|]. rewrite Hn. split_and!; try done. unfold idx_size. simpl. lia.
Qed.

(** Freeing the entries of [ns] one by one. *)
Lemma free_nodes_lookup (ns : list (hashtable_node (list Z) (option loc))) (h : gmap loc idx_entry) l :
  foldl (λ h n, match node_value n with Some l => delete l h | None => h end) h ns !! l =
  if bool_decide (Some l ∈ map node_value ns) then None else h !! l.
Proof.
  revert h. induction ns as [|n ns IH]; intros h; cbn [foldl map].
  { by rewrite bool_decide_false by apply not_elem_of_nil. }
  rewrite IH. clear IH. destruct (decide (Some l ∈ map node_value ns)) as [Hin|Hin].
  { by rewrite !bool_decide_true by set_solver. }
  rewrite (bool_decide_false (Some l ∈ map node_value ns)) by done. case_bool_decide as E.
  - apply elem_of_cons in E as [E|E]; [|done]. rewrite <- E. by rewrite lookup_delete_eq.
  - destruct (node_value n) as [l'|]; [|done]. rewrite lookup_delete_ne; [done|].
    intros ->. apply E. left.
Qed.
End index_lemmas.

(** ** Properties *)

(** [po_index_put] refines the update of a finite map for every allocator
    outcome: success maps the key to the new place and leaves the others alone,
    failure changes nothing and is only possible for a key the index does not
    have; heap and table keep describing each other (no entry leaks, none is
    freed while in use). *)
Theorem index_put_refines_update (idx : po_index) (key : list Z) (offset len : Z) :
  idx_wf idx → idx_size idx < 2 ^ 64 - 1 →
  always (po_index_put idx key offset len) (λ r, ∃ rc idx', r = Some (rc, idx') ∧ idx_wf idx' ∧
    ((rc = 0 ∧ ∀ k, po_index_get idx' k =
        if bool_decide (key = k) then Some (Some (offset, len)) else po_index_get idx k) ∨
     (rc = -1 ∧ po_index_get idx key = Some None ∧ ∀ k, po_index_get idx' k = po_index_get idx k))).
Proof.
  intros Hwf Hsz. eapply always_mono; [by apply index_put_always|].
  intros r (rc & idx' & -> & Hwf' & _ & Hc). exists rc, idx'. split_and!; [done..|].
  setoid_rewrite index_get_spec; [|done..].
  destruct Hc as [(-> & _ & Hf)|(-> & -> & Hf)]; [left|right]; split_and!; try done;
    intros k; rewrite Hf; [by case_bool_decide|done].
Qed.

(** Concrete indexes: the entries put in order into 34 buckets. *)
Definition index_of (es : list (list Z * Z * Z)) : po_index :=
  foldl (λ idx e, match (po_index_put idx e.1.1 e.1.2 e.2 []).1 with Some r => r.2 | None => idx end)
    (mk_index (mk_hashtable (replicate 34 []) 34 0) ∅ 0%nat) es.

Lemma empty_index_wf ht :
  ht_wf cmp_bin hash_bin is_key ht → (∀ k, ht_find cmp_bin hash_bin ht k = None) →
  idx_wf (mk_index ht ∅ 0%nat) ∧ ∀ k, idx_find (mk_index ht ∅ 0%nat) k = None.
Proof.
  intros Hwf Hf. split; [|intros k; unfold idx_find; simpl; by rewrite Hf].
  split; simpl; try done; try setoid_rewrite Hf; try done.
  intros l [e He]. by rewrite lookup_empty in He.
Qed.

Lemma index_of_wf es :
  Z.of_nat (length es) < 2 ^ 60 →
  idx_wf (index_of es) ∧ 0 <= idx_size (index_of es) <= Z.of_nat (length es).
Proof.
  induction es as [|[[k o] l] es IH] using rev_ind; intros Hl.
  - destruct (create_sized_always (V := option loc) is_key cmp_bin hash_bin 34 ltac:(lia) [])
      as (Hht & _ & _ & Hf). split; [by apply empty_index_wf|]. unfold idx_size. simpl. lia.
  - rewrite length_app in Hl. simpl in Hl. destruct IH as [IH Hs]; [lia|].
    unfold index_of in *. rewrite foldl_app, length_app. cbn [foldl fst snd length].
    destruct (index_put_always _ k o l IH ltac:(lia) []) as (rc & idx' & -> & Hwf & Hs' & _).
    simpl. split; [done|lia].
Qed.

Definition small_index : po_index := index_of [([7], 0, 5); ([7; 8], 20, 9)].

Lemma small_index_wf : idx_wf small_index ∧ 0 <= idx_size small_index <= 2.
Proof. by apply index_of_wf. Qed.

Lemma index_put_refines_update_witness :
  po_index_get small_index [7] = Some (Some (0, 5)) ∧
  ∃ rc idx', (po_index_put small_index [7] 40 6 [false]).1 = Some (rc, idx') ∧ idx_wf idx'.
Proof.
  split; [vm_compute; reflexivity|].
  destruct (index_put_refines_update small_index [7] 40 6 (proj1 small_index_wf)
    ltac:(pose proof (proj2 small_index_wf); lia) [false]) as (rc & idx' & H1 & H2 & _).
  exists rc, idx'. split; [exact H1|exact H2].
Defined.

(** [po_index_destroy] frees every entry when its iterator can be allocated,
    and none of them otherwise: the handle is gone and the entries leak. *)
Theorem index_destroy_frees (idx : po_index) (m : list bool) :
  idx_wf idx →
  (po_index_destroy idx m).1 = if (malloc m).1 then ∅ else idx_heap idx.
Proof.
  intros Hwf. unfold po_index_destroy, po_hashtable_iterator, mbind, alloc_bind, mret, alloc_ret.
  destruct (malloc m) as [[] m']; simpl; [|done].
  rewrite iterate_from; change (Z.to_nat 0) with 0%nat; rewrite ?drop_0; simpl; [|lia|lia].
  apply map_eq. intros l. rewrite free_nodes_lookup, lookup_empty. case_bool_decide as E; [done|].
  destruct (idx_heap idx !! l) as [e|] eqn:El; [|done]. destruct E.
  pose proof (iw_owned _ Hwf _ _ El) as Hf.
  apply (find_Some is_key _ _ (idx_ht idx)) in Hf as (n & Hn & _ & Hv); [|apply Hwf|done].
  apply list_elem_of_fmap. exists n. by split.
Qed.

Lemma index_destroy_frees_witness : (po_index_destroy small_index []).1 = ∅.
Proof. apply (index_destroy_frees small_index []). apply small_index_wf. Defined.

(** [po_index_remove] ignores the result of the table and frees the entry:
    when the table cannot allocate the smaller bucket array it keeps the node,
    and the next look-up of the key reads freed memory. *)
Theorem index_remove_dangles :
  ∃ rc idx', (po_index_remove small_index [7] [false]).1 = Some (rc, idx') ∧ rc = 0 ∧
    po_index_get idx' [7] = None ∧ po_index_get idx' [7; 8] = Some (Some (20, 9)).
Proof. eexists _, _. split; [vm_compute; reflexivity|]. vm_compute. auto. Qed.
