(* ===== verification/Lmdb.v ===== *)
(** * Buckets over LMDB ([app/libs/ring3/postoffice/storage/db_lmdb.c])

    The wrapper opens one short transaction per call.  LMDB itself is a
    parameter: a type of environment states, the calls the wrapper makes with
    their return codes, and [MdbLaws], what its manual says of them (snapshot
    transactions, atomic commit, one value per key, the key size limit).  A
    transaction is a state of its own that [commit] publishes. *)

From Stdlib Require Import ZArith Lia.
From stdpp Require Import base list numbers gmap.
From S2P Require Import Prelude.

Local Open Scope Z_scope.

Definition MDB_SUCCESS : Z := 0.
Definition MDB_NOTFOUND : Z := -30798.
Definition DB_EBASE : Z := 1100.
Definition DB_ENOTFOUND : Z := DB_EBASE + 2.
Definition DB_EINVALID : Z := DB_EBASE + 7.

Definition _map_lmdb_error (rc : Z) : Z :=
  if rc =? 0 then 0
  else if rc =? -30799 then DB_EBASE + 1          (* KEYEXIST *)
  else if rc =? -30798 then DB_ENOTFOUND
  else if rc =? -30797 then DB_EBASE + 3          (* PAGE_NOTFOUND *)
  else if rc =? -30796 then DB_EBASE + 4          (* CORRUPTED *)
  else if rc =? -30795 then DB_EBASE + 5          (* PANIC *)
  else if rc =? -30794 then DB_EBASE + 6          (* VERSION_MISMATCH *)
  else if rc =? -30793 then DB_EINVALID
  else if rc =? -30792 then DB_EBASE + 8          (* MAP_FULL *)
  else if rc =? -30791 then DB_EBASE + 9          (* DBS_FULL *)
  else if rc =? -30790 then DB_EBASE + 10         (* READERS_FULL *)
  else if rc =? -30788 then DB_EBASE + 11         (* TXN_FULL *)
  else if rc =? -30787 then DB_EBASE + 12         (* CURSOR_FULL *)
  else if rc =? -30786 then DB_EBASE + 13         (* PAGE_FULL *)
  else if rc =? -30785 then DB_EBASE + 14         (* MAP_RESIZED *)
  else if rc =? -30784 then DB_EBASE + 15         (* INCOMPATIBLE *)
  else if rc =? -30783 then DB_EBASE + 16         (* BAD_RSLOT *)
  else if rc =? -30782 then DB_EBASE + 17         (* BAD_TXN *)
  else if rc =? -30781 then DB_EBASE + 18         (* BAD_VALSIZE *)
  else if rc =? -30780 then DB_EBASE + 19         (* BAD_DBI *)
  else DB_EINVALID.

(** [errno] after a call of this file. *)
Inductive db_errno : Type := DB_OK | DB_SYS (e : errno) | DB_MAPPED (code : Z).

Notation key := (list Z).
Notation value := (list Z).

(** The LMDB calls on one environment with one named database. *)
Record mdb_api (M : Type) : Type := mk_mdb {
  mdb_txn_begin : M → bool → Z * M;               (* read-only? *)
  mdb_put : M → key → value → Z * M;
  mdb_get : M → key → Z * value;
  mdb_del : M → key → Z * M;
  mdb_txn_commit : M → M → Z * M;                 (* environment, transaction *)
  mdb_cursor_open : M → Z;
  mdb_cursor_walk : M → list (key * value) * Z;   (* pairs, and the code that ends the walk *)
  mdb_view : M → gmap key value                   (* what the manual calls the contents *)
}.
Arguments mk_mdb {M}.
Arguments mdb_txn_begin {M}. Arguments mdb_put {M}. Arguments mdb_get {M}. Arguments mdb_del {M}.
Arguments mdb_txn_commit {M}. Arguments mdb_cursor_open {M}. Arguments mdb_cursor_walk {M}.
Arguments mdb_view {M}.

Definition MDB_MAXKEYSIZE : nat := 511.

Class MdbLaws {M} (api : mdb_api M) : Prop := {
  begin_snapshot : ∀ m ro t, mdb_txn_begin api m ro = (0, t) → mdb_view api t = mdb_view api m;
  put_ok : ∀ t k v t', mdb_put api t k v = (0, t') → mdb_view api t' = <[k := v]> (mdb_view api t);
  put_long : ∀ t k v, (MDB_MAXKEYSIZE < length k)%nat → (mdb_put api t k v).1 ≠ 0;
  get_ok : ∀ t k v, mdb_get api t k = (0, v) → mdb_view api t !! k = Some v;
  get_missing : ∀ t k, (mdb_get api t k).1 = MDB_NOTFOUND → mdb_view api t !! k = None;
  del_ok : ∀ t k t', mdb_del api t k = (0, t') →
    is_Some (mdb_view api t !! k) ∧ mdb_view api t' = delete k (mdb_view api t);
  del_missing : ∀ t k, (mdb_del api t k).1 = MDB_NOTFOUND → mdb_view api t !! k = None;
  commit_ok : ∀ m t m', mdb_txn_commit api m t = (0, m') → mdb_view api m' = mdb_view api t;
  commit_failed : ∀ m t rc m', mdb_txn_commit api m t = (rc, m') → rc ≠ 0 →
    mdb_view api m' = mdb_view api m;
  walk_pairs : ∀ t kv, kv ∈ (mdb_cursor_walk api t).1 → mdb_view api t !! kv.1 = Some kv.2;
  walk_unique : ∀ t, NoDup (mdb_cursor_walk api t).1.*1;
  walk_all : ∀ t ps, mdb_cursor_walk api t = (ps, MDB_NOTFOUND) → ps ≡ₚ map_to_list (mdb_view api t)
}.

(** ** The wrapper *)

(** Creation and the four set-up calls, with their return codes; the last
    component says whether an environment stays open. *)
Definition db_env_open (create maxreaders maxdbs mapsize open : Z) : alloc (Z * db_errno * bool) :=
  if negb (create =? 0) then mret (-1, DB_MAPPED (_map_lmdb_error create), false)
  else if negb (maxreaders =? 0) then mret (-1, DB_MAPPED (_map_lmdb_error maxreaders), false)
  else if negb (maxdbs =? 0) then mret (-1, DB_MAPPED (_map_lmdb_error maxdbs), false)
  else if negb (mapsize =? 0) then mret (-1, DB_MAPPED (_map_lmdb_error mapsize), false)
  else if negb (open =? 0) then mret (-1, DB_MAPPED (_map_lmdb_error open), false)
  else ok ← malloc;
       mret (if (ok : bool) then (0, DB_OK, true) else (-1, DB_SYS ENOMEM, false)).

Section db.
Context {M : Type} (api : mdb_api M).
Implicit Types (m : M) (k : key) (v : value).

(** Opens or creates the named database in a transaction of its own;
    [dbi_open] is the return code of [mdb_dbi_open]. *)
Definition db_bucket_open (m : M) (dbi_open : Z) : alloc (Z * db_errno * M) :=
  let '(rc, t) := mdb_txn_begin api m false in
  if negb (rc =? 0) then mret (-1, DB_MAPPED (_map_lmdb_error rc), m)
  else if negb (dbi_open =? 0) then mret (-1, DB_MAPPED (_map_lmdb_error dbi_open), m)
  else
    let '(rc, m') := mdb_txn_commit api m t in
    if negb (rc =? 0) then mret (-1, DB_MAPPED (_map_lmdb_error rc), m')
    else ok ← malloc;
         mret (if (ok : bool) then (0, DB_OK, m') else (-1, DB_SYS ENOMEM, m')).

Definition db_put (m : M) (k : key) (v : value) : Z * db_errno * M :=
  if Nat.eqb (length k) 0 then (-1, DB_SYS EINVAL, m)
  else
    let '(rc, t) := mdb_txn_begin api m false in
    if negb (rc =? 0) then (-1, DB_MAPPED (_map_lmdb_error rc), m)
    else
      let '(rc, t) := mdb_put api t k v in
      if negb (rc =? 0) then (-1, DB_MAPPED (_map_lmdb_error rc), m)
      else
        let '(rc, m') := mdb_txn_commit api m t in
        if negb (rc =? 0) then (-1, DB_MAPPED (_map_lmdb_error rc), m') else (0, DB_OK, m').

(** Result code, [errno] and the copied value. *)
Definition db_get (m : M) (k : key) : alloc (Z * db_errno * value) :=
  if Nat.eqb (length k) 0 then mret (-1, DB_SYS EINVAL, [])
  else
    let '(rc, t) := mdb_txn_begin api m true in
    if negb (rc =? 0) then mret (-1, DB_MAPPED (_map_lmdb_error rc), [])
    else
      let '(rc, v) := mdb_get api t k in
      if rc =? MDB_NOTFOUND then mret (-1, DB_MAPPED DB_ENOTFOUND, [])
      else if negb (rc =? 0) then mret (-1, DB_MAPPED (_map_lmdb_error rc), [])
      else
        ok ← malloc_bytes (Z.of_nat (length v));
        mret (if (ok : bool) then (0, DB_OK, v) else (-1, DB_SYS ENOMEM, [])).

Definition db_delete (m : M) (k : key) : Z * db_errno * M :=
  if Nat.eqb (length k) 0 then (-1, DB_SYS EINVAL, m)
  else
    let '(rc, t) := mdb_txn_begin api m false in
    if negb (rc =? 0) then (-1, DB_MAPPED (_map_lmdb_error rc), m)
    else
      let '(rc, t) := mdb_del api t k in
      if rc =? MDB_NOTFOUND then (-1, DB_MAPPED DB_ENOTFOUND, m)
      else if negb (rc =? 0) then (-1, DB_MAPPED (_map_lmdb_error rc), m)
      else
        let '(rc, m') := mdb_txn_commit api m t in
        if negb (rc =? 0) then (-1, DB_MAPPED (_map_lmdb_error rc), m') else (0, DB_OK, m').

(** [for (; rc == MDB_SUCCESS; ...)] over the pairs of the cursor, with the
    callback's state threaded through; [inl] is the callback's non-zero answer. *)
Fixpoint walk {S : Type} (cb : S → key → value → Z * S) (s : S) (ps : list (key * value)) : Z * S :=
  match ps with
  | [] => (0, s)
  | p :: ps =>
      let '(stop, s) := cb s p.1 p.2 in
      if negb (stop =? 0) then (stop, s) else walk cb s ps
  end.

Definition db_iterate {S : Type} (m : M) (cb : S → key → value → Z * S) (s : S) : Z * db_errno * S :=
  let '(rc, t) := mdb_txn_begin api m true in
  if negb (rc =? 0) then (-1, DB_MAPPED (_map_lmdb_error rc), s)
  else
    let rc := mdb_cursor_open api t in
    if negb (rc =? 0) then (-1, DB_MAPPED (_map_lmdb_error rc), s)
    else
      let '(ps, rc) := mdb_cursor_walk api t in
      let '(stop, s) := walk cb s ps in
      if negb (stop =? 0) then (stop, DB_OK, s)
      else if negb (rc =? MDB_NOTFOUND) then (-1, DB_MAPPED (_map_lmdb_error rc), s)
      else (0, DB_OK, s).
End db.

(** What the bucket promises its clients, in terms of its contents: a failed
    call changes nothing, a successful one does what its name says. *)
Class BucketLaws {M} (api : mdb_api M) : Prop := {
  law_db_put : ∀ m k v, match db_put api m k v with
    | (rc, _, m') => (rc = 0 ∧ k ≠ [] ∧ mdb_view api m' = <[k := v]> (mdb_view api m)) ∨
                     (rc = -1 ∧ mdb_view api m' = mdb_view api m) end;
  law_db_put_long : ∀ m k v, (MDB_MAXKEYSIZE < length k)%nat → (db_put api m k v).1.1 = -1;
  law_db_get : ∀ m k, always (db_get api m k) (λ r,
    (r.1.1 = 0 ∧ mdb_view api m !! k = Some r.2) ∨ r.1.1 = -1);
  law_db_delete : ∀ m k, match db_delete api m k with
    | (rc, _, m') => (rc = 0 ∧ mdb_view api m' = delete k (mdb_view api m)) ∨
                     (rc = -1 ∧ mdb_view api m' = mdb_view api m) end;
  law_db_iterate : ∀ {S} m (cb : S → key → value → Z * S) s, ∃ ps,
    (db_iterate api m cb s).2 = (walk cb s ps).2 ∧
    (∀ kv, kv ∈ ps → mdb_view api m !! kv.1 = Some kv.2) ∧ NoDup ps.*1 ∧
    ((∀ s k v, (cb s k v).1 = 0) → (db_iterate api m cb s).1.1 = 0 → ps ≡ₚ map_to_list (mdb_view api m))
}.

(** ** Lemmas *)

Section db_lemmas.
Context {M : Type} (api : mdb_api M) `{!MdbLaws api}.

Lemma db_put_cases m k v :
  match db_put api m k v with
  | (rc, _, m') => (rc = 0 ∧ k ≠ [] ∧ mdb_view api m' = <[k := v]> (mdb_view api m)) ∨
                   (rc = -1 ∧ mdb_view api m' = mdb_view api m) end.
Proof using Type*.
  unfold db_put. destruct (Nat.eqb_spec (length k) 0) as [Hl|Hl]; [by right|].
  destruct (mdb_txn_begin api m false) as [rc t] eqn:E1. destruct (Z.eqb_spec rc 0) as [->|]; [|by right].
  simpl. destruct (mdb_put api t k v) as [rc t'] eqn:E2. destruct (Z.eqb_spec rc 0) as [->|]; [|by right].
  simpl. destruct (mdb_txn_commit api m t') as [rc m'] eqn:E3.
  destruct (Z.eqb_spec rc 0) as [->|]; simpl.
  - left. split; [done|]. split; [by intros ->|]. rewrite (commit_ok _ _ _ E3), (put_ok _ _ _ _ E2).
    by rewrite (begin_snapshot _ _ _ E1).
  - right. split; [done|]. by apply (commit_failed _ _ _ _ E3).
Qed.

Lemma db_put_long m k v : (MDB_MAXKEYSIZE < length k)%nat → (db_put api m k v).1.1 = -1.
Proof using Type*.
  intros Hl. unfold db_put. destruct (Nat.eqb_spec (length k) 0) as [|_]; [done|].
  destruct (mdb_txn_begin api m false) as [rc t]. destruct (Z.eqb_spec rc 0) as [->|]; [|done].
  simpl. pose proof (put_long t k v Hl) as H. destruct (mdb_put api t k v) as [rc t']. simpl in H.
  by destruct (Z.eqb_spec rc 0).
Qed.

Lemma db_delete_cases m k :
  match db_delete api m k with
  | (rc, _, m') => (rc = 0 ∧ mdb_view api m' = delete k (mdb_view api m)) ∨
                   (rc = -1 ∧ mdb_view api m' = mdb_view api m) end.
Proof using Type*.
  unfold db_delete. destruct (Nat.eqb_spec (length k) 0) as [|_]; [by right|].
  destruct (mdb_txn_begin api m false) as [rc t] eqn:E1. destruct (Z.eqb_spec rc 0) as [->|]; [|by right].
  simpl. destruct (mdb_del api t k) as [rc t'] eqn:E2. destruct (Z.eqb_spec rc MDB_NOTFOUND) as [|_]; [by right|].
  destruct (Z.eqb_spec rc 0) as [->|]; [|by right].
  simpl. destruct (mdb_txn_commit api m t') as [rc m'] eqn:E3.
  destruct (Z.eqb_spec rc 0) as [->|]; simpl.
  - left. split; [done|]. rewrite (commit_ok _ _ _ E3), (proj2 (del_ok _ _ _ E2)).
    by rewrite (begin_snapshot _ _ _ E1).
  - right. split; [done|]. by apply (commit_failed _ _ _ _ E3).
Qed.

Lemma db_get_cases m k :
  always (db_get api m k) (λ r, (r.1.1 = 0 ∧ mdb_view api m !! k = Some r.2) ∨ r.1.1 = -1).
Proof using Type*.
  unfold db_get. destruct (Nat.eqb_spec (length k) 0) as [|_]; [by apply always_ret; right|].
  destruct (mdb_txn_begin api m true) as [rc t] eqn:E1.
  destruct (Z.eqb_spec rc 0) as [->|]; [|by apply always_ret; right].
  simpl. destruct (mdb_get api t k) as [rc v] eqn:E2.
  destruct (Z.eqb_spec rc MDB_NOTFOUND) as [|_]; [by apply always_ret; right|].
  destruct (Z.eqb_spec rc 0) as [->|]; [|by apply always_ret; right].
  simpl. apply always_bind, always_malloc_bytes; [by apply always_ret; right|]. intros _.
  apply always_ret. left. simpl. split; [done|].
  rewrite <- (begin_snapshot _ _ _ E1). by apply get_ok.
Qed.

Lemma walk_continues {S} (cb : S → key → value → Z * S) s ps :
  (∀ s k v, (cb s k v).1 = 0) → (walk cb s ps).1 = 0.
Proof.
  intros Hcb. revert s. induction ps as [|p ps IH]; intros s; simpl; [done|].
  pose proof (Hcb s p.1 p.2) as E. destruct (cb s p.1 p.2) as [stop s']. simpl in E. subst. apply IH.
Qed.

Lemma db_iterate_cases {S} m (cb : S → key → value → Z * S) s : ∃ ps,
  (db_iterate api m cb s).2 = (walk cb s ps).2 ∧
  (∀ kv, kv ∈ ps → mdb_view api m !! kv.1 = Some kv.2) ∧ NoDup ps.*1 ∧
  ((∀ s k v, (cb s k v).1 = 0) → (db_iterate api m cb s).1.1 = 0 → ps ≡ₚ map_to_list (mdb_view api m)).
Proof using Type*.
  unfold db_iterate. destruct (mdb_txn_begin api m true) as [rc t] eqn:E1.
  destruct (Z.eqb_spec rc 0) as [->|]; simpl.
  2: { exists []. split_and!; [done|by intros kv Hkv; apply not_elem_of_nil in Hkv|constructor|done]. }
  destruct (Z.eqb_spec (mdb_cursor_open api t) 0) as [_|]; simpl.
  2: { exists []. split_and!; [done|by intros kv Hkv; apply not_elem_of_nil in Hkv|constructor|done]. }
  pose proof (walk_pairs t) as Hp. pose proof (walk_unique t) as Hu.
  destruct (mdb_cursor_walk api t) as [ps rc] eqn:E2. simpl in Hp, Hu.
  exists ps. rewrite <- (begin_snapshot _ _ _ E1).
  destruct (walk cb s ps) as [stop s'] eqn:E3. split_and!; [|done|done|].
  - destruct (Z.eqb_spec stop 0); simpl; [|done]. by destruct (Z.eqb_spec rc MDB_NOTFOUND).
  - intros Hcb. pose proof (walk_continues cb s ps Hcb) as Hw. rewrite E3 in Hw. simpl in Hw. subst. simpl.
    destruct (Z.eqb_spec rc MDB_NOTFOUND) as [->|]; [|done]. intros _. by apply walk_all.
Qed.

#[export] Instance bucket_laws : BucketLaws api.
Proof using Type*.
  constructor; [apply db_put_cases|apply db_put_long|apply db_get_cases|apply db_delete_cases|].
  intros S. apply db_iterate_cases.
Qed.
End db_lemmas.

(** ** A store that satisfies the laws

    Transactions on a finite map; nothing fails but oversized or empty keys. *)
Definition map_mdb : mdb_api (gmap key value) := mk_mdb
  (λ m _, (0, m))
  (λ t k v, if Nat.ltb MDB_MAXKEYSIZE (length k) then (-30781, t) else (0, <[k := v]> t))
  (λ t k, match t !! k with Some v => (0, v) | None => (MDB_NOTFOUND, []) end)
  (λ t k, match t !! k with Some _ => (0, delete k t) | None => (MDB_NOTFOUND, t) end)
  (λ _ t, (0, t))
  (λ _, 0)
  (λ t, (map_to_list t, MDB_NOTFOUND))
  (λ t, t).

#[export] Instance map_mdb_laws : MdbLaws map_mdb.
Proof.
  split; simpl.
  - intros. by simplify_eq.
  - intros t k v t'. destruct (Nat.ltb _ _); intros; by simplify_eq.
  - intros t k v Hl. by destruct (Nat.ltb_spec MDB_MAXKEYSIZE (length k)); [|lia].
  - intros t k v. destruct (t !! k); intros; by simplify_eq.
  - intros t k. by destruct (t !! k).
  - intros t k t'. destruct (t !! k) eqn:E; intros; simplify_eq. by split; [eexists|].
  - intros t k. by destruct (t !! k).
  - intros. by simplify_eq.
  - intros. by simplify_eq.
  - intros t [k v] H. by apply elem_of_map_to_list in H.
  - intros t. apply NoDup_fst_map_to_list.
  - intros. by simplify_eq.
Qed.

(** ** Properties *)

(** A bucket over any LMDB that keeps its manual's promises refines a
    finite map: [db_put] and [db_delete] change exactly their key or, reporting
    -1, nothing; [db_get] returns only what is stored; [db_iterate] hands its
    callback stored pairs only, and all of them when it reports 0. *)
Theorem db_refines_map {M} (api : mdb_api M) (m : M) (k v : list Z) :
  MdbLaws api →
  (let '(rc, _, m') := db_put api m k v in
     rc = 0 ∧ mdb_view api m' = <[k := v]> (mdb_view api m) ∨
     rc = -1 ∧ mdb_view api m' = mdb_view api m) ∧
  (let '(rc, _, m') := db_delete api m k in
     rc = 0 ∧ mdb_view api m' = delete k (mdb_view api m) ∨
     rc = -1 ∧ mdb_view api m' = mdb_view api m) ∧
  always (db_get api m k) (λ r, r.1.1 = 0 ∧ mdb_view api m !! k = Some r.2 ∨ r.1.1 = -1) ∧
  (let '(rc, _, seen) := db_iterate api m (λ l k v, (0, l ++ [(k, v)])) [] in
     (∀ kv, kv ∈ seen → mdb_view api m !! kv.1 = Some kv.2) ∧
     (rc = 0 → seen ≡ₚ map_to_list (mdb_view api m))).
Proof.
  intros Hl. split_and!.
  - pose proof (law_db_put m k v) as H. destruct (db_put api m k v) as [[rc e] m'].
    destruct H as [(? & _ & ?)|?]; auto.
  - apply law_db_delete.
  - apply law_db_get.
  - destruct (law_db_iterate m (λ l k v, (0, l ++ [(k, v)])) []) as (ps & H1 & H2 & _ & H3).
    destruct (db_iterate _ _ _ _) as [[rc e] seen]. simpl in *.
    assert (∀ ps l, (walk (λ l k v, (0, l ++ [(k, v)])) l ps).2 = l ++ ps) as Hw.
    { clear. induction ps as [|[k v] ps IH]; intros l; simpl; [by rewrite app_nil_r|].
      rewrite IH. by rewrite <- app_assoc. }
    rewrite Hw in H1. simpl in H1. subst. split; [done|]. intros ->. by apply H3.
Qed.

Lemma db_refines_map_witness :
  (db_put map_mdb {[ [1] := [9] ]} [2] [8]).2 = {[ [1] := [9]; [2] := [8] ]} ∧
  always (db_get map_mdb {[ [1] := [9] ]} [1]) (λ r,
    r.1.1 = 0 ∧ mdb_view map_mdb {[ [1] := [9] ]} !! [1] = Some r.2 ∨ r.1.1 = -1).
Proof.
  split; [reflexivity|]. apply (db_refines_map map_mdb {[ [1] := [9] ]} [1] [2] _).
Defined.

(** A failed look-up of an existing key and a missing key are told apart only
    through [errno]: both return -1, also where [db_lmdb.h] announces the code
    itself. *)
Theorem db_get_missing_code (k : list Z) :
  k ≠ [] → (db_get map_mdb ∅ k []).1 = (-1, DB_MAPPED DB_ENOTFOUND, []).
Proof.
  intros Hk. unfold db_get. destruct (Nat.eqb_spec (length k) 0) as [Hl|_].
  - by apply nil_length_inv in Hl.
  - simpl. by rewrite lookup_empty.
Qed.

(** Every LMDB failure gets a code of the wrapper's own range. *)
Theorem map_lmdb_error_range (rc : Z) :
  rc ≠ 0 → DB_EBASE < _map_lmdb_error rc <= DB_EBASE + 19.
Proof.
  intros Hrc. unfold _map_lmdb_error, DB_EINVALID, DB_ENOTFOUND, DB_EBASE.
  destruct (Z.eqb_spec rc 0); [done|]. repeat (case (rc =? _); [lia|]). lia.
Qed.
