(* ===== verification/Logstore.v ===== *)
(** * Append-only log store
    ([app/libs/ring3/postoffice/storage/logstore.c], [logstore_worker.c],
    [logstore_rebuild.c], [logstore_internal.h])

    Records [key length, value length, key, value] are appended to a file in
    batches; two indexes map a key to the place of its latest record: a bucket
    of the database ([Lmdb]) and an index in memory ([Index]).  The file is a
    list of bytes; reads of it return what is there.  What the kernel answers
    to seeks, writes and [fsync] are arguments.  This file holds the calls one
    at a time: flushing a batch, look-up, appending a request, rebuilding the
    index from the file, opening; [LogstoreIntegrity] has the integrity scan,
    [LogstoreWorker] the worker loop and closing.  Metrics are left out. *)

From Stdlib Require Import ZArith Lia.
From stdpp Require Import base list numbers gmap.
From S2P Require Import Prelude Hashtable Index Lmdb Ringbuf Protocol.

Local Open Scope Z_scope.

Definition LS_HARD_KEY_MAX : Z := 32 * 1024 * 1024.
Definition LS_HARD_VALUE_MAX : Z := 128 * 1024 * 1024.
Definition LS_MAX_KEY_DEFAULT : Z := 1024 * 1024.
Definition LS_MAX_VALUE_DEFAULT : Z := 8 * 1024 * 1024.

(** [true] is the result 0. *)
Definition _ls_validate_lengths (klen vlen maxk maxv : Z) : bool :=
  if klen =? 0 then false
  else if maxk <? klen then false
  else if maxv <? vlen then false
  else if LS_HARD_KEY_MAX <? klen then false
  else if LS_HARD_VALUE_MAX <? vlen then false
  else true.

Inductive fsync_policy : Type :=
| PO_LS_FSYNC_NONE | PO_LS_FSYNC_EACH_BATCH | PO_LS_FSYNC_INTERVAL | PO_LS_FSYNC_EVERY_N.

Inductive append_req : Type :=
| Append (k v : list Z)
| Sentinel.

(** ** The file *)

(** [pread(fd, buf, n, off)] of a regular file; [None] is a negative offset. *)
Definition pread (file : list Z) (n : Z) (off : Z) : option (list Z) :=
  if off <? 0 then None else Some (take (Z.to_nat n) (drop (Z.to_nat off) file)).

(** The file after [bs] is written at [off]; a gap reads as zeros. *)
Definition write_at (file : list Z) (off : Z) (bs : list Z) : list Z :=
  let n := Z.to_nat off in
  take n file ++ replicate (n - length file) 0 ++ bs ++ drop (n + length bs) file.

Definition encode_record (k v : list Z) : list Z :=
  le_bytes 4 (u32 (Z.of_nat (length k))) ++ le_bytes 4 (u32 (Z.of_nat (length v))) ++ k ++ v.

(** [memcpy(iv, &off, 8); memcpy(iv + 8, &len, 4)] and back, for 12 bytes. *)
Definition index_value (off len : Z) : list Z := le_bytes 8 off ++ le_bytes 4 len.
Definition parse_index_value (iv : list Z) : option (Z * Z) :=
  if Nat.eqb (length iv) 12 then Some (of_le (take 8 iv), of_le (take 4 (drop 8 iv))) else None.

(** ** State *)

Section logstore.
Context {M : Type} (api : mdb_api M).

Record po_logstore : Type := mk_logstore {
  ls_file : list Z;
  ls_pos : Z;               (* position of the descriptor *)
  ls_idx : M;               (* bucket *)
  ls_mem : po_index;
  ls_policy : fsync_policy;
  ls_fsync_interval_ns : Z;
  ls_last_fsync_ns : Z;
  ls_fsync_every_n : Z;
  ls_batches_since_fsync : Z;
  ls_max_key_bytes : Z;
  ls_max_value_bytes : Z;
  ls_outstanding : Z;
  ls_seq : Z;
  ls_synced : nat           (* bytes known to be on disk *)
}.

Definition with_file (ls : po_logstore) (file : list Z) (pos : Z) : po_logstore :=
  mk_logstore file pos (ls_idx ls) (ls_mem ls) (ls_policy ls) (ls_fsync_interval_ns ls)
    (ls_last_fsync_ns ls) (ls_fsync_every_n ls) (ls_batches_since_fsync ls) (ls_max_key_bytes ls)
    (ls_max_value_bytes ls) (ls_outstanding ls) (ls_seq ls) (ls_synced ls).
Definition with_index (ls : po_logstore) (db : M) (mem : po_index) : po_logstore :=
  mk_logstore (ls_file ls) (ls_pos ls) db mem (ls_policy ls) (ls_fsync_interval_ns ls)
    (ls_last_fsync_ns ls) (ls_fsync_every_n ls) (ls_batches_since_fsync ls) (ls_max_key_bytes ls)
    (ls_max_value_bytes ls) (ls_outstanding ls) (ls_seq ls) (ls_synced ls).
Definition with_sync (ls : po_logstore) (last since : Z) (synced : nat) : po_logstore :=
  mk_logstore (ls_file ls) (ls_pos ls) (ls_idx ls) (ls_mem ls) (ls_policy ls) (ls_fsync_interval_ns ls)
    last (ls_fsync_every_n ls) since (ls_max_key_bytes ls)
    (ls_max_value_bytes ls) (ls_outstanding ls) (ls_seq ls) synced.
Definition with_counts (ls : po_logstore) (outstanding seq : Z) : po_logstore :=
  mk_logstore (ls_file ls) (ls_pos ls) (ls_idx ls) (ls_mem ls) (ls_policy ls) (ls_fsync_interval_ns ls)
    (ls_last_fsync_ns ls) (ls_fsync_every_n ls) (ls_batches_since_fsync ls) (ls_max_key_bytes ls)
    (ls_max_value_bytes ls) outstanding seq (ls_synced ls).

(** [db_put] then [po_index_put], both results ignored. *)
Definition put_index (ls : po_logstore) (k : list Z) (off len : Z) : alloc (option po_logstore) :=
  let db := (db_put api (ls_idx ls) k (index_value off len)).2 in
  r ← po_index_put (ls_mem ls) k off len;
  mret (r ← r; Some (with_index ls db r.2)).

(** ** Flushing a batch ([_ls_worker_main], from [lseek] to the last [free]) *)

Inductive pwritev_result : Type := Wrote (n : nat) | Einval_or_enosys | Other_error.

(** The kernel's answers during one flush. *)
Record flush_io : Type := mk_flush_io {
  fi_seek_end : bool;         (* lseek(fd, 0, SEEK_END) *)
  fi_pwritev : pwritev_result;
  fi_seek_base : bool;        (* lseek(fd, base, SEEK_SET) before writev *)
  fi_writev : pwritev_result;
  fi_fsync : bool;
  fi_now : Z;
  fi_single : list (bool * nat * nat * nat * nat)  (* per record: lseek and four writes *)
}.

(** [pwritev] and [writev] refuse more than [UIO_MAXIOV] vectors. *)
Definition vector_write (iov_cnt : Z) (r : pwritev_result) : pwritev_result :=
  if (iov_cnt <? 0) || (1024 <? iov_cnt) then Einval_or_enosys else r.

Definition live_records (batch : list append_req) : list (list Z * list Z) :=
  omap (λ r, match r with Append k v => Some (k, v) | Sentinel => None end) batch.

(** The offsets the loop computes while it fills the vectors. *)
Fixpoint layout (cur : Z) (recs : list (list Z * list Z)) : list (list Z * Z * Z) :=
  match recs with
  | [] => []
  | (k, v) :: recs =>
      (k, cur, u32 (Z.of_nat (length v))) ::
      layout (u64 (u64 (u64 (u64 (cur + 4) + 4) + Z.of_nat (length k)) + Z.of_nat (length v))) recs
  end.

Fixpoint put_all (ls : po_logstore) (es : list (list Z * Z * Z)) : alloc (option po_logstore) :=
  match es with
  | [] => mret (Some ls)
  | (k, off, len) :: es =>
      r ← put_index ls k off len;
      match r with Some ls => put_all ls es | None => mret None end
  end.

Definition fsync (ls : po_logstore) (ok : bool) : nat :=
  if ok then length (ls_file ls) else ls_synced ls.

(** The policy after a vectored write. *)
Definition sync_policy (ls : po_logstore) (io : flush_io) : po_logstore :=
  match ls_policy ls with
  | PO_LS_FSYNC_EACH_BATCH =>
      with_sync ls (ls_last_fsync_ns ls) (ls_batches_since_fsync ls) (fsync ls (fi_fsync io))
  | PO_LS_FSYNC_EVERY_N =>
      let since := u32 (ls_batches_since_fsync ls + 1) in
      if (if ls_fsync_every_n ls =? 0 then 1 else ls_fsync_every_n ls) <=? since
      then with_sync ls (ls_last_fsync_ns ls) 0 (fsync ls (fi_fsync io))
      else with_sync ls (ls_last_fsync_ns ls) since (ls_synced ls)
  | PO_LS_FSYNC_INTERVAL =>
      if ls_fsync_interval_ns ls <=? u64 (fi_now io - ls_last_fsync_ns ls)
      then with_sync ls (fi_now io) (ls_batches_since_fsync ls) (fsync ls (fi_fsync io))
      else ls
  | PO_LS_FSYNC_NONE => ls
  end.

(** The path taken when the vectors cannot be allocated: one record at a time,
    with plain writes whose failures are only logged. *)
Fixpoint flush_singly (ls : po_logstore) (recs : list (list Z * list Z))
    (io : list (bool * nat * nat * nat * nat)) : alloc (option po_logstore) :=
  match recs with
  | [] => mret (Some ls)
  | (k, v) :: recs =>
      let '(seek, w1, w2, w3, w4) := default (true, 4%nat, 4%nat, length k, length v) (head io) in
      let off := if seek : bool then Z.of_nat (length (ls_file ls)) else 0 in
      let pos := if seek : bool then off else ls_pos ls in
      let vl := u32 (Z.of_nat (length v)) in
      let out := take w1 (le_bytes 4 (u32 (Z.of_nat (length k)))) ++ take w2 (le_bytes 4 vl) ++
                 take w3 k ++ take w4 v in
      let ls := with_file ls (write_at (ls_file ls) pos out) (pos + Z.of_nat (length out)) in
      r ← put_index ls k off vl;
      match r with
      | Some ls => flush_singly (with_counts ls (u64 (ls_outstanding ls - 1)) (ls_seq ls)) recs (tail io)
      | None => mret None
      end
  end.

(** [hook] is the test hook that forces the allocation to fail. *)
Definition flush_batch (ls : po_logstore) (batch : list append_req) (hook : bool) (io : flush_io) :
    alloc (option po_logstore) :=
  let recs := live_records batch in
  let live := Z.of_nat (length recs) in
  let base := if fi_seek_end io then Z.of_nat (length (ls_file ls)) else 0 in
  let pos := if fi_seek_end io then base else ls_pos ls in
  let ls := with_file ls (ls_file ls) pos in
  let iov_cnt := u64 (live * 4) in
  iov ← malloc_bytes (16 * iov_cnt); offs ← malloc_bytes (8 * live);
  lens ← malloc_bytes (4 * live); kls ← malloc_bytes (4 * live);
  if hook || negb (iov && offs && lens && kls) then
    r ← flush_singly ls recs (fi_single io);
    mret (ls ← r; Some (match ls_policy ls with
      | PO_LS_FSYNC_EACH_BATCH =>
          with_sync ls (ls_last_fsync_ns ls) (ls_batches_since_fsync ls) (fsync ls (fi_fsync io))
      | _ => ls end))
  else
    let bytes := concat ((λ r, encode_record r.1 r.2) <$> recs) in
    let w := vector_write (i32 iov_cnt) (fi_pwritev io) in
    let '(w, pos) := match w with
      | Einval_or_enosys =>
          if fi_seek_base io then
            let w := vector_write (i32 iov_cnt) (fi_writev io) in
            (w, base + match w with Wrote n => Z.of_nat (length (take n bytes)) | _ => 0 end)
          else (w, pos)
      | _ => (w, pos) end in
    r ← match w with
        | Wrote n =>
            let ls := with_file ls (write_at (ls_file ls) base (take n bytes)) pos in
            r ← put_all ls (layout base recs);
            mret (ls ← r; Some (sync_policy ls io))
        | _ => mret (Some (with_file ls (ls_file ls) pos))
        end;
    mret (ls ← r; Some (with_counts ls (u64 (ls_outstanding ls - live)) (ls_seq ls))).

(** ** Look-up *)

(** [db_get] and the decoding of its 12 bytes; [None] is a failed look-up. *)
Definition lookup_bucket (ls : po_logstore) (key : list Z) : alloc (option (Z * Z)) :=
  r ← db_get api (ls_idx ls) key;
  mret (if negb (r.1.1 =? 0) then None else parse_index_value r.2).

(** The look-up in the two indexes with its back-fill.  [None] outside is a use
    of freed memory, inside a failed look-up. *)
Definition find_entry (ls : po_logstore) (key : list Z) : alloc (option (option (Z * Z) * po_logstore)) :=
  match po_index_get (ls_mem ls) key with
  | None => mret None
  | Some (Some e) => mret (Some (Some e, ls))
  | Some None =>
      b ← lookup_bucket ls key;
      match b with
      | None => mret (Some (None, ls))
      | Some (off, len) =>
          r ← po_index_put (ls_mem ls) key off len;
          mret (r ← r; Some (Some (off, len), with_index ls (ls_idx ls) r.2))
      end
  end.

(** The read of the record; [None] is the result -1. *)
Definition read_record (file : list Z) (off len : Z) : alloc (option (list Z)) :=
  match pread file 8 (i64 off) with
  | None => mret None
  | Some hdr =>
      if negb (Nat.eqb (length hdr) 8) then mret None
      else
        let kl := of_le (take 4 hdr) in
        let vl := of_le (take 4 (drop 4 hdr)) in
        if (LS_HARD_KEY_MAX <? kl) || (LS_HARD_VALUE_MAX <? vl) || negb (vl =? len) then mret None
        else
          let offset := u64 (off + 4 + 4 + kl) in
          if 2 ^ 63 - 1 <? offset then mret None
          else
            ok ← malloc_bytes vl;
            if negb ok then mret None
            else
              match pread file vl (i64 offset) with
              | None => mret None
              | Some buf => mret (if negb (Z.of_nat (length buf) =? vl) then None else Some buf)
              end
  end.

Definition po_logstore_get (ls : po_logstore) (key : list Z) :
    alloc (option (option (list Z) * po_logstore)) :=
  let keylen := Z.of_nat (length key) in
  if (keylen =? 0) || (ls_max_key_bytes ls <? keylen) then mret (Some (None, ls))
  else
    e ← find_entry ls key;
    match e with
    | None => mret None
    | Some (None, ls) => mret (Some (None, ls))
    | Some (Some (off, len), ls) => r ← read_record (ls_file ls) off len; mret (Some (r, ls))
    end.
End logstore.
Arguments po_logstore M : clear implicits.

(** ** Specification *)

(** Lengths every accepted record has. *)
Definition rec_ok (r : list Z * list Z) : Prop :=
  0 < Z.of_nat (length r.1) <= LS_HARD_KEY_MAX ∧ Z.of_nat (length r.2) <= LS_HARD_VALUE_MAX.

(** The record of [k] and [v] lies at offset [off] of the file. *)
Definition stored (file : list Z) (off : Z) (k v : list Z) : Prop :=
  ∃ pre post, file = pre ++ encode_record k v ++ post ∧ off = Z.of_nat (length pre).

(** The value bytes of the record of [k] that an index entry points to. *)
Definition value_at (file : list Z) (e : Z * Z) (k : list Z) : list Z :=
  take (Z.to_nat e.2) (drop (Z.to_nat e.1 + 8 + length k) file).

(** The value of [k] after the records, [o] before them: the last one wins. *)
Definition after_records (recs : list (list Z * list Z)) (k : list Z) (o : option (list Z)) : option (list Z) :=
  foldl (λ o r, if bool_decide (r.1 = k) then Some r.2 else o) o recs.

(** The file image of records. *)
Definition log_bytes (recs : list (list Z * list Z)) : list Z :=
  concat ((λ r, encode_record r.1 r.2) <$> recs).

Section spec.
Context {M : Type} (api : mdb_api M).
Implicit Types (ls : po_logstore M) (k v : list Z).

(** What the indexes say about a key: memory first, then the bucket. *)
Definition store_entry ls k : option (Z * Z) :=
  match idx_find (ls_mem ls) k with
  | Some e => Some e
  | None => mdb_view api (ls_idx ls) !! k ≫= parse_index_value
  end.

(** The abstract store: a finite map from keys to values. *)
Definition contents ls k : option (list Z) := (λ e, value_at (ls_file ls) e k) <$> store_entry ls k.

(** Every index entry points to a record of its key. *)
Definition sound ls : Prop := ∀ k e, store_entry ls k = Some e →
  ∃ v, rec_ok (k, v) ∧ e.2 = Z.of_nat (length v) ∧ stored (ls_file ls) e.1 k v.

Record ls_wf ls : Prop := mk_ls_wf {
  lw_mem : idx_wf (ls_mem ls);
  lw_size : idx_size (ls_mem ls) < 2 ^ 32;
  lw_file : Z.of_nat (length (ls_file ls)) < 2 ^ 62;
  lw_sound : sound ls
}.
End spec.

(** ** Lemmas *)

Ltac list_norm := repeat (rewrite <- ?app_assoc; cbn [app]).

Lemma length_encode k v : length (encode_record k v) = (8 + length k + length v)%nat.
Proof. unfold encode_record. rewrite !length_app, !length_le_bytes. lia. Qed.

Lemma rec_ok_u32 r : rec_ok r →
  u32 (Z.of_nat (length r.1)) = Z.of_nat (length r.1) ∧ u32 (Z.of_nat (length r.2)) = Z.of_nat (length r.2).
Proof. unfold rec_ok, LS_HARD_KEY_MAX, LS_HARD_VALUE_MAX. intros H. split; apply u32_small; lia. Qed.

Lemma stored_app file x off k v : stored file off k v → stored (file ++ x) off k v.
Proof. intros (pre & post & -> & ->). exists pre, (post ++ x). by list_norm. Qed.

Lemma stored_range file off k v :
  stored file off k v → 0 <= off ∧ off + 8 + Z.of_nat (length k) + Z.of_nat (length v) <= Z.of_nat (length file).
Proof. intros (pre & post & -> & ->). rewrite !length_app, length_encode. lia. Qed.

Lemma stored_value file off k v :
  stored file off k v → value_at file (off, Z.of_nat (length v)) k = v.
Proof.
  intros (pre & post & -> & ->). unfold value_at. cbn [fst snd]. rewrite !Nat2Z.id.
  rewrite <- !drop_drop, drop_app_length. unfold encode_record. list_norm.
  rewrite (app_assoc (le_bytes 4 _) (le_bytes 4 _)), drop_app_length'
    by (by rewrite length_app, !length_le_bytes).
  by rewrite drop_app_length, take_app_length.
Qed.

Lemma parse_index_value_roundtrip off len :
  0 <= off < 2 ^ 64 → 0 <= len < 2 ^ 32 → parse_index_value (index_value off len) = Some (off, len).
Proof.
  intros Ho Hl. unfold parse_index_value, index_value.
  rewrite length_app, !length_le_bytes. simpl Nat.eqb. cbn [Nat.add].
  rewrite take_app_length' by (by rewrite length_le_bytes).
  rewrite drop_app_length' by (by rewrite length_le_bytes).
  rewrite take_ge by (by rewrite length_le_bytes). by rewrite !of_le_bytes.
Qed.

(** *** Updating the indexes *)

Section index_update.
Context {M : Type} (api : mdb_api M) `{!BucketLaws api}.
Implicit Types (ls : po_logstore M) (k v : list Z).

Definition same_rest ls ls' : Prop :=
  ls_file ls' = ls_file ls ∧ ls_pos ls' = ls_pos ls ∧ ls_policy ls' = ls_policy ls ∧
  ls_fsync_interval_ns ls' = ls_fsync_interval_ns ls ∧ ls_last_fsync_ns ls' = ls_last_fsync_ns ls ∧
  ls_fsync_every_n ls' = ls_fsync_every_n ls ∧ ls_batches_since_fsync ls' = ls_batches_since_fsync ls ∧
  ls_max_key_bytes ls' = ls_max_key_bytes ls ∧ ls_max_value_bytes ls' = ls_max_value_bytes ls ∧
  ls_outstanding ls' = ls_outstanding ls ∧ ls_seq ls' = ls_seq ls ∧ ls_synced ls' = ls_synced ls.

Lemma same_rest_refl ls : same_rest ls ls.
Proof. unfold same_rest. tauto. Qed.

Lemma same_rest_index ls db mem : same_rest ls (with_index ls db mem).
Proof. unfold same_rest. tauto. Qed.

Lemma same_rest_trans a b c : same_rest a b → same_rest b c → same_rest a c.
Proof. unfold same_rest. intuition congruence. Qed.

Lemma entry_after ls k off len db mem :
  0 <= off < 2 ^ 64 → 0 <= len < 2 ^ 32 →
  (∀ k', idx_find mem k' = if bool_decide (k = k') then Some (off, len) else idx_find (ls_mem ls) k') →
  mdb_view api db = <[k := index_value off len]> (mdb_view api (ls_idx ls)) ∨
    mdb_view api db = mdb_view api (ls_idx ls) →
  ∀ k', store_entry api (with_index ls db mem) k' = if bool_decide (k = k') then Some (off, len) else store_entry api ls k'.
Proof.
  intros Ho Hl Hm Hdb k'. unfold store_entry. simpl. rewrite Hm. case_bool_decide as E; [done|].
  destruct (idx_find (ls_mem ls) k'); [done|]. destruct Hdb as [-> | ->]; [|done].
  by rewrite lookup_insert_ne.
Qed.

(** Whatever fails, the entry of [k] is the new one or the old one. *)
Lemma put_index_always ls k off len :
  idx_wf (ls_mem ls) → idx_size (ls_mem ls) < 2 ^ 64 - 1 → 0 <= off < 2 ^ 64 → 0 <= len < 2 ^ 32 →
  always (put_index api ls k off len) (λ r, ∃ ls', r = Some ls' ∧ idx_wf (ls_mem ls') ∧
    idx_size (ls_mem ls') <= idx_size (ls_mem ls) + 1 ∧ same_rest ls ls' ∧
    ((∀ k', store_entry api ls' k' = if bool_decide (k = k') then Some (off, len) else store_entry api ls k') ∨
     (∀ k', store_entry api ls' k' = store_entry api ls k'))).
Proof using Type*.
  intros Hwf Hsz Ho Hl. unfold put_index. pose proof (law_db_put (ls_idx ls) k (index_value off len)) as Hdb.
  destruct (db_put api (ls_idx ls) k (index_value off len)) as [[rc e] db]. cbn [snd].
  apply always_bind. eapply always_mono; [by apply index_put_always|].
  intros r (rc' & mem & -> & Hwf' & Hs' & Hc). apply always_ret. simpl. eexists. split; [done|]. simpl.
  split_and!; [done|lia|apply same_rest_index|].
  destruct Hc as [(_ & _ & Hm)|(_ & Hn & Hm)].
  - left. apply entry_after; try done. destruct Hdb as [(_ & _ & ->)|(_ & ->)]; auto.
  - destruct Hdb as [(_ & _ & Hv)|(_ & Hv)].
    + left. intros k'. unfold store_entry. simpl. rewrite Hm, Hv. case_bool_decide as E.
      * subst k'. rewrite Hn, lookup_insert_eq. simpl. by rewrite parse_index_value_roundtrip.
      * by rewrite lookup_insert_ne.
    + right. intros k'. unfold store_entry. simpl. by rewrite Hm, Hv.
Qed.

Lemma put_index_succeeds ls k off len n :
  idx_wf (ls_mem ls) → idx_room (ls_mem ls) (S n) → k ≠ [] → Z.of_nat (length k) <= PTRDIFF_MAX →
  0 <= off < 2 ^ 64 → 0 <= len < 2 ^ 32 →
  succeeds (put_index api ls k off len) (λ r, ∃ ls', r = Some ls' ∧ idx_wf (ls_mem ls') ∧
    idx_room (ls_mem ls') n ∧ same_rest ls ls' ∧ ls_idx ls' = (db_put api (ls_idx ls) k (index_value off len)).2 ∧
    (∀ k', idx_find (ls_mem ls') k' = if bool_decide (k = k') then Some (off, len) else idx_find (ls_mem ls) k') ∧
    (∀ k', store_entry api ls' k' = if bool_decide (k = k') then Some (off, len) else store_entry api ls k')).
Proof using Type*.
  intros Hwf Hr Hk Hkl Ho Hl. unfold put_index.
  pose proof (law_db_put (ls_idx ls) k (index_value off len)) as Hdb.
  destruct (db_put api (ls_idx ls) k (index_value off len)) as [[rc e] db] eqn:Ep. cbn [snd].
  apply succeeds_bind. eapply succeeds_mono; [by apply index_put_succeeds|].
  intros r (mem & -> & Hwf' & Hr' & Hm). apply succeeds_ret. simpl. eexists. split; [done|]. simpl.
  split_and!; [done|done|apply same_rest_index| | |].
  - done.
  - done.
  - apply entry_after; try done. destruct Hdb as [(_ & _ & ->)|(_ & ->)]; auto.
Qed.

(** *** A list of index entries *)

(** The entry of [k] after a list of puts. *)
Definition after_entries (es : list (list Z * Z * Z)) k (o : option (Z * Z)) : option (Z * Z) :=
  foldl (λ o e, if bool_decide (e.1.1 = k) then Some (e.1.2, e.2) else o) o es.

(** The bucket after a list of puts. *)
Definition after_puts (es : list (list Z * Z * Z)) (db : M) : M :=
  foldl (λ db e, (db_put api db e.1.1 (index_value e.1.2 e.2)).2) db es.

Lemma after_entries_found es k o : is_Some o ∨ k ∈ (λ e, e.1.1) <$> es → is_Some (after_entries es k o).
Proof.
  revert o. induction es as [|e es IH]; intros o [Ho|Hk]; try done; [by apply not_elem_of_nil in Hk| |]; cbn [after_entries foldl]; apply IH.
  - left. by case_bool_decide; [eexists|].
  - apply elem_of_cons in Hk as [->|Hk]; [left; rewrite bool_decide_true by done; by eexists|by right].
Qed.

(** An index entry that describes a record of the file. *)
Definition describes (file : list Z) (e : list Z * Z * Z) : Prop :=
  ∃ v, rec_ok (e.1.1, v) ∧ e.2 = Z.of_nat (length v) ∧ stored file e.1.2 e.1.1 v.

Lemma describes_bounds file e : Z.of_nat (length file) < 2 ^ 62 → describes file e →
  0 <= e.1.2 < 2 ^ 64 ∧ 0 <= e.2 < 2 ^ 32 ∧ e.1.1 ≠ [] ∧ Z.of_nat (length e.1.1) <= PTRDIFF_MAX.
Proof.
  intros Hf (v & Hr & -> & Hs). apply stored_range in Hs.
  unfold rec_ok, LS_HARD_KEY_MAX, LS_HARD_VALUE_MAX, PTRDIFF_MAX in *. cbn [fst snd] in *.
  split_and!; try lia. destruct e.1.1; [simpl in *; lia|done].
Qed.

Lemma put_all_always es ls :
  idx_wf (ls_mem ls) → idx_size (ls_mem ls) + Z.of_nat (length es) < 2 ^ 64 - 1 →
  Z.of_nat (length (ls_file ls)) < 2 ^ 62 → Forall (describes (ls_file ls)) es → sound api ls →
  always (put_all api ls es) (λ r, ∃ ls', r = Some ls' ∧ idx_wf (ls_mem ls') ∧
    idx_size (ls_mem ls') <= idx_size (ls_mem ls) + Z.of_nat (length es) ∧ same_rest ls ls' ∧ sound api ls').
Proof using Type*.
  revert ls. induction es as [|[[k off] len] es IH]; intros ls Hwf Hsz Hf Hes Hs; cbn [put_all length] in *.
  { apply always_ret. exists ls. split_and!; [done|done|lia|apply same_rest_refl|done]. }
  apply Forall_cons in Hes as [He Hes]. pose proof (describes_bounds _ _ Hf He) as (? & ? & _).
  apply always_bind. eapply always_mono; [apply put_index_always; try done; lia|].
  intros r (ls1 & -> & Hwf1 & Hs1 & Hr1 & Hc). cbn beta.
  assert (ls_file ls1 = ls_file ls) as Hfile by apply Hr1.
  eapply always_mono; [apply IH; rewrite ?Hfile; try done; [lia|]|].
  - intros k' e' He'. rewrite Hfile. destruct Hc as [Hc|Hc]; rewrite Hc in He'; [|by apply Hs].
    case_bool_decide as E; [|by apply Hs]. simplify_eq. destruct He as (v & ? & ? & ?). by exists v.
  - intros r (ls' & -> & ? & ? & ? & ?). exists ls'. split_and!; try done; [lia|].
    by eapply same_rest_trans.
Qed.

Lemma put_all_succeeds es ls n :
  idx_wf (ls_mem ls) → idx_room (ls_mem ls) (length es + n) →
  Z.of_nat (length (ls_file ls)) < 2 ^ 62 → Forall (describes (ls_file ls)) es →
  succeeds (put_all api ls es) (λ r, ∃ ls', r = Some ls' ∧ idx_wf (ls_mem ls') ∧
    idx_room (ls_mem ls') n ∧ same_rest ls ls' ∧
    (∀ k, store_entry api ls' k = after_entries es k (store_entry api ls k)) ∧
    (∀ k, idx_find (ls_mem ls') k = after_entries es k (idx_find (ls_mem ls) k)) ∧
    ls_idx ls' = after_puts es (ls_idx ls)).
Proof using Type*.
  revert ls. induction es as [|[[k off] len] es IH]; intros ls Hwf Hr Hf Hes; cbn [put_all length fmap list_fmap] in *.
  { apply succeeds_ret. by exists ls. }
  apply Forall_cons in Hes as [He Hes]. pose proof (describes_bounds _ _ Hf He) as (? & ? & ? & ?).
  apply succeeds_bind. eapply succeeds_mono; [by apply (put_index_succeeds ls k off len (length es + n))|].
  intros r (ls1 & -> & Hwf1 & Hr1 & Hrest & Hdb1 & Hm1 & Hc).
  assert (ls_file ls1 = ls_file ls) as Hfile by apply Hrest.
  eapply succeeds_mono; [apply IH; by rewrite ?Hfile|].
  intros r (ls' & -> & ? & ? & ? & He' & Hm & Hdb). exists ls'. split_and!; try done.
  - by eapply same_rest_trans.
  - intros k'. rewrite He', Hc. unfold after_entries. cbn [foldl fst snd]. done.
  - intros k'. rewrite Hm, Hm1. unfold after_entries. cbn [foldl fst snd]. done.
  - rewrite Hdb, Hdb1. done.
Qed.

(** *** From entries to values *)

Lemma layout_describes recs pre post :
  Forall rec_ok recs → Z.of_nat (length pre + length (log_bytes recs)) < 2 ^ 63 →
  Forall2 (λ r e, e.1.1 = r.1 ∧ e.2 = Z.of_nat (length r.2) ∧
    stored (pre ++ log_bytes recs ++ post) e.1.2 r.1 r.2) recs (layout (Z.of_nat (length pre)) recs).
Proof.
  revert pre. induction recs as [|[k v] recs IH]; intros pre Hok Hl; cbn [layout]; [constructor|].
  apply Forall_cons in Hok as [Hr Hok]. destruct (rec_ok_u32 _ Hr) as [_ Hv]. cbn [fst snd] in *.
  unfold log_bytes in *. cbn [fmap list_fmap concat fst snd] in *. rewrite length_app, length_encode in Hl.
  constructor.
  - cbn [fst snd]. split_and!; [done|done|]. exists pre, (concat ((λ r, encode_record r.1 r.2) <$> recs) ++ post).
    by list_norm.
  - assert (u64 (u64 (u64 (u64 (Z.of_nat (length pre) + 4) + 4) + Z.of_nat (length k)) + Z.of_nat (length v)) =
      Z.of_nat (length (pre ++ encode_record k v))) as ->.
    { rewrite length_app, length_encode. rewrite !u64_add_l, !(u64_small (_ + 4 + 4)) by lia. rewrite u64_small; lia. }
    specialize (IH (pre ++ encode_record k v) Hok). rewrite length_app, length_encode in IH at 1.
    specialize (IH ltac:(lia)). revert IH. by list_norm.
Qed.

Lemma layout_app (pre : list Z) r1 r2 :
  Z.of_nat (length pre + length (log_bytes r1)) < 2 ^ 63 →
  layout (Z.of_nat (length pre)) (r1 ++ r2) =
    layout (Z.of_nat (length pre)) r1 ++ layout (Z.of_nat (length (pre ++ log_bytes r1))) r2.
Proof.
  revert pre. induction r1 as [|[k v] r1 IH]; intros pre Hl; cbn [layout app].
  { unfold log_bytes. cbn [fmap list_fmap concat]. by rewrite app_nil_r. }
  unfold log_bytes in *. cbn [fmap list_fmap concat fst snd] in *. rewrite length_app, length_encode in Hl.
  assert (u64 (u64 (u64 (u64 (Z.of_nat (length pre) + 4) + 4) + Z.of_nat (length k)) + Z.of_nat (length v)) =
    Z.of_nat (length (pre ++ encode_record k v))) as ->.
  { rewrite length_app, length_encode. rewrite !u64_add_l, !(u64_small (_ + 4 + 4)) by lia. rewrite u64_small; lia. }
  f_equal. rewrite IH by (rewrite length_app, length_encode; lia). by rewrite app_assoc.
Qed.

Lemma layout_keys cur recs : (λ e, e.1.1) <$> layout cur recs = recs.*1.
Proof. revert cur. induction recs as [|[k v] recs IH]; intros cur; simpl; [done|]. f_equal. apply IH. Qed.

Lemma after_entries_values file recs es k e0 :
  Forall2 (λ r e, e.1.1 = r.1 ∧ e.2 = Z.of_nat (length r.2) ∧ stored file e.1.2 r.1 r.2) recs es →
  (λ e, value_at file e k) <$> after_entries es k e0 =
  after_records recs k ((λ e, value_at file e k) <$> e0).
Proof.
  intros H. revert e0. induction H as [|[k1 v] [[k2 off] len] recs es (E1 & E2 & Hs) _ IH]; intros e0; [done|].
  unfold after_entries, after_records in *. cbn [foldl fst snd] in *. rewrite IH. f_equal. subst.
  case_bool_decide; [|done]. subst. simpl. f_equal. by apply stored_value.
Qed.

Lemma after_entries_sound file recs es k e0 e :
  Forall rec_ok recs →
  Forall2 (λ r e, e.1.1 = r.1 ∧ e.2 = Z.of_nat (length r.2) ∧ stored file e.1.2 r.1 r.2) recs es →
  (∀ e, e0 = Some e → ∃ v, rec_ok (k, v) ∧ e.2 = Z.of_nat (length v) ∧ stored file e.1 k v) →
  after_entries es k e0 = Some e → ∃ v, rec_ok (k, v) ∧ e.2 = Z.of_nat (length v) ∧ stored file e.1 k v.
Proof.
  intros Hok H. revert e0 Hok.
  induction H as [|[k1 v] [[k2 off] len] rs es (E1 & E2 & Hst) _ IH]; intros e0 Hok H0 Hk; [by apply H0|].
  apply Forall_cons in Hok as [Hkv Hok]. cbn [fst snd] in *. subst.
  apply (IH (if bool_decide (k1 = k) then Some (off, Z.of_nat (length v)) else e0)); [done| |exact Hk].
  intros e1 E. case_bool_decide; [|by apply H0]. simplify_eq. exists v. done.
Qed.

Lemma contents_app ls ls' x :
  ls_file ls' = ls_file ls ++ x → sound api ls → ∀ k,
  (λ e, value_at (ls_file ls') e k) <$> store_entry api ls k = contents api ls k.
Proof.
  intros Hf Hs k. unfold contents. destruct (store_entry api ls k) as [[off len]|] eqn:E; [|done]. simpl. f_equal.
  destruct (Hs _ _ E) as (v & _ & Hl & Hst). cbn [fst snd] in *. subst len.
  rewrite Hf. rewrite (stored_value _ _ _ _ Hst). by apply stored_value, stored_app.
Qed.
End index_update.

(** *** Flushing *)

Lemma write_at_end file bs : write_at file (Z.of_nat (length file)) bs = file ++ bs.
Proof.
  unfold write_at. rewrite Nat2Z.id, take_ge, Nat.sub_diag by lia. simpl.
  by rewrite drop_ge, app_nil_r by (rewrite ?length_app; lia).
Qed.

Section flush.
Context {M : Type} (api : mdb_api M) `{!BucketLaws api}.
Implicit Types (ls : po_logstore M) (k v : list Z).

(** [ls'] is [ls] after [recs] were appended to file and indexes. *)
Record appended ls ls' (recs : list (list Z * list Z)) : Prop := mk_appended {
  ap_wf : ls_wf api ls';
  ap_file : ls_file ls' = ls_file ls ++ log_bytes recs;
  ap_contents : ∀ k, contents api ls' k = after_records recs k (contents api ls k);
  ap_index : ∀ k, idx_find (ls_mem ls') k =
    after_entries (layout (Z.of_nat (length (ls_file ls))) recs) k (idx_find (ls_mem ls) k);
  ap_bucket : ls_idx ls' = after_puts api (layout (Z.of_nat (length (ls_file ls))) recs) (ls_idx ls);
  ap_outstanding : u64 (ls_outstanding ls') = u64 (ls_outstanding ls - Z.of_nat (length recs));
  ap_limits : ls_max_key_bytes ls' = ls_max_key_bytes ls ∧ ls_max_value_bytes ls' = ls_max_value_bytes ls
}.

Lemma ap_mem ls ls' recs k : appended ls ls' recs →
  is_Some (idx_find (ls_mem ls) k) ∨ k ∈ recs.*1 → is_Some (idx_find (ls_mem ls') k).
Proof. intros Ha Hk. rewrite (ap_index _ _ _ Ha). apply after_entries_found. by rewrite layout_keys. Qed.

Lemma room_size mem n : idx_room mem n → idx_size mem < 2 ^ 32.
Proof. unfold idx_room, HashtableGrowth.MAX_ENTRIES. lia. Qed.

Lemma with_pos ls pos : ls_wf api ls → ls_wf api (with_file ls (ls_file ls) pos).
Proof. intros [? ? ? ?]. by split. Qed.

Lemma sync_policy_same ls io :
  ls_file (sync_policy ls io) = ls_file ls ∧ ls_mem (sync_policy ls io) = ls_mem ls ∧
  ls_idx (sync_policy ls io) = ls_idx ls ∧ ls_outstanding (sync_policy ls io) = ls_outstanding ls ∧
  ls_max_key_bytes (sync_policy ls io) = ls_max_key_bytes ls ∧
  ls_max_value_bytes (sync_policy ls io) = ls_max_value_bytes ls.
Proof. unfold sync_policy. destruct (ls_policy ls); repeat case (_ <=? _); tauto. Qed.

Lemma appended_sync ls ls1 ls2 recs :
  appended ls ls1 recs → ls_file ls2 = ls_file ls1 → ls_mem ls2 = ls_mem ls1 → ls_idx ls2 = ls_idx ls1 →
  ls_outstanding ls2 = ls_outstanding ls1 → ls_max_key_bytes ls2 = ls_max_key_bytes ls1 →
  ls_max_value_bytes ls2 = ls_max_value_bytes ls1 → appended ls ls2 recs.
Proof.
  intros [[H1 H2 H3 H4] Hf Hc Hm Hb Ho Hl] E1 E2 E3 E4 E5 E6.
  assert (∀ k, store_entry api ls2 k = store_entry api ls1 k) as He by (intros k; unfold store_entry; by rewrite E2, E3).
  split; rewrite ?E1, ?E2, ?E3, ?E4, ?E5, ?E6; try done.
  - split; rewrite ?E1, ?E2; try done. intros k e. rewrite He, E1. apply H4.
  - intros k. rewrite <- Hc. unfold contents. by rewrite He, E1.
Qed.

(** The vectored path, from the offsets to the indexes. *)
Lemma put_layout_succeeds ls recs pos n :
  ls_wf api ls → Forall rec_ok recs → idx_room (ls_mem ls) (length recs + n) →
  Z.of_nat (length (ls_file ls) + length (log_bytes recs)) < 2 ^ 62 →
  succeeds (put_all api (with_file ls (ls_file ls ++ log_bytes recs) pos)
              (layout (Z.of_nat (length (ls_file ls))) recs)) (λ r, ∃ ls', r = Some ls' ∧
    appended ls (with_counts ls' (u64 (ls_outstanding ls' - Z.of_nat (length recs))) (ls_seq ls')) recs ∧
    idx_room (ls_mem ls') n ∧ same_rest (with_file ls (ls_file ls ++ log_bytes recs) pos) ls').
Proof using Type*.
  intros [Hm Hsz Hf Hs] Hok Hr Hl. set (ls1 := with_file ls _ pos).
  pose proof (layout_describes recs (ls_file ls) [] Hok ltac:(lia)) as Hlay.
  rewrite app_nil_r in Hlay.
  assert (Forall (describes (ls_file ls1)) (layout (Z.of_nat (length (ls_file ls))) recs)) as Hd.
  { eapply Forall2_Forall_r; [exact Hlay|]. eapply list.Forall_impl; [exact Hok|].
    intros [k v] Hkv [[k' off] len] (E1 & E2 & Hst). cbn [fst snd] in *. subst. exists v. done. }
  eapply succeeds_mono; [apply (put_all_succeeds api _ _ n); try done|].
  { rewrite <- (Forall2_length _ _ _ Hlay). exact Hr. }
  { simpl. rewrite length_app. lia. }
  intros r (ls' & -> & Hm' & Hr' & Hrest & He & Hin & Hdb). exists ls'. split; [done|]. split; [|by split].
  assert (ls_file ls' = ls_file ls ++ log_bytes recs) as Hfile by apply Hrest.
  assert (∀ k, store_entry api ls1 k = store_entry api ls k) as He1 by done.
  assert (∀ k, contents api ls' k = after_records recs k (contents api ls k)) as Hc.
  { intros k. unfold contents at 1. rewrite He, He1, Hfile, (after_entries_values _ _ _ _ _ Hlay).
    f_equal. rewrite <- Hfile. by eapply (contents_app api ls ls'). }
  split; simpl.
  - split; simpl; [done|by eapply room_size|rewrite Hfile, length_app; lia|].
    intros k e Hk. change (store_entry api ls' k = Some e) in Hk. simpl. rewrite Hfile, He, He1 in *.
    eapply (after_entries_sound _ recs); [exact Hok|exact Hlay| |exact Hk].
    intros e1 E. destruct (Hs _ _ E) as (v & ? & ? & ?). exists v. eauto using stored_app.
  - done.
  - exact Hc.
  - exact Hin.
  - exact Hdb.
  - assert (ls_outstanding ls' = ls_outstanding ls) as -> by apply Hrest. by rewrite u64_u64.
  - split; apply Hrest.
Qed.

Definition complete_write (recs : list (list Z * list Z)) (io : flush_io) : Prop :=
  fi_seek_end io = true ∧ ∃ n, fi_pwritev io = Wrote n ∧ (length (log_bytes recs) <= n)%nat.

Lemma flush_vector ls batch io n0 :
  ls_wf api ls → Forall rec_ok (live_records batch) → (length (live_records batch) <= 256)%nat →
  idx_room (ls_mem ls) (length (live_records batch) + n0) →
  Z.of_nat (length (ls_file ls) + length (log_bytes (live_records batch))) < 2 ^ 62 →
  complete_write (live_records batch) io →
  succeeds (flush_batch api ls batch false io) (λ r, ∃ ls', r = Some ls' ∧
    appended ls ls' (live_records batch) ∧ idx_room (ls_mem ls') n0).
Proof using Type*.
  intros Hwf Hok Hn Hr Hl (Hse & n & Hpw & Hlen). unfold flush_batch.
  set (recs := live_records batch) in *. rewrite Hse, Hpw.
  do 4 (apply succeeds_bind, succeeds_malloc_bytes;
    [rewrite ?u64_small by lia; unfold PTRDIFF_MAX; lia|]). cbn [andb negb orb].
  assert (vector_write (i32 (u64 (Z.of_nat (length recs) * 4))) (Wrote n) = Wrote n) as ->.
  { unfold vector_write. rewrite u64_small by lia. unfold i32. rewrite signed_small by lia.
    case (Z.ltb_spec (Z.of_nat (length recs) * 4) 0); [lia|]. intros _.
    by case (Z.ltb_spec 1024 (Z.of_nat (length recs) * 4)); [lia|]. }
  cbn beta iota. unfold log_bytes in Hlen. rewrite take_ge by exact Hlen. simpl ls_file.
  rewrite write_at_end. apply succeeds_bind. eapply (succeeds_bind (put_all _ _ _)).
  eapply succeeds_mono; [apply (put_layout_succeeds ls recs (Z.of_nat (length (ls_file ls))) n0 Hwf Hok Hr Hl)|].
  intros r (ls' & -> & Hap & Hroom & Hrest). apply succeeds_ret. cbn. apply succeeds_ret. cbn.
  eexists. split; [done|]. destruct (sync_policy_same ls' io) as (E1 & E2 & E3 & E4 & E5 & E6).
  split; [|cbn; by rewrite E2].
  eapply appended_sync; [exact Hap|cbn; by rewrite ?E1, ?E2, ?E3, ?E4, ?E5, ?E6..].
Qed.

Lemma put_all_one ls k off len m : put_all api ls [(k, off, len)] m = put_index api ls k off len m.
Proof.
  cbn [put_all]. unfold mbind at 1, alloc_bind at 1. by destruct (put_index api ls k off len m) as [[] ?].
Qed.

Lemma log_bytes_cons r recs : log_bytes (r :: recs) = encode_record r.1 r.2 ++ log_bytes recs.
Proof. done. Qed.

Lemma log_bytes_one k v : log_bytes [(k, v)] = encode_record k v.
Proof. apply app_nil_r. Qed.

Lemma log_bytes_app r1 r2 : log_bytes (r1 ++ r2) = log_bytes r1 ++ log_bytes r2.
Proof. unfold log_bytes. by rewrite fmap_app, concat_app. Qed.

Lemma appended_trans a b c r1 r2 : appended a b r1 → appended b c r2 → appended a c (r1 ++ r2).
Proof.
  intros [Hw1 Hf1 Hc1 Hm1 Hb1 Ho1 [Hk1 Hv1]] [Hw2 Hf2 Hc2 Hm2 Hb2 Ho2 [Hk2 Hv2]].
  assert (layout (Z.of_nat (length (ls_file a))) (r1 ++ r2) = layout (Z.of_nat (length (ls_file a))) r1 ++
    layout (Z.of_nat (length (ls_file b))) r2) as Hlay.
  { rewrite Hf1. apply layout_app. pose proof (lw_file _ _ Hw1) as Hl. rewrite Hf1, length_app in Hl. lia. }
  split.
  - done.
  - rewrite Hf2, Hf1, log_bytes_app. by list_norm.
  - intros k. rewrite Hc2, Hc1. unfold after_records. by rewrite foldl_app.
  - intros k. rewrite Hm2, Hm1, Hlay. unfold after_entries. by rewrite foldl_app.
  - rewrite Hb2, Hb1, Hlay. unfold after_puts. by rewrite foldl_app.
  - rewrite Ho2, length_app. unfold u64 in *. rewrite <- Zminus_mod_idemp_l, Ho1, Zminus_mod_idemp_l. f_equal. lia.
  - by rewrite Hk2, Hv2.
Qed.

Definition complete_singles (recs : list (list Z * list Z)) (io : list (bool * nat * nat * nat * nat)) : Prop :=
  ∀ i k v s w1 w2 w3 w4, recs !! i = Some (k, v) → io !! i = Some (s, w1, w2, w3, w4) →
    s = true ∧ (4 <= w1)%nat ∧ (4 <= w2)%nat ∧ (length k <= w3)%nat ∧ (length v <= w4)%nat.

Lemma complete_singles_head k v recs io :
  complete_singles ((k, v) :: recs) io →
  let '(s, w1, w2, w3, w4) := default (true, 4%nat, 4%nat, length k, length v) (head io) in
  s = true ∧ (4 <= w1)%nat ∧ (4 <= w2)%nat ∧ (length k <= w3)%nat ∧ (length v <= w4)%nat.
Proof.
  intros H. destruct io as [|[[[[s w1] w2] w3] w4] io]; simpl; [split_and!; done|].
  by apply (H 0%nat k v s w1 w2 w3 w4).
Qed.

Lemma complete_singles_tail r recs io : complete_singles (r :: recs) io → complete_singles recs (tail io).
Proof.
  intros H i k v s w1 w2 w3 w4 Hi Hio. apply (H (S i) k v s w1 w2 w3 w4); [done|].
  by destruct io.
Qed.

Lemma flush_one_succeeds ls k v pos n :
  ls_wf api ls → rec_ok (k, v) → idx_room (ls_mem ls) (S n) →
  Z.of_nat (length (ls_file ls) + length (encode_record k v)) < 2 ^ 62 →
  succeeds (put_index api (with_file ls (ls_file ls ++ encode_record k v) pos) k
              (Z.of_nat (length (ls_file ls))) (u32 (Z.of_nat (length v)))) (λ r, ∃ ls', r = Some ls' ∧
    appended ls (with_counts ls' (u64 (ls_outstanding ls' - 1)) (ls_seq ls')) [(k, v)] ∧
    idx_room (ls_mem ls') n).
Proof using Type*.
  intros Hwf Hkv Hr Hl m Hm.
  pose proof (log_bytes_one k v) as E.
  destruct (put_layout_succeeds ls [(k, v)] pos n Hwf) with (m := m) as ((ls' & Hls & Hap & Hr' & _) & Hm'); try done.
  - by apply list.Forall_singleton.
  - by rewrite E.
  - rewrite E in *. cbn [layout] in *. rewrite put_all_one in *. eauto.
Qed.

Lemma flush_singly_succeeds recs ls io n :
  ls_wf api ls → Forall rec_ok recs → idx_room (ls_mem ls) (length recs + n) →
  Z.of_nat (length (ls_file ls) + length (log_bytes recs)) < 2 ^ 62 → complete_singles recs io →
  succeeds (flush_singly api ls recs io) (λ r, ∃ ls', r = Some ls' ∧ appended ls ls' recs ∧ idx_room (ls_mem ls') n).
Proof using Type*.
  revert ls io. induction recs as [|[k v] recs IH]; intros ls io Hwf Hok Hr Hl Hio; cbn [flush_singly].
  { apply succeeds_ret. exists ls. split; [done|]. split; [|exact Hr]. split; try done.
    - unfold log_bytes. by rewrite app_nil_r.
    - by rewrite Z.sub_0_r. }
  apply Forall_cons in Hok as [Hkv Hok]. pose proof (complete_singles_head _ _ _ _ Hio) as Hh.
  destruct (default _ (head io)) as [[[[s w1] w2] w3] w4]. destruct Hh as (-> & H1 & H2 & H3 & H4).
  rewrite !take_ge by (rewrite ?length_le_bytes; lia).
  rewrite log_bytes_cons, length_app in Hl. cbn [fst snd length] in *.
  change (le_bytes 4 _ ++ le_bytes 4 _ ++ k ++ v) with (encode_record k v). rewrite write_at_end.
  apply succeeds_bind. eapply succeeds_mono; [apply (flush_one_succeeds ls k v _ (length recs + n)); try done; lia|].
  intros r (ls1 & -> & Hap & Hr1). pose proof (ap_file _ _ _ Hap) as Hf1. rewrite log_bytes_one in Hf1.
  eapply succeeds_mono; [apply IH; [apply Hap|done|done| |by eapply complete_singles_tail]|].
  { rewrite Hf1, length_app. lia. }
  intros r (ls' & -> & Hap' & Hr'). exists ls'. split_and!; [done| |done..].
  by apply (appended_trans _ _ _ [(k, v)] recs Hap).
Qed.
End flush.

(** *** Look-up *)

Lemma stored_pread file off k v :
  stored file off k v → rec_ok (k, v) → Z.of_nat (length file) < 2 ^ 62 →
  pread file 8 (i64 off) = Some (le_bytes 4 (Z.of_nat (length k)) ++ le_bytes 4 (Z.of_nat (length v))) ∧
  pread file (Z.of_nat (length v)) (i64 (off + 4 + 4 + Z.of_nat (length k))) = Some v.
Proof.
  intros Hst Hok Hf. pose proof (stored_range _ _ _ _ Hst) as Hr. pose proof (stored_value _ _ _ _ Hst) as Hv.
  destruct (rec_ok_u32 _ Hok) as [Ek Ev]. cbn [fst snd] in *.
  unfold pread, i64. rewrite !signed_small by lia.
  rewrite !(proj2 (Z.ltb_ge _ 0)) by lia. split; f_equal.
  - destruct Hst as (pre & post & -> & ->). rewrite Nat2Z.id, drop_app_length. unfold encode_record.
    rewrite Ek, Ev. list_norm. rewrite (app_assoc (le_bytes 4 _) (le_bytes 4 _)).
    rewrite take_app_le by (rewrite length_app, !length_le_bytes; lia).
    apply take_ge. rewrite length_app, !length_le_bytes. lia.
  - trans (value_at file (off, Z.of_nat (length v)) k); [|exact Hv]. unfold value_at. cbn [fst snd]. do 2 f_equal. lia.
Qed.

Lemma read_record_always file off k v :
  stored file off k v → rec_ok (k, v) → Z.of_nat (length file) < 2 ^ 62 →
  always (read_record file off (Z.of_nat (length v))) (λ r, r = None ∨ r = Some v) ∧
  succeeds (read_record file off (Z.of_nat (length v))) (λ r, r = Some v).
Proof.
  intros Hst Hok Hf. destruct (stored_pread _ _ _ _ Hst Hok Hf) as [E1 E2].
  pose proof (stored_range _ _ _ _ Hst) as Hr. unfold read_record. rewrite E1.
  rewrite length_app, !length_le_bytes. change (negb (Nat.eqb (4 + 4) 8)) with false. cbn [negb].
  rewrite take_app_length' by (by rewrite length_le_bytes).
  rewrite drop_app_length' by (by rewrite length_le_bytes).
  rewrite (take_ge (le_bytes 4 _)) by (by rewrite length_le_bytes).
  pose proof Hok as [Hk1 Hv1]. unfold rec_ok, LS_HARD_KEY_MAX, LS_HARD_VALUE_MAX in *. cbn [fst snd] in *.
  rewrite !of_le_bytes by (simpl; lia).
  rewrite (proj2 (Z.ltb_ge _ _)), (proj2 (Z.ltb_ge _ (Z.of_nat (length v)))), Z.eqb_refl by lia. cbn [orb negb].
  rewrite u64_small by lia. rewrite (proj2 (Z.ltb_ge (2 ^ 63 - 1) _)) by lia.
  split.
  - apply always_bind, always_malloc_bytes; [apply always_ret; by left|]. intros _. cbn [negb].
    rewrite E2. apply always_ret. right. by rewrite Z.eqb_refl.
  - apply succeeds_bind, succeeds_malloc_bytes; [unfold PTRDIFF_MAX; lia|]. cbn [negb].
    rewrite E2. apply succeeds_ret. by rewrite Z.eqb_refl.
Qed.

Section lookup.
Context {M : Type} (api : mdb_api M) `{!BucketLaws api}.
Implicit Types (ls : po_logstore M) (k v : list Z).

Lemma find_entry_always ls k :
  idx_wf (ls_mem ls) → idx_size (ls_mem ls) < 2 ^ 64 - 1 →
  always (find_entry api ls k) (λ r, ∃ e ls', r = Some (e, ls') ∧ (e = None ∨ e = store_entry api ls k) ∧
    (is_Some (idx_find (ls_mem ls) k) → e = store_entry api ls k) ∧
    ls_file ls' = ls_file ls ∧ idx_wf (ls_mem ls') ∧ ∀ k', store_entry api ls' k' = store_entry api ls k').
Proof using Type*.
  intros Hwf Hsz. unfold find_entry. rewrite index_get_spec by done.
  destruct (idx_find (ls_mem ls) k) as [e|] eqn:E.
  { assert (store_entry api ls k = Some e) as He by (unfold store_entry; by rewrite E).
    apply always_ret. exists (Some e), ls. rewrite He. split_and!; auto. }
  apply always_bind. unfold lookup_bucket. apply always_bind. eapply always_mono; [apply law_db_get|].
  intros [[rc er] iv] Hget. apply always_ret. cbn [fst snd] in *.
  assert (always (mret (Some (None, ls))) (λ r, ∃ e ls', r = Some (e, ls') ∧ (e = None ∨ e = store_entry api ls k) ∧
    (is_Some (@None (Z * Z)) → e = store_entry api ls k) ∧ ls_file ls' = ls_file ls ∧ idx_wf (ls_mem ls') ∧
    ∀ k', store_entry api ls' k' = store_entry api ls k')) as Hnone.
  { apply always_ret. exists None, ls. split_and!; auto. by intros []. }
  destruct (Z.eqb_spec rc 0) as [->|_]; [|exact Hnone]. cbn [negb].
  destruct Hget as [[_ Hv]|]; [|lia]. destruct (parse_index_value iv) as [[off len]|] eqn:Ep; [|exact Hnone].
  assert (store_entry api ls k = Some (off, len)) as Hent by (unfold store_entry; rewrite E, Hv; exact Ep).
  apply always_bind. eapply always_mono; [by apply index_put_always|].
  intros r (rc' & mem & -> & Hwf' & _ & Hc). apply always_ret. cbn. eexists _, _. split; [done|]. cbn.
  split_and!; [by right|by intros []|done|done|].
  intros k'. unfold store_entry in *. cbn. destruct Hc as [(_ & _ & Hm)|(_ & _ & Hm)]; rewrite Hm; [|done].
  case_bool_decide as Ek; [subst; by rewrite Hent|done].
Qed.

(** Every answer is right, and a key of the memory index is found. *)
Lemma get_cases_always ls k :
  ls_wf api ls →
  always (po_logstore_get api ls k) (λ r, ∃ o ls', r = Some (o, ls') ∧
    (o = None ∨ o = contents api ls k) ∧ ls_file ls' = ls_file ls ∧ idx_wf (ls_mem ls') ∧
    ∀ k', contents api ls' k' = contents api ls k').
Proof using Type*.
  intros [Hm Hsz Hf Hs]. unfold po_logstore_get.
  destruct (_ || _); [apply always_ret; exists None, ls; split_and!; auto|].
  apply always_bind. eapply always_mono; [apply find_entry_always; [done|lia]|].
  intros r (e & ls' & -> & He & _ & Hfile & Hwf' & Hent).
  assert (∀ k', contents api ls' k' = contents api ls k') as Hc
    by (intros k'; unfold contents; by rewrite Hent, Hfile).
  destruct e as [[off len]|]; [|apply always_ret; exists None, ls'; split_and!; auto].
  destruct He as [|He]; [done|]. destruct (Hs _ _ (eq_sym He)) as (v & Hok & Hl & Hst). cbn [fst snd] in *. subst len.
  apply always_bind. rewrite Hfile. eapply always_mono; [exact (proj1 (read_record_always _ _ _ _ Hst Hok Hf))|].
  intros o Ho. apply always_ret. exists o, ls'. split_and!; auto.
  destruct Ho as [-> | ->]; [by left|right]. unfold contents. rewrite <- He. simpl. f_equal.
  symmetry. by apply stored_value.
Qed.

Lemma get_mem_succeeds ls k :
  ls_wf api ls → is_Some (idx_find (ls_mem ls) k) → Z.of_nat (length k) <= ls_max_key_bytes ls →
  succeeds (po_logstore_get api ls k) (λ r, ∃ ls', r = Some (contents api ls k, ls')).
Proof using Type*.
  intros [Hm Hsz Hf Hs] [e He] Hk. unfold po_logstore_get.
  destruct (Z.eqb_spec (Z.of_nat (length k)) 0) as [Hl|_].
  { assert (k = []) as -> by (by destruct k). rewrite idx_find_nil in He by done. done. }
  rewrite (proj2 (Z.ltb_ge _ _)) by lia. cbn [orb]. unfold find_entry. rewrite index_get_spec, He by done.
  apply succeeds_bind, succeeds_ret. destruct e as [off len].
  assert (store_entry api ls k = Some (off, len)) as Hent by (unfold store_entry; by rewrite He).
  destruct (Hs _ _ Hent) as (v & Hok & Hl & Hst). cbn [fst snd] in *. subst len.
  apply succeeds_bind. eapply succeeds_mono; [by apply (proj2 (read_record_always _ _ k v Hst Hok Hf))|].
  intros r ->. apply succeeds_ret. exists ls. unfold contents. rewrite Hent. simpl. do 3 f_equal.
  symmetry. by apply stored_value.
Qed.
End lookup.

(** ** Concrete stores *)

Definition new_store (policy : fsync_policy) : po_logstore (gmap (list Z) (list Z)) :=
  mk_logstore [] 0 ∅ (index_of []) policy 0 0 0 0 LS_MAX_KEY_DEFAULT LS_MAX_VALUE_DEFAULT 0 0 0.

Definition full_io (n : nat) : flush_io := mk_flush_io true (Wrote n) true (Wrote n) true 0 [].

Lemma new_store_wf policy : ls_wf map_mdb (new_store policy) ∧ idx_room (ls_mem (new_store policy)) 100.
Proof.
  destruct (index_of_wf []) as [Hwf Hs]; [done|]. split; [|split; [vm_compute; discriminate|]].
  - split; [done|cbn in Hs |- *; lia|done|]. intros k e He. unfold store_entry in He. simpl in He.
    rewrite lookup_empty in He. simpl in He.
    assert (idx_find (index_of []) k = None) as E; [|by rewrite E in He].
    destruct (create_sized_always (V := option loc) is_key cmp_bin hash_bin 34 ltac:(lia) [])
      as (Hht & _ & _ & Hf). by apply empty_index_wf.
  - change (ls_mem (new_store policy)) with (index_of []). unfold HashtableGrowth.MAX_ENTRIES. cbn [length] in Hs. lia.
Qed.

(** ** Properties *)

(** C7. Flushing a batch refines the update of a finite map: when the kernel
    takes the whole vector and nothing fails to be allocated, the records are
    appended to the file in batch order, each key maps to its last value in the
    batch and every other key to what it had, and [po_logstore_get] returns
    exactly that for every key of the batch, also when the bucket refuses some
    of the entries. *)
Theorem logstore_flush_then_get {M} (api : mdb_api M) (ls : po_logstore M) (batch : list append_req)
    (io : flush_io) :
  MdbLaws api → ls_wf api ls → Forall rec_ok (live_records batch) →
  (length (live_records batch) <= 256)%nat →
  idx_room (ls_mem ls) (length (live_records batch)) →
  Z.of_nat (length (ls_file ls) + length (log_bytes (live_records batch))) < 2 ^ 62 →
  complete_write (live_records batch) io →
  succeeds (flush_batch api ls batch false io) (λ r, ∃ ls', r = Some ls' ∧ ls_wf api ls' ∧
    ls_file ls' = ls_file ls ++ log_bytes (live_records batch) ∧
    (∀ k, contents api ls' k = after_records (live_records batch) k (contents api ls k)) ∧
    (∀ k, k ∈ (live_records batch).*1 → Z.of_nat (length k) <= ls_max_key_bytes ls →
       succeeds (po_logstore_get api ls' k) (λ g,
         ∃ ls'', g = Some (after_records (live_records batch) k (contents api ls k), ls'')))).
Proof.
  intros Hlaws Hwf Hok Hn Hr Hl Hio. eapply succeeds_mono.
  { apply (flush_vector api ls batch io 0); try done. by rewrite Nat.add_0_r. }
  intros r (ls' & -> & Hap & _). pose proof Hap as [Hwf' Hf Hc _ _ _ [Hk _]]. exists ls'. split_and!; try done.
  intros k Hin Hlen. rewrite <- Hc. apply (get_mem_succeeds api ls' k); [done|by eapply (ap_mem api); [exact Hap|right]|by rewrite Hk].
Qed.

Lemma logstore_flush_then_get_witness :
  let batch := [Append [1] [10; 11]; Append [2] [20]; Append [1] [12]] in
  let r := (flush_batch map_mdb (new_store PO_LS_FSYNC_NONE) batch false (full_io 64) []).1 in
  ∃ ls', r = Some ls' ∧ ls_wf map_mdb ls' ∧ contents map_mdb ls' [1] = Some [12] ∧
    contents map_mdb ls' [2] = Some [20] ∧ contents map_mdb ls' [3] = None.
Proof.
  destruct (new_store_wf PO_LS_FSYNC_NONE) as [Hwf [Hcap Hs]].
  destruct (logstore_flush_then_get map_mdb (new_store PO_LS_FSYNC_NONE)
    [Append [1] [10; 11]; Append [2] [20]; Append [1] [12]] (full_io 64) _ Hwf) with (m := @nil bool)
    as [(ls' & E & Hwf' & _ & Hc & _) _].
  - by repeat constructor.
  - simpl. lia.
  - split; [exact Hcap|]. simpl in *. lia.
  - vm_compute. reflexivity.
  - split; [done|]. exists 64%nat. split; [done|vm_compute; lia].
  - apply no_fail_nil.
  - exists ls'. split_and!; [exact E|done|by rewrite Hc..].
Defined.

(** A look-up never returns anything but the value of its key, whatever the
    allocator and the bucket answer: in a store whose index entries point to
    records of their keys, [po_logstore_get] returns the value or -1 and
    leaves the contents alone. *)
Theorem logstore_get_sound {M} (api : mdb_api M) (ls : po_logstore M) (key : list Z) :
  MdbLaws api → ls_wf api ls →
  always (po_logstore_get api ls key) (λ r, ∃ o ls', r = Some (o, ls') ∧
    (o = None ∨ o = contents api ls key) ∧ ls_file ls' = ls_file ls ∧
    ∀ k, contents api ls' k = contents api ls k).
Proof.
  intros Hlaws Hwf. eapply always_mono; [by apply (get_cases_always api ls key)|].
  intros r (o & ls' & -> & Ho & Hf & _ & Hc). by exists o, ls'.
Qed.

Lemma logstore_get_sound_witness :
  ∃ o ls', (po_logstore_get map_mdb (new_store PO_LS_FSYNC_NONE) [5] [false]).1 = Some (o, ls') ∧ o = None.
Proof.
  destruct (logstore_get_sound map_mdb (new_store PO_LS_FSYNC_NONE) [5] _
    (proj1 (new_store_wf PO_LS_FSYNC_NONE)) [false]) as (o & ls' & E & Ho & _).
  exists o, ls'. split; [exact E|]. by destruct Ho as [-> | ->].
Defined.

(** C40. The vectored flush is equivalent to the record-by-record one it falls
    back to: with complete writes and no failed allocation both leave the same
    file, the same database, the same entry for every key in the memory index, the
    same contents, and the same number of outstanding requests. *)
Theorem logstore_flush_paths_agree {M} (api : mdb_api M) (ls : po_logstore M) (batch : list append_req)
    (io : flush_io) (m m' : list bool) :
  MdbLaws api → ls_wf api ls → Forall rec_ok (live_records batch) →
  (length (live_records batch) <= 256)%nat →
  idx_room (ls_mem ls) (length (live_records batch)) →
  Z.of_nat (length (ls_file ls) + length (log_bytes (live_records batch))) < 2 ^ 62 →
  complete_write (live_records batch) io → complete_singles (live_records batch) (fi_single io) →
  no_fail m → no_fail m' →
  ∃ ls1 ls2, (flush_batch api ls batch false io m).1 = Some ls1 ∧
    (flush_batch api ls batch true io m').1 = Some ls2 ∧
    ls_file ls1 = ls_file ls2 ∧ ls_idx ls1 = ls_idx ls2 ∧
    ls_idx ls1 = after_puts api (layout (Z.of_nat (length (ls_file ls))) (live_records batch)) (ls_idx ls) ∧
    (∀ k, idx_find (ls_mem ls1) k = idx_find (ls_mem ls2) k) ∧
    (∀ k, contents api ls1 k = contents api ls2 k) ∧
    u64 (ls_outstanding ls1) = u64 (ls_outstanding ls2).
Proof.
  intros Hlaws Hwf Hok Hn Hr Hl Hio Hs Hm Hm'.
  destruct (flush_vector api ls batch io 0) with (m := m) as [(ls1 & E1 & H1 & _) _]; try done.
  { by rewrite Nat.add_0_r. }
  assert (succeeds (flush_batch api ls batch true io) (λ r, ∃ ls', r = Some ls' ∧
    appended api ls ls' (live_records batch))) as H2.
  { unfold flush_batch. rewrite (proj1 Hio).
    do 4 (apply succeeds_bind, succeeds_malloc_bytes;
      [rewrite ?u64_small by lia; unfold PTRDIFF_MAX; lia|]). cbn [orb].
    apply succeeds_bind. eapply succeeds_mono.
    { apply (flush_singly_succeeds api _ _ _ 0); [by apply with_pos|done| |done|done].
      by rewrite Nat.add_0_r. }
    intros r (ls' & -> & Hap & _). apply succeeds_ret. cbn. eexists. split; [done|].
    assert (appended api ls ls' (live_records batch)) as Hap' by (destruct Hap; by split).
    destruct (ls_policy ls'); try done. by eapply appended_sync. }
  destruct (H2 m' Hm') as [(ls2 & E2 & H3) _]. exists ls1, ls2. split_and!; [done..| | | | | |].
  - by rewrite (ap_file _ _ _ _ H1), (ap_file _ _ _ _ H3).
  - by rewrite (ap_bucket _ _ _ _ H1), (ap_bucket _ _ _ _ H3).
  - apply (ap_bucket _ _ _ _ H1).
  - intros k. by rewrite (ap_index _ _ _ _ H1), (ap_index _ _ _ _ H3).
  - intros k. by rewrite (ap_contents _ _ _ _ H1), (ap_contents _ _ _ _ H3).
  - by rewrite (ap_outstanding _ _ _ _ H1), (ap_outstanding _ _ _ _ H3).
Qed.

Lemma logstore_flush_paths_agree_witness :
  let batch := [Append [1] [10; 11]; Sentinel; Append [2] []] in
  let ls := new_store PO_LS_FSYNC_EACH_BATCH in
  ∃ ls1 ls2, (flush_batch map_mdb ls batch false (full_io 64) []).1 = Some ls1 ∧
    (flush_batch map_mdb ls batch true (full_io 64) []).1 = Some ls2 ∧ ls_file ls1 = ls_file ls2 ∧ ls_idx ls1 = ls_idx ls2.
Proof.
  destruct (new_store_wf PO_LS_FSYNC_EACH_BATCH) as [Hwf [Hcap Hs]].
  destruct (logstore_flush_paths_agree map_mdb (new_store PO_LS_FSYNC_EACH_BATCH)
    [Append [1] [10; 11]; Sentinel; Append [2] []] (full_io 64) [] [] _ Hwf) as (ls1 & ls2 & E1 & E2 & E3 & E4 & _).
  - by repeat constructor.
  - simpl. lia.
  - split; [exact Hcap|]. simpl in *. lia.
  - vm_compute. reflexivity.
  - split; [done|]. exists 64%nat. split; [done|vm_compute; lia].
  - by intros [] *.
  - apply no_fail_nil.
  - apply no_fail_nil.
  - exists ls1, ls2. split_and!; [exact E1|exact E2|exact E3|exact E4].
Defined.

(** A batch of more than 256 records is lost as a whole: its vector has more
    than 1024 parts, the kernel refuses both calls whatever the disk does, and
    the requests are released although appending them reported success. *)
Theorem logstore_large_batch_lost {M} (api : mdb_api M) (ls : po_logstore M) (batch : list append_req)
    (io : flush_io) :
  (256 < length (live_records batch) < 2 ^ 20)%nat →
  succeeds (flush_batch api ls batch false io) (λ r, ∃ ls', r = Some ls' ∧
    ls_file ls' = ls_file ls ∧ ls_idx ls' = ls_idx ls ∧ ls_mem ls' = ls_mem ls ∧
    ls_outstanding ls' = u64 (ls_outstanding ls - Z.of_nat (length (live_records batch)))).
Proof.
  intros Hn. unfold flush_batch. set (recs := live_records batch) in *.
  assert (Z.of_nat (length recs) < 2 ^ 20).
  { destruct Hn as [_ Hn]. apply inj_lt in Hn. rewrite Nat2Z.inj_pow in Hn. exact Hn. }
  do 4 (apply succeeds_bind, succeeds_malloc_bytes;
    [rewrite ?u64_small by lia; unfold PTRDIFF_MAX; lia|]). cbn [andb negb orb].
  assert (∀ w, vector_write (i32 (u64 (Z.of_nat (length recs) * 4))) w = Einval_or_enosys) as Hv.
  { intros w. unfold vector_write. rewrite u64_small by lia. unfold i32. rewrite signed_small by lia.
    rewrite (proj2 (Z.ltb_lt 1024 _)), orb_true_r by lia. done. }
  rewrite !Hv. cbn beta iota. destruct (fi_seek_base io); cbn beta iota;
    apply succeeds_bind, succeeds_ret; apply succeeds_ret; eexists; split; [done| |done|]; by split_and!.
Qed.

Lemma logstore_large_batch_lost_witness :
  let batch := replicate 257 (Append [1] [2]) in
  ∃ ls', (flush_batch map_mdb (new_store PO_LS_FSYNC_NONE) batch false (full_io 100000) []).1 = Some ls' ∧
    ls_file ls' = [].
Proof.
  destruct (logstore_large_batch_lost map_mdb (new_store PO_LS_FSYNC_NONE)
    (replicate 257 (Append [1] [2])) (full_io 100000)) with (m := @nil bool) as [(ls' & E & Hf & _) _].
  - split; [vm_compute; lia|]. apply Nat.ltb_lt. vm_compute. reflexivity.
  - apply no_fail_nil.
  - exists ls'. split; [exact E|exact Hf].
Defined.

(** A short write is taken for a whole one: the index entry of the missing
    record points behind the file, and once other records fill the gap a
    look-up returns bytes that were never stored under its key. *)
Theorem logstore_short_write_corrupts :
  ∃ ls1 ls2 ls3, (flush_batch map_mdb (new_store PO_LS_FSYNC_EACH_BATCH) [Append [1] [7; 7]] false
      (mk_flush_io true (Wrote 0) true (Wrote 0) true 0 []) []).1 = Some ls1 ∧
    (flush_batch map_mdb ls1 [Append [2] [9; 9]] false (full_io 64) []).1 = Some ls2 ∧
    (po_logstore_get map_mdb ls2 [1] []).1 = Some (Some [9; 9], ls3).
Proof.
  do 3 eexists. split; [vm_compute; reflexivity|]. split; [vm_compute; reflexivity|]. vm_compute. reflexivity.
Qed.
