(* ===== verification/LogstoreRecovery.v ===== *)
(** * Rebuilding and opening the log store
    ([app/libs/ring3/postoffice/storage/logstore_rebuild.c] and the opening in
    [logstore.c])

    The scan of the file that restores the index after a crash and cuts a torn
    tail off, and the start-up that loads the index from the bucket. *)

From Stdlib Require Import ZArith Lia.
From stdpp Require Import base list numbers gmap.
From S2P Require Import Prelude Hashtable HashtableGrowth Index Lmdb Ringbuf Protocol Logstore.

Local Open Scope Z_scope.

Section rebuild.
Context {M : Type} (api : mdb_api M).
Implicit Types (ls : po_logstore M).

(** The reads of one round: the record at [cursor], if the file has a whole
    one within the limits. *)
Definition scan_record ls (cursor : Z) : alloc (option (list Z * Z)) :=
  match pread (ls_file ls) 4 cursor with
  | Some klb =>
      if negb (Nat.eqb (length klb) 4) then mret None
      else
        match pread (ls_file ls) 4 (cursor + 4) with
        | Some vlb =>
            if negb (Nat.eqb (length vlb) 4) then mret None
            else
              let kl := of_le klb in
              let vl := of_le vlb in
              if negb (_ls_validate_lengths kl vl (ls_max_key_bytes ls) (ls_max_value_bytes ls)) then mret None
              else
                ok ← malloc_bytes kl;
                if negb ok then mret None
                else
                  match pread (ls_file ls) kl (cursor + 8) with
                  | Some kbuf =>
                      if negb (Z.of_nat (length kbuf) =? kl) then mret None
                      else if 0 <? vl then
                        match pread (ls_file ls) 1 (cursor + 8 + kl + vl - 1) with
                        | Some probe => mret (if negb (Nat.eqb (length probe) 1) then None else Some (kbuf, vl))
                        | None => mret None
                        end
                      else mret (Some (kbuf, vl))
                  | None => mret None
                  end
        | None => mret None
        end
  | None => mret None
  end.

(** [for (;;)]: the store with its new entries and [last_good_end]; an empty
    read at [cursor] makes the cursor itself the last good end. *)
Fixpoint rebuild_loop (fuel : nat) ls (cursor last_good_end : Z) : alloc (option (po_logstore M * Z)) :=
  match fuel with
  | O => mret None
  | S fuel =>
      if bool_decide (pread (ls_file ls) 4 cursor = Some []) then mret (Some (ls, cursor))
      else
        r ← scan_record ls cursor;
        match r with
        | None => mret (Some (ls, last_good_end))
        | Some (kbuf, vl) =>
            p ← put_index api ls kbuf cursor vl;
            match p with
            | None => mret None
            | Some ls =>
                let cursor := cursor + 8 + Z.of_nat (length kbuf) + vl in
                rebuild_loop fuel ls cursor cursor
            end
        end
  end.

(** [ftruncate] to at most the present size. *)
Definition truncate ls (size : Z) : po_logstore M :=
  with_file ls (take (Z.to_nat size) (ls_file ls)) (ls_pos ls).

Definition _ls_rebuild_on_open ls (rebuild_on_open truncate_on_rebuild ftruncate_ok : bool) :
    alloc (option (po_logstore M)) :=
  if negb rebuild_on_open then mret (Some ls)
  else
    r ← rebuild_loop (S (length (ls_file ls))) ls 0 0;
    mret (r ← r; Some (if truncate_on_rebuild && ftruncate_ok then truncate r.1 r.2 else r.1)).
End rebuild.

(** ** Opening *)

Record po_logstore_cfg : Type := mk_cfg {
  cfg_ring_capacity : Z;
  cfg_batch_size : Z;
  cfg_fsync_policy : fsync_policy;
  cfg_fsync_interval_ms : Z;
  cfg_fsync_every_n : Z;
  cfg_rebuild_on_open : bool;
  cfg_truncate_on_rebuild : bool;
  cfg_max_key_bytes : Z;
  cfg_max_value_bytes : Z;
  cfg_workers : Z
}.

(** What the system has and answers while the store is opened. *)
Record open_env (M : Type) : Type := mk_open_env {
  oe_file : option (list Z);     (* open(path, O_CREAT | O_RDWR) *)
  oe_db : option M;              (* db_env_open and db_bucket_open *)
  oe_eventfd : bool;
  oe_now : Z;
  oe_ftruncate : bool;
  oe_threads : bool              (* pthread_create of the workers *)
}.
Arguments mk_open_env {M}. Arguments oe_file {M}. Arguments oe_db {M}. Arguments oe_eventfd {M}.
Arguments oe_now {M}. Arguments oe_ftruncate {M}. Arguments oe_threads {M}.

(** [Crashed] is the null pointer access of the clean-up, [po_logstore_close]
    of an incomplete store: it enqueues the sentinel in a batcher that is not
    there, drains a ring that is not there or joins threads without their
    array.  The clean-up after threads did start is [LogstoreWorker]. *)
Inductive open_result (M : Type) : Type :=
| OpenFailed
| Crashed
| Opened (ls : po_logstore M).
Arguments OpenFailed {M}. Arguments Crashed {M}. Arguments Opened {M}.

(** The callback of [db_iterate]; the allocator's schedule is part of its state. *)
Definition preload_cb (s : option po_index * list bool) (k v : list Z) :
    Z * (option po_index * list bool) :=
  match parse_index_value v, s with
  | Some (off, len), (Some idx, m) =>
      let '(r, m) := po_index_put idx k off len m in (0, (snd <$> r, m))
  | _, _ => (0, s)
  end.

Definition preload {M} (api : mdb_api M) (db : M) (idx : po_index) : alloc (option po_index) :=
  λ m, (db_iterate api db preload_cb (Some idx, m)).2.

(** [ls->nworkers] is set before its array is allocated. *)
Definition po_logstore_open_cfg {M} (api : mdb_api M) (cfg : po_logstore_cfg) (env : open_env M) :
    alloc (open_result M) :=
  match oe_file env, oe_db env with
  | None, _ | _, None => mret OpenFailed
  | Some file, Some db =>
      ls ← malloc;
      if negb ls then mret OpenFailed
      else
        q ← perf_ringbuf_create (P := option append_req) None
              (if cfg_ring_capacity cfg =? 0 then 1024 else cfg_ring_capacity cfg);
        match q.2 with
        | None => mret Crashed
        | Some _ =>
            b ← malloc;
            if negb (b && oe_eventfd env) then
              sent ← malloc; mret (if (sent : bool) then Crashed else OpenFailed)
            else
              idx ← po_index_create 1024;
              match idx with
              | None => mret OpenFailed
              | Some idx =>
                  idx ← preload api db idx;
                  match idx with
                  | None => mret Crashed
                  | Some idx =>
                      let interval := match cfg_fsync_policy cfg with
                        | PO_LS_FSYNC_INTERVAL => cfg_fsync_interval_ms cfg * 1000000 | _ => 0 end in
                      let every := match cfg_fsync_policy cfg with
                        | PO_LS_FSYNC_EVERY_N => if cfg_fsync_every_n cfg =? 0 then 1 else cfg_fsync_every_n cfg
                        | _ => 0 end in
                      let maxk := if cfg_max_key_bytes cfg =? 0 then LS_MAX_KEY_DEFAULT else cfg_max_key_bytes cfg in
                      let maxv := if cfg_max_value_bytes cfg =? 0 then LS_MAX_VALUE_DEFAULT
                                  else cfg_max_value_bytes cfg in
                      let ls := mk_logstore file 0 db idx (cfg_fsync_policy cfg) interval
                        (if interval =? 0 then 0 else oe_now env) every 0
                        (if LS_HARD_KEY_MAX <? maxk then LS_HARD_KEY_MAX else maxk)
                        (if LS_HARD_VALUE_MAX <? maxv then LS_HARD_VALUE_MAX else maxv) 0 0 (length file) in
                      r ← _ls_rebuild_on_open api ls (cfg_rebuild_on_open cfg)
                            (cfg_truncate_on_rebuild cfg) (oe_ftruncate env);
                      match r with
                      | None => mret Crashed
                      | Some ls =>
                          ok ← malloc_bytes ((if cfg_workers cfg =? 0 then 1 else cfg_workers cfg) * 8);
                          if negb ok then mret Crashed
                          else mret (if oe_threads env then Opened ls else OpenFailed)
                      end
                  end
              end
        end
  end.

(** ** Specification *)

(** A record within the limits of the store. *)
Definition rec_fits {M} (ls : po_logstore M) (r : list Z * list Z) : Prop :=
  rec_ok r ∧ Z.of_nat (length r.1) <= ls_max_key_bytes ls ∧ Z.of_nat (length r.2) <= ls_max_value_bytes ls.

(** What a crash may leave behind the last whole record. *)
Definition torn {M} (ls : po_logstore M) (tail : list Z) : Prop :=
  tail = [] ∨ ∃ k v m, rec_fits ls (k, v) ∧ tail = take m (encode_record k v) ∧
    (m < length (encode_record k v))%nat.

(** ** Lemmas *)

Lemma pread_at pre post n : pread (pre ++ post) n (Z.of_nat (length pre)) = Some (take (Z.to_nat n) post).
Proof. unfold pread. rewrite (proj2 (Z.ltb_ge _ _)) by lia. by rewrite Nat2Z.id, drop_app_length. Qed.

Lemma pread_past pre post n d :
  0 <= d → pread (pre ++ post) n (Z.of_nat (length pre) + d) = Some (take (Z.to_nat n) (drop (Z.to_nat d) post)).
Proof.
  intros Hd. unfold pread. rewrite (proj2 (Z.ltb_ge _ _)) by lia. do 2 f_equal.
  rewrite Z2Nat.inj_add, Nat2Z.id by lia. by rewrite <- drop_drop, drop_app_length.
Qed.

Section rebuild_lemmas.
Context {M : Type} (api : mdb_api M) `{!BucketLaws api}.
Implicit Types (ls : po_logstore M) (k v : list Z).

Lemma validate_fits ls k v :
  rec_fits ls (k, v) →
  _ls_validate_lengths (Z.of_nat (length k)) (Z.of_nat (length v)) (ls_max_key_bytes ls) (ls_max_value_bytes ls) = true.
Proof.
  unfold rec_fits, rec_ok, _ls_validate_lengths. cbn [fst snd]. intros (([? ?] & ?) & ? & ?).
  rewrite (proj2 (Z.eqb_neq _ _)) by lia. rewrite !(proj2 (Z.ltb_ge _ _)) by lia. done.
Qed.

(** The first eight bytes of a record of which at least those are there. *)
Lemma header_reads post k v m :
  rec_ok (k, v) → (8 <= m)%nat →
  let rest := take m (encode_record k v) ++ post in
  take 4 rest = le_bytes 4 (Z.of_nat (length k)) ∧ take 4 (drop 4 rest) = le_bytes 4 (Z.of_nat (length v)) ∧
  drop 8 rest = take (m - 8) (k ++ v) ++ post.
Proof.
  intros Hok Hm rest. destruct (rec_ok_u32 _ Hok) as [Ek Ev]. cbn [fst snd] in *.
  assert (take m (encode_record k v) =
    le_bytes 4 (Z.of_nat (length k)) ++ le_bytes 4 (Z.of_nat (length v)) ++ take (m - 8) (k ++ v)) as E.
  { unfold encode_record. rewrite Ek, Ev.
    rewrite take_app_ge by (rewrite length_le_bytes; lia). f_equal.
    rewrite take_app_ge by (rewrite !length_le_bytes; lia). f_equal.
    f_equal. rewrite !length_le_bytes. lia. }
  unfold rest. rewrite E, <- !app_assoc.
  split_and!.
  - by rewrite take_app_length' by (by rewrite length_le_bytes).
  - rewrite drop_app_length' by (by rewrite length_le_bytes).
    by rewrite take_app_length' by (by rewrite length_le_bytes).
  - rewrite (app_assoc (le_bytes 4 _) (le_bytes 4 _)).
    by rewrite drop_app_length' by (by rewrite length_app, !length_le_bytes).
Qed.

Lemma scan_whole ls pre k v post :
  ls_file ls = pre ++ encode_record k v ++ post → rec_fits ls (k, v) →
  succeeds (scan_record ls (Z.of_nat (length pre))) (λ r, r = Some (k, Z.of_nat (length v))).
Proof.
  intros Hf Hfit. pose proof Hfit as (Hok & _). unfold scan_record. rewrite Hf.
  destruct (header_reads post k v (length (encode_record k v)) Hok) as (E1 & E2 & E3).
  { rewrite length_encode. lia. }
  rewrite (take_ge (encode_record k v)) in E1, E2, E3 by lia. pose proof Hok as [Hk1 Hv1].
  unfold LS_HARD_KEY_MAX, LS_HARD_VALUE_MAX in *. cbn [fst snd] in *.
  rewrite pread_at. change (Z.to_nat 4) with 4%nat. rewrite E1, length_le_bytes. cbn [Nat.eqb negb].
  rewrite pread_past by lia. change (Z.to_nat 4) with 4%nat. rewrite E2, length_le_bytes. cbn [Nat.eqb negb].
  rewrite !of_le_bytes by (simpl; lia). rewrite validate_fits by done. cbn [negb].
  apply succeeds_bind, succeeds_malloc_bytes; [unfold PTRDIFF_MAX; lia|]. cbn [negb].
  rewrite pread_past by lia. change (Z.to_nat 8) with 8%nat. rewrite E3, length_encode.
  replace (8 + length k + length v - 8)%nat with (length k + length v)%nat by lia.
  rewrite (take_ge (k ++ v)) by (rewrite length_app; lia).
  rewrite <- (app_assoc k v post), Nat2Z.id, take_app_length, Z.eqb_refl. cbn [negb].
  destruct (Z.ltb_spec 0 (Z.of_nat (length v))) as [Hv|Hv]; [|by apply succeeds_ret].
  rewrite <- (Z.add_assoc _ 8), <- (Z.add_assoc _ _ (Z.of_nat (length v))), <- (Z.add_sub_assoc _ _ 1).
  rewrite pread_past by lia. apply succeeds_ret.
  assert (length (take (Z.to_nat 1) (drop (Z.to_nat (8 + Z.of_nat (length k) + Z.of_nat (length v) - 1))
    (encode_record k v ++ post))) = 1%nat) as ->; [|done].
  rewrite length_take, length_drop, length_app, length_encode. lia.
Qed.

Lemma scan_torn ls pre k v m :
  ls_file ls = pre ++ take m (encode_record k v) → rec_fits ls (k, v) → (m < length (encode_record k v))%nat →
  always (scan_record ls (Z.of_nat (length pre))) (λ r, r = None).
Proof.
  intros Hf Hfit Hm. pose proof Hfit as (Hok & _). unfold scan_record. rewrite Hf, length_encode in *.
  assert (∀ n d, length (take n (drop d (take m (encode_record k v)))) = Nat.min n (m - d)) as Hlen.
  { intros n d. rewrite length_take, length_drop, length_take, length_encode. lia. }
  rewrite pread_at. change (Z.to_nat 4) with 4%nat. specialize (Hlen 4%nat 0%nat) as Hl0. rewrite drop_0 in Hl0.
  destruct (Nat.eqb_spec (length (take 4 (take m (encode_record k v)))) 4) as [H4|_]; [|by apply always_ret].
  rewrite pread_past by lia. change (Z.to_nat 4) with 4%nat. cbn [negb].
  destruct (Nat.eqb_spec (length (take 4 (drop 4 (take m (encode_record k v))))) 4) as [H8|_]; [|by apply always_ret].
  rewrite Hlen in H8. cbn [negb].
  destruct (header_reads [] k v m Hok) as (E1 & E2 & E3); [lia|]. rewrite !app_nil_r in *.
  rewrite E1, E2. pose proof Hok as [Hk1 Hv1].
  unfold LS_HARD_KEY_MAX, LS_HARD_VALUE_MAX in *. cbn [fst snd] in *.
  rewrite !of_le_bytes by (simpl; lia). rewrite validate_fits by done. cbn [negb].
  apply always_bind, always_malloc_bytes; [by apply always_ret|]. intros _. cbn [negb].
  rewrite pread_past by lia. change (Z.to_nat 8) with 8%nat.
  rewrite (Hlen _ 8%nat), Nat2Z.id.
  destruct (Z.eqb_spec (Z.of_nat (Nat.min (length k) (m - 8))) (Z.of_nat (length k))) as [Hk|_]; [|by apply always_ret].
  cbn [negb]. rewrite (proj2 (Z.ltb_lt 0 _)) by lia.
  rewrite <- (Z.add_assoc _ 8), <- (Z.add_assoc _ _ (Z.of_nat (length v))), <- (Z.add_sub_assoc _ _ 1).
  rewrite pread_past by lia. apply always_ret. rewrite Hlen.
  replace (Nat.min (Z.to_nat 1) (m - Z.to_nat (8 + Z.of_nat (length k) + Z.of_nat (length v) - 1))) with 0%nat by lia.
  done.
Qed.

Lemma layout_cons pre k v recs :
  rec_ok (k, v) → Z.of_nat (length (pre ++ encode_record k v)) < 2 ^ 62 →
  layout (Z.of_nat (length pre)) ((k, v) :: recs) =
  (k, Z.of_nat (length pre), Z.of_nat (length v)) :: layout (Z.of_nat (length (pre ++ encode_record k v))) recs.
Proof.
  intros Hok Hl. destruct (rec_ok_u32 _ Hok) as [_ Ev]. cbn [layout fst snd] in *. rewrite Ev. do 2 f_equal.
  rewrite length_app, length_encode in *. rewrite !u64_add_l, !(u64_small (_ + 4 + 4)) by lia. rewrite u64_small; lia.
Qed.

Lemma fits_same ls ls' : same_rest ls ls' → (∀ r, rec_fits ls r → rec_fits ls' r) ∧ (∀ t, torn ls t → torn ls' t).
Proof.
  intros Hs. assert (∀ r, rec_fits ls r → rec_fits ls' r) as Hr.
  { intros r. unfold rec_fits. destruct Hs as (_ & _ & _ & _ & _ & _ & _ & -> & -> & _). done. }
  split; [done|]. intros t [?|(k & v & m & Hf & ?)]; [by left|right]. exists k, v, m. auto.
Qed.

Lemma scan_no_fail ls cursor : succeeds (scan_record ls cursor) (λ _, True).
Proof.
  unfold scan_record. destruct (pread _ _ _) as [klb|]; [|by apply succeeds_ret].
  destruct (negb _); [by apply succeeds_ret|]. destruct (pread _ _ _) as [vlb|]; [|by apply succeeds_ret].
  destruct (negb _); [by apply succeeds_ret|]. destruct (negb _); [by apply succeeds_ret|].
  apply succeeds_bind, succeeds_malloc_bytes_any. intros []; [|by apply succeeds_ret]. cbn [negb].
  destruct (pread _ _ _) as [kbuf|]; [|by apply succeeds_ret]. destruct (negb _); [by apply succeeds_ret|].
  destruct (0 <? _); [|by apply succeeds_ret]. destruct (pread _ 1 _); by apply succeeds_ret.
Qed.

Lemma loop_stops fuel ls pre tail :
  ls_file ls = pre ++ tail → torn ls tail →
  succeeds (rebuild_loop api (S fuel) ls (Z.of_nat (length pre)) (Z.of_nat (length pre)))
    (λ r, r = Some (ls, Z.of_nat (length pre))).
Proof.
  intros Hf Ht. cbn [rebuild_loop]. case_bool_decide as E; [by apply succeeds_ret|].
  destruct Ht as [->|(k & v & m & Hfit & -> & Hm)].
  { destruct E. rewrite Hf. by rewrite pread_at. }
  apply succeeds_bind. eapply succeeds_mono; [apply always_succeeds; [by eapply scan_torn|apply scan_no_fail]|].
  intros r [-> _]. by apply succeeds_ret.
Qed.

Lemma rebuild_loop_succeeds recs ls pre tail fuel n :
  ls_file ls = pre ++ log_bytes recs ++ tail → idx_wf (ls_mem ls) → idx_room (ls_mem ls) (length recs + n) →
  Z.of_nat (length (ls_file ls)) < 2 ^ 62 → Forall (rec_fits ls) recs → torn ls tail → (length recs < fuel)%nat →
  succeeds (rebuild_loop api fuel ls (Z.of_nat (length pre)) (Z.of_nat (length pre))) (λ r, ∃ ls',
    r = Some (ls', Z.of_nat (length (pre ++ log_bytes recs))) ∧ idx_wf (ls_mem ls') ∧
    idx_room (ls_mem ls') n ∧ same_rest ls ls' ∧
    (∀ k, store_entry api ls' k = after_entries (layout (Z.of_nat (length pre)) recs) k (store_entry api ls k)) ∧
    (∀ k, is_Some (idx_find (ls_mem ls) k) ∨ k ∈ recs.*1 → is_Some (idx_find (ls_mem ls') k))).
Proof using Type*.
  revert ls pre fuel. induction recs as [|[k v] recs IH]; intros ls pre [|fuel] Hf Hwf Hr Hl Hfit Ht Hfuel;
    try (simpl in Hfuel; lia).
  { eapply succeeds_mono; [by apply (loop_stops fuel ls pre tail)|]. intros r ->. exists ls.
    unfold log_bytes. rewrite app_nil_r. split_and!; try done.
    intros k [?|Hk]; [done|]. by apply not_elem_of_nil in Hk. }
  apply Forall_cons in Hfit as [Hkv Hfit]. pose proof Hkv as (Hok & _).
  rewrite log_bytes_cons in Hf. cbn [fst snd] in Hf. rewrite <- app_assoc in Hf. cbn [rebuild_loop].
  assert (Z.of_nat (length (pre ++ encode_record k v)) < 2 ^ 62) as Hpl.
  { rewrite Hf, !length_app in Hl. rewrite length_app. lia. }
  rewrite bool_decide_false.
  2: { rewrite Hf, pread_at. by intros [= E]. }
  apply succeeds_bind. eapply succeeds_mono; [by eapply scan_whole|]. intros r ->.
  pose proof Hok as [Hk1 Hv1]. unfold LS_HARD_KEY_MAX, LS_HARD_VALUE_MAX in *. cbn [fst snd length] in *.
  rewrite length_app, length_encode in Hpl.
  apply succeeds_bind. eapply succeeds_mono.
  { apply (put_index_succeeds api ls k _ _ (length recs + n)); try done; try lia.
    - destruct k; [simpl in Hk1; lia|done].
    - unfold PTRDIFF_MAX. lia. }
  intros r (ls1 & -> & Hwf1 & Hr1 & Hs1 & Hk & Hm1 & He1). destruct (fits_same _ _ Hs1) as [Hfs Hts].
  assert (ls_file ls1 = ls_file ls) as Hf1 by apply Hs1.
  replace (Z.of_nat (length pre) + 8 + Z.of_nat (length k) + Z.of_nat (length v))
    with (Z.of_nat (length (pre ++ encode_record k v))) by (rewrite length_app, length_encode; lia).
  eapply succeeds_mono; [apply (IH ls1 (pre ++ encode_record k v) fuel)|]; rewrite ?Hf1; try done.
  { rewrite Hf. by list_norm. } { eapply list.Forall_impl; [exact Hfit|done]. } { by apply Hts. } { lia. }
  intros r (ls' & -> & ? & ? & Hs2 & He2 & Hm2). exists ls'. split_and!; try done.
  - rewrite log_bytes_cons. by list_norm.
  - by eapply same_rest_trans.
  - intros k'. rewrite layout_cons; [|done|rewrite length_app, length_encode; lia].
    rewrite He2, He1. done.
  - intros k' [Hk'|Hk']; apply Hm2; [left; rewrite Hm1; by case_bool_decide; [eexists|]|].
    apply elem_of_cons in Hk' as [-> |]; [left; rewrite Hm1, bool_decide_true by done; by eexists|by right].
Qed.
End rebuild_lemmas.

(** A prefix of a log: whole records and a torn one. *)
Lemma log_prefix {M} (ls : po_logstore M) recs n :
  Forall (rec_fits ls) recs → ∃ i tail, (i <= length recs)%nat ∧
    take n (log_bytes recs) = log_bytes (take i recs) ++ tail ∧ torn ls tail ∧
    (length (log_bytes (take i recs)) <= n)%nat ∧
    ((i < length recs)%nat → (n < length (log_bytes (take (S i) recs)))%nat).
Proof.
  intros H. revert n. induction H as [|[k v] recs Hkv Hf IH]; intros n.
  { exists 0%nat, []. split_and!; [done| |by left|simpl; lia|simpl; lia]. by destruct n. }
  rewrite log_bytes_cons. cbn [fst snd]. destruct (Nat.lt_ge_cases n (length (encode_record k v))) as [Hn|Hn].
  - exists 0%nat, (take n (encode_record k v)). rewrite take_app_le by lia. split_and!; [lia|done| |simpl; lia|].
    + right. by exists k, v, n.
    + intros _. cbn [take]. by rewrite log_bytes_one.
  - destruct (IH (n - length (encode_record k v))%nat) as (i & tail & Hi & E & Ht & Hl & Hs).
    exists (S i), tail. rewrite take_app_ge, E by lia. cbn [take length]. rewrite !log_bytes_cons. cbn [fst snd].
    rewrite !length_app. split_and!; [lia|by list_norm|done|lia|]. intros Hi'. specialize (Hs ltac:(lia)). cbn [take] in Hs. lia.
Qed.

Lemma after_records_in recs k o1 o2 :
  k ∈ recs.*1 → after_records recs k o1 = after_records recs k o2.
Proof.
  revert o1 o2. induction recs as [|[k1 v] recs IH]; intros o1 o2 Hk; [by apply not_elem_of_nil in Hk|].
  unfold after_records in *. cbn [foldl fst snd]. cbn in Hk. case_bool_decide as E; [done|].
  apply elem_of_cons in Hk as [-> |Hk]; [done|]. by apply IH.
Qed.

Lemma after_entries_notin es k o : k ∉ (λ e : list Z * Z * Z, e.1.1) <$> es → after_entries es k o = o.
Proof.
  revert o. induction es as [|[[k1 off] len] es IH]; intros o Hk; [done|].
  unfold after_entries in *. cbn [foldl fst snd]. cbn in Hk. apply not_elem_of_cons in Hk as [Hne Hk].
  rewrite bool_decide_false by done. by apply IH.
Qed.

(** *** Preloading *)

Section preload_lemmas.
Context {M : Type} (api : mdb_api M) `{!BucketLaws api}.

(** What the memory index may hold while it is filled from a bucket. *)
Definition partial_copy (mp : gmap (list Z) (list Z)) (idx : po_index) : Prop :=
  idx_wf idx ∧ ∀ k, idx_find idx k = None ∨ idx_find idx k = mp !! k ≫= parse_index_value.

Lemma preload_walk mp ps idx m :
  partial_copy mp idx → idx_size idx + Z.of_nat (length ps) < 2 ^ 64 - 1 →
  (∀ kv, kv ∈ ps → mp !! kv.1 = Some kv.2) →
  ∃ idx' m', (walk preload_cb (Some idx, m) ps).2 = (Some idx', m') ∧ partial_copy mp idx' ∧
    idx_size idx <= idx_size idx' <= idx_size idx + Z.of_nat (length ps) ∧
    (no_fail m → (∀ kv, kv ∈ ps → kv.1 ≠ [] ∧ Z.of_nat (length kv.1) <= PTRDIFF_MAX) →
       idx_room idx (length ps) → no_fail m').
Proof.
  revert idx m. induction ps as [|[k v] ps IH]; intros idx m [Hwf Hp] Hsz Hps; cbn [walk fst snd].
  { exists idx, m. split_and!; try done; simpl; lia. }
  assert (∀ kv, kv ∈ ps → mp !! kv.1 = Some kv.2) as Hps' by (intros; apply Hps; by right).
  cbn [length] in Hsz. unfold preload_cb at 1. destruct (parse_index_value v) as [[off len]|] eqn:Ev.
  - destruct (index_put_always idx k off len Hwf ltac:(lia) m) as (rc & idx1 & E & Hwf1 & Hs1 & Hc).
    pose proof (λ H1 H2 H3, index_put_succeeds idx k off len (length ps) Hwf H1 H2 H3 m) as Hsucc.
    destruct (po_index_put idx k off len m) as [r m1]. cbn [fst snd] in *. subst r. cbn.
    destruct (IH idx1 m1) as (idx' & m' & E' & Hp' & Hs' & Hnf); [split; [done|]|lia|done|].
    { intros k'. destruct Hc as [(_ & _ & Hf)|(_ & _ & Hf)]; rewrite Hf; [|done].
      case_bool_decide; [subst k'; right|done]. pose proof (Hps (k, v) ltac:(left)) as Hk. cbn [fst snd] in Hk.
      by rewrite Hk. }
    exists idx', m'. split_and!; [done|done|lia|cbn [length]; lia|]. intros Hm Hkeys Hr.
    destruct (Hkeys (k, v)) as [Hk1 Hk2]; [left|].
    destruct (Hsucc Hr Hk1 Hk2 Hm) as [(idx2 & E2 & _ & Hr2 & _) Hm1]. simplify_eq.
    apply Hnf; try done. intros; apply Hkeys; by right.
  - destruct (IH idx m) as (idx' & m' & E' & Hp' & Hs' & Hnf); [done|lia|done|].
    exists idx', m'. split_and!; [done|done|lia|cbn [length]; lia|]. intros Hm Hkeys [Hr1 Hr2].
    apply Hnf; [done|intros; apply Hkeys; by right|]. split; [done|]. simpl in Hr2. lia.
Qed.

Lemma preload_lemma db idx m :
  partial_copy (mdb_view api db) idx → idx_size idx + Z.of_nat (size (mdb_view api db)) < 2 ^ 64 - 1 →
  ∃ idx' m', preload api db idx m = (Some idx', m') ∧ partial_copy (mdb_view api db) idx' ∧
    idx_size idx <= idx_size idx' <= idx_size idx + Z.of_nat (size (mdb_view api db)) ∧
    (no_fail m → (∀ k, is_Some (mdb_view api db !! k) → k ≠ [] ∧ Z.of_nat (length k) <= PTRDIFF_MAX) →
       idx_room idx (size (mdb_view api db)) → no_fail m').
Proof using Type*.
  intros Hp Hsz. destruct (law_db_iterate db preload_cb (Some idx, m)) as (ps & E & Hps & Hnd & _).
  assert (length ps <= size (mdb_view api db))%nat as Hl.
  { rewrite <- length_map_to_list. apply submseteq_length, NoDup_submseteq; [by eapply NoDup_fmap_1|].
    intros [k v] Hkv. apply elem_of_map_to_list. by apply (Hps (k, v)). }
  destruct (preload_walk (mdb_view api db) ps idx m) as (idx' & m' & E' & Hp' & Hs' & Hnf); [done|lia|done|].
  exists idx', m'. unfold preload. rewrite E, E'. split_and!; [done|done|lia|lia|].
  intros Hm Hk [Hr1 Hr2]. apply Hnf; [done| |split; [done|lia]].
  intros kv Hkv. apply Hk. eexists. by apply Hps.
Qed.

(** The index before it is filled. *)
Lemma new_index_lemma m :
  match po_index_create 1024 m with
  | (Some idx, m') => idx_size idx = 0 ∧ ht_capacity (idx_ht idx) = 1024 ∧
      (∀ mp, partial_copy mp idx) ∧ (no_fail m → no_fail m')
  | (None, _) => ¬ no_fail m
  end.
Proof.
  unfold po_index_create, mbind, alloc_bind, mret, alloc_ret.
  destruct (malloc m) as [ok m1] eqn:E1.
  assert (no_fail m → ok = true ∧ no_fail m1) as H1.
  { intros Hm. pose proof (succeeds_malloc (λ b, b = true) eq_refl m Hm) as H. by rewrite E1 in H. }
  destruct ok; simpl; [|intros Hm; by destruct (H1 Hm)].
  pose proof (create_sized_always (V := option loc) is_key cmp_bin hash_bin 1024 ltac:(lia) m1) as Hc.
  assert (no_fail m1 → is_Some (po_hashtable_create_sized (K := list Z) (V := option loc) 1024 m1).1 ∧
    no_fail (po_hashtable_create_sized (K := list Z) (V := option loc) 1024 m1).2) as H2.
  { intros Hm. apply (λ H, H m1 Hm : _ ∧ _). clear. unfold po_hashtable_create_sized.
    apply succeeds_bind, succeeds_malloc. simpl. apply succeeds_bind, succeeds_malloc_bytes; [done|].
    apply succeeds_ret. by eexists. }
  destruct (po_hashtable_create_sized 1024 m1) as [[t|] m2]; simpl in *.
  - destruct Hc as (Hwf & Hs & Hcap & Hf). destruct (empty_index_wf t Hwf Hf) as [Hw Hn].
    split_and!; [done|done|intros mp; split; [done|by left]|]. intros Hm. by apply H2, H1.
  - intros Hm. destruct (H1 Hm) as [_ Hm1]. by destruct (H2 Hm1) as [[]].
Qed.

(** Opening without a rebuild: the memory index is a partial copy of the bucket. *)
Lemma open_always cfg env file db :
  oe_file env = Some file → oe_db env = Some db → cfg_rebuild_on_open cfg = false →
  Z.of_nat (size (mdb_view api db)) < 2 ^ 32 →
  always (po_logstore_open_cfg api cfg env) (λ r, ∀ ls, r = Opened ls →
    ls_file ls = file ∧ ls_idx ls = db ∧ partial_copy (mdb_view api db) (ls_mem ls) ∧
    idx_size (ls_mem ls) < 2 ^ 32).
Proof using Type*.
  intros Hf Hdb Hr Hsz. unfold po_logstore_open_cfg. rewrite Hf, Hdb.
  apply always_bind, always_malloc. intros []; simpl; [|by apply always_ret].
  apply always_bind. intros m. destruct (perf_ringbuf_create _ _ m) as [[e [rb|]] m1]; simpl; [|by apply always_ret].
  apply always_bind, always_malloc. intros b. destruct (negb _).
  { apply always_bind, always_malloc. intros []; by apply always_ret. }
  apply always_bind. intros m2. pose proof (new_index_lemma m2) as Hi.
  destruct (po_index_create 1024 m2) as [[idx|] m3]; simpl; [|by apply always_ret].
  destruct Hi as (Hs0 & _ & Hp & _). apply always_bind. intros m4.
  destruct (preload_lemma db idx m4 (Hp _) ltac:(lia)) as (idx' & m5 & -> & Hp' & Hs' & _). simpl.
  unfold _ls_rebuild_on_open. rewrite Hr. simpl. apply always_bind, always_ret.
  apply always_bind, always_malloc_bytes; [by apply always_ret|]. intros _. apply always_ret.
  simpl. destruct (oe_threads env); [|done]. intros ls [= <-]. simpl. split_and!; [done|done|done|lia].
Qed.

Lemma open_succeeds cfg env file db k :
  oe_file env = Some file → oe_db env = Some db → cfg_rebuild_on_open cfg = false →
  Z.of_nat (size (mdb_view api db)) <= MAX_ENTRIES →
  (∀ k, is_Some (mdb_view api db !! k) → k ≠ [] ∧ Z.of_nat (length k) <= PTRDIFF_MAX) →
  0 <= k <= 50 → cfg_ring_capacity cfg = 2 ^ k → 0 <= cfg_workers cfg < 2 ^ 32 → oe_eventfd env = true →
  oe_threads env = true →
  succeeds (po_logstore_open_cfg api cfg env) (λ r, ∃ ls, r = Opened ls).
Proof using Type*.
  intros Hf Hdb Hr Hsz Hkeys Hk Hcap Hw He Ht. unfold po_logstore_open_cfg. rewrite Hf, Hdb.
  apply succeeds_bind, succeeds_malloc. simpl. apply succeeds_bind.
  assert (1 <= 2 ^ k <= 2 ^ 50).
  { split; [pose proof (Z.pow_pos_nonneg 2 k); lia|apply Z.pow_le_mono_r; lia]. }
  rewrite Hcap, (proj2 (Z.eqb_neq (2 ^ k) 0)) by lia. unfold perf_ringbuf_create.
  rewrite (proj2 (Z.eqb_neq (2 ^ k) 0)), land_power_of_two by lia. simpl.
  apply succeeds_bind, succeeds_malloc. simpl. apply succeeds_bind, succeeds_malloc_bytes.
  { unfold PTRDIFF_MAX, SIZEOF_SLOT. lia. }
  simpl. apply succeeds_ret. simpl. apply succeeds_bind, succeeds_malloc. rewrite He. simpl.
  apply succeeds_bind. intros m Hm. pose proof (new_index_lemma m) as Hi.
  destruct (po_index_create 1024 m) as [[idx|] m1]; [|by destruct Hi]. destruct Hi as (Hs0 & Hc0 & Hp & Hm1).
  split; [|by apply Hm1]. simpl. apply succeeds_bind. clear m m1 Hm Hm1. intros m Hm. unfold MAX_ENTRIES in *.
  destruct (preload_lemma db idx m (Hp _) ltac:(lia)) as (idx' & m5 & -> & Hp' & Hs' & Hnf). simpl.
  split; [|apply Hnf; [done|done|]; split; [unfold MAX_CAPACITY; lia|unfold MAX_ENTRIES; lia]].
  unfold _ls_rebuild_on_open. rewrite Hr. simpl. apply succeeds_bind, succeeds_ret.
  apply succeeds_bind, succeeds_malloc_bytes.
  { unfold PTRDIFF_MAX. destruct (cfg_workers cfg =? 0); lia. }
  simpl. apply succeeds_ret. rewrite Ht. by eexists.
Qed.
End preload_lemmas.

(** ** Properties *)

(** C8. Crash recovery: however many bytes of a log of valid records survive,
    and whatever the indexes held, rebuilding with truncation ends, keeps
    exactly the whole records, cuts the torn one off, and maps every key with a
    surviving record to its last surviving value; other keys keep the entry the
    index had.  Starting from an empty index the result is a sound store. *)
Theorem logstore_crash_recovery {M} (api : mdb_api M) (ls : po_logstore M)
    (recs : list (list Z * list Z)) (n : nat) :
  MdbLaws api → ls_file ls = take n (log_bytes recs) → Z.of_nat (length (log_bytes recs)) < 2 ^ 62 →
  Forall (rec_fits ls) recs → idx_wf (ls_mem ls) → idx_room (ls_mem ls) (length recs) →
  succeeds (_ls_rebuild_on_open api ls true true true) (λ r, ∃ i ls', r = Some ls' ∧
    (length (log_bytes (take i recs)) <= n)%nat ∧
    ((i < length recs)%nat → (n < length (log_bytes (take (S i) recs)))%nat) ∧
    ls_file ls' = log_bytes (take i recs) ∧
    (∀ k, k ∈ (take i recs).*1 → contents api ls' k = after_records (take i recs) k None) ∧
    (∀ k, k ∉ (take i recs).*1 → store_entry api ls' k = store_entry api ls k) ∧
    ((∀ k, store_entry api ls k = None) → ls_wf api ls')).
Proof.
  intros Hlaws Hf Hl Hfit Hwf Hr. destruct (log_prefix ls recs n Hfit) as (i & tail & Hi & E & Ht & Hn & Hs).
  set (rs := take i recs) in *. rewrite E in Hf.
  assert (Forall (rec_fits ls) rs) as Hfit' by (by apply Forall_take).
  assert (Forall rec_ok rs) as Hok by (eapply list.Forall_impl; [exact Hfit'|by intros r []]).
  assert (length rs <= length (log_bytes rs))%nat as Hlen.
  { clear. induction rs as [|r rs IH]; [done|]. rewrite log_bytes_cons, length_app, length_encode. simpl. lia. }
  assert (length (ls_file ls) <= length (log_bytes recs))%nat as Hfl.
  { rewrite Hf, <- E, length_take. lia. }
  unfold _ls_rebuild_on_open. cbn [negb andb]. apply succeeds_bind. eapply succeeds_mono.
  { apply (rebuild_loop_succeeds api rs ls [] tail _ 0 Hf Hwf); try done; [|lia|].
    - destruct Hr as [Hr1 Hr2]. split; [done|]. unfold rs. rewrite length_take. lia.
    - rewrite Hf, length_app. lia. }
  intros r (ls' & -> & Hwf' & Hr' & Hrest & He & _). apply succeeds_ret. cbn [mbind option_bind fst snd].
  assert (ls_file ls' = log_bytes rs ++ tail) as Hf' by (rewrite <- Hf; apply Hrest).
  pose proof (layout_describes rs [] [] Hok ltac:(simpl; rewrite Hf, length_app in Hfl; lia)) as Hlay.
  cbn [length] in *. rewrite app_nil_r in Hlay. cbn [app] in *. change (Z.of_nat 0) with 0 in *.
  exists i. eexists. split; [done|]. cbn [truncate with_file ls_file ls_mem].
  rewrite Nat2Z.id, Hf', take_app_length. split_and!; try done.
  - intros k Hk. unfold contents. cbn. rewrite Hf', Nat2Z.id, take_app_length.
    change (store_entry api (truncate ls' (Z.of_nat (length (log_bytes rs)))) k) with (store_entry api ls' k).
    rewrite He, (after_entries_values _ _ _ _ _ Hlay). by apply after_records_in.
  - intros k Hk. change (store_entry api (truncate ls' (Z.of_nat (length (log_bytes rs)))) k) with (store_entry api ls' k).
    rewrite He. apply after_entries_notin. by rewrite layout_keys.
  - intros Hempty. split; cbn.
    + done.
    + by eapply room_size.
    + rewrite Nat2Z.id, Hf', take_app_length. rewrite Hf, length_app in Hfl. lia.
    + intros k e Hk. cbn. change (store_entry api ls' k = Some e) in Hk. rewrite Nat2Z.id, Hf', take_app_length.
      rewrite He, Hempty in Hk. eapply (after_entries_sound _ rs _ _ None); [exact Hok|exact Hlay|intros ? [=]|exact Hk].
Qed.

Lemma logstore_crash_recovery_witness :
  let recs := [([1], [10; 11]); ([2], [20]); ([1], [12])] in
  let ls := with_file (new_store PO_LS_FSYNC_NONE) (take 24 (log_bytes recs)) 0 in
  ∃ ls', (_ls_rebuild_on_open map_mdb ls true true true []).1 = Some ls' ∧
    ls_file ls' = log_bytes (take 2 recs) ∧ contents map_mdb ls' [1] = Some [10; 11].
Proof.
  destruct (new_store_wf PO_LS_FSYNC_NONE) as [Hwf [Hcap Hs]].
  pose (recs := [([1], [10; 11]); ([2], [20]); ([1], [12])] : list (list Z * list Z)).
  destruct (logstore_crash_recovery map_mdb (with_file (new_store PO_LS_FSYNC_NONE) (take 24 (log_bytes recs)) 0)
    recs 24 _ eq_refl) with (m := @nil bool) as [(i & ls' & E & Hi & Hi' & Hf & Hc & _) _].
  - vm_compute. reflexivity.
  - unfold recs. repeat constructor; vm_compute; congruence.
  - apply Hwf.
  - split; [exact Hcap|]. simpl in *. lia.
  - apply no_fail_nil.
  - assert (i = 2%nat) as ->.
    { destruct (decide (3 <= i)%nat) as [H3|H3].
      - rewrite take_ge in Hi by (simpl; lia). vm_compute in Hi. lia.
      - destruct i as [|[|[|i]]]; [| |done|lia]; specialize (Hi' ltac:(simpl; lia)); vm_compute in Hi'; lia. }
    exists ls'. split_and!; [exact E|exact Hf|]. rewrite Hc; [reflexivity|]. simpl. left.
Defined.

(** Reopening is the round trip of the store: when every entry of the memory
    index reached the bucket, a store opened without rebuilding on the same file
    and bucket has the same contents, whatever the allocator does and however
    far the preload came; with a power-of-two ring and no failure, opening
    succeeds. *)
Theorem logstore_reopen_roundtrip {M} (api : mdb_api M) (ls : po_logstore M) (cfg : po_logstore_cfg)
    (env : open_env M) (k : Z) :
  MdbLaws api → ls_wf api ls →
  (∀ key e, idx_find (ls_mem ls) key = Some e → mdb_view api (ls_idx ls) !! key ≫= parse_index_value = Some e) →
  Z.of_nat (size (mdb_view api (ls_idx ls))) <= MAX_ENTRIES →
  (∀ key, is_Some (mdb_view api (ls_idx ls) !! key) → key ≠ [] ∧ (length key <= MDB_MAXKEYSIZE)%nat) →
  oe_file env = Some (ls_file ls) → oe_db env = Some (ls_idx ls) → cfg_rebuild_on_open cfg = false →
  always (po_logstore_open_cfg api cfg env) (λ r, ∀ ls', r = Opened ls' →
    ls_wf api ls' ∧ ls_file ls' = ls_file ls ∧ ∀ key, contents api ls' key = contents api ls key) ∧
  (0 <= k <= 50 → cfg_ring_capacity cfg = 2 ^ k → 0 <= cfg_workers cfg < 2 ^ 32 → oe_eventfd env = true →
   oe_threads env = true → succeeds (po_logstore_open_cfg api cfg env) (λ r, ∃ ls', r = Opened ls')).
Proof.
  intros Hlaws Hwf Hsync Hsz Hkeys Hf Hdb Hr. split.
  - eapply always_mono; [apply (open_always api cfg env _ _ Hf Hdb Hr); unfold MAX_ENTRIES in Hsz; lia|].
    intros r H ls' E. destruct (H ls' E) as (Hf' & Hd' & [Hw' Hp'] & Hs').
    assert (∀ key, store_entry api ls' key = store_entry api ls key) as He.
    { intros key. unfold store_entry. rewrite Hd'. destruct (idx_find (ls_mem ls) key) as [e|] eqn:Ek.
      - rewrite <- (Hsync _ _ Ek). destruct (Hp' key) as [-> | ->]; [done|]. by destruct (_ ≫= _).
      - destruct (Hp' key) as [-> | ->]; [done|]. by destruct (_ ≫= _). }
    split_and!; [split; [done|done| |]|done|].
    + rewrite Hf'. apply Hwf.
    + intros key e Hk. rewrite Hf'. rewrite He in Hk. by apply (lw_sound _ _ Hwf).
    + intros key. unfold contents. by rewrite He, Hf'.
  - intros Hk Hc Hw Hev Ht. eapply (open_succeeds api cfg env _ _ k); try done.
    intros key Hkey. destruct (Hkeys key Hkey) as [? Hl]. split; [done|]. unfold MDB_MAXKEYSIZE, PTRDIFF_MAX in *. lia.
Qed.

(** The configuration [po_logstore_open] builds. *)
Definition default_cfg : po_logstore_cfg :=
  mk_cfg 64 32 PO_LS_FSYNC_NONE 0 0 false false 0 0 0.

Lemma logstore_reopen_roundtrip_witness :
  ∃ ls', (po_logstore_open_cfg map_mdb default_cfg
    (mk_open_env (Some []) (Some ∅) true 0 true true) []).1 = Opened ls' ∧
    contents map_mdb ls' [1] = None.
Proof.
  destruct (new_store_wf PO_LS_FSYNC_NONE) as [Hwf Hr].
  destruct (logstore_reopen_roundtrip map_mdb (new_store PO_LS_FSYNC_NONE) default_cfg
    (mk_open_env (Some []) (Some ∅) true 0 true true) 6 _ Hwf) as [H1 H2].
  - intros key e Hk. pose proof (lw_sound _ _ Hwf key e) as Hs. unfold store_entry in Hs. rewrite Hk in Hs.
    destruct (Hs eq_refl) as (v & Hok & _ & Hst). apply stored_range in Hst.
    destruct Hok as [Hl _]. simpl in *. lia.
  - vm_compute. congruence.
  - intros key [v Hk]. simpl in Hk. by rewrite lookup_empty in Hk.
  - reflexivity.
  - reflexivity.
  - reflexivity.
  - destruct (H2 ltac:(lia) eq_refl ltac:(simpl; lia) eq_refl eq_refl [] no_fail_nil) as [[ls' E] _].
    exists ls'. split; [exact E|]. destruct (H1 [] ls' E) as (_ & _ & Hc). rewrite Hc. vm_compute. reflexivity.
Defined.

(** A key of more than 511 bytes is within the store's limits but not within
    the bucket's: the record is written and found while the store is open, and
    is gone after reopening without a rebuild. *)
Theorem logstore_long_key_lost {M} (api : mdb_api M) (ls : po_logstore M) (k : list Z) (off len : Z)
    (cfg : po_logstore_cfg) :
  MdbLaws api → ls_wf api ls → store_entry api ls k = None →
  (MDB_MAXKEYSIZE < length k)%nat → Z.of_nat (length k) <= LS_HARD_KEY_MAX →
  idx_room (ls_mem ls) 1 → 0 <= off < 2 ^ 64 → 0 <= len < 2 ^ 32 →
  Z.of_nat (size (mdb_view api (ls_idx ls))) < 2 ^ 32 → cfg_rebuild_on_open cfg = false →
  succeeds (put_index api ls k off len) (λ r, ∃ ls1, r = Some ls1 ∧ store_entry api ls1 k = Some (off, len) ∧
    always (po_logstore_open_cfg api cfg (mk_open_env (Some (ls_file ls1)) (Some (ls_idx ls1)) true 0 true true))
      (λ r, ∀ ls2, r = Opened ls2 → store_entry api ls2 k = None)).
Proof.
  intros Hlaws Hwf Hn Hl Hk Hr Ho Hle Hsz Hcfg. unfold LS_HARD_KEY_MAX in Hk.
  pose proof (law_db_put_long (ls_idx ls) k (index_value off len) Hl) as Hlong.
  pose proof (law_db_put (ls_idx ls) k (index_value off len)) as Hput.
  assert (mdb_view api (db_put api (ls_idx ls) k (index_value off len)).2 = mdb_view api (ls_idx ls)) as Hv.
  { destruct (db_put _ _ _ _) as [[rc e] db]. simpl in *. destruct Hput as [(? & _)|(_ & ?)]; [lia|done]. }
  assert (mdb_view api (ls_idx ls) !! k ≫= parse_index_value = None) as Hnone.
  { unfold store_entry in Hn. by destruct (idx_find (ls_mem ls) k). }
  unfold put_index. apply succeeds_bind. eapply succeeds_mono.
  { apply (index_put_succeeds (ls_mem ls) k off len 0); [apply Hwf|done|intros ->; simpl in Hl; lia|unfold PTRDIFF_MAX; lia]. }
  intros r (mem & -> & _ & _ & Hf). apply succeeds_ret. simpl. eexists. split; [done|]. split.
  { unfold store_entry. simpl. by rewrite Hf, bool_decide_true. }
  eapply always_mono; [apply (open_always api cfg _ (ls_file ls) (db_put api (ls_idx ls) k (index_value off len)).2); try done; by rewrite Hv|].
  intros r H ls2 E. destruct (H ls2 E) as (_ & Hd & [_ Hp] & _). rewrite Hv in Hp. unfold store_entry.
  rewrite Hd, Hv. destruct (Hp k) as [-> | ->]; by rewrite Hnone.
Qed.

Lemma logstore_long_key_lost_witness :
  ∃ ls1, (put_index map_mdb (new_store PO_LS_FSYNC_NONE) (replicate 512 7) 0 1 []).1 = Some ls1 ∧
    store_entry map_mdb ls1 (replicate 512 7) = Some (0, 1).
Proof.
  destruct (new_store_wf PO_LS_FSYNC_NONE) as [Hwf [Hcap Hs]].
  destruct (logstore_long_key_lost map_mdb (new_store PO_LS_FSYNC_NONE) (replicate 512 7) 0 1 default_cfg _ Hwf)
    with (m := @nil bool) as [(ls1 & E & He & _) _].
  - vm_compute. reflexivity.
  - rewrite length_replicate. unfold MDB_MAXKEYSIZE. lia.
  - rewrite length_replicate. unfold LS_HARD_KEY_MAX. lia.
  - split; [exact Hcap|]. simpl in *. lia.
  - lia.
  - lia.
  - vm_compute. reflexivity.
  - reflexivity.
  - apply no_fail_nil.
  - exists ls1. split; [exact E|exact He].
Defined.

(** Opening a store whose ring capacity is not a power of two does not report
    the failure: the clean-up accesses the batcher that was never made. *)
Theorem logstore_open_bad_capacity_crashes {M} (api : mdb_api M) (cfg : po_logstore_cfg) (env : open_env M) :
  is_Some (oe_file env) → is_Some (oe_db env) → cfg_ring_capacity cfg ≠ 0 →
  Z.land (cfg_ring_capacity cfg) (cfg_ring_capacity cfg - 1) ≠ 0 →
  succeeds (po_logstore_open_cfg api cfg env) (λ r, r = Crashed).
Proof.
  intros [file Hf] [db Hdb] H0 Hp. unfold po_logstore_open_cfg. rewrite Hf, Hdb.
  apply succeeds_bind, succeeds_malloc. simpl. apply succeeds_bind.
  rewrite (proj2 (Z.eqb_neq _ _) H0). unfold perf_ringbuf_create.
  rewrite (proj2 (Z.eqb_neq _ _) H0), (proj2 (Z.eqb_neq _ _) Hp). simpl.
  apply succeeds_ret. simpl. by apply succeeds_ret.
Qed.

Lemma logstore_open_bad_capacity_crashes_witness :
  (po_logstore_open_cfg map_mdb (mk_cfg 100 32 PO_LS_FSYNC_NONE 0 0 false false 0 0 0)
    (mk_open_env (Some []) (Some ∅) true 0 true true) []).1 = Crashed.
Proof.
  apply (logstore_open_bad_capacity_crashes map_mdb (mk_cfg 100 32 PO_LS_FSYNC_NONE 0 0 false false 0 0 0)
    (mk_open_env (Some []) (Some ∅) true 0 true true)); try (by eexists); try (vm_compute; congruence).
  apply no_fail_nil.
Defined.

(** A failed allocation, or a limit lower than the one the records were written
    under, ends the rebuild early, and truncation then cuts valid records off. *)
Theorem logstore_rebuild_cuts_valid :
  let recs := [([1], [10; 11]); ([2], [20])] in
  let file := log_bytes recs in
  (∃ ls', (_ls_rebuild_on_open map_mdb (with_file (new_store PO_LS_FSYNC_NONE) file 0) true true true
      [false]).1 = Some ls' ∧ ls_file ls' = []) ∧
  (∃ ls', (_ls_rebuild_on_open map_mdb (mk_logstore file 0 ∅ (index_of []) PO_LS_FSYNC_NONE 0 0 0 0 1 1 0 0 0)
      true true true []).1 = Some ls' ∧ ls_file ls' = []).
Proof. split; eexists; (split; [vm_compute; reflexivity|reflexivity]). Qed.

(** An index entry whose record was cut off survives the rebuild; after the next
    append of a record of the same shape the look-up of the lost key returns the
    value of the new one, because [po_logstore_get] never compares the key. *)
Theorem logstore_stale_entry_aliases :
  ∃ ls0 ls1 ls2 ls3, (put_index map_mdb (new_store PO_LS_FSYNC_NONE) [1] 0 2 []).1 = Some ls0 ∧
    (_ls_rebuild_on_open map_mdb ls0 true true true []).1 = Some ls1 ∧
    (flush_batch map_mdb ls1 [Append [2] [9; 9]] false (full_io 64) []).1 = Some ls2 ∧
    (po_logstore_get map_mdb ls2 [1] []).1 = Some (Some [9; 9], ls3).
Proof.
  do 4 eexists. split; [vm_compute; reflexivity|]. split; [vm_compute; reflexivity|].
  split; [vm_compute; reflexivity|]. vm_compute. reflexivity.
Qed.
