(* ===== verification/LogstoreIntegrity.v ===== *)
(** * Integrity scan of the log store
    ([app/libs/ring3/postoffice/storage/logstore_integrity.c], the debug calls of
    [logstore.c], [storage.c])

    The scan walks the bucket and compares every entry with the file; with
    pruning it deletes the entries that do not point to a record of their key.
    The walk sees the bucket as it was when it began ([db_iterate] holds a
    snapshot) while the deletions go to the live one: a write transaction inside a
    read transaction of the same thread, which the manual of the library forbids;
    the scan is modelled as if the library lets it happen. *)

From Stdlib Require Import ZArith Lia.
From stdpp Require Import base list numbers gmap.
From S2P Require Import Prelude Hashtable HashtableGrowth Index Lmdb Ringbuf Protocol Logstore LogstoreRecovery.

Local Open Scope Z_scope.

Record po_logstore_integrity_stats : Type := mk_stats {
  st_scanned : Z;
  st_valid : Z;
  st_pruned : Z;
  st_errors : Z
}.

(** Which of the counters the callback bumps after [scanned]. *)
Inductive verdict : Type := VValid | VPrune | VError.
#[export] Instance verdict_eq_dec : EqDecision verdict.
Proof. solve_decision. Defined.

(** The checks of [_integrity_cb] in their order; [end_] is the file size. *)
Definition check_entry (file : list Z) (end_ : Z) (k v : list Z) : alloc verdict :=
  match parse_index_value v with
  | None => mret VError
  | Some (off, len) =>
      if end_ <? u64 (off + 8) then mret VPrune
      else
        match pread file 4 (i64 off), pread file 4 (i64 (u64 (off + 4))) with
        | Some klb, Some vlb =>
            if negb (Nat.eqb (length klb) 4) || negb (Nat.eqb (length vlb) 4) then mret VError
            else
              let kl_real := of_le klb in
              let vl_real := of_le vlb in
              if end_ <? u64 (off + 8 + kl_real + vl_real) then mret VPrune
              else if negb (kl_real =? Z.of_nat (length k)) then mret VPrune
              else
                ok ← malloc_bytes kl_real;
                if negb ok then mret VError
                else
                  match pread file kl_real (i64 (u64 (off + 8))) with
                  | Some kbuf =>
                      if negb (Z.of_nat (length kbuf) =? kl_real) then mret VError
                      else mret (if negb (memcmp kbuf k =? 0) || negb (vl_real =? len) then VPrune else VValid)
                  | None => mret VError
                  end
        | _, _ => mret VError
        end
  end.

Definition count_verdict (st : po_logstore_integrity_stats) (prune : bool) (d : verdict) : po_logstore_integrity_stats :=
  let scanned := u64 (st_scanned st + 1) in
  match d with
  | VValid => mk_stats scanned (u64 (st_valid st + 1)) (st_pruned st) (st_errors st)
  | VError => mk_stats scanned (st_valid st) (st_pruned st) (u64 (st_errors st + 1))
  | VPrune => mk_stats scanned (st_valid st) (if prune then u64 (st_pruned st + 1) else st_pruned st) (st_errors st)
  end.

Section integrity.
Context {M : Type} (api : mdb_api M).
Implicit Types (ls : po_logstore M).

(** [db_delete] then [po_index_remove], results ignored; [None] is a use of
    freed memory. *)
Definition prune_entry ls (k : list Z) : alloc (option (po_logstore M)) :=
  let db := (db_delete api (ls_idx ls) k).2 in
  r ← po_index_remove (ls_mem ls) k;
  mret (r ← r; Some (with_index ls db r.2)).

(** The callback; its state is the store, the statistics and the allocator. *)
Definition _integrity_cb (prune : bool) (end_ : Z)
    (s : option (po_logstore M * po_logstore_integrity_stats) * list bool) (k v : list Z) :
    Z * (option (po_logstore M * po_logstore_integrity_stats) * list bool) :=
  match s with
  | (None, m) => (0, (None, m))
  | (Some (ls, st), m) =>
      let '(d, m) := check_entry (ls_file ls) end_ k v m in
      if prune && bool_decide (d = VPrune) then
        let '(r, m) := prune_entry ls k m in (0, ((λ ls, (ls, count_verdict st prune d)) <$> r, m))
      else (0, (Some (ls, count_verdict st prune d), m))
  end.

(** [seek_ok]: [lseek] to the end succeeds.  [None] inside is the result -1. *)
Definition _ls_integrity_scan ls (prune seek_ok : bool) :
    alloc (option (option po_logstore_integrity_stats * po_logstore M)) :=
  λ m, if negb seek_ok then (Some (None, ls), m)
       else
         let end_ := Z.of_nat (length (ls_file ls)) in
         let ls := with_file ls (ls_file ls) end_ in
         let '(r, m) := (db_iterate api (ls_idx ls) (_integrity_cb prune end_)
                           (Some (ls, mk_stats 0 0 0 0), m)).2 in
         ((λ r, (Some r.2, r.1)) <$> r, m).

(** ** Debug calls and the process-wide store *)

(** [true] is the result 0. *)
Definition po_logstore_debug_put_index ls (key : list Z) (offset len : Z) :
    alloc (option (bool * po_logstore M)) :=
  if Nat.eqb (length key) 0 then mret (Some (false, ls))
  else
    let '(rc, _, db) := db_put api (ls_idx ls) key (index_value offset len) in
    if negb (rc =? 0) then mret (Some (false, with_index ls db (ls_mem ls)))
    else
      r ← po_index_put (ls_mem ls) key offset len;
      mret (r ← r; Some (true, with_index ls db r.2)).

(** Like [find_entry] without its back-fill. *)
Definition po_logstore_debug_lookup ls (key : list Z) : alloc (option (option (Z * Z))) :=
  let keylen := Z.of_nat (length key) in
  if (keylen =? 0) || (ls_max_key_bytes ls <? keylen) then mret (Some None)
  else
    match po_index_get (ls_mem ls) key with
    | None => mret None
    | Some (Some e) => mret (Some (Some e))
    | Some None => b ← lookup_bucket api ls key; mret (Some b)
    end.

Definition po_logstore_open (ring_capacity : Z) (env : open_env M) : alloc (open_result M) :=
  po_logstore_open_cfg api (mk_cfg ring_capacity 32 PO_LS_FSYNC_NONE 0 0 false false 0 0 0) env.

(** [g_ls] is the state; an earlier store is overwritten, not closed. *)
Definition po_storage_init (ring_capacity batch_size : Z) (policy : fsync_policy) (env : open_env M) :
    alloc (option (Z * option (po_logstore M))) :=
  r ← po_logstore_open_cfg api
        (mk_cfg (if ring_capacity =? 0 then 1024 else ring_capacity) (if batch_size =? 0 then 32 else batch_size)
           policy 0 0 false false 0 0 0) env;
  mret (match r with
        | Crashed => None
        | OpenFailed => Some (-1, None)
        | Opened ls => Some (0, Some ls)
        end).
End integrity.

(** ** Specification *)

(** The bytes of an index entry name a record of the key in the file. *)
Definition names_record (file k v : list Z) : Prop :=
  ∃ off val, parse_index_value v = Some (off, Z.of_nat (length val)) ∧
    Z.of_nat (length val) < 2 ^ 32 ∧ stored file off k val.

(** Entries the scan counts as errors: not of 12 bytes, or with an offset so
    close to 2^64 that adding the header size wraps into the file. *)
Definition unreadable (file v : list Z) : Prop :=
  match parse_index_value v with
  | Some (off, _) => 2 ^ 64 <= off + 8 <= 2 ^ 64 + Z.of_nat (length file)
  | None => True
  end.

(** ** Lemmas *)

Lemma always_ext {A} (c c' : alloc A) Q : (∀ m, c m = c' m) → always c' Q → always c Q.
Proof. intros E H m. rewrite E. apply H. Qed.

Lemma succeeds_ext {A} (c c' : alloc A) Q : (∀ m, c m = c' m) → succeeds c' Q → succeeds c Q.
Proof. intros E H m Hm. rewrite E. by apply H. Qed.

Lemma parse_bounds v off len :
  Forall is_byte v → parse_index_value v = Some (off, len) → 0 <= off < 2 ^ 64 ∧ 0 <= len < 2 ^ 32.
Proof.
  intros Hv. unfold parse_index_value. destruct (Nat.eqb_spec (length v) 12) as [Hl|]; [|done].
  intros [= <- <-]. split.
  - pose proof (of_le_range (take 8 v) (Forall_take _ _ _ Hv)) as H. by rewrite length_take, Hl in H.
  - pose proof (of_le_range (take 4 (drop 8 v)) (Forall_take _ _ _ (Forall_drop _ _ _ Hv))) as H.
    by rewrite length_take, length_drop, Hl in H.
Qed.

(** The four parts of a record, read back from the file. *)
Lemma stored_parts file off k val :
  Forall is_byte file → Z.of_nat (length k) < 2 ^ 32 → Z.of_nat (length val) < 2 ^ 32 → 0 <= off →
  off + 8 + Z.of_nat (length k) + Z.of_nat (length val) <= Z.of_nat (length file) →
  let at_ d n := take n (drop d (drop (Z.to_nat off) file)) in
  stored file off k val ↔
    of_le (at_ 0 4)%nat = Z.of_nat (length k) ∧ of_le (at_ 4 4)%nat = Z.of_nat (length val) ∧
    at_ 8%nat (length k) = k ∧ at_ (8 + length k)%nat (length val) = val.
Proof.
  intros Hb Hk Hv Hoff Hlen at_.
  set (rest := drop (Z.to_nat off) file) in *.
  assert (length rest = length file - Z.to_nat off)%nat as Hrest by apply length_drop.
  assert (Forall is_byte rest) as Hbr by (by apply Forall_drop).
  split.
  - intros (pre & post & -> & ->). unfold at_, rest. rewrite Nat2Z.id, drop_app_length.
    unfold encode_record. rewrite drop_0, !u32_small by lia. list_norm.
    assert (length (le_bytes 4 (Z.of_nat (length k))) = 4%nat) as L1 by apply length_le_bytes.
    assert (length (le_bytes 4 (Z.of_nat (length val))) = 4%nat) as L2 by apply length_le_bytes.
    split_and!.
    + rewrite take_app_length' by done. apply of_le_bytes. simpl. lia.
    + rewrite drop_app_length', take_app_length' by done. apply of_le_bytes. simpl. lia.
    + rewrite (app_assoc (le_bytes 4 _) (le_bytes 4 _)), drop_app_length' by (rewrite length_app; lia).
      by apply take_app_length'.
    + rewrite (app_assoc (le_bytes 4 _) (le_bytes 4 _)), (app_assoc _ k), drop_app_length'
        by (rewrite !length_app; lia).
      by apply take_app_length'.
  - unfold at_. rewrite drop_0. intros (E1 & E2 & E3 & E4).
    exists (take (Z.to_nat off) file), (drop (8 + length k + length val) rest). split.
    2: { rewrite length_take. lia. }
    rewrite <- (take_drop (Z.to_nat off) file) at 1. f_equal. fold rest.
    unfold encode_record. rewrite !u32_small by lia. rewrite <- E1, <- E2 at 1.
    assert (le_bytes 4 (of_le (take 4 rest)) = take 4 rest) as ->.
    { rewrite <- (le_bytes_of_le (take 4 rest)) at 2 by (by apply Forall_take). by rewrite length_take, Nat.min_l by lia. }
    assert (le_bytes 4 (of_le (take 4 (drop 4 rest))) = take 4 (drop 4 rest)) as ->.
    { rewrite <- (le_bytes_of_le (take 4 (drop 4 rest))) at 2 by (by apply Forall_take, Forall_drop).
      by rewrite length_take, length_drop, Nat.min_l by lia. }
    rewrite <- E3, <- E4 at 1. list_norm.
    rewrite <- (take_drop 4 rest) at 1. f_equal.
    rewrite <- (take_drop 4 (drop 4 rest)) at 1. f_equal. rewrite drop_drop. cbn [Nat.add].
    rewrite <- (take_drop (length k) (drop 8 rest)) at 1. f_equal. rewrite drop_drop.
    rewrite <- (take_drop (length val) (drop (8 + length k) rest)) at 1. f_equal. by rewrite drop_drop.
Qed.

Lemma names_parts file k v off len :
  Forall is_byte file → Z.of_nat (length k) < 2 ^ 32 → parse_index_value v = Some (off, len) → 0 <= off →
  0 <= len < 2 ^ 32 →
  let rest := drop (Z.to_nat off) file in
  names_record file k v ↔ off + 8 + Z.of_nat (length k) + len <= Z.of_nat (length file) ∧
    of_le (take 4 rest) = Z.of_nat (length k) ∧ of_le (take 4 (drop 4 rest)) = len ∧
    take (length k) (drop 8 rest) = k.
Proof.
  intros Hb Hk Ep Hoff Hlen rest. unfold names_record. rewrite Ep. split.
  - intros (off' & val & [= <- ->] & Hv & Hst). pose proof (stored_range _ _ _ _ Hst) as [_ Hr].
    apply stored_parts in Hst as (E1 & E2 & E3 & _); done.
  - intros (Hr & E1 & E2 & E3).
    assert (length (take (Z.to_nat len) (drop (8 + length k) rest)) = Z.to_nat len) as Hl.
    { rewrite length_take, length_drop. unfold rest. rewrite length_drop. lia. }
    exists off, (take (Z.to_nat len) (drop (8 + length k) rest)). rewrite Hl, Z2Nat.id by lia.
    split_and!; [done|lia|]. apply stored_parts; rewrite ?Hl, ?Z2Nat.id by lia; try done; lia.
Qed.

(** In the readable range the scan's reads are those of [names_parts]. *)
Lemma check_entry_reads file k v off len :
  Z.of_nat (length file) < 2 ^ 62 → parse_index_value v = Some (off, len) → 0 <= off →
  off + 8 <= Z.of_nat (length file) → Forall is_byte file →
  let rest := drop (Z.to_nat off) file in
  let kl := of_le (take 4 rest) in
  let vl := of_le (take 4 (drop 4 rest)) in
  0 <= kl < 2 ^ 32 ∧ 0 <= vl < 2 ^ 32 ∧
  ∀ m, check_entry file (Z.of_nat (length file)) k v m =
    (if Z.of_nat (length file) <? off + 8 + kl + vl then mret VPrune
    else if negb (kl =? Z.of_nat (length k)) then mret VPrune
    else ok ← malloc_bytes kl;
         if negb ok then mret VError
         else mret (if negb (memcmp (take (Z.to_nat kl) (drop 8 rest)) k =? 0) || negb (vl =? len)
                    then VPrune else VValid)) m.
Proof.
  intros Hf Ep Hoff Hr Hb rest kl vl.
  assert (length rest = length file - Z.to_nat off)%nat as Hrest by apply length_drop.
  assert (Forall is_byte rest) as Hbr by (by apply Forall_drop).
  assert (0 <= kl < 2 ^ 32) as Hkl.
  { pose proof (of_le_range (take 4 rest) (Forall_take _ _ _ Hbr)) as H.
    rewrite length_take, Nat.min_l in H by lia. exact H. }
  assert (0 <= vl < 2 ^ 32) as Hvl.
  { pose proof (of_le_range (take 4 (drop 4 rest)) (Forall_take _ _ _ (Forall_drop _ _ _ Hbr))) as H.
    rewrite length_take, length_drop, Nat.min_l in H by lia. exact H. }
  split_and!; [lia..|]. intros m. unfold check_entry. rewrite Ep, !u64_small by lia.
  rewrite (proj2 (Z.ltb_ge _ _)) by lia. unfold i64. rewrite !(signed_small 64) by lia.
  assert (∀ n d, 0 <= d → pread file n (off + d) = Some (take (Z.to_nat n) (drop (Z.to_nat d) rest))) as Hp.
  { intros n d Hd. unfold pread, rest. rewrite (proj2 (Z.ltb_ge _ _)) by lia.
    by rewrite drop_drop, Z2Nat.inj_add by lia. }
  pose proof (Hp 4 0 ltac:(lia)) as Hp0. rewrite Z.add_0_r in Hp0. rewrite Hp0, !Hp by lia. cbn beta iota.
  change (Z.to_nat 0) with 0%nat. change (Z.to_nat 4) with 4%nat. change (Z.to_nat 8) with 8%nat.
  rewrite drop_0. fold kl vl.
  rewrite !length_take, length_drop, !Nat.min_l by lia. cbn [Nat.eqb negb orb].
  rewrite (u64_small (off + 8 + kl + vl)) by lia.
  destruct (Z.ltb_spec (Z.of_nat (length file)) (off + 8 + kl + vl)) as [_|Hend]; [done|].
  destruct (negb _); [done|]. unfold mbind, alloc_bind. destruct (malloc_bytes kl m) as [[] m']; [|done]. cbn [negb].
  rewrite length_drop, Nat.min_l, Z2Nat.id, Z.eqb_refl by lia. done.
Qed.

Lemma check_entry_early file k v off len :
  Z.of_nat (length file) < 2 ^ 62 → parse_index_value v = Some (off, len) → 0 <= off < 2 ^ 64 →
  Z.of_nat (length file) < off + 8 →
  check_entry file (Z.of_nat (length file)) k v = 
    mret (if bool_decide (2 ^ 64 <= off + 8 <= 2 ^ 64 + Z.of_nat (length file)) then VError else VPrune).
Proof.
  intros Hf Ep Hoff Hr. unfold check_entry. rewrite Ep. destruct (Z.le_gt_cases (2 ^ 64) (off + 8)) as [Hw|Hw].
  - replace (u64 (off + 8)) with (off + 8 - 2 ^ 64) by (apply (Zmod_unique _ _ 1); lia).
    case_bool_decide as Hin; [|by rewrite (proj2 (Z.ltb_lt _ _)) by lia].
    rewrite (proj2 (Z.ltb_ge _ _)) by lia.
    assert (i64 off < 0) as Hneg by (unfold i64, signed; rewrite Z.mod_small by lia; case_match; lia).
    unfold pread. by rewrite (proj2 (Z.ltb_lt _ _) Hneg).
  - rewrite u64_small by lia. rewrite (proj2 (Z.ltb_lt _ _) Hr). by rewrite bool_decide_false by lia.
Qed.

(** The verdict is right for every allocator outcome, and an error is only
    reported for an unreadable entry while no allocation fails. *)
Lemma check_entry_verdict file k v :
  Forall is_byte file → Forall is_byte v → Z.of_nat (length file) < 2 ^ 62 → Z.of_nat (length k) < 2 ^ 32 →
  always (check_entry file (Z.of_nat (length file)) k v) (λ d, match d with
    | VValid => names_record file k v | VPrune => ¬ names_record file k v ∧ ¬ unreadable file v | VError => True end) ∧
  succeeds (check_entry file (Z.of_nat (length file)) k v) (λ d, d = VError ↔ unreadable file v).
Proof.
  intros Hb Hv Hf Hk. destruct (parse_index_value v) as [[off len]|] eqn:Ep.
  2: { unfold check_entry, unreadable. rewrite Ep. split; [by apply always_ret|by apply succeeds_ret]. }
  destruct (parse_bounds _ _ _ Hv Ep) as [Hoff Hlen]. assert (unreadable file v ↔ 2 ^ 64 <= off + 8 <= 2 ^ 64 + Z.of_nat (length file)) as Hun
    by (unfold unreadable; by rewrite Ep).
  destruct (Z.lt_ge_cases (Z.of_nat (length file)) (off + 8)) as [Hr|Hr].
  { rewrite (check_entry_early _ _ _ _ _ Hf Ep Hoff Hr). case_bool_decide as Hw.
    - split; [by apply always_ret|apply succeeds_ret; tauto].
    - split; [apply always_ret; split|by apply succeeds_ret; rewrite Hun].
      + rewrite names_parts by (done || lia). lia.
      + by rewrite Hun. }
  destruct (check_entry_reads file k v off len Hf Ep ltac:(lia) ltac:(lia) Hb) as (Hkl & Hvl & E).
  set (kl := of_le (take 4 _)) in *. set (vl := of_le (take 4 (drop 4 _))) in *.
  assert (¬ unreadable file v) as Hnu by (rewrite Hun; lia).
  split; [eapply always_ext|eapply succeeds_ext]; try exact E.
  - pose proof (names_parts file k v off len Hb Hk Ep ltac:(lia) Hlen) as Hnp. fold kl vl in Hnp.
    apply (always_mono _ (λ d, match d with
      | VValid => off + 8 + Z.of_nat (length k) + len <= Z.of_nat (length file) ∧ kl = Z.of_nat (length k) ∧
          vl = len ∧ take (length k) (drop 8 (drop (Z.to_nat off) file)) = k
      | VPrune => ¬ (off + 8 + Z.of_nat (length k) + len <= Z.of_nat (length file) ∧ kl = Z.of_nat (length k) ∧
          vl = len ∧ take (length k) (drop 8 (drop (Z.to_nat off) file)) = k) ∧ ¬ unreadable file v
      | VError => True end)); [|intros []; cbn zeta in Hnp; by rewrite ?Hnp].
    destruct (Z.ltb_spec (Z.of_nat (length file)) (off + 8 + kl + vl)) as [H|H]; [apply always_ret; split; [lia|done]|].
    destruct (Z.eqb_spec kl (Z.of_nat (length k))) as [Ek|Ek]; cbn [negb]; [|apply always_ret; split; [lia|done]].
    apply always_bind, always_malloc_bytes; [by apply always_ret|]. intros _. cbn [negb]. apply always_ret.
    rewrite Ek, Nat2Z.id. destruct (Z.eqb_spec (memcmp (take (length k) (drop 8 (drop (Z.to_nat off) file))) k) 0) as [Em|Em]; cbn [negb orb].
    + apply memcmp_zero in Em; [|rewrite length_take, !length_drop; lia].
      destruct (Z.eqb_spec vl len); cbn [negb]; [split_and!; (done || lia)|split; [lia|done]].
    + split; [|done]. intros (_ & _ & _ & E3). apply Em. rewrite E3. apply memcmp_refl.
  - destruct (Z.ltb_spec (Z.of_nat (length file)) (off + 8 + kl + vl)) as [H|H]; [by apply succeeds_ret|].
    destruct (Z.eqb_spec kl (Z.of_nat (length k))) as [Ek|Ek]; cbn [negb]; [|by apply succeeds_ret].
    apply succeeds_bind, succeeds_malloc_bytes; [unfold PTRDIFF_MAX; lia|]. cbn [negb]. apply succeeds_ret.
    destruct (negb _ || negb _); done.
Qed.

(** A bucket whose deletions and walks do not fail. *)
Definition reliable {M} (api : mdb_api M) : Prop :=
  (∀ m k, k ≠ [] → is_Some (mdb_view api m !! k) → (db_delete api m k).1.1 = 0) ∧
  ∀ m (S : Type) (cb : S → list Z → list Z → Z * S) s,
    (∀ s k v, (cb s k v).1 = 0) → (db_iterate api m cb s).1.1 = 0.

Section scan_lemmas.
Context {M : Type} (api : mdb_api M) `{!BucketLaws api}.
Implicit Types (ls : po_logstore M) (k v : list Z).

(** The memory index of a store small enough for its table to shrink exactly. *)
Definition shrinkable ls : Prop :=
  idx_wf (ls_mem ls) ∧ ht_capacity (idx_ht (ls_mem ls)) <= MAX_CAPACITY ∧ idx_size (ls_mem ls) <= MAX_ENTRIES.

(** What both indexes hold for a key. *)
Definition both ls k : option (list Z) * option (Z * Z) := (mdb_view api (ls_idx ls) !! k, idx_find (ls_mem ls) k).

Lemma prune_entry_succeeds ls k :
  shrinkable ls →
  succeeds (prune_entry api ls k) (λ r, ∃ ls', r = Some ls' ∧ shrinkable ls' ∧ ls_file ls' = ls_file ls ∧
    (∀ k', k ≠ k' → both ls' k' = both ls k') ∧ idx_find (ls_mem ls') k = None ∧
    ((db_delete api (ls_idx ls) k).1.1 = 0 → mdb_view api (ls_idx ls') !! k = None)).
Proof using Type*.
  intros (Hwf & Hcap & Hsz). unfold prune_entry. pose proof (law_db_delete (ls_idx ls) k) as Hd.
  destruct (db_delete api (ls_idx ls) k) as [[rc e] db]. cbn [fst snd].
  apply succeeds_bind. eapply succeeds_mono; [by apply index_remove_succeeds|].
  intros r (rc' & mem & -> & Hwf' & Hcap' & Hsz' & _ & Hf). apply succeeds_ret. cbn. eexists. split; [done|].
  unfold shrinkable, both. cbn. split_and!; [done|done|lia|done| | |].
  - intros k' Hne. rewrite Hf, bool_decide_false by done.
    destruct Hd as [(_ & ->)|(_ & ->)]; [by rewrite lookup_delete_ne|done].
  - by rewrite Hf, bool_decide_true.
  - intros ->. destruct Hd as [(_ & ->)|(? & _)]; [by rewrite lookup_delete_eq|done].
Qed.

Lemma integrity_cb_continues prune end_ (s : option (po_logstore M * po_logstore_integrity_stats) * list bool) k v :
  (_integrity_cb api prune end_ s k v).1 = 0.
Proof.
  unfold _integrity_cb. destruct s as [[[ls st]|] m]; [|done]. destruct (check_entry _ _ _ _ _) as [d m'].
  destruct (_ && _); [|done]. by destruct (prune_entry _ _ _ _).
Qed.

(** The statistics after more entries of each verdict. *)
Definition counted st (valid pruned errors : nat) : po_logstore_integrity_stats :=
  mk_stats (st_scanned st + Z.of_nat (valid + pruned + errors)) (st_valid st + Z.of_nat valid)
    (st_pruned st + Z.of_nat pruned) (st_errors st + Z.of_nat errors).

Definition stats_room st (n : nat) : Prop :=
  (0 <= st_scanned st ∧ st_scanned st + Z.of_nat n < 2 ^ 64) ∧ 0 <= st_valid st <= st_scanned st ∧
  0 <= st_pruned st <= st_scanned st ∧ 0 <= st_errors st <= st_scanned st.

Lemma count_exact st d n : stats_room st (S n) →
  count_verdict st true d = counted st (if d is VValid then 1 else 0) (if d is VPrune then 1 else 0) (if d is VError then 1 else 0) ∧
  stats_room (count_verdict st true d) n.
Proof.
  unfold stats_room, counted. intros Hr. destruct d; cbn; rewrite !u64_small by lia; (split; [f_equal; lia|lia]).
Qed.

Lemma counted_counted st a b c x y z : counted (counted st a b c) x y z = counted st (a + x) (b + y) (c + z).
Proof. unfold counted. cbn. f_equal; lia. Qed.

(** One entry: the verdict is carried out on the live store. *)
Lemma integrity_cb_step ls st m k v :
  no_fail m → shrinkable ls → Forall is_byte (ls_file ls) → Forall is_byte v →
  Z.of_nat (length (ls_file ls)) < 2 ^ 62 → Z.of_nat (length k) < 2 ^ 32 →
  ∃ ls' m' d, (_integrity_cb api true (Z.of_nat (length (ls_file ls))) (Some (ls, st), m) k v).2 =
      (Some (ls', count_verdict st true d), m') ∧ no_fail m' ∧ shrinkable ls' ∧ ls_file ls' = ls_file ls ∧
    (∀ k', k ≠ k' → both ls' k' = both ls k') ∧
    match d with
    | VPrune => ¬ names_record (ls_file ls) k v ∧ ¬ unreadable (ls_file ls) v ∧ idx_find (ls_mem ls') k = None ∧
        ((db_delete api (ls_idx ls) k).1.1 = 0 → mdb_view api (ls_idx ls') !! k = None)
    | VValid => names_record (ls_file ls) k v ∧ both ls' k = both ls k
    | VError => unreadable (ls_file ls) v ∧ both ls' k = both ls k
    end.
Proof using Type*.
  intros Hm Hs Hb Hv Hf Hk. destruct (check_entry_verdict _ k v Hb Hv Hf Hk) as [Ha Hsucc].
  destruct (Hsucc m Hm) as [Herr Hm1]. specialize (Ha m). unfold _integrity_cb.
  destruct (check_entry (ls_file ls) (Z.of_nat (length (ls_file ls))) k v m) as [d m1]. cbn [fst snd] in *.
  cbn [andb]. case_bool_decide as Ed.
  - subst d. destruct (prune_entry_succeeds ls k Hs m1 Hm1) as [(ls' & E & ? & ? & ? & ? & ?) Hm2].
    destruct (prune_entry api ls k m1) as [r m2]. cbn [fst snd] in *. subst r. cbn.
    exists ls', m2, VPrune. by destruct Ha.
  - exists ls, m1, d. split_and!; try done. destruct d; [done|done|]. split; [|done]. by apply Herr.
Qed.

(** The entries of a walk by their verdict. *)
Record sorted_out (file : list Z) (valid pruned errors : list (list Z * list Z)) : Prop := mk_sorted_out {
  so_valid : Forall (λ kv, names_record file kv.1 kv.2) valid;
  so_pruned : Forall (λ kv, ¬ names_record file kv.1 kv.2 ∧ ¬ unreadable file kv.2) pruned;
  so_errors : Forall (λ kv, unreadable file kv.2) errors
}.

Lemma scan_walk ps ls st m :
  no_fail m → shrinkable ls → Forall is_byte (ls_file ls) → Z.of_nat (length (ls_file ls)) < 2 ^ 62 →
  NoDup ps.*1 → (∀ kv, kv ∈ ps → mdb_view api (ls_idx ls) !! kv.1 = Some kv.2 ∧ Forall is_byte kv.2 ∧
    0 < Z.of_nat (length kv.1) < 2 ^ 32) →
  stats_room st (length ps) →
  ∃ ls' m' valid pruned errors,
    (walk (_integrity_cb api true (Z.of_nat (length (ls_file ls)))) (Some (ls, st), m) ps).2 =
      (Some (ls', counted st (length valid) (length pruned) (length errors)), m') ∧
    shrinkable ls' ∧ ls_file ls' = ls_file ls ∧
    valid ++ pruned ++ errors ≡ₚ ps ∧ sorted_out (ls_file ls) valid pruned errors ∧
    (∀ k, k ∉ pruned.*1 → both ls' k = both ls k) ∧
    (∀ k, k ∈ pruned.*1 → idx_find (ls_mem ls') k = None ∧ (reliable api → mdb_view api (ls_idx ls') !! k = None)).
Proof using Type*.
  revert ls st m. induction ps as [|[k v] ps IH]; intros ls st m Hm Hs Hb Hf Hnd Hps Hst; cbn [walk].
  { exists ls, m, [], [], []. split_and!; try done.
    - destruct st. unfold counted. cbn. by rewrite !Z.add_0_r.
    - intros k Hk. by apply not_elem_of_nil in Hk. }
  apply NoDup_cons in Hnd as [Hk Hnd]. destruct (Hps (k, v)) as (Hview & Hv & Hkl); [left|]. cbn [fst snd length] in *.
  destruct (integrity_cb_step ls st m k v) as (ls1 & m1 & d & E & Hm1 & Hs1 & Hf1 & Hother & Hd); try done; [lia|].
  pose proof (integrity_cb_continues true (Z.of_nat (length (ls_file ls))) (Some (ls, st), m) k v) as E0.
  destruct (_integrity_cb _ _ _ _ k v) as [stop s]. cbn [fst snd] in E0, E. subst. cbn [Z.eqb negb].
  destruct (count_exact st d (length ps) Hst) as [Ec Hst1].
  destruct (IH ls1 (count_verdict st true d) m1) as (ls' & m' & vs & pr & er & E' & Hs' & Hf' & Hp & [Hvs Hpr Her] & Hout & Hgone);
    rewrite ?Hf1; try done.
  { intros [k1 v1] Hkv. destruct (Hps (k1, v1)) as (H1 & H2 & H3); [by right|]. split_and!; [|done|lia|lia].
    cbn [fst snd] in *. specialize (Hother k1). unfold both in Hother. rewrite <- H1.
    assert (k ≠ k1) as Hne by (intros ->; apply Hk, list_elem_of_fmap; by exists (k1, v1)).
    by injection (Hother Hne). }
  rewrite Hf1 in *. rewrite Ec, counted_counted in E'. rewrite Ec. exists ls', m'.
  assert (k ∉ pr.*1) as Hkp.
  { intros Hin. apply Hk. apply list_elem_of_fmap in Hin as (kv & -> & Hin). apply list_elem_of_fmap. exists kv. split; [done|].
    rewrite <- Hp. apply elem_of_app. right. apply elem_of_app. by left. }
  destruct d.
  - exists ((k, v) :: vs), pr, er. split_and!; try done; [cbn [app]; by rewrite Hp|split; [by constructor; [apply Hd|]|done|done]|].
    intros k1 Hk1. rewrite Hout by done. destruct (decide (k = k1)) as [<-|Hne]; [apply Hd|by apply Hother].
  - exists vs, ((k, v) :: pr), er. destruct Hd as (Hd1 & Hd2 & Hd3 & Hd4).
    split_and!; try done; [cbn [app]; by rewrite <- Permutation_middle, Hp|split; [done|by constructor|done]| |].
    + intros k1 Hk1. apply not_elem_of_cons in Hk1 as [Hne Hk1]. rewrite Hout by done. by apply Hother.
    + intros k1 Hk1. apply elem_of_cons in Hk1 as [-> |Hk1]; [|by apply Hgone]. cbn [fst].
      specialize (Hout k Hkp). unfold both in Hout. injection Hout as -> ->. split; [done|]. intros [Hr _].
      apply Hd4, Hr; [intros ->; simpl in Hkl; lia|by eexists].
  - exists vs, pr, ((k, v) :: er). split_and!; try done; [|split; [done|done|by constructor; [apply Hd|]]|].
    + by rewrite (app_assoc vs pr), <- Permutation_middle, <- app_assoc, Hp.
    + intros k1 Hk1. rewrite Hout by done. destruct (decide (k = k1)) as [<-|Hne]; [apply Hd|by apply Hother].
Qed.
End scan_lemmas.

(** ** Properties *)

(** C32. A pruning scan removes exactly the entries that lie, and its counters are
    exact, when no allocation fails: the entries it looks at fall into those that
    name a record of their key, those that do not, and those it cannot read (not of
    12 bytes, or with an offset so close to 2^64 that adding the header size wraps);
    [scanned], [valid], [pruned] and [errors] are the numbers of all and of each
    sort; the pruned ones are gone from the memory index, both indexes have the
    same as before for every other key, and the file is not touched.  When the
    bucket does not fail, the entries looked at are all entries of the bucket and
    the pruned ones are gone from it as well. *)
Theorem logstore_integrity_prunes_exactly {M} (api : mdb_api M) (ls : po_logstore M) (m : list bool) :
  MdbLaws api → shrinkable ls → Forall is_byte (ls_file ls) → Z.of_nat (length (ls_file ls)) < 2 ^ 62 →
  Z.of_nat (size (mdb_view api (ls_idx ls))) < 2 ^ 64 →
  (∀ k v, mdb_view api (ls_idx ls) !! k = Some v → Forall is_byte v ∧ 0 < Z.of_nat (length k) < 2 ^ 32) →
  no_fail m →
  ∃ ls' valid pruned errors,
    (_ls_integrity_scan api ls true true m).1 =
      Some (Some (mk_stats (Z.of_nat (length valid + length pruned + length errors)) (Z.of_nat (length valid))
                    (Z.of_nat (length pruned)) (Z.of_nat (length errors))), ls') ∧
    shrinkable ls' ∧ ls_file ls' = ls_file ls ∧
    NoDup (valid ++ pruned ++ errors).*1 ∧
    (∀ k v, (k, v) ∈ valid ++ pruned ++ errors → mdb_view api (ls_idx ls) !! k = Some v) ∧
    Forall (λ kv, names_record (ls_file ls) kv.1 kv.2) valid ∧
    Forall (λ kv, ¬ names_record (ls_file ls) kv.1 kv.2 ∧ ¬ unreadable (ls_file ls) kv.2) pruned ∧
    Forall (λ kv, unreadable (ls_file ls) kv.2) errors ∧
    (∀ k, k ∉ pruned.*1 → both api ls' k = both api ls k) ∧
    (∀ k, k ∈ pruned.*1 → idx_find (ls_mem ls') k = None) ∧
    (reliable api → valid ++ pruned ++ errors ≡ₚ map_to_list (mdb_view api (ls_idx ls)) ∧
       ∀ k, k ∈ pruned.*1 → mdb_view api (ls_idx ls') !! k = None).
Proof.
  intros Hlaws Hs Hb Hf Hsz Hbytes Hm. set (ls0 := with_file ls (ls_file ls) (Z.of_nat (length (ls_file ls)))).
  destruct (law_db_iterate (ls_idx ls0) (_integrity_cb api true (Z.of_nat (length (ls_file ls))))
    (Some (ls0, mk_stats 0 0 0 0), m)) as (ps & E & Hps & Hnd & Hall).
  assert (length ps <= size (mdb_view api (ls_idx ls)))%nat as Hl.
  { rewrite <- length_map_to_list. apply submseteq_length, NoDup_submseteq; [by eapply NoDup_fmap_1|].
    intros [k v] Hkv. apply elem_of_map_to_list. by apply (Hps (k, v)). }
  destruct (scan_walk api ps ls0 (mk_stats 0 0 0 0) m) as
    (ls' & m' & vs & pr & er & E' & Hs' & Hf' & Hp & [Hvs Hpr Her] & Hout & Hgone); try done.
  { intros kv Hkv. split; [by apply Hps|]. apply (Hbytes kv.1). by apply Hps. } { unfold stats_room. cbn. lia. }
  exists ls', vs, pr, er. split_and!; try done.
  - unfold _ls_integrity_scan. cbn [negb]. fold ls0. rewrite E. change (ls_file ls) with (ls_file ls0). by rewrite E'.
  - by rewrite Hp.
  - intros k v. rewrite Hp. apply Hps.
  - intros k Hk. by apply Hgone.
  - intros Hrel. specialize (Hall (integrity_cb_continues api _ _)).
    specialize (Hall (proj2 Hrel _ _ _ _ (integrity_cb_continues api _ _))). split.
    { by rewrite Hp, Hall. }
    intros k Hk. by apply Hgone.
Qed.

(** A store with one sound entry and one that points behind the file. *)
Definition stale_store : po_logstore (gmap (list Z) (list Z)) :=
  mk_logstore (log_bytes [([1], [10; 11])]) 0 {[ [1] := index_value 0 2; [2] := index_value 99 1 ]}
    (index_of [([1], 0, 2); ([2], 99, 1)]) PO_LS_FSYNC_NONE 0 0 0 0 LS_MAX_KEY_DEFAULT LS_MAX_VALUE_DEFAULT 0 0 0.

Lemma map_mdb_reliable : reliable map_mdb.
Proof.
  split.
  - intros m k Hk [v Hv]. unfold db_delete. simpl in *. rewrite Hv.
    destruct (Nat.eqb_spec (length k) 0) as [Hl|_]; [by apply nil_length_inv in Hl|done].
  - intros m S cb s Hcb. unfold db_iterate. simpl.
    pose proof (walk_continues cb s (map_to_list m) Hcb) as Hw.
    destruct (walk cb s (map_to_list m)) as [stop s']. simpl in Hw. by subst.
Qed.

Lemma logstore_integrity_prunes_exactly_witness :
  ∃ ls' valid pruned errors, (_ls_integrity_scan map_mdb stale_store true true []).1 =
      Some (Some (mk_stats (Z.of_nat (length valid + length pruned + length errors)) (Z.of_nat (length valid))
                    (Z.of_nat (length pruned)) (Z.of_nat (length errors))), ls') ∧
    valid ++ pruned ++ errors ≡ₚ map_to_list (mdb_view map_mdb (ls_idx stale_store)).
Proof.
  destruct (index_of_wf [([1], 0, 2); ([2], 99, 1)]) as [Hwf Hs]; [done|].
  destruct (logstore_integrity_prunes_exactly map_mdb stale_store [] _) as
    (ls' & vs & pr & er & E & _ & _ & _ & _ & _ & _ & _ & _ & _ & Hrel).
  - split; [exact Hwf|]. split; [vm_compute; discriminate|]. unfold MAX_ENTRIES. simpl in *. lia.
  - repeat constructor; vm_compute; congruence.
  - vm_compute. reflexivity.
  - vm_compute. reflexivity.
  - intros k v Hk. cbn in Hk. apply lookup_insert_Some in Hk as [[<- <-]|[_ Hk]].
    + split; [|simpl; lia].
      repeat constructor; vm_compute; congruence.
    + apply lookup_singleton_Some in Hk as [<- <-]. split; [|simpl; lia].
      repeat constructor; vm_compute; congruence.
  - apply no_fail_nil.
  - exists ls', vs, pr, er. split; [exact E|]. apply (Hrel map_mdb_reliable).
Defined.

(** The scan counts the stale entry and removes it from both indexes. *)
Example stale_entry_pruned :
  ∃ ls', (_ls_integrity_scan map_mdb stale_store true true []).1 = Some (Some (mk_stats 2 1 1 0), ls') ∧
    (po_logstore_debug_lookup map_mdb ls' [2] []).1 = Some None ∧
    (po_logstore_debug_lookup map_mdb ls' [1] []).1 = Some (Some (0, 2)).
Proof. eexists. split; [vm_compute; reflexivity|]. vm_compute. auto. Qed.

(** A failed allocation while the memory index shrinks turns pruning into a use
    of freed memory at the next look-up of the pruned key. *)
Theorem logstore_prune_dangles :
  ∃ st ls', (_ls_integrity_scan map_mdb stale_store true true [true; false]).1 = Some (Some st, ls') ∧
    st_pruned st = 1 ∧ (po_logstore_debug_lookup map_mdb ls' [2] []).1 = None.
Proof. eexists _, _. split; [vm_compute; reflexivity|]. vm_compute. auto. Qed.

(** The debug calls are a round trip: what [po_logstore_debug_put_index] reports
    as stored is what [po_logstore_debug_lookup] returns. *)
Theorem debug_put_lookup_roundtrip {M} (api : mdb_api M) (ls : po_logstore M) (key : list Z) (off len : Z) (n : nat) :
  MdbLaws api → idx_wf (ls_mem ls) → idx_room (ls_mem ls) (S n) → Z.of_nat (length key) <= ls_max_key_bytes ls →
  ls_max_key_bytes ls <= LS_HARD_KEY_MAX →
  succeeds (po_logstore_debug_put_index api ls key off len) (λ r, ∃ ok ls', r = Some (ok, ls') ∧
    (ok = true → succeeds (po_logstore_debug_lookup api ls' key) (λ r, r = Some (Some (off, len))))).
Proof.
  intros Hlaws Hwf Hr Hk Hmax. unfold LS_HARD_KEY_MAX in Hmax. unfold po_logstore_debug_put_index.
  destruct (Nat.eqb_spec (length key) 0) as [Hl|Hl]; [apply succeeds_ret; eexists _, _; by split|].
  destruct (db_put _ _ _ _) as [[rc e] db]. destruct (negb (rc =? 0)); [apply succeeds_ret; eexists _, _; by split|].
  apply succeeds_bind. eapply succeeds_mono.
  { apply (index_put_succeeds _ _ off len n Hwf Hr); [by intros ->|unfold PTRDIFF_MAX; lia]. }
  intros r (mem & -> & Hwf' & _ & Hf). apply succeeds_ret. cbn. eexists _, _. split; [done|]. intros _.
  unfold po_logstore_debug_lookup. cbn. rewrite (proj2 (Z.eqb_neq _ 0)) by lia.
  rewrite (proj2 (Z.ltb_ge _ _)) by lia. cbn. rewrite index_get_spec, Hf, bool_decide_true by done.
  by apply succeeds_ret.
Qed.
