(* ===== verification/LogstoreWorker.v ===== *)
(** * Appending, worker threads and closing of the log store
    ([app/libs/ring3/postoffice/storage/logstore_worker.c], [po_logstore_append],
    [po_logstore_close] and the logger sink of [logstore.c])

    Producers, workers and the closing thread as a transition system.  The
    queue is the bounded FIFO that [Ringbuf] refines (for two slots or more),
    the event counter the semaphore of [Batcher].  A step is one access to what
    the threads share: the check of [running], putting a request into the ring,
    writing its event, taking a batch, processing a batch with the test that
    follows it, the closing steps one by one.  Event writes succeed ([Batcher]
    shows what a failing one does), and an append still under way when the store
    has been released is not followed further.  What the kernel and the
    allocator do during a flush is limited by [env]: anything, or ([flush_ok])
    no failed allocation, no short write and room in the index and the file.

    The lists [s_accepted], [s_flushed] and [s_discarded] are not state of the
    program.  They record the requests put into the ring, those of the batches
    processed whatever the flush did with them, and those freed without one.
    What is in the file and the index is [s_ls]; [holds] ties the two together
    while flushes are undisturbed, and the property about closing is stated of
    the file and the lookups, not of [s_flushed]. *)

From Stdlib Require Import ZArith Lia.
From stdpp Require Import base list numbers gmap.
From S2P Require Import Prelude Hashtable HashtableGrowth Index Lmdb Ringbuf Protocol Logstore.

Local Open Scope Z_scope.

Notation record := (list Z * list Z)%type.

(** Where a worker is: in [perf_batcher_next], with a batch, or returned. *)
Inductive worker_pc : Type := Waiting | Holding (batch : list append_req) | Exited.

(** Where the closing thread is: not called yet, [running] cleared,
    [ls->sentinel] set, the sentinel in the ring but its event not yet written,
    joining the workers, done. *)
Inductive closer_pc : Type := NotClosing | Stopping | Pushing | Signalling | Joining | Closed.

#[export] Instance append_req_eq_dec : EqDecision append_req.
Proof. solve_decision. Defined.
#[export] Instance closer_pc_eq_dec : EqDecision closer_pc.
Proof. solve_decision. Defined.

(** ** Appending *)

Definition SIZEOF_APPEND_REQ : Z := 32.

(** From the validation to the allocation; [None] is the result -1. *)
Definition append_begin {M} (ls : po_logstore M) (running : bool) (key val : list Z) :
    alloc (option (po_logstore M)) :=
  let keylen := Z.of_nat (length key) in
  let vallen := Z.of_nat (length val) in
  if negb (_ls_validate_lengths keylen vallen (ls_max_key_bytes ls) (ls_max_value_bytes ls)) then mret None
  else if negb running then mret None
  else
    ok ← malloc_bytes (SIZEOF_APPEND_REQ + keylen + vallen);
    mret (if (ok : bool) then Some (with_counts ls (u64 (ls_outstanding ls + 1)) (ls_seq ls)) else None).

(** The sleep after [attempt] refused enqueues, in nanoseconds. *)
Fixpoint append_sleep_ns (attempt : nat) : Z :=
  match attempt with
  | O => 50 * 1000
  | S n => let s := append_sleep_ns n in if s <? 2 * 1000 * 1000 then s * 3 / 2 + 10 * 1000 else s
  end.

(** The key and value [_ls_logger_sink] appends for a line, and the next
    sequence number. *)
Definition LOGGER_MSG_MAX : nat := 512.
Definition _ls_logger_sink (ts_ns seq : Z) (line : list Z) : list Z * list Z * Z :=
  (le_bytes 8 ts_ns ++ le_bytes 8 seq, take LOGGER_MSG_MAX line, u64 (seq + 1)).

(** One round of [_ls_fsync_thread_main]: nanoseconds slept (a [tv_nsec] of a
    second or more is refused), and whether the loop goes on. *)
Definition fsync_thread_round (interval : Z) (running : bool) : Z * bool :=
  let tv_nsec := if interval =? 0 then 50 * 1000000 else interval in
  (if tv_nsec <? 1000000000 then tv_nsec else 0, running).

(** ** The system *)

Section system.
Context {M : Type} (api : mdb_api M) (cap batch_size : nat).
Implicit Types (ls : po_logstore M) (batch : list append_req).

Record sys : Type := mk_sys {
  s_ls : option (po_logstore M);   (* None after a use of freed memory *)
  s_q : list append_req;
  s_efd : nat;
  s_unsignalled : nat;             (* producers between the ring and the event *)
  s_running : bool;
  s_sentinel : bool;               (* ls->sentinel is set *)
  s_queued : bool;                 (* the sentinel was enqueued *)
  s_pending : list record;         (* producers before the ring *)
  s_workers : list worker_pc;
  s_closer : closer_pc;
  s_accepted : list record;
  s_flushed : list record;
  s_discarded : list record
}.

(** The four vectors of a flush can be allocated. *)
Definition vectors_ok (live : Z) : alloc bool :=
  iov ← malloc_bytes (16 * u64 (live * 4)); offs ← malloc_bytes (8 * live);
  lens ← malloc_bytes (4 * live); kls ← malloc_bytes (4 * live); mret (iov && offs && lens && kls).

(** What follows [perf_batcher_next] in [_ls_worker_main]: the new store, the
    new [ls->sentinel] and the worker's next place.  A batch of one sentinel or
    none at all flushes nothing; the record-by-record path skips the release of
    the sentinel.  The drain before [break] finds the queue that was just seen
    empty; a record that slips in there is freed like the ones [c_join] frees. *)
Definition worker_process (ols : option (po_logstore M)) (running : bool) (q : list append_req) (sentinel : bool)
    batch (io : flush_io) (m : list bool) : option (po_logstore M) * bool * worker_pc :=
  let quit := negb running && bool_decide (q = []) in
  let leave (b : bool) := if b then Exited else Waiting in
  let recs := live_records batch in
  let seen := bool_decide (Sentinel ∈ batch) in
  match batch with
  | [] => (ols, sentinel, leave quit)
  | [Sentinel] => (ols, false, leave quit)
  | _ =>
      if bool_decide (recs = []) && seen then (ols, false, leave quit)
      else
        let ols' := ls ← ols; (flush_batch api ls batch false io m).1 in
        let sentinel :=
          if (vectors_ok (Z.of_nat (length recs)) m).1 then sentinel && negb seen else sentinel in
        (ols', sentinel, leave (quit && negb sentinel))
  end.

Definition set_worker (s : sys) (i : nat) (w : worker_pc) : list worker_pc := <[i := w]> (s_workers s).

(** [env ls batch io m]: the environment may answer a flush of [batch] so;
    [interrupts]: reads of the event descriptor may fail. *)
Context (interrupts : bool) (env : option (po_logstore M) → list append_req → flush_io → list bool → Prop).

(** [atomic_store(&ls->running, 0)] *)
Definition stopped (s : sys) : sys :=
  mk_sys (s_ls s) (s_q s) (s_efd s) (s_unsignalled s) false (s_sentinel s) (s_queued s) (s_pending s)
    (s_workers s) Stopping (s_accepted s) (s_flushed s) (s_discarded s).

Inductive store_step : sys → sys → Prop :=
| p_check s ls ls' r m :
    s_ls s = Some ls → (append_begin ls (s_running s) r.1 r.2 m).1 = Some ls' →
    store_step s (mk_sys (Some ls') (s_q s) (s_efd s) (s_unsignalled s) (s_running s) (s_sentinel s) (s_queued s) (s_pending s ++ [r])
      (s_workers s) (s_closer s) (s_accepted s) (s_flushed s) (s_discarded s))
| p_enqueue s before r after :
    s_pending s = before ++ r :: after → (length (s_q s) < cap)%nat → s_closer s ≠ Closed →
    store_step s (mk_sys (s_ls s) (s_q s ++ [Append r.1 r.2]) (s_efd s) (S (s_unsignalled s)) (s_running s) (s_sentinel s) (s_queued s)
      (before ++ after) (s_workers s) (s_closer s) (s_accepted s ++ [r]) (s_flushed s) (s_discarded s))
| p_signal s n :
    s_unsignalled s = S n → s_closer s ≠ Closed →
    store_step s (mk_sys (s_ls s) (s_q s) (S (s_efd s)) n (s_running s) (s_sentinel s) (s_queued s) (s_pending s)
      (s_workers s) (s_closer s) (s_accepted s) (s_flushed s) (s_discarded s))
| p_give_up s before r after :   (* never_overwrite, or running was cleared *)
    s_pending s = before ++ r :: after → ¬ (length (s_q s) < cap)%nat → s_closer s ≠ Closed →
    store_step s (mk_sys ((λ ls, with_counts ls (u64 (ls_outstanding ls - 1)) (ls_seq ls)) <$> s_ls s) (s_q s) (s_efd s) (s_unsignalled s)
      (s_running s) (s_sentinel s) (s_queued s) (before ++ after) (s_workers s) (s_closer s)
      (s_accepted s) (s_flushed s) (s_discarded s))
| w_next s i efd' :
    s_workers s !! i = Some Waiting → s_efd s = S efd' →
    store_step s (mk_sys (s_ls s) (drop batch_size (s_q s)) efd' (s_unsignalled s) (s_running s) (s_sentinel s) (s_queued s) (s_pending s)
      (set_worker s i (Holding (take batch_size (s_q s)))) (s_closer s) (s_accepted s) (s_flushed s) (s_discarded s))
| w_error s i :   (* a failed read of the event descriptor *)
    interrupts = true →
    s_workers s !! i = Some Waiting → s_running s = false → s_q s = [] →
    store_step s (mk_sys (s_ls s) (s_q s) (s_efd s) (s_unsignalled s) (s_running s) (s_sentinel s) (s_queued s) (s_pending s)
      (set_worker s i Exited) (s_closer s) (s_accepted s) (s_flushed s) (s_discarded s))
| w_process s i batch io m ols sentinel w :
    s_workers s !! i = Some (Holding batch) → env (s_ls s) batch io m →
    worker_process (s_ls s) (s_running s) (s_q s) (s_sentinel s) batch io m = (ols, sentinel, w) →
    store_step s (mk_sys ols (s_q s) (s_efd s) (s_unsignalled s) (s_running s) sentinel (s_queued s) (s_pending s)
      (set_worker s i w) (s_closer s) (s_accepted s) (s_flushed s ++ live_records batch) (s_discarded s))
| c_stop s :
    s_closer s = NotClosing →
    store_step s (stopped s)
| c_sentinel s :   (* calloc succeeds *)
    s_closer s = Stopping →
    store_step s (mk_sys (s_ls s) (s_q s) (s_efd s) (s_unsignalled s) (s_running s) true (s_queued s) (s_pending s)
      (s_workers s) Pushing (s_accepted s) (s_flushed s) (s_discarded s))
| c_no_sentinel s :   (* calloc fails *)
    s_closer s = Stopping →
    store_step s (mk_sys (s_ls s) (s_q s) (s_efd s) (s_unsignalled s) (s_running s) (s_sentinel s) (s_queued s) (s_pending s)
      (s_workers s) Joining (s_accepted s) (s_flushed s) (s_discarded s))
| c_push s :
    s_closer s = Pushing → (length (s_q s) < cap)%nat →
    store_step s (mk_sys (s_ls s) (s_q s ++ [Sentinel]) (s_efd s) (s_unsignalled s) (s_running s) (s_sentinel s) true (s_pending s)
      (s_workers s) Signalling (s_accepted s) (s_flushed s) (s_discarded s))
| c_push_full s :   (* the result of the enqueue is ignored *)
    s_closer s = Pushing → ¬ (length (s_q s) < cap)%nat →
    store_step s (mk_sys (s_ls s) (s_q s) (s_efd s) (s_unsignalled s) (s_running s) (s_sentinel s) (s_queued s) (s_pending s)
      (s_workers s) Joining (s_accepted s) (s_flushed s) (s_discarded s))
| c_signal s :
    s_closer s = Signalling →
    store_step s (mk_sys (s_ls s) (s_q s) (S (s_efd s)) (s_unsignalled s) (s_running s) (s_sentinel s) (s_queued s) (s_pending s)
      (s_workers s) Joining (s_accepted s) (s_flushed s) (s_discarded s))
| c_join s :   (* every worker joined, then the drain and the release *)
    s_closer s = Joining → Forall (λ w, w = Exited) (s_workers s) →
    store_step s (mk_sys ((λ ls, with_counts ls (u64 (ls_outstanding ls - Z.of_nat (length (live_records (s_q s))))) (ls_seq ls))
        <$> s_ls s) [] (s_efd s) (s_unsignalled s) (s_running s) false (s_queued s) (s_pending s) (s_workers s) Closed
      (s_accepted s) (s_flushed s) (s_discarded s ++ live_records (s_q s))).

(** After [po_logstore_open_cfg] with [n] workers. *)
Definition store_opened ls (n : nat) : sys :=
  mk_sys (Some ls) [] 0 0 true false false [] (replicate n Waiting) NotClosing [] [] [].
End system.
Arguments sys M : clear implicits.

(** ** Specification *)

Definition holding (w : worker_pc) : list append_req := match w with Holding b => b | _ => [] end.

(** Events written, or about to be written by a thread that has put its request
    into the ring. *)
Definition tokens {M} (s : sys M) : nat :=
  (s_efd s + s_unsignalled s + match s_closer s with Signalling => 1 | _ => 0 end)%nat.

(** One worker: nothing is lost or reordered between acceptance and the flush,
    and every queued request has an event. *)
Record one_worker {M} (s : sys M) (w : worker_pc) : Prop := mk_one_worker {
  ow_worker : s_workers s = [w];
  ow_order : s_accepted s = s_flushed s ++ s_discarded s ++ live_records (holding w) ++ live_records (s_q s);
  ow_events : (length (s_q s) <= tokens s)%nat;
  ow_running : s_running s = bool_decide (s_closer s = NotClosing);
  ow_open : s_closer s ≠ Closed → s_discarded s = [];
  ow_closed : s_closer s = Closed → w = Exited ∧ s_q s = [];
  ow_alive : s_closer s = NotClosing → w ≠ Exited;
  ow_early : s_closer s = NotClosing ∨ s_closer s = Stopping ∨ s_closer s = Pushing → s_queued s = false
}.

(** Closing, for a store that had accepted [acc] and had [pend] under way when
    [running] was cleared: only those are accepted later, and the worker does
    not leave before it has flushed [acc]. *)
Record closing {M} (acc pend : list record) (s : sys M) (w : worker_pc) : Prop := mk_closing {
  cl_worker : one_worker s w;
  cl_closer : s_closer s ≠ NotClosing;
  cl_late : ∃ late, s_accepted s = acc ++ late ∧ late ++ s_pending s ⊆+ pend;
  cl_exited : w = Exited → acc `prefix_of` s_flushed s
}.

(** The worker still has a reason to wake up and leave. *)
Definition will_leave {M} (s : sys M) (w : worker_pc) : Prop :=
  match w with
  | Exited => True
  | Waiting => Sentinel ∈ s_q s ∨ s_sentinel s = false ∧ s_q s ≠ []
  | Holding b => Sentinel ∈ s_q s ∨ Sentinel ∈ b ∨ s_sentinel s = false
  end.

(** How a closing store may come to rest: closed, or waiting for ever for a
    worker that no event will wake, as the sentinel was not queued. *)
Definition hanging {M} (interrupts : bool) (s : sys M) : Prop :=
  s_closer s = Joining ∧ s_queued s = false ∧ s_workers s = [Waiting] ∧ s_q s = [] ∧ s_efd s = 0%nat ∧
  interrupts = false.

(** ** Lemmas *)

Lemma live_app a b : live_records (a ++ b) = live_records a ++ live_records b.
Proof. apply omap_app. Qed.

Lemma live_take_drop n q : live_records (take n q) ++ live_records (drop n q) = live_records q.
Proof. by rewrite <- live_app, take_drop. Qed.

Lemma length_live batch : (length (live_records batch) <= length batch)%nat.
Proof. unfold live_records. induction batch as [|[] b IH]; cbn; lia. Qed.

(** The cases of a step. *)
Ltac step_cases H :=
  destruct H as [s ls ls' r m Hls E|s before r after Hp' Hcap Hc'|s n Hn Hc'|s before r after Hp' Hcap Hc'|s i efd' Hi He|
    s i Hint Hi Hr Hq'|s i batch io m ols sentinel w1 Hi Henv E|s Hc'|s Hc'|s Hc'|s Hc' Hcap|s Hc' Hcap|s Hc'|s Hc' Hall].

Section lemmas.
Context {M : Type} (api : mdb_api M) (cap batch_size : nat) (Hbs : (0 < batch_size)%nat) (interrupts : bool)
  (env : option (po_logstore M) → list append_req → flush_io → list bool → Prop).
Notation store_step := (store_step api cap batch_size interrupts env).
Implicit Types (s : sys M).

Lemma take_nonempty (q : list append_req) : take batch_size q = [] → q = [].
Proof using Hbs. destruct q, batch_size; simpl; (done || lia). Qed.

(** The branches of [worker_process]. *)
Lemma worker_process_cases ols running q sentinel batch io m ols' sentinel' w :
  worker_process api ols running q sentinel batch io m = (ols', sentinel', w) →
  let quit := negb running && bool_decide (q = []) in
  let leave (b : bool) := if b then Exited else Waiting in
  batch = [] ∧ sentinel' = sentinel ∧ w = leave quit ∨
  batch ≠ [] ∧ sentinel' = false ∧ Sentinel ∈ batch ∧ w = leave quit ∨
  batch ≠ [] ∧ (Sentinel ∈ batch → live_records batch ≠ []) ∧ w = leave (quit && negb sentinel') ∧
    (sentinel' = sentinel && negb (bool_decide (Sentinel ∈ batch)) ∨ sentinel' = sentinel).
Proof.
  intros E quit leave. unfold worker_process in E. fold quit leave in E.
  destruct batch as [|r batch]; [left; by simplify_eq|]. right.
  assert ((if bool_decide (live_records (r :: batch) = []) && bool_decide (Sentinel ∈ r :: batch)
    then (ols, false, leave quit)
    else let ols' := ls ← ols; (flush_batch api ls (r :: batch) false io m).1 in
        let sentinel := if (vectors_ok (Z.of_nat (length (live_records (r :: batch)))) m).1
                        then sentinel && negb (bool_decide (Sentinel ∈ r :: batch)) else sentinel in
        (ols', sentinel, leave (quit && negb sentinel))) = (ols', sentinel', w)) as E'.
  { destruct r as [k v|]; [done|]. destruct batch; [|done]. by rewrite (bool_decide_true (Sentinel ∈ _)) by left. }
  clear E. case_bool_decide as Hl; [case_bool_decide as Hs|]; cbn [andb] in E'; cbn zeta in E'; simplify_eq.
  - by left.
  - right. split_and!; try done. by destruct (vectors_ok _ _).1; [left|right].
  - right. split_and!; try done. by destruct (vectors_ok _ _).1; [left|right].
Qed.

(** A processed batch leaves the worker outside it, and it only leaves on an
    empty queue while the store is closing. *)
Lemma worker_process_pc ols running q sentinel batch io m ols' sentinel' w :
  worker_process api ols running q sentinel batch io m = (ols', sentinel', w) →
  (w = Waiting ∨ w = Exited ∧ q = [] ∧ running = false) ∧ (sentinel' = true → sentinel = true).
Proof.
  intros E. destruct (worker_process_cases _ _ _ _ _ _ _ _ _ _ E) as [(-> & -> & ->)|[(_ & -> & _ & ->)|(_ & _ & -> & Hs)]].
  - split; [|done]. destruct running, (decide (q = [])); rewrite ?bool_decide_true, ?bool_decide_false by done; auto.
  - split; [|done]. destruct running, (decide (q = [])); rewrite ?bool_decide_true, ?bool_decide_false by done; auto.
  - split; [|by destruct Hs as [-> | ->], sentinel].
    destruct running, (decide (q = [])); rewrite ?bool_decide_true, ?bool_decide_false by done; auto.
    by destruct sentinel'; auto.
Qed.

Lemma append_refused (ls : po_logstore M) key val m : (append_begin ls false key val m).1 = None.
Proof. unfold append_begin. by destruct (negb _). Qed.

Lemma one_worker_step s w s' : one_worker s w → store_step s s' → ∃ w', one_worker s' w'.
Proof using Hbs.
  intros Hw Hst. pose proof Hw as [Hwk Hord Hev Hrun Hop Hcl Hal Hea]. unfold tokens in Hev.
  step_cases Hst; cbn in *;
    try (rewrite Hwk in Hi; destruct i; [|done]; cbn in Hi; simplify_eq; unfold set_worker; rewrite Hwk).
  - exists w. by split.
  - exists w. split; unfold tokens; cbn; rewrite ?length_app; cbn; try done; [|lia].
    rewrite live_app, Hord. cbn. destruct r. by list_norm.
  - exists w. split; unfold tokens; cbn; try done. lia.
  - exists w. by split.
  - exists (Holding (take batch_size (s_q s))). cbn in *. split; unfold tokens; cbn; try done.
    + by rewrite live_take_drop.
    + rewrite length_drop. lia.
    + intros H. by destruct (Hcl H).
  - exists Exited. cbn in *. split; cbn; try done. intros Hn. rewrite Hr, Hn in Hrun. done.
  - destruct (worker_process_pc _ _ _ _ _ _ _ _ _ _ E) as [Hw' _]. exists w1. cbn in *.
    assert (holding w1 = []) as Hh by (by destruct Hw' as [-> |[-> _]]).
    split; cbn; rewrite ?Hh; try done.
    + rewrite Hord. destruct (decide (s_closer s = Closed)) as [Hc|Hc]; [by destruct (Hcl Hc)|].
      rewrite (Hop Hc). by list_norm.
    + intros H. by destruct (Hcl H).
    + intros Hn ->. destruct Hw' as [?|(_ & _ & Hr)]; [done|]. by rewrite Hr, Hn in Hrun.
  - exists w. rewrite Hc' in Hev. split; unfold tokens; cbn in *; try done; [by intros; apply Hop; congruence|]. auto.
  - exists w. rewrite Hc' in Hev. split; unfold tokens; cbn in *; try done;
      [by rewrite Hrun, Hc'|intros _; apply Hop; congruence|auto].
  - exists w. rewrite Hc' in Hev. split; unfold tokens; cbn in *; try done;
      [by rewrite Hrun, Hc'|intros _; apply Hop; congruence|naive_solver].
  - exists w. rewrite Hc' in Hev. split; unfold tokens; cbn in *; rewrite ?length_app; cbn; try done;
      [by rewrite live_app; cbn; rewrite app_nil_r|lia|by rewrite Hrun, Hc'|intros _; apply Hop; congruence|naive_solver].
  - exists w. rewrite Hc' in Hev. split; unfold tokens; cbn in *; try done;
      [by rewrite Hrun, Hc'|intros _; apply Hop; congruence|naive_solver].
  - exists w. rewrite Hc' in Hev. split; unfold tokens; cbn in *; try done;
      [lia|by rewrite Hrun, Hc'|intros _; apply Hop; congruence|naive_solver].
  - rewrite Hwk in Hall. apply list.Forall_singleton in Hall as ->. exists Exited. split; cbn; try done.
    + rewrite Hord. cbn. rewrite (Hop ltac:(congruence)). by rewrite !app_nil_r.
    + lia.
    + by rewrite Hrun, Hc'.
    + naive_solver.
Qed.

(** Before the release nothing is discarded. *)
Lemma accepted_open s w : one_worker s w → w ≠ Exited ∨ s_closer s ≠ Closed →
  s_accepted s = s_flushed s ++ live_records (holding w) ++ live_records (s_q s).
Proof.
  intros Hw Hc. rewrite (ow_order _ _ Hw), (ow_open _ _ Hw); [done|]. intros H.
  destruct (ow_closed _ _ Hw H). naive_solver.
Qed.

Lemma closing_step acc pend s w s' : closing acc pend s w → store_step s s' → ∃ w', closing acc pend s' w'.
Proof using Hbs.
  intros [Hw Hc (late & Hacc & Hlate) Hex] Hst. destruct (one_worker_step s w s' Hw Hst) as [w' Hw'].
  exists w'. pose proof Hw as [Hwk _ _ Hrun _ _ _ _]. pose proof (ow_worker _ _ Hw') as Hwk'.
  rewrite (bool_decide_false _ Hc) in Hrun.
  step_cases Hst; cbn in *; try congruence;
    try (rewrite Hwk in Hi; destruct i; [|done]; cbn in Hi; unfold set_worker in Hwk'; rewrite Hwk in Hwk'; cbn in Hwk'; simplify_eq);
    try (rewrite Hwk in Hwk'; simplify_eq); try (by split; eauto).
  - by rewrite Hrun, append_refused in E.
  - split; try done. cbn. exists (late ++ [r]). rewrite Hacc, <- !app_assoc. split; [done|].
    rewrite <- Hlate, Hp'. apply submseteq_skips_l. change ([r] ++ before ++ after) with (r :: before ++ after).
    apply Permutation_submseteq. by rewrite Permutation_middle.
  - split; try done. cbn. exists late. split; [done|]. rewrite <- Hlate, Hp'. apply submseteq_skips_l, submseteq_skips_l.
    by apply submseteq_cons.
  - split; cbn; eauto. intros _. pose proof (accepted_open _ _ Hw ltac:(by left)) as Ho. cbn in Ho.
    rewrite Hq' in Ho. cbn in Ho. rewrite app_nil_r in Ho. rewrite <- Ho, Hacc. by eexists.
  - split; cbn; eauto. intros ->. destruct (worker_process_pc _ _ _ _ _ _ _ _ _ _ E) as [[?|(_ & Hq & _)] _]; [done|].
    pose proof (accepted_open _ _ Hw ltac:(by left)) as Ho. cbn [holding] in Ho. rewrite Hq in Ho.
    change (live_records []) with (@nil record) in Ho. rewrite app_nil_r in Ho. rewrite <- Ho, Hacc. by eexists.
Qed.

(** Steps that are left while closing. *)
Definition pc_rank (w : worker_pc) : nat := match w with Exited => 0 | Waiting => 1 | Holding _ => 2 end.
Definition closer_rank (c : closer_pc) : nat :=
  match c with NotClosing => 7 | Stopping => 6 | Pushing => 5 | Signalling => 4 | Joining => 1 | Closed => 0 end.
Definition steps_left s (w : worker_pc) : nat :=
  (2 * s_efd s + 3 * s_unsignalled s + 4 * length (s_pending s) + pc_rank w + closer_rank (s_closer s))%nat.

Lemma closing_decreases acc pend s w s' w' :
  closing acc pend s w → store_step s s' → s_workers s' = [w'] → (steps_left s' w' < steps_left s w)%nat.
Proof.
  intros [Hw Hc _ _] Hst Hwk'. pose proof (ow_worker _ _ Hw) as Hwk. pose proof (ow_running _ _ Hw) as Hrun.
  rewrite (bool_decide_false _ Hc) in Hrun. unfold steps_left.
  step_cases Hst; cbn in *;
    try (rewrite Hwk in Hi; destruct i; [|done]; cbn in Hi; unfold set_worker in Hwk'; rewrite Hwk in Hwk';
         cbn in Hwk'; simplify_eq);
    try (rewrite Hwk in Hwk'; simplify_eq; rewrite Hc'; cbn); try lia.
  - by rewrite Hrun, append_refused in E.
  - rewrite Hwk in Hwk'. simplify_eq. rewrite Hp', !length_app. cbn. lia.
  - rewrite Hwk in Hwk'. simplify_eq. rewrite Hn. lia.
  - rewrite Hwk in Hwk'. simplify_eq. rewrite Hp', !length_app. cbn. lia.
  - rewrite He. cbn. lia.
  - cbn. lia.
  - destruct (worker_process_pc _ _ _ _ _ _ _ _ _ _ E) as [[-> |(-> & _)] _]; cbn; lia.
Qed.

Lemma closing_terminates acc pend s w : closing acc pend s w → Acc (λ b a, store_step a b) s.
Proof using Hbs.
  remember (steps_left s w) as n eqn:Hn. revert s w Hn.
  induction (lt_wf n) as [n _ IH]. intros s w -> Hc. constructor. intros s' Hst.
  destruct (closing_step acc pend s w s' Hc Hst) as [w' Hc'].
  apply (IH (steps_left s' w')) with (w := w'); [|done|done].
  eapply closing_decreases; [done..|]. apply Hc'.
Qed.

(** Where nothing can happen in any environment, the store is closed or hangs. *)
Lemma closing_rest acc pend s w :
  (∀ ols b, ∃ io m, env ols b io m) → closing acc pend s w → (s_queued s = true → will_leave s w) →
  (∀ s', ¬ store_step s s') → s_closer s = Closed ∨ hanging interrupts s.
Proof.
  intros Henv [Hw Hc _ _] Hlv Hstuck. pose proof Hw as [Hwk _ Hev Hrun _ _ _ _].
  rewrite (bool_decide_false _ Hc) in Hrun.
  assert (s_closer s ≠ Closed → s_unsignalled s = 0%nat) as Hu.
  { intros H. destruct (s_unsignalled s) as [|n] eqn:E; [done|]. destruct (Hstuck _ (p_signal _ _ _ _ _ s n E H)). }
  destruct (s_closer s) eqn:Ec; [done|exfalso|exfalso|exfalso|right|by left].
  - by eapply Hstuck, c_sentinel.
  - destruct (decide (length (s_q s) < cap)%nat); [by eapply Hstuck, c_push|by eapply Hstuck, c_push_full].
  - by eapply Hstuck, c_signal.
  - destruct w as [|batch|].
    + assert (s_efd s = 0%nat) as He.
      { destruct (s_efd s) as [|e] eqn:E; [done|]. edestruct Hstuck. eapply (w_next _ _ _ _ _ _ 0 e); [by rewrite Hwk|done]. }
      assert (s_q s = []) as Hq.
      { apply nil_length_inv. unfold tokens in Hev. rewrite Ec, He, (Hu ltac:(done)) in Hev. cbn in Hev. lia. }
      unfold hanging. rewrite Hq, Hwk. split_and!; try done.
      * destruct (s_queued s); [|done]. destruct (Hlv eq_refl) as [H|[_ H]]; rewrite Hq in H; [by apply not_elem_of_nil in H|done].
      * destruct interrupts eqn:Ei; [|done]. edestruct Hstuck. eapply (w_error _ _ _ _ _ _ 0); [done|by rewrite Hwk|done|done].
    + destruct (Henv (s_ls s) batch) as (io & m & H).
      destruct (worker_process api (s_ls s) (s_running s) (s_q s) (s_sentinel s) batch io m) as [[ols st] w] eqn:E.
      edestruct Hstuck. eapply (w_process _ _ _ _ _ _ 0); [by rewrite Hwk|exact H|exact E].
    + exfalso. eapply Hstuck, c_join; [done|]. rewrite Hwk. by constructor.
Qed.

Lemma opened_one_worker (ls : po_logstore M) : one_worker (store_opened ls 1) Waiting.
Proof. split; cbn; try done; try lia. Qed.

Lemma reachable_one_worker ls s : star store_step (store_opened ls 1) s → ∃ w, one_worker s w.
Proof using Hbs.
  intros H. refine (star_invariant store_step (λ s, ∃ w, one_worker s w) _ _ _ H _).
  - intros s1 s2 Hst [w Hw]. by eapply one_worker_step.
  - eexists. apply opened_one_worker.
Qed.
End lemmas.

Lemma stopped_closing {M} (s : sys M) w : one_worker s w → s_closer s = NotClosing →
  closing (s_accepted s) (s_pending s) (stopped s) w.
Proof.
  intros Hw Hc. pose proof Hw as [Hwk Hord Hev Hrun Hop Hcl Hal Hea]. split; cbn; try done.
  - split; cbn; try done; [|by intros; apply Hop; congruence|auto].
    unfold tokens in *. rewrite Hc in Hev. cbn in *. lia.
  - exists []. by rewrite app_nil_r.
  - intros ->. by destruct (Hal Hc).
Qed.


(** A closing store that waits for a worker that waits for an event. *)
Lemma hung {M} (api : mdb_api M) cap batch_size env (s : sys M) :
  s_running s = false → s_pending s = [] → s_unsignalled s = 0%nat → s_closer s = Joining → s_efd s = 0%nat →
  (∀ i b, s_workers s !! i ≠ Some (Holding b)) → ¬ Forall (λ w, w = Exited) (s_workers s) →
  ∀ s', ¬ store_step api cap batch_size false env s s'.
Proof.
  intros Hr0 Hp Hu Hc He0 Hh Hx s' Hst. step_cases Hst; try congruence.
  - by rewrite Hr0, append_refused in E.
  - rewrite Hp in Hp'. by destruct before.
  - rewrite Hp in Hp'. by destruct before.
  - by eapply Hh.
Qed.

(** A closed store does nothing more. *)
Lemma closed_rest {M} (api : mdb_api M) cap batch_size interrupts env (s : sys M) :
  s_running s = false → s_closer s = Closed → s_workers s = [Exited] →
  ∀ s', ¬ store_step api cap batch_size interrupts env s s'.
Proof.
  intros Hr0 Hc Hw s' Hst. step_cases Hst; try congruence;
    try (rewrite Hw in Hi; by destruct i as [|[]]). by rewrite Hr0, append_refused in E.
Qed.

(** ** From the queue to the file *)

(** A flush nothing goes wrong with. *)
Definition flush_ok {M} (ols : option (po_logstore M)) (batch : list append_req) (io : flush_io) (m : list bool) : Prop :=
  no_fail m ∧ complete_write (live_records batch) io ∧ ∀ ls, ols = Some ls →
    idx_room (ls_mem ls) (length (live_records batch)) ∧
    Z.of_nat (length (ls_file ls) + length (log_bytes (live_records batch))) < 2 ^ 62.

(** The store holds exactly the flushed records on top of what it had. *)
Definition holds {M} (api : mdb_api M) (ls0 : po_logstore M) (s : sys M) : Prop :=
  ∃ ls, s_ls s = Some ls ∧ ls_wf api ls ∧ ls_file ls = ls_file ls0 ++ log_bytes (s_flushed s) ∧
    ∀ k, contents api ls k = after_records (s_flushed s) k (contents api ls0 k).

(** Requests under way are valid and batches small. *)
Definition under_way {M} (batch_size : nat) (s : sys M) : Prop :=
  Forall rec_ok (s_pending s) ∧ Forall rec_ok (live_records (s_q s)) ∧
  ∀ i b, s_workers s !! i = Some (Holding b) → Forall rec_ok (live_records b) ∧ (length b <= batch_size)%nat.

Lemma vectors_allocated batch m : no_fail m → (length batch <= 256)%nat →
  (vectors_ok (Z.of_nat (length (live_records batch))) m).1 = true.
Proof.
  intros Hm Hl. assert (length (live_records batch) <= length batch)%nat as Hll by apply length_live.
  revert m Hm. cut (succeeds (vectors_ok (Z.of_nat (length (live_records batch)))) (λ b, b = true)).
  { intros H m Hm. by apply H. }
  unfold vectors_ok. rewrite (u64_small (_ * 4)) by lia.
  do 4 (apply succeeds_bind, succeeds_malloc_bytes; [unfold PTRDIFF_MAX; lia|]). by apply succeeds_ret.
Qed.

Section persistence.
Context {M : Type} (api : mdb_api M) `{!BucketLaws api} (cap batch_size : nat) (Hpos : (0 < batch_size)%nat)
  (Hbs : (batch_size <= 256)%nat) (interrupts : bool).
Notation store_step := (store_step api cap batch_size interrupts flush_ok).
Implicit Types (s : sys M) (ls : po_logstore M).

Lemma counts_same ls o q : ls_wf api ls → ls_wf api (with_counts ls o q) ∧
  ∀ k, contents api (with_counts ls o q) k = contents api ls k.
Proof. intros [? ? ? ?]. by split; [split|]. Qed.

Lemma holds_counts ls0 s s' f :
  holds api ls0 s → s_flushed s' = s_flushed s →
  s_ls s' = (λ ls, with_counts ls (f ls) (ls_seq ls)) <$> s_ls s → holds api ls0 s'.
Proof.
  intros (ls & E & Hwf & Hf & Hc) Hfl Hls. exists (with_counts ls (f ls) (ls_seq ls)).
  destruct (counts_same ls (f ls) (ls_seq ls) Hwf) as [H1 H2]. rewrite Hls, E, Hfl. split_and!; try done.
Qed.

Lemma after_records_app a b k o : after_records (a ++ b) k o = after_records b k (after_records a k o).
Proof. apply foldl_app. Qed.

Lemma process_holds ls0 s batch io m ols sentinel w :
  holds api ls0 s → Forall rec_ok (live_records batch) → (length batch <= batch_size)%nat →
  flush_ok (s_ls s) batch io m →
  worker_process api (s_ls s) (s_running s) (s_q s) (s_sentinel s) batch io m = (ols, sentinel, w) →
  ∃ ls, ols = Some ls ∧ ls_wf api ls ∧ ls_file ls = ls_file ls0 ++ log_bytes (s_flushed s ++ live_records batch) ∧
    ∀ k, contents api ls k = after_records (s_flushed s ++ live_records batch) k (contents api ls0 k).
Proof using Type*.
  intros (ls & Els & Hwf & Hf & Hc) Hok Hlen (Hm & Hio & Hroom) E.
  assert (live_records batch = [] → ols = Some ls → ∃ ls, ols = Some ls ∧ ls_wf api ls ∧
    ls_file ls = ls_file ls0 ++ log_bytes (s_flushed s ++ live_records batch) ∧
    ∀ k, contents api ls k = after_records (s_flushed s ++ live_records batch) k (contents api ls0 k)) as Hnone.
  { intros -> ->. exists ls. by rewrite app_nil_r. }
  destruct (decide (batch = [] ∨ batch = [Sentinel] ∨ live_records batch = [] ∧ Sentinel ∈ batch)) as [Hd|Hd].
  - assert (live_records batch = []) as Hl by (by destruct Hd as [-> |[-> |[? _]]]).
    apply Hnone; [done|]. unfold worker_process in E. rewrite Hl, Els in E.
    destruct Hd as [-> |[-> |[_ Hin]]]; [by simplify_eq..|].
    rewrite (bool_decide_true _ Hin) in E. cbn in E. destruct batch as [|[] [|]]; by simplify_eq.
  - destruct (Hroom ls Els) as [Hr Hsz].
    pose proof (length_live batch) as Hll.
    destruct (flush_vector api ls batch io 0 Hwf Hok ltac:(lia)) with (m := m) as [(ls' & E' & [Hwf' Hf' Hc' _ _ _ _] & _) _];
      rewrite ?Nat.add_0_r; try done.
    assert (ols = Some ls') as ->.
    { unfold worker_process in E. rewrite Els in E. cbn [mbind option_bind] in E. rewrite E' in E.
      assert (bool_decide (live_records batch = []) && bool_decide (Sentinel ∈ batch) = false) as Hb.
      { apply andb_false_iff. destruct (decide (live_records batch = [])); [right|left]; apply bool_decide_false; tauto. }
      rewrite Hb in E. cbn zeta in E. destruct batch as [|[] [|]]; try tauto; by simplify_eq. }
    exists ls'. split_and!; try done.
    + rewrite Hf', Hf. unfold log_bytes. by rewrite fmap_app, concat_app, app_assoc.
    + intros k. by rewrite Hc', Hc, after_records_app.
Qed.

Lemma holds_step ls0 s s' : under_way batch_size s → store_step s s' → holds api ls0 s → holds api ls0 s' ∧ under_way batch_size s'.
Proof using Type*.
  intros (Hp & Hq & Hb) Hst Hh. pose proof Hh as (lsh & Elsh & _).
  assert (∀ i w, match w with Holding b => Forall rec_ok (live_records b) ∧ (length b <= batch_size)%nat | _ => True end →
    ∀ j b, <[i := w]> (s_workers s) !! j = Some (Holding b) → Forall rec_ok (live_records b) ∧ (length b <= batch_size)%nat) as Hset.
  { intros i w Hw j b Hj. apply list_lookup_insert_Some in Hj as [(_ & -> & _)|[_ Hj]]; [done|by eapply Hb]. }
  step_cases Hst; unfold under_way; cbn;
    try (by split).
  - unfold append_begin in E. destruct (_ls_validate_lengths _ _ _ _) eqn:Ev; [|done]. cbn [negb] in E.
    destruct (s_running s) in E; [|done]. cbn in E. unfold mbind, alloc_bind in E.
    destruct (malloc_bytes _ m) as [[] m']; cbn in E; [|done]. simplify_eq. split.
    + apply (holds_counts ls0 s _ (λ ls, u64 (ls_outstanding ls + 1))); [done|done|]. cbn. by rewrite Hls.
    + split_and!; [|done|done]. apply Forall_app_2; [done|]. apply list.Forall_singleton.
      unfold rec_ok. unfold _ls_validate_lengths in Ev.
      repeat (match type of Ev with (if ?b then _ else _) = _ => destruct b eqn:?; [done|] end). lia.
  - rewrite Hp' in Hp. apply Forall_app in Hp as [? Hp]. apply Forall_cons in Hp as [Hr ?]. split; [done|].
    rewrite live_app. cbn. split_and!; [by apply Forall_app_2| |done]. apply Forall_app_2; [done|].
    apply list.Forall_singleton. by destruct r.
  - rewrite Hp' in Hp. apply Forall_app in Hp as [? Hp]. apply Forall_cons in Hp as [Hr' ?]. split.
    + by eapply (holds_counts ls0 s).
    + split_and!; [by apply Forall_app_2|done|done].
  - rewrite <- (live_take_drop batch_size) in Hq. apply Forall_app in Hq as [Hq1 Hq2].
    split; [done|]. split_and!; [done|done|]. apply Hset. split; [done|]. rewrite length_take. lia.
  - split; [done|]. split_and!; [done|done|]. by apply Hset.
  - destruct (Hb i batch Hi) as [Hok Hlen]. destruct (worker_process_pc api _ _ _ _ _ _ _ _ _ _ E) as [Hw _]. split.
    + exact (process_holds ls0 s batch io m ols sentinel w1 Hh Hok Hlen Henv E).
    + split_and!; [done|done|]. apply Hset. by destruct Hw as [-> |[-> _]].
  - split; [done|]. split_and!; [done| |done]. rewrite live_app. cbn. by rewrite app_nil_r.
  - split; [by eapply (holds_counts ls0 s)|]. split_and!; [done|constructor|done].
Qed.

(** When the vectors could be allocated, a processed sentinel is released and
    the worker leaves as soon as it finds the queue empty. *)
Lemma process_leaves s batch io m ols sentinel w :
  no_fail m → (length batch <= 256)%nat →
  worker_process api (s_ls s) false (s_q s) (s_sentinel s) batch io m = (ols, sentinel, w) →
  will_leave s (Holding batch) →
  w = Exited ∨ w = Waiting ∧ (Sentinel ∈ s_q s ∨ sentinel = false ∧ s_q s ≠ []).
Proof using Type*.
  intros Hm Hl E Hlv. pose proof (worker_process_pc _ _ _ _ _ _ _ _ _ _ _ E) as [Hpc _].
  destruct Hpc as [-> |[-> _]]; [|by left]. right. split; [done|].
  destruct Hlv as [?|Hlv]; [by left|]. right.
  pose proof (vectors_allocated batch m Hm Hl) as Hv. unfold worker_process in E. rewrite Hv in E. cbn zeta in E.
  assert (sentinel = false ∧ negb false && bool_decide (s_q s = []) = false) as [-> Hq].
  { destruct (bool_decide (s_q s = [])), Hlv as [Hin|Hs].
    all: rewrite ?Hs, ?(bool_decide_true _ Hin) in E; rewrite ?andb_true_r, ?andb_false_r in E; cbn in E.
    all: destruct batch as [|[] [|]]; try (by apply not_elem_of_nil in Hin);
      try destruct (bool_decide (live_records _ = [])); try destruct (bool_decide (Sentinel ∈ _)); simplify_eq/=; done. }
  split; [done|]. intros Hn. by rewrite bool_decide_true in Hq.
Qed.

Lemma leave_step acc pend s w s' :
  closing acc pend s w → under_way batch_size s → store_step s s' → (s_queued s = true → will_leave s w) →
  ∀ w', s_workers s' = [w'] → s_queued s' = true → will_leave s' w'.
Proof using Type*.
  intros [Hw Hc _ _] (_ & _ & Hb) Hst Hlv w' Hwk' Hqd. pose proof Hw as [Hwk _ _ Hrun _ _ _ Hea].
  rewrite (bool_decide_false _ Hc) in Hrun.
  step_cases Hst; cbn in *; try congruence;
    try (rewrite Hwk in Hi; destruct i; [|done]; cbn in Hi; unfold set_worker in Hwk'; rewrite Hwk in Hwk'; cbn in Hwk'; simplify_eq);
    try (rewrite Hwk in Hwk'; simplify_eq); try (by apply Hlv); try (specialize (Hlv Hqd)).
  - destruct w'; cbn in *; rewrite ?elem_of_app; [|tauto|done].
    destruct Hlv as [?|[? _]]; [tauto|right]. split; [done|]. by destruct (s_q s).
  - cbn in *. rewrite <- (take_drop batch_size (s_q s)), elem_of_app in Hlv. tauto.
  - done.
  - rewrite Hrun in E. destruct (Hb 0%nat batch) as [_ Hlen]; [by rewrite Hwk|]. destruct Henv as (Hm & _).
    destruct (process_leaves s batch io m ols sentinel w' Hm ltac:(lia) E Hlv) as [-> |[-> ?]]; done.
  - rewrite Hea in Hqd by auto. done.
  - destruct w'; cbn; rewrite ?elem_of_app; [left; right; left|left; right; left|done].
  - rewrite Hwk in Hall. apply list.Forall_singleton in Hall as ->. done.
Qed.

Lemma opened_holds ls : ls_wf api ls → holds api ls (store_opened ls 1) ∧ under_way batch_size (store_opened ls 1).
Proof.
  intros Hwf. split; [exists ls; split_and!; try done; cbn; by rewrite app_nil_r|].
  split_and!; [constructor|constructor|]. cbn. by intros [|[]] b Hb.
Qed.

Lemma holds_star ls0 s s' : star store_step s s' → holds api ls0 s ∧ under_way batch_size s →
  holds api ls0 s' ∧ under_way batch_size s'.
Proof using Type*.
  intros Hst. refine (star_invariant store_step (λ s, holds api ls0 s ∧ under_way batch_size s) _ _ _ Hst).
  intros a b Hab [H1 H2]. by eapply holds_step.
Qed.

Lemma closing_reachable ls s s' :
  ls_wf api ls → star store_step (store_opened ls 1) s → s_closer s = NotClosing → star store_step (stopped s) s' →
  ∃ w', closing (s_accepted s) (s_pending s) s' w' ∧ holds api ls s' ∧ (s_queued s' = true → will_leave s' w').
Proof using Type*.
  intros Hwf Hr Hc Hst. destruct (reachable_one_worker api cap batch_size Hpos interrupts flush_ok ls s Hr) as [w Hw].
  assert (store_step s (stopped s)) as Hstop by (by apply c_stop).
  pose proof (holds_star ls _ _ Hr (opened_holds ls Hwf)) as Hs.
  assert ((∃ w', closing (s_accepted s) (s_pending s) s' w' ∧ (s_queued s' = true → will_leave s' w')) ∧
    holds api ls s' ∧ under_way batch_size s') as [(w' & H1 & H2) [H3 _]]; [|by exists w'].
  refine (star_invariant store_step (λ s', (∃ w', closing (s_accepted s) (s_pending s) s' w' ∧
    (s_queued s' = true → will_leave s' w')) ∧ holds api ls s' ∧ under_way batch_size s') _ _ _ Hst _).
  - intros a b Hab [(wa & Ha & Hla) [Hh Hu]]. split; [|by eapply holds_step].
    destruct (closing_step api cap batch_size Hpos interrupts flush_ok _ _ a wa b Ha Hab) as [wb Hb]. exists wb.
    split; [done|]. apply (leave_step _ _ a wa b Ha Hu Hab Hla wb), (cl_worker _ _ _ _ Hb).
  - split; [|by eapply holds_step; try apply Hs]. exists w. split; [by apply stopped_closing|].
    cbn. rewrite (ow_early _ _ Hw) by auto. done.
Qed.
End persistence.

(** Everything accepted since closing began is flushed or discarded once the
    queue and the batch are empty. *)
Lemma closing_split {M} acc pend (s : sys M) w :
  closing acc pend s w → ∀ late, s_flushed s = acc ++ late → live_records (holding w) ++ live_records (s_q s) = [] →
  s_accepted s = acc ++ late ++ s_discarded s ∧ late ++ s_discarded s ⊆+ pend.
Proof.
  intros [Hw _ (late' & Hacc & Hlate) _] late Hfl Hq. rewrite (ow_order _ _ Hw), Hq, Hfl, app_nil_r, <- app_assoc in *.
  split; [done|]. apply (app_inv_head acc) in Hacc. rewrite Hacc. etrans; [|exact Hlate]. by apply submseteq_inserts_r.
Qed.

(** ** Properties *)

(** What any environment may do. *)
Definition any_env {M} (ols : option (po_logstore M)) (batch : list append_req) (io : flush_io) (m : list bool) : Prop := True.

(** With one worker no request is lost or overtaken: in every reachable state
    the accepted records are, in this order, the flushed ones, those in the
    worker's batch and those in the queue, until closing frees what is left; and
    there is an event for every queued request, written or about to be written
    by the thread that queued it. *)
Theorem logstore_accepted_order {M} (api : mdb_api M) (cap batch_size : nat) (ls : po_logstore M) (s : sys M) :
  (0 < batch_size)%nat → star (store_step api cap batch_size true any_env) (store_opened ls 1) s →
  ∃ w, s_workers s = [w] ∧
    s_accepted s = s_flushed s ++ s_discarded s ++ live_records (holding w) ++ live_records (s_q s) ∧
    (s_closer s ≠ Closed → s_discarded s = []) ∧ (length (s_q s) <= tokens s)%nat.
Proof.
  intros Hbs Hr. destruct (reachable_one_worker api cap batch_size Hbs true any_env ls s Hr) as [w Hw].
  exists w. split_and!; apply Hw.
Qed.


(** Prefix durability: while no flush is disturbed, the store always holds
    exactly a prefix of the accepted records on top of its former contents, the
    last value of each key winning; after a close that discards nothing, all of
    them. *)
Theorem logstore_holds_prefix {M} (api : mdb_api M) (cap batch_size : nat) (ls : po_logstore M) (s : sys M) :
  MdbLaws api → (0 < batch_size <= 256)%nat → ls_wf api ls →
  star (store_step api cap batch_size true flush_ok) (store_opened ls 1) s →
  ∃ ls', s_ls s = Some ls' ∧ ls_wf api ls' ∧ s_flushed s `prefix_of` s_accepted s ∧
    (s_closer s = Closed → s_discarded s = [] → s_flushed s = s_accepted s) ∧
    ls_file ls' = ls_file ls ++ log_bytes (s_flushed s) ∧
    ∀ k, contents api ls' k = after_records (s_flushed s) k (contents api ls k).
Proof.
  intros Hlaws [Hbs Hbs'] Hwf Hr.
  destruct (reachable_one_worker api cap batch_size Hbs true flush_ok ls s Hr) as [w Hw].
  destruct (holds_star api cap batch_size Hbs Hbs' true ls _ s Hr (opened_holds api batch_size ls Hwf))
    as [(ls' & E & Hwf' & Hf & Hc) _].
  exists ls'. split_and!; try done.
  - rewrite (ow_order _ _ Hw). eexists. done.
  - intros Hcl Hd. destruct (ow_closed _ _ Hw Hcl) as [-> Hq]. rewrite (ow_order _ _ Hw), Hd, Hq. cbn. by rewrite !app_nil_r.
Qed.

(** *** Concrete runs *)

Definition store0 : po_logstore (gmap (list Z) (list Z)) := new_store PO_LS_FSYNC_NONE.
Definition store1 : po_logstore (gmap (list Z) (list Z)) := with_counts store0 1 0.

Definition store2 : po_logstore (gmap (list Z) (list Z)) := with_counts store0 2 0.

Lemma check_store1 : (append_begin store1 true [1] [5] []).1 = Some store2.
Proof. reflexivity. Qed.

Lemma check_store0 : (append_begin store0 true [1] [5] []).1 = Some store1.
Proof. reflexivity. Qed.

Lemma store0_wf : ls_wf map_mdb store0 ∧ contents map_mdb store0 [1] = None.
Proof. split; [apply new_store_wf|vm_compute; reflexivity]. Qed.

#[local] Opaque store0 store1 store2.

(** One step of a concrete run, with the state it leads to in normal form. *)
Ltac run t := eapply star_step; [t|]; cbn.

(** One request in the queue of a store with [n] workers. *)
Definition one_queued (n : nat) : sys (gmap (list Z) (list Z)) :=
  mk_sys (Some store1) [Append [1] [5]] 1 0 true false false [] (replicate n Waiting) NotClosing [([1], [5])] [] [].

Lemma one_queued_reachable cap bs interrupts env n :
  (0 < cap)%nat → star (store_step map_mdb cap bs interrupts env) (store_opened store0 n) (one_queued n).
Proof.
  intros Hcap. run ltac:(eapply (p_check _ _ _ _ _ _ store0 store1 ([1], [5]) []); [done|apply check_store0]).
  run ltac:(eapply (p_enqueue _ _ _ _ _ _ [] ([1], [5]) []); [done|exact Hcap|done]).
  run ltac:(by eapply p_signal). apply star_refl.
Qed.

Lemma logstore_accepted_order_witness :
  ∃ w, s_workers (one_queued 1) = [w] ∧ s_accepted (one_queued 1) = live_records (holding w) ++ [([1], [5])].
Proof.
  destruct (logstore_accepted_order map_mdb 2 1 store0 (one_queued 1)) as (w & H1 & H2 & _).
  - lia.
  - apply one_queued_reachable. lia.
  - exists w. split; [exact H1|exact H2].
Defined.

(** The same store closed: the record was flushed together with the sentinel. *)
Definition closed_after (ols : option (po_logstore (gmap (list Z) (list Z)))) : sys (gmap (list Z) (list Z)) :=
  mk_sys ols [] 1 0 false false true [] [Exited] Closed [([1], [5])] [([1], [5])] [].

Definition flushed1 : option (po_logstore (gmap (list Z) (list Z))) :=
  (flush_batch map_mdb store1 [Append [1] [5]; Sentinel] false (full_io 64) []).1.

Lemma flush_store1 : flush_ok (Some store1) [Append [1] [5]; Sentinel] (full_io 64) [] ∧
  worker_process map_mdb (Some store1) false [] true [Append [1] [5]; Sentinel] (full_io 64) [] = (flushed1, false, Exited).
Proof.
  split; [|vm_compute; reflexivity]. destruct (new_store_wf PO_LS_FSYNC_NONE) as [_ Hroom].
  split; [apply no_fail_nil|]. split; [split; [done|]; exists 64%nat; split; [done|]; apply Nat.leb_le; vm_compute; reflexivity|].
  intros ls [= <-].
  split; [|vm_compute; reflexivity]. change (ls_mem store1) with (ls_mem (new_store PO_LS_FSYNC_NONE)).
  destruct Hroom as [H1 H2]. split; [exact H1|]. change (length (live_records [Append [1] [5]; Sentinel])) with 1%nat. lia.
Qed.

#[local] Opaque flushed1.

Lemma one_queued_closes : ∃ ols, star (store_step map_mdb 4 2 false flush_ok) (stopped (one_queued 1)) (closed_after ols).
Proof.
  destruct flush_store1 as [Hok E]. eexists.
  run ltac:(by apply c_sentinel). run ltac:(apply c_push; [done|cbn; lia]). run ltac:(by apply c_signal).
  run ltac:(by eapply (w_next _ _ _ _ _ _ 0)).
  run ltac:(by eapply (w_process _ _ _ _ _ _ 0)).
  run ltac:(apply c_join; [done|by repeat constructor]). apply star_refl.
Qed.


Lemma logstore_holds_prefix_witness :
  ∃ ls', s_ls (one_queued 1) = Some ls' ∧ ls_file ls' = [] ∧ contents map_mdb ls' [1] = None.
Proof.
  destruct (logstore_holds_prefix map_mdb 4 2 store0 (one_queued 1)) as (ls' & E & _ & _ & _ & Hf & Hc).
  - apply map_mdb_laws.
  - lia.
  - apply store0_wf.
  - apply one_queued_reachable. lia.
  - exists ls'. split_and!; [exact E|exact Hf|]. rewrite Hc. apply store0_wf.
Defined.

(** With two workers closing hangs: the single sentinel ends one of them and
    the other waits for an event that never comes, so that
    [po_logstore_close] never returns. *)
Theorem logstore_two_workers_close_hangs (cap batch_size : nat) :
  (0 < cap)%nat → (0 < batch_size)%nat →
  ∃ s, star (store_step map_mdb cap batch_size false any_env) (store_opened store0 2) s ∧ s_closer s = Joining ∧
    s_queued s = true ∧ ∀ s', ¬ store_step map_mdb cap batch_size false any_env s s'.
Proof.
  intros Hcap Hbs. destruct batch_size as [|bs]; [lia|]. eexists. split.
  { run ltac:(by apply c_stop). run ltac:(by apply c_sentinel). run ltac:(by apply c_push). run ltac:(by apply c_signal).
    run ltac:(by eapply (w_next _ _ _ _ _ _ 0)).
    rewrite take_nil, drop_nil.
    run ltac:(eapply (w_process _ _ _ _ _ _ 0 [Sentinel] (full_io 0) []); done). apply star_refl. }
  split_and!; try done. apply hung; try done.
  - intros [|[|i]] b; by cbn.
  - intros H. apply Forall_cons in H as [_ H]. by inversion H.
Qed.

Lemma logstore_two_workers_close_hangs_witness :
  ∃ s, star (store_step map_mdb 1024 32 false any_env) (store_opened store0 2) s ∧ s_closer s = Joining ∧
    ∀ s', ¬ store_step map_mdb 1024 32 false any_env s s'.
Proof.
  destruct (logstore_two_workers_close_hangs 1024 32) as (s & H1 & H2 & _ & H3); [lia|lia|].
  exists s. split_and!; [exact H1|exact H2|exact H3].
Defined.

(** A batch of one live request keeps the sentinel and, while it is set, the
    worker. *)
Lemma process_live_request (ols : option (po_logstore (gmap (list Z) (list Z)))) q k v io m : ∃ ols',
  worker_process map_mdb ols false q true [Append k v] io m = (ols', true, Waiting).
Proof.
  destruct (worker_process map_mdb ols false q true [Append k v] io m) as [[ols' st] w] eqn:E. exists ols'.
  destruct (worker_process_cases _ _ _ _ _ _ _ _ _ _ _ E) as [(? & _)|[(_ & _ & Hin & _)|(_ & _ & Hw & Hs)]]; [done| |].
  - by apply list_elem_of_singleton in Hin.
  - rewrite bool_decide_false in Hs by (by intros ?%list_elem_of_singleton).
    assert (st = true) as -> by (by destruct Hs). rewrite andb_false_r in Hw. by subst.
Qed.

(** A full ring with batches of one: the sentinel is set but not queued, as its
    enqueue is not checked, and after the last record the worker waits for it. *)
Theorem logstore_full_ring_close_hangs :
  ∃ s, star (store_step map_mdb 2 1 false any_env) (store_opened store0 1) s ∧ s_closer s = Joining ∧
    s_sentinel s = true ∧ s_queued s = false ∧ ∀ s', ¬ store_step map_mdb 2 1 false any_env s s'.
Proof.
  destruct (process_live_request (Some store2) [Append [1] [5]] [1] [5] (full_io 0) []) as [ols1 E1].
  destruct (process_live_request ols1 [] [1] [5] (full_io 0) []) as [ols2 E2].
  exists (mk_sys ols2 [] 0 0 false true false [] [Waiting] Joining [([1], [5]); ([1], [5])] [([1], [5]); ([1], [5])] []). split.
  { eapply star_trans; [apply (one_queued_reachable 2 1 false any_env 1); lia|].
    run ltac:(eapply (p_check _ _ _ _ _ _ store1 store2 ([1], [5]) []); [done|apply check_store1]).
    run ltac:(eapply (p_enqueue _ _ _ _ _ _ [] ([1], [5]) []); [done|cbn; lia|done]).
    run ltac:(by eapply p_signal).
    run ltac:(by apply c_stop). run ltac:(by apply c_sentinel). run ltac:(apply c_push_full; [done|cbn; lia]).
    run ltac:(by eapply (w_next _ _ _ _ _ _ 0)).
    run ltac:(eapply (w_process _ _ _ _ _ _ 0 [Append [1] [5]] (full_io 0) []); [done|done|exact E1]).
    run ltac:(by eapply (w_next _ _ _ _ _ _ 0)).
    run ltac:(eapply (w_process _ _ _ _ _ _ 0 [Append [1] [5]] (full_io 0) []); [done|done|exact E2]).
    apply star_refl. }
  split_and!; try done. apply hung; try done.
  - intros [|i] b; by cbn.
  - intros H. by inversion H.
Qed.

(** An append that passed its check before closing began reports success and
    is lost: the worker leaves on an empty queue, the record is enqueued after
    it and the drain of the closing thread frees it. *)
Theorem logstore_append_lost_at_close :
  ∃ s, star (store_step map_mdb 4 2 false any_env) (store_opened store0 1) s ∧ s_closer s = Closed ∧
    s_accepted s = [([1], [5])] ∧ s_flushed s = [] ∧ s_discarded s = [([1], [5])].
Proof.
  eexists. split.
  { run ltac:(eapply (p_check _ _ _ _ _ _ store0 store1 ([1], [5]) []); [done|apply check_store0]).
    run ltac:(by apply c_stop). run ltac:(by apply c_sentinel). run ltac:(apply c_push; [done|cbn; lia]).
    run ltac:(by apply c_signal).
    run ltac:(by eapply (w_next _ _ _ _ _ _ 0)).
    run ltac:(eapply (w_process _ _ _ _ _ _ 0 [Sentinel] (full_io 0) []); done).
    run ltac:(eapply (p_enqueue _ _ _ _ _ _ [] ([1], [5]) []); [done|cbn; lia|done]).
    run ltac:(by eapply p_signal). run ltac:(apply c_join; [done|by repeat constructor]). apply star_refl. }
  by split_and!.
Qed.

(** The back-off of a refused append grows from 50 microseconds and passes the
    2 ms its comment calls a cap, but never by more than half. *)
Theorem append_sleep_bounds (n : nat) : 50000 <= append_sleep_ns n <= 3010000.
Proof.
  induction n as [|n IH]; cbn [append_sleep_ns]; [lia|].
  destruct (Z.ltb_spec (append_sleep_ns n) (2 * 1000 * 1000)); [|lia].
  pose proof (Z.div_mod (append_sleep_ns n * 3) 2). pose proof (Z.mod_pos_bound (append_sleep_ns n * 3) 2). lia.
Qed.

Example append_sleep_exceeds_cap : append_sleep_ns 9 = 2671031.
Proof. vm_compute. reflexivity. Qed.

(** Two lines the logger hands over within 2^64 calls have different keys,
    whatever the clock says. *)
Theorem logger_sink_keys_distinct (ts1 ts2 seq1 seq2 : Z) (line1 line2 : list Z) :
  0 <= seq1 < 2 ^ 64 → 0 <= seq2 < 2 ^ 64 → seq1 ≠ seq2 →
  (_ls_logger_sink ts1 seq1 line1).1.1 ≠ (_ls_logger_sink ts2 seq2 line2).1.1.
Proof.
  intros H1 H2 Hne E. cbn [_ls_logger_sink fst] in E.
  apply app_inj_1 in E as [_ E]; [|by rewrite !length_le_bytes]. apply Hne.
  rewrite <- (of_le_bytes 8 seq1), <- (of_le_bytes 8 seq2), E by done. done.
Qed.

(** An interval of a second or more is no valid [tv_nsec]: the background thread
    does not sleep at all and calls [fsync] in a busy loop. *)
Theorem fsync_thread_never_sleeps (interval_ms : Z) (running : bool) :
  1000 <= interval_ms → fsync_thread_round (interval_ms * 1000000) running = (0, running).
Proof.
  intros H. unfold fsync_thread_round. rewrite (proj2 (Z.eqb_neq _ _)) by lia.
  by rewrite (proj2 (Z.ltb_ge _ _)) by lia.
Qed.
