(* ===== verification/LoggerFormat.v ===== *)
(** * Log records and their lines ([app/libs/ring2/postoffice/log/logger.c])

    What one record becomes on its way to the sinks: truncation into the fixed
    fields, decimal conversion, the line with its cached time stamp, the choice
    of sinks, levels and priorities, the dump after a crash.  Characters are
    bytes; [localtime_r] and [strftime] are the parameter [stamp]. *)

From Stdlib Require Import ZArith Lia String Ascii.
From stdpp Require Import base list numbers.
From S2P Require Import Prelude.

Local Open Scope Z_scope.

(** Literals as bytes. *)
Definition str (s : string) : list Z := (λ c, Z.of_N (N_of_ascii c)) <$> list_ascii_of_string s.

Definition LOG_TRACE : Z := 0.
Definition LOG_DEBUG : Z := 1.
Definition LOG_INFO : Z := 2.
Definition LOG_WARN : Z := 3.
Definition LOG_ERROR : Z := 4.
Definition LOG_FATAL : Z := 5.
Definition MSG_MAX : nat := 512.
Definition MAX_RECORD_SIZE : nat := MSG_MAX * 2.

(** Fields hold the characters before the terminating zero. *)
Record log_record : Type := mk_record {
  ts_sec : Z;
  ts_nsec : Z;
  rec_tid : Z;
  rec_level : Z;
  rec_category : Z;
  rec_file : list Z;      (* char[64] *)
  rec_func : list Z;      (* char[32] *)
  rec_line : Z;
  rec_msg : list Z        (* char[LOGGER_MSG_MAX] *)
}.

(** ** Decimal numbers *)

(** The digits of [v], least significant first; [buf] has 24 places. *)
Fixpoint utoa_digits (fuel : nat) (v : Z) : list Z :=
  match fuel with
  | O => []
  | S fuel => if 0 <? v then (v mod 10 + 48) :: utoa_digits fuel (v / 10) else []
  end.

Definition fast_utoa10 (v : Z) : list Z := if v =? 0 then [48] else rev (utoa_digits 24 v).

(** [for (int k = 0; k < 6; k++)] *)
Fixpoint pad_digits (k : nat) (v : Z) : list Z :=
  match k with O => [] | S k => (v mod 10 + 48) :: pad_digits k (v / 10) end.

Definition fast_pad6 (v : Z) : list Z := rev (pad_digits 6 (if v <? 0 then 0 else v)).

(** [%d] of an [int]. *)
Definition dec_int (v : Z) : list Z := if v <? 0 then 45 :: fast_utoa10 (- v) else fast_utoa10 v.

(** ** Lines *)

(** Five characters per level. *)
Definition level_name (level : Z) : list Z :=
  if level =? LOG_TRACE then str "TRACE"
  else if level =? LOG_DEBUG then str "DEBUG"
  else if level =? LOG_INFO then str "INFO "
  else if level =? LOG_WARN then str "WARN "
  else if level =? LOG_ERROR then str "ERROR"
  else if level =? LOG_FATAL then str "FATAL"
  else str "UNK  ".

Section line.
(** The text of a second of local time. *)
Context (stamp : Z → list Z).

(** [t_cache_sec] and [t_cache_ts] of the calling thread. *)
Record ts_cache : Type := mk_cache { cache_sec : Z; cache_ts : list Z }.
Definition empty_cache : ts_cache := mk_cache 0 (replicate 32 0).

Definition record_format_line (c : ts_cache) (r : log_record) : list Z * ts_cache :=
  let c := if ts_sec r =? cache_sec c then c else mk_cache (ts_sec r) (stamp (ts_sec r)) in
  (take 19 (cache_ts c) ++ str "." ++ fast_pad6 (Z.quot (ts_nsec r) 1000) ++ str " " ++ fast_utoa10 (rec_tid r) ++
   str " " ++ level_name (rec_level r) ++ str " " ++ rec_file r ++ str ":" ++ fast_utoa10 (u64 (rec_line r)) ++
   str " " ++ rec_msg r ++ [10], c).

(** The lines of one thread. *)
Fixpoint format_all (c : ts_cache) (rs : list log_record) : list (list Z) :=
  match rs with
  | [] => []
  | r :: rs => let '(line, c) := record_format_line c r in line :: format_all c rs
  end.
End line.

(** ** Filling a record *)

(** The last 63 characters of the path. *)
Definition copy_file (file : option (list Z)) : list Z :=
  match file with
  | Some f =>
      let n := if (64 <=? length f)%nat then 63%nat else length f in
      if (64 <=? length f)%nat then drop (length f - n) f else take n f
  | None => []
  end.
Definition copy_func (func : option (list Z)) : list Z := take 31 (default [] func).

(** [text]: what the format and its arguments expand to. *)
Definition fill_record (sec nsec tid level category line : Z) (file func : option (list Z)) (text : list Z) : log_record :=
  mk_record sec nsec tid (u8 level) category (copy_file file) (copy_func func) line (take (MSG_MAX - 1) text).

Definition should_emit_overflow_notice (v : Z) : bool := negb (v =? 0) && (Z.land v (u64 (v - 1)) =? 0).

Definition fill_overflow_notice (drop_new : bool) (sec nsec tid dropped overwritten : Z) : log_record :=
  mk_record sec nsec tid LOG_ERROR 0 [] (str "logger") 0
    (take (MSG_MAX - 1) (str "logger overflow: dropped_new=" ++ fast_utoa10 dropped ++ str " overwritten_old=" ++
       fast_utoa10 overwritten ++ str " (policy=" ++ (if drop_new then str "DROP_NEW" else str "OVERWRITE_OLDEST") ++
       str ")")).

(** ** Levels *)

Definition tolower (c : Z) : Z := if (65 <=? c) && (c <=? 90) then c + 32 else c.
Definition strcasecmp_eq (a b : list Z) : bool := bool_decide (tolower <$> a = tolower <$> b).

Definition po_logger_level_from_str (s : list Z) : Z :=
  if strcasecmp_eq s (str "TRACE") then LOG_TRACE
  else if strcasecmp_eq s (str "DEBUG") then LOG_DEBUG
  else if strcasecmp_eq s (str "INFO") then LOG_INFO
  else if strcasecmp_eq s (str "WARN") then LOG_WARN
  else if strcasecmp_eq s (str "ERROR") then LOG_ERROR
  else if strcasecmp_eq s (str "FATAL") then LOG_FATAL
  else -1.

(** [LOG_CRIT], [LOG_ERR], [LOG_WARNING], [LOG_INFO], [LOG_DEBUG] of syslog. *)
Definition syslog_priority_for_level (lvl : Z) : Z :=
  if lvl =? LOG_FATAL then 2
  else if lvl =? LOG_ERROR then 3
  else if lvl =? LOG_WARN then 4
  else if lvl =? LOG_INFO then 6
  else 7.

(** The new level, or [None] for [EINVAL]. *)
Definition po_logger_set_level (level : Z) : option Z :=
  if (level <? LOG_TRACE) || (LOG_FATAL <? level) then None else Some level.

(** [po_logger_log]: does the call reach [po_logger_logv]? *)
Definition LOGGER_COMPILE_LEVEL : Z := LOG_TRACE.
Definition po_logger_log_passes (runtime_level level : Z) : bool :=
  negb ((level <? LOGGER_COMPILE_LEVEL) || (level <? runtime_level)).

(** ** Sinks *)

Definition LOGGER_SINK_CONSOLE : Z := 1.
Definition LOGGER_SINK_FILE : Z := 2.
Definition LOGGER_SINK_SYSLOG : Z := 4.
Definition LOGGER_SINK_STDOUT : Z := 8.
Definition LOGGER_SINK_STDERR : Z := 16.

Record sinks : Type := mk_sinks {
  sinks_mask : Z;
  file_sinks : list Z;       (* category masks, newest first *)
  syslog_open : bool;
  custom_sinks : nat
}.

Definition no_sinks : sinks := mk_sinks 0 [] false 0.

Definition po_logger_add_sink_console (s : sinks) (use_stderr : bool) : sinks :=
  mk_sinks (Z.lor (sinks_mask s) (if use_stderr then LOGGER_SINK_STDERR else LOGGER_SINK_STDOUT))
    (file_sinks s) (syslog_open s) (custom_sinks s).

(** [fopen_ok]: the file could be opened.  [None] is the result -1. *)
Definition po_logger_add_sink_file_categorized (s : sinks) (category_mask : Z) (fopen_ok : bool) : alloc (option sinks) :=
  if negb fopen_ok then mret None
  else
    ok ← malloc;
    mret (if negb ok then None
          else Some (mk_sinks (Z.lor (sinks_mask s) LOGGER_SINK_FILE) (category_mask :: file_sinks s)
                       (syslog_open s) (custom_sinks s))).
Definition po_logger_add_sink_file (s : sinks) (fopen_ok : bool) : alloc (option sinks) :=
  po_logger_add_sink_file_categorized s 0 fopen_ok.
Definition po_logger_add_sink_syslog (s : sinks) : sinks :=
  mk_sinks (Z.lor (sinks_mask s) LOGGER_SINK_SYSLOG) (file_sinks s) true (custom_sinks s).
Definition po_logger_add_sink_custom (s : sinks) : alloc (option sinks) :=
  ok ← malloc;
  mret (if negb ok then None
        else Some (mk_sinks (sinks_mask s) (file_sinks s) (syslog_open s) (S (custom_sinks s)))).

Inductive output : Type :=
| ToStderr (line : list Z)
| ToStdout (line : list Z)
| ToFile (sink : nat) (line : list Z)
| ToSyslog (priority : Z) (text : list Z)
| ToCustom (sink : nat) (line : list Z).

(** [fs->mask == 0 || (fs->mask & (1u << r->category))]; [None] is a shift by
    the width of its type or more. *)
Definition file_sink_takes (mask category : Z) : option bool :=
  if mask =? 0 then Some true
  else if category <? 32 then Some (negb (Z.land mask (2 ^ category) =? 0))
  else None.

Fixpoint file_outputs (masks : list Z) (n : nat) (category : Z) (line : list Z) : option (list output) :=
  match masks with
  | [] => Some []
  | mask :: masks =>
      takes ← file_sink_takes mask category;
      rest ← file_outputs masks (S n) category line;
      Some (if (takes : bool) then ToFile n line :: rest else rest)
  end.

(** File and custom sinks are numbered from the head of their lists. *)
Definition write_record (stamp : Z → list Z) (c : ts_cache) (s : sinks) (r : log_record) :
    option (list output * ts_cache) :=
  let '(line, c) := record_format_line stamp c r in
  files ← file_outputs (file_sinks s) 0 (rec_category r) line;
  Some ((if Z.land (sinks_mask s) (Z.lor LOGGER_SINK_CONSOLE LOGGER_SINK_STDERR) =? 0 then [] else [ToStderr line]) ++
        (if Z.land (sinks_mask s) LOGGER_SINK_STDOUT =? 0 then [] else [ToStdout line]) ++ files ++
        (if negb (Z.land (sinks_mask s) LOGGER_SINK_SYSLOG =? 0) && syslog_open s
         then [ToSyslog (syslog_priority_for_level (rec_level r))
                 (rec_file r ++ str ":" ++ dec_int (rec_line r) ++ str " " ++ rec_func r ++ str "() - " ++ rec_msg r)]
         else []) ++
        ((λ n, ToCustom n line) <$> seq 0 (custom_sinks s)), c).

(** One record of [po_logger_crash_dump]; [lvl] is written as 5 characters. *)
Definition crash_dump_record (r : log_record) : list Z :=
  str "[" ++ (if (0 <=? rec_level r) && (rec_level r <=? 5) then level_name (rec_level r) else str "UNKNO") ++ str "] " ++
  (match rec_func r with [] => [] | _ => rec_func r ++ str " - " end) ++ rec_msg r ++ [10].

(** The dump of the records in the ring, oldest first; [None] is the sentinel. *)
Definition po_logger_crash_dump (ring : list (option log_record)) : list Z :=
  10 :: str "--- Pending Log Messages (Ring Buffer Dump) ---" ++ [10] ++
  concat ((λ o, match o with Some r => crash_dump_record r | None => [] end) <$> ring) ++
  str "--- End of Pending Logs ---" ++ [10].

(** ** Specification *)

(** The number a string of digits stands for. *)
Definition of_decimal (ds : list Z) : Z := foldl (λ n d, 10 * n + (d - 48)) 0 ds.
Definition is_digit (c : Z) : Prop := 48 <= c <= 57.

(** The sizes of the fields of a record. *)
Record record_ok (r : log_record) : Prop := mk_record_ok {
  ro_tid : 0 <= rec_tid r < 2 ^ 64;
  ro_file : (length (rec_file r) < 64)%nat;
  ro_func : (length (rec_func r) < 32)%nat;
  ro_msg : (length (rec_msg r) < MSG_MAX)%nat
}.

(** A line without the cache. *)
Definition line_of (stamp : Z → list Z) (r : log_record) : list Z :=
  take 19 (stamp (ts_sec r)) ++ str "." ++ fast_pad6 (Z.quot (ts_nsec r) 1000) ++ str " " ++ fast_utoa10 (rec_tid r) ++
  str " " ++ level_name (rec_level r) ++ str " " ++ rec_file r ++ str ":" ++ fast_utoa10 (u64 (rec_line r)) ++
  str " " ++ rec_msg r ++ [10].

(** ** Lemmas *)

Lemma of_decimal_app a b : of_decimal (a ++ b) = of_decimal a * 10 ^ Z.of_nat (length b) + of_decimal b.
Proof.
  unfold of_decimal. rewrite foldl_app. generalize (foldl (λ n d, 10 * n + (d - 48)) 0 a) as x. clear a.
  induction b as [|d b IH] using rev_ind; intros x; [simpl; lia|].
  rewrite !foldl_app, IH, length_app. cbn [foldl length]. rewrite Nat.add_1_r, Nat2Z.inj_succ, Z.pow_succ_r by lia. lia.
Qed.

Lemma of_decimal_rev_cons d ds : of_decimal (rev (d :: ds)) = 10 * of_decimal (rev ds) + (d - 48).
Proof.
  cbn [rev]. rewrite of_decimal_app. change (10 ^ Z.of_nat (length [d])) with 10.
  change (of_decimal [d]) with (10 * 0 + (d - 48)). lia.
Qed.

Lemma mod_digit v : is_digit (v mod 10 + 48).
Proof. unfold is_digit. pose proof (Z.mod_pos_bound v 10). lia. Qed.

Lemma digits_all fuel v : Forall is_digit (utoa_digits fuel v).
Proof.
  revert v. induction fuel as [|fuel IH]; intros v; cbn [utoa_digits]; [constructor|].
  destruct (0 <? v); constructor; [apply mod_digit|apply IH].
Qed.

Lemma utoa_digits_spec fuel n v :
  0 <= v < 10 ^ Z.of_nat n → (n <= fuel)%nat →
  of_decimal (rev (utoa_digits fuel v)) = v ∧ (length (utoa_digits fuel v) <= n)%nat.
Proof.
  revert n v. induction fuel as [|fuel IH]; intros n v Hv Hn.
  { assert (n = 0%nat) as -> by lia. simpl in Hv. by replace v with 0 by lia. }
  cbn [utoa_digits]. destruct (Z.ltb_spec 0 v) as [Hp|Hp].
  2: { replace v with 0 by lia. split; [done|simpl; lia]. }
  destruct n as [|n]; [simpl in Hv; lia|]. rewrite Nat2Z.inj_succ, Z.pow_succ_r in Hv by lia.
  destruct (IH n (v / 10)) as [E Hl]; [|lia|].
  { split; [apply Z.div_pos; lia|apply Z.div_lt_upper_bound; lia]. }
  split; [|simpl; lia]. rewrite of_decimal_rev_cons, E. pose proof (Z.div_mod v 10). lia.
Qed.

Lemma fast_utoa10_spec v :
  0 <= v < 2 ^ 64 → of_decimal (fast_utoa10 v) = v ∧ (1 <= length (fast_utoa10 v) <= 20)%nat ∧
    Forall is_digit (fast_utoa10 v).
Proof.
  intros Hv. unfold fast_utoa10. destruct (Z.eqb_spec v 0) as [->|Hne].
  { split_and!; [done|simpl; lia|simpl; lia|]. repeat constructor; unfold is_digit; lia. }
  destruct (utoa_digits_spec 24 20 v) as [E Hl]; [|lia|].
  { split; [lia|]. apply (Z.lt_trans _ (2 ^ 64)); [lia|]. vm_compute. reflexivity. }
  split_and!; [done| |by rewrite length_rev|apply Forall_rev, digits_all].
  rewrite length_rev. cbn [utoa_digits]. destruct (Z.ltb_spec 0 v); simpl; lia.
Qed.

Lemma pad_digits_spec k v :
  0 <= v → of_decimal (rev (pad_digits k v)) = v mod 10 ^ Z.of_nat k ∧ length (pad_digits k v) = k ∧
    Forall is_digit (pad_digits k v).
Proof.
  revert v. induction k as [|k IH]; intros v Hv; cbn [pad_digits].
  { split_and!; [by rewrite Z.mod_1_r|done|constructor]. }
  destruct (IH (v / 10)) as (E & Hl & Hd); [apply Z.div_pos; lia|].
  split_and!; [|simpl; lia|constructor; [apply mod_digit|done]].
  rewrite of_decimal_rev_cons, E, Nat2Z.inj_succ, Z.pow_succ_r by lia.
  rewrite Z.rem_mul_r by (pose proof (Z.pow_pos_nonneg 10 (Z.of_nat k)); lia). lia.
Qed.

Lemma length_pad6 v : length (fast_pad6 v) = 6%nat.
Proof. reflexivity. Qed.

Lemma length_level_name l : length (level_name l) = 5%nat.
Proof. unfold level_name. by repeat case_match. Qed.

Lemma copy_file_suffix f : copy_file (Some f) `suffix_of` f ∧ length (copy_file (Some f)) = Nat.min 63 (length f).
Proof.
  unfold copy_file. destruct (Nat.leb_spec 64 (length f)).
  - split; [|rewrite length_drop; lia]. exists (take (length f - 63) f). by rewrite take_drop.
  - rewrite take_ge by lia. split; [by exists []|lia].
Qed.

Lemma land_pred_pow2 v : 0 < v → Z.land v (v - 1) = 0 → ∃ k, 0 <= k ∧ v = 2 ^ k.
Proof.
  intros Hv Hl. exists (Z.log2 v). split; [apply Z.log2_nonneg|].
  destruct (Z.log2_spec v Hv) as [Hlo Hhi]. destruct (decide (v = 2 ^ Z.log2 v)) as [|Hne]; [done|]. exfalso.
  assert (Z.testbit (Z.land v (v - 1)) (Z.log2 v) = true) as Hb; [|by rewrite Hl, Z.bits_0 in Hb].
  rewrite Z.land_spec, Z.bit_log2 by done. cbn [andb].
  replace (Z.log2 v) with (Z.log2 (v - 1)); [apply Z.bit_log2; pose proof (Z.log2_nonneg v); pose proof (Z.pow_pos_nonneg 2 (Z.log2 v)); lia|].
  apply Z.log2_unique; [apply Z.log2_nonneg|lia].
Qed.

Lemma land_pow2_testbit m k : 0 <= k → negb (Z.land m (2 ^ k) =? 0) = Z.testbit m k.
Proof.
  intros Hk. assert (Z.land m (2 ^ k) = if Z.testbit m k then 2 ^ k else 0) as ->.
  { apply Z.bits_inj'. intros n Hn. rewrite Z.land_spec, Z.pow2_bits_eqb by lia.
    destruct (Z.eqb_spec k n) as [->|Hne].
    - destruct (Z.testbit m n); [|by rewrite Z.bits_0]. by rewrite Z.pow2_bits_true.
    - rewrite andb_false_r. destruct (Z.testbit m k); [|by rewrite Z.bits_0]. by rewrite Z.pow2_bits_false. }
  destruct (Z.testbit m k); [|done]. pose proof (Z.pow_pos_nonneg 2 k). by rewrite (proj2 (Z.eqb_neq _ _)) by lia.
Qed.

Lemma elem_of_unless {A} (b : bool) (x y : A) : x ∈ (if b then [] else [y]) ↔ b = false ∧ x = y.
Proof. destruct b; [rewrite elem_of_nil|rewrite list_elem_of_singleton]; naive_solver. Qed.

Lemma elem_of_when {A} (b : bool) (x y : A) : x ∈ (if b then [y] else []) ↔ b = true ∧ x = y.
Proof. destruct b; [rewrite list_elem_of_singleton|rewrite elem_of_nil]; naive_solver. Qed.

Lemma land_pow2_zero m k : 0 <= k → (Z.land m (2 ^ k) =? 0) = negb (Z.testbit m k).
Proof. intros Hk. rewrite <- land_pow2_testbit by done. by rewrite negb_involutive. Qed.

Lemma land_17 m : (Z.land m 17 =? 0) = negb (Z.testbit m 0 || Z.testbit m 4).
Proof.
  change 17 with (Z.lor (2 ^ 0) (2 ^ 4)). rewrite Z.land_lor_distr_r, negb_orb, <- !land_pow2_zero by lia.
  apply eq_true_iff_eq. rewrite andb_true_iff, !Z.eqb_eq. apply Z.lor_eq_0_iff.
Qed.

(** The file sinks a line goes to. *)
Lemma file_outputs_spec category line : 0 <= category < 32 → ∀ masks n, ∃ outs,
  file_outputs masks n category line = Some outs ∧
  ∀ o, o ∈ outs ↔ ∃ i mask, o = ToFile (n + i) line ∧ masks !! i = Some mask ∧
    (mask = 0 ∨ Z.testbit mask category = true).
Proof.
  intros Hc masks. induction masks as [|mask masks IH]; intros n.
  - exists []. split; [done|]. intros o. split; [by intros ?%not_elem_of_nil|]. by intros (i & m & _ & ? & _).
  - destruct (IH (S n)) as (outs & E & Ho).
    assert (∃ b : bool, file_sink_takes mask category = Some b ∧
      (b = true ↔ mask = 0 ∨ Z.testbit mask category = true)) as (b & Eb & Hb).
    { unfold file_sink_takes. destruct (Z.eqb_spec mask 0); [exists true; tauto|].
      rewrite (proj2 (Z.ltb_lt _ _)) by lia. eexists. split; [done|]. rewrite land_pow2_testbit by lia. tauto. }
    cbn [file_outputs]. rewrite Eb, E. cbn [mbind option_bind]. eexists. split; [done|]. intros o.
    assert (o ∈ outs ↔ ∃ i mask0, o = ToFile (n + S i) line ∧ (mask :: masks) !! S i = Some mask0 ∧
      (mask0 = 0 ∨ Z.testbit mask0 category = true)) as Hrest.
    { rewrite Ho. setoid_rewrite Nat.add_succ_r. done. }
    split.
    + destruct b; [rewrite elem_of_cons; intros [-> |Hin]|intros Hin].
      * exists 0%nat, mask. rewrite Nat.add_0_r. tauto.
      * apply Hrest in Hin as (i & m & ?). by exists (S i), m.
      * apply Hrest in Hin as (i & m & ?). by exists (S i), m.
    + intros ([|i] & m & -> & Hm & Hsel).
      * simpl in Hm. simplify_eq. rewrite (proj2 Hb Hsel), Nat.add_0_r. left.
      * assert (ToFile (n + S i) line ∈ outs) as Hin by (apply Hrest; eauto). destruct b; [by right|done].
Qed.

(** ** Properties *)

(** The decimal conversions are right and stay in their buffers: the digits
    written for a 64-bit number read back as the number, at most 20 of them; the
    padded form has six digits and is exact below a million. *)
Theorem logger_decimal_roundtrip (v usec : Z) :
  0 <= v < 2 ^ 64 → 0 <= usec < 1000000 →
  of_decimal (fast_utoa10 v) = v ∧ (1 <= length (fast_utoa10 v) <= 20)%nat ∧ Forall is_digit (fast_utoa10 v) ∧
  of_decimal (fast_pad6 usec) = usec ∧ length (fast_pad6 usec) = 6%nat ∧ Forall is_digit (fast_pad6 usec).
Proof.
  intros Hv Hu. destruct (fast_utoa10_spec v Hv) as (? & [? ?] & ?).
  unfold fast_pad6. rewrite (proj2 (Z.ltb_ge _ _)) by lia.
  destruct (pad_digits_spec 6 usec ltac:(lia)) as (E & Hl & Hd).
  split_and!; try done; [|by apply Forall_rev].
  rewrite E. by apply Z.mod_small.
Qed.

Lemma logger_decimal_roundtrip_witness :
  fast_utoa10 18446744073709551615 = str "18446744073709551615" ∧ of_decimal (fast_utoa10 9070) = 9070.
Proof. split; [vm_compute; reflexivity|]. apply (logger_decimal_roundtrip 9070 5); lia. Defined.

(** C34. No line overruns its buffer: however long path, function name and message
    are, a filled record keeps to its fields, and its line with the terminating
    zero fits in [MAX_RECORD_SIZE] although the code never checks the size. *)
Theorem logger_line_fits (stamp : Z → list Z) (c : ts_cache) (sec nsec tid level category line : Z)
    (file func : option (list Z)) (text : list Z) :
  0 <= tid < 2 ^ 64 →
  let r := fill_record sec nsec tid level category line file func text in
  record_ok r ∧ (length (record_format_line stamp c r).1 < MAX_RECORD_SIZE)%nat.
Proof.
  intros Ht r. assert (record_ok r) as Hok.
  { split; simpl; [done| | |rewrite length_take; unfold MSG_MAX; lia].
    - destruct file as [f|]; [|simpl; lia]. rewrite (proj2 (copy_file_suffix f)). lia.
    - unfold copy_func. rewrite length_take. lia. }
  split; [done|]. destruct Hok as [_ Hf _ Hm]. unfold record_format_line. cbn [fst].
  rewrite !length_app, length_take, length_pad6, length_level_name.
  destruct (fast_utoa10_spec (rec_tid r) Ht) as (_ & [_ Hl1] & _).
  destruct (fast_utoa10_spec (u64 (rec_line r)) (u64_range _)) as (_ & [_ Hl2] & _).
  change (length (str ".")) with 1%nat. change (length (str " ")) with 1%nat. change (length (str ":")) with 1%nat.
  cbn [length]. unfold MAX_RECORD_SIZE, MSG_MAX in *. lia.
Qed.

Lemma logger_line_fits_witness :
  let r := fill_record 1 5000 77 2 0 (-1) (Some (replicate 200 65%Z)) None (replicate 1000 66%Z) in
  record_ok r ∧ (length (record_format_line (λ _, replicate 19 48%Z) empty_cache r).1 < MAX_RECORD_SIZE)%nat.
Proof. apply (logger_line_fits (λ _, replicate 19 48%Z) empty_cache 1 5000 77). lia. Defined.

(** The cached time stamp never shows: for any sequence of records of one
    thread, the lines are the ones formatted without the cache (records of
    second 0 excepted, for which the empty cache passes as valid). *)
Theorem logger_cache_equivalent (stamp : Z → list Z) (rs : list log_record) :
  Forall (λ r, ts_sec r ≠ 0) rs → format_all stamp empty_cache rs = line_of stamp <$> rs.
Proof.
  intros H. assert (∀ c, cache_sec c = 0 ∨ cache_ts c = stamp (cache_sec c) →
    format_all stamp c rs = line_of stamp <$> rs) as Hgen; [|by apply Hgen; left].
  induction H as [|r rs Hr _ IH]; intros c Hc; [done|]. cbn [format_all record_format_line fmap list_fmap].
  destruct (Z.eqb_spec (ts_sec r) (cache_sec c)) as [E|E].
  - destruct Hc as [Hc|Hc]; [congruence|]. f_equal; [|apply IH; by right]. unfold line_of. by rewrite Hc, E.
  - f_equal. apply IH. by right.
Qed.

Lemma logger_cache_equivalent_witness :
  let r n := mk_record n 1 7 2 0 [] [] 3 [72; 105] in
  let stamp n := fast_pad6 n ++ replicate 13 58%Z in
  format_all stamp empty_cache [r 5; r 5; r 6] = line_of stamp <$> [r 5; r 5; r 6].
Proof. apply (logger_cache_equivalent (λ n, fast_pad6 n ++ replicate 13 58%Z)). by repeat constructor. Defined.

(** Overflow notices are due exactly at the powers of two. *)
Theorem overflow_notice_powers_of_two (v : Z) :
  0 <= v < 2 ^ 64 → should_emit_overflow_notice v = true ↔ ∃ k, 0 <= k ∧ v = 2 ^ k.
Proof.
  intros Hv. unfold should_emit_overflow_notice. rewrite andb_true_iff, negb_true_iff, Z.eqb_neq, Z.eqb_eq. split.
  - intros [Hne Hl]. rewrite u64_small in Hl by lia. apply land_pred_pow2; [lia|done].
  - intros (k & Hk & ->). pose proof (Z.pow_pos_nonneg 2 k). split; [lia|]. rewrite u64_small by lia.
    rewrite Z.sub_1_r, <- Z.ones_equiv, Z.land_ones by lia. by apply Z.mod_same, Z.pow_nonzero.
Qed.

(** The name of every level is read back as the level, in any case of letters. *)
Theorem level_names_roundtrip (s : list Z) :
  po_logger_level_from_str (tolower <$> s) = po_logger_level_from_str s ∧
  (po_logger_level_from_str <$> [str "trace"; str "Debug"; str "INFO"; str "warn"; str "ERROR"; str "fatal"; str "loud"]) =
    [LOG_TRACE; LOG_DEBUG; LOG_INFO; LOG_WARN; LOG_ERROR; LOG_FATAL; -1].
Proof.
  split; [|reflexivity].
  assert (∀ t, strcasecmp_eq (tolower <$> s) t = strcasecmp_eq s t) as H.
  { intros t. unfold strcasecmp_eq. rewrite <- list_fmap_compose.
    assert (tolower ∘ tolower <$> s = tolower <$> s) as ->; [|done].
    apply list_fmap_ext. intros i x _. simpl. unfold tolower.
    destruct ((65 <=? x) && (x <=? 90)) eqn:E; [|by rewrite E].
    destruct ((65 <=? x + 32) && (x + 32 <=? 90)) eqn:E2; lia. }
  unfold po_logger_level_from_str. by rewrite !H.
Qed.

(** A record reaches every configured sink and no other: standard error and
    output and the system log when enabled, each custom sink once, and the file
    sinks whose category mask is empty or contains the record's category; for a
    category below 32 the choice is always defined. *)
Theorem logger_sinks_complete (stamp : Z → list Z) (c : ts_cache) (s : sinks) (r : log_record) :
  0 <= rec_category r < 32 →
  ∃ outs c', write_record stamp c s r = Some (outs, c') ∧ let line := (record_format_line stamp c r).1 in
    (∀ l, ToStderr l ∈ outs ↔ l = line ∧ (Z.testbit (sinks_mask s) 0 = true ∨ Z.testbit (sinks_mask s) 4 = true)) ∧
    (∀ l, ToStdout l ∈ outs ↔ l = line ∧ Z.testbit (sinks_mask s) 3 = true) ∧
    (∀ n l, ToFile n l ∈ outs ↔ l = line ∧ ∃ mask, file_sinks s !! n = Some mask ∧
        (mask = 0 ∨ Z.testbit mask (rec_category r) = true)) ∧
    (∀ n l, ToCustom n l ∈ outs ↔ l = line ∧ (n < custom_sinks s)%nat).
Proof.
  intros Hc. unfold write_record. destruct (record_format_line stamp c r) as [line c'] eqn:El. cbn [fst].
  destruct (file_outputs_spec (rec_category r) line Hc (file_sinks s) 0) as (outs & E & Ho).
  rewrite E. cbn [mbind option_bind]. eexists _, _. split; [done|].
  change (Z.lor LOGGER_SINK_CONSOLE LOGGER_SINK_STDERR) with 17. change LOGGER_SINK_STDOUT with (2 ^ 3).
  split_and!; intros; rewrite !elem_of_app, !elem_of_unless, Ho, elem_of_when, list_elem_of_fmap;
    setoid_rewrite elem_of_seq; rewrite land_17, land_pow2_zero by lia;
    rewrite !negb_false_iff, orb_true_iff; cbn [Nat.add]; clear Ho E El; (split; [naive_solver lia|]);
    try naive_solver. intros [-> Hn]. do 4 right. exists n. split; [done|lia].
Qed.

Lemma logger_sinks_complete_witness :
  let s := mk_sinks 16 [2; 0; 4] false 1 in
  let r := mk_record 1 1 7 2 1 [] [] 3 [72] in
  ∃ outs c', write_record (λ _, replicate 19 48%Z) empty_cache s r = Some (outs, c') ∧ length outs = 4%nat.
Proof.
  destruct (logger_sinks_complete (λ _, replicate 19 48%Z) empty_cache (mk_sinks 16 [2; 0; 4] false 1)
    (mk_record 1 1 7 2 1 [] [] 3 [72]) ltac:(simpl; lia)) as (outs & c' & E & _).
  exists outs, c'. split; [exact E|]. vm_compute in E. by injection E as <- _.
Defined.

(** A category of 32 or more makes the choice of the file sinks undefined. *)
Theorem logger_category_shift (mask category : Z) :
  mask ≠ 0 → 32 <= category → file_sink_takes mask category = None.
Proof.
  intros Hm Hc. unfold file_sink_takes. by rewrite (proj2 (Z.eqb_neq _ _)), (proj2 (Z.ltb_ge _ _)) by lia.
Qed.
