(* ===== verification/Logger.v ===== *)
(** * The logger's queues and threads ([app/libs/ring2/postoffice/log/logger.c])

    A pool of records circulates between a free list, the threads that log, the
    ready queue and the workers that write.  The pool is a shared store indexed
    by record number; queues carry numbers, so that a record used by two threads
    at once would show in its contents.  [None] in a queue is the shutdown
    marker.  The queues are the bounded FIFOs [Ringbuf] refines, the event
    counter that of [Batcher].  As [logger.h] demands, shutdown begins after the
    logging threads are done.  [LoggerFormat] has what happens to one record. *)

From Stdlib Require Import ZArith Lia.
From stdpp Require Import base list numbers functions sets.
From S2P Require Import Prelude LoggerFormat.

Local Open Scope Z_scope.

(** A thread in [po_logger_logv]: with a record to fill, with a filled record,
    before the overflow notice. *)
Inductive producer_pc (msg : Type) : Type :=
| PFilling (i : nat) (m : msg)
| PFilled (i : nat) (m : msg)
| PNoticing.
Arguments PFilling {msg}. Arguments PFilled {msg}. Arguments PNoticing {msg}.

(** A thread in [worker_main]: at the loop test, in [perf_batcher_next], with
    records to write, with a written record, draining, returned.  [drain] tells
    a batch from a record of the final drain. *)
Inductive logger_pc : Type :=
| WTop
| WWait
| WWrite (drain : bool) (items : list (option nat))
| WRecycle (drain : bool) (i : nat) (items : list (option nat))
| WDrain
| WDone.

#[export] Instance logger_pc_eq_dec : EqDecision logger_pc.
Proof. solve_decision. Defined.

(** [po_logger_shutdown]: not called, [k] markers to enqueue, joining, returned. *)
Inductive shutdown_pc : Type := Up | Waking (k : nat) | JoiningWorkers | Down.

Section logger.
Context {msg : Type} (cap : nat) (drop_new : bool) (notice : Z → Z → msg) (interrupts : bool).

Record logger : Type := mk_logger {
  g_ring : list (option nat);
  g_efd : nat;
  g_free : list (option nat);
  g_pool : nat → msg;
  g_running : bool;
  g_dropped_new : Z;
  g_overwritten_old : Z;
  g_producers : list (producer_pc msg);
  g_workers : list logger_pc;
  g_shutdown : shutdown_pc;
  g_woken : nat;              (* markers that were enqueued *)
  g_logged : list msg;        (* messages in the order of their enqueue *)
  g_written : list msg;       (* written by the workers *)
  g_direct : list msg         (* written by the logging threads themselves *)
}.

Definition with_queues (s : logger) ring efd free dropped overwritten : logger :=
  mk_logger ring efd free (g_pool s) (g_running s) dropped overwritten (g_producers s) (g_workers s)
    (g_shutdown s) (g_woken s) (g_logged s) (g_written s) (g_direct s).
Definition with_records (s : logger) i m : logger :=
  mk_logger (g_ring s) (g_efd s) (g_free s) (<[i := m]> (g_pool s)) (g_running s) (g_dropped_new s)
    (g_overwritten_old s) (g_producers s) (g_workers s) (g_shutdown s) (g_woken s) (g_logged s) (g_written s) (g_direct s).
Definition with_threads (s : logger) producers workers : logger :=
  mk_logger (g_ring s) (g_efd s) (g_free s) (g_pool s) (g_running s) (g_dropped_new s)
    (g_overwritten_old s) producers workers (g_shutdown s) (g_woken s) (g_logged s) (g_written s) (g_direct s).
Definition with_output (s : logger) logged written direct : logger :=
  mk_logger (g_ring s) (g_efd s) (g_free s) (g_pool s) (g_running s) (g_dropped_new s)
    (g_overwritten_old s) (g_producers s) (g_workers s) (g_shutdown s) (g_woken s) logged written direct.
Definition with_shutdown (s : logger) running shutdown woken : logger :=
  mk_logger (g_ring s) (g_efd s) (g_free s) (g_pool s) running (g_dropped_new s)
    (g_overwritten_old s) (g_producers s) (g_workers s) shutdown woken (g_logged s) (g_written s) (g_direct s).

(** [perf_ringbuf_enqueue(g_free, r)], result ignored. *)
Definition recycle_record (free : list (option nat)) (r : option nat) : list (option nat) :=
  if (length free <? cap)%nat then free ++ [r] else free.

(** Queued with an event; or dropped; or in place of the oldest record. *)
Definition enqueue_record (s : logger) (i : nat) (m : msg) : logger :=
  if (length (g_ring s) <? cap)%nat then
    with_output (with_queues s (g_ring s ++ [Some i]) (S (g_efd s)) (g_free s) (g_dropped_new s) (g_overwritten_old s))
      (g_logged s ++ [m]) (g_written s) (g_direct s)
  else if drop_new then
    with_queues s (g_ring s) (g_efd s) (recycle_record (g_free s) (Some i)) (u64 (g_dropped_new s + 1)) (g_overwritten_old s)
  else
    match g_ring s with
    | [] => s
    | old :: ring =>
        with_output (with_queues s (ring ++ [Some i]) (S (g_efd s)) (recycle_record (g_free s) old)
          (g_dropped_new s) (u64 (g_overwritten_old s + 1))) (g_logged s ++ [m]) (g_written s) (g_direct s)
    end.

(** The end of [po_logger_logv]: the notice takes a record of its own and is
    queued without an event, or is written directly. *)
Definition emit_notice (s : logger) : logger :=
  if should_emit_overflow_notice (g_dropped_new s) || should_emit_overflow_notice (g_overwritten_old s) then
    let n := notice (g_dropped_new s) (g_overwritten_old s) in
    match g_free s with
    | Some i :: free =>
        if (length (g_ring s) <? cap)%nat then
          with_output (with_records (with_queues s (g_ring s ++ [Some i]) (g_efd s) free (g_dropped_new s) (g_overwritten_old s)) i n)
            (g_logged s ++ [n]) (g_written s) (g_direct s)
        else
          with_output (with_records (with_queues s (g_ring s) (g_efd s) (recycle_record free (Some i)) (g_dropped_new s)
            (g_overwritten_old s)) i n) (g_logged s) (g_written s) (g_direct s ++ [n])
    | _ => with_output s (g_logged s) (g_written s) (g_direct s ++ [n])
    end
  else s.

(** One step of a logging thread that has a record; [None]: the call returns. *)
Definition producer_step (s : logger) (p : producer_pc msg) : logger * option (producer_pc msg) :=
  match p with
  | PFilling i m => (with_records s i m, Some (PFilled i m))
  | PFilled i m => (enqueue_record s i m, Some PNoticing)
  | PNoticing => (emit_notice s, None)
  end.

(** The start of [po_logger_logv]: take a record, or count the message as lost. *)
Definition log_begin (s : logger) (m : msg) : logger :=
  match g_free s with
  | Some i :: free =>
      with_threads (with_queues s (g_ring s) (g_efd s) free (g_dropped_new s) (g_overwritten_old s))
        (g_producers s ++ [PFilling i m]) (g_workers s)
  | _ =>
      let dropped := u64 (g_dropped_new s + 1) in
      let s := with_queues s (g_ring s) (g_efd s) (g_free s) dropped (g_overwritten_old s) in
      if should_emit_overflow_notice dropped
      then with_output s (g_logged s) (g_written s) (g_direct s ++ [notice dropped (g_overwritten_old s)])
      else s
  end.

(** One step of a worker; [None] while it waits for an event. *)
Definition worker_step (s : logger) (w : logger_pc) : option (logger * logger_pc) :=
  match w with
  | WTop => Some (s, if g_running s then WWait else WDrain)
  | WWait =>
      match g_efd s with
      | O => None
      | S efd => Some (with_queues s (drop 256 (g_ring s)) efd (g_free s) (g_dropped_new s) (g_overwritten_old s),
                       WWrite false (take 256 (g_ring s)))
      end
  | WWrite drain [] => Some (s, if drain : bool then WDrain else WTop)
  | WWrite drain (None :: items) => Some (s, WWrite drain items)
  | WWrite drain (Some i :: items) =>
      Some (with_output s (g_logged s) (g_written s ++ [g_pool s i]) (g_direct s), WRecycle drain i items)
  | WRecycle drain i items =>
      Some (with_queues s (g_ring s) (g_efd s) (recycle_record (g_free s) (Some i)) (g_dropped_new s) (g_overwritten_old s),
            WWrite drain items)
  | WDrain =>
      match g_ring s with
      | [] => Some (s, WDone)
      | x :: ring => Some (with_queues s ring (g_efd s) (g_free s) (g_dropped_new s) (g_overwritten_old s), WWrite true [x])
      end
  | WDone => None
  end.

(** The next step of [po_logger_shutdown]; joining waits for every worker. *)
Definition shutdown_step (s : logger) : option logger :=
  match g_shutdown s with
  | Up => Some (with_shutdown s false (Waking (length (g_workers s))) (g_woken s))
  | Waking O => Some (with_shutdown s (g_running s) JoiningWorkers (g_woken s))
  | Waking (S k) =>
      if (length (g_ring s) <? cap)%nat then
        Some (with_shutdown (with_queues s (g_ring s ++ [None]) (S (g_efd s)) (g_free s) (g_dropped_new s) (g_overwritten_old s))
          (g_running s) (Waking k) (S (g_woken s)))
      else Some (with_shutdown s (g_running s) (Waking k) (g_woken s))
  | JoiningWorkers =>
      if forallb (λ w, match w with WDone => true | _ => false end) (g_workers s)
      then Some (with_shutdown s (g_running s) Down (g_woken s)) else None
  | Down => None
  end.

Inductive log_step : logger → logger → Prop :=
| ls_begin s m : g_shutdown s = Up → log_step s (log_begin s m)
| ls_producer s before p after s' op :
    g_producers s = before ++ p :: after → producer_step s p = (s', op) →
    log_step s (with_threads s' (before ++ option_list op ++ after) (g_workers s'))
| ls_worker s i w s' w' :
    g_workers s !! i = Some w → worker_step s w = Some (s', w') →
    log_step s (with_threads s' (g_producers s') (<[i := w']> (g_workers s')))
| ls_interrupt s i :   (* a failed read of the event descriptor *)
    interrupts = true → g_workers s !! i = Some WWait → log_step s (with_threads s (g_producers s) (<[i := WTop]> (g_workers s)))
| ls_shutdown s s' :
    (g_shutdown s = Up → g_producers s = []) → shutdown_step s = Some s' → log_step s s'.

(** [po_logger_init] with [n] consumers: all records but one are free; [pool0]
    is what [calloc] left in them. *)
Definition po_logger_init (n : nat) (pool0 : nat → msg) : logger :=
  mk_logger [] 0 (Some <$> seq 0 (cap - 1)) pool0 true 0 0 [] (replicate n WTop) Up 0 [] [] [].
End logger.
Arguments logger msg : clear implicits.

(** ** Specification *)

(** Record numbers in a queue, owned by a logging thread, by a worker; the ones
    a worker has yet to write. *)
Definition ids (q : list (option nat)) : list nat := omap id q.
Definition producer_ids {msg} (p : producer_pc msg) : list nat :=
  match p with PFilling i _ | PFilled i _ => [i] | PNoticing => [] end.
Definition worker_ids (w : logger_pc) : list nat :=
  match w with WWrite _ items => ids items | WRecycle _ i items => i :: ids items | _ => [] end.
Definition to_write (w : logger_pc) : list nat :=
  match w with WWrite _ items | WRecycle _ _ items => ids items | _ => [] end.

(** Past the main loop. *)
Definition drains (w : logger_pc) : bool :=
  match w with WWrite d _ | WRecycle d _ _ => d | WDrain | WDone => true | _ => false end.

(** Every record is in exactly one place, and what was queued has been written,
    is with a worker or waits in the queue, unchanged. *)
Record logger_inv {msg} (cap : nat) (s : logger msg) : Prop := mk_logger_inv {
  li_ids : ids (g_ring s) ++ ids (g_free s) ++ concat (producer_ids <$> g_producers s) ++
           concat (worker_ids <$> g_workers s) ≡ₚ seq 0 (cap - 1);
  li_free : Forall is_Some (g_free s);
  li_ring : g_shutdown s = Up → Forall is_Some (g_ring s);
  li_filled : ∀ i m, PFilled i m ∈ g_producers s → g_pool s i = m;
  li_logged : g_logged s ≡ₚ g_written s ++ (g_pool s <$> concat (to_write <$> g_workers s) ++ ids (g_ring s));
  li_overwritten : g_overwritten_old s = 0;
  li_producers : g_shutdown s ≠ Up → g_producers s = [];
  li_running : g_running s = match g_shutdown s with Up => true | _ => false end;
  li_drains : ∀ w, w ∈ g_workers s → drains w = true → g_running s = false;
  li_done : WDone ∈ g_workers s → ids (g_ring s) = []
}.

(** ** Lemmas *)

Arguments ids _ : simpl never.

Lemma ids_some i q : ids (Some i :: q) = i :: ids q.
Proof. done. Qed.
Lemma ids_one i : ids [Some i] = [i].
Proof. done. Qed.
Lemma ids_none q : ids (None :: q) = ids q.
Proof. done. Qed.

Lemma ids_app a b : ids (a ++ b) = ids a ++ ids b.
Proof. apply omap_app. Qed.

Lemma length_ids_all q : Forall is_Some q → length (ids q) = length q.
Proof. induction 1 as [|x q [i ->] _ IH]; [done|]. rewrite ids_some. simpl. by f_equal. Qed.

Lemma ids_take_drop n q : ids (take n q) ++ ids (drop n q) = ids q.
Proof. by rewrite <- ids_app, take_drop. Qed.

Lemma fmap_pool_insert {msg} (pool : nat → msg) i m (l : list nat) : i ∉ l → <[i := m]> pool <$> l = pool <$> l.
Proof.
  intros Hi. apply list_fmap_ext. intros j x Hx. apply fn_lookup_insert_ne. intros ->. apply Hi.
  by eapply list_elem_of_lookup_2.
Qed.

(** Permutations of lists of numbers, by counting. *)
Ltac perm_nat H :=
  apply (Permutation_count_occ Nat.eq_dec);
  let Hx := fresh in pose proof (proj1 (Permutation_count_occ Nat.eq_dec _ _) H) as Hx;
  let x := fresh "x" in intros x; specialize (Hx x); revert Hx;
  rewrite ?count_occ_app; cbn [count_occ app]; rewrite ?count_occ_app;
  repeat (destruct (Nat.eq_dec _ _)); lia.

Section lemmas.
Context {msg : Type} (cap : nat) (Hcap : (2 <= cap)%nat) (drop_new : bool) (notice : Z → Z → msg)
  (interrupts : bool).
Implicit Types (s : logger msg).

Lemma inv_nodup s : logger_inv cap s → NoDup (ids (g_ring s) ++ ids (g_free s) ++
  concat (producer_ids <$> g_producers s) ++ concat (worker_ids <$> g_workers s)).
Proof. intros H. rewrite (li_ids _ _ H). apply NoDup_seq. Qed.

Lemma to_write_owned ws i : i ∈ concat (to_write <$> ws) → i ∈ concat (worker_ids <$> ws).
Proof.
  rewrite !list_elem_of_In, !in_concat. intros (l & Hl & Hi). apply list_elem_of_In, list_elem_of_fmap in Hl as (w & -> & Hw).
  exists (worker_ids w). split; [by apply list_elem_of_In, list_elem_of_fmap; exists w|].
  destruct w; simpl in *; try done. by right.
Qed.

(** The queues are never full while the logger is up. *)
Lemma ring_room s : logger_inv cap s → g_shutdown s = Up → (length (g_ring s) < cap)%nat.
Proof using Hcap.
  intros H Hu. rewrite <- (length_ids_all _ (li_ring _ _ H Hu)). pose proof (li_ids _ _ H) as Hp.
  apply Permutation_length in Hp. rewrite !length_app, length_seq in Hp. lia.
Qed.

Lemma free_room s : logger_inv cap s → (length (g_free s) < cap)%nat.
Proof using Hcap.
  intros H. rewrite <- (length_ids_all _ (li_free _ _ H)). pose proof (li_ids _ _ H) as Hp.
  apply Permutation_length in Hp. rewrite !length_app, length_seq in Hp. lia.
Qed.

Lemma init_inv n (pool0 : nat → msg) : logger_inv cap (po_logger_init cap n pool0).
Proof.
  assert (ids (Some <$> seq 0 (cap - 1)) = seq 0 (cap - 1)) as Hi.
  { generalize (seq 0 (cap - 1)) as l. induction l as [|i l IH]; [done|]. cbn. rewrite ids_some. by f_equal. }
  assert (∀ f : logger_pc → list nat, f WTop = [] → concat (f <$> replicate n WTop) = []) as Hw.
  { intros f Hf. rewrite fmap_replicate, Hf. clear. induction n; simpl; done. }
  split; cbn; rewrite ?Hw by done; try done.
  - by rewrite Hi, !app_nil_r.
  - apply Forall_fmap, Forall_true. intros i. by eexists.
  - intros i m H. by apply not_elem_of_nil in H.
  - intros w H. by apply elem_of_replicate in H as [-> _].
Qed.

Lemma begin_inv s m : logger_inv cap s → g_shutdown s = Up → logger_inv cap (log_begin notice s m).
Proof.
  intros [Hid Hfr Hri Hfi Hlo Hov Hpr Hru Hdr Hdo] Hu. unfold log_begin.
  destruct (g_free s) as [|[i|] free] eqn:Ef.
  - destruct (should_emit_overflow_notice _); split; cbn; rewrite ?Ef; done.
  - apply Forall_cons_1 in Hfr as [_ Hfr]. rewrite ids_some in Hid. split; cbn; try done.
    + rewrite fmap_app, concat_app. cbn [concat fmap list_fmap producer_ids app]. perm_nat Hid.
    + intros j m' H. apply Hfi. rewrite elem_of_app, list_elem_of_singleton in H. by destruct H.
  - apply Forall_cons_1 in Hfr as [[? ?] ?]. done.
Qed.

Lemma filled_id (l : list (producer_pc msg)) i m : PFilled i m ∈ l → i ∈ concat (producer_ids <$> l).
Proof.
  intros Hl. apply list_elem_of_In, in_concat. exists [i].
  split; [|by left]. apply list_elem_of_In, list_elem_of_fmap. by exists (PFilled i m).
Qed.

(** What a record in the hands of a logging thread, or a free one, cannot be. *)
Lemma producer_owned s before p after i :
  logger_inv cap s → g_producers s = before ++ p :: after → i ∈ producer_ids p →
  i ∉ concat (to_write <$> g_workers s) ++ ids (g_ring s) ∧ ∀ m, PFilled i m ∉ before ++ after.
Proof.
  intros Hinv Hp Hi. pose proof (inv_nodup s Hinv) as Hnd. rewrite Hp, fmap_app, concat_app in Hnd. cbn in Hnd.
  apply list.NoDup_app in Hnd as (_ & Hr & Hnd). apply list.NoDup_app in Hnd as (_ & _ & Hnd).
  apply list.NoDup_app in Hnd as (Hnd & Hw & _). apply list.NoDup_app in Hnd as (_ & Hn1 & Hnd).
  apply list.NoDup_app in Hnd as (_ & Hn2 & _). split.
  - rewrite elem_of_app. intros [H|H].
    + apply (Hw i); [|by apply to_write_owned]. rewrite !elem_of_app. auto.
    + apply (Hr i H). rewrite !elem_of_app. auto.
  - intros m [Hm|Hm]%elem_of_app.
    + apply (Hn1 i); [by eapply filled_id|]. rewrite elem_of_app. by left.
    + apply (Hn2 i Hi). by eapply filled_id.
Qed.

Lemma free_owned s i free :
  logger_inv cap s → g_free s = Some i :: free →
  i ∉ concat (to_write <$> g_workers s) ++ ids (g_ring s) ∧ ∀ m, PFilled i m ∉ g_producers s.
Proof.
  intros Hinv Hf. pose proof (inv_nodup s Hinv) as Hnd. rewrite Hf, ids_some in Hnd.
  apply list.NoDup_app in Hnd as (_ & Hr & Hnd). apply list.NoDup_app in Hnd as (_ & Hp & _). split.
  - rewrite elem_of_app. intros [H|H].
    + apply (Hp i); [by left|]. rewrite elem_of_app. right. by apply to_write_owned.
    + apply (Hr i H). by left.
  - intros m Hm. apply (Hp i); [by left|]. rewrite elem_of_app. left. by eapply filled_id.
Qed.

Section producer.
Context s (Hinv : logger_inv cap s) (before after : list (producer_pc msg)).

Lemma fill_inv i m :
  g_producers s = before ++ PFilling i m :: after →
  logger_inv cap (with_threads (with_records s i m) (before ++ PFilled i m :: after) (g_workers s)).
Proof using Hinv Hcap.
  intros Hp. destruct (producer_owned s _ _ _ i Hinv Hp ltac:(left)) as [Hn1 Hn2].
  destruct Hinv as [Hid Hfr Hri Hfi Hlo Hov Hpr Hru Hdr Hdo]. split; cbn; try done.
  - rewrite Hp, !fmap_app in Hid. by rewrite fmap_app.
  - intros j m' Hj. destruct (decide (i = j)) as [<-|Hne].
    + rewrite fn_lookup_insert. apply elem_of_app in Hj as [Hj|Hj].
      * by destruct (Hn2 m'); apply elem_of_app; left.
      * apply elem_of_cons in Hj as [Hj|Hj]; [congruence|]. by destruct (Hn2 m'); apply elem_of_app; right.
    + rewrite fn_lookup_insert_ne by done. apply Hfi. rewrite Hp. set_solver.
  - by rewrite fmap_pool_insert.
  - intros Hs. rewrite Hpr in Hp by done. by destruct before.
Qed.

Lemma producer_up p : g_producers s = before ++ p :: after → g_shutdown s = Up.
Proof using Hinv Hcap.
  intros Hp. destruct (g_shutdown s) eqn:Es; [done|..];
    (rewrite (li_producers _ _ Hinv) in Hp by (by rewrite Es); by destruct before).
Qed.

Lemma queue_inv i m :
  g_producers s = before ++ PFilled i m :: after →
  logger_inv cap (with_threads (enqueue_record cap drop_new s i m) (before ++ PNoticing :: after) (g_workers s)).
Proof using Hinv Hcap.
  intros Hp. pose proof (producer_up _ Hp) as Hu. pose proof (ring_room s Hinv Hu) as Hroom.
  destruct Hinv as [Hid Hfr Hri Hfi Hlo Hov Hpr Hru Hdr Hdo].
  unfold enqueue_record. rewrite (proj2 (Nat.ltb_lt _ _) Hroom). split; cbn; try done.
  - rewrite Hp, !fmap_app, !concat_app in Hid. rewrite fmap_app, concat_app, ids_app. cbn in Hid |- *.
    rewrite ids_one. perm_nat Hid.
  - intros Hs. apply Forall_app_2; [by apply Hri|]. by repeat constructor.
  - intros j m' Hj. apply Hfi. rewrite Hp. set_solver.
  - rewrite ids_app, ids_one, (app_assoc (concat _)), fmap_app, (app_assoc (g_written s)), Hlo. cbn.
    rewrite (Hfi i m); [done|]. rewrite Hp. set_solver.
  - intros Hd. pose proof (Hdr _ Hd eq_refl) as Hr. by rewrite Hru, Hu in Hr.
Qed.

Lemma notice_inv :
  g_producers s = before ++ PNoticing :: after →
  logger_inv cap (with_threads (emit_notice cap notice s) (before ++ after) (g_workers s)).
Proof using Hinv Hcap.
  intros Hp. pose proof (producer_up _ Hp) as Hu. pose proof (ring_room s Hinv Hu) as Hroom.
  assert (∀ t, logger_inv cap t → g_producers t = g_producers s →
    logger_inv cap (with_threads t (before ++ after) (g_workers t))) as Hdrop.
  { intros t [Hid Hfr Hri Hfi Hlo Hov Hpr Hru Hdr Hdo] Ht. rewrite Ht, Hp in *. split; cbn; try done.
    - by rewrite !fmap_app, !concat_app in Hid |- *.
    - intros i m Hi. apply Hfi. set_solver.
    - intros Hs. specialize (Hpr Hs). by destruct before. }
  unfold emit_notice. destruct (_ || _); [|by apply Hdrop].
  destruct (g_free s) as [|[i|] free] eqn:Ef.
  - match goal with |- logger_inv _ (with_threads ?t _ _) => apply (Hdrop t); [|done] end. destruct Hinv. by split; cbn.
  - destruct (free_owned s i free Hinv Ef) as [Hn1 Hn2].
    rewrite (proj2 (Nat.ltb_lt _ _) Hroom). match goal with |- logger_inv _ (with_threads ?t _ _) => apply (Hdrop t); [|done] end.
    destruct Hinv as [Hid Hfr Hri Hfi Hlo Hov Hpr Hru Hdr Hdo]. rewrite Ef, ids_some in Hid.
    rewrite Ef in Hfr. apply Forall_cons_1 in Hfr as [_ Hfr]. split; cbn; try done.
    + rewrite ids_app, ids_one. perm_nat Hid.
    + intros Hs. apply Forall_app_2; [by apply Hri|]. by repeat constructor.
    + intros j m' Hj. rewrite fn_lookup_insert_ne; [by apply Hfi|]. intros <-. by apply (Hn2 m').
    + rewrite ids_app, ids_one, (app_assoc (concat _)), fmap_app, (app_assoc (g_written s)).
      rewrite fmap_pool_insert by done. rewrite Hlo. cbn. by rewrite fn_lookup_insert.
    + intros Hd. pose proof (Hdr _ Hd eq_refl) as Hr. by rewrite Hru, Hu in Hr.
  - pose proof (li_free _ _ Hinv) as Hfr. rewrite Ef in Hfr. by apply Forall_cons_1 in Hfr as [[? ?] ?].
Qed.
End producer.

Lemma perm_around {A} (W C T D R : list A) : W ++ (C ++ T ++ D) ++ R ≡ₚ (C ++ D) ++ W ++ T ++ R.
Proof.
  rewrite <- !app_assoc, (Permutation_app_swap_app W C). apply Permutation_app_head.
  rewrite (Permutation_app_swap_app T D). apply Permutation_app_swap_app.
Qed.

(** A worker moves on: records go from the queue to it, from it to the free
    list, or are written. *)
Lemma worker_move s i w w' ring efd free written :
  logger_inv cap s → g_workers s !! i = Some w →
  ids ring ++ ids free ++ worker_ids w' ≡ₚ ids (g_ring s) ++ ids (g_free s) ++ worker_ids w →
  Forall is_Some free → (g_shutdown s = Up → Forall is_Some ring) →
  written ++ (g_pool s <$> to_write w') ++ (g_pool s <$> ids ring) ≡ₚ
    g_written s ++ (g_pool s <$> to_write w) ++ (g_pool s <$> ids (g_ring s)) →
  (drains w' = true → g_running s = false) → (w' = WDone → ids ring = []) → (ids (g_ring s) = [] → ids ring = []) →
  logger_inv cap (mk_logger ring efd free (g_pool s) (g_running s) (g_dropped_new s) (g_overwritten_old s)
    (g_producers s) (<[i := w']> (g_workers s)) (g_shutdown s) (g_woken s) (g_logged s) written (g_direct s)).
Proof.
  intros [Hid Hfr Hri Hfi Hlo Hov Hpr Hru Hdr Hdo] Hi Hperm Hfree Hring Hw Hdrn Hdone Hmono.
  destruct (concat_insert worker_ids _ _ _ w' Hi) as (a & b & E1 & E2).
  destruct (concat_insert to_write _ _ _ w' Hi) as (c & d & E3 & E4).
  split; cbn; try done.
  - rewrite E2. rewrite E1 in Hid. etransitivity; [|exact Hid]. perm_nat Hperm.
  - rewrite E4, Hlo, E3, !fmap_app. rewrite !perm_around. by rewrite Hw.
  - intros v Hin. destruct (list_elem_of_lookup_1 _ _ Hin) as [j Hj].
    apply list_lookup_insert_Some in Hj as [(_ & -> & _)|[_ Hj]]; [done|].
    apply Hdr. by eapply list_elem_of_lookup_2.
  - intros Hin. destruct (list_elem_of_lookup_1 _ _ Hin) as [j Hj].
    apply list_lookup_insert_Some in Hj as [(_ & Hj & _)|[_ Hj]]; [by apply Hdone|].
    apply Hmono, Hdo. by eapply list_elem_of_lookup_2.
Qed.

Lemma worker_inv s i w s' w' :
  logger_inv cap s → g_workers s !! i = Some w → worker_step cap s w = Some (s', w') →
  logger_inv cap (with_threads s' (g_producers s') (<[i := w']> (g_workers s'))).
Proof using Hcap.
  intros Hinv Hi E. pose proof (free_room s Hinv) as Hfroom.
  pose proof (li_free _ _ Hinv) as Hfr. pose proof (li_ring _ _ Hinv) as Hri.
  assert (∀ r, recycle_record cap (g_free s) r = g_free s ++ [r]) as Hrec.
  { intros r. unfold recycle_record. by rewrite (proj2 (Nat.ltb_lt _ _) Hfroom). }
  pose proof (li_drains _ _ Hinv w (list_elem_of_lookup_2 _ _ _ Hi)) as Hdr.
  destruct w as [| |drain [|[j|] items]|drain j items| |]; cbn in E; try done.
  - injection E as <- <-. by apply (worker_move s i WTop); try done; destruct (g_running s).
  - destruct (g_efd s) as [|e]; [done|]. injection E as <- <-. apply (worker_move s i WWait); try done; cbn.
    + rewrite <- (ids_take_drop 256 (g_ring s)). perm_nat (Permutation_refl (@nil nat)).
    + intros Hu. by apply Forall_drop, Hri.
    + by rewrite <- fmap_app, ids_take_drop.
    + intros Hn. rewrite <- (ids_take_drop 256 (g_ring s)) in Hn. by apply app_eq_nil in Hn as [_ ?].
  - injection E as <- <-. by apply (worker_move s i (WWrite drain [])); try done; destruct drain.
  - injection E as <- <-. apply (worker_move s i (WWrite drain (Some j :: items))); try done. cbn. rewrite ids_some. cbn.
    by rewrite <- app_assoc.
  - injection E as <- <-. by apply (worker_move s i (WWrite drain (None :: items))).
  - injection E as <- <-. rewrite Hrec. apply (worker_move s i (WRecycle drain j items)); try done; cbn.
    + rewrite ids_app, ids_one. perm_nat (Permutation_refl (@nil nat)).
    + apply Forall_app_2; [done|]. by repeat constructor.
  - destruct (g_ring s) as [|x ring] eqn:Er; injection E as <- <-.
    + apply (worker_move s i WDrain); rewrite ?Er; try done; by intros.
    + assert (∀ y : list nat, ids (x :: ring) = ids [x] ++ ids ring) as Hx by (intros; by destruct x).
      apply (worker_move s i WDrain); rewrite ?Er, ?(Hx []); try done; cbn.
      * perm_nat (Permutation_refl (@nil nat)).
      * intros Hu. specialize (Hri Hu). by apply Forall_cons_1 in Hri as [_ ?].
      * by rewrite fmap_app.
      * by intros [_ ?]%app_eq_nil.
Qed.

Lemma shutdown_inv s s' :
  logger_inv cap s → (g_shutdown s = Up → g_producers s = []) → shutdown_step cap s = Some s' → logger_inv cap s'.
Proof using Hcap.
  intros [Hid Hfr Hri Hfi Hlo Hov Hpr Hru Hdr Hdo] Hp E. unfold shutdown_step in E.
  destruct (g_shutdown s) as [|[|k]| |] eqn:Es.
  - injection E as <-. split; cbn; try done; by intros; apply Hp.
  - injection E as <-. split; cbn; try done; by intros; apply Hpr.
  - destruct (_ <? _)%nat; injection E as <-; (split; cbn; try done; try (by intros; apply Hpr)); rewrite ids_app;
      change (ids [None]) with (@nil nat); by rewrite app_nil_r.
  - destruct (forallb _ _); [|done]. injection E as <-. split; cbn; try done; by intros; apply Hpr.
  - done.
Qed.

Lemma log_step_inv s s' : logger_inv cap s → log_step cap drop_new notice interrupts s s' → logger_inv cap s'.
Proof using Hcap.
  intros Hinv Hst. destruct Hst as [s m Hu|s before p after s' op Hp E|s i w s' w' Hi E|s i Hint Hi|s s' Hp E].
  - by apply begin_inv.
  - destruct p as [i m|i m|]; cbn in E; injection E as <- <-; cbn.
    + by apply (fill_inv s Hinv).
    + pose proof (queue_inv s Hinv before after i m Hp) as H. revert H. unfold enqueue_record.
      by destruct (_ <? _)%nat; [|destruct drop_new; [|destruct (g_ring s)]].
    + pose proof (notice_inv s Hinv before after Hp) as H. revert H. unfold emit_notice.
      by destruct (_ || _); [|]; destruct (g_free s) as [|[]]; try destruct (_ <? _)%nat.
  - by eapply worker_inv.
  - by apply (worker_move s i WWait); try done; apply Hinv.
  - by eapply shutdown_inv.
Qed.

Lemma logger_reachable_inv n pool0 s :
  star (log_step cap drop_new notice interrupts) (po_logger_init cap n pool0) s → logger_inv cap s.
Proof using Hcap.
  intros H. refine (star_invariant _ (logger_inv cap) _ _ _ H (init_inv n pool0)).
  intros a b Hab Ha. by eapply log_step_inv.
Qed.

(** *** One consumer *)

Definition in_order s (w : logger_pc) : Prop :=
  g_workers s = [w] ∧ g_logged s = g_written s ++ (g_pool s <$> to_write w ++ ids (g_ring s)).

Lemma order_step s s' :
  logger_inv cap s → log_step cap drop_new notice interrupts s s' →
  (∃ w, in_order s w) → ∃ w, in_order s' w.
Proof using Hcap.
  intros Hinv Hst [w [Hw Hl]].
  assert (∀ i m, i ∉ concat (to_write <$> g_workers s) ++ ids (g_ring s) →
    <[i := m]> (g_pool s) <$> to_write w ++ ids (g_ring s) = g_pool s <$> to_write w ++ ids (g_ring s)) as Hpool.
  { intros i m Hi. apply fmap_pool_insert. rewrite Hw in Hi. cbn in Hi. by rewrite app_nil_r in Hi. }
  destruct Hst as [s m Hu|s before p after s' op Hp E|s i w0 s' w' Hi E|s i Hint Hi|s s' Hp E].
  - exists w. unfold log_begin, in_order. by destruct (g_free s) as [|[]]; try destruct (should_emit_overflow_notice _).
  - exists w. pose proof (producer_up s Hinv before after p Hp) as Hu. pose proof (ring_room s Hinv Hu) as Hroom.
    destruct p as [i m|i m|]; cbn in E; injection E as <- <-; unfold in_order; cbn.
    + split; [done|]. rewrite Hpool; [done|]. apply (producer_owned s before (PFilling i m) after i Hinv Hp). left.
    + unfold enqueue_record. rewrite (proj2 (Nat.ltb_lt _ _) Hroom). cbn. split; [done|].
      rewrite ids_app, ids_one, app_assoc, fmap_app, (app_assoc (g_written s)), <- Hl. cbn.
      rewrite (li_filled _ _ Hinv i m); [done|]. rewrite Hp. set_solver.
    + unfold emit_notice. destruct (_ || _); [|done]. destruct (g_free s) as [|[i|] free] eqn:Ef; [done| |done].
      rewrite (proj2 (Nat.ltb_lt _ _) Hroom). cbn. split; [done|]. rewrite ids_app, ids_one, app_assoc, fmap_app.
      rewrite (app_assoc (g_written s)), Hpool by (by apply (free_owned s i free Hinv)). rewrite <- Hl. cbn.
      by rewrite fn_lookup_insert.
  - rewrite Hw in Hi. destruct i; [|done]. injection Hi as <-. exists w'.
    destruct w as [| |drain [|[j|] items]|drain j items| |]; cbn in E; try done; unfold in_order.
    + injection E as <- <-. cbn. rewrite Hw. split; [done|]. by destruct (g_running s).
    + destruct (g_efd s); [done|]. injection E as <- <-. cbn. rewrite Hw. split; [done|]. by rewrite ids_take_drop.
    + injection E as <- <-. cbn. rewrite Hw. split; [done|]. by destruct drain.
    + injection E as <- <-. cbn. rewrite Hw. split; [done|]. rewrite Hl. cbn. rewrite ids_some. cbn. by rewrite <- app_assoc.
    + injection E as <- <-. cbn. rewrite Hw. by split.
    + injection E as <- <-. cbn. rewrite Hw. by split.
    + destruct (g_ring s) as [|x ring] eqn:Er; injection E as <- <-; cbn; rewrite Hw, ?Er; (split; [done|]); [done|].
      rewrite Hl. by destruct x.
  - exists WTop. rewrite Hw in Hi. destruct i; [|done]. injection Hi as ->. unfold in_order. cbn. by rewrite Hw.
  - exists w. unfold shutdown_step in E. unfold in_order.
    destruct (g_shutdown s) as [|[|k]| |]; try (injection E as <-; done); [|by destruct (forallb _ _); [injection E as <-|]|done].
    destruct (_ <? _)%nat; injection E as <-; [|done]. cbn. split; [done|].
    by rewrite ids_app, app_nil_r.
Qed.

(** *** Shutdown *)

Definition worker_awake (w : logger_pc) : nat := match w with WWait => 0 | _ => 1 end.

(** Every waiting worker has an event of its own once the markers are queued. *)
Definition woken_inv s : Prop :=
  (g_running s = true → g_woken s = 0%nat) ∧ (g_woken s <= g_efd s + sum_list (worker_awake <$> g_workers s))%nat.

Lemma sum_insert (f : logger_pc → nat) (l : list logger_pc) i w w' :
  l !! i = Some w → (sum_list (f <$> <[i := w']> l) + f w = sum_list (f <$> l) + f w')%nat.
Proof.
  intros H. destruct (list_elem_of_split_length l i w H) as (l1 & l2 & -> & ->).
  rewrite insert_app_r_alt, Nat.sub_diag by done. cbn. rewrite !fmap_app, !sum_list_with_app. cbn. lia.
Qed.

Lemma woken_step s s' : log_step cap drop_new notice interrupts s s' → logger_inv cap s → woken_inv s → woken_inv s'.
Proof.
  intros Hst Hinv [H1 H2]. unfold woken_inv.
  destruct Hst as [s m Hu|s before p after s' op Hp E|s i w s' w' Hi E|s i Hint Hi|s s' Hp E].
  - unfold log_begin. by destruct (g_free s) as [|[]]; try destruct (should_emit_overflow_notice _).
  - destruct p as [i m|i m|]; cbn in E; injection E as <- <-; [done| |].
    + unfold enqueue_record. destruct (_ <? _)%nat; cbn; [split; [done|lia]|].
      destruct drop_new; [done|]. destruct (g_ring s); cbn; [done|]. split; [done|lia].
    + unfold emit_notice. by destruct (_ || _); [|]; destruct (g_free s) as [|[]]; try destruct (_ <? _)%nat.
  - pose proof (sum_insert worker_awake _ _ _ w' Hi) as Hsum.
    destruct w as [| |drain [|[j|] items]|drain j items| |]; cbn in E; try done.
    + injection E as <- <-. cbn in *. split; [done|]. destruct (g_running s) eqn:Er; cbn in Hsum; [|lia].
      rewrite (H1 eq_refl). lia.
    + destruct (g_efd s); [done|]. injection E as <- <-. cbn in *. split; [done|lia].
    + injection E as <- <-. cbn in *. split; [done|]. destruct drain; cbn in Hsum; lia.
    + injection E as <- <-. cbn in *. split; [done|lia].
    + injection E as <- <-. cbn in *. split; [done|lia].
    + injection E as <- <-. cbn in *. split; [done|lia].
    + destruct (g_ring s); injection E as <- <-; cbn in *; (split; [done|lia]).
  - pose proof (sum_insert worker_awake _ _ _ WTop Hi) as Hsum. cbn in *. split; [done|lia].
  - pose proof (li_running _ _ Hinv) as Hru. unfold shutdown_step in E.
    destruct (g_shutdown s) as [|[|k]| |]; try (injection E as <-; done).
    + destruct (_ <? _)%nat; injection E as <-; cbn; [|done]. rewrite Hru. split; [done|lia].
    + by destruct (forallb _ _); [injection E as <-|].
    + done.
Qed.

(** Steps left during shutdown. *)
Definition pc_left (w : logger_pc) : nat :=
  match w with
  | WWait => 5 | WTop => 3 | WDrain => 1 | WDone => 0
  | WWrite d items => (if d : bool then 2 else 4) + 4 * length items
  | WRecycle d _ items => (if d : bool then 2 else 4) + 4 * length items + 2
  end.
Definition shutdown_left s : nat :=
  6 * length (g_ring s) + sum_list (pc_left <$> g_workers s) +
  match g_shutdown s with Up => 0 | Waking k => 7 * k + 2 | JoiningWorkers => 1 | Down => 0 end.

Lemma shutdown_decreases s s' :
  logger_inv cap s → g_shutdown s ≠ Up → log_step cap drop_new notice interrupts s s' →
  g_shutdown s' ≠ Up ∧ (shutdown_left s' < shutdown_left s)%nat.
Proof.
  intros Hinv Hu Hst. pose proof (li_producers _ _ Hinv Hu) as Hp0. pose proof (li_running _ _ Hinv) as Hru.
  unfold shutdown_left.
  destruct Hst as [s m Hu'|s before p after s' op Hp E|s i w s' w' Hi E|s i Hint Hi|s s' Hp E].
  - done.
  - rewrite Hp0 in Hp. by destruct before.
  - pose proof (sum_insert pc_left _ _ _ w' Hi) as Hsum.
    assert (g_running s = false) as Hr by (rewrite Hru; by destruct (g_shutdown s)).
    destruct w as [| |drain [|[j|] items]|drain j items| |]; cbn in E; try done.
    + injection E as <- <-. cbn in *. rewrite Hr in *. cbn in Hsum. split; [done|lia].
    + destruct (g_efd s); [done|]. injection E as <- <-. cbn in *. split; [done|].
      rewrite length_drop. rewrite length_take in Hsum. lia.
    + injection E as <- <-. cbn in *. split; [done|]. destruct drain; cbn in Hsum; lia.
    + injection E as <- <-. cbn in *. split; [done|lia].
    + injection E as <- <-. cbn in *. split; [done|lia].
    + injection E as <- <-. cbn in *. split; [done|lia].
    + destruct (g_ring s) eqn:Er; injection E as <- <-; cbn in *; rewrite ?Er; cbn; (split; [done|lia]).
  - pose proof (sum_insert pc_left _ _ _ WTop Hi) as Hsum. cbn in *. split; [done|lia].
  - unfold shutdown_step in E. destruct (g_shutdown s) as [|[|k]| |]; [done| | | |done].
    + injection E as <-. cbn. split; [done|lia].
    + destruct (_ <? _)%nat; injection E as <-; cbn; rewrite ?length_app; cbn; (split; [done|lia]).
    + destruct (forallb _ _); [|done]. injection E as <-. cbn. split; [done|lia].
Qed.

Lemma shutdown_progress s :
  woken_inv s → g_shutdown s ≠ Up → g_shutdown s ≠ Down →
  (g_shutdown s = JoiningWorkers → g_woken s = length (g_workers s)) → ∃ s', log_step cap drop_new notice interrupts s s'.
Proof.
  intros [_ Hwk] Hu Hd Hj. destruct (g_shutdown s) as [|[|k]| |] eqn:Es; try done.
  - eexists. apply ls_shutdown; [by rewrite Es|]. unfold shutdown_step. by rewrite Es.
  - destruct (length (g_ring s) <? cap)%nat eqn:El; eexists; (apply ls_shutdown; [by rewrite Es|]);
      unfold shutdown_step; by rewrite Es, El.
  - destruct (forallb (λ w, match w with WDone => true | _ => false end) (g_workers s)) eqn:Ef.
    { eexists. apply ls_shutdown; [by rewrite Es|]. unfold shutdown_step. by rewrite Es, Ef. }
    assert (∃ i w, g_workers s !! i = Some w ∧ is_Some (worker_step cap s w)) as (i & w & Hi & [[s' w'] E]).
    2: { eexists. by eapply ls_worker. }
    apply not_true_iff_false in Ef. rewrite forallb_forall in Ef.
    destruct (decide (WWait ∈ g_workers s)) as [Hin|Hin].
    + apply list_elem_of_lookup in Hin as [i Hi]. exists i, WWait. split; [done|]. cbn.
      destruct (g_efd s) as [|e]; [|by eexists]. exfalso. rewrite (Hj eq_refl) in Hwk.
      assert (∀ ws, WWait ∈ ws → sum_list (worker_awake <$> ws) < length ws)%nat as Hlt.
      { clear. intros ws Hin. assert (∀ l, sum_list (worker_awake <$> l) <= length l)%nat as Hle.
        { induction l as [|w l IH]; [done|]. assert (worker_awake w <= 1)%nat by (by destruct w; simpl; lia).
          change (worker_awake w + sum_list (worker_awake <$> l) <= S (length l))%nat. lia. }
        apply list_elem_of_split in Hin as (l1 & l2 & ->). rewrite fmap_app, sum_list_with_app, length_app.
        change (sum_list (worker_awake <$> l1) + sum_list (worker_awake <$> l2) < length l1 + S (length l2))%nat.
        pose proof (Hle l1). pose proof (Hle l2). lia. }
      specialize (Hlt _ (list_elem_of_lookup_2 _ _ _ Hi)). lia.
    + assert (¬ Forall (λ w, w = WDone) (g_workers s)) as Hnd.
      { intros Hall. apply Ef. intros w Hw. rewrite List.Forall_forall in Hall. by rewrite (Hall w Hw). }
      apply not_Forall_Exists, Exists_exists in Hnd as (w & Hw & Hne); [|apply _].
      apply list_elem_of_lookup in Hw as [i Hi]. exists i, w. split; [done|].
      destruct w as [| |drain [|[j|] items]|drain j items| |]; cbn; try (by eexists); try done.
      * by apply list_elem_of_lookup_2 in Hi.
      * destruct (g_ring s); by eexists.
      * by destruct Hne.
Qed.

Lemma shutdown_terminates s :
  logger_inv cap s → g_shutdown s ≠ Up → Acc (λ b a, log_step cap drop_new notice interrupts a b) s.
Proof using Hcap.
  remember (shutdown_left s) as n eqn:Hn. revert s Hn. induction (lt_wf n) as [n _ IH]. intros s -> Hinv Hu.
  constructor. intros s' Hst. destruct (shutdown_decreases s s' Hinv Hu Hst) as [Hu' Hlt].
  eapply IH; [exact Hlt|done| |done]. by eapply log_step_inv.
Qed.

Lemma workers_same s s' : log_step cap drop_new notice interrupts s s' → length (g_workers s') = length (g_workers s).
Proof.
  intros Hst. destruct Hst as [s m Hu|s before p after s' op Hp E|s i w s' w' Hi E|s i Hint Hi|s s' Hp E].
  - unfold log_begin. by destruct (g_free s) as [|[]]; try destruct (should_emit_overflow_notice _).
  - destruct p as [i m|i m|]; cbn in E; injection E as <- <-; [done| |].
    + unfold enqueue_record. by destruct (_ <? _)%nat; [|destruct drop_new; [|destruct (g_ring s)]].
    + unfold emit_notice. by destruct (_ || _); [|]; destruct (g_free s) as [|[]]; try destruct (_ <? _)%nat.
  - cbn. rewrite length_insert. destruct w as [| |drain [|[j|] items]|drain j items| |]; cbn in E; try done;
      try (by injection E as <- <-); [by destruct (g_efd s); [|injection E as <- <-]|].
    by destruct (g_ring s); injection E as <- <-.
  - cbn. by rewrite length_insert.
  - unfold shutdown_step in E. destruct (g_shutdown s) as [|[|k]| |]; try (by injection E as <-).
    + by destruct (_ <? _)%nat; injection E as <-.
    + by destruct (forallb _ _); [injection E as <-|].
    + done.
Qed.

(** Everything that holds of every reachable state. *)
Lemma reachable_all n pool0 s :
  star (log_step cap drop_new notice interrupts) (po_logger_init cap n pool0) s →
  logger_inv cap s ∧ woken_inv s ∧ length (g_workers s) = n.
Proof using Hcap.
  intros H. refine (star_invariant _ (λ s, logger_inv cap s ∧ woken_inv s ∧ length (g_workers s) = n) _ _ _ H _).
  - intros a b Hab (Ha & Hb & Hn). split_and!; [by eapply log_step_inv|by eapply woken_step|].
    by rewrite (workers_same _ _ Hab).
  - split_and!; [apply init_inv|split; cbn; [done|lia]|apply length_replicate].
Qed.
End lemmas.

(** ** Properties *)



(** Shutdown ends: from the moment it begins every run is finite, and when
    each consumer's marker could be queued it can only stop with shutdown
    complete, whatever the number of consumers. *)
Theorem logger_shutdown_completes {msg} (cap n : nat) (drop_new interrupts : bool) (notice : Z → Z → msg)
    (pool0 : nat → msg) (s : logger msg) :
  (2 <= cap)%nat → star (log_step cap drop_new notice interrupts) (po_logger_init cap n pool0) s → g_shutdown s ≠ Up →
  Acc (λ b a, log_step cap drop_new notice interrupts a b) s ∧
  ((∀ s', ¬ log_step cap drop_new notice interrupts s s') →
   (g_shutdown s = JoiningWorkers → g_woken s = n) → g_shutdown s = Down).
Proof.
  intros Hcap Hr Hu. destruct (reachable_all cap Hcap drop_new notice interrupts n pool0 s Hr) as (Hinv & Hwk & Hn).
  split; [by apply shutdown_terminates|]. intros Hstuck Hj.
  destruct (g_shutdown s) eqn:Es; try done; exfalso;
    (destruct (shutdown_progress cap Hcap drop_new notice interrupts s Hwk) as [s' H]; [..|by eapply Hstuck]); rewrite ?Es; try done.
  intros _. rewrite Hn. by apply Hj.
Qed.

(** *** Concrete runs *)

(** Two records, one free; messages are numbers, notices their drop counts. *)
Definition tiny (n : nat) : logger Z := po_logger_init 2 n (λ _, 0).
Definition tiny_step (drop_new : bool) : logger Z → logger Z → Prop := log_step 2 drop_new (λ d _, 1000 + d) true.

Ltac advance t := eapply star_step; [t|]; cbn.

(** One message is queued. *)
Definition tiny_queued (drop_new : bool) : logger Z :=
  mk_logger [Some 0%nat] 1 [] (<[0%nat := 7]> (λ _, 0)) true 0 0 [] [WTop] Up 0 [7] [] [].

Lemma tiny_queued_reachable drop_new : star (tiny_step drop_new) (tiny 1) (tiny_queued drop_new).
Proof.
  advance ltac:(by apply (ls_begin _ _ _ _ _ 7)). advance ltac:(by eapply (ls_producer _ _ _ _ _ [] _ [])).
  advance ltac:(by eapply (ls_producer _ _ _ _ _ [] _ [])). advance ltac:(by eapply (ls_producer _ _ _ _ _ [] _ [])).
  apply star_refl.
Qed.



Lemma logger_shutdown_completes_witness :
  Acc (λ b a, log_step 2 true (λ d _ : Z, 1000 + d) true a b)
    (with_shutdown (tiny_queued true) false (Waking 1) 0).
Proof.
  apply (logger_shutdown_completes 2 1 true true (λ d _ : Z, 1000 + d) (λ _, 0)).
  - lia.
  - eapply star_trans; [apply (tiny_queued_reachable true)|].
    eapply star_step; [apply (ls_shutdown _ _ _ _ (tiny_queued true)); [done|reflexivity]|]. apply star_refl.
  - discriminate.
Defined.

(** Under [LOGGER_OVERWRITE_OLDEST] a full logger does not overwrite the
    oldest message: no free record is left before the queue is full, and the new
    message is the one that is lost. *)
Theorem logger_overwrite_policy_drops_new {msg} (cap : nat) (notice : Z → Z → msg) (pool0 : nat → msg) (n : nat)
    (s : logger msg) (m : msg) :
  (2 <= cap)%nat → star (log_step cap false notice true) (po_logger_init cap n pool0) s → g_free s = [] →
  g_dropped_new s < 2 ^ 64 - 1 → 0 <= g_dropped_new s →
  let s' := log_begin notice s m in
  g_ring s' = g_ring s ∧ g_pool s' = g_pool s ∧ g_producers s' = g_producers s ∧ g_logged s' = g_logged s ∧
  g_dropped_new s' = g_dropped_new s + 1 ∧ g_overwritten_old s' = 0.
Proof.
  intros Hcap Hr Hf Hd Hd'. pose proof (li_overwritten _ _ (logger_reachable_inv cap Hcap false notice true n pool0 s Hr)) as Ho.
  unfold log_begin. rewrite Hf. cbn. rewrite u64_small by lia. by destruct (should_emit_overflow_notice _).
Qed.

Lemma logger_overwrite_policy_drops_new_witness :
  g_dropped_new (log_begin (λ d _ : Z, 1000 + d) (tiny_queued false) 8) = 1 ∧
  g_ring (log_begin (λ d _ : Z, 1000 + d) (tiny_queued false) 8) = [Some 0%nat].
Proof.
  destruct (logger_overwrite_policy_drops_new 2 (λ d _ : Z, 1000 + d) (λ _, 0) 1 (tiny_queued false) 8) as (H1 & _ & _ & _ & H5 & _).
  - lia.
  - apply tiny_queued_reachable.
  - reflexivity.
  - simpl. lia.
  - simpl. lia.
  - split; [exact H5|exact H1].
Defined.

(** After one lost message every later one is followed by a notice, as long as the
    count stays at a power of two: the limit on notices looks at the count and
    not at its change. *)
Theorem logger_notice_repeats {msg} (cap : nat) (notice : Z → Z → msg) (s : logger msg) (i : nat) (free : list (option nat)) :
  g_dropped_new s = 1 → g_free s = Some i :: free → (length (g_ring s) < cap)%nat →
  let s' := emit_notice cap notice s in
  g_dropped_new s' = 1 ∧ g_ring s' = g_ring s ++ [Some i] ∧ g_efd s' = g_efd s ∧
  g_pool s' i = notice 1 (g_overwritten_old s).
Proof.
  intros Hd Hf Hl. unfold emit_notice. rewrite Hd, Hf. change (should_emit_overflow_notice 1) with true. cbn [orb].
  rewrite (proj2 (Nat.ltb_lt _ _) Hl). cbn.
  by rewrite fn_lookup_insert.
Qed.
