(* ===== verification/Cstring.v ===== *)
(** * C strings

    A string is the list of its characters as [unsigned char], without the final
    0; [c_string] says that there is no 0 in it.  [strcmp] and [strncmp] with the
    results of the C library: 0 for equal strings, otherwise the difference of
    the first characters that differ. *)

From Stdlib Require Import ZArith Lia.
From stdpp Require Import base list numbers.
From S2P Require Import Prelude.

Local Open Scope Z_scope.

Fixpoint strcmp (a b : list Z) : Z :=
  match a, b with
  | [], [] => 0
  | [], y :: _ => - y
  | x :: _, [] => x
  | x :: a, y :: b => if x =? y then strcmp a b else x - y
  end.

Fixpoint strncmp (n : nat) (a b : list Z) : Z :=
  match n with
  | O => 0
  | S n =>
      match a, b with
      | [], [] => 0
      | [], y :: _ => - y
      | x :: _, [] => x
      | x :: a, y :: b => if x =? y then strncmp n a b else x - y
      end
  end.

Definition c_string (k : list Z) : Prop := Forall (λ c, 0 < c < 256) k.

(** ** Lemmas *)

Lemma strcmp_opp a b : strcmp b a = - strcmp a b.
Proof.
  revert b. induction a as [|x a IH]; intros [|y b]; simpl; try lia.
  rewrite (Z.eqb_sym y x). destruct (Z.eqb_spec x y); [apply IH|lia].
Qed.

Lemma strcmp_refl a : strcmp a a = 0.
Proof. pose proof (strcmp_opp a a). lia. Qed.

Lemma strcmp_zero a b : c_string a → c_string b → strcmp a b = 0 ↔ a = b.
Proof.
  intros Ha Hb. split; [|intros ->; apply strcmp_refl]. revert b Hb.
  induction Ha as [|x a Hx Ha IH]; intros b Hb; destruct Hb as [|y b Hy Hb]; simpl; try lia; try done.
  destruct (Z.eqb_spec x y) as [->|]; [|lia]. intros H. f_equal. by apply IH.
Qed.

Lemma strcmp_trans a b c :
  c_string a → c_string b → c_string c → strcmp a b <= 0 → strcmp b c <= 0 → strcmp a c <= 0.
Proof.
  intros Ha Hb Hc. revert b c Hb Hc. induction Ha as [|x a Hx Ha IH]; intros b c Hb Hc;
    destruct Hb as [|y b Hy Hb], Hc as [|z c Hz Hc]; simpl; try lia.
  destruct (Z.eqb_spec x y), (Z.eqb_spec y z), (Z.eqb_spec x z); subst; try lia. by apply IH.
Qed.

#[export] Instance strcmp_order {A} (name : A → list Z) :
  TotalOrderOn (λ a, c_string (name a)) (λ a b, strcmp (name a) (name b)).
Proof.
  split; [intros; apply strcmp_refl|intros a b _ _|intros a b c; apply strcmp_trans].
  rewrite (strcmp_opp (name a)). lia.
Qed.

(** Literal strings by a test. *)
Lemma c_string_check s : forallb (λ c, (0 <? c) && (c <? 256)) s = true → c_string s.
Proof.
  induction s as [|c s IH]; [constructor|]. simpl. rewrite !andb_true_iff, Z.ltb_lt, Z.ltb_lt. intros [[? ?] ?].
  constructor; [lia|by apply IH].
Qed.
Ltac literal_string := apply c_string_check; vm_compute; reflexivity.

Lemma strncmp_short n a b : (length a < n)%nat → strncmp n a b = strcmp a b.
Proof.
  revert n b. induction a as [|x a IH]; intros [|n] [|y b] H; simpl in *; try done; try lia.
  destruct (x =? y); [|done]. apply IH. lia.
Qed.

(** ** Character arrays

    An array with all its characters, the terminator among them; [None] is an
    access outside of the array. *)

Fixpoint strlen (b : list Z) : option nat :=
  match b with [] => None | c :: b => if c =? 0 then Some O else S <$> strlen b end.

Definition store_at {A} (b : list A) (i : nat) (c : A) : option (list A) :=
  if decide (i < length b)%nat then Some (<[i := c]> b) else None.

(** [strncpy(b, s, n)]: padded with 0 up to [n] characters. *)
Definition strncpy (b s : list Z) (n : nat) : option (list Z) :=
  if decide (n ≤ length b)%nat then Some (take n (s ++ replicate n 0) ++ drop n b) else None.

(** The string in an array. *)
Fixpoint cstr (b : list Z) : list Z :=
  match b with [] => [] | c :: b => if c =? 0 then [] else c :: cstr b end.

Definition array_holds (b s : list Z) : Prop := c_string s ∧ ∃ rest, b = s ++ 0 :: rest.

Lemma holds_cstr b s : array_holds b s → cstr b = s.
Proof.
  intros [Hs (rest & ->)]. induction Hs as [|c s Hc Hs IH]; [done|]. simpl. destruct (Z.eqb_spec c 0); [lia|]. by rewrite IH.
Qed.

Lemma holds_strlen b s : array_holds b s → strlen b = Some (length s).
Proof.
  intros [Hs (rest & ->)]. induction Hs as [|c s Hc Hs IH]; [done|]. simpl. destruct (Z.eqb_spec c 0); [lia|]. by rewrite IH.
Qed.

Lemma holds_length b s : array_holds b s → (length s < length b)%nat.
Proof. intros [_ (rest & ->)]. rewrite length_app. simpl. lia. Qed.

Lemma holds_empty n : array_holds (replicate (S n) 0) [].
Proof. split; [constructor|]. by exists (replicate n 0). Qed.

(** Writing a character over the terminator and a new terminator after it. *)
Lemma holds_append b s c :
  array_holds b s → 0 < c < 256 → (length s + 1 < length b)%nat →
  ∃ b1 b2, store_at b (length s) c = Some b1 ∧ store_at b1 (length s + 1) 0 = Some b2 ∧ array_holds b2 (s ++ [c]) ∧
    length b2 = length b.
Proof.
  intros [Hs (rest & ->)] Hc Hl. rewrite length_app in Hl. destruct rest as [|x rest]; simpl in Hl; [lia|].
  unfold store_at. rewrite decide_True by (rewrite length_app; simpl; lia). eexists _, _. split; [done|].
  rewrite decide_True by (rewrite length_insert, length_app; simpl; lia). split; [done|].
  rewrite insert_app_r_alt, Nat.sub_diag by done. simpl.
  rewrite insert_app_r_alt by lia. replace (length s + 1 - length s)%nat with 1%nat by lia. simpl. split.
  - split; [apply list.Forall_app; split; [done|by apply list.Forall_singleton]|]. exists rest. by rewrite <- app_assoc.
  - rewrite !length_app. done.
Qed.

(** Ending the string one character earlier. *)
Lemma holds_shorten b s c :
  array_holds b (s ++ [c]) → ∃ b1, store_at b (length s) 0 = Some b1 ∧ array_holds b1 s ∧ length b1 = length b.
Proof.
  intros [Hs (rest & ->)]. apply list.Forall_app in Hs as [Hs _]. rewrite <- app_assoc. simpl. unfold store_at.
  rewrite decide_True by (rewrite length_app; simpl; lia). eexists. split; [done|].
  rewrite insert_app_r_alt, Nat.sub_diag by done. simpl. split; [split; [done|by eexists]|]. by rewrite !length_app.
Qed.

Lemma holds_first b s : array_holds b s → ∃ x b', b = x :: b' ∧ store_at b 0 0 = Some (0 :: b') ∧ array_holds (0 :: b') [].
Proof.
  intros Hb. pose proof (holds_length b s Hb). destruct b as [|x b]; simpl in *; [lia|]. exists x, b. split_and!; [done| |].
  - unfold store_at. rewrite decide_True by (simpl; lia). done.
  - split; [constructor|]. by exists b.
Qed.

(** [strncpy] of a string that fits leaves it in the array. *)
Lemma holds_strncpy b s n :
  c_string s → (length s < n)%nat → (n ≤ length b)%nat →
  ∃ b', strncpy b s n = Some b' ∧ array_holds b' s ∧ length b' = length b.
Proof.
  intros Hs Hl Hb. unfold strncpy. rewrite decide_True by done. eexists. split; [done|].
  rewrite take_app_ge by lia. rewrite take_replicate. replace ((n - length s) `min` n)%nat with (n - length s)%nat by lia.
  destruct (n - length s)%nat as [|k] eqn:E; [lia|]. split.
  - split; [done|]. exists (replicate k 0 ++ drop n b). simpl. by rewrite <- app_assoc.
  - rewrite !length_app, length_replicate, length_drop. lia.
Qed.
