(* ===== verification/Perf.v ===== *)
(** * Performance counters ([app/libs/ring2/postoffice/perf/perf.c],
    [metrics/metrics.c])

    Counters, timers and histograms live in slots of a memory that all processes
    share; each process caches the slot numbers of names in hash tables of its
    own.  [perf_shm_t] lists the slots in use (their number is the shared count),
    [perf_ctx] is the state of one process.  A name is a C string: its bytes,
    none of them 0.  [None] is undefined behaviour: a lock used after its
    destruction, or a slot index outside the slots in use.  Calls are whole here,
    as the locks make them; [PerfShared] interleaves their parts.  Reports are
    lists of lines. *)

From Stdlib Require Import ZArith Lia.
From stdpp Require Import base list numbers sorting sets.
From S2P Require Import Prelude Cstring Prime Sort Hashtable HashtableGrowth.

Local Open Scope Z_scope.

Definition MAX_METRIC_NAME : nat := 64.
Definition MAX_COUNTERS : Z := 2048.
Definition MAX_TIMERS : Z := 512.
Definition MAX_HISTOGRAMS : Z := 128.
Definition MAX_HIST_BINS : nat := 32.

Record shm_counter_t : Type := mk_counter { c_name : list Z; c_value : Z }.
Record shm_timer_t : Type := mk_timer { t_name : list Z; t_start : Z * Z; t_total_ns : Z }.
Record shm_histogram_t : Type := mk_histogram { h_name : list Z; h_nbins : nat; h_bins : list Z; h_counts : list Z }.
Record perf_shm_t : Type := mk_shm {
  counters : list shm_counter_t;
  timers : list shm_timer_t;
  histograms : list shm_histogram_t
}.
Definition empty_shm : perf_shm_t := mk_shm [] [] [].

(** ** Strings *)

Definition str_compare (a b : list Z) : Z := strcmp a b.

(** djb2 over signed characters *)
Definition char_val (c : Z) : Z := if 128 <=? c then c - 256 else c.
Definition str_hash (key : list Z) : Z :=
  foldl (λ hash c, u64 (u64 (u64 (Z.shiftl hash 5) + hash) + u64 (char_val c))) 5381 key.

(** [strncpy(name, MAX_METRIC_NAME - 1)] and the final 0. *)
Definition slot_name (name : list Z) : list Z := take (MAX_METRIC_NAME - 1) name.

(** ** A process *)

Definition metric_map : Type := po_hashtable (list Z) Z.   (* 0 is NULL *)

Record perf_ctx : Type := mk_ctx {
  ctx_shm : bool;          (* the memory is mapped *)
  is_initialized : bool;
  is_creator : bool;
  counter_map : option metric_map;
  timer_map : option metric_map;
  histogram_map : option metric_map;
  hash_rwlock : bool       (* not destroyed *)
}.
Definition initial_ctx : perf_ctx := mk_ctx false false false None None None true.

Definition set_counter_map (c : perf_ctx) (t : metric_map) : perf_ctx :=
  mk_ctx (ctx_shm c) (is_initialized c) (is_creator c) (Some t) (timer_map c) (histogram_map c) (hash_rwlock c).
Definition set_timer_map (c : perf_ctx) (t : metric_map) : perf_ctx :=
  mk_ctx (ctx_shm c) (is_initialized c) (is_creator c) (counter_map c) (Some t) (histogram_map c) (hash_rwlock c).
Definition set_histogram_map (c : perf_ctx) (t : metric_map) : perf_ctx :=
  mk_ctx (ctx_shm c) (is_initialized c) (is_creator c) (counter_map c) (timer_map c) (Some t) (hash_rwlock c).

(** The cached index; stored plus one, so that NULL is a miss. *)
Definition lookup_cached (t : metric_map) (name : list Z) : option Z :=
  let cached := po_hashtable_get str_compare str_hash 0 t name in
  if cached =? 0 then None else Some (i32 cached - 1).

(** The first slot with the name, and the name it holds. *)
Fixpoint scan_slots (names : list (list Z)) (name : list Z) (i : Z) : option (Z * list Z) :=
  match names with
  | [] => None
  | n :: names => if strncmp MAX_METRIC_NAME n name =? 0 then Some (i, n) else scan_slots names name (i + 1)
  end.

(** The section under both locks, for slots named [names] of which there are at
    most [max]: the index or -1, the table, whether the next slot was taken. *)
Definition alloc_locked (max : Z) (t : metric_map) (names : list (list Z)) (name : list Z) :
    alloc (Z * metric_map * bool) :=
  match lookup_cached t name with
  | Some i => mret (i, t, false)
  | None =>
      match scan_slots names name 0 with
      | Some (i, n) =>
          r ← po_hashtable_put str_compare str_hash t n (i + 1);
          mret (i, r.2, false)
      | None =>
          let count := Z.of_nat (length names) in
          if max <=? count then mret (-1, t, false)
          else
            r ← po_hashtable_put str_compare str_hash t (slot_name name) (count + 1);
            mret (count, r.2, true)
      end
  end.

Definition new_counter (name : list Z) : shm_counter_t := mk_counter (slot_name name) 0.
Definition new_timer (name : list Z) : shm_timer_t := mk_timer (slot_name name) (0, 0) 0.

Definition find_or_alloc_counter (c : perf_ctx) (s : perf_shm_t) (name : list Z) :
    alloc (option (Z * perf_ctx * perf_shm_t)) :=
  match ctx_shm c, counter_map c with
  | true, Some t =>
      if negb (hash_rwlock c) then mret None
      else
        match lookup_cached t name with
        | Some i => mret (Some (i, c, s))
        | None =>
            r ← alloc_locked MAX_COUNTERS t (c_name <$> counters s) name;
            let '(i, t, fresh) := r in
            mret (Some (i, set_counter_map c t,
              if fresh : bool then mk_shm (counters s ++ [new_counter name]) (timers s) (histograms s) else s))
        end
  | _, _ => mret (Some (-1, c, s))
  end.

Definition find_or_alloc_timer (c : perf_ctx) (s : perf_shm_t) (name : list Z) :
    alloc (option (Z * perf_ctx * perf_shm_t)) :=
  match ctx_shm c, timer_map c with
  | true, Some t =>
      if negb (hash_rwlock c) then mret None
      else
        match lookup_cached t name with
        | Some i => mret (Some (i, c, s))
        | None =>
            r ← alloc_locked MAX_TIMERS t (t_name <$> timers s) name;
            let '(i, t, fresh) := r in
            mret (Some (i, set_timer_map c t,
              if fresh : bool then mk_shm (counters s) (timers s ++ [new_timer name]) (histograms s) else s))
        end
  | _, _ => mret (Some (-1, c, s))
  end.

Definition get_histogram_index (c : perf_ctx) (name : list Z) : option Z :=
  match ctx_shm c, histogram_map c with
  | true, Some t => if negb (hash_rwlock c) then None else Some (default (-1) (lookup_cached t name))
  | _, _ => Some (-1)
  end.

(** ** Counters *)

(** [atomic_fetch_add(&counters[idx].value, delta)] *)
Definition fetch_add (cs : list shm_counter_t) (idx delta : Z) : option (list shm_counter_t) :=
  match cs !! Z.to_nat idx with
  | Some x => Some (<[Z.to_nat idx := mk_counter (c_name x) (u64 (c_value x + delta))]> cs)
  | None => None
  end.

Definition po_perf_counter_add_by_idx (c : perf_ctx) (s : perf_shm_t) (idx delta : Z) : option perf_shm_t :=
  if (0 <=? idx) && ctx_shm c
  then cs ← fetch_add (counters s) idx delta; Some (mk_shm cs (timers s) (histograms s))
  else Some s.
Definition po_perf_counter_inc_by_idx (c : perf_ctx) (s : perf_shm_t) (idx : Z) : option perf_shm_t :=
  po_perf_counter_add_by_idx c s idx 1.

Definition po_perf_counter_add (c : perf_ctx) (s : perf_shm_t) (name : list Z) (delta : Z) :
    alloc (option (perf_ctx * perf_shm_t)) :=
  if negb (is_initialized c) then mret (Some (c, s))
  else
    r ← find_or_alloc_counter c s name;
    mret ('(idx, c, s) ← r;
          if 0 <=? idx
          then cs ← fetch_add (counters s) idx delta; Some (c, mk_shm cs (timers s) (histograms s))
          else Some (c, s)).
Definition po_perf_counter_inc (c : perf_ctx) (s : perf_shm_t) (name : list Z) : alloc (option (perf_ctx * perf_shm_t)) :=
  po_perf_counter_add c s name 1.

Inductive perf_rc : Type := PerfOk | PerfNotInit | PerfInvalid | PerfExists | PerfNoMem | PerfFail.

Definition po_perf_counter_create (c : perf_ctx) (s : perf_shm_t) (name : list Z) :
    alloc (option (perf_rc * perf_ctx * perf_shm_t)) :=
  if negb (is_initialized c) then mret (Some (PerfNotInit, c, s))
  else if (MAX_METRIC_NAME <=? length name)%nat then mret (Some (PerfInvalid, c, s))
  else
    r ← find_or_alloc_counter c s name;
    mret ('(idx, c, s) ← r; Some (if 0 <=? idx then PerfOk else PerfFail, c, s)).

(** ** Timers *)

Definition po_perf_timer_create (c : perf_ctx) (s : perf_shm_t) (name : list Z) :
    alloc (option (perf_rc * perf_ctx * perf_shm_t)) :=
  if negb (is_initialized c) then mret (Some (PerfNotInit, c, s))
  else if (MAX_METRIC_NAME <=? length name)%nat then mret (Some (PerfInvalid, c, s))
  else
    r ← find_or_alloc_timer c s name;
    mret ('(idx, c, s) ← r; Some (if 0 <=? idx then PerfOk else PerfFail, c, s)).

Definition alter_timer (s : perf_shm_t) (idx : Z) (f : shm_timer_t → shm_timer_t) : option perf_shm_t :=
  x ← timers s !! Z.to_nat idx;
  Some (mk_shm (counters s) (<[Z.to_nat idx := f x]> (timers s)) (histograms s)).

Definition elapsed (start stop : Z * Z) : Z :=
  u64 (u64 (u64 (i64 (stop.1 - start.1)) * 1000000000) + u64 (i64 (stop.2 - start.2))).

(** [now] is the monotonic clock. *)
Definition timer_begin (now : Z * Z) (t : shm_timer_t) : shm_timer_t := mk_timer (t_name t) now (t_total_ns t).
Definition timer_end (now : Z * Z) (t : shm_timer_t) : shm_timer_t :=
  mk_timer (t_name t) (t_start t) (u64 (t_total_ns t + elapsed (t_start t) now)).

Definition timer_call (f : shm_timer_t → shm_timer_t) (c : perf_ctx) (s : perf_shm_t) (name : list Z) :
    alloc (option (perf_rc * perf_ctx * perf_shm_t)) :=
  if negb (is_initialized c) then mret (Some (PerfNotInit, c, s))
  else
    r ← find_or_alloc_timer c s name;
    mret ('(idx, c, s) ← r;
          if idx <? 0 then Some (PerfFail, c, s) else s ← alter_timer s idx f; Some (PerfOk, c, s)).
Definition po_perf_timer_start (now : Z * Z) := timer_call (timer_begin now).
Definition po_perf_timer_stop (now : Z * Z) := timer_call (timer_end now).

Definition timer_call_by_idx (f : shm_timer_t → shm_timer_t) (c : perf_ctx) (s : perf_shm_t) (idx : Z) : option perf_shm_t :=
  if (0 <=? idx) && ctx_shm c then alter_timer s idx f else Some s.
Definition po_perf_timer_start_by_idx (now : Z * Z) := timer_call_by_idx (timer_begin now).
Definition po_perf_timer_stop_by_idx (now : Z * Z) := timer_call_by_idx (timer_end now).

(** ** Histograms *)

Definition new_histogram (name : list Z) (bins : list Z) (nbins : nat) : shm_histogram_t :=
  mk_histogram (slot_name name) nbins (take nbins bins ++ replicate (MAX_HIST_BINS - nbins) 0) (replicate MAX_HIST_BINS 0).

Definition po_perf_histogram_create (c : perf_ctx) (s : perf_shm_t) (name bins : list Z) (nbins : nat) :
    alloc (option (perf_rc * perf_ctx * perf_shm_t)) :=
  if negb (is_initialized c) then mret (Some (PerfNotInit, c, s))
  else if (MAX_HIST_BINS <? nbins)%nat || (nbins =? 0)%nat then mret (Some (PerfInvalid, c, s))
  else if (MAX_METRIC_NAME <=? length name)%nat then mret (Some (PerfInvalid, c, s))
  else
    match histogram_map c with
    | Some t =>
        if negb (hash_rwlock c) then mret None
        else if negb (po_hashtable_get str_compare str_hash 0 t name =? 0) then mret (Some (PerfExists, c, s))
        else
          match scan_slots (h_name <$> histograms s) name 0 with
          | Some (i, n) =>
              r ← po_hashtable_put str_compare str_hash t n (i + 1);
              mret (Some (PerfExists, set_histogram_map c r.2, s))
          | None =>
              let count := Z.of_nat (length (histograms s)) in
              if MAX_HISTOGRAMS <=? count then mret (Some (PerfNoMem, c, s))
              else
                r ← po_hashtable_put str_compare str_hash t (slot_name name) (count + 1);
                mret (Some (PerfOk, set_histogram_map c r.2,
                  mk_shm (counters s) (timers s) (histograms s ++ [new_histogram name bins nbins])))
          end
    | None => mret None
    end.

(** The first bin whose bound is at least the value. *)
Fixpoint find_bin (bins : list Z) (value : Z) (i : nat) : option nat :=
  match bins with
  | [] => None
  | b :: bins => if value <=? b then Some i else find_bin bins value (S i)
  end.

(** [atomic_fetch_add(&h->counts[i], 1)] *)
Definition count_bin (h : shm_histogram_t) (i : nat) : option shm_histogram_t :=
  n ← h_counts h !! i;
  Some (mk_histogram (h_name h) (h_nbins h) (h_bins h) (<[i := u64 (n + 1)]> (h_counts h))).

(** Values above every bound: the last bin by name, the one behind it by index. *)
Definition record_value (h : shm_histogram_t) (value : Z) : option shm_histogram_t :=
  count_bin h (default (h_nbins h - 1)%nat (find_bin (take (h_nbins h) (h_bins h)) value 0)).
Definition record_value_by_idx (h : shm_histogram_t) (value : Z) : option shm_histogram_t :=
  count_bin h (default (h_nbins h) (find_bin (take (h_nbins h) (h_bins h)) value 0)).

Definition alter_histogram (s : perf_shm_t) (idx : Z) (f : shm_histogram_t → option shm_histogram_t) : option perf_shm_t :=
  x ← histograms s !! Z.to_nat idx; h ← f x;
  Some (mk_shm (counters s) (timers s) (<[Z.to_nat idx := h]> (histograms s))).

Definition po_perf_histogram_record (c : perf_ctx) (s : perf_shm_t) (name : list Z) (value : Z) :
    option (perf_rc * perf_shm_t) :=
  if negb (is_initialized c) then Some (PerfFail, s)
  else
    idx ← get_histogram_index c name;
    if idx <? 0 then Some (PerfFail, s)
    else s ← alter_histogram s idx (λ h, record_value h value); Some (PerfOk, s).

Definition po_perf_histogram_record_by_idx (c : perf_ctx) (s : perf_shm_t) (idx value : Z) : option perf_shm_t :=
  if (0 <=? idx) && ctx_shm c then alter_histogram s idx (λ h, record_value_by_idx h value) else Some s.

(** ** The report *)

Inductive report_line : Type :=
| LTitle
| LSection (what : nat)      (* 0 counters, 1 timers, 2 histograms *)
| LEmpty (what : nat)
| LNoMemory (what : nat)
| LCounter (name : list Z) (value : Z)
| LTimer (name : list Z) (ns : Z)
| LHistogram (name : list Z)
| LBin (bound count : Z).

Definition compare_shm_counters (a b : shm_counter_t) : Z := strcmp (c_name a) (c_name b).
Definition compare_shm_timers (a b : shm_timer_t) : Z := strcmp (t_name a) (t_name b).
Definition compare_shm_histograms (a b : shm_histogram_t) : Z := strcmp (h_name a) (h_name b).

Definition counter_lines (c : shm_counter_t) : list report_line := [LCounter (c_name c) (c_value c)].
Definition timer_lines (t : shm_timer_t) : list report_line := [LTimer (t_name t) (t_total_ns t)].
Definition histogram_lines (h : shm_histogram_t) : list report_line :=
  LHistogram (h_name h) :: (uncurry LBin <$> zip (take (h_nbins h) (h_bins h)) (take (h_nbins h) (h_counts h))).

(** One of the three parts: a sorted copy of the slots, printed in order. *)
Definition report_section {A} (what : nat) (cmp : A → A → Z) (print : A → list report_line) (slots : list A) :
    run (list report_line) :=
  if (length slots =? 0)%nat then mret [LEmpty what]
  else
    ok ← alloc_ok;
    if negb ok then mret [LSection what; LNoMemory what]
    else
      sorted ← po_sort cmp slots (length slots);
      mret (LSection what :: (sorted ≫= print)).

(** Not initialised: -1 and no output. *)
Definition po_perf_report (c : perf_ctx) (s : perf_shm_t) : run (option (list report_line)) :=
  if negb (is_initialized c) then mret None
  else
    cs ← report_section 0 compare_shm_counters counter_lines (counters s);
    ts ← report_section 1 compare_shm_timers timer_lines (timers s);
    hs ← report_section 2 compare_shm_histograms histogram_lines (histograms s);
    mret (Some (LTitle :: cs ++ ts ++ hs)).

(** ** Start and end of a process *)

Inductive flock_result : Type := Locked | WouldBlock | LockError.

(** What the system answers; [ie_initialized k] is what the [k]-th look at the
    creator's flag finds. *)
Record init_env : Type := mk_init_env {
  ie_shm_open : bool;
  ie_flock : flock_result;
  ie_ftruncate : bool;
  ie_mmap : bool;
  ie_initialized : nat → bool
}.

(** [while (!ctx.shm->initialized) { usleep; if (++spins > 1000) return -1; }] *)
Fixpoint wait_initialized (spins : nat) (flag : nat → bool) (k : nat) : bool :=
  if flag k then true
  else match spins with O => false | S spins => wait_initialized spins flag (S k) end.

(** After an attacher's time-out the mapping stays. *)
Definition po_perf_init (env : init_env) (c : perf_ctx) (s : perf_shm_t) (nc nt nh : Z) : alloc (Z * perf_ctx * perf_shm_t) :=
  let tables (creator : bool) (s : perf_shm_t) : alloc (Z * perf_ctx * perf_shm_t) :=
    ct ← po_hashtable_create_sized nc;
    ti ← po_hashtable_create_sized nt;
    hi ← po_hashtable_create_sized nh;
    mret (match ct, ti, hi with
          | Some ct, Some ti, Some hi => (0, mk_ctx true true creator (Some ct) (Some ti) (Some hi) (hash_rwlock c), s)
          | _, _, _ => (-1, mk_ctx false false (is_creator c) None None None (hash_rwlock c), s)
          end) in
  let mapped (b : bool) := mk_ctx b false (is_creator c) (counter_map c) (timer_map c) (histogram_map c) (hash_rwlock c) in
  if is_initialized c then mret (0, c, s)
  else if negb (ie_shm_open env) then mret (-1, c, s)
  else
    match ie_flock env with
    | LockError => mret (-1, c, s)
    | Locked =>
        if negb (ie_ftruncate env) then mret (-1, c, s)
        else if negb (ie_mmap env) then mret (-1, mapped true, s)   (* MAP_FAILED is not NULL *)
        else tables true empty_shm
    | WouldBlock =>
        if negb (ie_mmap env) then mret (-1, mapped true, s)
        else if negb (wait_initialized 1000 (ie_initialized env) 0) then mret (-1, mapped true, s)
        else tables false s
    end.

(** The lock is destroyed and no later [po_perf_init] makes a new one. *)
Definition po_perf_shutdown (c : perf_ctx) : perf_ctx :=
  if negb (is_initialized c) then c
  else mk_ctx false false (is_creator c) None None None false.

Definition METRICS_DEFAULT_COUNTERS : Z := 64.
Definition METRICS_DEFAULT_TIMERS : Z := 16.
Definition METRICS_DEFAULT_HISTOGRAMS : Z := 8.

Definition po_metrics_init (env : init_env) (c : perf_ctx) (s : perf_shm_t) (nc nt nh : Z) : alloc (Z * perf_ctx * perf_shm_t) :=
  po_perf_init env c s (if 0 <? nc then nc else METRICS_DEFAULT_COUNTERS) (if 0 <? nt then nt else METRICS_DEFAULT_TIMERS)
    (if 0 <? nh then nh else METRICS_DEFAULT_HISTOGRAMS).
Definition po_metrics_shutdown (c : perf_ctx) : perf_ctx := po_perf_shutdown c.

(** ** Specification *)

(** A C string that fits a slot. *)
Definition metric_name (k : list Z) : Prop := c_string k ∧ (length k < MAX_METRIC_NAME)%nat.

(** A table caches slots correctly: what it knows of a name is its slot. *)
Record map_ok (names : list (list Z)) (t : metric_map) : Prop := mk_map_ok {
  mo_wf : ht_wf str_compare str_hash metric_name t;
  mo_cached : ∀ k v, metric_name k → ht_find str_compare str_hash t k = Some v →
    1 <= v <= Z.of_nat (length names) ∧ names !! Z.to_nat (v - 1) = Some k
}.

(** Slots have different names, and no more of them than allowed. *)
Record slots_ok (max : Z) (names : list (list Z)) : Prop := mk_slots_ok {
  so_nodup : NoDup names;
  so_names : Forall metric_name names;
  so_max : Z.of_nat (length names) <= max <= MAX_COUNTERS
}.

(** What the counters say of a name. *)
Definition counter_of (cs : list shm_counter_t) (name : list Z) : option Z :=
  (λ p, c_value p.2) <$> list_find (λ c, c_name c = name) cs.

(** ** Lemmas *)

Lemma name_eq a b : metric_name a → metric_name b → (str_compare a b =? 0) = bool_decide (a = b).
Proof.
  intros [Ha _] [Hb _]. unfold str_compare. case_bool_decide as E; [subst; by rewrite strcmp_refl|].
  apply Z.eqb_neq. by rewrite strcmp_zero.
Qed.

#[export] Instance name_contract : KeyContract metric_name str_compare str_hash.
Proof.
  split.
  - intros a _. apply strcmp_refl.
  - intros a b [Ha _] [Hb _] E. apply strcmp_zero in E as ->; [apply strcmp_refl|done..].
  - intros a b c [Ha _] [Hb _] [Hc _] E1 E2. apply strcmp_zero in E1 as ->; done.
  - intros a b [Ha _] [Hb _] E. by apply strcmp_zero in E as ->.
Qed.

Lemma slot_name_short name : (length name < MAX_METRIC_NAME)%nat → slot_name name = name.
Proof. intros H. apply take_ge. unfold MAX_METRIC_NAME in *. lia. Qed.

Lemma get_cached t name :
  lookup_cached t name = match ht_find str_compare str_hash t name with
                         | Some v => if v =? 0 then None else Some (i32 v - 1)
                         | None => None end.
Proof. unfold lookup_cached, po_hashtable_get, ht_find. by destruct (chain_find _ _ _). Qed.

Lemma scan_spec names name i :
  Forall metric_name names → metric_name name →
  match scan_slots names name i with
  | Some (j, n) => n = name ∧ i <= j ∧ names !! Z.to_nat (j - i) = Some name
  | None => name ∉ names
  end.
Proof.
  intros Hn Hname. revert i. induction Hn as [|n names Hm Hn IH]; intros i; cbn [scan_slots].
  { apply not_elem_of_nil. }
  rewrite strncmp_short by apply Hm. fold (str_compare n name). rewrite name_eq by done.
  case_bool_decide as E.
  - split_and!; [done|lia|]. subst. by rewrite Z.sub_diag.
  - specialize (IH (i + 1)). destruct (scan_slots names name (i + 1)) as [[j n']|].
    + destruct IH as (-> & Hj & Hl). split_and!; [done|lia|].
      replace (Z.to_nat (j - i)) with (S (Z.to_nat (j - (i + 1)))) by lia. done.
    + by apply not_elem_of_cons.
Qed.

(** A correct table is no larger than the slots. *)
Lemma map_size names t :
  map_ok names t → 0 <= ht_size t <= Z.of_nat (length names).
Proof.
  intros [Hwf Hc]. rewrite (wf_count _ _ _ _ Hwf). split; [lia|].
  rewrite <- (length_map node_key). apply inj_le, submseteq_length, NoDup_submseteq.
  - pose proof (wf_distinct _ _ _ _ Hwf) as Hd. fold (keys t) in *. induction Hd as [|k ks Hk Hd IH]; constructor; [|done].
    intros Hin. rewrite Forall_forall in Hk. apply (Hk k Hin). apply strcmp_refl.
  - intros k Hk. pose proof (wf_dom _ _ _ _ Hwf) as Hdom. rewrite Forall_forall in Hdom. specialize (Hdom k Hk).
    apply list_elem_of_fmap in Hk as (n & -> & Hn).
    destruct (Hc (node_key n) (node_value n)) as [_ Hl]; [done| |by eapply list_elem_of_lookup_2].
    apply (find_Some metric_name str_compare str_hash t _ _ Hwf Hdom). exists n. split_and!; [done|apply strcmp_refl|done].
Qed.

Lemma map_ok_app names more t : map_ok names t → map_ok (names ++ more) t.
Proof.
  intros [Hwf Hc]. split; [done|]. intros k v Hk Hv. destruct (Hc k v Hk Hv) as [Hb Hl].
  rewrite length_app. split; [lia|]. by apply lookup_app_l_Some.
Qed.

Lemma lookup_cached_spec max names t name :
  map_ok names t → slots_ok max names → metric_name name →
  match lookup_cached t name with
  | Some i => 0 <= i ∧ names !! Z.to_nat i = Some name
  | None => ht_find str_compare str_hash t name = None
  end.
Proof.
  intros Ht [_ _ Hmax] Hn. rewrite get_cached. destruct (ht_find _ _ t name) as [v|] eqn:E; [|done].
  destruct (mo_cached _ _ Ht name v Hn E) as [Hv Hl]. destruct (Z.eqb_spec v 0); [lia|].
  unfold MAX_COUNTERS, i32 in *. rewrite signed_small by lia. split; [lia|done].
Qed.

(** Caching the slot of a name, whether or not the table can take it. *)
Lemma cache_put names t name v :
  map_ok names t → slots_ok MAX_COUNTERS names → metric_name name → 1 <= v → names !! Z.to_nat (v - 1) = Some name →
  always (po_hashtable_put str_compare str_hash t name v) (λ r, map_ok names r.2).
Proof.
  intros Ht Hs Hn Hv Hl. pose proof (map_size _ _ Ht) as Hsz. pose proof (so_max _ _ Hs).
  pose proof (lookup_lt_Some _ _ _ Hl) as Hlt.
  eapply always_mono.
  { apply (law_put (D := metric_name)); [apply Ht|done|unfold MAX_COUNTERS in *; lia]. }
  intros [rc t'] (Hwf & [(_ & Hf & _)|(_ & Hf & _)]); simpl in *; (split; [done|]); intros k w Hk Hw;
    rewrite Hf in Hw by done.
  - rewrite name_eq in Hw by done. case_bool_decide; [|by apply Ht]. simplify_eq. split; [lia|done].
  - by apply Ht.
Qed.

Lemma slots_ok_app max names name :
  slots_ok max names → metric_name name → name ∉ names → Z.of_nat (length names) < max → slots_ok max (names ++ [name]).
Proof.
  intros [Hnd Hns Hm] Hn Hin Hlt. split.
  - apply list.NoDup_app. split_and!; [done| |apply NoDup_singleton].
    intros x Hx ->%list_elem_of_singleton. done.
  - by apply list.Forall_app; split; [|apply list.Forall_singleton].
  - rewrite length_app. simpl. lia.
Qed.

Lemma slots_ok_weaken max names : slots_ok max names → slots_ok MAX_COUNTERS names.
Proof. intros [? ? ?]. split; [done..|lia]. Qed.

(** What the locked section leaves, whatever the allocator answers. *)
Lemma alloc_locked_spec max t names name :
  map_ok names t → slots_ok max names → metric_name name →
  always (alloc_locked max t names name) (λ r,
    let names' := if r.2 then names ++ [name] else names in
    map_ok names' r.1.2 ∧ slots_ok max names' ∧
    (0 <= r.1.1 ∧ names' !! Z.to_nat r.1.1 = Some name ∨
     r.1.1 = -1 ∧ r.2 = false ∧ name ∉ names ∧ Z.of_nat (length names) = max)).
Proof.
  intros Ht Hs Hn. unfold alloc_locked. pose proof (lookup_cached_spec _ _ _ _ Ht Hs Hn) as Hc.
  destruct (lookup_cached t name) as [i|]; [apply always_ret; simpl; eauto|].
  pose proof (scan_spec names name 0 (so_names _ _ Hs) Hn) as Hsc.
  destruct (scan_slots names name 0) as [[i n]|].
  - destruct Hsc as (-> & Hi & Hl). rewrite Z.sub_0_r in Hl. apply always_bind. eapply always_mono.
    { apply (cache_put names); [done|by eapply slots_ok_weaken|done|lia|by rewrite Z.add_simpl_r]. }
    intros r Hr. apply always_ret. simpl. eauto.
  - destruct (Z.leb_spec max (Z.of_nat (length names))) as [Hfull|Hroom].
    { apply always_ret. simpl. pose proof (so_max _ _ Hs). split_and!; [done..|]. right. split_and!; try done. lia. }
    pose proof (slots_ok_app max names name Hs Hn Hsc Hroom) as Hs'.
    rewrite slot_name_short by apply Hn. apply always_bind. eapply always_mono.
    { apply (cache_put (names ++ [name]));
        [by apply map_ok_app|by eapply slots_ok_weaken|done|lia|].
      rewrite Z.add_simpl_r, Nat2Z.id. by apply list_lookup_middle. }
    intros r Hr. apply always_ret. simpl. split_and!; [done..|]. left. split; [lia|].
    rewrite Nat2Z.id. by apply list_lookup_middle.
Qed.

(** *** Histograms *)

(** As [po_perf_histogram_create] makes them. *)
Record histogram_ok (h : shm_histogram_t) : Prop := mk_histogram_ok {
  ho_nbins : (0 < h_nbins h <= MAX_HIST_BINS)%nat;
  ho_bins : length (h_bins h) = MAX_HIST_BINS;
  ho_counts : length (h_counts h) = MAX_HIST_BINS;
  ho_range : Forall (λ n, 0 <= n) (h_counts h)
}.

Definition bounds (h : shm_histogram_t) : list Z := take (h_nbins h) (h_bins h).
Definition reported (h : shm_histogram_t) : list Z := take (h_nbins h) (h_counts h).
Definition sum (l : list Z) : Z := foldr Z.add 0 l.

Lemma find_bin_spec bins value i :
  match find_bin bins value i with
  | Some j => (i <= j)%nat ∧ (∃ b, bins !! (j - i)%nat = Some b ∧ value <= b) ∧
      ∀ k b, (k < j - i)%nat → bins !! k = Some b → b < value
  | None => Forall (λ b, b < value) bins
  end.
Proof.
  revert i. induction bins as [|b bins IH]; intros i; simpl; [constructor|].
  destruct (Z.leb_spec value b) as [Hle|Hlt].
  - rewrite Nat.sub_diag. split_and!; [lia|by exists b|lia].
  - specialize (IH (S i)). destruct (find_bin bins value (S i)) as [j|]; [|by constructor].
    destruct IH as (Hj & (b' & Hb & Hv) & Hall). replace (j - i)%nat with (S (j - S i))%nat by lia.
    split_and!; [lia|by exists b'|]. intros [|k] b'' Hk; simpl; [by intros [= <-]|]. apply Hall. lia.
Qed.

Lemma sum_insert_add l i n d : l !! i = Some n → sum (<[i := n + d]> l) = sum l + d.
Proof.
  revert i. induction l as [|x l IH]; intros [|i] Hi; simpl in *; simplify_eq; [unfold sum; lia|].
  unfold sum in *. rewrite IH by done. lia.
Qed.

Lemma count_bin_spec h i :
  histogram_ok h → (i < h_nbins h)%nat → Forall (λ n, n < 2 ^ 64 - 1) (h_counts h) →
  ∃ h', count_bin h i = Some h' ∧ histogram_ok h' ∧ bounds h' = bounds h ∧
    reported h' = alter (Z.add 1) i (reported h) ∧ sum (reported h') = sum (reported h) + 1.
Proof.
  intros [Hn Hb Hc Hr] Hi Hmax. unfold count_bin.
  destruct (lookup_lt_is_Some_2 (h_counts h) i) as [n Hl]; [lia|]. rewrite Hl. simpl.
  pose proof (proj1 (Forall_lookup _ _) Hr _ _ Hl) as H0. pose proof (proj1 (Forall_lookup _ _) Hmax _ _ Hl) as H1.
  simpl in H0, H1. rewrite u64_small by lia. eexists. split; [done|].
  assert (take (h_nbins h) (h_counts h) !! i = Some n) as Ht by (by rewrite lookup_take_lt).
  unfold reported. simpl. rewrite take_insert_lt by lia. split_and!; [|done| |by apply sum_insert_add].
  - split; simpl; [done|done|by rewrite length_insert|]. apply Forall_insert; [done|lia].
  - apply list_eq. intros j. destruct (decide (i = j)) as [<-|Hne].
    + rewrite list_lookup_insert_eq, list_lookup_alter_eq by (rewrite length_take; lia). rewrite Ht. simpl. f_equal. lia.
    + by rewrite list_lookup_insert_ne, list_lookup_alter_ne.
Qed.

(** Recording by name counts every value exactly once in the report: in
    the first bin whose bound it does not exceed, or in the last one; recording
    by index, the path of the macros, does the same for the values within the
    bounds, and for the others leaves the report as it was or, with all 32 bins
    in use, writes behind the array. *)
Theorem perf_histogram_paths (h : shm_histogram_t) (value : Z) :
  histogram_ok h → Forall (λ n, n < 2 ^ 64 - 1) (h_counts h) →
  ∃ i h', record_value h value = Some h' ∧ (i < h_nbins h)%nat ∧
    (∀ j b, (j < i)%nat → bounds h !! j = Some b → b < value) ∧
    ((∃ b, bounds h !! i = Some b ∧ value <= b) ∨ i = (h_nbins h - 1)%nat ∧ Forall (λ b, b < value) (bounds h)) ∧
    reported h' = alter (Z.add 1) i (reported h) ∧ sum (reported h') = sum (reported h) + 1 ∧
    match record_value_by_idx h value with
    | Some h2 => if forallb (λ b, b <? value) (bounds h) then histogram_lines h2 = histogram_lines h else h2 = h'
    | None => h_nbins h = MAX_HIST_BINS ∧ Forall (λ b, b < value) (bounds h)
    end.
Proof.
  intros Hok Hmax. pose proof Hok as [Hn Hb Hc _]. unfold record_value, record_value_by_idx.
  fold (bounds h). pose proof (find_bin_spec (bounds h) value 0) as Hf.
  assert (length (bounds h) = h_nbins h) as Hlb by (unfold bounds; rewrite length_take; lia).
  destruct (find_bin (bounds h) value 0) as [i|]; simpl.
  - rewrite Nat.sub_0_r in Hf. destruct Hf as (_ & (b & Hi & Hv) & Hall).
    pose proof (lookup_lt_Some _ _ _ Hi) as Hlt.
    destruct (count_bin_spec h i) as (h' & -> & _ & _ & Hr & Hs); [done|lia|done|].
    exists i, h'. split_and!; [done|lia|done|left; eauto|done|done|].
    destruct (forallb (λ b0, b0 <? value) (bounds h)) eqn:E; [|done]. rewrite forallb_forall in E.
    apply list_elem_of_lookup_2, list_elem_of_In, E in Hi. lia.
  - destruct (count_bin_spec h (h_nbins h - 1)) as (h' & -> & _ & _ & Hr & Hs); [done|lia|done|].
    exists (h_nbins h - 1)%nat, h'. split_and!; [done|lia| |by right|done|done|].
    { intros j b _ Hj. by apply (proj1 (Forall_lookup _ _) Hf j). }
    unfold count_bin. destruct (h_counts h !! h_nbins h) as [n|] eqn:En; simpl.
    2: { apply lookup_ge_None in En. split; [lia|done]. }
    replace (forallb _ _) with true.
    { unfold histogram_lines. simpl. by rewrite take_insert_ge by lia. }
    symmetry. apply forallb_forall. intros b Hin. apply Z.ltb_lt. apply list_elem_of_In in Hin.
    by apply (proj1 (list.Forall_forall _ _) Hf).
Qed.

Definition sample_histogram : shm_histogram_t := new_histogram [108] [10; 100; 1000] 3.

Lemma perf_histogram_paths_witness :
  ∃ i h', record_value sample_histogram 5000 = Some h' ∧ (i < 3)%nat ∧ sum (reported h') = 1.
Proof.
  destruct (perf_histogram_paths sample_histogram 5000) as (i & h' & H1 & H2 & _ & _ & _ & H3 & _).
  - split; [unfold MAX_HIST_BINS; simpl; lia|reflexivity|reflexivity|repeat constructor; lia].
  - repeat constructor; lia.
  - exists i, h'. split; [exact H1|]. split; [exact H2|]. rewrite H3. vm_compute. reflexivity.
Defined.

(** The same value by the two paths: counted in the report, and not. *)
Example perf_histogram_overflow_lost :
  reported <$> record_value sample_histogram 5000 = Some [0; 0; 1] ∧
  reported <$> record_value_by_idx sample_histogram 5000 = Some [0; 0; 0].
Proof. split; vm_compute; reflexivity. Qed.

(** *** Timers *)

(** A process whose tables describe the shared slots. *)
Record ctx_ok (c : perf_ctx) (s : perf_shm_t) : Prop := mk_ctx_ok {
  co_init : is_initialized c = true ∧ ctx_shm c = true ∧ hash_rwlock c = true;
  co_counters : ∃ t, counter_map c = Some t ∧ map_ok (c_name <$> counters s) t;
  co_timers : ∃ t, timer_map c = Some t ∧ map_ok (t_name <$> timers s) t;
  co_slots : slots_ok MAX_COUNTERS (c_name <$> counters s);
  co_tslots : slots_ok MAX_TIMERS (t_name <$> timers s)
}.

Definition timer_of (s : perf_shm_t) (name : list Z) : option shm_timer_t :=
  snd <$> list_find (λ t, t_name t = name) (timers s).

Lemma timer_of_lookup s name i t :
  NoDup (t_name <$> timers s) → timers s !! i = Some t → t_name t = name → timer_of s name = Some t.
Proof.
  intros Hnd Hi Hn. unfold timer_of. rewrite (proj2 (list_find_Some _ _ i t)); [done|].
  split_and!; [done|done|]. intros j y Hj Hlt Hy. subst name.
  assert (j = i); [|lia]. apply (NoDup_lookup (t_name <$> timers s) j i (t_name t)); [done|..];
    rewrite list_lookup_fmap, ?Hi, ?Hj; simpl; congruence.
Qed.

Lemma find_timer_spec c s name :
  ctx_ok c s → metric_name name →
  always (find_or_alloc_timer c s name) (λ r, ∃ i c' s', r = Some (i, c', s') ∧ ctx_ok c' s' ∧
    (0 <= i ∧ (∃ t, timers s' !! Z.to_nat i = Some t ∧ t_name t = name) ∧
       (s' = s ∨ name ∉ t_name <$> timers s ∧ s' = mk_shm (counters s) (timers s ++ [new_timer name]) (histograms s)) ∨
     i = -1 ∧ s' = s ∧ name ∉ t_name <$> timers s ∧ Z.of_nat (length (timers s)) = MAX_TIMERS)).
Proof.
  intros Hok Hn. pose proof Hok as [(Hi & Hs & Hl) (ct & Hct & Hcm) (t & Ht & Hm) Hcs Hts].
  unfold find_or_alloc_timer. rewrite Hs, Ht, Hl. cbn [negb].
  pose proof (lookup_cached_spec _ _ _ _ Hm Hts Hn) as Hc. destruct (lookup_cached t name) as [i|].
  { apply always_ret. destruct Hc as [H0 Hlk]. exists i, c, s. split_and!; [done|done|]. left.
    rewrite list_lookup_fmap in Hlk. apply fmap_Some in Hlk as (x & Hx & ->). eauto 10. }
  apply always_bind. eapply always_mono; [by apply alloc_locked_spec|].
  intros [[i t'] fresh] (Hm' & Hs' & Hc'). simpl in *. apply always_ret. eexists _, _, _. split; [done|].
  destruct fresh; simpl in *.
  - assert ((t_name <$> timers s) ++ [name] = t_name <$> (timers s ++ [new_timer name])) as E.
    { rewrite fmap_app. simpl. by rewrite slot_name_short by apply Hn. }
    rewrite E in *. split.
    { split; simpl; try done; eauto. }
    destruct Hc' as [[H0 Hlk]|(_ & ? & _)]; [|done]. left.
    rewrite list_lookup_fmap in Hlk. apply fmap_Some in Hlk as (x & Hx & Hx').
    split_and!; [done|by eauto|]. right. split; [|done].
    apply so_nodup in Hs'. rewrite <- E in Hs'. apply list.NoDup_app in Hs' as (_ & Hd & _).
    intros Hin. apply (Hd name Hin). by left.
  - split.
    { split; simpl; try done; eauto. }
    rewrite length_fmap in Hc'. destruct Hc' as [[H0 Hlk]|(-> & _ & ? & ?)]; [left|by right].
    rewrite list_lookup_fmap in Hlk. apply fmap_Some in Hlk as (x & Hx & ->). eauto 10.
Qed.

Lemma alter_timer_spec c s i t f :
  ctx_ok c s → timers s !! i = Some t → t_name (f t) = t_name t →
  ∃ s', alter_timer s (Z.of_nat i) f = Some s' ∧ ctx_ok c s' ∧ timers s' !! i = Some (f t) ∧
    (∀ k, k ≠ t_name t → timer_of s' k = timer_of s k) ∧ t_name <$> timers s' = t_name <$> timers s.
Proof.
  intros Hok Hi Hn. unfold alter_timer. rewrite Nat2Z.id, Hi. simpl. eexists. split; [done|].
  assert (t_name <$> <[i:=f t]> (timers s) = t_name <$> timers s) as E.
  { rewrite list_fmap_insert, Hn. apply list_insert_id. by rewrite list_lookup_fmap, Hi. }
  destruct Hok as [H1 H2 H3 H4 H5]. pose proof (lookup_lt_Some _ _ _ Hi).
  split_and!; [split; simpl; rewrite ?E; done|by apply list_lookup_insert_eq| |done].
  intros k Hk. unfold timer_of. simpl. clear -Hi Hn Hk.
  revert i Hi. induction (timers s) as [|x ts IH]; intros [|i] Hi; [done|done| |]; simpl in *; simplify_eq.
  - rewrite !decide_False; congruence.
  - case_decide; [done|]. specialize (IH i Hi).
    by destruct (list_find _ (<[i:=f t]> ts)) as [[]|], (list_find _ ts) as [[]|]; simpl in *.
Qed.

Lemma timer_of_None s name : name ∉ t_name <$> timers s → timer_of s name = None.
Proof.
  intros H. unfold timer_of. rewrite (proj2 (list_find_None _ _)); [done|].
  apply list.Forall_forall. intros t Ht <-. by apply H, list_elem_of_fmap_2.
Qed.

Lemma timer_of_snoc s name k :
  k ≠ slot_name name →
  timer_of (mk_shm (counters s) (timers s ++ [new_timer name]) (histograms s)) k = timer_of s k.
Proof.
  intros Hk. unfold timer_of. simpl. induction (timers s) as [|t ts IH]; simpl.
  - by rewrite decide_False.
  - case_decide; [done|]. destruct (list_find _ (ts ++ _)) as [[]|], (list_find _ ts) as [[]|]; done.
Qed.

Lemma timer_call_spec f c s name :
  (∀ t, t_name (f t) = t_name t) → ctx_ok c s → metric_name name →
  name ∈ t_name <$> timers s ∨ Z.of_nat (length (timers s)) < MAX_TIMERS →
  always (timer_call f c s name) (λ r, ∃ c' s', r = Some (PerfOk, c', s') ∧ ctx_ok c' s' ∧
    timer_of s' name = Some (f (default (new_timer name) (timer_of s name))) ∧
    (∀ k, k ≠ name → timer_of s' k = timer_of s k) ∧ name ∈ t_name <$> timers s').
Proof.
  intros Hf Hok Hn Hroom. unfold timer_call. rewrite (proj1 (co_init _ _ Hok)). cbn [negb].
  apply always_bind. eapply always_mono; [by apply find_timer_spec|].
  intros r (i & c1 & s1 & -> & Hok1 & Hc). apply always_ret. simpl.
  destruct Hc as [(H0 & (t & Ht & Htn) & Hs1)|(_ & _ & Hnin & Hfull)].
  2: { destruct Hroom; [done|lia]. }
  destruct (Z.ltb_spec i 0); [lia|].
  destruct (alter_timer_spec c1 s1 (Z.to_nat i) t f Hok1 Ht (Hf t)) as (s2 & E & Hok2 & Hl2 & Ho2 & Hn2).
  rewrite Z2Nat.id in E by done. rewrite E. simpl. exists c1, s2. split; [done|].
  pose proof (so_nodup _ _ (co_tslots _ _ Hok1)) as Hnd1. pose proof (so_nodup _ _ (co_tslots _ _ Hok2)) as Hnd2.
  assert (timer_of s1 name = Some t) as Ht1 by (by eapply timer_of_lookup).
  split_and!; [done| | |].
  - rewrite (timer_of_lookup s2 name (Z.to_nat i) (f t)); [|done|done|by rewrite Hf]. do 2 f_equal.
    destruct Hs1 as [-> |[Hnin ->]]; [by rewrite Ht1|]. rewrite timer_of_None by done. simpl.
    rewrite (timer_of_lookup _ name (length (timers s)) (new_timer name)) in Ht1; [by simplify_eq|done| |].
    + by apply list_lookup_middle.
    + by apply slot_name_short, Hn.
  - intros k Hk. rewrite Ho2 by congruence. destruct Hs1 as [-> |[_ ->]]; [done|].
    apply timer_of_snoc. rewrite slot_name_short by apply Hn. done.
  - rewrite Hn2. apply list_elem_of_fmap. exists t. split; [done|]. by eapply list_elem_of_lookup_2.
Qed.

(** A reading of the monotonic clock, and its nanoseconds. *)
Definition clock_ok (ts : Z * Z) : Prop := 0 <= ts.1 < 2 ^ 33 ∧ 0 <= ts.2 < 1000000000.
Definition nanos (ts : Z * Z) : Z := ts.1 * 1000000000 + ts.2.

(** The parts may be negative one by one; the sum of the wrapped parts is not. *)
Lemma elapsed_nanos start stop :
  clock_ok start → clock_ok stop → nanos start <= nanos stop → elapsed start stop = nanos stop - nanos start.
Proof.
  unfold clock_ok, nanos, elapsed, i64. intros [H1 H2] [H3 H4] Hle. rewrite !signed_small by lia.
  unfold u64 in *. rewrite (Z.mul_mod_idemp_l (stop.1 - start.1) 1000000000 (2 ^ 64)) by lia.
  rewrite <- Z.add_mod by lia. rewrite Z.mod_small; lia.
Qed.

(** Starting and stopping a timer adds exactly the time between the two
    clock readings to its total, creating the timer when it is new, leaves
    every other timer alone, and keeps the tables and slots consistent, for
    every outcome of the table's allocations. *)
Theorem perf_timer_measures (c : perf_ctx) (s : perf_shm_t) (name : list Z) (start stop : Z * Z) :
  ctx_ok c s → metric_name name → clock_ok start → clock_ok stop → nanos start <= nanos stop →
  name ∈ t_name <$> timers s ∨ Z.of_nat (length (timers s)) < MAX_TIMERS →
  always (r ← po_perf_timer_start start c s name;
          match r with Some (_, c', s') => po_perf_timer_stop stop c' s' name | None => mret None end)
    (λ r, ∃ c' s', r = Some (PerfOk, c', s') ∧ ctx_ok c' s' ∧
      t_total_ns <$> timer_of s' name =
        Some (u64 (default 0 (t_total_ns <$> timer_of s name) + (nanos stop - nanos start))) ∧
      ∀ k, k ≠ name → timer_of s' k = timer_of s k).
Proof.
  intros Hok Hn H1 H2 Hle Hroom. apply always_bind. eapply always_mono.
  { by apply (timer_call_spec (timer_begin start)). }
  intros r (c1 & s1 & -> & Hok1 & Ht1 & Ho1 & Hin1). eapply always_mono.
  { apply (timer_call_spec (timer_end stop)); [done|done|done|by left]. }
  intros r (c2 & s2 & -> & Hok2 & Ht2 & Ho2 & _). exists c2, s2. split_and!; [done|done| |].
  - rewrite Ht2, Ht1. simpl. rewrite elapsed_nanos by done. do 3 f_equal. by destruct (timer_of s name).
  - intros k Hk. by rewrite Ho2, Ho1.
Qed.

(** *** A process right after its start *)

Definition good_env : init_env := mk_init_env true Locked true true (λ _, false).
Definition started : perf_ctx * perf_shm_t :=
  let '(_, c, s) := (po_metrics_init good_env initial_ctx empty_shm 0 0 0 []).1 in (c, s).

Lemma fresh_map_ok t :
  ht_wf str_compare str_hash metric_name t → (∀ k, ht_find str_compare str_hash t k = None) → map_ok [] t.
Proof. intros Hwf Hf. split; [done|]. intros k v _. by rewrite Hf. Qed.

Lemma started_ok : ctx_ok started.1 started.2.
Proof.
  destruct (create_sized_always (V := Z) metric_name str_compare str_hash 64 ltac:(lia) []) as (H1 & _ & _ & F1).
  destruct (create_sized_always (V := Z) metric_name str_compare str_hash 16 ltac:(lia) []) as (H2 & _ & _ & F2).
  split; [done|eexists; split; [done|by apply fresh_map_ok]..| |];
    (split; [constructor|constructor|unfold MAX_COUNTERS, MAX_TIMERS; simpl; lia]).
Qed.

Lemma perf_timer_measures_witness :
  ∃ c s, ((r ← po_perf_timer_start (2, 999999900) started.1 started.2 [116];
           match r with Some (_, c', s') => po_perf_timer_stop (3, 200) c' s' [116] | None => mret None end) [false]).1 =
           Some (PerfOk, c, s) ∧
         t_total_ns <$> timer_of s [116] = Some 300.
Proof.
  assert (metric_name [116]) as Hn by (split; [repeat constructor; lia|unfold MAX_METRIC_NAME; simpl; lia]).
  destruct (perf_timer_measures started.1 started.2 [116] (2, 999999900) (3, 200) started_ok Hn) with (m := [false])
    as (c' & s' & H1 & _ & H2 & _).
  - unfold clock_ok; simpl; lia.
  - unfold clock_ok; simpl; lia.
  - unfold nanos; simpl; lia.
  - right. unfold MAX_TIMERS. simpl. lia.
  - exists c', s'. split; [exact H1|exact H2].
Defined.

(** *** Reports *)

Definition shm_names_ok (s : perf_shm_t) : Prop :=
  Forall (λ c, c_string (c_name c)) (counters s) ∧ Forall (λ t, c_string (t_name t)) (timers s) ∧
  Forall (λ h, c_string (h_name h)) (histograms s).

(** A section that could be printed. *)
Definition section_lines {A} (what : nat) (print : A → list report_line) (sorted : list A) : list report_line :=
  match sorted with [] => [LEmpty what] | _ => LSection what :: (sorted ≫= print) end.

Lemma report_section_spec {A} (F : Prop) what (name : A → list Z) print slots :
  Forall (λ a, c_string (name a)) slots →
  wp F (report_section what (λ a b, strcmp (name a) (name b)) print slots) (λ lines,
    F → ∃ sorted, sorted ≡ₚ slots ∧ StronglySorted (λ a b, strcmp (name a) (name b) <= 0) sorted ∧
      lines = section_lines what print sorted).
Proof.
  intros HD. unfold report_section. destruct (Nat.eqb_spec (length slots) 0) as [E|E].
  - apply wp_ret. intros _. apply nil_length_inv in E as ->. exists []. split_and!; [done|constructor|done].
  - apply wp_bind, wp_alloc; simpl; [|intros HF; apply wp_ret; by intros ?].
    apply wp_bind. eapply wp_mono.
    { pose proof (po_sort_spec (λ a, c_string (name a)) (λ a b, strcmp (name a) (name b)) F slots [] HD) as Hs.
      rewrite app_nil_r in Hs. exact Hs. }
    intros l (mid & -> & Hp & Hs). rewrite app_nil_r. apply wp_ret. intros HF. exists mid. split_and!; [done|by apply Hs|].
    destruct mid; [|done]. apply Permutation_length in Hp. by rewrite <- Hp in E.
Qed.

(** The report is complete and in order: when no allocation fails it lists
    every counter, timer and histogram once, each kind sorted by name; when some
    fail it still ends, without any access out of bounds. *)
Theorem perf_report_complete (c : perf_ctx) (s : perf_shm_t) (m : list bool) :
  is_initialized c = true → shm_names_ok s →
  ∃ lines m', po_perf_report c s m = Some (Some lines, m') ∧
    (no_fail m → ∃ cs ts hs, cs ≡ₚ counters s ∧ ts ≡ₚ timers s ∧ hs ≡ₚ histograms s ∧
      StronglySorted (λ a b, strcmp (c_name a) (c_name b) <= 0) cs ∧
      StronglySorted (λ a b, strcmp (t_name a) (t_name b) <= 0) ts ∧
      StronglySorted (λ a b, strcmp (h_name a) (h_name b) <= 0) hs ∧
      lines = LTitle :: section_lines 0 counter_lines cs ++ section_lines 1 timer_lines ts ++
        section_lines 2 histogram_lines hs).
Proof.
  intros Hi (Hc & Ht & Hh).
  assert (wp (no_fail m) (po_perf_report c s) (λ r, ∃ lines, r = Some lines ∧ (no_fail m → ∃ cs ts hs,
    cs ≡ₚ counters s ∧ ts ≡ₚ timers s ∧ hs ≡ₚ histograms s ∧
      StronglySorted (λ a b, strcmp (c_name a) (c_name b) <= 0) cs ∧
      StronglySorted (λ a b, strcmp (t_name a) (t_name b) <= 0) ts ∧
      StronglySorted (λ a b, strcmp (h_name a) (h_name b) <= 0) hs ∧
      lines = LTitle :: section_lines 0 counter_lines cs ++ section_lines 1 timer_lines ts ++
        section_lines 2 histogram_lines hs))) as H.
  { unfold po_perf_report. rewrite Hi. cbn [negb].
    apply wp_bind. eapply wp_mono; [by apply (report_section_spec (no_fail m) 0 c_name)|]. intros l1 H1.
    apply wp_bind. eapply wp_mono; [by apply (report_section_spec (no_fail m) 1 t_name)|]. intros l2 H2.
    apply wp_bind. eapply wp_mono; [by apply (report_section_spec (no_fail m) 2 h_name)|]. intros l3 H3.
    apply wp_ret. eexists. split; [done|]. intros HF.
    destruct (H1 HF) as (cs & ? & ? & ->), (H2 HF) as (ts & ? & ? & ->), (H3 HF) as (hs & ? & ? & ->).
    exists cs, ts, hs. by split_and!. }
  destruct (H m) as (r & m' & E & _ & lines & -> & Hl); [done|]. eauto.
Qed.

Definition two_counters : perf_shm_t := mk_shm [mk_counter [98] 5; mk_counter [97] 7] [mk_timer [116] (0, 0) 9] [].

Lemma perf_report_complete_witness :
  po_perf_report started.1 two_counters [] =
    Some (Some [LTitle; LSection 0; LCounter [97] 7; LCounter [98] 5; LSection 1; LTimer [116] 9; LEmpty 2], []) ∧
  ∃ lines m', po_perf_report started.1 two_counters [false] = Some (Some lines, m').
Proof.
  split; [vm_compute; reflexivity|].
  destruct (perf_report_complete started.1 two_counters [false]) as (lines & m' & H & _).
  - reflexivity.
  - unfold shm_names_ok. split; [|split]; repeat constructor; lia.
  - exists lines, m'. exact H.
Defined.

(** *** Names that do not fit *)

(** [n] increments in a row. *)
Fixpoint inc_times (n : nat) (c : perf_ctx) (s : perf_shm_t) (name : list Z) : alloc (option (perf_ctx * perf_shm_t)) :=
  match n with
  | O => mret (Some (c, s))
  | S n =>
      r ← po_perf_counter_inc c s name;
      match r with Some (c, s) => inc_times n c s name | None => mret None end
  end.

(** Keys and slot names are short, whatever else they are. *)
Record short_ok (c : perf_ctx) (s : perf_shm_t) (room : Z) : Prop := mk_short_ok {
  sh_init : is_initialized c = true ∧ ctx_shm c = true ∧ hash_rwlock c = true;
  sh_map : ∃ t, counter_map c = Some t ∧ ht_wf str_compare str_hash metric_name t ∧ 0 <= ht_size t < room;
  sh_names : Forall metric_name (c_name <$> counters s);
  sh_count : Z.of_nat (length (counters s)) <= MAX_COUNTERS
}.

Lemma long_name_not_cached t name :
  ht_wf str_compare str_hash metric_name t → c_string name → (MAX_METRIC_NAME <= length name)%nat →
  lookup_cached t name = None.
Proof.
  intros Hwf Hc Hl. rewrite get_cached. unfold ht_find.
  destruct (chain_find _ _ _) as [v|] eqn:E; [|done].
  apply chain_find_Some in E as (c1 & n & c2 & Hb & Hcmp & _).
  assert (node_key n ∈ keys t) as Hin.
  { apply list_elem_of_fmap. exists n. split; [done|].
    apply (bucket_submseteq metric_name str_compare str_hash t name n Hwf). rewrite Hb. set_solver. }
  pose proof (wf_dom _ _ _ _ Hwf) as Hd. rewrite list.Forall_forall in Hd. destruct (Hd _ Hin) as [Hk Hkl].
  apply strcmp_zero in Hcmp; [|done..]. subst. lia.
Qed.

Lemma long_name_not_found names name i :
  Forall metric_name names → c_string name → (MAX_METRIC_NAME <= length name)%nat → scan_slots names name i = None.
Proof.
  intros Hn Hc Hl. revert i. induction Hn as [|n names [Hs Hsl] Hn IH]; intros i; cbn [scan_slots]; [done|].
  rewrite strncmp_short by done. destruct (Z.eqb_spec (strcmp n name) 0) as [E|_]; [|apply IH].
  apply strcmp_zero in E; [|done..]. subst. lia.
Qed.

Lemma slot_name_metric name : c_string name → metric_name (slot_name name).
Proof.
  intros H. split; [by apply Forall_take|]. unfold slot_name, MAX_METRIC_NAME. rewrite length_take. lia.
Qed.

(** One increment takes a slot of its own while there is one. *)
Lemma long_name_inc c s name room :
  short_ok c s room → room < 2 ^ 64 → c_string name → (MAX_METRIC_NAME <= length name)%nat →
  always (po_perf_counter_inc c s name) (λ r, ∃ c' s', r = Some (c', s') ∧ short_ok c' s' (room + 1) ∧
    counters s' = if Z.of_nat (length (counters s)) <? MAX_COUNTERS
                  then counters s ++ [mk_counter (slot_name name) 1] else counters s).
Proof.
  intros [(Hi & Hs & Hl) (t & Ht & Hwf & Hsz) Hn Hc] Hroom Hstr Hlen.
  unfold po_perf_counter_inc, po_perf_counter_add. rewrite Hi. cbn [negb].
  apply always_bind. unfold find_or_alloc_counter. rewrite Hs, Ht, Hl. cbn [negb].
  rewrite long_name_not_cached by done. apply always_bind.
  unfold alloc_locked. rewrite long_name_not_cached, long_name_not_found by done. rewrite length_fmap.
  destruct (Z.leb_spec MAX_COUNTERS (Z.of_nat (length (counters s)))) as [Hfull|Hfree].
  - apply always_ret, always_ret, always_ret. simpl. destruct (Z.ltb_spec (Z.of_nat (length (counters s))) MAX_COUNTERS); [lia|].
    eexists _, _. split_and!; [done| |done]. split; simpl; try done. exists t. split_and!; [done|done|lia..].
  - apply always_bind. eapply always_mono.
    { apply (law_put (D := metric_name)); [done|by apply slot_name_metric|lia]. }
    intros [rc t'] (Hwf' & Hput). apply always_ret, always_ret, always_ret. simpl.
    destruct (Z.leb_spec 0 (Z.of_nat (length (counters s)))); [|lia]. unfold fetch_add. rewrite Nat2Z.id.
    rewrite list_lookup_middle by done. simpl. eexists _, _. split; [done|].
    destruct (Z.ltb_spec (Z.of_nat (length (counters s))) MAX_COUNTERS); [|lia].
    rewrite insert_app_r_alt, Nat.sub_diag by lia. simpl. split; [|done]. split; simpl; [done| | |].
    + exists t'. split_and!; [done|done|..]; simpl in Hput;
        destruct Hput as [(? & _ & ? & Hrc)|(_ & _ & ?)]; try lia; destruct (ht_find _ _ _ _); lia.
    + rewrite fmap_app. apply list.Forall_app. split; [done|]. apply list.Forall_singleton. by apply slot_name_metric.
    + rewrite length_app. simpl. lia.
Qed.

(** A counter name of 64 bytes or more is never found again: every increment
    by name takes a new slot that ends up with 1, until all 2048 slots are gone. *)
Theorem perf_long_name_exhausts (n : nat) (c : perf_ctx) (s : perf_shm_t) (name : list Z) (room : Z) :
  short_ok c s room → room + Z.of_nat n < 2 ^ 64 → c_string name → (MAX_METRIC_NAME <= length name)%nat →
  always (inc_times n c s name) (λ r, ∃ c' s', r = Some (c', s') ∧
    counters s' = counters s ++ replicate (min n (Z.to_nat MAX_COUNTERS - length (counters s)))
                                  (mk_counter (slot_name name) 1)).
Proof.
  intros Hok Hroom Hstr Hlen. revert c s room Hok Hroom. induction n as [|n IH]; intros c s room Hok Hroom; cbn [inc_times].
  { apply always_ret. exists c, s. by rewrite app_nil_r. }
  pose proof (sh_count _ _ _ Hok) as Hc. apply always_bind. eapply always_mono.
  { apply (long_name_inc c s name room); [done|lia|done..]. }
  intros r (c1 & s1 & -> & Hok1 & Hs1). eapply always_mono; [apply (IH c1 s1 (room + 1)); [done|lia]|].
  intros r (c2 & s2 & -> & Hs2). exists c2, s2. split; [done|]. rewrite Hs2, Hs1.
  destruct (Z.ltb_spec (Z.of_nat (length (counters s))) MAX_COUNTERS) as [Hlt|Hge]; unfold MAX_COUNTERS in *.
  - rewrite <- app_assoc, length_app. f_equal. simpl length.
    replace (min (S n) _) with (S (min n (Z.to_nat 2048 - (length (counters s) + 1)))) by lia. done.
  - f_equal. replace (min _ _) with 0%nat by lia. by replace (min _ _) with 0%nat by lia.
Qed.

Lemma started_short : short_ok started.1 started.2 1.
Proof.
  destruct started_ok as [H1 (t & H2 & H3) _ H4 _]. split; [done| |apply H4|vm_compute; discriminate].
  exists t. split_and!; [done|apply H3|..]; pose proof (map_size _ _ H3) as Hsz; vm_compute (counters _) in Hsz; simpl in Hsz; lia.
Qed.

Lemma perf_long_name_exhausts_witness :
  ∃ c s, (inc_times 3000 started.1 started.2 (replicate 64 120) []).1 = Some (c, s) ∧ length (counters s) = 2048%nat.
Proof.
  destruct (perf_long_name_exhausts 3000 started.1 started.2 (replicate 64 120) 1 started_short ltac:(lia)) with (m := @nil bool)
    as (c & s & H1 & H2).
  - apply Forall_replicate. lia.
  - rewrite length_replicate. unfold MAX_METRIC_NAME. lia.
  - exists c, s. split; [exact H1|]. rewrite H2, length_app, length_replicate. vm_compute. reflexivity.
Defined.

(** Reinitialising after a shutdown uses the destroyed lock: the second start
    reports success and the first counter is undefined behaviour. *)
Theorem perf_restart_uses_destroyed_lock :
  let c := po_metrics_shutdown started.1 in
  let r := (po_metrics_init good_env c empty_shm 0 0 0 []).1 in
  r.1.1 = 0 ∧ (po_perf_counter_inc r.1.2 r.2 [97] []).1 = None.
Proof. vm_compute. done. Qed.
