(* ===== verification/PerfShared.v ===== *)
(** * Counters shared by processes and threads ([app/libs/ring2/postoffice/perf/perf.c],
    [metrics.h])

    Any number of processes, each with its table of cached slots, and any number
    of threads in [PO_METRIC_COUNTER_INC] and [PO_METRIC_COUNTER_ADD] at once.
    The atomic parts of a call are the look-up under the read lock, the section
    under write lock and shared mutex, and the atomic addition.  A call site may
    keep the index of its first look-up and later go straight to the addition.
    Names are shorter than [MAX_METRIC_NAME], as [po_perf_counter_create] demands
    ([Perf.perf_long_name_exhausts] has the others). *)

From Stdlib Require Import ZArith Lia.
From stdpp Require Import base list numbers.
From S2P Require Import Prelude Cstring Prime Hashtable Perf.

Local Open Scope Z_scope.

(** A thread of process [p]: before the look-up, before the locked section,
    before the addition. *)
Inductive call_pc : Type :=
| Fast (p : nat) (name : list Z) (delta : Z)
| Slow (p : nat) (name : list Z) (delta : Z)
| Adding (idx : Z) (name : list Z) (delta : Z).

(** [sm_sites]: indices kept at call sites.  [sm_added], [sm_lost]: calls that
    were counted and calls that found no slot, in order. *)
Record shared : Type := mk_shared {
  sm_counters : list shm_counter_t;
  sm_maps : list metric_map;
  sm_calls : list call_pc;
  sm_sites : list (list Z * Z);
  sm_added : list (list Z * Z);
  sm_lost : list (list Z * Z)
}.

Definition after_fast (t : metric_map) (p : nat) (name : list Z) (delta : Z) : call_pc :=
  match lookup_cached t name with Some i => Adding i name delta | None => Slow p name delta end.

Inductive perf_step : shared → shared → Prop :=
| st_attach s n t m :
    0 < n < 2 ^ 64 → (po_hashtable_create_sized n m).1 = Some t →
    perf_step s (mk_shared (sm_counters s) (sm_maps s ++ [t]) (sm_calls s) (sm_sites s) (sm_added s) (sm_lost s))
| st_call s p name delta :
    is_Some (sm_maps s !! p) → metric_name name →
    perf_step s (mk_shared (sm_counters s) (sm_maps s) (sm_calls s ++ [Fast p name delta]) (sm_sites s) (sm_added s) (sm_lost s))
| st_hot_call s name idx delta :
    (name, idx) ∈ sm_sites s →
    perf_step s (mk_shared (sm_counters s) (sm_maps s) (sm_calls s ++ [Adding idx name delta]) (sm_sites s) (sm_added s) (sm_lost s))
| st_fast s before p name delta after t :
    sm_calls s = before ++ Fast p name delta :: after → sm_maps s !! p = Some t →
    perf_step s (mk_shared (sm_counters s) (sm_maps s) (before ++ after_fast t p name delta :: after) (sm_sites s)
      (sm_added s) (sm_lost s))
| st_slow s before p name delta after t m i t' fresh :
    sm_calls s = before ++ Slow p name delta :: after → sm_maps s !! p = Some t →
    (alloc_locked MAX_COUNTERS t (c_name <$> sm_counters s) name m).1 = (i, t', fresh) →
    perf_step s (mk_shared (sm_counters s ++ if fresh : bool then [new_counter name] else []) (<[p := t']> (sm_maps s))
      (before ++ (if 0 <=? i then [Adding i name delta] else []) ++ after) (sm_sites s) (sm_added s)
      (sm_lost s ++ if 0 <=? i then [] else [(name, delta)]))
| st_add s before idx name delta after cs :
    sm_calls s = before ++ Adding idx name delta :: after → fetch_add (sm_counters s) idx delta = Some cs →
    perf_step s (mk_shared cs (sm_maps s) (before ++ after) ((name, idx) :: sm_sites s)
      (sm_added s ++ [(name, delta)]) (sm_lost s)).

(** The creator has just reset the memory. *)
Definition perf_created : shared := mk_shared [] [] [] [] [] [].

(** ** Specification *)

(** What was added to a name. *)
Definition total (log : list (list Z * Z)) (name : list Z) : Z :=
  foldr (λ e n, if bool_decide (e.1 = name) then e.2 + n else n) 0 log.

Definition call_ok (names : list (list Z)) (c : call_pc) : Prop :=
  match c with
  | Fast _ name _ | Slow _ name _ => metric_name name
  | Adding idx name _ => 0 <= idx ∧ names !! Z.to_nat idx = Some name
  end.

Definition names_of (s : shared) : list (list Z) := c_name <$> sm_counters s.

Record perf_inv (s : shared) : Prop := mk_perf_inv {
  pi_slots : slots_ok MAX_COUNTERS (names_of s);
  pi_maps : Forall (map_ok (names_of s)) (sm_maps s);
  pi_calls : Forall (call_ok (names_of s)) (sm_calls s);
  pi_sites : Forall (λ e, 0 <= e.2 ∧ names_of s !! Z.to_nat e.2 = Some e.1) (sm_sites s);
  pi_values : ∀ i c, sm_counters s !! i = Some c → c_value c = u64 (total (sm_added s) (c_name c));
  pi_added : Forall (λ e, e.1 ∈ names_of s) (sm_added s);
  pi_lost : sm_lost s ≠ [] → Z.of_nat (length (sm_counters s)) = MAX_COUNTERS
}.

(** ** Lemmas *)

Lemma total_snoc log e name : total (log ++ [e]) name = total log name + total [e] name.
Proof.
  induction log as [|x log IH]; [done|]. simpl. rewrite IH. simpl. by repeat case_bool_decide; lia.
Qed.

Lemma total_absent log name : Forall (λ e, e.1 ≠ name) log → total log name = 0.
Proof. induction 1 as [|e log He _ IH]; simpl; [done|]. by rewrite bool_decide_false. Qed.

Lemma call_ok_app names more c : call_ok names c → call_ok (names ++ more) c.
Proof. destruct c; simpl; try done. intros [? ?]. split; [done|]. by apply lookup_app_l_Some. Qed.

Lemma fetch_add_spec cs idx delta name :
  (c_name <$> cs) !! Z.to_nat idx = Some name →
  ∃ c, cs !! Z.to_nat idx = Some c ∧ c_name c = name ∧
    fetch_add cs idx delta = Some (<[Z.to_nat idx := mk_counter name (u64 (c_value c + delta))]> cs) ∧
    c_name <$> <[Z.to_nat idx := mk_counter name (u64 (c_value c + delta))]> cs = c_name <$> cs.
Proof.
  intros H. pose proof H as H'. rewrite list_lookup_fmap in H'. apply fmap_Some in H' as (c & Hc & ->). exists c.
  unfold fetch_add. rewrite Hc. split_and!; [done..|]. rewrite list_fmap_insert. by apply list_insert_id.
Qed.

Lemma attach_inv s n t m :
  perf_inv s → 0 < n < 2 ^ 64 → (po_hashtable_create_sized n m).1 = Some t →
  perf_inv (mk_shared (sm_counters s) (sm_maps s ++ [t]) (sm_calls s) (sm_sites s) (sm_added s) (sm_lost s)).
Proof.
  intros [H1 H2 H3 H4 H5 H6 H7] Hn Ht. split; try done. simpl. apply list.Forall_app. split; [done|].
  apply list.Forall_singleton. pose proof (create_sized_always (V := Z) metric_name str_compare str_hash n Hn m) as Hc.
  rewrite Ht in Hc. destruct Hc as (Hwf & _ & _ & Hf). apply (map_ok_app []), fresh_map_ok; done.
Qed.

Lemma slow_inv s before p name delta after t m i t' fresh :
  perf_inv s → sm_calls s = before ++ Slow p name delta :: after → sm_maps s !! p = Some t →
  (alloc_locked MAX_COUNTERS t (c_name <$> sm_counters s) name m).1 = (i, t', fresh) →
  perf_inv (mk_shared (sm_counters s ++ if fresh : bool then [new_counter name] else []) (<[p := t']> (sm_maps s))
      (before ++ (if 0 <=? i then [Adding i name delta] else []) ++ after) (sm_sites s) (sm_added s)
      (sm_lost s ++ if 0 <=? i then [] else [(name, delta)])).
Proof.
  intros [H1 H2 H3 H4 H5 H6 H7] Hcalls Ht Ha. rewrite Hcalls in H3. apply list.Forall_app in H3 as [Hb Hc].
  apply Forall_cons_1 in Hc as [Hn Haf]. simpl in Hn.
  pose proof (proj1 (Forall_lookup _ _) H2 _ _ Ht) as Hm.
  pose proof (alloc_locked_spec MAX_COUNTERS t (names_of s) name Hm H1 Hn m) as Hspec.
  fold (names_of s) in Ha. rewrite Ha in Hspec. simpl in Hspec. destruct Hspec as (Hm' & Hs' & Hres).
  set (cs := sm_counters s ++ _) in *.
  assert (c_name <$> cs = names_of s ++ if fresh then [name] else []) as Ecs.
  { subst cs. rewrite fmap_app. destruct fresh; [|done]. simpl. by rewrite slot_name_short by apply Hn. }
  assert ((if fresh then names_of s ++ [name] else names_of s) = c_name <$> cs) as Enames.
  { rewrite Ecs. destruct fresh; [done|]. by rewrite app_nil_r. }
  rewrite Enames in *. split; unfold names_of; simpl; rewrite ?Ecs.
  - by rewrite <- Ecs.
  - apply Forall_insert; [|by rewrite <- Ecs]. eapply list.Forall_impl; [exact H2|]. intros x. apply map_ok_app.
  - assert (∀ l, Forall (call_ok (names_of s)) l → Forall (call_ok (names_of s ++ if fresh then [name] else [])) l) as Hup.
    { intros l Hl. eapply list.Forall_impl; [exact Hl|]. intros x. apply call_ok_app. }
    apply list.Forall_app. split; [by apply Hup|]. apply list.Forall_app. split; [|by apply Hup].
    destruct (Z.leb_spec 0 i); [|constructor]. apply list.Forall_singleton. simpl. rewrite <- Ecs.
    destruct Hres as [?|(-> & _)]; [done|lia].
  - eapply list.Forall_impl; [exact H4|]. intros e [? ?]. split; [done|]. by apply lookup_app_l_Some.
  - intros j c Hj. subst cs. apply lookup_app_Some in Hj as [Hj|[_ Hj]]; [by eapply H5|].
    destruct fresh; [|done]. apply list_lookup_singleton_Some in Hj as [_ <-]. simpl.
    rewrite slot_name_short by apply Hn. rewrite total_absent; [done|].
    eapply list.Forall_impl; [exact H6|]. simpl. intros e He <-.
    apply so_nodup in Hs'. rewrite Ecs in Hs'. apply list.NoDup_app in Hs' as (_ & Hd & _).
    apply (Hd (e.1) He). by left.
  - eapply list.Forall_impl; [exact H6|]. simpl. intros e He. apply elem_of_app. by left.
  - intros Hl. destruct Hres as [[? _]|(-> & -> & _ & Hfull)].
    + destruct (Z.leb_spec 0 i); [|lia]. rewrite app_nil_r in Hl. specialize (H7 Hl).
      pose proof (so_max _ _ Hs') as Hmax. rewrite length_fmap in Hmax. subst cs. rewrite length_app in *. lia.
    + subst cs. unfold names_of in Hfull. rewrite length_fmap in Hfull. by rewrite app_nil_r.
Qed.

Lemma add_inv s before idx name delta after cs :
  perf_inv s → sm_calls s = before ++ Adding idx name delta :: after → fetch_add (sm_counters s) idx delta = Some cs →
  perf_inv (mk_shared cs (sm_maps s) (before ++ after) ((name, idx) :: sm_sites s)
      (sm_added s ++ [(name, delta)]) (sm_lost s)).
Proof.
  intros [H1 H2 H3 H4 H5 H6 H7] Hcalls Hadd. rewrite Hcalls in H3. apply list.Forall_app in H3 as [Hb Hc].
  apply Forall_cons_1 in Hc as [[H0 Hl] Haf].
  destruct (fetch_add_spec (sm_counters s) idx delta name Hl) as (c & Hc & Hcn & E & En).
  rewrite E in Hadd. injection Hadd as <-.
  split; unfold names_of; simpl; rewrite ?En; try done.
  - by apply list.Forall_app.
  - by constructor.
  - intros j x Hj. rewrite total_snoc. destruct (decide (Z.to_nat idx = j)) as [<-|Hne].
    + rewrite list_lookup_insert_eq in Hj by (by eapply lookup_lt_Some). injection Hj as <-. simpl.
      rewrite bool_decide_true by done. rewrite (H5 _ _ Hc), Hcn, u64_add_l. f_equal. lia.
    + rewrite list_lookup_insert_ne in Hj by done. simpl. rewrite bool_decide_false; [rewrite Z.add_0_r; by eapply H5|].
      intros ->. apply Hne. eapply (NoDup_lookup (names_of s)); [apply H1|done|]. unfold names_of. by rewrite list_lookup_fmap, Hj.
  - apply list.Forall_app. split; [done|]. apply list.Forall_singleton. by eapply list_elem_of_lookup_2.
  - intros Hlost. rewrite length_insert. auto.
Qed.

Lemma perf_step_inv s s' : perf_step s s' → perf_inv s → perf_inv s'.
Proof.
  intros Hstep Hinv. destruct Hstep as [s n t m Hn Ht|s p name delta Hp Hn|s name idx delta Hin
    |s before p name delta after t Hcalls Ht|s before p name delta after t m i t' fresh Hcalls Ht Ha
    |s before idx name delta after cs Hcalls Hadd].
  - by eapply attach_inv.
  - destruct Hinv as [H1 H2 H3 H4 H5 H6 H7]. split; try done. simpl. apply list.Forall_app. split; [done|].
    by apply list.Forall_singleton.
  - destruct Hinv as [H1 H2 H3 H4 H5 H6 H7]. split; try done. simpl. apply list.Forall_app. split; [done|].
    apply list.Forall_singleton. rewrite list.Forall_forall in H4. by apply (H4 (name, idx)).
  - destruct Hinv as [H1 H2 H3 H4 H5 H6 H7]. split; try done. simpl. rewrite Hcalls in H3.
    apply list.Forall_app in H3 as [Hb Hc]. apply Forall_cons_1 in Hc as [Hn Haf].
    apply list.Forall_app. split; [done|]. constructor; [|done].
    pose proof (lookup_cached_spec _ _ t name (proj1 (Forall_lookup _ _) H2 _ _ Ht) H1 Hn) as Hc.
    unfold after_fast. destruct (lookup_cached t name); done.
  - by eapply slow_inv.
  - by eapply add_inv.
Qed.

Lemma perf_reachable s : star perf_step perf_created s → perf_inv s.
Proof.
  intros H. refine (star_invariant _ perf_inv _ _ _ H _); [intros a b; apply perf_step_inv|].
  split; try done; [|constructor..]. split; [constructor|constructor|unfold MAX_COUNTERS; simpl; lia].
Qed.

(** ** Properties *)

(** C30. Counters are exact across processes and threads: in every interleaving no
    name has two slots, the value of a name is the sum of the additions made to
    it, modulo 2^64, every index a thread holds is the slot of its name, and an
    addition is dropped only once all 2048 slots are taken. *)
Theorem perf_counters_exact (s : shared) :
  star perf_step perf_created s →
  NoDup (c_name <$> sm_counters s) ∧ Z.of_nat (length (sm_counters s)) <= MAX_COUNTERS ∧
  (∀ name, default 0 (counter_of (sm_counters s) name) = u64 (total (sm_added s) name)) ∧
  (∀ idx name delta, Adding idx name delta ∈ sm_calls s →
    ∃ cs, fetch_add (sm_counters s) idx delta = Some cs) ∧
  (sm_lost s ≠ [] → Z.of_nat (length (sm_counters s)) = MAX_COUNTERS).
Proof.
  intros H. apply perf_reachable in H as [H1 H2 H3 H4 H5 H6 H7]. pose proof (so_max _ _ H1) as Hmax.
  unfold names_of in Hmax. rewrite length_fmap in Hmax. split_and!; [apply H1|lia| | |done].
  - intros name. unfold counter_of. destruct (list_find _ _) as [[i c]|] eqn:E; simpl.
    + apply list_find_Some in E as (Hi & <- & _). by eapply H5.
    + apply list_find_None in E. rewrite total_absent; [done|]. eapply list.Forall_impl; [exact H6|].
      simpl. intros e He <-. apply list_elem_of_fmap in He as (c & Hc & Hin).
      rewrite list.Forall_forall in E. by apply (E c).
  - intros idx name delta Hin. rewrite list.Forall_forall in H3. destruct (H3 _ Hin) as [_ Hl].
    destruct (fetch_add_spec _ _ delta _ Hl) as (c & _ & _ & -> & _). eauto.
Qed.

(** Two processes meet in the slow path for the same new name; the second finds
    the slot of the first, and a kept index is used once more. *)
Definition table64 : metric_map := default (mk_hashtable [] 0 0) (po_hashtable_create_sized 64 []).1.

Lemma table64_created : (po_hashtable_create_sized 64 []).1 = Some table64.
Proof. vm_compute. reflexivity. Qed.

Definition key_x : list Z := [120].

Lemma key_x_name : metric_name key_x.
Proof. split; [repeat constructor; lia|unfold MAX_METRIC_NAME; simpl; lia]. Qed.

Lemma table64_miss p delta : after_fast table64 p key_x delta = Slow p key_x delta.
Proof. vm_compute. reflexivity. Qed.

(** The table of the process that takes the slot, and of the one that finds it. *)
Definition table_first : metric_map := ((alloc_locked MAX_COUNTERS table64 [] key_x []).1).1.2.
Definition table_second : metric_map := ((alloc_locked MAX_COUNTERS table64 [key_x] key_x []).1).1.2.

Lemma table_first_eq : (alloc_locked MAX_COUNTERS table64 [] key_x []).1 = (0, table_first, true).
Proof. vm_compute. reflexivity. Qed.
Lemma table_second_eq : (alloc_locked MAX_COUNTERS table64 [key_x] key_x []).1 = (0, table_second, false).
Proof. vm_compute. reflexivity. Qed.
Lemma new_counter_x : new_counter key_x = mk_counter key_x 0.
Proof. reflexivity. Qed.

#[local] Opaque table64 table_first table_second key_x after_fast new_counter.

Definition race_won : shared :=
  mk_shared [mk_counter key_x 12] [table_first; table_second] [] [(key_x, 0); (key_x, 0)] [(key_x, 7); (key_x, 5)] [].

Ltac run t := eapply star_step; [t|]; rewrite ?table64_miss, ?new_counter_x; cbn.

Lemma counter_race_reachable : star perf_step perf_created race_won.
Proof.
  run ltac:(eapply (st_attach _ 64 _ []); [lia|apply table64_created]).
  run ltac:(eapply (st_attach _ 64 _ []); [lia|apply table64_created]).
  run ltac:(eapply (st_call _ 0 key_x 5); [by eexists|apply key_x_name]).
  run ltac:(eapply (st_call _ 1 key_x 7); [by eexists|apply key_x_name]).
  run ltac:(eapply (st_fast _ [] 0 key_x 5 [Fast 1 key_x 7] table64); reflexivity).
  run ltac:(eapply (st_fast _ [Slow 0 key_x 5] 1 key_x 7 [] table64); reflexivity).
  run ltac:(eapply (st_slow _ [] 0 key_x 5 [Slow 1 key_x 7] table64 []); [reflexivity|reflexivity|apply table_first_eq]).
  run ltac:(eapply (st_slow _ [Adding 0 key_x 5] 1 key_x 7 [] table64 []); [reflexivity|reflexivity|apply table_second_eq]).
  run ltac:(eapply (st_add _ [Adding 0 key_x 5] 0 key_x 7 []); reflexivity).
  run ltac:(eapply (st_add _ [] 0 key_x 5 []); reflexivity).
  apply star_refl.
Qed.

Lemma perf_counters_exact_witness :
  NoDup (c_name <$> sm_counters race_won) ∧
  default 0 (counter_of (sm_counters race_won) key_x) = u64 (total [(key_x, 7); (key_x, 5)] key_x).
Proof.
  destruct (perf_counters_exact race_won counter_race_reachable) as (H1 & _ & H2 & _).
  split; [exact H1|exact (H2 key_x)].
Defined.
