(* ===== verification/Ini.v ===== *)
(** * The INI reader ([app/libs/ring0/thirdparty/inih/ini.c])

    [ini_parse_stream] as [app/Makefile] builds it: the line buffer is on the heap,
    starts with 200 bytes and doubles up to 1024 ([INI_USE_STACK=0],
    [INI_ALLOW_REALLOC], [INI_MAX_LINE=1024]), a name without a value is passed to
    the handler with a null pointer ([INI_ALLOW_NO_VALUE]), the first error ends
    the reading ([INI_STOP_ON_FIRST_ERROR]), values may go over several lines, and
    inline comments start with a semicolon after white space.  A file is the list
    of its bytes, none of them 0; a string is the list of its characters, and
    [None] a null pointer.  The handler is a parameter with a state of its own; it
    returns [None] where the program uses a null pointer as a string. *)

From Stdlib Require Import ZArith Lia.
From stdpp Require Import base list numbers sets.
From S2P Require Import Prelude.

Local Open Scope Z_scope.

Definition INI_MAX_LINE : nat := 1024.
Definition INI_INITIAL_ALLOC : nat := 200.
Definition MAX_SECTION : nat := 50.
Definition MAX_NAME : nat := 50.
Definition NL : Z := 10.

Definition isspace (c : Z) : bool := (c =? 32) || ((9 <=? c) && (c <=? 13)).

(** [fgets(line, n, file)]: up to [n - 1] bytes, up to a line end; what is left. *)
Fixpoint take_line (n : nat) (s : list Z) : list Z * list Z :=
  match n, s with
  | S n, c :: s =>
      if c =? NL then ([c], s) else let '(l, rest) := take_line n s in (c :: l, rest)
  | _, _ => ([], s)
  end.
Definition fgets (n : nat) (s : list Z) : option (list Z * list Z) :=
  match s with [] => None | _ => Some (take_line (n - 1) s) end.

Fixpoint ini_lskip (s : list Z) : list Z :=
  match s with
  | c :: s' => if isspace c then ini_lskip s' else s
  | [] => []
  end.
Definition ini_rstrip (s : list Z) : list Z := rev (ini_lskip (rev s)).

(** [strchr(chars, c)] for a character of a string. *)
Definition strchr (chars : list Z) (c : Z) : bool := bool_decide (c ∈ chars).

(** The string before the first of [chars] or inline comment, and from there. *)
Fixpoint find_chars_or_comment (was_space : bool) (chars s : list Z) : list Z * list Z :=
  match s with
  | [] => ([], [])
  | c :: s' =>
      if strchr chars c || (was_space && (c =? 59)) then ([], s)
      else let '(a, b) := find_chars_or_comment (isspace c) chars s' in (c :: a, b)
  end.
Definition ini_find_chars_or_comment (s chars : list Z) : list Z * list Z := find_chars_or_comment false chars s.

Definition ini_strncpy0 (src : list Z) (size : nat) : list Z := take (size - 1) src.

(** [while (reader(abyss, 16, stream) != NULL) ...]: whether anything was read. *)
Fixpoint discard (fuel : nat) (s : list Z) : bool * list Z :=
  match fuel, fgets 16 s with
  | S fuel, Some (l, rest) =>
      if bool_decide (list.last l = Some NL) then (true, rest) else (true, (discard fuel rest).2)
  | _, _ => (false, s)
  end.

(** The buffer of [max_line] bytes is full and the line has not ended. *)
Definition overlong (max_line : nat) (line : list Z) : bool :=
  (length line =? max_line - 1)%nat && negb (bool_decide (list.last line = Some NL)).

(** The loop that doubles the buffer and reads on: its size, the line and what is
    left, or [None] when [realloc] fails.  From 200 bytes on the size is 1024 after
    three rounds. *)
Fixpoint grow_line (fuel max_line : nat) (line rest : list Z) : alloc (option (nat * list Z * list Z)) :=
  match fuel with
  | O => mret (Some (max_line, line, rest))
  | S fuel =>
      if overlong max_line line then
        let max_line := Nat.min (2 * max_line) INI_MAX_LINE in
        ok ← malloc;
        if negb ok then mret None
        else
          match fgets (max_line - length line) rest with
          | None => mret (Some (max_line, line, rest))
          | Some (more, rest) =>
              if (INI_MAX_LINE <=? max_line)%nat then mret (Some (max_line, line ++ more, rest))
              else grow_line fuel max_line (line ++ more) rest
          end
      else mret (Some (max_line, line, rest))
  end.
Definition GROWTHS : nat := 3.

(** One line, classified: what the parser does with it. *)
Inductive line_action : Type :=
| SkipLine
| LineError
| NewSection (section : list Z)
| Continuation (value : list Z)
| Pair (name value : list Z)
| NoValue (name : list Z).

Definition inline_value (s : list Z) : list Z := (ini_find_chars_or_comment s []).1.

Definition classify (first : bool) (prev_name line : list Z) : line_action :=
  let bom := match line with
             | a :: b :: c :: _ => first && (a =? 239) && (b =? 187) && (c =? 191)
             | _ => false end in
  let start0 := if bom then drop 3 line else line in
  let skipped := ini_lskip start0 in
  let start := ini_rstrip skipped in
  let indented := bom || negb (length skipped =? length start0)%nat in
  match start with
  | [] => SkipLine
  | c :: rest =>
      if (c =? 59) || (c =? 35) then SkipLine
      else if negb (bool_decide (prev_name = [])) && indented then Continuation (ini_rstrip (inline_value start))
      else if c =? 91 then
        let '(a, b) := ini_find_chars_or_comment rest [93] in
        match b with 93 :: _ => NewSection (ini_strncpy0 a MAX_SECTION) | _ => LineError end
      else
        let '(a, b) := ini_find_chars_or_comment start [61; 58] in
        match b with
        | e :: value =>
            if (e =? 61) || (e =? 58) then Pair (ini_rstrip a) (ini_rstrip (ini_lskip (inline_value value)))
            else NoValue (ini_rstrip a)
        | [] => NoValue (ini_rstrip a)
        end
  end.

Section parser.
Context {S : Type} (handler : S → list Z → list Z → option (list Z) → alloc (option (bool * S))).

Record ini_state : Type := mk_ini {
  ini_section : list Z;
  ini_prev_name : list Z;
  ini_lineno : Z;
  ini_error : Z;
  ini_user : S
}.

(** The first error is kept. *)
Definition fail_at (lineno error : Z) : Z := if error =? 0 then lineno else error.

(** [if (!HANDLER(user, section, name, value) && !error) error = lineno;] *)
Definition call_handler (st : ini_state) (prev_name name : list Z) (value : option (list Z)) (lineno error : Z) :
    alloc (option ini_state) :=
  r ← handler (ini_user st) (ini_section st) name value;
  mret (match r with
        | None => None
        | Some (ok, user) => Some (mk_ini (ini_section st) prev_name lineno (if ok : bool then error else fail_at lineno error) user)
        end).

Definition ini_line (st : ini_state) (line : list Z) (lineno error : Z) : alloc (option ini_state) :=
  let keep section prev_name error := mret (Some (mk_ini section prev_name lineno error (ini_user st))) in
  match classify (lineno =? 1) (ini_prev_name st) line with
  | SkipLine => keep (ini_section st) (ini_prev_name st) error
  | LineError => keep (ini_section st) (ini_prev_name st) (fail_at lineno error)
  | NewSection section => keep section [] error
  | Continuation value => call_handler st (ini_prev_name st) (ini_prev_name st) (Some value) lineno error
  | Pair name value => call_handler st (ini_strncpy0 name MAX_NAME) name (Some value) lineno error
  | NoValue name => call_handler st (ini_prev_name st) name None lineno error
  end.

(** The loop over the lines: the result and the state of the handler; -2 is a
    failed [realloc]. *)
Fixpoint parse_lines (fuel max_line : nat) (stream : list Z) (st : ini_state) : alloc (option (Z * S)) :=
  match fuel, fgets max_line stream with
  | Datatypes.S fuel, Some (line, rest) =>
      g ← grow_line GROWTHS max_line line rest;
      match g with
      | None => mret (Some (-2, ini_user st))
      | Some (max_line, line, rest) =>
          let lineno := ini_lineno st + 1 in
          let '(lost, rest) := if overlong max_line line then discard (length rest) rest else (false, rest) in
          let error := if lost : bool then fail_at lineno (ini_error st) else ini_error st in
          r ← ini_line st line lineno error;
          match r with
          | None => mret None
          | Some st => if ini_error st =? 0 then parse_lines fuel max_line rest st else mret (Some (ini_error st, ini_user st))
          end
      end
  | _, _ => mret (Some (ini_error st, ini_user st))
  end.

(** Every line takes a byte at least. *)
Definition ini_parse_stream (stream : list Z) (user : S) : alloc (option (Z * S)) :=
  ok ← malloc;
  if negb ok then mret (Some (-2, user))
  else parse_lines (length stream) INI_INITIAL_ALLOC stream (mk_ini [] [] 0 0 user).

(** [None]: the file cannot be opened. *)
Definition ini_parse (file : option (list Z)) (user : S) : alloc (option (Z * S)) :=
  match file with
  | None => mret (Some (-1, user))
  | Some bytes => ini_parse_stream bytes user
  end.
End parser.
Arguments ini_state S : clear implicits.
Arguments mk_ini {S}.
Arguments ini_parse : simpl never.

(** ** Specification: lines *)

(** The lines of a file: up to 1023 bytes each, the rest of a longer one is
    dropped. *)
Fixpoint file_lines (fuel : nat) (s : list Z) : list (list Z) :=
  match fuel, fgets INI_MAX_LINE s with
  | S fuel, Some (line, rest) =>
      line :: file_lines fuel (if overlong INI_MAX_LINE line then (discard (length rest) rest).2 else rest)
  | _, _ => []
  end.

(** A line that is a name alone, and a file with one. *)
Definition bare_line (line : list Z) : Prop := ∃ first prev name, classify first prev line = NoValue name.
Definition bare_file (bytes : list Z) : Prop := ∃ line, line ∈ file_lines (length bytes) bytes ∧ bare_line line.

(** ** Specification: files of a simple shape *)

Inductive cfg_line : Type :=
| CBlank
| CNote (text : list Z)
| CSection (section : list Z)
| CPair (key value : list Z).

Definition print_line (l : cfg_line) : list Z :=
  match l with
  | CBlank => [NL]
  | CNote text => 35 :: text ++ [NL]
  | CSection section => 91 :: section ++ [93; NL]
  | CPair key value => key ++ [32; 61; 32] ++ value ++ [NL]
  end.
Definition print_file (ls : list cfg_line) : list Z := concat (print_line <$> ls).

(** Section and key names: printable characters other than [# : ; = [ ]]. *)
Definition word_char (c : Z) : bool := (32 <? c) && (c <? 127) && negb (strchr [35; 58; 59; 61; 91; 93] c).
Definition is_word (s : list Z) : Prop := s ≠ [] ∧ Forall (λ c, word_char c = true) s.
(** Values: no line end, semicolon or hash, no white space at the ends. *)
Definition is_value (s : list Z) : Prop :=
  Forall (λ c, c ≠ NL ∧ c ≠ 59 ∧ c ≠ 35) s ∧ ini_lskip s = s ∧ ini_rstrip s = s.
Definition is_line (l : cfg_line) : Prop :=
  (length (print_line l) < INI_MAX_LINE)%nat ∧
  match l with
  | CBlank => True
  | CNote text => NL ∉ text
  | CSection section => is_word section ∧ (length section < MAX_SECTION)%nat
  | CPair key value => is_word key ∧ is_value value
  end.

(** The pairs of a file, with the section they are in. *)
Fixpoint events (section : list Z) (ls : list cfg_line) : list (list Z * list Z * list Z) :=
  match ls with
  | [] => []
  | CSection s :: ls => events s ls
  | CPair k v :: ls => (section, k, v) :: events section ls
  | _ :: ls => events section ls
  end.

(** ** Lemmas *)

Lemma take_line_spec n l rest :
  NL ∉ l → (length l < n)%nat → take_line n (l ++ NL :: rest) = (l ++ [NL], rest).
Proof.
  revert n. induction l as [|c l IH]; intros [|n] Hl Hn; simpl in *; try lia; [done|].
  apply not_elem_of_cons in Hl as [Hc Hl]. destruct (Z.eqb_spec c NL) as [->|_]; [by destruct Hc|]. rewrite IH; [done|done|lia].
Qed.

Lemma rstrip_space l c : isspace c = true → ini_rstrip (l ++ [c]) = ini_rstrip l.
Proof. intros H. unfold ini_rstrip. rewrite rev_app_distr. simpl. by rewrite H. Qed.

Lemma rstrip_char l c : isspace c = false → ini_rstrip (l ++ [c]) = l ++ [c].
Proof. intros H. unfold ini_rstrip. rewrite rev_app_distr. simpl. rewrite H. simpl. by rewrite rev_involutive. Qed.

Lemma lskip_char c l : isspace c = false → ini_lskip (c :: l) = c :: l.
Proof. intros H. simpl. by rewrite H. Qed.

Lemma word_not_space c : word_char c = true → isspace c = false.
Proof. unfold word_char, isspace. destruct (strchr _ c); simpl; lia. Qed.

Lemma word_not_in c chars : word_char c = true → chars ⊆ [35; 58; 59; 61; 91; 93] → strchr chars c = false.
Proof.
  unfold word_char, strchr. intros H Hs. apply bool_decide_eq_false. intros E.
  apply Hs in E. rewrite bool_decide_true in H by done. by rewrite andb_false_r in H.
Qed.

(** A word is not shortened at its end, and neither is what it ends. *)
Lemma rstrip_word a w : is_word w → ini_rstrip (a ++ w) = a ++ w.
Proof.
  intros [Hne Hw]. destruct (exists_last Hne) as (w' & c & ->).
  apply list.Forall_app in Hw as [_ Hc]. apply Forall_cons_1 in Hc as [Hc _].
  rewrite app_assoc. by apply rstrip_char, word_not_space.
Qed.

Lemma rstrip_value a v : is_value v → v ≠ [] → ini_rstrip (a ++ v) = a ++ v.
Proof.
  intros (_ & _ & Hr) Hne. destruct (exists_last Hne) as (v' & c & ->). rewrite app_assoc.
  destruct (isspace c) eqn:Hs; [|by apply rstrip_char]. rewrite rstrip_space in Hr by done.
  exfalso. assert (length (ini_rstrip v') = length (v' ++ [c])) as E by (by rewrite Hr).
  rewrite length_app in E. unfold ini_rstrip in E. rewrite length_rev in E. simpl in E.
  assert (∀ l, (length (ini_lskip l) <= length l)%nat) as Hl.
  { clear. induction l as [|x l IH]; simpl; [lia|]. destruct (isspace x); simpl; lia. }
  specialize (Hl (rev v')). rewrite length_rev in Hl. lia.
Qed.

Lemma find_word w chars b rest :
  Forall (λ c, word_char c = true) w → chars ⊆ [35; 58; 59; 61; 91; 93] →
  find_chars_or_comment b chars (w ++ rest) =
    (w ++ (find_chars_or_comment (if w then b else false) chars rest).1,
     (find_chars_or_comment (if w then b else false) chars rest).2).
Proof.
  intros Hw Hs. revert b. induction Hw as [|c w Hc Hw IH]; intros b; simpl; [by destruct (find_chars_or_comment _ _ _)|].
  rewrite (word_not_in c chars) by done.
  assert (c =? 59 = false) as ->.
  { apply Z.eqb_neq. intros ->. by vm_compute in Hc. }
  rewrite andb_false_r. simpl. rewrite (IH (isspace c)), word_not_space by done. by destruct w.
Qed.

Lemma inline_plain b s : 59 ∉ s → find_chars_or_comment b [] s = (s, []).
Proof.
  revert b. induction s as [|c s IH]; intros b Hs; simpl; [done|]. apply not_elem_of_cons in Hs as [Hc Hs].
  destruct (Z.eqb_spec c 59); [done|]. rewrite andb_false_r. simpl. by rewrite IH.
Qed.

Lemma rstrip_cons c l : isspace c = false → ini_rstrip (c :: l) = c :: ini_rstrip l.
Proof.
  intros Hc. induction l as [|x l IH] using rev_ind; [by apply (rstrip_char [])|].
  destruct (isspace x) eqn:Hx.
  - by rewrite app_comm_cons, !rstrip_space, IH.
  - by rewrite app_comm_cons, !rstrip_char.
Qed.

(** No byte-order mark, no indentation. *)
Lemma classify_plain first prev c line :
  isspace c = false → c ≠ 239 →
  classify first prev (c :: line) =
    (if (c =? 59) || (c =? 35) then SkipLine
     else if c =? 91 then
       let '(a, b) := ini_find_chars_or_comment (ini_rstrip line) [93] in
       match b with 93 :: _ => NewSection (ini_strncpy0 a MAX_SECTION) | _ => LineError end
     else
       let '(a, b) := ini_find_chars_or_comment (c :: ini_rstrip line) [61; 58] in
       match b with
       | e :: value =>
           if (e =? 61) || (e =? 58) then Pair (ini_rstrip a) (ini_rstrip (ini_lskip (inline_value value)))
           else NoValue (ini_rstrip a)
       | [] => NoValue (ini_rstrip a)
       end).
Proof.
  intros Hc Hb. unfold classify.
  replace (match c :: line with
           | a :: b :: d :: _ => first && (a =? 239) && (b =? 187) && (d =? 191)
           | _ => false end) with false.
  2: { destruct line as [|b [|d line]]; [done|done|]. destruct (Z.eqb_spec c 239); [done|]. by rewrite andb_false_r. }
  cbn zeta iota. rewrite lskip_char, rstrip_cons, Nat.eqb_refl by done. simpl. by rewrite andb_false_r.
Qed.

Lemma word_head w : is_word w → ∃ c w', w = c :: w' ∧ word_char c = true ∧ Forall (λ c, word_char c = true) w'.
Proof. intros [Hne Hw]. destruct Hw as [|c w Hc Hw]; [done|]. eauto. Qed.

Lemma classify_section first prev s :
  is_word s → (length s < MAX_SECTION)%nat → classify first prev (print_line (CSection s)) = NewSection s.
Proof.
  intros Hs Hl. simpl. rewrite classify_plain by done. simpl.
  change [93; NL] with ([93] ++ [NL]). rewrite (app_assoc s), rstrip_space, rstrip_char by done.
  unfold ini_find_chars_or_comment. rewrite (find_word s [93] false [93]); [|apply Hs|set_solver]. simpl.
  rewrite app_nil_r. unfold ini_strncpy0. rewrite take_ge; [done|]. unfold MAX_SECTION in *. lia.
Qed.

Lemma value_part v : is_value v →
  ini_rstrip ([32; 61; 32] ++ v ++ [NL]) = [32; 61] ++ (match v with [] => [] | _ => 32 :: v end).
Proof.
  intros Hv. rewrite app_assoc, rstrip_space by done. destruct v as [|c v]; [done|].
  by rewrite (rstrip_value [32; 61; 32] (c :: v)).
Qed.

Lemma rstrip_word_app w rest : Forall (λ c, word_char c = true) w → ini_rstrip (w ++ rest) = w ++ ini_rstrip rest.
Proof. induction 1 as [|c w Hc Hw IH]; [done|]. simpl. rewrite rstrip_cons by (by apply word_not_space). by rewrite IH. Qed.

Lemma classify_pair first prev k v :
  is_word k → is_value v → classify first prev (print_line (CPair k v)) = Pair k v.
Proof.
  intros Hk Hv. destruct (word_head k Hk) as (c & k' & -> & Hc & Hk').
  assert (c ≠ 239 ∧ c ≠ 59 ∧ c ≠ 35 ∧ c ≠ 91) as (H1 & H2 & H3 & H4).
  { split_and!; intros ->; by vm_compute in Hc. }
  unfold print_line. rewrite <- app_comm_cons, classify_plain; [|by apply word_not_space|done].
  rewrite (proj2 (Z.eqb_neq c 59)), (proj2 (Z.eqb_neq c 35)), (proj2 (Z.eqb_neq c 91)) by done. simpl orb. cbn iota.
  rewrite rstrip_word_app, value_part by done.
  unfold ini_find_chars_or_comment. rewrite app_comm_cons, (find_word (c :: k') [61; 58]); [|by constructor|set_solver].
  set (tail := match v with [] => [] | _ => 32 :: v end).
  assert (find_chars_or_comment false [61; 58] ([32; 61] ++ tail) = ([32], 61 :: tail)) as -> by done.
  simpl fst. simpl snd. cbn iota beta. rewrite rstrip_space by done.
  rewrite (rstrip_word [] (c :: k') Hk : ini_rstrip (c :: k') = c :: k'). simpl orb. cbn iota. f_equal.
  destruct Hv as (Hv & Hl & Hr). subst tail. unfold inline_value, ini_find_chars_or_comment.
  destruct v as [|x v]; [done|]. rewrite inline_plain; [simpl fst; change (ini_lskip (32 :: x :: v)) with (ini_lskip (x :: v)); congruence|].
  apply not_elem_of_cons. split; [done|]. intros Hin. rewrite list.Forall_forall in Hv. by apply Hv in Hin as (_ & ? & _).
Qed.

Lemma classify_print first prev l : is_line l →
  classify first prev (print_line l) =
    match l with CBlank | CNote _ => SkipLine | CSection s => NewSection s | CPair k v => Pair k v end.
Proof.
  intros [_ Hl]. destruct l as [|text|s|k v].
  - by destruct first.
  - simpl. by rewrite classify_plain.
  - destruct Hl. by apply classify_section.
  - destruct Hl. by apply classify_pair.
Qed.

Lemma word_no_nl w : Forall (λ c, word_char c = true) w → NL ∉ w.
Proof. intros Hw Hin. rewrite list.Forall_forall in Hw. specialize (Hw _ Hin). by vm_compute in Hw. Qed.

Lemma print_line_body l : is_line l → ∃ body, print_line l = body ++ [NL] ∧ NL ∉ body.
Proof.
  intros [_ Hl]. destruct l as [|text|s|k v]; simpl in *.
  - exists []. split; [done|apply not_elem_of_nil].
  - exists (35 :: text). split; [done|]. by apply not_elem_of_cons.
  - exists (91 :: s ++ [93]). destruct Hl as [[_ Hs] _]. apply word_no_nl in Hs. split; [by simpl; rewrite <- app_assoc|].
    apply not_elem_of_cons. split; [done|]. apply not_elem_of_app. split; [done|]. by apply not_elem_of_cons; split; [|apply not_elem_of_nil].
  - exists (k ++ [32; 61; 32] ++ v). destruct Hl as [[_ Hk] (Hv & _)]. apply word_no_nl in Hk.
    split; [by rewrite <- app_assoc|]. rewrite !not_elem_of_app. split_and!; [done| |].
    + intros Hin. repeat (apply elem_of_cons in Hin as [Hin|Hin]; [done|]). by apply not_elem_of_nil in Hin.
    + intros Hin. rewrite list.Forall_forall in Hv. by apply Hv in Hin as (? & _).
Qed.

(** *** The growing buffer *)

(** Reading in two parts. *)
Lemma take_line_more n k s : overlong (S n) (take_line n s).1 = true →
  take_line (n + k) s =
    ((take_line n s).1 ++ (take_line k (take_line n s).2).1, (take_line k (take_line n s).2).2).
Proof.
  revert s. induction n as [|n IH]; intros s H; [by destruct (take_line k s) eqn:E; simpl; rewrite E|].
  destruct s as [|c s]; [by unfold overlong in H|]. simpl in *. destruct (Z.eqb_spec c NL) as [->|Hc].
  { unfold overlong in H. simpl in H. by rewrite andb_false_r in H. }
  specialize (IH s). destruct (take_line n s) as [l r]. simpl in *. rewrite IH; [done|].
  unfold overlong in *. simpl in H. apply andb_true_iff in H as [H1 H2]. apply Nat.eqb_eq in H1. apply andb_true_iff.
  rewrite Nat.eqb_eq. split; [lia|]. apply negb_true_iff in H2. apply negb_true_iff. apply bool_decide_eq_false in H2. apply bool_decide_eq_false.
  destruct l as [|x l]; [done|]. exact H2.
Qed.

(** A line that is not cut is the same for a larger buffer. *)
Lemma take_line_done n k s : overlong (S n) (take_line n s).1 = false → take_line (n + k) s = take_line n s.
Proof.
  revert s. induction n as [|n IH]; intros s H; [done|]. destruct s as [|c s]; [by destruct k|]. simpl in *.
  destruct (Z.eqb_spec c NL) as [->|Hc]; [done|]. specialize (IH s). destruct (take_line n s) as [l r]. simpl in *. rewrite IH; [done|].
  unfold overlong in *. simpl in H. apply andb_false_iff in H. apply andb_false_iff. destruct H as [H|H].
  - left. apply Nat.eqb_neq in H. apply Nat.eqb_neq. lia.
  - apply negb_false_iff, bool_decide_eq_true in H. destruct l as [|x l]; [simpl in H; congruence|]. right. by apply negb_false_iff, bool_decide_eq_true.
Qed.

Lemma take_line_length n s : (length (take_line n s).1 <= n)%nat.
Proof.
  revert s. induction n as [|n IH]; intros [|c s]; simpl; try lia. destruct (c =? NL); [simpl; lia|].
  specialize (IH s). destruct (take_line n s). simpl in *. lia.
Qed.

Lemma take_line_whole n s : (length (take_line n s).1 < n)%nat → list.last (take_line n s).1 ≠ Some NL → (take_line n s).2 = [].
Proof.
  revert s. induction n as [|n IH]; intros [|c s]; simpl; try lia; try done. destruct (Z.eqb_spec c NL) as [->|]; [done|].
  specialize (IH s). destruct (take_line n s) as [l r]. simpl in *. intros H1 H2. apply IH; [lia|]. by destruct l.
Qed.

(** The rounds of the growth that may be needed from a size. *)
Definition growths_enough (fuel max_line : nat) : Prop :=
  (200 <= max_line <= INI_MAX_LINE)%nat ∧ (INI_MAX_LINE <= max_line * 2 ^ fuel)%nat.

(** However the buffer grew, the line and the rest are those of one call with a
    buffer of [INI_MAX_LINE] bytes. *)
Definition whole_line (s : list Z) (r : option (nat * list Z * list Z)) : Prop :=
  match r with
  | None => True
  | Some (max_line, line, rest) =>
      (200 <= max_line <= INI_MAX_LINE)%nat ∧ take_line (INI_MAX_LINE - 1) s = (line, rest) ∧
      overlong max_line line = overlong INI_MAX_LINE line
  end.

Lemma grow_whole fuel max_line s :
  growths_enough fuel max_line →
  always (grow_line fuel max_line (take_line (max_line - 1) s).1 (take_line (max_line - 1) s).2) (whole_line s).
Proof.
  revert max_line. induction fuel as [|fuel IH]; intros max_line [Hm Hf].
  { apply always_ret. simpl in Hf. replace max_line with INI_MAX_LINE by lia. split_and!; [unfold INI_MAX_LINE; lia..| |done].
    by destruct (take_line _ s). }
  cbn [grow_line]. destruct (overlong max_line _) eqn:Ho.
  - apply always_bind, always_malloc. intros []; [|by apply always_ret]. cbn [negb].
    set (big := Nat.min (2 * max_line) INI_MAX_LINE).
    assert (max_line <= big <= INI_MAX_LINE)%nat as Hbig by (subst big; lia).
    assert (length (take_line (max_line - 1) s).1 = (max_line - 1)%nat) as Hl.
    { unfold overlong in Ho. apply andb_true_iff in Ho as [Ho _]. by apply Nat.eqb_eq in Ho. }
    assert (overlong (S (max_line - 1)) (take_line (max_line - 1) s).1 = true) as Ho' by (by replace (S (max_line - 1)) with max_line by lia).
    assert (∀ b, (max_line <= b)%nat → take_line (b - 1) s =
      ((take_line (max_line - 1) s).1 ++ (take_line (b - max_line) (take_line (max_line - 1) s).2).1,
       (take_line (b - max_line) (take_line (max_line - 1) s).2).2)) as Hsplit.
    { intros b Hb. rewrite <- (take_line_more (max_line - 1) (b - max_line) s) by done. f_equal. lia. }
    rewrite Hl. unfold fgets. replace (big - (max_line - 1) - 1)%nat with (big - max_line)%nat by lia.
    destruct (take_line (max_line - 1) s).2 as [|c r] eqn:Er.
    + apply always_ret. split_and!; [lia..| |].
      * rewrite (Hsplit INI_MAX_LINE) by lia. destruct (INI_MAX_LINE - max_line)%nat; simpl; by rewrite app_nil_r.
      * unfold overlong. rewrite Hl. f_equal. unfold INI_MAX_LINE in *.
        destruct (Nat.eqb_spec (max_line - 1) (big - 1)), (Nat.eqb_spec (max_line - 1) (1024 - 1)); try done; lia.
    + destruct (take_line (big - max_line) (c :: r)) as [more rest] eqn:Em.
      pose proof (Hsplit big ltac:(lia)) as Hs. rewrite Em in Hs. cbn [fst snd] in Hs.
      destruct (Nat.leb_spec INI_MAX_LINE big) as [Hge|Hlt].
      * apply always_ret. replace big with INI_MAX_LINE in * by lia. by split_and!; [unfold INI_MAX_LINE; lia..| |].
      * specialize (IH big). rewrite Hs in IH. apply IH. subst big. split; [lia|]. simpl in Hf. lia.
  - apply always_ret.
    assert (overlong (S (max_line - 1)) (take_line (max_line - 1) s).1 = false) as Ho' by (by replace (S (max_line - 1)) with max_line by lia).
    assert (take_line (INI_MAX_LINE - 1) s = take_line (max_line - 1) s) as E.
    { rewrite <- (take_line_done (max_line - 1) (INI_MAX_LINE - max_line) s Ho'). f_equal. lia. }
    split_and!; [lia..|by rewrite E; destruct (take_line _ s)|].
    rewrite Ho. symmetry. unfold overlong in *.
    destruct (bool_decide _) eqn:Eb; [by rewrite andb_false_r|]. rewrite andb_true_r in Ho. rewrite andb_true_r.
    pose proof (take_line_length (max_line - 1) s). apply Nat.eqb_neq in Ho. apply Nat.eqb_neq. lia.
Qed.

Lemma grow_succeeds fuel max_line line rest : succeeds (grow_line fuel max_line line rest) is_Some.
Proof.
  revert max_line line rest. induction fuel as [|fuel IH]; intros max_line line rest; [by apply succeeds_ret|]. cbn [grow_line].
  destruct (overlong _ _); [|by apply succeeds_ret]. apply succeeds_bind, succeeds_malloc. cbn [negb].
  destruct (fgets _ _) as [[more rest']|]; [|by apply succeeds_ret]. destruct (_ <=? _)%nat; [by apply succeeds_ret|]. apply IH.
Qed.

Lemma growths_from max_line : (200 <= max_line <= INI_MAX_LINE)%nat → growths_enough GROWTHS max_line.
Proof. unfold growths_enough, GROWTHS, INI_MAX_LINE. intros H. split; [done|]. change (2 ^ 3)%nat with 8%nat. lia. Qed.

(** A printed line is read whole. *)
Lemma grow_printed max_line l rest line rest' :
  is_line l → (200 <= max_line <= INI_MAX_LINE)%nat → fgets max_line (print_line l ++ rest) = Some (line, rest') →
  always (grow_line GROWTHS max_line line rest') (λ r, r = None ∨ ∃ max_line', r = Some (max_line', print_line l, rest) ∧
    (200 <= max_line' <= INI_MAX_LINE)%nat ∧ overlong max_line' (print_line l) = false).
Proof.
  intros Hl Hm Hf. pose proof (grow_whole GROWTHS max_line (print_line l ++ rest) (growths_from _ Hm)) as Hg.
  destruct (print_line_body l Hl) as (body & E & Hb). destruct Hl as [Hlen _]. rewrite E in *.
  unfold fgets in Hf. destruct ((body ++ [NL]) ++ rest) eqn:Es; [done|]. rewrite <- Es in *. clear Es. simplify_eq.
  destruct (take_line (max_line - 1) _) as [x y]. simplify_eq. eapply always_mono; [exact Hg|].
  intros [[[mx line'] rest'']|] Hr; [right|by left]. destruct Hr as (Hmx & Ht & Ho). cbn [fst snd] in *.
  rewrite length_app in Hlen. simpl in Hlen. rewrite <- app_assoc in Ht. change ([NL] ++ rest) with (NL :: rest) in Ht.
  rewrite take_line_spec in Ht by (done || (unfold INI_MAX_LINE in *; lia)). simplify_eq. exists mx. split_and!; [done|lia..|].
  unfold overlong. rewrite last_snoc, (bool_decide_true (Some NL = Some NL)) by done. apply andb_false_r.
Qed.

Lemma length_print_file ls : (length ls <= length (print_file ls))%nat.
Proof.
  induction ls as [|l ls IH]; [simpl; lia|].
  change (print_file (l :: ls)) with (print_line l ++ print_file ls). rewrite length_app. cbn [length].
  assert (0 < length (print_line l))%nat; [|lia]. destruct l; simpl; rewrite ?length_app; simpl; rewrite ?length_app; simpl; lia.
Qed.

Lemma fgets_printed max_line l rest : ∃ line rest', fgets max_line (print_line l ++ rest) = Some (line, rest').
Proof.
  unfold fgets. destruct (print_line l ++ rest) eqn:E; [|destruct (take_line _ _); eauto].
  exfalso. destruct l as [| | |[|] ]; done.
Qed.

Section rules.
Context {S : Type} (handler : S → list Z → list Z → option (list Z) → alloc (option (bool * S))).

(** *** Printed files *)

Section printed.
Context (all : list (list Z * list Z * list Z)) (I : list (list Z * list Z * list Z) → S → Prop).

(** The rule of the loop for every outcome of the allocations. *)
Lemma lines_always ls :
  (∀ seen s k v more u, seen ++ (s, k, v) :: more = all → I seen u →
     always (handler u s k (Some v)) (λ r, ∃ ok u', r = Some (ok, u') ∧ (ok = true → I (seen ++ [(s, k, v)]) u'))) →
  ∀ fuel max_line st seen, Forall is_line ls → (length ls <= fuel)%nat → (200 <= max_line <= INI_MAX_LINE)%nat →
    0 <= ini_lineno st → ini_error st = 0 → seen ++ events (ini_section st) ls = all → I seen (ini_user st) →
    always (parse_lines handler fuel max_line (print_file ls) st) (λ r, ∃ rc u, r = Some (rc, u) ∧ (rc = 0 → I all u)).
Proof.
  intros Hh. induction ls as [|l ls IH]; intros fuel max_line st seen Hls Hf Hm Hn He Ha Hi.
  { destruct fuel; apply always_ret; eexists _, _; (split; [done|]); intros _; by rewrite <- Ha, app_nil_r. }
  apply Forall_cons_1 in Hls as [Hl Hls]. destruct fuel as [|fuel]; simpl in Hf; [lia|]. apply le_S_n in Hf. cbn [parse_lines].
  change (print_file (l :: ls)) with (print_line l ++ print_file ls).
  destruct (fgets_printed max_line l (print_file ls)) as (line & rest & E). rewrite E. apply always_bind.
  eapply always_mono; [by eapply grow_printed|]. intros r [->|(mx & -> & Hmx & ->)]; [apply always_ret; eexists _, _; by split|].
  cbn beta iota zeta. unfold ini_line. rewrite (classify_print _ _ l Hl), He.
  destruct l as [|text|s|k v]; cbn [events] in Ha;
    try (apply always_bind, always_ret; cbn [ini_error Z.eqb]; by apply (IH fuel mx _ seen); simpl; [..|lia| | |]).
  apply always_bind. unfold call_handler. apply always_bind. eapply always_mono; [by eapply Hh|].
  intros r (ok & u & -> & Hok). apply always_ret. cbn beta iota zeta. cbn [ini_error ini_user].
  destruct ok; cbn [Z.eqb].
  - apply (IH fuel mx _ (seen ++ [(ini_section st, k, v)])); simpl; [done..|lia|done|by rewrite <- app_assoc|by apply Hok].
  - unfold fail_at. cbn [Z.eqb]. destruct (Z.eqb_spec (ini_lineno st + 1) 0); [lia|]. apply always_ret. eexists _, _. by split.
Qed.

(** And when no allocation fails. *)
Lemma lines_succeed ls :
  (∀ seen s k v more u, seen ++ (s, k, v) :: more = all → I seen u →
     succeeds (handler u s k (Some v)) (λ r, ∃ u', r = Some (true, u') ∧ I (seen ++ [(s, k, v)]) u')) →
  ∀ fuel max_line st seen, Forall is_line ls → (length ls <= fuel)%nat → (200 <= max_line <= INI_MAX_LINE)%nat →
    ini_error st = 0 → seen ++ events (ini_section st) ls = all → I seen (ini_user st) →
    succeeds (parse_lines handler fuel max_line (print_file ls) st) (λ r, ∃ u, r = Some (0, u) ∧ I all u).
Proof.
  intros Hh. induction ls as [|l ls IH]; intros fuel max_line st seen Hls Hf Hm He Ha Hi.
  { destruct fuel; apply succeeds_ret; rewrite He; eexists; (split; [done|]); by rewrite <- Ha, app_nil_r. }
  apply Forall_cons_1 in Hls as [Hl Hls]. destruct fuel as [|fuel]; simpl in Hf; [lia|]. apply le_S_n in Hf. cbn [parse_lines].
  change (print_file (l :: ls)) with (print_line l ++ print_file ls).
  destruct (fgets_printed max_line l (print_file ls)) as (line & rest & E). rewrite E. apply succeeds_bind.
  eapply succeeds_mono; [apply always_succeeds; [by eapply grow_printed|apply grow_succeeds]|].
  intros r [[->|(mx & -> & Hmx & ->)] Hr]; [by destruct Hr|].
  cbn beta iota zeta. unfold ini_line. rewrite (classify_print _ _ l Hl), He.
  destruct l as [|text|s|k v]; cbn [events] in Ha;
    try (apply succeeds_bind, succeeds_ret; cbn [ini_error Z.eqb]; by apply (IH fuel mx _ seen)).
  apply succeeds_bind. unfold call_handler. apply succeeds_bind. eapply succeeds_mono; [by eapply Hh|].
  intros r (u & -> & Hok). apply succeeds_ret. cbn beta iota zeta. cbn [ini_error ini_user Z.eqb].
  apply (IH fuel mx _ (seen ++ [(ini_section st, k, v)])); simpl; [done..|by rewrite <- app_assoc|done].
Qed.

Lemma parse_always ls user :
  Forall is_line ls → events [] ls = all → I [] user →
  (∀ seen s k v more u, seen ++ (s, k, v) :: more = all → I seen u →
     always (handler u s k (Some v)) (λ r, ∃ ok u', r = Some (ok, u') ∧ (ok = true → I (seen ++ [(s, k, v)]) u'))) →
  always (ini_parse handler (Some (print_file ls)) user) (λ r, ∃ rc u, r = Some (rc, u) ∧ (rc = 0 → I all u)).
Proof.
  intros Hls Ha Hi Hh. unfold ini_parse, ini_parse_stream. apply always_bind, always_malloc.
  intros []; [|apply always_ret; eexists _, _; by split]. cbn [negb].
  apply (lines_always ls Hh _ _ _ []); [done|apply length_print_file|unfold INI_INITIAL_ALLOC, INI_MAX_LINE; lia|done..].
Qed.

Lemma parse_succeeds ls user :
  Forall is_line ls → events [] ls = all → I [] user →
  (∀ seen s k v more u, seen ++ (s, k, v) :: more = all → I seen u →
     succeeds (handler u s k (Some v)) (λ r, ∃ u', r = Some (true, u') ∧ I (seen ++ [(s, k, v)]) u')) →
  succeeds (ini_parse handler (Some (print_file ls)) user) (λ r, ∃ u, r = Some (0, u) ∧ I all u).
Proof.
  intros Hls Ha Hi Hh. unfold ini_parse, ini_parse_stream. apply succeeds_bind, succeeds_malloc. cbn [negb].
  apply (lines_succeed ls Hh _ _ _ []); [done|apply length_print_file|unfold INI_INITIAL_ALLOC, INI_MAX_LINE; lia|done..].
Qed.
End printed.

(** *** All files *)

(** The outcome of a call: the invariant of the handler's state, or the condition
    under which it is undefined. *)
Definition kept (I : S → Prop) (B : Prop) {A} (r : option (A * S)) : Prop :=
  match r with Some (_, u) => I u | None => B end.

Lemma line_kept I B st line lineno error :
  (∀ u s k v, I u → (v = None → bare_line line) → always (handler u s k v) (kept I B)) → I (ini_user st) →
  always (ini_line handler st line lineno error) (λ r, match r with Some st' => I (ini_user st') | None => B end).
Proof.
  intros Hh Hi. unfold ini_line. destruct (classify _ _ _) eqn:Ec; try (by apply always_ret);
    unfold call_handler; apply always_bind; (eapply always_mono; [apply Hh; [done|]|intros [[ok u]|] Hr; by apply always_ret]); try done.
  intros _. by do 3 eexists.
Qed.

Lemma lines_kept I B fuel : ∀ max_line stream st, (200 <= max_line <= INI_MAX_LINE)%nat →
  (∀ u s k v, I u → (v = None → ∃ line, line ∈ file_lines fuel stream ∧ bare_line line) → always (handler u s k v) (kept I B)) →
  I (ini_user st) → always (parse_lines handler fuel max_line stream st) (kept I B).
Proof.
  induction fuel as [|fuel IH]; intros max_line stream st Hm Hh Hi; [by apply always_ret|]. cbn [parse_lines file_lines] in *.
  destruct stream as [|c stream]; [by apply always_ret|].
  cbn [fgets] in *. pose proof (grow_whole GROWTHS max_line (c :: stream) (growths_from _ Hm)) as Hg.
  destruct (take_line (max_line - 1) (c :: stream)) as [line0 rest0]. apply always_bind. eapply always_mono; [exact Hg|].
  intros [[[mx line] rest]|] Hw; [|by apply always_ret]. destruct Hw as (Hmx & Ht & Ho). rewrite Ht in Hh. rewrite Ho.
  destruct (if overlong INI_MAX_LINE line then discard (length rest) rest else (false, rest)) as [lost rest1] eqn:Er.
  assert (rest1 = if overlong INI_MAX_LINE line then (discard (length rest) rest).2 else rest) as Er'.
  { destruct (overlong _ _); by simplify_eq/=; rewrite ?Er. }
  apply always_bind. eapply always_mono; [apply (line_kept I B); [|exact Hi]|].
  - intros u s k v Hu Hv. apply Hh; [done|]. intros E. exists line. split; [by left|by apply Hv].
  - intros [st'|] Hst; [|by apply always_ret]. destruct (_ =? 0); [|by apply always_ret]. apply IH; [done| |done].
    intros u s k v Hu Hv. apply Hh; [done|]. intros E. destruct (Hv E) as (l & Hl & Hb). exists l. split; [|done].
    right. by rewrite <- Er'.
Qed.

Lemma parse_kept I B file user :
  (∀ u s k v, I u → (v = None → ∃ bytes, file = Some bytes ∧ bare_file bytes) → always (handler u s k v) (kept I B)) → I user →
  always (ini_parse handler file user) (kept I B).
Proof.
  intros Hh Hi. destruct file as [bytes|]; [|by apply always_ret]. unfold ini_parse, ini_parse_stream.
  apply always_bind, always_malloc. intros []; [|by apply always_ret]. cbn [negb].
  apply lines_kept; [unfold INI_INITIAL_ALLOC, INI_MAX_LINE; lia| |done].
  intros u s k v Hu Hv. apply Hh; [done|]. intros E. exists bytes. split; [done|].
  exact (Hv E).
Qed.
End rules.

(** ** Properties *)

(** The reader inverts the printer: on a printed file of simple lines it calls the
    handler for every pair in order, with the section it stands under, until a
    call fails.  What the calls keep of the handler's state holds at the end
    whenever the result is 0, whatever the allocator answers; and when no
    allocation fails and no call does, the result is 0. *)
Theorem ini_parse_print {S} (handler : S → list Z → list Z → option (list Z) → alloc (option (bool * S)))
    (I : list (list Z * list Z * list Z) → S → Prop) (ls : list cfg_line) (user : S) :
  Forall is_line ls → I [] user →
  ((∀ seen s k v more u, seen ++ (s, k, v) :: more = events [] ls → I seen u →
      always (handler u s k (Some v)) (λ r, ∃ ok u', r = Some (ok, u') ∧ (ok = true → I (seen ++ [(s, k, v)]) u'))) →
   always (ini_parse handler (Some (print_file ls)) user) (λ r, ∃ rc u, r = Some (rc, u) ∧ (rc = 0 → I (events [] ls) u))) ∧
  ((∀ seen s k v more u, seen ++ (s, k, v) :: more = events [] ls → I seen u →
      succeeds (handler u s k (Some v)) (λ r, ∃ u', r = Some (true, u') ∧ I (seen ++ [(s, k, v)]) u')) →
   succeeds (ini_parse handler (Some (print_file ls)) user) (λ r, ∃ u, r = Some (0, u) ∧ I (events [] ls) u)).
Proof. intros Hls Hi. split; intros Hh; [by eapply parse_always|by eapply parse_succeeds]. Qed.

(** A handler that remembers the pairs. *)
Definition remember (user : list (list Z * list Z * list Z)) (s k : list Z) (v : option (list Z)) :
    alloc (option (bool * list (list Z * list Z * list Z))) :=
  mret (Some (true, user ++ [(s, k, default [] v)])).

(** [# x], [[s]], [k = 1 2], blank. *)
Definition small_file : list cfg_line := [CNote [32; 120]; CSection [115]; CPair [107] [49; 32; 50]; CBlank].

Lemma small_file_lines : Forall is_line small_file.
Proof.
  repeat constructor; simpl; unfold INI_MAX_LINE, MAX_SECTION; try lia; try done; try (apply bool_decide_unpack; vm_compute; exact I).
  apply (bool_decide_unpack _). vm_compute. exact I.
Qed.

Lemma ini_parse_print_witness :
  (ini_parse remember (Some (print_file small_file)) [] []).1 = Some (0, [([115], [107], [49; 32; 50])]).
Proof.
  destruct (ini_parse_print remember (λ seen u, u = seen) small_file [] small_file_lines eq_refl) as [_ H].
  destruct (H ltac:(intros seen s k v more u _ ->; apply succeeds_ret; by eexists) [] ltac:(constructor)) as [(u & E & ->) _].
  exact E.
Defined.

(** A line of 300 bytes makes the buffer grow once; without the memory for it the
    result is -2.  The values that were read before stay. *)
Theorem long_line_grows :
  let file := [107; 61] ++ replicate 300 120 ++ [NL] in
  (ini_parse remember (Some file) [] []).1 = Some (0, [([], [107], replicate 300 120)]) ∧
  (ini_parse remember (Some file) [] [true; false]).1 = Some (-2, []).
Proof. split; vm_compute; reflexivity. Qed.

(** The first error ends the reading: the pair behind a bad section line is not
    passed on. *)
Theorem first_error_stops :
  (ini_parse remember (Some [97; 61; 49; NL; 91; 115; NL; 98; 61; 50; NL]) [] []).1 = Some (2, [([], [97], [49])]).
Proof. vm_compute. reflexivity. Qed.
