(* ===== verification/Configs.v ===== *)
(** * Configuration files ([app/src/utils/configs.c])

    Entries are kept in a hash table under the full key [section.key], the
    sections seen in a hash set.  Loading is the INI reader of [Ini] with
    [ini_handler_cb] as its handler; saving rewrites the lines of the file whose
    key has an entry.  Strings are C strings; a value can be a null pointer
    ([None]), and copying one is undefined: the outcome [None] of the handler and
    of loading.  Metrics have no state here, and freeing is left out. *)

From Stdlib Require Import ZArith Lia.
From stdpp Require Import base list numbers.
From S2P Require Import Prelude Cstring Prime Hashtable HashtableGrowth Hashset Ini.

Local Open Scope Z_scope.

(** djb2 over unsigned characters; [str_cmp] is [strcmp]. *)
Definition cfg_str_hash (s : list Z) : Z :=
  foldl (λ hash c, u64 (u64 (u64 (Z.shiftl hash 5) + hash) + c)) 5381 s.
Definition str_cmp (a b : list Z) : Z := strcmp a b.

Record po_config : Type := mk_config {
  cfg_entries : po_hashtable (list Z) (option (list Z));   (* None is NULL *)
  cfg_sections : po_hashset (list Z);
  cfg_strict : bool;
  cfg_last_section : option (list Z)
}.

Inductive inih_error : Type :=
  INIH_ENOSECTION | INIH_ENOKEY | INIH_ENOVALUE | INIH_EDUPKEY | INIH_EDUPSECTION | INIH_EINVAL | INIH_ERANGE | ENOMEM.

Definition DOT : Z := 46.

Definition full_key (section key : list Z) : list Z :=
  match section with [] => key | _ => section ++ DOT :: key end.
Definition get_full_key (section key : list Z) : alloc (option (list Z)) :=
  ok ← malloc; mret (if ok : bool then Some (full_key section key) else None).

(** [is_empty] on a string and on a pointer. *)
Definition is_empty (s : list Z) : bool := match s with [] => true | _ => false end.
Definition is_empty_ptr (s : option (list Z)) : bool := match s with Some s => is_empty s | None => true end.

(** The checks of strict mode, before anything is stored. *)
Definition strict_check (section name : list Z) (value : option (list Z)) : option inih_error :=
  if is_empty section then Some INIH_ENOSECTION
  else if is_empty name then Some INIH_ENOKEY
  else if is_empty_ptr value then Some INIH_ENOVALUE
  else None.

(** The section part of the handler: the error that stops the parser, if any. *)
Definition track_section (cfg : po_config) (section : list Z) : alloc (option inih_error * po_config) :=
  if bool_decide (cfg_last_section cfg = Some section) then mret (None, cfg)
  else
    ok ← malloc;
    if negb ok then mret (Some ENOMEM, cfg)
    else
      let with_sections sections last := mk_config (cfg_entries cfg) sections (cfg_strict cfg) last in
      let remember sections : alloc (option inih_error * po_config) :=
        ok ← malloc;
        mret (None, with_sections sections (if ok : bool then Some section else None)) in
      if po_hashset_contains str_cmp cfg_str_hash (cfg_sections cfg) section then
        if cfg_strict cfg then mret (Some INIH_EDUPSECTION, cfg) else remember (cfg_sections cfg)
      else
        r ← po_hashset_add str_cmp cfg_str_hash (cfg_sections cfg) section;
        if r.1 =? 1 then remember r.2 else mret (Some ENOMEM, with_sections r.2 (cfg_last_section cfg)).

(** The entry part: the first value of a key stays.  [strdup] of a null pointer
    is undefined. *)
Definition store_entry_once (cfg : po_config) (section name : list Z) (value : option (list Z)) :
    alloc (option (option inih_error * po_config)) :=
  k ← get_full_key section name;
  match k with
  | None => mret (Some (Some ENOMEM, cfg))
  | Some k =>
      if po_hashtable_contains_key str_cmp cfg_str_hash (cfg_entries cfg) k then
        mret (Some (if cfg_strict cfg then Some INIH_EDUPKEY else None, cfg))
      else
        match value with
        | None => mret None
        | Some value =>
            ok ← malloc;
            if negb ok then mret (Some (Some ENOMEM, cfg))
            else
              r ← po_hashtable_put str_cmp cfg_str_hash (cfg_entries cfg) k (Some value);
              mret (Some (if r.1 =? 1 then None else Some ENOMEM,
                          mk_config r.2 (cfg_sections cfg) (cfg_strict cfg) (cfg_last_section cfg)))
        end
  end.

Definition handle_pair (cfg : po_config) (section name : list Z) (value : option (list Z)) :
    alloc (option (option inih_error * po_config)) :=
  match (if cfg_strict cfg then strict_check section name value else None) with
  | Some e => mret (Some (Some e, cfg))
  | None =>
      r ← store_entry_once cfg section name value;
      match r with
      | None => mret None
      | Some (Some e, cfg) => mret (Some (Some e, cfg))
      | Some (None, cfg) => r ← track_section cfg section; mret (Some r)
      end
  end.

(** CONTINUE_PARSING unless there was an error. *)
Definition ini_handler_cb (cfg : po_config) (section name : list Z) (value : option (list Z)) : alloc (option (bool * po_config)) :=
  r ← handle_pair cfg section name value;
  mret (match r with
        | None => None
        | Some (err, cfg) => Some (if err is None then true else false, cfg)
        end).

(** [Some None] is the result -1. *)
Definition _po_config_load (file : option (list Z)) (strict : bool) : alloc (option (option po_config)) :=
  ok ← malloc;
  if negb ok then mret (Some None)
  else
    entries ← po_hashtable_create;
    sections ← po_hashset_create;
    match entries, sections with
    | Some entries, Some sections =>
        r ← ini_parse ini_handler_cb file (mk_config entries sections strict None);
        mret (match r with
              | None => None
              | Some (rc, cfg) => Some (if rc =? 0 then Some cfg else None)
              end)
    | _, _ => mret (Some None)
    end.
Definition po_config_load_strict (file : option (list Z)) : alloc (option (option po_config)) := _po_config_load file true.
Definition po_config_load (file : option (list Z)) : alloc (option (option po_config)) := _po_config_load file false.

(** ** Reading *)

Definition po_config_get_str (cfg : po_config) (section key : list Z) : alloc (inih_error + list Z) :=
  k ← get_full_key section key;
  mret (match k with
        | None => inl ENOMEM
        | Some k =>
            match po_hashtable_get str_cmp cfg_str_hash None (cfg_entries cfg) k with
            | None => inl INIH_ENOKEY
            | Some v => inr v
            end
        end).

Definition LONG_MAX : Z := 2 ^ 63 - 1.
Definition LONG_MIN : Z := - 2 ^ 63.
Definition is_dec (c : Z) : bool := (48 <=? c) && (c <=? 57).

(** Digits up to the first other character: the number, whether there were
    any, the rest. *)
Fixpoint read_digits (s : list Z) (acc : Z) (any : bool) : Z * bool * list Z :=
  match s with
  | c :: s' => if is_dec c then read_digits s' (10 * acc + (c - 48)) true else (acc, any, s)
  | [] => (acc, any, [])
  end.

(** [strtol(s, &end, 10)]: the value, clamped to the range of [long], and [end]. *)
Definition strtol (s : list Z) : Z * list Z :=
  let s1 := ini_lskip s in
  let '(neg, s2) := match s1 with
                    | c :: s' => if c =? 45 then (true, s') else if c =? 43 then (false, s') else (false, s1)
                    | [] => (false, []) end in
  let '(n, any, rest) := read_digits s2 0 false in
  if any : bool then
    (Z.max LONG_MIN (Z.min LONG_MAX (if neg : bool then - n else n)), rest)
  else (0, s).

Definition get_number (check : Z → bool) (cfg : po_config) (section key : list Z) : alloc (inih_error + Z) :=
  v ← po_config_get_str cfg section key;
  mret (match v with
        | inl e => inl e
        | inr v =>
            let '(value, rest) := strtol v in
            match rest with
            | _ :: _ => inl INIH_EINVAL
            | [] => if check value then inr value else inl INIH_ERANGE
            end
        end).
Definition po_config_get_int := get_number (λ v, (- 2 ^ 31 <=? v) && (v <? 2 ^ 31)).
Definition po_config_get_long := get_number (λ _, true).

Definition FALSE_STR : list Z := [102; 97; 108; 115; 101].
Definition TRUE_STR : list Z := [116; 114; 117; 101].
Definition po_config_get_bool (cfg : po_config) (section key : list Z) : alloc (inih_error + bool) :=
  v ← po_config_get_str cfg section key;
  mret (match v with
        | inl e => inl e
        | inr v =>
            if (strcmp v [48] =? 0) || (strcmp v FALSE_STR =? 0) then inr false
            else if (strcmp v [49] =? 0) || (strcmp v TRUE_STR =? 0) then inr true
            else inl INIH_EINVAL
        end).

(** ** Changing *)

Definition po_config_set_str (cfg : po_config) (section key value : list Z) : alloc (Z * po_config) :=
  k ← get_full_key section key;
  match k with
  | None => mret (-1, cfg)
  | Some k =>
      if po_hashtable_contains_key str_cmp cfg_str_hash (cfg_entries cfg) k then
        ok ← malloc;
        if negb ok then mret (-1, cfg)
        else
          let r := po_hashtable_replace str_cmp cfg_str_hash (cfg_entries cfg) k (Some value) in
          mret (if r.1 =? 1 then (0, mk_config r.2 (cfg_sections cfg) (cfg_strict cfg) (cfg_last_section cfg))
                else (-1, cfg))
      else
        ok ← malloc;
        if negb ok then mret (-1, cfg)
        else
          r ← po_hashtable_put str_cmp cfg_str_hash (cfg_entries cfg) k (Some value);
          let cfg' sections := mk_config r.2 sections (cfg_strict cfg) (cfg_last_section cfg) in
          if negb (r.1 =? 1) then mret (-1, cfg' (cfg_sections cfg))
          else if is_empty section || po_hashset_contains str_cmp cfg_str_hash (cfg_sections cfg) section then
            mret (0, cfg' (cfg_sections cfg))
          else
            ok ← malloc;
            if negb ok then mret (0, cfg' (cfg_sections cfg))
            else
              q ← po_hashset_add str_cmp cfg_str_hash (cfg_sections cfg) section;
              mret (0, cfg' q.2)
  end.

(** The string before the first [c], and the one from there. *)
Fixpoint split_char (c : Z) (s : list Z) : list Z * list Z :=
  match s with
  | [] => ([], [])
  | x :: s' => if x =? c then ([], s) else let '(a, b) := split_char c s' in (x :: a, b)
  end.

(** The call back of one entry: section, key and value; none if the section
    could not be copied. *)
Definition foreach_call (full : list Z) (value : option (list Z)) : alloc (list (list Z * list Z * option (list Z))) :=
  match split_char DOT full with
  | (a, _ :: b) => ok ← malloc; mret (if ok : bool then [(a, b, value)] else [])
  | (_, []) => mret [([], full, value)]
  end.
Fixpoint foreach_nodes (ns : list (hashtable_node (list Z) (option (list Z)))) :
    alloc (list (list Z * list Z * option (list Z))) :=
  match ns with
  | [] => mret []
  | n :: ns =>
      r ← foreach_call (node_key n) (node_value n);
      q ← foreach_nodes ns;
      mret (r ++ q)
  end.
(** The calls of the call back, in order. *)
Definition po_config_foreach (cfg : po_config) : alloc (list (list Z * list Z * option (list Z))) :=
  it ← po_hashtable_iterator (cfg_entries cfg);
  match it with
  | None => mret []
  | Some it => foreach_nodes (iterate (length (concat (ht_buckets (cfg_entries cfg))) + 1) it)
  end.

(** ** Saving *)

Definition is_blank (c : Z) : bool := (c =? 32) || (c =? 9).
Fixpoint skip_blanks (s : list Z) : list Z :=
  match s with c :: s' => if is_blank c then skip_blanks s' else s | [] => [] end.
Definition trim_right (space : Z → bool) (s : list Z) : list Z :=
  rev (let fix go s := match s with c :: s' => if space c then go s' else s | [] => [] end in go (rev s)).
Definition rtrim : list Z → list Z := trim_right (λ c, is_blank c || (c =? 13) || (c =? 10)).

Definition parse_section_header (line : list Z) : option (list Z) :=
  match skip_blanks line with
  | 91 :: rest => match split_char 93 rest with (a, 93 :: _) => Some (take 127 a) | _ => None end
  | _ => None
  end.

(** [while (k_end > line && ...) k_end--]: blanks at the end, but never the first
    character. *)
Definition trim_key (s : list Z) : list Z :=
  match s with [] => [] | c :: s => c :: trim_right is_blank s end.

(** The key and the characters after the equals sign. *)
Definition parse_key (line : list Z) : option (list Z * list Z) :=
  let s := skip_blanks line in
  match s with
  | [] => None
  | c :: _ =>
      if (c =? 59) || (c =? 35) || (c =? 10) then None
      else match split_char 61 s with
           | (a, _ :: b) => Some (take 127 (trim_key a), b)
           | (_, []) => None
           end
  end.

(** [strpbrk(val_start, ";#")] *)
Fixpoint find_comment (s : list Z) : list Z :=
  match s with c :: s' => if (c =? 59) || (c =? 35) then s else find_comment s' | [] => [] end.

Definition EQUALS : list Z := [32; 61; 32].

(** A line with the new value of its key. *)
Definition rewrite_line (line key rest new_val : list Z) : list Z :=
  let indent := take (length line - length (skip_blanks line)) line in
  indent ++ key ++ EQUALS ++ new_val ++
  (match find_comment rest with [] => [] | c => 9 :: rtrim c end) ++ [NL].

(** One line of the old file: what is written, and the section then. *)
Definition save_line (cfg : po_config) (section line : list Z) : alloc (list Z * list Z) :=
  match parse_section_header line with
  | Some s => mret (line, take 127 s)
  | None =>
      match parse_key line with
      | Some (key, rest) =>
          if is_empty section then mret (line, section)
          else
            v ← po_config_get_str cfg section key;
            mret (match v with inr v => rewrite_line line key rest v | inl _ => line end, section)
      | None => mret (line, section)
      end
  end.

Fixpoint save_lines (fuel : nat) (cfg : po_config) (section file : list Z) : alloc (list Z) :=
  match fuel, fgets 1024 file with
  | S fuel, Some (line, rest) =>
      r ← save_line cfg section line;
      out ← save_lines fuel cfg r.2 rest;
      mret (r.1 ++ out)
  | _, _ => mret []
  end.

(** The new contents of the file; [None] is the result -1 with the file as it was. *)
Definition po_config_save (cfg : po_config) (file : option (list Z)) (tmp_ok rename_ok : bool) : alloc (option (list Z)) :=
  match file with
  | None => mret None
  | Some bytes =>
      if negb tmp_ok then mret None
      else
        out ← save_lines (length bytes) cfg [] bytes;
        mret (if rename_ok then Some out else None)
  end.

(** ** Specification *)

(** The abstract configuration: what each full key is bound to. *)
Definition cfg_find (cfg : po_config) (k : list Z) : option (list Z) :=
  mjoin (ht_find str_cmp cfg_str_hash (cfg_entries cfg) k).
Definition cfg_has_section (cfg : po_config) (s : list Z) : bool :=
  po_hashset_contains str_cmp cfg_str_hash (cfg_sections cfg) s.

Definition cfg_size (cfg : po_config) : Z := ht_size (cfg_entries cfg) + hs_size (cfg_sections cfg).

Record cfg_wf (cfg : po_config) : Prop := mk_cfg_wf {
  cw_entries : ht_wf str_cmp cfg_str_hash c_string (cfg_entries cfg);
  cw_sections : hs_wf str_cmp cfg_str_hash c_string (cfg_sections cfg);
  cw_values : ∀ k, c_string k → ht_find str_cmp cfg_str_hash (cfg_entries cfg) k ≠ Some None
}.

(** The value a list of pairs gives to a full key: the first one. *)
Fixpoint first_value (evs : list (list Z * list Z * list Z)) (k : list Z) : option (list Z) :=
  match evs with
  | [] => None
  | (s, n, v) :: evs => if bool_decide (full_key s n = k) then Some v else first_value evs k
  end.

Definition ev_section (e : list Z * list Z * list Z) : list Z := e.1.1.
Definition ev_key (e : list Z * list Z * list Z) : list Z := full_key e.1.1 e.1.2.
Definition ev_ok (e : list Z * list Z * list Z) : Prop := c_string e.1.1 ∧ c_string e.1.2 ∧ c_string e.2.

(** The sections in the order of their blocks. *)
Fixpoint blocks (prev : option (list Z)) (ss : list (list Z)) : list (list Z) :=
  match ss with
  | [] => []
  | s :: ss => if bool_decide (prev = Some s) then blocks prev ss else s :: blocks (Some s) ss
  end.

(** What strict mode asks of a file: nothing empty, no key twice, no section in
    two blocks. *)
Record strict_file (evs : list (list Z * list Z * list Z)) : Prop := mk_strict_file {
  sf_filled : Forall (λ e, e.1.1 ≠ [] ∧ e.1.2 ≠ [] ∧ e.2 ≠ []) evs;
  sf_keys : NoDup (ev_key <$> evs);
  sf_blocks : NoDup (blocks None (ev_section <$> evs))
}.

(** ** Lemmas *)

#[export] Instance cstr_contract : KeyContract c_string str_cmp cfg_str_hash.
Proof.
  split.
  - intros a _. apply strcmp_refl.
  - intros a b Ha Hb E. apply strcmp_zero in E as ->; [apply strcmp_refl|done..].
  - intros a b c Ha Hb Hc E1 E2. apply strcmp_zero in E1 as ->; done.
  - intros a b Ha Hb E. by apply strcmp_zero in E as ->.
Qed.

Lemma str_cmp_eq a b : c_string a → c_string b → (str_cmp a b =? 0) = bool_decide (a = b).
Proof.
  intros Ha Hb. unfold str_cmp. case_bool_decide as E; [subst; by rewrite strcmp_refl|].
  apply Z.eqb_neq. by rewrite strcmp_zero.
Qed.

Lemma full_key_string s k : c_string s → c_string k → c_string (full_key s k).
Proof.
  intros Hs Hk. unfold full_key. destruct s as [|c s]; [done|]. apply list.Forall_app. split; [done|].
  constructor; [unfold DOT; lia|done].
Qed.

Lemma contains_key_find cfg k :
  cfg_wf cfg → c_string k →
  po_hashtable_contains_key str_cmp cfg_str_hash (cfg_entries cfg) k = (if cfg_find cfg k is Some _ then true else false).
Proof.
  intros Hwf Hk. pose proof (cw_values _ Hwf k Hk) as Hv. unfold cfg_find, po_hashtable_contains_key, ht_find in *.
  by destruct (chain_find _ _ _) as [[]|].
Qed.

Lemma get_find_cfg cfg k : po_hashtable_get str_cmp cfg_str_hash None (cfg_entries cfg) k = cfg_find cfg k.
Proof. unfold cfg_find, po_hashtable_get, ht_find. by destruct (chain_find _ _ _). Qed.

Lemma first_value_snoc evs e k :
  first_value (evs ++ [e]) k =
  match first_value evs k with Some v => Some v | None => if bool_decide (ev_key e = k) then Some e.2 else None end.
Proof.
  induction evs as [|[[s n] v] evs IH]; simpl.
  - destruct e as [[s n] v]. unfold ev_key. simpl. by case_bool_decide.
  - destruct (bool_decide (full_key s n = k)); [done|]. apply IH.
Qed.

Lemma first_value_None evs k : first_value evs k = None ↔ k ∉ ev_key <$> evs.
Proof.
  induction evs as [|[[s n] v] evs IH]; simpl.
  - split; [intros _; apply not_elem_of_nil|done].
  - rewrite not_elem_of_cons. unfold ev_key at 1. simpl. case_bool_decide as E; [|rewrite IH]; naive_solver.
Qed.

(** The section before the next pair. *)
Definition last_of (prev : option (list Z)) (ss : list (list Z)) : option (list Z) :=
  match list.last ss with Some s => Some s | None => prev end.

Lemma blocks_snoc prev ss s :
  blocks prev (ss ++ [s]) = blocks prev ss ++ if bool_decide (last_of prev ss = Some s) then [] else [s].
Proof.
  revert prev. induction ss as [|x ss IH]; intros prev; simpl.
  { unfold last_of. simpl. by case_bool_decide. }
  assert (last_of prev (x :: ss) = last_of (Some x) ss) as E by (unfold last_of; rewrite last_cons; by destruct (list.last ss)).
  assert (∀ p, p = Some x → last_of p ss = last_of (Some x) ss) as E' by (by intros p ->).
  rewrite E. destruct (bool_decide_reflect (prev = Some x)) as [Hp|Hp]; rewrite IH; [by rewrite (E' prev)|done].
Qed.

Lemma blocks_subset prev ss : blocks prev ss ⊆ ss.
Proof.
  revert prev. induction ss as [|s ss IH]; intros prev x Hx; simpl in *; [done|].
  case_bool_decide; [right; by eapply IH|]. apply elem_of_cons in Hx as [->|Hx]; [left|right; by eapply IH].
Qed.

(** [cfg] is what the pairs [evs] make of an empty configuration. *)
Record tracks (cfg : po_config) (evs : list (list Z * list Z * list Z)) : Prop := mk_tracks {
  tr_wf : cfg_wf cfg;
  tr_find : ∀ k, c_string k → cfg_find cfg k = first_value evs k;
  tr_sections : ∀ s, c_string s → cfg_has_section cfg s = bool_decide (s ∈ ev_section <$> evs);
  tr_last : cfg_last_section cfg = None ∨ cfg_last_section cfg = list.last (ev_section <$> evs);
  tr_size : 0 <= ht_size (cfg_entries cfg) <= Z.of_nat (length evs) ∧ 0 <= hs_size (cfg_sections cfg) <= Z.of_nat (length evs);
  tr_strict : cfg_strict cfg = true → strict_file evs
}.

(** Storing a pair keeps the value a key already has. *)
Lemma store_spec cfg s n v :
  cfg_wf cfg → 0 <= ht_size (cfg_entries cfg) < 2 ^ 60 → c_string s → c_string n →
  always (store_entry_once cfg s n (Some v)) (λ q, ∃ r, q = Some r ∧ (r.1 = None →
    cfg_wf r.2 ∧ cfg_sections r.2 = cfg_sections cfg ∧ cfg_strict r.2 = cfg_strict cfg ∧
    cfg_last_section r.2 = cfg_last_section cfg ∧
    0 <= ht_size (cfg_entries r.2) <= ht_size (cfg_entries cfg) + 1 ∧
    (cfg_strict cfg = true → cfg_find cfg (full_key s n) = None) ∧
    ∀ k, c_string k → cfg_find r.2 k =
      match cfg_find cfg k with Some x => Some x | None => if bool_decide (full_key s n = k) then Some v else None end)).
Proof.
  intros Hwf Hsz Hs Hn. unfold store_entry_once. pose proof (full_key_string s n Hs Hn) as Hk.
  apply always_bind, always_bind, always_malloc. intros []; apply always_ret; [|by apply always_ret; eexists].
  rewrite contains_key_find by done. destruct (cfg_find cfg (full_key s n)) as [x|] eqn:E.
  - apply always_ret. eexists. split; [done|]. simpl. destruct (cfg_strict cfg) eqn:Est; [done|]. intros _.
    split_and!; [done|done|congruence|done|lia|lia|congruence|]. intros k Hk'. destruct (cfg_find cfg k) eqn:E'; [done|].
    rewrite bool_decide_false; [done|]. intros <-. congruence.
  - apply always_bind, always_malloc. intros []; [|by apply always_ret; eexists]. simpl.
    apply always_bind. eapply always_mono.
    { apply (law_put (D := c_string)); [apply Hwf|done|lia]. }
    intros [rc t] (Hwf' & Hc). apply always_ret. eexists. split; [done|]. simpl in *. destruct (Z.eqb_spec rc 1) as [->|]; [|done]. intros _.
    destruct Hc as [(_ & Hf & Hsz' & _)|(? & _)]; [|lia]. split_and!; simpl; try done; try lia.
    + split; simpl; [done|apply Hwf|]. intros k Hk'. rewrite Hf by done. destruct (_ =? 0); [done|]. by apply Hwf.
    + intros k Hk'. unfold cfg_find in *. simpl. rewrite Hf, str_cmp_eq by done.
      destruct (bool_decide_reflect (full_key s n = k)) as [Ek|Ek]; [by rewrite <- Ek, E|]. by destruct (mjoin (ht_find str_cmp cfg_str_hash (cfg_entries cfg) k)).
Qed.

Lemma track_spec cfg s :
  cfg_wf cfg → 0 <= hs_size (cfg_sections cfg) < 2 ^ 60 → c_string s →
  always (track_section cfg s) (λ r, r.1 = None →
    (cfg_last_section cfg = Some s ∧ r.2 = cfg) ∨
    (cfg_wf r.2 ∧ cfg_entries r.2 = cfg_entries cfg ∧ cfg_strict r.2 = cfg_strict cfg ∧
     (cfg_last_section r.2 = None ∨ cfg_last_section r.2 = Some s) ∧
     0 <= hs_size (cfg_sections r.2) <= hs_size (cfg_sections cfg) + 1 ∧
     (cfg_strict cfg = true → cfg_has_section cfg s = false) ∧
     ∀ x, c_string x → cfg_has_section r.2 x = bool_decide (s = x) || cfg_has_section cfg x)).
Proof.
  intros Hwf Hsz Hs. unfold track_section. case_bool_decide as El; [apply always_ret; by left|].
  apply always_bind, always_malloc. intros []; [|by apply always_ret]. simpl.
  fold (cfg_has_section cfg s). destruct (cfg_has_section cfg s) eqn:E.
  - destruct (cfg_strict cfg) eqn:Est; [by apply always_ret|]. apply always_bind, always_malloc. intros ok.
    apply always_ret. simpl. intros _. right. split_and!; simpl; try done; try lia; [split; apply Hwf|by destruct ok; auto|].
    intros x Hx. change (cfg_has_section cfg x = bool_decide (s = x) || cfg_has_section cfg x).
    case_bool_decide; [by subst; rewrite E|done].
  - apply always_bind. eapply always_mono; [apply (add_always c_string str_cmp cfg_str_hash (cfg_sections cfg) s); [apply Hwf|done|lia]|].
    intros [rc t] (Hwf' & Hc). simpl in *. destruct (Z.eqb_spec rc 1) as [->|]; [|by apply always_ret].
    apply always_bind, always_malloc. intros ok. apply always_ret. simpl. intros _. right.
    destruct Hc as [(_ & Hsz' & Hf)|(? & _)]; [|lia]. split_and!; simpl; try done; try lia.
    + split; simpl; [apply Hwf|done|apply Hwf].
    + destruct ok; auto.
    + intros x Hx. unfold cfg_has_section. simpl. by rewrite Hf, str_cmp_eq.
Qed.

Lemma strict_file_snoc evs e :
  strict_file evs → strict_check e.1.1 e.1.2 (Some e.2) = None → first_value evs (ev_key e) = None →
  (list.last (ev_section <$> evs) = Some (ev_section e) ∨ ev_section e ∉ ev_section <$> evs) → strict_file (evs ++ [e]).
Proof.
  intros [Hf Hk Hb] Hc Hn Hs. apply first_value_None in Hn. split.
  - apply list.Forall_app. split; [done|]. apply list.Forall_singleton.
    unfold strict_check in Hc. destruct e as [[[|??] [|??]] [|??]]; done.
  - rewrite fmap_app. apply list.NoDup_app. split_and!; [done| |apply NoDup_singleton].
    intros k Hin ->%list_elem_of_singleton. done.
  - rewrite fmap_app. simpl. rewrite blocks_snoc. destruct Hs as [Hl|Hs].
    + unfold last_of. rewrite Hl, bool_decide_true by done. by rewrite app_nil_r.
    + destruct (bool_decide _); [by rewrite app_nil_r|]. apply list.NoDup_app. split_and!; [done| |apply NoDup_singleton].
      intros k Hin ->%list_elem_of_singleton. apply Hs. by eapply blocks_subset.
Qed.

(** One pair, whatever the allocator answers. *)
Lemma handle_pair_spec cfg evs e :
  tracks cfg evs → ev_ok e → Z.of_nat (length evs) < 2 ^ 50 →
  always (handle_pair cfg e.1.1 e.1.2 (Some e.2)) (λ q, ∃ r, q = Some r ∧ (r.1 = None →
    tracks r.2 (evs ++ [e]) ∧ cfg_strict r.2 = cfg_strict cfg)).
Proof.
  intros [Hwf Hfind Hsec Hlast Hsz Hstr] (Hs & Hn & Hv) Hlen. unfold handle_pair.
  destruct (if cfg_strict cfg then _ else _) as [err|] eqn:Ec; [by apply always_ret; eexists|].
  apply always_bind. eapply always_mono; [apply store_spec; [done|lia|done|done]|].
  intros q ([[err|] cfg1] & -> & H1); simpl in *; [by apply always_ret; eexists|].
  destruct (H1 eq_refl) as (Hwf1 & Es1 & Est1 & El1 & Hsz1 & Hst1 & Hf1). clear H1.
  apply always_bind. eapply always_mono; [apply track_spec; [done|rewrite Es1; lia|done]|].
  intros [err cfg2] H2. apply always_ret. eexists. split; [done|]. intros Herr. simpl in *. specialize (H2 Herr). clear err Herr.
  assert (∀ x, cfg_has_section cfg1 x = cfg_has_section cfg x) as Eh by (intros x; unfold cfg_has_section; by rewrite Es1).
  assert (∀ k, c_string k → cfg_find cfg1 k = first_value (evs ++ [e]) k) as Hfv.
  { intros k Hk. rewrite Hf1, Hfind, first_value_snoc by done. done. }
  assert (cfg_strict cfg = true → strict_check e.1.1 e.1.2 (Some e.2) = None) as Hchk by (intros E; by rewrite E in Ec).
  assert (ev_key e = full_key e.1.1 e.1.2) as Ek by done. pose proof (full_key_string _ _ Hs Hn) as Hks.
  destruct H2 as [[Hl ->]|(Hwf2 & Ee2 & Est2 & Hl2 & Hsz2 & Hst2 & Hh2)].
  - rewrite El1 in Hl. destruct Hlast as [Hlast|Hlast]; [congruence|]. rewrite Hlast in Hl.
    assert (e.1.1 ∈ ev_section <$> evs) as Hin by (by apply last_Some_elem_of).
    split; [|done]. split; [done|done| | | |].
    + intros x Hx. rewrite Eh, Hsec by done. apply bool_decide_ext. rewrite fmap_app, elem_of_app. simpl.
      split; [auto|]. intros [Hx2|Hx2]; [done|]. by apply list_elem_of_singleton in Hx2 as ->.
    + right. rewrite El1, Hlast, Hl, fmap_app. simpl. by rewrite last_snoc.
    + rewrite Es1, length_app. simpl. lia.
    + rewrite Est1. intros E. apply strict_file_snoc; [auto|auto| |by left]. rewrite Ek, <- Hfind by done. auto.
  - split; [|congruence]. split; [done| | | | |].
    + intros k Hk. unfold cfg_find. rewrite Ee2. by apply Hfv.
    + intros x Hx. rewrite Hh2, Eh, Hsec, fmap_app by done. simpl. rewrite <- bool_decide_or. apply bool_decide_ext.
      rewrite elem_of_app, list_elem_of_singleton. unfold ev_section at 3. naive_solver.
    + rewrite fmap_app. simpl. rewrite last_snoc. destruct Hl2; [by left|by right].
    + rewrite Ee2, length_app in *. rewrite Es1 in Hsz2. simpl. lia.
    + rewrite Est2, Est1. intros E. apply strict_file_snoc; [auto|auto| |right].
      * rewrite Ek, <- Hfind by done. auto.
      * rewrite Est1 in Hst2. specialize (Hst2 E). rewrite Eh, Hsec in Hst2 by done.
        by apply bool_decide_eq_false in Hst2.
Qed.

(** The call of the handler for one pair. *)
Lemma handler_always cfg evs s n v :
  tracks cfg evs → ev_ok (s, n, v) → Z.of_nat (length evs) < 2 ^ 50 →
  always (ini_handler_cb cfg s n (Some v)) (λ r, ∃ ok cfg', r = Some (ok, cfg') ∧
    (ok = true → tracks cfg' (evs ++ [(s, n, v)]) ∧ cfg_strict cfg' = cfg_strict cfg)).
Proof.
  intros Ht He Hlen. unfold ini_handler_cb. apply always_bind.
  eapply always_mono; [apply (handle_pair_spec cfg evs (s, n, v) Ht He Hlen)|]. intros q ([err cfg1] & -> & H). apply always_ret.
  eexists _, _. split; [done|]. intros Hok. destruct err; [done|]. by apply H.
Qed.

(** Tables small enough for their growth to be exact. *)
Definition cfg_roomy (cfg : po_config) : Prop :=
  ht_capacity (cfg_entries cfg) <= MAX_CAPACITY ∧ hs_capacity (cfg_sections cfg) <= MAX_CAPACITY.

Lemma put_new (t : po_hashtable (list Z) (option (list Z))) k v :
  ht_wf str_cmp cfg_str_hash c_string t → ht_capacity t <= MAX_CAPACITY → ht_size t <= MAX_ENTRIES → c_string k →
  ht_find str_cmp cfg_str_hash t k = None →
  succeeds (po_hashtable_put str_cmp cfg_str_hash t k v) (λ r, r.1 = 1 ∧ ht_capacity r.2 <= MAX_CAPACITY).
Proof.
  intros Hwf Hcap Hsz Hk Hf. eapply succeeds_mono.
  { apply always_succeeds; [|apply (put_roomy c_string str_cmp cfg_str_hash t k v); [by split|done|done]].
    apply (law_put (D := c_string)); [done|done|unfold MAX_ENTRIES in *; lia]. }
  intros r ((Hwf' & Hlaw) & [_ Hcap'] & _ & Hsz'). split; [|done]. rewrite Hf in *.
  destruct Hlaw as [(_ & _ & _ & ->)|(_ & _ & E)]; [done|lia].
Qed.

Lemma store_succeeds cfg s n v :
  cfg_wf cfg → cfg_roomy cfg → ht_size (cfg_entries cfg) <= MAX_ENTRIES → c_string s → c_string n →
  (cfg_strict cfg = true → cfg_find cfg (full_key s n) = None) →
  succeeds (store_entry_once cfg s n (Some v)) (λ q, ∃ r, q = Some r ∧ r.1 = None ∧ cfg_roomy r.2).
Proof.
  intros Hwf [Hc1 Hc2] Hsz Hs Hn Hst. unfold store_entry_once. pose proof (full_key_string s n Hs Hn) as Hk.
  apply succeeds_bind, succeeds_bind, succeeds_malloc, succeeds_ret.
  rewrite contains_key_find by done. destruct (cfg_find cfg (full_key s n)) as [x|] eqn:E.
  - apply succeeds_ret. eexists. split; [done|]. simpl. destruct (cfg_strict cfg); [by discriminate Hst|]. by split.
  - apply succeeds_bind, succeeds_malloc. simpl. apply succeeds_bind. eapply succeeds_mono.
    { apply put_new; [apply Hwf|done|done|done|]. pose proof (cw_values _ Hwf _ Hk) as Hv. unfold cfg_find in E.
      by destruct (ht_find _ _ _ _) as [[]|]. }
    intros r [-> Hcap]. apply succeeds_ret. eexists. by split_and!.
Qed.

Lemma track_succeeds cfg s :
  cfg_wf cfg → cfg_roomy cfg → 0 <= hs_size (cfg_sections cfg) <= MAX_ENTRIES → c_string s →
  (cfg_strict cfg = true → cfg_last_section cfg = Some s ∨ cfg_has_section cfg s = false) →
  succeeds (track_section cfg s) (λ r, r.1 = None ∧ cfg_roomy r.2 ∧ cfg_last_section r.2 = Some s).
Proof.
  intros Hwf [Hc1 Hc2] Hsz Hs Hst. unfold track_section. case_bool_decide as El; [by apply succeeds_ret|].
  apply succeeds_bind, succeeds_malloc. simpl. fold (cfg_has_section cfg s).
  destruct (cfg_has_section cfg s) eqn:E.
  - destruct (cfg_strict cfg); [by destruct Hst|]. apply succeeds_bind, succeeds_malloc, succeeds_ret. by split.
  - apply succeeds_bind. eapply succeeds_mono.
    { apply always_succeeds; [|apply (add_roomy c_string str_cmp cfg_str_hash (cfg_sections cfg) s); [apply Hwf|done|done|lia]].
      apply (add_always c_string str_cmp cfg_str_hash (cfg_sections cfg) s); [apply Hwf|done|unfold MAX_ENTRIES in *; lia]. }
    unfold cfg_has_section in E. rewrite E.
    intros r ((_ & [(-> & _)|(? & _)]) & Hr & Hcap); [|lia]. simpl.
    apply succeeds_bind, succeeds_malloc, succeeds_ret. by split.
Qed.

Lemma strict_file_app evs more : strict_file (evs ++ more) → strict_file evs.
Proof.
  intros [Hf Hk Hb]. rewrite fmap_app in *. split.
  - by apply list.Forall_app in Hf as [? _].
  - by apply list.NoDup_app in Hk as [? _].
  - revert Hb. generalize (ev_section <$> evs) as ss, (ev_section <$> more) as ss'. clear. intros ss ss'. revert ss.
    induction ss' as [|s ss' IH] using rev_ind; intros ss; [by rewrite app_nil_r|].
    rewrite app_assoc, blocks_snoc. intros H. apply IH. by apply list.NoDup_app in H as [? _].
Qed.

(** The next pair of a strict file passes all checks. *)
Lemma strict_file_next evs e more :
  strict_file (evs ++ e :: more) →
  strict_check e.1.1 e.1.2 (Some e.2) = None ∧ first_value evs (ev_key e) = None ∧
  (list.last (ev_section <$> evs) = Some (ev_section e) ∨ ev_section e ∉ blocks None (ev_section <$> evs)).
Proof.
  intros H. rewrite (app_assoc evs [e] more : evs ++ e :: more = _) in H. apply strict_file_app in H as [Hf Hk Hb]. split_and!.
  - apply list.Forall_app in Hf as [_ Hf]. apply Forall_cons_1 in Hf as [(H1 & H2 & H3) _].
    unfold strict_check. destruct e as [[[|??] [|??]] [|??]]; done.
  - apply first_value_None. rewrite fmap_app in Hk. apply list.NoDup_app in Hk as (_ & Hk & _).
    intros Hin. apply (Hk _ Hin). by left.
  - rewrite fmap_app in Hb. simpl in Hb. rewrite blocks_snoc in Hb. unfold last_of in Hb.
    destruct (bool_decide_reflect (match list.last (ev_section <$> evs) with Some s => Some s | None => None end = Some (ev_section e)))
      as [E|E]; [left; by destruct (list.last _)|].
    right. intros Hin. apply list.NoDup_app in Hb as (_ & Hb & _). apply (Hb _ Hin). by left.
Qed.

Lemma blocks_complete prev ss s : s ∈ ss → s ∈ blocks prev ss ∨ prev = Some s.
Proof.
  revert prev. induction ss as [|x ss IH]; intros prev Hin; [by apply elem_of_nil in Hin|]. simpl.
  destruct (bool_decide_reflect (prev = Some x)) as [->|Hp].
  - apply elem_of_cons in Hin as [->|Hin]; [by right|by apply IH].
  - left. apply elem_of_cons in Hin as [->|Hin]; [by left|]. destruct (IH (Some x) Hin) as [?|[= ->]]; [by right|by left].
Qed.

(** The state after the pairs of a file when nothing failed. *)
Record settled (strict : bool) (cfg : po_config) (evs : list (list Z * list Z * list Z)) : Prop := mk_settled {
  se_tracks : tracks cfg evs;
  se_strict : cfg_strict cfg = strict;
  se_roomy : cfg_roomy cfg;
  se_last : cfg_last_section cfg = list.last (ev_section <$> evs)
}.

Lemma pair_succeeds strict cfg evs s n v more :
  settled strict cfg evs → ev_ok (s, n, v) → Z.of_nat (length evs) < MAX_ENTRIES →
  (strict = true → strict_file (evs ++ (s, n, v) :: more)) →
  succeeds (handle_pair cfg s n (Some v)) (λ q, ∃ r, q = Some r ∧ r.1 = None ∧ cfg_roomy r.2 ∧ cfg_last_section r.2 = Some s).
Proof.
  intros [Ht <- Hr Hl] (Hs & Hn & Hv) Hlen Hst. simpl in *. assert (Z.of_nat (length evs) < 2 ^ 50) as Hlen' by (unfold MAX_ENTRIES in *; lia).
  pose proof Ht as [Hwf Hfind Hsec _ [Hsz1 Hsz2] _]. pose proof (full_key_string s n Hs Hn) as Hk.
  unfold handle_pair. replace (if cfg_strict cfg then strict_check s n (Some v) else None) with (@None inih_error).
  2: { destruct (cfg_strict cfg); [|done]. symmetry. by apply (strict_file_next evs (s, n, v) more), Hst. }
  apply succeeds_bind. eapply succeeds_mono.
  { apply always_succeeds; [apply (store_spec cfg s n v); [done|lia|done|done]|].
    apply store_succeeds; [done|done|lia|done|done|]. intros E. rewrite Hfind by done.
    by apply (strict_file_next evs (s, n, v) more), Hst. }
  intros q [([err cfg1] & -> & H1) (r & [= <-] & H2 & Hr1)]. simpl in *. subst err. destruct (H1 eq_refl) as (Hwf1 & Es1 & Est1 & El1 & _).
  apply succeeds_bind. eapply succeeds_mono.
  { apply track_succeeds; [done|done|rewrite Es1; lia|done|]. rewrite Est1, El1. intros E.
    destruct (strict_file_next evs (s, n, v) more (Hst E)) as (_ & _ & [Hlast|Hnew]); [left; rewrite Hl; exact Hlast|right].
    unfold cfg_has_section. rewrite Es1. fold (cfg_has_section cfg s). rewrite Hsec by done.
    apply bool_decide_eq_false. intros Hin. apply (blocks_complete None) in Hin as [Hin|Hin]; done. }
  intros r Hr2. apply succeeds_ret. by eexists.
Qed.

Lemma handler_succeeds strict cfg evs s n v more :
  settled strict cfg evs → ev_ok (s, n, v) → Z.of_nat (length evs) < MAX_ENTRIES →
  (strict = true → strict_file (evs ++ (s, n, v) :: more)) →
  succeeds (ini_handler_cb cfg s n (Some v)) (λ r, ∃ cfg', r = Some (true, cfg') ∧ settled strict cfg' (evs ++ [(s, n, v)])).
Proof.
  intros Hset He Hlen Hst. unfold ini_handler_cb. apply succeeds_bind.
  eapply succeeds_mono; [apply always_succeeds;
    [apply (handle_pair_spec cfg evs (s, n, v)); [apply Hset|done|unfold MAX_ENTRIES in *; lia]|by apply (pair_succeeds strict cfg evs s n v more)]|].
  intros q [([err cfg1] & -> & H1) (r & [= <-] & H2 & Hr1 & Hl1)]. simpl in *. subst err. destruct (H1 eq_refl) as [Ht1 Est1].
  apply succeeds_ret. eexists. split; [done|]. split; [done|rewrite Est1; apply Hset|done|].
  rewrite fmap_app. simpl. by rewrite last_snoc.
Qed.

(** What a look-up returns when its key can be built. *)
Definition found (o : option (list Z)) : inih_error + list Z := match o with Some v => inr v | None => inl INIH_ENOKEY end.

Lemma get_str_always cfg s k :
  always (po_config_get_str cfg s k) (λ r, r = inl ENOMEM ∨ r = found (cfg_find cfg (full_key s k))).
Proof.
  unfold po_config_get_str. apply always_bind, always_bind, always_malloc. intros []; apply always_ret, always_ret; [|by left].
  right. rewrite get_find_cfg. by destruct (cfg_find _ _).
Qed.

Lemma get_str_succeeds cfg s k : succeeds (po_config_get_str cfg s k) (λ r, r = found (cfg_find cfg (full_key s k))).
Proof.
  unfold po_config_get_str. apply succeeds_bind, succeeds_bind, succeeds_malloc, succeeds_ret, succeeds_ret.
  rewrite get_find_cfg. by destruct (cfg_find _ _).
Qed.

Lemma events_ok ls s :
  Forall is_line ls → c_string (print_file ls) → c_string s → Forall ev_ok (events s ls).
Proof.
  intros Hls. revert s. induction Hls as [|l ls Hl Hls IH]; intros s Hp Hs; [constructor|].
  change (print_file (l :: ls)) with (print_line l ++ print_file ls) in Hp. apply list.Forall_app in Hp as [Hpl Hp].
  assert (∀ w, is_word w → c_string w) as Hword.
  { intros w [_ Hw]. eapply list.Forall_impl; [exact Hw|]. intros c Hc. unfold word_char in Hc. destruct (strchr _ c); lia. }
  destruct Hl as [_ Hl]. destruct l as [|text|x|k v]; simpl in *; [by apply IH..| |].
  - apply IH; [done|by apply Hword, Hl].
  - constructor; [|by apply IH]. destruct Hl as [Hk _]. split_and!; simpl; [done|by apply Hword|].
    apply list.Forall_app in Hpl as [_ Hpl]. repeat (apply Forall_cons_1 in Hpl as [_ Hpl]).
    by apply list.Forall_app in Hpl as [? _].
Qed.

(** The state before the first line. *)
Lemma empty_config_tracks strict entries sections :
  ht_wf str_cmp cfg_str_hash c_string entries → ht_size entries = 0 → (∀ k, ht_find str_cmp cfg_str_hash entries k = None) →
  hs_wf str_cmp cfg_str_hash c_string sections → hs_size sections = 0 →
  tracks (mk_config entries sections strict None) [].
Proof.
  intros H1 H2 H3 H4 H5. split; simpl; try done; [| | |by left|rewrite H2, H5; lia|].
  - split; simpl; [done|done|]. intros k _. by rewrite H3.
  - intros k _. unfold cfg_find. simpl. by rewrite H3.
  - intros s _. unfold cfg_has_section. simpl. rewrite (contains_empty c_string str_cmp cfg_str_hash sections H4 H5).
    done.
  - split; constructor.
Qed.

Lemma created_entries (t : po_hashtable (list Z) (option (list Z))) m :
  (po_hashtable_create m).1 = Some t →
  ht_wf str_cmp cfg_str_hash c_string t ∧ ht_size t = 0 ∧ ht_capacity t = INITIAL_CAPACITY ∧
  ∀ k, ht_find str_cmp cfg_str_hash t k = None.
Proof.
  intros E. pose proof (create_sized_always (V := option (list Z)) c_string str_cmp cfg_str_hash INITIAL_CAPACITY
    ltac:(unfold INITIAL_CAPACITY; lia) m) as H. unfold po_hashtable_create in E. rewrite E in H. tauto.
Qed.

Lemma created_sections (t : po_hashset (list Z)) m :
  (po_hashset_create m).1 = Some t → hs_wf str_cmp cfg_str_hash c_string t ∧ hs_size t = 0 ∧ hs_capacity t = 19.
Proof.
  unfold po_hashset_create, po_hashset_create_sized, mbind, alloc_bind, mret, alloc_ret.
  destruct (malloc m) as [[] m1]; simpl; [|done].
  destruct (malloc_bytes _ m1) as [[] m2]; simpl; [|done]. intros [= <-]. split_and!; [|done|done].
  apply (create_sized_always (V := unit) c_string str_cmp cfg_str_hash 19 ltac:(lia) []).
Qed.

(** Whatever the allocator answers. *)
Lemma load_always ls strict :
  Forall is_line ls → c_string (print_file ls) → Z.of_nat (length (events [] ls)) <= MAX_ENTRIES →
  always (_po_config_load (Some (print_file ls)) strict) (λ q, ∃ r, q = Some r ∧ ∀ cfg, r = Some cfg →
    tracks cfg (events [] ls) ∧ cfg_strict cfg = strict).
Proof.
  intros Hls Hp Hlen m. pose proof (events_ok ls [] Hls Hp ltac:(constructor)) as Hev.
  unfold _po_config_load, mbind, alloc_bind, mret, alloc_ret.
  destruct (malloc m) as [[] m0]; simpl; [|by eexists].
  destruct (po_hashtable_create m0) as [[e|] m1] eqn:Ee; simpl; destruct (po_hashset_create m1) as [[t|] m2] eqn:Es; simpl; try (by eexists).
  destruct (created_entries e m0) as (H1 & H2 & _ & H3); [by rewrite Ee|].
  destruct (created_sections t m1) as (H4 & H5 & _); [by rewrite Es|].
  pose proof (empty_config_tracks strict e t H1 H2 H3 H4 H5) as Ht.
  destruct (parse_always ini_handler_cb (events [] ls) (λ evs cfg, tracks cfg evs ∧ cfg_strict cfg = strict)
    ls (mk_config e t strict None)) with (m := m2) as (rc & cfg' & E & Hr); [done|done|done| |].
  { intros seen s k v more cfg Ha [Hc Hstr]. eapply always_mono; [apply (handler_always cfg seen)|].
    - done.
    - rewrite <- Ha in Hev. apply list.Forall_app in Hev as [_ Hev]. by apply Forall_cons_1 in Hev as [? _].
    - rewrite <- Ha, length_app in Hlen. unfold MAX_ENTRIES in *. lia.
    - intros r (ok & cfg' & -> & H). eexists _, _. split; [done|]. intros Hok. destruct (H Hok). split; [done|congruence]. }
  destruct (ini_parse _ _ _ m2) as [q m3]. simpl in *. subst q. eexists. split; [done|]. intros cfg.
  destruct (Z.eqb_spec rc 0) as [->|]; [|done]. intros [= <-]. by apply Hr.
Qed.

(** *** Null values *)

Section null_values.
Context (file : option (list Z)) (strict : bool).
Let bare : Prop := ∃ bytes, file = Some bytes ∧ bare_file bytes.
Let mode (cfg : po_config) : Prop := cfg_strict cfg = strict.

Lemma track_mode cfg s : mode cfg → always (track_section cfg s) (λ r, mode r.2).
Proof.
  unfold mode. intros Hm. unfold track_section. destruct (bool_decide _); [by apply always_ret|].
  apply always_bind, always_malloc. intros []; [|by apply always_ret]. simpl. destruct (po_hashset_contains _ _ _ _).
  - destruct (cfg_strict cfg) eqn:E; [apply always_ret; simpl; congruence|].
    apply always_bind, always_malloc. intros b. apply always_ret. simpl. congruence.
  - apply always_bind. intros m. destruct (_ =? 1); [|by apply always_ret]. apply always_bind, always_malloc. intros b. by apply always_ret.
Qed.

Lemma handler_mode cfg s k v : mode cfg → (v = None → bare) →
  always (ini_handler_cb cfg s k v) (kept mode (strict = false ∧ bare)).
Proof.
  intros Hs Hv. unfold ini_handler_cb, handle_pair. apply always_bind.
  apply (always_mono _ (kept mode (strict = false ∧ bare))); [|intros [[err cfg']|] Hq; by apply always_ret].
  destruct (if cfg_strict cfg then _ else _) eqn:Ec; [by apply always_ret|]. apply always_bind.
  apply (always_mono _ (kept mode (strict = false ∧ bare))).
  - unfold store_entry_once. apply always_bind, always_bind, always_malloc. intros []; apply always_ret; [|by apply always_ret].
    destruct (po_hashtable_contains_key _ _ _ _); [by apply always_ret|]. destruct v as [v|].
    + apply always_bind, always_malloc. intros []; [|by apply always_ret]. apply always_bind. intros m'. by apply always_ret.
    + apply always_ret. split; [|by apply Hv]. unfold mode in Hs. rewrite Hs in Ec. destruct strict; [|done].
      unfold strict_check in Ec. simpl in Ec. by destruct (is_empty s), (is_empty k).
  - intros [[[err|] cfg']|] Hq; try (by apply always_ret). apply always_bind.
    eapply always_mono; [by apply track_mode|]. intros [err cfg2] H2. by apply always_ret.
Qed.

(** Loading is undefined only in lenient mode, and only for a file with a line that
    is a name alone. *)
Lemma load_defined : always (_po_config_load file strict) (λ q, q = None → strict = false ∧ bare).
Proof.
  intros m. unfold _po_config_load, mbind, alloc_bind, mret, alloc_ret.
  destruct (malloc m) as [[] m0]; simpl; [|done].
  destruct (po_hashtable_create m0) as [[e|] m1]; simpl; destruct (po_hashset_create m1) as [[t|] m2]; simpl; try done.
  pose proof (parse_kept ini_handler_cb mode (strict = false ∧ bare) file (mk_config e t strict None) handler_mode eq_refl m2) as H.
  destruct (ini_parse _ _ _ m2) as [[[rc cfg]|] m3]; [done|]. by intros _.
Qed.
End null_values.

Lemma create_entries_succeeds :
  succeeds po_hashtable_create (λ r : option (po_hashtable (list Z) (option (list Z))), is_Some r).
Proof.
  unfold po_hashtable_create, po_hashtable_create_sized. apply succeeds_bind, succeeds_malloc. simpl.
  apply succeeds_bind, succeeds_malloc_bytes; [vm_compute; discriminate|]. by apply succeeds_ret.
Qed.

Lemma create_sections_succeeds : succeeds po_hashset_create (λ r : option (po_hashset (list Z)), is_Some r).
Proof.
  unfold po_hashset_create, po_hashset_create_sized. apply succeeds_bind, succeeds_malloc. simpl.
  apply succeeds_bind, succeeds_malloc_bytes; [vm_compute; discriminate|]. by apply succeeds_ret.
Qed.

Lemma load_succeeds ls strict :
  Forall is_line ls → c_string (print_file ls) → Z.of_nat (length (events [] ls)) <= MAX_ENTRIES →
  (strict = true → strict_file (events [] ls)) →
  succeeds (_po_config_load (Some (print_file ls)) strict) (λ r, ∃ cfg, r = Some (Some cfg)).
Proof.
  intros Hls Hp Hlen Hst. pose proof (events_ok ls [] Hls Hp ltac:(constructor)) as Hev.
  unfold _po_config_load. apply succeeds_bind, succeeds_malloc. simpl.
  intros m Hm. unfold mbind, alloc_bind, mret, alloc_ret.
  destruct (create_entries_succeeds m Hm) as [[e Ee] Hm1].
  destruct (po_hashtable_create m) as [oe m1] eqn:Ec1. simpl in Ee, Hm1. subst oe.
  destruct (create_sections_succeeds m1 Hm1) as [[t Et] Hm2].
  destruct (po_hashset_create m1) as [ot m2] eqn:Ec2. simpl in Et, Hm2. subst ot.
  destruct (created_entries e m) as (H1 & H2 & H2c & H3); [by rewrite Ec1|].
  destruct (created_sections t m1) as (H4 & H5 & H5c); [by rewrite Ec2|].
  pose proof (empty_config_tracks strict e t H1 H2 H3 H4 H5) as Ht.
  destruct (parse_succeeds ini_handler_cb (events [] ls) (λ evs cfg, settled strict cfg evs) ls (mk_config e t strict None))
    with (m := m2) as [(cfg' & E & _) Hm3]; [done|done| | |done|].
  { split; [done|done| |done]. split; simpl; [rewrite H2c|rewrite H5c]; vm_compute; discriminate. }
  { intros seen s k v more cfg Ha Hset. apply (handler_succeeds strict cfg seen s k v more); [done| | |].
    - rewrite <- Ha in Hev. apply list.Forall_app in Hev as [_ Hev]. by apply Forall_cons_1 in Hev as [? _].
    - rewrite <- Ha, length_app in Hlen. simpl in Hlen. lia.
    - by rewrite Ha. }
  destruct (ini_parse _ _ _ m2) as [q m3]. simpl in *. subst q. by split; [eexists|].
Qed.

(** ** Properties *)



(** A line that is a name alone: strict mode refuses it, and lenient mode copies a
    null pointer, unless the key already has a value. *)
Theorem bare_line_copies_null :
  let file := [91; 115; 93; NL; 107; NL] in                       (* [s] k *)
  (po_config_load (Some file) []).1 = None ∧
  (po_config_load_strict (Some file) []).1 = Some None ∧
  match (po_config_load (Some [91; 115; 93; NL; 107; 61; 49; NL; 107; NL]) []).1 with
  | Some (Some cfg) => (po_config_get_str cfg [115] [107] []).1 = inr [49]
  | _ => False
  end.
Proof. vm_compute. done. Qed.

Lemma replace_spec (t : po_hashtable (list Z) (option (list Z))) k v v0 :
  ht_wf str_cmp cfg_str_hash c_string t → c_string k → ht_size t < 2 ^ 64 - 1 → ht_find str_cmp cfg_str_hash t k = Some v0 →
  let r := po_hashtable_replace str_cmp cfg_str_hash t k v in
  r.1 = 1 ∧ ht_wf str_cmp cfg_str_hash c_string r.2 ∧
  ∀ k', c_string k' → ht_find str_cmp cfg_str_hash r.2 k' =
    if bool_decide (k = k') then Some v else ht_find str_cmp cfg_str_hash t k'.
Proof.
  intros Hwf Hk Hs Hf. pose proof (put_node_always c_string str_cmp cfg_str_hash t k v Hwf Hk Hs []) as H.
  unfold po_hashtable_replace, put_node, ht_find in *. rewrite Hf in *. simpl in *. destruct H as [Hwf' Hc].
  split_and!; [done|done|]. intros k' Hk'. destruct Hc as [(_ & Hc & _)|(? & _)]; [|lia].
  by rewrite Hc, str_cmp_eq.
Qed.

(** Setting a value refines the update of the finite map, for every allocator
    outcome: success binds the key to the value and leaves the others alone,
    failure leaves all bindings as they were; tables stay well formed. *)
Theorem config_set_refines_update (cfg : po_config) (s k v : list Z) :
  cfg_wf cfg → c_string s → c_string k → ht_size (cfg_entries cfg) < 2 ^ 60 → hs_size (cfg_sections cfg) < 2 ^ 60 →
  always (po_config_set_str cfg s k v) (λ r, cfg_wf r.2 ∧
    (r.1 = 0 ∧ (∀ k', c_string k' → cfg_find r.2 k' = if bool_decide (full_key s k = k') then Some v else cfg_find cfg k') ∨
     r.1 = -1 ∧ ∀ k', c_string k' → cfg_find r.2 k' = cfg_find cfg k')).
Proof.
  intros Hwf Hs Hk Hsz Hss. pose proof (full_key_string s k Hs Hk) as Hfk. unfold po_config_set_str.
  apply always_bind, always_bind, always_malloc. intros []; apply always_ret; [|apply always_ret; split; [done|by right]].
  rewrite contains_key_find by done. destruct (cfg_find cfg (full_key s k)) as [x|] eqn:E.
  - apply always_bind, always_malloc. intros []; [|apply always_ret; split; [done|by right]]. simpl. apply always_ret.
    unfold cfg_find in E. destruct (ht_find _ _ (cfg_entries cfg) _) as [v0|] eqn:Ef; [|done].
    destruct (replace_spec (cfg_entries cfg) (full_key s k) (Some v) v0) as (-> & Hwf' & Hf'); [apply Hwf|done|lia|done|].
    simpl. split.
    + split; simpl; [done|apply Hwf|]. intros k' Hk'. rewrite Hf' by done. destruct (bool_decide _); [done|]. by apply Hwf.
    + left. split; [done|]. intros k' Hk'. unfold cfg_find. simpl. rewrite Hf' by done. by destruct (bool_decide _).
  - apply always_bind, always_malloc. intros []; [|apply always_ret; split; [done|by right]]. simpl.
    apply always_bind. eapply always_mono; [apply (law_put (D := c_string)); [apply Hwf|done|lia]|].
    intros [rc t] (Hwf' & Hc). simpl in *.
    assert (∀ sections, hs_wf str_cmp cfg_str_hash c_string sections →
      cfg_wf (mk_config t sections (cfg_strict cfg) (cfg_last_section cfg))) as Hwf2.
    { intros sections Hsec. split; simpl; [done|done|]. intros k' Hk'. destruct Hc as [(_ & Hf & _)|(_ & Hf & _)]; rewrite Hf by done.
      - destruct (_ =? 0); [done|]. by apply Hwf.
      - by apply Hwf. }
    destruct (Z.eqb_spec rc 1) as [->|Hrc]; simpl.
    + destruct Hc as [(_ & Hf & _)|(? & _)]; [|lia].
      assert (∀ sections k', c_string k' → cfg_find (mk_config t sections (cfg_strict cfg) (cfg_last_section cfg)) k' =
        if bool_decide (full_key s k = k') then Some v else cfg_find cfg k') as Hfind.
      { intros sections k' Hk'. unfold cfg_find. simpl. rewrite Hf, str_cmp_eq by done. by destruct (bool_decide _). }
      destruct (is_empty s || _); [apply always_ret; split; [by apply Hwf2, Hwf|by left; split; [|apply Hfind]]|].
      apply always_bind, always_malloc. intros []; simpl; [|apply always_ret; split; [by apply Hwf2, Hwf|by left; split; [|apply Hfind]]].
      apply always_bind. eapply always_mono; [apply (add_always c_string str_cmp cfg_str_hash (cfg_sections cfg) s); [apply Hwf|done|lia]|].
      intros r (Hr & _). apply always_ret. split; [by apply Hwf2|by left; split; [|apply Hfind]].
    + apply always_ret. destruct Hc as [(Hrc' & _ & _ & Hrc2)|(-> & Hf & _)].
      * destruct (ht_find _ _ _ _) as [[]|] eqn:Ef; unfold cfg_find in E; rewrite Ef in E; [done| |lia].
        exfalso. by apply (cw_values _ Hwf _ Hfk).
      * split; [by apply Hwf2, Hwf|]. right. split; [done|]. intros k' Hk'. unfold cfg_find. simpl. by rewrite Hf.
Qed.

Definition empty_config : po_config :=
  mk_config (mk_hashtable (replicate 17 []) 17 0) (mk_hashset (replicate 19 []) 19 0) false None.

Lemma empty_config_ok : tracks empty_config [].
Proof.
  destruct (created_entries (mk_hashtable (replicate 17 []) 17 0) [] eq_refl) as (H1 & H2 & _ & H3).
  destruct (created_sections (mk_hashset (replicate 19 []) 19 0) []) as (H4 & H5 & _); [vm_compute; reflexivity|].
  by apply empty_config_tracks.
Qed.

Lemma config_set_refines_update_witness :
  (po_config_set_str empty_config [115] [107] [49] []).1.1 = 0 ∧
  cfg_wf (po_config_set_str empty_config [115] [107] [49] []).1.2.
Proof.
  split; [vm_compute; reflexivity|].
  refine (proj1 (config_set_refines_update empty_config [115] [107] [49] (tr_wf _ _ empty_config_ok) _ _ _ _ [])).
  - repeat constructor; lia.
  - repeat constructor; lia.
  - simpl. lia.
  - simpl. lia.
Defined.
