(* ===== verification/ConfigSave.v ===== *)
(** * Saving configurations and reading numbers ([app/src/utils/configs.c])

    Properties of [po_config_save] and of the typed look-ups of [Configs]: saving
    composes with the INI reader of [Ini] to a round trip, and numbers with the
    decimal printer of [LoggerFormat]. *)

From Stdlib Require Import ZArith Lia.
From stdpp Require Import base list numbers sets.
From S2P Require Import Prelude Cstring Prime Hashtable HashtableGrowth Hashset Ini Configs LoggerFormat.

Local Open Scope Z_scope.

(** ** Specification *)

(** The lines of a file with the values of a configuration. *)
Fixpoint update_lines (cfg : po_config) (section : list Z) (ls : list cfg_line) : list cfg_line :=
  match ls with
  | [] => []
  | CSection s :: ls => CSection s :: update_lines cfg s ls
  | CPair k v :: ls =>
      CPair k (match section with
               | [] => v
               | _ => default v (cfg_find cfg (full_key section k))
               end) :: update_lines cfg section ls
  | l :: ls => l :: update_lines cfg section ls
  end.

(** ** Lemmas *)

Lemma split_char_word c w rest :
  c ∉ w → split_char c (w ++ c :: rest) = (w, c :: rest).
Proof.
  induction w as [|x w IH]; intros Hc; simpl; [by rewrite Z.eqb_refl|]. apply not_elem_of_cons in Hc as [Hx Hc].
  destruct (Z.eqb_spec x c); [done|]. by rewrite IH.
Qed.

Lemma word_not_elem w c : Forall (λ c, word_char c = true) w → word_char c = false → c ∉ w.
Proof. intros Hw Hc Hin. rewrite list.Forall_forall in Hw. apply Hw in Hin. congruence. Qed.

Lemma trim_right_last space s c : space c = false → trim_right space (s ++ [c]) = s ++ [c].
Proof. intros H. unfold trim_right. rewrite rev_app_distr. simpl. rewrite H. simpl. by rewrite rev_involutive. Qed.

Lemma trim_right_blank space s c : space c = true → trim_right space (s ++ [c]) = trim_right space s.
Proof. intros H. unfold trim_right. rewrite rev_app_distr. simpl. by rewrite H. Qed.

Lemma trim_key_word w : is_word w → trim_key (w ++ [32]) = w.
Proof.
  intros Hw. destruct (word_head w Hw) as (c & w' & -> & Hc & Hw'). simpl. f_equal.
  rewrite trim_right_blank by done. destruct (decide (w' = [])) as [->|Hne]; [done|].
  destruct (exists_last Hne) as (u & x & ->). apply trim_right_last.
  apply list.Forall_app in Hw' as [_ Hx]. apply Forall_cons_1 in Hx as [Hx _].
  apply word_not_space in Hx. unfold isspace in Hx. unfold is_blank. lia.
Qed.

Lemma skip_blanks_word c l : word_char c = true → skip_blanks (c :: l) = c :: l.
Proof.
  intros Hc. simpl. apply word_not_space in Hc. unfold isspace in Hc. unfold is_blank.
  destruct (Z.eqb_spec c 32), (Z.eqb_spec c 9); simpl; [lia|lia|lia|done].
Qed.

Lemma find_comment_value v : Forall (λ c, c ≠ NL ∧ c ≠ 59 ∧ c ≠ 35) v → find_comment (v ++ [NL]) = [].
Proof.
  induction 1 as [|c v (_ & H1 & H2) _ IH]; [done|]. simpl. destruct (Z.eqb_spec c 59), (Z.eqb_spec c 35); done.
Qed.

Lemma header_section s : is_word s → (length s < MAX_SECTION)%nat →
  parse_section_header (print_line (CSection s)) = Some s.
Proof.
  intros [_ Hs] Hl. unfold parse_section_header. simpl.
  rewrite split_char_word by (by eapply word_not_elem). rewrite take_ge; [done|]. unfold MAX_SECTION in *. lia.
Qed.

Lemma header_none c l : word_char c = true → parse_section_header (c :: l) = None.
Proof.
  intros Hc. unfold parse_section_header. rewrite skip_blanks_word by done.
  destruct (Z.eqb_spec c 91) as [->|Hne]; [by vm_compute in Hc|].
  destruct c as [|p|p]; try done. repeat (destruct p as [p|p|]; try done).
Qed.

Lemma parse_key_pair k v : is_word k → is_value v → (length k < 127)%nat →
  parse_key (print_line (CPair k v)) = Some (k, 32 :: v ++ [NL]).
Proof.
  intros Hk Hv Hl. destruct (word_head k Hk) as (c & k' & -> & Hc & Hk'). unfold parse_key, print_line.
  rewrite <- app_comm_cons, skip_blanks_word by done.
  assert (c ≠ 59 ∧ c ≠ 35 ∧ c ≠ 10) as (H1 & H2 & H3) by (split_and!; intros ->; by vm_compute in Hc).
  rewrite (proj2 (Z.eqb_neq c 59)), (proj2 (Z.eqb_neq c 35)), (proj2 (Z.eqb_neq c 10)) by done. simpl orb. cbn iota.
  replace (c :: k' ++ [32; 61; 32] ++ v ++ [NL]) with (((c :: k') ++ [32]) ++ 61 :: 32 :: v ++ [NL])
    by (simpl; by rewrite <- app_assoc).
  rewrite split_char_word, trim_key_word, take_ge; [done|simpl in *; lia|done|].
  destruct Hk as [_ Hk]. rewrite not_elem_of_app. split; [by eapply word_not_elem|]. set_solver.
Qed.

Definition updated (cfg : po_config) (section : list Z) (l : cfg_line) : cfg_line * list Z :=
  match l with
  | CSection s => (l, s)
  | CPair k v =>
      (CPair k (match section with [] => v | _ => default v (cfg_find cfg (full_key section k)) end), section)
  | _ => (l, section)
  end.

Lemma update_lines_cons cfg section l ls :
  update_lines cfg section (l :: ls) = (updated cfg section l).1 :: update_lines cfg (updated cfg section l).2 ls.
Proof. by destruct l. Qed.

Lemma save_pair cfg section k v :
  is_word k → is_value v → (length k < 127)%nat →
  succeeds (save_line cfg section (print_line (CPair k v))) (λ r,
    r = (print_line (updated cfg section (CPair k v)).1, section)).
Proof.
  intros Hk Hv Hl. unfold save_line. rewrite parse_key_pair by done.
  destruct (word_head k Hk) as (c & k' & Ek & Hc & Hk').
  replace (parse_section_header _) with (@None (list Z)).
  2: { symmetry. subst k. by apply header_none. }
  destruct section as [|x section]; simpl is_empty; cbn iota; [by apply succeeds_ret|].
  apply succeeds_bind. eapply succeeds_mono; [apply get_str_succeeds|]. intros r ->. apply succeeds_ret.
  unfold found, updated. destruct (cfg_find cfg _) as [nv|]; simpl; [|done]. f_equal.
  unfold rewrite_line.
  assert (skip_blanks (print_line (CPair k v)) = print_line (CPair k v)) as Hskip.
  { subst k. by apply skip_blanks_word. }
  unfold print_line in Hskip. simpl in Hskip. simpl. rewrite Hskip, Nat.sub_diag. destruct Hv as [Hv _].
  simpl. rewrite find_comment_value by done. simpl. done.
Qed.

(** Lines whose key fits the buffer of [parse_key]. *)
Definition saveable (l : cfg_line) : Prop :=
  is_line l ∧ match l with CPair k _ => (length k < 127)%nat | _ => True end.

Lemma save_line_spec cfg section l :
  saveable l → succeeds (save_line cfg section (print_line l)) (λ r,
    r = (print_line (updated cfg section l).1, (updated cfg section l).2)).
Proof.
  intros [[Hlen Hl] Hkey]. destruct l as [|text|s|k v].
  - by apply succeeds_ret.
  - by apply succeeds_ret.
  - unfold save_line. destruct Hl as [Hs Hsl]. rewrite header_section by done. apply succeeds_ret. simpl.
    rewrite take_ge; [done|]. unfold MAX_SECTION in *. lia.
  - destruct Hl as [Hk Hv]. by apply save_pair.
Qed.

Lemma fgets_save l rest : is_line l → fgets 1024 (print_line l ++ rest) = Some (print_line l, rest).
Proof.
  intros Hl. destruct (print_line_body l Hl) as (body & E & Hb). destruct Hl as [Hlen _]. rewrite E in *.
  unfold fgets. rewrite <- app_assoc. change ([NL] ++ rest) with (NL :: rest).
  rewrite take_line_spec; [by destruct body|done|]. rewrite length_app in Hlen. simpl in Hlen. unfold INI_MAX_LINE in *. lia.
Qed.

Lemma save_lines_spec cfg ls fuel section :
  Forall saveable ls → (length ls <= fuel)%nat →
  succeeds (save_lines fuel cfg section (print_file ls)) (λ r, r = print_file (update_lines cfg section ls)).
Proof.
  intros Hls. revert fuel section. induction Hls as [|l ls Hl Hls IH]; intros fuel section Hf.
  { destruct fuel; by apply succeeds_ret. }
  destruct fuel as [|fuel]; simpl in Hf; [lia|]. change (print_file (l :: ls)) with (print_line l ++ print_file ls).
  cbn [save_lines]. rewrite fgets_save by apply Hl. rewrite update_lines_cons.
  apply succeeds_bind. eapply succeeds_mono; [by apply save_line_spec|]. intros r ->.
  apply succeeds_bind. eapply succeeds_mono; [apply (IH fuel (updated cfg section l).2); lia|]. intros r ->.
  by apply succeeds_ret.
Qed.

(** A pair of the updated file carries the value of the configuration. *)
Lemma first_value_updated cfg ls section k v :
  Forall (λ e, e.1.1 ≠ []) (events section ls) → cfg_find cfg k = Some v →
  (∃ s n old, (s, n, old) ∈ events section ls ∧ full_key s n = k) →
  first_value (events section (update_lines cfg section ls)) k = Some v.
Proof.
  intros Hne Hf Hex. revert section Hne Hex. induction ls as [|l ls IH]; intros section Hne (s & n & old & Hin & Hk).
  { by apply elem_of_nil in Hin. }
  destruct l as [|text|x|k0 v0]; simpl in *; [apply IH; eauto 10..|].
  apply Forall_cons_1 in Hne as [Hsec Hne]. simpl in Hsec.
  destruct (bool_decide_reflect (full_key section k0 = k)) as [E|E].
  - destruct section; [done|]. by rewrite E, Hf.
  - apply IH; [done|]. exists s, n, old. split; [|done]. apply elem_of_cons in Hin as [Hin|Hin]; [|done]. by simplify_eq.
Qed.

Lemma length_events_update cfg ls section :
  length (events section (update_lines cfg section ls)) = length (events section ls).
Proof. revert section. induction ls as [|l ls IH]; intros section; [done|]. destruct l; simpl; auto. Qed.

(** ** Properties *)

(** C12. Saving and loading again is a round trip, when no allocation fails: for a
    file of simple lines (blank lines, comments, sections and [key = value] lines
    of fewer than 1024 bytes, keys of fewer than 127) with every pair in a section,
    and values of the configuration that make such lines again, the lines of keys
    the configuration has are rewritten and all others are kept byte for byte, and
    what is loaded from the new file binds every key of the file that the
    configuration has to the configuration's value. *)
Theorem config_save_reload (cfg : po_config) (ls : list cfg_line) :
  Forall saveable ls → Forall (λ e, e.1.1 ≠ []) (events [] ls) → Z.of_nat (length (events [] ls)) <= MAX_ENTRIES →
  Forall is_line (update_lines cfg [] ls) → c_string (print_file (update_lines cfg [] ls)) →
  succeeds (po_config_save cfg (Some (print_file ls)) true true) (λ r,
    r = Some (print_file (update_lines cfg [] ls)) ∧
    succeeds (po_config_load r) (λ r', ∃ cfg', r' = Some (Some cfg') ∧
      ∀ s k old v, (s, k, old) ∈ events [] ls → c_string s → c_string k → cfg_find cfg (full_key s k) = Some v →
        succeeds (po_config_get_str cfg' s k) (λ x, x = inr v))).
Proof.
  intros Hls Hne Hlen Hls' Hp'. unfold po_config_save. simpl. apply succeeds_bind. eapply succeeds_mono.
  { apply save_lines_spec; [done|apply length_print_file]. }
  intros r ->. apply succeeds_ret. split; [done|].
  rewrite <- (length_events_update cfg ls []) in Hlen. unfold po_config_load.
  eapply succeeds_mono; [apply always_succeeds; [by apply (load_always (update_lines cfg [] ls) false)|by apply load_succeeds]|].
  intros r [(r' & -> & Ht) [cfg' [= ->]]]. destruct (Ht cfg' eq_refl) as [Htr _]. exists cfg'. split; [done|].
  intros s k old v Hin Hs Hk Hv. eapply succeeds_mono; [apply get_str_succeeds|]. intros x ->.
  rewrite (tr_find _ _ Htr) by (by apply full_key_string).
  by rewrite (first_value_updated cfg ls [] (full_key s k) v) by eauto 10.
Qed.

(** Line [# x], section [s] with [k = 1 2], and [k] changed to [7]. *)
Definition changed_config : po_config := (po_config_set_str empty_config [115] [107] [55] []).1.2.

Definition changed_file : list cfg_line := [CNote [32; 120]; CSection [115]; CPair [107] [55]; CBlank].

Lemma changed_file_lines : Forall is_line changed_file ∧ c_string (print_file changed_file).
Proof.
  split; [|repeat constructor; lia].
  repeat constructor; simpl; unfold INI_MAX_LINE, MAX_SECTION; try lia; try done; try (apply bool_decide_unpack; vm_compute; exact I).
  apply (bool_decide_unpack _). vm_compute. exact I.
Qed.

Lemma small_file_saveable : Forall saveable small_file.
Proof.
  pose proof small_file_lines as H. repeat (apply Forall_cons_1 in H as [? H]).
  unfold small_file. repeat (apply Forall_cons_2; [split; [assumption|simpl; first [lia|exact I]]|]). constructor.
Qed.

Lemma changed_file_eq : update_lines changed_config [] small_file = changed_file.
Proof. vm_compute. reflexivity. Qed.

Lemma config_save_reload_witness :
  (po_config_save changed_config (Some (print_file small_file)) true true []).1 = Some (print_file changed_file).
Proof.
  destruct (config_save_reload changed_config small_file small_file_saveable) with (m := @nil bool) as [[H _] _].
  - repeat constructor. discriminate.
  - vm_compute. discriminate.
  - rewrite changed_file_eq. apply changed_file_lines.
  - rewrite changed_file_eq. apply changed_file_lines.
  - constructor.
  - rewrite H, changed_file_eq. reflexivity.
Defined.

(** A hash sign inside a value is read as part of it, but saving takes it for
    the start of a comment and writes it again behind the new value: saving an
    unchanged configuration changes the value the next load reads. *)
Theorem config_save_doubles_hash :
  let file := [91; 115; 93; NL; 107; 61; 97; 35; 98; NL] in    (* [s] k=a#b *)
  match (po_config_load (Some file) []).1 with
  | Some (Some cfg) =>
      (po_config_get_str cfg [115] [107] []).1 = inr [97; 35; 98] ∧
      match (po_config_save cfg (Some file) true true []).1 with
      | Some file' =>
          match (po_config_load (Some file') []).1 with
          | Some (Some cfg') => (po_config_get_str cfg' [115] [107] []).1 = inr [97; 35; 98; 9; 35; 98]
          | _ => False
          end
      | None => False
      end
  | _ => False
  end.
Proof. vm_compute. done. Qed.

(** *** Numbers *)

Lemma is_dec_digit c : is_digit c → is_dec c = true.
Proof. unfold is_digit, is_dec. lia. Qed.

Lemma read_digits_all ds acc any :
  Forall is_digit ds →
  read_digits ds acc any = (foldl (λ n d, 10 * n + (d - 48)) acc ds, any || negb (is_empty ds), []).
Proof.
  intros Hd. revert acc any. induction Hd as [|d ds Hd _ IH]; intros acc any; simpl; [by rewrite orb_false_r|].
  rewrite is_dec_digit, IH by done. by rewrite orb_true_r.
Qed.

Lemma strtol_decimal n : LONG_MIN < n <= LONG_MAX → strtol (dec_int n) = (n, []).
Proof.
  unfold LONG_MIN, LONG_MAX. intros Hn. unfold dec_int.
  assert (∀ v, 0 <= v < 2 ^ 63 → ∃ d ds, fast_utoa10 v = d :: ds ∧ is_digit d ∧
    read_digits (fast_utoa10 v) 0 false = (v, true, [])) as Hread.
  { intros v Hv. destruct (fast_utoa10_spec v) as (Ev & Hl & Hd); [lia|].
    rewrite read_digits_all by done. fold (of_decimal (fast_utoa10 v)). rewrite Ev.
    destruct (fast_utoa10 v) as [|d ds]; [simpl in Hl; lia|]. apply Forall_cons_1 in Hd as [Hd _]. eauto 10. }
  unfold strtol. destruct (Z.ltb_spec n 0) as [Hneg|Hpos].
  - destruct (Hread (- n)) as (d & ds & E & Hd & Hr); [lia|]. simpl. rewrite Hr. f_equal. unfold LONG_MIN, LONG_MAX. lia.
  - destruct (Hread n) as (d & ds & E & Hd & Hr); [lia|]. rewrite E in *. unfold is_digit in Hd.
    assert (isspace d = false) as Hsp by (unfold isspace; lia). rewrite lskip_char by done.
    destruct (Z.eqb_spec d 45); [lia|]. destruct (Z.eqb_spec d 43); [lia|]. rewrite Hr. f_equal. unfold LONG_MIN, LONG_MAX. lia.
Qed.

(** The typed look-ups read what a decimal printer writes: every integer above
    the least [long] comes back from [po_config_get_long], and from
    [po_config_get_int] exactly when it is an [int], with [INIH_ERANGE] for the
    others. *)
Theorem config_number_roundtrip (cfg : po_config) (s k : list Z) (n : Z) :
  LONG_MIN < n <= LONG_MAX → cfg_find cfg (full_key s k) = Some (dec_int n) →
  succeeds (po_config_get_long cfg s k) (λ r, r = inr n) ∧
  succeeds (po_config_get_int cfg s k) (λ r, r = if bool_decide (- 2 ^ 31 <= n < 2 ^ 31) then inr n else inl INIH_ERANGE).
Proof.
  intros Hn Hf. unfold po_config_get_long, po_config_get_int, get_number.
  split; apply succeeds_bind; (eapply succeeds_mono; [apply get_str_succeeds|]); intros r ->; apply succeeds_ret;
    rewrite Hf; cbn [found]; rewrite strtol_decimal by done; [done|].
  destruct (bool_decide_reflect (- 2 ^ 31 <= n < 2 ^ 31)) as [H|H].
  - destruct (Z.leb_spec (- 2 ^ 31) n), (Z.ltb_spec n (2 ^ 31)); simpl; done || lia.
  - destruct (Z.leb_spec (- 2 ^ 31) n), (Z.ltb_spec n (2 ^ 31)); simpl; done || (exfalso; lia).
Qed.

Definition number_config : po_config := (po_config_set_str empty_config [115] [107] (dec_int (-42)) []).1.2.

Lemma config_number_roundtrip_witness :
  (po_config_get_int number_config [115] [107] []).1 = inr (-42).
Proof.
  destruct (config_number_roundtrip number_config [115] [107] (-42)) as [_ H].
  - unfold LONG_MIN, LONG_MAX. lia.
  - vm_compute. reflexivity.
  - exact (proj1 (H [] ltac:(constructor))).
Defined.

(** An empty value is read as the number 0, and a number beyond [long] as the
    largest one, both without an error. *)
Theorem config_number_edge_cases :
  strtol [] = (0, []) ∧ strtol (dec_int (2 ^ 63)) = (2 ^ 63 - 1, []).
Proof. split; vm_compute; reflexivity. Qed.

(** [po_config_foreach] cuts at the first dot: an entry of section [a.b] is
    reported under section [a]. *)
Theorem config_foreach_cuts_section :
  let cfg := (po_config_set_str empty_config [97; 46; 98] [107] [49] []).1.2 in
  (po_config_foreach cfg []).1 = [([97], [98; 46; 107], Some [49])].
Proof. vm_compute. reflexivity. Qed.

(** Sections with dots make different pairs one entry. *)
Theorem config_dotted_sections_alias (a b k : list Z) :
  a ≠ [] → full_key a (b ++ DOT :: k) = full_key (a ++ DOT :: b) k.
Proof. intros Ha. destruct a as [|c a]; [done|]. simpl. by rewrite <- app_assoc. Qed.
