(* ===== verification/Argv.v ===== *)
(** * Command-line arguments ([app/src/utils/argv.c])

    [getopt_long] as the sources use it (options before or after operands, short
    options in clusters, long ones by name or unambiguous prefix, arguments
    joined or separate), the options of the main program and the log level
    parser. Arguments are lists of bytes without the terminating NUL. *)

From Stdlib Require Import ZArith Lia String.
From stdpp Require Import base list numbers.
From S2P Require Import Prelude Cstring Ini Configs LoggerFormat.

Local Open Scope Z_scope.

(** ** getopt_long *)

Inductive has_arg : Type := no_argument | required_argument.
Global Instance has_arg_eq_dec : EqDecision has_arg.
Proof. solve_decision. Defined.

(** [struct option] with a null [flag]. *)
Record long_opt : Type := mk_opt { lo_name : list Z; lo_has_arg : has_arg; lo_val : Z }.

Definition QUESTION : Z := 63.
Definition DASH : Z := 45.
Definition EQ : Z := 61.
Definition COLON : Z := 58.

(** A character of the option string, followed by a colon when it takes an argument. *)
Fixpoint short_lookup (optstring : list Z) (c : Z) : option has_arg :=
  match optstring with
  | [] => None
  | o :: rest =>
      if (o =? c) && negb (c =? COLON) then
        Some (match rest with n :: _ => if n =? COLON then required_argument else no_argument | [] => no_argument end)
      else short_lookup rest c
  end.

(** The text before the first equals sign, and the one after it if there is one. *)
Fixpoint split_eq (s : list Z) : list Z * option (list Z) :=
  match s with
  | [] => ([], None)
  | c :: s' => if c =? EQ then ([], Some s') else let '(n, v) := split_eq s' in (c :: n, v)
  end.

Definition same_opt (a b : long_opt) : bool := bool_decide (lo_has_arg a = lo_has_arg b) && (lo_val a =? lo_val b).

(** An exact name wins; otherwise all options with this prefix must mean the same. *)
Definition find_long (longs : list long_opt) (name : list Z) : option long_opt :=
  match filter (λ o, lo_name o = name) longs with
  | o :: _ => Some o
  | [] =>
      match filter (λ o, take (length name) (lo_name o) = name) longs with
      | o :: os => if forallb (same_opt o) os then Some o else None
      | [] => None
      end
  end.

(** What one call returns: the option and [optarg]. *)
Definition opt_event : Type := Z * option (list Z).

Fixpoint short_cluster (optstring cs : list Z) (args : list (list Z)) : list opt_event * list (list Z) :=
  match cs with
  | [] => ([], args)
  | c :: cs' =>
      let continue_with (e : opt_event) := let '(es, rest) := short_cluster optstring cs' args in (e :: es, rest) in
      match short_lookup optstring c with
      | None => continue_with (QUESTION, None)
      | Some no_argument => continue_with (c, None)
      | Some required_argument =>
          match cs', args with
          | _ :: _, _ => ([(c, Some cs')], args)
          | [], a :: args' => ([(c, Some a)], args')
          | [], [] => ([(QUESTION, None)], [])
          end
      end
  end.

Definition long_option (longs : list long_opt) (body : list Z) (args : list (list Z)) : opt_event * list (list Z) :=
  let '(name, value) := split_eq body in
  match find_long longs name with
  | None => ((QUESTION, None), args)
  | Some o =>
      match lo_has_arg o, value, args with
      | no_argument, Some _, _ => ((QUESTION, None), args)
      | no_argument, None, _ => ((lo_val o, None), args)
      | required_argument, Some v, _ => ((lo_val o, Some v), args)
      | required_argument, None, a :: args' => ((lo_val o, Some a), args')
      | required_argument, None, [] => ((QUESTION, None), [])
      end
  end.

(** All calls up to the one that returns -1: what they return, and the operands
    that [optind] then points at. Every round consumes an argument. *)
Fixpoint getopt_scan (fuel : nat) (optstring : list Z) (longs : list long_opt) (args : list (list Z)) :
    list opt_event * list (list Z) :=
  match fuel, args with
  | S fuel, a :: args' =>
      let next := getopt_scan fuel optstring longs in
      match a with
      | c1 :: c2 :: body =>
          if c1 =? DASH then
            if c2 =? DASH then
              match body with
              | [] => ([], args')
              | _ => let '(e, rest) := long_option longs body args' in
                     let '(es, ops) := next rest in (e :: es, ops)
              end
            else
              let '(es1, rest) := short_cluster optstring (c2 :: body) args' in
              let '(es2, ops) := next rest in (es1 ++ es2, ops)
          else let '(es, ops) := next args' in (es, a :: ops)
      | _ => let '(es, ops) := next args' in (es, a :: ops)
      end
  | _, _ => ([], [])
  end.
Definition getopt_long (optstring : list Z) (longs : list long_opt) (args : list (list Z)) : list opt_event * list (list Z) :=
  getopt_scan (length args) optstring longs args.

(** ** The options of the main program *)

Record po_args : Type := mk_args {
  help : bool;
  version : bool;
  config_file : option (list Z);
  loglevel : Z;
  syslog : bool;
  syslog_ident : option (list Z);
  args_fd : Z;
  tui_demo : bool;
  tui_sim : bool }.

Definition po_args_init : po_args := mk_args false false None LOG_INFO false None (-1) false false.

Definition po_args_destroy (a : po_args) : po_args :=
  mk_args (help a) (version a) None (loglevel a) (syslog a) None (args_fd a) (tui_demo a) (tui_sim a).

Definition set_help (a : po_args) := mk_args true (version a) (config_file a) (loglevel a) (syslog a) (syslog_ident a) (args_fd a) (tui_demo a) (tui_sim a).
Definition set_version (a : po_args) := mk_args (help a) true (config_file a) (loglevel a) (syslog a) (syslog_ident a) (args_fd a) (tui_demo a) (tui_sim a).
Definition set_config (f : option (list Z)) (a : po_args) := mk_args (help a) (version a) f (loglevel a) (syslog a) (syslog_ident a) (args_fd a) (tui_demo a) (tui_sim a).
Definition set_loglevel (l : Z) (a : po_args) := mk_args (help a) (version a) (config_file a) l (syslog a) (syslog_ident a) (args_fd a) (tui_demo a) (tui_sim a).
Definition set_syslog (a : po_args) := mk_args (help a) (version a) (config_file a) (loglevel a) true (syslog_ident a) (args_fd a) (tui_demo a) (tui_sim a).
Definition set_ident (s : option (list Z)) (a : po_args) := mk_args (help a) (version a) (config_file a) (loglevel a) (syslog a) s (args_fd a) (tui_demo a) (tui_sim a).
Definition set_tui_demo (a : po_args) := mk_args (help a) (version a) (config_file a) (loglevel a) (syslog a) (syslog_ident a) (args_fd a) true (tui_sim a).
Definition set_tui_sim (a : po_args) := mk_args (help a) (version a) (config_file a) (loglevel a) (syslog a) (syslog_ident a) (args_fd a) (tui_demo a) true.

(** The names and their levels, in the order of the table. *)
Definition level_table : list (list Z * Z) :=
  [(str "TRACE", 0); (str "DEBUG", 1); (str "INFO", 2); (str "WARN", 3); (str "WARNING", 3); (str "ERROR", 4); (str "FATAL", 5)].

Definition parse_loglevel (arg : list Z) : option Z :=
  match filter (λ e, strcasecmp_eq arg e.1 = true) level_table with
  | e :: _ => Some e.2
  | [] =>
      let '(v, rest) := strtol arg in
      match rest with
      | _ :: _ => None
      | [] => if (v <? 0) || (5 <? v) then None else Some v
      end
  end.

(** [po_handle_option]: 0 to go on, 1 for an early exit, -1 for an error. *)
Definition po_handle_option (opt : Z) (optarg : option (list Z)) (a : po_args) : alloc (Z * po_args) :=
  if opt =? 104 then mret (1, set_help a)
  else if opt =? 118 then mret (1, set_version a)
  else if opt =? 99 then
    match optarg with
    | None => mret (-1, a)
    | Some v =>
        ok ← malloc;
        mret (if ok : bool then (0, set_config (Some v) a) else (-1, set_config None a))
    end
  else if opt =? 108 then
    mret (match optarg ≫= parse_loglevel with Some l => (0, set_loglevel l a) | None => (-1, a) end)
  else if opt =? 1 then mret (0, set_syslog a)
  else if opt =? 2 then
    match optarg with
    | None => mret (0, set_ident None a)
    | Some v =>
        ok ← malloc;
        mret (if ok : bool then (0, set_ident (Some v) a) else (-1, set_ident None a))
    end
  else if opt =? 3 then mret (0, set_tui_demo a)
  else if opt =? 4 then mret (0, set_tui_sim a)
  else mret (-1, a).

Definition args_optstring : list Z := str "hvc:l:".
Definition args_long_opts : list long_opt :=
  [mk_opt (str "help") no_argument 104; mk_opt (str "version") no_argument 118; mk_opt (str "loglevel") required_argument 108;
   mk_opt (str "config") required_argument 99; mk_opt (str "syslog") no_argument 1; mk_opt (str "syslog-ident") required_argument 2;
   mk_opt (str "tui-demo") no_argument 3; mk_opt (str "tui") no_argument 4].

Fixpoint handle_options (es : list opt_event) (a : po_args) : alloc (Z * po_args) :=
  match es with
  | [] => mret (0, a)
  | e :: es' =>
      r ← po_handle_option e.1 e.2 a;
      if r.1 =? 0 then handle_options es' r.2 else mret r
  end.

(** [po_args_parse] on the arguments after the program's name. *)
Definition po_args_parse (a : po_args) (argv : list (list Z)) : alloc (Z * po_args) :=
  let '(es, operands) := getopt_long args_optstring args_long_opts argv in
  r ← handle_options es a;
  mret (if negb (r.1 =? 0) then r
        else if negb (bool_decide (operands = [])) then (-1, r.2)
        else if (loglevel r.2 <? 0) || (5 <? loglevel r.2) then (-1, r.2)
        else (0, r.2)).

(** ** Specification: how options are written *)

(** A short or long option with or without an argument, which may be joined to
    it; a long one by any text that selects it. *)
Inductive usage : Type :=
| UShort (c : Z) (value : option (list Z)) (joined : bool)
| ULong (typed : list Z) (o : long_opt) (value : option (list Z)) (joined : bool).

Definition spell (head separator : list Z) (value : option (list Z)) (joined : bool) : list (list Z) :=
  match value with
  | None => [head]
  | Some v => if joined then [head ++ separator ++ v] else [head; v]
  end.
Definition render (u : usage) : list (list Z) :=
  match u with
  | UShort c value joined => spell [DASH; c] [] value joined
  | ULong typed _ value joined => spell (DASH :: DASH :: typed) [EQ] value joined
  end.
Definition event_of (u : usage) : opt_event :=
  match u with UShort c value _ => (c, value) | ULong _ o value _ => (lo_val o, value) end.

Definition takes (h : has_arg) (value : option (list Z)) : Prop := h = required_argument ↔ is_Some value.

Definition usage_ok (optstring : list Z) (longs : list long_opt) (u : usage) : Prop :=
  match u with
  | UShort c value joined =>
      c ≠ DASH ∧ (∃ h, short_lookup optstring c = Some h ∧ takes h value) ∧ (joined = true → value ≠ Some [])
  | ULong typed o value joined =>
      typed ≠ [] ∧ EQ ∉ typed ∧ find_long longs typed = Some o ∧ takes (lo_has_arg o) value
  end.

(** An argument that is not an option. *)
Definition is_operand (a : list Z) : Prop := match a with c :: _ :: _ => c ≠ DASH | _ => True end.

(** A command line: options and operands in any order. *)
Definition item : Type := usage + list Z.
Definition item_usable (optstring : list Z) (longs : list long_opt) (i : item) : Prop :=
  match i with inl u => usage_ok optstring longs u | inr a => is_operand a end.
Definition item_words (i : item) : list (list Z) := match i with inl u => render u | inr a => [a] end.
Definition item_event (i : item) : option opt_event := match i with inl u => Some (event_of u) | inr _ => None end.
Definition item_operand (i : item) : option (list Z) := match i with inl _ => None | inr a => Some a end.

(** ** getopt_long reads what was written *)

Section getopt.
  Context (optstring : list Z) (longs : list long_opt).

Lemma split_eq_none typed : EQ ∉ typed → split_eq typed = (typed, None).
Proof.
  induction typed as [|c s IH]; intros H; [done|]. apply not_elem_of_cons in H as [Hc Hs].
  simpl. destruct (Z.eqb_spec c EQ); [congruence|]. by rewrite IH.
Qed.

Lemma split_eq_some typed v : EQ ∉ typed → split_eq (typed ++ EQ :: v) = (typed, Some v).
Proof.
  induction typed as [|c s IH]; intros H; [done|]. apply not_elem_of_cons in H as [Hc Hs].
  simpl. destruct (Z.eqb_spec c EQ); [congruence|]. by rewrite IH.
Qed.

Lemma scan_short fuel c cs args :
  c ≠ DASH →
  getopt_scan (S fuel) optstring longs ((DASH :: c :: cs) :: args) =
    let '(es1, rest) := short_cluster optstring (c :: cs) args in
    let '(es2, ops) := getopt_scan fuel optstring longs rest in (es1 ++ es2, ops).
Proof. intros H. cbn [getopt_scan]. rewrite Z.eqb_refl. by destruct (Z.eqb_spec c DASH). Qed.

Lemma scan_long fuel body args :
  body ≠ [] →
  getopt_scan (S fuel) optstring longs ((DASH :: DASH :: body) :: args) =
    let '(e, rest) := long_option longs body args in
    let '(es, ops) := getopt_scan fuel optstring longs rest in (e :: es, ops).
Proof. intros H. cbn [getopt_scan]. rewrite !Z.eqb_refl. by destruct body. Qed.

Lemma scan_operand fuel a args :
  is_operand a →
  getopt_scan (S fuel) optstring longs (a :: args) =
    let '(es, ops) := getopt_scan fuel optstring longs args in (es, a :: ops).
Proof.
  intros H. destruct a as [|c [|d a]]; [done|done|]. simpl in H. cbn [getopt_scan]. by destruct (Z.eqb_spec c DASH).
Qed.

Lemma cluster_usage c h value (joined : bool) args :
  short_lookup optstring c = Some h → takes h value → (joined = true → value ≠ Some []) →
  short_cluster optstring (c :: match value with Some v => if joined then v else [] | None => [] end)
    (match value with Some v => if joined then args else v :: args | None => args end) = ([(c, value)], args).
Proof.
  intros Hl [H1 H2] Hj. cbn [short_cluster]. rewrite Hl. destruct h, value as [v|]; simpl.
  - discriminate H2; eauto.
  - done.
  - destruct joined; [|done]. destruct v as [|d v]; [|done]. by destruct (Hj eq_refl).
  - by destruct (H1 eq_refl).
Qed.

Lemma long_usage typed o value (joined : bool) args :
  EQ ∉ typed → find_long longs typed = Some o → takes (lo_has_arg o) value →
  long_option longs (typed ++ match value with Some v => if joined then EQ :: v else [] | None => [] end)
    (match value with Some v => if joined then args else v :: args | None => args end) = ((lo_val o, value), args).
Proof.
  intros He Hf [H1 H2]. unfold long_option. destruct value as [v|]; [destruct joined|].
  - rewrite split_eq_some, Hf by done. rewrite H2 by eauto. done.
  - rewrite app_nil_r, split_eq_none, Hf by done. rewrite H2 by eauto. done.
  - rewrite app_nil_r, split_eq_none, Hf by done. destruct (lo_has_arg o); [done|]. by destruct (H1 eq_refl).
Qed.

Lemma scan_usage fuel u args :
  usage_ok optstring longs u → (length args < fuel)%nat →
  ∃ fuel', (length args <= fuel')%nat ∧
  getopt_scan fuel optstring longs (render u ++ args) =
    let '(es, ops) := getopt_scan fuel' optstring longs args in (event_of u :: es, ops).
Proof.
  intros Hu Hf. destruct fuel as [|fuel]; [lia|]. exists fuel. split; [lia|]. destruct u as [c value joined|typed o value joined].
  - destruct Hu as (Hc & (h & Hl & Ht) & Hj).
    pose proof (cluster_usage c h value joined args Hl Ht Hj) as E.
    replace (render (UShort c value joined) ++ args) with
      ((DASH :: c :: match value with Some v => if joined then v else [] | None => [] end) ::
       match value with Some v => if joined then args else v :: args | None => args end) by by destruct value, joined.
    rewrite scan_short, E by done. by destruct (getopt_scan fuel optstring longs args).
  - destruct Hu as (Hn & He & Hl & Ht).
    pose proof (long_usage typed o value joined args He Hl Ht) as E.
    replace (render (ULong typed o value joined) ++ args) with
      ((DASH :: DASH :: typed ++ match value with Some v => if joined then EQ :: v else [] | None => [] end) ::
       match value with Some v => if joined then args else v :: args | None => args end)
      by (destruct value, joined; simpl; by rewrite ?app_nil_r).
    rewrite scan_long, E; [by destruct (getopt_scan fuel optstring longs args)|].
    by destruct typed.
Qed.

Lemma scan_items (its : list item) fuel :
  Forall (item_usable optstring longs) its → (length (concat (item_words <$> its)) <= fuel)%nat →
  getopt_scan fuel optstring longs (concat (item_words <$> its)) = (omap item_event its, omap item_operand its).
Proof.
  revert fuel. induction its as [|i its IH]; intros fuel Hok Hf; [by destruct fuel|].
  apply Forall_cons_1 in Hok as [Hi Hok]. cbn [fmap list_fmap concat] in *. rewrite length_app in Hf.
  destruct i as [u|a]; simpl in Hi.
  - destruct (scan_usage fuel u (concat (item_words <$> its)) Hi) as (f' & Hf' & E).
    { assert (1 <= length (render u))%nat; [|simpl in Hf; lia]. destruct u as [? [] []|? ? [] []]; simpl; lia. }
    cbn [item_words]. rewrite E, IH by done. done.
  - destruct fuel as [|fuel]; [simpl in Hf; lia|]. cbn [item_words app]. rewrite scan_operand by done.
    rewrite IH; [done|done|simpl in Hf; lia].
Qed.

Lemma getopt_items (its : list item) :
  Forall (item_usable optstring longs) its →
  getopt_long optstring longs (concat (item_words <$> its)) = (omap item_event its, omap item_operand its).
Proof. intros H. by apply scan_items. Qed.

End getopt.

(** ** The settings of a command line *)

Inductive setting : Type :=
| SConfig (file : list Z)
| SLevel (level : list Z)
| SSyslog
| SIdent (ident : list Z)
| STuiDemo
| STui.

Definition setting_event (s : setting) : opt_event :=
  match s with
  | SConfig v => (99, Some v)
  | SLevel v => (108, Some v)
  | SSyslog => (1, None)
  | SIdent v => (2, Some v)
  | STuiDemo => (3, None)
  | STui => (4, None)
  end.
Definition apply_setting (a : po_args) (s : setting) : po_args :=
  match s with
  | SConfig v => set_config (Some v) a
  | SLevel v => set_loglevel (default LOG_INFO (parse_loglevel v)) a
  | SSyslog => set_syslog a
  | SIdent v => set_ident (Some v) a
  | STuiDemo => set_tui_demo a
  | STui => set_tui_sim a
  end.
Definition setting_ok (s : setting) : Prop := match s with SLevel v => is_Some (parse_loglevel v) | _ => True end.

(** What a level text stands for: one of the names in any case, or a number
    from 0 to 5 in the syntax of [strtol]. *)
Lemma parse_loglevel_range s l : parse_loglevel s = Some l → 0 <= l <= 5.
Proof.
  unfold parse_loglevel. destruct (filter _ level_table) as [|e es] eqn:E.
  - destruct (strtol s) as [v rest]. destruct rest; [|done]. destruct (Z.ltb_spec v 0), (Z.ltb_spec 5 v); simpl; intros [= <-]; lia.
  - intros [= <-]. assert (e ∈ level_table) as H.
    { eapply list_elem_of_filter. rewrite E. apply list_elem_of_here. }
    unfold level_table in H. repeat (apply elem_of_cons in H as [-> | H]; [simpl; lia|]). by apply elem_of_nil in H.
Qed.

Lemma handle_settings ss es a (Q : Z * po_args → Prop) :
  Forall setting_ok ss → succeeds (handle_options es (foldl apply_setting a ss)) Q →
  succeeds (handle_options ((setting_event <$> ss) ++ es) a) Q.
Proof.
  revert a. induction ss as [|s ss IH]; intros a Hok HQ; [done|]. apply Forall_cons_1 in Hok as [Hs Hok].
  cbn [fmap list_fmap app handle_options]. apply succeeds_bind.
  assert (∀ a', foldl apply_setting a' ss = foldl apply_setting a (s :: ss) → succeeds (handle_options ((setting_event <$> ss) ++ es) a') Q) as HI.
  { intros a' E. apply IH; [done|by rewrite E]. }
  destruct s; cbn -[handle_options]; try (apply succeeds_ret; by apply HI).
  - apply succeeds_bind, succeeds_malloc, succeeds_ret. by apply HI.
  - destruct Hs as [l E]. cbn in HI. rewrite E in *. apply succeeds_ret. by apply HI.
  - apply succeeds_bind, succeeds_malloc, succeeds_ret. by apply HI.
Qed.

Lemma settings_level ss a :
  Forall setting_ok ss → 0 <= loglevel a <= 5 → 0 <= loglevel (foldl apply_setting a ss) <= 5.
Proof.
  revert a. induction ss as [|s ss IH]; intros a Hok Ha; [done|]. apply Forall_cons_1 in Hok as [Hs Hok]. apply IH; [done|].
  destruct s; simpl; try lia. destruct Hs as [l E]. rewrite E. by eapply parse_loglevel_range.
Qed.

(** ** Properties *)

(** Parsing reads back every way of writing a command line: for any sequence of
    settings, each written as a short or long option, in full or by an
    unambiguous prefix, its argument joined or separate, mixed with operands in
    any order, the parser applies exactly these settings in order (the last one of
    a kind wins) and succeeds, unless there is an operand, which is an error. *)
Theorem args_parse_print (its : list item) (ss : list setting) :
  Forall (item_usable args_optstring args_long_opts) its → omap item_event its = setting_event <$> ss → Forall setting_ok ss →
  succeeds (po_args_parse po_args_init (concat (item_words <$> its))) (λ r,
    r = (if bool_decide (omap item_operand its = []) then 0 else -1, foldl apply_setting po_args_init ss)).
Proof.
  intros Hok Hev Hss. unfold po_args_parse. rewrite getopt_items, Hev by done.
  apply succeeds_bind. rewrite <- (app_nil_r (setting_event <$> ss)). apply handle_settings; [done|].
  apply succeeds_ret, succeeds_ret. cbn [fst snd Z.eqb negb].
  destruct (bool_decide_reflect (omap item_operand its = [])); [|done]. simpl.
  pose proof (settings_level ss po_args_init Hss ltac:(done)) as H.
  destruct (Z.ltb_spec (loglevel (foldl apply_setting po_args_init ss)) 0), (Z.ltb_spec 5 (loglevel (foldl apply_setting po_args_init ss))); done || lia.
Qed.

(** [-lDebug --conf=a.ini --syslog -c b.ini]. *)
Definition demo_items : list item :=
  [inl (UShort 108 (Some (str "Debug")) true);
   inl (ULong (str "conf") (mk_opt (str "config") required_argument 99) (Some (str "a.ini")) true);
   inl (ULong (str "syslog") (mk_opt (str "syslog") no_argument 1) None false);
   inl (UShort 99 (Some (str "b.ini")) false)].

Lemma demo_items_ok : Forall (item_usable args_optstring args_long_opts) demo_items.
Proof.
  assert (∀ v : list Z, takes required_argument (Some v)) as H1 by (split; [eauto|done]).
  assert (takes no_argument None) as H2 by (split; [done|intros [? [=]]]).
  repeat constructor; try done; try (eexists; split; [reflexivity|done]); try apply H1; try apply H2;
    vm_compute; intros H; repeat (apply elem_of_cons in H as [H|H]; [discriminate H|]); by apply elem_of_nil in H.
Qed.

Lemma args_parse_print_witness :
  (po_args_parse po_args_init [str "-lDebug"; str "--conf=a.ini"; str "--syslog"; str "-c"; str "b.ini"] []).1 =
  (0, mk_args false false (Some (str "b.ini")) LOG_DEBUG true None (-1) false false).
Proof.
  destruct (args_parse_print demo_items [SLevel (str "Debug"); SConfig (str "a.ini"); SSyslog; SConfig (str "b.ini")] demo_items_ok
    eq_refl ltac:(repeat constructor; eexists; vm_compute; reflexivity) [] ltac:(constructor)) as [H _].
  exact H.
Defined.

(** Help ends the parsing with status 1: later options are not looked at, and
    earlier ones were applied. *)
Theorem args_help_stops (its its' : list item) (ss : list setting) (u : usage) :
  Forall (item_usable args_optstring args_long_opts) (its ++ inl u :: its') → event_of u = (104, None) →
  omap item_event its = setting_event <$> ss → Forall setting_ok ss →
  succeeds (po_args_parse po_args_init (concat (item_words <$> its ++ inl u :: its'))) (λ r,
    r = (1, set_help (foldl apply_setting po_args_init ss))).
Proof.
  intros Hok Hu Hev Hss. unfold po_args_parse. rewrite getopt_items by done.
  apply succeeds_bind. rewrite omap_app, Hev. cbn [omap list_omap item_event]. rewrite Hu. apply handle_settings; [done|].
  cbn [handle_options]. apply succeeds_bind, succeeds_ret. simpl. by apply succeeds_ret, succeeds_ret.
Qed.

(** The empty text and a text with leading blanks are accepted as log levels. *)
Theorem loglevel_empty_is_trace : parse_loglevel [] = Some 0 ∧ parse_loglevel (str " +3") = Some 3 ∧ parse_loglevel (str "6") = None.
Proof. split_and!; vm_compute; reflexivity. Qed.
