(* ===== verification/DirectorConfig.v ===== *)
(** * Configuration and shared memory of the simulation

    [director_config.c]: defaults, command line, configuration file and processor
    count, in this order of precedence; [simulation_ipc.c]: creation, attachment
    and detachment of the shared memory under every outcome of the system calls;
    and [director_setup_shm], which puts them together. The file system is a
    function from paths to contents. *)

From Stdlib Require Import ZArith Lia String.
From stdpp Require Import base list numbers.
From S2P Require Import Prelude Cstring Prime Hashtable HashtableGrowth Hashset Ini Configs LoggerFormat Argv Clock.

Local Open Scope Z_scope.

(** ** director_config.c *)

Definition DEFAULT_WORKERS : Z := 6.

Record director_config_t : Type := mk_dcfg {
  worker_count : Z;
  config_path : option (list Z);
  dc_log_level : list Z;
  is_headless : bool;
  issuer_pool_size : Z;
  manager_pool_size : Z;
  initial_users : Z;
  batch_users : Z;
  lb_enabled : bool;
  lb_check_interval : Z;
  lb_imbalance_threshold : Z;
  lb_min_queue_depth : Z }.

Definition initialize_configuration_defaults : director_config_t :=
  mk_dcfg 0 None (str "INFO") false 64 1000 5 5 false 5 200 3.

Definition set_workers (n : Z) (c : director_config_t) := mk_dcfg n (config_path c) (dc_log_level c) (is_headless c) (issuer_pool_size c)
  (manager_pool_size c) (initial_users c) (batch_users c) (lb_enabled c) (lb_check_interval c) (lb_imbalance_threshold c) (lb_min_queue_depth c).
Definition set_path (p : list Z) (c : director_config_t) := mk_dcfg (worker_count c) (Some p) (dc_log_level c) (is_headless c) (issuer_pool_size c)
  (manager_pool_size c) (initial_users c) (batch_users c) (lb_enabled c) (lb_check_interval c) (lb_imbalance_threshold c) (lb_min_queue_depth c).
Definition set_log_level (l : list Z) (c : director_config_t) := mk_dcfg (worker_count c) (config_path c) l (is_headless c) (issuer_pool_size c)
  (manager_pool_size c) (initial_users c) (batch_users c) (lb_enabled c) (lb_check_interval c) (lb_imbalance_threshold c) (lb_min_queue_depth c).
Definition set_headless (c : director_config_t) := mk_dcfg (worker_count c) (config_path c) (dc_log_level c) true (issuer_pool_size c)
  (manager_pool_size c) (initial_users c) (batch_users c) (lb_enabled c) (lb_check_interval c) (lb_imbalance_threshold c) (lb_min_queue_depth c).
Definition set_issuer_pool (n : Z) (c : director_config_t) := mk_dcfg (worker_count c) (config_path c) (dc_log_level c) (is_headless c) n
  (manager_pool_size c) (initial_users c) (batch_users c) (lb_enabled c) (lb_check_interval c) (lb_imbalance_threshold c) (lb_min_queue_depth c).
Definition set_manager_pool (n : Z) (c : director_config_t) := mk_dcfg (worker_count c) (config_path c) (dc_log_level c) (is_headless c) (issuer_pool_size c)
  n (initial_users c) (batch_users c) (lb_enabled c) (lb_check_interval c) (lb_imbalance_threshold c) (lb_min_queue_depth c).
Definition set_initial (n : Z) (c : director_config_t) := mk_dcfg (worker_count c) (config_path c) (dc_log_level c) (is_headless c) (issuer_pool_size c)
  (manager_pool_size c) n (batch_users c) (lb_enabled c) (lb_check_interval c) (lb_imbalance_threshold c) (lb_min_queue_depth c).
Definition set_batch (n : Z) (c : director_config_t) := mk_dcfg (worker_count c) (config_path c) (dc_log_level c) (is_headless c) (issuer_pool_size c)
  (manager_pool_size c) (initial_users c) n (lb_enabled c) (lb_check_interval c) (lb_imbalance_threshold c) (lb_min_queue_depth c).
Definition set_lb_enabled (b : bool) (c : director_config_t) := mk_dcfg (worker_count c) (config_path c) (dc_log_level c) (is_headless c) (issuer_pool_size c)
  (manager_pool_size c) (initial_users c) (batch_users c) b (lb_check_interval c) (lb_imbalance_threshold c) (lb_min_queue_depth c).
Definition set_lb_interval (n : Z) (c : director_config_t) := mk_dcfg (worker_count c) (config_path c) (dc_log_level c) (is_headless c) (issuer_pool_size c)
  (manager_pool_size c) (initial_users c) (batch_users c) (lb_enabled c) n (lb_imbalance_threshold c) (lb_min_queue_depth c).
Definition set_lb_threshold (n : Z) (c : director_config_t) := mk_dcfg (worker_count c) (config_path c) (dc_log_level c) (is_headless c) (issuer_pool_size c)
  (manager_pool_size c) (initial_users c) (batch_users c) (lb_enabled c) (lb_check_interval c) n (lb_min_queue_depth c).
Definition set_lb_depth (n : Z) (c : director_config_t) := mk_dcfg (worker_count c) (config_path c) (dc_log_level c) (is_headless c) (issuer_pool_size c)
  (manager_pool_size c) (initial_users c) (batch_users c) (lb_enabled c) (lb_check_interval c) (lb_imbalance_threshold c) n.

Definition director_optstring : list Z := str "hc:l:w:".
Definition director_long_opts : list long_opt :=
  [mk_opt (str "headless") no_argument 104; mk_opt (str "config") required_argument 99;
   mk_opt (str "loglevel") required_argument 108; mk_opt (str "workers") required_argument 119].

(** One option; the error value and a missing argument are ignored. *)
Definition director_option (c : director_config_t) (e : opt_event) : director_config_t :=
  match e with
  | (opt, optarg) =>
      if opt =? 104 then set_headless c
      else match optarg with
           | None => c
           | Some v =>
               if opt =? 99 then set_path v c
               else if opt =? 108 then if negb (po_logger_level_from_str v =? -1) then set_log_level v c else c
               else if opt =? 119 then
                 let val := (strtol v).1 in
                 if 0 <? val then set_workers (u32 val) c else c
               else c
           end
  end.
Definition parse_command_line_configuration (c : director_config_t) (argv : list (list Z)) : director_config_t :=
  foldl director_option c (getopt_long director_optstring director_long_opts argv).1.

(** [if (po_config_get_int(...) == 0 && guard) update]. *)
Definition on_int {A} (cfg : po_config) (section key : string) (guard : Z → bool) (update : Z → A → A) (c : A) : alloc A :=
  r ← po_config_get_int cfg (str section) (str key);
  mret (match r with inr v => if guard v then update v c else c | inl _ => c end).
Definition on_long {A} (cfg : po_config) (section key : string) (update : Z → A → A) (c : A) : alloc A :=
  r ← po_config_get_long cfg (str section) (str key);
  mret (match r with inr v => update v c | inl _ => c end).

Definition always_taken (_ : Z) : bool := true.

(** The configuration and the variable [PO_USER_REQUESTS] of the environment. *)
Definition dstate : Type := director_config_t * option (list Z).
Definition on_cfg (f : director_config_t → director_config_t) (s : dstate) : dstate := (f s.1, s.2).

Definition apply_file (cfg : po_config) (s : dstate) : alloc dstate :=
  s ← on_int cfg "workers" "NOF_WORKERS" (λ v, 0 <? v) (λ v, on_cfg (λ c, if worker_count c =? 0 then set_workers (u32 v) c else c)) s;
  s ← on_int cfg "users_manager" "N_NEW_USERS" always_taken (λ v, on_cfg (λ c, set_initial v (set_batch v c))) s;
  s ← on_int cfg "users_manager" "POOL_SIZE" always_taken (λ v, on_cfg (set_manager_pool v)) s;
  s ← on_int cfg "users" "NOF_USERS" always_taken (λ v, on_cfg (set_initial v)) s;
  s ← on_int cfg "users" "N_REQUESTS" always_taken (λ v s, (s.1, Some (dec_int v))) s;
  s ← on_int cfg "ticket_issuer" "POOL_SIZE" always_taken (λ v, on_cfg (set_issuer_pool v)) s;
  s ← on_int cfg "load_balance" "ENABLED" always_taken (λ v, on_cfg (set_lb_enabled (negb (v =? 0)))) s;
  s ← on_int cfg "load_balance" "CHECK_INTERVAL" (λ v, 0 <? v) (λ v, on_cfg (set_lb_interval (u32 v))) s;
  s ← on_int cfg "load_balance" "IMBALANCE_THRESHOLD" (λ v, 0 <? v) (λ v, on_cfg (set_lb_threshold (u32 v))) s;
  on_int cfg "load_balance" "MIN_QUEUE_DEPTH" (λ v, 0 <=? v) (λ v, on_cfg (set_lb_depth (u32 v))) s.

(** The number of workers for a number of processors. *)
Definition auto_workers (logical_processors : Z) : Z :=
  if 0 <? logical_processors then
    if u32 logical_processors <? 2 then 2 else u32 logical_processors
  else DEFAULT_WORKERS.

(** A strict load is never undefined ([strict_load_defined] below). *)
Definition with_config_file {A} (fs : list Z → option (list Z)) (path : option (list Z)) (f : po_config → A → alloc A) (s : A) : alloc A :=
  match path with
  | None => mret s
  | Some p =>
      file_cfg ← po_config_load_strict (fs p);
      match file_cfg with Some (Some cfg) => f cfg s | _ => mret s end
  end.

Definition resolve_complete_configuration (fs : list Z → option (list Z)) (logical_processors : Z) (s : dstate) : alloc dstate :=
  s ← with_config_file fs (config_path s.1) apply_file s;
  mret (on_cfg (λ c, if worker_count c =? 0 then set_workers (auto_workers logical_processors) c else c) s).

(** ** The shared memory *)

Definition DEFAULT_START_DAY : Z := 1.
Definition DEFAULT_START_HOUR : Z := 0.

Record sim_params_t : Type := mk_params {
  n_workers : Z;
  sim_duration_days : Z;
  explode_threshold : Z;
  params_headless : Z;
  tick_nanos : Z }.

(** The fields that set-up writes; the rest of the block is zero. [slots] is the
    number of worker slots behind the header. *)
Record sim_shm : Type := mk_shm {
  params : sim_params_t;
  packed_time : Z;
  sim_active : bool;
  shm_required_count : Z;
  connected_threads : Z;
  active_threads : Z;
  slots : Z }.

Definition set_params (p : sim_params_t) (s : sim_shm) : sim_shm :=
  mk_shm p (packed_time s) (sim_active s) (shm_required_count s) (connected_threads s) (active_threads s) (slots s).
Definition set_duration (n : Z) (p : sim_params_t) := mk_params (n_workers p) (u32 n) (explode_threshold p) (params_headless p) (tick_nanos p).
Definition set_tick (n : Z) (p : sim_params_t) := mk_params (n_workers p) (sim_duration_days p) (explode_threshold p) (params_headless p) (u64 n).
Definition set_explode (n : Z) (p : sim_params_t) := mk_params (n_workers p) (sim_duration_days p) (u32 n) (params_headless p) (tick_nanos p).

Definition apply_sim_file (cfg : po_config) (p : sim_params_t) : alloc sim_params_t :=
  p ← on_int cfg "simulation" "SIM_DURATION" always_taken set_duration p;
  p ← on_long cfg "simulation" "N_NANO_SECS" set_tick p;
  on_int cfg "simulation" "EXPLODE_THRESHOLD" always_taken set_explode p.

Definition apply_configuration_to_shared_memory (fs : list Z → option (list Z)) (c : director_config_t) (s : sim_shm) : alloc sim_shm :=
  p ← with_config_file fs (config_path c) apply_sim_file (mk_params (n_workers (params s)) 10 100 (params_headless (params s)) 2500000);
  mret (mk_shm (mk_params (worker_count c) (sim_duration_days p) (explode_threshold p) (if is_headless c then 1 else 0) (tick_nanos p))
          (packed_time s) (sim_active s) (1 + 2)
          (u32 (connected_threads s + (1 + (if is_headless c then 0 else 9)))) (u32 (active_threads s + 1)) (slots s)).

(** ** simulation_ipc.c *)

Inductive shm_open_result : Type := OpenOk | OpenExists | OpenFails.

(** The answers of the system calls in one round of the creation loop. *)
Record attempt : Type := mk_attempt { at_open : shm_open_result; at_ftruncate : bool; at_mmap : bool }.

(** What the process holds of the system: the named object with its size, the
    number of open descriptors and the lengths of the mappings. *)
Record shm_os : Type := mk_os { shm_object : option Z; open_fds : Z; mappings : list Z }.

(** The calls when they succeed. *)
Definition shm_unlink (o : shm_os) : shm_os := mk_os None (open_fds o) (mappings o).
Definition shm_open_new (o : shm_os) : shm_os := mk_os (Some 0) (open_fds o + 1) (mappings o).
Definition shm_open_old (o : shm_os) : shm_os := mk_os (shm_object o) (open_fds o + 1) (mappings o).
Definition close_fd (o : shm_os) : shm_os := mk_os (shm_object o) (open_fds o - 1) (mappings o).
Definition ftruncate (size : Z) (o : shm_os) : shm_os := mk_os (Some size) (open_fds o) (mappings o).
Definition mmap (len : Z) (o : shm_os) : shm_os := mk_os (shm_object o) (open_fds o) (len :: mappings o).

Section ipc.
(** [sizeof(sim_shm_t)] and [sizeof(worker_status_t)] of the target. *)
Variables sizeof_shm sizeof_status : Z.

Definition total_size (n : Z) : Z := u64 (sizeof_shm + u64 (n * sizeof_status)).

(** The block after [memset] and the initialisation of its fields. *)
Definition fresh_shm (n : Z) : sim_shm :=
  mk_shm (mk_params (u32 n) 0 0 0 0) (Z.lor (Z.lor (Z.shiftl DEFAULT_START_DAY 16) (Z.shiftl DEFAULT_START_HOUR 8)) 0) true 0 0 0 n.

Definition max_retries : nat := 3.

Fixpoint create_rounds (rounds : nat) (n : Z) (calls : list attempt) (o : shm_os) : option sim_shm * shm_os :=
  match rounds, calls with
  | S rounds, a :: calls =>
      let o := shm_unlink o in
      match at_open a with
      | OpenExists => create_rounds rounds n calls o
      | OpenFails => (None, o)
      | OpenOk =>
          let o := shm_open_new o in
          if negb (at_ftruncate a) then (None, shm_unlink (close_fd o))
          else
            let o := ftruncate (total_size n) o in
            if negb (at_mmap a) then (None, shm_unlink (close_fd o))
            else (Some (fresh_shm n), close_fd (mmap (total_size n) o))
      end
  | _, _ => (None, o)
  end.
Definition sim_ipc_shm_create (n : Z) (calls : list attempt) (o : shm_os) : option sim_shm * shm_os :=
  create_rounds max_retries n calls o.

(** The block seen by another process, and whether the size check warned. *)
Definition sim_ipc_shm_attach (open_ok fstat_ok mmap_ok : bool) (shm : sim_shm) (o : shm_os) : option (sim_shm * bool) * shm_os :=
  match shm_object o with
  | Some size =>
      if negb open_ok then (None, o)
      else
        let o := shm_open_old o in
        if negb fstat_ok then (None, close_fd o)
        else if size <? sizeof_shm then (None, close_fd o)
        else if negb mmap_ok then (None, close_fd o)
        else (Some (shm, negb (size =? total_size (n_workers (params shm)))), close_fd (mmap size o))
  | None => (None, o)
  end.

(** [munmap] of the length recomputed from the block: it removes the mapping
    when this is its length. *)
Definition sim_ipc_shm_detach (shm : sim_shm) (o : shm_os) : shm_os :=
  match mappings o with
  | len :: rest => if len =? total_size (n_workers (params shm)) then mk_os (shm_object o) (open_fds o) rest else o
  | [] => o
  end.

Definition sim_ipc_shm_destroy (o : shm_os) : shm_os := shm_unlink o.

(** [director_setup_shm]: resolve, create, apply. *)
Definition director_setup_shm (fs : list Z → option (list Z)) (logical_processors : Z) (calls : list attempt)
    (s : dstate) (o : shm_os) : alloc (option sim_shm * dstate * shm_os) :=
  s ← resolve_complete_configuration fs logical_processors s;
  match sim_ipc_shm_create (worker_count s.1) calls o with
  | (None, o) => mret (None, s, o)
  | (Some shm, o) =>
      shm ← apply_configuration_to_shared_memory fs s.1 shm;
      mret (Some shm, s, o)
  end.

End ipc.

(** ** Specification: the meaning of a file for the director *)

(** The number a file gives for a key. *)
Definition file_number (check : Z → bool) (evs : list (list Z * list Z * list Z)) (section key : string) : option Z :=
  match first_value evs (full_key (str section) (str key)) with
  | Some v => match strtol v with (n, []) => if check n then Some n else None | _ => None end
  | None => None
  end.
Definition in_int (v : Z) : bool := (- 2 ^ 31 <=? v) && (v <? 2 ^ 31).
Definition file_int (evs : list (list Z * list Z * list Z)) (section key : string) : option Z := file_number in_int evs section key.
Definition file_long (evs : list (list Z * list Z * list Z)) (section key : string) : option Z := file_number (λ _, true) evs section key.

(** The value of a key that passes a guard, or the one from before. *)
Definition override {A} (o : option Z) (guard : Z → bool) (f : Z → A) (old : A) : A :=
  match o with Some v => if guard v then f v else old | None => old end.

Definition file_settings (evs : list (list Z * list Z * list Z)) (s : dstate) : dstate :=
  let c := s.1 in
  (mk_dcfg
     (if worker_count c =? 0 then override (file_int evs "workers" "NOF_WORKERS") (λ v, 0 <? v) (λ v, v) 0 else worker_count c)
     (config_path c) (dc_log_level c) (is_headless c)
     (default (issuer_pool_size c) (file_int evs "ticket_issuer" "POOL_SIZE"))
     (default (manager_pool_size c) (file_int evs "users_manager" "POOL_SIZE"))
     (default (default (initial_users c) (file_int evs "users_manager" "N_NEW_USERS")) (file_int evs "users" "NOF_USERS"))
     (default (batch_users c) (file_int evs "users_manager" "N_NEW_USERS"))
     (override (file_int evs "load_balance" "ENABLED") always_taken (λ v, negb (v =? 0)) (lb_enabled c))
     (override (file_int evs "load_balance" "CHECK_INTERVAL") (λ v, 0 <? v) (λ v, v) (lb_check_interval c))
     (override (file_int evs "load_balance" "IMBALANCE_THRESHOLD") (λ v, 0 <? v) (λ v, v) (lb_imbalance_threshold c))
     (override (file_int evs "load_balance" "MIN_QUEUE_DEPTH") (λ v, 0 <=? v) (λ v, v) (lb_min_queue_depth c)),
   override (file_int evs "users" "N_REQUESTS") always_taken (λ v, Some (dec_int v)) s.2).

(** Workers: command line, then file, then processors. *)
Definition settle_workers (logical_processors : Z) (s : dstate) : dstate :=
  (set_workers (if worker_count s.1 =? 0 then auto_workers logical_processors else worker_count s.1) s.1, s.2).

(** ** Lemmas *)

Lemma file_int_range evs s k v : file_int evs s k = Some v → - 2 ^ 31 <= v < 2 ^ 31.
Proof.
  unfold file_int, file_number. destruct (first_value _ _) as [t|]; [|done]. destruct (strtol t) as [n [|]]; [|done].
  unfold in_int. destruct (Z.leb_spec (- 2 ^ 31) n), (Z.ltb_spec n (2 ^ 31)); simpl; intros [= <-]; lia.
Qed.

Section tracked.
  Context (cfg : po_config) (evs : list (list Z * list Z * list Z)) (Ht : tracks cfg evs).

Lemma get_number_tracked check (s k : string) :
  c_string (str s) → c_string (str k) →
  succeeds (get_number check cfg (str s) (str k)) (λ r, match r with inr v => Some v | inl _ => None end = file_number check evs s k).
Proof.
  intros Hs Hk. unfold get_number. apply succeeds_bind. eapply succeeds_mono; [apply get_str_succeeds|]. intros r ->. apply succeeds_ret.
  rewrite (tr_find _ _ Ht) by by apply full_key_string. unfold file_number.
  destruct (first_value _ _) as [v|]; [|done]. simpl. destruct (strtol v) as [n [|]]; [|done]. by destruct (check n).
Qed.

Lemma on_int_tracked {A} (s k : string) guard update (c : A) :
  c_string (str s) → c_string (str k) →
  succeeds (on_int cfg s k guard update c) (λ r, r = override (file_int evs s k) guard (λ v, update v c) c).
Proof.
  intros Hs Hk. unfold on_int. apply succeeds_bind. eapply succeeds_mono; [by apply get_number_tracked|].
  intros r E. apply succeeds_ret. unfold file_int, in_int. rewrite <- E. by destruct r.
Qed.

Lemma on_long_tracked {A} (s k : string) update (c : A) :
  c_string (str s) → c_string (str k) →
  succeeds (on_long cfg s k update c) (λ r, r = override (file_long evs s k) always_taken (λ v, update v c) c).
Proof.
  intros Hs Hk. unfold on_long. apply succeeds_bind. eapply succeeds_mono; [by apply get_number_tracked|].
  intros r E. apply succeeds_ret. unfold file_long. rewrite <- E. by destruct r.
Qed.

End tracked.

(** A setter applied under an override is the setter applied to the overridden value. *)
Lemma override_set {A B} (set : A → B → B) (get : B → A) o guard (f : Z → A) (b : B) :
  set (get b) b = b → override o guard (λ v, set (f v) b) b = set (override o guard f (get b)) b.
Proof. intros H. unfold override. destruct o as [v|]; [destruct (guard v)|]; by rewrite ?H. Qed.

Lemma override_always {A} o (f : Z → A) old : override o always_taken f old = default old (f <$> o).
Proof. by destruct o. Qed.

Lemma override_ext {A} o guard (f g : Z → A) old :
  (∀ v, o = Some v → guard v = true → f v = g v) → override o guard f old = override o guard g old.
Proof. intros H. unfold override. destruct o as [v|]; [|done]. destruct (guard v) eqn:E; [by apply H|done]. Qed.

Lemma override_u32 evs s k guard old :
  (∀ v, guard v = true → 0 <= v) →
  override (file_int evs s k) guard (λ v, u32 v) old = override (file_int evs s k) guard (λ v, v) old.
Proof.
  intros Hg. apply override_ext. intros v E Ev. apply file_int_range in E. apply Hg in Ev. apply u32_small. lia.
Qed.

Ltac norm_cfg H :=
  unfold on_cfg, set_workers, set_initial, set_batch, set_manager_pool, set_issuer_pool, set_lb_enabled, set_lb_interval, set_lb_threshold, set_lb_depth in H;
  cbn [fst snd worker_count config_path dc_log_level is_headless issuer_pool_size manager_pool_size initial_users batch_users
       lb_enabled lb_check_interval lb_imbalance_threshold lb_min_queue_depth] in H.

Lemma override_first w evs s k (c : dstate) :
  worker_count c.1 = w →
  override (file_int evs s k) (λ v, 0 <? v) (λ v, on_cfg (λ c, if worker_count c =? 0 then set_workers (u32 v) c else c) c) c =
  on_cfg (set_workers (if w =? 0 then override (file_int evs s k) (λ v, 0 <? v) (λ v, v) 0 else w)) c.
Proof.
  intros <-. destruct c as [[w p l h ip mp iu bu le li lt ld] e]. unfold on_cfg, override. simpl.
  destruct (file_int evs s k) as [v|] eqn:E; [|by destruct (Z.eqb_spec w 0) as [->|]].
  apply file_int_range in E. destruct (Z.ltb_spec 0 v); [|by destruct (Z.eqb_spec w 0) as [->|]].
  destruct (Z.eqb_spec w 0); [|done]. rewrite u32_small by lia. done.
Qed.

(** One key of the file: [E] puts the outcome into the record. *)
Ltac tracked_step H E :=
  eapply succeeds_mono; [apply (on_int_tracked _ _ H); literal_string|];
  let r := fresh "r" in let Hr := fresh "Hr" in intros r Hr; cbn beta in Hr; rewrite E in Hr by done; norm_cfg Hr; subst r.

Lemma apply_file_settings cfg evs s :
  tracks cfg evs → succeeds (apply_file cfg s) (λ r, r = file_settings evs s).
Proof.
  intros Ht. destruct s as [[w p l h ip mp iu bu le li lt ld] e]. unfold apply_file.
  apply succeeds_bind. tracked_step Ht (override_first w).
  apply succeeds_bind. tracked_step Ht (override_set (λ v, on_cfg (λ c, set_initial v.1 (set_batch v.2 c))) (λ s, (initial_users s.1, batch_users s.1))
    (file_int evs "users_manager" "N_NEW_USERS") always_taken (λ v, (v, v))).
  apply succeeds_bind. tracked_step Ht (override_set (λ v, on_cfg (set_manager_pool v)) (λ s, manager_pool_size s.1) (file_int evs "users_manager" "POOL_SIZE") always_taken (λ v, v)).
  apply succeeds_bind. tracked_step Ht (override_set (λ v, on_cfg (set_initial v)) (λ s, initial_users s.1) (file_int evs "users" "NOF_USERS") always_taken (λ v, v)).
  apply succeeds_bind. tracked_step Ht (override_set (λ v (s : dstate), (s.1, v)) (λ s, s.2) (file_int evs "users" "N_REQUESTS") always_taken (λ v, Some (dec_int v))).
  apply succeeds_bind. tracked_step Ht (override_set (λ v, on_cfg (set_issuer_pool v)) (λ s, issuer_pool_size s.1) (file_int evs "ticket_issuer" "POOL_SIZE") always_taken (λ v, v)).
  apply succeeds_bind. tracked_step Ht (override_set (λ v, on_cfg (set_lb_enabled v)) (λ s, lb_enabled s.1) (file_int evs "load_balance" "ENABLED") always_taken (λ v, negb (v =? 0))).
  apply succeeds_bind. tracked_step Ht (override_set (λ v, on_cfg (set_lb_interval v)) (λ s, lb_check_interval s.1) (file_int evs "load_balance" "CHECK_INTERVAL") (λ v, 0 <? v) (λ v, u32 v)).
  apply succeeds_bind. tracked_step Ht (override_set (λ v, on_cfg (set_lb_threshold v)) (λ s, lb_imbalance_threshold s.1) (file_int evs "load_balance" "IMBALANCE_THRESHOLD") (λ v, 0 <? v) (λ v, u32 v)).
  tracked_step Ht (override_set (λ v, on_cfg (set_lb_depth v)) (λ s, lb_min_queue_depth s.1) (file_int evs "load_balance" "MIN_QUEUE_DEPTH") (λ v, 0 <=? v) (λ v, u32 v)).
  rewrite !override_u32 by (intros ?; rewrite ?Z.ltb_lt, ?Z.leb_le; lia). rewrite !override_always.
  unfold file_settings. cbn [fst snd]. rewrite !override_always.
  repeat f_equal; by repeat destruct (file_int _ _ _).
Qed.

(** A file that strict mode accepts. *)
Definition good_file (ls : list cfg_line) : Prop :=
  Forall is_line ls ∧ c_string (print_file ls) ∧ Z.of_nat (length (events [] ls)) <= MAX_ENTRIES ∧ strict_file (events [] ls).

Lemma strict_load_defined file : always (po_config_load_strict file) is_Some.
Proof.
  unfold po_config_load_strict. eapply always_mono; [apply load_defined|]. intros [r|] H; [by eexists|]. by destruct (H eq_refl).
Qed.

Lemma with_config_file_good {A} fs p ls (f : po_config → A → alloc A) s (Q : A → Prop) :
  fs p = Some (print_file ls) → good_file ls → (∀ cfg, tracks cfg (events [] ls) → succeeds (f cfg s) Q) →
  succeeds (with_config_file fs (Some p) f s) Q.
Proof.
  intros Hf (Hl & Hc & Hn & Hs) HQ. unfold with_config_file. rewrite Hf. apply succeeds_bind.
  eapply succeeds_mono; [apply always_succeeds; [by apply (load_always ls true)|by apply (load_succeeds ls true)]|].
  intros r [(r' & -> & H1) [cfg [= ->]]]. apply HQ. by destruct (H1 cfg eq_refl).
Qed.

Lemma get_int_range cfg s k : always (po_config_get_int cfg s k) (λ r, ∀ v, r = inr v → - 2 ^ 31 <= v < 2 ^ 31).
Proof.
  unfold po_config_get_int, get_number. apply always_bind. intros m. apply always_ret. intros v.
  destruct (po_config_get_str cfg s k m).1 as [|t]; [done|]. destruct (strtol t) as [n [|]]; [|done].
  destruct (Z.leb_spec (- 2 ^ 31) n), (Z.ltb_spec n (2 ^ 31)); simpl; intros [= <-]; lia.
Qed.

Lemma on_int_always {A} (P : A → Prop) cfg s k guard update c :
  P c → (∀ v, - 2 ^ 31 <= v < 2 ^ 31 → guard v = true → P (update v c)) → always (on_int cfg s k guard update c) P.
Proof.
  intros Hc Hu. unfold on_int. apply always_bind. eapply always_mono; [apply get_int_range|]. intros r Hr. apply always_ret.
  destruct r as [|v]; [done|]. destruct (guard v) eqn:E; [apply Hu; [by apply Hr|done]|done].
Qed.

(** What every step of the resolution keeps: the type of the count, and a count
    from the command line. *)
Definition count_kept (w : Z) (s : dstate) : Prop :=
  0 <= worker_count s.1 < 2 ^ 32 ∧ (w ≠ 0 → worker_count s.1 = w).

Lemma apply_file_count w cfg s : count_kept w s → always (apply_file cfg s) (count_kept w).
Proof.
  intros Hs. unfold apply_file. apply always_bind.
  eapply (always_mono _ (count_kept w)).
  { apply on_int_always; [done|]. intros v _ _. destruct Hs as [H1 H2]. unfold count_kept, on_cfg. simpl.
    destruct (Z.eqb_spec (worker_count s.1) 0) as [E|E]; [|done]. simpl. split; [apply u32_range|]. intros Hw. specialize (H2 Hw). lia. }
  clear s Hs. intros s Hs.
  do 8 (apply always_bind; eapply (always_mono _ (count_kept w)); [apply on_int_always; [done|]; intros v _ _; exact Hs|clear s Hs; intros s Hs]).
  apply on_int_always; [done|]. intros v _ _. exact Hs.
Qed.

Lemma auto_workers_range n : 2 <= auto_workers n < 2 ^ 32.
Proof.
  unfold auto_workers, DEFAULT_WORKERS. pose proof (u32_range n).
  destruct (Z.ltb_spec 0 n), (Z.ltb_spec (u32 n) 2); lia.
Qed.

Lemma resolve_count fs procs s :
  0 <= worker_count s.1 < 2 ^ 32 →
  always (resolve_complete_configuration fs procs s) (λ r,
    1 <= worker_count r.1 < 2 ^ 32 ∧ (worker_count s.1 ≠ 0 → worker_count r.1 = worker_count s.1)).
Proof.
  intros Hw. unfold resolve_complete_configuration. apply always_bind.
  eapply (always_mono _ (count_kept (worker_count s.1))).
  - unfold with_config_file. destruct (config_path s.1) as [p|]; [|by apply always_ret].
    apply always_bind. intros m. destruct (po_config_load_strict (fs p) m).1 as [[cfg|]|]; [by apply apply_file_count|by apply always_ret..].
  - intros r [H1 H2]. apply always_ret. unfold on_cfg. simpl. pose proof (auto_workers_range procs).
    destruct (Z.eqb_spec (worker_count r.1) 0) as [E|E]; simpl; split; lia || (intros H3; specialize (H2 H3); lia).
Qed.

Lemma command_line_count argv c :
  0 <= worker_count c < 2 ^ 32 → 0 <= worker_count (parse_command_line_configuration c argv) < 2 ^ 32.
Proof.
  unfold parse_command_line_configuration. generalize (getopt_long director_optstring director_long_opts argv).1 as es.
  intros es. revert c. induction es as [|[opt arg] es IH]; intros c Hc; [done|]. apply IH. unfold director_option.
  destruct (opt =? 104); [done|]. destruct arg as [v|]; [|done]. destruct (opt =? 99); [done|].
  destruct (opt =? 108); [by destruct (negb _)|]. destruct (opt =? 119); [|done].
  destruct (0 <? (strtol v).1); [|done]. apply u32_range.
Qed.

(** ** Properties *)

(** The configuration of a run: for every command line, file, number of
    processors and allocator outcome the number of workers ends between 1 and
    2^32 - 1, a number from the command line is never replaced, and when the
    allocations succeed and the file is one strict mode accepts, every setting is
    the file's value where it has an acceptable one and the earlier value
    otherwise, with the processor count deciding the workers last. *)
Theorem director_resolves (argv : list (list Z)) (fs : list Z → option (list Z)) (procs : Z) :
  let c := parse_command_line_configuration initialize_configuration_defaults argv in
  always (resolve_complete_configuration fs procs (c, None)) (λ r,
    1 <= worker_count r.1 < 2 ^ 32 ∧ (worker_count c ≠ 0 → worker_count r.1 = worker_count c)) ∧
  ∀ p ls, config_path c = Some p → fs p = Some (print_file ls) → good_file ls →
    succeeds (resolve_complete_configuration fs procs (c, None)) (λ r, r = settle_workers procs (file_settings (events [] ls) (c, None))).
Proof.
  intros c. split; [apply resolve_count, command_line_count; simpl; lia|].
  intros p ls Hp Hf Hg. unfold resolve_complete_configuration. apply succeeds_bind. cbn [fst]. rewrite Hp.
  eapply with_config_file_good; [done|done|]. intros cfg Ht. eapply succeeds_mono; [by apply apply_file_settings|].
  intros r ->. apply succeeds_ret. unfold settle_workers, on_cfg.
  destruct (file_settings (events [] ls) (c, None)) as [[w p' l h ip mp iu bu le li lt ld] e]. simpl. by destruct (w =? 0).
Qed.

Definition workers_file : list cfg_line := [CSection (str "workers"); CPair (str "NOF_WORKERS") (str "7")].

Lemma workers_file_good : good_file workers_file.
Proof.
  unfold good_file. split_and!.
  - repeat constructor; try discriminate; vm_compute; intros; discriminate || lia.
  - literal_string.
  - vm_compute. discriminate.
  - split; [repeat constructor; discriminate|apply NoDup_singleton|apply NoDup_singleton].
Qed.

Definition one_file (contents : list Z) (p : list Z) : option (list Z) := if bool_decide (p = str "f") then Some contents else None.

(** [director -c f] with 7 workers in the file. *)
Lemma director_resolves_witness :
  worker_count (resolve_complete_configuration (one_file (print_file workers_file)) 16
    (parse_command_line_configuration initialize_configuration_defaults [str "-c"; str "f"], None) []).1.1 = 7.
Proof.
  destruct (director_resolves [str "-c"; str "f"] (one_file (print_file workers_file)) 16) as [_ H].
  destruct (H (str "f") workers_file eq_refl eq_refl workers_file_good [] ltac:(constructor)) as [-> _].
  vm_compute. reflexivity.
Defined.

(** *** Set-up *)

Section setup.
  Context (sizeof_shm sizeof_status : Z).

Lemma create_rounds_spec rounds n calls o :
  (1 <= rounds <= length calls)%nat →
  match create_rounds sizeof_shm sizeof_status rounds n calls o with
  | (None, o') => o' = mk_os None (open_fds o) (mappings o)
  | (Some shm, o') => shm = fresh_shm n ∧
      o' = mk_os (Some (total_size sizeof_shm sizeof_status n)) (open_fds o) (total_size sizeof_shm sizeof_status n :: mappings o)
  end.
Proof.
  revert calls o. induction rounds as [|rounds IH]; intros calls o [H1 H2]; [lia|]. destruct calls as [|[op tr mm] calls]; [simpl in H2; lia|].
  assert (∀ o : shm_os, open_fds o + 1 - 1 = open_fds o) as Hc by (intros; lia).
  cbn [create_rounds at_open]. destruct op; [|destruct rounds as [|rounds]; [done|]|done].
  - unfold close_fd, mmap, ftruncate, shm_open_new, shm_unlink. destruct tr, mm; simpl; by rewrite Hc.
  - apply (IH calls (shm_unlink o)). simpl in H2. lia.
Qed.

(** Set-up is consistent and leaks nothing: for every command line, file,
    processor count, allocator and answers of the system calls, the director
    either gets no shared memory, and then no object, descriptor or mapping is
    left, or a block whose worker count is the resolved one, equal to the number
    of its slots and at least 1, waiting for three processes, its clock at day 1,
    0:00; a later attach finds the size it expects and detaching unmaps it whole. *)
Theorem director_setup_consistent (argv : list (list Z)) (fs : list Z → option (list Z)) (procs : Z) (calls : list attempt) (o : shm_os) :
  0 < sizeof_shm < 2 ^ 31 → 0 < sizeof_status < 2 ^ 31 → (3 <= length calls)%nat →
  let c := parse_command_line_configuration initialize_configuration_defaults argv in
  always (director_setup_shm sizeof_shm sizeof_status fs procs calls (c, None) o) (λ '(r, s, o'),
    match r with
    | None => o' = mk_os None (open_fds o) (mappings o)
    | Some shm =>
        1 <= slots shm < 2 ^ 32 ∧ n_workers (params shm) = slots shm ∧ worker_count s.1 = slots shm ∧
        (worker_count c ≠ 0 → slots shm = worker_count c) ∧
        shm_required_count shm = 3 ∧ sim_active shm = true ∧ sim_client_read_time (packed_time shm) = (1, 0, 0) ∧
        shm_object o' = Some (sizeof_shm + slots shm * sizeof_status) ∧ open_fds o' = open_fds o ∧
        (∃ o'', sim_ipc_shm_attach sizeof_shm sizeof_status true true true shm o' = (Some (shm, false), o'') ∧
           sim_ipc_shm_detach sizeof_shm sizeof_status shm o'' = o') ∧
        mappings (sim_ipc_shm_detach sizeof_shm sizeof_status shm o') = mappings o
    end).
Proof.
  intros Hs1 Hs2 Hcalls c. unfold director_setup_shm. apply always_bind.
  eapply always_mono; [apply (resolve_count fs procs (c, None)), command_line_count; simpl; lia|].
  intros s [Hw Hk]. pose proof (create_rounds_spec max_retries (worker_count s.1) calls o ltac:(unfold max_retries; lia)) as Hc.
  unfold sim_ipc_shm_create. destruct (create_rounds _ _ _ _ _ _) as [[shm|] o'].
  - destruct Hc as [-> ->]. apply always_bind. intros m. apply always_ret.
    unfold apply_configuration_to_shared_memory, mbind, alloc_bind, mret, alloc_ret.
    destruct (with_config_file _ _ _ _ m) as [p m']. cbn [fst snd slots params n_workers shm_required_count sim_active packed_time].
    assert (total_size sizeof_shm sizeof_status (worker_count s.1) = sizeof_shm + worker_count s.1 * sizeof_status) as Ht.
    { unfold total_size. assert (0 <= worker_count s.1 * sizeof_status <= (2 ^ 32 - 1) * (2 ^ 31 - 1)) by nia.
      rewrite (u64_small (worker_count s.1 * sizeof_status)) by lia. apply u64_small. lia. }
    cbn [fresh_shm slots]. split_and!; try done; try lia.
    + by cbn [shm_object]; rewrite Ht.
    + unfold sim_ipc_shm_attach, sim_ipc_shm_detach. cbn [shm_object negb]. rewrite Ht.
      destruct (Z.ltb_spec (sizeof_shm + worker_count s.1 * sizeof_status) sizeof_shm); [nia|].
      eexists. split; [cbn [params n_workers]; by rewrite Ht, Z.eqb_refl|].
      cbn. rewrite Ht, Z.eqb_refl. f_equal. lia.
    + unfold sim_ipc_shm_detach. cbn [mappings params n_workers]. by rewrite Z.eqb_refl.
  - by apply always_ret.
Qed.

End setup.

(** The first [shm_open] finds a stale object that another process made in between. *)
Lemma director_setup_consistent_witness :
  ∃ shm s o', (director_setup_shm 8192 128 (one_file (print_file workers_file)) 4
      [mk_attempt OpenExists false false; mk_attempt OpenOk true true; mk_attempt OpenOk true true]
      (parse_command_line_configuration initialize_configuration_defaults [str "--workers=3"; str "--headless"], None) (mk_os None 5 []) []).1
    = (Some shm, s, o') ∧ slots shm = 3 ∧ shm_object o' = Some 8576 ∧ open_fds o' = 5.
Proof.
  pose proof (director_setup_consistent 8192 128 [str "--workers=3"; str "--headless"] (one_file (print_file workers_file)) 4
    [mk_attempt OpenExists false false; mk_attempt OpenOk true true; mk_attempt OpenOk true true] (mk_os None 5 [])
    ltac:(lia) ltac:(lia) ltac:(simpl; lia) []) as H.
  destruct (director_setup_shm _ _ _ _ _ _ _ _).1 as [[[shm|] s] o'] eqn:E; [|vm_compute in E; discriminate E].
  destruct H as (_ & _ & _ & Hw & _ & _ & _ & Ho & Hf & _). specialize (Hw ltac:(vm_compute; discriminate)).
  exists shm, s, o'. split_and!; [reflexivity|exact Hw| |exact Hf]. rewrite Ho, Hw. reflexivity.
Defined.

(** *** The files that come with the program *)

Definition explode_ini : list Z := str "; The simulation must end for `EXPLODE`

[simulation]
; n. of days = 5 days
SIM_DURATION = 5
; 0 ns = max speed (unbounded)
N_NANO_SECS = 0
; 5 users waiting -> EXPLODE
EXPLODE_THRESHOLD = 5

[users]
NOF_USERS = 500
P_SERV_MIN = 0.1
P_SERV_MAX = 0.9
N_REQUESTS = 5

[workers]
NOF_WORKERS = 5
NOF_WORKER_SEATS = 5
NOF_PAUSE = 2

[users_manager]
N_NEW_USERS = 50
POOL_SIZE = 2000

[ticket_issuer]
POOL_SIZE = 64
".

Definition timeout_ini : list Z := str "; The simulation must end for `TIMEOUT`

[simulation]
; n. of days = 10 days
SIM_DURATION = 10
; 0 ns = max speed (unbounded)
N_NANO_SECS = 100000
; High threshold to prevent explosion under load
EXPLODE_THRESHOLD = 1000

[users]
NOF_USERS = 50
P_SERV_MIN = 0.5
P_SERV_MAX = 0.8
N_REQUESTS = 5

[workers]
NOF_WORKERS = 16
NOF_WORKER_SEATS = 16
NOF_PAUSE = 2

[users_manager]
N_NEW_USERS = 5
".

(** A director of a directory with one of the files, on 8 processors. *)
Definition run_of (file : list Z) : sim_params_t * dstate :=
  match (director_setup_shm 8192 128 (one_file file) 8 [mk_attempt OpenOk true true]
      (parse_command_line_configuration initialize_configuration_defaults [str "--config"; str "f"], None) (mk_os None 0 []) []).1 with
  | (Some shm, s, _) => (params shm, s)
  | (None, s, _) => (mk_params 0 0 0 0 0, s)
  end.

(** Both shipped files are accepted by strict mode and set the workers, users,
    requests, duration, tick and threshold they name. *)
Theorem shipped_files_apply :
  run_of explode_ini = (mk_params 5 5 5 0 0,
    (mk_dcfg 5 (Some (str "f")) (str "INFO") false 64 2000 500 50 false 5 200 3, Some (str "5"))) ∧
  run_of timeout_ini = (mk_params 16 10 1000 0 100000,
    (mk_dcfg 16 (Some (str "f")) (str "INFO") false 64 1000 50 5 false 5 200 3, Some (str "5"))).
Proof. split; vm_compute; reflexivity. Qed.

Definition params_of_negative : sim_params_t :=
  (run_of (print_file [CSection (str "simulation"); CPair (str "SIM_DURATION") (str "-1"); CPair (str "N_NANO_SECS") (str "-1")])).1.

(** A negative duration or tick in the file becomes a huge unsigned number. *)
Theorem negative_duration_wraps :
  params_of_negative = mk_params 8 4294967295 100 0 18446744073709551615.
Proof. vm_compute. reflexivity. Qed.

(** [-w 4294967296] is cut to 0 and so ignored. *)
Theorem worker_option_truncated :
  worker_count (parse_command_line_configuration initialize_configuration_defaults [str "-w"; str "4294967296"]) = 0 ∧
  worker_count (parse_command_line_configuration initialize_configuration_defaults [str "-w"; str "4294967297"]) = 1.
Proof. split; vm_compute; reflexivity. Qed.
