(* ===== verification/Orchestration.v ===== *)
(** * Processes of the simulation

    [simulation_lifecycle.c] starts the director, [director_orch.c] the broker, the
    worker process and the users manager, each of which parses its own command
    line ([worker_core.c], [users_manager.c], [work_broker.c]); the director keeps
    its children in a vector, reaps them and terminates the rest. *)

From Stdlib Require Import ZArith Lia String.
From stdpp Require Import base list numbers sets.
From S2P Require Import Prelude Cstring Vector Ini Configs LoggerFormat ConfigSave Argv DirectorConfig.

Local Open Scope Z_scope.

(** ** Command lines *)

(** [snprintf(buf, size, ...)]. *)
Definition snprintf (size : nat) (text : list Z) : list Z := take (size - 1) text.

Definition level_text (loglevel : Z) : list Z :=
  if loglevel =? 0 then str "TRACE"
  else if loglevel =? 1 then str "DEBUG"
  else if loglevel =? 2 then str "INFO"
  else if loglevel =? 3 then str "WARN"
  else if loglevel =? 4 then str "ERROR"
  else if loglevel =? 5 then str "FATAL"
  else str "INFO".

(** The arguments of [launch_simulation_process] after the program's name. *)
Definition director_argv (config : option (list Z)) (loglevel : Z) (tui_mode : bool) : list (list Z) :=
  match config with Some p => [str "--config"; p] | None => [] end ++
  [str "--loglevel"; level_text loglevel] ++ if tui_mode then [] else [str "--headless"].

(** The arguments of the three processes of [spawn_simulation_subsystems]. *)
Definition broker_argv (c : director_config_t) : list (list Z) :=
  [str "-l"; dc_log_level c; str "--pool-size"; snprintf 16 (dec_int (issuer_pool_size c))].
Definition worker_argv (c : director_config_t) : list (list Z) :=
  [str "-l"; dc_log_level c; str "-w"; snprintf 16 (fast_utoa10 (worker_count c))].
Definition users_argv (c : director_config_t) : list (list Z) :=
  [str "-l"; dc_log_level c; str "--initial"; snprintf 16 (dec_int (initial_users c)); str "--batch"; snprintf 16 (dec_int (batch_users c));
   str "--pool-size"; snprintf 16 (dec_int (manager_pool_size c))].

(** [getopt], without long options: two dashes start a cluster like one. *)
Fixpoint getopt_short (fuel : nat) (optstring : list Z) (args : list (list Z)) : list opt_event :=
  match fuel, args with
  | S fuel, a :: args' =>
      match a with
      | c1 :: c2 :: body =>
          if c1 =? DASH then
            if (c2 =? DASH) && is_empty body then []
            else
              let '(es, rest) := short_cluster optstring (c2 :: body) args' in
              es ++ getopt_short fuel optstring rest
          else getopt_short fuel optstring args'
      | _ => getopt_short fuel optstring args'
      end
  | _, _ => []
  end.
Definition getopt (optstring : list Z) (args : list (list Z)) : list opt_event := getopt_short (length args) optstring args.

Record worker_config_t : Type := mk_wcfg { wc_worker_id : Z; wc_service_type : Z; wc_n_workers : Z; wc_loglevel : option (list Z) }.

(** A whole text that is a number passing a check. *)
Definition full_number (check : Z → bool) (v : list Z) : option Z :=
  match strtol v with (n, []) => if check n then Some n else None | _ => None end.

Definition worker_option (c : worker_config_t) (e : opt_event) : worker_config_t :=
  match e with
  | (opt, Some v) =>
      if opt =? 108 then mk_wcfg (wc_worker_id c) (wc_service_type c) (wc_n_workers c) (Some v)
      else if opt =? 105 then
        match full_number (λ n, 0 <=? n) v with Some n => mk_wcfg (i32 n) (wc_service_type c) (wc_n_workers c) (wc_loglevel c) | None => c end
      else if opt =? 115 then
        match full_number (λ n, 0 <=? n) v with Some n => mk_wcfg (wc_worker_id c) (i32 n) (wc_n_workers c) (wc_loglevel c) | None => c end
      else if opt =? 119 then
        match full_number (λ n, 0 <? n) v with Some n => mk_wcfg (wc_worker_id c) (wc_service_type c) (i32 n) (wc_loglevel c) | None => c end
      else c
  | (_, None) => c
  end.
Definition worker_parse_args (argv : list (list Z)) : worker_config_t :=
  foldl worker_option (mk_wcfg (-1) (-1) 0 None) (getopt (str "l:i:s:w:") argv).

(** Which of its modes the worker process runs in. *)
Inductive worker_mode : Type := MultiThreaded (n : Z) | SingleWorker (id service : Z) | InvalidConfiguration.
Definition worker_mode_of (c : worker_config_t) : worker_mode :=
  if 0 <? wc_n_workers c then MultiThreaded (wc_n_workers c)
  else if negb (wc_worker_id c =? -1) && negb (wc_service_type c =? -1) then SingleWorker (wc_worker_id c) (wc_service_type c)
  else InvalidConfiguration.

Definition atol (v : list Z) : Z := (strtol v).1.
Definition atoi (v : list Z) : Z := i32 (atol v).

(** The options of the users manager: initial, batch, pool size, level. *)
Record manager_args : Type := mk_margs { ma_initial : Z; ma_batch : Z; ma_pool_size : Z; ma_loglevel : list Z }.
Definition manager_long_opts : list long_opt :=
  [mk_opt (str "initial") required_argument 105; mk_opt (str "batch") required_argument 98;
   mk_opt (str "pool-size") required_argument 112; mk_opt (str "l") required_argument 108].
Definition manager_option (a : manager_args) (e : opt_event) : manager_args :=
  match e with
  | (opt, Some v) =>
      if opt =? 105 then mk_margs (atoi v) (ma_batch a) (ma_pool_size a) (ma_loglevel a)
      else if opt =? 98 then mk_margs (ma_initial a) (atoi v) (ma_pool_size a) (ma_loglevel a)
      else if opt =? 112 then mk_margs (ma_initial a) (ma_batch a) (atoi v) (ma_loglevel a)
      else if opt =? 108 then mk_margs (ma_initial a) (ma_batch a) (ma_pool_size a) v
      else a
  | (_, None) => a
  end.
Definition manager_parse_args (argv : list (list Z)) : manager_args :=
  foldl manager_option (mk_margs 5 5 64 (str "INFO")) (getopt_long (str "l:") manager_long_opts argv).1.

(** The options of the broker: the pool size, with a default from the number of
    cores, and the level. *)
Definition broker_long_opts : list long_opt :=
  [mk_opt (str "pool-size") required_argument 112; mk_opt (str "loglevel") required_argument 108].
Definition broker_option (a : Z * list Z) (e : opt_event) : Z * list Z :=
  match e with
  | (opt, Some v) => if opt =? 112 then (u64 (atol v), a.2) else if opt =? 108 then (a.1, v) else a
  | (_, None) => a
  end.
Definition broker_parse_args (physical_cores : Z) (argv : list (list Z)) : Z * list Z :=
  let a := foldl broker_option (0, str "INFO") (getopt_long (str "l:p:") broker_long_opts argv).1 in
  if a.1 =? 0 then (Z.max 32 (u64 (u64 physical_cores * 4)), a.2) else a.

(** The mode the work is started in with a level: a bad level means INFO. *)
Definition level_or_info (v : list Z) : Z := if po_logger_level_from_str v =? -1 then LOG_INFO else po_logger_level_from_str v.

(** ** Children of the director *)

Inductive child_status : Type := Exited (code : Z) | Signaled (sig : Z) | OtherStatus.

(** [g_pids]; null before the start and after the end. *)
Definition orchestrator : Type := option (po_vector Z).
Definition initialize_process_orchestrator : alloc orchestrator := po_vector_create 0.

(** [launch_process]: what [fork] returned to the parent. *)
Definition launch_process (pid : Z) (o : orchestrator) : alloc orchestrator :=
  if 0 <? pid then
    match o with
    | Some v => r ← po_vector_push 0 v pid; mret (Some r.2)
    | None => mret o
    end
  else mret o.

(** The three forks in a row. *)
Definition spawn_simulation_subsystems (pid1 pid2 pid3 : Z) (o : orchestrator) : alloc orchestrator :=
  o ← launch_process pid1 o; o ← launch_process pid2 o; launch_process pid3 o.

(** The processes that get a signal, then those that are waited for. *)
Definition tracked_pids (v : po_vector Z) : list Z :=
  filter (λ p, 0 < p) ((λ i, (po_vector_at 0 0 v (Z.of_nat i)).1) <$> seq 0 (Z.to_nat (po_vector_size v))).
Definition terminate_all_simulation_subsystems (o : orchestrator) : list Z * list Z * orchestrator :=
  match o with
  | None => ([], [], None)
  | Some v => (tracked_pids v, tracked_pids v, None)
  end.

(** The index of a process, from index [i] on. *)
Fixpoint find_pid (fuel : nat) (v : po_vector Z) (pid i : Z) : option Z :=
  match fuel with
  | O => None
  | S fuel => if (po_vector_at 0 0 v i).1 =? pid then Some i else find_pid fuel v pid (i + 1)
  end.

(** One round of the loop for a process that [waitpid] returned. *)
Definition reap_child (v : po_vector Z) (pid : Z) (status : child_status) : bool * po_vector Z :=
  match find_pid (Z.to_nat (po_vector_size v)) v pid 0 with
  | Some idx =>
      let v' := (po_vector_remove 0 0 v idx).2 in
      match status with
      | Exited code => (true, v')
      | Signaled sig => (true, v')
      | OtherStatus => (false, v')
      end
  | None => (false, v)
  end.
Fixpoint reap_all (reaped : list (Z * child_status)) (v : po_vector Z) (crash_detected : bool) : bool * po_vector Z :=
  match reaped with
  | [] => (crash_detected, v)
  | (pid, status) :: reaped => let '(c, v) := reap_child v pid status in reap_all reaped v (crash_detected || c)
  end.
Definition director_orch_check_crashes (reaped : list (Z * child_status)) (o : orchestrator) : bool * orchestrator :=
  match o with
  | None => (false, o)
  | Some v => let '(c, v) := reap_all reaped v false in (c, Some v)
  end.

(** ** Command lines reach their processes *)

(** The fields of a configuration that are passed on, in the range of their types. *)
Record int_fields (c : director_config_t) : Prop := mk_int_fields {
  if_workers : 0 <= worker_count c < 2 ^ 31;
  if_issuer : - 2 ^ 31 <= issuer_pool_size c < 2 ^ 31;
  if_manager : - 2 ^ 31 <= manager_pool_size c < 2 ^ 31;
  if_initial : - 2 ^ 31 <= initial_users c < 2 ^ 31;
  if_batch : - 2 ^ 31 <= batch_users c < 2 ^ 31 }.

Lemma utoa_length v : 0 <= v <= 2 ^ 31 → (length (fast_utoa10 v) <= 10)%nat.
Proof.
  intros Hv. unfold fast_utoa10. destruct (Z.eqb_spec v 0); [simpl; lia|]. rewrite length_rev.
  apply (utoa_digits_spec 24 10 v); simpl; lia.
Qed.

Lemma snprintf_int n : - 2 ^ 31 <= n < 2 ^ 31 → snprintf 16 (dec_int n) = dec_int n.
Proof.
  intros Hn. unfold snprintf. apply take_ge. unfold dec_int. destruct (Z.ltb_spec n 0); simpl.
  - pose proof (utoa_length (- n)). lia.
  - pose proof (utoa_length n). lia.
Qed.

Lemma strtol_int n : - 2 ^ 31 <= n < 2 ^ 31 → strtol (snprintf 16 (dec_int n)) = (n, []).
Proof. intros Hn. rewrite snprintf_int by done. apply strtol_decimal. unfold LONG_MIN, LONG_MAX. lia. Qed.

Lemma strtol_count n : 0 <= n < 2 ^ 31 → strtol (snprintf 16 (fast_utoa10 n)) = (n, []).
Proof.
  intros Hn. pose proof (strtol_int n) as H. unfold dec_int in H. destruct (Z.ltb_spec n 0); [lia|]. apply H. lia.
Qed.

Lemma atoi_int n : - 2 ^ 31 <= n < 2 ^ 31 → atoi (snprintf 16 (dec_int n)) = n.
Proof. intros Hn. unfold atoi, atol. rewrite strtol_int by done. simpl. unfold i32. apply signed_small; lia. Qed.

Lemma worker_reads c :
  1 <= worker_count c → int_fields c → worker_parse_args (worker_argv c) = mk_wcfg (-1) (-1) (worker_count c) (Some (dc_log_level c)).
Proof.
  intros H1 [Hw _ _ _ _]. unfold worker_argv. pose proof (strtol_count _ Hw) as E.
  generalize dependent (snprintf 16 (fast_utoa10 (worker_count c))). intros w E. generalize (dc_log_level c) as l. intros l.
  unfold worker_parse_args. change (getopt _ _) with [(108, Some l); (119, Some w)]. cbn [foldl worker_option Z.eqb Pos.eqb].
  unfold full_number. rewrite E. destruct (Z.ltb_spec 0 (worker_count c)); [|lia]. cbn. f_equal. apply signed_small; lia.
Qed.

Lemma manager_reads c :
  int_fields c → manager_parse_args (users_argv c) = mk_margs (initial_users c) (batch_users c) (manager_pool_size c) (dc_log_level c).
Proof.
  intros [_ _ Hm Hi Hb]. unfold users_argv.
  pose proof (atoi_int _ Hm) as Em. pose proof (atoi_int _ Hi) as Ei. pose proof (atoi_int _ Hb) as Eb.
  generalize dependent (snprintf 16 (dec_int (manager_pool_size c))). intros m Em.
  generalize dependent (snprintf 16 (dec_int (initial_users c))). intros i Ei.
  generalize dependent (snprintf 16 (dec_int (batch_users c))). intros b Eb. generalize (dc_log_level c) as l. intros l.
  unfold manager_parse_args. change (getopt_long _ _ _).1 with [(108, Some l); (105, Some i); (98, Some b); (112, Some m)].
  cbn [foldl manager_option Z.eqb Pos.eqb ma_initial ma_batch ma_pool_size ma_loglevel]. by rewrite Em, Ei, Eb.
Qed.

Lemma broker_reads cores c :
  int_fields c → broker_parse_args cores (broker_argv c) =
    (if issuer_pool_size c =? 0 then Z.max 32 (u64 (u64 cores * 4)) else u64 (issuer_pool_size c), dc_log_level c).
Proof.
  intros [_ Hp _ _ _]. unfold broker_argv. pose proof (strtol_int _ Hp) as E.
  generalize dependent (snprintf 16 (dec_int (issuer_pool_size c))). intros p E. generalize (dc_log_level c) as l. intros l.
  unfold broker_parse_args. change (getopt_long _ _ _).1 with [(108, Some l); (112, Some p)].
  cbn [foldl broker_option Z.eqb Pos.eqb fst snd]. unfold atol. rewrite E. cbn [fst snd].
  destruct (Z.eqb_spec (issuer_pool_size c) 0) as [->|Hz]; [done|].
  destruct (Z.eqb_spec (u64 (issuer_pool_size c)) 0) as [Hu|]; [|done]. unfold u64 in Hu. zlia.
Qed.

(** What the resolution of the director keeps. *)
Definition passable (l : list Z) (s : dstate) : Prop := int_fields s.1 ∧ dc_log_level s.1 = l.

Lemma on_int_passable l cfg (s k : string) guard update (st : dstate) :
  passable l st → (∀ v, - 2 ^ 31 <= v < 2 ^ 31 → guard v = true → passable l (update v st)) →
  always (on_int cfg s k guard update st) (passable l).
Proof. apply on_int_always. Qed.

Lemma apply_file_passable l cfg s : passable l s → always (apply_file cfg s) (passable l).
Proof.
  intros Hs. unfold apply_file. apply always_bind. eapply (always_mono _ (passable l)).
  { apply on_int_passable; [done|]. intros v Hv Hg. apply Z.ltb_lt in Hg. unfold passable, on_cfg. cbn [fst].
    destruct (worker_count s.1 =? 0); [|done]. destruct Hs as [[] Hl]. split; [|done]. split; simpl; rewrite ?u32_small; lia. }
  clear s Hs. intros s Hs.
  do 8 (apply always_bind; eapply (always_mono _ (passable l));
    [apply on_int_passable; [done|]; intros v Hv Hg; destruct Hs as [[] Hl]; split; [split; simpl; lia|exact Hl]|clear s Hs; intros s Hs]).
  apply on_int_passable; [done|]. intros v Hv Hg. destruct Hs as [[] Hl]. split; [split; simpl; lia|exact Hl].
Qed.

Lemma resolve_passable l fs procs s :
  passable l s → procs < 2 ^ 31 →
  always (resolve_complete_configuration fs procs s) (λ r, passable l r ∧ 1 <= worker_count r.1).
Proof.
  intros Hs Hp. unfold resolve_complete_configuration. apply always_bind. eapply (always_mono _ (passable l)).
  - unfold with_config_file. destruct (config_path s.1) as [p|]; [|by apply always_ret].
    apply always_bind. intros m. destruct (po_config_load_strict (fs p) m).1 as [[cfg|]|]; [by apply apply_file_passable|by apply always_ret..].
  - intros r [[Hw] Hl]. apply always_ret. unfold passable, on_cfg. cbn [fst].
    destruct (Z.eqb_spec (worker_count r.1) 0) as [E|E]; [|split; [split; [by split|done]|lia]].
    assert (2 <= auto_workers procs < 2 ^ 31).
    { unfold auto_workers, DEFAULT_WORKERS. destruct (Z.ltb_spec 0 procs); [|lia]. rewrite u32_small by lia. destruct (Z.ltb_spec procs 2); lia. }
    split; [split; [split; simpl; lia || done|done]|simpl; lia].
Qed.

Lemma level_text_level l : 0 <= l <= 5 → level_or_info (level_text l) = l.
Proof.
  intros Hl. assert (l = 0 ∨ l = 1 ∨ l = 2 ∨ l = 3 ∨ l = 4 ∨ l = 5) as H by lia.
  destruct H as [-> | [-> | [-> | [-> | [-> | ->]]]]]; vm_compute; reflexivity.
Qed.

Lemma level_text_known l : po_logger_level_from_str (level_text l) =? -1 = false.
Proof. unfold level_text. by repeat case_match; vm_compute. Qed.

(** The command line of the director is read back. *)
Lemma director_reads config l tui :
  parse_command_line_configuration initialize_configuration_defaults (director_argv config l tui) =
  mk_dcfg 0 config (level_text l) (negb tui) 64 1000 5 5 false 5 200 3.
Proof.
  pose proof (level_text_known l) as Hk. unfold director_argv. generalize dependent (level_text l). intros v Hv.
  unfold parse_command_line_configuration.
  assert ((getopt_long director_optstring director_long_opts (match config with Some p => [str "--config"; p] | None => [] end ++
    [str "--loglevel"; v] ++ if tui then [] else [str "--headless"])).1 =
    match config with Some p => [(99, Some p)] | None => [] end ++ [(108, Some v)] ++ if tui then [] else [(104, None)]) as ->
    by by destruct config, tui.
  destruct config as [p|], tui; cbn -[po_logger_level_from_str]; by rewrite Hv.
Qed.

(** C18. One configuration reaches every process: whatever the main program passes to
    the director, the director's resolution with any file and any allocator
    outcome ends in values that the worker process, the users manager and the
    broker parse back from their command lines, with the log level of the main
    program in each of them; the worker process runs exactly the resolved number
    of workers. *)
Theorem configuration_reaches_processes (config : option (list Z)) (loglevel : Z) (tui : bool)
    (fs : list Z → option (list Z)) (procs cores : Z) :
  0 <= loglevel <= 5 → procs < 2 ^ 31 →
  let c0 := parse_command_line_configuration initialize_configuration_defaults (director_argv config loglevel tui) in
  config_path c0 = config ∧ is_headless c0 = negb tui ∧
  always (resolve_complete_configuration fs procs (c0, None)) (λ '(c, _),
    level_or_info (dc_log_level c) = loglevel ∧
    worker_mode_of (worker_parse_args (worker_argv c)) = MultiThreaded (worker_count c) ∧
    wc_loglevel (worker_parse_args (worker_argv c)) = Some (dc_log_level c) ∧
    manager_parse_args (users_argv c) = mk_margs (initial_users c) (batch_users c) (manager_pool_size c) (dc_log_level c) ∧
    broker_parse_args cores (broker_argv c) =
      (if issuer_pool_size c =? 0 then Z.max 32 (u64 (u64 cores * 4)) else u64 (issuer_pool_size c), dc_log_level c)).
Proof.
  intros Hl Hp c0. unfold c0. rewrite director_reads. split_and!; [done|done|].
  eapply always_mono; [apply (resolve_passable (level_text loglevel)); [|done]|].
  - split; [split; simpl; lia|done].
  - intros [c e] [[Hf Hd] Hw]. simpl in *. rewrite worker_reads by done. split_and!.
    + rewrite Hd. by apply level_text_level.
    + unfold worker_mode_of. simpl. by destruct (Z.ltb_spec 0 (worker_count c)); [|lia].
    + done.
    + by apply manager_reads.
    + by apply broker_reads.
Qed.

Lemma configuration_reaches_processes_witness :
  let c := (resolve_complete_configuration (one_file explode_ini) 8
    (parse_command_line_configuration initialize_configuration_defaults (director_argv (Some (str "f")) 1 true), None) []).1.1 in
  level_or_info (dc_log_level c) = 1 ∧ worker_mode_of (worker_parse_args (worker_argv c)) = MultiThreaded 5.
Proof.
  destruct (configuration_reaches_processes (Some (str "f")) 1 true (one_file explode_ini) 8 4 ltac:(lia) ltac:(lia)) as (_ & _ & H).
  specialize (H []). intros c. unfold c.
  assert (worker_count (resolve_complete_configuration (one_file explode_ini) 8
    (parse_command_line_configuration initialize_configuration_defaults (director_argv (Some (str "f")) 1 true), None) []).1.1 = 5) as E
    by (vm_compute; reflexivity).
  destruct (resolve_complete_configuration _ _ _ _).1 as [c' e]. destruct H as (H1 & H2 & _). simpl in *. rewrite H1, H2, E. split; reflexivity.
Defined.

(** A worker count above the largest [int], which [-w] accepts, makes the worker
    process refuse its command line. *)
Theorem huge_worker_count_rejected :
  worker_mode_of (worker_parse_args (worker_argv (set_workers (2 ^ 31) initialize_configuration_defaults))) = InvalidConfiguration.
Proof. vm_compute. reflexivity. Qed.

(** ** Children are tracked *)

Inductive child_event : Type :=
| Launched (pid : Z)
| Checked (reaped : list (Z * child_status)).

Definition child_step (e : child_event) (r : list bool * orchestrator) : alloc (list bool * orchestrator) :=
  match e with
  | Launched pid => o ← launch_process pid r.2; mret (r.1, o)
  | Checked reaped => let '(c, o) := director_orch_check_crashes reaped r.2 in mret (r.1 ++ [c], o)
  end.
Fixpoint child_run (evs : list child_event) (r : list bool * orchestrator) : alloc (list bool * orchestrator) :=
  match evs with
  | [] => mret r
  | e :: evs => r ← child_step e r; child_run evs r
  end.

(** The processes launched and not yet reaped, in order, and what a check reports. *)
Definition ended (s : child_status) : bool := match s with OtherStatus => false | _ => true end.
Definition drop_pid (l : list Z) (pid : Z) : list Z := filter (λ p, p ≠ pid) l.
Fixpoint check_live (reaped : list (Z * child_status)) (l : list Z) : bool * list Z :=
  match reaped with
  | [] => (false, l)
  | (pid, s) :: reaped =>
      let '(c, l') := check_live reaped (drop_pid l pid) in
      ((bool_decide (pid ∈ l) && ended s) || c, l')
  end.
Definition live_step (e : child_event) (r : list bool * list Z) : list bool * list Z :=
  match e with
  | Launched pid => (r.1, if 0 <? pid then r.2 ++ [pid] else r.2)
  | Checked reaped => let '(c, l) := check_live reaped r.2 in (r.1 ++ [c], l)
  end.
Definition live_run (evs : list child_event) (r : list bool * list Z) : list bool * list Z := foldl (λ r e, live_step e r) r evs.

(** [fork] never returns the id of a child that was not reaped. *)
Fixpoint fresh_pids (evs : list child_event) (l : list Z) : Prop :=
  match evs with
  | [] => True
  | e :: evs => match e with Launched pid => pid ∉ l | Checked _ => True end ∧ fresh_pids evs (live_step e ([], l)).2
  end.

(** The vector holds these processes. *)
Definition holds_pids (v : po_vector Z) (l : list Z) : Prop :=
  vec_wf v ∧ vec_contents v = l ∧ NoDup l ∧ Forall (λ p, 0 < p) l.

Lemma find_pid_spec v pid l1 l2 fuel :
  vec_wf v → vec_contents v = l1 ++ l2 → (fuel = length l2)%nat →
  find_pid fuel v pid (Z.of_nat (length l1)) =
    match list_find (λ p, p = pid) l2 with Some (i, _) => Some (Z.of_nat (length l1 + i)) | None => None end.
Proof.
  intros Hwf. revert l1 fuel. induction l2 as [|p l2 IH]; intros l1 fuel Hc ->; [done|]. cbn [find_pid length].
  rewrite (po_vector_at_lookup 0 0 v _ p) by (done || lia || (rewrite Hc, Nat2Z.id; by apply list_lookup_middle)).
  cbn [fst list_find]. destruct (Z.eqb_spec p pid) as [->|Hne].
  - rewrite decide_True by done. by rewrite Nat.add_0_r.
  - rewrite decide_False by done. specialize (IH (l1 ++ [p]) (length l2)). rewrite <- app_assoc, length_app in IH. simpl in IH.
    replace (Z.of_nat (length l1) + 1) with (Z.of_nat (length l1 + 1)) by lia. rewrite IH by done.
    destruct (list_find (λ p0, p0 = pid) l2) as [[i q]|]; simpl; [|done]. do 2 f_equal. lia.
Qed.

Lemma drop_pid_absent l p : p ∉ l → drop_pid l p = l.
Proof.
  unfold drop_pid. induction l as [|q l IH]; [done|]. intros H. apply not_elem_of_cons in H as [? ?].
  rewrite filter_cons_True by done. f_equal. by apply IH.
Qed.

Lemma drop_pid_middle l1 p l2 : NoDup (l1 ++ p :: l2) → drop_pid (l1 ++ p :: l2) p = l1 ++ l2.
Proof.
  intros Hn. apply list.NoDup_app in Hn as (_ & H1 & H2). apply list.NoDup_cons in H2 as [H2 _].
  unfold drop_pid. rewrite list.filter_app, filter_cons_False by naive_solver. fold (drop_pid l1 p) (drop_pid l2 p).
  rewrite !drop_pid_absent; [done|done|]. intros Hp. apply (H1 p Hp). by left.
Qed.

Lemma reap_child_spec v l pid s :
  holds_pids v l →
  let r := reap_child v pid s in
  r.1 = bool_decide (pid ∈ l) && ended s ∧ holds_pids r.2 (drop_pid l pid) ∧ vec_capacity r.2 = vec_capacity v.
Proof.
  intros (Hwf & Hc & Hn & Hp). unfold reap_child.
  pose proof (length_contents v Hwf) as Hlen. unfold po_vector_size. rewrite <- Hlen, Hc.
  rewrite (find_pid_spec v pid [] l) by done.
  destruct (list_find (λ p, p = pid) l) as [[i q]|] eqn:E.
  - apply list_find_Some in E as (Hi & -> & _).
    rewrite bool_decide_eq_true_2 by by eapply list_elem_of_lookup_2.
    pose proof (take_drop_middle l i pid Hi) as Hl. rewrite <- Hl in Hn, Hc.
    destruct (remove_spec 0 0 v (Z.of_nat i) _ _ _ Hwf Hc) as (v' & Hr & Hwf' & Hc').
    { rewrite length_take. apply lookup_lt_Some in Hi. lia. }
    cbn [length Nat.add]. rewrite Hr.
    assert (holds_pids v' (drop_pid l pid)) as Hh.
    { rewrite <- Hl, drop_pid_middle by done. split_and!; [done|done| |].
      - apply list.NoDup_app in Hn as (? & H2 & H3). apply list.NoDup_cons in H3 as [? ?]. apply list.NoDup_app. split_and!; [done| |done].
        intros x Hx Hy. apply (H2 x Hx). by right.
      - rewrite <- Hl in Hp. apply list.Forall_app in Hp as [? H2]. apply Forall_cons_1 in H2 as [_ ?]. by apply list.Forall_app. }
    assert (vec_capacity v' = vec_capacity v) as Hcap.
    { unfold po_vector_remove in Hr. destruct (vec_size v <=? Z.of_nat i); [done|]. by injection Hr as _ <-. }
    by destruct s.
  - apply list_find_None in E. assert (pid ∉ l) as Hni.
    { intros Hin. rewrite list.Forall_forall in E. by apply (E pid Hin). }
    rewrite bool_decide_eq_false_2 by done. rewrite drop_pid_absent by done. by split.
Qed.

Lemma reap_all_spec reaped v l crash :
  holds_pids v l →
  let r := reap_all reaped v crash in
  let q := check_live reaped l in
  r.1 = crash || q.1 ∧ holds_pids r.2 q.2 ∧ vec_capacity r.2 = vec_capacity v.
Proof.
  revert v l crash. induction reaped as [|[pid s] reaped IH]; intros v l crash Hv; simpl; [by rewrite orb_false_r|].
  pose proof (reap_child_spec v l pid s Hv) as (H1 & H2 & H3). destruct (reap_child v pid s) as [c v']. simpl in *.
  pose proof (IH v' (drop_pid l pid) (crash || c) H2) as (H4 & H5 & H6).
  destruct (check_live reaped (drop_pid l pid)) as [c' l']. simpl in *. subst c. rewrite H4, H6, H3. split_and!; [by rewrite orb_assoc|done|done].
Qed.

Lemma check_live_subset reaped l l' :
  l ⊆ l' → (check_live reaped l).2 ⊆ (check_live reaped l').2 ∧ (check_live reaped l').2 ⊆ l' ∧ (length (check_live reaped l').2 <= length l')%nat.
Proof.
  revert l l'. induction reaped as [|[pid s] reaped IH]; intros l l' Hl; simpl; [split; [done|]; split; [done|lia]|].
  assert (drop_pid l pid ⊆ drop_pid l' pid) as Hd by (intros x; unfold drop_pid; rewrite !list_elem_of_filter; set_solver).
  destruct (IH _ _ Hd) as (H1 & H2 & H3). destruct (check_live reaped (drop_pid l pid)), (check_live reaped (drop_pid l' pid)). simpl in *.
  split_and!; [done| |].
  - intros x Hx. apply H2 in Hx. unfold drop_pid in Hx. by apply list_elem_of_filter in Hx as [_ ?].
  - etrans; [exact H3|]. apply length_filter.
Qed.

Lemma pids_snoc v v' l pid :
  holds_pids v l → vec_wf v' → vec_contents v' = vec_contents v ++ [pid] → 0 < pid → pid ∉ l → holds_pids v' (l ++ [pid]).
Proof.
  intros (Hwf & Hc & Hn & Hp) Hwf' Hc' Hpid Hni. split_and!; [done|by rewrite Hc', Hc| |].
  - apply list.NoDup_app. split_and!; [done|set_solver|apply NoDup_singleton].
  - apply list.Forall_app. split; [done|by apply list.Forall_singleton].
Qed.

(** One event, for every allocator: only live processes are held. *)
Lemma child_step_always e flags v l live :
  holds_pids v l → l ⊆ live → match e with Launched pid => pid ∉ live | Checked _ => True end →
  always (child_step e (flags, Some v)) (λ r, ∃ v' l', r.2 = Some v' ∧ holds_pids v' l' ∧ l' ⊆ (live_step e ([], live)).2).
Proof.
  intros Hv Hl Hf. destruct e as [pid|reaped]; simpl.
  - apply always_bind. unfold launch_process. destruct (Z.ltb_spec 0 pid) as [Hp|Hp].
    + apply always_bind. eapply always_mono; [apply push_always, Hv|]. intros [r v'] (Hwf & [(_ & Hc)|(_ & -> & _)]); apply always_ret, always_ret; simpl in *.
      * exists v', (l ++ [pid]). split_and!; [done| |set_solver]. eapply pids_snoc; [done..|]. set_solver.
      * exists v, l. split_and!; [done|done|set_solver].
    + apply always_ret, always_ret. by exists v, l.
  - pose proof (reap_all_spec reaped v l false Hv) as (_ & H2 & _). destruct (reap_all reaped v false) as [c v'].
    pose proof (check_live_subset reaped l live Hl) as (H3 & _). destruct (check_live reaped live) as [c' live']. simpl in *.
    apply always_ret. eauto.
Qed.

(** One event when memory is available: all of them are. *)
Lemma child_step_succeeds e flags v l :
  holds_pids v l → vec_capacity v <= 2 ^ 58 → Z.of_nat (length l) < 2 ^ 56 → match e with Launched pid => pid ∉ l | Checked _ => True end →
  succeeds (child_step e (flags, Some v)) (λ r,
    r.1 = (live_step e (flags, l)).1 ∧ ∃ v', r.2 = Some v' ∧ holds_pids v' (live_step e (flags, l)).2 ∧ vec_capacity v' <= 2 ^ 58).
Proof.
  intros Hv Hcap Hlen Hf. destruct e as [pid|reaped]; simpl.
  - apply succeeds_bind. unfold launch_process. destruct (Z.ltb_spec 0 pid) as [Hp|Hp].
    + apply succeeds_bind. pose proof Hv as (Hwf & Hc & _).
      assert (vec_size v = Z.of_nat (length l)) as Hsz by (rewrite <- Hc, length_contents by done; destruct Hwf; lia).
      eapply succeeds_mono; [apply always_succeeds; [apply always_conj; [apply push_always, Hwf|apply push_capacity; [done|lia|done]]|apply push_succeeds; [done|lia]]|].
      intros [r v'] [[(Hwf' & [(_ & Hc')|(Hr & _)]) Hcap'] Hr']; simpl in *; [|lia]. apply succeeds_ret, succeeds_ret. split; [done|].
      exists v'. split_and!; [done| |done]. by eapply pids_snoc.
    + apply succeeds_ret, succeeds_ret. eauto 6.
  - pose proof (reap_all_spec reaped v l false Hv) as (H1 & H2 & H3). destruct (reap_all reaped v false) as [c v'].
    destruct (check_live reaped l) as [c' l']. simpl in *. apply succeeds_ret. simpl. split; [by rewrite H1|]. exists v'. split_and!; [done|done|lia].
Qed.

Lemma live_step_flags e f l : (live_step e (f, l)).2 = (live_step e ([], l)).2.
Proof. destruct e as [pid|reaped]; simpl; [done|]. by destruct (check_live reaped l). Qed.

Lemma live_step_length e f l : (length (live_step e (f, l)).2 <= length l + 1)%nat.
Proof.
  destruct e as [pid|reaped]; simpl; [destruct (0 <? pid); rewrite ?length_app; simpl; lia|].
  pose proof (check_live_subset reaped l l ltac:(done)) as (_ & _ & H). destruct (check_live reaped l). simpl in *. lia.
Qed.

Lemma tracked_holds v l : holds_pids v l → tracked_pids v = l.
Proof.
  intros (Hwf & Hc & _ & Hp). unfold tracked_pids, po_vector_size. rewrite <- length_contents, Hc by done.
  assert (((λ i, (po_vector_at 0 0 v (Z.of_nat i)).1) <$> seq 0 (length l)) = l) as ->.
  { apply list_eq. intros i. rewrite list_lookup_fmap. destruct (decide (i < length l)%nat) as [Hi|Hi].
    - rewrite lookup_seq_lt by done. destruct (lookup_lt_is_Some_2 l i Hi) as [p Hl]. simpl. rewrite Hl.
      by rewrite (po_vector_at_lookup 0 0 v _ p) by (done || lia || by rewrite Hc, Nat2Z.id).
    - rewrite lookup_seq_ge, (lookup_ge_None_2 l) by lia. done. }
  clear Hc. induction l as [|p l IH]; [done|]. apply Forall_cons_1 in Hp as [? ?]. rewrite filter_cons_True by done. f_equal. by apply IH.
Qed.

Lemma child_run_always evs flags v l live :
  holds_pids v l → l ⊆ live → fresh_pids evs live →
  always (child_run evs (flags, Some v)) (λ r, ∃ v' l', r.2 = Some v' ∧ holds_pids v' l' ∧ l' ⊆ (live_run evs ([], live)).2).
Proof.
  revert flags v l live. induction evs as [|e evs IH]; intros flags v l live Hv Hl Hf; [apply always_ret; eauto|].
  destruct Hf as [He Hf]. cbn [child_run]. apply always_bind. eapply always_mono; [by apply (child_step_always e flags v l live)|].
  intros [fl o] (v' & l' & E & Hv' & Hl'). simpl in E. subst o.
  eapply always_mono; [by apply (IH fl v' l' (live_step e ([], live)).2)|]. intros r (v2 & l2 & ? & ? & H). exists v2, l2.
  split_and!; [done|done|]. unfold live_run in *. cbn [foldl].
  assert (∀ f g l, (foldl (λ r e, live_step e r) (f, l) evs).2 = (foldl (λ r e, live_step e r) (g, l) evs).2) as Hg.
  { clear. induction evs as [|e evs IH]; intros f g l; [done|]. cbn [foldl].
    rewrite (surjective_pairing (live_step e (f, l))), (surjective_pairing (live_step e (g, l))), (live_step_flags e f), (live_step_flags e g). apply IH. }
  rewrite (surjective_pairing (live_step e ([], live))), (Hg _ []). done.
Qed.

Lemma child_run_succeeds evs flags v l :
  holds_pids v l → vec_capacity v <= 2 ^ 58 → Z.of_nat (length l + length evs) < 2 ^ 56 → fresh_pids evs l →
  succeeds (child_run evs (flags, Some v)) (λ r,
    r.1 = (live_run evs (flags, l)).1 ∧ ∃ v', r.2 = Some v' ∧ holds_pids v' (live_run evs (flags, l)).2).
Proof.
  revert flags v l. induction evs as [|e evs IH]; intros flags v l Hv Hcap Hlen Hf; [apply succeeds_ret; eauto|].
  destruct Hf as [He Hf]. cbn [child_run length] in *. apply succeeds_bind.
  eapply succeeds_mono; [apply (child_step_succeeds e flags v l); (done || lia)|].
  intros [fl o] (E1 & v' & E2 & Hv' & Hcap'). simpl in E1, E2. subst fl o.
  unfold live_run. cbn [foldl]. rewrite (surjective_pairing (live_step e (flags, l))). apply IH; [done|done| |].
  - pose proof (live_step_length e flags l). lia.
  - by rewrite live_step_flags.
Qed.

(** C19. The director never signals a process it does not own, and misses none: after
    any sequence of launches and crash checks, with every allocator outcome, the
    processes terminated at shutdown are all launched and not yet reaped (a
    process id that may since belong to someone else is never signalled); when no
    allocation fails they are exactly these, in launch order, and each crash
    check reported true exactly when one of the director's children had ended. *)
Theorem orchestrator_tracks_children (evs : list child_event) :
  fresh_pids evs [] → Z.of_nat (length evs) < 2 ^ 56 →
  let run := (o ← initialize_process_orchestrator; child_run evs ([], o)) in
  let spec := live_run evs ([], []) in
  always run (λ r, let '(signalled, waited, o) := terminate_all_simulation_subsystems r.2 in
    signalled ⊆ spec.2 ∧ waited = signalled ∧ o = None) ∧
  succeeds run (λ r, r.1 = spec.1 ∧ terminate_all_simulation_subsystems r.2 = (spec.2, spec.2, None)).
Proof.
  intros Hf Hlen run spec. unfold run, initialize_process_orchestrator. split.
  - apply always_bind. eapply always_mono; [apply create_always|]. intros [v|].
    + intros (Hwf & Hc & _). eapply always_mono; [apply (child_run_always evs [] v [] []); [|done|done]|].
      * split_and!; [done|done|constructor|constructor].
      * intros [fl o] (v' & l' & -> & Hv' & Hl'). cbn. rewrite (tracked_holds v' l') by done. done.
    + intros _. assert (∀ fl, always (child_run evs (fl, None)) (λ r, r.2 = None)) as H.
      { clear. induction evs as [|e evs IH]; intros fl; [by apply always_ret|]. cbn [child_run]. apply always_bind.
        assert (∃ fl', ∀ m, (child_step e (fl, None) m) = ((fl', None), m)) as [fl' E].
        { destruct e as [pid|reaped]; simpl; [|eauto]. exists fl. intros m. unfold launch_process, mbind, alloc_bind. by destruct (0 <? pid). }
        intros m. rewrite E. apply IH. }
      eapply always_mono; [apply H|]. intros r ->. cbn. split_and!; [set_solver|done|done].
  - apply succeeds_bind. eapply succeeds_mono; [apply create_succeeds|]. intros r (v & -> & Hwf & Hc & Hcap).
    eapply succeeds_mono; [apply (child_run_succeeds evs [] v []); [|lia|simpl; lia|done]|].
    + split_and!; [done|done|constructor|constructor].
    + intros [fl o] (E1 & v' & E2 & Hv'). simpl in E1, E2. subst o. split; [done|]. cbn. by rewrite (tracked_holds v' _ Hv').
Qed.

(** The users manager (30) ends before shutdown; another child (99) is not ours. *)
Lemma orchestrator_tracks_children_witness :
  let evs := [Launched 10; Launched 20; Launched 30; Checked [(99, Exited 0); (30, Exited 1)]] in
  let r := ((o ← initialize_process_orchestrator; child_run evs ([], o)) []).1 in
  r.1 = [true] ∧ terminate_all_simulation_subsystems r.2 = ([10; 20], [10; 20], None).
Proof.
  intros evs r. destruct (orchestrator_tracks_children evs) as [_ H].
  - vm_compute. repeat split; set_solver.
  - reflexivity.
  - destruct (H [] ltac:(constructor)) as [H1 _]. exact H1.
Defined.
