(* ===== verification/Waitgroup.v ===== *)
(** * Wait groups ([ring1/postoffice/concurrency/waitgroup.c])

    A client adds one unit per task, starts the tasks, waits and destroys the
    group, as [worker_run_simulation] of [worker_core.c] does; each task ends with
    [wg_done]. The atomic operations, the critical sections, the condition variable
    with spurious wake-ups and the memory of the group are interleaved steps; the
    tasks may run while others are still being added. *)

From Stdlib Require Import ZArith Lia.
From stdpp Require Import base list numbers relations.
From S2P Require Import Prelude.

Local Open Scope Z_scope.

(** ** State *)

(** Where a task is: not started, in its work, having made the count 0 (about to
    lock, to broadcast, to unlock), ended. *)
Inductive task_pc : Type := TIdle | TRun | TLock | TBroadcast | TUnlock | TEnd.
Global Instance task_pc_eq_dec : EqDecision task_pc.
Proof. solve_decision. Defined.

(** Where the client is; [MSleep] says whether it was woken. *)
Inductive main_pc : Type := MAdd (i : nat) | MWait | MLock | MCheck | MSleep (woken : bool) | MUnlock | MDestroy | MEnd.
Global Instance main_pc_eq_dec : EqDecision main_pc.
Proof. solve_decision. Defined.

(** Who holds the mutex. *)
Inductive holder : Type := HMain | HTask (i : nat).
Global Instance holder_eq_dec : EqDecision holder.
Proof. solve_decision. Defined.

(** [waitgroup_t]: the count, the mutex, whether the memory is still allocated,
    and whether it was used after that. *)
Record waitgroup : Type := mk_wg { wg_count : Z; wg_mutex : option holder; wg_alive : bool; wg_misused : bool }.

Definition wg_create : waitgroup := mk_wg 0 None true false.

Record wg_sys : Type := mk_sys { wg : waitgroup; main : main_pc; tasks : list task_pc }.

(** ** Operations *)

(** Every access records whether the memory was still there. *)
Definition touch (g : waitgroup) : waitgroup := mk_wg (wg_count g) (wg_mutex g) (wg_alive g) (wg_misused g || negb (wg_alive g)).
Definition set_count (n : Z) (g : waitgroup) : waitgroup := mk_wg (i32 n) (wg_mutex g) (wg_alive g) (wg_misused g).
Definition set_holder (h : option holder) (g : waitgroup) : waitgroup := mk_wg (wg_count g) h (wg_alive g) (wg_misused g).

Definition wg_add (n : Z) (g : waitgroup) : waitgroup := set_count (wg_count g + n) (touch g).
Definition wg_active_count (g : waitgroup) : Z := wg_count g.
Definition wg_destroy (g : waitgroup) : waitgroup := mk_wg (wg_count g) (wg_mutex g) false (wg_misused (touch g)).

Definition wake_main (m : main_pc) : main_pc := match m with MSleep _ => MSleep true | _ => m end.

(** One step of [wg_done] in task [i]; the work before it is one step with the
    decrement. *)
Definition wg_done_step (s : wg_sys) (i : nat) : option wg_sys :=
  let g := touch (wg s) in
  match tasks s !! i with
  | Some TRun =>
      let prev := wg_count g in
      Some (mk_sys (set_count (prev - 1) g) (main s) (<[i := if prev =? 1 then TLock else TEnd]> (tasks s)))
  | Some TLock =>
      match wg_mutex g with
      | None => Some (mk_sys (set_holder (Some (HTask i)) g) (main s) (<[i := TBroadcast]> (tasks s)))
      | Some _ => None
      end
  | Some TBroadcast => Some (mk_sys g (wake_main (main s)) (<[i := TUnlock]> (tasks s)))
  | Some TUnlock => Some (mk_sys (set_holder None g) (main s) (<[i := TEnd]> (tasks s)))
  | _ => None
  end.

(** One step of the client: the loop of [wg_add] and submissions, [wg_wait], and
    [wg_destroy], before which [join] says whether it waits for the threads. *)
Definition wg_client_step (join : bool) (s : wg_sys) : option wg_sys :=
  let g := touch (wg s) in
  match main s with
  | MAdd i =>
      if decide (i < length (tasks s))%nat then Some (mk_sys (wg_add 1 (wg s)) (MAdd (S i)) (<[i := TRun]> (tasks s)))
      else Some (mk_sys (wg s) MWait (tasks s))
  | MWait => Some (mk_sys g (if wg_count g =? 0 then MDestroy else MLock) (tasks s))
  | MLock =>
      match wg_mutex g with
      | None => Some (mk_sys (set_holder (Some HMain) g) MCheck (tasks s))
      | Some _ => None
      end
  | MCheck =>
      if 0 <? wg_count g then Some (mk_sys (set_holder None g) (MSleep false) (tasks s))
      else Some (mk_sys g MUnlock (tasks s))
  | MSleep true => Some (mk_sys (wg s) MLock (tasks s))
  | MSleep false => None
  | MUnlock => Some (mk_sys (set_holder None g) MDestroy (tasks s))
  | MDestroy =>
      if join && negb (forallb (λ t, bool_decide (t = TEnd)) (tasks s)) then None
      else Some (mk_sys (wg_destroy (wg s)) MEnd (tasks s))
  | MEnd => None
  end.

Definition spurious_step (s : wg_sys) : option wg_sys :=
  match main s with
  | MSleep false => Some (mk_sys (wg s) (MSleep true) (tasks s))
  | _ => None
  end.

Inductive wg_step (join : bool) : wg_sys → wg_sys → Prop :=
| wg_client s s' : wg_client_step join s = Some s' → wg_step join s s'
| wg_task s s' i : wg_done_step s i = Some s' → wg_step join s s'.

Inductive wg_step_any (join : bool) : wg_sys → wg_sys → Prop :=
| wg_regular s s' : wg_step join s s' → wg_step_any join s s'
| wg_spurious s s' : spurious_step s = Some s' → wg_step_any join s s'.

(** [n] tasks to start. *)
Definition wg_start (n : nat) : wg_sys := mk_sys wg_create (MAdd 0) (replicate n TIdle).
Definition wg_reachable (join : bool) (n : nat) (s : wg_sys) : Prop := rtc (wg_step_any join) (wg_start n) s.

(** ** Invariant *)

Definition not_started (m : main_pc) (j : nat) : bool := match m with MAdd i => bool_decide (i <= j)%nat | _ => false end.
Definition in_section (t : task_pc) : bool := match t with TBroadcast | TUnlock => true | _ => false end.
Definition notifying (t : task_pc) : bool := match t with TLock | TBroadcast => true | _ => false end.
Definition main_section (m : main_pc) : bool := match m with MCheck | MUnlock => true | _ => false end.
Definition returned (m : main_pc) : bool := match m with MUnlock | MDestroy | MEnd => true | _ => false end.

(** The number of tasks that have not called [wg_done]. *)
Definition is_running (t : task_pc) : bool := bool_decide (t = TRun).
Definition running (ts : list task_pc) : Z := count_if is_running ts.

Record wg_inv (n : nat) (s : wg_sys) : Prop := mk_wg_inv {
  wi_length : length (tasks s) = n;
  wi_count : wg_count (wg s) = running (tasks s);
  wi_idle : ∀ j t, tasks s !! j = Some t → bool_decide (t = TIdle) = not_started (main s) j;
  wi_section : ∀ j t, tasks s !! j = Some t → in_section t = bool_decide (wg_mutex (wg s) = Some (HTask j));
  wi_holder : ∀ j, wg_mutex (wg s) = Some (HTask j) → (j < n)%nat;
  wi_main : main_section (main s) = bool_decide (wg_mutex (wg s) = Some HMain);
  wi_sleep : main s = MSleep false → 0 < wg_count (wg s) ∨ ∃ j t, tasks s !! j = Some t ∧ notifying t = true;
  wi_returned : returned (main s) = true → wg_count (wg s) = 0;
  wi_alive : wg_alive (wg s) = negb (bool_decide (main s = MEnd)) }.

Lemma running_range ts : 0 <= running ts <= Z.of_nat (length ts).
Proof. apply count_bounds. Qed.

Lemma pending_insert ts i t t' :
  ts !! i = Some t → running (<[i := t']> ts) = running ts - (if is_running t then 1 else 0) + (if is_running t' then 1 else 0).
Proof. apply count_insert. Qed.

Lemma running_pos ts : 0 < running ts → ∃ i, ts !! i = Some TRun.
Proof. intros H. apply count_pos in H as (i & t & Hi & Ht). apply bool_decide_eq_true in Ht as ->. eauto. Qed.

Lemma running_has ts i : ts !! i = Some TRun → 0 < running ts.
Proof. intros H. pose proof (count_elem is_running ts i TRun H eq_refl). unfold running. lia. Qed.

Lemma running_zero ts i t : running ts = 0 → ts !! i = Some t → t ≠ TRun.
Proof. intros H Hi ->. apply running_has in Hi. lia. Qed.

Lemma running_idle n : running (replicate n TIdle) = 0.
Proof. apply count_none. intros i t H. by apply lookup_replicate in H as [-> _]. Qed.

Lemma wg_inv_start n : wg_inv n (wg_start n).
Proof.
  split; simpl; try done.
  - apply length_replicate.
  - by rewrite running_idle.
  - intros j t Ht. apply lookup_replicate in Ht as [-> _]. by rewrite ?bool_decide_eq_true_2 by lia.
  - intros j t Ht. apply lookup_replicate in Ht as [-> _]. done.
Qed.

Ltac wg_simpl := cbn [wg main tasks wg_count wg_mutex wg_alive wg_misused not_started in_section notifying main_section returned
  touch set_count set_holder wg_add wg_destroy wake_main] in *.

(** Case analysis on what is written to a task. *)
Ltac task_cases H := apply list_lookup_insert_Some in H as [(<- & <- & _)|(? & H)].

Lemma wg_client_inv join n s s' :
  Z.of_nat n < 2 ^ 31 → wg_inv n s → wg_client_step join s = Some s' → wg_inv n s'.
Proof.
  intros Hn [Hl Hc Hi Hs Hh Hm Hw Hr Ha] E. pose proof (running_range (tasks s)) as Hrange. rewrite Hl in Hrange.
  unfold wg_client_step in E. destruct s as [[count mutex alive mis] m ts]. wg_simpl.
  destruct m as [i| | | |[] | | |]; wg_simpl.
  - case_decide as Hd; injection E as <-.
    + destruct (lookup_lt_is_Some_2 ts i Hd) as [t Ht]. pose proof (Hi i t Ht) as Hti.
      rewrite (bool_decide_eq_true_2 (i <= i)%nat) in Hti by lia. apply bool_decide_eq_true in Hti as ->.
      pose proof (pending_insert ts i TIdle TRun Ht) as Hrun. simpl in Hrun.
      assert (running (<[i:=TRun]> ts) <= Z.of_nat n) by (pose proof (running_range (<[i:=TRun]> ts)); rewrite length_insert, Hl in *; lia).
      split; wg_simpl; try done.
      * by rewrite length_insert.
      * unfold i32. rewrite signed_small by lia. lia.
      * intros j t Hj. task_cases Hj; [rewrite !bool_decide_eq_false_2 by (done || lia); done|].
        rewrite (Hi j t Hj). apply bool_decide_ext. lia.
      * intros j t Hj. task_cases Hj; [rewrite <- (Hs i TIdle Ht); done|by apply Hs].
    + split; wg_simpl; try done. intros j t Hj. rewrite (Hi j t Hj). apply bool_decide_eq_false_2. apply lookup_lt_Some in Hj. lia.
  - injection E as <-. destruct (Z.eqb_spec count 0); split; wg_simpl; done.
  - destruct mutex; [done|]. injection E as <-. by split; wg_simpl.
  - symmetry in Hm. apply bool_decide_eq_true in Hm as ->. destruct (Z.ltb_spec 0 count); injection E as <-; split; wg_simpl; done || lia || (intros _; by left).
  - injection E as <-. split; wg_simpl; done.
  - done.
  - symmetry in Hm. apply bool_decide_eq_true in Hm as ->. injection E as <-. by split; wg_simpl.
  - destruct (join && _); [done|]. injection E as <-. split; wg_simpl; done.
  - done.
Qed.

Lemma done_step_inv n s s' i :
  Z.of_nat n < 2 ^ 31 → wg_inv n s → wg_done_step s i = Some s' → wg_inv n s'.
Proof.
  intros Hn [Hl Hc Hi Hs Hh Hm Hw Hr Ha] E. pose proof (running_range (tasks s)) as Hrange. rewrite Hl in Hrange.
  unfold wg_done_step in E. destruct s as [[count mutex alive mis] m ts]. wg_simpl.
  destruct (ts !! i) as [t|] eqn:Ht; [|done]. pose proof (Hi i t Ht) as Hii. pose proof (Hs i t Ht) as Hsi.
  pose proof (lookup_lt_Some _ _ _ Ht) as Hlt. rewrite Hl in Hlt. destruct t; wg_simpl; try done.
  - pose proof (running_has ts i Ht) as Hpos. injection E as <-.
    set (t' := if count =? 1 then TLock else TEnd). pose proof (pending_insert ts i TRun t' Ht) as Hrun.
    assert (is_running t' = false) as Ht' by (unfold t'; by destruct (count =? 1)). rewrite Ht' in Hrun. simpl in Hrun.
    assert (i32 (count - 1) = count - 1) as Hz by (unfold i32; apply signed_small; lia).
    split; wg_simpl; rewrite ?Hz; try done; try lia.
    + by rewrite length_insert.
    + intros j t Hj. task_cases Hj; [|by apply Hi]. rewrite <- Hii. unfold t'. by destruct (count =? 1).
    + intros j t Hj. task_cases Hj; [|by apply Hs]. rewrite <- Hsi. unfold t'. by destruct (count =? 1).
    + intros Em. unfold t'. destruct (Z.eqb_spec count 1); [right|left; lia].
      exists i, TLock. split; [apply list_lookup_insert_eq; lia|done].
    + intros Hret. apply Hr in Hret. lia.
  - destruct mutex; [done|]. injection E as <-. pose proof (pending_insert ts i TLock TBroadcast Ht) as Hrun. simpl in Hrun.
    split; wg_simpl; try done; try lia.
    + by rewrite length_insert.
    + intros j t Hj. task_cases Hj; [by rewrite <- Hii|by apply Hi].
    + intros j t Hj. task_cases Hj; [by rewrite bool_decide_eq_true_2|]. rewrite (Hs j t Hj). rewrite !bool_decide_eq_false_2; congruence.
    + intros j [= <-]. lia.
    + intros _. right. exists i, TBroadcast. split; [apply list_lookup_insert_eq; lia|done].
  - injection E as <-. pose proof (pending_insert ts i TBroadcast TUnlock Ht) as Hrun. simpl in Hrun.
    split; wg_simpl; try done; try lia.
    + by rewrite length_insert.
    + intros j t Hj. replace (not_started (wake_main m) j) with (not_started m j) by by destruct m.
      task_cases Hj; [by rewrite <- Hii|by apply Hi].
    + intros j t Hj. task_cases Hj; [by rewrite <- Hsi|by apply Hs].
    + by destruct m.
    + by destruct m.
    + intros Hret. apply Hr. by destruct m.
    + rewrite Ha. f_equal. apply bool_decide_ext. by destruct m.
  - injection E as <-. pose proof (pending_insert ts i TUnlock TEnd Ht) as Hrun. simpl in Hrun.
    symmetry in Hsi. apply bool_decide_eq_true in Hsi as ->. split; wg_simpl; try done; try lia.
    + by rewrite length_insert.
    + intros j t Hj. task_cases Hj; [by rewrite <- Hii|by apply Hi].
    + intros j t Hj. task_cases Hj; [done|]. rewrite (Hs j t Hj). rewrite !bool_decide_eq_false_2; congruence.
    + intros Em. destruct (Hw Em) as [?|(j & t & Hj & Hnt)]; [by left|right]. exists j, t. split; [|done].
      rewrite list_lookup_insert_ne; [done|]. intros ->. rewrite Ht in Hj. by injection Hj as <-.
Qed.

Lemma wg_reachable_inv join n s : Z.of_nat n < 2 ^ 31 → wg_reachable join n s → wg_inv n s.
Proof.
  intros Hn. apply (rtc_ind_r (wg_inv n)); [apply wg_inv_start|]. intros x y _ Hstep Hinv.
  destruct Hstep as [? ? [? ? E|? ? i E]|? ? E]; [by eapply wg_client_inv|by eapply done_step_inv|].
  destruct Hinv as [Hl Hc Hi Hs Hh Hm Hw Hr Ha]. destruct s0 as [g m ts]. unfold spurious_step in E. wg_simpl.
  destruct m as [| | | |[]| | |]; try done. injection E as <-. by split.
Qed.

(** ** Progress and termination *)

(** A step that is not blocked. *)
Lemma section_steps n s j : wg_inv n s → wg_mutex (wg s) = Some (HTask j) → is_Some (wg_done_step s j).
Proof.
  intros [Hl _ _ Hs Hh _ _ _ _] Hm. specialize (Hh j Hm). rewrite <- Hl in Hh. destruct (lookup_lt_is_Some_2 _ _ Hh) as [t Ht].
  specialize (Hs j t Ht). rewrite bool_decide_eq_true_2 in Hs by done. unfold wg_done_step. rewrite Ht. destruct t; done || eauto.
Qed.

Lemma locking_steps n s i :
  wg_inv n s → main_section (main s) = false → tasks s !! i = Some TLock → ∃ j, is_Some (wg_done_step s j).
Proof.
  intros Hinv Hm Ht. destruct (wg_mutex (wg s)) as [[|j]|] eqn:Em.
  - rewrite (wi_main _ _ Hinv), Em, bool_decide_eq_true_2 in Hm; done.
  - exists j. by eapply section_steps.
  - exists i. unfold wg_done_step. rewrite Ht. simpl. rewrite Em. eauto.
Qed.

Lemma unfinished_steps n s i t :
  wg_inv n s → main_section (main s) = false → tasks s !! i = Some t → t ≠ TEnd → t ≠ TIdle → ∃ j, is_Some (wg_done_step s j).
Proof.
  intros Hinv Hm Ht H1 H2. destruct t; try done; [exists i|by eapply locking_steps|exists i|exists i]; unfold wg_done_step; rewrite Ht; simpl; eauto.
Qed.

Lemma wg_progress join n s : wg_inv n s → main s ≠ MEnd → ∃ s', wg_step join s s'.
Proof.
  intros Hinv He. assert (∀ j, is_Some (wg_done_step s j) → ∃ s', wg_step join s s') as Htask.
  { intros j [s' E]. exists s'. by eapply wg_task. }
  assert (is_Some (wg_client_step join s) → ∃ s', wg_step join s s') as Hmain.
  { intros [s' E]. exists s'. by apply wg_client. }
  destruct (main s) as [i| | | |[]| | |] eqn:Em; try (apply Hmain; unfold wg_client_step; rewrite Em; try case_decide; eauto; fail).
  - destruct (wg_mutex (wg s)) as [[|j]|] eqn:Ex.
    + pose proof (wi_main _ _ Hinv) as H. rewrite Em, Ex, bool_decide_eq_true_2 in H; done.
    + apply (Htask j). by eapply section_steps.
    + apply Hmain. unfold wg_client_step. rewrite Em. simpl. rewrite Ex. eauto.
  - apply Hmain. unfold wg_client_step. rewrite Em. destruct (0 <? _); eauto.
  - destruct (wi_sleep _ _ Hinv Em) as [H|(j & t & Hj & Hn)].
    + rewrite (wi_count _ _ Hinv) in H. apply running_pos in H as [i Hi]. apply (Htask i). unfold wg_done_step. rewrite Hi. eauto.
    + destruct (unfinished_steps n s j t Hinv) as [k Hk]; [by rewrite Em|done|by destruct t|by destruct t|by apply (Htask k)].
  - destruct (join && negb (forallb (λ t, bool_decide (t = TEnd)) (tasks s))) eqn:Ej; [|apply Hmain; unfold wg_client_step; rewrite Em, Ej; eauto].
    apply andb_true_iff in Ej as [_ Ej]. apply negb_true_iff in Ej.
    assert (∃ i t, tasks s !! i = Some t ∧ t ≠ TEnd) as (i & t & Hi & Ht).
    { clear -Ej. induction (tasks s) as [|t ts IH]; [done|]. simpl in Ej. case_bool_decide as E; [|by exists 0%nat, t].
      destruct (IH Ej) as (i & t' & ? & ?). by exists (S i), t'. }
    destruct (unfinished_steps n s i t Hinv) as [k Hk]; [by rewrite Em|done|done| |by apply (Htask k)].
    intros ->. pose proof (wi_idle _ _ Hinv i TIdle Hi) as H. rewrite Em in H. done.
  - done.
Qed.

Definition task_rank (t : task_pc) : nat :=
  match t with TIdle => 5 | TRun => 4 | TLock => 3 | TBroadcast => 2 | TUnlock => 1 | TEnd => 0 end.
Definition main_rank (n : nat) (m : main_pc) : nat :=
  match m with
  | MAdd i => 10 + (n - i) | MWait => 9 | MSleep true => 8 | MLock => 7 | MCheck => 6 | MSleep false => 5
  | MUnlock => 4 | MDestroy => 3 | MEnd => 0
  end.
Fixpoint tasks_rank (ts : list task_pc) : nat := match ts with [] => 0 | t :: ts => task_rank t + tasks_rank ts end.
Definition wg_rank (s : wg_sys) : nat := 4 * tasks_rank (tasks s) + main_rank (length (tasks s)) (main s).

Lemma rank_insert ts i t t' :
  ts !! i = Some t → (tasks_rank (<[i := t']> ts) + task_rank t = tasks_rank ts + task_rank t')%nat.
Proof.
  revert i. induction ts as [|x ts IH]; intros [|i] Hi; simpl in *; try done.
  - injection Hi as ->. lia.
  - specialize (IH i Hi). lia.
Qed.

Lemma rank_decreases join n s s' : wg_inv n s → wg_step join s s' → (wg_rank s' < wg_rank s)%nat.
Proof.
  intros Hinv Hstep. destruct Hstep as [s s' E|s s' i E]; unfold wg_rank.
  - unfold wg_client_step in E. destruct s as [g m ts]. wg_simpl. destruct m as [i| | | |[]| | |].
    + case_decide as Hd; injection E as <-; wg_simpl; [|cbn [main_rank]; lia].
      destruct (lookup_lt_is_Some_2 ts i Hd) as [t Ht]. pose proof (wi_idle _ _ Hinv i t Ht) as Hti. wg_simpl.
      rewrite (bool_decide_eq_true_2 (i <= i)%nat) in Hti by lia. apply bool_decide_eq_true in Hti as ->.
      pose proof (rank_insert ts i TIdle TRun Ht) as H. rewrite length_insert. cbn [task_rank main_rank] in *. lia.
    + injection E as <-. wg_simpl. destruct (wg_count g =? 0); cbn [main_rank]; lia.
    + destruct (wg_mutex g); [done|]. injection E as <-. wg_simpl. cbn [main_rank]. lia.
    + destruct (0 <? wg_count g); injection E as <-; wg_simpl; cbn [main_rank]; lia.
    + injection E as <-. wg_simpl. cbn [main_rank]. lia.
    + done.
    + injection E as <-. wg_simpl. cbn [main_rank]. lia.
    + destruct (join && _); [done|]. injection E as <-. wg_simpl. cbn [main_rank]. lia.
    + done.
  - unfold wg_done_step in E. destruct s as [g m ts]. wg_simpl.
    destruct (ts !! i) as [t|] eqn:Ht; [|done].
    assert (main_rank (length ts) (wake_main m) <= main_rank (length ts) m + 3)%nat as Hw by (destruct m as [| | | |[]| | |]; cbn [wake_main main_rank]; lia).
    destruct t; try done; [injection E as <-|destruct (wg_mutex g); [done|]; injection E as <-|injection E as <-|injection E as <-]; wg_simpl; rewrite length_insert.
    + pose proof (rank_insert ts i TRun (if wg_count g =? 1 then TLock else TEnd) Ht) as H.
      destruct (wg_count g =? 1); cbn [task_rank] in H; lia.
    + pose proof (rank_insert ts i TLock TBroadcast Ht) as H. cbn [task_rank] in H. lia.
    + pose proof (rank_insert ts i TBroadcast TUnlock Ht) as H. cbn [task_rank] in H. lia.
    + pose proof (rank_insert ts i TUnlock TEnd Ht) as H. cbn [task_rank] in H. lia.
Qed.

(** ** Properties *)

(** [wg_wait] waits for all: in every interleaving of a client that adds and
    starts [n] tasks, waits and destroys, once the client is past the wait every
    task has finished its work and called [wg_done], even though tasks run and
    finish while others are still being added. *)
Theorem waitgroup_waits_for_all (join : bool) (n : nat) (s : wg_sys) :
  Z.of_nat n < 2 ^ 31 → wg_reachable join n s → main s = MDestroy ∨ main s = MEnd →
  wg_active_count (wg s) = 0 ∧ ∀ i t, tasks s !! i = Some t → t ≠ TIdle ∧ t ≠ TRun.
Proof.
  intros Hn Hr Hm. apply wg_reachable_inv in Hr as [_ Hc Hi _ _ _ _ Hret _]; [|done].
  assert (returned (main s) = true) as H by by destruct Hm as [-> | ->]. specialize (Hret H). split; [done|]. intros i t Ht. split.
  - intros ->. specialize (Hi i TIdle Ht). destruct Hm as [E|E]; rewrite E in Hi; done.
  - apply (running_zero (tasks s) i); [lia|done].
Qed.

(** C17. No wake-up is lost: from every reachable state, every run without spurious
    wake-ups is at most [wg_rank] steps long, and a state in which nothing can
    run any more is one where the client has returned from [wg_wait] and
    destroyed the group. *)
Theorem waitgroup_always_released (join : bool) (n : nat) (s : wg_sys) :
  Z.of_nat n < 2 ^ 31 → wg_reachable join n s →
  ∀ k s', nsteps (wg_step join) k s s' → (k + wg_rank s' <= wg_rank s)%nat ∧ ((∀ s'', ¬ wg_step join s' s'') → main s' = MEnd).
Proof.
  intros Hn Hr k s' Hs. split.
  - revert s Hr s' Hs. induction k as [|k IH]; intros s Hr s' Hs; inversion Hs as [|? ? y ? H1 H2]; subst; [lia|].
    pose proof (rank_decreases join n s y (wg_reachable_inv _ _ _ Hn Hr) H1).
    assert (wg_reachable join n y) as Hy by (eapply rtc_r; [done|by apply wg_regular]). pose proof (IH y Hy s' H2). lia.
  - intros Hstuck. assert (wg_reachable join n s') as Hr'.
    { clear Hstuck. induction Hs as [|? ? ? ? H1 H2 IH]; [done|]. apply IH. eapply rtc_r; [done|by apply wg_regular]. }
    destruct (decide (main s' = MEnd)) as [|He]; [done|]. destruct (wg_progress join n s') as [s'' H]; [by apply (wg_reachable_inv join)|done|].
    by destruct (Hstuck s'').
Qed.

(** Schedules. *)
Inductive wg_action : Type := AClient | ATask (i : nat) | ASpurious.
Definition wg_act (join : bool) (s : wg_sys) (a : wg_action) : option wg_sys :=
  match a with AClient => wg_client_step join s | ATask i => wg_done_step s i | ASpurious => spurious_step s end.
Fixpoint wg_exec (join : bool) (l : list wg_action) (s : wg_sys) : option wg_sys :=
  match l with [] => Some s | a :: l => wg_act join s a ≫= wg_exec join l end.

Lemma exec_reachable join n l s : wg_exec join l (wg_start n) = Some s → wg_reachable join n s.
Proof.
  unfold wg_reachable. generalize (wg_start n) as s0. induction l as [|a l IH]; intros s0 E; simpl in E; [by injection E as ->|].
  destruct (wg_act join s0 a) as [s1|] eqn:Ea; [|done]. eapply rtc_l; [|by apply IH].
  destruct a; simpl in Ea; [by apply wg_regular, wg_client|by eapply wg_regular, wg_task|by apply wg_spurious].
Qed.

(** Two tasks; the first one ends before the second one is added, and the client
    sleeps until the second one wakes it. *)
Definition wg_demo : list wg_action :=
  [AClient; ATask 0; AClient; AClient; AClient; AClient; AClient; ATask 1; ATask 1; ATask 1; ATask 1; AClient; AClient; AClient; AClient].

Lemma waitgroup_waits_for_all_witness :
  ∃ s, wg_exec false wg_demo (wg_start 2) = Some s ∧ main s = MDestroy ∧ wg_active_count (wg s) = 0.
Proof.
  destruct (wg_exec false wg_demo (wg_start 2)) as [s|] eqn:E; [|vm_compute in E; discriminate E].
  assert (main s = MDestroy) as Hm by (vm_compute in E; injection E as <-; reflexivity).
  destruct (waitgroup_waits_for_all false 2 s ltac:(lia) (exec_reachable _ _ _ _ E) (or_introl Hm)) as [H _].
  exists s. split; [reflexivity|]. split; [exact Hm|exact H].
Defined.

(** After five steps the client of two tasks needs at most [wg_rank] more. *)
Lemma waitgroup_always_released_witness :
  ∃ s, wg_exec true (take 5 wg_demo) (wg_start 2) = Some s ∧
    ∀ k s', nsteps (wg_step true) k s s' → (k + wg_rank s' <= 35)%nat.
Proof.
  destruct (wg_exec true (take 5 wg_demo) (wg_start 2)) as [s|] eqn:E; [|vm_compute in E; discriminate E].
  exists s. split; [reflexivity|]. intros k s' Hs.
  destruct (waitgroup_always_released true 2 s ltac:(lia) (exec_reachable _ _ _ _ E) k s' Hs) as [H _].
  vm_compute in E. injection E as <-. exact H.
Defined.

(** ** Destruction *)

Record join_inv (s : wg_sys) : Prop := mk_join_inv {
  ji_safe : wg_misused (wg s) = false;
  ji_end : main s = MEnd → Forall (λ t, t = TEnd) (tasks s) }.

Lemma reachable_joined n s : Z.of_nat n < 2 ^ 31 → wg_reachable true n s → join_inv s.
Proof.
  intros Hn Hr.
  assert (wg_reachable true n s ∧ join_inv s) as [_ H]; [|done].
  revert Hr. apply (rtc_ind_r (λ s, wg_reachable true n s ∧ join_inv s)); [split; [by apply rtc_refl|by split]|].
  intros x y _ Hstep [Hx [Hs He]]. split; [by eapply rtc_r|].
  pose proof (wi_alive _ _ (wg_reachable_inv _ _ _ Hn Hx)) as Ha.
  destruct Hstep as [s0 s' [? ? E|? ? i E]|s0 s' E].
  - unfold wg_client_step in E. destruct s1 as [[c mu al mi] m ts]. wg_simpl. subst mi al.
    destruct m as [i| | | |[]| | |].
    + case_decide; injection E as <-; by split.
    + injection E as <-. split; wg_simpl; [done|]. by destruct (c =? 0).
    + destruct mu; [done|]. injection E as <-. by split.
    + destruct (0 <? c); injection E as <-; by split.
    + injection E as <-. by split.
    + done.
    + injection E as <-. by split.
    + destruct (forallb (λ t, bool_decide (t = TEnd)) ts) eqn:Ef; simpl in E; [|done]. injection E as <-. split; wg_simpl; [done|]. intros _.
      apply list.Forall_forall. intros t Ht. rewrite forallb_forall in Ef. apply list_elem_of_In in Ht. specialize (Ef t Ht). by apply bool_decide_eq_true in Ef.
    + done.
  - unfold wg_done_step in E. destruct s1 as [[c mu al mi] m ts]. wg_simpl. subst mi.
    destruct (ts !! i) as [t|] eqn:Ht; [|done].
    destruct (decide (m = MEnd)) as [->|Hm].
    { specialize (He eq_refl). rewrite list.Forall_lookup in He. rewrite (He i t Ht) in E. done. }
    rewrite bool_decide_eq_false_2 in Ha by done. subst al.
    destruct t; try done; [|destruct mu; [done|]| |]; injection E as <-; split; wg_simpl; try done; intros E; by destruct m.
  - unfold spurious_step in E. destruct s0 as [g m ts]. wg_simpl. destruct m as [| | | |[]| | |]; try done. injection E as <-. by split.
Qed.

(** A group may be destroyed only after the threads are joined: if the client
    joins its tasks before [wg_destroy] the group is never used after it is freed,
    in any interleaving; if it only waits, as [worker_run_simulation] does, the
    last task may still lock the freed mutex. *)
Theorem waitgroup_destroy_needs_join :
  (∀ n s, Z.of_nat n < 2 ^ 31 → wg_reachable true n s → wg_misused (wg s) = false) ∧
  (∃ n s, wg_reachable false n s ∧ wg_misused (wg s) = true).
Proof.
  split; [intros n s Hn Hr; by apply (reachable_joined n)|].
  destruct (wg_exec false [AClient; AClient; ATask 0; AClient; AClient; ATask 0] (wg_start 1)) as [s|] eqn:E; [|vm_compute in E; discriminate E].
  exists 1%nat, s. split; [by eapply exec_reachable|]. vm_compute in E. by injection E as <-.
Qed.

(** A client that joins, from the start to the destruction. *)
Lemma waitgroup_destroy_needs_join_witness :
  ∃ s, wg_exec true [AClient; AClient; ATask 0; AClient; ATask 0; ATask 0; ATask 0; AClient] (wg_start 1) = Some s ∧
    main s = MEnd ∧ wg_misused (wg s) = false.
Proof.
  destruct (wg_exec true [AClient; AClient; ATask 0; AClient; ATask 0; ATask 0; ATask 0; AClient] (wg_start 1)) as [s|] eqn:E;
    [|vm_compute in E; discriminate E].
  exists s. split; [reflexivity|]. split; [vm_compute in E; injection E as <-; reflexivity|].
  exact (proj1 waitgroup_destroy_needs_join 1%nat s ltac:(lia) (exec_reachable _ _ _ _ E)).
Defined.
