(* ===== verification/WorkerLoop.v ===== *)
(** * The threads of the worker process ([worker/runtime/worker_loop.c])

    [run_worker_service_loop] in every thread of the process: a local barrier, the
    global day barrier entered by one thread for all, a second local barrier, the
    working day. The signal handler may set the shutdown flag at any time; the
    answers of the day barrier and the length of a day come from outside. *)

From Stdlib Require Import ZArith Lia.
From stdpp Require Import base list numbers relations.
From S2P Require Import Prelude.

Local Open Scope Z_scope.

(** ** State *)

(** Where a thread is, with the last day it knows: the test of the outer loop,
    entering and waiting in the first barrier, the serial thread's copy of the flag,
    its call of [sim_client_wait_barrier], its update of the shared context,
    entering and waiting in the second barrier, the reading of the context, the
    day's work, the end. *)
Inductive day_pc : Type :=
| Head (last_day : Z)
| Arrive1 (last_day : Z)
| In1 (last_day : Z)
| Sync (last_day : Z)
| Global (day_out : Z) (shut_out : bool)
| Update (day_out : Z) (shut_out : bool)
| Arrive2
| In2
| Post2
| Working (last_day : Z)
| Exit.

(** A thread with the days it has worked, for the properties below. *)
Record worker_thread : Type := mk_thread { pc_of : day_pc; worked : list Z }.

(** [worker_sync_t] with the number of threads in the barrier, [g_shutdown], and
    the days that were put into the context. *)
Record worker_sys : Type := mk_wsys {
  g_shutdown : bool;
  arrived : nat;
  current_day : Z;
  shutdown_signal : bool;
  threads : list worker_thread;
  announced : list Z }.

Definition set_threads (ts : list worker_thread) (s : worker_sys) : worker_sys :=
  mk_wsys (g_shutdown s) (arrived s) (current_day s) (shutdown_signal s) ts (announced s).

(** What the outside decides for a step. *)
Inductive outside : Type := Nothing | DayStarts (day : Z) | DayEnds.

Definition map_pc (f : day_pc → day_pc) (t : worker_thread) : worker_thread := mk_thread (f (pc_of t)) (worked t).

(** Threads that the last one to arrive lets go. *)
Definition release1 (t : day_pc) : day_pc := match t with In1 _ => Arrive2 | _ => t end.
Definition release2 (t : day_pc) : day_pc := match t with In2 => Post2 | _ => t end.

(** [pthread_barrier_wait]: the last of all threads releases the others and goes
    on as [serial], the others wait. *)
Definition barrier_wait (s : worker_sys) (i : nat) (w : list Z) (waiting serial : day_pc) (release : day_pc → day_pc) : worker_sys :=
  if decide (S (arrived s) = length (threads s))
  then mk_wsys (g_shutdown s) 0 (current_day s) (shutdown_signal s) (<[i := (mk_thread serial w)]> (map_pc release <$> threads s)) (announced s)
  else mk_wsys (g_shutdown s) (S (arrived s)) (current_day s) (shutdown_signal s) (<[i := (mk_thread waiting w)]> (threads s)) (announced s).

Definition worker_thread_step (s : worker_sys) (i : nat) (e : outside) : option worker_sys :=
  match threads s !! i with
  | None => None
  | Some (mk_thread pc w) =>
      let go t := Some (set_threads (<[i := (mk_thread t w)]> (threads s)) s) in
      match pc with
      | Head last => go (if g_shutdown s then Exit else Arrive1 last)
      | Arrive1 last => Some (barrier_wait s i w (In1 last) (Sync last) release1)
      | Sync last => go (Global last (g_shutdown s))
      | Global day shut =>
          if shut then go (Update day shut)
          else match e with DayStarts d => go (Update d shut) | _ => None end
      | Update day shut =>
          Some (mk_wsys (g_shutdown s) (arrived s) day shut (<[i := (mk_thread Arrive2 w)]> (threads s)) (announced s ++ [day]))
      | Arrive2 => Some (barrier_wait s i w In2 Post2 release2)
      | Post2 =>
          let g := g_shutdown s || shutdown_signal s in
          Some (mk_wsys g (arrived s) (current_day s) (shutdown_signal s)
                  (<[i := if g then mk_thread Exit w else mk_thread (Working (current_day s)) (w ++ [current_day s])]> (threads s)) (announced s))
      | Working last =>
          if g_shutdown s then go (Head last)
          else match e with DayEnds => go (Head last) | _ => None end
      | In1 _ | In2 | Exit => None
      end
  end.

(** The signal handler. *)
Definition on_sig (s : worker_sys) : worker_sys :=
  mk_wsys true (arrived s) (current_day s) (shutdown_signal s) (threads s) (announced s).

Inductive worker_proc_step : worker_sys → worker_sys → Prop :=
| worker_runs s s' i e : worker_thread_step s i e = Some s' → worker_proc_step s s'
| worker_signal s : worker_proc_step s (on_sig s).

Definition worker_start (n : nat) : worker_sys := mk_wsys false 0 0 false (replicate n (mk_thread (Head 0) [])) [].
Definition worker_reachable (n : nat) (s : worker_sys) : Prop := rtc worker_proc_step (worker_start n) s.

(** ** Invariant *)

Definition serial_pc (t : worker_thread) : bool := match pc_of t with Sync _ | Global _ _ | Update _ _ => true | _ => false end.
Definition in_barrier (t : worker_thread) : bool := match pc_of t with In1 _ | In2 => true | _ => false end.

(** From the release of the second barrier to the one of the first. *)
Definition outer_thread (day : Z) (days : list Z) (t : worker_thread) : Prop :=
  match pc_of t with
  | Head _ | Arrive1 _ | In1 _ => worked t = days
  | Working last => worked t = days ∧ last = day ∧ list.last days = Some day
  | Post2 => days = worked t ++ [day]
  | Exit => worked t `prefix_of` days
  | _ => False
  end.

(** From the release of the first barrier to the one of the second, before and
    after the serial thread has updated the context. *)
Definition inner_thread (updated : bool) (day : Z) (days : list Z) (t : worker_thread) : Prop :=
  match pc_of t with
  | Sync _ | Global _ _ | Update _ _ => updated = false ∧ worked t = days
  | Arrive2 | In2 => if updated then days = worked t ++ [day] else worked t = days
  | _ => False
  end.

Record day_inv (n : nat) (s : worker_sys) : Prop := mk_worker_inv {
  wv_length : length (threads s) = n;
  wv_arrived : Z.of_nat (arrived s) = count_if in_barrier (threads s);
  wv_phase :
    Forall (outer_thread (current_day s) (announced s)) (threads s) ∨
    ∃ updated, Forall (inner_thread updated (current_day s) (announced s)) (threads s) ∧
      count_if serial_pc (threads s) = (if updated then 0 else 1) }.

(** What a thread is after a barrier let it go. *)
Lemma released_lookup (release : day_pc → day_pc) (ts : list worker_thread) (i : nat) (t : worker_thread) (j : nat) (u : worker_thread) :
  <[i := t]> (map_pc release <$> ts) !! j = Some u →
  j = i ∧ u = t ∨ j ≠ i ∧ ∃ v, ts !! j = Some v ∧ u = map_pc release v.
Proof.
  intros H. apply list_lookup_insert_Some in H as [(<- & <- & _)|(Hne & H)]; [by left|right]. split; [done|].
  apply list_lookup_fmap_Some in H as (v & Hu & Hv). exists v. split; [done|]. done.
Qed.

Lemma first_barrier_inv n s i last w :
  day_inv n s → threads s !! i = Some (mk_thread (Arrive1 last) w) → day_inv n (barrier_wait s i w (In1 last) (Sync last) release1).
Proof.
  intros [Hl Ha Hp] Ht. destruct Hp as [Hp|(b & Hp & _)].
  2: { rewrite list.Forall_lookup in Hp. by specialize (Hp i _ Ht). }
  pose proof Hp as Hall. rewrite list.Forall_lookup in Hall. pose proof (Hall i _ Ht) as Hi. unfold outer_thread in Hi. simpl in Hi.
  unfold barrier_wait. case_decide as Hd.
  - assert (count_if in_barrier (threads s) + 1 = Z.of_nat (length (threads s))) as Hfull by lia.
    pose proof (count_others in_barrier _ _ _ Ht eq_refl Hfull) as Ho.
    assert (∀ j u, <[i := (mk_thread (Sync last) w)]> (map_pc release1 <$> threads s) !! j = Some u →
      j = i ∧ u = (mk_thread (Sync last) w) ∨ j ≠ i ∧ u = mk_thread Arrive2 (announced s)) as Hnew.
    { intros j u Hj. apply released_lookup in Hj as [?|(Hne & v & Hv & ->)]; [by left|right]. split; [done|].
      pose proof (Ho j v Hv Hne) as Hb. pose proof (Hall j v Hv) as Hv'. destruct v as [pc wv]. unfold outer_thread in Hv'. simpl in *.
      destruct pc; try done. by subst wv. }
    assert (<[i := (mk_thread (Sync last) w)]> (map_pc release1 <$> threads s) !! i = Some (mk_thread (Sync last) w)) as Hself.
    { apply list_lookup_insert_eq. rewrite length_fmap. by eapply lookup_lt_Some. }
    split; cbn [threads arrived current_day announced].
    + by rewrite length_insert, length_fmap.
    + symmetry. apply count_none. intros j u Hj. by destruct (Hnew j u Hj) as [[_ ->]|[_ ->]].
    + right. exists false. split.
      * apply list.Forall_lookup. intros j u Hj. by destruct (Hnew j u Hj) as [[_ ->]|[_ ->]].
      * apply (count_single serial_pc _ i _ Hself); [done|]. intros j u Hj Hne. by destruct (Hnew j u Hj) as [[? _]|[_ ->]].
  - pose proof (count_insert in_barrier (threads s) i (mk_thread (Arrive1 last) w) (mk_thread (In1 last) w) Ht) as Hc. simpl in Hc.
    split; cbn [threads arrived current_day announced].
    { by rewrite length_insert. }
    { rewrite Nat2Z.inj_succ. lia. }
    left. apply Forall_insert; done.
Qed.

Lemma second_barrier_inv n s i w :
  day_inv n s → threads s !! i = Some (mk_thread Arrive2 w) → day_inv n (barrier_wait s i w In2 Post2 release2).
Proof.
  intros [Hl Ha Hp] Ht. destruct Hp as [Hp|(b & Hp & Hs)].
  { rewrite list.Forall_lookup in Hp. by specialize (Hp i _ Ht). }
  pose proof Hp as Hall. rewrite list.Forall_lookup in Hall. pose proof (Hall i _ Ht) as Hi. unfold inner_thread in Hi. simpl in Hi.
  unfold barrier_wait. case_decide as Hd.
  - assert (count_if in_barrier (threads s) + 1 = Z.of_nat (length (threads s))) as Hfull by lia.
    pose proof (count_others in_barrier _ _ _ Ht eq_refl Hfull) as Ho.
    assert (∀ j u, threads s !! j = Some u → serial_pc u = false) as Hns.
    { intros j u Hj. destruct (decide (j = i)) as [->|Hne]; [rewrite Ht in Hj; by injection Hj as <-|].
      pose proof (Ho j u Hj Hne) as Hb. destruct u as [pc wu]. unfold in_barrier, serial_pc in *. simpl in *. by destruct pc. }
    assert (b = true) as ->. { destruct b; [done|]. rewrite count_none in Hs; [done|exact Hns]. }
    assert (∀ j u, <[i := (mk_thread Post2 w)]> (map_pc release2 <$> threads s) !! j = Some u →
      pc_of u = Post2 ∧ announced s = worked u ++ [current_day s]) as Hnew.
    { intros j u Hj. apply released_lookup in Hj as [[_ ->]|(Hne & v & Hv & ->)]; [done|].
      pose proof (Ho j v Hv Hne) as Hb. pose proof (Hall j v Hv) as Hv'. destruct v as [pc wv]. unfold inner_thread in Hv'. simpl in *.
      by destruct pc. }
    split; cbn [threads arrived current_day announced].
    + by rewrite length_insert, length_fmap.
    + symmetry. apply count_none. intros j u Hj. destruct (Hnew j u Hj) as [E _]. unfold in_barrier. by rewrite E.
    + left. apply list.Forall_lookup. intros j u Hj. destruct (Hnew j u Hj) as [E1 E2]. unfold outer_thread. by rewrite E1.
  - pose proof (count_insert in_barrier (threads s) i (mk_thread Arrive2 w) (mk_thread In2 w) Ht) as Hc. simpl in Hc.
    pose proof (count_insert serial_pc (threads s) i (mk_thread Arrive2 w) (mk_thread In2 w) Ht) as Hc2. simpl in Hc2.
    split; cbn [threads arrived current_day announced]; [by rewrite length_insert|lia|]. right. exists b. split; [by apply Forall_insert|lia].
Qed.

(** A step that only moves thread [i] within its phase. *)
Lemma move_inv n s i t t' :
  day_inv n s → threads s !! i = Some t → in_barrier t' = in_barrier t → serial_pc t' = serial_pc t →
  (outer_thread (current_day s) (announced s) t → outer_thread (current_day s) (announced s) t') →
  (∀ b, inner_thread b (current_day s) (announced s) t → inner_thread b (current_day s) (announced s) t') →
  ∀ g, day_inv n (mk_wsys g (arrived s) (current_day s) (shutdown_signal s) (<[i := t']> (threads s)) (announced s)).
Proof.
  intros [Hl Ha Hp] Ht Hb Hs Ho Hi g.
  pose proof (count_insert in_barrier _ _ _ t' Ht) as Hc1. pose proof (count_insert serial_pc _ _ _ t' Ht) as Hc2. rewrite Hb in Hc1. rewrite Hs in Hc2.
  split; cbn [threads arrived current_day announced]; [by rewrite length_insert|lia|].
  destruct Hp as [Hp|(b & Hp & Hserial)]; [left|right; exists b; split; [|lia]]; apply Forall_insert; try done;
    rewrite list.Forall_lookup in Hp; by eauto.
Qed.

Lemma worker_step_inv n s s' i e : day_inv n s → worker_thread_step s i e = Some s' → day_inv n s'.
Proof.
  intros Hinv E. unfold worker_thread_step in E. destruct (threads s !! i) as [[pc w]|] eqn:Ht; [|done].
  destruct pc as [last|last|last|last|day shut|day shut| | | |last|]; try done; unfold set_threads in E.
  - injection E as <-. apply (move_inv n s i _ _ Hinv Ht); try done; destruct (g_shutdown s); try done. intros H. unfold outer_thread in *. simpl in *. by rewrite H.
  - injection E as <-. by apply first_barrier_inv.
  - injection E as <-. by apply (move_inv n s i _ _ Hinv Ht).
  - destruct shut; [|destruct e; try done]; injection E as <-; by apply (move_inv n s i _ _ Hinv Ht).
  - injection E as <-. destruct Hinv as [Hl Ha Hp]. pose proof (count_insert in_barrier _ _ _ (mk_thread Arrive2 w) Ht) as Hc1.
    pose proof (count_insert serial_pc _ _ _ (mk_thread Arrive2 w) Ht) as Hc2. simpl in Hc1, Hc2.
    destruct Hp as [Hp|(b & Hp & Hs)]; rewrite list.Forall_lookup in Hp; [by specialize (Hp i _ Ht)|].
    pose proof (Hp i _ Ht) as [-> Hw]. simpl in Hw, Hs.
    split; cbn [threads arrived current_day announced]; [by rewrite length_insert|lia|]. right. exists true. split; [|lia].
    apply list.Forall_lookup. intros j u Hj. apply list_lookup_insert_Some in Hj as [(<- & <- & _)|(Hne & Hj)].
    + unfold inner_thread. simpl. by rewrite Hw.
    + pose proof (Hp j u Hj) as Hu. destruct u as [pu wu]. unfold inner_thread in *. simpl in *.
      assert (serial_pc (mk_thread pu wu) = false) as Hns.
      { destruct (serial_pc (mk_thread pu wu)) eqn:Es; [|done]. exfalso.
        pose proof (count_elem serial_pc (<[i:=mk_thread Arrive2 w]> (threads s)) j (mk_thread pu wu)) as H1.
        rewrite list_lookup_insert_ne in H1 by done. specialize (H1 Hj Es). lia. }
      destruct pu; try done; by rewrite Hu.
  - injection E as <-. by apply second_barrier_inv.
  - injection E as <-. apply (move_inv n s i _ _ Hinv Ht); try done; destruct (g_shutdown s || shutdown_signal s); try done.
    + intros H. unfold outer_thread in *. simpl in *. rewrite H. by apply prefix_app_r.
    + intros H. unfold outer_thread in *. simpl in *. rewrite H. split_and!; [done|done|apply last_snoc].
  - destruct (g_shutdown s); [|destruct e; try done]; injection E as <-; apply (move_inv n s i _ _ Hinv Ht); try done;
      intros H; unfold outer_thread in *; simpl in *; tauto.
Qed.

Lemma worker_reachable_inv n s : worker_reachable n s → day_inv n s.
Proof.
  apply (rtc_ind_r (day_inv n)).
  - split; simpl; [apply length_replicate| |].
    + symmetry. apply count_none. intros i x Hi. by apply lookup_replicate in Hi as [-> _].
    + left. by apply list.Forall_replicate.
  - intros x y _ [? ? i e E|?] Hinv; [by eapply worker_step_inv|]. destruct Hinv as [H1 H2 H3]. by split.
Qed.

(** ** Runs without a signal *)

Definition calm_thread (t : worker_thread) : Prop :=
  match pc_of t with Exit => False | Global _ shut | Update _ shut => shut = false | _ => True end.

Record calm (n : nat) (s : worker_sys) : Prop := mk_calm {
  ca_inv : day_inv n s;
  ca_flag : g_shutdown s = false;
  ca_signal : shutdown_signal s = false;
  ca_threads : Forall calm_thread (threads s);
  ca_room : (arrived s < n)%nat }.

Inductive quiet_step : worker_sys → worker_sys → Prop :=
| quiet_thread s s' i e : worker_thread_step s i e = Some s' → quiet_step s s'.
Definition quiet_reachable (n : nat) (s : worker_sys) : Prop := rtc quiet_step (worker_start n) s.

Lemma barrier_calm n s i w waiting serial release t :
  calm n s → (0 < n)%nat → threads s !! i = Some t → in_barrier t = false →
  calm_thread (mk_thread waiting w) → calm_thread (mk_thread serial w) → (∀ u, calm_thread u → calm_thread (map_pc release u)) →
  let s' := barrier_wait s i w waiting serial release in
  g_shutdown s' = false ∧ shutdown_signal s' = false ∧ Forall calm_thread (threads s') ∧ (arrived s' < n)%nat.
Proof.
  intros [Hinv Hg Hsig Hc Hr] Hn Ht Hb H1 H2 H3. unfold barrier_wait. case_decide as Hd; cbn [g_shutdown shutdown_signal threads arrived].
  - split_and!; [done|done| |done]. apply Forall_insert; [|done]. apply list.Forall_fmap. eapply list.Forall_impl; [exact Hc|]. intros u. apply H3.
  - split_and!; [done|done|by apply Forall_insert|]. destruct Hinv as [Hl Ha _]. rewrite Hl in Hd. lia.
Qed.

Lemma quiet_calm n s : (0 < n)%nat → quiet_reachable n s → calm n s.
Proof.
  intros Hn. apply (rtc_ind_r (calm n)).
  { split; try done; [apply (worker_reachable_inv n), rtc_refl|]. by apply list.Forall_replicate. }
  intros x y _ [s0 s' i e E] Hcalm. pose proof (worker_step_inv n _ _ _ _ (ca_inv _ _ Hcalm) E) as Hinv'.
  unfold worker_thread_step in E. destruct (threads s0 !! i) as [[pc w]|] eqn:Ht; [|done].
  pose proof Hcalm as [Hinv Hg Hsig Hc Hr]. pose proof Hc as Hall. rewrite list.Forall_lookup in Hall. specialize (Hall i _ Ht).
  unfold calm_thread in Hall. simpl in Hall. unfold set_threads in E. rewrite Hg, ?Hsig in E.
  assert (∀ u, calm_thread u → calm_thread (map_pc release1 u)) as Hr1 by (intros [[] ?]; done).
  assert (∀ u, calm_thread u → calm_thread (map_pc release2 u)) as Hr2 by (intros [[] ?]; done).
  destruct pc as [last|last|last|last|day shut|day shut| | | |last|]; try done.
  - injection E as <-. split; try done. by apply Forall_insert.
  - injection E as <-. destruct (barrier_calm n s0 i w (In1 last) (Sync last) release1 _ Hcalm Hn Ht) as (? & ? & ? & ?); done.
  - injection E as <-. split; try done. by apply Forall_insert.
  - subst shut. destruct e; try done. injection E as <-. split; try done. by apply Forall_insert.
  - injection E as <-. subst shut. split; try done. by apply Forall_insert.
  - injection E as <-. destruct (barrier_calm n s0 i w In2 Post2 release2 _ Hcalm Hn Ht) as (? & ? & ? & ?); done.
  - injection E as <-. split; try done. simpl. by apply Forall_insert.
  - destruct e; try done. injection E as <-. split; try done. by apply Forall_insert.
Qed.

(** Some thread is not waiting in the barrier. *)
Lemma calm_moves n s : calm n s → ∃ i e s', worker_thread_step s i e = Some s'.
Proof.
  intros [[Hl Ha _] Hg Hsig Hc Hr].
  assert (∃ i t, threads s !! i = Some t ∧ in_barrier t = false) as (i & [pc w] & Ht & Hb).
  { apply count_lack. lia. }
  rewrite list.Forall_lookup in Hc. specialize (Hc i _ Ht). unfold calm_thread in Hc. simpl in Hc.
  unfold worker_thread_step. destruct pc as [last|last|last|last|day shut|day shut| | | |last|]; try done.
  all: try (exists i, Nothing; rewrite Ht; by eauto).
  - exists i, (DayStarts day). rewrite Ht, Hc. eauto.
  - exists i, DayEnds. rewrite Ht, Hg. eauto.
Qed.

(** ** Properties *)

(** C16. All worker threads work the same days: in every interleaving, with shutdown
    signals at any time, each thread has worked an initial part of the days the
    process was given, at most one behind unless it has ended; a thread at work
    has the current day, has worked every day before it, and never works while
    another thread is in the global day barrier. *)
Theorem worker_threads_agree (n : nat) (s : worker_sys) :
  worker_reachable n s → ∀ i t, threads s !! i = Some t →
  worked t `prefix_of` announced s ∧
  (pc_of t ≠ Exit → (length (announced s) <= length (worked t) + 1)%nat) ∧
  ∀ d, pc_of t = Working d →
    d = current_day s ∧ worked t = announced s ∧ list.last (announced s) = Some d ∧
    ∀ j u, threads s !! j = Some u → serial_pc u = false.
Proof.
  intros Hr i t Ht. apply worker_reachable_inv in Hr as [_ _ Hp].
  destruct Hp as [Hp|(b & Hp & _)]; rewrite list.Forall_lookup in Hp; pose proof (Hp i t Ht) as Hi; destruct t as [pc w].
  - unfold outer_thread in Hi. simpl in *.
    assert (∀ j u, threads s !! j = Some u → serial_pc u = false) as Hser.
    { intros j [pu wu] Hj. specialize (Hp j _ Hj). unfold outer_thread, serial_pc in *. simpl in *. by destruct pu. }
    destruct pc; try done; try (subst w; split_and!; [done|lia|done]).
    + rewrite Hi. split_and!; [by apply prefix_app_r|intros _; rewrite length_app; simpl; lia|done].
    + destruct Hi as (-> & -> & Hlast). split_and!; [done|lia|]. by intros d [= <-].
  - unfold inner_thread in Hi. simpl in *. destruct pc; try done; try (destruct Hi as [_ ->]; split_and!; [done|lia|done]).
    all: destruct b; [rewrite Hi; split_and!; [by apply prefix_app_r|intros _; rewrite length_app; simpl; lia|done]|subst w; split_and!; [done|lia|done]].
Qed.

(** Schedules: a thread with the outside's choice, or the signal. *)
Fixpoint worker_exec (l : list (option (nat * outside))) (s : worker_sys) : option worker_sys :=
  match l with
  | [] => Some s
  | Some (i, e) :: l => worker_thread_step s i e ≫= worker_exec l
  | None :: l => worker_exec l (on_sig s)
  end.

Lemma worker_exec_reachable n l s : worker_exec l (worker_start n) = Some s → worker_reachable n s.
Proof.
  unfold worker_reachable. generalize (worker_start n) as s0. induction l as [|[[i e]|] l IH]; intros s0 E; simpl in E.
  - by injection E as ->.
  - destruct (worker_thread_step s0 i e) as [s1|] eqn:Es; [|done]. eapply rtc_l; [by eapply worker_runs|by apply IH].
  - eapply rtc_l; [by apply worker_signal|by apply IH].
Qed.

Definition by_thread (i : nat) : option (nat * outside) := Some (i, Nothing).

(** Two threads through the barriers into day 1. *)
Definition into_day_one : list (option (nat * outside)) :=
  [by_thread 0; by_thread 0; by_thread 1; by_thread 1; by_thread 1; Some (1%nat, DayStarts 1); by_thread 1; by_thread 0; by_thread 1; by_thread 0].

Lemma worker_threads_agree_witness :
  ∃ s t, worker_exec into_day_one (worker_start 2) = Some s ∧ threads s !! 0%nat = Some t ∧ pc_of t = Working 1 ∧ worked t = [1] ∧ current_day s = 1.
Proof.
  destruct (worker_exec into_day_one (worker_start 2)) as [s|] eqn:E; [|vm_compute in E; discriminate E].
  destruct (threads s !! 0%nat) as [t|] eqn:Et; [|vm_compute in E; injection E as <-; discriminate Et].
  assert (pc_of t = Working 1) as Hpc by (vm_compute in E; injection E as <-; vm_compute in Et; injection Et as <-; reflexivity).
  destruct (worker_threads_agree 2 s (worker_exec_reachable _ _ _ E) 0 t Et) as (_ & _ & H). destruct (H 1 Hpc) as (H1 & H2 & _).
  exists s, t. split; [reflexivity|]. split; [exact Et|]. split; [exact Hpc|]. split; [|symmetry; exact H1].
  rewrite H2. vm_compute in E. injection E as <-. reflexivity.
Defined.

(** Shutdown by the day barrier is safe, by signal it is not: as long as no
    signal arrives, some thread of the process can always go on; but a signal
    between the loop tests of two threads leaves one of them in the local barrier
    forever, and a signal while the serial thread is in the day barrier is not
    seen there, since it polls a copy of the flag. *)
Theorem worker_shutdown_signal_hangs :
  (∀ n s, (0 < n)%nat → quiet_reachable n s → ∃ i e s', worker_thread_step s i e = Some s') ∧
  (∃ s, worker_reachable 2 s ∧ g_shutdown s = true ∧ (pc_of <$> threads s) = [In1 0; Exit] ∧
     on_sig s = s ∧ ∀ i e, worker_thread_step s i e = None) ∧
  (∃ s, worker_reachable 2 s ∧ g_shutdown s = true ∧ (pc_of <$> threads s) = [In2; Global 0 false] ∧
     on_sig s = s ∧ ∀ i e, (∀ d, e ≠ DayStarts d) → worker_thread_step s i e = None).
Proof.
  split_and!.
  - intros n s Hn Hq. by eapply calm_moves, quiet_calm.
  - destruct (worker_exec [by_thread 0; by_thread 0; None; by_thread 1] (worker_start 2)) as [s|] eqn:E; [|vm_compute in E; discriminate E].
    exists s. split; [by eapply worker_exec_reachable|]. vm_compute in E. injection E as <-. split_and!; try done.
    intros [|[|i]] e; done.
  - destruct (worker_exec [by_thread 0; by_thread 0; by_thread 1; by_thread 1; by_thread 1; by_thread 0; None] (worker_start 2)) as [s|] eqn:E;
      [|vm_compute in E; discriminate E].
    exists s. split; [by eapply worker_exec_reachable|]. vm_compute in E. injection E as <-. split_and!; try done.
    intros [|[|i]] [|d|] He; try done. by destruct (He d).
Qed.

Lemma worker_shutdown_signal_hangs_witness : ∃ i e s', worker_thread_step (worker_start 3) i e = Some s'.
Proof.
  destruct worker_shutdown_signal_hangs as [H _]. apply (H 3%nat (worker_start 3)); [lia|apply rtc_refl].
Defined.
