(* ===== verification/Users.v ===== *)
(** * The users manager ([users_manager/spawn/users_spawn.c], [users_manager.c])

    User slots, the population count and the pool tasks that run the users, as
    interleaved atomic steps: the manager claims a slot, counts and submits a task,
    or tells users to stop; the tasks connect, run, disconnect, free their slot and
    count themselves out. Then the manager's population control and the loop of a
    user. *)

From Stdlib Require Import ZArith Lia.
From stdpp Require Import base list numbers relations.
From S2P Require Import Prelude.

Local Open Scope Z_scope.

(** ** State *)

Definition MAX_USER_CAPACITY : nat := 2000.

(** [user_slot_t]. *)
Record user_slot_t : Type := mk_slot { is_occupied : bool; should_continue_running : bool }.

(** Where a task is: in the pool's queue, in the user's loop, after it, with its
    slot freed, counted out. *)
Inductive user_pc : Type := UQueued | URunning | ULeft | UReleased | UEnded.

Record user_task : Type := mk_task { ut_slot : nat; ut_pc : user_pc }.

(** Where the manager is: between calls; in [users_spawn_new] (looking for a slot
    from an index on, having claimed one, with the flag set, with memory, counted,
    rolling back); in [users_spawn_stop_random] below an index. *)
Inductive manager_pc : Type :=
| Idle
| Scan (i : nat)
| Claimed (slot : nat)
| Flagged (slot : nat)
| Allocated (slot : nat)
| Counted (slot : nat)
| Uncount (slot : nat)
| Unclaim (slot : nat)
| StopScan (i : nat).

(** The slots, the wait group's count, the tasks, the number of connected users,
    and whether the branch for a missing slot was taken. *)
Record users_sys : Type := mk_users {
  slots_of : list user_slot_t;
  population : Z;
  pool : list user_task;
  connected : Z;
  manager : manager_pc;
  mismatch : bool }.

Definition set_slots (l : list user_slot_t) (s : users_sys) := mk_users l (population s) (pool s) (connected s) (manager s) (mismatch s).
Definition set_manager (m : manager_pc) (s : users_sys) := mk_users (slots_of s) (population s) (pool s) (connected s) m (mismatch s).
Definition set_population (n : Z) (s : users_sys) := mk_users (slots_of s) (i32 n) (pool s) (connected s) (manager s) (mismatch s).

Definition occupy (b : bool) (sl : user_slot_t) : user_slot_t := mk_slot b (should_continue_running sl).
Definition continue_flag (b : bool) (sl : user_slot_t) : user_slot_t := mk_slot (is_occupied sl) b.

(** ** Steps *)

(** A step of [execute_user_simulation] in task [k]. *)
Definition user_task_step (s : users_sys) (k : nat) : option users_sys :=
  match pool s !! k with
  | None => None
  | Some (mk_task slot pc) =>
      let go pc s := mk_users (slots_of s) (population s) (<[k := mk_task slot pc]> (pool s)) (connected s) (manager s) (mismatch s) in
      match pc with
      | UQueued => Some (go URunning (mk_users (slots_of s) (population s) (pool s) (u32 (connected s + 1)) (manager s) (mismatch s)))
      | URunning => Some (go ULeft (mk_users (slots_of s) (population s) (pool s) (u32 (connected s - 1)) (manager s) (mismatch s)))
      | ULeft => Some (go UReleased (set_slots (alter (occupy false) slot (slots_of s)) s))
      | UReleased => Some (go UEnded (set_population (population s - 1) s))
      | UEnded => None
      end
  end.

(** A step of the manager's thread; [ok] is the outcome of an allocation or a
    submission, [spawn] says which function it calls next. *)
Definition manager_step (s : users_sys) (ok spawn : bool) : option users_sys :=
  match manager s with
  | Idle =>
      if spawn then
        if Z.of_nat (length (slots_of s)) <=? population s then Some s
        else Some (set_manager (Scan 0) s)
      else Some (set_manager (StopScan (length (slots_of s))) s)
  | Scan i =>
      match slots_of s !! i with
      | None => Some (mk_users (slots_of s) (population s) (pool s) (connected s) Idle true)
      | Some sl =>
          if is_occupied sl then Some (set_manager (Scan (S i)) s)
          else Some (set_manager (Claimed i) (set_slots (alter (occupy true) i (slots_of s)) s))
      end
  | Claimed slot => Some (set_manager (Flagged slot) (set_slots (alter (continue_flag true) slot (slots_of s)) s))
  | Flagged slot =>
      if ok then Some (set_manager (Allocated slot) s)
      else Some (set_manager Idle (set_slots (alter (occupy false) slot (slots_of s)) s))
  | Allocated slot => Some (set_manager (Counted slot) (set_population (population s + 1) s))
  | Counted slot =>
      if ok then Some (mk_users (slots_of s) (population s) (pool s ++ [mk_task slot UQueued]) (connected s) Idle (mismatch s))
      else Some (set_manager (Uncount slot) s)
  | Uncount slot => Some (set_manager (Unclaim slot) (set_population (population s - 1) s))
  | Unclaim slot => Some (set_manager Idle (set_slots (alter (occupy false) slot (slots_of s)) s))
  | StopScan O => Some (set_manager Idle s)
  | StopScan (S i) =>
      match slots_of s !! i with
      | Some sl =>
          if is_occupied sl && should_continue_running sl
          then Some (set_manager Idle (set_slots (alter (continue_flag false) i (slots_of s)) s))
          else Some (set_manager (StopScan i) s)
      | None => None
      end
  end.

Inductive users_step : users_sys → users_sys → Prop :=
| users_task s s' k : user_task_step s k = Some s' → users_step s s'
| users_manager s s' ok spawn : manager_step s ok spawn = Some s' → users_step s s'.

(** [users_spawn_init] with a capacity. *)
Definition users_spawn_init (cap : nat) : users_sys := mk_users (replicate cap (mk_slot false false)) 0 [] 0 Idle false.
Definition users_reachable (cap : nat) (s : users_sys) : Prop := rtc users_step (users_spawn_init cap) s.

(** ** Invariant *)

(** A task holds its slot until it frees it, and is counted until it ends. *)
Definition owns (t : user_task) : bool := match ut_pc t with UQueued | URunning | ULeft => true | _ => false end.
Definition counted_in (t : user_task) : bool := match ut_pc t with UEnded => false | _ => true end.
Definition in_loop (t : user_task) : bool := match ut_pc t with URunning => true | _ => false end.

Definition manager_slot (m : manager_pc) : option nat :=
  match m with Claimed i | Flagged i | Allocated i | Counted i | Uncount i | Unclaim i => Some i | _ => None end.
Definition manager_counted (m : manager_pc) : Z := match m with Counted _ | Uncount _ => 1 | _ => 0 end.
Definition spawning (m : manager_pc) : bool := match m with Scan _ | Claimed _ | Flagged _ | Allocated _ => true | _ => false end.

Definition occupied_at (s : users_sys) (j : nat) : Prop := is_occupied <$> slots_of s !! j = Some true.
Global Instance occupied_at_dec s j : Decision (occupied_at s j).
Proof. unfold occupied_at. apply _. Defined.

(** Who owns a slot: at most one task or the manager. *)
Definition owner (s : users_sys) (o : option nat) (j : nat) : Prop :=
  match o with
  | Some k => ∃ t, pool s !! k = Some t ∧ owns t = true ∧ ut_slot t = j
  | None => manager_slot (manager s) = Some j
  end.

(** Every occupied slot has one owner, and owners have one slot. *)
Record consistent (own : option nat → nat → Prop) (occ : nat → Prop) : Prop := mk_consistent {
  co_unique : ∀ o o' j, own o j → own o' j → o = o';
  co_slot : ∀ o j j', own o j → own o j' → j = j';
  co_occupied : ∀ j, occ j ↔ ∃ o, own o j }.

Record users_inv (cap : nat) (s : users_sys) : Prop := mk_users_inv {
  ui_length : length (slots_of s) = cap;
  ui_slots : consistent (owner s) (occupied_at s);
  ui_population : population s = count_if counted_in (pool s) + manager_counted (manager s);
  ui_connected : connected s = count_if in_loop (pool s);
  ui_room : population s <= Z.of_nat cap ∧ (spawning (manager s) = true → population s < Z.of_nat cap);
  ui_scan : ∀ i, manager s = Scan i → ∃ j, (i <= j < cap)%nat ∧ ¬ occupied_at s j;
  ui_mismatch : mismatch s = false }.

(** How ownership changes: not at all, by release, by claim, by hand-over. *)
Lemma consistent_same own occ own' occ' :
  consistent own occ → (∀ o j, own' o j ↔ own o j) → (∀ j, occ' j ↔ occ j) → consistent own' occ'.
Proof.
  intros [H1 H2 H3] Ho Hc. split.
  - intros o o' j A B. apply Ho in A, B. by eapply H1.
  - intros o j j' A B. apply Ho in A, B. by eapply H2.
  - intros j. rewrite Hc, H3. split; intros [o H]; exists o; by apply Ho.
Qed.

Lemma consistent_release own occ own' occ' o0 j0 :
  consistent own occ → own o0 j0 → (∀ o j, own' o j ↔ own o j ∧ o ≠ o0) → (∀ j, occ' j ↔ occ j ∧ j ≠ j0) → consistent own' occ'.
Proof.
  intros [H1 H2 H3] H0 Ho Hc. split.
  - intros o o' j A B. apply Ho in A as [A _], B as [B _]. by eapply H1.
  - intros o j j' A B. apply Ho in A as [A _], B as [B _]. by eapply H2.
  - intros j. rewrite Hc, H3. split.
    + intros [[o H] Hj]. exists o. apply Ho. split; [done|]. intros ->. by apply Hj, (H2 o0).
    + intros [o H]. apply Ho in H as [H Hne]. split; [by exists o|]. intros ->. by apply Hne, (H1 _ _ j0).
Qed.

Lemma consistent_claim own occ own' occ' o0 j0 :
  consistent own occ → ¬ occ j0 → (∀ j, ¬ own o0 j) →
  (∀ o j, own' o j ↔ own o j ∨ o = o0 ∧ j = j0) → (∀ j, occ' j ↔ occ j ∨ j = j0) → consistent own' occ'.
Proof.
  intros [H1 H2 H3] Hn0 Hno Ho Hc. rewrite H3 in Hn0. split.
  - intros o o' j A B. apply Ho in A, B. destruct A as [A|[-> ->]], B as [B|[-> E]]; [by eapply H1| | |done].
    + subst j. destruct Hn0. by exists o.
    + destruct Hn0. by exists o'.
  - intros o j j' A B. apply Ho in A, B. destruct A as [A|[-> ->]], B as [B|[E ->]]; [by eapply H2| | |done].
    + subst o. by destruct (Hno j).
    + by destruct (Hno j').
  - intros j. rewrite Hc, H3. split.
    + intros [[o H]| ->]; [exists o|exists o0]; apply Ho; auto.
    + intros [o H]. apply Ho in H as [H|[-> ->]]; [left; by exists o|by right].
Qed.

Lemma consistent_transfer own occ own' occ' o0 o1 :
  consistent own occ → (∀ j, ¬ own o1 j) → o0 ≠ o1 →
  (∀ o j, own' o j ↔ own o j ∧ o ≠ o0 ∨ o = o1 ∧ own o0 j) → (∀ j, occ' j ↔ occ j) → consistent own' occ'.
Proof.
  intros [H1 H2 H3] Hn1 Hne Ho Hc. split.
  - intros o o' j A B. apply Ho in A, B. destruct A as [[A ?]|[-> A]], B as [[B ?]|[-> B]]; [by eapply H1| | |done].
    + by assert (o = o0) by by eapply H1.
    + by assert (o' = o0) by by eapply H1.
  - intros o j j' A B. apply Ho in A, B. destruct A as [[A ?]|[-> A]], B as [[B ?]|[E B]]; try by eapply H2.
    + subst o. by destruct (Hn1 j).
    + by destruct (Hn1 j').
  - intros j. rewrite Hc, H3. split.
    + intros [o H]. destruct (decide (o = o0)) as [->|Hno]; [exists o1|exists o]; apply Ho; auto.
    + intros [o H]. apply Ho in H as [[H _]|[_ H]]; eauto.
Qed.

Lemma occupied_alter (l : list user_slot_t) f (i j : nat) :
  is_occupied <$> alter f i l !! j = Some true ↔
  if decide (j = i) then is_occupied ∘ f <$> l !! i = Some true else is_occupied <$> l !! j = Some true.
Proof.
  case_decide as E; [subst j; rewrite list_lookup_alter_eq|by rewrite list_lookup_alter_ne]. by destruct (l !! i).
Qed.

Lemma occupied_flag (l : list user_slot_t) b (i j : nat) :
  is_occupied <$> alter (continue_flag b) i l !! j = Some true ↔ is_occupied <$> l !! j = Some true.
Proof. rewrite occupied_alter. case_decide as E; [subst j|done]. by destruct (l !! i). Qed.

Lemma occupied_free (l : list user_slot_t) (i j : nat) :
  is_occupied <$> alter (occupy false) i l !! j = Some true ↔ is_occupied <$> l !! j = Some true ∧ j ≠ i.
Proof. rewrite occupied_alter. case_decide as E; [subst j|by intuition]. destruct (l !! i); simpl; intuition congruence. Qed.

Lemma occupied_take (l : list user_slot_t) (i j : nat) :
  (i < length l)%nat → is_occupied <$> alter (occupy true) i l !! j = Some true ↔ is_occupied <$> l !! j = Some true ∨ j = i.
Proof.
  intros Hi. rewrite occupied_alter. case_decide as E; [subst j|by intuition]. destruct (lookup_lt_is_Some_2 l i Hi) as [x ->]. simpl. intuition.
Qed.

Lemma owner_moved s s' k t t' :
  pool s !! k = Some t → pool s' = <[k := t']> (pool s) → manager s' = manager s → ut_slot t' = ut_slot t → owns t' = owns t →
  ∀ o j, owner s' o j ↔ owner s o j.
Proof.
  intros Hk Hp Hm Hs Ho [k'|] j; simpl; [|by rewrite Hm]. rewrite Hp. destruct (decide (k' = k)) as [->|Hne].
  - rewrite list_lookup_insert_eq by by eapply lookup_lt_Some. rewrite Hk. split; intros (u & [= <-] & ? & ?); eexists; split; try done; split; congruence.
  - by rewrite list_lookup_insert_ne.
Qed.

Lemma owner_released s s' k t t' :
  pool s !! k = Some t → pool s' = <[k := t']> (pool s) → manager s' = manager s → owns t' = false →
  ∀ o j, owner s' o j ↔ owner s o j ∧ o ≠ Some k.
Proof.
  intros Hk Hp Hm Ho [k'|] j; simpl; [|rewrite Hm; by intuition]. rewrite Hp. destruct (decide (k' = k)) as [->|Hne].
  - rewrite list_lookup_insert_eq by by eapply lookup_lt_Some. split; [intros (u & [= <-] & ? & _); congruence|intros [_ ?]; done].
  - rewrite list_lookup_insert_ne by done. split; [intros H; split; [done|congruence]|by intros [? _]].
Qed.

Lemma owner_manager s s' :
  pool s' = pool s → manager_slot (manager s') = manager_slot (manager s) → ∀ o j, owner s' o j ↔ owner s o j.
Proof. intros Hp Hm [k|] j; simpl; [by rewrite Hp|by rewrite Hm]. Qed.

(** When the count is below the capacity some slot is free: every occupied slot
    has a task that is still counted. *)
Lemma free_slot cap s :
  users_inv cap s → manager_slot (manager s) = None → population s < Z.of_nat cap → ∃ j, (j < cap)%nat ∧ ¬ occupied_at s j.
Proof.
  intros Hinv Hm Hlt.
  destruct (decide (Exists (λ j, ¬ occupied_at s j) (seq 0 cap))) as [He|He].
  { apply list.Exists_exists in He as (j & Hj & Ho). apply elem_of_seq in Hj. exists j. split; [lia|done]. }
  exfalso. apply not_Exists_Forall in He; [|apply _].
  assert (seq 0 cap ⊆+ ut_slot <$> filter (λ t, owns t = true) (pool s)) as Hsub.
  { apply NoDup_submseteq; [apply NoDup_seq|]. intros j Hj. rewrite list.Forall_forall in He. specialize (He j Hj).
    apply dec_stable in He. apply (co_occupied _ _ (ui_slots _ _ Hinv)) in He as [[k|] Ho]; simpl in Ho; [|congruence].
    destruct Ho as (t & Hk & Hown & <-). apply list_elem_of_fmap. exists t. split; [done|]. apply list_elem_of_filter. split; [done|].
    by eapply list_elem_of_lookup_2. }
  apply submseteq_length in Hsub. rewrite length_seq, length_fmap in Hsub.
  assert (Z.of_nat (length (filter (λ t, owns t = true) (pool s))) <= count_if counted_in (pool s)) as Hle.
  { generalize (pool s) as l. induction l as [|t l IH]; [done|]. destruct t as [sl pc].
    destruct (decide (owns (mk_task sl pc) = true)) as [Ho|Ho]; [rewrite filter_cons_True by done|rewrite filter_cons_False by done]; simpl;
      destruct pc; simpl in *; try done; lia. }
  pose proof (ui_population _ _ Hinv). assert (0 <= manager_counted (manager s)) by (destruct (manager s); done). lia.
Qed.

Lemma loop_counted l : count_if in_loop l <= count_if counted_in l.
Proof. induction l as [|[sl pc] l IH]; simpl; [done|]. destruct pc; simpl; lia. Qed.

Lemma task_step_inv cap s s' k :
  Z.of_nat cap < 2 ^ 31 → users_inv cap s → user_task_step s k = Some s' → users_inv cap s'.
Proof.
  intros Hcap [Hl Hs Hp Hc Hr Hsc Hmm] E. unfold user_task_step in E. destruct (pool s !! k) as [[slot pc]|] eqn:Hk; [|done].
  pose proof (loop_counted (pool s)) as Hle. pose proof (count_bounds in_loop (pool s)) as Hb.
  assert (0 <= manager_counted (manager s)) as Hm0 by by destruct (manager s).
  assert (∀ pc', count_if counted_in (<[k := mk_task slot pc']> (pool s)) =
    count_if counted_in (pool s) - (if counted_in (mk_task slot pc) then 1 else 0) + (if counted_in (mk_task slot pc') then 1 else 0)) as Hcnt
    by (intros; by apply count_insert).
  assert (∀ pc', count_if in_loop (<[k := mk_task slot pc']> (pool s)) =
    count_if in_loop (pool s) - (if in_loop (mk_task slot pc) then 1 else 0) + (if in_loop (mk_task slot pc') then 1 else 0)) as Hloop
    by (intros; by apply count_insert).
  assert (∀ s'', pool s'' = <[k := mk_task slot URunning]> (pool s) ∨ pool s'' = <[k := mk_task slot ULeft]> (pool s) →
    manager s'' = manager s → owns (mk_task slot pc) = true → ∀ o j, owner s'' o j ↔ owner s o j) as Hmove.
  { intros s'' [Hp''|Hp''] Hm'' Ho o j; by eapply owner_moved. }
  destruct pc; try done; injection E as <-; simpl in Hcnt, Hloop;
    unfold set_slots, set_population; cbn [slots_of population pool connected manager mismatch] in *.
  - specialize (Hcnt URunning). specialize (Hloop URunning). simpl in *. split; cbn [slots_of population pool connected manager mismatch]; try done; try lia.
    + eapply consistent_same; [done|apply Hmove; by auto|done].
    + rewrite u32_small; lia.
  - specialize (Hcnt ULeft). specialize (Hloop ULeft). simpl in *. pose proof (count_elem in_loop (pool s) k _ Hk eq_refl).
    split; cbn [slots_of population pool connected manager mismatch]; try done; try lia.
    + eapply consistent_same; [done|apply Hmove; by auto|done].
    + rewrite u32_small; lia.
  - specialize (Hcnt UReleased). specialize (Hloop UReleased). simpl in *. split; cbn [slots_of population pool connected manager mismatch]; try done; try lia.
    + by rewrite length_alter.
    + eapply (consistent_release _ _ _ _ (Some k) slot); [done|by exists (mk_task slot ULeft)|by eapply owner_released|].
      intros j. apply occupied_free.
    + intros i Ei. destruct (Hsc i Ei) as (j & Hj & Hn). exists j. split; [done|]. unfold occupied_at. simpl. rewrite occupied_free. by intros [? _].
  - specialize (Hcnt UEnded). specialize (Hloop UEnded). simpl in *. pose proof (count_elem counted_in (pool s) k _ Hk eq_refl).
    assert (i32 (population s - 1) = population s - 1) as Hz by (unfold i32; apply signed_small; lia).
    split; cbn [slots_of population pool connected manager mismatch]; rewrite ?Hz; try done; try lia.
    eapply consistent_same; [done| |done]. intros o j. eapply owner_moved; done.
Qed.

(** A submitted task takes over the manager's slot. *)
Lemma submit_consistent s slot s' :
  manager s = Counted slot → consistent (owner s) (occupied_at s) →
  slots_of s' = slots_of s → pool s' = pool s ++ [mk_task slot UQueued] → manager s' = Idle → consistent (owner s') (occupied_at s').
Proof.
  intros Em Hs Hsl Hp Hm. eapply (consistent_transfer _ _ _ _ None (Some (length (pool s)))); [done| |done| |].
  - intros j (t & Ht & _). apply lookup_lt_Some in Ht. lia.
  - intros [k|] j; unfold owner; rewrite ?Hp, ?Hm, ?Em.
    + split.
      * intros (t & Ht & Ho & Hj). apply lookup_snoc_Some in Ht as [[Hlt Ht]|[-> <-]]; [left; split; [eauto|done]|right]. by subst j.
      * intros [[(t & Ht & Ho & Hj) _]|[[= ->] Hsm]]; [exists t; split; [by apply lookup_app_l_Some|done]|].
        injection Hsm as <-. exists (mk_task slot UQueued). split; [|done]. by rewrite lookup_app_r, Nat.sub_diag by lia.
    + split; [done|]. intros [[_ ?]|[? _]]; done.
  - intros j. unfold occupied_at. by rewrite Hsl.
Qed.

Lemma manager_step_inv cap s s' ok spawn :
  Z.of_nat cap < 2 ^ 31 → users_inv cap s → manager_step s ok spawn = Some s' → users_inv cap s'.
Proof.
  intros Hcap Hinv E. pose proof Hinv as [Hl Hs Hp Hc Hr Hsc Hmm]. unfold manager_step in E.
  pose proof (count_bounds counted_in (pool s)) as Hb.
  assert (∀ m, manager_slot m = manager_slot (manager s) → consistent (owner (set_manager m s)) (occupied_at s)) as Hkeep.
  { intros m Hm. eapply consistent_same; [done|by apply owner_manager|done]. }
  destruct (manager s) as [|i|i|i|i|i|i|i|[|i]] eqn:Em; unfold set_manager, set_slots, set_population in *; cbn [slots_of population pool connected manager mismatch spawning manager_counted manager_slot] in *.
  - destruct spawn.
    + destruct (Z.leb_spec (Z.of_nat (length (slots_of s))) (population s)); injection E as <-; [done|].
      split; cbn [slots_of population pool connected manager mismatch spawning manager_counted]; try done; try lia; [by apply Hkeep|].
      intros i [= <-]. destruct (free_slot cap s Hinv) as (j & Hj & Ho); [by rewrite Em|lia|]. exists j. split; [lia|done].
    + injection E as <-. split; cbn [slots_of population pool connected manager mismatch spawning manager_counted]; try done. by apply Hkeep.
  - destruct (slots_of s !! i) as [sl|] eqn:Hi.
    + destruct (is_occupied sl) eqn:Ho; injection E as <-.
      * split; cbn [slots_of population pool connected manager mismatch spawning manager_counted]; try done; [by apply Hkeep|].
        intros i' [= <-]. destruct (Hsc i eq_refl) as (j & Hj & Hn). exists j. split; [|done].
        assert (j ≠ i); [|lia]. intros ->. apply Hn. unfold occupied_at. rewrite Hi. simpl. by rewrite Ho.
      * split; cbn [slots_of population pool connected manager mismatch spawning manager_counted]; try done; [by rewrite length_alter|].
        eapply (consistent_claim _ _ _ _ None i); [done| | | |].
        -- unfold occupied_at. rewrite Hi. simpl. congruence.
        -- intros j. simpl. by rewrite Em.
        -- intros [k|] j; simpl; [by intuition|]. rewrite Em. simpl. intuition congruence.
        -- intros j. apply occupied_take. by eapply lookup_lt_Some.
    + exfalso. destruct (Hsc i eq_refl) as (j & Hj & _). apply lookup_ge_None in Hi. lia.
  - injection E as <-. split; cbn [slots_of population pool connected manager mismatch spawning manager_counted]; try done; [by rewrite length_alter|].
    eapply consistent_same; [done|apply owner_manager; [done|by rewrite Em]|]. intros j. apply occupied_flag.
  - destruct ok; injection E as <-; split; cbn [slots_of population pool connected manager mismatch spawning manager_counted]; try done; try lia; [by apply Hkeep|by rewrite length_alter|].
    eapply (consistent_release _ _ _ _ None i); [done|simpl; by rewrite Em| |intros j; apply occupied_free].
    intros [k|] j; simpl; [by intuition congruence|]. split; [done|by intros [_ ?]].
  - injection E as <-. assert (i32 (population s + 1) = population s + 1) as Hz by (unfold i32; apply signed_small; lia).
    split; cbn [slots_of population pool connected manager mismatch spawning manager_counted]; rewrite ?Hz; try done; try lia. by apply Hkeep.
  - destruct ok; injection E as <-; split; cbn [slots_of population pool connected manager mismatch spawning manager_counted]; try done; try lia.
    + by apply (submit_consistent s i).
    + rewrite count_app. simpl. lia.
    + rewrite count_app. simpl. lia.
    + by apply Hkeep.
  - injection E as <-. assert (i32 (population s - 1) = population s - 1) as Hz by (unfold i32; apply signed_small; lia).
    split; cbn [slots_of population pool connected manager mismatch spawning manager_counted]; rewrite ?Hz; try done; try lia. by apply Hkeep.
  - injection E as <-. split; cbn [slots_of population pool connected manager mismatch spawning manager_counted]; try done; [by rewrite length_alter|].
    eapply (consistent_release _ _ _ _ None i); [done|simpl; by rewrite Em| |intros j; apply occupied_free].
    intros [k|] j; simpl; [by intuition congruence|]. split; [done|by intros [_ ?]].
  - injection E as <-. split; cbn [slots_of population pool connected manager mismatch spawning manager_counted]; try done. by apply Hkeep.
  - destruct (slots_of s !! i) as [sl|]; [|done]. destruct (is_occupied sl && should_continue_running sl); injection E as <-;
      split; cbn [slots_of population pool connected manager mismatch spawning manager_counted]; try done; [by rewrite length_alter| |by apply Hkeep].
    eapply consistent_same; [done|apply owner_manager; [done|by rewrite Em]|]. intros j. apply occupied_flag.
Qed.

Lemma users_reachable_inv cap s : Z.of_nat cap < 2 ^ 31 → users_reachable cap s → users_inv cap s.
Proof.
  intros Hcap. apply (rtc_ind_r (users_inv cap)).
  - split; simpl; try done; [apply length_replicate| |lia].
    split; [intros [?|] [?|] j; simpl; try done; by intros (? & ? & _)|intros [?|] ? ?; simpl; try done; by intros (? & ? & _)|].
    intros j. unfold occupied_at. simpl. split.
    + destruct (replicate cap (mk_slot false false) !! j) as [sl|] eqn:E; [|done]. by apply lookup_replicate in E as [-> _].
    + intros [[k|] H]; simpl in H; [|done]. by destruct H as (? & ? & _).
  - intros x y _ [? ? k E|? ? ok spawn E] H; [by eapply task_step_inv|by eapply manager_step_inv].
Qed.

(** ** Population control *)

(** The manager's functions between departures: the first free slot is taken, and
    the highest user that was not told to stop is. *)
Fixpoint first_free (l : list user_slot_t) : option nat :=
  match l with
  | [] => None
  | sl :: l => if is_occupied sl then S <$> first_free l else Some O
  end.
Definition users_spawn_count (l : list user_slot_t) : Z := count_if is_occupied l.
Definition users_spawn_new (l : list user_slot_t) : list user_slot_t :=
  if Z.of_nat (length l) <=? users_spawn_count l then l
  else match first_free l with Some i => alter (λ sl, continue_flag true (occupy true sl)) i l | None => l end.

Fixpoint stop_below (i : nat) (l : list user_slot_t) : list user_slot_t :=
  match i with
  | O => l
  | S i =>
      match l !! i with
      | Some sl => if is_occupied sl && should_continue_running sl then alter (continue_flag false) i l else stop_below i l
      | None => l
      end
  end.
Definition users_spawn_stop_random (l : list user_slot_t) : list user_slot_t := stop_below (length l) l.

(** One round of the main loop of the users manager. *)
Definition control_round (target batch : Z) (l : list user_slot_t) : list user_slot_t :=
  let current := users_spawn_count l in
  if current <? target then
    let needed := target - current in
    Nat.iter (Z.to_nat (if batch <? needed then batch else needed)) users_spawn_new l
  else if target <? current then Nat.iter (Z.to_nat (current - target)) users_spawn_stop_random l
  else l.

(** [SIGUSR1] and [SIGUSR2]. *)
Definition on_scale_up (target : Z) : Z := i32 (target + 10).
Definition on_scale_down (target : Z) : Z := if 10 <=? target then target - 10 else target.

Definition active (sl : user_slot_t) : bool := is_occupied sl && should_continue_running sl.

Lemma first_free_spec l :
  users_spawn_count l < Z.of_nat (length l) → ∃ i sl, first_free l = Some i ∧ l !! i = Some sl ∧ is_occupied sl = false.
Proof.
  unfold users_spawn_count. induction l as [|sl l IH]; simpl; [lia|]. destruct (is_occupied sl) eqn:E; [|intros _; by exists 0%nat, sl].
  intros H. destruct IH as (i & x & E1 & ? & ?); [lia|]. exists (S i), x. by rewrite E1.
Qed.

Lemma alter_insert (f : user_slot_t → user_slot_t) (i : nat) (l : list user_slot_t) sl : l !! i = Some sl → alter f i l = <[i := f sl]> l.
Proof.
  intros H. apply list_eq. intros j. destruct (decide (j = i)) as [->|Hne].
  - rewrite list_lookup_alter_eq, H, list_lookup_insert_eq; [done|by eapply lookup_lt_Some].
  - by rewrite list_lookup_alter_ne, list_lookup_insert_ne.
Qed.

(** A spawn fills one slot while there is one. *)
Lemma spawn_count l :
  length (users_spawn_new l) = length l ∧
  users_spawn_count (users_spawn_new l) = Z.min (Z.of_nat (length l)) (users_spawn_count l + 1).
Proof.
  unfold users_spawn_new. pose proof (count_bounds is_occupied l) as Hb. fold (users_spawn_count l) in Hb.
  destruct (Z.leb_spec (Z.of_nat (length l)) (users_spawn_count l)); [split; [done|lia]|].
  destruct (first_free_spec l) as (i & sl & -> & Hi & Ho); [done|]. rewrite length_alter. split; [done|].
  rewrite (alter_insert _ _ _ _ Hi). unfold users_spawn_count in *. rewrite (count_insert _ _ _ _ _ Hi), Ho. simpl. lia.
Qed.

Lemma spawn_many n l :
  length (Nat.iter n users_spawn_new l) = length l ∧
  users_spawn_count (Nat.iter n users_spawn_new l) = Z.min (Z.of_nat (length l)) (users_spawn_count l + Z.of_nat n).
Proof.
  pose proof (count_bounds is_occupied l) as Hb. fold (users_spawn_count l) in Hb.
  induction n as [|n [IH1 IH2]]; simpl; [split; [done|lia]|].
  destruct (spawn_count (Nat.iter n users_spawn_new l)) as [H1 H2]. split; [lia|]. rewrite H2. lia.
Qed.

(** A stop tells one more user, and changes no occupation. *)
Lemma stop_below_spec i l :
  (i <= length l)%nat → (∀ j sl, (i <= j)%nat → l !! j = Some sl → active sl = false) →
  length (stop_below i l) = length l ∧ users_spawn_count (stop_below i l) = users_spawn_count l ∧
  count_if active (stop_below i l) = Z.max 0 (count_if active l - 1).
Proof.
  intros Hi Hn. induction i as [|i IH]; cbn [stop_below].
  - rewrite (count_none active l); [done|]. intros j sl. apply Hn. lia.
  - destruct (lookup_lt_is_Some_2 l i) as [sl Hsl]; [lia|]. rewrite Hsl. fold (active sl). destruct (active sl) eqn:Ha.
    + rewrite length_alter, (alter_insert _ _ _ _ Hsl). unfold users_spawn_count. rewrite !(count_insert _ _ _ _ _ Hsl), Ha.
      pose proof (count_elem active l i sl Hsl Ha). unfold active at 2. simpl. rewrite andb_false_r. destruct (is_occupied sl); split_and!; lia.
    + apply IH; [lia|]. intros j x Hj Hx. destruct (decide (j = i)) as [->|]; [congruence|]. apply (Hn j x); [lia|done].
Qed.

Lemma stop_many n l :
  length (Nat.iter n users_spawn_stop_random l) = length l ∧
  users_spawn_count (Nat.iter n users_spawn_stop_random l) = users_spawn_count l ∧
  count_if active (Nat.iter n users_spawn_stop_random l) = Z.max 0 (count_if active l - Z.of_nat n).
Proof.
  pose proof (count_bounds active l). induction n as [|n (IH1 & IH2 & IH3)]; simpl; [split_and!; [done|done|lia]|].
  destruct (stop_below_spec (length (Nat.iter n users_spawn_stop_random l)) (Nat.iter n users_spawn_stop_random l)) as (H1 & H2 & H3); [lia| |].
  - intros j sl Hj Hl. apply lookup_lt_Some in Hl. lia.
  - unfold users_spawn_stop_random at 1 3 5. rewrite H1, H2, H3, IH1, IH2, IH3. split_and!; [done|done|lia].
Qed.

(** ** Properties *)

(** C21. Users never share a slot, and the counts are exact: in every interleaving of
    the manager with its users, different users in their slots have different
    ones, all marked occupied; the population is the number of users not yet
    counted out (and the one being started), never above the capacity; the
    connected users are those in their loops; and a free slot is always found when
    the population is below the capacity. *)
Theorem users_slots_exclusive (cap : nat) (s : users_sys) :
  Z.of_nat cap < 2 ^ 31 → users_reachable cap s →
  (∀ k k' t t', pool s !! k = Some t → pool s !! k' = Some t' → owns t = true → owns t' = true → ut_slot t = ut_slot t' → k = k') ∧
  (∀ k t, pool s !! k = Some t → owns t = true → occupied_at s (ut_slot t)) ∧
  population s = count_if counted_in (pool s) + manager_counted (manager s) ∧ 0 <= population s <= Z.of_nat cap ∧
  connected s = count_if in_loop (pool s) ∧ mismatch s = false.
Proof.
  intros Hcap Hr. apply users_reachable_inv in Hr as [_ [Hu _ Ho] Hp Hc [Hle _] _ Hm]; [|done]. split_and!; try done.
  - intros k k' t t' Hk Hk' Hown Hown' E.
    assert (Some k = Some k') as [= ->]; [|done]. apply (Hu _ _ (ut_slot t)); [by exists t|]. exists t'. by rewrite E.
  - intros k t Hk Hown. apply Ho. exists (Some k). by exists t.
  - pose proof (count_bounds counted_in (pool s)). assert (0 <= manager_counted (manager s)) by by destruct (manager s). lia.
Qed.

(** Schedules: a task, or the manager with its outcome and choice. *)
Fixpoint users_exec (l : list (nat + bool * bool)) (s : users_sys) : option users_sys :=
  match l with
  | [] => Some s
  | inl k :: l => user_task_step s k ≫= users_exec l
  | inr (ok, spawn) :: l => manager_step s ok spawn ≫= users_exec l
  end.

Lemma users_exec_reachable cap l s : users_exec l (users_spawn_init cap) = Some s → users_reachable cap s.
Proof.
  unfold users_reachable. generalize (users_spawn_init cap) as s0. induction l as [|[k|[ok spawn]] l IH]; intros s0 E; simpl in E.
  - by injection E as ->.
  - destruct (user_task_step s0 k) as [s1|] eqn:E1; [|done]. eapply rtc_l; [by eapply users_task|by apply IH].
  - destruct (manager_step s0 ok spawn) as [s1|] eqn:E1; [|done]. eapply rtc_l; [by eapply users_manager|by apply IH].
Qed.

(** Two spawns; the first user runs while the second one is started. *)
Definition two_spawns : list (nat + bool * bool) :=
  replicate 6 (inr (true, true)) ++ [inl 0%nat] ++ replicate 7 (inr (true, true)) ++ [inl 1%nat].

Lemma users_slots_exclusive_witness :
  ∃ s, users_exec two_spawns (users_spawn_init 3) = Some s ∧ (ut_slot <$> pool s) = [0; 1]%nat ∧ connected s = 2 ∧ population s = 2.
Proof.
  destruct (users_exec two_spawns (users_spawn_init 3)) as [s|] eqn:E; [|vm_compute in E; discriminate E].
  destruct (users_slots_exclusive 3 s ltac:(lia) (users_exec_reachable _ _ _ E)) as (_ & _ & Hp & _ & Hc & _).
  exists s. split; [reflexivity|]. rewrite Hc, Hp. vm_compute in E. injection E as <-. vm_compute. repeat split.
Defined.

Lemma round_grows target batch l :
  0 <= batch → users_spawn_count l <= target <= Z.of_nat (length l) →
  length (control_round target batch l) = length l ∧
  users_spawn_count (control_round target batch l) = Z.min target (users_spawn_count l + batch).
Proof.
  intros Hb Ht. unfold control_round. destruct (Z.ltb_spec (users_spawn_count l) target).
  - destruct (Z.ltb_spec batch (target - users_spawn_count l));
      match goal with |- context [Nat.iter ?k users_spawn_new l] => destruct (spawn_many k l) as [H1 H2] end;
      rewrite H1, H2, Z2Nat.id by lia; split; lia.
  - destruct (Z.ltb_spec target (users_spawn_count l)); [lia|]. split; [done|lia].
Qed.

(** Population control ramps up to the target: while no user leaves, [n] rounds
    of the manager add a batch each until the target is reached, and then keep it. *)
Theorem population_control_reaches_target (target batch : Z) (l : list user_slot_t) (n : nat) :
  0 <= batch → users_spawn_count l <= target <= Z.of_nat (length l) →
  users_spawn_count (Nat.iter n (control_round target batch) l) = Z.min target (users_spawn_count l + Z.of_nat n * batch).
Proof.
  intros Hb Ht. assert (length (Nat.iter n (control_round target batch) l) = length l ∧
    users_spawn_count (Nat.iter n (control_round target batch) l) = Z.min target (users_spawn_count l + Z.of_nat n * batch)) as [_ H]; [|done].
  induction n as [|n [IH1 IH2]]; [simpl; split; [done|lia]|]. rewrite Nat.iter_succ.
  destruct (round_grows target batch (Nat.iter n (control_round target batch) l)) as [H1 H2]; [done|lia|]. split; lia.
Qed.

Lemma population_control_reaches_target_witness :
  users_spawn_count (Nat.iter 3 (control_round 5 2) (replicate 8 (mk_slot false false))) = 5.
Proof.
  rewrite (population_control_reaches_target 5 2 (replicate 8 (mk_slot false false)) 3); [reflexivity|lia|].
  split; vm_compute; discriminate.
Defined.

(** Reducing the population overshoots: users that were told to stop still count
    until they leave, so a second round before they do stops as many again. *)
Theorem population_control_overshoots :
  let l := replicate 10 (mk_slot true true) in
  let l1 := control_round 8 5 l in
  let l2 := control_round 8 5 l1 in
  users_spawn_count l1 = 10 ∧ count_if active l1 = 8 ∧ count_if active l2 = 6.
Proof. vm_compute. repeat split. Qed.
