(* ===== verification/UserLoop.v ===== *)
(** * The loop of a user ([user/runtime/user_loop.c])

    Waiting for opening hours, joining a queue through the broker and waiting to be
    served, once per request. A thread of the users manager has a flag that tells
    it to go on; the stand-alone user process ([user.c]) passes a null pointer. The
    waiting loops read one observation per round, as in [Service]. *)

From Stdlib Require Import ZArith Lia String.
From stdpp Require Import base list numbers.
From S2P Require Import Prelude Vector Hashtable PriorityQueue Protocol Random.
From S2P Require Import LoadBalance Broker Service Ini Configs LoggerFormat ConfigSave.
From S2P Require Import Argv DirectorConfig Orchestration.

Local Open Scope Z_scope.

(** [wait_for_office]: whether the office is open when it returns; [None] while
    still waiting at the end of the observations (the flag and the hour). The flag
    includes that no shutdown was requested. *)
Fixpoint wait_for_office (has_flag : bool) (obs : list (bool * Z)) : option bool :=
  match obs with
  | [] => None
  | (should_continue, hour) :: obs =>
      if negb (has_flag && should_continue) then Some false
      else if (8 <=? hour) && (hour <? 17) then Some true
      else wait_for_office has_flag obs
  end.

(** The rounds of [wait_service] of a user with or without a flag. *)
Definition seen (has_flag : bool) (o : observation) : observation :=
  mk_obs (has_flag && ob_continue o) (ob_active o) (ob_hour o) (ob_slot o) (ob_last_finished o).

(** What a request meets: the flag and the shutdown request at its start, the
    observations of the two waits, the exchange with the broker. *)
Record request_inputs : Type := mk_request {
  rq_continue : bool;
  rq_shutdown : bool;
  rq_office : list (bool * Z);
  rq_exchange : broker_exchange;
  rq_service : list observation }.

Inductive request_outcome : Type := NotJoined | ServiceComplete | ServiceFailed.

(** The requests of [run_user_simulation_loop]; [None] when a wait does not end. *)
Fixpoint user_requests (has_flag : bool) (rqs : list request_inputs) : option (list request_outcome) :=
  match rqs with
  | [] => Some []
  | rq :: rqs =>
      if has_flag && negb (rq_continue rq) then Some []
      else if rq_shutdown rq then Some []
      else
        _ ← wait_for_office has_flag (rq_office rq);
        o ← match join_queue_broker (rq_exchange rq) with
            | None => Some NotJoined
            | Some ticket =>
                r ← wait_service ticket (seen has_flag <$> rq_service rq);
                Some (if r.1 : bool then ServiceComplete else ServiceFailed)
            end;
        os ← user_requests has_flag rqs;
        Some (o :: os)
  end.

(** [PO_USER_REQUESTS], or one. *)
Definition request_count (env : option (list Z)) : Z :=
  match env with Some v => if 0 <? atoi v then atoi v else 1 | None => 1 end.

(** The loop with the inputs of its requests. *)
Definition run_user_simulation_loop (env : option (list Z)) (has_flag : bool) (rqs : list request_inputs) : option (list request_outcome) :=
  user_requests has_flag (take (Z.to_nat (request_count env)) rqs).

(** ** Lemmas *)

(** A request that nothing interrupts: the office opens, the broker gives a
    ticket, the ticket is finished before closing time. *)
Definition served_request (rq : request_inputs) : Prop :=
  rq_continue rq = true ∧ rq_shutdown rq = false ∧ wait_for_office true (rq_office rq) = Some true ∧
  ∃ ticket d, join_queue_broker (rq_exchange rq) = Some ticket ∧ wait_service ticket (rq_service rq) = Some (true, d).

Lemma seen_all (l : list observation) : (seen true <$> l) = l.
Proof. induction l as [|[] l IH]; [done|]. cbn. by rewrite <- IH at 2. Qed.

Lemma requests_served rqs :
  Forall served_request rqs → user_requests true rqs = Some (replicate (length rqs) ServiceComplete).
Proof.
  induction 1 as [|rq rqs (Hc & Hs & Ho & t & d & Hj & Hw) _ IH]; [done|]. cbn [user_requests]. rewrite Hc, Hs, Ho. simpl.
  rewrite Hj. simpl. rewrite seen_all, Hw. simpl. by rewrite IH.
Qed.

Lemma requests_length has_flag rqs os : user_requests has_flag rqs = Some os → (length os <= length rqs)%nat.
Proof.
  revert os. induction rqs as [|rq rqs IH]; intros os; cbn [user_requests]; [by intros [= <-]|].
  destruct (has_flag && negb (rq_continue rq)); [intros [= <-]; simpl; lia|]. destruct (rq_shutdown rq); [intros [= <-]; simpl; lia|].
  destruct (wait_for_office has_flag (rq_office rq)); [|done]. simpl.
  destruct (match join_queue_broker (rq_exchange rq) with Some ticket => _ | None => _ end) as [o|]; [|done]. simpl.
  destruct (user_requests has_flag rqs) as [os'|] eqn:E; [|done]. simpl. intros [= <-]. specialize (IH os' eq_refl). simpl. lia.
Qed.

Lemma request_count_set n : 0 < n < 2 ^ 31 → request_count (Some (dec_int n)) = n.
Proof.
  intros Hn. unfold request_count, atoi, atol. rewrite strtol_decimal by (unfold LONG_MIN, LONG_MAX; lia). cbn [fst].
  unfold i32. rewrite signed_small by lia. by destruct (Z.ltb_spec 0 n); [|lia].
Qed.

(** ** Properties *)

(** A user makes exactly the configured number of requests: with the number
    of requests that the director puts into the environment, a user of the users
    manager that nobody interrupts is served that many times and ends; in every
    other course it makes no more requests than that. *)
Theorem user_makes_configured_requests (n : Z) (rqs : list request_inputs) :
  0 < n < 2 ^ 31 → Z.of_nat (length rqs) = n →
  (Forall served_request rqs → run_user_simulation_loop (Some (dec_int n)) true rqs = Some (replicate (Z.to_nat n) ServiceComplete)) ∧
  (∀ has_flag rqs' os, run_user_simulation_loop (Some (dec_int n)) has_flag rqs' = Some os → Z.of_nat (length os) <= n).
Proof.
  intros Hn Hl. unfold run_user_simulation_loop. rewrite request_count_set by done. split.
  - intros Hs. rewrite take_ge by lia. rewrite requests_served by done. do 2 f_equal. lia.
  - intros has_flag rqs' os E. apply requests_length in E. rewrite length_take in E. lia.
Qed.

(** A request made at 10:00 that gets ticket 7, served in the second round. *)
Definition demo_request : request_inputs :=
  mk_request true false [(true, 7); (true, 10)] (mk_exchange 3 0 (Some (MSG_TYPE_JOIN_ACK, join_ack_bytes 7 0)))
    [mk_obs true true 10 0 6; mk_obs true true 11 0 7].

Lemma user_makes_configured_requests_witness :
  run_user_simulation_loop (Some (dec_int 2)) true [demo_request; demo_request] = Some [ServiceComplete; ServiceComplete].
Proof.
  apply (user_makes_configured_requests 2 [demo_request; demo_request]); [lia|reflexivity|].
  assert (served_request demo_request) as H by (repeat split; exists 7, 0; split; vm_compute; reflexivity). apply Forall_cons; [exact H|]. apply Forall_cons; [exact H|]. apply Forall_nil.
Defined.

(** The stand-alone user process is never served: without a flag both waits end at
    once, whatever the hour and whatever the ticket. *)
Theorem standalone_user_never_served (rqs : list request_inputs) (os : list request_outcome) :
  user_requests false rqs = Some os → ServiceComplete ∉ os.
Proof.
  revert os. induction rqs as [|rq rqs IH]; intros os; cbn [user_requests andb]; [intros [= <-]; apply not_elem_of_nil|].
  destruct (rq_shutdown rq); [intros [= <-]; apply not_elem_of_nil|].
  destruct (wait_for_office false (rq_office rq)); [|done]. simpl.
  assert (∀ t r, wait_service t (seen false <$> rq_service rq) = Some r → r.1 = false) as Hw.
  { intros t r. destruct (rq_service rq); simpl; [done|]. by intros [= <-]. }
  destruct (join_queue_broker (rq_exchange rq)) as [t|]; simpl.
  - destruct (wait_service t (seen false <$> rq_service rq)) as [r|] eqn:E; [|done]. simpl. rewrite (Hw t r E).
    destruct (user_requests false rqs); [|done]. simpl. intros [= <-]. apply not_elem_of_cons. by split; [|apply IH].
  - destruct (user_requests false rqs); [|done]. simpl. intros [= <-]. apply not_elem_of_cons. by split; [|apply IH].
Qed.
