(* ===== verification/TuiTable.v ===== *)
(** * Tables of the user interface ([app/src/core/main/tui/components/data_table.c])

    The generic table: its state, what a key or a click does to it, and the
    interface to the data it shows, a class with one operation per function pointer
    of [DataTableAdapter] that changes state.  Drawing has no state here.  Scroll
    offsets are binary32 numbers.  The exchange of neighbours by which all adapters
    sort is here too. *)

From Stdlib Require Import ZArith Lia SpecFloat.
From stdpp Require Import base list numbers sorting.
From S2P Require Import Prelude Hashtable.

Local Open Scope Z_scope.

(** Key codes of ncurses and of the renderer. *)
Definition ERR : Z := -1.
Definition KEY_DOWN : Z := 258.
Definition KEY_UP : Z := 259.
Definition KEY_LEFT : Z := 260.
Definition KEY_RIGHT : Z := 261.
Definition KEY_BACKSPACE : Z := 263.
Definition KEY_F (n : Z) : Z := 264 + n.
Definition KEY_NPAGE : Z := 338.
Definition KEY_PPAGE : Z := 339.
Definition KEY_ENTER : Z := 343.
Definition KEY_SLEFT : Z := 393.
Definition KEY_SRIGHT : Z := 402.
Definition CLAY_NCURSES_KEY_SCROLL_UP : Z := 123456.
Definition CLAY_NCURSES_KEY_SCROLL_DOWN : Z := 123457.
Definition CLAY_NCURSES_KEY_SCROLL_LEFT : Z := 123459.
Definition CLAY_NCURSES_KEY_SCROLL_RIGHT : Z := 123460.
Definition NEWLINE : Z := 10.
Definition ESC : Z := 27.

Definition TUI_CW : Z := 8.
Definition TUI_CH : Z := 16.

Definition f32_add (a b : spec_float) : spec_float := SFadd 24 128 a b.
Definition f32_sub (a b : spec_float) : spec_float := SFsub 24 128 a b.
Definition f32_mul (a b : spec_float) : spec_float := SFmul 24 128 a b.

Record DataTableState : Type := mk_table {
  scrollY : spec_float;
  scrollX : spec_float;
  sortColumnId : Z;
  sortAscending : bool;
  selectedRowIndex : Z;
  hoveredRowIndex : Z
}.

Definition set_scroll (t : DataTableState) (y x : spec_float) : DataTableState :=
  mk_table y x (sortColumnId t) (sortAscending t) (selectedRowIndex t) (hoveredRowIndex t).
Definition set_row (t : DataTableState) (r : Z) : DataTableState :=
  mk_table (scrollY t) (scrollX t) (sortColumnId t) (sortAscending t) r (hoveredRowIndex t).
Definition set_sort (t : DataTableState) (col : Z) (asc : bool) : DataTableState :=
  mk_table (scrollY t) (scrollX t) col asc (selectedRowIndex t) (hoveredRowIndex t).

(** The adapter of a table over data [T]; a sort that reads or writes outside of
    its array gives [None]. *)
Class DataTableAdapter (T : Type) : Type := {
  GetCount : T → Z;
  OnSort : T → Z → bool → option T;
  OnRowSelect : T → Z → T
}.

Definition f32_0 : spec_float := f32_of_Z 0.
Definition not_above_0 (y : spec_float) : spec_float := if f32_lt f32_0 y then f32_0 else y.

(** Whether the key was consumed, the table, the data.  [ready] tells that the
    adapter was copied into the definition; before that [GetCount] is a null
    pointer and the table has no rows. *)
Definition tui_DataTableHandleInput `{DataTableAdapter T} (state : DataTableState) (ready : bool) (data : T)
    (key : Z) : bool * DataTableState * T :=
  if key =? ERR then (false, state, data)
  else
    let rowCount := if ready then i32 (GetCount data) else 0 in
    let row := selectedRowIndex state in
    if ((key =? NEWLINE) || (key =? KEY_ENTER)) && (0 <=? row) && (row <? rowCount) then
      (true, state, OnRowSelect data row)
    else if key =? KEY_DOWN then
      if row <? rowCount - 1 then
        let row' := row + 1 in
        let selectionY := f32_mul (f32_of_Z row') (f32_of_Z TUI_CH) in
        let y := if f32_lt (f32_of_Z (20 * TUI_CH)) (f32_add selectionY (scrollY state))
                 then f32_sub (scrollY state) (f32_of_Z TUI_CH) else scrollY state in
        (true, set_scroll (set_row state row') y (scrollX state), data)
      else (false, state, data)
    else if key =? KEY_UP then
      if 0 <? row then
        let row' := row - 1 in
        let y := if f32_lt (f32_mul (f32_of_Z row') (f32_of_Z TUI_CH)) (SFopp (scrollY state))
                 then f32_add (scrollY state) (f32_of_Z TUI_CH) else scrollY state in
        (true, set_scroll (set_row state row') y (scrollX state), data)
      else (false, state, data)
    else if key =? KEY_PPAGE then
      let row' := if i32 (row - 20) <? 0 then 0 else i32 (row - 20) in
      let y := not_above_0 (f32_mul (SFopp (f32_of_Z row')) (f32_of_Z TUI_CH)) in
      (true, set_scroll (set_row state row') y (scrollX state), data)
    else if key =? KEY_NPAGE then
      let row' := if rowCount <=? i32 (row + 20) then rowCount - 1 else i32 (row + 20) in
      let selectionY := f32_mul (f32_of_Z row') (f32_of_Z TUI_CH) in
      let y := not_above_0 (f32_sub (f32_of_Z (20 * TUI_CH)) selectionY) in
      (true, set_scroll (set_row state row') y (scrollX state), data)
    else if key =? CLAY_NCURSES_KEY_SCROLL_UP then
      (true, set_scroll state (not_above_0 (f32_add (scrollY state) (f32_of_Z (2 * TUI_CH)))) (scrollX state), data)
    else if key =? CLAY_NCURSES_KEY_SCROLL_DOWN then
      (true, set_scroll state (f32_sub (scrollY state) (f32_of_Z (2 * TUI_CH))) (scrollX state), data)
    else if (key =? CLAY_NCURSES_KEY_SCROLL_LEFT) || (key =? KEY_SLEFT) then
      (true, set_scroll state (scrollY state) (not_above_0 (f32_add (scrollX state) (f32_of_Z (2 * TUI_CW)))), data)
    else if (key =? CLAY_NCURSES_KEY_SCROLL_RIGHT) || (key =? KEY_SRIGHT) then
      (true, set_scroll state (scrollY state) (f32_sub (scrollX state) (f32_of_Z (2 * TUI_CW))), data)
    else (false, state, data).

(** A click on the header of a sortable column. *)
Definition HandleHeaderClick `{DataTableAdapter T} (state : DataTableState) (data : T) (colId : Z) :
    option (DataTableState * T) :=
  let state' := if sortColumnId state =? colId then set_sort state colId (negb (sortAscending state))
                else set_sort state colId true in
  data' ← OnSort data colId (sortAscending state');
  Some (state', data').

(** A click on a row that is drawn. *)
Definition HandleRowClick `{DataTableAdapter T} (state : DataTableState) (data : T) (row : Z) : DataTableState * T :=
  (set_row state row, OnRowSelect data row).

(** ** Sorting

    All adapters exchange neighbours in passes over an array [l] of which [count]
    cells are in use; [cmp] is [None] when it reads outside of an array. *)

Definition out_of_order (ascending : bool) (cmp : Z) : bool := if ascending then 0 <? cmp else cmp <? 0.

(** The inner loop from a cell with [a] in it, [n] comparisons. *)
Fixpoint bubble_pass {A} (cmp : A → A → option Z) (ascending : bool) (n : Z) (a : A) (rest : list A) : option (list A) :=
  if n <=? 0 then Some (a :: rest)
  else
    match rest with
    | [] => None
    | b :: rest =>
        c ← cmp a b;
        if out_of_order ascending c then r ← bubble_pass cmp ascending (n - 1) a rest; Some (b :: r)
        else r ← bubble_pass cmp ascending (n - 1) b rest; Some (a :: r)
    end.

Fixpoint bubble_rounds {A} (cmp : A → A → option Z) (ascending : bool) (rounds : nat) (count i : Z) (l : list A) :
    option (list A) :=
  match rounds with
  | O => Some l
  | S rounds =>
      let n := u32 (count - i - 1) in
      l' ← match l with
           | [] => if n <=? 0 then Some [] else None
           | a :: rest => bubble_pass cmp ascending n a rest
           end;
      bubble_rounds cmp ascending rounds count (i + 1) l'
  end.

Definition bubble_sort {A} (cmp : A → A → option Z) (ascending : bool) (count : Z) (l : list A) : option (list A) :=
  bubble_rounds cmp ascending (Z.to_nat (u32 (count - 1))) count 0 l.

(** ** Lemmas *)

Lemma pass_overrun {A} (cmp : A → A → option Z) asc rest : ∀ n a,
  Z.of_nat (length rest) < n → bubble_pass cmp asc n a rest = None.
Proof.
  induction rest as [|b rest IH]; intros n a Hn; simpl in *; destruct (Z.leb_spec n 0); try lia; [done|].
  destruct (cmp a b) as [c|]; [|done]. simpl. destruct (out_of_order asc c); by rewrite IH by lia.
Qed.

(** Sorting nothing does not do nothing. *)
Lemma sort_empty_overruns {A} (cmp : A → A → option Z) asc (l : list A) :
  Z.of_nat (length l) < 2 ^ 31 → bubble_sort cmp asc 0 l = None.
Proof.
  intros Hl. unfold bubble_sort. replace (Z.to_nat (u32 (0 - 1))) with (S (Z.to_nat (2 ^ 32 - 2)))
    by (unfold u32; change ((0 - 1) mod 2 ^ 32) with (2 ^ 32 - 1); lia).
  cbn [bubble_rounds]. change (u32 (0 - 0 - 1)) with (2 ^ 32 - 1).
  destruct l as [|a rest]; [done|]. simpl in Hl. by rewrite pass_overrun by lia.
Qed.

(** Whatever the comparison, the cells in use are permuted and the others left
    alone. *)
Section permute.
  Context {A : Type} (D : A → Prop) (cmp : A → A → option Z) (asc : bool).
  Hypothesis Hdef : ∀ a b, D a → D b → is_Some (cmp a b).

Lemma pass_perm rest : ∀ n a,
  D a → Forall D rest → (n ≤ length rest)%nat →
  ∃ r, bubble_pass cmp asc (Z.of_nat n) a rest = Some (r ++ drop n rest) ∧ r ≡ₚ a :: take n rest.
Proof.
  induction rest as [|b rest IH]; intros [|n] a Ha Hr Hn; simpl in Hn; try lia.
  1,2: exists [a]; simpl; by rewrite ?drop_0.
  apply Forall_cons_1 in Hr as [Hb Hr]. cbn [bubble_pass]. destruct (Z.leb_spec (Z.of_nat (S n)) 0); [lia|].
  replace (Z.of_nat (S n) - 1) with (Z.of_nat n) by lia. destruct (Hdef a b Ha Hb) as [c ->]. cbn [mbind option_bind].
  destruct (out_of_order asc c); [destruct (IH n a Ha Hr ltac:(lia)) as (r & -> & Hp); exists (b :: r)|
    destruct (IH n b Hb Hr ltac:(lia)) as (r & -> & Hp); exists (a :: r)]; simpl; (split; [done|]); rewrite Hp; [|done].
  apply Permutation_swap.
Qed.

Lemma rounds_perm r : ∀ count i u tl,
  count = Z.of_nat (length u) → 0 <= i → i + Z.of_nat r < count → count < 2 ^ 32 → Forall D (u ++ tl) →
  ∃ w, bubble_rounds cmp asc r count i (u ++ tl) = Some (w ++ tl) ∧ w ≡ₚ u.
Proof.
  induction r as [|r IH]; intros count i u tl Hc Hi Hr Hcount HD; [by exists u|].
  destruct u as [|a u]; [simpl in Hc; lia|]. cbn [bubble_rounds app]. simpl in HD, Hc. apply Forall_cons_1 in HD as [Ha HD].
  set (n := Z.to_nat (count - i - 1)). replace (u32 (count - i - 1)) with (Z.of_nat n) by (rewrite u32_small; lia).
  destruct (pass_perm (u ++ tl) n a Ha HD) as (q & -> & Hq); [rewrite length_app; lia|]. cbn [mbind option_bind].
  rewrite drop_app_le, take_app_le in * by lia. rewrite app_assoc.
  assert (q ++ drop n u ≡ₚ a :: u) as Hp by (rewrite Hq; simpl; by rewrite take_drop).
  destruct (IH count (i + 1) (q ++ drop n u) tl) as (w & -> & Hw); [|lia|lia|done| |].
  - rewrite Hp. simpl. lia.
  - apply list.Forall_app in HD as [HDu HDt]. apply list.Forall_app. split; [|done]. rewrite Hp. by constructor.
  - exists w. split; [done|]. by rewrite Hw.
Qed.

Lemma bubble_sort_perm (count : Z) (l : list A) :
  1 <= count <= Z.of_nat (length l) → count < 2 ^ 32 → Forall D l →
  ∃ w, bubble_sort cmp asc count l = Some (w ++ drop (Z.to_nat count) l) ∧ w ≡ₚ take (Z.to_nat count) l.
Proof.
  intros Hc Hc' HD. unfold bubble_sort. rewrite u32_small by lia.
  destruct (rounds_perm (Z.to_nat (count - 1)) count 0 (take (Z.to_nat count) l) (drop (Z.to_nat count) l)) as (w & E & Hp).
  1-5: rewrite ?length_take, ?take_drop; done || lia.
  rewrite take_drop in E. by exists w.
Qed.
End permute.

Section sort.
  Context {A : Type} (D : A → Prop) (c : A → A → Z) `{!TotalOrderOn D c} (cmp : A → A → option Z) (asc : bool).
  Hypothesis Hcmp : ∀ a b, D a → D b → cmp a b = Some (c a b).

Definition in_order (a b : A) : Prop := out_of_order asc (c a b) = false.
Definition same_class (a b : A) : bool := c a b =? 0.

Lemma in_order_trans a b d : D a → D b → D d → in_order a b → in_order b d → in_order a d.
Proof.
  unfold in_order, out_of_order. intros Ha Hb Hd H1 H2. destruct asc; apply Z.ltb_ge in H1, H2; apply Z.ltb_ge.
  - by apply (cmp_trans a b d).
  - pose proof (cmp_sgn a b Ha Hb). pose proof (cmp_sgn b a Hb Ha). pose proof (cmp_sgn b d Hb Hd).
    pose proof (cmp_sgn d b Hd Hb). pose proof (cmp_sgn a d Ha Hd). pose proof (cmp_trans d b a Hd Hb Ha). lia.
Qed.

Lemma exchanged_in_order a b : D a → D b → out_of_order asc (c a b) = true → in_order b a ∧ c a b ≠ 0.
Proof.
  unfold in_order, out_of_order. intros Ha Hb H. pose proof (cmp_sgn a b Ha Hb). pose proof (cmp_sgn b a Hb Ha).
  destruct asc; apply Z.ltb_lt in H; (split; [apply Z.ltb_ge|]); lia.
Qed.

Lemma not_same_class x a b : D x → D a → D b → c a b ≠ 0 → same_class x a = true → same_class x b = false.
Proof.
  unfold same_class. intros Hx Ha Hb Hne E%Z.eqb_eq. apply Z.eqb_neq. intros E'. apply Hne.
  pose proof (cmp_sgn a x Ha Hx). pose proof (cmp_sgn x a Hx Ha). pose proof (cmp_sgn b x Hb Hx).
  pose proof (cmp_sgn x b Hx Hb). pose proof (cmp_sgn a b Ha Hb). pose proof (cmp_sgn b a Hb Ha).
  pose proof (cmp_trans a x b Ha Hx Hb). pose proof (cmp_trans b x a Hb Hx Ha). lia.
Qed.

Lemma below_maximum x y out m l :
  D x → D y → Forall D l → out ++ [m] ≡ₚ y :: l → Forall (λ z, in_order z m) out → in_order x y → in_order x m.
Proof.
  intros Hx Hy Hl Hp Hle Ho. assert (Forall D (out ++ [m])) as Hd by (rewrite Hp; by constructor).
  apply list.Forall_app in Hd as [_ Hm]. apply Forall_cons_1 in Hm as [Hm _].
  assert (y ∈ out ++ [m]) as Hin by (rewrite Hp; left). apply elem_of_app in Hin as [Hin|Hin].
  - apply (in_order_trans x y m); [done..|]. by apply (list.Forall_forall (λ z, in_order z m) out).
  - apply list_elem_of_singleton in Hin. by subst.
Qed.

Lemma pass_spec rest : ∀ n a,
  D a → Forall D rest → (n ≤ length rest)%nat →
  ∃ out m, bubble_pass cmp asc (Z.of_nat n) a rest = Some (out ++ m :: drop n rest) ∧ length out = n ∧
    out ++ [m] ≡ₚ a :: take n rest ∧ Forall (λ x, in_order x m) out ∧
    ∀ x, D x → filter (λ y, same_class x y) (out ++ [m]) = filter (λ y, same_class x y) (a :: take n rest).
Proof.
  induction rest as [|b rest IH]; intros [|n] a Ha Hr Hn; simpl in Hn; try lia.
  1,2: exists [], a; simpl; rewrite ?drop_0; by split_and!.
  apply Forall_cons_1 in Hr as [Hb Hr]. cbn [bubble_pass]. destruct (Z.leb_spec (Z.of_nat (S n)) 0); [lia|].
  replace (Z.of_nat (S n) - 1) with (Z.of_nat n) by lia. rewrite Hcmp by done. cbn [mbind option_bind].
  destruct (out_of_order asc (c a b)) eqn:E.
  - destruct (exchanged_in_order a b Ha Hb E) as [Ho Hne].
    destruct (IH n a Ha Hr ltac:(lia)) as (out & m & -> & Hl & Hp & Hle & Hf). exists (b :: out), m. simpl.
    split_and!; [done|lia| | |].
    + rewrite Hp. simpl. apply Permutation_swap.
    + constructor; [|done]. apply (below_maximum b a out m (take n rest)); auto using Forall_take.
    + intros x Hx. rewrite !filter_cons, Hf, !filter_cons by done.
      destruct (same_class x a) eqn:Ea; [|done]. by rewrite (not_same_class x a b).
  - destruct (IH n b Hb Hr ltac:(lia)) as (out & m & -> & Hl & Hp & Hle & Hf). exists (a :: out), m. simpl.
    split_and!; [done|lia|by rewrite Hp| |].
    + constructor; [|done]. apply (below_maximum a b out m (take n rest)); auto using Forall_take.
    + intros x Hx. rewrite (filter_cons _ a), Hf, (filter_cons _ a) by done. done.
Qed.

Lemma sorted_app_in_order u v :
  StronglySorted in_order u → StronglySorted in_order v → Forall (λ x, Forall (in_order x) v) u →
  StronglySorted in_order (u ++ v).
Proof.
  induction 1 as [|a u Hu IH Ha]; intros Hv Huv; [done|]. apply Forall_cons_1 in Huv as [Hav Huv]. simpl. constructor; [auto|].
  by apply list.Forall_app.
Qed.

Lemma rounds_spec r : ∀ count i u v tl,
  length u = S r → count = Z.of_nat (length u) + i → 0 <= i → count < 2 ^ 32 → Forall D (u ++ v ++ tl) →
  StronglySorted in_order v → Forall (λ x, Forall (in_order x) v) u →
  ∃ w, bubble_rounds cmp asc r count i (u ++ v ++ tl) = Some (w ++ tl) ∧ w ≡ₚ u ++ v ∧ StronglySorted in_order w ∧
    ∀ x, D x → filter (λ y, same_class x y) w = filter (λ y, same_class x y) (u ++ v).
Proof.
  induction r as [|r IH]; intros count i u v tl Hu Hc Hi Hcount HD Hv Huv.
  - exists (u ++ v). rewrite <- app_assoc. split_and!; [done..| |done]. destruct u as [|a [|??]]; try done.
    apply sorted_app_in_order; [repeat constructor|done|done].
  - destruct u as [|a u]; [done|]. simpl in Hu. injection Hu as Hu. cbn [bubble_rounds].
    replace (u32 (count - i - 1)) with (Z.of_nat (length u)) by (rewrite u32_small; simpl in Hc; lia).
    simpl in HD. apply Forall_cons_1 in HD as [Ha HD].
    destruct (pass_spec (u ++ v ++ tl) (length u) a Ha HD) as (out & m & E & Hl & Hp & Hle & Hf).
    { rewrite !length_app. lia. }
    cbn [app]. rewrite E. cbn [mbind option_bind]. rewrite drop_app_length, take_app_length in *.
    apply list.Forall_app in HD as [HDu HDv].
    assert (Forall D (out ++ [m])) as HDo by (rewrite Hp; by constructor).
    assert (Forall (λ x, Forall (in_order x) v) (out ++ [m])) as Hov by (rewrite Hp; done).
    apply list.Forall_app in HDo as [HDo HDm], Hov as [Hov Hmv]. apply Forall_cons_1 in HDm as [HDm _], Hmv as [Hmv _].
    destruct (IH count (i + 1) out (m :: v) tl) as (w & Ew & Hw & Hs & Hfw); [lia| |lia|done| | | |].
    + simpl in Hc. lia.
    + apply list.Forall_app. split; [done|]. by constructor.
    + by constructor.
    + apply list.Forall_forall. intros x Hx. constructor; [by apply (list.Forall_forall (λ z, in_order z m) out)|].
      by apply (list.Forall_forall (λ z, Forall (in_order z) v) out).
    + exists w. split; [exact Ew|]. replace (out ++ m :: v) with ((out ++ [m]) ++ v) in * by (by rewrite <- app_assoc).
      split_and!; [by rewrite Hw, Hp|done|]. intros x Hx. rewrite Hfw, filter_app, Hf, <- filter_app by done. done.
Qed.

(** The cells in use are sorted, stably, and the others are left alone. *)
Lemma bubble_sort_spec (count : Z) (l : list A) :
  1 <= count <= Z.of_nat (length l) → count < 2 ^ 32 → Forall D l →
  ∃ w, bubble_sort cmp asc count l = Some (w ++ drop (Z.to_nat count) l) ∧ w ≡ₚ take (Z.to_nat count) l ∧
    StronglySorted in_order w ∧
    ∀ x, D x → filter (λ y, same_class x y) w = filter (λ y, same_class x y) (take (Z.to_nat count) l).
Proof.
  intros Hc Hc' HD. unfold bubble_sort. rewrite u32_small by lia.
  destruct (rounds_spec (Z.to_nat (count - 1)) count 0 (take (Z.to_nat count) l) [] (drop (Z.to_nat count) l))
    as (w & E & Hp & Hs & Hf).
  - rewrite length_take. lia.
  - rewrite length_take. lia.
  - lia.
  - lia.
  - simpl. by rewrite take_drop.
  - constructor.
  - apply list.Forall_forall. constructor.
  - simpl in E. rewrite take_drop in E. rewrite app_nil_r in Hp, Hf. exists w. by split_and!.
Qed.
End sort.

(** ** What an adapter promises

    The number of rows is no more than an [int] holds with room for a page;
    selecting a row that is there and sorting rows that are there keep the data
    well formed and the number of rows. *)
Class TableLaws (T : Type) `{DataTableAdapter T} (inv : T → Prop) : Prop := {
  law_count : ∀ d, inv d → 0 <= GetCount d < 2 ^ 30;
  law_select : ∀ d r, inv d → 0 <= r < GetCount d → inv (OnRowSelect d r) ∧ GetCount (OnRowSelect d r) = GetCount d;
  law_sort : ∀ d col asc, inv d → 0 < GetCount d →
    ∃ d', OnSort d col asc = Some d' ∧ inv d' ∧ GetCount d' = GetCount d
}.

(** The selected row is a row of the table, or a mark that there is none. *)
Definition row_ok (count row : Z) : Prop := -1 <= row <= Z.max 0 (count - 1).

Section client.
  Context {T : Type} `{DataTableAdapter T} (inv : T → Prop) `{!TableLaws T inv}.

Lemma row_i32 count r : row_ok count r → 0 <= count < 2 ^ 30 → i32 (r - 20) = r - 20 ∧ i32 (r + 20) = r + 20.
Proof. unfold row_ok, i32. intros Hr Hc. split; apply signed_small; lia. Qed.

(** A key keeps the selection on a row of the table and the data well formed. *)
Lemma table_input_ok (t : DataTableState) (ready : bool) (d : T) (key : Z) :
  inv d → row_ok (GetCount d) (selectedRowIndex t) →
  let '(_, t', d') := tui_DataTableHandleInput t ready d key in
  inv d' ∧ GetCount d' = GetCount d ∧ row_ok (GetCount d) (selectedRowIndex t').
Proof.
  intros Hd Hr. pose proof (law_count d Hd) as Hc. destruct (row_i32 _ _ Hr Hc) as [E1 E2].
  unfold tui_DataTableHandleInput. rewrite E1, E2.
  assert (0 <= (if ready then i32 (GetCount d) else 0) <= GetCount d) as Hn.
  { destruct ready; [|lia]. unfold i32. rewrite signed_small by lia. lia. }
  generalize dependent (if ready then i32 (GetCount d) else 0). intros n Hn.
  destruct (key =? ERR); [done|].
  destruct (_ && (_ <? n)) eqn:E.
  { destruct (law_select d (selectedRowIndex t) Hd) as [Hi Hg]; [lia|]. by rewrite Hg. }
  clear E. unfold row_ok in *.
  repeat match goal with |- context [if ?b then _ else _] => destruct b eqn:?; cbn [set_scroll set_row selectedRowIndex] end;
    split_and!; done || lia.
Qed.

Lemma header_click_ok (t : DataTableState) (d : T) (col : Z) :
  inv d → 0 < GetCount d →
  ∃ t' d', HandleHeaderClick t d col = Some (t', d') ∧ inv d' ∧ GetCount d' = GetCount d ∧
    selectedRowIndex t' = selectedRowIndex t.
Proof.
  intros Hd Hc. unfold HandleHeaderClick.
  destruct (law_sort d col (sortAscending (if sortColumnId t =? col then set_sort t col (negb (sortAscending t))
    else set_sort t col true)) Hd Hc) as (d' & -> & Hd' & Hg).
  simpl. eexists _, d'. split_and!; [done..|]. by destruct (_ =? _).
Qed.

Lemma row_click_ok (t : DataTableState) (d : T) (row : Z) :
  inv d → 0 <= row < GetCount d →
  inv (HandleRowClick t d row).2 ∧ GetCount (HandleRowClick t d row).2 = GetCount d ∧
  selectedRowIndex (HandleRowClick t d row).1 = row.
Proof. intros Hd Hr. destruct (law_select d row Hd Hr). by split_and!. Qed.
End client.
