(* ===== verification/TuiEntities.v ===== *)
(** * The table of entities ([adapters/adapter_entities.c], [screens/screen_entities.c])

    The entities shown, the rows that pass the tab and the text filter, sorting
    them, the detail box of one of them and the keys of the screen.  Arrays have
    their fixed sizes; [None] is an access outside of one. *)

From Stdlib Require Import ZArith Lia SpecFloat String.
From stdpp Require Import base list numbers sorting.
From S2P Require Import Prelude Cstring Hashtable LoggerFormat TuiTable.

Local Open Scope Z_scope.

Inductive EntityType : Type :=
  ENTITY_TYPE_DIRECTOR | ENTITY_TYPE_MANAGER | ENTITY_TYPE_WORKER | ENTITY_TYPE_USER.

Record MockEntity : Type := mk_entity {
  e_id : Z;
  e_type : EntityType;
  e_name : list Z;
  e_state : list Z;
  e_location : list Z;
  cpuUsage : spec_float;
  memoryUsageMB : Z;
  queueDepth : Z
}.

Definition MAX_MOCK_ENTITIES : nat := 200.
Definition FILTER_SIZE : nat := 64.

Record entities : Type := mk_entities {
  mockEntities : list MockEntity;
  mockEntityCount : Z;
  entitiesTableState : DataTableState;
  selectedEntityIndex : Z;
  activeEntitiesTab : Z;
  entitiesFilter : list Z;
  isFilteringEntities : bool;
  filteredEntityCount : Z;
  filteredEntityIndices : list Z
}.

Definition set_table (s : entities) (t : DataTableState) : entities :=
  mk_entities (mockEntities s) (mockEntityCount s) t (selectedEntityIndex s) (activeEntitiesTab s)
    (entitiesFilter s) (isFilteringEntities s) (filteredEntityCount s) (filteredEntityIndices s).
Definition set_selected (s : entities) (i : Z) : entities :=
  mk_entities (mockEntities s) (mockEntityCount s) (entitiesTableState s) i (activeEntitiesTab s)
    (entitiesFilter s) (isFilteringEntities s) (filteredEntityCount s) (filteredEntityIndices s).
Definition set_tab (s : entities) (tab : Z) : entities :=
  mk_entities (mockEntities s) (mockEntityCount s) (entitiesTableState s) (selectedEntityIndex s) tab
    (entitiesFilter s) (isFilteringEntities s) (filteredEntityCount s) (filteredEntityIndices s).
Definition set_filter (s : entities) (f : list Z) : entities :=
  mk_entities (mockEntities s) (mockEntityCount s) (entitiesTableState s) (selectedEntityIndex s) (activeEntitiesTab s)
    f (isFilteringEntities s) (filteredEntityCount s) (filteredEntityIndices s).
Definition set_filtering (s : entities) (b : bool) : entities :=
  mk_entities (mockEntities s) (mockEntityCount s) (entitiesTableState s) (selectedEntityIndex s) (activeEntitiesTab s)
    (entitiesFilter s) b (filteredEntityCount s) (filteredEntityIndices s).
Definition set_rows (s : entities) (n : Z) (idx : list Z) : entities :=
  mk_entities (mockEntities s) (mockEntityCount s) (entitiesTableState s) (selectedEntityIndex s) (activeEntitiesTab s)
    (entitiesFilter s) (isFilteringEntities s) n idx.
Definition set_entities (s : entities) (es : list MockEntity) (n : Z) : entities :=
  mk_entities es n (entitiesTableState s) (selectedEntityIndex s) (activeEntitiesTab s)
    (entitiesFilter s) (isFilteringEntities s) (filteredEntityCount s) (filteredEntityIndices s).

(** ** The filter *)

Fixpoint is_prefix (p s : list Z) : bool :=
  match p, s with
  | [], _ => true
  | x :: p, y :: s => (x =? y) && is_prefix p s
  | _, [] => false
  end.
(** [strstr(s, p) != NULL] *)
Fixpoint strstr (s p : list Z) : bool :=
  is_prefix p s || match s with [] => false | _ :: s => strstr s p end.

Definition type_in_tab (tab : Z) (ty : EntityType) : bool :=
  match ty with
  | ENTITY_TYPE_DIRECTOR | ENTITY_TYPE_MANAGER => tab =? 0
  | ENTITY_TYPE_WORKER | ENTITY_TYPE_USER => negb (tab =? 0)
  end.
Definition entity_matches (tab : Z) (hasFilter : bool) (filter : list Z) (e : MockEntity) : bool :=
  type_in_tab tab (e_type e) && (negb hasFilter || strstr (e_name e) filter).

Fixpoint filter_loop (matches : MockEntity → bool) (es : list MockEntity) (i n : Z) (idx : list Z) : option (Z * list Z) :=
  match es with
  | [] => Some (n, idx)
  | e :: es =>
      if matches e then idx' ← store_at idx (Z.to_nat n) i; filter_loop matches es (i + 1) (n + 1) idx'
      else filter_loop matches es (i + 1) n idx
  end.

Definition clamp_row (n : Z) (t : DataTableState) : DataTableState :=
  if n <=? selectedRowIndex t then set_row t (if 0 <? n then 0 else -1) else t.

Definition tui_UpdateEntitiesFilter (s : entities) : option entities :=
  len ← strlen (entitiesFilter s);
  let matches := entity_matches (activeEntitiesTab s) (0 <? Z.of_nat len) (cstr (entitiesFilter s)) in
  if Z.of_nat (length (mockEntities s)) <? mockEntityCount s then None
  else
    r ← filter_loop matches (take (Z.to_nat (mockEntityCount s)) (mockEntities s)) 0 0 (filteredEntityIndices s);
    let s := set_rows s r.1 r.2 in
    Some (set_table s (clamp_row r.1 (entitiesTableState s))).

(** ** The adapter *)

Definition three_way (gt lt : bool) : Z := if gt then 1 else if lt then -1 else 0.
Definition type_number (ty : EntityType) : Z :=
  match ty with
  | ENTITY_TYPE_DIRECTOR => 0 | ENTITY_TYPE_MANAGER => 1 | ENTITY_TYPE_WORKER => 2 | ENTITY_TYPE_USER => 3
  end.

(** The comparison of a column. *)
Definition entity_cmp (colId : Z) (a b : MockEntity) : Z :=
  match colId with
  | 0 => three_way (e_id b <? e_id a) (e_id a <? e_id b)
  | 1 => type_number (e_type a) - type_number (e_type b)
  | 2 => strcmp (e_name a) (e_name b)
  | 3 => strcmp (e_state a) (e_state b)
  | 4 => strcmp (e_location a) (e_location b)
  | 5 => i32 (queueDepth a - queueDepth b)
  | 6 => three_way (f32_lt (cpuUsage b) (cpuUsage a)) (f32_lt (cpuUsage a) (cpuUsage b))
  | _ => 0
  end.

(** [mockEntities[idx]] for an [int] index. *)
Definition entity_at (es : list MockEntity) (idx : Z) : option MockEntity :=
  if idx <? 0 then None else es !! Z.to_nat idx.

Definition index_cmp (es : list MockEntity) (colId : Z) (a b : Z) : option Z :=
  ea ← entity_at es a; eb ← entity_at es b; Some (entity_cmp colId ea eb).

Definition Entities_GetCount (s : entities) : Z := filteredEntityCount s.
Definition Entities_OnSort (s : entities) (colId : Z) (ascending : bool) : option entities :=
  idx ← bubble_sort (index_cmp (mockEntities s) colId) ascending (filteredEntityCount s) (filteredEntityIndices s);
  Some (set_rows s (filteredEntityCount s) idx).
Definition Entities_OnRowSelect (s : entities) (row : Z) : entities :=
  if (0 <=? row) && (row <? i32 (filteredEntityCount s)) then
    match filteredEntityIndices s !! Z.to_nat row with Some i => set_selected s i | None => s end
  else s.

Global Instance g_EntitiesAdapter : DataTableAdapter entities :=
  {| GetCount := Entities_GetCount; OnSort := Entities_OnSort; OnRowSelect := Entities_OnRowSelect |}.

(** ** Keys and clicks *)

(** Whether the key was consumed, and the new state. *)
Definition tui_EntitiesHandleInput (ready : bool) (s : entities) (key : Z) : option (bool * entities) :=
  if negb (selectedEntityIndex s =? -1) then
    Some (true, if key =? ESC then set_selected s (-1) else s)
  else if isFilteringEntities s then
    if (key =? ESC) || (key =? NEWLINE) || (key =? 13) then Some (true, set_filtering s false)
    else if (key =? KEY_BACKSPACE) || (key =? 127) || (key =? 8) then
      len ← strlen (entitiesFilter s);
      if 0 <? Z.of_nat len then
        f ← store_at (entitiesFilter s) (len - 1) 0;
        s' ← tui_UpdateEntitiesFilter (set_filter s f);
        Some (true, s')
      else Some (true, s)
    else if (32 <=? key) && (key <=? 126) then
      len ← strlen (entitiesFilter s);
      if Z.of_nat len <? 63 then
        f ← store_at (entitiesFilter s) len key;
        f ← store_at f (len + 1) 0;
        s' ← tui_UpdateEntitiesFilter (set_filter s f);
        Some (true, s')
      else Some (true, s)
    else Some (true, s)
  else
    let '(consumed, t, s) := tui_DataTableHandleInput (entitiesTableState s) ready s key in
    Some (consumed, set_table s t).

Definition CloseModal (s : entities) : entities := set_selected s (-1).
Definition OnTabClick (s : entities) (tab : Z) : option entities := tui_UpdateEntitiesFilter (set_tab s tab).
Definition cmd_focus_filter (s : entities) : entities := set_filtering s true.

(** The screen draws the detail box of the selected entity, or else the table. *)
Definition RenderEntityDetailModal (s : entities) : option (option MockEntity) :=
  if selectedEntityIndex s =? -1 then Some None
  else e ← entity_at (mockEntities s) (selectedEntityIndex s); Some (Some e).

(** ** The entities shown *)

Definition ENTITY_NULL : MockEntity := mk_entity 0 ENTITY_TYPE_DIRECTOR [] [] [] f32_0 0 0.
Definition f32_tenth (z : Z) : spec_float := f32_div (f32_of_Z z) (f32_of_Z 10).
Definition pad3 (n : Z) : list Z := replicate (3 - length (dec_int n)) 48 ++ dec_int n.

Definition fixed_entities : list MockEntity :=
  [mk_entity 1 ENTITY_TYPE_DIRECTOR (str "Director") (str "Running") (str "HQ") (f32_tenth 5) 0 0;
   mk_entity 2 ENTITY_TYPE_MANAGER (str "Ticket Issuer") (str "Active") (str "Entrance") (f32_tenth 12) 0 12;
   mk_entity 3 ENTITY_TYPE_MANAGER (str "Users Manager") (str "Active") (str "Backoffice") (f32_tenth 8) 0 5].

(** Worker [i], with the results of two calls of [rand]. *)
Definition worker_entity (i cpu queue : Z) : MockEntity :=
  mk_entity (100 + i) ENTITY_TYPE_WORKER (str "Worker-" ++ dec_int (i + 1))
    (str (if i <? 5 then "Working" else "Idle"))
    (if i <? 5 then str "Counter " ++ dec_int (i + 1) else str "Pool")
    (f32_tenth (cpu mod 50)) 0 (queue mod 5).
Definition user_entity (i : Z) : MockEntity :=
  mk_entity (1000 + i) ENTITY_TYPE_USER (str "User-" ++ pad3 (i + 1))
    (str (if i <? 10 then "Being Served" else "Waiting")) (str (if i <? 10 then "Counter" else "Lobby")) f32_0 1 0.

(** [rand n] is the result of the [n]-th call. *)
Definition initial_entities (rand : nat → Z) : list MockEntity :=
  fixed_entities ++ ((λ i : nat, worker_entity (Z.of_nat i) (rand (2 * i)%nat) (rand (2 * i + 1)%nat)) <$> seq 0 8)
  ++ ((λ i : nat, user_entity (Z.of_nat i)) <$> seq 0 50).

Definition table_zero : DataTableState := mk_table f32_0 f32_0 0 false 0 0.

(** [tui_InitEntities] on a state whose arrays have their sizes. *)
Definition tui_InitEntities (rand : nat → Z) (s : entities) : option entities :=
  let es := initial_entities rand in
  s' ← tui_UpdateEntitiesFilter (set_entities s (es ++ drop (length es) (mockEntities s)) (Z.of_nat (length es)));
  Some (set_table (set_selected s' (-1)) table_zero).

(** The zeroed static state. *)
Definition entities_zero : entities :=
  mk_entities (replicate MAX_MOCK_ENTITIES ENTITY_NULL) 0 table_zero 0 0 (replicate FILTER_SIZE 0) false 0
    (replicate MAX_MOCK_ENTITIES 0).

Definition set_cpu (e : MockEntity) (c : spec_float) : MockEntity :=
  mk_entity (e_id e) (e_type e) (e_name e) (e_state e) (e_location e) c (memoryUsageMB e) (queueDepth e).
Definition set_state (e : MockEntity) (st : list Z) : MockEntity :=
  mk_entity (e_id e) (e_type e) (e_name e) st (e_location e) (cpuUsage e) (memoryUsageMB e) (queueDepth e).

(** One entity changes; [r1] and [r2] are results of [rand]. *)
Definition update_entity (e : MockEntity) (r2 : Z) : MockEntity :=
  match e_type e with
  | ENTITY_TYPE_WORKER =>
      let c := f32_add (cpuUsage e) (f32_div (f32_sub (f32_of_Z (r2 mod 10)) (f32_of_Z 5)) (f32_of_Z 10)) in
      set_cpu e (if f32_lt c f32_0 then f32_tenth 1 else c)
  | ENTITY_TYPE_USER =>
      if r2 mod 100 <? 2 then
        set_state e (str (if strcmp (e_state e) (str "Waiting") =? 0 then "Looking around" else "Waiting"))
      else e
  | _ => e
  end.
Definition tui_UpdateEntities (s : entities) (r1 r2 : Z) : option entities :=
  if 0 <? mockEntityCount s then
    let i := r1 mod mockEntityCount s in
    e ← entity_at (mockEntities s) i;
    Some (set_entities s (<[Z.to_nat i := update_entity e r2]> (mockEntities s)) (mockEntityCount s))
  else Some s.

(** ** Specification *)

(** The indices of the entities that match, in order. *)
Fixpoint matching (matches : MockEntity → bool) (i : Z) (es : list MockEntity) : list Z :=
  match es with
  | [] => []
  | e :: es => if matches e then i :: matching matches (i + 1) es else matching matches (i + 1) es
  end.

(** What the table should show for the filter text [fs]. *)
Definition shown (s : entities) (fs : list Z) : list Z :=
  matching (entity_matches (activeEntitiesTab s) (bool_decide (fs ≠ [])) fs) 0
    (take (Z.to_nat (mockEntityCount s)) (mockEntities s)).

Definition cell_ok (i : Z) : Prop := 0 <= i < Z.of_nat MAX_MOCK_ENTITIES.

(** Sizes and ranges. *)
Record entities_base (s : entities) (fs : list Z) : Prop := mk_base {
  eb_entities : length (mockEntities s) = MAX_MOCK_ENTITIES;
  eb_cells : Forall cell_ok (filteredEntityIndices s);
  eb_indices : length (filteredEntityIndices s) = MAX_MOCK_ENTITIES;
  eb_count : 0 <= mockEntityCount s <= Z.of_nat MAX_MOCK_ENTITIES;
  eb_tab : 0 <= activeEntitiesTab s < 2;
  eb_filter : array_holds (entitiesFilter s) fs;
  eb_size : length (entitiesFilter s) = FILTER_SIZE;
  eb_selected : selectedEntityIndex s = -1 ∨ 0 <= selectedEntityIndex s < mockEntityCount s;
  eb_row : -1 <= selectedRowIndex (entitiesTableState s)
}.

(** The rows are those that should be shown, in some order. *)
Record entities_rows (s : entities) (fs : list Z) : Prop := mk_rows {
  er_rows : take (Z.to_nat (filteredEntityCount s)) (filteredEntityIndices s) ≡ₚ shown s fs;
  er_count : filteredEntityCount s = Z.of_nat (length (shown s fs));
  er_row : row_ok (filteredEntityCount s) (selectedRowIndex (entitiesTableState s))
}.

Definition entities_ok (s : entities) : Prop := ∃ fs, entities_base s fs ∧ entities_rows s fs.

(** ** Lemmas *)

Lemma length_matching m es : ∀ i, (length (matching m i es) ≤ length es)%nat.
Proof. induction es as [|e es IH]; intros i; simpl; [lia|]. specialize (IH (i + 1)). destruct (m e); simpl; lia. Qed.

Lemma elem_of_matching m es : ∀ i j,
  j ∈ matching m i es ↔ ∃ e, i <= j ∧ es !! Z.to_nat (j - i) = Some e ∧ m e = true.
Proof.
  induction es as [|e es IH]; intros i j; simpl.
  - split; [by intros ?%elem_of_nil|]. by intros (x & _ & ? & _).
  - assert (j ∈ matching m (i + 1) es ↔ ∃ x, i < j ∧ (e :: es) !! Z.to_nat (j - i) = Some x ∧ m x = true) as Hn.
    { rewrite IH. split.
      - intros (x & Hi & Hx & Hm). exists x. split_and!; [lia| |done].
        replace (Z.to_nat (j - i)) with (S (Z.to_nat (j - (i + 1)))) by lia. done.
      - intros (x & Hi & Hx & Hm). exists x. split_and!; [lia| |done].
        replace (Z.to_nat (j - i)) with (S (Z.to_nat (j - (i + 1)))) in Hx by lia. done. }
    destruct (m e) eqn:E; rewrite ?elem_of_cons, Hn; split.
    + intros [-> |(x & Hi & Hx)]; [|exists x; split; [lia|done]]. exists e. rewrite Z.sub_diag. split_and!; done || lia.
    + intros (x & Hi & Hx). destruct (decide (j = i)) as [-> |]; [by left|right]. exists x. split; [lia|done].
    + intros (x & Hi & Hx). exists x. split; [lia|done].
    + intros (x & Hi & Hx & Hm). destruct (decide (j = i)) as [-> |]; [|exists x; split_and!; done || lia].
      rewrite Z.sub_diag in Hx. simpl in Hx. congruence.
Qed.

Lemma NoDup_matching m es : ∀ i, NoDup (matching m i es).
Proof.
  induction es as [|e es IH]; intros i; simpl; [constructor|]. destruct (m e); [|apply IH]. constructor; [|apply IH].
  intros (x & ? & _)%elem_of_matching. lia.
Qed.

Lemma matching_bound m es : Forall (λ j, 0 <= j < Z.of_nat (length es)) (matching m 0 es).
Proof.
  apply list.Forall_forall. intros j (e & Hj & He%lookup_lt_Some & _)%elem_of_matching. lia.
Qed.

Lemma filter_loop_spec m es : ∀ i n idx,
  0 <= n → n + Z.of_nat (length (matching m i es)) <= Z.of_nat (length idx) →
  filter_loop m es i n idx =
    Some (n + Z.of_nat (length (matching m i es)),
          take (Z.to_nat n) idx ++ matching m i es ++ drop (Z.to_nat n + length (matching m i es)) idx).
Proof.
  induction es as [|e es IH]; intros i n idx Hn Hl; cbn [filter_loop matching] in *.
  - simpl. by rewrite Z.add_0_r, Nat.add_0_r, take_drop.
  - revert Hl. destruct (m e); intros Hl; [|by apply IH]. cbn [length] in Hl. unfold store_at. rewrite decide_True by lia. cbn [mbind option_bind].
    rewrite IH; [|lia|rewrite length_insert; lia]. f_equal. f_equal; [cbn [length]; lia|].
    replace (Z.to_nat (n + 1)) with (S (Z.to_nat n)) by lia.
    rewrite (take_S_r _ _ i) by (rewrite list_lookup_insert_eq; [done|lia]).
    rewrite take_insert_ge, drop_insert_lt by lia. rewrite <- app_assoc. cbn [length app]. by rewrite Nat.add_succ_r.
Qed.

Lemma has_filter (fs : list Z) : (0 <? Z.of_nat (length fs)) = bool_decide (fs ≠ []).
Proof. destruct fs; [done|]. rewrite bool_decide_eq_true_2 by done. apply Z.ltb_lt. simpl. lia. Qed.

(** Refiltering shows what should be shown. *)
Lemma update_filter_ok s fs : entities_base s fs →
  ∃ s', tui_UpdateEntitiesFilter s = Some s' ∧ entities_base s' fs ∧ entities_rows s' fs ∧
    activeEntitiesTab s' = activeEntitiesTab s.
Proof.
  intros [He Hcl Hi Hc Ht Hf Hs Hsel Hr]. unfold tui_UpdateEntitiesFilter.
  rewrite (holds_strlen _ _ Hf), (holds_cstr _ _ Hf). cbn [mbind option_bind]. rewrite has_filter.
  destruct (Z.ltb_spec (Z.of_nat (length (mockEntities s))) (mockEntityCount s)); [lia|].
  pose proof (length_matching (entity_matches (activeEntitiesTab s) (bool_decide (fs ≠ [])) fs)
    (take (Z.to_nat (mockEntityCount s)) (mockEntities s)) 0) as Hl. fold (shown s fs) in Hl.
  rewrite length_take in Hl. rewrite filter_loop_spec by (unfold shown in Hl; lia). fold (shown s fs).
  cbn [mbind option_bind fst snd]. rewrite Z2Nat.inj_0, take_0, Z.add_0_l. cbn [app].
  pose proof (matching_bound (entity_matches (activeEntitiesTab s) (bool_decide (fs ≠ [])) fs)
    (take (Z.to_nat (mockEntityCount s)) (mockEntities s))) as Hb. fold (shown s fs) in Hb. rewrite length_take in Hb.
  eexists. split; [done|]. split_and!; [split..|split|]; unfold shown; cbn; fold (shown s fs); try done.
  - apply list.Forall_app. split; [|by apply Forall_drop]. eapply list.Forall_impl; [exact Hb|]. unfold cell_ok. lia.
  - rewrite length_app, length_drop. lia.
  - unfold clamp_row. destruct (_ <=? _); [simpl; destruct (0 <? _); lia|done].
  - by rewrite Nat2Z.id, take_app_length.
  - unfold clamp_row, row_ok. destruct (Z.leb_spec (Z.of_nat (length (shown s fs))) (selectedRowIndex (entitiesTableState s)));
      simpl; fold (shown s fs); [destruct (Z.ltb_spec 0 (Z.of_nat (length (shown s fs))))|]; lia.
Qed.

Lemma shown_bound s fs : entities_base s fs →
  Forall (λ j, 0 <= j < mockEntityCount s) (shown s fs) ∧ (length (shown s fs) ≤ MAX_MOCK_ENTITIES)%nat.
Proof.
  intros Hb. destruct Hb as [He _ _ Hc _ _ _ _ _]. unfold shown.
  set (m := entity_matches _ _ _). pose proof (matching_bound m (take (Z.to_nat (mockEntityCount s)) (mockEntities s))) as Hm.
  pose proof (length_matching m (take (Z.to_nat (mockEntityCount s)) (mockEntities s)) 0) as Hl.
  rewrite length_take in Hm, Hl. split; [|lia]. eapply list.Forall_impl; [exact Hm|]. simpl. lia.
Qed.

Lemma index_cmp_defined es col a b :
  length es = MAX_MOCK_ENTITIES → cell_ok a → cell_ok b → is_Some (index_cmp es col a b).
Proof.
  intros Hl Ha Hb. unfold index_cmp, entity_at, cell_ok in *.
  destruct (Z.ltb_spec a 0), (Z.ltb_spec b 0); try lia.
  destruct (lookup_lt_is_Some_2 es (Z.to_nat a) ltac:(lia)) as [x ->].
  destruct (lookup_lt_is_Some_2 es (Z.to_nat b) ltac:(lia)) as [y ->]. eauto.
Qed.

(** The entities fulfil the contract of the table. *)
Global Instance entities_laws : TableLaws entities entities_ok.
Proof.
  split.
  - intros s (fs & Hb & Hr). destruct (shown_bound s fs Hb) as [_ Hl]. simpl. unfold Entities_GetCount.
    rewrite (er_count _ _ Hr). unfold MAX_MOCK_ENTITIES in Hl. lia.
  - intros s r (fs & Hb & Hr) Hrow. simpl in *. unfold Entities_GetCount, Entities_OnRowSelect in *.
    destruct (shown_bound s fs Hb) as [Hs Hl]. rewrite (er_count _ _ Hr) in Hrow.
    destruct (_ && _); [|by split; [exists fs|]]. destruct (_ !! Z.to_nat r) as [i|] eqn:E; [|by split; [exists fs|]].
    split; [|done]. exists fs. split; [|by destruct Hr; split].
    destruct Hb. split; try done. right. simpl.
    assert (i ∈ shown s fs) as Hin.
    { rewrite <- (er_rows _ _ Hr). apply list_elem_of_lookup. exists (Z.to_nat r). rewrite lookup_take_lt; [done|].
      rewrite (er_count _ _ Hr). lia. }
    exact (proj1 (list.Forall_forall _ _) Hs i Hin).
  - intros s col asc (fs & Hb & Hr) Hpos. simpl in *. unfold Entities_GetCount, Entities_OnSort in *.
    destruct (shown_bound s fs Hb) as [_ Hl]. pose proof (er_count _ _ Hr) as Hc. pose proof (eb_indices _ _ Hb) as Hi.
    destruct (bubble_sort_perm cell_ok (index_cmp (mockEntities s) col) asc
      (λ a b, index_cmp_defined (mockEntities s) col a b (eb_entities _ _ Hb))
      (filteredEntityCount s) (filteredEntityIndices s)) as (w & -> & Hw); [lia| |apply Hb|].
    { unfold MAX_MOCK_ENTITIES in Hl. lia. }
    simpl. eexists. split; [done|]. split; [|done]. exists fs.
    assert (w ++ drop (Z.to_nat (filteredEntityCount s)) (filteredEntityIndices s) ≡ₚ filteredEntityIndices s) as Hp
      by (rewrite Hw; by rewrite take_drop).
    split.
    + destruct Hb. split; try done; simpl; by rewrite Hp.
    + destruct Hr as [H1 H2 H3]. split; try done. simpl.
      assert (length w = Z.to_nat (filteredEntityCount s)) as Hlw by (rewrite Hw, length_take; lia).
      rewrite <- Hlw, take_app_length. etrans; [exact Hw|exact H1].
Qed.

Lemma set_table_ok s t : entities_ok s → row_ok (filteredEntityCount s) (selectedRowIndex t) → entities_ok (set_table s t).
Proof.
  intros (fs & [] & []) Ht. exists fs. split; split; try done. simpl. unfold row_ok in Ht. lia.
Qed.

Lemma set_selected_ok s : entities_ok s → entities_ok (set_selected s (-1)).
Proof. intros (fs & [] & []). exists fs. split; split; try done. by left. Qed.

Lemma set_filtering_ok s b : entities_ok s → entities_ok (set_filtering s b).
Proof. intros (fs & [] & []). exists fs. by split; split. Qed.

Lemma refilter s fs : entities_base s fs → ∃ s', tui_UpdateEntitiesFilter s = Some s' ∧ entities_ok s'.
Proof. intros H. destruct (update_filter_ok s fs H) as (s' & -> & Hb & Hr & _). exists s'. split; [done|]. by exists fs. Qed.

Lemma set_tab_ok s tab : entities_ok s → 0 <= tab < 2 → ∃ s', OnTabClick s tab = Some s' ∧ entities_ok s'.
Proof. intros (fs & [] & _) Ht. apply (refilter _ fs). by split. Qed.

(** A key of the screen is handled within the arrays and keeps the rows right. *)
Lemma entities_input_ok s ready key : entities_ok s →
  ∃ b s', tui_EntitiesHandleInput ready s key = Some (b, s') ∧ entities_ok s'.
Proof.
  intros Hok. unfold tui_EntitiesHandleInput. destruct (negb _).
  { eexists _, _. split; [done|]. destruct (key =? ESC); [by apply set_selected_ok|done]. }
  destruct (isFilteringEntities s) eqn:Ef.
  - destruct (_ || _ || _); [eexists _, _; split; [done|]; by apply set_filtering_ok|].
    pose proof Hok as (fs & Hb & _). rewrite !(holds_strlen _ _ (eb_filter _ _ Hb)). cbn [mbind option_bind].
    destruct (_ || _ || _).
    + destruct (Z.ltb_spec 0 (Z.of_nat (length fs))); [|by eauto]. destruct (decide (fs = [])) as [-> |Hne]; [simpl in *; lia|].
      destruct (exists_last Hne) as (gs & c & ->). destruct (holds_shorten _ _ _ (eb_filter _ _ Hb)) as (f & Hs & Hf & Hl).
      rewrite length_app, Nat.add_sub, Hs. cbn [mbind option_bind].
      destruct (refilter (set_filter s f) gs) as (s' & -> & Hs'); [|cbn; eauto].
      destruct Hb. split; try done. simpl. by rewrite Hl.
    + destruct (Z.leb_spec 32 key), (Z.leb_spec key 126); simpl; try by eauto.
      destruct (Z.ltb_spec (Z.of_nat (length fs)) 63); [|by eauto].
      destruct (holds_append _ _ key (eb_filter _ _ Hb)) as (f1 & f & -> & Hs & Hf & Hl); [lia|rewrite (eb_size _ _ Hb); unfold FILTER_SIZE; lia|].
      cbn [mbind option_bind]. rewrite Hs. cbn [mbind option_bind].
      destruct (refilter (set_filter s f) (fs ++ [key])) as (s' & -> & Hs'); [|cbn; eauto].
      destruct Hb. split; try done. simpl. by rewrite Hl.
  - pose proof Hok as (fs & _ & Hr).
    pose proof (table_input_ok entities_ok (entitiesTableState s) ready s key Hok (er_row _ _ Hr)) as H.
    destruct (tui_DataTableHandleInput _ _ _ _) as [[b t] s']. destruct H as (Hs' & Hg & Hrow).
    eexists _, _. split; [done|]. apply set_table_ok; [done|]. change (row_ok (GetCount s') (selectedRowIndex t)). by rewrite Hg.
Qed.

Lemma entities_header_ok s col : entities_ok s → 0 < filteredEntityCount s →
  ∃ t s', HandleHeaderClick (entitiesTableState s) s col = Some (t, s') ∧ entities_ok (set_table s' t).
Proof.
  intros Hok Hc. destruct (header_click_ok entities_ok (entitiesTableState s) s col Hok) as (t & s' & -> & Hs' & Hg & Hrow); [exact Hc|].
  eexists _, _. split; [done|]. apply set_table_ok; [done|]. rewrite Hrow. change (filteredEntityCount s') with (GetCount s').
  rewrite Hg. destruct Hok as (fs & _ & Hr). apply (er_row _ _ Hr).
Qed.

Lemma entities_row_ok s row : entities_ok s → 0 <= row < filteredEntityCount s →
  entities_ok (set_table (HandleRowClick (entitiesTableState s) s row).2 (HandleRowClick (entitiesTableState s) s row).1).
Proof.
  intros Hok Hrow. destruct (row_click_ok entities_ok (entitiesTableState s) s row Hok) as (Hi & Hg & Hr); [exact Hrow|].
  apply set_table_ok; [done|]. change (filteredEntityCount (HandleRowClick (entitiesTableState s) s row).2)
    with (GetCount (HandleRowClick (entitiesTableState s) s row).2). rewrite Hg, Hr. unfold row_ok. simpl. unfold Entities_GetCount. lia.
Qed.

Lemma matching_insert m es : ∀ i k e e',
  es !! k = Some e → m e' = m e → matching m i (<[k := e']> es) = matching m i es.
Proof.
  induction es as [|x es IH]; intros i [|k] e e' He Hm; simpl in *; simplify_eq; [by rewrite Hm|]. by rewrite (IH _ k e e').
Qed.

Lemma update_entity_same e r : e_type (update_entity e r) = e_type e ∧ e_name (update_entity e r) = e_name e.
Proof. unfold update_entity. destruct (e_type e) eqn:E; try destruct (_ <? 2); by split. Qed.

(** The random changes leave the rows what they should be. *)
Lemma update_ok s r1 r2 : entities_ok s → ∃ s', tui_UpdateEntities s r1 r2 = Some s' ∧ entities_ok s'.
Proof.
  intros (fs & Hb & Hr). unfold tui_UpdateEntities.
  destruct (Z.ltb_spec 0 (mockEntityCount s)) as [Hc|]; [|exists s; split; [done|by exists fs]].
  pose proof (Z.mod_pos_bound r1 (mockEntityCount s) Hc) as Hi. set (i := r1 mod mockEntityCount s) in *.
  destruct Hb as [He Hcl Hix Hcnt Ht Hf Hs Hsel Hrow]. unfold entity_at. destruct (Z.ltb_spec i 0); [lia|].
  destruct (lookup_lt_is_Some_2 (mockEntities s) (Z.to_nat i) ltac:(lia)) as [e Ee]. rewrite Ee. cbn [mbind option_bind].
  eexists. split; [done|]. exists fs.
  assert (shown (set_entities s (<[Z.to_nat i := update_entity e r2]> (mockEntities s)) (mockEntityCount s)) fs = shown s fs) as Hsh.
  { unfold shown. cbn [set_entities mockEntities mockEntityCount activeEntitiesTab].
    rewrite take_insert_lt by lia. apply (matching_insert _ _ _ _ e); [by rewrite lookup_take_lt by lia|].
    unfold entity_matches. destruct (update_entity_same e r2) as [-> ->]. done. }
  split; [split; try done; cbn; by rewrite length_insert|]. destruct Hr as [H1 H2 H3]. split; rewrite ?Hsh; done.
Qed.

Lemma init_ok rand : ∃ s, tui_InitEntities rand entities_zero = Some s ∧ entities_ok s.
Proof.
  unfold tui_InitEntities. assert (length (initial_entities rand) = 61%nat) as Hl by reflexivity.
  set (s0 := set_entities _ _ _). assert (entities_base s0 []) as Hb.
  { split; try done; cbn -[initial_entities replicate drop].
    - apply list.Forall_replicate. unfold cell_ok, MAX_MOCK_ENTITIES. lia.
    - apply holds_empty.
    - right. rewrite Hl. lia. }
  destruct (update_filter_ok s0 [] Hb) as (s & -> & Hb' & Hr & _). cbn [mbind option_bind]. eexists. split; [done|].
  apply set_table_ok; [apply set_selected_ok; by exists []|]. unfold row_ok. simpl. lia.
Qed.

(** ** Order of the columns *)

(** Place of a binary32 number in the order: class, exponent and digits. *)
Definition f32_rank (x : spec_float) : Z * Z * Z :=
  match x with
  | S754_infinity true => (-2, 0, 0)
  | S754_finite true m e => (-1, - e, - Zpos m)
  | S754_zero _ | S754_nan => (0, 0, 0)
  | S754_finite false m e => (1, e, Zpos m)
  | S754_infinity false => (2, 0, 0)
  end.
Definition rank_lt (x y : Z * Z * Z) : Prop :=
  x.1.1 < y.1.1 ∨ x.1.1 = y.1.1 ∧ (x.1.2 < y.1.2 ∨ x.1.2 = y.1.2 ∧ x.2 < y.2).

Lemma f32_lt_rank x y : x ≠ S754_nan → y ≠ S754_nan → f32_lt x y = true ↔ rank_lt (f32_rank x) (f32_rank y).
Proof.
  intros Hx Hy. unfold f32_lt, SFltb, SFcompare, rank_lt.
  destruct x as [?|[]| |[] m e], y as [?|[]| |[] m' e']; try done; simpl; try (split; [done|lia]); try (split; [lia|done]).
  all: try (by split; [intros; lia|]).
  all: destruct (Z.compare_spec e e') as [-> |?|?]; simpl; try (split; [done|lia]); try (split; [lia|done]).
  all: change (Pos.compare_cont Eq m m') with (Pos.compare m m'); destruct (Pos.compare_spec m m'); subst; simpl;
    (split; [intros; try done; lia|intros; try done; lia]).
Qed.

Definition f32_cmp (x y : spec_float) : Z := three_way (f32_lt y x) (f32_lt x y).

Global Instance f32_order {A} (f : A → spec_float) : TotalOrderOn (λ a, f a ≠ S754_nan) (λ a b, f32_cmp (f a) (f b)).
Proof.
  assert (∀ x y, x ≠ S754_nan → y ≠ S754_nan → f32_cmp x y <= 0 ↔ ¬ rank_lt (f32_rank y) (f32_rank x)) as Hle.
  { intros x y Hx Hy. unfold f32_cmp, three_way. rewrite <- f32_lt_rank by done. destruct (f32_lt y x); [split; [lia|done]|].
    destruct (f32_lt x y); split; lia || done. }
  assert (∀ x y, x ≠ S754_nan → y ≠ S754_nan → f32_cmp x y < 0 ↔ rank_lt (f32_rank x) (f32_rank y)) as Hlt.
  { intros x y Hx Hy. unfold f32_cmp, three_way. pose proof (f32_lt_rank x y Hx Hy). pose proof (f32_lt_rank y x Hy Hx).
    unfold rank_lt in *. destruct (f32_lt y x), (f32_lt x y); split; intros; try lia; try tauto;
      pose proof (proj1 H eq_refl); pose proof (proj1 H0 eq_refl); lia. }
  split.
  - intros a Ha. unfold f32_cmp, three_way. destruct (f32_lt (f a) (f a)) eqn:E; [|done].
    apply f32_lt_rank in E; [|done..]. unfold rank_lt in E. lia.
  - intros a b Ha Hb. rewrite Hlt by done. pose proof (Hle (f b) (f a) Hb Ha). unfold rank_lt in *. lia.
  - intros a b d Ha Hb Hd. rewrite !Hle by done. unfold rank_lt. lia.
Qed.

Definition entity_num (e : MockEntity) : Prop :=
  c_string (e_name e) ∧ c_string (e_state e) ∧ c_string (e_location e) ∧ 0 <= queueDepth e < 2 ^ 30 ∧
  cpuUsage e ≠ S754_nan.

Lemma order_sub {A} (D D' : A → Prop) (c : A → A → Z) :
  TotalOrderOn D c → (∀ a, D' a → D a) → TotalOrderOn D' c.
Proof.
  intros [H1 H2 H3] Hd. split; [auto|auto|]. intros a b d Ha Hb Hdd. apply H3; auto.
Qed.

Lemma order_map {A B} (D : A → Prop) (c : A → A → Z) (f : B → A) :
  TotalOrderOn D c → TotalOrderOn (λ b, D (f b)) (λ x y, c (f x) (f y)).
Proof. intros [H1 H2 H3]. split; [auto|auto|]. intros a b d. apply H3. Qed.

Lemma three_way_order : TotalOrderOn (λ _, True) (λ x y : Z, three_way (y <? x) (x <? y)).
Proof.
  unfold three_way. split.
  - intros a _. by rewrite Z.ltb_irrefl.
  - intros a b _ _. destruct (Z.ltb_spec b a), (Z.ltb_spec a b); lia.
  - intros a b d _ _ _. destruct (Z.ltb_spec b a), (Z.ltb_spec a b), (Z.ltb_spec d b), (Z.ltb_spec b d), (Z.ltb_spec d a),
      (Z.ltb_spec a d); lia.
Qed.

Lemma difference_order (f : MockEntity → Z) (c : MockEntity → MockEntity → Z) :
  (∀ a b, entity_num a → entity_num b → c a b = f a - f b) → TotalOrderOn entity_num c.
Proof. intros H. split; intros *; repeat intros ?%[H]; repeat intros; rewrite ?H in * by done; lia. Qed.

(** Every column orders the entities. *)
Global Instance column_order (col : Z) : TotalOrderOn entity_num (entity_cmp col).
Proof.
  destruct (decide (col = 0)) as [-> |H0].
  { apply (order_sub (λ _, True)); [|done]. exact (order_map _ _ e_id three_way_order). }
  destruct (decide (col = 1)) as [-> |H1]; [by apply (difference_order (λ e, type_number (e_type e)))|].
  destruct (decide (col = 2)) as [-> |H2]; [apply (order_sub (λ a, c_string (e_name a))); [apply strcmp_order|by intros a (?&?)]|].
  destruct (decide (col = 3)) as [-> |H3]; [apply (order_sub (λ a, c_string (e_state a))); [apply strcmp_order|by intros a (?&?&?)]|].
  destruct (decide (col = 4)) as [-> |H4]; [apply (order_sub (λ a, c_string (e_location a))); [apply strcmp_order|by intros a (?&?&?&?)]|].
  destruct (decide (col = 5)) as [-> |H5].
  { apply (difference_order queueDepth). intros a b (_ & _ & _ & Ha & _) (_ & _ & _ & Hb & _). apply signed_small; lia. }
  destruct (decide (col = 6)) as [-> |H6]; [apply (order_sub (λ a, cpuUsage a ≠ S754_nan)); [apply f32_order|by intros a (?&?&?&?&?)]|].
  apply (difference_order (λ _, 0)). intros a b _ _. unfold entity_cmp.
  destruct col as [|p|p]; [done| |done]. do 3 (destruct p as [p|p|]; try done).
Qed.

Definition row_entity (es : list MockEntity) (i : Z) : MockEntity := default ENTITY_NULL (entity_at es i).
Definition row_num (es : list MockEntity) (i : Z) : Prop := cell_ok i ∧ entity_num (row_entity es i).

Lemma index_cmp_value es col a b : length es = MAX_MOCK_ENTITIES → row_num es a → row_num es b →
  index_cmp es col a b = Some (entity_cmp col (row_entity es a) (row_entity es b)).
Proof.
  intros Hl [Ha _] [Hb _]. destruct (index_cmp_defined es col a b Hl Ha Hb) as [c E]. unfold index_cmp, row_entity in *.
  destruct (entity_at es a), (entity_at es b); done.
Qed.

Global Instance row_order (es : list MockEntity) (col : Z) :
  TotalOrderOn (row_num es) (λ i j, entity_cmp col (row_entity es i) (row_entity es j)).
Proof.
  apply (order_sub (λ i, entity_num (row_entity es i))); [apply (order_map _ _ (row_entity es) (column_order col))|].
  by intros a [].
Qed.

(** The same as tests. *)
Definition row_num_b (es : list MockEntity) (i : Z) : bool :=
  let e := row_entity es i in
  (0 <=? i) && (i <? Z.of_nat MAX_MOCK_ENTITIES) &&
  forallb (λ c, (0 <? c) && (c <? 256)) (e_name e) &&
  forallb (λ c, (0 <? c) && (c <? 256)) (e_state e) &&
  forallb (λ c, (0 <? c) && (c <? 256)) (e_location e) && (0 <=? queueDepth e) && (queueDepth e <? 2 ^ 30) &&
  match cpuUsage e with S754_nan => false | _ => true end.

Lemma row_num_test es l : forallb (row_num_b es) l = true → Forall (row_num es) l.
Proof.
  rewrite forallb_forall. intros H. apply List.Forall_forall. intros i Hi%H. unfold row_num_b in Hi. rewrite !andb_true_iff in Hi.
  destruct Hi as [[[[[[[H1 H2] H3] H4] H5] H6] H7] H8]. split; [unfold cell_ok; lia|].
  split_and!; [by apply c_string_check..|lia|lia|]. intros E. by rewrite E in H8.
Qed.

(** ** Properties *)

(** A click on the header of a column sorts the rows of the table: the
    direction is reversed when the column was sorted by already and ascending
    otherwise, the rows are the same as before, in the order of the column, and
    rows that compare equal keep their order; the numbers to compare are not NaN
    and the arrays are well formed. *)
Theorem entities_sort_orders (s : entities) (col : Z) :
  entities_ok s → 0 < filteredEntityCount s →
  Forall (row_num (mockEntities s)) (filteredEntityIndices s) →
  ∃ t s', HandleHeaderClick (entitiesTableState s) s col = Some (t, s') ∧
    sortAscending t = (if sortColumnId (entitiesTableState s) =? col then negb (sortAscending (entitiesTableState s)) else true) ∧
    let rows := take (Z.to_nat (filteredEntityCount s)) (filteredEntityIndices s) in
    let rows' := take (Z.to_nat (filteredEntityCount s')) (filteredEntityIndices s') in
    let cmp i j := entity_cmp col (row_entity (mockEntities s) i) (row_entity (mockEntities s) j) in
    rows' ≡ₚ rows ∧ StronglySorted (λ i j, out_of_order (sortAscending t) (cmp i j) = false) rows' ∧
    ∀ i, row_num (mockEntities s) i → filter (λ j, cmp i j =? 0) rows' = filter (λ j, cmp i j =? 0) rows.
Proof.
  intros (fs & Hb & Hr) Hpos Hnum. unfold HandleHeaderClick. set (t := if _ =? col then _ else _). simpl. unfold Entities_OnSort.
  destruct (shown_bound s fs Hb) as [_ Hl]. pose proof (er_count _ _ Hr) as Hc. pose proof (eb_indices _ _ Hb) as Hi.
  destruct (bubble_sort_spec (row_num (mockEntities s)) (λ i j, entity_cmp col (row_entity (mockEntities s) i) (row_entity (mockEntities s) j))
    (index_cmp (mockEntities s) col) (sortAscending t) (λ a b, index_cmp_value (mockEntities s) col a b (eb_entities _ _ Hb))
    (filteredEntityCount s) (filteredEntityIndices s)) as (w & -> & Hw & Hs & Hst); [lia| |done|].
  { unfold MAX_MOCK_ENTITIES in Hl. lia. }
  cbn [mbind option_bind]. eexists t, _. split; [done|]. split; [subst t; by destruct (_ =? _)|].
  assert (length w = Z.to_nat (filteredEntityCount s)) as Hlw by (rewrite Hw, length_take; lia).
  cbn [set_rows filteredEntityCount filteredEntityIndices]. rewrite <- Hlw in *. rewrite take_app_length. by split_and!.
Qed.

Definition entities0 : entities := default entities_zero (tui_InitEntities (λ _, 0) entities_zero).

Lemma entities_sort_orders_witness :
  0 < filteredEntityCount entities0 ∧
  ∃ t s', HandleHeaderClick (entitiesTableState entities0) entities0 2 = Some (t, s') ∧ sortAscending t = true.
Proof.
  split; [by vm_compute|]. destruct (entities_sort_orders entities0 2) as (t & s' & H & Ht & _).
  - destruct (init_ok (λ _, 0)) as (s & E & Hs). unfold entities0. by rewrite E.
  - by vm_compute.
  - apply row_num_test. vm_compute. reflexivity.
  - exists t, s'. split; [exact H|exact Ht].
Defined.

Lemma header_of_no_rows s t col : filteredEntityCount s = 0 → (length (filteredEntityIndices s) ≤ MAX_MOCK_ENTITIES)%nat →
  HandleHeaderClick t s col = None.
Proof.
  intros E Hl. unfold HandleHeaderClick. simpl. unfold Entities_OnSort. rewrite E, sort_empty_overruns; [done|].
  unfold MAX_MOCK_ENTITIES in Hl. lia.
Qed.

(** A filter that no name contains, typed as two keys, leaves no rows; a click on a
    column then makes the bounds of the sorting loops wrap around, which reads past
    the end of the index array. *)
Theorem sort_of_no_rows_overruns :
  ∃ s1 s2, tui_EntitiesHandleInput true (cmd_focus_filter entities0) 122 = Some (true, s1) ∧
    tui_EntitiesHandleInput true s1 122 = Some (true, s2) ∧ filteredEntityCount s2 = 0 ∧
    ∀ t col, HandleHeaderClick t s2 col = None.
Proof.
  set (s1 := match tui_EntitiesHandleInput true (cmd_focus_filter entities0) 122 with Some (_, s) => s | None => entities0 end).
  set (s2 := match tui_EntitiesHandleInput true s1 122 with Some (_, s) => s | None => s1 end).
  exists s1, s2. split_and!; [vm_compute; reflexivity..|]. intros t col. apply header_of_no_rows; vm_compute; [reflexivity|].
  apply le_n.
Qed.
