(* ===== verification/TuiConfig.v ===== *)
(** * The configuration editor ([screens/screen_config.c])

    The tabs of the configuration files, the list of entries of the loaded one,
    editing a value and saving, and the keys of the screen ([HandleConfigInput] of
    [app_tui.c]).  The loaded configuration is the table of [Configs]; files are
    the contents at their paths.  [None] is an access outside of an array, or of
    the entries that are in use, or the copy of a null pointer when a file with a
    name alone on a line is loaded. *)

From Stdlib Require Import ZArith Lia SpecFloat String.
From stdpp Require Import base list numbers sorting.
From S2P Require Import Prelude Cstring Hashtable HashtableGrowth Hashset Ini Configs LoggerFormat ConfigSave TuiTable.

Local Open Scope Z_scope.

Definition SCREEN_COUNT : Z := 8.
Definition MAX_CONFIG_FILES : nat := 16.
Definition MAX_CONFIG_ITEMS : nat := 128.
Definition EDIT_SIZE : nat := 256.

(** Strings, cut to the sizes of the arrays. *)
Record ConfigItem : Type := mk_config_item {
  ci_section : list Z;
  ci_key : list Z;
  ci_displayKey : list Z;
  ci_value : list Z
}.

Record config_editor : Type := mk_editor {
  configFiles : list (list Z);
  activeConfigTab : Z;
  loadedConfigHandle : option po_config;
  configDisplayItems : list ConfigItem;
  selectedConfigItemIndex : Z;
  lastSelectedConfigItemIndex : Z;
  hoveredConfigItemIndex : Z;
  maxKeyLength : Z;
  configScrollY : spec_float;
  isEditing : bool;
  editValueBuffer : list Z;
  lastSavedMessage : list Z
}.

Definition set_message (ed : config_editor) (m : list Z) : config_editor :=
  mk_editor (configFiles ed) (activeConfigTab ed) (loadedConfigHandle ed) (configDisplayItems ed)
    (selectedConfigItemIndex ed) (lastSelectedConfigItemIndex ed) (hoveredConfigItemIndex ed) (maxKeyLength ed)
    (configScrollY ed) (isEditing ed) (editValueBuffer ed) m.
Definition set_handle (ed : config_editor) (h : option po_config) : config_editor :=
  mk_editor (configFiles ed) (activeConfigTab ed) h (configDisplayItems ed)
    (selectedConfigItemIndex ed) (lastSelectedConfigItemIndex ed) (hoveredConfigItemIndex ed) (maxKeyLength ed)
    (configScrollY ed) (isEditing ed) (editValueBuffer ed) (lastSavedMessage ed).
Definition set_items (ed : config_editor) (items : list ConfigItem) : config_editor :=
  mk_editor (configFiles ed) (activeConfigTab ed) (loadedConfigHandle ed) items
    (selectedConfigItemIndex ed) (lastSelectedConfigItemIndex ed) (hoveredConfigItemIndex ed) (maxKeyLength ed)
    (configScrollY ed) (isEditing ed) (editValueBuffer ed) (lastSavedMessage ed).
Definition set_edit (ed : config_editor) (editing : bool) (b : list Z) : config_editor :=
  mk_editor (configFiles ed) (activeConfigTab ed) (loadedConfigHandle ed) (configDisplayItems ed)
    (selectedConfigItemIndex ed) (lastSelectedConfigItemIndex ed) (hoveredConfigItemIndex ed) (maxKeyLength ed)
    (configScrollY ed) editing b (lastSavedMessage ed).
Definition select_item (ed : config_editor) (i : Z) (y : spec_float) : config_editor :=
  mk_editor (configFiles ed) (activeConfigTab ed) (loadedConfigHandle ed) (configDisplayItems ed)
    i (lastSelectedConfigItemIndex ed) (hoveredConfigItemIndex ed) (maxKeyLength ed)
    y (isEditing ed) (editValueBuffer ed) (lastSavedMessage ed).
Definition set_hovered (ed : config_editor) (i : Z) : config_editor :=
  mk_editor (configFiles ed) (activeConfigTab ed) (loadedConfigHandle ed) (configDisplayItems ed)
    (selectedConfigItemIndex ed) (lastSelectedConfigItemIndex ed) i (maxKeyLength ed)
    (configScrollY ed) (isEditing ed) (editValueBuffer ed) (lastSavedMessage ed).

(** ** Loading *)

(** [snprintf] into an array of [size] characters. *)
Definition cut (size : nat) (s : list Z) : list Z := take (size - 1) s.

(** A value is never a null pointer: entries are made with a copy of a string. *)
Definition flatten_cb (items : list ConfigItem) (call : list Z * list Z * option (list Z)) : list ConfigItem :=
  if (MAX_CONFIG_ITEMS <=? length items)%nat then items
  else
    let '(section, key, value) := call in
    items ++ [mk_config_item (take 63 section) (take 63 key) (cut 128 (full_key section key)) (take 255 (default [] value))].

Definition max_key_length (items : list ConfigItem) : Z :=
  Z.max 10 (foldl (λ m item, Z.max m (Z.of_nat (length (ci_displayKey item)))) 0 items).

Definition RefreshConfigDisplay (ed : config_editor) : alloc config_editor :=
  items ← match loadedConfigHandle ed with
          | Some cfg => calls ← po_config_foreach cfg; mret (foldl flatten_cb [] calls)
          | None => mret []
          end;
  mret (mk_editor (configFiles ed) (activeConfigTab ed) (loadedConfigHandle ed) items
    (selectedConfigItemIndex ed) (lastSelectedConfigItemIndex ed) (hoveredConfigItemIndex ed) (max_key_length items)
    (configScrollY ed) (isEditing ed) (editValueBuffer ed) (lastSavedMessage ed)).

Definition files : Type := list Z → option (list Z).
Definition config_path (name : list Z) : list Z := cut 128 (str "config/" ++ name).

(** [None]: loading is undefined. *)
Definition LoadConfigTab (fs : files) (ed : config_editor) (index : Z) : alloc (option config_editor) :=
  match configFiles ed !! Z.to_nat index with
  | None => mret (Some ed)
  | Some name =>
      r ← po_config_load (fs (config_path name));
      match r with
      | Some (Some cfg) =>
          ed ← RefreshConfigDisplay
                 (mk_editor (configFiles ed) index (Some cfg) (configDisplayItems ed)
                   (selectedConfigItemIndex ed) (lastSelectedConfigItemIndex ed) (hoveredConfigItemIndex ed) (maxKeyLength ed)
                   (configScrollY ed) (isEditing ed) (editValueBuffer ed) (lastSavedMessage ed));
          mret (Some (mk_editor (configFiles ed) (activeConfigTab ed) (loadedConfigHandle ed) (configDisplayItems ed)
                        0 0 (hoveredConfigItemIndex ed) (maxKeyLength ed) f32_0 false (editValueBuffer ed) []))
      | Some None => mret (Some (set_message (set_handle ed None) (cut 64 (str "Error loading " ++ name))))
      | None => mret None
      end
  end.

(** The file names, by exchanging every pair that is out of order. *)
Fixpoint exchange_row (x : list Z) (rest : list (list Z)) : list Z * list (list Z) :=
  match rest with
  | [] => (x, [])
  | y :: rest =>
      let '(a, b) := if 0 <? strcmp x y then (y, x) else (x, y) in
      let '(m, rest') := exchange_row a rest in (m, b :: rest')
  end.
Fixpoint exchange_sort (n : nat) (l : list (list Z)) : list (list Z) :=
  match n, l with
  | S n, x :: rest => let '(m, rest') := exchange_row x rest in m :: exchange_sort n rest'
  | _, _ => l
  end.

Definition DOT_INI : list Z := str ".ini".
Definition is_ini (name : list Z) : bool :=
  (4 <? length name)%nat && (strcmp (drop (length name - 4) name) DOT_INI =? 0).
Definition list_files (names : list (list Z)) : list (list Z) :=
  take 63 <$> take MAX_CONFIG_FILES (filter is_ini names).

(** [names] are the entries of the directory, if it can be opened. *)
Definition tui_InitConfigScreen (fs : files) (names : option (list (list Z))) (ed : config_editor) : alloc (option config_editor) :=
  let found := match names with
               | Some names => let l := list_files names in exchange_sort (length l) l
               | None => []
               end in
  let ed := mk_editor found 0 None (configDisplayItems ed) (selectedConfigItemIndex ed) (lastSelectedConfigItemIndex ed)
              (2 ^ 32 - 1) (maxKeyLength ed) f32_0 false (editValueBuffer ed) [] in
  match found with [] => mret (Some ed) | _ => LoadConfigTab fs ed 0 end.

(** ** Tabs and clicks *)

Definition OnConfigTabClick (fs : files) (ed : config_editor) (index : Z) : alloc (option config_editor) :=
  if negb (isEditing ed) then LoadConfigTab fs ed (u32 index) else mret (Some ed).

Definition OnItemInteract (ed : config_editor) (index : Z) (pressed : bool) : config_editor :=
  let ed := set_hovered ed (u32 index) in
  if pressed && negb (isEditing ed) then select_item ed (u32 index) (configScrollY ed) else ed.

Definition file_count (ed : config_editor) : Z := Z.of_nat (length (configFiles ed)).
Definition tui_ConfigNextTab (fs : files) (ed : config_editor) : alloc (option config_editor) :=
  if 0 <? file_count ed then LoadConfigTab fs ed (u32 (activeConfigTab ed + 1) mod file_count ed) else mret (Some ed).
Definition tui_ConfigPrevTab (fs : files) (ed : config_editor) : alloc (option config_editor) :=
  if 0 <? file_count ed then LoadConfigTab fs ed (u32 (activeConfigTab ed - 1 + file_count ed) mod file_count ed) else mret (Some ed).

(** ** Editing *)

Definition tui_ConfigEnterEdit (ed : config_editor) : option config_editor :=
  match configDisplayItems ed with
  | [] => Some ed
  | items =>
      item ← items.[selectedConfigItemIndex ed];
      b ← strncpy (editValueBuffer ed) (ci_value item) 255;
      b ← store_at b 255 0;
      Some (set_edit ed true b)
  end.

Definition set_value (item : ConfigItem) (v : list Z) : ConfigItem :=
  mk_config_item (ci_section item) (ci_key item) (ci_displayKey item) v.

Definition tui_ConfigCommitEdit (ed : config_editor) : alloc (option config_editor) :=
  if isEditing ed then
    match loadedConfigHandle ed with
    | None => mret (Some ed)
    | Some cfg =>
        match (configDisplayItems ed).[selectedConfigItemIndex ed] with
        | None => mret None
        | Some item =>
            let text := cstr (editValueBuffer ed) in
            r ← po_config_set_str cfg (ci_section item) (ci_key item) text;
            let ed := set_handle ed (Some r.2) in
            mret (Some (if r.1 =? 0 then
                          set_edit (set_items ed (<[Z.to_nat (selectedConfigItemIndex ed) := set_value item (take 255 text)]>
                            (configDisplayItems ed))) false (editValueBuffer ed)
                        else ed))
        end
    end
  else mret (Some ed).

Definition tui_ConfigCancelEdit (ed : config_editor) : config_editor := set_edit ed false (editValueBuffer ed).

Definition tui_ConfigAppendChar (ed : config_editor) (c : Z) : option config_editor :=
  len ← strlen (editValueBuffer ed);
  if Z.of_nat len <? 255 then
    b ← store_at (editValueBuffer ed) len c;
    b ← store_at b (len + 1) 0;
    Some (set_edit ed (isEditing ed) b)
  else Some ed.

Definition tui_ConfigBackspace (ed : config_editor) : option config_editor :=
  len ← strlen (editValueBuffer ed);
  if 0 <? Z.of_nat len then
    b ← store_at (editValueBuffer ed) (len - 1) 0;
    Some (set_edit ed (isEditing ed) b)
  else Some ed.

(** The editor and the files; [ok] tells that the temporary file could be written
    and renamed. *)
Definition tui_SaveCurrentConfig (ok : bool) (fs : files) (ed : config_editor) : alloc (option (config_editor * files)) :=
  match loadedConfigHandle ed, configFiles ed with
  | Some cfg, _ :: _ =>
      match (configFiles ed).[activeConfigTab ed] with
      | None => mret None
      | Some name =>
          let path := config_path name in
          r ← po_config_save cfg (fs path) ok ok;
          mret (Some (match r with
                      | Some bytes => (set_message ed (cut 64 (str "Saved to " ++ name)),
                                       λ p, if decide (p = path) then Some bytes else fs p)
                      | None => (set_message ed (str "Error Saving!"), fs)
                      end))
      end
  | _, _ => mret (Some (ed, fs))
  end.

(** ** Keys *)

Definition item_y (i : Z) : spec_float :=
  f32_mul (f32_mul (f32_of_Z i) (f32_of_Z 2)) (f32_of_Z TUI_CH).

(** Whether the key was consumed, the screen and the editor. *)
Definition HandleConfigInput (fs : files) (screen : Z) (ed : config_editor) (key : Z) : alloc (option (bool * Z * config_editor)) :=
  let done ed := mret (Some (true, screen, ed)) in
  let settle (r : option config_editor) := mret (ed ← r; Some (true, screen, ed)) in
  let n := Z.of_nat (length (configDisplayItems ed)) in
  let i := selectedConfigItemIndex ed in
  let y := configScrollY ed in
  if isEditing ed then
    if (key =? NEWLINE) || (key =? KEY_ENTER) then r ← tui_ConfigCommitEdit ed; settle r
    else if key =? ESC then done (tui_ConfigCancelEdit ed)
    else if (key =? KEY_BACKSPACE) || (key =? 127) then settle (tui_ConfigBackspace ed)
    else if (32 <=? key) && (key <=? 126) then settle (tui_ConfigAppendChar ed key)
    else mret (Some (false, screen, ed))
  else if key =? KEY_UP then
    if 0 <? i then
      let i' := i - 1 in
      done (select_item ed i' (if f32_lt (item_y i') y then f32_sub y (f32_of_Z (2 * TUI_CH)) else y))
    else mret (Some (true, u32 (screen - 1 + SCREEN_COUNT) mod SCREEN_COUNT, ed))
  else if key =? KEY_DOWN then
    if i <? u32 (n - 1) then
      let i' := u32 (i + 1) in
      done (select_item ed i' (if f32_lt (f32_of_Z (20 * 2 * TUI_CH)) (f32_sub (item_y i') y)
                               then f32_add y (f32_of_Z (2 * TUI_CH)) else y))
    else mret (Some (true, u32 (screen + 1) mod SCREEN_COUNT, ed))
  else if key =? KEY_PPAGE then
    let i' := if 20 <=? i then i - 20 else 0 in
    done (select_item ed i' (if f32_lt (item_y i') y then item_y i' else y))
  else if key =? KEY_NPAGE then
    let i' := if u32 (i + 20) <? n then u32 (i + 20) else u32 (n - 1) in
    done (select_item ed i' (if f32_lt (f32_add y (f32_of_Z (20 * 2 * TUI_CH))) (item_y i')
                             then f32_sub (item_y i') (f32_of_Z (20 * 2 * TUI_CH)) else y))
  else if key =? KEY_LEFT then r ← tui_ConfigPrevTab fs ed; settle r
  else if key =? KEY_RIGHT then r ← tui_ConfigNextTab fs ed; settle r
  else if (key =? NEWLINE) || (key =? KEY_ENTER) then settle (tui_ConfigEnterEdit ed)
  else mret (Some (false, screen, ed)).

(** ** Invariant *)

Definition terminated (b : list Z) : Prop := length b = EDIT_SIZE ∧ b !! 255%nat = Some 0.

Record editor_ok (ed : config_editor) : Prop := mk_editor_ok {
  eo_files : (length (configFiles ed) ≤ MAX_CONFIG_FILES)%nat;
  eo_tab : configFiles ed = [] ∨ 0 <= activeConfigTab ed < file_count ed;
  eo_items : (length (configDisplayItems ed) ≤ MAX_CONFIG_ITEMS)%nat;
  eo_index : 0 <= selectedConfigItemIndex ed < 2 ^ 32;
  eo_selected : configDisplayItems ed = [] ∨ selectedConfigItemIndex ed < Z.of_nat (length (configDisplayItems ed));
  eo_editing : isEditing ed = true → configDisplayItems ed ≠ [];
  eo_buffer : terminated (editValueBuffer ed)
}.

(** One of the tabs is of a file with a name alone on a line. *)
Definition bare_tab (fs : files) (ed : config_editor) : Prop :=
  ∃ name bytes, name ∈ configFiles ed ∧ fs (config_path name) = Some bytes ∧ bare_file bytes.

(** The invariant after an operation that may load a tab. *)
Definition editor_after (fs : files) (ed : config_editor) (r : option config_editor) : Prop :=
  match r with Some ed' => editor_ok ed' | None => bare_tab fs ed end.

Lemma strlen_terminated b k : b !! k = Some 0 → ∃ n, strlen b = Some n ∧ (n ≤ k)%nat.
Proof.
  revert k. induction b as [|c b IH]; intros [|k] H; simpl in *; simplify_eq.
  - exists 0%nat. split; [done|lia].
  - destruct (c =? 0); [exists 0%nat; split; [done|lia]|]. destruct (IH k H) as (n & -> & Hn). exists (S n). split; [done|lia].
Qed.

Lemma store_terminated b i c : terminated b → (i < 255)%nat ∨ (i = 255)%nat ∧ c = 0 →
  ∃ b', store_at b i c = Some b' ∧ terminated b'.
Proof.
  intros [Hl Ht] Hi. unfold store_at. rewrite decide_True by (rewrite Hl; unfold EDIT_SIZE; lia). eexists. split; [done|].
  split; [by rewrite length_insert|]. destruct (decide (i = 255%nat)) as [-> |Hne].
  - rewrite list_lookup_insert_eq by (rewrite Hl; unfold EDIT_SIZE; lia). destruct Hi as [|[_ ->]]; [lia|done].
  - by rewrite list_lookup_insert_ne.
Qed.

Lemma length_flatten calls : ∀ items,
  (length items ≤ MAX_CONFIG_ITEMS)%nat → (length (foldl flatten_cb items calls) ≤ MAX_CONFIG_ITEMS)%nat.
Proof.
  induction calls as [|[[s k] v] calls IH]; intros items H; [done|]. simpl. apply IH. unfold flatten_cb.
  destruct (Nat.leb_spec MAX_CONFIG_ITEMS (length items)); [done|]. rewrite length_app. simpl. lia.
Qed.

Lemma refresh_ok ed : always (RefreshConfigDisplay ed) (λ r,
  configFiles r = configFiles ed ∧ activeConfigTab r = activeConfigTab ed ∧ editValueBuffer r = editValueBuffer ed ∧
  (length (configDisplayItems r) ≤ MAX_CONFIG_ITEMS)%nat).
Proof.
  unfold RefreshConfigDisplay. apply always_bind.
  apply (always_mono _ (λ items, (length items ≤ MAX_CONFIG_ITEMS)%nat)).
  - destruct (loadedConfigHandle ed) as [cfg|]; [|apply always_ret; simpl; lia]. apply always_bind. intros m.
    apply always_ret, length_flatten. simpl. lia.
  - intros items Hi. by apply always_ret.
Qed.

Lemma load_tab_ok fs ed index : editor_ok ed → 0 <= index → always (LoadConfigTab fs ed index) (editor_after fs ed).
Proof.
  intros Hok Hi. unfold LoadConfigTab. destruct (_ !! _) as [name|] eqn:E; [|by apply always_ret].
  apply always_bind. unfold po_config_load. eapply always_mono; [apply load_defined|]. intros [[cfg|]|] Hd.
  - apply always_bind. eapply always_mono; [apply refresh_ok|]. intros r (Hf & Ht & Hb & Hit). apply always_ret. simpl in *.
    destruct Hok. split; cbn; try done; try lia.
    + by rewrite Hf.
    + right. unfold file_count. cbn. rewrite Hf, Ht. apply lookup_lt_Some in E. lia.
    + destruct (configDisplayItems r); [by left|right; simpl; lia].
    + by rewrite Hb.
  - apply always_ret. destruct Hok. by split.
  - apply always_ret. destruct (Hd eq_refl) as (_ & bytes & Hf & Hb). exists name, bytes. split_and!; [by eapply list_elem_of_lookup_2|done|done].
Qed.

Lemma next_tab_ok fs ed : editor_ok ed → always (tui_ConfigNextTab fs ed) (editor_after fs ed).
Proof.
  intros Hok. unfold tui_ConfigNextTab. destruct (Z.ltb_spec 0 (file_count ed)); [|by apply always_ret].
  apply load_tab_ok; [done|]. apply Z.mod_pos_bound. lia.
Qed.

Lemma prev_tab_ok fs ed : editor_ok ed → always (tui_ConfigPrevTab fs ed) (editor_after fs ed).
Proof.
  intros Hok. unfold tui_ConfigPrevTab. destruct (Z.ltb_spec 0 (file_count ed)); [|by apply always_ret].
  apply load_tab_ok; [done|]. apply Z.mod_pos_bound. lia.
Qed.

Lemma set_edit_ok ed e b :
  editor_ok ed → terminated b → (e = true → configDisplayItems ed ≠ []) → editor_ok (set_edit ed e b).
Proof. intros [] Hb He. by split. Qed.

Lemma selected_item ed : editor_ok ed → configDisplayItems ed ≠ [] →
  ∃ item, (configDisplayItems ed).[selectedConfigItemIndex ed] = Some item.
Proof.
  intros [_ _ _ Hi Hs _ _] Hne. destruct Hs as [|Hs]; [done|]. apply lookup_lt_is_Some_2. lia.
Qed.

Lemma enter_edit_ok ed : editor_ok ed → ∃ ed', tui_ConfigEnterEdit ed = Some ed' ∧ editor_ok ed'.
Proof.
  intros Hok. pose proof (selected_item ed Hok) as Hsel. unfold tui_ConfigEnterEdit.
  destruct (configDisplayItems ed) as [|x items] eqn:E; [by exists ed|]. destruct (Hsel ltac:(done)) as [item ->].
  cbn [mbind option_bind]. destruct (eo_buffer _ Hok) as [Hl Ht]. unfold strncpy.
  rewrite decide_True by (rewrite Hl; unfold EDIT_SIZE; lia). cbn [mbind option_bind].
  destruct (store_terminated (take 255 (ci_value item ++ replicate 255 0) ++ drop 255 (editValueBuffer ed)) 255 0)
    as (b & -> & Hb); [|by right|cbn; eexists; split; [done|apply set_edit_ok; [done..|by rewrite E]]].
  assert (length (take 255 (ci_value item ++ replicate 255 0)) = 255%nat) as Hl1.
  { rewrite length_take, length_app, length_replicate. lia. }
  split.
  - rewrite length_app, Hl1, length_drop, Hl. done.
  - rewrite lookup_app_r by lia. rewrite Hl1, Nat.sub_diag, lookup_drop, Nat.add_0_r. done.
Qed.

Lemma commit_ok ed : editor_ok ed → always (tui_ConfigCommitEdit ed) (λ r, ∃ ed', r = Some ed' ∧ editor_ok ed').
Proof.
  intros Hok. unfold tui_ConfigCommitEdit. destruct (isEditing ed) eqn:Ee; [|apply always_ret; eauto].
  destruct (loadedConfigHandle ed) as [cfg|]; [|apply always_ret; eauto].
  destruct (selected_item ed Hok (eo_editing _ Hok Ee)) as [item ->]. apply always_bind. intros m. apply always_ret.
  eexists. split; [done|]. destruct (_ =? 0); [|by destruct Hok; split].
  destruct Hok as [? ? Hi ? Hs ? ?]. split; cbn; try done; rewrite ?length_insert; [done|].
  destruct Hs as [Hs|Hs]; [left; by rewrite Hs|by right].
Qed.

Lemma append_ok ed c : editor_ok ed → ∃ ed', tui_ConfigAppendChar ed c = Some ed' ∧ editor_ok ed'.
Proof.
  intros Hok. pose proof (eo_buffer _ Hok) as Hb. unfold tui_ConfigAppendChar.
  destruct (strlen_terminated _ _ (proj2 Hb)) as (n & -> & Hn). cbn [mbind option_bind].
  destruct (Z.ltb_spec (Z.of_nat n) 255); [|by eauto].
  destruct (store_terminated _ n c Hb) as (b1 & -> & Hb1); [lia|]. cbn [mbind option_bind].
  destruct (store_terminated _ (n + 1) 0 Hb1) as (b2 & -> & Hb2); [lia|]. cbn [mbind option_bind].
  eexists. split; [done|]. apply set_edit_ok; [done..|]. apply (eo_editing _ Hok).
Qed.

Lemma backspace_ok ed : editor_ok ed → ∃ ed', tui_ConfigBackspace ed = Some ed' ∧ editor_ok ed'.
Proof.
  intros Hok. pose proof (eo_buffer _ Hok) as Hb. unfold tui_ConfigBackspace.
  destruct (strlen_terminated _ _ (proj2 Hb)) as (n & -> & Hn). cbn [mbind option_bind].
  destruct (Z.ltb_spec 0 (Z.of_nat n)); [|by eauto].
  destruct (store_terminated _ (n - 1) 0 Hb) as (b1 & -> & Hb1); [lia|]. cbn [mbind option_bind].
  eexists. split; [done|]. apply set_edit_ok; [done..|]. apply (eo_editing _ Hok).
Qed.

Lemma select_ok ed i y : editor_ok ed → 0 <= i < 2 ^ 32 →
  configDisplayItems ed = [] ∨ i < Z.of_nat (length (configDisplayItems ed)) → editor_ok (select_item ed i y).
Proof. intros [] Hi Hs. by split. Qed.

Lemma save_config_ok ok fs ed : editor_ok ed →
  always (tui_SaveCurrentConfig ok fs ed) (λ r, ∃ ed' fs', r = Some (ed', fs') ∧ editor_ok ed').
Proof.
  intros Hok. unfold tui_SaveCurrentConfig. destruct (loadedConfigHandle ed) as [cfg|]; [|apply always_ret; eauto].
  destruct (configFiles ed) as [|f files] eqn:Ef; [apply always_ret; eauto|].
  destruct (eo_tab _ Hok) as [H|H]; [congruence|]. unfold file_count in H. rewrite Ef in H.
  destruct (lookup_lt_is_Some_2 (f :: files) (Z.to_nat (activeConfigTab ed)) ltac:(lia)) as [name ->].
  apply always_bind. intros m. apply always_ret. destruct (po_config_save _ _ _ _ m).1; eexists _, _; (split; [done|]);
    destruct Hok; by split.
Qed.

(** Every key of the screen stays within the arrays, unless it loads a tab whose
    file has a name alone on a line. *)
Definition input_after (fs : files) (ed : config_editor) (r : option (bool * Z * config_editor)) : Prop :=
  match r with
  | Some (_, screen', ed') => editor_ok ed' ∧ 0 <= screen' < SCREEN_COUNT
  | None => bare_tab fs ed
  end.

Lemma config_input_ok fs screen ed key : editor_ok ed → 0 <= screen < SCREEN_COUNT →
  always (HandleConfigInput fs screen ed key) (input_after fs ed).
Proof.
  intros Hok Hsc. unfold HandleConfigInput.
  assert (∀ r, editor_after fs ed r → input_after fs ed (ed ← r; Some (true, screen, ed))) as Hset by (by intros [ed'|] H).
  assert (∀ r, (∃ ed', r = Some ed' ∧ editor_ok ed') → input_after fs ed (ed ← r; Some (true, screen, ed))) as Hset' by (by intros r (ed' & -> & H)).
  assert (∀ z, 0 <= u32 z mod SCREEN_COUNT < SCREEN_COUNT) as Hmod by (intros; apply Z.mod_pos_bound; done).
  destruct (isEditing ed).
  - repeat case_match; try (apply always_ret; by apply Hset'; auto using append_ok, backspace_ok).
    + apply always_bind. eapply always_mono; [by apply commit_ok|]. intros r Hr. apply always_ret. auto.
    + apply always_ret. split; [|done]. apply set_edit_ok; [done|apply Hok|done].
    + by apply always_ret.
  - destruct Hok as [H1 H2 H3 H4 H5 H6 H7] eqn:EH. clear EH. pose proof (mk_editor_ok ed H1 H2 H3 H4 H5 H6 H7) as Hok'.
    unfold MAX_CONFIG_ITEMS in H3. pose proof (u32_range (Z.of_nat (length (configDisplayItems ed)) - 1)) as Hu.
    pose proof (u32_range (selectedConfigItemIndex ed + 20)).
    pose proof (u32_range (selectedConfigItemIndex ed + 1)).
    assert (configDisplayItems ed = [] ∨ 0 <= selectedConfigItemIndex ed < Z.of_nat (length (configDisplayItems ed)) ∧
      u32 (selectedConfigItemIndex ed + 1) = selectedConfigItemIndex ed + 1 ∧
      u32 (Z.of_nat (length (configDisplayItems ed)) - 1) = Z.of_nat (length (configDisplayItems ed)) - 1) as Hn.
    { destruct H5 as [|H5]; [by left|right]. rewrite !u32_small by lia. lia. }
    repeat case_match; try (by apply always_ret);
      try (apply always_bind; eapply always_mono; [by apply prev_tab_ok || by apply next_tab_ok|]; intros; apply always_ret; by apply Hset);
      apply always_ret; try (apply Hset'; by apply enter_edit_ok); (split; [|done]);
      apply select_ok; first [done|lia|destruct Hn as [Hn|Hn]; [by left|right; lia]].
Qed.

(** Sorting the file names only exchanges them. *)
Lemma exchange_row_perm rest : ∀ x, (exchange_row x rest).1 :: (exchange_row x rest).2 ≡ₚ x :: rest.
Proof.
  induction rest as [|y rest IH]; intros x; simpl; [done|].
  destruct (0 <? strcmp x y); [specialize (IH y)|specialize (IH x)]; destruct (exchange_row _ rest) as [m rest']; simpl in *.
  - by rewrite Permutation_swap, IH.
  - rewrite Permutation_swap, IH. apply Permutation_swap.
Qed.

Lemma exchange_sort_perm n : ∀ l, exchange_sort n l ≡ₚ l.
Proof.
  induction n as [|n IH]; intros [|x rest]; simpl; try done. pose proof (exchange_row_perm rest x) as H.
  destruct (exchange_row x rest) as [m rest']. simpl in H. by rewrite IH.
Qed.

(** ** Editing a value *)

Definition SCREEN_CONFIG : Z := 3.

(** A sequence of keys on the screen. *)
Fixpoint press (fs : files) (ed : config_editor) (keys : list Z) : alloc (option config_editor) :=
  match keys with
  | [] => mret (Some ed)
  | k :: keys =>
      r ← HandleConfigInput fs SCREEN_CONFIG ed k;
      match r with Some (_, _, ed) => press fs ed keys | None => mret None end
  end.

(** The lines of a file with the value of one key replaced. *)
Fixpoint edit_lines (full w section : list Z) (ls : list cfg_line) : list cfg_line :=
  match ls with
  | [] => []
  | CSection s :: ls => CSection s :: edit_lines full w s ls
  | CPair k v :: ls => CPair k (if bool_decide (full_key section k = full) then w else v) :: edit_lines full w section ls
  | l :: ls => l :: edit_lines full w section ls
  end.

Lemma key_appends fs ed s c :
  isEditing ed = true → array_holds (editValueBuffer ed) s → length (editValueBuffer ed) = EDIT_SIZE → (length s < 255)%nat →
  32 <= c <= 126 →
  ∃ b, HandleConfigInput fs SCREEN_CONFIG ed c = mret (Some (true, SCREEN_CONFIG, set_edit ed true b)) ∧ array_holds b (s ++ [c]) ∧
    length b = EDIT_SIZE.
Proof.
  intros He Hb Hl Hs Hc. destruct (holds_append _ _ c Hb) as (b1 & b & E1 & E2 & Hb' & Hlb); [lia|rewrite Hl; unfold EDIT_SIZE; lia|].
  exists b. split_and!; [|done|congruence]. unfold HandleConfigInput. rewrite He.
  unfold NEWLINE, KEY_ENTER, ESC, KEY_BACKSPACE. replace (_ || _) with false by lia. replace (c =? 27) with false by lia.
  replace ((c =? 263) || _) with false by lia. replace (_ && _) with true by lia.
  unfold tui_ConfigAppendChar. rewrite (holds_strlen _ _ Hb). cbn [mbind option_bind]. replace (_ <? 255) with true by lia.
  rewrite E1. cbn [mbind option_bind]. rewrite E2. cbn [mbind option_bind]. by rewrite He.
Qed.

Lemma key_erases fs ed s c :
  isEditing ed = true → array_holds (editValueBuffer ed) (s ++ [c]) → length (editValueBuffer ed) = EDIT_SIZE →
  ∃ b, HandleConfigInput fs SCREEN_CONFIG ed KEY_BACKSPACE = mret (Some (true, SCREEN_CONFIG, set_edit ed true b)) ∧ array_holds b s ∧
    length b = EDIT_SIZE.
Proof.
  intros He Hb Hl. destruct (holds_shorten _ _ _ Hb) as (b & E & Hb' & Hlb). exists b. split_and!; [|done|congruence].
  unfold HandleConfigInput. rewrite He. cbn [Z.eqb NEWLINE KEY_ENTER ESC KEY_BACKSPACE Pos.eqb orb].
  unfold tui_ConfigBackspace. rewrite (holds_strlen _ _ Hb), length_app. cbn [mbind option_bind length].
  destruct (Z.ltb_spec 0 (Z.of_nat (length s + 1))) as [_|Hlt]; [|exfalso; lia]. rewrite Nat.add_sub, E. cbn [mbind option_bind]. by rewrite He.
Qed.

Lemma press_text fs rest w : ∀ ed s,
  isEditing ed = true → array_holds (editValueBuffer ed) s → length (editValueBuffer ed) = EDIT_SIZE →
  (length s + length w ≤ 255)%nat → Forall (λ c, 32 <= c <= 126) w →
  ∃ b, press fs ed (w ++ rest) = press fs (set_edit ed true b) rest ∧ array_holds b (s ++ w) ∧ length b = EDIT_SIZE.
Proof.
  induction w as [|c w IH]; intros ed s He Hb Hl Hs Hw.
  - exists (editValueBuffer ed). rewrite app_nil_r. split_and!; [|done..]. destruct ed. simpl in *. by subst.
  - apply Forall_cons_1 in Hw as [Hc Hw]. simpl in Hs.
    destruct (key_appends fs ed s c He Hb Hl) as (b & E & Hb' & Hl'); [lia|done|].
    destruct (IH (set_edit ed true b) (s ++ [c])) as (b' & E' & Hb'' & Hl''); [done|done|done|rewrite length_app; simpl; lia|done|].
    exists b'. rewrite <- app_assoc in Hb''. split_and!; [|done|done]. cbn [app press]. rewrite E. exact E'.
Qed.

Lemma press_erase fs rest n : ∀ ed s,
  isEditing ed = true → array_holds (editValueBuffer ed) s → length (editValueBuffer ed) = EDIT_SIZE → length s = n →
  ∃ b, press fs ed (replicate n KEY_BACKSPACE ++ rest) = press fs (set_edit ed true b) rest ∧ array_holds b [] ∧ length b = EDIT_SIZE.
Proof.
  induction n as [|n IH]; intros ed s He Hb Hl Hs.
  - destruct s; [|done]. exists (editValueBuffer ed). split_and!; [|done..]. destruct ed. simpl in *. by subst.
  - destruct (decide (s = [])) as [-> |Hne]; [done|]. destruct (exists_last Hne) as (s' & c & ->). rewrite length_app in Hs. simpl in Hs.
    destruct (key_erases fs ed s' c He Hb Hl) as (b & E & Hb' & Hl').
    destruct (IH (set_edit ed true b) s') as (b' & E' & Hb'' & Hl''); [done|done|done|lia|].
    exists b'. split_and!; [|done|done]. cbn [replicate app press]. rewrite E. exact E'.
Qed.

Lemma enter_holds ed item : configDisplayItems ed ≠ [] → (configDisplayItems ed).[selectedConfigItemIndex ed] = Some item →
  terminated (editValueBuffer ed) → c_string (ci_value item) → (length (ci_value item) ≤ 255)%nat →
  ∃ b, tui_ConfigEnterEdit ed = Some (set_edit ed true b) ∧ array_holds b (ci_value item) ∧ length b = EDIT_SIZE.
Proof.
  intros Hne Hit [Hl Ht] Hv Hlv. unfold tui_ConfigEnterEdit. destruct (configDisplayItems ed) as [|x items] eqn:E; [done|].
  rewrite Hit. cbn [mbind option_bind]. unfold strncpy. rewrite decide_True by (rewrite Hl; unfold EDIT_SIZE; lia).
  cbn [mbind option_bind]. set (v := ci_value item) in *.
  assert (take 255 (v ++ replicate 255 0) = v ++ replicate (255 - length v) 0) as Et.
  { rewrite take_app_ge, take_replicate by lia. do 2 f_equal. lia. }
  rewrite Et. unfold store_at. rewrite decide_True.
  2: { rewrite !length_app, length_replicate, length_drop, Hl. unfold EDIT_SIZE. lia. }
  cbn [mbind option_bind]. eexists. split; [done|]. unfold EDIT_SIZE in *. split.
  - split; [done|]. rewrite insert_app_r_alt by (rewrite length_app, length_replicate; lia).
    rewrite length_app, length_replicate. replace (255 - (length v + (255 - length v)))%nat with 0%nat by lia.
    destruct (drop 255 (editValueBuffer ed)) as [|y d] eqn:Ed.
    { apply (f_equal length) in Ed. rewrite length_drop, Hl in Ed. done. }
    simpl. rewrite <- app_assoc. destruct (255 - length v)%nat as [|k]; [by exists d|]. by exists (replicate k 0 ++ 0 :: d).
  - rewrite length_insert, !length_app, length_replicate, length_drop, Hl. lia.
Qed.

(** Setting the value of a key that is there. *)
Lemma set_existing cfg s k v old :
  cfg_wf cfg → c_string s → c_string k → ht_size (cfg_entries cfg) < 2 ^ 60 → cfg_find cfg (full_key s k) = Some old →
  succeeds (po_config_set_str cfg s k v) (λ r, r.1 = 0 ∧
    ∀ k', c_string k' → cfg_find r.2 k' = if bool_decide (full_key s k = k') then Some v else cfg_find cfg k').
Proof.
  intros Hwf Hs Hk Hsz Hf. pose proof (full_key_string s k Hs Hk) as Hfk. unfold po_config_set_str.
  apply succeeds_bind, succeeds_bind, succeeds_malloc, succeeds_ret. rewrite contains_key_find, Hf by done.
  apply succeeds_bind, succeeds_malloc. simpl. apply succeeds_ret.
  unfold cfg_find in Hf. destruct (ht_find _ _ (cfg_entries cfg) _) as [v0|] eqn:Ef; [|done].
  destruct (replace_spec (cfg_entries cfg) (full_key s k) (Some v) v0) as (-> & _ & Hf'); [apply Hwf|done|lia|done|].
  simpl. split; [done|]. intros k' Hk'. unfold cfg_find. simpl. rewrite Hf' by done. by destruct (bool_decide _).
Qed.

Lemma first_value_unique evs s k v : NoDup (ev_key <$> evs) → (s, k, v) ∈ evs → first_value evs (full_key s k) = Some v.
Proof.
  induction evs as [|[[s' k'] v'] evs IH]; intros Hnd Hin; [by apply elem_of_nil in Hin|]. simpl in Hnd.
  apply list.NoDup_cons in Hnd as [Hni Hnd]. simpl. case_bool_decide as E.
  - apply elem_of_cons in Hin as [Hin|Hin]; [congruence|]. exfalso. apply Hni. unfold ev_key at 1. simpl. rewrite E.
    by apply (list_elem_of_fmap_2 ev_key evs (s, k, v)).
  - apply elem_of_cons in Hin as [Hin|Hin]; [congruence|]. by apply IH.
Qed.

(** Saving the changed configuration replaces just that value. *)
Lemma update_edit cfg full w evs ls : ∀ section,
  (∀ k', c_string k' → cfg_find cfg k' = if bool_decide (full = k') then Some w else first_value evs k') →
  (∀ s k v, (s, k, v) ∈ events section ls → s ≠ [] ∧ c_string (full_key s k) ∧ first_value evs (full_key s k) = Some v) →
  update_lines cfg section ls = edit_lines full w section ls.
Proof.
  induction ls as [|l ls IH]; intros section Hf Hev; [done|]. destruct l as [|text|s|k v]; cbn [update_lines edit_lines].
  1,2,3: f_equal; by apply IH.
  f_equal; [|apply IH; [done|]; intros s' k' v' Hin; apply Hev; by right].
  destruct (Hev section k v) as (Hne & Hk & Hv); [left|]. destruct section as [|c section]; [done|].
  rewrite Hf, Hv by done. rewrite (bool_decide_ext _ _ (conj (@eq_sym _ full (full_key (c :: section) k)) (@eq_sym _ _ _))).
  by destruct (bool_decide _).
Qed.

Lemma foreach_nodes_succeeds ns : succeeds (foreach_nodes ns) (λ _, True).
Proof.
  induction ns as [|n ns IH]; [by apply succeeds_ret|]. cbn [foreach_nodes]. apply succeeds_bind.
  apply (succeeds_mono _ (λ _, True)).
  - unfold foreach_call. destruct (split_char _ _) as [a [|b c]]; [by apply succeeds_ret|].
    apply succeeds_bind, succeeds_malloc. by apply succeeds_ret.
  - intros r _. apply succeeds_bind. eapply succeeds_mono; [exact IH|]. intros q _. by apply succeeds_ret.
Qed.

Lemma refresh_succeeds ed : succeeds (RefreshConfigDisplay ed) (λ r, ∃ items,
  (length items ≤ MAX_CONFIG_ITEMS)%nat ∧
  r = mk_editor (configFiles ed) (activeConfigTab ed) (loadedConfigHandle ed) items
    (selectedConfigItemIndex ed) (lastSelectedConfigItemIndex ed) (hoveredConfigItemIndex ed) (max_key_length items)
    (configScrollY ed) (isEditing ed) (editValueBuffer ed) (lastSavedMessage ed)).
Proof.
  unfold RefreshConfigDisplay. apply succeeds_bind.
  apply (succeeds_mono _ (λ items, (length items ≤ MAX_CONFIG_ITEMS)%nat)).
  - destruct (loadedConfigHandle ed) as [cfg|]; [|apply succeeds_ret; simpl; lia]. apply succeeds_bind.
    apply (succeeds_mono _ (λ _, True)); [|intros r _; apply succeeds_ret, length_flatten; simpl; lia].
    unfold po_config_foreach. apply succeeds_bind. unfold po_hashtable_iterator. apply succeeds_bind, succeeds_malloc.
    apply succeeds_ret. apply foreach_nodes_succeeds.
  - intros items Hi. apply succeeds_ret. eauto.
Qed.

(** The keys of one edit of the selected entry. *)
Definition edit_keys (old w : list Z) : list Z :=
  [NEWLINE] ++ replicate (length old) KEY_BACKSPACE ++ w ++ [NEWLINE].

Lemma press_edit fs ed cfg item old w :
  isEditing ed = false → terminated (editValueBuffer ed) → loadedConfigHandle ed = Some cfg →
  (configDisplayItems ed).[selectedConfigItemIndex ed] = Some item →
  c_string (ci_value item) → (length (ci_value item) ≤ 255)%nat → (length w ≤ 255)%nat → Forall (λ c, 32 <= c <= 126) w →
  cfg_wf cfg → c_string (ci_section item) → c_string (ci_key item) → ht_size (cfg_entries cfg) < 2 ^ 60 →
  cfg_find cfg (full_key (ci_section item) (ci_key item)) = Some old →
  succeeds (press fs ed (edit_keys (ci_value item) w)) (λ r, ∃ b cfg',
    r = Some (set_edit (set_items (set_handle ed (Some cfg'))
      (<[Z.to_nat (selectedConfigItemIndex ed) := set_value item w]> (configDisplayItems ed))) false b) ∧
    ∀ k', c_string k' → cfg_find cfg' k' = if bool_decide (full_key (ci_section item) (ci_key item) = k') then Some w else cfg_find cfg k').
Proof.
  intros He Hb Hh Hit Hv Hlv Hlw Hw Hwf Hs Hk Hsz Hf. unfold edit_keys. cbn [app press]. unfold HandleConfigInput at 1. rewrite He.
  cbn [Z.eqb NEWLINE KEY_ENTER KEY_UP KEY_DOWN KEY_PPAGE KEY_NPAGE KEY_LEFT KEY_RIGHT Pos.eqb orb].
  destruct (enter_holds ed item) as (b1 & -> & Hb1 & Hl1); [intros E; by rewrite E in Hit|done..|].
  cbn [mbind option_bind]. apply succeeds_bind, succeeds_ret.
  destruct (press_erase fs (w ++ [NEWLINE]) (length (ci_value item)) (set_edit ed true b1) (ci_value item)) as (b2 & -> & Hb2 & Hl2); [done..|].
  destruct (press_text fs [NEWLINE] w (set_edit (set_edit ed true b1) true b2) []) as (b3 & -> & Hb3 & Hl3); [done|done|done|simpl; lia|done|].
  cbn [press app] in *. apply succeeds_bind. unfold HandleConfigInput.
  cbn [isEditing set_edit Z.eqb NEWLINE KEY_ENTER Pos.eqb orb]. apply succeeds_bind. unfold tui_ConfigCommitEdit.
  cbn [isEditing set_edit loadedConfigHandle configDisplayItems selectedConfigItemIndex editValueBuffer]. rewrite Hh, Hit.
  rewrite (holds_cstr _ _ Hb3). apply succeeds_bind. eapply succeeds_mono; [by apply (set_existing _ _ _ w old)|].
  intros r [-> Hr]. apply succeeds_ret, succeeds_ret. cbn [mbind option_bind Z.eqb]. apply succeeds_ret.
  rewrite take_ge by done. eexists b3, r.2. split; [done|exact Hr].
Qed.

(** ** Properties *)


Definition demo_lines : list cfg_line := [CSection [115]; CPair [107] [49; 32; 50]].
Definition demo_name : list Z := str "a.ini".
Definition demo_files : files := λ p, if decide (p = config_path demo_name) then Some (print_file demo_lines) else None.
Definition demo_editor : config_editor :=
  mk_editor [demo_name] 0 None [] 0 0 0 0 f32_0 false (replicate EDIT_SIZE 0) [].


(** ** File names *)

Lemma exchange_row_spec rest : ∀ x, c_string x → Forall c_string rest →
  let '(m, rest') := exchange_row x rest in
  m :: rest' ≡ₚ x :: rest ∧ Forall (λ y, strcmp m y <= 0) rest' ∧ strcmp m x <= 0.
Proof.
  induction rest as [|y rest IH]; intros x Hx Hr; simpl; [rewrite strcmp_refl; split_and!; [done|constructor|lia]|].
  apply Forall_cons_1 in Hr as [Hy Hr]. destruct (Z.ltb_spec 0 (strcmp x y)) as [Hlt|Hge].
  - specialize (IH y Hy Hr). destruct (exchange_row y rest) as [m rest']. destruct IH as (Hp & Hf & Hm).
    assert (c_string m) as Hcm.
    { assert (Forall c_string (m :: rest')) as H by (rewrite Hp; by constructor). apply Forall_cons_1 in H. apply H. }
    assert (strcmp m x <= 0) as Hmx by (apply (strcmp_trans m y x); [done..|]; rewrite strcmp_opp; lia).
    split_and!; [|by constructor|done]. by rewrite Permutation_swap, Hp.
  - specialize (IH x Hx Hr). destruct (exchange_row x rest) as [m rest']. destruct IH as (Hp & Hf & Hm).
    assert (c_string m) as Hcm.
    { assert (Forall c_string (m :: rest')) as H by (rewrite Hp; by constructor). apply Forall_cons_1 in H. apply H. }
    split_and!; [|constructor; [by apply (strcmp_trans m x y)|done]|done]. rewrite Permutation_swap, Hp. apply Permutation_swap.
Qed.

Lemma exchange_sort_spec n : ∀ l, length l = n → Forall c_string l →
  exchange_sort n l ≡ₚ l ∧ StronglySorted (λ a b, strcmp a b <= 0) (exchange_sort n l).
Proof.
  induction n as [|n IH]; intros [|x rest] Hl Hc; try done; [split; [done|constructor]|]. simpl in Hl.
  apply Forall_cons_1 in Hc as [Hx Hr]. cbn [exchange_sort]. pose proof (exchange_row_spec rest x Hx Hr) as H.
  destruct (exchange_row x rest) as [m rest']. destruct H as (Hp & Hf & _).
  assert (Forall c_string (m :: rest')) as Hc by (rewrite Hp; by constructor). apply Forall_cons_1 in Hc as [_ Hc].
  destruct (IH rest') as [Hp' Hs']; [apply Permutation_length in Hp; simpl in Hp; lia|done|].
  split; [by rewrite Hp'|]. constructor; [done|]. by rewrite Hp'.
Qed.

(** The tabs of the editor are up to 16 of the files that end in [.ini], in
    alphabetical order, and the first one is opened if it can be. *)
Theorem config_tabs_sorted (fs : files) (names : list (list Z)) (ed : config_editor) :
  Forall c_string names →
  always (tui_InitConfigScreen fs (Some names) ed) (λ q, ∀ r, q = Some r →
    configFiles r ≡ₚ list_files names ∧ StronglySorted (λ a b, strcmp a b <= 0) (configFiles r) ∧ activeConfigTab r = 0).
Proof.
  intros Hc. unfold tui_InitConfigScreen.
  assert (Forall c_string (list_files names)) as Hf.
  { unfold list_files. apply list.Forall_fmap. apply Forall_take.
    apply (list.Forall_impl (λ x, c_string x)); [|intros x Hx; by apply Forall_take].
    apply list.Forall_forall. intros x [_ Hx]%list_elem_of_filter. by apply (proj1 (list.Forall_forall _ _) Hc). }
  destruct (exchange_sort_spec (length (list_files names)) (list_files names) eq_refl Hf) as [Hp Hs].
  destruct (exchange_sort (length (list_files names)) (list_files names)) as [|f found] eqn:E; [apply always_ret; by intros r [= <-]|].
  unfold LoadConfigTab. cbn [configFiles lookup list_lookup Z.to_nat].
  apply always_bind. intros m. destruct (po_config_load _ m).1 as [[cfg|]|]; [|by apply always_ret; intros r [= <-]|by apply always_ret].
  apply always_bind. eapply always_mono; [apply refresh_ok|]. intros r (Hr1 & Hr2 & _). apply always_ret. intros r' [= <-]. cbn in *. by rewrite Hr1, Hr2.
Qed.

Lemma config_tabs_sorted_witness :
  (configFiles <$> (tui_InitConfigScreen (λ _, None) (Some [str "b.ini"; str "x"; str "a.ini"]) demo_editor []).1) = Some [str "a.ini"; str "b.ini"].
Proof.
  destruct (tui_InitConfigScreen (λ _, None) (Some [str "b.ini"; str "x"; str "a.ini"]) demo_editor []).1 as [r|] eqn:E;
    [|vm_compute in E; discriminate E].
  destruct (config_tabs_sorted (λ _, None) [str "b.ini"; str "x"; str "a.ini"] demo_editor) with (m := @nil bool) (r := r) as (_ & _ & _).
  - repeat (constructor; [literal_string|]). constructor.
  - exact E.
  - vm_compute in E. injection E as <-. reflexivity.
Defined.

(** A tab whose file cannot be loaded leaves the entries of the old one on the
    screen with nothing loaded behind them: an edit of one of them can be begun,
    but Enter does not end it and nothing is stored. *)
Theorem failed_load_keeps_entries (fs : files) (ed : config_editor) (index : Z) (name : list Z) :
  configFiles ed !! Z.to_nat index = Some name → fs (config_path name) = None →
  always (LoadConfigTab fs ed index) (λ r1, ∃ ed1, r1 = Some ed1 ∧ configDisplayItems ed1 = configDisplayItems ed ∧
    activeConfigTab ed1 = activeConfigTab ed ∧ loadedConfigHandle ed1 = None ∧
    ∀ ed2, tui_ConfigEnterEdit ed1 = Some ed2 → isEditing ed2 = true →
      tui_ConfigCommitEdit ed2 = mret (Some ed2)).
Proof.
  intros Hn Hf. unfold LoadConfigTab. rewrite Hn, Hf. apply always_bind. intros m.
  replace (po_config_load None m).1 with (Some (@None po_config)).
  2: { unfold po_config_load, _po_config_load, mbind, alloc_bind. destruct (malloc m) as [[] m0]; [|done]. simpl.
       destruct (po_hashtable_create m0) as [[e|] m1]; destruct (po_hashset_create m1) as [[t|] m2]; done. }
  apply always_ret. eexists. split_and!; [done..|]. intros ed2 He2 Hed. unfold tui_ConfigCommitEdit. rewrite Hed.
  assert (loadedConfigHandle ed2 = None) as ->; [|done]. unfold tui_ConfigEnterEdit in He2.
  destruct (configDisplayItems (set_message _ _)); simplify_option_eq; done.
Qed.

Lemma failed_load_keeps_entries_witness :
  ∃ ed1, (LoadConfigTab (λ _, None) demo_editor 0 []).1 = Some ed1 ∧ loadedConfigHandle ed1 = None.
Proof.
  destruct (failed_load_keeps_entries (λ _, None) demo_editor 0 demo_name) with (m := @nil bool) as (ed1 & E & _ & _ & H & _); [done|done|].
  exists ed1. split; [exact E|exact H].
Defined.

(** Without entries the selection is not bounded: the last index of no entries is
    the largest number. *)
Theorem page_down_without_entries (fs : files) (ed : config_editor) :
  configDisplayItems ed = [] → isEditing ed = false → 0 <= selectedConfigItemIndex ed < 2 ^ 31 →
  ∃ y, HandleConfigInput fs SCREEN_CONFIG ed KEY_NPAGE = mret (Some (true, SCREEN_CONFIG, select_item ed (2 ^ 32 - 1) y)).
Proof.
  intros Hi He Hs. unfold HandleConfigInput. rewrite He, Hi. cbn [length Z.eqb KEY_NPAGE KEY_UP KEY_DOWN KEY_PPAGE Pos.eqb].
  rewrite (u32_small (_ + 20)) by lia. destruct (Z.ltb_spec (selectedConfigItemIndex ed + 20) (Z.of_nat 0)); [lia|].
  change (u32 (Z.of_nat 0 - 1)) with (2 ^ 32 - 1). eexists. reflexivity.
Qed.

Lemma page_down_without_entries_witness :
  ∃ y, HandleConfigInput (λ _, None) SCREEN_CONFIG demo_editor KEY_NPAGE = mret (Some (true, SCREEN_CONFIG, select_item demo_editor (2 ^ 32 - 1) y)).
Proof. apply (page_down_without_entries (λ _, None) demo_editor); [done|done|split; [done|done]]. Defined.
