(* ===== verification/TuiViews.v ===== *)
(** * Registry, logs, help and network views of the user interface

    Commands and key bindings ([core/tui_registry.c]), the list of log files and
    the view of the end of one ([screens/screen_logs.c],
    [components/log_tail_view.c]), the table of key bindings
    ([screens/screen_help.c], [adapters/adapter_help.c]) and the table of channels
    ([screens/screen_ipc.c], [adapters/adapter_ipc.c]). *)

From Stdlib Require Import ZArith Lia SpecFloat String.
From stdpp Require Import base list numbers sorting sets.
From S2P Require Import Prelude Cstring Hashtable LoggerFormat TuiTable TuiEntities.

Local Open Scope Z_scope.

Definition CTRL_KEY (c : Z) : Z := Z.land c 0x1f.

(** ** Registry *)

Definition TUI_MAX_COMMANDS : nat := 128.
Definition TUI_MAX_BINDINGS : nat := 256.

Definition context_global : Z := 0.
Definition context_simulation : Z := 1.
Definition context_config : Z := 2.
Definition context_logs : Z := 3.
Definition context_editor : Z := 4.
Definition context_entities : Z := 5.

(** The functions registered as call backs, with their user data. *)
Inductive command_cb : Type := CmdQuit | CmdNav (screen : Z) | CmdFocusFilter | CmdLogsRefresh.

Record tui_command_t : Type := mk_command { cm_id : list Z; cm_description : list Z; cm_callback : option command_cb }.
Record tui_keybinding_t : Type := mk_binding { kb_key : Z; kb_ctrl : bool; kb_context : Z; kb_command : list Z }.
Record registry : Type := mk_registry { s_commands : list tui_command_t; s_bindings : list tui_keybinding_t }.

Definition tui_registry_register_command (g : registry) (id desc : list Z) (cb : option command_cb) : registry :=
  if (TUI_MAX_COMMANDS <=? length (s_commands g))%nat then g
  else mk_registry (s_commands g ++ [mk_command (take 31 id) (take 63 desc) cb]) (s_bindings g).

Definition tui_registry_register_binding (g : registry) (key : Z) (ctrl : bool) (context : Z) (id : list Z) : registry :=
  if (TUI_MAX_BINDINGS <=? length (s_bindings g))%nat then g
  else mk_registry (s_commands g) (s_bindings g ++ [mk_binding key ctrl context (take 31 id)]).

Fixpoint find_command (cs : list tui_command_t) (id : list Z) : option tui_command_t :=
  match cs with [] => None | c :: cs => if strcmp (cm_id c) id =? 0 then Some c else find_command cs id end.

(** The call back of the first binding of a key in a context whose command exists. *)
Fixpoint find_binding (cs : list tui_command_t) (bs : list tui_keybinding_t) (key context : Z) : option command_cb :=
  match bs with
  | [] => None
  | b :: bs =>
      match (if (kb_context b =? context) && (kb_key b =? key) then c ← find_command cs (kb_command b); cm_callback c else None) with
      | Some cb => Some cb
      | None => find_binding cs bs key context
      end
  end.

Definition tui_registry_process_input (g : registry) (key active : Z) : option command_cb :=
  match find_binding (s_commands g) (s_bindings g) key active with
  | Some cb => Some cb
  | None => if active =? context_global then None else find_binding (s_commands g) (s_bindings g) key context_global
  end.

Definition tui_registry_get_command_desc (g : registry) (id : list Z) : list Z :=
  match find_command (s_commands g) id with Some c => cm_description c | None => [] end.

(** ** Log files *)

Definition MAX_LOG_FILES : nat := 16.

Record log_screen : Type := mk_logs {
  logFiles : list (list Z);       (* 16 cells *)
  logFileCount : Z;
  activeLogTab : Z;
  logScrollX : spec_float;
  logReadOffset : Z
}.

Definition is_log (name : list Z) : bool :=
  (4 <? length name)%nat && (strcmp (drop (length name - 4) name) (str ".log") =? 0).
Definition log_names (names : list (list Z)) : list (list Z) := take 63 <$> take MAX_LOG_FILES (filter is_log names).

(** [names] are the entries of the directory, if it can be opened. *)
Definition tui_RefreshLogs (names : option (list (list Z))) (s : log_screen) : option log_screen :=
  let found := match names with Some names => log_names names | None => [] end in
  let cells := found ++ drop (length found) (logFiles s) in
  let n := Z.of_nat (length found) in
  cells ← (if 0 <? n then bubble_sort (λ a b, Some (strcmp a b)) true n cells else Some cells);
  Some (mk_logs cells n (activeLogTab s) (logScrollX s) (logReadOffset s)).

Definition logs_zero : log_screen := mk_logs (replicate MAX_LOG_FILES []) 0 0 f32_0 0.
Definition tui_InitLogsScreen (names : option (list (list Z))) (s : log_screen) : option log_screen :=
  tui_RefreshLogs names (mk_logs (logFiles s) 0 0 (logScrollX s) (logReadOffset s)).

Definition show_log (s : log_screen) (tab : Z) : log_screen := mk_logs (logFiles s) (logFileCount s) tab f32_0 (-1).
Definition OnLogTabClick (s : log_screen) (index : Z) : log_screen :=
  if (0 <=? index) && (index <? i32 (logFileCount s)) then show_log s (u32 index) else s.

(** ** The end of a log file *)

Definition BUFFER_SIZE : Z := 4096.

(** The scan back from the end of a buffer, its characters given from the last
    one; [i] is the place of the first: the start of the last [visible] lines. *)
Fixpoint scan_back (rev : list Z) (i found visible : Z) : option Z * Z :=
  match rev with
  | [] => (None, found)
  | c :: rev =>
      if c =? 10 then
        if visible <=? found + 1 then (Some (i + 1), found + 1) else scan_back rev (i - 1) (found + 1) visible
      else scan_back rev (i - 1) found visible
  end.

(** The offset for the mark -1 (the end of the file). *)
Definition tail_offset (file : list Z) (lines : Z) : Z :=
  let size := Z.of_nat (length file) in
  let visible := if lines - 14 <? 5 then 5 else lines - 14 in
  let start := if size - BUFFER_SIZE <? 0 then 0 else size - BUFFER_SIZE in
  let buffer := take (Z.to_nat BUFFER_SIZE) (drop (Z.to_nat start) file) in
  let '(at_line, found) := scan_back (rev buffer) (Z.of_nat (length buffer) - 1) 0 visible in
  if (found <? visible) && (start =? 0) then 0
  else if found <? visible then start
  else match at_line with Some i => start + i | None => size end.

(** [strtok(buffer, "\n")] to the end: the lines that are not empty. *)
Fixpoint strtok_lines (s line : list Z) : list (list Z) :=
  match s with
  | [] => match line with [] => [] | _ => [line] end
  | c :: s => if c =? 10 then match line with [] => strtok_lines s [] | _ => line :: strtok_lines s [] end
              else strtok_lines s (line ++ [c])
  end.

(** The new offset and the lines drawn; [lines] is the height of the screen. *)
Definition tui_RenderLogTailView (file : list Z) (lines offset : Z) : Z * list (list Z) :=
  let size := Z.of_nat (length file) in
  let offset := if offset =? -1 then tail_offset file lines else offset in
  let offset := if size <? offset then size else offset in
  let read := if size <? offset + BUFFER_SIZE then size - offset else BUFFER_SIZE in
  let buffer := if 0 <? read then take (Z.to_nat read) (drop (Z.to_nat offset) file) else [] in
  let drawn := strtok_lines buffer [] in
  (offset, if 0 <? offset then tail drawn else drawn).

(** ** Help *)

Record Keybinding : Type := mk_help { hp_key : list Z; hp_description : list Z; hp_context : list Z }.

Definition context_to_str (c : Z) : list Z :=
  str (match c with
       | 0 => "Global" | 1 => "Simulation" | 2 => "Config" | 3 => "Logs" | 4 => "Editor" | 5 => "Entities"
       | _ => "Unknown"
       end).

Definition format_key (key : Z) (ctrl : bool) : list Z :=
  if ctrl then
    str "Ctrl + " ++ [if (97 <=? key) && (key <=? 122) then key - 32 else key]
  else if (1 <=? key) && (key <=? 26) then
    if key =? 10 then str "Enter"
    else if key =? 9 then str "Tab"
    else str "Ctrl + " ++ [65 + key - 1]
  else if (KEY_F 1 <=? key) && (key <=? KEY_F 12) then str "F" ++ dec_int (key - KEY_F 0)
  else if key =? 27 then str "Esc"
  else if (key =? 127) || (key =? KEY_BACKSPACE) then str "Backspace"
  else if (32 <=? key) && (key <=? 126) then [key]
  else str "[" ++ dec_int key ++ str "]".

Definition help_row (g : registry) (b : tui_keybinding_t) : Keybinding :=
  mk_help (take 31 (format_key (kb_key b) (kb_ctrl b)))
          (take 127 (tui_registry_get_command_desc g (kb_command b))) (take 31 (context_to_str (kb_context b))).

Definition tui_InitHelpScreen (g : registry) : list Keybinding := help_row g <$> take 128 (s_bindings g).

Definition help_cmp (colId : Z) (a b : Keybinding) : Z :=
  match colId with
  | 0 => strcmp (hp_key a) (hp_key b)
  | 1 => strcmp (hp_description a) (hp_description b)
  | 2 => strcmp (hp_context a) (hp_context b)
  | _ => 0
  end.

Global Instance g_HelpAdapter : DataTableAdapter (list Keybinding) :=
  {| GetCount rows := Z.of_nat (length rows);
     OnSort rows colId ascending := bubble_sort (λ a b, Some (help_cmp colId a b)) ascending (Z.of_nat (length rows)) rows;
     OnRowSelect rows _ := rows |}.

(** ** Channels *)

Record MockIPCChannel : Type := mk_channel {
  fromNodeIndex : Z;
  toNodeIndex : Z;
  messagesPerSec : Z;
  bandwidthBytesPerSec : Z;
  bufferUsagePercent : Z
}.
Record ipc_screen : Type := mk_ipc { mockIPCNodes : list (list Z); mockIPCChannels : list MockIPCChannel }.

Definition ipc_nodes : list (list Z) :=
  [str "Director"; str "Ticket Issuer"; str "Users Mgr"; str "Worker-1"; str "Worker-2"; str "Worker-3"; str "Worker-4"].
Definition tui_InitIPCScreen : ipc_screen :=
  mk_ipc ipc_nodes
    ([mk_channel 0 1 0 0 0; mk_channel 0 2 0 0 0] ++ ((λ i : nat, mk_channel 1 (3 + Z.of_nat i) 0 0 0) <$> seq 0 4)).

(** Conversion of a binary32 number to an unsigned integer. *)
Definition f32_to_Z (x : spec_float) : Z :=
  match x with S754_finite false m e => Z.shiftl (Zpos m) e | _ => 0 end.

Definition update_channel (rand : Z) (c : MockIPCChannel) : MockIPCChannel :=
  let m := messagesPerSec c + (rand mod 11 - 5) in
  let m := if m <? 0 then 0 else m in
  let m := if 1000 <? m then 1000 else m in
  mk_channel (fromNodeIndex c) (toNodeIndex c) m (m * 64) (f32_to_Z (f32_div (f32_of_Z m) (f32_of_Z 10))).
(** [rand i] is the result of the [i]-th call. *)
Definition tui_UpdateIPCScreen (rand : nat → Z) (s : ipc_screen) : ipc_screen :=
  mk_ipc (mockIPCNodes s) (imap (λ i c, update_channel (rand i) c) (mockIPCChannels s)).

Definition ipc_cmp (nodes : list (list Z)) (colId : Z) (a b : MockIPCChannel) : option Z :=
  match colId with
  | 0 => x ← nodes.[fromNodeIndex a]; y ← nodes.[fromNodeIndex b]; Some (strcmp x y)
  | 1 => x ← nodes.[toNodeIndex a]; y ← nodes.[toNodeIndex b]; Some (strcmp x y)
  | 2 => Some (i32 (messagesPerSec a - messagesPerSec b))
  | 3 => Some (i32 (bandwidthBytesPerSec a - bandwidthBytesPerSec b))
  | 4 => Some (i32 (u32 (bufferUsagePercent a - bufferUsagePercent b)))
  | _ => Some 0
  end.

Global Instance g_IPCadapter : DataTableAdapter ipc_screen :=
  {| GetCount s := Z.of_nat (length (mockIPCChannels s));
     OnSort s colId ascending :=
       cs ← bubble_sort (ipc_cmp (mockIPCNodes s) colId) ascending (Z.of_nat (length (mockIPCChannels s))) (mockIPCChannels s);
       Some (mk_ipc (mockIPCNodes s) cs);
     OnRowSelect s _ := s |}.

(** ** Lemmas *)

Global Instance help_laws : TableLaws (list Keybinding) (λ rows, (length rows ≤ 128)%nat).
Proof.
  split; simpl.
  - intros rows Hl. lia.
  - done.
  - intros rows col asc Hl Hpos.
    destruct (bubble_sort_perm (λ _, True) (λ a b, Some (help_cmp col a b)) asc ltac:(eauto) (Z.of_nat (length rows)) rows)
      as (w & -> & Hw); [lia|lia|by apply list.Forall_forall|].
    rewrite Nat2Z.id, firstn_all in Hw. rewrite Nat2Z.id, drop_all, app_nil_r. apply Permutation_length in Hw. exists w. rewrite Hw. done.
Qed.

(** Well-formed channels. *)
Definition channel_ok (c : MockIPCChannel) : Prop :=
  0 <= fromNodeIndex c < 7 ∧ 0 <= toNodeIndex c < 7 ∧ 0 <= messagesPerSec c <= 1000 ∧
  bandwidthBytesPerSec c = 64 * messagesPerSec c ∧ bufferUsagePercent c = messagesPerSec c / 10.
Definition ipc_ok (s : ipc_screen) : Prop :=
  length (mockIPCNodes s) = 7%nat ∧ length (mockIPCChannels s) = 6%nat ∧ Forall channel_ok (mockIPCChannels s).

Lemma ipc_cmp_defined nodes col a b :
  length nodes = 7%nat → channel_ok a → channel_ok b → is_Some (ipc_cmp nodes col a b).
Proof.
  intros Hl (Ha1 & Ha2 & _) (Hb1 & Hb2 & _).
  assert (∀ i, 0 <= i < 7 → is_Some (nodes.[i])) as Hn by (intros i Hi; apply lookup_lt_is_Some_2; lia).
  destruct (Hn _ Ha1) as [x1 E1], (Hn _ Ha2) as [x2 E2], (Hn _ Hb1) as [y1 F1], (Hn _ Hb2) as [y2 F2].
  unfold ipc_cmp. rewrite E1, E2, F1, F2. cbn [mbind option_bind]. repeat case_match; eauto.
Qed.

Global Instance ipc_laws : TableLaws ipc_screen ipc_ok.
Proof.
  split; simpl.
  - intros s (_ & -> & _). lia.
  - done.
  - intros s col asc (Hn & Hl & Hc) Hpos.
    destruct (bubble_sort_perm channel_ok (ipc_cmp (mockIPCNodes s) col) asc
      (λ a b, ipc_cmp_defined (mockIPCNodes s) col a b Hn) (Z.of_nat (length (mockIPCChannels s))) (mockIPCChannels s))
      as (w & -> & Hw); [lia|lia|done|].
    rewrite Nat2Z.id, firstn_all in Hw. rewrite Nat2Z.id, drop_all, app_nil_r. cbn [mbind option_bind].
    eexists. split; [done|]. unfold ipc_ok. simpl. rewrite Hw. by split_and!.
Qed.

(** The buffer use is the tenth of the rate, rounded down, for every rate that
    occurs. *)
Lemma buffer_percent m : 0 <= m <= 1000 → f32_to_Z (f32_div (f32_of_Z m) (f32_of_Z 10)) = m / 10.
Proof.
  intros Hm. assert (forallb (λ i : nat, f32_to_Z (f32_div (f32_of_Z (Z.of_nat i)) (f32_of_Z 10)) =? Z.of_nat i / 10) (seq 0 1001) = true) as H
    by (vm_compute; reflexivity).
  rewrite forallb_forall in H. specialize (H (Z.to_nat m)). rewrite Z2Nat.id in H by lia. apply Z.eqb_eq, H, in_seq. lia.
Qed.

Lemma update_channel_ok r c : channel_ok c → channel_ok (update_channel r c).
Proof.
  intros (H1 & H2 & H3 & _). unfold update_channel.
  set (m := messagesPerSec c + (r mod 11 - 5)). set (m1 := if m <? 0 then 0 else m). set (m2 := if 1000 <? m1 then 1000 else m1).
  assert (0 <= m2 <= 1000) as Hm by (subst m2 m1; destruct (Z.ltb_spec m 0); case_match; lia).
  split_and!; simpl; try lia. by apply buffer_percent.
Qed.

Lemma update_ipc_ok rand s : ipc_ok s → ipc_ok (tui_UpdateIPCScreen rand s).
Proof.
  intros (H1 & H2 & H3). unfold ipc_ok, tui_UpdateIPCScreen. simpl. rewrite length_imap. split_and!; [done..|].
  apply list.Forall_lookup. intros i c. rewrite list_lookup_imap. intros (x & Hx & ->)%fmap_Some.
  apply update_channel_ok. by apply (proj1 (list.Forall_lookup _ _) H3 i).
Qed.

Lemma init_ipc_ok : ipc_ok tui_InitIPCScreen.
Proof. split_and!; [done..|]. repeat (constructor; [vm_compute; split_and!; done|]). constructor. Qed.

Definition logs_ok (s : log_screen) : Prop :=
  length (logFiles s) = MAX_LOG_FILES ∧ 0 <= logFileCount s <= Z.of_nat MAX_LOG_FILES ∧
  0 <= activeLogTab s < Z.of_nat MAX_LOG_FILES ∧ -1 <= logReadOffset s.

Lemma length_log_names names : (length (log_names names) ≤ MAX_LOG_FILES)%nat.
Proof. unfold log_names. rewrite length_fmap, length_take. lia. Qed.

Lemma refresh_logs_ok names s : logs_ok s → ∃ s', tui_RefreshLogs names s = Some s' ∧ logs_ok s'.
Proof.
  intros (H1 & H2 & H3 & H4). unfold tui_RefreshLogs.
  set (found := match names with Some names => log_names names | None => [] end).
  assert (length found ≤ MAX_LOG_FILES)%nat as Hf by (subst found; destruct names; [apply length_log_names|simpl; unfold MAX_LOG_FILES; lia]).
  set (cells := found ++ drop (length found) (logFiles s)).
  assert (length cells = MAX_LOG_FILES) as Hc by (subst cells; rewrite length_app, length_drop; lia).
  assert (∃ cells', (if 0 <? Z.of_nat (length found) then bubble_sort (λ a b, Some (strcmp a b)) true (Z.of_nat (length found)) cells
    else Some cells) = Some cells' ∧ length cells' = MAX_LOG_FILES) as (cells' & -> & Hc').
  { destruct (Z.ltb_spec 0 (Z.of_nat (length found))); [|by exists cells].
    destruct (bubble_sort_perm (λ _, True) (λ a b, Some (strcmp a b)) true ltac:(eauto) (Z.of_nat (length found)) cells)
      as (w & -> & Hw); [lia|unfold MAX_LOG_FILES in *; lia|by apply list.Forall_forall|].
    eexists. split; [done|]. rewrite length_app, Hw, <- length_app, take_drop. done. }
  cbn [mbind option_bind]. eexists. split; [done|]. split_and!; simpl; try done; lia.
Qed.

Lemma show_log_ok s tab : logs_ok s → 0 <= tab < Z.of_nat MAX_LOG_FILES → logs_ok (show_log s tab).
Proof. intros (H1 & H2 & H3 & H4) Ht. unfold logs_ok. simpl. split_and!; lia || done. Qed.

Lemma log_tab_ok s i : logs_ok s → logs_ok (OnLogTabClick s i).
Proof.
  intros Hok. pose proof Hok as (H1 & H2 & H3 & H4). unfold OnLogTabClick. unfold i32.
  rewrite signed_small by (unfold MAX_LOG_FILES in *; lia).
  destruct (Z.leb_spec 0 i), (Z.ltb_spec i (logFileCount s)); simpl; try done. apply show_log_ok; [done|].
  rewrite u32_small; unfold MAX_LOG_FILES in *; lia.
Qed.

(** ** The end of a log file *)

(** The text of whole lines. *)
Definition text (ls : list (list Z)) : list Z := concat ((λ l, l ++ [10]) <$> ls).
Definition log_line (l : list Z) : Prop := l ≠ [] ∧ 10 ∉ l.

Lemma text_app a b : text (a ++ b) = text a ++ text b.
Proof. unfold text. by rewrite fmap_app, concat_app. Qed.

Lemma strtok_line l : ∀ acc s, 10 ∉ l → acc ++ l ≠ [] →
  strtok_lines (l ++ 10 :: s) acc = (acc ++ l) :: strtok_lines s [].
Proof.
  induction l as [|c l IH]; intros acc s Hn Hne; simpl.
  - rewrite app_nil_r in *. by destruct acc.
  - apply not_elem_of_cons in Hn as [Hc Hn]. destruct (Z.eqb_spec c 10); [congruence|]. rewrite IH; [by rewrite <- app_assoc|done|].
    rewrite <- app_assoc. by destruct acc.
Qed.

Lemma strtok_text ls : Forall log_line ls → strtok_lines (text ls) [] = ls.
Proof.
  induction 1 as [|l ls [Hne Hn] _ IH]; [done|]. change (text (l :: ls)) with ((l ++ [10]) ++ text ls).
  rewrite <- app_assoc. cbn [app]. rewrite strtok_line by done. by rewrite IH.
Qed.

Lemma scan_line l : ∀ rest i found visible, 10 ∉ l →
  scan_back (l ++ rest) i found visible = scan_back rest (i - Z.of_nat (length l)) found visible.
Proof.
  induction l as [|c l IH]; intros rest i found visible Hn; simpl; [f_equal; lia|].
  apply not_elem_of_cons in Hn as [Hc Hn]. destruct (Z.eqb_spec c 10); [congruence|]. rewrite IH by done. f_equal. lia.
Qed.

Lemma scan_text ls : Forall log_line ls → ∀ found visible, 0 <= found < visible →
  scan_back (rev (text ls)) (Z.of_nat (length (text ls)) - 1) found visible =
  if visible <=? found + Z.of_nat (length ls) then
    (Some (Z.of_nat (length (text (take (length ls - Z.to_nat (visible - found) + 1) ls)))), visible)
  else (None, found + Z.of_nat (length ls)).
Proof.
  induction ls as [|l ls IH] using rev_ind; intros Hls found visible Hf.
  - simpl. rewrite Z.add_0_r. destruct (Z.leb_spec visible found); [lia|done].
  - apply list.Forall_app in Hls as [Hls Hl]. apply Forall_cons_1 in Hl as [[_ Hn] _].
    rewrite text_app. unfold text at 2 4. cbn [fmap list_fmap concat]. rewrite app_nil_r, rev_app_distr, rev_app_distr.
    cbn [rev app scan_back Z.eqb Pos.eqb]. rewrite !length_app. cbn [length].
    destruct (Z.leb_spec visible (found + 1)) as [Hv|Hv].
    + assert (visible = found + 1) as -> by lia. destruct (Z.leb_spec (found + 1) (found + Z.of_nat (length ls + 1))); [|lia].
      f_equal. f_equal. replace (Z.to_nat (found + 1 - found)) with 1%nat by lia. rewrite Nat.add_sub, (take_ge (ls ++ [l])) by (rewrite length_app; simpl; lia).
      rewrite text_app, length_app. unfold text at 3. simpl. rewrite app_nil_r, length_app. simpl. lia.
    + rewrite scan_line by (intros Hin; apply Hn; apply list_elem_of_In; apply in_rev; by apply list_elem_of_In).
      rewrite length_rev. replace (_ - 1 - 1 - _) with (Z.of_nat (length (text ls)) - 1) by lia. rewrite IH by (done || lia).
      replace (found + 1 + Z.of_nat (length ls)) with (found + Z.of_nat (length ls + 1)) by lia.
      destruct (Z.leb_spec visible (found + Z.of_nat (length ls + 1))); [|done]. do 3 f_equal.
      rewrite take_app_le by lia. do 3 f_equal. lia.
Qed.

Lemma text_drop k ls : drop (length (text (take k ls))) (text ls) = text (drop k ls).
Proof.
  rewrite <- (take_drop k ls) at 2. rewrite text_app, drop_app_length. done.
Qed.

Lemma take_pos k (ls : list (list Z)) : (0 < k)%nat → ls ≠ [] → 0 < Z.of_nat (length (text (take k ls))).
Proof. destruct k, ls; try done; [lia|]. intros _ _. unfold text. simpl. rewrite !length_app. simpl. lia. Qed.

(** ** Properties *)

(** The log view at the end of a file of whole lines that fits the read
    buffer: a file with fewer lines than the view shows is drawn completely from
    the start; of a longer one the view draws the last lines, two fewer than the
    number of lines it computed for the screen, because the newline that ends
    the file is counted as a line and the first line read is always skipped. *)
Theorem log_tail_view_lines (ls : list (list Z)) (lines : Z) :
  Forall log_line ls → Z.of_nat (length (text ls)) <= BUFFER_SIZE →
  let visible := Z.max 5 (lines - 14) in
  (tui_RenderLogTailView (text ls) lines (-1)).2 =
    if Z.of_nat (length ls) <? visible then ls else drop (length ls - Z.to_nat (visible - 2)) ls.
Proof.
  intros Hls Hsz visible. unfold tui_RenderLogTailView, tail_offset. cbn [Z.eqb Pos.eqb].
  set (size := Z.of_nat (length (text ls))) in *.
  replace (if size - BUFFER_SIZE <? 0 then 0 else size - BUFFER_SIZE) with 0 by (destruct (Z.ltb_spec (size - BUFFER_SIZE) 0); lia).
  replace (if lines - 14 <? 5 then 5 else lines - 14) with visible by (subst visible; destruct (Z.ltb_spec (lines - 14) 5); lia).
  change (Z.to_nat 0) with 0%nat. rewrite drop_0, take_ge by (unfold size, BUFFER_SIZE in *; lia).
  rewrite scan_text by (done || lia). rewrite Z.sub_0_r, Z.add_0_l.
  destruct (Z.leb_spec visible (Z.of_nat (length ls))) as [Hv|Hv]; cbn iota beta.
  - set (k := (length ls - Z.to_nat visible + 1)%nat). set (off := Z.of_nat (length (text (take k ls)))).
    rewrite Z.ltb_irrefl. cbn [andb]. destruct (Z.ltb_spec (Z.of_nat (length ls)) visible); [lia|].
    assert (0 < off) as Hoff by (apply take_pos; [lia|intros ->; simpl in *; lia]).
    assert (off <= size) as Hle.
    { unfold off, size. rewrite <- (take_drop k ls) at 2. rewrite text_app, length_app. lia. }
    rewrite Z.add_0_l. destruct (Z.ltb_spec size off); [lia|]. destruct (Z.ltb_spec size (off + BUFFER_SIZE)); [|lia].
    pose proof (text_drop k ls) as Hd. replace (length (text (take k ls))) with (Z.to_nat off) in Hd by lia.
    assert ((if 0 <? size - off then take (Z.to_nat (size - off)) (drop (Z.to_nat off) (text ls)) else []) = text (drop k ls)) as ->.
    { rewrite Hd. assert (Z.of_nat (length (text (drop k ls))) = size - off) as El by (rewrite <- Hd, length_drop; lia).
      destruct (Z.ltb_spec 0 (size - off)); [rewrite take_ge by lia; done|].
      destruct (text (drop k ls)); [done|simpl in El; lia]. }
    destruct (Z.ltb_spec 0 off); [|lia]. cbn [snd]. rewrite strtok_text by (by apply Forall_drop).
    replace (length ls - Z.to_nat (visible - 2))%nat with (S k) by lia. 
    replace (tail (drop k ls)) with (drop 1 (drop k ls)) by (by destruct (drop k ls)). rewrite drop_drop. f_equal. lia.
  - destruct (Z.ltb_spec (Z.of_nat (length ls)) visible); [|lia]. cbn [andb Z.eqb].
    destruct (Z.ltb_spec size 0); [lia|]. cbn [Z.ltb Z.compare snd]. change (Z.to_nat 0) with 0%nat. rewrite drop_0.
    replace (if size <? 0 + BUFFER_SIZE then size - 0 else BUFFER_SIZE) with size
      by (destruct (Z.ltb_spec size (0 + BUFFER_SIZE)); lia).
    assert ((if 0 <? size then take (Z.to_nat size) (text ls) else []) = text ls) as ->.
    { destruct (Z.ltb_spec 0 size); [by rewrite take_ge by lia|]. destruct (text ls) as [|c l] eqn:E; [done|].
      subst size. simpl in *. lia. }
    by apply strtok_text.
Qed.

Lemma log_tail_view_lines_witness :
  (tui_RenderLogTailView (text [[65]; [66]; [67]; [68]; [69]]) 10 (-1)).2 = [[67]; [68]; [69]].
Proof.
  rewrite (log_tail_view_lines [[65]; [66]; [67]; [68]; [69]] 10).
  - vm_compute. reflexivity.
  - repeat (constructor; [split; [done|set_solver]|]). constructor.
  - vm_compute. discriminate.
Defined.
