(* ===== verification/Tui.v ===== *)
(** * The user interface ([app/src/core/main/tui/app_tui.c])

    The state of all screens, what keys and clicks do to it, and the scratch memory
    of a frame.  Drawing has no state apart from the definitions of the tables and
    the offset of the log view; the contents of files and directories and random
    numbers are arguments.  [None] is an access outside of an array. *)

From Stdlib Require Import ZArith Lia SpecFloat String.
From stdpp Require Import base list numbers sorting.
From S2P Require Import Prelude Cstring Hashtable Ini Configs LoggerFormat TuiTable TuiEntities TuiConfig TuiViews.

Local Open Scope Z_scope.

Definition SCREEN_SIMULATION : Z := 0.
Definition SCREEN_PERFORMANCE : Z := 1.
Definition SCREEN_LOGS : Z := 2.
Definition SCREEN_ENTITIES : Z := 4.
Definition SCREEN_NETWORK : Z := 5.
Definition SCREEN_HELP : Z := 6.
Definition SCREEN_DIRECTOR : Z := 7.
Definition TAB_SIM_COUNT : Z := 2.
Definition TAB_PERF_COUNT : Z := 3.
Definition INPUT_BUFFER_SIZE : nat := 256.

Record director_ctrl : Type := mk_director { simIsRunning : bool; activeWorkers : Z; activeUsers : Z }.

(** [tablesReady] tells that the entities screen has been drawn. *)
Record tuiState : Type := mk_tui {
  currentScreen : Z;
  activeSimTab : Z;
  activePerfTab : Z;
  st_logs : log_screen;
  st_entities : entities;
  tablesReady : bool;
  st_ipc : ipc_screen;
  ipcTableState : DataTableState;
  st_help : list Keybinding;
  helpTableState : DataTableState;
  st_director : director_ctrl;
  st_config : config_editor;
  inputBuffer : list Z;
  inputCursor : Z;
  running : bool
}.

Definition set_screen (s : tuiState) (n : Z) : tuiState :=
  mk_tui n (activeSimTab s) (activePerfTab s) (st_logs s) (st_entities s) (tablesReady s) (st_ipc s) (ipcTableState s)
    (st_help s) (helpTableState s) (st_director s) (st_config s) (inputBuffer s) (inputCursor s) (running s).
Definition set_sim_tab (s : tuiState) (n : Z) : tuiState :=
  mk_tui (currentScreen s) n (activePerfTab s) (st_logs s) (st_entities s) (tablesReady s) (st_ipc s) (ipcTableState s)
    (st_help s) (helpTableState s) (st_director s) (st_config s) (inputBuffer s) (inputCursor s) (running s).
Definition set_perf_tab (s : tuiState) (n : Z) : tuiState :=
  mk_tui (currentScreen s) (activeSimTab s) n (st_logs s) (st_entities s) (tablesReady s) (st_ipc s) (ipcTableState s)
    (st_help s) (helpTableState s) (st_director s) (st_config s) (inputBuffer s) (inputCursor s) (running s).
Definition set_logs (s : tuiState) (l : log_screen) : tuiState :=
  mk_tui (currentScreen s) (activeSimTab s) (activePerfTab s) l (st_entities s) (tablesReady s) (st_ipc s) (ipcTableState s)
    (st_help s) (helpTableState s) (st_director s) (st_config s) (inputBuffer s) (inputCursor s) (running s).
Definition set_ents (s : tuiState) (e : entities) (ready : bool) : tuiState :=
  mk_tui (currentScreen s) (activeSimTab s) (activePerfTab s) (st_logs s) e ready (st_ipc s) (ipcTableState s)
    (st_help s) (helpTableState s) (st_director s) (st_config s) (inputBuffer s) (inputCursor s) (running s).
Definition set_ipc (s : tuiState) (i : ipc_screen) (t : DataTableState) : tuiState :=
  mk_tui (currentScreen s) (activeSimTab s) (activePerfTab s) (st_logs s) (st_entities s) (tablesReady s) i t
    (st_help s) (helpTableState s) (st_director s) (st_config s) (inputBuffer s) (inputCursor s) (running s).
Definition set_help_screen (s : tuiState) (h : list Keybinding) (t : DataTableState) : tuiState :=
  mk_tui (currentScreen s) (activeSimTab s) (activePerfTab s) (st_logs s) (st_entities s) (tablesReady s) (st_ipc s) (ipcTableState s)
    h t (st_director s) (st_config s) (inputBuffer s) (inputCursor s) (running s).
Definition set_director (s : tuiState) (d : director_ctrl) : tuiState :=
  mk_tui (currentScreen s) (activeSimTab s) (activePerfTab s) (st_logs s) (st_entities s) (tablesReady s) (st_ipc s) (ipcTableState s)
    (st_help s) (helpTableState s) d (st_config s) (inputBuffer s) (inputCursor s) (running s).
Definition set_editor (s : tuiState) (c : config_editor) : tuiState :=
  mk_tui (currentScreen s) (activeSimTab s) (activePerfTab s) (st_logs s) (st_entities s) (tablesReady s) (st_ipc s) (ipcTableState s)
    (st_help s) (helpTableState s) (st_director s) c (inputBuffer s) (inputCursor s) (running s).
Definition set_input (s : tuiState) (b : list Z) (n : Z) : tuiState :=
  mk_tui (currentScreen s) (activeSimTab s) (activePerfTab s) (st_logs s) (st_entities s) (tablesReady s) (st_ipc s) (ipcTableState s)
    (st_help s) (helpTableState s) (st_director s) (st_config s) b n (running s).
Definition tui_OnQuit (s : tuiState) : tuiState :=
  mk_tui (currentScreen s) (activeSimTab s) (activePerfTab s) (st_logs s) (st_entities s) (tablesReady s) (st_ipc s) (ipcTableState s)
    (st_help s) (helpTableState s) (st_director s) (st_config s) (inputBuffer s) (inputCursor s) false.

(** ** Commands *)

Definition nav_commands : list (Z * string * string * Z) :=
  [(KEY_F 1, "nav.dashboard", "Go to Dashboard", SCREEN_SIMULATION);
   (KEY_F 2, "nav.performance", "Go to Performance", SCREEN_PERFORMANCE);
   (KEY_F 3, "nav.logs", "Go to Logs", SCREEN_LOGS);
   (KEY_F 4, "nav.config", "Go to Config", SCREEN_CONFIG);
   (KEY_F 5, "nav.entities", "Go to Entities", SCREEN_ENTITIES);
   (KEY_F 6, "nav.ipc", "Go to IPC Inspector", SCREEN_NETWORK);
   (KEY_F 7, "nav.help", "Go to Help", SCREEN_HELP);
   (KEY_F 8, "nav.director", "Go to Director Ctrl", SCREEN_DIRECTOR)]%string.

Definition register (g : registry) (key context : Z) (id desc : string) (cb : command_cb) : registry :=
  tui_registry_register_binding (tui_registry_register_command g (str id) (str desc) (Some cb)) key false context (str id).

(** The registry when all screens have been initialised. *)
Definition initial_registry : registry :=
  let g := register (mk_registry [] []) (CTRL_KEY 113) context_global "sys.quit" "Quit Application" CmdQuit in
  let g := foldl (λ g n, let '(key, id, desc, screen) := n in register g key context_global id desc (CmdNav screen)) g nav_commands in
  let g := register g (CTRL_KEY 114) context_logs "logs.refresh" "Refresh Log Files" CmdLogsRefresh in
  let g := register g (CTRL_KEY 102) context_entities "entities.filter.focus" "Focus Filter" CmdFocusFilter in
  tui_registry_register_binding g (CTRL_KEY 47) false context_entities (str "entities.filter.focus").

(** [logdir] are the names in the log directory when it is read. *)
Definition run_command (logdir : option (list (list Z))) (s : tuiState) (cb : command_cb) : option tuiState :=
  match cb with
  | CmdQuit => Some (tui_OnQuit s)
  | CmdNav screen => Some (set_screen s screen)
  | CmdFocusFilter => Some (set_ents s (cmd_focus_filter (st_entities s)) (tablesReady s))
  | CmdLogsRefresh => l ← tui_RefreshLogs logdir (st_logs s); Some (set_logs s l)
  end.

(** ** Keys *)

Definition is_ctrl (key c : Z) : bool := key =? CTRL_KEY c.

(** The counters of the director screen. *)
Definition director_key (key : Z) (d : director_ctrl) : option director_ctrl :=
  let w := activeWorkers d in let u := activeUsers d in
  if is_ctrl key 119 then Some (mk_director (simIsRunning d) (if w <? 50 then w + 1 else w) u)
  else if is_ctrl key 101 then Some (mk_director (simIsRunning d) (if 0 <? w then w - 1 else w) u)
  else if is_ctrl key 117 then Some (mk_director (simIsRunning d) w (if u <? 200 then u + 1 else u))
  else if is_ctrl key 121 then Some (mk_director (simIsRunning d) w (if 0 <? u then u - 1 else u))
  else None.

Definition OnControlClick (d : director_ctrl) (action : Z) : director_ctrl :=
  let w := activeWorkers d in let u := activeUsers d in
  match action with
  | 0 => mk_director (negb (simIsRunning d)) w u
  | 1 => mk_director (simIsRunning d) (if w <? 50 then w + 1 else w) u
  | 2 => mk_director (simIsRunning d) (if 0 <? w then w - 1 else w) u
  | 3 => mk_director (simIsRunning d) w (if u <? 100 then u + 1 else u)
  | 4 => mk_director (simIsRunning d) w (if 0 <? u then u - 1 else u)
  | _ => d
  end.

(** A step through [count] tabs. *)
Definition next_of (n count : Z) : Z := u32 (n + 1) mod count.
Definition prev_of (n count : Z) : Z := u32 (n - 1 + count) mod count.

(** Left and right arrows. *)
Definition switch_tab (s : tuiState) (move : Z → Z → Z) : option tuiState :=
  let l := st_logs s in
  if currentScreen s =? SCREEN_SIMULATION then Some (set_sim_tab s (move (activeSimTab s) TAB_SIM_COUNT))
  else if currentScreen s =? SCREEN_PERFORMANCE then Some (set_perf_tab s (move (activePerfTab s) TAB_PERF_COUNT))
  else if (currentScreen s =? SCREEN_LOGS) && (0 <? logFileCount l) then
    Some (set_logs s (show_log l (move (activeLogTab l) (logFileCount l))))
  else if currentScreen s =? SCREEN_ENTITIES then
    e ← tui_UpdateEntitiesFilter (set_tab (st_entities s) (move (activeEntitiesTab (st_entities s)) 2));
    Some (set_ents s e (tablesReady s))
  else Some s.

Definition set_offset (l : log_screen) (offset : Z) : log_screen :=
  mk_logs (logFiles l) (logFileCount l) (activeLogTab l) (logScrollX l) offset.
Definition set_scroll_x (l : log_screen) (x : spec_float) : log_screen :=
  mk_logs (logFiles l) (logFileCount l) (activeLogTab l) x (logReadOffset l).
Definition log_scroll_left (l : log_screen) : log_screen :=
  set_scroll_x l (not_above_0 (f32_add (logScrollX l) (f32_of_Z 50))).
Definition log_scroll_right (l : log_screen) : log_screen := set_scroll_x l (f32_sub (logScrollX l) (f32_of_Z 50)).

Definition in_logs (s : tuiState) (f : log_screen → log_screen) : tuiState :=
  if currentScreen s =? SCREEN_LOGS then set_logs s (f (st_logs s)) else s.

(** The keys that no screen has consumed: arrows, pages and the command line. *)
Definition global_key (s : tuiState) (key : Z) : option tuiState :=
  if key =? KEY_DOWN then Some (set_screen s (next_of (currentScreen s) SCREEN_COUNT))
  else if key =? KEY_UP then Some (set_screen s (prev_of (currentScreen s) SCREEN_COUNT))
  else if key =? KEY_RIGHT then switch_tab s next_of
  else if key =? KEY_LEFT then switch_tab s prev_of
  else if key =? KEY_SLEFT then Some (in_logs s log_scroll_left)
  else if key =? KEY_SRIGHT then Some (in_logs s log_scroll_right)
  else if (key =? NEWLINE) || (key =? KEY_ENTER) then
    if 0 <? inputCursor s then b ← store_at (inputBuffer s) 0 0; Some (set_input s b 0) else Some s
  else if key =? KEY_PPAGE then Some (in_logs s (λ l, set_offset l 0))
  else if key =? KEY_NPAGE then Some (in_logs s (λ l, set_offset l (-1)))
  else if (key =? KEY_BACKSPACE) || (key =? 127) then
    if 0 <? inputCursor s then
      let n := inputCursor s - 1 in
      b ← store_at (inputBuffer s) (Z.to_nat n) 0;
      Some (set_input s b n)
    else Some s
  else if (32 <=? key) && (key <=? 126) then
    if inputCursor s <? Z.of_nat INPUT_BUFFER_SIZE - 1 then
      b ← store_at (inputBuffer s) (Z.to_nat (inputCursor s)) key;
      let n := inputCursor s + 1 in
      b ← store_at b (Z.to_nat n) 0;
      Some (set_input s b n)
    else Some s
  else Some s.

(** The screens with a table: whether the key was consumed. *)
Definition table_key (s : tuiState) (key : Z) : option (bool * tuiState) :=
  if currentScreen s =? SCREEN_ENTITIES then
    r ← tui_EntitiesHandleInput (tablesReady s) (st_entities s) key;
    Some (r.1, set_ents s r.2 (tablesReady s))
  else if currentScreen s =? SCREEN_HELP then
    let '(b, t, h) := tui_DataTableHandleInput (helpTableState s) true (st_help s) key in Some (b, set_help_screen s h t)
  else if currentScreen s =? SCREEN_NETWORK then
    let '(b, t, i) := tui_DataTableHandleInput (ipcTableState s) true (st_ipc s) key in Some (b, set_ipc s i t)
  else Some (false, s).

Definition after_table (s : tuiState) (key : Z) : option tuiState :=
  r ← table_key s key; if r.1 : bool then Some r.2 else global_key r.2 key.

(** The state and the files; [save_ok] tells that a file could be written. *)
Definition HandleKeyInput (save_ok : bool) (fs : files) (s : tuiState) (key : Z) : alloc (option (tuiState * files)) :=
  let settle (r : option tuiState) := mret (s ← r; Some (s, fs)) in
  if key =? ERR then mret (Some (s, fs))
  else if (KEY_F 1 <=? key) && (key <=? KEY_F 8) && (key - KEY_F 1 <? SCREEN_COUNT) then
    mret (Some (set_screen s (key - KEY_F 1), fs))
  else
    match director_key key (st_director s) with
    | Some d => mret (Some (set_director s d, fs))
    | None =>
        if ((key =? 31) || is_ctrl key 47) && (currentScreen s =? SCREEN_ENTITIES) then
          mret (Some (set_ents s (set_filtering (st_entities s) true) (tablesReady s), fs))
        else if is_ctrl key 115 then
          if currentScreen s =? SCREEN_CONFIG then
            r ← tui_SaveCurrentConfig save_ok fs (st_config s);
            mret (r ← r; Some (set_editor s r.1, r.2))
          else mret (Some (s, fs))
        else if currentScreen s =? SCREEN_CONFIG then
          r ← HandleConfigInput fs (currentScreen s) (st_config s) key;
          match r with
          | None => mret None
          | Some (consumed, screen, ed) =>
              let s := set_editor (set_screen s screen) ed in
              if consumed : bool then mret (Some (s, fs)) else settle (after_table s key)
          end
        else settle (after_table s key)
    end.

(** ** The input loop *)

Definition active_context (screen : Z) : Z :=
  match screen with
  | 0 => context_simulation | 3 => context_config | 2 => context_logs | 4 => context_entities | _ => context_global
  end.

Definition config_scroll (ed : config_editor) (y : spec_float) : config_editor := select_item ed (selectedConfigItemIndex ed) y.

(** The mouse wheel. *)
Definition scroll_key (s : tuiState) (key : Z) : option tuiState :=
  let ed := st_config s in
  if key =? CLAY_NCURSES_KEY_SCROLL_UP then
    Some (if currentScreen s =? SCREEN_CONFIG then
            let y := f32_sub (configScrollY ed) (f32_of_Z 50) in
            set_editor s (config_scroll ed (if f32_lt y f32_0 then f32_0 else y))
          else in_logs s (λ l, let o := logReadOffset l - 256 in set_offset l (if o <? 0 then 0 else o)))
  else if key =? CLAY_NCURSES_KEY_SCROLL_DOWN then
    Some (if currentScreen s =? SCREEN_CONFIG then set_editor s (config_scroll ed (f32_add (configScrollY ed) (f32_of_Z 50)))
          else in_logs s (λ l, set_offset l (logReadOffset l + 256)))
  else if key =? CLAY_NCURSES_KEY_SCROLL_LEFT then Some (in_logs s log_scroll_left)
  else if key =? CLAY_NCURSES_KEY_SCROLL_RIGHT then Some (in_logs s log_scroll_right)
  else None.

(** The keys that leave the input loop. *)
Inductive signal_key : Type := OnInterrupt | OnSuspend | OnCrash.

Definition signal_of (key : Z) : option signal_key :=
  if is_ctrl key 99 then Some OnInterrupt
  else if is_ctrl key 122 then Some OnSuspend
  else if is_ctrl key 92 then Some OnCrash
  else None.

(** One round of [tui_ProcessInput]: the state and the files, and the signal that
    ends the loop, if the key stands for one. *)
Definition process_key (g : registry) (logdir : option (list (list Z))) (save_ok : bool) (fs : files) (s : tuiState) (key : Z) :
    alloc (option (tuiState * files * option signal_key)) :=
  let settle (r : option tuiState) := mret (s ← r; Some (s, fs, None)) in
  match tui_registry_process_input g key (active_context (currentScreen s)) with
  | Some cb => settle (run_command logdir s cb)
  | None =>
      match scroll_key s key with
      | Some s => mret (Some (s, fs, None))
      | None =>
          if is_ctrl key 113 then mret (Some (tui_OnQuit s, fs, None))
          else match signal_of key with
               | Some sig => mret (Some (s, fs, Some sig))
               | None => r ← HandleKeyInput save_ok fs s key; mret (r ← r; Some (r.1, r.2, None))
               end
      end
  end.

(** ** Clicks and frames *)

Inductive ui_event : Type :=
| UKey (key : Z) (logdir : option (list (list Z))) (save_ok : bool)
| USidebar (index : Z)
| UHeader (col : Z)
| URow (row : Z)
| UEntityTab (tab : Z)
| UCloseModal
| ULogTab (index : Z)
| UConfigTab (index : Z)
| UConfigItem (index : Z) (pressed : bool)
| UControl (action : Z)
| UUpdate (r1 r2 : Z) (rand : nat → Z)
| URender (file : list Z) (lines : Z).

Definition OnSidebarClick (s : tuiState) (index : Z) : tuiState :=
  if u32 index <? SCREEN_COUNT then set_screen s (u32 index) else s.

(** The table on the screen, if one is drawn; a detail box hides the entities. *)
Definition header_click (s : tuiState) (col : Z) : option tuiState :=
  if currentScreen s =? SCREEN_ENTITIES then
    if selectedEntityIndex (st_entities s) =? -1 then
      r ← HandleHeaderClick (entitiesTableState (st_entities s)) (st_entities s) col;
      Some (set_ents s (set_table r.2 r.1) (tablesReady s))
    else Some s
  else if currentScreen s =? SCREEN_HELP then
    r ← HandleHeaderClick (helpTableState s) (st_help s) col; Some (set_help_screen s r.2 r.1)
  else if currentScreen s =? SCREEN_NETWORK then
    r ← HandleHeaderClick (ipcTableState s) (st_ipc s) col; Some (set_ipc s r.2 r.1)
  else Some s.

Definition row_click (s : tuiState) (row : Z) : tuiState :=
  let drawn n := (0 <=? row) && (row <? n) in
  if currentScreen s =? SCREEN_ENTITIES then
    if (selectedEntityIndex (st_entities s) =? -1) && drawn (filteredEntityCount (st_entities s)) then
      let r := HandleRowClick (entitiesTableState (st_entities s)) (st_entities s) row in
      set_ents s (set_table r.2 r.1) (tablesReady s)
    else s
  else if currentScreen s =? SCREEN_HELP then
    if drawn (Z.of_nat (length (st_help s))) then
      let r := HandleRowClick (helpTableState s) (st_help s) row in set_help_screen s r.2 r.1
    else s
  else if currentScreen s =? SCREEN_NETWORK then
    if drawn (Z.of_nat (length (mockIPCChannels (st_ipc s)))) then
      let r := HandleRowClick (ipcTableState s) (st_ipc s) row in set_ipc s r.2 r.1
    else s
  else s.

(** Drawing a frame: the table of the entities screen is defined, and the log view
    of [file] settles its offset. *)
Definition tui_Render (s : tuiState) (file : list Z) (lines : Z) : tuiState :=
  if currentScreen s =? SCREEN_ENTITIES then set_ents s (st_entities s) true
  else in_logs s (λ l, if 0 <? logFileCount l then set_offset l (tui_RenderLogTailView file lines (logReadOffset l)).1 else l).

Definition tui_Update (s : tuiState) (r1 r2 : Z) (rand : nat → Z) : option tuiState :=
  e ← tui_UpdateEntities (st_entities s) r1 r2;
  Some (set_ipc (set_ents s e (tablesReady s)) (tui_UpdateIPCScreen rand (st_ipc s)) (ipcTableState s)).

Definition ui_step (g : registry) (fs : files) (s : tuiState) (ev : ui_event) : alloc (option (tuiState * files)) :=
  let settle (r : option tuiState) := mret (s ← r; Some (s, fs)) in
  match ev with
  | UKey key logdir save_ok => r ← process_key g logdir save_ok fs s key; mret (r ← r; Some r.1)
  | USidebar index => settle (Some (OnSidebarClick s index))
  | UHeader col => settle (header_click s col)
  | URow row => settle (Some (row_click s row))
  | UEntityTab tab =>
      if currentScreen s =? SCREEN_ENTITIES then
        settle (e ← OnTabClick (st_entities s) (if tab =? 0 then 0 else 1); Some (set_ents s e (tablesReady s)))
      else settle (Some s)
  | UCloseModal =>
      settle (Some (if currentScreen s =? SCREEN_ENTITIES then set_ents s (CloseModal (st_entities s)) (tablesReady s) else s))
  | ULogTab index => settle (Some (in_logs s (λ l, OnLogTabClick l index)))
  | UConfigTab index =>
      if (currentScreen s =? SCREEN_CONFIG) && (0 <=? index) then
        r ← OnConfigTabClick fs (st_config s) index; settle (ed ← r; Some (set_editor s ed))
      else settle (Some s)
  | UConfigItem index pressed =>
      settle (Some (if (currentScreen s =? SCREEN_CONFIG) && (0 <=? index) &&
                       (index <? Z.of_nat (length (configDisplayItems (st_config s))))
                    then set_editor s (OnItemInteract (st_config s) index pressed) else s))
  | UControl action => settle (Some (if currentScreen s =? SCREEN_DIRECTOR then set_director s (OnControlClick (st_director s) action) else s))
  | UUpdate r1 r2 rand => settle (tui_Update s r1 r2 rand)
  | URender file lines => settle (Some (tui_Render s file lines))
  end.

(** A session: the state at its end, or the state, the files and the event at which
    an access leaves its array or a null pointer is copied. *)
Fixpoint ui_run (g : registry) (fs : files) (s : tuiState) (evs : list ui_event) :
    alloc ((tuiState * files * ui_event) + tuiState * files) :=
  match evs with
  | [] => mret (inr (s, fs))
  | ev :: evs =>
      r ← ui_step g fs s ev;
      match r with
      | None => mret (inl (s, fs, ev))
      | Some (s', fs') => if running s' then ui_run g fs' s' evs else mret (inr (s', fs'))
      end
  end.

(** ** Start *)

Definition table_new : DataTableState := mk_table f32_0 f32_0 0 true (-1) (-1).
Definition editor_zero : config_editor := mk_editor [] 0 None [] 0 0 0 0 f32_0 false (replicate EDIT_SIZE 0) [].

(** [tui_Initialize]: the screens on the zeroed static state. *)
Definition tui_Initialize (fs : files) (logdir confdir : option (list (list Z))) (rand : nat → Z) : alloc (option tuiState) :=
  r ← tui_InitConfigScreen fs confdir editor_zero;
  mret (ed ← r;
        l ← tui_InitLogsScreen logdir logs_zero;
        e ← tui_InitEntities rand entities_zero;
        Some (mk_tui SCREEN_SIMULATION 0 0 l e false tui_InitIPCScreen table_new
                (tui_InitHelpScreen initial_registry) table_new (mk_director true 4 12) ed
                (replicate INPUT_BUFFER_SIZE 0) 0 true)).

(** ** Scratch memory of a frame *)

Definition SCRATCH_BUF_SIZE : Z := 256 * 1024.

(** The offset of the block and the next offset; [wrote] is the result of
    [vsnprintf]. *)
Definition tui_ScratchFmt (offset wrote : Z) : Z * Z :=
  let offset := if SCRATCH_BUF_SIZE - 256 <=? offset then 0 else offset in
  let wrote := if wrote <? 0 then 0 else wrote in
  let wrote := if 256 <=? wrote then 255 else wrote in
  (offset, offset + (wrote + 1)).
Definition tui_ScratchAlloc (offset size : Z) : Z * Z :=
  let offset := if SCRATCH_BUF_SIZE <? offset + size then 0 else offset in (offset, offset + size).

(** ** Invariant *)

Definition director_ok (d : director_ctrl) : Prop := 0 <= activeWorkers d <= 50 ∧ 0 <= activeUsers d <= 200.

(** The command line: the array holds a text and the cursor is at its end. *)
Definition line_is (s : tuiState) (t : list Z) : Prop :=
  array_holds (inputBuffer s) t ∧ length (inputBuffer s) = INPUT_BUFFER_SIZE ∧ inputCursor s = Z.of_nat (length t).

Record tui_ok (s : tuiState) : Prop := mk_tui_ok {
  to_screen : 0 <= currentScreen s < SCREEN_COUNT;
  to_sim : 0 <= activeSimTab s < TAB_SIM_COUNT;
  to_perf : 0 <= activePerfTab s < TAB_PERF_COUNT;
  to_logs : logs_ok (st_logs s);
  to_entities : entities_ok (st_entities s);
  to_ipc : ipc_ok (st_ipc s);
  to_ipc_row : row_ok (GetCount (st_ipc s)) (selectedRowIndex (ipcTableState s));
  to_help : (0 < length (st_help s) ≤ 128)%nat;
  to_help_row : row_ok (GetCount (st_help s)) (selectedRowIndex (helpTableState s));
  to_director : director_ok (st_director s);
  to_config : editor_ok (st_config s);
  to_input : ∃ t, line_is s t
}.

Definition nav_ok (cb : command_cb) : Prop := match cb with CmdNav n => 0 <= n < SCREEN_COUNT | _ => True end.
Definition registry_ok (g : registry) : Prop :=
  Forall (λ c, match cm_callback c with Some cb => nav_ok cb | None => True end) (s_commands g).

(** ** Lemmas *)

Ltac keep := match goal with H : tui_ok _ |- _ => destruct H; split; simpl; try done end.

Lemma set_screen_ok s n : tui_ok s → 0 <= n < SCREEN_COUNT → tui_ok (set_screen s n).
Proof. intros H Hn. keep. Qed.

Lemma set_logs_ok s l : tui_ok s → logs_ok l → tui_ok (set_logs s l).
Proof. intros H Hl. keep. Qed.

Lemma set_ents_ok s e b : tui_ok s → entities_ok e → tui_ok (set_ents s e b).
Proof. intros H Hl. keep. Qed.

Lemma set_config_ok s c : tui_ok s → editor_ok c → tui_ok (set_editor s c).
Proof. intros H Hl. keep. Qed.

Lemma set_director_ok s d : tui_ok s → director_ok d → tui_ok (set_director s d).
Proof. intros H Hl. keep. Qed.

Lemma set_input_ok s b n t : tui_ok s → array_holds b t → length b = INPUT_BUFFER_SIZE → n = Z.of_nat (length t) → tui_ok (set_input s b n).
Proof. intros H Hb Hl Hn. keep. exists t. by split_and!. Qed.

Lemma on_quit_ok s : tui_ok s → tui_ok (tui_OnQuit s).
Proof. intros H. keep. Qed.

Lemma in_logs_ok s f : tui_ok s → (logs_ok (st_logs s) → logs_ok (f (st_logs s))) → tui_ok (in_logs s f).
Proof. intros H Hf. unfold in_logs. destruct (_ =? _); [|done]. apply set_logs_ok; [done|]. apply Hf, H. Qed.

Lemma set_offset_ok l o : logs_ok l → -1 <= o → logs_ok (set_offset l o).
Proof. intros (H1 & H2 & H3 & H4) Ho. unfold logs_ok. simpl. tauto. Qed.

Lemma scroll_x_ok l x : logs_ok l → logs_ok (set_scroll_x l x).
Proof. intros (H1 & H2 & H3 & H4). unfold logs_ok. simpl. tauto. Qed.

Lemma next_of_range n count : 0 < count → 0 <= next_of n count < count.
Proof. apply Z.mod_pos_bound. Qed.

Lemma prev_of_range n count : 0 < count → 0 <= prev_of n count < count.
Proof. apply Z.mod_pos_bound. Qed.

Lemma entities_tab_ok e tab : entities_ok e → 0 <= tab < 2 →
  ∃ e', tui_UpdateEntitiesFilter (set_tab e tab) = Some e' ∧ entities_ok e'.
Proof. apply set_tab_ok. Qed.

Lemma switch_tab_ok s move : tui_ok s → (∀ n count, 0 < count → 0 <= move n count < count) →
  ∃ s', switch_tab s move = Some s' ∧ tui_ok s'.
Proof.
  intros H Hm. unfold switch_tab. pose proof (to_logs _ H) as Hl. destruct (_ =? SCREEN_SIMULATION).
  { eexists. split; [done|]. keep. by apply Hm. }
  destruct (_ =? SCREEN_PERFORMANCE). { eexists. split; [done|]. keep. by apply Hm. }
  destruct ((_ =? SCREEN_LOGS) && (0 <? logFileCount (st_logs s))) eqn:E.
  { eexists. split; [done|]. apply set_logs_ok; [done|]. apply show_log_ok; [done|].
    specialize (Hm (activeLogTab (st_logs s)) (logFileCount (st_logs s)) ltac:(lia)). destruct Hl as (_ & Hc & _). lia. }
  destruct (_ =? SCREEN_ENTITIES); [|by eauto].
  destruct (entities_tab_ok (st_entities s) (move (activeEntitiesTab (st_entities s)) 2)) as (e & -> & He); [apply H|by apply Hm|].
  cbn. eexists. split; [done|]. by apply set_ents_ok.
Qed.

(** The command line as an editor of texts of at most 255 characters. *)
Definition line_key (t : list Z) (key : Z) : list Z :=
  if (key =? NEWLINE) || (key =? KEY_ENTER) then []
  else if (key =? KEY_BACKSPACE) || (key =? 127) then take (length t - 1) t
  else if (32 <=? key) && (key <=? 126) then (if (length t <? 255)%nat then t ++ [key] else t)
  else t.

Lemma line_global s t key : line_is s t → key ≠ KEY_RIGHT → key ≠ KEY_LEFT →
  ∃ s', global_key s key = Some s' ∧ line_is s' (line_key t key).
Proof.
  intros (Hb & Hl & Hc) H1 H2. pose proof (holds_length _ _ Hb) as Hlt. unfold global_key.
  destruct (Z.eqb_spec key KEY_DOWN) as [-> |]; [eexists; split; [done|by split_and!]|].
  destruct (Z.eqb_spec key KEY_UP) as [-> |]; [eexists; split; [done|by split_and!]|].
  destruct (Z.eqb_spec key KEY_RIGHT); [done|]. destruct (Z.eqb_spec key KEY_LEFT); [done|].
  assert (∀ f, line_is (in_logs s f) t) as Hin by (intros f; unfold in_logs; destruct (_ =? SCREEN_LOGS); by split_and!).
  destruct (Z.eqb_spec key KEY_SLEFT) as [-> |]; [eexists; split; [done|apply Hin]|].
  destruct (Z.eqb_spec key KEY_SRIGHT) as [-> |]; [eexists; split; [done|apply Hin]|].
  unfold line_key. destruct ((key =? NEWLINE) || (key =? KEY_ENTER)) eqn:En.
  { destruct (Z.ltb_spec 0 (inputCursor s)).
    - destruct (holds_first _ _ Hb) as (x & b' & Eb & -> & Hb'). cbn. eexists. split; [done|].
      split_and!; [done|cbn; rewrite <- Hl, Eb; done|done].
    - exists s. split; [done|]. destruct t; [by split_and!|simpl in Hc; lia]. }
  destruct (Z.eqb_spec key KEY_PPAGE) as [-> |]; [eexists; split; [done|apply Hin]|].
  destruct (Z.eqb_spec key KEY_NPAGE) as [-> |]; [eexists; split; [done|apply Hin]|].
  destruct (_ || (key =? 127)).
  { destruct (Z.ltb_spec 0 (inputCursor s)).
    - destruct (decide (t = [])) as [-> |Hne]; [simpl in Hc; lia|]. destruct (exists_last Hne) as (u & c & ->).
      destruct (holds_shorten _ _ _ Hb) as (b' & E & Hb' & Hl'). rewrite length_app in *. simpl in *.
      replace (Z.to_nat (inputCursor s - 1)) with (length u) by lia. rewrite E. cbn. eexists. split; [done|].
      rewrite Nat.add_sub, take_app_length. split_and!; [done|cbn; congruence|cbn; lia].
    - exists s. split; [done|]. destruct t; [by split_and!|simpl in Hc; lia]. }
  destruct (Z.leb_spec 32 key), (Z.leb_spec key 126); simpl; try (exists s; by split_and!).
  unfold INPUT_BUFFER_SIZE in *. destruct (Z.ltb_spec (inputCursor s) (Z.of_nat 256 - 1)).
  - destruct (holds_append _ _ key Hb) as (b1 & b2 & E1 & E2 & Hb' & Hl'); [lia|lia|].
    rewrite Hc, Nat2Z.id, E1. cbn [mbind option_bind].
    replace (Z.to_nat (Z.of_nat (length t) + 1)) with (length t + 1)%nat by lia. rewrite E2. cbn [mbind option_bind].
    eexists. split; [done|]. destruct (Nat.ltb_spec (length t) 255); [|lia].
    split_and!; [done|cbn; unfold INPUT_BUFFER_SIZE; lia|cbn; rewrite length_app; simpl; lia].
  - exists s. split; [done|]. destruct (Nat.ltb_spec (length t) 255); [lia|by split_and!].
Qed.

Lemma global_key_ok s key : tui_ok s → ∃ s', global_key s key = Some s' ∧ tui_ok s'.
Proof.
  intros H. destruct (decide (key = KEY_RIGHT)) as [-> |Hr]; [apply switch_tab_ok; [done|apply next_of_range]|].
  destruct (decide (key = KEY_LEFT)) as [-> |Hl]; [apply switch_tab_ok; [done|apply prev_of_range]|].
  destruct (to_input _ H) as [t Ht]. destruct (line_global s t key Ht Hr Hl) as (s' & E & Hs'). exists s'. split; [done|].
  destruct Hs' as (Hb & Hlb & Hc). unfold global_key in E.
  assert (∀ b n, s' = set_input s b n → tui_ok s') as Hin.
  { intros b n ->. eapply set_input_ok; [done|exact Hb|exact Hlb|exact Hc]. }
  assert (∀ o, -1 <= o → tui_ok (in_logs s (λ l, set_offset l o))) as Ho
    by (intros o Ho; apply in_logs_ok; [done|intros; by apply set_offset_ok]).
  assert (∀ f, (∀ l, logs_ok l → logs_ok (f l)) → tui_ok (in_logs s f)) as Hx by (intros f Hf; apply in_logs_ok; auto).
  repeat match type of E with (if ?b then _ else _) = _ => destruct b end;
    repeat match type of E with (if ?b then _ else _) = _ => destruct b end;
    try (injection E as <-);
    first [done | apply set_screen_ok; [done|first [by apply next_of_range|by apply prev_of_range]]
          | by apply Ho | apply Hx; intros; by apply scroll_x_ok | simplify_option_eq; by eapply Hin
          | destruct (switch_tab_ok s next_of H next_of_range) as (x & Ex & Hx'); congruence
          | destruct (switch_tab_ok s prev_of H prev_of_range) as (x & Ex & Hx'); congruence].
Qed.

Lemma table_key_ok s key : tui_ok s → ∃ b s', table_key s key = Some (b, s') ∧ tui_ok s'.
Proof.
  intros H. unfold table_key. destruct (_ =? SCREEN_ENTITIES).
  { destruct (entities_input_ok (st_entities s) (tablesReady s) key (to_entities _ H)) as (b & e & -> & He). cbn.
    eexists _, _. split; [done|]. by apply set_ents_ok. }
  destruct (_ =? SCREEN_HELP).
  { pose proof (table_input_ok (λ rows : list Keybinding, (length rows ≤ 128)%nat) (helpTableState s) true (st_help s) key
      (proj2 (to_help _ H)) (to_help_row _ H)) as Ht.
    destruct (tui_DataTableHandleInput _ _ _ _) as [[b t] h]. destruct Ht as (Hh & Hg & Hr). eexists _, _. split; [done|].
    simpl in Hg. destruct H. split; simpl; try done; [lia|]. rewrite Hg. exact Hr. }
  destruct (_ =? SCREEN_NETWORK); [|by eauto].
  pose proof (table_input_ok ipc_ok (ipcTableState s) true (st_ipc s) key (to_ipc _ H) (to_ipc_row _ H)) as Ht.
  destruct (tui_DataTableHandleInput _ _ _ _) as [[b t] h]. destruct Ht as (Hh & Hg & Hr). eexists _, _. split; [done|].
  destruct H. split; try done. cbn [ipcTableState set_ipc st_ipc]. rewrite Hg. exact Hr.
Qed.

Lemma after_table_ok s key : tui_ok s → ∃ s', after_table s key = Some s' ∧ tui_ok s'.
Proof.
  intros H. unfold after_table. destruct (table_key_ok s key H) as (b & s' & -> & Hs'). cbn. destruct b; [by eauto|].
  by apply global_key_ok.
Qed.

Lemma director_key_ok key d d' : director_ok d → director_key key d = Some d' → director_ok d'.
Proof.
  unfold director_ok, director_key. intros Hd. repeat case_match; intros [= <-]; simpl; lia.
Qed.

Lemma control_ok d a : director_ok d → director_ok (OnControlClick d a).
Proof. unfold director_ok, OnControlClick. intros Hd. repeat case_match; simpl; lia. Qed.

(** The configuration screen is shown and one of its tabs is of a file with a name
    alone on a line. *)
Definition bare_screen (fs : files) (s : tuiState) : Prop := currentScreen s = SCREEN_CONFIG ∧ bare_tab fs (st_config s).

Definition key_after {A} (fs : files) (s : tuiState) (r : option (tuiState * A)) : Prop :=
  match r with Some (s', _) => tui_ok s' | None => bare_screen fs s end.

(** Every key is handled within the arrays and keeps the invariant, unless it loads
    such a tab. *)
Lemma key_input_ok save_ok fs s key : tui_ok s → always (HandleKeyInput save_ok fs s key) (key_after fs s).
Proof.
  intros H. unfold HandleKeyInput.
  assert (∀ s1, tui_ok s1 → key_after fs s (s ← after_table s1 key; Some (s, fs))) as Ha.
  { intros s1 Hs1. destruct (after_table_ok s1 key Hs1) as (s' & -> & Hs'). done. }
  destruct (key =? ERR); [by apply always_ret|].
  destruct ((KEY_F 1 <=? key) && _ && _) eqn:Ef.
  { apply always_ret. apply set_screen_ok; [done|]. unfold KEY_F, SCREEN_COUNT in *. lia. }
  destruct (director_key key (st_director s)) as [d|] eqn:Ed.
  { apply always_ret. apply set_director_ok; [done|]. eapply director_key_ok; [apply H|done]. }
  destruct (_ && (currentScreen s =? SCREEN_ENTITIES)).
  { apply always_ret. apply set_ents_ok; [done|]. apply set_filtering_ok, H. }
  destruct (is_ctrl key 115).
  { destruct (_ =? SCREEN_CONFIG); [|by apply always_ret]. apply always_bind.
    eapply always_mono; [apply save_config_ok, H|]. intros r (ed & fs' & -> & Hed). apply always_ret. by apply set_config_ok. }
  destruct (Z.eqb_spec (currentScreen s) SCREEN_CONFIG) as [Esc|_]; [|apply always_ret; eauto].
  apply always_bind. eapply always_mono; [apply config_input_ok; [apply H|apply H]|].
  intros [[[b screen] ed]|] Hr; [|by apply always_ret]. destruct Hr as [Hed Hsc].
  assert (tui_ok (set_editor (set_screen s screen) ed)) as Hok by (apply set_config_ok; [by apply set_screen_ok|done]).
  destruct b; apply always_ret; eauto.
Qed.

Lemma find_binding_ok cs bs key c cb :
  Forall (λ c, match cm_callback c with Some cb => nav_ok cb | None => True end) cs →
  find_binding cs bs key c = Some cb → nav_ok cb.
Proof.
  intros Hcs. assert (∀ id cb, (c ← find_command cs id; cm_callback c) = Some cb → nav_ok cb) as Hf.
  { intros id cb'. induction Hcs as [|x cs Hx Hcs IH]; simpl; [done|]. destruct (_ =? 0); [|done]. cbn. intros E. by rewrite E in Hx. }
  induction bs as [|b bs IH]; simpl; [done|]. destruct (_ && _); [|done]. destruct (_ ≫= _) eqn:E; [|done].
  intros [= <-]. by apply (Hf (kb_command b)).
Qed.

Lemma dispatch_ok g key active cb : registry_ok g → tui_registry_process_input g key active = Some cb → nav_ok cb.
Proof.
  intros Hg. unfold tui_registry_process_input. destruct (find_binding _ _ _ active) as [cb'|] eqn:E.
  - intros [= <-]. by eapply find_binding_ok.
  - destruct (_ =? _); [done|]. by apply find_binding_ok.
Qed.

Lemma initial_registry_ok : registry_ok initial_registry.
Proof. unfold registry_ok. vm_compute. repeat (constructor; [done|]). constructor. Qed.

Lemma run_command_ok logdir s cb : tui_ok s → nav_ok cb → ∃ s', run_command logdir s cb = Some s' ∧ tui_ok s'.
Proof.
  intros H Hcb. destruct cb; simpl.
  - eexists. split; [done|]. by apply on_quit_ok.
  - eexists. split; [done|]. by apply set_screen_ok.
  - eexists. split; [done|]. apply set_ents_ok; [done|]. apply set_filtering_ok, H.
  - destruct (refresh_logs_ok logdir (st_logs s) (to_logs _ H)) as (l & -> & Hl). cbn. eexists. split; [done|]. by apply set_logs_ok.
Qed.

Lemma config_scroll_ok ed y : editor_ok ed → editor_ok (config_scroll ed y).
Proof. intros H. apply select_ok; [done|apply H|apply H]. Qed.

Lemma scroll_key_ok s key s' : tui_ok s → scroll_key s key = Some s' → tui_ok s'.
Proof.
  intros H. pose proof (to_config _ H) as Hc. unfold scroll_key.
  repeat case_match; intros [= <-]; try (apply set_config_ok; [done|by apply config_scroll_ok]);
    apply in_logs_ok; try done; intros Hl; try (by apply scroll_x_ok); apply set_offset_ok; try done.
  - pose proof Hl as (_ & _ & _ & Ho). case_match; lia.
  - pose proof Hl as (_ & _ & _ & Ho). lia.
Qed.

Lemma process_key_ok g logdir save_ok fs s key : registry_ok g → tui_ok s →
  always (process_key g logdir save_ok fs s key) (λ r, key_after fs s (r ← r; Some r.1)).
Proof.
  intros Hg H. unfold process_key. destruct (tui_registry_process_input _ _ _) as [cb|] eqn:E.
  { apply always_ret. destruct (run_command_ok logdir s cb H (dispatch_ok _ _ _ _ Hg E)) as (s' & -> & Hs'). done. }
  destruct (scroll_key s key) as [s'|] eqn:Es; [apply always_ret; cbn; by eapply scroll_key_ok|].
  destruct (is_ctrl key 113); [apply always_ret; cbn; by apply on_quit_ok|].
  destruct (signal_of key); [by apply always_ret|]. apply always_bind.
  eapply always_mono; [by apply key_input_ok|]. intros [[s' fs']|] Hr; by apply always_ret.
Qed.

(** A click on a column header while the entities table has no rows. *)
Definition empty_sort (s : tuiState) (ev : ui_event) : Prop :=
  (∃ col, ev = UHeader col) ∧ currentScreen s = SCREEN_ENTITIES ∧ filteredEntityCount (st_entities s) = 0.

(** A key or a click on a tab that loads a file with a name alone on a line. *)
Definition bare_load (fs : files) (s : tuiState) (ev : ui_event) : Prop :=
  ((∃ key logdir ok, ev = UKey key logdir ok) ∨ ∃ index, ev = UConfigTab index) ∧ bare_screen fs s.

Lemma entities_count_nonneg e : entities_ok e → 0 <= filteredEntityCount e.
Proof. intros H. pose proof (law_count (inv := entities_ok) e H) as Hc. simpl in Hc. unfold Entities_GetCount in Hc. lia. Qed.

Lemma header_click_kept s col : tui_ok s →
  match header_click s col with Some s' => tui_ok s' | None => empty_sort s (UHeader col) end.
Proof.
  intros H. unfold header_click. destruct (Z.eqb_spec (currentScreen s) SCREEN_ENTITIES) as [Es|_].
  { destruct (_ =? -1); [|done]. pose proof (entities_count_nonneg _ (to_entities _ H)).
    destruct (decide (filteredEntityCount (st_entities s) = 0)) as [E0|Hne].
    - destruct (HandleHeaderClick _ _ _) as [[t e]|] eqn:E; cbn; [|by split; [eexists|]].
      rewrite header_of_no_rows in E; [done|done|]. destruct (to_entities _ H) as (fs & Hb & _). by rewrite (eb_indices _ _ Hb).
    - destruct (entities_header_ok (st_entities s) col (to_entities _ H) ltac:(lia)) as (t & e & -> & He). cbn. by apply set_ents_ok. }
  destruct (_ =? SCREEN_HELP).
  { destruct (header_click_ok (λ rows : list Keybinding, (length rows ≤ 128)%nat) (helpTableState s) (st_help s) col) as (t & h & -> & Hh & Hg & Hr).
    - apply H.
    - destruct (to_help _ H). simpl. lia.
    - cbn. simpl in Hg. destruct H. split; try done; cbn [set_help_screen st_help helpTableState]; [lia|]. rewrite Hr. simpl. rewrite Hg. done. }
  destruct (_ =? SCREEN_NETWORK); [|done].
  destruct (header_click_ok ipc_ok (ipcTableState s) (st_ipc s) col) as (t & i & -> & Hi & Hg & Hr); [apply H| |].
  - destruct (to_ipc _ H) as (_ & Hl & _). simpl. lia.
  - cbn. destruct H. split; try done. cbn [set_ipc st_ipc ipcTableState]. rewrite Hr, Hg. done.
Qed.

Lemma row_ok_click count row : 0 <= row < count → row_ok count row.
Proof. unfold row_ok. lia. Qed.

Lemma row_click_tui_ok s row : tui_ok s → tui_ok (row_click s row).
Proof.
  intros H. unfold row_click. destruct (_ =? SCREEN_ENTITIES).
  { destruct (_ && (_ && _)) eqn:E; [|done]. apply set_ents_ok; [done|]. apply entities_row_ok; [apply H|lia]. }
  destruct (_ =? SCREEN_HELP).
  { destruct (_ && _) eqn:E; [|done]. destruct H. split; try done. cbn. apply row_ok_click. lia. }
  destruct (_ =? SCREEN_NETWORK); [|done]. destruct (_ && _) eqn:E; [|done]. destruct H. split; try done. cbn. apply row_ok_click. lia.
Qed.

Lemma tail_offset_range file lines : 0 <= tail_offset file lines.
Proof.
  unfold tail_offset. set (visible := if lines - 14 <? 5 then 5 else lines - 14).
  set (start := if Z.of_nat (length file) - BUFFER_SIZE <? 0 then 0 else Z.of_nat (length file) - BUFFER_SIZE).
  assert (0 <= start) as Hs by (subst start; destruct (Z.ltb_spec (Z.of_nat (length file) - BUFFER_SIZE) 0); lia).
  set (buffer := take _ _).
  assert (∀ l i found v, Z.of_nat (length l) <= i + 1 → match (scan_back l i found v).1 with Some j => 0 <= j | None => True end) as Hsc.
  { induction l as [|c l IH]; intros i found v Hl; simpl in *; [done|]. destruct (c =? 10); [destruct (v <=? found + 1)|]; simpl; try lia; apply IH; lia. }
  specialize (Hsc (rev buffer) (Z.of_nat (length buffer) - 1) 0 visible ltac:(rewrite length_rev; lia)).
  destruct (scan_back _ _ _ _) as [[j|] found]; simpl in *; repeat case_match; lia.
Qed.

Lemma render_ok s file lines : tui_ok s → tui_ok (tui_Render s file lines).
Proof.
  intros H. unfold tui_Render. destruct (_ =? SCREEN_ENTITIES); [apply set_ents_ok; [done|apply H]|].
  apply in_logs_ok; [done|]. intros Hl. destruct (_ <? _); [|done]. apply set_offset_ok; [done|].
  unfold tui_RenderLogTailView. simpl. pose proof (tail_offset_range file lines). pose proof Hl as (_ & _ & _ & Ho).
  repeat case_match; lia.
Qed.

Lemma ui_step_ok g fs s ev : registry_ok g → tui_ok s →
  always (ui_step g fs s ev) (λ r, match r with Some (s', _) => tui_ok s' | None => empty_sort s ev ∨ bare_load fs s ev end).
Proof.
  intros Hg H. destruct ev; simpl ui_step.
  - apply always_bind. eapply always_mono; [by apply process_key_ok|]. intros r Hr. apply always_ret.
    destruct r as [[[s' fs'] sig]|]; [done|]. right. split; [|done]. left. by eexists _, _, _.
  - apply always_ret. cbn. unfold OnSidebarClick. pose proof (u32_range index).
    destruct (Z.ltb_spec (u32 index) SCREEN_COUNT); [|done]. apply set_screen_ok; [done|lia].
  - apply always_ret. pose proof (header_click_kept s col H) as Hh. destruct (header_click s col); [done|by left].
  - apply always_ret. cbn. by apply row_click_tui_ok.
  - destruct (_ =? SCREEN_ENTITIES); apply always_ret; [|done].
    destruct (set_tab_ok (st_entities s) (if tab =? 0 then 0 else 1)) as (e & -> & He); [apply H|destruct (tab =? 0); lia|].
    cbn. by apply set_ents_ok.
  - apply always_ret. cbn. destruct (_ =? _); [|done]. apply set_ents_ok; [done|]. apply set_selected_ok, H.
  - apply always_ret. cbn. apply in_logs_ok; [done|]. apply log_tab_ok.
  - destruct ((_ =? _) && (0 <=? index)) eqn:E; [|by apply always_ret]. apply always_bind.
    apply (always_mono _ (editor_after fs (st_config s))).
    + unfold OnConfigTabClick. destruct (negb _); [|apply always_ret, H]. apply load_tab_ok; [apply H|]. apply u32_range.
    + intros [ed|] Hed; apply always_ret; [by apply set_config_ok|]. right. split; [right; by eexists|]. split; [lia|done].
  - apply always_ret. cbn [mbind option_bind].
    destruct ((currentScreen s =? SCREEN_CONFIG) && (0 <=? index) && (index <? _)) eqn:E; [|done]. apply set_config_ok; [done|]. pose proof (to_config _ H) as Hc.
    pose proof (eo_items _ Hc) as Hi. unfold MAX_CONFIG_ITEMS in Hi.
    assert (editor_ok (set_hovered (st_config s) (u32 index))) as Hh by (destruct Hc; by split).
    unfold OnItemInteract. destruct (pressed && _); [|done]. apply select_ok; [done|rewrite u32_small; lia|right; cbn; rewrite u32_small; lia].
  - apply always_ret. cbn. destruct (_ =? _); [|done]. apply set_director_ok; [done|]. apply control_ok, H.
  - apply always_ret. unfold tui_Update. destruct (update_ok (st_entities s) r1 r2 (to_entities _ H)) as (e & -> & He). cbn.
    pose proof (update_ipc_ok rand (st_ipc s) (to_ipc _ H)) as Hi. destruct H. split; try done. cbn. rewrite length_imap. done.
  - apply always_ret. cbn. by apply render_ok.
Qed.

(** One of the configuration files at the start has a name alone on a line. *)
Definition bare_start (fs : files) (confdir : option (list (list Z))) : Prop :=
  ∃ names name bytes, confdir = Some names ∧ name ∈ list_files names ∧ fs (config_path name) = Some bytes ∧ bare_file bytes.

Lemma config_screen_ok fs confdir :
  always (tui_InitConfigScreen fs confdir editor_zero) (λ r,
    match r with Some ed => editor_ok ed | None => bare_start fs confdir end).
Proof.
  unfold tui_InitConfigScreen. set (found := match confdir with Some names => _ | None => [] end).
  assert (found = [] ∨ ∃ names, confdir = Some names ∧ found ≡ₚ list_files names) as Hp.
  { subst found. destruct confdir as [names|]; [right; exists names; split; [done|apply exchange_sort_perm]|by left]. }
  assert (length found ≤ MAX_CONFIG_FILES)%nat as Hf.
  { destruct Hp as [->|(names & _ & ->)]; [simpl; lia|]. unfold list_files. rewrite length_fmap, length_take. lia. }
  set (ed := mk_editor _ _ _ _ _ _ _ _ _ _ _ _).
  assert (editor_ok ed) as Hed.
  { split; cbn; try done; try lia.
    - destruct found as [|f found']; [by left|right]. unfold file_count. simpl. lia.
    - by left. }
  destruct found as [|f found'] eqn:E; [by apply always_ret|]. eapply always_mono; [by apply load_tab_ok|].
  intros [ed'|] Hr; [done|]. destruct Hr as (name & bytes & Hn & H1 & H2). cbn in Hn.
  destruct Hp as [|(names & Hc & Hp)]; [done|]. exists names, name, bytes. by rewrite <- Hp.
Qed.

Lemma initialize_ok fs logdir confdir rand :
  always (tui_Initialize fs logdir confdir rand) (λ r,
    match r with Some s => tui_ok s ∧ running s = true | None => bare_start fs confdir end).
Proof.
  unfold tui_Initialize. apply always_bind. eapply always_mono; [apply config_screen_ok|].
  - intros [ed|] Hed; [|by apply always_ret]. apply always_ret. unfold tui_InitLogsScreen.
    destruct (refresh_logs_ok logdir (mk_logs (logFiles logs_zero) 0 0 (logScrollX logs_zero) (logReadOffset logs_zero))) as (l & -> & Hl).
    { unfold logs_ok, MAX_LOG_FILES. simpl. split_and!; done || lia. }
    destruct (init_ok rand) as (e & -> & He). cbn [mbind option_bind].
    split; [|reflexivity].
    split; cbn [currentScreen activeSimTab activePerfTab st_logs st_entities st_ipc ipcTableState st_help helpTableState
      st_director st_config selectedRowIndex table_new].
    + split; [reflexivity|by compute].
    + split; [reflexivity|by compute].
    + split; [reflexivity|by compute].
    + exact Hl.
    + exact He.
    + apply init_ipc_ok.
    + unfold row_ok. lia.
    + assert (length (tui_InitHelpScreen initial_registry) = 12%nat) as -> by (vm_compute; reflexivity). lia.
    + unfold row_ok. lia.
    + unfold director_ok. simpl. lia.
    + exact Hed.
    + exists []. split_and!; [apply holds_empty|apply length_replicate|reflexivity].
Qed.

(** ** Properties *)

(** A session from the start of the program. *)
Definition session (fs : files) (logdir confdir : option (list (list Z))) (rand : nat → Z) (evs : list ui_event) :
    alloc (option ((tuiState * files * ui_event) + tuiState * files)) :=
  r ← tui_Initialize fs logdir confdir rand;
  match r with
  | None => mret None
  | Some s => x ← ui_run initial_registry fs s evs; mret (Some x)
  end.

Lemma ui_run_ok g evs : registry_ok g → ∀ fs s, tui_ok s →
  always (ui_run g fs s evs) (λ r,
    match r with inr (s', _) => tui_ok s' | inl (s', fs', ev) => tui_ok s' ∧ (empty_sort s' ev ∨ bare_load fs' s' ev) end).
Proof.
  intros Hg. induction evs as [|ev evs IH]; intros fs s H; cbn [ui_run]; [by apply always_ret|].
  apply always_bind. eapply always_mono; [by apply ui_step_ok|]. intros [[s' fs']|] Hr.
  - destruct (running s'); [by apply IH|by apply always_ret].
  - by apply always_ret.
Qed.

(** C13. Whatever keys, clicks, directory contents, files and failures of the
    modelled allocations a session of the user interface consists of, all its
    indices, counters and text buffers stay within their arrays: the screen and the
    tabs exist, the selected rows and entries are there, the rows of the entities
    table are those that match the filter, and every text is terminated.  Two
    operations are undefined, and the session ends with one of them: the sort of an
    entities table without rows, and loading a configuration file, at the start or
    by a key or a click on the configuration screen, in which a line is a name
    without a value.  Freeing a configuration is left out. *)
Theorem tui_session_safe (fs : files) (logdir confdir : option (list (list Z))) (rand : nat → Z) (evs : list ui_event) :
  always (session fs logdir confdir rand evs) (λ r,
    match r with
    | None => bare_start fs confdir
    | Some (inl (s, fs', ev)) => tui_ok s ∧ (empty_sort s ev ∨ bare_load fs' s ev)
    | Some (inr (s, _)) => tui_ok s
    end).
Proof.
  unfold session. apply always_bind. eapply always_mono; [apply initialize_ok|]. intros [s|] Hs; [|by apply always_ret].
  apply always_bind. eapply always_mono; [apply ui_run_ok; [apply initial_registry_ok|apply Hs]|].
  intros x Hx. by apply always_ret.
Qed.

(** Both exceptions are real: a session that starts on such a file, and one that
    turns to it. *)
Theorem tui_bare_file_undefined :
  let bare := (λ p, if decide (p = config_path (str "a.ini")) then Some (str "[s]" ++ [10] ++ str "k") else None) in
  (session bare None (Some [str "a.ini"]) (λ _, 0) [] []).1 = None ∧
  match (session bare None (Some [str "a.ini"; str "0.ini"]) (λ _, 0) [USidebar SCREEN_CONFIG; UConfigTab 1] []).1 with
  | Some (inl (_, _, UConfigTab 1)) => True
  | _ => False
  end.
Proof. vm_compute. done. Qed.

(** Keys of the command line. *)
Definition line_input (key : Z) : Prop :=
  32 <= key <= 126 ∨ key = KEY_BACKSPACE ∨ key = 127 ∨ key = NEWLINE ∨ key = KEY_ENTER.

Lemma find_binding_none cs bs key c : key ∉ kb_key <$> bs → find_binding cs bs key c = None.
Proof.
  induction bs as [|b bs IH]; [done|]. simpl. rewrite not_elem_of_cons. intros [Hk Hb].
  destruct (Z.eqb_spec (kb_key b) key); [congruence|]. rewrite andb_false_r. auto.
Qed.

Lemma line_not_bound key c : line_input key → tui_registry_process_input initial_registry key c = None.
Proof.
  intros Hk. assert (key ∉ kb_key <$> s_bindings initial_registry) as Hn.
  { replace (kb_key <$> s_bindings initial_registry) with [17; 265; 266; 267; 268; 269; 270; 271; 272; 18; 6; 15] by (vm_compute; reflexivity).
    unfold line_input, KEY_BACKSPACE, NEWLINE, KEY_ENTER in Hk. rewrite !not_elem_of_cons. split_and!; try lia. apply not_elem_of_nil. }
  unfold tui_registry_process_input. rewrite !find_binding_none by done. by destruct (_ =? _).
Qed.

Lemma line_step logdir ok fs s key : line_input key → currentScreen s = SCREEN_SIMULATION ∨ currentScreen s = SCREEN_DIRECTOR →
  process_key initial_registry logdir ok fs s key = mret (s' ← global_key s key; Some (s', fs, None)).
Proof.
  intros Hk Hsc. unfold process_key. rewrite line_not_bound by done.
  assert (scroll_key s key = None) as ->.
  { unfold scroll_key, line_input, KEY_BACKSPACE, NEWLINE, KEY_ENTER in *.
    destruct (Z.eqb_spec key CLAY_NCURSES_KEY_SCROLL_UP), (Z.eqb_spec key CLAY_NCURSES_KEY_SCROLL_DOWN),
      (Z.eqb_spec key CLAY_NCURSES_KEY_SCROLL_LEFT), (Z.eqb_spec key CLAY_NCURSES_KEY_SCROLL_RIGHT); subst;
      unfold CLAY_NCURSES_KEY_SCROLL_UP, CLAY_NCURSES_KEY_SCROLL_DOWN, CLAY_NCURSES_KEY_SCROLL_LEFT, CLAY_NCURSES_KEY_SCROLL_RIGHT in *; lia || done. }
  assert (∀ c, 0 <= CTRL_KEY c <= 31 → CTRL_KEY c ≠ 10 → is_ctrl key c = false) as Hctrl.
  { intros c H1 H2. unfold is_ctrl, line_input, KEY_BACKSPACE, NEWLINE, KEY_ENTER in *. destruct (Z.eqb_spec key (CTRL_KEY c)); lia. }
  assert (is_ctrl key 113 = false ∧ is_ctrl key 99 = false ∧ is_ctrl key 122 = false ∧ is_ctrl key 92 = false ∧
    is_ctrl key 119 = false ∧ is_ctrl key 101 = false ∧ is_ctrl key 117 = false ∧ is_ctrl key 121 = false ∧
    is_ctrl key 47 = false ∧ is_ctrl key 115 = false) as (E1 & E2 & E3 & E4 & E5 & E6 & E7 & E8 & E9 & E10)
    by (split_and!; apply Hctrl; by vm_compute).
  unfold signal_of. rewrite E1, E2, E3, E4. unfold HandleKeyInput.
  assert (key ≠ ERR ∧ ¬ (KEY_F 1 <= key <= KEY_F 8) ∧ key ≠ 31) as (H1 & H2 & H3).
  { unfold line_input, ERR, KEY_F, KEY_BACKSPACE, NEWLINE, KEY_ENTER in *. lia. }
  destruct (Z.eqb_spec key ERR); [done|]. destruct ((KEY_F 1 <=? key) && _ && _) eqn:Ef; [lia|].
  unfold director_key. rewrite E5, E6, E7, E8, E9, E10. destruct (Z.eqb_spec key 31); [done|]. cbn [orb andb].
  assert (currentScreen s =? SCREEN_CONFIG = false ∧ table_key s key = Some (false, s)) as [-> Ht].
  { unfold table_key. destruct Hsc as [-> | ->]; done. }
  unfold after_table. rewrite Ht. cbn [mbind option_bind fst snd]. unfold mbind, alloc_bind, mret, alloc_ret.
  destruct (global_key s key); reflexivity.
Qed.

(** The command line is an editor of a text: on the screens without a table,
    typing printable characters appends them up to 255, backspace removes the last
    one, Enter clears the line, and the text in the buffer is what these operations
    give on a list of characters, for any sequence of such keys. *)
Theorem tui_line_refines_text (fs : files) (s : tuiState) (t : list Z) (keys : list Z) :
  line_is s t → Forall line_input keys → running s = true →
  currentScreen s = SCREEN_SIMULATION ∨ currentScreen s = SCREEN_DIRECTOR →
  always (ui_run initial_registry fs s ((λ k, UKey k None false) <$> keys)) (λ r, ∃ s',
    r = inr (s', fs) ∧ line_is s' (foldl line_key t keys) ∧ currentScreen s' = currentScreen s).
Proof.
  intros Hl Hk. revert s t Hl. induction Hk as [|key keys Hkey Hk IH]; intros s t Hl Hrun Hsc; cbn [fmap list_fmap ui_run foldl].
  { apply always_ret. eauto. }
  assert (key ≠ KEY_RIGHT ∧ key ≠ KEY_LEFT ∧ key ≠ KEY_DOWN ∧ key ≠ KEY_UP) as (H1 & H2 & H3 & H4).
  { unfold line_input, KEY_RIGHT, KEY_LEFT, KEY_DOWN, KEY_UP, KEY_BACKSPACE, NEWLINE, KEY_ENTER in *. lia. }
  destruct (line_global s t key Hl H1 H2) as (s' & E & Hs').
  assert (currentScreen s' = currentScreen s ∧ running s' = running s) as [Ec Er].
  { unfold global_key in E. destruct (Z.eqb_spec key KEY_DOWN), (Z.eqb_spec key KEY_UP), (Z.eqb_spec key KEY_RIGHT), (Z.eqb_spec key KEY_LEFT); try done.
    assert (∀ f, currentScreen (in_logs s f) = currentScreen s ∧ running (in_logs s f) = running s) as Hin
      by (intros f; unfold in_logs; by destruct (_ =? SCREEN_LOGS)).
    repeat (match type of E with (if ?b then _ else _) = _ => destruct b end); simplify_option_eq; try done; apply Hin. }
  apply always_bind. unfold ui_step. rewrite line_step by done. rewrite E.
  apply always_bind, always_ret, always_ret. cbn [mbind option_bind fst]. rewrite Er, Hrun, <- Ec.
  apply IH; [done|congruence|by rewrite Ec].
Qed.

Definition demo_tui : tuiState :=
  mk_tui SCREEN_SIMULATION 0 0 logs_zero entities_zero false tui_InitIPCScreen table_new [] table_new (mk_director true 4 12) editor_zero
    (replicate INPUT_BUFFER_SIZE 0) 0 true.

Lemma tui_line_refines_text_witness :
  ∃ s', (ui_run initial_registry (λ _, None) demo_tui ((λ k, UKey k None false) <$> [104; 105; KEY_BACKSPACE; 111]) []).1 = inr (s', λ _, None) ∧
    line_is s' [104; 111].
Proof.
  destruct (tui_line_refines_text (λ _, None) demo_tui [] [104; 105; KEY_BACKSPACE; 111]) with (m := @nil bool) as (s' & E & Hl & _).
  - split_and!; [apply holds_empty|reflexivity|reflexivity].
  - unfold line_input. repeat (constructor; [lia|]). constructor.
  - reflexivity.
  - by left.
  - exists s'. split; [exact E|exact Hl].
Defined.

(** ** Scratch memory *)

Inductive scratch_request : Type := ScratchFmt (wrote : Z) | ScratchAlloc (size : Z).

Definition scratch_step (offset : Z) (r : scratch_request) : Z * Z :=
  match r with ScratchFmt wrote => tui_ScratchFmt offset wrote | ScratchAlloc size => tui_ScratchAlloc offset size end.
(** The bytes a request may write. *)
Definition scratch_room (r : scratch_request) : Z := match r with ScratchFmt _ => 256 | ScratchAlloc size => size end.
Definition request_ok (r : scratch_request) : Prop :=
  match r with ScratchFmt _ => True | ScratchAlloc size => 0 <= size <= SCRATCH_BUF_SIZE end.

(** The blocks of a frame: start and end of each. *)
Fixpoint scratch_frame (offset : Z) (rs : list scratch_request) : list (Z * Z) :=
  match rs with [] => [] | r :: rs => scratch_step offset r :: scratch_frame (scratch_step offset r).2 rs end.

Lemma scratch_step_ok offset r : 0 <= offset <= SCRATCH_BUF_SIZE → request_ok r →
  let '(a, b) := scratch_step offset r in
  0 <= a ∧ a + scratch_room r <= SCRATCH_BUF_SIZE ∧ a <= b <= a + scratch_room r ∧ (a = offset ∨ a = 0) ∧
  (offset + scratch_room r < SCRATCH_BUF_SIZE → a = offset).
Proof.
  unfold SCRATCH_BUF_SIZE. intros Ho Hr. destruct r as [wrote|size]; simpl; unfold tui_ScratchFmt, tui_ScratchAlloc, SCRATCH_BUF_SIZE in *; simpl in Hr;
    unfold SCRATCH_BUF_SIZE in *; repeat case_match; lia.
Qed.

Lemma scratch_inside offset rs : 0 <= offset <= SCRATCH_BUF_SIZE → Forall request_ok rs →
  Forall2 (λ r b, 0 <= b.1 ∧ b.1 + scratch_room r <= SCRATCH_BUF_SIZE) rs (scratch_frame offset rs).
Proof.
  intros Ho Hrs. revert offset Ho. induction Hrs as [|r rs Hr Hrs IH]; intros offset Ho; [constructor|]. cbn [scratch_frame].
  pose proof (scratch_step_ok offset r Ho Hr) as H. destruct (scratch_step offset r) as [a b]. destruct H as (H1 & H2 & H3 & _).
  constructor; [done|]. apply IH. cbn. lia.
Qed.

Definition total_room (rs : list scratch_request) : Z := foldr (λ r n, scratch_room r + n) 0 rs.

Lemma total_room_nonneg rs : Forall request_ok rs → 0 <= total_room rs.
Proof.
  induction 1 as [|r rs Hr _ IH]; [by compute|]. change (total_room (r :: rs)) with (scratch_room r + total_room rs).
  destruct r; simpl in Hr; cbn [scratch_room]; lia.
Qed.

Lemma scratch_ascending rs : Forall request_ok rs → ∀ offset, 0 <= offset → offset + total_room rs < SCRATCH_BUF_SIZE →
  Forall (λ b, offset <= b.1) (scratch_frame offset rs) ∧
  StronglySorted (λ b c : Z * Z, b.2 <= c.1) (scratch_frame offset rs).
Proof.
  induction 1 as [|r rs Hr Hrs IH]; intros offset Ho Ht; [by split; constructor|]. cbn [scratch_frame total_room foldr] in *.
  fold (total_room rs) in Ht. pose proof (total_room_nonneg rs Hrs).
  assert (0 <= scratch_room r) by (destruct r; simpl in *; lia).
  pose proof (scratch_step_ok offset r ltac:(lia) Hr) as Hs. destruct (scratch_step offset r) as [a b]. destruct Hs as (H1 & H2 & H3 & _ & H5).
  rewrite (H5 ltac:(lia)) in *. destruct (IH b) as [Hf Hso]; [lia|lia|]. cbn. split.
  - constructor; [cbn; lia|]. eapply list.Forall_impl; [exact Hf|]. cbn. lia.
  - by constructor.
Qed.

(** The scratch memory of a frame: every block lies inside the buffer, and as long
    as the requests of the frame fit it together, blocks do not overlap. *)
Theorem scratch_blocks_disjoint (rs : list scratch_request) :
  Forall request_ok rs →
  Forall2 (λ r b, 0 <= b.1 ∧ b.1 + scratch_room r <= SCRATCH_BUF_SIZE) rs (scratch_frame 0 rs) ∧
  (total_room rs < SCRATCH_BUF_SIZE → StronglySorted (λ b c : Z * Z, b.2 <= c.1) (scratch_frame 0 rs)).
Proof.
  intros Hrs. split; [apply scratch_inside; [unfold SCRATCH_BUF_SIZE; lia|done]|]. intros Ht. apply (scratch_ascending rs Hrs 0); lia.
Qed.

Lemma scratch_blocks_disjoint_witness :
  StronglySorted (λ b c : Z * Z, b.2 <= c.1) (scratch_frame 0 [ScratchFmt 10; ScratchAlloc 256; ScratchFmt 400]).
Proof.
  apply (scratch_blocks_disjoint [ScratchFmt 10; ScratchAlloc 256; ScratchFmt 400]).
  - repeat constructor; vm_compute; discriminate.
  - vm_compute. reflexivity.
Defined.

(** ** Where screens disagree with their keys *)

(** The wheel is handled before the screens: no table ever scrolls with it. *)
Theorem wheel_never_scrolls_tables (s s' : tuiState) (key : Z) :
  scroll_key s key = Some s' →
  entitiesTableState (st_entities s') = entitiesTableState (st_entities s) ∧
  helpTableState s' = helpTableState s ∧ ipcTableState s' = ipcTableState s.
Proof. unfold scroll_key, in_logs. intros H. repeat case_match; simplify_eq; done. Qed.

Lemma wheel_never_scrolls_tables_witness :
  ipcTableState (in_logs demo_tui log_scroll_left) = ipcTableState demo_tui.
Proof. apply (wheel_never_scrolls_tables demo_tui _ CLAY_NCURSES_KEY_SCROLL_LEFT). reflexivity. Defined.

(** The shortcut registered as control and slash is the code of control and O, and
    the help screen shows it as such. *)
Theorem slash_shortcut_is_ctrl_o :
  tui_registry_process_input initial_registry 15 context_entities = Some CmdFocusFilter ∧
  tui_registry_process_input initial_registry 31 context_entities = None ∧
  (hp_key <$> list.last (tui_InitHelpScreen initial_registry)) = Some (str "Ctrl + O").
Proof. vm_compute. done. Qed.

(** When the log files become fewer, the active tab can be one that is gone. *)
Theorem refresh_leaves_stale_tab :
  ∃ s, tui_RefreshLogs None (show_log (mk_logs [[97]; [98]; []; []; []; []; []; []; []; []; []; []; []; []; []; []] 2 0 f32_0 0) 1) = Some s ∧
    logFileCount s = 0 ∧ activeLogTab s = 1.
Proof. eexists. split; [vm_compute; reflexivity|done]. Qed.

(** With the keyboard the users go up to 200, with the mouse to 100. *)
Theorem user_limits_differ :
  director_key (CTRL_KEY 117) (mk_director true 4 150) = Some (mk_director true 4 151) ∧
  OnControlClick (mk_director true 4 150) 3 = mk_director true 4 150.
Proof. vm_compute. done. Qed.
