(* ===== verification/SortPar.v ===== *)
(** * Parallel sorting ([app/libs/ring2/postoffice/sort/sort.c], [PAR_DISPATCH])

    Large left parts of a partition are handed to the thread pool while the thread
    goes on with the right part; the caller waits for a counter of unfinished tasks.
    Threads are stacks of ranges still to be sorted, the array is shared, and a step
    is the work on one range: the small sort, or the run detection and the
    partition.  That a step is atomic is no restriction: the ranges of a state are
    shown to be disjoint, so that no two threads touch the same element. *)

From Stdlib Require Import ZArith Lia Sorted Wf_nat.
From stdpp Require Import base list numbers sorting relations.
From S2P Require Import Prelude Vector Sort.

Local Open Scope nat_scope.

Definition PAR_THRESHOLD : Z := 32768.

Definition srange : Type := nat * nat.     (* start and length *)

(** ** The pool ([init_sort_pool_once], [po_sort_init], [po_sort_finish]) *)

Definition sort_cores (info : option (Z * Z)) : Z :=
  let cores := match info with
               | Some (physical, logical) =>
                   if (0 <? physical)%Z then physical else if (0 <? logical)%Z then logical else 4%Z
               | None => 4%Z
               end in
  let cores := if (16 <? cores)%Z then 16%Z else cores in
  if (cores <? 2)%Z then 0%Z else cores.

(** The worker threads of the pool, if it exists, and the state of [pthread_once]. *)
Record sort_pool : Type := mk_sort_pool { sp_pool : option nat; sp_once : bool }.
Definition sort_pool0 : sort_pool := mk_sort_pool None false.

Inductive pool_op : Type :=
| SortInit (info : option (Z * Z)) (created : bool)     (* [po_sysinfo_collect] and [tp_create] *)
| SortFinish.

Definition pool_step (p : sort_pool) (o : pool_op) : sort_pool :=
  match o with
  | SortInit info created =>
      if sp_once p then p
      else let cores := sort_cores info in
           mk_sort_pool (if (0 <? cores)%Z && created then Some (Z.to_nat cores) else None) true
  | SortFinish => mk_sort_pool None (sp_once p)
  end.

(** [PAR_DISPATCH]: the threads that help, if any; otherwise the sort is [po_sort]. *)
Definition dispatch (p : sort_pool) (wg_created : bool) (len : nat) : option nat :=
  if (PAR_THRESHOLD <? Z.of_nat len)%Z then
    threads ← sp_pool p; if wg_created then Some threads else None
  else None.

(** ** The work on one range *)

Inductive node_result : Type := Leaf | Split (left_len right_start right_len : nat).

Section parallel.
  Context {A : Type} (cmp : A → A → Z).

(** [flux_sort_rec] up to the recursive calls. *)
Definition sort_node (l : list A) (start len : nat) : run (list A * node_result) :=
  if len <? FLUX_SMALL_SORT_THRESHOLD then l ← access (insertion_sort cmp l start len); mret (l, Leaf)
  else
    r ← analyze_and_merge cmp l start len;
    if r.2 : bool then mret (r.1, Leaf)
    else
      p ← access (pdq_partition cmp r.1 start len);
      let pivot_idx := p.2 in
      let left_len := if start <? pivot_idx then pivot_idx - start else 0 in
      let right_start := pivot_idx + 1 in
      let right_len := if right_start <? start + len then start + len - right_start else 0 in
      mret (p.1, Split left_len right_start right_len).

(** A part is sorted only if it is not empty. *)
Definition part (start len : nat) : list srange := if 0 <? len then [(start, len)] else [].

(** The shared array, the tasks in the pool's queue and the counter of the wait
    group, and the ranges of the caller and of each worker; an idle worker has none. *)
Record par_state : Type := mk_par {
  ps_array : list A;
  ps_queue : list srange;
  ps_count : nat;
  ps_main : list srange;
  ps_workers : list (option (list srange))
}.

(** What a thread with a stack of ranges does next: [F] promises that the merges find
    their memory; [handed] tells that the task could be allocated and submitted. *)
Inductive sorter_step (F : Prop) : list A * list srange * nat * list srange → list A * list srange * nat * list srange → Prop :=
| t_leaf l q n start len rest m l' m' :
    (F → no_fail m) → sort_node l start len m = Some ((l', Leaf), m') →
    sorter_step F (l, q, n, (start, len) :: rest) (l', q, n, rest)
| t_split l q n start len rest m l' m' left_len right_start right_len (handed : bool) :
    (F → no_fail m) → sort_node l start len m = Some ((l', Split left_len right_start right_len), m') →
    sorter_step F (l, q, n, (start, len) :: rest)
      (if handed && (PAR_THRESHOLD <? Z.of_nat left_len)%Z
       then (l', q ++ [(start, left_len)], n + 1, part right_start right_len ++ rest)
       else (l', q, n, part start left_len ++ part right_start right_len ++ rest)).

Inductive par_step (F : Prop) : par_state → par_state → Prop :=
| p_main l q n st ws l' q' n' st' :
    sorter_step F (l, q, n, st) (l', q', n', st') → par_step F (mk_par l q n st ws) (mk_par l' q' n' st' ws)
| p_worker l q n main ws i st l' q' n' st' :
    ws !! i = Some (Some st) → sorter_step F (l, q, n, st) (l', q', n', st') →
    par_step F (mk_par l q n main ws) (mk_par l' q' n' main (<[i := Some st']> ws))
| p_take l r q n main ws i :
    ws !! i = Some None → par_step F (mk_par l (r :: q) n main ws) (mk_par l q n main (<[i := Some [r]]> ws))
| p_done l q n main ws i :
    ws !! i = Some (Some []) → par_step F (mk_par l q n main ws) (mk_par l q (n - 1) main (<[i := None]> ws)).

(** [wg_wait] returns when the counter is 0. *)
Definition par_finished (s : par_state) : Prop := ps_main s = [] ∧ ps_count s = 0.

Definition par_start (l : list A) (threads : nat) : par_state :=
  mk_par l [] 0 (part 0 (length l)) (replicate threads None).

(** ** Invariant *)

Definition stack_of (w : option (list srange)) : list srange := default [] w.
Definition busy (w : option (list srange)) : nat := match w with Some _ => 1 | None => 0 end.
Definition ranges (s : par_state) : list srange := ps_main s ++ (ps_workers s ≫= stack_of) ++ ps_queue s.

(** The array as a row of segments: those still to be sorted, and finished ones. *)
Definition segment : Type := bool * list A.
Definition flat (segs : list segment) : list A := concat segs.*2.
Fixpoint seg_ranges (o : nat) (segs : list segment) : list srange :=
  match segs with
  | [] => []
  | (pending, x) :: segs => (if pending : bool then [(o, length x)] else []) ++ seg_ranges (o + length x) segs
  end.

Definition seg_le (a b : segment) : Prop := ∀ x y, x ∈ a.2 → y ∈ b.2 → cmp_le cmp x y.
Definition seg_sorted (a : segment) : Prop := a.1 = false → StronglySorted (cmp_le cmp) a.2.

(** [l] is a permutation of [l0] whose pending segments are the ranges [rs]; its
    segments are in order, and sorted once finished, while memory lasts. *)
Definition rep (F : Prop) (l0 l : list A) (rs : list srange) : Prop :=
  ∃ segs, l = flat segs ∧ l ≡ₚ l0 ∧ seg_ranges 0 segs ≡ₚ rs ∧
    (F → StronglySorted seg_le segs ∧ Forall seg_sorted segs).

Record par_inv (F : Prop) (l0 : list A) (s : par_state) : Prop := mk_par_inv {
  pi_count : ps_count s = length (ps_queue s) + sum_list_with busy (ps_workers s);
  pi_rep : rep F l0 (ps_array s) (ranges s)
}.

(** Each range weighs its elements, more while it is queued; a busy worker has to
    report the end of its task. *)
Definition weight (r : srange) : nat := 4 * r.2 + 1.
Definition par_weight (s : par_state) : nat :=
  sum_list_with weight (ranges s) + 2 * length (ps_queue s) + sum_list_with busy (ps_workers s).
End parallel.

(** ** Lemmas *)

Section lemmas.
  Context {A : Type} (D : A → Prop) (cmp : A → A → Z) `{!TotalOrderOn D cmp}.
  Implicit Types (segs : list (segment (A := A))).

Lemma flat_app segs1 segs2 : flat (segs1 ++ segs2) = flat segs1 ++ flat segs2.
Proof. unfold flat. by rewrite fmap_app, concat_app. Qed.

Lemma seg_ranges_app o segs1 segs2 :
  seg_ranges o (segs1 ++ segs2) = seg_ranges o segs1 ++ seg_ranges (o + length (flat segs1)) segs2.
Proof.
  revert o. induction segs1 as [|[b x] segs1 IH]; intros o; cbn [seg_ranges app].
  - by rewrite Nat.add_0_r.
  - rewrite IH, <- app_assoc. unfold flat. cbn [fmap list_fmap concat snd]. rewrite length_app. do 3 f_equal. lia.
Qed.

(** A range is a pending segment. *)
Lemma seg_ranges_elem r o segs :
  r ∈ seg_ranges o segs → ∃ segs1 mid segs2, segs = segs1 ++ (true, mid) :: segs2 ∧ r = (o + length (flat segs1), length mid).
Proof.
  revert o. induction segs as [|[b x] segs IH]; intros o; cbn [seg_ranges]; [by intros ?%not_elem_of_nil|].
  rewrite elem_of_app. intros [Hr|Hr].
  - destruct b; [|by apply not_elem_of_nil in Hr]. apply list_elem_of_singleton in Hr as ->.
    exists [], x, segs. split; [done|]. by rewrite Nat.add_0_r.
  - apply IH in Hr as (segs1 & mid & segs2 & -> & ->). exists ((b, x) :: segs1), mid, segs2. split; [done|].
    unfold flat. cbn [fmap list_fmap concat snd]. rewrite length_app. f_equal. lia.
Qed.

(** Work on a range: a finished segment, or two pending ones around the pivot. *)
Lemma sort_node_spec F pre mid post :
  Forall D mid →
  wp F (sort_node cmp (pre ++ mid ++ post) (length pre) (length mid)) (λ r,
    match r.2 with
    | Leaf => ∃ mid', r.1 = pre ++ mid' ++ post ∧ mid' ≡ₚ mid ∧ (F → StronglySorted (cmp_le cmp) mid')
    | Split ll rs rl => ∃ L p R, r.1 = pre ++ (L ++ p :: R) ++ post ∧ L ++ p :: R ≡ₚ mid ∧
        ll = length L ∧ rs = length pre + length L + 1 ∧ rl = length R ∧
        Forall (λ x, cmp_le cmp x p) L ∧ Forall (λ x, cmp_le cmp p x) R
    end).
Proof using Type*.
  intros HD. unfold sort_node, FLUX_SMALL_SORT_THRESHOLD. destruct (Nat.ltb_spec (length mid) 32) as [Hlt|Hge].
  - destruct (insertion_sort_spec D cmp pre mid post HD) as (mid' & E & Hs & Hp).
    apply wp_bind, (wp_access _ _ _ _ E), wp_ret. exists mid'. auto.
  - apply wp_bind. eapply wp_mono; [by apply (analyze_and_merge_spec D)|]. intros [l1 handled] (m1 & E1 & P1 & Hs1).
    cbn [fst snd] in *. subst l1. destruct handled; [apply wp_ret; exists m1; auto|].
    assert (Forall D m1) as HD1 by by rewrite P1. assert (length m1 = length mid) as L1 by by rewrite P1. rewrite <- L1 in *.
    destruct (pdq_partition_spec D cmp pre m1 post ltac:(lia) HD1) as (L & p & R & E & Pp & HL & HR).
    apply wp_bind, (wp_access _ _ _ _ E). cbn [fst snd]. apply wp_ret. cbn [fst snd].
    pose proof (Permutation_length Pp) as Lp. rewrite length_app in Lp. simpl in Lp.
    exists L, p, R. split_and!; [done|by rewrite Pp| |done| |done|done].
    + destruct (Nat.ltb_spec (length pre) (length pre + length L)); lia.
    + destruct (Nat.ltb_spec (length pre + length L + 1) (length pre + length m1)); lia.
Qed.

(** A segment may be replaced by segments of the same elements. *)
Lemma rep_replace F l0 pre_segs mid post_segs new rs rs' :
  flat (pre_segs ++ (true, mid) :: post_segs) ≡ₚ l0 →
  seg_ranges 0 (pre_segs ++ (true, mid) :: post_segs) ≡ₚ (length (flat pre_segs), length mid) :: rs →
  (F → StronglySorted (seg_le cmp) (pre_segs ++ (true, mid) :: post_segs) ∧
       Forall (seg_sorted cmp) (pre_segs ++ (true, mid) :: post_segs)) →
  flat new ≡ₚ mid → seg_ranges (length (flat pre_segs)) new ≡ₚ rs' →
  (F → StronglySorted (seg_le cmp) new ∧ Forall (seg_sorted cmp) new) →
  rep cmp F l0 (flat (pre_segs ++ new ++ post_segs)) (rs' ++ rs).
Proof using Type.
  intros Hp Hr HF Hn Hrn HFn. exists (pre_segs ++ new ++ post_segs). split; [done|].
  assert (flat ((true, mid) :: post_segs) = mid ++ flat post_segs) as Ec by done.
  split; [|split].
  - rewrite <- Hp, !flat_app, Hn, Ec. done.
  - rewrite !seg_ranges_app, (Permutation_length Hn), Hrn.
    rewrite seg_ranges_app in Hr. cbn [seg_ranges app Nat.add] in Hr.
    rewrite <- Permutation_middle in Hr. apply Permutation_cons_inv in Hr. rewrite <- Hr. cbn [Nat.add].
    rewrite !app_assoc. by rewrite (Permutation_app_comm rs').
  - intros HF'. destruct (HF HF') as [Hs Hf]. destruct (HFn HF') as [Hsn Hfn].
    apply SS_app in Hs as (Hs1 & Hs2 & Hx). inversion Hs2 as [|? ? Hs3 Hm]; subst.
    apply Forall_app in Hf as [Hf1 [_ Hf2]%Forall_cons_1].
    assert (∀ b x, b ∈ new → x ∈ b.2 → x ∈ mid) as Hsub.
    { intros b x Hb Hx'. rewrite <- Hn. unfold flat. apply list_elem_of_In, in_concat. exists b.2.
      split; apply list_elem_of_In; [by apply list_elem_of_fmap_2|done]. }
    split; [apply SS_app; split_and!; [done|apply SS_app; split_and!; [done|done|]|]|by rewrite !Forall_app].
    + rewrite Forall_forall in Hm. intros b c Hb Hc x y Hx' Hy. apply (Hm c Hc x y); [by eapply Hsub|done].
    + intros a b Ha [Hb|Hb]%elem_of_app; [|apply Hx; [done|by right]].
      intros x y Hx' Hy. apply (Hx a (true, mid) Ha ltac:(by left) x y Hx'). by eapply Hsub.
Qed.

Lemma rep_Permutation F l0 l rs rs' : rs ≡ₚ rs' → rep cmp F l0 l rs → rep cmp F l0 l rs'.
Proof using Type. intros Hp (segs & ? & ? & Hr & ?). exists segs. by rewrite Hr, Hp. Qed.

(** Work on a pending range ends, stays within it and keeps the representation. *)
Lemma node_rep F l0 l start len rs m :
  Forall D l0 → rep cmp F l0 l ((start, len) :: rs) → (F → no_fail m) →
  ∃ l' res m', sort_node cmp l start len m = Some ((l', res), m') ∧
    match res with
    | Leaf => rep cmp F l0 l' rs
    | Split ll rst rl => ll + rl + 1 = len ∧ rep cmp F l0 l' ((part start ll ++ part rst rl) ++ rs)
    end.
Proof using Type*.
  intros HD (segs & -> & Hp & Hr & HF) Hm.
  destruct (seg_ranges_elem (start, len) 0 segs) as (pre & mid & post & -> & E); [rewrite Hr; by left|].
  cbn [Nat.add] in E. injection E as -> ->.
  assert (flat (pre ++ (true, mid) :: post) = flat pre ++ mid ++ flat post) as El by by rewrite flat_app.
  assert (Forall D mid) as HDm.
  { rewrite <- Hp, El in HD. apply Forall_app in HD as [_ [? _]%Forall_app]. done. }
  destruct (sort_node_spec F (flat pre) mid (flat post) HDm m Hm) as ([l' res] & m' & E & _ & Hres).
  exists l', res, m'. rewrite El. split; [done|]. cbn [fst snd] in Hres. destruct res as [|ll rst rl].
  - destruct Hres as (mid' & -> & Pm & Hs).
    assert (rep cmp F l0 (flat (pre ++ [(false, mid')] ++ post)) ([] ++ rs)) as H.
    { eapply rep_replace; [done|done|done|by unfold flat; simpl; rewrite app_nil_r|done|].
      intros HF'. split; [repeat constructor|]. constructor; [intros _; by apply Hs|constructor]. }
    rewrite flat_app in H. exact H.
  - destruct Hres as (L & p & R & -> & Pm & -> & -> & -> & HL & HR).
    pose proof (Permutation_length Pm) as Lm. rewrite length_app in Lm. cbn [length] in Lm. split; [lia|].
    assert (rep cmp F l0 (flat (pre ++ [(0 <? length L, L); (false, [p]); (0 <? length R, R)] ++ post))
      ((part (length (flat pre)) (length L) ++ part (length (flat pre) + length L + 1) (length R)) ++ rs)) as H.
    { eapply rep_replace; [done|done|done|by unfold flat; simpl; rewrite app_nil_r| |].
      - unfold part. cbn [seg_ranges length app]. rewrite app_nil_r. done.
      - intros HF'. rewrite Forall_forall in HL, HR. split.
        + assert (Forall D (L ++ p :: R)) as HDn by by rewrite Pm.
          apply Forall_app in HDn as [DL [Dp DR]%Forall_cons_1]. rewrite Forall_forall in DL, DR.
          assert (∀ x y, x ∈ [p] → y ∈ R → cmp_le cmp x y) as H1
            by (intros x y ->%list_elem_of_singleton ?; by apply HR).
          assert (∀ x y, x ∈ L → y ∈ [p] → cmp_le cmp x y) as H2
            by (intros x y ? ->%list_elem_of_singleton; by apply HL).
          assert (∀ x y, x ∈ L → y ∈ R → cmp_le cmp x y) as H3
            by (intros x y Hx Hy; apply (le_trans D cmp x p y); auto).
          repeat constructor; done.
        + rewrite !Forall_cons. unfold seg_sorted. cbn [fst snd].
          split_and!; [by destruct L; [constructor|]|intros _; apply SS_singleton|by destruct R; [constructor|]|done]. }
    rewrite flat_app in H. unfold flat in H at 2. rewrite fmap_app, concat_app in H. cbn in H. rewrite app_nil_r in H.
    rewrite <- !app_assoc in H |- *. cbn [app] in H |- *. exact H.
Qed.

(** ** Steps of a thread *)

(** A thread with work left has a step; a step puts at most one task into the queue,
    keeps the representation and loses weight, a task of the queue weighing 2 more. *)
Lemma thread_step_exists F l0 l q n r st rs :
  Forall D l0 → rep cmp F l0 l (r :: rs) → ∃ t, sorter_step cmp F (l, q, n, r :: st) t.
Proof using Type*.
  intros HD H. destruct r as [start len].
  assert (F → no_fail []) as Hm by constructor.
  destruct (node_rep F l0 l start len rs [] HD H Hm) as (l' & [|ll rst rl] & m' & E & _).
  - eexists. by eapply t_leaf.
  - eexists. by eapply (t_split _ _ _ _ _ _ _ _ _ _ _ _ _ _ true).
Qed.

Lemma weight_part start len : sum_list_with weight (part start len) ≤ 4 * len + 1.
Proof using Type. unfold part. destruct (Nat.ltb_spec 0 len); simpl; unfold weight; simpl; lia. Qed.

Lemma part_pos start len : 0 < len → part start len = [(start, len)].
Proof using Type. intros H. unfold part. by rewrite (proj2 (Nat.ltb_lt _ _) H). Qed.

Lemma thread_step_rep F l0 l q n st rs l' q' n' st' :
  Forall D l0 → rep cmp F l0 l (st ++ rs) → sorter_step cmp F (l, q, n, st) (l', q', n', st') →
  ∃ new, q' = q ++ new ∧ n' = n + length new ∧ rep cmp F l0 l' (st' ++ new ++ rs) ∧
    sum_list_with weight st' + sum_list_with weight new + 2 * length new < sum_list_with weight st.
Proof using Type*.
  intros HD Hr Hs. remember (l', q', n', st') as t eqn:Ht in Hs.
  inversion Hs as [? ? ? start len rest m l1 m' Hm E|? ? ? start len rest m l1 m' ll rst rl handed Hm E]; simplify_eq.
  - destruct (node_rep F l0 l start len (st' ++ rs) m HD Hr Hm) as (l2 & res & m2 & E2 & HN).
    rewrite E in E2. injection E2 as <- <- <-. exists []. rewrite !app_nil_r. split_and!; [done|simpl; lia|done|].
    simpl. unfold weight at 2. simpl. lia.
  - destruct (node_rep F l0 l start len (rest ++ rs) m HD Hr Hm) as (l2 & res & m2 & E2 & HN).
    rewrite E in E2. injection E2 as <- <- <-. destruct HN as [Hlen HN].
    pose proof (weight_part start ll). pose proof (weight_part rst rl).
    destruct (handed && (PAR_THRESHOLD <? Z.of_nat ll)%Z) eqn:Eh; simplify_eq.
    + apply andb_prop in Eh as [_ Hll%Z.ltb_lt]. unfold PAR_THRESHOLD in Hll.
      rewrite (part_pos start ll) in HN by lia.
      exists [(start, ll)]. split_and!; [done|done| |].
      * eapply rep_Permutation; [|exact HN]. solve_Permutation.
      * rewrite sum_list_with_app. cbn [sum_list_with length]. change (weight (start, ll)) with (4 * ll + 1).
        change (weight (start, ll + rl + 1)) with (4 * (ll + rl + 1) + 1). lia.
    + exists []. rewrite !app_nil_r. split_and!; [done|simpl; lia| |].
      * eapply rep_Permutation; [|exact HN]. solve_Permutation.
      * rewrite !sum_list_with_app. cbn [sum_list_with length]. change (weight (start, ll + rl + 1)) with (4 * (ll + rl + 1) + 1). lia.
Qed.

(** ** Steps of the system *)

Lemma worker_split {B} (ws : list B) i w :
  ws !! i = Some w → ∃ ws1 ws2, ws = ws1 ++ w :: ws2 ∧ ∀ v, <[i := v]> ws = ws1 ++ v :: ws2.
Proof using Type.
  intros (ws1 & ws2 & -> & Hi)%list_elem_of_split_length. exists ws1, ws2. split; [done|].
  intros v. by rewrite insert_app_r_alt, Hi, Nat.sub_diag by lia.
Qed.

Lemma par_step_inv F l0 s s' :
  Forall D l0 → par_inv cmp F l0 s → par_step cmp F s s' → par_inv cmp F l0 s' ∧ par_weight s' < par_weight s.
Proof using Type*.
  intros HD [Hc Hr] Hs. destruct Hs as [l q n st ws l' q' n' st' Ht|l q n main ws i st l' q' n' st' Hi Ht
    |l r q n main ws i Hi|l q n main ws i Hi]; unfold par_weight, ranges in *; simpl in Hc, Hr.
  - destruct (thread_step_rep F l0 l q n st ((ws ≫= stack_of) ++ q) l' q' n' st' HD Hr Ht) as (new & -> & -> & Hr' & Hw).
    split; [constructor; simpl|simpl; rewrite !sum_list_with_app, !length_app; lia].
    + rewrite length_app. lia.
    + eapply rep_Permutation; [|exact Hr']. unfold ranges. simpl. solve_Permutation.
  - apply worker_split in Hi as (ws1 & ws2 & -> & Hins). rewrite Hins.
    rewrite bind_app, bind_cons in Hr. cbn [stack_of default] in Hr. rewrite sum_list_with_app in Hc. simpl in Hc.
    destruct (thread_step_rep F l0 l q n st (main ++ (ws1 ≫= stack_of) ++ (ws2 ≫= stack_of) ++ q) l' q' n' st' HD)
      as (new & -> & -> & Hr' & Hw); [|done|].
    { eapply rep_Permutation; [|exact Hr]. simpl. solve_Permutation. }
    split; [constructor; simpl|simpl; rewrite !bind_app, !bind_cons, !sum_list_with_app, !length_app; simpl; lia].
    + rewrite length_app, sum_list_with_app. simpl. lia.
    + eapply rep_Permutation; [|exact Hr']. unfold ranges. simpl. rewrite bind_app, bind_cons. simpl. solve_Permutation.
  - apply worker_split in Hi as (ws1 & ws2 & -> & Hins). rewrite Hins. rewrite sum_list_with_app in Hc. simpl in Hc.
    rewrite bind_app, bind_cons in Hr. simpl in Hr.
    split; [constructor; simpl|simpl; rewrite !bind_app, !bind_cons, !sum_list_with_app; simpl; rewrite ?sum_list_with_app; simpl; lia].
    + rewrite sum_list_with_app. simpl. lia.
    + eapply rep_Permutation; [|exact Hr]. unfold ranges. simpl. rewrite bind_app, bind_cons. simpl. solve_Permutation.
  - apply worker_split in Hi as (ws1 & ws2 & -> & Hins). rewrite Hins. rewrite sum_list_with_app in Hc. simpl in Hc.
    rewrite bind_app, bind_cons in Hr. simpl in Hr.
    split; [constructor; simpl|simpl; rewrite !bind_app, !bind_cons, !sum_list_with_app; simpl; lia].
    + rewrite sum_list_with_app. simpl. lia.
    + unfold ranges. simpl. by rewrite bind_app, bind_cons.
Qed.

Lemma par_start_inv F l threads : par_inv cmp F l (par_start l threads).
Proof using Type.
  assert (sum_list_with busy (replicate threads None) = 0) as Hb by by induction threads.
  assert (∀ k, replicate k None ≫= stack_of = []) as Hk by (intros k; induction k as [|k IH]; [done|exact IH]).
  constructor; unfold ranges; simpl; rewrite ?Hb, ?Hk; [done|].
  exists (if 0 <? length l then [(true, l)] else []). unfold part, flat. destruct l as [|x l]; simpl; [by repeat constructor|].
  rewrite app_nil_r. split_and!; [done..|]. intros _. by repeat constructor.
Qed.

Lemma sum_busy_zero ws : sum_list_with busy ws = 0 → ws ≫= stack_of = [].
Proof using Type. induction ws as [|[st|] ws IH]; simpl; [done|lia|done]. Qed.

(** Something can happen until the caller may return. *)
Lemma par_progress F l0 s :
  Forall D l0 → par_inv cmp F l0 s → 0 < length (ps_workers s) → par_finished s ∨ ∃ s', par_step cmp F s s'.
Proof using Type*.
  destruct s as [l q n main ws]. intros HD [Hc Hr] Hws. unfold ranges in Hr. simpl in *.
  destruct main as [|r main].
  2: { right. destruct (thread_step_exists F l0 l q n r main _ HD Hr) as [[[[l' q'] n'] st'] Ht]. eexists. by eapply p_main. }
  destruct (decide (Exists (λ w, busy w = 1) ws)) as [Hb|Hb].
  - apply list.Exists_exists in Hb as (w & [i Hi]%list_elem_of_lookup & Hw). destruct w as [[|r st]|]; [| |done].
    + right. eexists. by apply p_done.
    + apply worker_split in Hi as Hw'. destruct Hw' as (ws1 & ws2 & -> & _). rewrite bind_app, bind_cons in Hr. simpl in Hr.
      right. destruct (thread_step_exists F l0 l q n r st (st ++ (ws1 ≫= stack_of) ++ (ws2 ≫= stack_of) ++ q) HD)
        as [[[[l' q'] n'] st'] Ht]; [eapply rep_Permutation; [|exact Hr]; solve_Permutation|].
      eexists. by eapply p_worker.
  - apply not_Exists_Forall in Hb; [|apply _]. destruct q as [|r q].
    + left. split; simpl; [done|]. rewrite Hc. simpl. clear -Hb. induction Hb as [|[]]; simpl in *; [done|done|lia].
    + right. destruct ws as [|[st|] ws]; simpl in Hws; [lia|by apply Forall_cons_1 in Hb as [[] _]|].
      eexists. by eapply (p_take _ _ _ _ _ _ _ _ 0).
Qed.

(** So the sort can always be completed. *)
Lemma par_completes F l0 s :
  Forall D l0 → par_inv cmp F l0 s → 0 < length (ps_workers s) → ∃ k s', nsteps (par_step cmp F) k s s' ∧ par_finished s'.
Proof using Type*.
  intros HD. induction s as [s IH] using (induction_ltof1 _ par_weight). unfold ltof in IH. intros Hi Hw.
  destruct (par_progress F l0 s HD Hi Hw) as [Hf|[s1 Hs]]; [exists 0, s; split; [constructor|done]|].
  destruct (par_step_inv F l0 s s1 HD Hi Hs) as [Hi1 Hw1].
  destruct (IH s1 Hw1 Hi1) as (k & s' & Hk & Hf); [destruct Hs; simpl in *; by rewrite ?length_insert|].
  exists (S k), s'. split; [by econstructor|done].
Qed.

(** At the end every segment is finished. *)
Lemma seg_ranges_nil o segs : seg_ranges o segs = [] → Forall (λ g, g.1 = false) segs.
Proof using Type.
  revert o. induction segs as [|[b x] segs IH]; intros o; cbn [seg_ranges]; [constructor|].
  intros [Hb H]%app_eq_nil. constructor; [by destruct b|by eapply IH].
Qed.

Lemma flat_sorted segs :
  StronglySorted (seg_le cmp) segs → Forall (seg_sorted cmp) segs → Forall (λ g, g.1 = false) segs →
  StronglySorted (cmp_le cmp) (flat segs).
Proof using Type.
  induction segs as [|g segs IH]; intros Hs Hf Hb; [constructor|]. inversion Hs as [|? ? Hs' Hle]; subst.
  apply Forall_cons_1 in Hf as [Hg Hf], Hb as [Hb Hb']. unfold flat. cbn [fmap list_fmap concat].
  apply SS_app. split_and!; [by apply Hg|by apply IH|]. intros x y Hx Hy. rewrite Forall_forall in Hle.
  apply list_elem_of_In, in_concat in Hy as (z & Hz%list_elem_of_In & Hy%list_elem_of_In).
  apply list_elem_of_fmap in Hz as (c & -> & Hc). by apply (Hle c Hc).
Qed.

Lemma finished_sorted F l0 s :
  par_inv cmp F l0 s → par_finished s → ps_array s ≡ₚ l0 ∧ (F → StronglySorted (cmp_le cmp) (ps_array s)).
Proof using Type.
  destruct s as [l q n main ws]. intros [Hc Hr] [Hm Hn]. simpl in *. subst main.
  assert (q = []) as -> by (destruct q; [done|simpl in Hc; lia]).
  unfold ranges in Hr. simpl in Hr, Hc. rewrite sum_busy_zero in Hr by lia. simpl in Hr.
  destruct Hr as (segs & -> & Hp & Hg & HF). split; [done|]. intros HF'. destruct (HF HF') as [Hs Hf].
  apply flat_sorted; [done|done|]. apply (seg_ranges_nil 0). by apply Permutation_nil_r.
Qed.

(** ** Disjointness *)

Definition apart (r r' : srange) : Prop := r.1 + r.2 ≤ r'.1 ∨ r'.1 + r'.2 ≤ r.1.

Lemma seg_ranges_bounds o segs r : r ∈ seg_ranges o segs → o ≤ r.1 ∧ r.1 + r.2 ≤ o + length (flat segs).
Proof using Type.
  intros (segs1 & mid & segs2 & -> & ->)%seg_ranges_elem. simpl.
  rewrite flat_app. change (flat ((true, mid) :: segs2)) with (mid ++ flat segs2). rewrite !length_app. lia.
Qed.

Lemma seg_ranges_apart o segs i j r r' :
  i < j → seg_ranges o segs !! i = Some r → seg_ranges o segs !! j = Some r' → apart r r'.
Proof using Type.
  revert o i j. induction segs as [|[b x] segs IH]; intros o i j Hij Hi Hj; [done|]. cbn [seg_ranges] in Hi, Hj.
  destruct b; [|by eapply (IH _ i j)]. destruct i as [|i], j as [|j]; simpl in Hi, Hj; [lia| |lia|eapply (IH _ i j); [lia|done..]].
  simplify_eq. apply list_elem_of_lookup_2, seg_ranges_bounds in Hj. left. simpl. lia.
Qed.

Lemma rep_apart F l0 l rs i j r r' :
  rep cmp F l0 l rs → i ≠ j → rs !! i = Some r → rs !! j = Some r' → apart r r' ∧ r.1 + r.2 ≤ length l0.
Proof using Type.
  intros (segs & -> & Hp & Hr & _) Hij Hi Hj. symmetry in Hr. split.
  - apply Permutation_inj in Hr as (_ & f & Hf & El). rewrite El in Hi, Hj.
    assert (f i ≠ f j) as Hne by (intros E; by apply Hf in E).
    destruct (decide (f i < f j)); [by eapply seg_ranges_apart|].
    assert (apart r' r) as [|] by (eapply (seg_ranges_apart 0 segs (f j) (f i)); [lia|done..]); [by right|by left].
  - apply list_elem_of_lookup_2 in Hi. rewrite Hr in Hi. apply seg_ranges_bounds in Hi. rewrite <- Hp. lia.
Qed.
End lemmas.

(** ** Properties *)

(** Finishing ends parallel sorting for good: [pthread_once] is not reset. *)
Theorem finish_ends_parallel p ops' wg len :
  sp_once p = true →
  dispatch (foldl pool_step (pool_step p SortFinish) ops') wg len = None.
Proof.
  intros Ho. assert (∀ q, sp_pool q = None → sp_once q = true → sp_pool (foldl pool_step q ops') = None) as H.
  { induction ops' as [|[info created|] ops' IH]; intros q Hp Hq; simpl; [done| |by apply IH].
    rewrite Hq. by apply IH. }
  unfold dispatch. rewrite H; [by destruct (_ <? _)%Z|done|done].
Qed.

Lemma pool_threads ops n : sp_pool (foldl pool_step sort_pool0 ops) = Some n → 2 ≤ n ≤ 16.
Proof.
  assert (∀ q, (∀ n, sp_pool q = Some n → 2 ≤ n ≤ 16) → ∀ n, sp_pool (foldl pool_step q ops) = Some n → 2 ≤ n ≤ 16) as H;
    [|by apply H].
  induction ops as [|[info created|] ops IH]; intros q Hq; [done| |]; simpl; apply IH; [|done].
  destruct (sp_once q); [done|]. simpl. intros k. unfold sort_cores.
  destruct (16 <? _)%Z eqn:E16; [destruct created; simpl; [intros [= <-]; lia|done]|].
  destruct (_ <? 2)%Z eqn:E2; [done|]. destruct (_ && created); [|done]. intros [= <-].
  apply Z.ltb_ge in E16, E2. lia.
Qed.

(** C3. Parallel sorting: with the pool of [po_sort_init], a large array and memory for
    the merges, every interleaving of the caller and the workers ends within
    [4 * length l + 1] steps and never blocks before the caller's wait is over; no two
    pending ranges overlap and all lie within the array, so no element is ever touched
    by two threads; and when the wait is over the array is a sorted permutation. *)
Theorem parallel_sort_sorts {A} (D : A → Prop) (cmp : A → A → Z) (l : list A) ops wg threads :
  TotalOrderOn D cmp → Forall D l → dispatch (foldl pool_step sort_pool0 ops) wg (length l) = Some threads →
  ∀ k s, nsteps (par_step cmp True) k (par_start l threads) s →
    k ≤ 4 * length l + 1 ∧
    (par_finished s ∨ ∃ s', par_step cmp True s s') ∧
    (∀ i j r r', i ≠ j → ranges s !! i = Some r → ranges s !! j = Some r' → apart r r' ∧ r.1 + r.2 ≤ length l) ∧
    (par_finished s → ps_array s ≡ₚ l ∧ StronglySorted (λ a b, (cmp a b <= 0)%Z) (ps_array s)).
Proof.
  intros HO HD Hd k s Hk. assert (0 < threads) as Ht.
  { unfold dispatch in Hd. destruct (_ <? _)%Z; [|done]. apply bind_Some in Hd as (n & Hn%pool_threads & Hw).
    destruct wg; simplify_eq; lia. }
  assert (par_inv cmp True l s ∧ par_weight s + k ≤ par_weight (par_start l threads) ∧
    length (ps_workers s) = threads) as (Hi & Hw & Hl).
  { remember (par_start l threads) as s0 eqn:E0. assert (par_inv cmp True l s0 ∧ length (ps_workers s0) = threads) as [Hi Hl]
      by (subst s0; split; [apply par_start_inv|apply length_replicate]). clear E0.
    induction Hk as [s0|k s0 s1 s2 Hs Hk IH]; [split_and!; [done|lia|done]|].
    destruct (par_step_inv D cmp True l s0 s1 HD Hi Hs) as [Hi1 Hw1].
    assert (length (ps_workers s1) = threads) as Hl1 by (destruct Hs; simpl in *; by rewrite ?length_insert).
    destruct (IH Hi1 Hl1) as (? & ? & ?). split_and!; [done|lia|done]. }
  split_and!.
  - assert (sum_list_with busy (replicate threads None) = 0) as Hb by (clear; by induction threads).
    assert (∀ k, replicate k None ≫= stack_of = []) as Hn by (intros j; induction j as [|j IH]; [done|exact IH]).
    unfold par_weight, ranges in Hw. simpl in Hw. rewrite Hb, Hn, !app_nil_r in Hw. pose proof (weight_part 0 (length l)). lia.
  - apply (par_progress D cmp True l s); [done|done|lia].
  - intros i j r r' Hij Hr Hr'. by eapply rep_apart; [apply Hi|..].
  - intros Hf. destruct (finished_sorted cmp True l s Hi Hf) as [Hp Hs]. split; [done|by apply Hs].
Qed.

(** 40,000 elements and the pool of a machine with 8 cores. *)
Definition many : list Z := map (λ k, ((Z.of_nat k * 7919 + 13) mod 211)%Z) (seq 0 (Z.to_nat 40000)).

Lemma parallel_sort_sorts_witness :
  ∃ k s, nsteps (par_step (λ a b, (a - b)%Z) True) k (par_start many 8) s ∧
    k ≤ 4 * length many + 1 ∧ ps_array s ≡ₚ many ∧ StronglySorted (λ a b, (a - b <= 0)%Z) (ps_array s).
Proof.
  assert (Forall (λ _ : Z, True) many) as HD by (apply Forall_true; intros; exact I).
  destruct (par_completes (λ _ : Z, True) (λ a b, (a - b)%Z) True many (par_start many 8) HD) as (k & s & Hk & Hf).
  - apply par_start_inv.
  - simpl. lia.
  - destruct (parallel_sort_sorts (λ _ : Z, True) (λ a b, (a - b)%Z) many [SortInit (Some (8, 16)%Z) true] true 8
      Z_sub_order HD) with (k := k) (s := s) as (Hb & _ & _ & Hs); [|exact Hk|exists k, s; auto].
    unfold dispatch, many, PAR_THRESHOLD. rewrite length_map, length_seq, Z2Nat.id by lia. reflexivity.
Defined.
