(* ===== verification/Signals.v ===== *)
(** * Signal utilities ([app/src/utils/signals.c])

    The signal mask and the signal handlers of a process, what the helpers make
    of them, and the set-ups of the processes that use them.  Results are [Done]
    for 0, [Failed e] for -1 with [errno = e], and [Undefined].

    [reserved] are the signals the C library keeps for itself: its calls refuse
    them (two real-time signals in the GNU library, none in others). *)

From Stdlib Require Import ZArith Lia.
From stdpp Require Import base gmap list numbers.
From S2P Require Import Prelude Cstring.

Local Open Scope Z_scope.

Definition NSIG : Z := 65.
Definition SIGHUP : Z := 1.
Definition SIGINT : Z := 2.
Definition SIGQUIT : Z := 3.
Definition SIGILL : Z := 4.
Definition SIGTRAP : Z := 5.
Definition SIGABRT : Z := 6.
Definition SIGBUS : Z := 7.
Definition SIGFPE : Z := 8.
Definition SIGKILL : Z := 9.
Definition SIGSEGV : Z := 11.
Definition SIGPIPE : Z := 13.
Definition SIGALRM : Z := 14.
Definition SIGTERM : Z := 15.
Definition SIGCHLD : Z := 17.
Definition SIGSTOP : Z := 19.
Definition SIGSYS : Z := 31.
Definition SA_SIGINFO : Z := 4.
Definition SA_RESETHAND : Z := 0x80000000.

Definition TERMINATING_SIGNALS : list Z :=
  [SIGINT; SIGTERM; SIGABRT; SIGHUP; SIGQUIT; SIGFPE; SIGSEGV; SIGPIPE; SIGALRM; SIGILL; SIGBUS; SIGSYS].
Definition NUM_TERMINATING_SIGNALS : nat := length TERMINATING_SIGNALS.
Definition is_terminating (i : Z) : bool := existsb (Z.eqb i) TERMINATING_SIGNALS.

(** [for (int i = 1; i < NSIG; i++)] *)
Definition all_signals : list Z := seqZ 1 (NSIG - 1).

Definition SIGUTIL_BLOCK_TERMINATING_ONLY : Z := 0x01.
Definition SIGUTIL_BLOCK_NON_TERMINATING : Z := 0x02.
Definition SIGUTIL_BLOCK_ALL_SIGNALS : Z := 0x0f.
Definition SIGUTIL_HANDLE_TERMINATING_ONLY : Z := 0x10.
Definition SIGUTIL_HANDLE_NON_TERMINATING : Z := 0x20.
Definition SIGUTIL_HANDLE_ALL_SIGNALS : Z := 0xf0.

Inductive sig_result : Type := Done | Failed (e : errno) | Undefined.

(** Handlers and their flags; a signal without an entry has its default action. *)
Record sig_state (H : Type) : Type := mk_sig { sig_mask : gset Z; sig_actions : gmap Z (H * Z) }.
Arguments mk_sig {H}.
Arguments sig_mask {H}.
Arguments sig_actions {H}.

Definition sig_op (H : Type) : Type := sig_state H → sig_result * sig_state H.

(** [if (a == -1) return -1; b] *)
Definition andthen {H} (a b : sig_op H) : sig_op H := λ s,
  let '(r, s) := a s in match r with Done => b s | _ => (r, s) end.
Declare Scope signal_scope.
Delimit Scope signal_scope with signal.
Infix ">>>" := andthen (at level 60, right associativity) : signal_scope.
Local Open Scope signal_scope.

Definition skip_op {H} : sig_op H := λ s, (Done, s).

(** [if (c && op == -1) return -1;] *)
Definition when {H} (c : bool) (op : sig_op H) : sig_op H := if c then op else skip_op.

Section signals.
  Context {H : Type} (reserved : gset Z).

(** ** Calls of the system *)

Definition valid_signal (sig : Z) : bool := (1 <=? sig) && (sig <? NSIG) && bool_decide (sig ∉ reserved).
Definition unchangeable (sig : Z) : bool := (sig =? SIGKILL) || (sig =? SIGSTOP).

Definition sigaction (sig : Z) (act : option (H * Z)) : sig_op H := λ s,
  if valid_signal sig && negb (unchangeable sig) then (Done, mk_sig (sig_mask s) (partial_alter (λ _, act) sig (sig_actions s)))
  else (Failed EINVAL, s).

Definition sigaddset (set : gset Z) (sig : Z) : option (gset Z) :=
  if valid_signal sig then Some ({[sig]} ∪ set) else None.
Definition sigfillset : gset Z := list_to_set (filter (λ i, valid_signal i = true) all_signals).

Definition NEVER_BLOCKED : gset Z := {[SIGKILL; SIGSTOP]}.
Definition mask_block (set : gset Z) : sig_op H := λ s, (Done, mk_sig (sig_mask s ∪ (set ∖ NEVER_BLOCKED)) (sig_actions s)).
Definition mask_unblock (set : gset Z) : sig_op H := λ s, (Done, mk_sig (sig_mask s ∖ set) (sig_actions s)).

(** ** The helpers *)

(** The loop [sigset] of [signals[0 .. num_signals]]. *)
Fixpoint add_signals (signals : list Z) (set : gset Z) : option (gset Z) :=
  match signals with
  | [] => Some set
  | sig :: signals => set ← sigaddset set sig; add_signals signals set
  end.
Definition set_signals_to_sigset (signals : list Z) : option (gset Z) := add_signals signals ∅.

Definition sigutil_handle (signum : Z) (handler : H) (flags : Z) : sig_op H :=
  sigaction signum (Some (handler, Z.lor SA_SIGINFO flags)).

(** A loop over signals that goes on after [EINVAL]. *)
Fixpoint each_signal (f : Z → sig_op H) (signals : list Z) : sig_op H := λ s,
  match signals with
  | [] => (Done, s)
  | sig :: signals =>
      let '(r, s) := f sig s in
      match r with
      | Done | Failed EINVAL => each_signal f signals s
      | _ => (r, s)
      end
  end.

Definition sigutil_handle_all (handler : H) (flags : Z) : sig_op H :=
  each_signal (λ i, sigutil_handle i handler flags) all_signals.
Definition sigutil_handle_terminating (handler : H) (flags : Z) : sig_op H :=
  each_signal (λ i, sigutil_handle i handler flags) TERMINATING_SIGNALS.
Definition sigutil_handle_non_terminating (handler : H) (flags : Z) : sig_op H :=
  each_signal (λ i, when (negb (is_terminating i)) (sigutil_handle i handler flags)) all_signals.

(** A call that blocks or unblocks a set, if the set could be built. *)
Definition with_set (set : option (gset Z)) (op : gset Z → sig_op H) : sig_op H :=
  match set with Some set => op set | None => λ s, (Failed EINVAL, s) end.

Definition sigutil_block (signum : Z) : sig_op H := with_set (sigaddset ∅ signum) mask_block.
Definition sigutil_block_all : sig_op H := mask_block sigfillset.
Definition sigutil_block_terminating : sig_op H := with_set (set_signals_to_sigset TERMINATING_SIGNALS) mask_block.

(** The signals that do not terminate, in an array of
    [NSIG - NUM_TERMINATING_SIGNALS - 1] numbers. *)
Fixpoint collect_non_terminating (signals : list Z) (arr : list Z) (j : nat) : option (list Z * nat) :=
  match signals with
  | [] => Some (arr, j)
  | i :: signals =>
      if is_terminating i then collect_non_terminating signals arr j
      else arr ← store_at arr j i; collect_non_terminating signals arr (j + 1)%nat
  end.
Definition non_terminating_signals : option (list Z) :=
  r ← collect_non_terminating all_signals (replicate (Z.to_nat NSIG - NUM_TERMINATING_SIGNALS - 1) 0) 0;
  Some (take r.2 r.1).

(** [mem] tells that the array could be allocated. *)
Definition sigutil_block_non_terminating (mem : bool) : sig_op H :=
  if mem then
    match non_terminating_signals with
    | Some l => with_set (set_signals_to_sigset l) mask_block
    | None => λ s, (Undefined, s)
    end
  else λ s, (Failed ENOMEM, s).

Definition sigutil_unblock (signum : Z) : sig_op H := with_set (sigaddset ∅ signum) mask_unblock.
Definition sigutil_unblock_all : sig_op H := mask_unblock sigfillset.
Definition sigutil_get_blocked_signals (s : sig_state H) : gset Z := sig_mask s.

Definition sigutil_restore_all : sig_op H :=
  sigutil_unblock_all >>> each_signal (λ i, sigaction i None) all_signals.
Definition sigutil_restore (signum : Z) : sig_op H := sigutil_unblock signum >>> sigaction signum None.

Definition has (flag bits : Z) : bool := negb (Z.land flag bits =? 0).
Definition has_all (flag bits : Z) : bool := Z.land flag bits =? bits.

Definition HANDLE_BITS : Z :=
  Z.lor SIGUTIL_HANDLE_ALL_SIGNALS (Z.lor SIGUTIL_HANDLE_TERMINATING_ONLY SIGUTIL_HANDLE_NON_TERMINATING).

Definition setup_handlers (flag : Z) (handler : H) (handler_flags : Z) : sig_op H :=
  if has_all flag SIGUTIL_HANDLE_ALL_SIGNALS then sigutil_handle_all handler handler_flags
  else when (has flag SIGUTIL_HANDLE_TERMINATING_ONLY) (sigutil_handle_terminating handler handler_flags) >>>
       when (has flag SIGUTIL_HANDLE_NON_TERMINATING) (sigutil_handle_non_terminating handler handler_flags).

Definition setup_mask (mem : bool) (flag : Z) : sig_op H :=
  if has_all flag SIGUTIL_BLOCK_ALL_SIGNALS then sigutil_block_all
  else when (has flag SIGUTIL_BLOCK_TERMINATING_ONLY) sigutil_block_terminating >>>
       when (has flag SIGUTIL_BLOCK_NON_TERMINATING) (sigutil_block_non_terminating mem).

(** A null handler passes the check only when no handler bit is set, and none of
    the calls that take it is then made. *)
Definition sigutil_setup (mem : bool) (handler : option H) (flag handler_flags : Z) : sig_op H :=
  sigutil_restore_all >>>
  (match handler with
   | None => if has flag HANDLE_BITS then λ s, (Failed EINVAL, s) else skip_op
   | Some handler => setup_handlers flag handler handler_flags
   end) >>>
  setup_mask mem flag.

(** Waiting for a signal; [ret] is the result of [sigwait], which accepts a pending
    signal of the set. *)
Definition sigutil_wait (signum : Z) (ret : Z) : sig_state H → Z * sig_state H := λ s,
  match sigutil_block signum s with
  | (Done, s) => match sigutil_unblock signum s with (Done, s) => (ret, s) | (_, s) => (-1, s) end
  | (_, s) => (-1, s)
  end.

(** [sigwait] is undefined for signals that are not blocked; the signal [sig] that it
    accepts is returned and raised again, with the mask as it was. *)
Definition sigutil_wait_any (sig : Z) : sig_state H → option (Z * list Z * sig_state H) := λ s,
  let old_sigset := sigutil_get_blocked_signals s in
  if bool_decide (sigfillset ∖ NEVER_BLOCKED ⊆ sig_mask s) then Some (sig, [sig], mk_sig old_sigset (sig_actions s)) else None.

End signals.

(** ** Specification *)

Lemma andthen_done {H} (a b : sig_op H) s s' : a s = (Done, s') → (a >>> b) s = b s'.
Proof. unfold andthen. by intros ->. Qed.

Section spec.
  Context {H : Type} (reserved : gset Z).

Definition changeable (sig : Z) : bool := valid_signal reserved sig && negb (unchangeable sig).

(** Handlers and blocked signals are among those that can be. *)
Definition sig_ok (s : sig_state H) : Prop :=
  (∀ sig, is_Some (sig_actions s !! sig) → changeable sig = true) ∧
  (∀ sig, sig ∈ sig_mask s → changeable sig = true).

(** What the flags of [sigutil_setup] ask for. *)
Definition asks_handler (flag sig : Z) : bool :=
  has_all flag SIGUTIL_HANDLE_ALL_SIGNALS || has flag SIGUTIL_HANDLE_TERMINATING_ONLY && is_terminating sig
  || has flag SIGUTIL_HANDLE_NON_TERMINATING && negb (is_terminating sig).
Definition asks_block (flag sig : Z) : bool :=
  has_all flag SIGUTIL_BLOCK_ALL_SIGNALS || has flag SIGUTIL_BLOCK_TERMINATING_ONLY && is_terminating sig
  || has flag SIGUTIL_BLOCK_NON_TERMINATING && negb (is_terminating sig).

(** The request to block only the signals that do not terminate. *)
Definition asks_rest (flag : Z) : bool :=
  has flag SIGUTIL_BLOCK_NON_TERMINATING && negb (has_all flag SIGUTIL_BLOCK_ALL_SIGNALS).

Implicit Types s : sig_state H.

Lemma valid_signal_range sig : valid_signal reserved sig = true ↔ 1 <= sig < NSIG ∧ sig ∉ reserved.
Proof. unfold valid_signal. rewrite !andb_true_iff, Z.leb_le, Z.ltb_lt, bool_decide_eq_true. tauto. Qed.

Lemma elem_of_all_signals sig : sig ∈ all_signals ↔ 1 <= sig < NSIG.
Proof. unfold all_signals. rewrite elem_of_seqZ. unfold NSIG. lia. Qed.

Lemma elem_of_sigfillset sig : sig ∈ sigfillset reserved ↔ valid_signal reserved sig = true.
Proof.
  unfold sigfillset. rewrite elem_of_list_to_set, list_elem_of_filter, elem_of_all_signals, valid_signal_range. tauto.
Qed.

Lemma elem_of_never_blocked sig : sig ∈ NEVER_BLOCKED ↔ unchangeable sig = true.
Proof. unfold NEVER_BLOCKED, unchangeable. rewrite orb_true_iff, !Z.eqb_eq. set_solver. Qed.

Lemma is_terminating_elem sig : is_terminating sig = true ↔ sig ∈ TERMINATING_SIGNALS.
Proof.
  unfold is_terminating. rewrite existsb_exists, list_elem_of_In. split.
  - intros (x & Hx & ->%Z.eqb_eq). done.
  - intros Hx. exists sig. by rewrite Z.eqb_refl.
Qed.

(** A loop that gives every signal of a list the same action, except for those
    that are left out. *)
Lemma each_signal_action (act : option (H * Z)) (c : Z → bool) l s :
  ∃ s', each_signal (λ i, when (c i) (sigaction reserved i act)) l s = (Done, s') ∧ sig_mask s' = sig_mask s ∧
    ∀ sig, sig_actions s' !! sig = if bool_decide (sig ∈ l) && c sig && changeable sig then act else sig_actions s !! sig.
Proof.
  revert s. induction l as [|i l IH]; intros s; cbn [each_signal].
  { exists s. split_and!; [done|done|]. intros sig. by rewrite bool_decide_eq_false_2 by apply not_elem_of_nil. }
  assert (∃ r s1, when (c i) (sigaction reserved i act) s = (r, s1) ∧ (r = Done ∨ r = Failed EINVAL) ∧ sig_mask s1 = sig_mask s ∧
    ∀ sig, sig_actions s1 !! sig = if bool_decide (sig = i) && c i && changeable i then act else sig_actions s !! sig)
    as (r & s1 & -> & Hr & Hm & Ha).
  { unfold when, skip_op, sigaction. fold (changeable i). destruct (c i) eqn:Ec; cbn.
    - fold (changeable i). destruct (changeable i) eqn:Ei; eexists _, _; (split; [reflexivity|]); cbn; (split; [tauto|]); (split; [reflexivity|]);
        intros sig; rewrite ?andb_true_r, ?andb_false_r; [|done].
      case_bool_decide as E; [subst; by rewrite lookup_partial_alter_eq|by rewrite lookup_partial_alter_ne by done].
    - eexists _, _. split; [reflexivity|]. split; [tauto|]. split; [done|]. intros sig. by rewrite andb_false_r. }
  destruct (IH s1) as (s' & E & Hm' & Ha').
  exists s'. split; [destruct Hr as [-> | ->]; exact E|]. split; [congruence|].
  intros sig. rewrite Ha', Ha.
  destruct (bool_decide_reflect (sig = i)) as [->|Hne].
  - rewrite (bool_decide_eq_true_2 (i ∈ i :: l)) by set_solver. cbn. by destruct (bool_decide (i ∈ l)), (c i), (changeable i).
  - cbn. by rewrite (bool_decide_ext (sig ∈ i :: l) (sig ∈ l)) by set_solver.
Qed.

Lemma each_signal_all (act : option (H * Z)) l s :
  ∃ s', each_signal (λ i, sigaction reserved i act) l s = (Done, s') ∧ sig_mask s' = sig_mask s ∧
    ∀ sig, sig_actions s' !! sig = if bool_decide (sig ∈ l) && changeable sig then act else sig_actions s !! sig.
Proof.
  destruct (each_signal_action act (λ _, true) l s) as (s' & E & Hm & Ha). exists s'. split_and!; [exact E|done|].
  intros sig. by rewrite Ha, andb_true_r.
Qed.

Lemma add_signals_spec (l : list Z) (set : gset Z) :
  add_signals reserved l set = if forallb (valid_signal reserved) l then Some (list_to_set l ∪ set) else None.
Proof.
  revert set. induction l as [|i l IH]; intros set; cbn [add_signals forallb]; [f_equal; set_solver|].
  unfold sigaddset. destruct (valid_signal reserved i); cbn; [|done]. rewrite IH.
  destruct (forallb _ l); [|done]. f_equal. set_solver.
Qed.

(** The array for the other signals is large enough. *)
Lemma non_terminating_signals_eq :
  non_terminating_signals = Some (filter (λ i, is_terminating i = false) all_signals).
Proof. vm_compute. reflexivity. Qed.

Lemma restore_all_spec s : sig_ok s → ∃ s', sigutil_restore_all reserved s = (Done, s') ∧ sig_mask s' = ∅ ∧ sig_actions s' = ∅.
Proof.
  intros [Hact Hmask]. unfold sigutil_restore_all, andthen, sigutil_unblock_all, mask_unblock.
  destruct (each_signal_all None all_signals
    (mk_sig (sig_mask s ∖ sigfillset reserved) (sig_actions s))) as (s' & -> & Hm & Ha).
  exists s'. split; [done|]. split.
  - rewrite Hm. cbn. apply set_eq. intros sig. rewrite elem_of_difference, elem_of_sigfillset.
    split; [|set_solver]. intros [H1 H2]. apply Hmask, andb_true_iff in H1 as [H1 _]. done.
  - apply map_eq. intros sig. rewrite Ha, lookup_empty. cbn [sig_actions].
    destruct (changeable sig) eqn:E.
    + rewrite bool_decide_eq_true_2; [done|].
      apply andb_true_iff in E as [E _]. apply valid_signal_range in E as [E _]. by apply elem_of_all_signals.
    + rewrite andb_false_r. destruct (sig_actions s !! sig) eqn:Es; [|done].
      assert (changeable sig = true) by (apply Hact; eauto). congruence.
Qed.

Lemma changeable_range sig : changeable sig = true → 1 <= sig < NSIG ∧ sig ∉ reserved ∧ unchangeable sig = false.
Proof.
  unfold changeable. rewrite andb_true_iff, valid_signal_range, negb_true_iff. tauto.
Qed.

(** Handlers as the flags ask. *)
Lemma setup_handlers_spec (flag hflags : Z) (h : H) s :
  sig_actions s = ∅ →
  ∃ s', setup_handlers reserved flag h hflags s = (Done, s') ∧ sig_mask s' = sig_mask s ∧
    ∀ sig, sig_actions s' !! sig =
      if asks_handler flag sig && changeable sig then Some (h, Z.lor SA_SIGINFO hflags) else None.
Proof.
  intros Hs. set (act := Some (h, Z.lor SA_SIGINFO hflags)).
  assert (∀ sig, changeable sig = true → bool_decide (sig ∈ all_signals) = true) as Hall.
  { intros sig [Hr _]%changeable_range. apply bool_decide_eq_true_2. by apply elem_of_all_signals. }
  unfold setup_handlers, asks_handler. destruct (has_all flag SIGUTIL_HANDLE_ALL_SIGNALS); cbn [orb].
  - unfold sigutil_handle_all, sigutil_handle. fold act.
    destruct (each_signal_all act all_signals s) as (s' & -> & Hm & Ha).
    exists s'. split; [done|]. split; [done|]. intros sig. rewrite Ha, Hs, lookup_empty.
    destruct (changeable sig) eqn:E; [by rewrite Hall|by rewrite andb_false_r].
  - unfold andthen.
    assert (∃ s1, when (has flag SIGUTIL_HANDLE_TERMINATING_ONLY) (sigutil_handle_terminating reserved h hflags) s = (Done, s1) ∧
      sig_mask s1 = sig_mask s ∧ ∀ sig, sig_actions s1 !! sig =
        if has flag SIGUTIL_HANDLE_TERMINATING_ONLY && is_terminating sig && changeable sig then act else None)
      as (s1 & -> & Hm1 & Ha1).
    { destruct (has flag SIGUTIL_HANDLE_TERMINATING_ONLY); cbn [when andb].
      - unfold sigutil_handle_terminating, sigutil_handle. fold act.
        destruct (each_signal_all act TERMINATING_SIGNALS s) as (s' & -> & Hm & Ha).
        exists s'. split; [done|]. split; [done|]. intros sig. rewrite Ha, Hs, lookup_empty.
        rewrite (bool_decide_ext _ (is_terminating sig = true)) by (symmetry; apply is_terminating_elem).
        by destruct (is_terminating sig).
      - exists s. split_and!; [done|done|]. intros sig. by rewrite Hs, lookup_empty. }
    destruct (has flag SIGUTIL_HANDLE_NON_TERMINATING); cbn [when andb].
    + unfold sigutil_handle_non_terminating, sigutil_handle. fold act.
      destruct (each_signal_action act (λ i, negb (is_terminating i)) all_signals s1) as (s' & -> & Hm & Ha).
      exists s'. split; [done|]. split; [congruence|]. intros sig. rewrite Ha, Ha1.
      destruct (changeable sig) eqn:E; [|by rewrite !andb_false_r]. rewrite Hall, !andb_true_r by done. rewrite andb_true_l.
      by destruct (is_terminating sig), (has flag SIGUTIL_HANDLE_TERMINATING_ONLY).
    + exists s1. split_and!; [done|done|]. intros sig. rewrite Ha1, orb_false_r. done.
Qed.

Context (Hreserved : reserved ⊆ {[32; 33]}).

Lemma terminating_changeable sig : is_terminating sig = true → changeable sig = true.
Proof.
  intros Ht%is_terminating_elem. unfold changeable. rewrite andb_true_iff, valid_signal_range.
  unfold TERMINATING_SIGNALS in Ht. rewrite !elem_of_cons in Ht.
  repeat destruct Ht as [-> |Ht]; try (by apply not_elem_of_nil in Ht);
    (split; [split; [by vm_compute|intros Hin%Hreserved%elem_of_union; rewrite !elem_of_singleton in Hin; by destruct Hin]|reflexivity]).
Qed.

Lemma forallb_terminating : forallb (valid_signal reserved) TERMINATING_SIGNALS = true.
Proof.
  apply forallb_forall. intros sig Hs%list_elem_of_In%is_terminating_elem%terminating_changeable.
  by apply andb_true_iff in Hs as [? _].
Qed.

(** Among the other signals are the reserved ones. *)
Lemma forallb_rest :
  forallb (valid_signal reserved) (filter (λ i, is_terminating i = false) all_signals) = bool_decide (reserved = ∅).
Proof.
  apply eq_true_iff_eq. rewrite forallb_forall, bool_decide_eq_true. split.
  - intros Hf. apply set_eq. intros sig. split; [|set_solver]. intros Hin.
    assert (sig = 32 ∨ sig = 33) as Hsig by (apply Hreserved in Hin; set_solver).
    assert (valid_signal reserved sig = true) as Hv%valid_signal_range; [|tauto].
    apply Hf, list_elem_of_In, list_elem_of_filter. rewrite elem_of_all_signals. unfold NSIG.
    destruct Hsig as [-> | ->]; (split; [reflexivity|lia]).
  - intros Hr sig [_ Hs%elem_of_all_signals]%list_elem_of_In%list_elem_of_filter. apply valid_signal_range.
    split; [done|]. rewrite Hr. apply not_elem_of_empty.
Qed.

Lemma elem_of_mask_block (set : gset Z) s sig :
  sig ∈ sig_mask (mask_block set s).2 ↔ sig ∈ sig_mask s ∨ sig ∈ set ∧ unchangeable sig = false.
Proof. cbn. rewrite elem_of_union, elem_of_difference, elem_of_never_blocked, not_true_iff_false. tauto. Qed.

Lemma block_terminating_spec s :
  ∃ s', sigutil_block_terminating reserved s = (Done, s') ∧ sig_actions s' = sig_actions s ∧
    ∀ sig, sig ∈ sig_mask s' ↔ sig ∈ sig_mask s ∨ is_terminating sig = true.
Proof.
  unfold sigutil_block_terminating, set_signals_to_sigset. rewrite add_signals_spec, forallb_terminating. cbn [with_set].
  eexists. split; [reflexivity|]. split; [done|]. intros sig. etrans; [apply elem_of_mask_block|].
  rewrite elem_of_union, elem_of_list_to_set, <- is_terminating_elem.
  split; [set_solver|]. intros [|Ht]; [tauto|]. right. split; [tauto|].
  apply terminating_changeable, changeable_range in Ht. tauto.
Qed.

(** The signals that do not terminate can be blocked on their own only when the
    library reserves none. *)
Lemma block_rest_spec (mem : bool) s :
  if mem && bool_decide (reserved = ∅) then
    ∃ s', sigutil_block_non_terminating reserved mem s = (Done, s') ∧ sig_actions s' = sig_actions s ∧
      ∀ sig, sig ∈ sig_mask s' ↔ sig ∈ sig_mask s ∨ is_terminating sig = false ∧ changeable sig = true
  else ∃ e, sigutil_block_non_terminating reserved mem s = (Failed e, s).
Proof.
  unfold sigutil_block_non_terminating. destruct mem; cbn [andb]; [|eauto].
  rewrite non_terminating_signals_eq. unfold set_signals_to_sigset. rewrite add_signals_spec, forallb_rest.
  destruct (bool_decide_reflect (reserved = ∅)) as [Hr|_]; cbn [with_set]; [|eauto].
  eexists. split; [reflexivity|]. split; [done|]. intros sig. etrans; [apply elem_of_mask_block|].
  rewrite elem_of_union, elem_of_list_to_set, list_elem_of_filter, elem_of_all_signals.
  unfold changeable. rewrite andb_true_iff, valid_signal_range, negb_true_iff. set_solver.
Qed.

Lemma setup_mask_spec (mem : bool) (flag : Z) s :
  sig_mask s = ∅ →
  if asks_rest flag && negb (mem && bool_decide (reserved = ∅)) then
    ∃ e s', setup_mask reserved mem flag s = (Failed e, s')
  else ∃ s', setup_mask reserved mem flag s = (Done, s') ∧ sig_actions s' = sig_actions s ∧
    ∀ sig, sig ∈ sig_mask s' ↔ asks_block flag sig = true ∧ changeable sig = true.
Proof.
  intros Hs. unfold setup_mask, asks_rest, asks_block. destruct (has_all flag SIGUTIL_BLOCK_ALL_SIGNALS); cbn [negb].
  { rewrite andb_false_r. cbn [andb orb]. eexists. split; [reflexivity|]. split; [done|]. intros sig.
    etrans; [apply elem_of_mask_block|]. rewrite Hs, elem_of_sigfillset. unfold changeable.
    rewrite andb_true_iff, negb_true_iff. set_solver. }
  rewrite andb_true_r. cbn [orb]. unfold andthen.
  assert (∃ s1, when (has flag SIGUTIL_BLOCK_TERMINATING_ONLY) (sigutil_block_terminating reserved) s = (Done, s1) ∧
    sig_actions s1 = sig_actions s ∧
    ∀ sig, sig ∈ sig_mask s1 ↔ has flag SIGUTIL_BLOCK_TERMINATING_ONLY && is_terminating sig = true) as (s1 & -> & Ha1 & Hm1).
  { destruct (has flag SIGUTIL_BLOCK_TERMINATING_ONLY); cbn [when andb].
    - destruct (block_terminating_spec s) as (s1 & -> & Ha & Hm). exists s1. split_and!; [done|done|]. intros sig.
      rewrite Hm, Hs. set_solver.
    - exists s. split_and!; [done|done|]. intros sig. rewrite Hs. set_solver. }
  destruct (has flag SIGUTIL_BLOCK_NON_TERMINATING); cbn [when andb].
  - pose proof (block_rest_spec mem s1) as Hb. destruct (mem && _); cbn [negb].
    + destruct Hb as (s' & -> & Ha & Hm). exists s'. split; [done|]. split; [congruence|]. intros sig.
      rewrite Hm, Hm1, orb_true_iff, negb_true_iff. split; [|tauto].
      intros [Ht|[H1 H2]]; [|tauto]. split; [tauto|]. apply andb_true_iff in Ht as [_ Ht]. by apply terminating_changeable.
    + destruct Hb as (e & ->). eauto.
  - exists s1. split_and!; [done|done|]. intros sig. rewrite Hm1, orb_false_r. split; [|tauto].
    intros Ht. split; [done|]. apply andb_true_iff in Ht as [_ Ht]. by apply terminating_changeable.
Qed.

(** C36. [sigutil_setup] does what its flags say: unless a handler is asked for and
    none is given, or the other signals are to be blocked on their own and the
    library reserves some or has no memory, it succeeds, and afterwards exactly the
    signals asked for have the handler, all others their default action, and exactly
    the signals asked for are blocked, whatever was set before; the signals that
    cannot be caught are left alone.  It never leaves its array. *)
Theorem sigutil_setup_meaning (mem : bool) (handler : option H) (flag hflags : Z) s :
  sig_ok s →
  let refused := has flag HANDLE_BITS && bool_decide (handler = None)
    || asks_rest flag && negb (mem && bool_decide (reserved = ∅)) in
  if refused then ∃ e s', sigutil_setup reserved mem handler flag hflags s = (Failed e, s')
  else ∃ s', sigutil_setup reserved mem handler flag hflags s = (Done, s') ∧ sig_ok s' ∧
    (∀ sig, sig_actions s' !! sig =
       if asks_handler flag sig && changeable sig then (λ h, (h, Z.lor SA_SIGINFO hflags)) <$> handler else None) ∧
    (∀ sig, sig ∈ sig_mask s' ↔ asks_block flag sig = true ∧ changeable sig = true).
Proof.
  intros Hs refused. unfold sigutil_setup. destruct (restore_all_spec s Hs) as (s0 & E0 & Hm0 & Ha0).
  rewrite !(andthen_done _ _ _ _ E0). subst refused.
  assert (∀ (s1 : sig_state H), sig_mask s1 = ∅ →
    (∀ sig, sig_actions s1 !! sig =
       if asks_handler flag sig && changeable sig then (λ h, (h, Z.lor SA_SIGINFO hflags)) <$> handler else None) →
    if asks_rest flag && negb (mem && bool_decide (reserved = ∅)) then
      ∃ e s', setup_mask reserved mem flag s1 = (Failed e, s')
    else ∃ s', setup_mask reserved mem flag s1 = (Done, s') ∧ sig_ok s' ∧
      (∀ sig, sig_actions s' !! sig =
         if asks_handler flag sig && changeable sig then (λ h, (h, Z.lor SA_SIGINFO hflags)) <$> handler else None) ∧
      (∀ sig, sig ∈ sig_mask s' ↔ asks_block flag sig = true ∧ changeable sig = true)) as Hmask.
  { intros s1 Hm1 Ha1. pose proof (setup_mask_spec mem flag s1 Hm1) as Hsp.
    destruct (asks_rest flag && _); [done|]. destruct Hsp as (s' & E & Ha & Hm).
    exists s'. split_and!; [done| | |done].
    - split; [|by intros sig []%Hm]. intros sig. rewrite Ha, Ha1.
      destruct (changeable sig); [done|]. rewrite andb_false_r. by intros [].
    - intros sig. by rewrite Ha. }
  destruct handler as [h|].
  - rewrite bool_decide_eq_false_2, andb_false_r by done. cbn [orb].
    destruct (setup_handlers_spec flag hflags h s0 Ha0) as (s1 & E1 & Hm1 & Ha1).
    rewrite !(andthen_done _ _ _ _ E1). rewrite Hm0 in Hm1. exact (Hmask s1 Hm1 Ha1).
  - rewrite bool_decide_eq_true_2, andb_true_r by done. destruct (has flag HANDLE_BITS); cbn [orb]; [unfold andthen; eauto|].
    refine (Hmask s0 Hm0 _). intros sig. rewrite Ha0, lookup_empty. by destruct (asks_handler flag sig), (changeable sig).
Qed.
End spec.

(** Blocking everything, then taking every signal back. *)
Lemma sigutil_setup_meaning_witness :
  let s := mk_sig {[SIGTERM]} {[SIGINT := (1, 0)]} in
  ∃ s', sigutil_setup {[32; 33]} true (Some 7) SIGUTIL_HANDLE_TERMINATING_ONLY 0 s = (Done, s') ∧ sig_ok {[32; 33]} s' ∧
    (∀ sig, sig_actions s' !! sig =
       if asks_handler SIGUTIL_HANDLE_TERMINATING_ONLY sig && changeable {[32; 33]} sig then Some (7, 4) else None) ∧
    (∀ sig, sig ∈ sig_mask s' ↔ asks_block SIGUTIL_HANDLE_TERMINATING_ONLY sig = true ∧ changeable {[32; 33]} sig = true).
Proof.
  intros s. apply (sigutil_setup_meaning {[32; 33]} (reflexivity _) true (Some 7) SIGUTIL_HANDLE_TERMINATING_ONLY 0 s).
  split.
  - intros sig Hs. apply (lookup_singleton_is_Some SIGINT sig (1, 0)) in Hs as <-. reflexivity.
  - intros sig Hs. apply (elem_of_singleton (C := gset Z) sig SIGTERM) in Hs as ->. reflexivity.
Defined.

(** ** The processes

    The handlers of the main program, the director and the other processes. *)

Inductive handler_name : Type := HCrash | HStop | HChild.

(** [backtrace_init]: errors are ignored. *)
Definition CRASH_SIGNALS : list Z := [SIGSEGV; SIGABRT; SIGBUS; SIGILL; SIGFPE; SIGTRAP; SIGSYS].
Definition backtrace_init (reserved : gset Z) (s : sig_state handler_name) : sig_state handler_name :=
  foldl (λ s sig, (sigutil_handle reserved sig HCrash SA_RESETHAND s).2) s CRASH_SIGNALS.

(** [director_setup_subsystems]: the flag and the child handler. *)
Definition director_signals (reserved : gset Z) : sig_op handler_name :=
  sigutil_setup reserved true (Some HStop) SIGUTIL_HANDLE_TERMINATING_ONLY 0 >>> sigutil_handle reserved SIGCHLD HChild 0.

(** [sim_client_setup_signals]: a failure to block is only logged. *)
Definition sim_client_setup_signals (reserved : gset Z) : sig_op handler_name :=
  sigutil_setup reserved true (Some HStop) SIGUTIL_HANDLE_TERMINATING_ONLY 0 >>>
  (λ s, (Done, (sigutil_block reserved SIGPIPE s).2)).

(** The headless mode of the main program, after its start. *)
Definition headless_signals (reserved : gset Z) (s : sig_state handler_name) : sig_result * sig_state handler_name :=
  sigutil_setup reserved true (Some HStop) SIGUTIL_HANDLE_TERMINATING_ONLY 0 (backtrace_init reserved s).

Definition handler_of (s : sig_state handler_name) (sig : Z) : option handler_name := fst <$> sig_actions s !! sig.
Definition fresh_process : sig_state handler_name := mk_sig ∅ ∅.

(** After its start the main program writes a crash report for every crash signal;
    the headless mode takes all of these handlers away again: a crash only clears
    the flag that keeps the program running, and [SIGTRAP] is not handled. *)
Theorem headless_drops_crash_reports :
  let reserved := {[32; 33]} in
  (∀ sig, sig ∈ CRASH_SIGNALS → handler_of (backtrace_init reserved fresh_process) sig = Some HCrash) ∧
  ∃ s, headless_signals reserved fresh_process = (Done, s) ∧
    (∀ sig, sig ∈ CRASH_SIGNALS → sig ≠ SIGTRAP → handler_of s sig = Some HStop) ∧ handler_of s SIGTRAP = None.
Proof.
  intros reserved. split; [|eexists; split; [vm_compute; reflexivity|split; [|vm_compute; reflexivity]]].
  - apply list.Forall_forall. repeat (apply list.Forall_cons; split; [vm_compute; reflexivity|]). constructor.
  - intros sig Hin Hne. unfold CRASH_SIGNALS in Hin. rewrite !elem_of_cons in Hin.
    repeat destruct Hin as [-> |Hin]; try (by apply not_elem_of_nil in Hin); by vm_compute.
Qed.

(** The other processes handle and block a broken pipe, and a director hears of its
    children. *)
Theorem client_signals_set :
  let reserved := {[32; 33]} in
  (∃ s, sim_client_setup_signals reserved fresh_process = (Done, s) ∧ sig_mask s = {[SIGPIPE]} ∧
    ∀ sig, sig ∈ TERMINATING_SIGNALS → handler_of s sig = Some HStop) ∧
  (∃ s, director_signals reserved fresh_process = (Done, s) ∧ handler_of s SIGCHLD = Some HChild).
Proof.
  intros reserved. split; eexists; (split; [vm_compute; reflexivity|]); [split; [by vm_compute|]|by vm_compute].
  apply list.Forall_forall. repeat (apply list.Forall_cons; split; [vm_compute; reflexivity|]). constructor.
Qed.

(** Waiting for a signal leaves it unblocked, also when it was blocked before;
    waiting for any signal is undefined unless the caller has blocked all of them. *)
Theorem waits_and_masks {H} (reserved : gset Z) (s : sig_state H) (signum ret : Z) :
  valid_signal reserved signum = true →
  sigutil_wait reserved signum ret s = (ret, (sigutil_wait reserved signum ret s).2) ∧
  signum ∉ sig_mask (sigutil_wait reserved signum ret s).2 ∧
  (valid_signal reserved SIGINT = true → SIGINT ∉ sig_mask s → sigutil_wait_any reserved signum s = None).
Proof.
  intros Hv. unfold sigutil_wait, sigutil_block, sigutil_unblock, sigaddset. rewrite Hv.
  cbn [with_set mask_block mask_unblock sig_mask snd]. split_and!; [done|set_solver|].
  intros Hi Hn. unfold sigutil_wait_any. rewrite bool_decide_eq_false_2; [done|]. intros Hsub. apply Hn, Hsub, elem_of_difference.
  split; [by apply elem_of_sigfillset|]. rewrite elem_of_never_blocked. done.
Qed.

(** ** Process groups ([sigutil_signal_children])

    The groups of all processes, and the signals sent to each. *)

Record procs : Type := mk_procs { pr_group : gmap Z Z; pr_sent : list (Z * Z) }.

Definition setpgid (pid g : Z) (p : procs) : procs := mk_procs (<[pid := g]> (pr_group p)) (pr_sent p).
Definition members (p : procs) (g : Z) : list Z := (map_to_list (pr_group p)).*1 ≫= λ pid, if bool_decide (pr_group p !! pid = Some g) then [pid] else [].
Definition killpg (g sig : Z) (p : procs) : Z * procs :=
  match members p g with
  | [] => (-1, p)
  | pids => (0, mk_procs (pr_group p) (pr_sent p ++ ((λ pid, (pid, sig)) <$> pids)))
  end.

(** The process [self] with its parent; [leave_ok] and [back_ok] tell whether the
    kernel allows the changes of group.  Every path sets the old mask again. *)
Definition sigutil_signal_children {H} (reserved : gset Z) (self parent sig : Z) (leave_ok back_ok : bool) (s : sig_state H)
    (p : procs) : Z * sig_state H * procs :=
  let old_mask := sig_mask s in
  let s := (sigutil_block_all reserved s).2 in
  let setmask := mk_sig old_mask (sig_actions s) in
  match pr_group p !! self, pr_group p !! parent with
  | Some old_pgid, Some new_pgid =>
      if leave_ok then
        let '(ret, p) := killpg old_pgid sig (setpgid self new_pgid p) in
        let '(ret, p) := if back_ok then (ret, setpgid self old_pgid p) else (-1, p) in
        (if ret =? 0 then 0 else -1, setmask, p)
      else (-1, setmask, p)
  | _, _ => (-1, setmask, p)
  end.

Lemma elem_of_members p g pid : pid ∈ members p g ↔ pr_group p !! pid = Some g.
Proof.
  unfold members. rewrite list_elem_of_bind. split.
  - intros (x & Hx & _). case_bool_decide; [|by apply not_elem_of_nil in Hx]. by apply list_elem_of_singleton in Hx as ->.
  - intros Hg. exists pid. rewrite bool_decide_eq_true_2 by done. split; [by apply list_elem_of_singleton|].
    apply list_elem_of_fmap. exists (pid, g). split; [done|]. by apply elem_of_map_to_list.
Qed.

(** Signalling the children restores the mask on every path.  When it succeeds the
    caller is back in its group and exactly the members of that group were
    signalled: without the caller if the parent is in another group, with it if
    they share one. *)
Theorem signal_children_group {H} (reserved : gset Z) (self parent sig g gp : Z) (leave_ok back_ok : bool) (s : sig_state H) (p : procs) :
  pr_group p !! self = Some g → pr_group p !! parent = Some gp → pr_sent p = [] →
  let '(r, s', p') := sigutil_signal_children reserved self parent sig leave_ok back_ok s p in
  sig_mask s' = sig_mask s ∧ sig_actions s' = sig_actions s ∧
  (r = 0 → pr_group p' = pr_group p ∧
    ∀ pid, (pid, sig) ∈ pr_sent p' ↔ pr_group p !! pid = Some g ∧ (pid = self → g = gp)).
Proof.
  intros Hs Hp Hsent. unfold sigutil_signal_children, killpg. rewrite Hs, Hp.
  destruct leave_ok; [|by split_and!]. set (p1 := setpgid self gp p).
  pose proof (elem_of_members p1 g) as Hm. destruct (members p1 g) as [|x l] eqn:Em.
  { by destruct back_ok; split_and!. }
  destruct back_ok; split_and!; try done. intros _. split.
  - cbn. rewrite insert_insert_eq. by apply insert_id.
  - intros pid. cbn [pr_sent setpgid p1]. rewrite Hsent. cbn [app]. rewrite list_elem_of_fmap.
    assert ((∃ y, (pid, sig) = (y, sig) ∧ y ∈ x :: l) ↔ pid ∈ x :: l) as -> by naive_solver.
    rewrite Hm. cbn. destruct (decide (pid = self)) as [->|Hne].
    + rewrite lookup_insert_eq, Hs. naive_solver.
    + rewrite lookup_insert_ne by done. naive_solver.
Qed.

Lemma signal_children_group_witness :
  let p := mk_procs (<[10 := 10]> (<[11 := 10]> {[1 := 1]})) [] in
  let '(r, s', p') := sigutil_signal_children ∅ 10 1 SIGTERM true true fresh_process p in
  sig_mask s' = ∅ ∧ sig_actions s' = ∅ ∧
  (r = 0 → pr_group p' = pr_group p ∧ ∀ pid, (pid, SIGTERM) ∈ pr_sent p' ↔ pr_group p !! pid = Some 10 ∧ (pid = 10 → 10 = 1)).
Proof.
  intros p. exact (signal_children_group ∅ 10 1 SIGTERM 10 1 true true fresh_process p eq_refl eq_refl eq_refl).
Defined.
