(* ===== verification/Sockets.v ===== *)
(** * Sockets and polling ([net/socket.c], [net/poller.c])

    The descriptors of a process, with the kernel's answers as a schedule: every
    call that can fail takes the next answer, and an exhausted schedule means
    success.  [None] is a [close] of a number that is not an open descriptor, or a
    wait that never ends. *)

From Stdlib Require Import ZArith Lia.
From stdpp Require Import base gmap list numbers.
From S2P Require Import Prelude Cstring.

Local Open Scope Z_scope.

Inductive sys_errno : Type := Sys (e : errno) | EINPROGRESS | ENAMETOOLONG | EBADF | ENOENT.
Inductive answer : Type := AOk | AErr (e : sys_errno).

(** Open descriptors, those in non-blocking mode, the events registered with a
    polling descriptor, the counters of event descriptors, and the names of sockets
    in the file system. *)
Record kernel : Type := mk_kernel {
  k_open : gset Z;
  k_nonblock : gset Z;
  k_interest : gmap (Z * Z) Z;
  k_counter : gmap Z Z;
  k_paths : gset (list Z)
}.

Definition syscalls (A : Type) : Type := kernel → list answer → option (A * kernel * list answer).
Global Instance sys_ret : MRet syscalls := λ A a k m, Some (a, k, m).
Global Instance sys_bind : MBind syscalls := λ A B f c k m, '(a, k', m') ← c k m; f a k' m'.

Definition ask : syscalls answer := λ k m, match m with [] => Some (AOk, k, []) | a :: m => Some (a, k, m) end.
Definition modify (f : kernel → kernel) : syscalls () := λ k m, Some ((), f k, m).
Definition look {A} (f : kernel → A) : syscalls A := λ k m, Some (f k, k, m).

Definition stuck {A} : syscalls A := λ _ _, None.

(** ** Descriptors *)

(** A new descriptor is the lowest number that is not open. *)
Definition lowest (X : gset Z) : Z := default 0 (head (filter (λ i, i ∉ X) (seqZ 0 (Z.of_nat (size X) + 1)))).

Definition add_fd (fd : Z) (nonblock : bool) (k : kernel) : kernel :=
  mk_kernel ({[fd]} ∪ k_open k) (if nonblock then {[fd]} ∪ k_nonblock k else k_nonblock k) (k_interest k) (k_counter k) (k_paths k).
Definition new_fd (nonblock : bool) : syscalls Z := fd ← look (λ k, lowest (k_open k)); modify (add_fd fd nonblock);; mret fd.

(** Closing takes a descriptor out of every interest set as well. *)
Definition release (fd : Z) (k : kernel) : kernel :=
  mk_kernel (k_open k ∖ {[fd]}) (k_nonblock k ∖ {[fd]})
    (filter (λ e, e.1.1 ≠ fd ∧ e.1.2 ≠ fd) (k_interest k)) (delete fd (k_counter k)) (k_paths k).
Definition close (fd : Z) : syscalls () := λ k m, if bool_decide (fd ∈ k_open k) then Some ((), release fd k, m) else None.

(** A call that opens a descriptor, or -1. *)
Definition open_call (nonblock : bool) : syscalls Z :=
  a ← ask; match a with AOk => new_fd nonblock | AErr _ => mret (-1) end.

Definition failed (a : answer) : bool := match a with AOk => false | AErr _ => true end.

(** [close] with its answer: the descriptor is released even when the call is
    interrupted. *)
Definition close_once (fd : Z) : syscalls answer := λ k m,
  if bool_decide (fd ∈ k_open k) then '(a, k, m) ← ask k m; Some (a, release fd k, m)
  else Some (AErr EBADF, k, m).

(** [while (close(fd) == -1 && errno == EINTR);] where other threads do [other]
    between two attempts. *)
Fixpoint close_loop (rounds : nat) (other : kernel → kernel) (fd : Z) : syscalls () :=
  match rounds with
  | O => stuck
  | S rounds =>
      a ← close_once fd;
      match a with AErr (Sys EINTR) => modify other;; close_loop rounds other fd | _ => mret () end
  end.
Definition po_socket_close (fd : Z) : syscalls () := if 0 <=? fd then close_loop 2 id fd else mret ().

(** ** socket.c *)

(** The two [fcntl] calls for a set of flags: the first reads them. *)
Definition fcntl_set (change : kernel → kernel) : syscalls Z :=
  a ← ask; if failed a then mret (-1) else
  a ← ask; if failed a then mret (-1) else modify change;; mret 0.

Definition with_nonblock (X : gset Z) (k : kernel) : kernel :=
  mk_kernel (k_open k) X (k_interest k) (k_counter k) (k_paths k).

Definition set_cloexec_nonblock (fd : Z) : syscalls Z :=
  if fd <? 0 then mret (-1) else
  r ← fcntl_set (λ k, with_nonblock ({[fd]} ∪ k_nonblock k) k);
  if r <? 0 then mret (-1) else fcntl_set id.

Definition po_socket_set_nonblocking (fd : Z) : syscalls Z := if fd <? 0 then mret (-1) else set_cloexec_nonblock fd.
Definition po_socket_set_blocking (fd : Z) : syscalls Z :=
  if fd <? 0 then mret (-1) else fcntl_set (λ k, with_nonblock (k_nonblock k ∖ {[fd]}) k).

(** One [setsockopt] if [on]; the result so far is [rc]. *)
Definition option_call (on : bool) (rc : Z) : syscalls Z :=
  if on then a ← ask; mret (if failed a then -1 else rc) else mret rc.
Definition po_socket_set_common_options (fd : Z) (enable_nodelay reuseaddr keepalive : bool) : syscalls Z :=
  if fd <? 0 then mret (-1) else
  rc ← option_call reuseaddr 0;
  rc ← option_call keepalive rc;
  option_call enable_nodelay rc.

(** The loop over the [n] addresses of [getaddrinfo]. *)
Fixpoint listen_loop (n : nat) : syscalls Z :=
  match n with
  | O => mret (-1)
  | S n =>
      listen_fd ← open_call true;
      if listen_fd <? 0 then listen_loop n else
      a ← ask;
      if failed a then close listen_fd;; listen_loop n else
      b ← ask;
      if failed b then close listen_fd;; listen_loop n else
      l ← ask;
      if failed l then close listen_fd;; listen_loop n else mret listen_fd
  end.
Definition po_socket_listen (n : nat) : syscalls Z :=
  gai ← ask; if failed gai then mret (-1) else listen_loop n.

Fixpoint connect_loop (n : nat) : syscalls Z :=
  match n with
  | O => mret (-1)
  | S n =>
      fd ← open_call true;
      if fd <? 0 then connect_loop n else
      a ← ask;
      match a with
      | AOk | AErr EINPROGRESS => mret fd
      | _ => close fd;; connect_loop n
      end
  end.
Definition po_socket_connect (n : nat) : syscalls Z :=
  gai ← ask; if failed gai then mret (-1) else connect_loop n.

(** The address as text, if a buffer of [addr_buf_len] bytes is given; [name] is the
    host and port of [getnameinfo], if it finds them. *)
Definition address_text (addr_buf_len : Z) (name : option (list Z * list Z)) : option (list Z) :=
  if addr_buf_len =? 0 then None
  else Some (match name with
             | Some (host, serv) => take (Z.to_nat (addr_buf_len - 1)) (host ++ [58] ++ serv)
             | None => []
             end).
Definition po_socket_accept (listen_fd addr_buf_len : Z) (name : option (list Z * list Z)) : syscalls (Z * option (list Z)) :=
  if listen_fd <? 0 then mret (-1, None) else
  a ← ask;
  match a with
  | AErr (Sys EAGAIN) => mret (-2, None)
  | AErr _ => mret (-1, None)
  | AOk => fd ← new_fd true; mret (fd, address_text addr_buf_len name)
  end.

(** [sizeof(sun_path)]; a path is a C string. *)
Definition SUN_PATH_SIZE : Z := 108.
Definition strnlen (path : list Z) (n : Z) : Z := Z.min (Z.of_nat (length path)) n.

Definition with_paths (X : gset (list Z)) (k : kernel) : kernel :=
  mk_kernel (k_open k) (k_nonblock k) (k_interest k) (k_counter k) X.

(** The name in the address: all of a file name; of a name that starts with a null
    byte the C string is empty, and nothing is copied. *)
Definition sun_path (path : list Z) : option (list Z) :=
  let len := strnlen path SUN_PATH_SIZE in
  match path with
  | [] => Some []
  | _ => if SUN_PATH_SIZE <=? len then None else Some path
  end.

Definition po_socket_listen_unix (path : list Z) : syscalls Z :=
  fd ← open_call true;
  if fd <? 0 then mret (-1) else
  match sun_path path with
  | None => close fd;; mret (-1)
  | Some sun =>
      (match sun with [] => mret () | _ => modify (λ k, with_paths (k_paths k ∖ {[sun]}) k) end);;
      b ← ask;
      if failed b then close fd;; mret (-1) else
      (match sun with [] => mret () | _ => modify (λ k, with_paths ({[sun]} ∪ k_paths k) k) end);;
      l ← ask;
      if failed l then close fd;; mret (-1) else mret fd
  end.

Definition po_socket_connect_unix (path : list Z) : syscalls Z :=
  fd ← open_call true;
  if fd <? 0 then mret (-1) else
  match sun_path path with
  | None => close fd;; mret (-1)
  | Some _ =>
      a ← ask;
      match a with
      | AOk | AErr EINPROGRESS => mret fd
      | _ => close fd;; mret (-1)
      end
  end.

(** A transfer of [n] bytes or an error; [PO_SOCKET_WOULDBLOCK] is -2. *)
Definition PO_SOCKET_WOULDBLOCK : Z := -2.
Definition po_socket_send (n : Z) : syscalls Z :=
  a ← ask; mret (match a with AOk => n | AErr (Sys EAGAIN) => PO_SOCKET_WOULDBLOCK | AErr _ => -1 end).
Definition po_socket_recv := po_socket_send.

(** ** poller.c *)

Record poller : Type := mk_poller { epfd : Z; efd : Z }.
Definition EPOLLIN : Z := 1.

Definition set_interest (e : Z * Z) (ev : option Z) (k : kernel) : kernel :=
  mk_kernel (k_open k) (k_nonblock k) (partial_alter (λ _, ev) e (k_interest k)) (k_counter k) (k_paths k).
Definition set_counter (fd n : Z) (k : kernel) : kernel :=
  mk_kernel (k_open k) (k_nonblock k) (k_interest k) (<[fd := n]> (k_counter k)) (k_paths k).

(** [epoll_ctl]: adding needs an entry that is not there, changing and removing one
    that is. *)
Definition epoll_ctl (add : bool) (e : Z * Z) (ev : option Z) : syscalls answer :=
  a ← ask;
  cur ← look (λ k, k_interest k !! e);
  match a, cur, add with
  | AOk, None, true | AOk, Some _, false => modify (set_interest e ev);; mret AOk
  | AOk, Some _, true => mret (AErr (Sys EEXIST))
  | AOk, None, false => mret (AErr ENOENT)
  | AErr _, _, _ => mret a
  end.

Definition poller_create : syscalls (option poller) :=
  mem ← ask;
  if failed mem then mret None else
  ep ← open_call false;
  if ep <? 0 then mret None else
  ev ← open_call true;
  if ev <? 0 then close ep;; mret None else
  modify (set_counter ev 0);;
  a ← epoll_ctl true (ep, ev) (Some EPOLLIN);
  if failed a then close ev;; close ep;; mret None else
  mret (Some (mk_poller ep ev)).

Definition poller_destroy (p : poller) : syscalls () :=
  (if 0 <=? efd p then close (efd p) else mret ());;
  (if 0 <=? epfd p then close (epfd p) else mret ()).

Definition poller_add (p : poller) (fd events : Z) : syscalls Z :=
  a ← epoll_ctl true (epfd p, fd) (Some events); mret (if failed a then -1 else 0).
Definition poller_mod (p : poller) (fd events : Z) : syscalls Z :=
  a ← epoll_ctl false (epfd p, fd) (Some events); mret (if failed a then -1 else 0).
Definition poller_remove (p : poller) (fd : Z) : syscalls Z :=
  a ← epoll_ctl false (epfd p, fd) None; mret (if failed a then -1 else 0).

(** [epoll_wait]: the events of [ready] that are registered, an event descriptor
    only with a positive counter, as many as fit; when none of them is there but the
    wake descriptor is, that one.  A wait without a limit ends only with an event. *)
Definition reportable (ep : Z) (k : kernel) (ev : Z * Z) : bool :=
  match k_interest k !! (ep, ev.1) with
  | None => false
  | Some _ => match k_counter k !! ev.1 with Some n => 0 <? n | None => true end
  end.
Definition pending (ep : Z) (k : kernel) (max_events : Z) (wake : Z) (ready : list (Z * Z)) : list (Z * Z) :=
  match take (Z.to_nat max_events) (filter (λ ev, reportable ep k ev = true) ready) with
  | [] => if reportable ep k (wake, EPOLLIN) then [(wake, EPOLLIN)] else []
  | l => l
  end.
Definition epoll_wait (ep max_events timeout wake : Z) (ready : list (Z * Z)) : syscalls (sys_errno + list (Z * Z)) :=
  a ← ask;
  match a with
  | AErr e => mret (inl e)
  | AOk => l ← look (λ k, pending ep k max_events wake ready);
           if bool_decide (l = []) && (timeout <? 0) then stuck else mret (inr l)
  end.

(** [events[write_idx] = events[i]] for the events that are not the wake event,
    [n] of them left to look at. *)
Fixpoint drop_wake_loop (wake : Z) (n i write_idx : nat) (events : list (Z * Z)) : syscalls (list (Z * Z) * nat) :=
  match n with
  | O => mret (events, write_idx)
  | S n =>
      match events !! i with
      | None => stuck
      | Some ev =>
          if ev.1 =? wake then modify (set_counter wake 0);; drop_wake_loop wake n (i + 1) write_idx events
          else
            let events := if bool_decide (write_idx = i) then events else <[write_idx := ev]> events in
            drop_wake_loop wake n (i + 1) (write_idx + 1) events
      end
  end.

(** The result and the array of events. *)
Definition poller_wait (p : poller) (max_events timeout : Z) (ready : list (Z * Z)) : syscalls (Z * list (Z * Z)) :=
  if max_events <=? 0 then mret (-1, []) else
  r ← epoll_wait (epfd p) max_events timeout (efd p) ready;
  match r with
  | inl (Sys EINTR) => mret (0, [])
  | inl _ => mret (-1, [])
  | inr [] => mret (0, [])
  | inr events =>
      '(events, n) ← drop_wake_loop (efd p) (length events) 0 0 events;
      mret (Z.of_nat n, events)
  end.

(** An event counter holds at most [2 ^ 64 - 2]; at that value a write gets
    [EAGAIN], which counts as a wake-up. *)
Definition COUNTER_MAX : Z := 2 ^ 64 - 2.
Definition poller_wake (p : poller) : syscalls Z :=
  a ← ask;
  n ← look (λ k, k_counter k !! efd p);
  match n with
  | None => mret (-1)
  | Some n =>
      if COUNTER_MAX <=? n then mret 0
      else if failed a then mret (-1) else modify (set_counter (efd p) (n + 1));; mret 0
  end.

(** [start] and [now] are the readings of the clock, seconds and nanoseconds; the
    flag is [timed_out]. *)
Definition poller_timed_wait (p : poller) (max_events total_timeout_ms : Z) (start now : Z * Z) (ready : list (Z * Z)) :
    syscalls (Z * list (Z * Z) * bool) :=
  if total_timeout_ms <? 0 then r ← poller_wait p max_events (-1) ready; mret (r, false)
  else if total_timeout_ms =? 0 then r ← poller_wait p max_events 0 ready; mret (r, false)
  else
    a ← ask; if failed a then mret (-1, [], false) else
    r ← poller_wait p max_events total_timeout_ms ready;
    b ← ask; if failed b then mret (-1, [], false) else
    let elapsed_ms := (now.1 - start.1) * 1000 + Z.quot (now.2 - start.2) 1000000 in
    mret (r, (r.1 =? 0) && (total_timeout_ms <=? elapsed_ms)).

(** ** Reasoning about calls

    [post c k Q]: from [k], whatever the answers are, [c] returns and [Q] holds of
    the result and the new state. *)

Definition post {A} (c : syscalls A) (k : kernel) (Q : A → kernel → Prop) : Prop :=
  ∀ m, match c k m with Some (a, k', _) => Q a k' | None => False end.

Lemma post_ret {A} (a : A) k (Q : A → kernel → Prop) : Q a k → post (mret a) k Q.
Proof. intros H m. exact H. Qed.

Lemma post_bind {A B} (c : syscalls A) (f : A → syscalls B) k Q :
  post c k (λ a k', post (f a) k' Q) → post (c ≫= f) k Q.
Proof.
  intros H m. specialize (H m). unfold mbind, sys_bind. cbn [mbind option_bind].
  destruct (c k m) as [[[a k'] m']|]; [|done]. exact (H m').
Qed.

Lemma post_ask k (Q : answer → kernel → Prop) : (∀ a, Q a k) → post ask k Q.
Proof. intros H [|a m]; apply H. Qed.

Lemma post_modify f k (Q : () → kernel → Prop) : Q () (f k) → post (modify f) k Q.
Proof. intros H m. exact H. Qed.

Lemma post_look {A} (f : kernel → A) k (Q : A → kernel → Prop) : Q (f k) k → post (look f) k Q.
Proof. intros H m. exact H. Qed.

Lemma post_mono {A} (c : syscalls A) k (P Q : A → kernel → Prop) :
  post c k P → (∀ a k', P a k' → Q a k') → post c k Q.
Proof. intros H HPQ m. specialize (H m). destruct (c k m) as [[[a k'] m']|]; auto. Qed.

Lemma post_close fd k (Q : () → kernel → Prop) : fd ∈ k_open k → Q () (release fd k) → post (close fd) k Q.
Proof. intros Hin H m. unfold close. by rewrite bool_decide_eq_true_2. Qed.

Lemma post_intro {A} (c : syscalls A) k (Q : A → kernel → Prop) :
  (∀ m, match c k m with Some (a, k', _) => Q a k' | None => False end) → post c k Q.
Proof. done. Qed.

Lemma post_elim {A} (c : syscalls A) k (Q : A → kernel → Prop) m :
  post c k Q → ∃ a k' m', c k m = Some (a, k', m') ∧ Q a k'.
Proof. intros H. specialize (H m). destruct (c k m) as [[[a k'] m']|]; [eauto 6|done]. Qed.

#[global] Opaque post.

Ltac sys_step := first
  [ apply post_ret | apply post_bind | apply post_ask; intros [|] | apply post_modify | apply post_look ]; cbn [failed].

(** ** Descriptors are accounted for *)

Lemma lowest_fresh (X : gset Z) : 0 <= lowest X ∧ lowest X ∉ X.
Proof.
  unfold lowest. set (l := seqZ 0 (Z.of_nat (size X) + 1)).
  destruct (filter (λ i, i ∉ X) l) as [|i l'] eqn:E; cbn.
  - exfalso. assert (size (list_to_set l : gset Z) ≤ size X)%nat as Hle.
    { apply subseteq_size. intros i Hi%elem_of_list_to_set. destruct (decide (i ∈ X)) as [|Hn]; [done|].
      assert (i ∈ filter (λ i, i ∉ X) l) as Hf by by apply list_elem_of_filter.
      rewrite E in Hf. by apply not_elem_of_nil in Hf. }
    rewrite size_list_to_set in Hle by apply NoDup_seqZ. unfold l in Hle. rewrite length_seqZ in Hle. lia.
  - assert (i ∈ filter (λ i, i ∉ X) l) as Hf by (rewrite E; set_solver).
    apply list_elem_of_filter in Hf as [? Hi%elem_of_seqZ]. split; [lia|done].
Qed.

(** [fd] is a new descriptor, the only one; or an error and none. *)
Definition opens (k : kernel) (fd : Z) (k' : kernel) : Prop :=
  (fd < 0 ∧ k_open k' = k_open k) ∨ (0 <= fd ∧ fd ∉ k_open k ∧ k_open k' = {[fd]} ∪ k_open k).

Lemma opens_error k fd k' : fd < 0 → k_open k' = k_open k → opens k fd k'.
Proof. by left. Qed.

Lemma release_new fd k k' : fd ∉ k_open k → k_open k' = {[fd]} ∪ k_open k → k_open (release fd k') = k_open k.
Proof. intros Hn E. cbn. rewrite E. set_solver. Qed.

Lemma new_fd_spec b k Q :
  (∀ fd, 0 <= fd → fd ∉ k_open k → Q fd (add_fd fd b k)) → post (new_fd b) k Q.
Proof.
  intros H. unfold new_fd. sys_step. sys_step. sys_step. sys_step. sys_step. apply H; apply lowest_fresh.
Qed.

Lemma open_call_spec b k Q :
  (∀ fd, fd < 0 → Q fd k) → (∀ fd, 0 <= fd → fd ∉ k_open k → Q fd (add_fd fd b k)) → post (open_call b) k Q.
Proof.
  intros H1 H2. unfold open_call. sys_step. sys_step; [by apply new_fd_spec|]. sys_step. by apply H1.
Qed.

(** Opening, then giving the new descriptor back or keeping it. *)
Ltac sys_open fd Hfd Hn :=
  apply post_bind, open_call_spec; intros fd Hfd;
  [rewrite (proj2 (Z.ltb_lt fd 0)) by lia | intros Hn; rewrite (proj2 (Z.ltb_ge fd 0)) by lia].
Ltac sys_close_new Hn :=
  apply post_bind, post_close; [cbn; set_solver|].

Lemma listen_loop_spec n k : post (listen_loop n) k (opens k).
Proof.
  revert k. induction n as [|n IH]; intros k; cbn [listen_loop]; [sys_step; by left|].
  sys_open fd Hfd Hn; [apply IH|].
  assert (post (close fd;; listen_loop n) (add_fd fd true k) (opens k)) as Hagain.
  { sys_close_new Hn. eapply post_mono; [apply IH|]. intros fd' k' Ho. unfold opens in *.
    rewrite (release_new fd k) in Ho by done. exact Ho. }
  sys_step. sys_step; [|exact Hagain]. sys_step. sys_step; [|exact Hagain]. sys_step. sys_step; [|exact Hagain].
  sys_step. by right.
Qed.

Lemma connect_loop_spec n k : post (connect_loop n) k (opens k).
Proof.
  revert k. induction n as [|n IH]; intros k; cbn [connect_loop]; [sys_step; by left|].
  sys_open fd Hfd Hn; [apply IH|].
  assert (post (close fd;; connect_loop n) (add_fd fd true k) (opens k)) as Hagain.
  { sys_close_new Hn. eapply post_mono; [apply IH|]. intros fd' k' Ho. unfold opens in *.
    rewrite (release_new fd k) in Ho by done. exact Ho. }
  sys_step. sys_step; [sys_step; by right|]. destruct e; try exact Hagain. sys_step. by right.
Qed.

Lemma accept_spec listen_fd len name k :
  post (po_socket_accept listen_fd len name) k (λ r, opens k r.1).
Proof.
  unfold po_socket_accept. destruct (listen_fd <? 0); [sys_step; by left|]. sys_step. sys_step.
  - sys_step. apply new_fd_spec. intros fd Hfd Hn. sys_step. by right.
  - destruct e as [[] | | | |]; sys_step; by left.
Qed.

Lemma listen_unix_spec path k : post (po_socket_listen_unix path) k (opens k).
Proof.
  unfold po_socket_listen_unix. sys_open fd Hfd Hn; [sys_step; by left|].
  destruct (sun_path path) as [sun|].
  2: { sys_close_new Hn. sys_step. left. split; [lia|]. by apply release_new. }
  sys_step. destruct sun as [|c sun]; [sys_step|sys_step]; sys_step; sys_step;
    try (sys_close_new Hn; sys_step; left; split; [lia|]; by apply release_new);
    sys_step; sys_step; sys_step; sys_step;
    try (sys_close_new Hn; sys_step; left; split; [lia|]; by apply release_new); sys_step; by right.
Qed.

Lemma connect_unix_spec path k : post (po_socket_connect_unix path) k (opens k).
Proof.
  unfold po_socket_connect_unix. sys_open fd Hfd Hn; [sys_step; by left|].
  assert (post (close fd;; mret (-1)) (add_fd fd true k) (opens k)) as Hgive.
  { sys_close_new Hn. sys_step. left. split; [lia|]. by apply release_new. }
  destruct (sun_path path) as [sun|]; [|exact Hgive].
  sys_step. sys_step; [sys_step; by right|]. destruct e; try exact Hgive. sys_step. by right.
Qed.

(** Closing releases the descriptor, and a second attempt after an interrupted one
    finds it closed. *)
Lemma socket_close_spec fd k : fd ∈ k_open k → 0 <= fd → post (po_socket_close fd) k (λ _ k', k' = release fd k).
Proof.
  intros Hin Hfd. apply post_intro. intros m. unfold po_socket_close, close_loop. rewrite (proj2 (Z.leb_le 0 fd)) by lia.
  unfold mbind, sys_bind, close_once. cbn [mbind option_bind]. rewrite bool_decide_eq_true_2 by done.
  destruct m as [|[|[[]| | | |]] m]; cbn; try done.
  rewrite bool_decide_eq_false_2 by set_solver. done.
Qed.

Lemma poller_create_spec k :
  post poller_create k (λ r k', match r with
    | None => k_open k' = k_open k
    | Some p => efd p ≠ epfd p ∧ 0 <= efd p ∧ 0 <= epfd p ∧ efd p ∉ k_open k ∧ epfd p ∉ k_open k ∧
        k_open k' = {[efd p; epfd p]} ∪ k_open k
    end).
Proof.
  unfold poller_create. sys_step. sys_step; [|sys_step; done].
  sys_open ep Hep Hne; [by sys_step|].
  sys_open ev Hev Hnv; [sys_close_new Hne; sys_step; by apply release_new|].
  sys_step. sys_step.
  assert (∀ k1, k_open k1 = {[ev]} ∪ ({[ep]} ∪ k_open k) → post (close ev;; close ep;; mret None) k1
    (λ (r : option poller) k', match r with None => k_open k' = k_open k | Some p => efd p ≠ epfd p ∧ 0 <= efd p ∧ 0 <= epfd p ∧ efd p ∉ k_open k ∧ epfd p ∉ k_open k ∧
        k_open k' = {[efd p; epfd p]} ∪ k_open k end)) as Hgive.
  { intros k1 E. apply post_bind, post_close; [rewrite E; set_solver|].
    apply post_bind, post_close; [cbn in *; rewrite E; set_solver|]. sys_step. cbn in *. rewrite E. set_solver. }
  unfold epoll_ctl. sys_step. sys_step. sys_step; [|by sys_step; apply Hgive].
  sys_step. sys_step. destruct (_ !! (ep, ev)); [by sys_step; apply Hgive|].
  sys_step. sys_step. sys_step. sys_step. cbn in *. split_and!; [set_solver|lia|lia|set_solver|done|set_solver].
Qed.

(** C28. No descriptor is lost: whatever the system answers, each call that opens a
    socket returns it as the only new descriptor, or an error and none, on every
    path; a poller owns exactly its two; closing gives back exactly the one. *)
Theorem descriptors_accounted (k : kernel) :
  (∀ n, post (po_socket_listen n) k (opens k)) ∧
  (∀ n, post (po_socket_connect n) k (opens k)) ∧
  (∀ listen_fd len name, post (po_socket_accept listen_fd len name) k (λ r, opens k r.1)) ∧
  (∀ path, post (po_socket_listen_unix path) k (opens k)) ∧
  (∀ path, post (po_socket_connect_unix path) k (opens k)) ∧
  (∀ fd, fd ∈ k_open k → 0 <= fd → post (po_socket_close fd) k (λ _ k', k_open k' = k_open k ∖ {[fd]})) ∧
  post (r ← poller_create; match r with None => mret () | Some p => poller_destroy p end) k (λ _ k', k_open k' = k_open k).
Proof.
  split_and!; intros.
  - unfold po_socket_listen. sys_step. sys_step; [apply listen_loop_spec|sys_step; by left].
  - unfold po_socket_connect. sys_step. sys_step; [apply connect_loop_spec|sys_step; by left].
  - apply accept_spec.
  - apply listen_unix_spec.
  - apply connect_unix_spec.
  - eapply post_mono; [by apply socket_close_spec|]. by intros ? ? ->.
  - sys_step. eapply post_mono; [apply poller_create_spec|]. intros [p|] k1; [|intros E; by sys_step].
    intros (Hne & H1 & H2 & H3 & H4 & E). unfold poller_destroy.
    rewrite (proj2 (Z.leb_le 0 (efd p))), (proj2 (Z.leb_le 0 (epfd p))) by lia.
    apply post_bind, post_close; [rewrite E; set_solver|]. apply post_close; [cbn; rewrite E; set_solver|].
    cbn. rewrite E. set_solver.
Qed.

(** An interrupted [close] has released the number; when another thread opens a
    descriptor before the second attempt, that one is closed. *)
Theorem close_retry_hits_other :
  let k := mk_kernel {[0; 1; 2; 3]} ∅ ∅ ∅ ∅ in
  let other k := add_fd (lowest (k_open k)) true k in
  lowest (k_open (release 3 k)) = 3 ∧
  ∃ k', close_loop 2 other 3 k [AErr (Sys EINTR)] = Some ((), k', []) ∧ 3 ∉ k_open k'.
Proof. split; [by vm_compute|]. eexists. split; [vm_compute; reflexivity|]. vm_compute. set_solver. Qed.

(** ** Polling *)

Lemma set_counter_twice fd n k : set_counter fd n (set_counter fd n k) = set_counter fd n k.
Proof. unfold set_counter. cbn. by rewrite insert_insert_eq. Qed.

(** The loop keeps the other events in order at the front of the array. *)
Lemma drop_wake_loop_spec wake n i w (arr : list (Z * Z)) k Q :
  (w ≤ i)%nat → length arr = (i + n)%nat →
  let l := filter (λ ev, ev.1 ≠ wake) (drop i arr) in
  (∀ arr' k', take (w + length l) arr' = take w arr ++ l →
     k' = (if bool_decide (wake ∈ (drop i arr).*1) then set_counter wake 0 k else k) → Q (arr', (w + length l)%nat) k') →
  post (drop_wake_loop wake n i w arr) k Q.
Proof.
  revert i w arr k. induction n as [|n IH]; intros i w arr k Hw Hlen l HQ; cbn [drop_wake_loop]; subst l.
  { sys_step. assert (drop i arr = []) as E by (apply drop_ge; lia). rewrite E in HQ. cbn in HQ.
    rewrite Nat.add_0_r in HQ. apply HQ; [by rewrite app_nil_r|done]. }
  destruct (lookup_lt_is_Some_2 arr i) as [ev Hev]; [lia|]. rewrite Hev.
  assert (drop i arr = ev :: drop (i + 1) arr) as Ed by (rewrite Nat.add_1_r; by apply drop_S).
  rewrite Ed in HQ. destruct (ev.1 =? wake) eqn:Ew.
  - apply Z.eqb_eq in Ew. rewrite filter_cons_False in HQ by tauto.
    sys_step. sys_step. apply IH; [lia|lia|]. intros arr' k' Ht ->. apply HQ; [done|].
    rewrite fmap_cons, (bool_decide_eq_true_2 (wake ∈ ev.1 :: _)) by set_solver.
    destruct (bool_decide (wake ∈ (drop (i + 1) arr).*1)); [apply set_counter_twice|done].
  - apply Z.eqb_neq in Ew. rewrite filter_cons_True in HQ by done.
    set (arr1 := if bool_decide (w = i) then arr else <[w := ev]> arr).
    assert (drop (i + 1) arr1 = drop (i + 1) arr) as Ed1.
    { unfold arr1. destruct (bool_decide (w = i)); [done|]. apply drop_insert_lt. lia. }
    assert (take (w + 1) arr1 = take w arr ++ [ev]) as Et1.
    { rewrite Nat.add_1_r. unfold arr1. destruct (bool_decide_reflect (w = i)) as [E|E]; [subst; by apply take_S_r|].
      rewrite (take_S_r _ _ ev); [|apply list_lookup_insert_eq; lia]. f_equal. apply take_insert_ge. lia. }
    apply IH; [lia|unfold arr1; destruct (bool_decide (w = i)); rewrite ?length_insert; lia|]. rewrite Ed1. cbn [length] in HQ.
    intros arr' k' Ht Hk. replace (w + 1 + length (filter (λ ev0, ev0.1 ≠ wake) (drop (i + 1) arr)))%nat
      with (w + S (length (filter (λ ev0, ev0.1 ≠ wake) (drop (i + 1) arr))))%nat in * by lia.
    apply HQ; [rewrite Ht, Et1, <- app_assoc; done|]. rewrite Hk, fmap_cons.
    by rewrite (bool_decide_ext (wake ∈ ev.1 :: (drop (i + 1) arr).*1) (wake ∈ (drop (i + 1) arr).*1)) by set_solver.
Qed.

(** What a wait reports: an error or an interruption changes nothing; otherwise
    the array holds, in the order of the system, exactly the registered events that
    are pending without the poller's own wake event, their number is the result,
    and a wake event that was seen is consumed. *)
Theorem poller_wait_reports (p : poller) (max_events timeout : Z) (ready : list (Z * Z)) (k : kernel) :
  0 < max_events →
  let evs := pending (epfd p) k max_events (efd p) ready in
  0 <= timeout ∨ evs ≠ [] →
  post (poller_wait p max_events timeout ready) k (λ r k',
    (r.1 = -1 ∨ r.1 = 0) ∧ k' = k ∨
    take (Z.to_nat r.1) r.2 = filter (λ ev, ev.1 ≠ efd p) evs ∧ r.1 = Z.of_nat (length (filter (λ ev, ev.1 ≠ efd p) evs)) ∧
    k' = (if bool_decide (efd p ∈ evs.*1) then set_counter (efd p) 0 k else k)).
Proof.
  intros Hmax evs Hto. unfold poller_wait. rewrite (proj2 (Z.leb_gt max_events 0)) by lia.
  sys_step. unfold epoll_wait. sys_step. sys_step.
  2: { sys_step. destruct e as [[] | | | |]; sys_step; tauto. }
  sys_step. sys_step. fold evs.
  assert (bool_decide (evs = []) && (timeout <? 0) = false) as ->.
  { apply andb_false_iff. rewrite bool_decide_eq_false, Z.ltb_ge. tauto. }
  sys_step. destruct evs as [|ev evs'] eqn:E; [sys_step; tauto|]. rewrite <- E. clear E Hto. sys_step.
  apply drop_wake_loop_spec; [lia|done|]. rewrite drop_0. intros arr' k' Ht Hk. sys_step. right. cbn [fst snd].
  rewrite Nat2Z.id, Hk. cbn [Nat.add] in *. by rewrite Ht.
Qed.

Definition poller_ex : poller := mk_poller 4 5.
Definition kernel_ex : kernel :=
  mk_kernel {[3; 4; 5; 6]} ∅ (<[(4, 5) := 1]> (<[(4, 3) := 1]> {[(4, 6) := 1]})) {[5 := 1]} ∅.

Lemma poller_wait_reports_witness :
  let evs := pending 4 kernel_ex 8 5 [(3, 1); (5, 1); (6, 1)] in
  evs = [(3, 1); (5, 1); (6, 1)] ∧
  post (poller_wait poller_ex 8 (-1) [(3, 1); (5, 1); (6, 1)]) kernel_ex (λ r k',
    (r.1 = -1 ∨ r.1 = 0) ∧ k' = kernel_ex ∨
    take (Z.to_nat r.1) r.2 = filter (λ ev, ev.1 ≠ 5) evs ∧ r.1 = Z.of_nat (length (filter (λ ev, ev.1 ≠ 5) evs)) ∧
    k' = (if bool_decide (5 ∈ evs.*1) then set_counter 5 0 kernel_ex else kernel_ex)).
Proof.
  split; [reflexivity|].
  apply (poller_wait_reports poller_ex 8 (-1) [(3, 1); (5, 1); (6, 1)] kernel_ex); [reflexivity|right; discriminate].
Defined.

(** A wake-up is not lost: after a successful [poller_wake] the next wait returns
    even without a time limit, whatever else is ready. *)
Theorem poller_wake_ends_wait (p : poller) (k : kernel) :
  is_Some (k_interest k !! (epfd p, efd p)) → (∀ n, k_counter k !! efd p = Some n → 0 <= n) →
  post (poller_wake p) k (λ r k', r = 0 → ∀ max_events timeout ready, 0 < max_events →
    post (poller_wait p max_events timeout ready) k' (λ _ _, True)).
Proof.
  intros Hint Hcnt. unfold poller_wake.
  assert (∀ (k' : kernel) n, k_interest k' !! (epfd p, efd p) = k_interest k !! (epfd p, efd p) → k_counter k' !! efd p = Some n → 0 < n →
    ∀ max_events timeout ready, 0 < max_events → post (poller_wait p max_events timeout ready) k' (λ _ _, True)) as Hw.
  { intros k' n Ei Ec Hn max_events timeout ready Hmax. eapply post_mono; [apply poller_wait_reports; [done|right]|done].
    unfold pending. destruct (take _ _); [|done]. unfold reportable. cbn [fst]. rewrite Ei, Ec. destruct Hint as [? ->].
    by rewrite (proj2 (Z.ltb_lt 0 n)). }
  sys_step. apply post_ask. intros a. sys_step. sys_step. destruct (k_counter k !! efd p) as [n|] eqn:Ec; [|by sys_step].
  specialize (Hcnt n eq_refl). destruct (COUNTER_MAX <=? n) eqn:Em.
  { sys_step. intros _. apply (Hw k n); [done|done|]. apply Z.leb_le in Em. unfold COUNTER_MAX in Em. lia. }
  destruct (failed a); [by sys_step|]. sys_step. sys_step. sys_step. intros _.
  apply (Hw _ (n + 1)); [done|cbn; apply lookup_insert_eq|lia].
Qed.

(** Calls that leave the descriptors as they are. *)
Definition keeps_open {A} (c : syscalls A) : Prop := ∀ k m a k' m', c k m = Some (a, k', m') → k_open k' = k_open k.

Lemma keeps_open_ret {A} (a : A) : keeps_open (mret a).
Proof. intros k m a' k' m' [= _ <- _]. done. Qed.
Lemma keeps_open_stuck {A} : keeps_open (A := A) stuck.
Proof. by intros k m a' k' m'. Qed.
Lemma keeps_open_ask : keeps_open ask.
Proof. intros k [|? m] a' k' m' [= _ <- _]; done. Qed.
Lemma keeps_open_look {A} (f : kernel → A) : keeps_open (look f).
Proof. intros k m a' k' m' [= _ <- _]. done. Qed.
Lemma keeps_open_counter fd n : keeps_open (modify (set_counter fd n)).
Proof. intros k m a' k' m' [= _ <- _]. done. Qed.
Lemma keeps_open_bind {A B} (c : syscalls A) (f : A → syscalls B) : keeps_open c → (∀ a, keeps_open (f a)) → keeps_open (c ≫= f).
Proof.
  intros Hc Hf k m b k' m'. unfold mbind, sys_bind. cbn [mbind option_bind].
  destruct (c k m) as [[[a k1] m1]|] eqn:E; [|done]. intros E'. by rewrite (Hf _ _ _ _ _ _ E'), (Hc _ _ _ _ _ E).
Qed.

Create HintDb keeps.
#[export] Hint Resolve keeps_open_ret keeps_open_stuck keeps_open_ask keeps_open_look keeps_open_counter : keeps.
Ltac keeps := repeat (apply keeps_open_bind; [eauto with keeps|intros]); eauto with keeps.

Lemma drop_wake_loop_keeps wake n i w arr : keeps_open (drop_wake_loop wake n i w arr).
Proof.
  revert i w arr. induction n as [|n IH]; intros i w arr; cbn [drop_wake_loop]; [keeps|].
  destruct (arr !! i) as [ev|]; [|keeps]. destruct (ev.1 =? wake); [keeps; apply IH|apply IH].
Qed.

Lemma poller_wait_keeps p max_events timeout ready : keeps_open (poller_wait p max_events timeout ready).
Proof.
  unfold poller_wait. destruct (max_events <=? 0); [keeps|]. apply keeps_open_bind.
  - unfold epoll_wait. keeps. destruct a; keeps. by destruct (_ && _); keeps.
  - intros [[[] | | | |]|[|ev evs]]; keeps; [apply drop_wake_loop_keeps|]. destruct a. keeps.
Qed.
