(* ===== verification/Server.v ===== *)
(** * The servers ([work_broker/broker_core.c], [ctrl_bridge/bridge_mainloop.c])

    The main loop of the work broker and of the control bridge of the director:
    a listening socket in a poller, accepted connections handed to a thread pool,
    and tasks that answer one request and close their connection.  For the bridge
    the main thread, [bridge_mainloop_stop] and the tasks run as interleaved steps,
    down to the single attempts of [po_socket_close]; the task of a connection is
    its descriptor.  [close] releases its number also when it is interrupted, so
    that the retry can meet another connection.  What other parts of the process
    have open ([base]) does not change during a run. *)

From Stdlib Require Import ZArith Lia String.
From stdpp Require Import base gmap list numbers.
From S2P Require Import Prelude Cstring Protocol Framing Net Broker Threadpool LoggerFormat Sockets.

Local Open Scope Z_scope.

(** ** Accepting *)

(** [tp_submit]; [mem] tells that its node could be allocated. *)
Definition submit (pool : threadpool_s) (client : Z) : syscalls (Z * threadpool_s) :=
  mem ← ask; mret (tp_submit pool client [negb (failed mem)]).1.

(** [g_bridge_pool]: the pool, a pointer to freed memory, or null. *)
Inductive pool_ref : Type := PoolLive (pool : threadpool_s) | PoolFreed | PoolNull.

Inductive handed : Type := Queued | Refused | UseAfterFree.

(** What the bridge does with a connection it has accepted: the memory for the
    task and [tp_submit]; a refused connection is closed next.  [stale]: the
    pointer was read before [bridge_mainloop_stop] cleared it. *)
Definition bridge_hand_over (client_fd : Z) (pool : pool_ref) (stale : bool) : syscalls (handed * pool_ref) :=
  pfd ← ask;
  if failed pfd then mret (Refused, pool) else
  match pool with
  | PoolLive p => '(r, p) ← submit p client_fd; mret (if r =? 0 then Queued else Refused, PoolLive p)
  | PoolFreed => mret (UseAfterFree, pool)
  | PoolNull => mret (if stale : bool then UseAfterFree else Refused, pool)
  end.

(** The broker takes connections until there is none; the memory for the task is
    used without a check and the result of [tp_submit] is not looked at. *)
Definition broker_accept (socket_fd : Z) (pool : threadpool_s) : syscalls (bool * threadpool_s) :=
  '(client, _) ← po_socket_accept socket_fd 0 None;
  if client <? 0 then mret (false, pool) else
  data ← ask;
  if failed data then stuck else
  '(_, pool) ← submit pool client;
  mret (true, pool).

(** ** The control bridge's requests *)

Definition MSG_TYPE_CTRL_CMD : Z := 0x20.
Definition MSG_TYPE_CTRL_RESP : Z := 0x21.

(** [received]: type, length field and buffer of a message. *)
Definition handle_client_fd (received : option (Z * Z * list Z)) : list event :=
  match received with
  | None => [CloseClient]
  | Some (msg_type, payload_len, payload) =>
      if negb (msg_type =? MSG_TYPE_CTRL_CMD) then [ReleaseRx; CloseClient]
      else
        (if (0 <? payload_len) && (payload_len <? 512) then [Send MSG_TYPE_CTRL_RESP [79; 75]] else [])
          ++ [ReleaseRx; CloseClient]
  end.

(** ** Start and end *)

Record server_fds : Type := mk_fds { sf_listen : Z; sf_poller : poller }.

(** [bridge_mainloop_run] up to its loop. *)
Definition bridge_start (path : list Z) : syscalls (option server_fds) :=
  listen_fd ← po_socket_listen_unix path;
  if listen_fd <? 0 then mret None else
  p ← poller_create;
  match p with
  | None => po_socket_close listen_fd;; mret None
  | Some p =>
      r ← poller_add p listen_fd EPOLLIN;
      if r =? 0 then mret (Some (mk_fds listen_fd p))
      else poller_destroy p;; po_socket_close listen_fd;; mret None
  end.
Definition bridge_end (f : server_fds) : syscalls () := poller_destroy (sf_poller f);; po_socket_close (sf_listen f).

(** The descriptors of [broker_init]; the pool needs memory and threads, and the
    poller is used without a check. *)
Definition broker_start (path : list Z) : syscalls (option server_fds) :=
  socket_fd ← po_socket_listen_unix path;
  if socket_fd <? 0 then mret None else
  tp ← ask;
  if failed tp then mret None else
  p ← poller_create;
  match p with
  | None => stuck
  | Some p => poller_add p socket_fd EPOLLIN;; mret (Some (mk_fds socket_fd p))
  end.

(** [broker_shutdown] after the pool has finished. *)
Definition broker_end (f : server_fds) : syscalls () := poller_destroy (sf_poller f).

(** ** The loop *)

(** The main thread: in [poller_wait], over the events left, with a connection
    just accepted, in [po_socket_close], past a use of freed memory, after the
    loop. *)
Inductive server_pc : Type :=
| SWait | SEvents (evs : list (Z * Z)) | SAccepted (fd : Z) (evs : list (Z * Z)) | SClosing (fd : Z) (evs : list (Z * Z))
| SUndefined (fd : Z) | SEnd.

(** A task that a worker runs: receiving its request, or with these things left
    to do. *)
Inductive task_pc : Type := Receiving (fd : Z) | Doing (fd : Z) (evs : list event).

Record server : Type := mk_server {
  sv_kernel : kernel;
  sv_pool : pool_ref;
  sv_tasks : list task_pc;
  sv_pc : server_pc
}.

(** One attempt of the loop in [po_socket_close]: [true] when it is repeated. *)
Definition close_attempt (fd : Z) : syscalls bool :=
  a ← close_once fd; mret (match a with AErr (Sys EINTR) => true | _ => false end).

Section loop.
  Context (f : server_fds) (max_events timeout : Z).
  (** [eintr]: a [close] may be interrupted. *)
  Context (eintr : bool).

(** The main loop, [bridge_mainloop_stop] and the tasks, one call that others can
    observe at a time: the wait, the accept, the submission, each attempt to close. *)
Inductive server_step : server → server → Prop :=
| s_wait k pool ts ready m n evs k' m' (fatal : bool) :
    poller_wait (sf_poller f) max_events timeout ready k m = Some ((n, evs), k', m') →
    server_step (mk_server k pool ts SWait)
      (mk_server k' pool ts (if n <? 0 then (if fatal then SEnd else SWait) else SEvents (take (Z.to_nat n) evs)))
| s_accept k pool ts ev evs m fd name k' m' :
    ev.1 = sf_listen f → po_socket_accept (sf_listen f) 64 None k m = Some ((fd, name), k', m') →
    server_step (mk_server k pool ts (SEvents (ev :: evs)))
      (mk_server k' pool ts (if fd <? 0 then SEvents evs else SAccepted fd evs))
| s_other k pool ts ev evs :
    ev.1 ≠ sf_listen f → server_step (mk_server k pool ts (SEvents (ev :: evs))) (mk_server k pool ts (SEvents evs))
| s_hand_over k pool ts fd evs m stale h pool' k' m' :
    bridge_hand_over fd pool stale k m = Some ((h, pool'), k', m') →
    server_step (mk_server k pool ts (SAccepted fd evs)) (mk_server k' pool' ts
      (match h with Queued => SEvents evs | Refused => SClosing fd evs | UseAfterFree => SUndefined fd end))
| s_close k pool ts fd evs m again k' m' :
    close_attempt fd k m = Some (again, k', m') → (again = true → eintr = true) →
    server_step (mk_server k pool ts (SClosing fd evs))
      (mk_server k' pool ts (if again then SClosing fd evs else SEvents evs))
| s_again k pool ts : server_step (mk_server k pool ts (SEvents [])) (mk_server k pool ts SWait)
| s_stop k pool ts : server_step (mk_server k pool ts SWait) (mk_server k pool ts SEnd)
| s_shutdown k p ts pc :
    server_step (mk_server k (PoolLive p) ts pc) (mk_server k (PoolLive (tp_destroy_begin p true)) ts pc)
| s_free k p ts pc :   (* every worker has returned and is joined *)
    tp_worker_section p = (p, WExit) → Forall (λ t, ∃ fd, t = Doing fd []) ts →
    server_step (mk_server k (PoolLive p) ts pc) (mk_server k PoolFreed ts pc)
| s_null k ts pc : server_step (mk_server k PoolFreed ts pc) (mk_server k PoolNull ts pc)
| s_take k p ts pc p' t :
    tp_worker_section p = (p', WRun t) →
    server_step (mk_server k (PoolLive p) ts pc) (mk_server k (PoolLive p') (ts ++ [Receiving t]) pc)
| s_receive k pool ts pc i fd received :
    ts !! i = Some (Receiving fd) →
    server_step (mk_server k pool ts pc) (mk_server k pool (<[i := Doing fd (handle_client_fd received)]> ts) pc)
| s_event k pool ts pc i fd e evs :
    ts !! i = Some (Doing fd (e :: evs)) → e ≠ CloseClient →
    server_step (mk_server k pool ts pc) (mk_server k pool (<[i := Doing fd evs]> ts) pc)
| s_task_close k pool ts pc i fd evs m again k' m' :
    ts !! i = Some (Doing fd (CloseClient :: evs)) →
    close_attempt fd k m = Some (again, k', m') → (again = true → eintr = true) →
    server_step (mk_server k pool ts pc)
      (mk_server k' pool (if again then ts else <[i := Doing fd evs]> ts) pc).

(** The server's own descriptors and those of others in the process. *)
Definition own_fds : gset Z := {[sf_listen f; efd (sf_poller f); epfd (sf_poller f)]}.
End loop.

(** ** Specification *)

(** The connections that somebody still has to close: in the queue, with a task
    that will close them, with the main thread. *)
Definition queue_of (pool : pool_ref) : list Z := match pool with PoolLive p => tp_queue p | _ => [] end.
Definition closes (evs : list event) : nat := length (filter (λ e, e = CloseClient) evs).
Definition task_fds (t : task_pc) : list Z :=
  match t with Receiving fd => [fd] | Doing fd evs => replicate (closes evs) fd end.
Definition held (pc : server_pc) : list Z :=
  match pc with SAccepted fd _ | SClosing fd _ | SUndefined fd => [fd] | _ => [] end.
Definition connections (s : server) : list Z :=
  queue_of (sv_pool s) ++ concat (task_fds <$> sv_tasks s) ++ held (sv_pc s).

(** The counter of the pool is right, and it is shut down gracefully. *)
Definition pool_ok (pool : pool_ref) : Prop :=
  match pool with
  | PoolLive p => queue_count p = Z.of_nat (length (tp_queue p)) ∧ queue_count p <= queue_size p < 2 ^ 64 ∧
      (tp_shutdown p = true → tp_graceful p = true)
  | _ => True
  end.

(** Nothing is open but [base], the server's own and connections that somebody
    will close, and no connection has the number of one of the others. *)
Record bounded_by (f : server_fds) (base : gset Z) (s : server) : Prop := mk_bounded {
  bd_new : ∀ fd, fd ∈ connections s → 0 <= fd ∧ fd ∉ base ∪ own_fds f;
  bd_kept : base ∪ own_fds f ⊆ k_open (sv_kernel s);
  bd_known : k_open (sv_kernel s) ⊆ base ∪ own_fds f ∪ list_to_set (connections s);
  bd_pool : pool_ok (sv_pool s)
}.

(** Besides, every connection is open and has one owner. *)
Record accounted (f : server_fds) (base : gset Z) (s : server) : Prop := mk_accounted {
  ac_bounded : bounded_by f base s;
  ac_nodup : NoDup (connections s);
  ac_open : k_open (sv_kernel s) = base ∪ own_fds f ∪ list_to_set (connections s)
}.

(** ** Lemmas *)

Definition with_task (p : threadpool_s) (t : Z) : threadpool_s :=
  mk_tp (tp_queue p ++ [t]) (u64 (queue_count p + 1)) (queue_size p) false (tp_graceful p).

(** A refused task leaves the pool as it is. *)
Lemma submit_cases pool client k Q :
  Q (-1, pool) k →
  (queue_count pool < queue_size pool → Q (0, with_task pool client) k) →
  post (submit pool client) k Q.
Proof.
  intros H1 H2. unfold submit. sys_step. apply post_ask. intros a. sys_step. unfold tp_submit.
  destruct (tp_shutdown pool); [exact H1|]. destruct (Z.leb_spec (queue_size pool) (queue_count pool)); [exact H1|].
  unfold mbind, alloc_bind. cbn. destruct (failed a); cbn; [exact H1|]. by apply H2.
Qed.

(** A connection is queued last, or still with the main thread. *)
Lemma hand_over_spec fd pool stale k :
  post (bridge_hand_over fd pool stale) k (λ r k', k' = k ∧ match r.1 with
    | Queued => ∃ p, pool = PoolLive p ∧ r.2 = PoolLive (with_task p fd) ∧ queue_count p < queue_size p
    | Refused => r.2 = pool
    | UseAfterFree => r.2 = pool ∧ ∀ p, pool ≠ PoolLive p
    end).
Proof.
  unfold bridge_hand_over. sys_step. apply post_ask. intros a. destruct (failed a); [by sys_step|].
  destruct pool as [p| |]; [|by sys_step|by sys_step; destruct stale].
  sys_step. apply submit_cases; [by sys_step|]. intros Hlt. sys_step. split; [done|]. by exists p.
Qed.

Lemma close_attempt_spec fd k m again k' m' :
  close_attempt fd k m = Some (again, k', m') → k_open k' = k_open k ∖ {[fd]}.
Proof.
  unfold close_attempt, mbind, sys_bind, mret, sys_ret, close_once. cbn [mbind option_bind]. destruct (decide (fd ∈ k_open k)) as [Hin|Hin];
    [rewrite bool_decide_eq_true_2 by done|rewrite bool_decide_eq_false_2 by done].
  - destruct m as [|a m]; cbn; intros E; by simplify_eq.
  - cbn. intros E. simplify_eq. set_solver.
Qed.

(** A worker that leaves a pool after a graceful shutdown has found the queue
    empty; a task that is started was the first. *)
Lemma worker_exit p p' : tp_worker_section p = (p', WExit) → pool_ok (PoolLive p) → tp_queue p = [].
Proof.
  unfold tp_worker_section. intros E (Hc & _ & Hg). apply nil_length_inv. destruct (tp_shutdown p); cbn in *.
  - rewrite (Hg eq_refl), andb_false_r in E. cbn in E. destruct (Z.eqb_spec (queue_count p) 0); [lia|]. by destruct (tp_queue p).
  - destruct (_ && _); [done|]. by destruct (tp_queue p).
Qed.

Lemma worker_runs p p' t : tp_worker_section p = (p', WRun t) → pool_ok (PoolLive p) →
  tp_queue p = t :: tp_queue p' ∧ pool_ok (PoolLive p').
Proof.
  unfold tp_worker_section. intros E (Hc & Hl & Hg). destruct (_ && _); [done|]. destruct (_ && _); [done|].
  destruct (tp_queue p) as [|t' q]; simplify_eq/=. rewrite Hc, u64_small by lia. split_and!; [done|lia|lia|lia|done].
Qed.

(** ** Tasks *)

(** Every request to the bridge is closed once, its buffer is given back, and exactly
    the commands of 1 to 511 bytes are answered. *)
Lemma handle_client_fd_spec received :
  closes (handle_client_fd received) = 1%nat ∧
  length (filter (λ e, e = ReleaseRx) (handle_client_fd received)) = (if received then 1 else 0)%nat ∧
  ((∃ resp, Send MSG_TYPE_CTRL_RESP resp ∈ handle_client_fd received) ↔
   ∃ len buf, received = Some (MSG_TYPE_CTRL_CMD, len, buf) ∧ 0 < len < 512).
Proof.
  destruct received as [[[ty len] buf]|]; cbn [handle_client_fd].
  2: { split_and!; [done|done|]. split; [|naive_solver]. intros (resp & Hin). by apply list_elem_of_singleton in Hin. }
  destruct (Z.eqb_spec ty MSG_TYPE_CTRL_CMD) as [->|Hne]; cbn [negb].
  2: { split_and!; [done|done|]. split; [set_solver|]. intros (? & ? & [= -> _ _] & _). done. }
  destruct ((0 <? len) && (len <? 512)) eqn:E; (split; [done|]; split; [done|]).
  - apply andb_true_iff in E as [H1%Z.ltb_lt H2%Z.ltb_lt]. split; [|set_solver]. eauto 6.
  - apply andb_false_iff in E as [H1%Z.ltb_ge|H1%Z.ltb_ge]; (split; [set_solver|]); intros (? & ? & [= <- _] & ?); lia.
Qed.

(** The broker's tasks close their connection once as well. *)
Lemma broker_request_closes ctx received addr now m ctx' evs :
  (broker_handler_process_request ctx received addr now m).1 = Some (ctx', evs) → closes evs = 1%nat.
Proof.
  unfold broker_handler_process_request, handle_join, handle_get_work. intros H.
  repeat (case_match; simplify_eq/=; try done);
    unfold mbind, alloc_bind in *; repeat (case_match; simplify_eq/=; try done).
Qed.

(** ** Pollers *)

Lemma poller_add_spec p fd ev k : post (poller_add p fd ev) k (λ r k', (r = 0 ∨ r = -1) ∧ k_open k' = k_open k).
Proof.
  unfold poller_add, epoll_ctl. sys_step. sys_step. sys_step.
  - sys_step. sys_step. destruct (_ !! _); repeat sys_step; auto.
  - repeat sys_step; auto.
Qed.

Lemma poller_destroy_spec p k :
  efd p ≠ epfd p → 0 <= efd p → 0 <= epfd p → efd p ∈ k_open k → epfd p ∈ k_open k →
  post (poller_destroy p) k (λ _ k', k_open k' = k_open k ∖ {[efd p; epfd p]}).
Proof.
  intros Hne He Hp H1 H2. unfold poller_destroy.
  rewrite (proj2 (Z.leb_le 0 (efd p))), (proj2 (Z.leb_le 0 (epfd p))) by lia.
  apply post_bind, post_close; [done|]. apply post_close; [cbn; set_solver|]. cbn. set_solver.
Qed.

(** ** The invariant of the loop *)

Section invariant.
  Context (f : server_fds) (max_events timeout : Z) (eintr : bool) (base : gset Z).
  Notation step := (server_step f max_events timeout eintr).

(** Without interruptions the connections are accounted for, with them the
    bounds remain. *)
Definition invariant (s : server) : Prop := bounded_by f base s ∧ (eintr = false → accounted f base s).

(** The invariant depends on the open descriptors and the connections only. *)
Lemma invariant_same s s' :
  invariant s → k_open (sv_kernel s') = k_open (sv_kernel s) → connections s' ≡ₚ connections s → pool_ok (sv_pool s') →
  invariant s'.
Proof.
  intros [[B1 B2 B3 B4] Ha] Ek Ep Hp.
  assert (list_to_set (connections s') =@{gset Z} list_to_set (connections s)) as El.
  { apply set_eq. intros x. by rewrite !elem_of_list_to_set, Ep. }
  assert (bounded_by f base s') as Hb.
  { split; [intros fd; rewrite Ep; apply B1|by rewrite Ek|by rewrite Ek, El|exact Hp]. }
  split; [done|]. intros He. destruct (Ha He) as [_ A1 A2]. split; [done|by rewrite Ep|by rewrite Ek, El].
Qed.

(** A new connection. *)
Lemma invariant_open s s' fd :
  invariant s → 0 <= fd → fd ∉ k_open (sv_kernel s) → k_open (sv_kernel s') = {[fd]} ∪ k_open (sv_kernel s) →
  connections s' ≡ₚ fd :: connections s → pool_ok (sv_pool s') → invariant s'.
Proof.
  intros [[B1 B2 B3 B4] Ha] Hfd Hn Ek Ep Hp.
  assert (list_to_set (connections s') =@{gset Z} {[fd]} ∪ list_to_set (connections s)) as El.
  { apply set_eq. intros x. rewrite elem_of_union, !elem_of_list_to_set, Ep. set_solver. }
  assert (bounded_by f base s') as Hb.
  { split; [|set_solver|rewrite Ek, El; set_solver|exact Hp].
    intros x. rewrite Ep, elem_of_cons. intros [-> |Hx]; [set_solver|by apply B1]. }
  split; [done|]. intros He. destruct (Ha He) as [_ A1 A2]. split; [done| |rewrite Ek, El, A2; set_solver].
  rewrite Ep. constructor; [|done]. intros Hin. apply Hn. rewrite A2. set_solver.
Qed.

(** An attempt to close a connection by the one who has it: whoever has the
    number at that moment loses it. *)
Lemma invariant_close s s' fd again rest :
  invariant s → k_open (sv_kernel s') = k_open (sv_kernel s) ∖ {[fd]} → (again = true → eintr = true) →
  connections s ≡ₚ fd :: rest → connections s' ≡ₚ (if again then fd :: rest else rest) →
  pool_ok (sv_pool s') → invariant s'.
Proof.
  intros [[B1 B2 B3 B4] Ha] Ek Hag Ep Ep' Hp.
  assert (∀ x, x ∈ connections s' → x ∈ connections s) as Hsub.
  { intros x. rewrite Ep, Ep'. destruct again; set_solver. }
  destruct (B1 fd) as [Hfd Hnew]; [rewrite Ep; by left|].
  assert (∀ x : Z, x ∈ connections s → x = fd ∨ x ∈ connections s') as Hsup.
  { intros x. rewrite Ep, Ep'. destruct again; set_solver. }
  assert (bounded_by f base s') as Hb.
  { split; [intros x Hx; by apply B1, Hsub|set_solver| |exact Hp].
    rewrite Ek. intros x [Hx Hne]%elem_of_difference. specialize (B3 x Hx).
    rewrite !elem_of_union, !elem_of_list_to_set in *. destruct B3 as [?|Hc]; [by left|]. set_solver. }
  split; [done|]. intros He. destruct (Ha He) as [_ A1 A2].
  destruct again; [by specialize (Hag eq_refl); congruence|].
  rewrite Ep in A1. apply list.NoDup_cons in A1 as [Hn A1]. split; [done|by rewrite Ep'|].
  rewrite Ek, A2. apply set_eq. intros x.
  rewrite elem_of_difference, !elem_of_union, !elem_of_list_to_set, Ep, Ep', elem_of_cons, elem_of_singleton.
  rewrite elem_of_union in Hnew. split; [tauto|]. intros [Hx|Hx]; (split; [tauto|]); intros ->; [tauto|done].
Qed.

(** A task that goes on, among the connections. *)
Lemma connections_task k pool ts pc i t t' k' :
  ts !! i = Some t → ∃ rest, connections (mk_server k pool ts pc) ≡ₚ task_fds t ++ rest ∧
    connections (mk_server k' pool (<[i := t']> ts) pc) ≡ₚ task_fds t' ++ rest.
Proof.
  intros Hi. destruct (concat_insert task_fds ts i t t' Hi) as (a & b & E1 & E2).
  exists (queue_of pool ++ a ++ b ++ held pc). unfold connections. cbn [sv_pool sv_tasks sv_pc]. rewrite E1, E2.
  split; solve_Permutation.
Qed.

Lemma server_step_invariant s s' : invariant s → step s s' → invariant s'.
Proof.
  intros Hs Hstep. pose proof (bd_pool _ _ _ (proj1 Hs)) as Hp.
  destruct Hstep as [k pool ts ready m n evs k' m' fatal E|k pool ts ev evs m fd name k' m' _ E| |
    k pool ts fd evs m stale h pool' k' m' E|k pool ts fd evs m again k' m' E Hag| | |k p ts pc|k p ts pc Ex Hts|
    |k p ts pc p' t E|k pool ts pc i fd received Hi|k pool ts pc i fd e evs Hi He|k pool ts pc i fd evs m again k' m' Hi E Hag];
    cbn [sv_pool] in Hp; try (by apply (invariant_same _ _ Hs)).
  - apply poller_wait_keeps in E. apply (invariant_same _ _ Hs); [exact E| |exact Hp]. destruct (n <? 0), fatal; done.
  - destruct (post_elim _ _ _ m (accept_spec (sf_listen f) 64 None k)) as ([fd2 name2] & k2 & m2 & E2 & Hc).
    rewrite E2 in E. simplify_eq. destruct Hc as [[Hfd Ek]|(Hfd & Hn & Ek)]; cbn [fst] in *.
    + rewrite (proj2 (Z.ltb_lt fd 0)) by done. by apply (invariant_same _ _ Hs).
    + rewrite (proj2 (Z.ltb_ge fd 0)) by done. apply (invariant_open _ _ fd Hs Hfd Hn); [exact Ek| |exact Hp].
      unfold connections. cbn. rewrite app_nil_r. solve_Permutation.
  - destruct (post_elim _ _ _ m (hand_over_spec fd pool stale k)) as ([h2 pool2] & k2 & m2 & E2 & -> & Hc).
    rewrite E2 in E. simplify_eq. cbn [fst snd] in Hc. destruct h.
    + destruct Hc as (p & -> & -> & Hlt). apply (invariant_same _ _ Hs); [done| |].
      * unfold connections. cbn. solve_Permutation.
      * destruct Hp as (H1 & H2 & H3). unfold pool_ok. cbn. rewrite length_app, u64_small by lia. cbn. split_and!; [lia|lia|lia|done].
    + subst. by apply (invariant_same _ _ Hs).
    + destruct Hc as [-> _]. by apply (invariant_same _ _ Hs).
  - apply close_attempt_spec in E.
    apply (invariant_close _ _ fd again (queue_of pool ++ concat (task_fds <$> ts)) Hs); [exact E|exact Hag| | |exact Hp];
      unfold connections; cbn; [|destruct again; cbn]; solve_Permutation.
  - apply (invariant_same _ _ Hs); [done|done|]. destruct Hp as (H1 & H2 & _). done.
  - apply (invariant_same _ _ Hs); [done| |done]. unfold connections. cbn. by rewrite (worker_exit _ _ Ex Hp).
  - destruct (worker_runs _ _ _ E Hp) as [Hq Hp']. apply (invariant_same _ _ Hs); [done| |exact Hp'].
    unfold connections. cbn. rewrite Hq, fmap_app, concat_app. cbn. solve_Permutation.
  - destruct (connections_task k pool ts pc i _ (Doing fd (handle_client_fd received)) k Hi) as (rest & E1 & E2).
    apply (invariant_same _ _ Hs); [done| |exact Hp]. rewrite E1, E2. cbn [task_fds].
    by rewrite (proj1 (handle_client_fd_spec received)).
  - destruct (connections_task k pool ts pc i _ (Doing fd evs) k Hi) as (rest & E1 & E2).
    apply (invariant_same _ _ Hs); [done| |exact Hp]. rewrite E1, E2. destruct e; done.
  - apply close_attempt_spec in E. destruct (connections_task k pool ts pc i _ (Doing fd evs) k' Hi) as (rest & E1 & E2).
    eapply (invariant_close _ _ fd again _ Hs); [exact E|exact Hag|exact E1| |exact Hp].
    destruct again; [exact E1|exact E2].
Qed.

Lemma server_reach_invariant s s' : invariant s → rtc step s s' → invariant s'.
Proof. intros Hs Hr. induction Hr as [|s1 s2 s3 H12 _ IH]; [done|]. eauto using server_step_invariant. Qed.
End invariant.

(** The server's descriptors are new, distinct and all it has opened. *)
Definition server_started (k : kernel) (f : server_fds) (k' : kernel) : Prop :=
  own_fds f ## k_open k ∧ k_open k' = k_open k ∪ own_fds f ∧
  Forall (λ fd, 0 <= fd) [sf_listen f; efd (sf_poller f); epfd (sf_poller f)] ∧
  NoDup [sf_listen f; efd (sf_poller f); epfd (sf_poller f)].

Lemma started_invariant k f k' eintr :
  server_started k f k' → invariant f eintr (k_open k) (mk_server k' (PoolLive (tp_create_pool 0)) [] SWait).
Proof.
  intros (Hd & Eo & _). assert (bounded_by f (k_open k) (mk_server k' (PoolLive (tp_create_pool 0)) [] SWait)) as Hb.
  { split; cbn; [set_solver|by rewrite Eo|rewrite Eo; set_solver|done]. }
  split; [done|]. intros _. split; [done|constructor|]. cbn. rewrite Eo. set_solver.
Qed.

(** The use of freed memory comes after the release. *)
Lemma undefined_pool f max_events timeout eintr s s' :
  rtc (server_step f max_events timeout eintr) s s' → (∀ fd p, sv_pc s = SUndefined fd → sv_pool s ≠ PoolLive p) →
  ∀ fd p, sv_pc s' = SUndefined fd → sv_pool s' ≠ PoolLive p.
Proof.
  intros Hr. induction Hr as [|s1 s2 s3 H12 _ IH]; [done|]. intros Hs. apply IH. clear IH s3.
  destruct H12 as [| | |k pool ts fd evs m stale h pool' k' m' E| | | | | | | | | |]; cbn in *; intros fd0 p0; repeat case_match; try done;
    try (by intros Hu; destruct (Hs _ _ Hu eq_refl)); try apply Hs.
  - intros _. destruct (post_elim _ _ _ m (hand_over_spec fd pool stale k)) as ([h2 pool2] & k2 & m2 & E2 & -> & Hc).
    rewrite E2 in E. simplify_eq. cbn in Hc. destruct Hc as [-> Hc]. apply Hc.
Qed.

Lemma bridge_start_spec path k :
  post (bridge_start path) k (λ r k', match r with None => k_open k' = k_open k | Some f => server_started k f k' end).
Proof.
  unfold bridge_start. sys_step. eapply post_mono; [apply listen_unix_spec|].
  intros fd k1 [[Hfd E]|(Hfd & Hn & E)].
  { rewrite (proj2 (Z.ltb_lt fd 0)) by done. by sys_step. }
  rewrite (proj2 (Z.ltb_ge fd 0)) by done. sys_step. eapply post_mono; [apply poller_create_spec|].
  intros [p|] k2.
  2: { intros E2. sys_step. eapply post_mono; [apply socket_close_spec; [rewrite E2, E; set_solver|done]|].
       intros [] k3 ->. sys_step. apply release_new; [done|congruence]. }
  intros (Hne & He & Hp & Hne' & Hnp' & E2). sys_step. eapply post_mono; [apply poller_add_spec|]. intros r k3 [Hr E3].
  destruct (r =? 0).
  - sys_step. unfold server_started, own_fds. cbn. rewrite E3, E2, E. split_and!; [set_solver|set_solver|by repeat constructor|].
    repeat (constructor; [set_solver|]). constructor.
  - sys_step. eapply post_mono; [apply poller_destroy_spec; [done|done|done|rewrite E3, E2; set_solver..]|].
    intros [] k4 E4. sys_step. eapply post_mono; [apply socket_close_spec; [rewrite E4, E3, E2, E; set_solver|done]|].
    intros [] k5 ->. sys_step. apply release_new; [done|]. rewrite E4, E3, E2, E. set_solver.
Qed.

Lemma bridge_end_spec f k0 k1 k :
  server_started k0 f k1 → k_open k = k_open k1 → post (bridge_end f) k (λ _ k', k_open k' = k_open k0).
Proof.
  intros (Hd & Eo & Hf & Hnd) Ek. unfold bridge_end, own_fds in *.
  apply Forall_cons_1 in Hf as [Hl [He [Hp _]%Forall_cons_1]%Forall_cons_1].
  apply list.NoDup_cons in Hnd as [Hn1 [Hn2 _]%list.NoDup_cons].
  sys_step. eapply post_mono; [apply poller_destroy_spec; [set_solver|done|done|rewrite Ek, Eo; set_solver..]|].
  intros [] k2 E2. eapply post_mono; [apply socket_close_spec; [rewrite E2, Ek, Eo; set_solver|done]|].
  intros [] k3 ->. cbn. rewrite E2, Ek, Eo. set_solver.
Qed.


(** A bridge that listens on 3 and polls with 4 and 5. *)
Definition bridge_kernel : kernel := mk_kernel {[0; 1; 2; 3; 4; 5]} ∅ {[(4, 3) := EPOLLIN]} ∅ ∅.
Definition bridge_fds : server_fds := mk_fds 3 (mk_poller 4 5).
Definition bridge_waiting : server := mk_server bridge_kernel (PoolLive (tp_create_pool 0)) [] SWait.

(** One step of a concrete run of the bridge, its calls evaluated. *)
Ltac bridge_run t := eapply rtc_l; [t; try (vm_compute; reflexivity); try done|]; cbn [Z.ltb Z.compare].

(** A connection is announced and accepted. *)
Ltac bridge_accepts :=
  bridge_run ltac:(eapply (s_wait _ _ _ _ _ _ _ [(3, EPOLLIN)] [] 1 _ _ _ false));
  bridge_run ltac:(eapply (s_accept _ _ _ _ _ _ _ (3, EPOLLIN) _ [])).

(** An interrupted [close] breaks the account: a task whose [close] was interrupted
    has released its number, the main thread accepts a connection under that number,
    and the repeated [close] of the task closes the connection of the next task. *)
Theorem bridge_interrupted_close_hits_other :
  ∃ s, rtc (server_step bridge_fds 16 1000 true) bridge_waiting s ∧
    sv_tasks s = [Doing 6 []; Receiving 6] ∧ 6 ∉ k_open (sv_kernel s).
Proof.
  eexists. split.
  - bridge_accepts.
    bridge_run ltac:(eapply (s_hand_over _ _ _ _ _ _ _ _ _ [] false)).
    bridge_run ltac:(eapply s_take).
    bridge_run ltac:(eapply (s_receive _ _ _ _ _ _ _ _ 0 6 None)).
    bridge_run ltac:(eapply (s_task_close _ _ _ _ _ _ _ _ 0 6 [] [AErr (Sys EINTR)])).
    bridge_run ltac:(eapply s_again).
    bridge_accepts.
    bridge_run ltac:(eapply (s_hand_over _ _ _ _ _ _ _ _ _ [] false)).
    bridge_run ltac:(eapply s_take).
    bridge_run ltac:(eapply (s_task_close _ _ _ _ _ _ _ _ 0 6 [] [])).
    apply rtc_refl.
  - split; [reflexivity|]. vm_compute. set_solver.
Qed.

(** [bridge_mainloop_stop] destroys the pool without waiting for the loop: a
    connection accepted at that moment is submitted to freed memory. *)
Theorem bridge_stop_races_submit :
  ∃ s, rtc (server_step bridge_fds 16 1000 false) bridge_waiting s ∧ sv_pc s = SUndefined 6.
Proof.
  eexists. split.
  - bridge_accepts. bridge_run ltac:(eapply s_shutdown). bridge_run ltac:(eapply s_free). 
    bridge_run ltac:(eapply (s_hand_over _ _ _ _ _ _ _ _ _ [] false)). apply rtc_refl.
  - reflexivity.
Qed.

(** ** The broker *)

(** The broker accounts for its connections while the pool takes its tasks; a task
    that is refused, because the queue is full or the node cannot be allocated,
    leaves an open connection that nobody will close, and its client waits. *)
Theorem broker_leaks_refused_connection (socket_fd : Z) (pool : threadpool_s) (k : kernel) (mem : bool) :
  0 <= socket_fd →
  let refused := tp_shutdown pool || (queue_size pool <=? queue_count pool) || negb mem in
  let fd := lowest (k_open k) in
  ∃ pool' k', broker_accept socket_fd pool k [AOk; AOk; if mem then AOk else AErr (Sys ENOMEM)] = Some ((true, pool'), k', []) ∧
    k_open k' = {[fd]} ∪ k_open k ∧ fd ∉ k_open k ∧
    tp_queue pool' = if refused then tp_queue pool else tp_queue pool ++ [fd].
Proof.
  intros Hs refused fd. destruct (lowest_fresh (k_open k)) as [Hfd Hn]. fold fd in Hfd, Hn.
  unfold broker_accept, po_socket_accept. rewrite (proj2 (Z.ltb_ge socket_fd 0)) by done.
  set (rest := if mem then AOk else AErr (Sys ENOMEM)).
  assert (new_fd true k [AOk; rest] = Some (fd, add_fd fd true k, [AOk; rest])) as En by reflexivity.
  unfold mbind, sys_bind. cbn. rewrite En. cbn. rewrite (proj2 (Z.ltb_ge fd 0)) by done. cbn.
  assert (submit pool fd (add_fd fd true k) [rest] = Some ((tp_submit pool fd [negb (failed rest)]).1, add_fd fd true k, [])) as Es
    by reflexivity.
  rewrite Es. unfold tp_submit, refused, rest.
  destruct (tp_shutdown pool); cbn; [eauto 7|]. destruct (queue_size pool <=? queue_count pool); cbn; [eauto 7|].
  destruct mem; cbn; eauto 7.
Qed.

Lemma broker_leaks_refused_connection_witness :
  let pool := mk_tp [] 4096 4096 false false in
  let k := mk_kernel {[0; 1; 2; 3]} ∅ ∅ ∅ ∅ in
  ∃ pool' k', broker_accept 3 pool k [AOk; AOk; AOk] = Some ((true, pool'), k', []) ∧
    k_open k' = {[4]} ∪ k_open k ∧ 4 ∉ k_open k ∧ tp_queue pool' = [].
Proof.
  intros pool k. exact (broker_leaks_refused_connection 3 pool k true ltac:(lia)).
Defined.

(** Ending the broker closes its poller; the listening socket stays open. *)
Theorem broker_end_keeps_socket (f : server_fds) (k0 k1 k : kernel) :
  server_started k0 f k1 → k_open k = k_open k1 → post (broker_end f) k (λ _ k', k_open k' = {[sf_listen f]} ∪ k_open k0).
Proof.
  intros (Hd & Eo & Hf & Hnd) Ek. unfold broker_end, own_fds in *.
  apply Forall_cons_1 in Hf as [Hl [He [Hp _]%Forall_cons_1]%Forall_cons_1].
  apply list.NoDup_cons in Hnd as [Hn1 [Hn2 _]%list.NoDup_cons].
  eapply post_mono; [apply poller_destroy_spec; [set_solver|done|done|rewrite Ek, Eo; set_solver..]|].
  intros [] k2 E2. rewrite E2, Ek, Eo. set_solver.
Qed.

(** Without memory for the poller the broker's start follows a null pointer. *)
Theorem broker_start_null_poller :
  broker_start [47] (mk_kernel ∅ ∅ ∅ ∅ ∅) [AOk; AOk; AOk; AOk; AErr (Sys ENOMEM)] = None.
Proof. reflexivity. Qed.

(** ** Paths of the socket

    Broker and clients build the path from the home directory; without one they
    disagree ([user_home] is [None]). *)
Definition broker_socket_path (user_home : option (list Z)) : list Z :=
  take 1023 (default (str "/tmp") user_home ++ str "/.postoffice/issuer.sock").
Definition client_socket_path (size : nat) (user_home : option (list Z)) (uid : Z) : list Z :=
  take (size - 1) (match user_home with
                   | Some home => home ++ str "/.postoffice/issuer.sock"
                   | None => str "/tmp/postoffice_" ++ dec_int uid ++ str "_issuer.sock"
                   end).

(** [sim_client_connect_issuer]: at most 500 attempts, [go] tells before each whether
    to go on. *)
Fixpoint connect_attempts (n : nat) (go : nat → bool) (path : list Z) : syscalls Z :=
  match n with
  | O => mret (-1)
  | S n =>
      if go n then
        fd ← po_socket_connect_unix path;
        if 0 <=? fd then po_socket_set_blocking fd;; mret fd else connect_attempts n go path
      else mret (-1)
  end.
Definition sim_client_connect_issuer (go : nat → bool) (user_home : option (list Z)) (uid : Z) : syscalls Z :=
  connect_attempts 500 go (client_socket_path 512 user_home uid).

Lemma connect_attempts_spec n go path k : post (connect_attempts n go path) k (opens k).
Proof.
  revert k. induction n as [|n IH]; intros k; cbn [connect_attempts]; [sys_step; by left|].
  destruct (go n); [|sys_step; by left]. sys_step. eapply post_mono; [apply connect_unix_spec|].
  intros fd k1 [[Hfd E]|(Hfd & Hn & E)].
  - rewrite (proj2 (Z.leb_gt 0 fd)) by done. eapply post_mono; [apply IH|]. unfold opens. by rewrite E.
  - rewrite (proj2 (Z.leb_le 0 fd)) by done. sys_step. unfold po_socket_set_blocking, fcntl_set.
    rewrite (proj2 (Z.ltb_ge fd 0)) by done.
    sys_step. sys_step; [sys_step; sys_step|]; repeat sys_step; right; cbn; (split; [done|]); split; done.
Qed.

(** Clients find the broker when a home directory of at most 83 bytes is set, and
    never without one; connecting leaks nothing however many attempts it takes. *)
Theorem client_finds_broker (user_home : option (list Z)) (uid : Z) :
  (∀ home, user_home = Some home → (length home ≤ 83)%nat →
     client_socket_path 512 user_home uid = broker_socket_path user_home ∧ sun_path (broker_socket_path user_home) ≠ None) ∧
  (user_home = None → client_socket_path 512 user_home uid ≠ broker_socket_path user_home) ∧
  (∀ go k, post (sim_client_connect_issuer go user_home uid) k (opens k)).
Proof.
  split_and!.
  - intros home -> Hl. unfold client_socket_path, broker_socket_path. cbn [default].
    assert (length (home ++ str "/.postoffice/issuer.sock") ≤ 107)%nat as Hlen.
    { rewrite length_app. change (length (str "/.postoffice/issuer.sock")) with 24%nat. lia. }
    unfold default, from_option, id. rewrite !take_ge by lia. split; [done|]. unfold sun_path, strnlen, SUN_PATH_SIZE.
    destruct (home ++ _) as [|c l] eqn:E; [done|]. destruct (Z.leb_spec 108 (Z.min (Z.of_nat (length (c :: l))) 108)); [lia|done].
  - intros ->. unfold client_socket_path, broker_socket_path. intros E. by apply (f_equal (λ l, l !! 5%nat)) in E.
  - intros go k. apply connect_attempts_spec.
Qed.
