(* ===== verification/CrashDump.v ===== *)
(** * Crash reports ([app/libs/ring3/postoffice/backtrace/backtrace.c])

    What the report contains: the environment without its secrets, the dump of the
    stack, the names of the frames, the command line and the signal.  Output is a
    list of bytes; stack unwinding, symbol look-up and the tool that finds source
    lines are arguments.  [None] is an access outside of an array or a use of
    uninitialised memory. *)

From Stdlib Require Import ZArith Lia String.
From stdpp Require Import base gmap list numbers.
From S2P Require Import Prelude Cstring LoggerFormat Signals.

Local Open Scope Z_scope.

Definition MAX_FRAMES : nat := 64.
Definition MAX_PATH_LEN : nat := 1024.

(** [safe_write]: a formatted text, cut to the buffer. *)
Definition safe_write (text : list Z) : list Z := take 1023 text.

(** ** Environment *)

Fixpoint strchr_at (s : list Z) (c : Z) : option nat :=
  match s with [] => None | x :: s => if x =? c then Some O else S <$> strchr_at s c end.

Fixpoint case_prefix (p s : list Z) : bool :=
  match p, s with
  | [], _ => true
  | _, [] => false
  | a :: p, b :: s => (tolower a =? tolower b) && case_prefix p s
  end.
Fixpoint strcasestr (s p : list Z) : option nat :=
  if case_prefix p s then Some O else match s with [] => None | _ :: s => S <$> strcasestr s p end.

Definition sensitive : list (list Z) :=
  [str "KEY"; str "SECRET"; str "TOKEN"; str "PASSWORD"; str "CREDENTIAL"].

(** [strcasestr(env, s) && strcasestr(env, s) < eq] for one of the words. *)
Definition is_sensitive (env : list Z) (eq : nat) : bool :=
  existsb (λ s, match strcasestr env s with Some i => (i <? eq)%nat | None => false end) sensitive.

Definition print_variable (env : list Z) : list Z :=
  let plain := safe_write (str "  " ++ env ++ [10]) in
  match strchr_at env 61 with
  | None => plain
  | Some eq =>
      if is_sensitive env eq then str "  " ++ take eq env ++ safe_write (str "=*** [REDACTED]" ++ [10])
      else plain
  end.
Definition print_environment (environ : option (list (list Z))) : list Z :=
  safe_write ([10] ++ str "Environment Variables:" ++ [10]) ++
  match environ with
  | None => safe_write (str "  (null)" ++ [10])
  | Some vars => concat (print_variable <$> vars)
  end.

(** ** Hex dump *)

Definition hex_digit (n : Z) : Z := if n <? 10 then 48 + n else 87 + n.
Definition hex2 (b : Z) : list Z := [hex_digit (b / 16); hex_digit (b mod 16)].
Definition hex16 (a : Z) : list Z := (λ i, hex_digit (Z.land (Z.shiftr a (4 * i)) 15)) <$> rev (seqZ 0 16).
Definition isprint (c : Z) : bool := (32 <=? c) && (c <=? 126).
Definition shown_char (b : Z) : Z := if isprint b then b else 46.

Fixpoint drop_zeros (s : list Z) : list Z := match s with c :: s' => if c =? 48 then drop_zeros s' else s | [] => [] end.

(** [%lx] *)
Definition hex_long (a : Z) : list Z := if a =? 0 then [48] else drop_zeros (hex16 a).

(** [for (i = 0; i < len; i++)] with the array [ascii] of 17 characters. *)
Fixpoint hex_dump_loop (addr len i : Z) (bytes ascii : list Z) : option (list Z) :=
  match bytes with
  | [] => Some []
  | b :: bytes =>
      let head := if i mod 16 =? 0 then safe_write (hex16 (u64 (addr + i)) ++ str ": ") else [] in
      let cell := safe_write (hex2 b ++ [32]) in
      ascii ← store_at ascii (Z.to_nat (i mod 16)) (shown_char b);
      if (i + 1) mod 16 =? 0 then
        rest ← hex_dump_loop addr len (i + 1) bytes ascii;
        Some (head ++ cell ++ safe_write (str " |" ++ cstr ascii ++ str "|" ++ [10]) ++ rest)
      else if i =? len - 1 then
        let remaining := 16 - i mod 16 - 1 in
        let pad := concat (replicate (Z.to_nat remaining) (safe_write (str "   "))) in
        ascii ← store_at ascii (Z.to_nat (i mod 16 + 1)) 0;
        rest ← hex_dump_loop addr len (i + 1) bytes ascii;
        Some (head ++ cell ++ pad ++ safe_write (str " |" ++ cstr ascii ++ str "|" ++ [10]) ++ rest)
      else
        rest ← hex_dump_loop addr len (i + 1) bytes ascii;
        Some (head ++ cell ++ rest)
  end.

(** The characters of [ascii] other than the last are not initialised; [junk] stands
    for them. *)
Definition print_hex_dump (addr : Z) (bytes junk : list Z) : option (list Z) :=
  hex_dump_loop addr (Z.of_nat (length bytes)) 0 bytes (junk ++ [0]).

(** The region around the stack pointer; [readable start] are its bytes, if the
    system can read all of them. *)
Definition stack_start (sp : Z) : Z := Z.land (u64 (sp - 256)) (u64 (Z.lnot 15)).
Definition print_stack_memory (sp : Z) (readable : Z → option (list Z)) (junk : list Z) : option (list Z) :=
  let head := safe_write ([10] ++ str "Stack Dump (SP +/- 256 bytes):" ++ [10]) in
  if sp =? 0 then Some (head ++ safe_write (str "  Stack pointer invalid." ++ [10]))
  else
    let start := stack_start sp in
    match readable start with
    | None => Some (head ++ safe_write (str "  Stack memory region [0x" ++ hex_long start ++ str " - 0x"
                                          ++ hex_long (u64 (start + 512)) ++ str "] unmapped or protected." ++ [10]))
    | Some bytes => r ← print_hex_dump start bytes junk; Some (head ++ r)
    end.

(** ** Registers, by name, on the 64-bit Intel processors *)

Definition register_rows : list (list (string * string)) :=
  [[("RAX", "RAX"); ("RBX", "RBX"); ("RCX", "RCX")]; [("RDX", "RDX"); ("RSI", "RSI"); ("RDI", "RDI")];
   [("RBP", "RBP"); ("RSP", "RSP"); ("R8 ", "R8")]; [("R9 ", "R9"); ("R10", "R10"); ("R11", "R11")];
   [("R12", "R12"); ("R13", "R13"); ("R14", "R14")]; [("R15", "R15"); ("RIP", "RIP"); ("EFL", "EFL")];
   [("CSGSFS", "CSGSFS")]]%string.
Definition register_row (gregs : string → Z) (row : list (string * string)) : list Z :=
  safe_write (concat ((λ e, str "  " ++ str e.1 ++ str ": " ++ hex16 (gregs e.2)) <$> row) ++ [10]).
Definition print_registers (gregs : string → Z) : list Z :=
  safe_write ([10] ++ str "Registers:" ++ [10]) ++ concat (register_row gregs <$> register_rows).

(** ** Command line: nulls between arguments become blanks, the last one ends it *)

Definition print_command_line (file : option (list Z)) : list Z :=
  safe_write ([10] ++ str "Command Line:" ++ [10]) ++
  match file with
  | None => safe_write (str "  Failed to open /proc/self/cmdline" ++ [10])
  | Some content =>
      let buffer := take 4095 content in
      match buffer with
      | [] => safe_write (str "  (empty)" ++ [10])
      | _ =>
          let n := (length buffer - 1)%nat in
          let text := ((λ c, if c =? 0 then 32 else c) <$> take n buffer) ++ drop n buffer ++ [0] in
          safe_write (str "  " ++ cstr text ++ [10])
      end
  end.

(** ** Frames *)

(** The answer of the tool: the function on the first line, the place on the second.
    [buffer] is what was read, at most 1023 bytes. *)
Definition cut1023 (s : list Z) : list Z := take 1023 (cstr (s ++ [0])).
Definition resolve_addr2line (answer : option (list Z)) : list Z * list Z :=
  let unknown_file := str "??:0" in
  let unknown_func := str "??" in
  match answer with
  | None | Some [] => (unknown_file, unknown_func)
  | Some buffer =>
      let buffer := take 1023 buffer in
      match strchr_at (cstr (buffer ++ [0])) 10 with
      | Some nl =>
          let second := drop (nl + 1) buffer in
          let second := match strchr_at (cstr (second ++ [0])) 10 with Some n2 => take n2 second | None => second end in
          let second := cut1023 second in
          (if decide (second = []) then unknown_file else second, cut1023 (take nl buffer))
      | None => (unknown_file, cut1023 buffer)
      end
  end.

(** What [dladdr] knows of an address: symbol, file and base address. *)
Record dl_info : Type := mk_dl { dli_sname : option (list Z); dli_fname : option (list Z); dli_fbase : Z }.

Fixpoint strstr_b (s p : list Z) : bool :=
  bool_decide (take (length p) s = p) || match s with [] => false | _ :: s => strstr_b s p end.

(** One frame: the new index of the trampoline and the names, [None] for a name that
    was never written; [resolve] is the tool. *)
Definition frame_names (dladdr : Z → option dl_info) (resolve : Z → option (list Z)) (fault_rip : Z) (i : nat) (addr : Z)
    (trampoline : Z) : option (Z * list Z * list Z) :=
  let a := if (0 <? i)%nat && negb (addr =? fault_rip) then u64 (addr - 1) else addr in
  let info := dladdr a in
  let funcname := take 1023 <$> (info ≫= dli_sname) in
  let filename := take 1023 <$> (info ≫= dli_fname) in
  let offset := match info with Some d => if dli_fbase d =? 0 then a else u64 (a - dli_fbase d) | None => a end in
  let '(precise_file, precise_func) := resolve_addr2line (resolve offset) in
  let filename := if bool_decide (precise_file ≠ str "??:0") && bool_decide (precise_file ≠ str "?:?") then Some precise_file else filename in
  let funcname := if bool_decide (precise_func ≠ str "??") then Some precise_func else funcname in
  let kernel_names := (str "[Signal Trampoline]", str "[kernel/libc]") in
  if Z.of_nat i =? trampoline then Some (trampoline, kernel_names.1, kernel_names.2) else
  fn ← funcname;
  if (trampoline =? -1) && strstr_b fn (str "crash_handler") then file ← filename; Some (Z.of_nat i + 1, fn, file)
  else if strstr_b fn (str "__restore_rt") then Some (Z.of_nat i, kernel_names.1, kernel_names.2)
  else file ← filename; Some (trampoline, fn, file).

Fixpoint print_frames (dladdr : Z → option dl_info) (resolve : Z → option (list Z)) (fault_rip : Z) (i : nat) (array : list Z)
    (trampoline : Z) : option (list (Z * list Z * list Z)) :=
  match array with
  | [] => Some []
  | addr :: array =>
      '(t, fn, file) ← frame_names dladdr resolve fault_rip i addr trampoline;
      rest ← print_frames dladdr resolve fault_rip (i + 1) array t;
      Some ((addr, fn, file) :: rest)
  end.
Definition print_backtrace_fd (dladdr : Z → option dl_info) (resolve : Z → option (list Z)) (fault_rip : Z) (array : list Z) :
    option (list (Z * list Z * list Z)) :=
  print_frames dladdr resolve fault_rip 0 (take MAX_FRAMES array) (-1).

(** ** Signal details *)

Definition signal_codes : list (Z * list string) :=
  [(SIGSEGV, ["SEGV_MAPERR - Address not mapped"; "SEGV_ACCERR - Invalid permissions"; "SEGV_BNDERR - Failed address bound checks";
              "SEGV_PKUERR - Protection key check failed"]);
   (SIGBUS, ["BUS_ADRALN - Invalid address alignment"; "BUS_ADRERR - Non-existent physical address";
             "BUS_OBJERR - Object specific hardware error"; "BUS_MCEERR_AR - Hardware memory error: action required";
             "BUS_MCEERR_AO - Hardware memory error: action optional"]);
   (SIGFPE, ["FPE_INTDIV - Integer divide by zero"; "FPE_INTOVF - Integer overflow"; "FPE_FLTDIV - Floating point divide by zero";
             "FPE_FLTOVF - Floating point overflow"; "FPE_FLTUND - Floating point underflow"; "FPE_FLTRES - Floating point inexact result";
             "FPE_FLTINV - Floating point invalid operation"; "FPE_FLTSUB - Subscript out of range"]);
   (SIGILL, ["ILL_ILLOPC - Illegal opcode"; "ILL_ILLOPN - Illegal operand"; "ILL_ILLADR - Illegal addressing mode"; "ILL_ILLTRP - Illegal trap";
             "ILL_PRVOPC - Privileged opcode"; "ILL_PRVREG - Privileged register"; "ILL_COPROC - Coprocessor error";
             "ILL_BADSTK - Internal stack error"]);
   (SIGTRAP, ["TRAP_BRKPT - Process breakpoint"; "TRAP_TRACE - Process trace trap"]);
   (SIGSYS, ["SYS_SECCOMP - Seccomp filter"])]%string.

(** The codes of a signal are numbered from 1. *)
Definition code_text (si_signo si_code : Z) : list Z :=
  match list_find (λ e, e.1 = si_signo) signal_codes with
  | Some (_, (_, names)) =>
      if 1 <=? si_code then
        match names !! Z.to_nat (si_code - 1) with Some name => str " (" ++ str name ++ str ")" | None => [] end
      else []
  | None => []
  end.

(** [%p] of the GNU library. *)
Definition pointer_text (a : Z) : list Z :=
  if a =? 0 then str "(nil)" else str "0x" ++ drop_zeros (hex16 a).

Record siginfo : Type := mk_siginfo { si_signo : Z; si_code : Z; si_pid : Z; si_uid : Z; si_addr : Z }.

Definition print_signal_info (info : option siginfo) : list Z :=
  match info with
  | None => []
  | Some i =>
      safe_write ([10] ++ str "Signal Details:" ++ [10]) ++ safe_write (str "  Signal: " ++ dec_int (si_signo i) ++ [10]) ++
      safe_write (str "  Code: " ++ dec_int (si_code i)) ++ safe_write (code_text (si_signo i) (si_code i)) ++ [10] ++
      (if si_code i <=? 0
       then safe_write (str "  Sender PID: " ++ dec_int (si_pid i) ++ str ", UID: " ++ dec_int (si_uid i) ++ [10]) else []) ++
      safe_write (str "  Fault Address: " ++ pointer_text (si_addr i) ++ [10; 10])
  end.

(** ** Files copied into the report, 1024 bytes at a time *)

Fixpoint copy_loop (rounds : nat) (file : list Z) : option (list Z) :=
  match rounds with
  | O => None
  | S rounds =>
      match take 1024 file with
      | [] => Some []
      | buffer => rest ← copy_loop rounds (drop 1024 file); Some (buffer ++ rest)
      end
  end.
Definition print_file_section (title missing : string) (file : option (list Z)) : option (list Z) :=
  let head := safe_write ([10] ++ str title ++ [10]) in
  match file with
  | None => Some (head ++ safe_write (str "  Failed to open " ++ str missing ++ [10]))
  | Some content => body ← copy_loop (S (length content)) content; Some (head ++ body ++ [10])
  end.
Definition print_process_status : option (list Z) → option (list Z) :=
  print_file_section "Process Status (/proc/self/status):" "/proc/self/status".
Definition print_memory_maps : option (list Z) → option (list Z) := print_file_section "Memory Maps:" "/proc/self/maps".

(** ** Open descriptors: the links of the directory, [readlink] by their path *)

Definition fd_path (name : list Z) : list Z := take 63 (str "/proc/self/fd/" ++ name).
Definition print_fd (readlink : list Z → option (list Z)) (name : list Z) : list Z :=
  match readlink (fd_path name) with
  | Some target => safe_write (str "  FD " ++ name ++ str " -> " ++ take 1023 target ++ [10])
  | None => safe_write (str "  FD " ++ name ++ str " -> (unknown)" ++ [10])
  end.
Definition print_open_fds (links : option (list (list Z))) (readlink : list Z → option (list Z)) : list Z :=
  safe_write ([10] ++ str "Open File Descriptors:" ++ [10]) ++
  match links with
  | None => safe_write (str "  Failed to open /proc/self/fd" ++ [10])
  | Some names => concat (print_fd readlink <$> names)
  end.

(** ** The report *)

(** What the report is made of; the pending log messages are a text of the logger. *)
Record crash_inputs : Type := mk_crash {
  ci_time : option (list Z);
  ci_info : option siginfo;
  ci_rip : Z;
  ci_frames : list Z;
  ci_dladdr : Z → option dl_info;
  ci_resolve : Z → option (list Z);
  ci_context : option (string → Z);         (* the registers *)
  ci_memory : Z → option (list Z);
  ci_junk : list Z;
  ci_cmdline : option (list Z);
  ci_status : option (list Z);
  ci_links : option (list (list Z));
  ci_readlink : list Z → option (list Z);
  ci_maps : option (list Z);
  ci_logs : list Z
}.

Definition frame_line (i : nat) (fr : Z * list Z * list Z) : list Z :=
  let '(addr, fn, file) := fr in
  let number := dec_int (Z.of_nat i) in
  safe_write (str "#" ++ number ++ replicate (2 - length number) 32 ++ str " " ++ pointer_text addr ++ str " in " ++ fn
                ++ str " at " ++ file ++ [10]).
Definition frames_text (frames : list (Z * list Z * list Z)) : list Z :=
  safe_write (str "Stacktrace (most recent call first):" ++ [10]) ++ concat (imap frame_line frames).

Definition backtrace_save (c : crash_inputs) (environ : option (list (list Z))) : option (list Z) :=
  let time := match ci_time c with Some t => safe_write (str "Crash Timestamp: " ++ t) | None => [] end in
  let info := match ci_info c with
    | Some i => safe_write (str "Signal: " ++ dec_int (si_signo i) ++ str ", Address: " ++ pointer_text (si_addr i) ++ [10])
    | None => [] end ++ print_signal_info (ci_info c) in
  frames ← print_backtrace_fd (ci_dladdr c) (ci_resolve c) (ci_rip c) (ci_frames c);
  context ← match ci_context c with
    | None => Some []
    | Some gregs =>
        let sp := gregs "RSP"%string in
        if sp =? 0 then Some (print_registers gregs)
        else s ← print_stack_memory sp (ci_memory c) (ci_junk c); Some (print_registers gregs ++ s)
    end;
  status ← print_process_status (ci_status c);
  maps ← print_memory_maps (ci_maps c);
  Some (time ++ info ++ frames_text frames ++ context ++ print_command_line (ci_cmdline c) ++ status ++
        print_open_fds (ci_links c) (ci_readlink c) ++ print_environment environ ++ maps ++ ci_logs c).

(** ** The handler *)

(** The directory, cut to its array; [backtrace_init] also sets the handlers
    ([Signals]). *)
Definition dump_dir (crash_dump_dir : option (list Z)) : list Z := take (MAX_PATH_LEN - 1) (default [] crash_dump_dir).

Inductive crash_effect : Type := EReport | EDump (path : list Z) | ERestore (sig : Z) | ERaise (sig : Z).
Definition crash_handler (dir : list Z) (now : Z) (sig : Z) : list crash_effect :=
  [EReport] ++ (match dir with [] => [] | _ => [EDump (take 1151 (dir ++ str "/crash_" ++ dec_int now ++ str ".log"))] end)
    ++ [ERestore sig; ERaise sig].

(** ** Secrets stay out of the report *)

(** The word occurs in [s], whatever the case of its letters. *)
Definition mentions (s w : list Z) : Prop :=
  ∃ x y z, s = x ++ y ++ z ∧ tolower <$> y = tolower <$> w.
Definition secret_key (key : list Z) : Prop := ∃ w, w ∈ sensitive ∧ mentions key w.

Lemma strchr_app (key v : list Z) (c : Z) : c ∉ key → strchr_at (key ++ c :: v) c = Some (length key).
Proof.
  induction key as [|x key IH]; intros Hn; cbn [strchr_at app]; [by rewrite Z.eqb_refl|].
  apply not_elem_of_cons in Hn as [Hx Hn]. rewrite (proj2 (Z.eqb_neq x c)) by done. by rewrite IH.
Qed.

Lemma strchr_Some (s : list Z) (c : Z) (n : nat) :
  strchr_at s c = Some n → s = take n s ++ c :: drop (S n) s ∧ c ∉ take n s ∧ (n < length s)%nat.
Proof.
  revert n. induction s as [|x s IH]; intros n; cbn [strchr_at]; [done|]. destruct (Z.eqb_spec x c) as [->|Hx].
  - intros [= <-]. cbn. split_and!; [by rewrite drop_0|set_solver|lia].
  - intros (m & Hm & ->)%fmap_Some. apply IH in Hm as (E & Hn & Hl). cbn. split_and!; [by f_equal|set_solver|lia].
Qed.

Lemma case_prefix_spec p s : case_prefix p s = true ↔ ∃ y z, s = y ++ z ∧ tolower <$> y = tolower <$> p.
Proof.
  revert s. induction p as [|a p IH]; intros s; cbn [case_prefix].
  { split; [|done]. intros _. by exists [], s. }
  destruct s as [|b s].
  { split; [done|]. intros ([|c y] & z & E & Hf); [done|]. by apply (f_equal length) in E. }
  rewrite andb_true_iff, Z.eqb_eq, IH. split.
  - intros (E & y & z & -> & Hy). exists (b :: y), z. split; [done|]. rewrite !fmap_cons. by f_equal.
  - intros ([|c y] & z & E & Hf); [by apply (f_equal length) in Hf|]. rewrite !fmap_cons in Hf.
    injection E as <- ->. injection Hf as E Hf. split; [done|]. by exists y, z.
Qed.

(** [strcasestr] finds the first place. *)
Lemma strcasestr_first s p x y z :
  s = x ++ y ++ z → tolower <$> y = tolower <$> p → ∃ i, strcasestr s p = Some i ∧ (i ≤ length x)%nat.
Proof.
  revert x. induction s as [|c s IH]; intros x E Hy; cbn [strcasestr].
  - destruct x, y, z; try done. replace (case_prefix p []) with true; [by exists O|].
    symmetry. apply case_prefix_spec. by exists [], [].
  - destruct (case_prefix p (c :: s)) eqn:Ep; [eexists; split; [done|lia]|]. destruct x as [|x0 x].
    + assert (case_prefix p (c :: s) = true); [|congruence]. apply case_prefix_spec. by exists y, z.
    + injection E as <- ->. destruct (IH x eq_refl Hy) as (i & -> & Hi). exists (S i). split; [done|]. cbn. lia.
Qed.

Lemma strcasestr_Some s p i :
  strcasestr s p = Some i → ∃ y z, drop i s = y ++ z ∧ tolower <$> y = tolower <$> p.
Proof.
  revert i. induction s as [|c s IH]; intros i; cbn [strcasestr].
  - destruct (case_prefix p []) eqn:Ep; [|done]. intros [= <-]. by apply case_prefix_spec in Ep.
  - destruct (case_prefix p (c :: s)) eqn:Ep; [intros [= <-]; by apply case_prefix_spec in Ep|].
    intros (j & Hj & ->)%fmap_Some. by apply IH in Hj.
Qed.

Lemma sensitive_words w : w ∈ sensitive → w ≠ [] ∧ 61 ∉ tolower <$> w.
Proof.
  revert w. apply list.Forall_forall. unfold sensitive. repeat (apply list.Forall_cons; split; [split; [done|]|]); [..|constructor];
    apply (bool_decide_unpack _); vm_compute; exact I.
Qed.

(** The test of the source is that the key mentions a sensitive word: a word in the
    value does not count, and none can reach across the sign. *)
Lemma is_sensitive_spec (key v : list Z) :
  61 ∉ key → is_sensitive (key ++ 61 :: v) (length key) = true ↔ secret_key key.
Proof.
  intros Hk. unfold is_sensitive. rewrite existsb_exists. split.
  - intros (w & Hw%list_elem_of_In & Hf). destruct (strcasestr _ w) as [i|] eqn:E; [|done]. apply Nat.ltb_lt in Hf.
    exists w. split; [done|]. apply strcasestr_Some in E as (y & z & E & Hy).
    rewrite drop_app_le in E by lia.
    assert (length y ≤ length (drop i key))%nat as Hl.
    { destruct (decide (length y ≤ length (drop i key)))%nat as [|Hgt]; [done|]. exfalso.
      assert (y !! length (drop i key) = Some 61) as Hl.
      { rewrite <- (lookup_app_l y z) by lia. rewrite <- E. by rewrite lookup_app_r, Nat.sub_diag by done. }
      apply (sensitive_words w Hw). rewrite <- Hy. apply list_elem_of_fmap. exists 61. split; [done|].
      by eapply list_elem_of_lookup_2. }
    exists (take i key), y, (drop (length y) (drop i key)). split; [|done].
    rewrite <- (take_drop i key) at 1. f_equal. rewrite <- (take_drop (length y) (drop i key)) at 1. f_equal.
    apply (f_equal (take (length y))) in E. by rewrite take_app_le, take_app_length in E by done.
  - intros (w & Hw & x & y & z & -> & Hy). exists w. split; [by apply list_elem_of_In|].
    destruct (strcasestr_first ((x ++ y ++ z) ++ 61 :: v) w x y (z ++ 61 :: v)) as (i & -> & Hi); [by rewrite <- !app_assoc|done|].
    apply Nat.ltb_lt. rewrite !length_app. destruct y as [|c y]; [|cbn; lia].
    destruct w; [by destruct (sensitive_words [] Hw)|done].
Qed.

Lemma print_variable_spec (key v : list Z) (b : bool) :
  61 ∉ key → (b = true ↔ secret_key key) →
  print_variable (key ++ 61 :: v) =
    if b then str "  " ++ key ++ str "=*** [REDACTED]" ++ [10] else safe_write (str "  " ++ key ++ 61 :: v ++ [10]).
Proof.
  intros Hk Hb. unfold print_variable. rewrite strchr_app by done.
  replace (is_sensitive _ _) with b; [|apply eq_true_iff_eq; by rewrite is_sensitive_spec].
  destruct b; [by rewrite take_app_length|]. by rewrite <- app_assoc.
Qed.

(** Two variables a reader of the report must not be able to tell apart. *)
Definition same_public (a b : list Z) : Prop :=
  a = b ∨ ∃ key va vb, a = key ++ 61 :: va ∧ b = key ++ 61 :: vb ∧ 61 ∉ key ∧ secret_key key.

Lemma print_environment_public vars vars' :
  Forall2 same_public vars vars' → print_environment (Some vars) = print_environment (Some vars').
Proof.
  intros Hv. unfold print_environment. f_equal. f_equal. induction Hv as [|a b vars vars' Hab _ IH]; [done|].
  rewrite !fmap_cons, IH. f_equal. destruct Hab as [->|(key & va & vb & -> & -> & Hk & Hs)]; [done|].
  by rewrite !(print_variable_spec key _ true).
Qed.

(** C35. The crash report does not depend on secrets: for the same crash, whatever the
    values of the variables whose names mention a sensitive word, in any case of
    letters, the report is the same; and only these are redacted: the text of any
    other variable appears, up to the length of the buffer. *)
Theorem crash_report_redacted (c : crash_inputs) (vars vars' : list (list Z)) :
  Forall2 same_public vars vars' →
  backtrace_save c (Some vars) = backtrace_save c (Some vars') ∧
  ∀ key v, 61 ∉ key → ¬ secret_key key →
    print_variable (key ++ 61 :: v) = take 1023 (str "  " ++ key ++ 61 :: v ++ [10]).
Proof.
  intros Hv. split.
  - unfold backtrace_save. by rewrite (print_environment_public vars vars' Hv).
  - intros key v Hk Hs. by rewrite (print_variable_spec key v false).
Qed.

Definition crash_ex : crash_inputs :=
  mk_crash None (Some (mk_siginfo SIGSEGV 1 0 0 0)) 4096 [4096] (λ _, Some (mk_dl (Some (str "main")) (Some (str "prog")) 0)) (λ _, None)
    (Some (λ _, 8192)) (λ _, Some (replicate 512 65)) (replicate 16 0) (Some (str "prog")) (Some (str "status"))
    (Some [str "0"]) (λ _, None) (Some (str "maps")) [].

Lemma crash_report_redacted_witness :
  is_Some (backtrace_save crash_ex (Some [])) ∧
  backtrace_save crash_ex (Some [str "HOME=/root"; str "Api_Key=abc"]) = backtrace_save crash_ex (Some [str "HOME=/root"; str "Api_Key=xyz!"]) ∧
  ∀ key v, 61 ∉ key → ¬ secret_key key → print_variable (key ++ 61 :: v) = take 1023 (str "  " ++ key ++ 61 :: v ++ [10]).
Proof.
  split; [vm_compute; by eexists|].
  apply (crash_report_redacted crash_ex [str "HOME=/root"; str "Api_Key=abc"] [str "HOME=/root"; str "Api_Key=xyz!"]).
  constructor; [by left|]. constructor; [|constructor]. right.
  exists (str "Api_Key"), (str "abc"), (str "xyz!"). split_and!; [reflexivity|reflexivity|apply (bool_decide_unpack _); vm_compute; exact I|].
  exists (str "KEY"). split; [by left|]. exists (str "Api_"), (str "Key"), []. split; reflexivity.
Defined.

(** Copying a file in pieces copies all of it. *)
Lemma copy_loop_all rounds file : (length file < rounds)%nat → copy_loop rounds file = Some file.
Proof.
  revert file. induction rounds as [|rounds IH]; intros file Hl; [lia|]. cbn [copy_loop].
  destruct file as [|b file]; [done|]. destruct (take 1024 (b :: file)) as [|x buf] eqn:E; [done|].
  rewrite IH by (rewrite length_drop; cbn in *; lia). cbn [mbind option_bind]. rewrite <- E. by rewrite take_drop.
Qed.

(** No two known codes share a text. *)
Lemma code_texts_distinct :
  NoDup (concat ((λ e : Z * list string, (λ i, code_text e.1 (Z.of_nat i)) <$> seq 1 (length e.2)) <$> signal_codes)).
Proof. apply (bool_decide_unpack _). vm_compute. exact I. Qed.

(** ** The dump, row by row *)

Definition hex_cells (bytes : list Z) : list Z := concat ((λ b, hex2 b ++ [32]) <$> bytes).
Definition hex_tail (bytes : list Z) : list Z :=
  concat (replicate (16 - length bytes) (str "   ")) ++ str " |" ++ (shown_char <$> bytes) ++ str "|" ++ [10].
Definition hex_row (addr : Z) (bytes : list Z) : list Z :=
  hex16 (u64 addr) ++ str ": " ++ hex_cells bytes ++ hex_tail bytes.

(** Rows of 16 bytes, the last one shorter. *)
Fixpoint hex_rows (n : nat) (addr : Z) (bytes : list Z) : list Z :=
  match n, bytes with
  | S n, _ :: _ => hex_row addr (take 16 bytes) ++ hex_rows n (addr + 16) (drop 16 bytes)
  | _, _ => []
  end.

Lemma safe_write_short t : (length t ≤ 1023)%nat → safe_write t = t.
Proof. intros H. unfold safe_write. by apply take_ge. Qed.

Lemma shown_char_range b : 0 < shown_char b < 256.
Proof. unfold shown_char, isprint. case (Z.leb_spec 32 b), (Z.leb_spec b 126); cbn; lia. Qed.

Lemma shown_c_string bytes : c_string (shown_char <$> bytes).
Proof. apply list.Forall_fmap, list.Forall_forall. intros b _. apply shown_char_range. Qed.

(** The array after the characters of [pre]: the terminator is in its last place. *)
Definition ascii_holds (ascii pre : list Z) : Prop :=
  length ascii = 17%nat ∧ ascii !! 16%nat = Some 0 ∧ take (length pre) ascii = shown_char <$> pre.

Lemma ascii_store ascii pre b :
  ascii_holds ascii pre → (length pre < 16)%nat →
  ∃ ascii', store_at ascii (length pre) (shown_char b) = Some ascii' ∧ ascii_holds ascii' (pre ++ [b]).
Proof.
  intros (Hl & Hz & Ht) Hp. unfold store_at. rewrite decide_True by lia. eexists. split; [done|]. split_and!.
  - by rewrite length_insert.
  - by rewrite list_lookup_insert_ne by lia.
  - rewrite length_app, fmap_app. cbn [length fmap list_fmap]. rewrite Nat.add_1_r.
    rewrite (take_S_r _ _ (shown_char b)) by (apply list_lookup_insert_eq; lia). by rewrite take_insert_ge, Ht by lia.
Qed.

Lemma ascii_cstr ascii pre : ascii_holds ascii pre → ascii !! length pre = Some 0 → cstr ascii = shown_char <$> pre.
Proof.
  intros (Hl & _ & Ht) Hz. apply holds_cstr. split; [apply shown_c_string|]. exists (drop (S (length pre)) ascii).
  rewrite <- Ht. by rewrite take_drop_middle.
Qed.

(** Ending the text after the bytes so far. *)
Lemma ascii_end ascii pre :
  ascii_holds ascii pre → (length pre < 17)%nat →
  ∃ ascii', store_at ascii (length pre) 0 = Some ascii' ∧ cstr ascii' = shown_char <$> pre.
Proof.
  intros (Hl & Hz & Ht) Hp. unfold store_at. rewrite decide_True by lia. eexists. split; [done|].
  apply holds_cstr. split; [apply shown_c_string|]. exists (drop (S (length pre)) ascii).
  rewrite <- Ht, insert_take_drop by lia. done.
Qed.

Lemma row_text_short pre : (length pre ≤ 16)%nat → safe_write (str " |" ++ (shown_char <$> pre) ++ str "|" ++ [10]) = str " |" ++ (shown_char <$> pre) ++ str "|" ++ [10].
Proof. intros H. apply safe_write_short. rewrite !length_app, length_fmap. cbn. lia. Qed.

Lemma hex16_length a : length (hex16 a) = 16%nat.
Proof. unfold hex16. by rewrite length_fmap, length_rev, length_seqZ. Qed.

(** From the middle of a row on, [pre] being the bytes of the row so far. *)
Lemma hex_dump_loop_spec (addr q : Z) (bytes pre ascii : list Z) (n : nat) :
  (length pre < 16)%nat → ascii_holds ascii pre → 0 <= q → (length pre + length bytes ≤ 16 * (n + 1))%nat →
  let j := length pre in
  let len := 16 * q + Z.of_nat (j + length bytes) in
  let now := take (16 - j) bytes in
  hex_dump_loop addr len (16 * q + Z.of_nat j) bytes ascii =
    Some (match bytes with
          | [] => []
          | _ => (if decide (pre = []) then hex16 (u64 (addr + 16 * q)) ++ str ": " else []) ++ hex_cells now ++ hex_tail (pre ++ now)
                   ++ hex_rows n (addr + 16 * q + 16) (drop (16 - j) bytes)
          end).
Proof.
  revert q pre ascii n. induction bytes as [|b bytes IH]; intros q pre ascii n Hp Ha Hq Hn; cbn [hex_dump_loop]; [done|].
  set (j := length pre) in *. cbn zeta.
  assert ((16 * q + Z.of_nat j) mod 16 = Z.of_nat j) as Ej.
  { rewrite (Z.mul_comm 16 q), Z.add_comm, Z.mod_add, Z.mod_small by lia. done. }
  rewrite !Ej, Nat2Z.id. destruct (ascii_store ascii pre b Ha Hp) as (ascii1 & Es & Ha1). fold j in Es. rewrite Es.
  cbn [mbind option_bind].
  set (head := if Z.of_nat j =? 0 then _ else _).
  assert (head = if decide (pre = []) then hex16 (u64 (addr + 16 * q)) ++ str ": " else []) as ->.
  { subst head. destruct pre as [|p pre]; cbn [j length] in *.
    - rewrite decide_True by done. cbn. rewrite Z.add_0_r. rewrite safe_write_short; [done|]. rewrite length_app, hex16_length. cbn. lia.
    - rewrite decide_False by done. by rewrite (proj2 (Z.eqb_neq _ _)) by lia. }
  assert (safe_write (hex2 b ++ [32]) = hex2 b ++ [32]) as -> by (by apply safe_write_short; cbn; lia).
  set (head1 := if decide (pre = []) then _ else _). cbn [length] in *.
  assert ((16 * q + Z.of_nat j + 1) mod 16 = (Z.of_nat j + 1) mod 16) as ->.
  { rewrite <- Z.add_assoc, (Z.mul_comm 16 q), Z.add_comm, Z.mod_add by lia. done. }
  assert (hex_cells (b :: take (15 - j) bytes) = hex2 b ++ [32] ++ hex_cells (take (15 - j) bytes)) as Ec
    by (unfold hex_cells; cbn [fmap list_fmap concat]; by rewrite <- app_assoc).
  replace (16 - j)%nat with (S (15 - j)) by lia. cbn [take drop]. rewrite Ec. clear Ec.
  destruct (decide (j = 15%nat)) as [E15|Hne15].
  - (* the row is full *)
    rewrite (ascii_cstr _ _ Ha1) by (rewrite length_app; cbn; fold j; rewrite E15; apply Ha1).
    rewrite row_text_short by (rewrite length_app; cbn; lia). rewrite E15, Nat.sub_diag, take_0, drop_0.
    change ((Z.of_nat 15 + 1) mod 16 =? 0) with true. cbn iota.
    replace (16 * q + Z.of_nat 15 + 1) with (16 * (q + 1) + Z.of_nat 0) by lia.
    replace (16 * q + Z.of_nat (15 + S (length bytes))) with (16 * (q + 1) + Z.of_nat (0 + length bytes)) by lia.
    assert (ascii_holds ascii1 []) as Ha0 by (destruct Ha1 as (? & ? & _); by split_and!).
    pose proof (IH (q + 1) [] ascii1 (n - 1)%nat) as E. cbn [length] in E. rewrite E by (first [done|lia]). cbn [mbind option_bind]. f_equal. f_equal.
    assert (hex_tail (pre ++ [b]) = str " |" ++ (shown_char <$> pre ++ [b]) ++ str "|" ++ [10]) as ->.
    { unfold hex_tail. replace (16 - length (pre ++ [b]))%nat with 0%nat; [done|]. rewrite length_app. cbn. fold j. lia. }
    change (hex_cells []) with (@nil Z). rewrite <- !app_assoc, !app_nil_l. do 6 f_equal.
    destruct bytes as [|b' bytes]; [by destruct n|]. destruct n as [|n]; [cbn in Hn; lia|]. cbn [hex_rows].
    unfold hex_row. rewrite decide_True, Nat.sub_0_r by done. cbn [Nat.sub app]. rewrite Nat.sub_0_r, <- !app_assoc.
    replace (addr + 16 * (q + 1)) with (addr + 16 * q + 16) by lia. done.
  - assert ((Z.of_nat j + 1) mod 16 =? 0 = false) as -> by (apply Z.eqb_neq; rewrite Z.mod_small; lia).
    destruct bytes as [|b' bytes].
    + (* the last row is short *)
      replace (16 * q + Z.of_nat j =? 16 * q + Z.of_nat (j + S (length [])) - 1) with true
        by (symmetry; apply Z.eqb_eq; cbn; lia).
      destruct (ascii_end ascii1 (pre ++ [b]) Ha1) as (ascii2 & E2 & Ec2); [rewrite length_app; cbn; lia|].
      rewrite length_app in E2. cbn [length] in E2. fold j in E2.
      replace (Z.to_nat (Z.of_nat j + 1)) with (j + 1)%nat by lia. rewrite E2. cbn [mbind option_bind hex_dump_loop]. f_equal. f_equal.
      rewrite Ec2, row_text_short by (rewrite length_app; cbn; lia). rewrite take_nil, drop_nil.
      change (hex_cells []) with (@nil Z). unfold hex_tail. replace (hex_rows n _ []) with (@nil Z) by by destruct n.
      rewrite length_app. cbn [length]. fold j. replace (Z.to_nat (16 - Z.of_nat j - 1)) with (16 - (j + 1))%nat by lia.
      rewrite <- !app_assoc, !app_nil_l. done.
    + replace (16 * q + Z.of_nat j =? 16 * q + Z.of_nat (j + S (length (b' :: bytes))) - 1) with false
        by (symmetry; apply Z.eqb_neq; cbn; lia).
      assert (length (pre ++ [b]) = (j + 1)%nat) as El by (rewrite length_app; done).
      pose proof (IH q (pre ++ [b]) ascii1 n) as E. rewrite El in E.
      replace (16 * q + Z.of_nat j + 1) with (16 * q + Z.of_nat (j + 1)) by lia.
      replace (j + S (length (b' :: bytes)))%nat with (j + 1 + length (b' :: bytes))%nat in * by lia.
      rewrite E by (first [done|lia]). cbn [mbind option_bind]. f_equal. f_equal.
      rewrite decide_False by (intros Hnil; by apply app_nil in Hnil as [_ ?]). replace (16 - (j + 1))%nat with (15 - j)%nat by lia.
      rewrite app_nil_l, <- !app_assoc. done.
Qed.

(** The dump of memory, written byte by byte with a small array that is reused for
    every row, is the concatenation of rows of 16 bytes, each with its address, its
    bytes in hexadecimal padded to the full width, and its characters; for any
    memory, any length and whatever the array held before, and without leaving the
    array. *)
Theorem hex_dump_is_rows (addr : Z) (bytes junk : list Z) :
  length junk = 16%nat →
  print_hex_dump addr bytes junk = Some (hex_rows (length bytes) addr bytes).
Proof.
  intros Hj. unfold print_hex_dump.
  assert (ascii_holds (junk ++ [0]) []) as Ha.
  { split_and!; [by rewrite length_app, Hj| |done]. by rewrite lookup_app_r, Hj by lia. }
  pose proof (hex_dump_loop_spec addr 0 bytes [] (junk ++ [0]) (length bytes - 1)) as E. cbn [length] in E.
  rewrite Z.mul_0_r, !Z.add_0_l, Z.add_0_r in E. cbn [Nat.add] in E. change (Z.of_nat 0) with 0 in E. rewrite E by (first [done|lia]). f_equal.
  destruct bytes as [|b bytes]; [done|]. cbn [length hex_rows]. rewrite decide_True by done.
  unfold hex_row. cbn [Nat.sub app]. by rewrite Nat.sub_0_r, <- !app_assoc.
Qed.

Lemma hex_dump_is_rows_witness :
  print_hex_dump 4096 (seqZ 60 20) (replicate 16 0) = Some (hex_rows 20 4096 (seqZ 60 20)).
Proof. exact (hex_dump_is_rows 4096 (seqZ 60 20) (replicate 16 0) eq_refl). Defined.

(** ** Frames and the end of the process *)

Lemma frame_names_known dladdr resolve rip i addr t :
  (∀ a, ∃ d s f, dladdr a = Some d ∧ dli_sname d = Some s ∧ dli_fname d = Some f) →
  is_Some (frame_names dladdr resolve rip i addr t).
Proof.
  intros Hd. unfold frame_names.
  set (a := if (0 <? i)%nat && negb (addr =? rip) then u64 (addr - 1) else addr). destruct (Hd a) as (d & s & f & -> & Es & Ef).
  cbn [mbind option_bind]. rewrite Es, Ef. cbn [fmap option_fmap option_map]. destruct (resolve_addr2line _) as [pf pn].
  destruct (bool_decide (pf ≠ _) && _), (bool_decide (pn ≠ _)); cbn [mbind option_bind]; repeat (case_match; [by eexists|]); by eexists.
Qed.

(** Every frame is listed once, in order and up to the limit, when the linker knows a
    symbol and a file for each address; a frame that neither the linker nor the tool
    can name is printed from memory that was never written. *)
Theorem backtrace_lists_frames (dladdr : Z → option dl_info) (resolve : Z → option (list Z)) (rip : Z) (array : list Z) :
  ((∀ a, ∃ d s f, dladdr a = Some d ∧ dli_sname d = Some s ∧ dli_fname d = Some f) →
     ∃ l, print_backtrace_fd dladdr resolve rip array = Some l ∧ l.*1.*1 = take MAX_FRAMES array) ∧
  (print_backtrace_fd (λ _, None) (λ _, None) rip [4096] = None).
Proof.
  split; [|reflexivity]. intros Hd. unfold print_backtrace_fd. generalize (-1) as t. generalize 0%nat as i.
  induction (take MAX_FRAMES array) as [|addr l IH]; intros i t; cbn [print_frames]; [by exists []|].
  destruct (frame_names_known dladdr resolve rip i addr t Hd) as [[[t' fn] file] ->]. cbn [mbind option_bind].
  destruct (IH (i + 1)%nat t') as (l' & -> & E). cbn [mbind option_bind]. eexists. split; [done|]. cbn. by rewrite E.
Qed.

(** The dump of the stack starts on a multiple of 16 at most 271 bytes below the
    pointer: of the 256 bytes announced above it up to 15 are left out. *)
Theorem stack_dump_region (sp : Z) :
  512 <= sp < 2 ^ 64 →
  let start := stack_start sp in
  start mod 16 = 0 ∧ sp - 271 <= start <= sp - 256 ∧ sp + 241 <= start + 512 <= sp + 256.
Proof.
  intros Hsp start. assert (start = sp - 256 - (sp - 256) mod 16) as E.
  { unfold start, stack_start, u64. rewrite (Z.mod_small (sp - 256)) by lia.
    change (Z.lnot 15 mod 2 ^ 64) with (Z.ldiff (Z.ones 64) (Z.ones 4)).
    rewrite Z.ldiff_land, Z.land_assoc, Z.land_ones, (Z.mod_small (sp - 256)) by lia.
    rewrite <- Z.ldiff_land, Z.ldiff_ones_r, Z.shiftl_mul_pow2, Z.shiftr_div_pow2 by lia.
    pose proof (Z.div_mod (sp - 256) (2 ^ 4)) as Hdm. change (2 ^ 4) with 16 in *. lia. }
  pose proof (Z.mod_pos_bound (sp - 256) 16 ltac:(lia)). split; [|lia].
  rewrite E. pose proof (Z.div_mod (sp - 256) 16). replace (sp - 256 - (sp - 256) mod 16) with ((sp - 256) / 16 * 16) by lia.
  apply Z.mod_mul. lia.
Qed.

(** The handler ends by giving the signal its default action, unblocked, and raising
    it again: the process dies of the signal it caught. *)
Theorem crash_handler_dies {H} (reserved : gset Z) (dir : list Z) (now sig : Z) (s : sig_state H) :
  changeable reserved sig = true →
  (∃ l, crash_handler dir now sig = l ++ [ERestore sig; ERaise sig]) ∧
  ∃ s', sigutil_restore reserved sig s = (Done, s') ∧ sig_actions s' !! sig = None ∧ sig ∉ sig_mask s'.
Proof.
  intros Hc. split; [by eexists (_ ++ _); rewrite <- app_assoc|].
  pose proof Hc as [Hv _]%andb_true_iff. unfold sigutil_restore, sigutil_unblock, sigaddset. rewrite Hv. cbn [with_set].
  unfold andthen, mask_unblock, sigaction. cbn. fold (changeable reserved sig). rewrite Hc. eexists. split; [done|]. cbn.
  split; [apply lookup_partial_alter_eq|set_solver].
Qed.
