(* ===== verification/Files.v ===== *)
(** * File helpers ([src/utils/files.c])

    A file system is a map from paths, as lists of names from the root, to nodes; a
    path given as text is resolved against the working directory.  Symbolic links and
    the names [.] and [..] are not looked at. *)

From Stdlib Require Import ZArith Lia.
From stdpp Require Import base gmap list numbers.
From S2P Require Import Prelude.

Local Open Scope Z_scope.

Inductive fnode : Type := FDir | FFile (content : list Z) | FSock.
Abbreviation fpath := (list (list Z)).
Abbreviation fs_map := (gmap fpath fnode).

#[export] Instance fnode_eq_dec : EqDecision fnode.
Proof. solve_decision. Defined.

(** ** Paths *)

Definition SLASH : Z := 47.

(** The finished names and the one that is being read. *)
Definition name_step (st : fpath * list Z) (c : Z) : fpath * list Z :=
  if c =? SLASH then (if decide (st.2 = []) then st else (st.1 ++ [st.2], [])) else (st.1, st.2 ++ [c]).
Definition scan_names (s : list Z) : fpath * list Z := foldl name_step ([], []) s.
Definition close_name (st : fpath * list Z) : fpath := if decide (st.2 = []) then st.1 else st.1 ++ [st.2].
Definition names (s : list Z) : fpath := close_name (scan_names s).

Definition absolute (s : list Z) : bool := match s with c :: _ => c =? SLASH | [] => false end.
Definition ends_slash (s : list Z) : bool := match list.last s with Some c => c =? SLASH | None => false end.

Section files.
  (** The working directory, and where the kernel lets the process create a node. *)
  Context (cwd : fpath) (allowed : fpath → bool).

Definition base_of (s : list Z) : fpath := if absolute s then [] else cwd.
Definition resolve (s : list Z) : fpath := base_of s ++ names s.

(** ** Calls of the system *)

Definition stat (f : fs_map) (s : list Z) : option fnode :=
  match s with
  | [] => None
  | _ => n ← f !! resolve s; if ends_slash s && negb (bool_decide (n = FDir)) then None else Some n
  end.

Definition dir_above (q : fpath) : fpath := take (length q - 1) q.

Definition mkdir (f : fs_map) (s : list Z) : option errno * fs_map :=
  match s with
  | [] => (Some EOTHER, f)
  | _ =>
      let q := resolve s in
      match f !! q with
      | Some _ => (Some EEXIST, f)
      | None => if bool_decide (f !! dir_above q = Some FDir) && allowed q then (None, <[q := FDir]> f) else (Some EOTHER, f)
      end
  end.

(** ** The helpers; a null pointer is [None] *)

Definition fs_exists (f : fs_map) (path : option (list Z)) : bool :=
  match path with Some s => bool_decide (is_Some (stat f s)) | None => false end.
Definition fs_is_regular_file (f : fs_map) (path : option (list Z)) : bool :=
  match path with Some s => match stat f s with Some (FFile _) => true | _ => false end | None => false end.
Definition fs_is_directory (f : fs_map) (path : option (list Z)) : bool :=
  match path with Some s => match stat f s with Some FDir => true | _ => false end | None => false end.
Definition fs_is_socket (f : fs_map) (path : option (list Z)) : bool :=
  match path with Some s => match stat f s with Some FSock => true | _ => false end | None => false end.

(** [mem] tells that the buffer could be allocated, [rd] how much [fread] read.  A
    directory can be opened, but it has no size that could be allocated. *)
Definition fs_read_file_to_buffer (f : fs_map) (path : option (list Z)) (mem : bool) (rd : nat) : option (list Z) :=
  match path with
  | None => None
  | Some s =>
      match stat f s with
      | Some (FFile content) => if mem && (rd =? length content)%nat then Some (take rd content) else None
      | _ => None
      end
  end.

(** Opening creates or empties the file; [wr] bytes are then written. *)
Definition fs_write_buffer_to_file (f : fs_map) (path buffer : option (list Z)) (size wr : nat) (flushed : bool) : bool * fs_map :=
  match path with
  | None => (false, f)
  | Some s =>
      if bool_decide (buffer = None) && (0 <? size)%nat then (false, f) else
      let q := resolve s in
      let ok := match f !! q with
                | Some (FFile _) => true
                | Some _ => false
                | None => bool_decide (f !! dir_above q = Some FDir) && allowed q
                end in
      if ok && negb (ends_slash s) && bool_decide (s ≠ []) then
        ((wr =? size)%nat && flushed, <[q := FFile (take wr (take size (default [] buffer)))]> f)
      else (false, f)
  end.

Definition mkdir_one (f : fs_map) (s : list Z) : bool * fs_map :=
  match mkdir f s with
  | (None, f) => (true, f)
  | (Some EEXIST, f) => (fs_is_directory f (Some s), f)
  | (Some _, f) => (false, f)
  end.

(** [while (len > 1 && tmp[len - 1] == '/')], on the text backwards. *)
Fixpoint strip_rev (t : list Z) : list Z :=
  match t with
  | c :: ((_ :: _) as t') => if c =? SLASH then strip_rev t' else t
  | _ => t
  end.
Definition strip_slashes (s : list Z) : list Z := rev (strip_rev (rev s)).

(** The characters after [pre], and the last call. *)
Fixpoint mkdir_loop (pre rest : list Z) (f : fs_map) : bool * fs_map :=
  match rest with
  | [] => mkdir_one f pre
  | c :: rest =>
      if c =? SLASH then
        let '(ok, f) := mkdir_one f pre in
        if ok : bool then mkdir_loop (pre ++ [c]) rest f else (false, f)
      else mkdir_loop (pre ++ [c]) rest f
  end.

Definition fs_create_directory_recursive (mem : bool) (f : fs_map) (path : option (list Z)) : bool * fs_map :=
  match path with
  | None | Some [] => (false, f)
  | Some s =>
      if mem then let tmp := strip_slashes s in mkdir_loop (take 1 tmp) (drop 1 tmp) f
      else (false, f)
  end.

(** The buffer of [total] bytes holds the text and its end. *)
Definition fs_path_join (mem : bool) (base leaf : option (list Z)) : option (list Z) :=
  match base, leaf with
  | None, None => None
  | None, Some l => if mem then Some l else None
  | Some b, None => if mem then Some b else None
  | Some b, Some l =>
      let need_sep := (0 <? length b)%nat && negb (ends_slash b) in
      let total := (length b + (if need_sep then 1 else 0) + length l + 1)%nat in
      if mem then Some (take (total - 1) (b ++ (if need_sep then [SLASH] else []) ++ l)) else None
  end.

(** ** Specification *)

(** Every node but the root is in a directory. *)
Definition fs_ok (f : fs_map) : Prop :=
  f !! [] = Some FDir ∧ ∀ q x, is_Some (f !! (q ++ [x])) → f !! q = Some FDir.

(** A path that is a directory or may become one. *)
Definition can_pass (f : fs_map) (q : fpath) : Prop := f !! q = Some FDir ∨ f !! q = None ∧ allowed q = true.

(** [f'] is [f] with new directories on the way to [target]. *)
Record made (f f' : fs_map) (target : fpath) : Prop := mk_made {
  made_sub : f ⊆ f';
  made_ok : fs_ok f';
  made_new : ∀ q, f !! q = None → is_Some (f' !! q) → q `prefix_of` target ∧ allowed q = true ∧ f' !! q = Some FDir
}.
End files.

(** ** Names *)

Lemma scan_shift d cur s :
  cur = [] → foldl name_step (d, cur) s = (d ++ (scan_names s).1, (scan_names s).2).
Proof.
  intros ->. unfold scan_names. induction s as [|c s IH] using rev_ind; [by rewrite app_nil_r|].
  rewrite !foldl_app, IH. cbn [foldl]. destruct (foldl name_step ([], []) s) as [d' cur']. unfold name_step. cbn [fst snd].
  destruct (c =? SLASH); [|done]. case_decide; [done|]. cbn [fst snd]. by rewrite app_assoc.
Qed.

Lemma names_slash_mid s t : names (s ++ SLASH :: t) = names s ++ names t.
Proof.
  unfold names at 1 2. unfold scan_names at 1. rewrite foldl_app. cbn [foldl]. fold (scan_names s).
  assert (name_step (scan_names s) SLASH = (close_name (scan_names s), [])) as ->.
  { unfold name_step, close_name. cbn. destruct (scan_names s) as [d cur]. cbn. by case_decide; subst. }
  rewrite scan_shift by done. unfold names. generalize (close_name (scan_names s)) as d0. intros d0.
  destruct (scan_names t) as [d cur]. unfold close_name. cbn [fst snd]. case_decide; [done|]. by rewrite app_assoc.
Qed.

Lemma names_slash s : names (s ++ [SLASH]) = names s.
Proof. by rewrite names_slash_mid, app_nil_r. Qed.

(** What has been read so far, and the text's names. *)
Lemma scan_snoc s c : scan_names (s ++ [c]) = name_step (scan_names s) c.
Proof. unfold scan_names. by rewrite foldl_app. Qed.

Lemma ends_slash_snoc s : ends_slash s = true → ∃ t, s = t ++ [SLASH].
Proof.
  unfold ends_slash. destruct s as [|c s _] using rev_ind; [done|]. rewrite last_snoc.
  intros ->%Z.eqb_eq. by exists s.
Qed.

Lemma strip_rev_spec t : t ≠ [] → ∃ k u, t = replicate k SLASH ++ u ∧ strip_rev t = u ∧ u ≠ [].
Proof.
  induction t as [|c t IH]; [done|]. intros _. destruct t as [|d t]; [by exists 0%nat, [c]|].
  change (strip_rev (c :: d :: t)) with (if c =? SLASH then strip_rev (d :: t) else c :: d :: t).
  destruct (Z.eqb_spec c SLASH) as [->|]; [|by exists 0%nat, (c :: d :: t)].
  destruct IH as (k & u & E & Eu & Hu); [done|]. exists (S k), u. cbn [replicate app]. by rewrite <- E.
Qed.

Lemma strip_slashes_spec s : s ≠ [] → ∃ k, s = strip_slashes s ++ replicate k SLASH ∧ strip_slashes s ≠ [].
Proof.
  intros Hs. destruct (strip_rev_spec (rev s)) as (k & u & E & Eu & Hu).
  { intros H. apply Hs. by rewrite <- (rev_involutive s), H. }
  exists k. unfold strip_slashes. rewrite Eu. split.
  - rewrite <- (rev_involutive s), E, rev_app_distr. f_equal.
    clear. induction k as [|k IH]; [done|]. cbn [replicate rev]. rewrite IH. symmetry. apply (replicate_S_end k).
  - intros H. apply Hu. by rewrite <- (rev_involutive u), H.
Qed.

Lemma names_replicate s k : names (s ++ replicate k SLASH) = names s.
Proof.
  induction k as [|k IH]; [by rewrite app_nil_r|]. by rewrite replicate_S_end, app_assoc, names_slash.
Qed.

(** ** Directories *)

Section directories.
  Context (cwd : fpath) (allowed : fpath → bool).

Lemma dir_above_snoc q x : dir_above (q ++ [x]) = q.
Proof. unfold dir_above. rewrite length_app. cbn [length]. by rewrite Nat.add_sub, take_app_length. Qed.

Lemma fs_ok_prefix f q r : fs_ok f → f !! r = Some FDir → q `prefix_of` r → f !! q = Some FDir.
Proof.
  intros [_ Hok] Hr [k ->]. revert Hr. induction k as [|x k IH] using rev_ind; [by rewrite app_nil_r|].
  rewrite app_assoc. intros Hr. apply IH, (Hok _ x). by eexists.
Qed.

Lemma made_refl f target : fs_ok f → made allowed f f target.
Proof. intros Hok. split; [done|done|]. intros q E [n Hn]. congruence. Qed.

(** A new directory in a directory on the way. *)
Lemma made_insert f0 f target q x :
  made allowed f0 f target → f !! (q ++ [x]) = None → f !! q = Some FDir → allowed (q ++ [x]) = true → q ++ [x] `prefix_of` target →
  made allowed f0 (<[q ++ [x] := FDir]> f) target.
Proof.
  intros [Hsub [Hroot Hok] Hnew] Hn Hq Ha Hp. split.
  - etransitivity; [exact Hsub|]. by apply insert_subseteq.
  - split; [rewrite lookup_insert_ne; [done|by destruct q]|]. intros r y Hr.
    destruct (decide (r ++ [y] = q ++ [x])) as [[-> ->]%app_inj_tail|Hne].
    + rewrite lookup_insert_ne; [done|]. intros E. apply (f_equal length) in E. rewrite length_app in E. cbn in E. lia.
    + rewrite lookup_insert_ne in Hr by done. specialize (Hok r y Hr).
      rewrite lookup_insert_ne; [done|]. intros <-. congruence.
  - intros r Hr Hs. destruct (decide (r = q ++ [x])) as [->|Hne].
    + split_and!; [done|done|apply lookup_insert_eq].
    + rewrite lookup_insert_ne in * by done. by apply Hnew.
Qed.

Lemma is_directory_of f s n : s ≠ [] → f !! resolve cwd s = Some n → fs_is_directory cwd f (Some s) = bool_decide (n = FDir).
Proof.
  intros Hs E. unfold fs_is_directory. replace (stat cwd f s) with
    (n ← f !! resolve cwd s; if ends_slash s && negb (bool_decide (n = FDir)) then None else Some n) by by destruct s.
  rewrite E. cbn [mbind option_bind]. by destruct n, (ends_slash s).
Qed.

Lemma mkdir_nonempty f s :
  s ≠ [] →
  mkdir cwd allowed f s =
    let q := resolve cwd s in
    match f !! q with
    | Some _ => (Some EEXIST, f)
    | None => if bool_decide (f !! dir_above q = Some FDir) && allowed q then (None, <[q := FDir]> f) else (Some EOTHER, f)
    end.
Proof. by destruct s. Qed.

Lemma mkdir_one_spec f0 f target pre d cur :
  pre ≠ [] → scan_names pre = (d, cur) → f !! (base_of cwd pre ++ d) = Some FDir →
  made allowed f0 f target → resolve cwd pre `prefix_of` target →
  match mkdir_one cwd allowed f pre with
  | (true, f') => made allowed f0 f' target ∧ f' !! resolve cwd pre = Some FDir
  | (false, f') => made allowed f0 f' target ∧ ¬ can_pass allowed f0 (resolve cwd pre)
  end.
Proof.
  intros Hpre Hscan Hd Hm Hp. unfold mkdir_one. rewrite mkdir_nonempty by done. cbn zeta.
  destruct (f !! resolve cwd pre) as [n|] eqn:Eq.
  - rewrite (is_directory_of f pre n) by done.
    case_bool_decide as Hn; [by subst n|]. split; [done|]. intros [H|[H _]].
    + pose proof (lookup_weaken _ _ _ _ H (made_sub _ _ _ _ Hm)). congruence.
    + pose proof (made_new _ _ _ _ Hm _ H) as Hx. rewrite Eq in Hx. destruct Hx as (_ & _ & Hx); [by eexists|congruence].
  - unfold resolve, names, close_name in *. rewrite Hscan in *. cbn [fst snd] in *.
    case_decide as Hc; [congruence|]. rewrite app_assoc in *. rewrite dir_above_snoc, bool_decide_eq_true_2 by done. cbn [andb].
    destruct (allowed _) eqn:Ha; [split; [by apply made_insert|apply lookup_insert_eq]|]. split; [done|]. intros [H|[_ H]]; [|congruence].
    pose proof (lookup_weaken _ _ _ _ H (made_sub _ _ _ _ Hm)). congruence.
Qed.

Lemma base_of_app pre c : pre ≠ [] → base_of cwd (pre ++ [c]) = base_of cwd pre.
Proof. by destruct pre. Qed.

Lemma mkdir_loop_spec f0 target pre rest f d cur :
  pre ≠ [] → scan_names pre = (d, cur) → f !! (base_of cwd pre ++ d) = Some FDir → resolve cwd (pre ++ rest) = target →
  made allowed f0 f target →
  match mkdir_loop cwd allowed pre rest f with
  | (true, f') => made allowed f0 f' target ∧ f' !! target = Some FDir
  | (false, f') => made allowed f0 f' target ∧ ∃ q, q `prefix_of` target ∧ ¬ can_pass allowed f0 q
  end.
Proof.
  revert pre f d cur. induction rest as [|c rest IH]; intros pre f d cur Hpre Hscan Hd Ht Hm; cbn [mkdir_loop].
  - rewrite app_nil_r in Ht. pose proof (mkdir_one_spec f0 f target pre d cur Hpre Hscan Hd Hm) as H. rewrite Ht in H.
    specialize (H ltac:(done)). destruct (mkdir_one _ _ _ _) as [[] f']; [done|]. destruct H. eauto.
  - replace (pre ++ c :: rest) with ((pre ++ [c]) ++ rest) in Ht by by rewrite <- app_assoc.
    assert (pre ++ [c] ≠ []) as Hpre' by by destruct pre. destruct (Z.eqb_spec c SLASH) as [->|Hc].
    + assert (resolve cwd pre `prefix_of` target) as Hp.
      { subst target. unfold resolve. rewrite <- app_assoc. cbn [app]. rewrite names_slash_mid.
        destruct pre; [done|]. exists (names rest). by rewrite app_assoc. }
      pose proof (mkdir_one_spec f0 f target pre d cur Hpre Hscan Hd Hm Hp) as H.
      destruct (mkdir_one _ _ _ _) as [[] f']; [|destruct H; eauto]. destruct H as [Hm' Hq].
      apply (IH _ f' (names pre) []); [done| | |done|done].
      * rewrite scan_snoc. unfold name_step, names, close_name. cbn. destruct (scan_names pre) as [d' cur']. cbn. by case_decide; subst.
      * by rewrite base_of_app.
    + apply (IH _ f d (cur ++ [c])); [done| | |done|done].
      * rewrite scan_snoc, Hscan. unfold name_step. cbn [fst snd]. by rewrite (proj2 (Z.eqb_neq c SLASH)).
      * by rewrite base_of_app.
Qed.
End directories.

(** C20. Creating a directory with its parents: it succeeds exactly if every directory on
    the way exists or may be created, however the path is written (repeated and trailing
    slashes, relative paths); then the path is a directory.  In any case nothing that
    existed is changed, every new node is a directory on the way, and every node is in a
    directory. *)
Theorem mkdir_recursive_correct (cwd : fpath) (allowed : fpath → bool) (f : fs_map) (path : list Z) :
  fs_ok f → f !! cwd = Some FDir → path ≠ [] →
  let '(ok, f') := fs_create_directory_recursive cwd allowed true f (Some path) in
  let target := resolve cwd path in
  made allowed f f' target ∧
  (ok = true ↔ ∀ q, q `prefix_of` target → can_pass allowed f q) ∧
  (ok = true → f' !! target = Some FDir).
Proof.
  intros Hok Hcwd Hp. unfold fs_create_directory_recursive. destruct path as [|p0 path0]; [done|]. remember (p0 :: path0) as path eqn:Epath.
  destruct (strip_slashes_spec path Hp) as (k & Ek & Hs). remember (strip_slashes path) as tmp eqn:Etmp. clear Etmp.
  assert (resolve cwd tmp = resolve cwd path) as Et.
  { rewrite Ek. unfold resolve. rewrite names_replicate. f_equal. clear -Hs. by destruct tmp. }
  destruct tmp as [|c tmp]; [done|]. cbn [take drop].
  pose proof (mkdir_loop_spec cwd allowed f (resolve cwd path) [c] tmp f) as H.
  destruct (scan_names [c]) as [d cur] eqn:Ed. specialize (H d cur ltac:(done) eq_refl).
  assert (d = []) as -> by (unfold scan_names in Ed; cbn in Ed; unfold name_step in Ed; cbn in Ed; destruct (c =? SLASH); by injection Ed).
  rewrite app_nil_r in H. cbn [app] in H.
  assert (f !! base_of cwd [c] = Some FDir) as Hb by (unfold base_of; destruct (absolute [c]); [apply Hok|done]).
  specialize (H Hb Et (made_refl allowed f _ Hok)).
  destruct (mkdir_loop _ _ _ _ _) as [[] f'].
  - destruct H as [Hm Hd]. split_and!; [done| |done]. split; [|done]. intros _ q Hq.
    pose proof (fs_ok_prefix f' q _ (made_ok _ _ _ _ Hm) Hd Hq) as Hd'. destruct (f !! q) as [n|] eqn:En.
    + left. pose proof (lookup_weaken _ _ _ _ En (made_sub _ _ _ _ Hm)). congruence.
    + right. split; [done|]. destruct (made_new _ _ _ _ Hm q En) as (_ & Ha & _); [by eexists|done].
  - destruct H as [Hm (q & Hq & Hn)]. split_and!; [done| |done]. split; [done|]. intros H. by destruct Hn; apply H.
Qed.

(** A working directory with a file in it: a path through new directories, and one
    through the file. *)
Definition fs_ex : fs_map := {[ [] := FDir; [[119]] := FDir; [[119]; [102]] := FFile [1; 2] ]}.

Lemma fs_ex_ok : fs_ok fs_ex.
Proof.
  split; [done|]. intros q x [n H]. unfold fs_ex in H.
  apply lookup_insert_Some in H as [[E _]|[_ H]]; [by destruct q|].
  apply lookup_insert_Some in H as [[E _]|[_ H]]; [|apply lookup_singleton_Some in H as [E _]].
  - apply (app_inj_tail [] q) in E as [<- _]. done.
  - apply (app_inj_tail [[119]] q) in E as [<- _]. done.
Qed.

Lemma mkdir_recursive_correct_witness :
  let run path := fs_create_directory_recursive [[119]] (λ _, true) true fs_ex (Some path) in
  (run [97; 47; 47; 98; 47]).1 = true ∧ (run [97; 47; 47; 98; 47]).2 !! [[119]; [97]; [98]] = Some FDir ∧
  (run [102; 47; 98]).1 = false ∧ made (λ _, true) fs_ex (run [102; 47; 98]).2 [[119]; [102]; [98]].
Proof.
  intros run.
  pose proof (mkdir_recursive_correct [[119]] (λ _, true) fs_ex [97; 47; 47; 98; 47] fs_ex_ok eq_refl ltac:(done)) as H1.
  pose proof (mkdir_recursive_correct [[119]] (λ _, true) fs_ex [102; 47; 98] fs_ex_ok eq_refl ltac:(done)) as H2.
  split_and!; [vm_compute; reflexivity| |vm_compute; reflexivity|].
  - destruct H1 as (_ & _ & H1). apply H1. vm_compute. reflexivity.
  - destruct H2 as (H2 & _). exact H2.
Defined.

(** ** Joining paths *)

(** Joining has room for the whole text, and the path means the leaf's names below the
    base, with or without a slash between them. *)
Theorem path_join_resolves (cwd : fpath) (b l : list Z) :
  ∃ p, fs_path_join true (Some b) (Some l) = Some p ∧ names p = names b ++ names l ∧
    (b ≠ [] → resolve cwd p = resolve cwd b ++ names l) ∧ (b = [] → p = l) ∧
    (ends_slash b = false → b ≠ [] → p = b ++ SLASH :: l).
Proof.
  unfold fs_path_join. eexists. split; [done|].
  rewrite take_ge by (rewrite !length_app; destruct ((0 <? length b)%nat && negb (ends_slash b)); cbn; lia).
  destruct (decide (b = [])) as [->|Hb]; [by cbn|].
  rewrite (proj2 (Nat.ltb_lt 0 (length b))) by (destruct b; [done|cbn; lia]). cbn [andb].
  assert (∀ t, base_of cwd (b ++ t) = base_of cwd b) as Hbase by by destruct b.
  destruct (ends_slash b) eqn:Ee; cbn [negb app].
  - destruct (ends_slash_snoc b Ee) as [b' Eb].
    assert (names (b ++ l) = names b ++ names l) as Hn.
    { rewrite Eb, <- app_assoc. cbn [app]. by rewrite names_slash_mid, names_slash. }
    split_and!; [done| |done|done]. intros _. unfold resolve. by rewrite Hbase, Hn, app_assoc.
  - rewrite names_slash_mid. split_and!; [done| |done|done]. intros _. unfold resolve. by rewrite Hbase, names_slash_mid, app_assoc.
Qed.

(** ** Reading and writing *)

(** A write that reports success is read back byte for byte; one that fails after the
    file was opened has already lost what the file held. *)
Theorem file_roundtrip (cwd : fpath) (allowed : fpath → bool) (f : fs_map) (path data : list Z) (wr : nat) (flushed : bool) :
  let '(ok, f') := fs_write_buffer_to_file cwd allowed f (Some path) (Some data) (length data) wr flushed in
  (ok = true → fs_read_file_to_buffer cwd f' (Some path) true (length data) = Some data ∧
     ∀ q, q ≠ resolve cwd path → f' !! q = f !! q) ∧
  (∀ old, f !! resolve cwd path = Some (FFile old) → path ≠ [] → ends_slash path = false → (wr < length data)%nat →
     ok = false ∧ f' !! resolve cwd path = Some (FFile (take wr data))).
Proof.
  unfold fs_write_buffer_to_file. rewrite bool_decide_eq_false_2 by done. cbn [andb]. change (default [] (Some data)) with data.
  destruct (_ && negb (ends_slash path) && bool_decide (path ≠ [])) eqn:E.
  - apply andb_true_iff in E as [[_ E1]%andb_true_iff E2%bool_decide_eq_true]. apply negb_true_iff in E1.
    rewrite (take_ge data (length data)) by done. split.
    + intros [->%Nat.eqb_eq _]%andb_true_iff. split; [|intros q Hq; by rewrite lookup_insert_ne].
      rewrite (take_ge data (length data)) by done. unfold fs_read_file_to_buffer.
      replace (stat cwd _ path) with (Some (FFile data)); [by rewrite Nat.eqb_refl, take_ge|].
      unfold stat. rewrite E1. destruct path; [done|]. by rewrite lookup_insert_eq.
    + intros old Ho _ _ Hlt. rewrite (proj2 (Nat.eqb_neq wr (length data))) by lia. by rewrite lookup_insert_eq.
  - split; [done|]. intros old Ho Hp He _. rewrite Ho, He, bool_decide_eq_true_2 in E by done. done.
Qed.
