(* ===== verification/Errors.v ===== *)
(** * Error texts ([src/utils/errors.c], [errors.h])

    The families of error codes with their ranges and texts, and the function that
    finds the family of a code. *)

From Stdlib Require Import ZArith Lia Bool.
From stdpp Require Import base list numbers strings.
From S2P Require Import Prelude Lmdb.

Local Open Scope Z_scope.

Definition PO_EBASE : Z := 1000.
Definition INIH_EBASE : Z := PO_EBASE.
Definition INIH_ETOP : Z := INIH_EBASE + 13.
Definition DB_ETOP : Z := DB_EBASE + 23.
Definition PERF_EBASE : Z := PO_EBASE + 300.
Definition PERF_ETOP : Z := PERF_EBASE + 9.
Definition NET_EBASE : Z := PO_EBASE + 400.
Definition NET_ETOP : Z := NET_EBASE + 14.
Definition ZCP_EBASE : Z := PO_EBASE + 500.
Definition ZCP_ETOP : Z := ZCP_EBASE + 4.

(** A [switch] over codes. *)
Definition text_switch (cases : list (Z * string)) (other : string) (err : Z) : string :=
  match list_find (λ e, e.1 = err) cases with Some (_, (_, text)) => text | None => other end.

Definition inih_strerror : Z → string := text_switch
  [(0, "No error"); (INIH_EBASE + 1, "No section found"); (INIH_EBASE + 2, "No key found"); (INIH_EBASE + 3, "No value found");
   (INIH_EBASE + 4, "Invalid value"); (INIH_EBASE + 5, "Generic error"); (INIH_EBASE + 6, "Syntax error");
   (INIH_EBASE + 7, "Duplicate section"); (INIH_EBASE + 8, "Duplicate key"); (INIH_EBASE + 9, "Unknown key");
   (INIH_EBASE + 10, "Unknown section"); (INIH_EBASE + 11, "Key or section not found");
   (INIH_EBASE + 12, "No user provided for handler"); (INIH_EBASE + 13, "Value out of range")]%string
  "Unknown inih error code".

Definition lmdb_strerror : Z → string := text_switch
  [(0, "No error"); (DB_EBASE + 1, "Key already exists"); (DB_EBASE + 2, "Key not found"); (DB_EBASE + 3, "Page not found");
   (DB_EBASE + 4, "Database corrupted"); (DB_EBASE + 5, "Environment panic"); (DB_EBASE + 6, "Version mismatch");
   (DB_EBASE + 7, "Invalid handle"); (DB_EBASE + 8, "Map full"); (DB_EBASE + 9, "Database full"); (DB_EBASE + 10, "Readers full");
   (DB_EBASE + 11, "Transaction full"); (DB_EBASE + 12, "Cursor full"); (DB_EBASE + 13, "Page full"); (DB_EBASE + 14, "Map resized");
   (DB_EBASE + 15, "Incompatible environment"); (DB_EBASE + 16, "Bad reader slot"); (DB_EBASE + 17, "Bad transaction");
   (DB_EBASE + 18, "Bad value size"); (DB_EBASE + 19, "Bad database identifier"); (DB_EBASE + 20, "Cursor uninitialized");
   (DB_EBASE + 21, "Cursor thread mismatch"); (DB_EBASE + 22, "Transaction read-only"); (DB_EBASE + 23, "Illegal access")]%string
  "Unknown error code".

Definition perf_strerror : Z → string := text_switch
  [(0, "No error"); (PERF_EBASE + 5, "Invalid argument"); (PERF_EBASE + 2, "Counter not found"); (PERF_EBASE + 3, "Timer not found");
   (PERF_EBASE + 4, "Histogram not found"); (PERF_EBASE + 1, "Already initialized");
   (PERF_EBASE + 6, "Performance subsystem not initialized")]%string
  "Unknown performance error code".

Definition net_strerror : Z → string := text_switch
  [(0, "No error"); (NET_EBASE + 1, "Invalid argument"); (NET_EBASE + 2, "No space left on device"); (NET_EBASE + 3, "Message too long");
   (NET_EBASE + 4, "Socket error"); (NET_EBASE + 5, "Operation timed out"); (NET_EBASE + 6, "Protocol version mismatch");
   (NET_EBASE + 7, "Resource temporarily unavailable"); (NET_EBASE + 8, "Socket is not connected"); (NET_EBASE + 9, "Connection refused");
   (NET_EBASE + 10, "Protocol error"); (NET_EBASE + 11, "Protocol not supported"); (NET_EBASE + 12, "Network already initialized or in use");
   (NET_EBASE + 13, "No such file or directory"); (NET_EBASE + 14, "I/O error")]%string
  "Unknown network error code".

Definition zcp_strerror : Z → string := text_switch
  [(ZCP_EBASE + 0, "No error"); (ZCP_EBASE + 1, "Invalid argument"); (ZCP_EBASE + 2, "Out of memory"); (ZCP_EBASE + 3, "Resource temporarily unavailable");
   (ZCP_EBASE + 4, "Memory mapping failed")]%string
  "Unknown zero-copy pool error code".

Definition BETWEEN (x base top : Z) : bool := (base <=? x) && (x <=? top).

(** [strerror] is the function of the system. *)
Definition po_strerror (strerror : Z → string) (err : Z) : string :=
  if BETWEEN err DB_EBASE DB_ETOP then lmdb_strerror err
  else if BETWEEN err INIH_EBASE INIH_ETOP then inih_strerror err
  else if BETWEEN err PERF_EBASE PERF_ETOP then perf_strerror err
  else if BETWEEN err NET_EBASE NET_ETOP then net_strerror err
  else if BETWEEN err ZCP_EBASE ZCP_ETOP then zcp_strerror err
  else strerror err.

(** ** Properties *)

Record family : Type := mk_family { fam_base : Z; fam_top : Z; fam_text : Z → string; fam_other : string }.
Definition families : list family :=
  [mk_family DB_EBASE DB_ETOP lmdb_strerror "Unknown error code"; mk_family INIH_EBASE INIH_ETOP inih_strerror "Unknown inih error code";
   mk_family PERF_EBASE PERF_ETOP perf_strerror "Unknown performance error code";
   mk_family NET_EBASE NET_ETOP net_strerror "Unknown network error code";
   mk_family ZCP_EBASE ZCP_ETOP zcp_strerror "Unknown zero-copy pool error code"].

(** Three codes of the performance counters. *)
Definition untold : list Z := [PERF_EBASE + 7; PERF_EBASE + 8; PERF_EBASE + 9].

(** The codes of a family, and the test of everything that is said about it. *)
Definition codes (f : family) : list Z := seqZ (fam_base f + 1) (fam_top f - fam_base f).
Definition family_test (f : family) : bool :=
  forallb (λ a, eqb (bool_decide (fam_text f a = fam_other f)) (bool_decide (a ∈ untold))) (codes f) &&
  forallb (λ a, forallb (λ b, bool_decide (a = b) || bool_decide (a ∈ untold) || negb (bool_decide (fam_text f a = fam_text f b))) (codes f)) (codes f).

Lemma family_tests : Forall (λ f, family_test f = true) families.
Proof. repeat constructor. Qed.

Lemma between_in x base top : base <= x <= top → BETWEEN x base top = true.
Proof. intros H. apply andb_true_iff. split; apply Z.leb_le; lia. Qed.
Lemma between_out x base top : x < base ∨ top < x → BETWEEN x base top = false.
Proof. intros H. apply andb_false_iff. destruct H; [left|right]; apply Z.leb_gt; lia. Qed.

Ltac find_family := unfold DB_ETOP, DB_EBASE, INIH_ETOP, INIH_EBASE, PERF_ETOP, PERF_EBASE, NET_ETOP, NET_EBASE, ZCP_ETOP, ZCP_EBASE, PO_EBASE in *;
  repeat first [rewrite between_out by lia|rewrite between_in by lia].

Lemma po_strerror_family strerror f err : f ∈ families → fam_base f <= err <= fam_top f → po_strerror strerror err = fam_text f err.
Proof.
  unfold families, po_strerror. rewrite !elem_of_cons, elem_of_nil. intros Hf Herr.
  destruct Hf as [-> |[-> |[-> |[-> |[-> |[]]]]]]; cbn [fam_base fam_top fam_text] in *; by find_family.
Qed.

(** Every code of a family has a text of its own, told apart from the text for unknown
    codes and from those of the other codes of the family - but for three codes of the
    performance counters, which are reported as unknown; every other number is left to
    the system. *)
Theorem error_texts (strerror : Z → string) :
  (∀ f a, f ∈ families → fam_base f < a <= fam_top f → (po_strerror strerror a = fam_other f ↔ a ∈ untold)) ∧
  (∀ f a b, f ∈ families → fam_base f < a <= fam_top f → fam_base f < b <= fam_top f → a ∉ untold →
     po_strerror strerror a = po_strerror strerror b → a = b) ∧
  (∀ err, Forall (λ f, err < fam_base f ∨ fam_top f < err) families → po_strerror strerror err = strerror err).
Proof.
  assert (∀ f, f ∈ families → family_test f = true) as Ht by (apply list.Forall_forall, family_tests). split_and!.
  - intros f a Hf Ha. rewrite (po_strerror_family strerror f) by (done || lia). specialize (Ht f Hf). apply andb_true_iff in Ht as [Ht _].
    rewrite forallb_forall in Ht. assert (In a (codes f)) as Hin by (apply list_elem_of_In, elem_of_seqZ; lia).
    specialize (Ht a Hin). apply eqb_prop in Ht. by rewrite <- (bool_decide_eq_true (fam_text f a = fam_other f)), Ht, bool_decide_eq_true.
  - intros f a b Hf Ha Hb Hu. rewrite !(po_strerror_family strerror f) by (done || lia). intros E.
    specialize (Ht f Hf). apply andb_true_iff in Ht as [_ Ht]. rewrite forallb_forall in Ht.
    assert (In a (codes f)) as Hin by (apply list_elem_of_In, elem_of_seqZ; lia). specialize (Ht a Hin). rewrite forallb_forall in Ht.
    assert (In b (codes f)) as Hin' by (apply list_elem_of_In, elem_of_seqZ; lia). specialize (Ht b Hin').
    apply orb_true_iff in Ht as [[H%bool_decide_eq_true|H%bool_decide_eq_true]%orb_true_iff|H]; [done|done|].
    apply negb_true_iff, bool_decide_eq_false in H. done.
  - intros err H. unfold families in H. rewrite !Forall_cons in H. cbn [fam_base fam_top] in H. destruct H as (H1 & H2 & H3 & H4 & H5 & _).
    unfold po_strerror. by find_family.
Qed.
