(* ===== verification/Sysinfo.v ===== *)
(** * System information ([libs/ring1/postoffice/sysinfo])

    What the program learns of its machine: texts of the kernel, scanned as the source
    scans them, and values of system calls, which are inputs.  A percentage is a
    fraction that stands for its value times 100, and a decimal number a fraction of a
    power of ten; neither is rounded to a [double].  [None] is the value -1.0. *)

From Stdlib Require Import ZArith Lia String.
From stdpp Require Import base list numbers.
From S2P Require Import Prelude Cstring LoggerFormat Ini Configs ConfigSave Orchestration.

Local Open Scope Z_scope.

(** ** Scanning *)

(** [while (fgets(line, n, f))]; each call consumes at least one byte. *)
Fixpoint lines_of (fuel n : nat) (s : list Z) : list (list Z) :=
  match fuel, fgets n s with
  | S fuel, Some (l, rest) => l :: lines_of fuel n rest
  | _, _ => []
  end.
Definition file_lines (n : nat) (s : list Z) : list (list Z) := lines_of (length s) n s.

Definition has_prefix (p : string) (s : list Z) : bool := strncmp (length (str p)) s (str p) =? 0.

Fixpoint after_colon (s : list Z) : option (list Z) :=
  match s with [] => None | c :: s => if c =? 58 then Some s else after_colon s end.

(** [%ld] *)
Definition scan_ld (s : list Z) : option Z :=
  let '(v, rest) := strtol s in if bool_decide (rest = s) then None else Some v.

(** [%llu]: the value, clamped, and what is left. *)
Definition ULLONG_MAX : Z := 2 ^ 64 - 1.
Definition scan_ull (s : list Z) : option (Z * list Z) :=
  let s1 := ini_lskip s in
  let '(neg, s2) := match s1 with
                    | c :: s' => if c =? 45 then (true, s') else if c =? 43 then (false, s') else (false, s1)
                    | [] => (false, []) end in
  let '(n, any, rest) := read_digits s2 0 false in
  if any : bool then Some (if ULLONG_MAX <? n then ULLONG_MAX else u64 (if neg : bool then - n else n), rest) else None.

(** Up to [k] numbers, as many as there are. *)
Fixpoint scan_ulls (k : nat) (s : list Z) : list Z :=
  match k with
  | O => []
  | S k => match scan_ull s with Some (v, rest) => v :: scan_ulls k rest | None => [] end
  end.

(** [%<w>s]: blanks, then at most [w] characters up to the next blank. *)
Fixpoint word_of (w : nat) (s : list Z) : list Z * list Z :=
  match w, s with
  | S w, c :: s' => if isspace c then ([], s) else let '(x, rest) := word_of w s' in (c :: x, rest)
  | _, _ => ([], s)
  end.
Definition scan_word (w : nat) (s : list Z) : option (list Z * list Z) :=
  let '(x, rest) := word_of w (ini_lskip s) in if decide (x = []) then None else Some (x, rest).

(** ** Processors ([load_cpuinfo]) *)

Fixpoint find_cores (lines : list (list Z)) : Z :=
  match lines with
  | [] => 0
  | l :: lines =>
      if has_prefix "cpu cores" l then
        match after_colon l with
        | Some s => let v := atoi s in if 0 <? v then v else find_cores lines
        | None => find_cores lines
        end
      else find_cores lines
  end.

Fixpoint skip_spaces (s : list Z) : list Z :=
  match s with c :: s' => if c =? 32 then skip_spaces s' else s | [] => [] end.
Definition drop_newline (s : list Z) : list Z :=
  match list.last s with Some c => if c =? NL then take (length s - 1) s else s | None => s end.

(** The value behind the colon, cut to an array of [size] characters. *)
Definition colon_value (size : nat) (line : list Z) : option (list Z) :=
  val ← after_colon line; Some (take (size - 1) (drop_newline (skip_spaces val))).

(** The loop ends when both values are found. *)
Fixpoint find_names (lines : list (list Z)) (vendor brand : option (list Z)) : option (list Z) * option (list Z) :=
  match lines with
  | [] => (vendor, brand)
  | l :: lines =>
      match vendor, brand with
      | Some _, Some _ => (vendor, brand)
      | _, _ =>
          if bool_decide (vendor = None) && has_prefix "vendor_id" l then find_names lines (colon_value 64 l) brand
          else if bool_decide (brand = None) && has_prefix "model name" l then find_names lines vendor (colon_value 256 l)
          else find_names lines vendor brand
      end
  end.

Record cpu_part : Type := mk_cpu {
  logical_processors : Z; physical_cores : Z;
  cache_sizes : list Z;                       (* cache_l1, dcache_l1, dcache_lnsize, cache_l2, cache_l3 *)
  cpu_vendor : list Z; cpu_brand : list Z
}.

(** [sysconf_cpus] and [sysconf_caches] are the values of [sysconf]. *)
Definition load_cpuinfo (sysconf_cpus : Z) (sysconf_caches : list Z) (cpuinfo : option (list Z)) : cpu_part :=
  let lp := if sysconf_cpus <? 1 then 1 else sysconf_cpus in
  let lines := match cpuinfo with Some s => file_lines 512 s | None => [] end in
  let phys := find_cores lines in
  let phys := if phys <=? 0 then i32 lp else phys in
  let '(vendor, brand) := find_names lines None None in
  mk_cpu lp phys sysconf_caches (default [] vendor) (default [] brand).

(** ** Memory *)

Definition parse_meminfo_value_kb_to_bytes (kb : Z) : option Z :=
  if kb <? 0 then Some (-1) else if kb * 1024 <? 2 ^ 63 then Some (kb * 1024) else None.

(** [%63[^:]]: at most [n] characters other than a colon. *)
Fixpoint until_colon (n : nat) (s : list Z) : list Z * list Z :=
  match n, s with
  | S n, c :: s' => if c =? 58 then ([], s) else let '(k, rest) := until_colon n s' in (c :: k, rest)
  | _, _ => ([], s)
  end.
Definition scan_meminfo (line : list Z) : option (list Z * Z) :=
  let '(key, rest) := until_colon 63 line in
  if decide (key = []) then None
  else match rest with
       | c :: rest => if c =? 58 then v ← scan_ld rest; Some (key, v) else None
       | [] => None
       end.

Record mem_kb : Type := mk_kb { total_kb : Z; free_kb : Z; swap_total_kb : Z; swap_free_kb : Z }.
Definition mem_entry (m : mem_kb) (e : list Z * Z) : mem_kb :=
  let '(key, val) := e in
  if strcmp key (str "MemTotal") =? 0 then mk_kb val (free_kb m) (swap_total_kb m) (swap_free_kb m)
  else if strcmp key (str "MemFree") =? 0 then mk_kb (total_kb m) val (swap_total_kb m) (swap_free_kb m)
  else if strcmp key (str "SwapTotal") =? 0 then mk_kb (total_kb m) (free_kb m) val (swap_free_kb m)
  else if strcmp key (str "SwapFree") =? 0 then mk_kb (total_kb m) (free_kb m) (swap_total_kb m) val
  else m.
Definition mem_none : mem_kb := mk_kb (-1) (-1) (-1) (-1).
Definition read_meminfo_values (meminfo : option (list Z)) : option mem_kb :=
  match meminfo with
  | None => None
  | Some s => Some (foldl (λ m l, match scan_meminfo l with Some e => mem_entry m e | None => m end) mem_none (file_lines 256 s))
  end.

(** *** Huge pages ([hugeinfo.c]); a directory is the list of its names *)

Definition read_long (file : option (list Z)) : option Z :=
  match file with None | Some [] => None | Some content => scan_ld (take 63 content) end.

Definition hugepage_size (d_name : list Z) : option Z :=
  if has_prefix "hugepages-" d_name then fst <$> scan_ull (drop 10 d_name) else None.
Definition list_hugepage_sizes (names : option (list (list Z))) (max : nat) : option (list Z) :=
  match names with Some l => Some (take max (omap hugepage_size l)) | None => None end.

Record po_hugepage_info_t : Type := mk_huge { size_kB : Z; hp_nr : Z; hp_free : Z; hp_overcommit : Z; hp_surplus : Z; hp_reserved : Z }.

(** [file size name] is the content of a file of the directory of a size. *)
Definition get_hugepage_info (file : Z → string → option (list Z)) (size : Z) : option po_hugepage_info_t :=
  nr ← read_long (file size "nr_hugepages"%string);
  free ← read_long (file size "free_hugepages"%string);
  over ← read_long (file size "nr_overcommit_hugepages"%string);
  surplus ← read_long (file size "surplus_hugepages"%string);
  resv ← read_long (file size "resv_hugepages"%string);
  Some (mk_huge size nr free over surplus resv).

Definition huge_none : po_hugepage_info_t := mk_huge 0 0 0 0 0 0.
Definition better_huge (file : Z → string → option (list Z)) (best : po_hugepage_info_t) (size : Z) : po_hugepage_info_t :=
  match get_hugepage_info file size with
  | Some h => if size_kB best <? size_kB h then h else best
  | None => best
  end.
Definition best_huge (names : option (list (list Z))) (file : Z → string → option (list Z)) : po_hugepage_info_t :=
  match list_hugepage_sizes names 8 with
  | Some sizes => foldl (better_huge file) huge_none sizes
  | None => huge_none
  end.

Record mem_part : Type := mk_mem {
  total_ram : Z; free_ram : Z; swap_total : Z; swap_free : Z; page_size : Z; hugepage_info : po_hugepage_info_t
}.

(** The outer [None] is an overflow, the inner one the result -1. *)
Definition load_memoryinfo (meminfo : option (list Z)) (page : Z) (names : option (list (list Z)))
    (file : Z → string → option (list Z)) : option (option mem_part) :=
  match read_meminfo_values meminfo with
  | None => Some None
  | Some m =>
      if (total_kb m <? 0) || (free_kb m <? 0) then Some None
      else
        total ← parse_meminfo_value_kb_to_bytes (total_kb m);
        free ← parse_meminfo_value_kb_to_bytes (free_kb m);
        st ← parse_meminfo_value_kb_to_bytes (swap_total_kb m);
        sf ← parse_meminfo_value_kb_to_bytes (swap_free_kb m);
        Some (Some (mk_mem total free st sf page (best_huge names file)))
  end.

(** ** Limits, file system, network, kernel *)

Definition load_resource_limits (nofile nproc stack : option Z) : option (Z * Z * Z) :=
  a ← nofile; b ← nproc; c ← stack; Some (a, b, c).

Definition free_disk_space (statvfs : option (Z * Z)) : Z :=
  match statvfs with Some (f_frsize, f_bavail) => u64 (f_frsize * f_bavail) | None => 0 end.

(** [%*d] *)
Definition skip_int (s : list Z) : option (list Z) :=
  let '(_, rest) := strtol s in if bool_decide (rest = s) then None else Some rest.

(** One call of [fscanf]: mount point, type and the rest of the text.  The numbers at
    the end of the line need not match for the call to count four words. *)
Definition scan_mount (s : list Z) : option (list Z * list Z * list Z) :=
  '(dev, s) ← scan_word 255 s;
  '(mount, s) ← scan_word 255 s;
  '(type, s) ← scan_word 63 s;
  '(opts, s) ← scan_word 255 s;
  let s := match skip_int s with
           | None => ini_lskip s
           | Some s => match skip_int s with None => ini_lskip s | Some s => ini_lskip s end
           end in
  Some (mount, type, s).

Fixpoint find_mount (fuel : nat) (path s : list Z) : option (list Z) :=
  match fuel with
  | O => None
  | S fuel =>
      '(mount, type, rest) ← scan_mount s;
      if strncmp (length mount) path mount =? 0 then Some type else find_mount fuel path rest
  end.
Definition get_fs_type (mounts : option (list Z)) (path : list Z) (size : nat) : option (list Z) :=
  s ← mounts; type ← find_mount (length s) path s; Some (take (size - 1) type).

(** [errno_before] is what [errno] held; a failing call sets it. *)
Definition load_filesysteminfo (statvfs : option (Z * Z)) (errno_before : Z) (mounts : option (list Z)) : option (Z * list Z) :=
  let disk := free_disk_space statvfs in
  let errno_now := match statvfs with Some _ => errno_before | None => 1 end in
  if (disk =? 0) && negb (errno_now =? 0) then None
  else t ← get_fs_type mounts [47] 16; Some (disk, t).

Definition IFNAMSIZ : nat := 16.
Fixpoint find_interface (line_no : nat) (lines : list (list Z)) : list Z :=
  match lines with
  | [] => []
  | l :: lines =>
      if (line_no <? 2)%nat then find_interface (S line_no) lines
      else match after_colon l with
           | None => find_interface (S line_no) lines
           | Some _ =>
               let name := (until_colon (IFNAMSIZ - 1) (skip_spaces l)).1 in
               if strcmp name (str "lo") =? 0 then find_interface (S line_no) lines else name
           end
  end.
(** [mtu_of] is the [ioctl] on a socket, if one can be opened. *)
Definition load_networkinfo (netdev : option (list Z)) (mtu_of : list Z → option Z) : Z :=
  let chosen := match netdev with Some s => find_interface 0 (file_lines 512 s) | None => [] end in
  default 0 (mtu_of (if decide (chosen = []) then str "lo" else chosen)).

Definition load_kernelinfo (somaxconn : option (list Z)) : Z :=
  match somaxconn with Some (c :: s) => atoi (take 31 (c :: s)) | _ => 0 end.

(** *** Decimal numbers: digits, a point and digits *)

Record decimal : Type := mk_decimal { dc_digits : Z; dc_scale : nat }.
Definition scan_decimal (s : list Z) : option (decimal * list Z) :=
  let '(n, any, rest) := read_digits (ini_lskip s) 0 false in
  if any : bool then
    match rest with
    | c :: rest' =>
        if c =? 46 then
          let '(m, _, rest2) := read_digits rest' n false in
          Some (mk_decimal m (length rest' - length rest2), rest2)
        else Some (mk_decimal n 0, rest)
    | [] => Some (mk_decimal n 0, [])
    end
  else None.

Definition load_uptime_info (uptime : option (list Z)) : Z :=
  match uptime ≫= scan_decimal with Some (d, _) => u64 (dc_digits d / 10 ^ Z.of_nat (dc_scale d)) | None => 0 end.
Definition load_loadavg_info (loadavg : option (list Z)) : option (decimal * decimal * decimal) :=
  s ← loadavg; '(a, s) ← scan_decimal s; '(b, s) ← scan_decimal s; '(c, _) ← scan_decimal s; Some (a, b, c).

(** ** Use of the processors *)

Record proc_stat_sample : Type := mk_sample { st_idle : Z; st_iowait : Z; st_total : Z }.
Definition first_line (s : list Z) : list Z := (take_line (length s) s).1.

(** [sampler.c]: user nice system idle iowait irq softirq steal. *)
Definition sampler_read_proc_stat (stat : option (list Z)) : option proc_stat_sample :=
  match stat with
  | Some (c :: s) =>
      let line := first_line (c :: s) in
      if has_prefix "cpu" line then
        match scan_ulls 10 (drop 3 line) with
        | user :: nice :: system :: idle :: iowait :: irq :: softirq :: steal :: _ =>
            let non_idle := u64 (user + nice + system + irq + softirq + steal) in
            Some (mk_sample idle iowait (u64 (non_idle + idle + iowait)))
        | _ => None
        end
      else None
  | _ => None
  end.

(** [sysinfo.c]: numbers that are missing are 0, and all ten are added. *)
Definition sysinfo_read_proc_stat (stat : option (list Z)) : option proc_stat_sample :=
  match stat with
  | Some (c :: s) =>
      let line := (take_line 511 (c :: s)).1 in
      let v := if has_prefix "cpu" line then scan_ulls 10 (drop 3 line) else [] in
      Some (mk_sample (default 0 (v !! 3%nat)) (default 0 (v !! 4%nat)) (u64 (foldr Z.add 0 v)))
  | _ => None
  end.

Definition percentage : Type := option (Z * Z).

Definition growth (a b : Z) : Z := if a <=? b then b - a else 0.
Definition sampler_values (a b : proc_stat_sample) : percentage * percentage :=
  let total_delta := growth (st_total a) (st_total b) in
  let idle_delta := growth (st_idle a) (st_idle b) in
  let iowait_delta := growth (st_iowait a) (st_iowait b) in
  if 0 <? total_delta then (Some (u64 (total_delta - idle_delta), total_delta), Some (iowait_delta, total_delta))
  else (None, None).

Definition usage_values (a b : proc_stat_sample) : percentage * percentage :=
  let total_delta := growth (st_total a) (st_total b) in
  let idle_delta := growth (st_idle a) (st_idle b) in
  let iowait_delta := growth (st_iowait a) (st_iowait b) in
  if total_delta =? 0 then (None, None)
  else (Some (if idle_delta <? total_delta then total_delta - idle_delta else 0, total_delta), Some (iowait_delta, total_delta)).

(** *** The sampler; the thread exists while [sp_running] is set *)

Record sampler : Type := mk_sampler { sp_running : bool; sp_cached : percentage * percentage }.
Definition sampler0 : sampler := mk_sampler false (None, None).

(** Two readings, if both can be made. *)
Definition sample_pair (r : option (list Z) * option (list Z)) : option (percentage * percentage) :=
  a ← sampler_read_proc_stat r.1; b ← sampler_read_proc_stat r.2; Some (sampler_values a b).

Inductive sampler_op : Type :=
| SamplerInit (readings : option (list Z) * option (list Z)) (created : bool)
| SamplerTick (readings : option (list Z) * option (list Z))       (* one round of [sampler_loop] *)
| SamplerStop.
Definition sampler_step (s : sampler) (o : sampler_op) : sampler :=
  match o with
  | SamplerInit r created =>
      if sp_running s then s else mk_sampler created (default (sp_cached s) (sample_pair r))
  | SamplerTick r => if sp_running s then mk_sampler true (default (sp_cached s) (sample_pair r)) else s
  | SamplerStop => if sp_running s then sampler0 else s
  end.
Definition po_sysinfo_sampler_get (s : sampler) : option (percentage * percentage) :=
  if sp_running s then Some (sp_cached s) else None.

Definition load_cpu_usage_info (s : sampler) (stat1 stat2 : option (list Z)) : percentage * percentage :=
  let measure := match sysinfo_read_proc_stat stat1, sysinfo_read_proc_stat stat2 with
                 | Some a, Some b => usage_values a b
                 | _, _ => (None, None)
                 end in
  match po_sysinfo_sampler_get s with
  | Some (Some util, Some iow) => (Some util, Some iow)
  | _ => measure
  end.

(** ** Everything together *)

Record machine : Type := mk_machine {
  mc_cpus : Z; mc_caches : list Z; mc_cpuinfo : option (list Z);
  mc_meminfo : option (list Z); mc_page : Z; mc_huge_names : option (list (list Z)); mc_huge_file : Z → string → option (list Z);
  mc_limits : option Z * option Z * option Z;
  mc_statvfs : option (Z * Z); mc_errno : Z; mc_mounts : option (list Z);
  mc_netdev : option (list Z); mc_mtu : list Z → option Z; mc_somaxconn : option (list Z);
  mc_uptime : option (list Z); mc_loadavg : option (list Z);
  mc_stat1 : option (list Z); mc_stat2 : option (list Z); mc_hostname : option (list Z)
}.

Record po_sysinfo_t : Type := mk_sysinfo {
  si_cpu : cpu_part; si_mem : mem_part; si_limits : Z * Z * Z; si_disk : Z * list Z; si_mtu : Z; si_somaxconn : Z;
  si_uptime : Z; si_loadavg : option (decimal * decimal * decimal); si_usage : percentage * percentage; si_hostname : list Z
}.

Definition po_sysinfo_collect (s : sampler) (c : machine) : option (option po_sysinfo_t) :=
  let cpu := load_cpuinfo (mc_cpus c) (mc_caches c) (mc_cpuinfo c) in
  mem ← load_memoryinfo (mc_meminfo c) (mc_page c) (mc_huge_names c) (mc_huge_file c);
  Some (
    mem ← mem;
    limits ← load_resource_limits (mc_limits c).1.1 (mc_limits c).1.2 (mc_limits c).2;
    disk ← load_filesysteminfo (mc_statvfs c) (mc_errno c) (mc_mounts c);
    Some (mk_sysinfo cpu mem limits disk (load_networkinfo (mc_netdev c) (mc_mtu c)) (load_kernelinfo (mc_somaxconn c))
            (load_uptime_info (mc_uptime c)) (load_loadavg_info (mc_loadavg c))
            (load_cpu_usage_info s (mc_stat1 c) (mc_stat2 c)) (take 255 (default [] (mc_hostname c))))).

(** ** Properties *)

(** Reading line by line loses nothing and always ends. *)
Lemma take_line_split n s : let '(l, rest) := take_line n s in s = l ++ rest ∧ (l = [] → n = 0%nat ∨ s = []).
Proof.
  revert s. induction n as [|n IH]; intros [|c s]; cbn [take_line]; try by eauto.
  destruct (c =? NL); [by split|]. specialize (IH s). destruct (take_line n s) as [l rest]. destruct IH as [-> _]. by split.
Qed.

Theorem file_lines_all n s : (2 <= n)%nat → concat (file_lines n s) = s.
Proof.
  intros Hn. unfold file_lines. assert (∀ fuel s, (length s <= fuel)%nat → concat (lines_of fuel n s) = s) as H; [|by apply H].
  clear s. intros fuel. induction fuel as [|fuel IH]; intros s Hs; [destruct s; [done|cbn in Hs; lia]|].
  cbn [lines_of]. destruct s as [|c s]; [done|]. cbn [fgets]. pose proof (take_line_split (n - 1) (c :: s)) as H.
  destruct (take_line (n - 1) (c :: s)) as [l rest]. destruct H as [E Hl]. cbn [concat]. rewrite IH; [by rewrite E|].
  destruct l as [|d l]; [destruct Hl as [?|?]; [done|lia|done]|]. apply (f_equal length) in E. rewrite length_app in E. cbn in *. lia.
Qed.

(** *** Processor time *)

(** Counters of two readings: each grows, but for the time spent waiting for devices,
    which the kernel lets shrink. *)
Definition times_grow (a b : proc_stat_sample) : Prop :=
  0 <= st_idle a <= st_idle b ∧ 0 <= st_iowait a ∧ 0 <= st_iowait b ∧ 0 <= st_total a ∧ st_total b < 2 ^ 64 ∧
  st_idle b - st_idle a + (st_iowait b - st_iowait a) <= st_total b - st_total a.

Definition in_percent (p : percentage) : Prop := match p with Some (n, d) => 0 <= n <= d ∧ 0 < d | None => True end.

Lemma growth_bounds a b : 0 <= growth a b ∧ b - a <= growth a b ∧ (growth a b = b - a ∨ growth a b = 0).
Proof. unfold growth. destruct (Z.leb_spec a b); lia. Qed.
Lemma growth_le a b : a <= b → growth a b = b - a.
Proof. unfold growth. intros H. by rewrite (proj2 (Z.leb_le a b)). Qed.

(** The use of the processors: what [sysinfo.c] computes from two readings is always
    between 0 and 100 percent, also when the time spent waiting for devices shrinks, and
    the sampler computes the same as long as it does not; when it does, the difference in
    the sampler wraps around: one tick of idle time more than of total time is reported
    as more than [2 ^ 63] times the whole. *)
Theorem cpu_usage_in_range (a b : proc_stat_sample) :
  times_grow a b →
  in_percent (usage_values a b).1 ∧
  (st_iowait a <= st_iowait b → sampler_values a b = usage_values a b ∧ in_percent (usage_values a b).2) ∧
  (0 < st_total b - st_total a < st_idle b - st_idle a ∧ st_idle b - st_idle a < 2 ^ 63 →
     ∃ n d, (sampler_values a b).1 = Some (n, d) ∧ d < 2 ^ 63 < n).
Proof.
  unfold times_grow, usage_values, sampler_values. intros (Hi & Hw & Hw' & Ht & Ht' & Hs).
  rewrite (growth_le (st_idle a)) by lia. pose proof (growth_bounds (st_total a) (st_total b)) as Hg.
  pose proof (growth_bounds (st_iowait a) (st_iowait b)) as Hgw. remember (growth (st_total a) (st_total b)) as t eqn:Et.
  split_and!.
  - destruct (Z.eqb_spec t 0); [done|]. cbn. destruct (Z.ltb_spec (st_idle b - st_idle a) t); lia.
  - intros Hww. rewrite growth_le by lia. destruct (Z.eqb_spec t 0) as [->|Hn]; [done|].
    rewrite (proj2 (Z.ltb_lt 0 t)) by lia. cbn [snd in_percent]. split; [|lia]. do 3 f_equal.
    unfold u64. destruct (Z.ltb_spec (st_idle b - st_idle a) t); [by rewrite Z.mod_small by lia|].
    replace (t - (st_idle b - st_idle a)) with 0 by lia. done.
  - intros Hd. rewrite growth_le in Et by lia. rewrite (proj2 (Z.ltb_lt 0 t)) by lia. cbn [fst].
    eexists _, _. split; [done|]. unfold u64.
    rewrite <- (Z_mod_plus_full _ 1), Z.mod_small by lia. lia.
Qed.

Lemma cpu_usage_in_range_witness :
  let a := mk_sample 1000 50 5000 in
  let b := mk_sample 1060 10 5040 in
  (usage_values a b).1 = Some (0, 40) ∧ in_percent (usage_values a b).1 ∧
  ∃ n d, (sampler_values a b).1 = Some (n, d) ∧ d < 2 ^ 63 < n.
Proof.
  destruct (cpu_usage_in_range (mk_sample 1000 50 5000) (mk_sample 1060 10 5040)) as (H1 & _ & H3).
  { unfold times_grow. cbn. lia. }
  split_and!; [reflexivity|exact H1|]. apply H3. cbn. lia.
Defined.

(** *** Huge pages *)

(** The huge pages that are reported are those of the largest size that can be read, of
    the first eight in the directory. *)
Theorem best_huge_largest (names : list (list Z)) (file : Z → string → option (list Z)) :
  let sizes := take 8 (omap hugepage_size names) in
  let best := best_huge (Some names) file in
  (best = huge_none ∨ ∃ size, size ∈ sizes ∧ get_hugepage_info file size = Some best) ∧
  ∀ size h, size ∈ sizes → get_hugepage_info file size = Some h → size_kB h <= size_kB best.
Proof.
  cbn zeta. unfold best_huge, list_hugepage_sizes. generalize (take 8 (omap hugepage_size names)) as sizes. intros sizes.
  induction sizes as [|size sizes IH] using rev_ind.
  { split; [by left|]. intros size h H. by apply not_elem_of_nil in H. }
  rewrite foldl_app. cbn [foldl]. destruct IH as [IH1 IH2].
  remember (foldl (better_huge file) huge_none sizes) as best eqn:Eb. clear Eb. unfold better_huge.
  assert ((best = huge_none ∨ ∃ size, size ∈ sizes ∧ get_hugepage_info file size = Some best) →
    best = huge_none ∨ ∃ size', size' ∈ sizes ++ [size] ∧ get_hugepage_info file size' = Some best) as Hkeep.
  { intros [?|(k & Hk & E)]; [by left|right]. exists k. rewrite elem_of_app. auto. }
  destruct (get_hugepage_info file size) as [h|] eqn:Eh; [destruct (Z.ltb_spec (size_kB best) (size_kB h))|].
  - split; [right; exists size; rewrite elem_of_app, list_elem_of_singleton; auto|].
    intros k h' [Hk| ->%list_elem_of_singleton]%elem_of_app E; [specialize (IH2 k h' Hk E); lia|]. simplify_eq. lia.
  - split; [by apply Hkeep|]. intros k h' [Hk| ->%list_elem_of_singleton]%elem_of_app E; [by eapply IH2|]. simplify_eq. lia.
  - split; [by apply Hkeep|]. intros k h' [Hk| ->%list_elem_of_singleton]%elem_of_app E; [by eapply IH2|]. congruence.
Qed.

(** *** Memory *)

(** A line of the kernel: name, blanks, number, unit. *)
Record mem_line : Type := mk_line { ml_key : list Z; ml_pad : nat; ml_value : Z }.
Definition print_mem_line (l : mem_line) : list Z :=
  (ml_key l ++ 58 :: replicate (ml_pad l) 32 ++ fast_utoa10 (ml_value l) ++ str " kB") ++ [NL].
Definition mem_line_ok (l : mem_line) : Prop :=
  (0 < length (ml_key l) <= 63)%nat ∧ Forall (λ c, c ≠ 58 ∧ c ≠ NL ∧ 0 < c < 256) (ml_key l) ∧ (ml_pad l <= 100)%nat ∧
  0 <= ml_value l < 2 ^ 63.

Definition last_value (key : string) (ls : list mem_line) : Z :=
  default (-1) (list.last (ml_value <$> filter (λ l, ml_key l = str key) ls)).

Lemma read_digits_stop ds c rest acc any :
  Forall is_digit ds → is_dec c = false →
  read_digits (ds ++ c :: rest) acc any = (foldl (λ n d, 10 * n + (d - 48)) acc ds, any || negb (is_empty ds), c :: rest).
Proof.
  intros Hd Hc. revert acc any. induction Hd as [|d ds Hd _ IH]; intros acc any; simpl; [by rewrite Hc, orb_false_r|].
  rewrite is_dec_digit, IH by done. by rewrite orb_true_r.
Qed.

Lemma lskip_pad k c rest : isspace c = false → ini_lskip (replicate k 32 ++ c :: rest) = c :: rest.
Proof. intros H. induction k as [|k IH]; [by apply lskip_char|]. exact IH. Qed.

Lemma scan_long_line k v rest : 0 <= v < 2 ^ 63 → scan_ld (replicate k 32 ++ fast_utoa10 v ++ 32 :: rest) = Some v.
Proof.
  intros Hv. destruct (fast_utoa10_spec v) as (Ev & Hl & Hd); [lia|]. unfold scan_ld, strtol.
  destruct (fast_utoa10 v) as [|d ds] eqn:E; [cbn in Hl; lia|]. pose proof Hd as [Hd1 _]%Forall_cons_1. unfold is_digit in Hd1.
  rewrite <- app_comm_cons, lskip_pad by (unfold isspace; lia). destruct (Z.eqb_spec d 45); [lia|]. destruct (Z.eqb_spec d 43); [lia|].
  rewrite app_comm_cons, read_digits_stop by done. cbn [orb negb is_empty]. fold (of_decimal (d :: ds)). rewrite Ev.
  rewrite bool_decide_eq_false_2.
  - f_equal. unfold LONG_MIN, LONG_MAX. lia.
  - intros H. apply (f_equal length) in H. rewrite !length_app in H. cbn in H. lia.
Qed.

Lemma until_colon_key key rest n :
  (length key <= n)%nat → Forall (λ c, c ≠ 58 ∧ c ≠ NL ∧ 0 < c < 256) key → until_colon n (key ++ 58 :: rest) = (key, 58 :: rest).
Proof.
  intros Hn Hk. revert n Hn. induction Hk as [|c key [Hc _] _ IH]; intros n Hn; [by destruct n|].
  destruct n as [|n]; [cbn in Hn; lia|]. cbn [until_colon app]. rewrite (proj2 (Z.eqb_neq c 58)) by done.
  cbn in Hn. by rewrite IH by lia.
Qed.

Lemma scan_meminfo_line l : mem_line_ok l → scan_meminfo (print_mem_line l) = Some (ml_key l, ml_value l).
Proof.
  intros (Hn & Hk & _ & Hv). unfold scan_meminfo, print_mem_line. rewrite <- app_assoc. cbn [app].
  rewrite until_colon_key by (done || lia). rewrite decide_False by (intros E; rewrite E in Hn; cbn in Hn; lia).
  rewrite Z.eqb_refl. change (str " kB") with (32 :: [107; 66]). rewrite <- !app_assoc. cbn [app]. by rewrite scan_long_line.
Qed.

Lemma mem_line_fgets l rest : mem_line_ok l → fgets 256 (print_mem_line l ++ rest) = Some (print_mem_line l, rest).
Proof.
  intros (Hn & Hk & Hp & Hv). destruct (fast_utoa10_spec (ml_value l)) as (_ & Hl & Hd); [lia|].
  unfold fgets, print_mem_line. rewrite <- app_assoc. cbn [app]. rewrite take_line_spec.
  - destruct (ml_key l); done.
  - rewrite list.Forall_forall in Hk. rewrite list.Forall_forall in Hd. rewrite not_elem_of_app, not_elem_of_cons, !not_elem_of_app. split_and!.
    + intros H. by apply Hk in H as (_ & ? & _).
    + done.
    + intros [H _]%elem_of_replicate. done.
    + intros H%Hd. unfold is_digit, NL in H. lia.
    + by apply (bool_decide_eq_false _).
  - rewrite length_app. cbn [length]. rewrite !length_app, length_replicate. cbn. lia.
Qed.

Lemma mem_lines_read fuel ls :
  Forall mem_line_ok ls → (length (concat (print_mem_line <$> ls)) <= fuel)%nat →
  lines_of fuel 256 (concat (print_mem_line <$> ls)) = print_mem_line <$> ls.
Proof.
  intros Hok. revert fuel. induction Hok as [|l ls Hl Hok IH]; intros fuel Hf; [by destruct fuel|].
  rewrite fmap_cons in *. cbn [concat] in *. destruct fuel as [|fuel].
  { unfold print_mem_line in Hf at 1. rewrite !length_app in Hf. cbn in Hf. lia. }
  cbn [lines_of]. rewrite mem_line_fgets by done. f_equal. apply IH.
  unfold print_mem_line in Hf at 1. rewrite !length_app in Hf. cbn in Hf. lia.
Qed.

(** The value of a field after all entries: the last entry with its name. *)
Lemma last_value_snoc key ls l :
  last_value key (ls ++ [l]) = if decide (ml_key l = str key) then ml_value l else last_value key ls.
Proof.
  unfold last_value. rewrite list.filter_app, fmap_app, list.filter_cons, list.filter_nil. case_decide; cbn [fmap list_fmap].
  - by rewrite last_snoc.
  - by rewrite app_nil_r.
Qed.

Lemma strcmp_key l key :
  mem_line_ok l → c_string (str key) → (strcmp (ml_key l) (str key) =? 0) = bool_decide (ml_key l = str key).
Proof.
  intros (_ & Hk & _) Hc. assert (c_string (ml_key l)) as Hs by (eapply list.Forall_impl; [exact Hk|]; cbn; tauto).
  apply eq_bool_prop_intro. rewrite bool_decide_spec, Is_true_true, Z.eqb_eq. by apply strcmp_zero.
Qed.

Lemma mem_entries ls :
  Forall mem_line_ok ls →
  foldl mem_entry mem_none ((λ l, (ml_key l, ml_value l)) <$> ls) =
    mk_kb (last_value "MemTotal" ls) (last_value "MemFree" ls) (last_value "SwapTotal" ls) (last_value "SwapFree" ls).
Proof.
  induction ls as [|l ls IH] using rev_ind; [done|]. intros [Hls [Hl _]%Forall_cons_1]%Forall_app.
  rewrite fmap_app, foldl_app, IH by done. cbn [fmap list_fmap foldl mem_entry total_kb free_kb swap_total_kb swap_free_kb].
  rewrite !strcmp_key by (done || literal_string). rewrite !last_value_snoc. unfold bool_decide.
  repeat case_decide; try done;
    match goal with H1 : ml_key l = str _, H2 : ml_key l = str _ |- _ => rewrite H1 in H2; by vm_compute in H2 end.
Qed.

(** The memory of the machine: of any text in the form the kernel writes - a name of
    at most 63 characters, a colon, blanks, a number and a unit on each line - the four
    sizes read are the numbers of the last lines with their names, and -1 for a name that
    does not occur; whatever other lines there are, in any order. *)
Theorem meminfo_reads_back (ls : list mem_line) :
  Forall mem_line_ok ls →
  read_meminfo_values (Some (concat (print_mem_line <$> ls))) =
    Some (mk_kb (last_value "MemTotal" ls) (last_value "MemFree" ls) (last_value "SwapTotal" ls) (last_value "SwapFree" ls)).
Proof.
  intros Hok. unfold read_meminfo_values, file_lines. rewrite mem_lines_read by done. f_equal. rewrite <- mem_entries by done.
  generalize mem_none as m. induction Hok as [|l ls Hl _ IH]; intros m; [done|].
  rewrite !fmap_cons. cbn [foldl]. by rewrite scan_meminfo_line, IH.
Qed.

Lemma mem_line_check l :
  (let n := length (ml_key l) in (0 <? n) && (n <=? 63) && (ml_pad l <=? 100))%nat &&
  forallb (λ c, negb (c =? 58) && negb (c =? NL) && (0 <? c) && (c <? 256)) (ml_key l) && (0 <=? ml_value l) && (ml_value l <? 2 ^ 63) = true →
  mem_line_ok l.
Proof.
  rewrite !andb_true_iff, !Nat.leb_le, Nat.ltb_lt, Z.leb_le, Z.ltb_lt, forallb_forall. intros [[[[[? ?] ?] Hk] ?] ?].
  split_and!; [lia|lia| |lia|lia|lia]. apply list.Forall_forall. intros c Hc%list_elem_of_In%Hk. lia.
Qed.

Definition mem_ex : list mem_line :=
  [mk_line (str "MemTotal") 7 16384000; mk_line (str "MemFree") 8 1024; mk_line (str "Buffers") 8 77; mk_line (str "SwapTotal") 3 0].

Lemma meminfo_reads_back_witness :
  read_meminfo_values (Some (concat (print_mem_line <$> mem_ex))) = Some (mk_kb 16384000 1024 0 (-1)).
Proof.
  assert (Forall mem_line_ok mem_ex) as Hok by (repeat apply Forall_cons_2; try constructor; apply mem_line_check; vm_compute; reflexivity).
  rewrite (meminfo_reads_back mem_ex Hok). vm_compute. reflexivity.
Defined.

(** *** Sampler, mounts and disk *)

Definition readings_of (o : sampler_op) : option (option (list Z) * option (list Z)) :=
  match o with SamplerInit r _ | SamplerTick r => Some r | SamplerStop => None end.

(** What the sampler reports was computed from two readings of one round, or is
    unknown; a stopped sampler reports nothing. *)
Theorem sampler_reports_samples (ops : list sampler_op) :
  (∀ u, po_sysinfo_sampler_get (foldl sampler_step sampler0 ops) = Some u →
     u = (None, None) ∨ ∃ o r, o ∈ ops ∧ readings_of o = Some r ∧ sample_pair r = Some u) ∧
  po_sysinfo_sampler_get (foldl sampler_step sampler0 (ops ++ [SamplerStop])) = None.
Proof.
  split.
  - assert (let u := sp_cached (foldl sampler_step sampler0 ops) in
      u = (None, None) ∨ ∃ o r, o ∈ ops ∧ readings_of o = Some r ∧ sample_pair r = Some u) as H.
    { induction ops as [|o ops IH] using rev_ind; [by left|]. cbn zeta in *. rewrite foldl_app. cbn [foldl].
      remember (foldl sampler_step sampler0 ops) as s eqn:Es. clear Es.
      assert (∀ u, (u = (None, None) ∨ ∃ o r, o ∈ ops ∧ readings_of o = Some r ∧ sample_pair r = Some u) →
        u = (None, None) ∨ ∃ o' r, o' ∈ ops ++ [o] ∧ readings_of o' = Some r ∧ sample_pair r = Some u) as Hold.
      { intros u [?|(o' & r & Ho & ?)]; [by left|right]. exists o', r. rewrite elem_of_app. auto. }
      assert (∀ r, readings_of o = Some r → let u := default (sp_cached s) (sample_pair r) in
        u = (None, None) ∨ ∃ o' r, o' ∈ ops ++ [o] ∧ readings_of o' = Some r ∧ sample_pair r = Some u) as Hnew.
      { intros r Hr. destruct (sample_pair r) as [u|] eqn:E; [right|by apply Hold]. exists o, r.
        rewrite elem_of_app, list_elem_of_singleton. auto. }
      destruct o as [r created|r|]; cbn [sampler_step]; destruct (sp_running s); cbn [sp_cached sampler0]; auto. }
    intros u. unfold po_sysinfo_sampler_get. destruct (sp_running _); [|done]. intros [= <-]. exact H.
  - rewrite foldl_app. cbn [foldl sampler_step]. unfold po_sysinfo_sampler_get. by destruct (sp_running (foldl _ _ _)) eqn:E; cbn; [|rewrite E].
Qed.

(** The type of the root file system is that of the first line for it; a line before it
    with more than 255 characters of options shifts the words of the lines behind it, and
    the root is not found. *)
Theorem long_mount_hides_root :
  let root := str "/dev/sda1 / ext4 rw 0 0" ++ [NL] in
  let overlay n := str "overlay /var/lib/x overlay " ++ replicate n 111 ++ str " 0 0" ++ [NL] in
  get_fs_type (Some (overlay 255%nat ++ root)) [47] 16 = Some (str "ext4") ∧
  get_fs_type (Some (overlay 256%nat ++ root)) [47] 16 = None.
Proof. vm_compute. done. Qed.

(** A full disk is an error or not, depending on what [errno] held before. *)
Theorem full_disk_stale_errno (f_frsize e : Z) (mounts : option (list Z)) :
  e ≠ 0 →
  load_filesysteminfo (Some (f_frsize, 0)) e mounts = None ∧
  load_filesysteminfo (Some (f_frsize, 0)) 0 mounts = (t ← get_fs_type mounts [47] 16; Some (0, t)).
Proof.
  intros He. unfold load_filesysteminfo, free_disk_space. rewrite Z.mul_0_r. cbn. by rewrite (proj2 (Z.eqb_neq e 0)).
Qed.
