(* ===== verification/Renderer.v ===== *)
(** * The terminal renderer ([libs/ring4/postoffice/renderer/clay_ncurses_renderer.c])

    Drawing commands with boxes in layout units become calls of the terminal library,
    clipped by a stack of boxes.  The library itself is not modelled: its calls are
    recorded, and what it tells of the screen and of characters is a parameter.

    A coordinate is an integer number of 1/256 of a layout unit.  On such numbers below
    [2 ^ 16] units the arithmetic of [float] that the source does is exact: sums and
    differences, quotients by 8 and 16, and the half that is added before the conversion to
    [int].  Coordinates with finer fractions, larger ones and those that are not finite are
    not modelled; [in_range] and [exact_clip] say which the properties are about.
    [touches] is the cells a call names; what the terminal library does with cells
    outside its window is not modelled. *)

From Stdlib Require Import ZArith Lia.
From stdpp Require Import base list numbers.
From S2P Require Import Prelude.

Local Open Scope Z_scope.

(** ** Boxes and cells *)

Record bounding_box : Type := mk_box { bx : Z; by_ : Z; bw : Z; bh : Z }.

(** [(int)(v / 8.0f + 0.5f)] and [(int)(v / 16.0f + 0.5f)]. *)
Definition CELL_WIDTH : Z := 8 * 256.
Definition CELL_HEIGHT : Z := 16 * 256.
Definition to_col (v : Z) : Z := Z.quot (v + CELL_WIDTH / 2) CELL_WIDTH.
Definition to_row (v : Z) : Z := Z.quot (v + CELL_HEIGHT / 2) CELL_HEIGHT.

(** A rectangle of cells. *)
Record rect : Type := mk_rect { rx : Z; ry : Z; rw : Z; rh : Z }.
Definition cells_of_box (b : bounding_box) : rect := mk_rect (to_col (bx b)) (to_row (by_ b)) (to_col (bw b)) (to_row (bh b)).

Definition Clay_Ncurses_GetVisibleRect (clip : bounding_box) (r : rect) : option rect :=
  let c := cells_of_box clip in
  let ix := if rx c <? rx r then rx r else rx c in
  let iy := if ry c <? ry r then ry r else ry c in
  let right := if rx r + rw r <? rx c + rw c then rx r + rw r else rx c + rw c in
  let bottom := if ry r + rh r <? ry c + rh c then ry r + rh r else ry c + rh c in
  let iw := right - ix in
  let ih := bottom - iy in
  if (iw <=? 0) || (ih <=? 0) then None else Some (mk_rect ix iy iw ih).

(** ** The stack of clips, the current one first *)

Definition MAX_SCISSOR_STACK_DEPTH : nat := 16.

Definition Clay_Ncurses_PushScissor (next : bounding_box) (stack : list bounding_box) : list bounding_box :=
  match stack with
  | [] => []
  | current :: _ =>
      if (MAX_SCISSOR_STACK_DEPTH - 1 <=? length stack - 1)%nat then stack
      else
        let nX := if bx current <? bx next then bx next else bx current in
        let nY := if by_ current <? by_ next then by_ next else by_ current in
        let nR := if bx next + bw next <? bx current + bw current then bx next + bw next else bx current + bw current in
        let nB := if by_ next + bh next <? by_ current + bh current then by_ next + bh next else by_ current + bh current in
        mk_box nX nY (nR - nX) (nB - nY) :: stack
  end.
Definition Clay_Ncurses_PopScissor (stack : list bounding_box) : list bounding_box :=
  match stack with _ :: (_ :: _) as rest => rest | _ => stack end.

(** ** Colours *)

(** Red, green and blue from 0 to 255; [colors] is the number the terminal has. *)
Definition Clay_Ncurses_MatchColor (colors : Z) (c : Z * Z * Z) : Z :=
  let '(cr, cg, cb) := c in
  if 256 <=? colors then 16 + 36 * Z.quot (5 * cr) 255 + 6 * Z.quot (5 * cg) 255 + Z.quot (5 * cb) 255
  else
    let r := 128 <? cr in let g := 128 <? cg in let b := 128 <? cb in
    if r && g && b then 7
    else if negb r && negb g && negb b then 0
    else if r && g then 3
    else if r && b then 5
    else if g && b then 6
    else if r then 1
    else if g then 2
    else if b then 4
    else 7.

(** ** Calls of the terminal library *)

Inductive attribute : Type := Bold | Underline | ColorPair (pair : Z).
Inductive glyph : Type := Blank | ULCorner | URCorner | LLCorner | LRCorner.
Inductive ncall : Type :=
| InitPair (id fg bg : Z)
| AttrOn (a : attribute)
| AttrOff (a : attribute)
| AddCh (y x : Z) (g : glyph) (pair : Z)
| AddWStr (y x : Z) (text : list Z)
| HLine (y x n : Z)
| VLine (y x n : Z).

Definition MAX_COLOR_PAIRS_CACHE : nat := 1024.
Definition color_cache : Type := list (Z * Z * Z).     (* fg, bg, pair *)

(** The pair of two colours, the new cache, and the call that makes a new pair. *)
Definition Clay_Ncurses_GetColorPair (fg bg : Z) (cache : color_cache) : Z * color_cache * list ncall :=
  match list_find (λ e, e.1.1 = fg ∧ e.1.2 = bg) cache with
  | Some (_, (_, _, id)) => (id, cache, [])
  | None =>
      if (MAX_COLOR_PAIRS_CACHE <=? length cache)%nat then (0, cache, [])
      else let newId := Z.of_nat (length cache) + 1 in (newId, cache ++ [(fg, bg, newId)], [InitPair newId fg bg])
  end.

Record border_width : Type := mk_border { b_left : Z; b_right : Z; b_top : Z; b_bottom : Z }.
Inductive command : Type :=
| Rectangle (box : bounding_box) (color : Z * Z * Z)
| Text (box : bounding_box) (color : Z * Z * Z) (chars : list Z) (bold underline : bool)
| Border (box : bounding_box) (color : Z * Z * Z) (width : border_width)
| ScissorStart (box : bounding_box)
| ScissorEnd
| OtherCommand.

Record renderer : Type := mk_renderer { rn_stack : list bounding_box; rn_cache : color_cache }.

Section renderer.
  (** The number of colours; whether a cell already holds a blank of a pair, and the
      background of a cell, after the calls so far; [mbtowc], [mbstowcs] and [wcwidth]. *)
  Context (colors : Z) (blank_at : list ncall → Z → Z → Z → bool) (background_at : list ncall → Z → Z → Z).
  Context (mbtowc : list Z → option (Z * nat)) (mbstowcs : list Z → option (list Z)) (wcwidth : Z → Z).

(** Bytes that are no character are skipped one by one. *)
Fixpoint measure_loop (fuel : nat) (s : list Z) : Z :=
  match fuel, s with
  | S fuel, _ :: s' =>
      match mbtowc s with
      | Some (wc, (S _) as bytes) => (if 0 <? wcwidth wc then wcwidth wc else 0) + measure_loop fuel (drop bytes s)
      | _ => measure_loop fuel s'
      end
  | _, _ => 0
  end.
Definition Clay_Ncurses_MeasureStringWidth (text : list Z) : Z := measure_loop (length text) text.

(** The size of a text for the layout. *)
Definition Clay_Ncurses_MeasureText (text : list Z) : Z * Z := (Clay_Ncurses_MeasureStringWidth text * CELL_WIDTH, CELL_HEIGHT).

(** Row by row; a cell that is right already is left alone. *)
Definition fill_cells (done : list ncall) (r : rect) (pr : Z) : list ncall :=
  concat ((λ row, concat ((λ col, if blank_at done row col pr then [] else [AddCh row col Blank pr]) <$> seqZ (rx r) (rw r)))
            <$> seqZ (ry r) (rh r)).

Definition Clay_Ncurses_RenderRectangle (done : list ncall) (st : renderer) (clip box : bounding_box) (color : Z * Z * Z) :
    renderer * list ncall :=
  match Clay_Ncurses_GetVisibleRect clip (cells_of_box box) with
  | None => (st, [])
  | Some d =>
      let fg := Clay_Ncurses_MatchColor colors color in
      let '(pr, cache, calls) := Clay_Ncurses_GetColorPair fg fg (rn_cache st) in
      (mk_renderer (rn_stack st) cache, calls ++ fill_cells (done ++ calls) d pr)
  end.

(** The characters of the visible columns: the index of the first and their number. *)
Fixpoint visible_chars (k : Z) (wbuf : list Z) (skip cols currentCols printStart printLen : Z) : Z * Z :=
  match wbuf with
  | [] => (printStart, printLen)
  | c :: wbuf =>
      let cw := if wcwidth c <? 0 then 0 else wcwidth c in
      let '(printStart, printLen) :=
        if (skip <=? currentCols) && (currentCols <? skip + cols)
        then (if printStart =? -1 then k else printStart, printLen + 1) else (printStart, printLen) in
      let currentCols := currentCols + cw in
      if skip + cols <=? currentCols then (printStart, printLen)
      else visible_chars (k + 1) wbuf skip cols currentCols printStart printLen
  end.

(** [mem] tells that the wide buffer could be allocated; the other one is used without a
    check. *)
Definition Clay_Ncurses_RenderText (mem : bool) (done : list ncall) (st : renderer) (clip box : bounding_box) (color : Z * Z * Z)
    (text : list Z) (bold underline : bool) : renderer * list ncall :=
  let b := cells_of_box box in
  let textWidth := Clay_Ncurses_MeasureStringWidth text in
  match Clay_Ncurses_GetVisibleRect clip (mk_rect (rx b) (ry b) textWidth 1) with
  | None => (st, [])
  | Some d =>
      let fg := Clay_Ncurses_MatchColor colors color in
      let bg := background_at done (ry d) (rx d) in
      let '(pr, cache, calls) := Clay_Ncurses_GetColorPair fg bg (rn_cache st) in
      let on := [AttrOn (ColorPair pr)] ++ (if bold then [AttrOn Bold] else []) ++ (if underline then [AttrOn Underline] else []) in
      let off := (if bold then [AttrOff Bold] else []) ++ (if underline then [AttrOff Underline] else []) ++ [AttrOff (ColorPair pr)] in
      let st := mk_renderer (rn_stack st) cache in
      if mem then
        let put := match mbstowcs text with
                   | None => []
                   | Some wbuf =>
                       let '(printStart, printLen) := visible_chars 0 wbuf (rx d - rx b) (rw d) 0 (-1) 0 in
                       if printStart =? -1 then []
                       else [AddWStr (ry d) (rx d) (take (Z.to_nat printLen) (drop (Z.to_nat printStart) wbuf))]
                   end in
        (st, calls ++ on ++ put ++ off)
      else (st, calls ++ on ++ [AttrOff (ColorPair pr)])
  end.

(** A horizontal or vertical line of a border, without its corners. *)
Definition border_side (lo hi vis_lo vis_n : Z) (line : Z → Z → ncall) : list ncall :=
  let s := if vis_lo <? lo then lo else vis_lo in
  let e := if hi <? vis_lo + vis_n then hi else vis_lo + vis_n in
  if s <? e then [line s (e - s)] else [].

Definition Clay_Ncurses_RenderBorder (done : list ncall) (st : renderer) (clip box : bounding_box) (color : Z * Z * Z)
    (width : border_width) : renderer * list ncall :=
  let b := cells_of_box box in
  let '(x, y, w, h) := (rx b, ry b, rw b, rh b) in
  match Clay_Ncurses_GetVisibleRect clip b with
  | None => (st, [])
  | Some d =>
      let '(dx, dy, dw, dh) := (rx d, ry d, rw d, rh d) in
      let fg := Clay_Ncurses_MatchColor colors color in
      let bg := background_at done dy dx in
      let '(pr, cache, calls) := Clay_Ncurses_GetColorPair fg bg (rn_cache st) in
      let hasTop := 0 <? b_top width in let hasBottom := 0 <? b_bottom width in
      let hasLeft := 0 <? b_left width in let hasRight := 0 <? b_right width in
      let drawTop := (dy <=? y) && (y <? dy + dh) in
      let drawBottom := (dy <=? y + h - 1) && (y + h - 1 <? dy + dh) in
      let drawLeft := (dx <=? x) && (x <? dx + dw) in
      let drawRight := (dx <=? x + w - 1) && (x + w - 1 <? dx + dw) in
      let corner (c : bool) row col g := if c then [AddCh row col g pr] else [] in
      (mk_renderer (rn_stack st) cache,
       calls ++ [AttrOn (ColorPair pr)] ++
       (if hasTop && drawTop then border_side (x + 1) (x + w - 1) dx dw (λ s n, HLine y s n) else []) ++
       (if hasBottom && drawBottom then border_side (x + 1) (x + w - 1) dx dw (λ s n, HLine (y + h - 1) s n) else []) ++
       (if hasLeft && drawLeft then border_side (y + 1) (y + h - 1) dy dh (λ s n, VLine s x n) else []) ++
       (if hasRight && drawRight then border_side (y + 1) (y + h - 1) dy dh (λ s n, VLine s (x + w - 1) n) else []) ++
       corner (hasTop && hasLeft && drawTop && drawLeft) y x ULCorner ++
       corner (hasTop && hasRight && drawTop && drawRight) y (x + w - 1) URCorner ++
       corner (hasBottom && hasLeft && drawBottom && drawLeft) (y + h - 1) x LLCorner ++
       corner (hasBottom && hasRight && drawBottom && drawRight) (y + h - 1) (x + w - 1) LRCorner ++
       [AttrOff (ColorPair pr)])
  end.

Definition screen_box (W H : Z) : bounding_box := mk_box 0 0 (W * CELL_WIDTH) (H * CELL_HEIGHT).
Definition clip_of (st : renderer) : bounding_box := default (screen_box 0 0) (head (rn_stack st)).

(** One command; [mem] is whether its allocation succeeds. *)
Definition render_command (done : list ncall) (st : renderer) (c : command) (mem : bool) : renderer * list ncall :=
  match c with
  | Rectangle box color => Clay_Ncurses_RenderRectangle done st (clip_of st) box color
  | Text box color text bold underline => Clay_Ncurses_RenderText mem done st (clip_of st) box color text bold underline
  | Border box color width => Clay_Ncurses_RenderBorder done st (clip_of st) box color width
  | ScissorStart box => (mk_renderer (Clay_Ncurses_PushScissor box (rn_stack st)) (rn_cache st), [])
  | ScissorEnd => (mk_renderer (Clay_Ncurses_PopScissor (rn_stack st)) (rn_cache st), [])
  | OtherCommand => (st, [])
  end.

Fixpoint render_commands (done : list ncall) (st : renderer) (cs : list (command * bool)) : renderer * list ncall :=
  match cs with
  | [] => (st, done)
  | (c, mem) :: cs => let '(st, calls) := render_command done st c mem in render_commands (done ++ calls) st cs
  end.

(** [Clay_Ncurses_Render] on a screen of [W] by [H] cells: the stack is reset for every
    frame, the colour pairs stay. *)
Definition Clay_Ncurses_Render (W H : Z) (cache : color_cache) (cs : list (command * bool)) : renderer * list ncall :=
  render_commands [] (mk_renderer [screen_box W H] cache) cs.

(** ** What a call touches *)

Definition text_width (text : list Z) : Z := foldr (λ c n, (if wcwidth c <? 0 then 0 else wcwidth c) + n) 0 text.
Definition touches (c : ncall) (row col : Z) : Prop :=
  match c with
  | AddCh y x _ _ => row = y ∧ col = x
  | AddWStr y x text => row = y ∧ x <= col < x + text_width text
  | HLine y x n => row = y ∧ x <= col < x + n
  | VLine y x n => col = x ∧ y <= row < y + n
  | InitPair _ _ _ | AttrOn _ | AttrOff _ => False
  end.
Definition in_rect (r : rect) (row col : Z) : Prop := rx r <= col < rx r + rw r ∧ ry r <= row < ry r + rh r.
End renderer.

(** ** Clipping *)

Lemma visible_rect_in clip r d row col :
  Clay_Ncurses_GetVisibleRect clip r = Some d → in_rect d row col → in_rect (cells_of_box clip) row col ∧ in_rect r row col.
Proof.
  unfold Clay_Ncurses_GetVisibleRect, in_rect. generalize (cells_of_box clip) as c. intros c.
  destruct (Z.ltb_spec (rx c) (rx r)), (Z.ltb_spec (ry c) (ry r)), (Z.ltb_spec (rx r + rw r) (rx c + rw c)),
    (Z.ltb_spec (ry r + rh r) (ry c + rh c)); (destruct (_ || _) eqn:E; [done|]; intros [= <-]; cbn; lia).
Qed.

Lemma visible_rect_origin clip r d :
  Clay_Ncurses_GetVisibleRect clip r = Some d → rx r <= rx d ∧ 0 < rw d ∧ 0 < rh d ∧ rx d + rw d <= rx r + rw r ∧ ry r <= ry d ∧ ry d + rh d <= ry r + rh r.
Proof.
  unfold Clay_Ncurses_GetVisibleRect. generalize (cells_of_box clip) as c. intros c.
  destruct (Z.ltb_spec (rx c) (rx r)), (Z.ltb_spec (ry c) (ry r)), (Z.ltb_spec (rx r + rw r) (rx c + rw c)),
    (Z.ltb_spec (ry r + rh r) (ry c + rh c)); (destruct (_ || _) eqn:E; [done|]; intros [= <-]; cbn; lia).
Qed.

Section clipping.
  Context (colors : Z) (blank_at : list ncall → Z → Z → Z → bool) (background_at : list ncall → Z → Z → Z).
  Context (mbtowc : list Z → option (Z * nat)) (mbstowcs : list Z → option (list Z)) (wcwidth : Z → Z).

Abbreviation touch := (touches wcwidth).
Abbreviation run_command := (render_command colors blank_at background_at mbtowc mbstowcs wcwidth).
Abbreviation run_commands := (render_commands colors blank_at background_at mbtowc mbstowcs wcwidth).

Lemma text_width_app a b : text_width wcwidth (a ++ b) = text_width wcwidth a + text_width wcwidth b.
Proof using Type. induction a as [|c a IH]; [done|]. cbn [text_width foldr app]. fold (text_width wcwidth (a ++ b)). fold (text_width wcwidth a). rewrite IH. lia. Qed.

Lemma visible_chars_width pre wbuf skip cols cur ps pl ps' pl' :
  cur < skip + cols →
  (ps = -1 ∧ pl = 0 ∨
   ∃ p1 p2, pre = p1 ++ p2 ∧ ps = Z.of_nat (length p1) ∧ pl = Z.of_nat (length p2) ∧ skip <= cur ∧ text_width wcwidth p2 <= cur - skip) →
  visible_chars wcwidth (Z.of_nat (length pre)) wbuf skip cols cur ps pl = (ps', pl') →
  ps' = -1 ∨ ∀ wide, 1 <= wide →
    (∀ c, c ∈ take (Z.to_nat pl') (drop (Z.to_nat ps') (pre ++ wbuf)) → wcwidth c <= wide) →
    text_width wcwidth (take (Z.to_nat pl') (drop (Z.to_nat ps') (pre ++ wbuf))) < cols + wide.
Proof using Type.
  revert pre cur ps pl. induction wbuf as [|c wbuf IH]; intros pre cur ps pl Hcur Hst; cbn [visible_chars].
  - intros [= <- <-]. destruct Hst as [(-> & _)|(p1 & p2 & -> & -> & -> & _ & Hw)]; [by left|right].
    rewrite app_nil_r, !Nat2Z.id, drop_app_length, take_ge by done. intros wide Hwd _. lia.
  - set (cw := if wcwidth c <? 0 then 0 else wcwidth c).
    assert (0 <= cw ∧ ∀ wide, 1 <= wide → wcwidth c <= wide → cw <= wide) as [Hcw Hcw'].
    { unfold cw. destruct (Z.ltb_spec (wcwidth c) 0); (split; [lia|]); intros; lia. }
    assert (text_width wcwidth [c] = cw) as Hc1 by (unfold text_width; cbn; fold cw; lia).
    replace (pre ++ c :: wbuf) with ((pre ++ [c]) ++ wbuf) by by rewrite <- app_assoc.
    replace (Z.of_nat (length pre) + 1) with (Z.of_nat (length (pre ++ [c]))) by (rewrite length_app; cbn; lia).
    assert (∃ ps1 pl1, (if (skip <=? cur) && (cur <? skip + cols) then (if ps =? -1 then Z.of_nat (length pre) else ps, pl + 1) else (ps, pl)) = (ps1, pl1) ∧
      (ps1 = -1 ∧ pl1 = 0 ∨
       ∃ p1 p2, pre ++ [c] = p1 ++ p2 ∧ ps1 = Z.of_nat (length p1) ∧ pl1 = Z.of_nat (length p2) ∧ skip <= cur + cw ∧
         text_width wcwidth p2 <= cur + cw - skip ∧ c ∈ p2))
      as (ps1 & pl1 & -> & Hst1).
    { rewrite (proj2 (Z.ltb_lt cur (skip + cols))), andb_true_r by done. destruct Hst as [(-> & ->)|(p1 & p2 & -> & -> & -> & Hle & Hw)].
      - destruct (Z.leb_spec skip cur); [|eexists _, _; split; [done|left; lia]]. eexists _, _. split; [done|right].
        exists pre, [c]. split_and!; [done|done|done|lia|rewrite Hc1; lia|by left].
      - rewrite (proj2 (Z.leb_le skip cur)) by done. destruct (Z.eqb_spec (Z.of_nat (length p1)) (-1)); [lia|].
        eexists _, _. split; [done|right]. exists p1, (p2 ++ [c]).
        split_and!; [by rewrite app_assoc|done|rewrite length_app; cbn; lia|lia|rewrite text_width_app, Hc1; lia|apply elem_of_app; right; by left]. }
    destruct (Z.leb_spec (skip + cols) (cur + cw)).
    + intros [= <- <-]. destruct Hst1 as [(-> & _)|(p1 & p2 & E & -> & -> & _ & Hw & Hin)]; [by left|right].
      rewrite E, !Nat2Z.id, <- app_assoc, drop_app_length, take_app_length. intros wide Hwd Hall.
      specialize (Hcw' wide Hwd (Hall c Hin)). lia.
    + apply IH; [lia|]. destruct Hst1 as [?|(p1 & p2 & E & ? & ? & ? & ? & _)]; [by left|right]. by exists p1, p2.
Qed.

Lemma fill_cells_in done r pr call row col : call ∈ fill_cells blank_at done r pr → touch call row col → in_rect r row col.
Proof using Type.
  unfold fill_cells. intros Hin Ht. apply list_elem_of_In, in_concat in Hin as (l & Hl%list_elem_of_In & Hc%list_elem_of_In).
  apply list_elem_of_fmap in Hl as (y & -> & Hy%elem_of_seqZ).
  apply list_elem_of_In, in_concat in Hc as (l & Hl%list_elem_of_In & Hc%list_elem_of_In).
  apply list_elem_of_fmap in Hl as (x & -> & Hx%elem_of_seqZ). destruct (blank_at _ _ _ _); [by apply not_elem_of_nil in Hc|].
  apply list_elem_of_singleton in Hc as ->. destruct Ht as [-> ->]. unfold in_rect. lia.
Qed.

Lemma color_pair_calls fg bg cache call row col : call ∈ (Clay_Ncurses_GetColorPair fg bg cache).2 → ¬ touch call row col.
Proof using Type.
  unfold Clay_Ncurses_GetColorPair. destruct (list_find _ cache) as [[? [[? ?] ?]]|]; [by intros ?%not_elem_of_nil|].
  destruct (_ <=? _)%nat; cbn; [by intros ?%not_elem_of_nil|]. intros ->%list_elem_of_singleton. by intros [].
Qed.

Lemma side_in lo hi vis_lo vis_n line call :
  call ∈ border_side lo hi vis_lo vis_n line → ∃ s n, call = line s n ∧ vis_lo <= s ∧ s + n <= vis_lo + vis_n.
Proof using Type.
  unfold border_side. destruct (Z.ltb_spec vis_lo lo), (Z.ltb_spec hi (vis_lo + vis_n));
    (destruct (_ <? _) eqn:E; [intros ->%list_elem_of_singleton; eexists _, _; split; [done|lia]|by intros ?%not_elem_of_nil]).
Qed.

Lemma elem_of_guard {A} (c : bool) (x : A) l : x ∈ (if c then l else []) → c = true ∧ x ∈ l.
Proof using Type. destruct c; [done|by intros ?%not_elem_of_nil]. Qed.

Lemma border_clipped done st clip box color width call row col :
  call ∈ (Clay_Ncurses_RenderBorder colors background_at done st clip box color width).2 → touch call row col →
  in_rect (cells_of_box clip) row col.
Proof using Type.
  unfold Clay_Ncurses_RenderBorder. remember (cells_of_box box) as b eqn:Eb.
  destruct (Clay_Ncurses_GetVisibleRect clip b) as [d|] eqn:Ed; [|by intros ?%not_elem_of_nil].
  destruct (Clay_Ncurses_GetColorPair _ _ _) as [[pr cache] calls] eqn:Ep. cbn [snd]. intros Hin Ht.
  apply (visible_rect_in clip b d row col Ed). unfold in_rect.
  rewrite !elem_of_app in Hin.
  destruct Hin as [Hin|[Hin|[Hin|[Hin|[Hin|[Hin|[Hin|[Hin|[Hin|[Hin|Hin]]]]]]]]]].
  1: { exfalso. eapply color_pair_calls; [by rewrite Ep|done]. }
  1, 10: by apply list_elem_of_singleton in Hin as ->.
  1-4: apply elem_of_guard in Hin as [Hg Hin]; apply side_in in Hin as (s & n & -> & ? & ?); cbn in Ht; lia.
  all: apply elem_of_guard in Hin as [Hg Hin]; apply list_elem_of_singleton in Hin as ->; cbn in Ht; lia.
Qed.

(** The characters a call writes have at most [wide] columns. *)
Definition chars_within (wide : Z) (call : ncall) : Prop :=
  match call with AddWStr _ _ text => ∀ c, c ∈ text → wcwidth c <= wide | _ => True end.

(** A cell at most [wide - 1] columns to the right of the clip. *)
Definition near_clip (wide : Z) (clip : bounding_box) (row col : Z) : Prop :=
  ∃ col0, col - wide < col0 <= col ∧ in_rect (cells_of_box clip) row col0.

Lemma text_clipped wide mem done st clip box color text bold underline call row col :
  call ∈ (Clay_Ncurses_RenderText colors background_at mbtowc mbstowcs wcwidth mem done st clip box color text bold underline).2 →
  1 <= wide → chars_within wide call → touch call row col → near_clip wide clip row col.
Proof using Type.
  unfold Clay_Ncurses_RenderText. remember (cells_of_box box) as b eqn:Eb. set (r := mk_rect _ _ _ 1).
  destruct (Clay_Ncurses_GetVisibleRect clip r) as [d|] eqn:Ed; [|by intros ?%not_elem_of_nil].
  destruct (Clay_Ncurses_GetColorPair _ _ _) as [[pr cache] calls] eqn:Ep. intros Hin Hwd Hch Ht.
  assert (∀ fg bg, Clay_Ncurses_GetColorPair fg bg (rn_cache st) = (pr, cache, calls) → call ∉ calls) as Hcalls.
  { intros fg bg E Hc. eapply color_pair_calls; [by rewrite E|done]. }
  specialize (Hcalls _ _ Ep). pose proof (visible_rect_origin clip r d Ed) as Ho. cbn in Ho.
  destruct mem; cbn [snd] in Hin; rewrite !elem_of_app in Hin;
    (destruct Hin as [Hin|Hin]; [done|]).
  - destruct Hin as [Hin|[Hin|Hin]].
    + exfalso. destruct Hin as [Hin|[Hin|Hin]]; repeat (apply elem_of_guard in Hin as [_ Hin]); by apply list_elem_of_singleton in Hin as ->.
    + destruct (mbstowcs text) as [wbuf|]; [|by apply not_elem_of_nil in Hin].
      destruct (visible_chars _ _ _ _ _ _ _ _) as [ps pl] eqn:Ev.
      destruct (Z.eqb_spec ps (-1)); [by apply not_elem_of_nil in Hin|]. apply list_elem_of_singleton in Hin as ->. cbn in Ht.
      apply (visible_chars_width []) in Ev as [?|Hw]; [done| |lia|left; lia]. cbn [app] in Hw. specialize (Hw wide Hwd Hch).
      exists (Z.min col (rx d + rw d - 1)). split; [lia|]. apply (visible_rect_in clip r d row _ Ed). unfold in_rect. lia.
    + exfalso. destruct Hin as [Hin|[Hin|Hin]]; repeat (apply elem_of_guard in Hin as [_ Hin]); by apply list_elem_of_singleton in Hin as ->.
  - exfalso. destruct Hin as [[Hin|[Hin|Hin]]|Hin]; repeat (apply elem_of_guard in Hin as [_ Hin]); by apply list_elem_of_singleton in Hin as ->.
Qed.

(** Whatever a command draws lies in the current clip, but for a wide character in its
    last column. *)
Lemma command_clipped wide done st c mem call row col :
  call ∈ (run_command done st c mem).2 → 1 <= wide → chars_within wide call → touch call row col →
  near_clip wide (clip_of st) row col.
Proof using Type.
  assert (1 <= wide → in_rect (cells_of_box (clip_of st)) row col → near_clip wide (clip_of st) row col) as Hnear.
  { intros Hwd Hr. exists col. split; [lia|done]. }
  destruct c as [box color|box color text bold underline|box color width|box| |]; cbn [render_command snd];
    [|apply text_clipped|intros Hin Hwd _ Ht; apply Hnear; [done|by eapply border_clipped]|by intros ?%not_elem_of_nil..].
  unfold Clay_Ncurses_RenderRectangle. destruct (Clay_Ncurses_GetVisibleRect _ _) as [d|] eqn:Ed; [|by intros ?%not_elem_of_nil].
  destruct (Clay_Ncurses_GetColorPair _ _ _) as [[pr cache] calls] eqn:Ep. cbn [snd]. intros [Hin|Hin]%elem_of_app Hwd _ Ht.
  - exfalso. eapply color_pair_calls; [by rewrite Ep|done].
  - apply Hnear, (visible_rect_in _ _ _ row col Ed); [done|]. by eapply fill_cells_in.
Qed.

(** ** A frame *)

Definition inside (W H : Z) (b : bounding_box) : Prop :=
  0 <= bx b ∧ 0 <= by_ b ∧ bx b + bw b <= W * CELL_WIDTH ∧ by_ b + bh b <= H * CELL_HEIGHT.
Definition aligned (b : bounding_box) : Prop :=
  (CELL_WIDTH | bx b) ∧ (CELL_WIDTH | bw b) ∧ (CELL_HEIGHT | by_ b) ∧ (CELL_HEIGHT | bh b).

(** Rounding position and size separately adds at most one cell. *)
Lemma rounded_edge u p n k c : 0 < u → 0 <= p → p + n <= k * u → Z.quot (p + u / 2) u <= c < Z.quot (p + u / 2) u + Z.quot (n + u / 2) u →
  0 <= c <= k ∧ ((u | p) → (u | n) → c < k).
Proof using Type.
  intros Hu Hp Hk Hc. pose proof (Z.div_pos u 2 ltac:(lia) ltac:(lia)) as H2. pose proof (Z.mul_div_le u 2 ltac:(lia)) as H3.
  assert (0 <= n) as Hn.
  { destruct (Z.le_gt_cases 0 n) as [|Hneg]; [done|]. exfalso.
    assert (Z.quot (n + u / 2) u <= 0); [|lia]. destruct (Z.le_gt_cases 0 (n + u / 2)).
    - rewrite Z.quot_small; [done|]. split; [done|]. lia.
    - pose proof (Z.quot_opp_l (- (n + u / 2)) u ltac:(lia)) as E. rewrite Z.opp_involutive in E. rewrite E.
      pose proof (Z.quot_pos (- (n + u / 2)) u ltac:(lia) ltac:(lia)). lia. }
  rewrite !Z.quot_div_nonneg in Hc by lia.
  pose proof (Z.mul_div_le (p + u / 2) u ltac:(lia)). pose proof (Z.mul_div_le (n + u / 2) u ltac:(lia)).
  pose proof (Z.div_pos (p + u / 2) u ltac:(lia) ltac:(lia)). split; [nia|].
  intros [a ->] [b ->]. assert (∀ x, (x * u + u / 2) / u = x) as Hdiv.
  { intros x. rewrite Z.div_add_l, Z.div_small by lia. lia. }
  rewrite !Hdiv in Hc. nia.
Qed.

Lemma inside_cells W H b row col :
  inside W H b → in_rect (cells_of_box b) row col → 0 <= col <= W ∧ 0 <= row <= H ∧ (aligned b → col < W ∧ row < H).
Proof using Type.
  intros (Hx & Hy & Hr & Hb) [Hc Hd]. cbn in Hc, Hd. unfold to_col, to_row in *.
  destruct (rounded_edge CELL_WIDTH _ _ W col ltac:(done) Hx Hr Hc) as [? Hc'].
  destruct (rounded_edge CELL_HEIGHT _ _ H row ltac:(done) Hy Hb Hd) as [? Hd'].
  split_and!; [lia..|]. intros (? & ? & ? & ?). auto.
Qed.

Lemma push_inside W H b stack : Forall (inside W H) stack → Forall (inside W H) (Clay_Ncurses_PushScissor b stack).
Proof using Type.
  destruct stack as [|c stack]; [done|]. intros Hall. unfold Clay_Ncurses_PushScissor. destruct (_ <=? _)%nat; [done|].
  constructor; [|done]. apply Forall_cons_1 in Hall as [Hc _]. unfold inside in *. cbn.
  destruct (Z.ltb_spec (bx c) (bx b)), (Z.ltb_spec (by_ c) (by_ b)), (Z.ltb_spec (bx b + bw b) (bx c + bw c)),
    (Z.ltb_spec (by_ b + bh b) (by_ c + bh c)); lia.
Qed.

Lemma push_aligned b stack : aligned b → Forall aligned stack → Forall aligned (Clay_Ncurses_PushScissor b stack).
Proof using Type.
  destruct stack as [|c stack]; [done|]. intros (Hb1 & Hb2 & Hb3 & Hb4) Hall. unfold Clay_Ncurses_PushScissor. destruct (_ <=? _)%nat; [done|].
  constructor; [|done]. apply Forall_cons_1 in Hall as [(Hc1 & Hc2 & Hc3 & Hc4) _]. unfold aligned. cbn.
  split_and!; repeat case_match; auto using Z.divide_sub_r, Z.divide_add_r.
Qed.

Lemma pop_Forall (P : bounding_box → Prop) stack : Forall P stack → Forall P (Clay_Ncurses_PopScissor stack).
Proof using Type. destruct stack as [|a [|b stack]]; [done..|]. intros H. by apply Forall_cons_1 in H as [_ H]. Qed.

Lemma command_stack done st c mem :
  rn_stack (run_command done st c mem).1 = match c with
    | ScissorStart b => Clay_Ncurses_PushScissor b (rn_stack st) | ScissorEnd => Clay_Ncurses_PopScissor (rn_stack st) | _ => rn_stack st end.
Proof using Type.
  destruct c; cbn [render_command]; try done; unfold Clay_Ncurses_RenderRectangle, Clay_Ncurses_RenderText, Clay_Ncurses_RenderBorder; repeat case_match; done.
Qed.

Definition scissor_ok (c : command * bool) : Prop := match c.1 with ScissorStart b => aligned b | _ => True end.

Lemma commands_clipped wide W H cs done st :
  1 <= wide → rn_stack st ≠ [] → Forall (inside W H) (rn_stack st) →
  ∀ call row col, call ∈ (run_commands done st cs).2 → chars_within wide call → touch call row col →
    call ∈ done ∨ 0 <= col < W + wide ∧ 0 <= row <= H ∧
      (Forall aligned (rn_stack st) → Forall scissor_ok cs → col < W + wide - 1 ∧ row < H).
Proof using Type.
  intros Hwd. revert done st. induction cs as [|[c mem] cs IH]; intros done st Hne Hin call row col Hcall Hch Ht; cbn [render_commands] in Hcall; [by left|].
  pose proof (command_stack done st c mem) as Es. pose proof (command_clipped wide done st c mem call row col) as Hclip.
  destruct (render_command _ _ _ _ _ _ done st c mem) as [st1 calls]. cbn [fst snd] in *.
  assert (rn_stack st1 ≠ [] ∧ Forall (inside W H) (rn_stack st1)) as [Hne1 Hin1].
  { rewrite Es. destruct c; [done..| |by split; [destruct (rn_stack st) as [|? []]|apply pop_Forall]|done].
    split; [|by apply push_inside]. destruct (rn_stack st); [done|]. unfold Clay_Ncurses_PushScissor. by destruct (_ <=? _)%nat. }
  destruct (IH (done ++ calls) st1 Hne1 Hin1 call row col Hcall Hch Ht) as [[?|Hc]%elem_of_app|(? & ? & Hal)]; [by left| |].
  - right. destruct (Hclip Hc Hwd Hch Ht) as (col0 & Hcol & Hr0). clear Hclip. rename Hr0 into Hclip. destruct (rn_stack st) as [|b stack] eqn:Est; [done|]. unfold clip_of in Hclip. rewrite Est in Hclip. cbn in Hclip.
    apply Forall_cons_1 in Hin as [Hb _]. destruct (inside_cells W H b row col0 Hb Hclip) as (? & ? & Hal). split_and!; [lia..|].
    intros Ha _. apply Forall_cons_1 in Ha as [Ha _]. specialize (Hal Ha). lia.
  - right. split_and!; [lia..|]. intros Ha [Hs Hss]%Forall_cons_1. apply Hal; [|done]. rewrite Es.
    destruct c; [done..|by apply push_aligned|by apply pop_Forall|done].
Qed.
End clipping.

(** ** Numbers

    Boxes of at most 16384 layout units in each direction, given in 1/256, and screens and
    texts of a size that such boxes can have. *)
Definition in_range (b : bounding_box) : Prop := Forall (λ v, Z.abs v <= 2 ^ 22) [bx b; by_ b; bw b; bh b].
Definition command_in_range (c : command * bool) : Prop :=
  match c.1 with
  | Rectangle box _ | Border box _ _ | ScissorStart box => in_range box
  | Text box _ text _ _ => in_range box ∧ Z.of_nat (length text) <= 2 ^ 24
  | _ => True
  end.

(** The edges and sizes computed from a clip are below [2 ^ 24] in 1/256 units, where the
    sums, differences and quotients by 8 and 16 that the source takes of them are exact in
    [float], and their cells are within [int]. *)
Definition exact_clip (b : bounding_box) : Prop :=
  Z.abs (bx b) <= 2 ^ 22 ∧ Z.abs (by_ b) <= 2 ^ 22 ∧ Z.abs (bx b + bw b) <= 2 ^ 23 ∧ Z.abs (by_ b + bh b) <= 2 ^ 23 ∧
  Z.abs (bw b) + CELL_WIDTH < 2 ^ 24 ∧ Z.abs (bh b) + CELL_HEIGHT < 2 ^ 24.

Lemma exact_axis c cw x w u : 0 <= u <= 2 ^ 12 → Z.abs c <= 2 ^ 22 → Z.abs (c + cw) <= 2 ^ 23 → Z.abs x <= 2 ^ 22 → Z.abs w <= 2 ^ 22 →
  let n := if c <? x then x else c in
  let e := if x + w <? c + cw then x + w else c + cw in
  Z.abs n <= 2 ^ 22 ∧ Z.abs (n + (e - n)) <= 2 ^ 23 ∧ Z.abs (e - n) + u < 2 ^ 24.
Proof. intros Hu H1 H2 H3 H4. destruct (Z.ltb_spec c x), (Z.ltb_spec (x + w) (c + cw)); cbn zeta; lia. Qed.

Lemma push_exact b stack : in_range b → Forall exact_clip stack → Forall exact_clip (Clay_Ncurses_PushScissor b stack).
Proof.
  destruct stack as [|c stack]; [done|]. intros Hb Hall. unfold Clay_Ncurses_PushScissor. destruct (_ <=? _)%nat; [done|].
  constructor; [|done]. apply Forall_cons_1 in Hall as [(C1 & C2 & C3 & C4 & _) _].
  apply Forall_cons_1 in Hb as [Hx [Hy [Hw [Hh _]%Forall_cons_1]%Forall_cons_1]%Forall_cons_1].
  destruct (exact_axis (bx c) (bw c) (bx b) (bw b) CELL_WIDTH ltac:(done) C1 C3 Hx Hw) as (? & ? & ?).
  destruct (exact_axis (by_ c) (bh c) (by_ b) (bh b) CELL_HEIGHT ltac:(done) C2 C4 Hy Hh) as (? & ? & ?).
  unfold exact_clip. cbn [bx by_ bw bh]. by split_and!.
Qed.

Lemma commands_exact colors blank_at background_at mbtowc mbstowcs wcwidth cs : ∀ before st,
  Forall command_in_range cs → Forall exact_clip (rn_stack st) →
  Forall exact_clip (rn_stack (render_commands colors blank_at background_at mbtowc mbstowcs wcwidth before st cs).1).
Proof.
  induction cs as [|[c mem] cs IH]; intros before st Hcs Hst; cbn [render_commands]; [done|].
  apply Forall_cons_1 in Hcs as [Hc Hcs].
  pose proof (command_stack colors blank_at background_at mbtowc mbstowcs wcwidth before st c mem) as Es.
  destruct (render_command _ _ _ _ _ _ before st c mem) as [st1 calls]. cbn [fst] in Es. apply IH; [done|]. rewrite Es.
  destruct c; [done..|by apply push_exact|by apply pop_Forall|done].
Qed.

(** C15. A frame stays on the screen: whatever commands the layout produces - boxes and
    clips of any position, size and nesting within the range of exact coordinates, texts of
    characters of at most two columns, allocation failures - every cell that is drawn lies
    on the screen of [W] columns and [H] rows, in the row below or in the two columns to
    its right; in the first of these only unless the call writes a wide character, and
    on the screen proper if besides the clips are made of whole cells, where a wide
    character in the last column still overhangs by one.  The clips stay in the range in
    which the arithmetic of the source is exact. *)
Theorem frame_stays_on_screen colors blank_at background_at mbtowc mbstowcs wcwidth W H cache cs :
  0 <= W <= 2 ^ 11 → 0 <= H <= 2 ^ 10 → (∀ c, wcwidth c <= 2) → Forall command_in_range cs →
  Forall exact_clip (rn_stack (Clay_Ncurses_Render colors blank_at background_at mbtowc mbstowcs wcwidth W H cache cs).1) ∧
  ∀ call row col,
    call ∈ (Clay_Ncurses_Render colors blank_at background_at mbtowc mbstowcs wcwidth W H cache cs).2 → touches wcwidth call row col →
    0 <= col <= W + 1 ∧ 0 <= row <= H ∧ (Forall scissor_ok cs → col <= W ∧ row < H) ∧
    (chars_within wcwidth 1 call → col <= W ∧ (Forall scissor_ok cs → col < W)).
Proof.
  intros HW HH Hw2 Hcs.
  assert (∀ wide call row col, 1 <= wide → chars_within wcwidth wide call →
    call ∈ (Clay_Ncurses_Render colors blank_at background_at mbtowc mbstowcs wcwidth W H cache cs).2 → touches wcwidth call row col →
    0 <= col < W + wide ∧ 0 <= row <= H ∧ (Forall scissor_ok cs → col < W + wide - 1 ∧ row < H)) as Hgen.
  { intros wide call row col Hwd Hch Hcall Ht.
    destruct (commands_clipped colors blank_at background_at mbtowc mbstowcs wcwidth wide W H cs [] (mk_renderer [screen_box W H] cache)
      Hwd ltac:(done)) with (call := call) (row := row) (col := col) as [Hnil|(? & ? & Hal)]; try done; [|by apply not_elem_of_nil in Hnil|].
    - constructor; [|constructor]. unfold inside, screen_box. cbn [bx by_ bw bh]. lia.
    - split_and!; [lia..|]. intros Hs. apply Hal; [|done]. constructor; [|constructor]. unfold aligned, screen_box. cbn [bx by_ bw bh].
      split_and!; try apply Z.divide_0_r; apply Z.divide_factor_r. }
  split.
  - apply commands_exact; [done|]. constructor; [|constructor]. unfold exact_clip, screen_box, CELL_WIDTH, CELL_HEIGHT. cbn [bx by_ bw bh]. lia.
  - intros call row col Hcall Ht. destruct (Hgen 2 call row col) as (? & ? & Hs2); [lia|by destruct call; cbn; auto|done|done|].
    split_and!; [lia..|intros Hs; specialize (Hs2 Hs); lia|]. intros Hch.
    destruct (Hgen 1 call row col) as (? & ? & Hs1); [lia|done..|]. split; [lia|]. intros Hs. specialize (Hs1 Hs). lia.
Qed.

(** Plain characters, one column each, on a screen of 3 by 2. *)
Definition ascii_render (cs : list (command * bool)) : renderer * list ncall :=
  Clay_Ncurses_Render 256 (λ _ _ _ _, false) (λ _ _ _, 0) (λ s, match s with c :: _ => Some (c, 1%nat) | [] => None end) Some (λ _, 1) 3 2 [] cs.

Definition half_cell_clip : list (command * bool) :=
  [(ScissorStart (mk_box 1024 0 6000 8192), true); (Text (mk_box 0 0 0 0) (255, 255, 255) [97; 98; 99; 100; 101] true false, true); (ScissorEnd, true)].

(** A clip that starts in the middle of a cell: the text reaches the column behind the
    screen. *)
Lemma frame_stays_on_screen_witness :
  ∃ call, call ∈ (ascii_render half_cell_clip).2 ∧ touches (λ _, 1) call 0 3 ∧ 0 <= 3 <= 3 ∧ 0 <= 0 <= 2.
Proof.
  assert (AddWStr 0 1 [98; 99; 100] ∈ (ascii_render half_cell_clip).2) as Hin.
  { vm_compute. do 3 apply list_elem_of_further. apply list_elem_of_here. }
  assert (touches (λ _, 1) (AddWStr 0 1 [98; 99; 100]) 0 3) as Ht by (cbn; lia).
  exists (AddWStr 0 1 [98; 99; 100]). split; [exact Hin|]. split; [exact Ht|].
  destruct (frame_stays_on_screen 256 (λ _ _ _ _, false) (λ _ _ _, 0) (λ s, match s with c :: _ => Some (c, 1%nat) | [] => None end) Some (λ _, 1)
    3 2 [] half_cell_clip) as [_ Hcells].
  - lia.
  - lia.
  - intros c. lia.
  - unfold half_cell_clip, command_in_range, in_range. cbn. repeat constructor; cbn; lia.
  - destruct (Hcells _ 0 3 Hin Ht) as (_ & H2 & _ & H1). destruct H1 as [H1 _]; [intros c _; lia|]. split; [lia|exact H2].
Defined.

(** ** Clips and scopes *)

(** Commands whose clips are opened and closed in pairs, nested at most [n] deep. *)
Inductive nested : nat → list (command * bool) → Prop :=
| nested_nil n : nested n []
| nested_draw n c mem cs : (∀ b, c ≠ ScissorStart b) → c ≠ ScissorEnd → nested n cs → nested n ((c, mem) :: cs)
| nested_scope n b m1 inner m2 cs :
    nested n inner → nested (S n) cs → nested (S n) ((ScissorStart b, m1) :: inner ++ (ScissorEnd, m2) :: cs).

(** What commands do to the stack. *)
Definition stack_step (stack : list bounding_box) (c : command * bool) : list bounding_box :=
  match c.1 with
  | ScissorStart b => Clay_Ncurses_PushScissor b stack
  | ScissorEnd => Clay_Ncurses_PopScissor stack
  | _ => stack
  end.

Lemma nested_stack n cs stack :
  nested n cs → stack ≠ [] → (length stack + n <= MAX_SCISSOR_STACK_DEPTH)%nat → foldl stack_step stack cs = stack.
Proof.
  intros Hn. revert stack. induction Hn as [n|n c mem cs Hs He _ IH|n b m1 inner m2 cs _ IH1 _ IH2]; intros stack Hne Hlen; [done| |].
  - cbn [foldl]. replace (stack_step stack (c, mem)) with stack by (destruct c; try done; by destruct (Hs box)). by apply IH.
  - cbn [foldl]. destruct stack as [|a stack]; [done|]. cbn [stack_step fst].
    assert (∃ b', Clay_Ncurses_PushScissor b (a :: stack) = b' :: a :: stack) as [b' ->].
    { unfold Clay_Ncurses_PushScissor, MAX_SCISSOR_STACK_DEPTH in *. cbn [length] in *.
      destruct (Nat.leb_spec (16 - 1) (S (length stack) - 1)); [lia|by eexists]. }
    rewrite foldl_app, IH1 by (done || cbn [length] in *; lia). cbn [foldl stack_step fst Clay_Ncurses_PopScissor]. by apply IH2.
Qed.

Lemma commands_stack colors blank_at background_at mbtowc mbstowcs wcwidth cs done st :
  rn_stack (render_commands colors blank_at background_at mbtowc mbstowcs wcwidth done st cs).1 = foldl stack_step (rn_stack st) cs.
Proof.
  revert done st. induction cs as [|[c mem] cs IH]; intros done st; [reflexivity|]. cbn [render_commands foldl].
  pose proof (command_stack colors blank_at background_at mbtowc mbstowcs wcwidth done st c mem) as Es.
  destruct (render_command _ _ _ _ _ _ done st c mem) as [st1 calls]. cbn [fst] in Es. rewrite IH, Es. by destruct c.
Qed.

(** A scope leaves the clip as it was, up to 15 scopes deep; the sixteenth is not opened
    but closed, and what follows it is drawn with the clip of an outer scope. *)
Theorem scopes_restore_clip colors blank_at background_at mbtowc mbstowcs wcwidth :
  (∀ n cs done st, nested n cs → rn_stack st ≠ [] → (length (rn_stack st) + n <= 16)%nat →
     clip_of (render_commands colors blank_at background_at mbtowc mbstowcs wcwidth done st cs).1 = clip_of st) ∧
  let box k := mk_box (Z.of_nat k * CELL_WIDTH) 0 (100 * CELL_WIDTH) (100 * CELL_HEIGHT) in
  let fifteen := (λ k, (ScissorStart (box k), true)) <$> seq 1 15 in
  let scope := [(ScissorStart (box 16%nat), true); (ScissorEnd, true)] in
  let clip cs := clip_of (render_commands colors blank_at background_at mbtowc mbstowcs wcwidth [] (mk_renderer [box 0%nat] []) cs).1 in
  bx (clip fifteen) = 15 * CELL_WIDTH ∧ bx (clip (fifteen ++ scope)) = 14 * CELL_WIDTH.
Proof.
  split.
  - intros n cs done st Hn Hne Hlen. unfold clip_of. by rewrite commands_stack, (nested_stack n).
  - cbn zeta. unfold clip_of. rewrite !commands_stack. split; vm_compute; reflexivity.
Qed.

(** ** Attributes *)

#[export] Instance attribute_eq_dec : EqDecision attribute.
Proof. solve_decision. Defined.

(** Whether an attribute is on after a call. *)
Definition lit_step (a : attribute) (s : bool) (c : ncall) : bool :=
  match c with
  | AttrOn b => if decide (a = b) then true else s
  | AttrOff b => if decide (a = b) then false else s
  | _ => s
  end.
Definition lit (a : attribute) (calls : list ncall) : bool := foldl (lit_step a) false calls.
Definition no_attr (c : ncall) : Prop := match c with AttrOn _ | AttrOff _ => False | _ => True end.

Lemma lit_quiet a s l : Forall no_attr l → foldl (lit_step a) s l = s.
Proof. induction 1 as [|c l Hc _ IH]; [done|]. cbn [foldl]. by destruct c. Qed.

Lemma quiet_fill blank_at calls r pr : Forall no_attr (fill_cells blank_at calls r pr).
Proof.
  unfold fill_cells. apply Forall_concat, Forall_fmap, Forall_true. intros row. apply Forall_concat, Forall_fmap, Forall_true. intros col.
  cbn. destruct (blank_at _ _ _ _); by repeat constructor.
Qed.

Lemma quiet_pair fg bg cache : Forall no_attr (Clay_Ncurses_GetColorPair fg bg cache).2.
Proof. unfold Clay_Ncurses_GetColorPair. repeat case_match; by repeat constructor. Qed.

Lemma quiet_guard (c : bool) l : Forall no_attr l → Forall no_attr (if c then l else []).
Proof. by destruct c. Qed.
Lemma quiet_side lo hi vis_lo vis_n line : (∀ s n, no_attr (line s n)) → Forall no_attr (border_side lo hi vis_lo vis_n line).
Proof. intros H. unfold border_side. repeat case_match; by repeat constructor. Qed.

Create HintDb renderer.
#[export] Hint Resolve quiet_fill quiet_guard quiet_side Forall_nil_2 : renderer.

Lemma command_lit colors blank_at background_at mbtowc mbstowcs wcwidth calls st c a :
  foldl (lit_step a) false (render_command colors blank_at background_at mbtowc mbstowcs wcwidth calls st c true).2 = false.
Proof.
  destruct c as [box color|box color text bold underline|box color width|box| |]; cbn [render_command snd]; try done;
    unfold Clay_Ncurses_RenderRectangle, Clay_Ncurses_RenderText, Clay_Ncurses_RenderBorder;
    (destruct (Clay_Ncurses_GetVisibleRect _ _) as [d|]; [|done]);
    match goal with |- context [Clay_Ncurses_GetColorPair ?fg ?bg ?cache] => pose proof (quiet_pair fg bg cache) as Hq end;
    (destruct (Clay_Ncurses_GetColorPair _ _ _) as [[pr cache] new]); cbn [snd] in *; rewrite !foldl_app, (lit_quiet a false new) by done.
  - by rewrite lit_quiet by auto with renderer.
  - rewrite (lit_quiet a _ (match mbstowcs text with Some _ => _ | None => _ end)) by (destruct (mbstowcs text); [|constructor]; destruct (visible_chars _ _ _ _ _ _ _ _); case_match; by repeat constructor).
    destruct bold, underline; cbn [foldl lit_step]; repeat case_decide; congruence.
  - cbn [foldl]. rewrite !lit_quiet by (apply quiet_guard; first [by apply quiet_side|by repeat constructor]). cbn [lit_step]. by repeat case_decide.
Qed.

(** Every attribute a frame switches on is switched off again, if its allocations succeed;
    a text that finds no memory leaves its style on for the rest of the screen. *)
Theorem attributes_switched_off colors blank_at background_at mbtowc mbstowcs wcwidth W H cache cs :
  Forall (λ c, c.2 = true) cs →
  (∀ a, lit a (Clay_Ncurses_Render colors blank_at background_at mbtowc mbstowcs wcwidth W H cache cs).2 = false) ∧
  lit Bold (ascii_render [(Text (mk_box 0 0 0 0) (0, 0, 0) [97] true false, false)]).2 = true.
Proof.
  intros Hm. split; [|vm_compute; reflexivity]. intros a. unfold Clay_Ncurses_Render, lit.
  assert (∀ calls st, foldl (lit_step a) false calls = false →
    foldl (lit_step a) false (render_commands colors blank_at background_at mbtowc mbstowcs wcwidth calls st cs).2 = false) as Hall; [|by apply Hall].
  induction Hm as [|[c mem] cs Hc _ IH]; intros calls st Hs; [exact Hs|]. cbn in Hc. subst mem. cbn [render_commands].
  pose proof (command_lit colors blank_at background_at mbtowc mbstowcs wcwidth calls st c a) as Hl.
  destruct (render_command _ _ _ _ _ _ calls st c true) as [st1 new]. cbn [snd] in Hl. apply IH. by rewrite foldl_app, Hs.
Qed.

(** A wide character in the last visible column reaches over the edge of the clip. *)
Theorem wide_text_overruns :
  let run := Clay_Ncurses_Render 256 (λ _ _ _ _, false) (λ _ _ _, 0) (λ s, match s with c :: _ => Some (c, 1%nat) | [] => None end) Some (λ _, 2) 3 2 [] in
  ∃ call, call ∈ (run [(Text (mk_box 0 0 0 0) (0, 0, 0) [97; 98] false false, true)]).2 ∧ touches (λ _, 2) call 0 3.
Proof.
  exists (AddWStr 0 0 [97; 98]). split; [vm_compute; do 2 apply list_elem_of_further; apply list_elem_of_here|cbn; lia].
Qed.

(** ** Colour pairs *)

(** Pairs are numbered from 1 and no two have the same colours. *)
Definition cache_ok (cache : color_cache) : Prop :=
  (∀ i e, cache !! i = Some e → e.2 = Z.of_nat i + 1) ∧ NoDup cache.*1 ∧ (length cache <= MAX_COLOR_PAIRS_CACHE)%nat.

(** A pair other than 0 has the colours asked for, is made once, and stays; 0 is returned
    only when the table is full. *)
Theorem color_pair_has_colors fg bg cache :
  cache_ok cache →
  let '(pr, cache', calls) := Clay_Ncurses_GetColorPair fg bg cache in
  cache_ok cache' ∧ cache `prefix_of` cache' ∧
  ((fg, bg, pr) ∈ cache' ∧ 0 < pr ∧ calls = (if decide ((fg, bg) ∈ cache.*1) then [] else [InitPair pr fg bg]) ∨
   pr = 0 ∧ length cache = MAX_COLOR_PAIRS_CACHE ∧ cache' = cache).
Proof.
  intros (Hid & Hnd & Hlen). unfold Clay_Ncurses_GetColorPair.
  destruct (list_find _ cache) as [[i [[f b] id]]|] eqn:Ef.
  - apply list_find_Some in Ef as (Hi & [Hf Hb] & _). cbn in Hf, Hb. subst f b. split_and!; [done|done|]. left.
    pose proof (Hid i _ Hi) as Hi'. cbn in Hi'. split_and!; [by eapply list_elem_of_lookup_2|lia|].
    rewrite decide_True; [done|]. apply list_elem_of_lookup_2 in Hi. by apply (list_elem_of_fmap_2 fst) in Hi.
  - apply list_find_None in Ef. rewrite list.Forall_forall in Ef.
    assert ((fg, bg) ∉ cache.*1) as Hnew.
    { intros ([[f b] id] & E & Hin)%list_elem_of_fmap. cbn in E. injection E as -> ->. by apply (Ef _ Hin). }
    destruct (Nat.leb_spec MAX_COLOR_PAIRS_CACHE (length cache)); [split_and!; [done|done|right; split_and!; [done|lia|done]]|].
    split_and!; [split_and!|by eexists|left; split_and!].
    + intros i e Hi. apply lookup_app_Some in Hi as [Hi|[Hge Hi]]; [by apply Hid|].
      apply list_lookup_singleton_Some in Hi as [Hz <-]. cbn. lia.
    + rewrite fmap_app. apply list.NoDup_app. split_and!; [done| |by apply NoDup_singleton].
      intros x Hx Hx'. apply list_elem_of_singleton in Hx' as ->. done.
    + rewrite length_app. cbn. lia.
    + rewrite elem_of_app, list_elem_of_singleton. by right.
    + lia.
    + by rewrite decide_False.
Qed.

(** ** Mouse *)

Record mouse_event : Type := mk_mouse {
  me_x : Z; me_y : Z;
  me_press : bool;               (* button 1 pressed, or clicked two or three times *)
  me_release : bool; me_wheel_up : bool; me_wheel_down : bool; me_modifier : bool
}.
Inductive key_result : Type := KeyCode (k : Z) | MouseClick | ScrollUp | ScrollDown | ScrollLeft | ScrollRight.

(** [mouse] is the event of [KEY_MOUSE], if it can be read; the result, the state of the
    button, and the pointer given to the layout. *)
Definition Clay_Ncurses_ProcessInput (key : Z) (is_mouse : bool) (mouse : option mouse_event) (down : bool) :
    key_result * bool * option (Z * Z * bool) :=
  if is_mouse then
    match mouse with
    | None => (KeyCode key, down, None)
    | Some e =>
        let pos := (me_x e * CELL_WIDTH, me_y e * CELL_HEIGHT) in
        let down := if me_press e then true else if me_release e then false else down in
        let result :=
          if me_press e then MouseClick
          else if me_wheel_up e then (if me_modifier e then ScrollLeft else ScrollUp)
          else if me_wheel_down e then (if me_modifier e then ScrollRight else ScrollDown)
          else KeyCode key in
        (result, down, Some (pos, down))
    end
  else (KeyCode key, down, None).

(** The pointer is in the cell that was clicked. *)
Theorem pointer_in_cell key e down :
  0 <= me_x e → 0 <= me_y e →
  match (Clay_Ncurses_ProcessInput key true (Some e) down).2 with
  | Some (x, y, _) => to_col x = me_x e ∧ to_row y = me_y e
  | None => False
  end.
Proof.
  intros Hx Hy. cbn. unfold to_col, to_row.
  assert (∀ u n, 0 < u → 0 <= n → Z.quot (n * u + u / 2) u = n) as Hq.
  { intros u n Hu Hn. pose proof (Z.div_pos u 2 ltac:(lia) ltac:(lia)). pose proof (Z.div_lt u 2 Hu ltac:(lia)).
    rewrite Z.quot_div_nonneg by nia. rewrite Z.div_add_l, Z.div_small by lia. lia. }
  by rewrite !Hq by done.
Qed.
